(* ===== verification/_CoqProject ===== *)
-Q . S2P
Prelude.v
Bitcount.v
Isqrt.v
Crc32.v
Adpcm.v
AdpcmDriver.v
GsmArith.v
GsmState.v
GsmFrame.v
GsmPreprocess.v
GsmLpc.v
GsmShortTerm.v
GsmLongTerm.v
GsmRpe.v
GsmCodec.v
Dijkstra.v
StringSearch.v
Sha.v
BlowfishTables.v
Blowfish.v
Patricia.v
PatriciaTree.v
PatriciaTrie.v
PatriciaRemove.v
AesTables.v
Aes.v
AesSpec.v
AesCipher.v
Aesxam.v
ToastTables.v
ToastIO.v
Toast.v
ToastStream.v
ToastFile.v
SusanImage.v
SusanFloat.v
SusanPrinciple.v
SusanLut.v
SusanPgm.v
SusanMedian.v
SusanSmooth.v
SusanEdges.v
SusanCorners.v
SusanThin.v
SusanMain.v
PgpMd5.v
PgpIdea.v
PgpRandPool.v
PgpCfb.v
PgpMpi.v
PgpSmith.v
PgpModexp.v
PgpMpiio.v
PgpKey.v
Fermat.v
PgpPrime.v
PgpRsa.v
