(* ===== verification/Prelude.v ===== *)
(** * Verified models of the MiBench workloads of the fault-injection study

    The repository is a fault-injection study: a fork of the gem5 simulator
    (third-party C++), scripts that gather statistics, and the MiBench programs
    in C under [src/mibench] that are run in the simulator.  This library is
    about the C programs, which are the repository's workloads and what a fault
    injected there can corrupt: it states what each of them computes when
    nothing goes wrong.

    ** The target

    The programs are built for LP64 little-endian machines: [int] has 32 bits,
    [long] 64, [char] is signed.  A C integer is a [Z]; every conversion that
    can change a value is written out with [u8 .. u64], [i8 .. i64] of this
    file.  Behaviour that C leaves undefined is [None] or a constructor of its own
    where the code can run into it ([SusanImage.Undef], [Toast.Bad_printf],
    [Aesxam.Overflow], the shift of [Patricia.bit]); what an uninitialised
    variable holds is a parameter.  An array is a list, read with [a.[i]] and written with [aset]; a
    loop with a counter is [for_range].  A failed [assert] or an [exit] is
    [None] (or a constructor of a result type); a loop or recursion that is not
    structural takes fuel, and its theorem shows that the fuel is enough.  Three
    programs assume 32-bit words: SHA, modelled for any size of [long],
    Rijndael, modelled with the 32-bit [word] its comment demands (with 64 bits it
    writes past its buffers), and PGP,
    modelled with the 32-bit [word32] it has on the Alpha and the ARM; in its
    modular multiplication the width of [unsigned long] is a parameter, since 32
    bits turn out not to be enough.

    ** Files and the sources they model (paths under [src/mibench])

    - [Prelude]: machine integers, bits, arrays, loops, sums, finite checks, the
      option monad and characters, with the lemmas and tactics the other files
      share.
    - [Bitcount] (automotive/bitcount): the bit counters of [bitcnt_1.c] to
      [bitcnt_4.c], the benchmark loop of [bitcnts.c], bit arrays
      ([bitarray.c]), bit strings ([bitstrng.c], [bstr_i.c]) and bit files
      ([bitfiles.c]).
    - [Isqrt] (automotive/basicmath): [usqrt] of [isqrt.c].
    - [Crc32] (telecomm/CRC32): [crc_32.c], the table, the buffer and file CRC
      and [main] over a file system that is a parameter.
    - [Adpcm], [AdpcmDriver] (telecomm/adpcm): coder and decoder of [adpcm.c],
      and the filters [rawcaudio.c] and [rawdaudio.c] around them.
    - GSM 06.10 (telecomm/gsm), the largest program, one file per stage:
      [GsmArith] ([add.c] and the macros of [private.h]), [GsmState] (the state
      record, [gsm_create.c], [gsm_option.c], [table.c]), [GsmFrame] (the bit
      packing of [gsm_encode.c], [gsm_decode.c], [gsm_implode.c],
      [gsm_explode.c]), [GsmPreprocess] ([preprocess.c] and the postprocessing
      of [decode.c]), [GsmLpc] ([lpc.c]), [GsmShortTerm] ([short_term.c]),
      [GsmLongTerm] ([long_term.c]), [GsmRpe] ([rpe.c]) and [GsmCodec]
      ([code.c], [decode.c] and the entry points [gsm_encode], [gsm_decode]).
      A coder frame runs preprocess, LPC, short-term analysis, then four times
      long-term prediction and RPE coding on the shared history [dp0]; the
      decoder runs the inverse.  The configuration is the one the Makefile
      builds: no floating point, no [FAST], no [LTP_CUT], no [WAV49].
    - The command around the codec: [ToastTables] and [ToastIO] (the companding
      tables and the formats of [toast_ulaw.c], [toast_alaw.c], [toast_lin.c],
      [toast_audio.c], on streams that can fail), [Toast] ([toast.c]: names,
      options, opening files, the conversion loops and [process], over a file
      system and a record of which system calls succeed and after how many bytes
      reading a file fails), [ToastStream] (what
      the conversion loops compute) and [ToastFile] (what happens to the files).
      [ToastIO] states what a format promises as the classes [SampleReader] and
      [SampleWriter], [ToastStream] as [FormatOk]; the loops are verified
      against them.
    - [Dijkstra] (network/dijkstra): [dijkstra_large.c]; the small program
      differs only in the number of queries.
    - Patricia trie (network/patricia): [Patricia] ([patricia.c] and the loop of
      [patricia_test.c] on an explicit heap of nodes), [PatriciaTree] (the trees
      that a heap represents), [PatriciaTrie] (search and insertion),
      [PatriciaRemove] (removal, and the set as abstract specification).
    - [StringSearch] (office/stringsearch): the Pratt-Boyer-Moore search of
      [pbmsrch_small.c] and the Horspool searches of [bmhsrch.c],
      [bmhisrch.c], [bmhasrch.c].
    - [Sha] (security/sha): [sha.c] with its in-place byte reversal, block
      buffer and padding.
    - [BlowfishTables], [Blowfish] (security/blowfish): the cipher, its key
      schedule, the ECB, CBC, CFB and OFB modes and the program [bf.c].
    - Rijndael (security/rijndael): [AesTables] ([aestab.h]), [Aes] ([aes.c]:
      key schedule, rounds and the table generator), [AesSpec] (the cipher of
      FIPS 197, written from the standard), [AesCipher] (the refinement) and
      [Aesxam] ([aesxam.c]: files in CBC mode, with room for a number of bytes in
      the output; the arithmetic of [int] in the key loop is a parameter).
    - SUSAN (automotive/susan, [susan.c]), image processing: [SusanImage]
      (buffers whose accesses are checked, the pixel loops and the pointer walks
      over the masks), [SusanFloat] ([float] and [double] arithmetic on the
      Standard Library's [SpecFloat], with bounds on its results),
      [SusanPrinciple] ([susan_principle] and the USAN of a pixel), [SusanLut]
      ([setup_brightness_lut]), [SusanPgm] (image files, [int_to_uchar]),
      [SusanMedian] ([median], [enlarge]), [SusanSmooth] ([susan_smoothing]),
      [SusanEdges] ([susan_edges], [susan_edges_small], [edge_draw]),
      [SusanCorners] ([susan_corners], [susan_corners_quick], [corner_draw]),
      [SusanThin] ([susan_thin]) and [SusanMain] ([main]).  [exp], [atof],
      [atoi] and [malloc] are parameters; what is relied on is the classes
      [SusanLut.ExpOk] and [SusanMain.LibcOk].  That [malloc] succeeds is a
      hypothesis of the theorems: the program uses a null pointer without a test.

    - PGP (security/pgp/src), its symmetric cryptography: [PgpMd5] ([md5.c]),
      [PgpIdea] (the block cipher of [idea.c]), [PgpRandPool] ([randpool.c]) and
      [PgpCfb] (the rest of [idea.c]: cipher feedback with resynchronisation and
      the generator of session keys, which encrypts bytes of the pool).
    - PGP, its public-key cryptography: [PgpMpi] (the multiprecision primitives
      and divisions of [mpilib.c]), [PgpSmith] (Smith's modular multiplication),
      [PgpModexp] ([mp_modexp], [mp_modexp_crt]), [PgpMpiio] (byte order and
      packet integers of [mpiio.c]), [PgpKey] ([mp_gcd] and [mp_inv] of
      [genprime.c], [derive_rsakeys] of [rsagen.c]), [PgpPrime] (the table, the
      sieve and the search of [genprime.c]) and [PgpRsa] ([rsaglue1.c] and the
      final test of [rsa_keygen]).  [Fermat] holds the number theory they rest
      on and models no code.  A register is the list of its 16-bit units; the
      record [PgpRsa.rsa_key] is the contract between key generation, which
      establishes it, and encryption and signatures, which are verified against
      it.

    A C function keeps its name; the loops and branches of a long function are
    definitions of their own, named after it or after what they compute, and
    composed as the function composes them.

    ** What the theorems show

    - Whole programs.  From every state a GSM coder or decoder can reach, coding
      any 160 samples and decoding any 33 bytes returns and no assertion fails,
      and the parameters of a frame fit their fields before they are packed;
      a decoder that hears every frame keeps the coder's residual history and
      log-area ratios.  Every toast command terminates, or comes to the one
      message whose printing is undefined, which needs a file with other links; it
      never removes a file before its conversion is complete, unless a read error
      goes unnoticed (decoding, or linear samples), and toast and untoast undo each
      other up to the loss of the codec.  The shortest-path program terminates within
      its memory and prints a cheapest path for each query.  The trie program
      reports an address as found exactly when it was read before, up to a failing
      allocation.  The Rijndael program decrypts its own output, for files of every
      length, and reports every write that fails.  The SUSAN program, on any
      well-formed image and in every mode but [-p], if [malloc] succeeds and neither
      threshold is 0, stays inside its buffers, divides and converts only where C defines it, and writes an
      image of the same size.
    - PGP's public-key cryptography, from the units up: a value lemma for each
      primitive says what it does to the number a register stands for; Smith's
      multiplication computes products modulo any modulus of three units or
      more; [mp_modexp] computes powers with all its error statuses; the Chinese
      remainder version computes the number with the right residues;
      [derive_rsakeys] finds a public exponent and the right inverses; the search
      for primes skips none; with Fermat's theorem it follows that decryption
      undoes encryption, that verification recovers the digest signed, and that
      the final test of a key made of two primes succeeds.
    - Refinement of an abstract specification: the trie is a set under
      insertion, removal (unless the uninitialised pointer that the removal tests
      happens to be null) and search; [sha_stream] is the digest of FIPS 180;
      [encrypt] is the cipher of FIPS 197; CRC-32 is the bitwise polynomial
      division; PGP's MD5 is the digest of RFC 1321, its IDEA the cipher over
      the three group operations, and its feedback mode, with any cutting into
      calls, the one on a shift register of ciphertext bytes.
    - Functional correctness: the square root, the bit counters, the string
      searches (first occurrence or [NULL]), the LTP lag (first maximum of the
      cross-correlation), normalisation and division of [add.c]; SUSAN's
      response, edge labels, corners and smoothed pixels, each against a
      definition over the pixels of the mask, and the pixels its drawing paints.
    - Invariants: SUSAN's thinning never disconnects two edge points it keeps;
      its brightness table is well formed for every threshold but 0.
    - Equivalence of optimised code with a reference: RPE grid selection and
      positioning against the loops of their comments, the saturating macros,
      the AES tables against their generator, PGP's random pool against moving
      bytes one at a time, coding in pieces against coding
      the whole stream, the corner detector with its early exits against the
      sum over the whole mask.
    - Round trips and quantisation errors: the frame format in both directions,
      the short-term filters, log-area ratios, the APCM blocks, u-law codes, the
      ADPCM filters, the modes of Blowfish, AES and IDEA decryption, bit strings and bit
      files, PGM images, the integers of PGP packets, RSA blocks and signatures.
    - Bounds: the preprocessing filter never overflows; quantised parameters fit
      the fields of the frame; saturating operations are exact results clamped.
    - Where the code does not do what it means to, a theorem says what it does:
      the lost last byte of a bit file, the counter that diverges on negative
      numbers, the sign flip in the LPC rescaling, the pattern characters above
      127 that a Horspool search never finds, SHA with 8-byte longs, the bytes
      that the Blowfish program appends, the A-law tables that do not fit
      together, the read error that loses a file of linear samples, the overflow
      in the key loop of Rijndael, the mask
      loop and the address 0x80000000 in the trie, the divisions by zero and
      conversions of NaN that SUSAN's options and flat images lead to, the
      products Smith's algorithm gets wrong with a [long] of 32 bits.

    ** Fuel

    [bit_count] and the recursive counters need one unit per bit or digit, the
    string searches one per text character, the shortest-path search one per
    unit of [Dijkstra.search_bound] = 100 * 9999 (the sum of the labels plus
    the queue, which every iteration lowers); printing a path needs one per
    node.  A descent of the trie needs 33, one more than the bits of an address,
    and merging masks one per mask.  The key schedule of AES needs at most 16
    passes, each adding four of 64 words; the loops over files ([Aesxam],
    [Toast], [Blowfish.pieces]) one unit per byte left and one more.  The
    inversion modulo 65537 needs 16 iterations, one per bit of the smaller
    number; a deposit into the pool of random bytes or a withdrawal one per
    byte and two more.  Euclid's loops need 32 units of fuel per unit of the
    register, two division steps halving the divisor; the search for a public
    exponent may take as many turns as there are numbers of the precision, which
    [PgpKey.turns] counts in binary so that it can be run; the search for a prime
    needs its range.  SUSAN's thinning moves its counters backwards; it takes
    fuel, and its theorems hold for every amount: that it ends is not shown.
    The other loops are counted.

    ** What is not modelled

    Printing, timing and signals; [malloc] is modelled only by whether it
    succeeds, and command lines only after the shell and [getopt] have split
    them.  File times, modes and owners are left out.  Of the programs in floating
    point only SUSAN is modelled (cubic equations and the FFT are not); its
    sums over a mask, far below [2^31], are plain integers.  The vendored packages
    (jpeg, lame, mad, tiff, typeset, ghostscript, ispell, rsynth, sphinx)
    are left out, and so is the simulator.  Of PGP the key rings, packets,
    compression and armor are left out, of its key generation the loop of
    [rsa_keygen] that draws the two primes, the algorithms that are compiled out
    (Upton's and Merritt's multiplication, strong primes), conversions to strings
    and the burning of memory; that the numbers [nextprime] returns are prime is
    only as likely as four Fermat tests make it, and is a hypothesis where it
    matters.  Candidates for extension, in this order: the rest of [rsa_keygen],
    the index computations of the FFT, termination of SUSAN's thinning, the
    remaining test drivers. *)

From Stdlib Require Import ZArith Lia List Bool.
Import ListNotations.

#[global] Open Scope Z_scope.

(** ** Machine integers

    The workloads are built for LP64 little-endian targets (Alpha and x86-64):
    [char] is 8 bits and signed, [short] 16, [int] 32, [long] 64.  A C value is
    a [Z]; the conversions below are what an assignment to a narrower type or
    an unsigned operation does to it. *)

Definition zext (w x : Z) : Z := x mod 2 ^ w.
Definition sext (w x : Z) : Z := (x + 2 ^ (w - 1)) mod 2 ^ w - 2 ^ (w - 1).

Definition u8 (x : Z) : Z := zext 8 x.
Definition u16 (x : Z) : Z := zext 16 x.
Definition u32 (x : Z) : Z := zext 32 x.
Definition u64 (x : Z) : Z := zext 64 x.
Definition i8 (x : Z) : Z := sext 8 x.
Definition i16 (x : Z) : Z := sext 16 x.
Definition i32 (x : Z) : Z := sext 32 x.
Definition i64 (x : Z) : Z := sext 64 x.

Definition is_u8 (x : Z) : Prop := 0 <= x < 256.
Definition is_i16 (x : Z) : Prop := -32768 <= x <= 32767.
Definition is_u16 (x : Z) : Prop := 0 <= x < 2 ^ 16.
Definition is_u32 (x : Z) : Prop := 0 <= x < 2 ^ 32.
Definition is_i32 (x : Z) : Prop := - 2 ^ 31 <= x < 2 ^ 31.
Definition is_u64 (x : Z) : Prop := 0 <= x < 2 ^ 64.
Definition is_i64 (x : Z) : Prop := - 2 ^ 63 <= x < 2 ^ 63.

(** A C truth value. *)
Definition b2z (b : bool) : Z := if b then 1 else 0.

Declare Scope c_scope.
Delimit Scope c_scope with C.
Notation "x << y" := (Z.shiftl x y) (at level 51, left associativity) : c_scope.
Notation "x >> y" := (Z.shiftr x y) (at level 51, left associativity) : c_scope.
Notation "x .& y" := (Z.land x y) (at level 52, left associativity) : c_scope.
Notation "x .^ y" := (Z.lxor x y) (at level 53, left associativity) : c_scope.
Notation "x .| y" := (Z.lor x y) (at level 54, left associativity) : c_scope.
#[global] Open Scope c_scope.

(** ** Automation *)

Create HintDb cint.
Create HintDb zbits.

(** [lia] that also knows the equations of [/] and [mod] by constants. *)
Ltac zlia := Z.div_mod_to_equations; lia.

(** Evaluate the powers of two with a closed exponent. *)
Ltac is_Zclosed e :=
  lazymatch e with
  | Z0 => idtac
  | Zpos _ => idtac
  | Zneg _ => idtac
  | Z.add ?a ?b => is_Zclosed a; is_Zclosed b
  | Z.sub ?a ?b => is_Zclosed a; is_Zclosed b
  | Z.mul ?a ?b => is_Zclosed a; is_Zclosed b
  end.

Ltac zpow_compute :=
  repeat match goal with
    | |- context [2 ^ ?e] =>
        is_Zclosed e; let v := eval vm_compute in (2 ^ e) in change (2 ^ e) with v
    | H : context [2 ^ ?e] |- _ =>
        is_Zclosed e; let v := eval vm_compute in (2 ^ e) in change (2 ^ e) with v in H
    end.

(** Case analysis on the comparisons a C condition is made of. *)
Ltac zcases :=
  repeat match goal with
    | |- context [?a <? ?b] => destruct (Z.ltb_spec a b)
    | |- context [?a <=? ?b] => destruct (Z.leb_spec a b)
    | |- context [?a =? ?b] => destruct (Z.eqb_spec a b)
    | |- context [?a >? ?b] => rewrite (Z.gtb_ltb a b)
    | |- context [?a >=? ?b] => rewrite (Z.geb_leb a b)
    end.

(** ** Conversions *)

Lemma zext_range w x : 0 <= w -> 0 <= zext w x < 2 ^ w.
Proof. intros; apply Z.mod_pos_bound; apply Z.pow_pos_nonneg; lia. Qed.

Lemma zext_id w x : 0 <= x < 2 ^ w -> zext w x = x.
Proof. apply Z.mod_small. Qed.

Lemma pow2_half w : 0 < w -> 2 ^ w = 2 * 2 ^ (w - 1).
Proof. intros; replace w with (Z.succ (w - 1)) at 1 by lia; apply Z.pow_succ_r; lia. Qed.

Lemma sext_range w x : 0 < w -> - 2 ^ (w - 1) <= sext w x < 2 ^ (w - 1).
Proof.
  intros Hw; unfold sext.
  pose proof (Z.mod_pos_bound (x + 2 ^ (w - 1)) (2 ^ w) ltac:(apply Z.pow_pos_nonneg; lia)).
  pose proof (pow2_half w Hw); lia.
Qed.

Lemma sext_id w x : 0 < w -> - 2 ^ (w - 1) <= x < 2 ^ (w - 1) -> sext w x = x.
Proof.
  intros Hw Hx; unfold sext; pose proof (pow2_half w Hw).
  rewrite Z.mod_small; lia.
Qed.

Lemma sext_zext w x : 0 < w -> sext w (zext w x) = sext w x.
Proof.
  intros; unfold sext, zext.
  now rewrite Z.add_mod_idemp_l by (apply Z.pow_nonzero; lia).
Qed.

Lemma zext_sext w x : 0 < w -> zext w (sext w x) = zext w x.
Proof.
  intros; unfold sext, zext.
  rewrite Zminus_mod_idemp_l. f_equal; lia.
Qed.

Lemma i16_id x : is_i16 x -> i16 x = x.
Proof. intros; apply sext_id; unfold is_i16 in *; lia. Qed.

Lemma i16_range x : is_i16 (i16 x).
Proof. pose proof (sext_range 16 x); unfold is_i16, i16; lia. Qed.

Lemma i32_id x : is_i32 x -> i32 x = x.
Proof. intros; apply sext_id; unfold is_i32 in *; lia. Qed.

Lemma i64_id x : is_i64 x -> i64 x = x.
Proof. intros; apply sext_id; unfold is_i64 in *; lia. Qed.

Lemma u64_id x : is_u64 x -> u64 x = x.
Proof. apply zext_id. Qed.

Lemma u32_id x : is_u32 x -> u32 x = x.
Proof. apply zext_id. Qed.

Lemma u64_range x : is_u64 (u64 x).
Proof. apply zext_range; lia. Qed.

Lemma u32_range x : is_u32 (u32 x).
Proof. apply zext_range; lia. Qed.

#[export] Hint Resolve i16_range u64_range u32_range : cint.

(** ** Bits *)

Lemma shiftr_div x k : 0 <= k -> x >> k = x / 2 ^ k.
Proof. apply Z.shiftr_div_pow2. Qed.

Lemma shiftl_mul x k : 0 <= k -> x << k = x * 2 ^ k.
Proof. apply Z.shiftl_mul_pow2. Qed.

Lemma land_mask x k : 0 <= k -> x .& (2 ^ k - 1) = x mod 2 ^ k.
Proof. intros. rewrite Z.sub_1_r, <- Z.ones_equiv. now apply Z.land_ones. Qed.

(** A masked and shifted field of a word. *)
Lemma land_shifted_mask x j k : 0 <= j -> 0 <= k ->
  (x .& ((2 ^ k - 1) * 2 ^ j)) >> j = (x / 2 ^ j) mod 2 ^ k.
Proof.
  intros Hj Hk.
  rewrite Z.shiftr_land, <- Z.shiftl_mul_pow2, Z.shiftr_shiftl_l, Z.sub_diag, Z.shiftl_0_r by lia.
  rewrite land_mask, shiftr_div; lia.
Qed.

Lemma mod_pow2_div x a b : 0 <= a -> 0 <= b ->
  (x mod 2 ^ (a + b)) / 2 ^ a = (x / 2 ^ a) mod 2 ^ b.
Proof.
  intros Ha Hb. assert (0 < 2 ^ a) by (apply Z.pow_pos_nonneg; lia).
  assert (0 < 2 ^ b) by (apply Z.pow_pos_nonneg; lia).
  rewrite Z.pow_add_r, Z.rem_mul_r by lia.
  rewrite (Z.mul_comm (2 ^ a)), Z.div_add, Z.div_small by (try lia; apply Z.mod_pos_bound; lia).
  lia.
Qed.

Lemma mod_pow2_mod x a b : 0 <= b <= a -> (x mod 2 ^ a) mod 2 ^ b = x mod 2 ^ b.
Proof.
  intros Hab. replace a with (b + (a - b)) by lia.
  assert (0 < 2 ^ b) by (apply Z.pow_pos_nonneg; lia).
  assert (0 < 2 ^ (a - b)) by (apply Z.pow_pos_nonneg; lia).
  rewrite Z.pow_add_r, Z.rem_mul_r by lia.
  rewrite (Z.mul_comm (2 ^ b)), Z.mod_add, Z.mod_mod by lia. reflexivity.
Qed.

Lemma testbit_low x k n : 0 <= n < k -> Z.testbit (x mod 2 ^ k) n = Z.testbit x n.
Proof. intros; rewrite Z.mod_pow2_bits_low; auto; lia. Qed.

Lemma testbit_small x k n : 0 <= x < 2 ^ k -> k <= n -> Z.testbit x n = false.
Proof.
  intros Hx Hn. rewrite <- (Z.mod_small x (2 ^ k)) by assumption.
  apply Z.mod_pow2_bits_high. split; [| lia].
  destruct (Z.ltb_spec k 0); [| lia].
  rewrite Z.pow_neg_r in Hx by lia; lia.
Qed.

(** Bits of a number split as low part plus shifted high part. *)
Lemma testbit_split a b k n : 0 <= k -> 0 <= a < 2 ^ k -> 0 <= n ->
  Z.testbit (a + 2 ^ k * b) n = if n <? k then Z.testbit a n else Z.testbit b (n - k).
Proof.
  intros Hk Ha Hn. destruct (Z.ltb_spec n k).
  - rewrite <- (testbit_low (a + 2 ^ k * b) k n) by lia.
    rewrite Z.mul_comm, Z.mod_add, Z.mod_small by lia. reflexivity.
  - replace n with ((n - k) + k) at 1 by lia.
    rewrite <- Z.shiftr_spec by lia. f_equal.
    rewrite shiftr_div by lia. rewrite Z.mul_comm, Z.div_add, Z.div_small by lia. lia.
Qed.

Lemma land_split a b c d k : 0 <= k -> 0 <= a < 2 ^ k -> 0 <= c < 2 ^ k ->
  (a + 2 ^ k * b) .& (c + 2 ^ k * d) = (a .& c) + 2 ^ k * (b .& d).
Proof.
  intros Hk Ha Hc.
  assert (Hac : 0 <= (a .& c) < 2 ^ k).
  { split; [apply Z.land_nonneg; lia |].
    destruct (Z.eqb_spec (a .& c) 0) as [->|Hnz]; [lia |].
    assert (0 <= a .& c) by (apply Z.land_nonneg; lia).
    destruct (Z.eqb_spec k 0) as [->|Hk0]; [replace a with 0 in * by lia; easy |].
    apply Z.log2_lt_pow2; [lia |].
    pose proof (Z.log2_land a c ltac:(lia) ltac:(lia)).
    destruct (Z.eqb_spec a 0) as [->|]; [rewrite Z.land_0_l in *; lia |].
    pose proof (proj1 (Z.log2_lt_pow2 a k ltac:(lia)) ltac:(lia)). lia. }
  apply Z.bits_inj'; intros n Hn.
  rewrite Z.land_spec, !testbit_split, Z.land_spec by lia.
  now destruct (n <? k); rewrite ?Z.land_spec.
Qed.

Lemma lor_split a b k : 0 <= k -> 0 <= a < 2 ^ k -> a .| (2 ^ k * b) = a + 2 ^ k * b.
Proof.
  intros Hk Ha. apply Z.bits_inj'; intros n Hn.
  rewrite Z.lor_spec, testbit_split by lia.
  replace (2 ^ k * b) with (0 + 2 ^ k * b) by lia.
  rewrite testbit_split, Z.testbit_0_l by lia.
  destruct (Z.ltb_spec n k); [apply orb_false_r |].
  now rewrite (testbit_small a k) by lia.
Qed.

Lemma zext_land w a b : 0 <= w -> zext w (a .& b) = zext w a .& zext w b.
Proof.
  intros Hw; unfold zext; rewrite <- !Z.land_ones by lia.
  apply Z.bits_inj'; intros n Hn; rewrite !Z.land_spec.
  destruct (Z.testbit a n), (Z.testbit b n), (Z.testbit (Z.ones w) n); reflexivity.
Qed.

Lemma zext_lxor w a b : 0 <= w -> zext w (a .^ b) = zext w a .^ zext w b.
Proof.
  intros Hw; unfold zext; rewrite <- !Z.land_ones by lia.
  apply Z.bits_inj'; intros n Hn; rewrite !Z.lxor_spec, !Z.land_spec, Z.lxor_spec.
  destruct (Z.testbit a n), (Z.testbit b n), (Z.testbit (Z.ones w) n); reflexivity.
Qed.

(** Conversions keep the bits below their width. *)
Lemma sext_testbit w x n : 0 <= n < w -> Z.testbit (sext w x) n = Z.testbit x n.
Proof.
  intros Hn. rewrite <- (testbit_low (sext w x) w n), <- (testbit_low x w n) by lia.
  pose proof (zext_sext w x ltac:(lia)) as E; unfold zext in E. now rewrite E.
Qed.

Lemma zext_testbit w x n : 0 <= n < w -> Z.testbit (zext w x) n = Z.testbit x n.
Proof. apply testbit_low. Qed.

(** The C idiom [(x & (1 << k)) != 0]. *)
Lemma land_bit_nonzero x k : 0 <= k -> negb ((x .& (1 << k)) =? 0) = Z.testbit x k.
Proof.
  intros Hk. rewrite Z.shiftl_1_l.
  destruct (Z.testbit x k) eqn:E.
  - destruct (Z.eqb_spec (x .& 2 ^ k) 0) as [H|]; [exfalso | reflexivity].
    apply (f_equal (fun z => Z.testbit z k)) in H.
    rewrite Z.land_spec, E, Z.pow2_bits_true, Z.testbit_0_l in H by lia. discriminate.
  - replace (x .& 2 ^ k) with 0; [reflexivity |].
    apply Z.bits_inj'; intros n Hn. rewrite Z.land_spec, Z.testbit_0_l.
    destruct (Z.eqb_spec n k) as [->|]; [now rewrite E |].
    rewrite Z.pow2_bits_false by lia. now rewrite andb_false_r.
Qed.

(** Sign bits: a value is in the range of a [w+1]-bit signed integer when all
    the bits from [w] on are equal. *)
Lemma signed_shiftr w a : 0 <= w ->
  (- 2 ^ w <= a < 2 ^ w) <-> (a >> w = 0 \/ a >> w = -1).
Proof.
  intros Hw; rewrite shiftr_div by lia.
  assert (0 < 2 ^ w) by (apply Z.pow_pos_nonneg; lia).
  pose proof (Z.div_mod a (2 ^ w)); pose proof (Z.mod_pos_bound a (2 ^ w)).
  split; [intros; nia | intros [E|E]; rewrite E in *; lia].
Qed.

Lemma land_signed w a b : 0 <= w ->
  - 2 ^ w <= a < 2 ^ w -> - 2 ^ w <= b < 2 ^ w -> - 2 ^ w <= (a .& b) < 2 ^ w.
Proof.
  intros Hw Ha Hb. apply signed_shiftr in Ha, Hb; try lia.
  apply signed_shiftr; [lia |]. rewrite Z.shiftr_land.
  destruct Ha as [-> | ->], Hb as [-> | ->]; simpl; auto.
Qed.

(** Disjoint bit fields. *)
Lemma lor_add k x y : 0 <= k -> x mod 2 ^ k = 0 -> 0 <= y < 2 ^ k -> x .| y = x + y.
Proof.
  intros Hk Hx Hy. assert (0 < 2 ^ k) by (apply Z.pow_pos_nonneg; lia).
  rewrite (Z.div_mod x (2 ^ k)), Hx, Z.add_0_r, Z.lor_comm, lor_split by lia. lia.
Qed.

(** ** 32-bit words under the bit operations *)

Lemma word_zext x : is_u32 x <-> zext 32 x = x.
Proof.
  unfold is_u32, zext. split; [apply Z.mod_small |]. intros <-. apply Z.mod_pos_bound. lia.
Qed.

Lemma zext_word x : is_u32 (zext 32 x).
Proof. apply zext_range. lia. Qed.

Lemma word_high x n : is_u32 x -> 32 <= n -> Z.testbit x n = false.
Proof. intros Hx Hn. now apply (testbit_small x 32). Qed.

(** A value whose high bits are all zero is a word. *)
Lemma word_of_bits x : 0 <= x -> (forall n, 32 <= n -> Z.testbit x n = false) -> is_u32 x.
Proof.
  intros Hx Hb. apply word_zext. unfold zext. apply Z.bits_inj'. intros n Hn.
  destruct (Z.ltb_spec n 32).
  - now rewrite Z.mod_pow2_bits_low.
  - rewrite Z.mod_pow2_bits_high by lia. symmetry. now apply Hb.
Qed.

Lemma land_word a z : is_u32 z -> is_u32 (a .& z).
Proof.
  intros Hz. apply word_of_bits; [apply Z.land_nonneg; right; apply Hz |].
  intros n Hn. rewrite Z.land_spec, (word_high z) by assumption. apply andb_false_r.
Qed.

Lemma lor_word a b : is_u32 a -> is_u32 b -> is_u32 (a .| b).
Proof.
  intros Ha Hb. apply word_of_bits; [apply Z.lor_nonneg; split; [apply Ha | apply Hb] |].
  intros n Hn. now rewrite Z.lor_spec, (word_high a), (word_high b) by assumption.
Qed.

Lemma lxor_word a b : is_u32 a -> is_u32 b -> is_u32 (a .^ b).
Proof.
  intros Ha Hb. apply word_of_bits; [apply Z.lxor_nonneg; split; intros; [apply Hb | apply Ha] |].
  intros n Hn. now rewrite Z.lxor_spec, (word_high a), (word_high b) by assumption.
Qed.

#[export] Hint Resolve land_word lor_word lxor_word zext_word : cint.

(** ** Arrays

    A C array is a list; reading outside of it is undefined in C, so every
    model that indexes an array has a bounds lemma next to it. *)

Definition aget (l : list Z) (i : Z) : Z := nth (Z.to_nat i) l 0.

Fixpoint upd {A} (l : list A) (n : nat) (v : A) : list A :=
  match l, n with
  | [], _ => []
  | _ :: t, O => v :: t
  | x :: t, S m => x :: upd t m v
  end.

Definition aset (l : list Z) (i v : Z) : list Z := upd l (Z.to_nat i) v.

Notation "a .[ i ]" := (aget a i) (at level 1, left associativity, format "a .[ i ]").

Lemma upd_length {A} (l : list A) n v : length (upd l n v) = length l.
Proof. revert n; induction l; intros [|n]; simpl; auto. Qed.

Lemma aset_length l i v : length (aset l i v) = length l.
Proof. apply upd_length. Qed.

Lemma nth_upd {A} (l : list A) n m v d :
  nth m (upd l n v) d = if (m =? n)%nat && (n <? length l)%nat then v else nth m l d.
Proof.
  revert n m; induction l as [|x l IH]; intros [|n] [|m]; simpl; rewrite ?andb_false_r; auto.
Qed.

Lemma aget_aset l i j v : 0 <= i < Z.of_nat (length l) -> 0 <= j ->
  (aset l i v).[j] = if j =? i then v else l.[j].
Proof.
  intros Hi Hj; unfold aget, aset; rewrite nth_upd.
  replace (Z.to_nat j =? Z.to_nat i)%nat with (j =? i)
    by (destruct (Z.eqb_spec j i), (Nat.eqb_spec (Z.to_nat j) (Z.to_nat i)); lia).
  replace (Z.to_nat i <? length l)%nat with true by (symmetry; apply Nat.ltb_lt; lia).
  now rewrite andb_true_r.
Qed.

Lemma Forall_aget (P : Z -> Prop) l i : P 0 -> Forall P l -> P l.[i].
Proof.
  intros H0 H; unfold aget. destruct (Nat.ltb_spec (Z.to_nat i) (length l)).
  - rewrite Forall_forall in H. apply H, nth_In; assumption.
  - now rewrite nth_overflow.
Qed.

Lemma Forall_upd {A} (P : A -> Prop) l n v : P v -> Forall P l -> Forall P (upd l n v).
Proof.
  intros Hv Hl; revert n; induction Hl; intros [|n]; simpl; auto.
Qed.

Lemma Forall_aset (P : Z -> Prop) l i v : P v -> Forall P l -> Forall P (aset l i v).
Proof. apply Forall_upd. Qed.

Lemma upd_split {A} (l : list A) n v : (n < length l)%nat -> upd l n v = firstn n l ++ [v] ++ skipn (S n) l.
Proof.
  revert n. induction l as [|x l IH]; intros [|n] Hn; simpl in *; try lia; [reflexivity |].
  f_equal. apply IH. lia.
Qed.

(** The list cut right after an element. *)
Lemma firstn_past {A} (h t : list A) x n : length h = n -> firstn (S n) (h ++ x :: t) = h ++ [x].
Proof. intros <-. rewrite firstn_app, firstn_all2 by lia. now replace (S (length h) - length h)%nat with 1%nat by lia. Qed.

Lemma skipn_past {A} (h t : list A) x n : length h = n -> skipn (S n) (h ++ x :: t) = t.
Proof. intros <-. rewrite skipn_app, skipn_all2 by lia. now replace (S (length h) - length h)%nat with 1%nat by lia. Qed.

Lemma skipn_aget (d : list Z) n : (n < length d)%nat ->
  skipn n d = d.[Z.of_nat n] :: skipn (S n) d.
Proof.
  unfold aget. rewrite Nat2Z.id.
  revert n; induction d as [|x d IH]; intros [|n] Hn; simpl in *; try lia; auto.
  apply IH. lia.
Qed.

Lemma aget_app_l (a b : list Z) i : 0 <= i < Z.of_nat (length a) -> (a ++ b).[i] = a.[i].
Proof. intros Hi. unfold aget. apply app_nth1. lia. Qed.

Lemma aget_app_r (a b : list Z) i : Z.of_nat (length a) <= i ->
  (a ++ b).[i] = b.[i - Z.of_nat (length a)].
Proof. intros Hi. unfold aget. rewrite app_nth2 by lia. f_equal. lia. Qed.

Lemma aget_firstn (l : list Z) n i : 0 <= i < Z.of_nat n -> (firstn n l).[i] = l.[i].
Proof.
  intros Hi. unfold aget. rewrite nth_firstn. destruct (Nat.ltb_spec (Z.to_nat i) n); [reflexivity | lia].
Qed.

Lemma Forall_firstn {A} (P : A -> Prop) n l : Forall P l -> Forall P (firstn n l).
Proof. intros H; revert n; induction H; intros [|n]; simpl; auto. Qed.

Lemma Forall_skipn {A} (P : A -> Prop) n l : Forall P l -> Forall P (skipn n l).
Proof. revert n; induction l; intros [|n] H; simpl; auto. inversion H; auto. Qed.

(** Induction for code that consumes two elements at a time. *)
Lemma list_pair_ind {A} (P : list A -> Prop) :
  P [] -> (forall x, P [x]) -> (forall x y l, P l -> P (x :: y :: l)) -> forall l, P l.
Proof.
  intros H0 H1 H2 l. enough (H : P l /\ forall x, P (x :: l)) by apply H.
  induction l as [|y l [IH IHc]]; split; auto.
Qed.

(** ** Loops

    [for_loop lo n f a] runs [f lo], [f (lo+1)], ..., [n] times. *)

Fixpoint for_loop {A} (n : nat) (i : Z) (f : Z -> A -> A) (a : A) : A :=
  match n with
  | O => a
  | S m => for_loop m (i + 1) f (f i a)
  end.

(** [for (i = lo; i < hi; i++) a = f i a] *)
Definition for_range {A} (lo hi : Z) (f : Z -> A -> A) (a : A) : A :=
  for_loop (Z.to_nat (hi - lo)) lo f a.

Lemma for_loop_ind {A} (P : Z -> A -> Prop) n i f a :
  P i a ->
  (forall j x, i <= j < i + Z.of_nat n -> P j x -> P (j + 1) (f j x)) ->
  P (i + Z.of_nat n) (for_loop n i f a).
Proof.
  revert i a; induction n as [|n IH]; intros i a H0 HS; simpl for_loop.
  - now replace (i + Z.of_nat 0) with i by lia.
  - replace (i + Z.of_nat (S n)) with (i + 1 + Z.of_nat n) by lia.
    apply IH; [apply HS; [lia | assumption] |].
    intros; apply HS; [lia | assumption].
Qed.

(** The invariant rule for a counted loop. *)
Lemma for_range_ind {A} (P : Z -> A -> Prop) lo hi f a :
  lo <= hi -> P lo a ->
  (forall j x, lo <= j < hi -> P j x -> P (j + 1) (f j x)) ->
  P hi (for_range lo hi f a).
Proof.
  intros Hle H0 HS; unfold for_range.
  replace hi with (lo + Z.of_nat (Z.to_nat (hi - lo))) at 1 by lia.
  apply for_loop_ind; auto. intros j x Hj; apply HS; lia.
Qed.

Lemma for_range_nil {A} lo hi f (a : A) : hi <= lo -> for_range lo hi f a = a.
Proof. intros; unfold for_range; now replace (Z.to_nat (hi - lo)) with O by lia. Qed.

Lemma for_range_S {A} lo hi f (a : A) : lo < hi ->
  for_range lo hi f a = for_range (lo + 1) hi f (f lo a).
Proof.
  intros; unfold for_range.
  replace (Z.to_nat (hi - lo)) with (S (Z.to_nat (hi - (lo + 1)))) by lia. reflexivity.
Qed.

Lemma for_loop_snoc {A} n i f (a : A) :
  for_loop (S n) i f a = f (i + Z.of_nat n) (for_loop n i f a).
Proof.
  revert i a; induction n as [|n IH]; intros i a.
  - simpl. f_equal; lia.
  - change (for_loop (S (S n)) i f a) with (for_loop (S n) (i + 1) f (f i a)).
    rewrite IH. f_equal. lia.
Qed.

Lemma for_range_snoc {A} lo hi f (a : A) : lo <= hi ->
  for_range lo (hi + 1) f a = f hi (for_range lo hi f a).
Proof.
  intros; unfold for_range. replace (Z.to_nat (hi + 1 - lo)) with (S (Z.to_nat (hi - lo))) by lia.
  rewrite for_loop_snoc. f_equal; lia.
Qed.

Lemma for_range_ext {A} lo hi (f g : Z -> A -> A) a :
  (forall i x, lo <= i < hi -> f i x = g i x) -> for_range lo hi f a = for_range lo hi g a.
Proof.
  intros H. unfold for_range. remember (Z.to_nat (hi - lo)) as n eqn:En.
  assert (Hn : lo + Z.of_nat n <= hi \/ n = O) by lia. clear En.
  revert lo a H Hn; induction n as [|n IH]; intros lo a H Hn; [reflexivity |].
  simpl. rewrite H by lia. apply IH; [| lia]. intros; apply H; lia.
Qed.

(** A loop in two parts. *)
Lemma for_loop_add {A} n m i f (a : A) :
  for_loop (n + m) i f a = for_loop m (i + Z.of_nat n) f (for_loop n i f a).
Proof.
  revert i a; induction n as [|n IH]; intros i a; cbn [for_loop Nat.add].
  - now rewrite Z.add_0_r.
  - rewrite IH. f_equal. lia.
Qed.

Lemma for_range_split {A} lo mid hi f (a : A) : lo <= mid <= hi ->
  for_range lo hi f a = for_range mid hi f (for_range lo mid f a).
Proof.
  intros Hm. unfold for_range.
  replace (Z.to_nat (hi - lo)) with (Z.to_nat (mid - lo) + Z.to_nat (hi - mid))%nat by lia.
  rewrite for_loop_add. f_equal. lia.
Qed.

(** Two loops agree when their bodies do on the states that can occur. *)
Lemma for_range_sim {A} (P : A -> Prop) lo hi (f g : Z -> A -> A) a : lo <= hi -> P a ->
  (forall i x, lo <= i < hi -> P x -> f i x = g i x /\ P (g i x)) ->
  for_range lo hi f a = for_range lo hi g a /\ P (for_range lo hi g a).
Proof.
  intros Hle HP Hs.
  enough (H : for_range lo hi f a = for_range lo hi g a /\ P (for_range lo hi f a))
    by (destruct H as [E H]; split; [exact E | now rewrite <- E]).
  apply (for_range_ind (fun k x => x = for_range lo k g a /\ P x));
    [assumption | split; [now rewrite for_range_nil by lia | assumption] |].
  intros k x Hk [-> Hx]. destruct (Hs k _ Hk Hx) as [E HP']. rewrite E.
  split; [| assumption]. now rewrite for_range_snoc by lia.
Qed.

(** ** Sums *)

Definition sum_range (lo hi : Z) (f : Z -> Z) : Z := for_range lo hi (fun i a => a + f i) 0.

Lemma sum_range_snoc lo hi f : lo <= hi -> sum_range lo (hi + 1) f = sum_range lo hi f + f hi.
Proof. intros; unfold sum_range; now rewrite for_range_snoc. Qed.

Lemma sum_range_nil lo hi f : hi <= lo -> sum_range lo hi f = 0.
Proof. intros; unfold sum_range; now rewrite for_range_nil. Qed.

(** Sums are compared, shifted and split by induction on the upper bound. *)
Lemma sum_range_ind (P : Z -> Prop) lo hi : lo <= hi -> P lo ->
  (forall i, lo <= i < hi -> P i -> P (i + 1)) -> P hi.
Proof. intros Hle H0 HS. apply (for_range_ind (fun i (_ : unit) => P i) lo hi (fun _ x => x) tt); auto. Qed.

Lemma sum_range_le lo hi f g : (forall i, lo <= i < hi -> f i <= g i) ->
  sum_range lo hi f <= sum_range lo hi g.
Proof.
  intros H. destruct (Z.leb_spec lo hi); [| rewrite !sum_range_nil by lia; lia].
  apply (sum_range_ind (fun m => m <= hi -> sum_range lo m f <= sum_range lo m g) lo hi); try lia.
  - intros; rewrite !sum_range_nil; lia.
  - intros i Hi IH Hle. rewrite !sum_range_snoc by lia. specialize (H i Hi). lia.
Qed.

Lemma sum_range_ext lo hi f g : (forall i, lo <= i < hi -> f i = g i) ->
  sum_range lo hi f = sum_range lo hi g.
Proof. intros H. apply for_range_ext. intros; now rewrite H. Qed.

Lemma sum_range_const lo hi c : lo <= hi -> sum_range lo hi (fun _ => c) = (hi - lo) * c.
Proof.
  intros Hle. apply (sum_range_ind (fun m => sum_range lo m (fun _ => c) = (m - lo) * c) lo hi); try lia.
  - rewrite sum_range_nil; lia.
  - intros i Hi IH. rewrite sum_range_snoc by lia. lia.
Qed.

Lemma sum_range_add lo hi f g : sum_range lo hi (fun i => f i + g i) = sum_range lo hi f + sum_range lo hi g.
Proof.
  destruct (Z.leb_spec lo hi); [| rewrite !sum_range_nil; lia].
  apply (sum_range_ind (fun m => sum_range lo m (fun i => f i + g i) = sum_range lo m f + sum_range lo m g) lo hi); try lia.
  - rewrite !sum_range_nil; lia.
  - intros i Hi IH. rewrite !sum_range_snoc by lia. lia.
Qed.

Lemma sum_range_mul lo hi c f : sum_range lo hi (fun i => c * f i) = c * sum_range lo hi f.
Proof.
  destruct (Z.leb_spec lo hi); [| rewrite !sum_range_nil; lia].
  apply (sum_range_ind (fun m => sum_range lo m (fun i => c * f i) = c * sum_range lo m f) lo hi); try lia.
  - rewrite !sum_range_nil; lia.
  - intros i Hi IH. rewrite !sum_range_snoc by lia. lia.
Qed.

Lemma sum_range_shift lo hi k f : sum_range lo hi (fun i => f (i - k)) = sum_range (lo - k) (hi - k) f.
Proof.
  destruct (Z.leb_spec lo hi); [| rewrite !sum_range_nil by lia; lia].
  apply (sum_range_ind (fun m => sum_range lo m (fun i => f (i - k)) = sum_range (lo - k) (m - k) f) lo hi); try lia.
  - rewrite !sum_range_nil; lia.
  - intros i Hi IH. rewrite sum_range_snoc by lia.
    replace (i + 1 - k) with (i - k + 1) by lia. rewrite sum_range_snoc by lia. lia.
Qed.

Lemma sum_range_split lo mid hi f : lo <= mid <= hi ->
  sum_range lo hi f = sum_range lo mid f + sum_range mid hi f.
Proof.
  intros H. apply (sum_range_ind (fun m => sum_range lo m f = sum_range lo mid f + sum_range mid m f) mid hi); try lia.
  - rewrite (sum_range_nil mid mid); lia.
  - intros i Hi IH. rewrite !sum_range_snoc by lia. lia.
Qed.

Lemma sum_range_nonneg lo hi f : (forall i, lo <= i < hi -> 0 <= f i) -> 0 <= sum_range lo hi f.
Proof.
  intros H. destruct (Z.leb_spec lo hi) as [Hle|]; [| rewrite !sum_range_nil; lia].
  pose proof (sum_range_le lo hi (fun _ => 0) f H). rewrite sum_range_const in *; lia.
Qed.

(** ** Finite checks

    [all_range lo n p] evaluates [p] on [n] consecutive integers; with it a
    property of a table or of a small word is checked by computation. *)

Fixpoint all_range (lo : Z) (n : nat) (p : Z -> bool) : bool :=
  match n with
  | O => true
  | S m => p lo && all_range (lo + 1) m p
  end.

Lemma all_range_spec lo n p : all_range lo n p = true ->
  forall x, lo <= x < lo + Z.of_nat n -> p x = true.
Proof.
  revert lo; induction n as [|n IH]; intros lo H x Hx; [lia |].
  simpl in H; apply andb_true_iff in H as [H1 H2].
  destruct (Z.eqb_spec x lo) as [->|]; [assumption |].
  apply (IH (lo + 1)); [assumption | lia].
Qed.

(** ** Code that can stop

    A failed [assert] aborts the program: code with assertions is in the option
    monad, [None] being the abort. *)

Definition bind {A B} (m : option A) (k : A -> option B) : option B :=
  match m with Some x => k x | None => None end.

Notation "'let*' x := m 'in' k" := (bind m (fun x => k))
  (at level 10, x pattern, m at level 100, k at level 200).
Notation "'assert!' b 'in' k" := (if (b : bool) then k else None)
  (at level 10, b at level 100, k at level 200).

(** The invariant rule for a counted loop whose body can abort. *)
Definition for_opt {A} (lo hi : Z) (f : Z -> A -> option A) (a : A) : option A :=
  for_range lo hi (fun i m => bind m (f i)) (Some a).

Lemma for_opt_ind {A} (P : Z -> A -> Prop) lo hi f a :
  lo <= hi -> P lo a ->
  (forall j x, lo <= j < hi -> P j x -> exists y, f j x = Some y /\ P (j + 1) y) ->
  exists y, for_opt lo hi f a = Some y /\ P hi y.
Proof.
  intros Hle H0 HS. unfold for_opt.
  apply (for_range_ind (fun j m => exists y, m = Some y /\ P j y)); eauto.
  intros j m Hj (x & -> & Hx). simpl. now apply HS.
Qed.

Fixpoint map_opt {A B} (f : A -> option B) (l : list A) : option (list B) :=
  match l with
  | [] => Some []
  | x :: t => let* y := f x in let* ys := map_opt f t in Some (y :: ys)
  end.

Lemma map_opt_Forall {A B} (P : A -> Prop) (Q : B -> Prop) f (l : list A) :
  (forall x, P x -> exists y, f x = Some y /\ Q y) -> Forall P l ->
  exists ys, map_opt f l = Some ys /\ Forall Q ys /\ length ys = length l.
Proof.
  intros Hf; induction 1 as [|x t Hx Ht (ys & E & HQ & HL)]; simpl; [eauto |].
  destruct (Hf x Hx) as (y & -> & Hy). simpl. rewrite E. simpl.
  exists (y :: ys). simpl; auto.
Qed.

(** ** Arrays of [short] as bytes, little-endian *)

(** The bytes of an array of [short], and the [short]s of an array of bytes. *)
Definition short_bytes (x : Z) : list Z := [u8 x; u8 (x >> 8)].

Fixpoint shorts (bytes : list Z) : list Z :=
  match bytes with
  | a :: b :: rest => i16 (a .| (b << 8)) :: shorts rest
  | _ => []
  end.

Lemma u8_byte x : is_u8 (u8 x).
Proof. apply (zext_range 8). lia. Qed.

Lemma shorts_skip n l : shorts (skipn (2 * n) l) = skipn n (shorts l).
Proof.
  revert l; induction n as [|n IH]; intros l; [reflexivity |].
  replace (2 * S n)%nat with (S (S (2 * n))) by lia.
  destruct l as [|a [|b l]]; cbn [skipn shorts]; [now rewrite ?skipn_nil | now rewrite ?skipn_nil | apply IH].
Qed.

Lemma shorts_firstn n l : shorts (firstn (2 * n) l) = firstn n (shorts l).
Proof.
  revert l; induction n as [|n IH]; intros l; [reflexivity |].
  replace (2 * S n)%nat with (S (S (2 * n))) by lia.
  destruct l as [|a [|b l]]; cbn [firstn shorts]; [reflexivity | reflexivity | f_equal; apply IH].
Qed.

Lemma shorts_words l : Forall is_i16 (shorts l).
Proof.
  induction l as [|a|a b l IH] using list_pair_ind; cbn [shorts]; constructor; [apply i16_range | exact IH].
Qed.

Lemma short_bytes_length buf : length (flat_map short_bytes buf) = (2 * length buf)%nat.
Proof. induction buf as [|x buf IH]; [reflexivity |]. cbn [flat_map short_bytes app length] in *. lia. Qed.

Lemma short_bytes_u8 buf : Forall is_u8 (flat_map short_bytes buf).
Proof. induction buf as [|x buf IH]; cbn; repeat constructor; try apply u8_byte. exact IH. Qed.

(** ** Characters *)

(** [toupper] in the C locale. *)
Definition toupper (c : Z) : Z := if (97 <=? c) && (c <=? 122) then c - 32 else c.

(** The value of a hexadecimal digit, as the programs with a key on the command
    line compute it from the upper-case character [ch]. *)
Definition hex_digit (ch : Z) : option Z :=
  if (48 <=? ch) && (ch <=? 57) then Some (ch - 48)
  else if (65 <=? ch) && (ch <=? 70) then Some (ch - 65 + 10) else None.

Definition is_hex (c : Z) : Prop := 48 <= c <= 57 \/ 65 <= c <= 70 \/ 97 <= c <= 102.

Lemma hex_digit_some c : is_hex c -> exists d, hex_digit (toupper c) = Some d.
Proof.
  unfold toupper, hex_digit, is_hex. intros H. destruct (Z.leb_spec 97 c), (Z.leb_spec c 122); cbn [andb];
    repeat match goal with |- context [?a <=? ?b] => destruct (Z.leb_spec a b) end; cbn [andb]; eauto; lia.
Qed.
