(* ===== verification/Bitcount.v ===== *)
(** * The bitcount workload (src/mibench/automotive/bitcount)

    The seven bit counters the benchmark compares, each translated from its
    file, the bit-array, bit-string and bit-file helpers that are linked with
    them, and the benchmark loop of bitcnts.c.  The counters are compared with
    the population count [popcount]. *)

From Stdlib Require Import ZArith Lia List Bool.
Import ListNotations.
From S2P Require Import Prelude.

(** ** Specification: the number of set bits *)

Fixpoint popcount_pos (p : positive) : Z :=
  match p with
  | xH => 1
  | xO q => popcount_pos q
  | xI q => 1 + popcount_pos q
  end.

Definition popcount (x : Z) : Z :=
  match x with
  | Zpos p => popcount_pos p
  | _ => 0
  end.

(** ** bitcnt_1.c *)

(** [do n++; while (0 != (x = x & (x-1)));] *)
Fixpoint bit_count_loop (fuel : nat) (x n : Z) : option Z :=
  match fuel with
  | O => None
  | S k =>
      let n := n + 1 in
      let x := x .& i64 (x - 1) in
      if x =? 0 then Some n else bit_count_loop k x n
  end.

Definition bit_count (x : Z) : option Z :=
  if x =? 0 then Some 0 else bit_count_loop 64 x 0.

(** ** bitcnt_2.c *)

Definition bitcount (i : Z) : Z :=
  let i := ((i .& 0xAAAAAAAA) >> 1) + (i .& 0x55555555) in
  let i := ((i .& 0xCCCCCCCC) >> 2) + (i .& 0x33333333) in
  let i := ((i .& 0xF0F0F0F0) >> 4) + (i .& 0x0F0F0F0F) in
  let i := ((i .& 0xFF00FF00) >> 8) + (i .& 0x00FF00FF) in
  let i := ((i .& 0xFFFF0000) >> 16) + (i .& 0x0000FFFF) in
  i32 i.

(** ** bitcnt_3.c and bitcnt_4.c (both files define the same table) *)

Definition bits : list Z :=
  [ 0; 1; 1; 2; 1; 2; 2; 3; 1; 2; 2; 3; 2; 3; 3; 4;
    1; 2; 2; 3; 2; 3; 3; 4; 2; 3; 3; 4; 3; 4; 4; 5;
    1; 2; 2; 3; 2; 3; 3; 4; 2; 3; 3; 4; 3; 4; 4; 5;
    2; 3; 3; 4; 3; 4; 4; 5; 3; 4; 4; 5; 4; 5; 5; 6;
    1; 2; 2; 3; 2; 3; 3; 4; 2; 3; 3; 4; 3; 4; 4; 5;
    2; 3; 3; 4; 3; 4; 4; 5; 3; 4; 4; 5; 4; 5; 5; 6;
    2; 3; 3; 4; 3; 4; 4; 5; 3; 4; 4; 5; 4; 5; 5; 6;
    3; 4; 4; 5; 4; 5; 5; 6; 4; 5; 5; 6; 5; 6; 6; 7;
    1; 2; 2; 3; 2; 3; 3; 4; 2; 3; 3; 4; 3; 4; 4; 5;
    2; 3; 3; 4; 3; 4; 4; 5; 3; 4; 4; 5; 4; 5; 5; 6;
    2; 3; 3; 4; 3; 4; 4; 5; 3; 4; 4; 5; 4; 5; 5; 6;
    3; 4; 4; 5; 4; 5; 5; 6; 4; 5; 5; 6; 5; 6; 6; 7;
    2; 3; 3; 4; 3; 4; 4; 5; 3; 4; 4; 5; 4; 5; 5; 6;
    3; 4; 4; 5; 4; 5; 5; 6; 4; 5; 5; 6; 5; 6; 6; 7;
    3; 4; 4; 5; 4; 5; 5; 6; 4; 5; 5; 6; 5; 6; 6; 7;
    4; 5; 5; 6; 5; 6; 6; 7; 5; 6; 6; 7; 6; 7; 7; 8 ].

Definition ntbl_bitcount (x : Z) : Z :=
  bits.[i32 (u64 x .& 0x0000000F)] +
  bits.[i32 ((u64 x .& 0x000000F0) >> 4)] +
  bits.[i32 ((u64 x .& 0x00000F00) >> 8)] +
  bits.[i32 ((u64 x .& 0x0000F000) >> 12)] +
  bits.[i32 ((u64 x .& 0x000F0000) >> 16)] +
  bits.[i32 ((u64 x .& 0x00F00000) >> 20)] +
  bits.[i32 ((u64 x .& 0x0F000000) >> 24)] +
  bits.[i32 ((u64 x .& 0xF0000000) >> 28)].

(** Byte [k] of the object representation of a [long] (little-endian). *)
Definition long_byte (x k : Z) : Z := u8 (u64 x >> (8 * k)).

Definition BW_btbl_bitcount (x : Z) : Z :=
  bits.[long_byte x 0] + bits.[long_byte x 1] +
  bits.[long_byte x 3] + bits.[long_byte x 2].

Definition AR_btbl_bitcount (x : Z) : Z :=
  let Accu := bits.[long_byte x 0] in
  let Accu := Accu + bits.[long_byte x 1] in
  let Accu := Accu + bits.[long_byte x 2] in
  Accu + bits.[long_byte x 3].

(** Recursive counters: the C recursion has no bound of its own, so the model
    takes fuel and answers [None] when it runs out. *)
Fixpoint ntbl_bitcnt (fuel : nat) (x : Z) : option Z :=
  match fuel with
  | O => None
  | S k =>
      let cnt := bits.[i32 (x .& 0x0000000F)] in
      let x := x >> 4 in
      if negb (0 =? x)
      then option_map (fun r => cnt + r) (ntbl_bitcnt k x)
      else Some cnt
  end.

Fixpoint btbl_bitcnt (fuel : nat) (x : Z) : option Z :=
  match fuel with
  | O => None
  | S k =>
      let cnt := bits.[i8 (long_byte x 0) .& 0xFF] in
      let x := x >> 8 in
      if negb (0 =? x)
      then option_map (fun r => cnt + r) (btbl_bitcnt k x)
      else Some cnt
  end.

(** ** bitcnts.c *)

(** [for (i = n = 0; x && (i < sizeof(long)*CHAR_BIT); ++i, x >>= 1) n += x & 1L;] *)
Fixpoint bit_shifter_loop (left : nat) (x n : Z) : Z :=
  match left with
  | O => n
  | S k => if x =? 0 then n else bit_shifter_loop k (x >> 1) (n + i32 (x .& 1))
  end.

Definition bit_shifter (x : Z) : Z := bit_shifter_loop 64 x 0.

(** The table [pBitCntFunc]; [fuel] bounds the recursion of [ntbl_bitcnt]. *)
Definition pBitCntFunc (fuel : nat) : list (Z -> option Z) :=
  [ bit_count;
    fun x => Some (bitcount x);
    ntbl_bitcnt fuel;
    fun x => Some (ntbl_bitcount x);
    fun x => Some (BW_btbl_bitcount x);
    fun x => Some (AR_btbl_bitcount x);
    fun x => Some (bit_shifter x) ].

(** [for (j = n = 0, seed = rand(); j < iterations; j++, seed += 13)
      n += pBitCntFunc[i](seed);] *)
Fixpoint bench_loop (f : Z -> option Z) (iterations : nat) (seed n : Z) : option Z :=
  match iterations with
  | O => Some n
  | S k =>
      match f seed with
      | None => None
      | Some c => bench_loop f k (i64 (seed + 13)) (i64 (n + c))
      end
  end.

(** ** bitarray.c: an array of [char] (signed), eight bits per element *)

Definition alloc_bit_array (bits : Z) : list Z := repeat 0 (Z.to_nat ((bits + 8 - 1) / 8)).

Definition getbit (set : list Z) (number : Z) : bool :=
  negb ((set.[Z.quot number 8] .& (1 << Z.rem number 8)) =? 0).

Definition setbit (set : list Z) (number value : Z) : list Z :=
  let p := Z.quot number 8 in
  if negb (value =? 0)
  then aset set p (i8 (set.[p] .| (1 << Z.rem number 8)))
  else aset set p (i8 (set.[p] .& Z.lnot (1 << Z.rem number 8))).

Definition flipbit (set : list Z) (number : Z) : list Z :=
  let p := Z.quot number 8 in
  aset set p (i8 (set.[p] .^ (1 << Z.rem number 8))).

(** ** bitstrng.c: the characters written, without the final NUL *)

Definition bitstring_pad (biz strwid : Z) : Z :=
  strwid - (biz + (biz >> 2) - (if negb (Z.rem biz 4 =? 0) then 0 else 1)).

(** [while (--biz >= 0)], [n] being the value of [biz] before the test. *)
Fixpoint bitstring_digits (byze : Z) (n : nat) : list Z :=
  match n with
  | O => []
  | S k =>
      let biz := Z.of_nat k in
      (((byze >> biz) .& 1) + 48) ::
      (if (Z.rem biz 4 =? 0) && negb (biz =? 0) then [32] else []) ++
      bitstring_digits byze k
  end.

Definition bitstring (byze biz strwid : Z) : list Z :=
  repeat 32 (Z.to_nat (bitstring_pad biz strwid)) ++ bitstring_digits byze (Z.to_nat biz).

(** ** bstr_i.c *)

Fixpoint bstr_i_loop (cptr : list Z) (j : Z) : Z :=
  match cptr with
  | [] => j
  | c :: rest =>
      if (c =? 48) || (c =? 49) then
        let i := u32 (c - 48) in
        bstr_i_loop rest (u32 (j << 1) .| (i .& 1))
      else j
  end.

Definition bstr_i (cptr : list Z) : Z := bstr_i_loop cptr 0.

(** ** bitfiles.c

    A [bfile] with the stream it reads from (bytes left) and the bytes put so
    far on the stream it writes to. *)

Record bfile := mkbfile {
  file_in : list Z;
  file_out : list Z;
  rbuf : Z; rcnt : Z;
  wbuf : Z; wcnt : Z
}.

(** [malloc] leaves the two buffers with arbitrary contents. *)
Definition bfopen (contents : list Z) (garbage_r garbage_w : Z) : bfile :=
  mkbfile contents [] garbage_r 0 garbage_w 0.

(** [fgetc]: the next byte, or EOF (-1). *)
Definition fgetc (s : list Z) : Z * list Z :=
  match s with
  | [] => (-1, [])
  | b :: t => (b, t)
  end.

Definition bfread (bf : bfile) : Z * bfile :=
  let bf :=
    if 0 =? rcnt bf then
      let (c, rest) := fgetc (file_in bf) in
      mkbfile rest (file_out bf) (i8 c) 8 (wbuf bf) (wcnt bf)
    else bf in
  let bf := mkbfile (file_in bf) (file_out bf) (rbuf bf) (rcnt bf - 1) (wbuf bf) (wcnt bf) in
  (b2z (negb ((rbuf bf .& (1 << rcnt bf)) =? 0)), bf).

Definition bfwrite (bit : Z) (bf : bfile) : bfile :=
  let bf :=
    if 8 =? wcnt bf then
      mkbfile (file_in bf) (file_out bf ++ [u8 (wbuf bf)]) (rbuf bf) (rcnt bf) (wbuf bf) 0
    else bf in
  mkbfile (file_in bf) (file_out bf) (rbuf bf) (rcnt bf)
    (i8 (i8 (wbuf bf << 1) .| (bit .& 1))) (wcnt bf + 1).

(** [fclose] and [free]: what reaches the file is what [fputc] wrote. *)
Definition bfclose (bf : bfile) : list Z := file_out bf.

Fixpoint bfwrite_all (bs : list Z) (bf : bfile) : bfile :=
  match bs with
  | [] => bf
  | b :: t => bfwrite_all t (bfwrite b bf)
  end.

Fixpoint bfread_n (n : nat) (bf : bfile) : list Z * bfile :=
  match n with
  | O => ([], bf)
  | S k => let (b, bf) := bfread bf in
           let (bs, bf) := bfread_n k bf in (b :: bs, bf)
  end.

(** ** Facts on the population count *)

Lemma popcount_double x : 0 <= x -> popcount (2 * x) = popcount x.
Proof. now destruct x. Qed.

Lemma popcount_double_1 x : 0 <= x -> popcount (2 * x + 1) = 1 + popcount x.
Proof. now destruct x. Qed.

Lemma popcount_pos_pos p : 0 < popcount_pos p.
Proof. induction p; cbn [popcount_pos]; lia. Qed.

Lemma popcount_step x : 0 <= x -> popcount x = x mod 2 + popcount (x / 2).
Proof.
  intros H. rewrite (Z.div_mod x 2) at 1 by lia.
  assert (0 <= x / 2) by (apply Z.div_pos; lia).
  destruct (Z.mod_pos_bound x 2) as [? ?]; [lia |].
  assert (x mod 2 = 0 \/ x mod 2 = 1) as [-> | ->] by lia.
  - rewrite Z.add_0_r, popcount_double; lia.
  - rewrite popcount_double_1; lia.
Qed.

(** Counting the low [k] bits and the rest separately. *)
Lemma popcount_split k x : 0 <= k -> 0 <= x ->
  popcount x = popcount (x mod 2 ^ k) + popcount (x / 2 ^ k).
Proof.
  intros Hk; revert x; pattern k; apply natlike_ind; [| | assumption].
  - intros x Hx. now rewrite Z.pow_0_r, Z.mod_1_r, Z.div_1_r.
  - clear k Hk; intros k Hk IH x Hx.
    assert (0 < 2 ^ k) by (apply Z.pow_pos_nonneg; lia).
    rewrite Z.pow_succ_r by lia.
    rewrite (popcount_step x Hx), (IH (x / 2)) by (apply Z.div_pos; lia).
    rewrite (popcount_step (x mod (2 * 2 ^ k))) by (apply Z.mod_pos_bound; lia).
    rewrite Z.rem_mul_r by lia.
    replace ((x mod 2 + 2 * ((x / 2) mod 2 ^ k)) mod 2) with (x mod 2)
      by (rewrite Z.mul_comm, Z.mod_add, Z.mod_mod by lia; reflexivity).
    replace ((x mod 2 + 2 * ((x / 2) mod 2 ^ k)) / 2) with ((x / 2) mod 2 ^ k)
      by (rewrite Z.mul_comm, Z.div_add, (Z.div_small (x mod 2)) by zlia; lia).
    rewrite Z.div_div by lia. lia.
Qed.

Lemma popcount_field k w j y : 0 <= k -> 0 <= w -> j = k + w -> 0 <= y ->
  popcount (y mod 2 ^ j) = popcount (y mod 2 ^ k) + popcount ((y / 2 ^ k) mod 2 ^ w).
Proof.
  intros Hk Hw -> Hy.
  assert (0 < 2 ^ k) by (apply Z.pow_pos_nonneg; lia).
  assert (0 < 2 ^ w) by (apply Z.pow_pos_nonneg; lia).
  rewrite Z.pow_add_r by lia.
  rewrite (popcount_split k (y mod _)) by (try lia; apply Z.mod_pos_bound; nia).
  rewrite Z.rem_mul_r by lia.
  f_equal; f_equal.
  - rewrite Z.mul_comm, Z.mod_add, Z.mod_mod by lia. reflexivity.
  - rewrite Z.mul_comm, Z.div_add, Z.div_small by (try lia; apply Z.mod_pos_bound; lia). lia.
Qed.

Lemma popcount_bound k x : 0 <= k -> 0 <= x < 2 ^ k -> 0 <= popcount x <= k.
Proof.
  intros Hk; revert x; pattern k; apply natlike_ind; [| | assumption].
  - intros x Hx. replace x with 0 by (simpl in Hx; lia). simpl; lia.
  - clear k Hk; intros k Hk IH x Hx. rewrite Z.pow_succ_r in Hx by lia.
    rewrite popcount_step by lia.
    assert (0 <= x / 2 < 2 ^ k) by zlia. specialize (IH _ H).
    pose proof (Z.mod_pos_bound x 2). lia.
Qed.

Lemma bits_table b : 0 <= b < 256 -> bits.[b] = popcount b.
Proof.
  intros Hb. apply Z.eqb_eq.
  apply (all_range_spec 0 256 (fun b => bits.[b] =? popcount b)); [| lia].
  vm_compute; reflexivity.
Qed.

(** ** bitcnt_1.c: clearing the lowest set bit *)

Lemma clear_lowest_popcount y : 0 < y -> popcount (y .& (y - 1)) = popcount y - 1.
Proof.
  destruct y as [|p|p]; try lia; intros _. induction p as [p IH|p IH|]; [| |reflexivity].
  - replace (Zpos p~1) with (1 + 2 ^ 1 * Zpos p) by lia.
    replace (1 + 2 ^ 1 * Zpos p - 1) with (0 + 2 ^ 1 * Zpos p) by lia.
    rewrite land_split, Z.land_0_r, Z.land_diag by lia.
    replace (1 + 2 ^ 1 * Zpos p) with (2 * Zpos p + 1) by lia.
    rewrite popcount_double_1 by lia.
    change (0 + 2 ^ 1 * Zpos p) with (2 * Zpos p). rewrite popcount_double; lia.
  - replace (Zpos p~0 - 1) with (1 + 2 ^ 1 * (Zpos p - 1)) by lia.
    replace (Zpos p~0) with (0 + 2 ^ 1 * Zpos p) by lia.
    rewrite land_split, Z.land_0_l by lia.
    rewrite !Z.add_0_l; change (2 ^ 1) with 2.
    rewrite !popcount_double; [exact IH | lia | apply Z.land_nonneg; lia].
Qed.

Lemma is_i64_zero x : is_i64 x -> (x = 0 <-> u64 x = 0).
Proof. unfold is_i64, u64, zext. intros; zlia. Qed.

Lemma clear_lowest_u64 x : is_i64 x -> x <> 0 ->
  u64 (x .& i64 (x - 1)) = u64 x .& (u64 x - 1).
Proof.
  intros Hx Hnz. unfold u64, i64. rewrite zext_land, zext_sext by lia. f_equal.
  unfold is_i64, zext in *. zlia.
Qed.

Lemma bit_count_loop_spec fuel x n : is_i64 x -> x <> 0 ->
  popcount (u64 x) <= Z.of_nat fuel ->
  bit_count_loop fuel x n = Some (n + popcount (u64 x)).
Proof.
  revert x n; induction fuel as [|fuel IH]; intros x n Hx Hnz Hf.
  - exfalso. pose proof (u64_range x) as Hr; unfold is_u64 in Hr.
    assert (u64 x <> 0) by (rewrite <- is_i64_zero; auto).
    destruct (u64 x) as [|p|p]; try lia. simpl popcount in Hf.
    pose proof (popcount_pos_pos p). lia.
  - cbn [bit_count_loop].
    pose proof (clear_lowest_u64 x Hx Hnz) as Hu.
    pose proof (u64_range x) as Hr; unfold is_u64 in Hr.
    assert (Hy : 0 < u64 x) by (rewrite is_i64_zero in Hnz by auto; lia).
    pose proof (clear_lowest_popcount _ Hy) as Hp. rewrite <- Hu in Hp.
    assert (Hx' : is_i64 (x .& i64 (x - 1))).
    { apply (land_signed 63); [lia | exact Hx | apply (sext_range 64); lia]. }
    destruct (Z.eqb_spec (x .& i64 (x - 1)) 0) as [E|E].
    + rewrite is_i64_zero in E by auto. rewrite E in Hp; simpl in Hp. f_equal; lia.
    + rewrite IH; auto; [f_equal; lia | lia].
Qed.

(** ** bitcnt_2.c: adding neighbouring fields in parallel *)

(** The number whose [w]-bit digits, low digit first, are [ds]. *)
Fixpoint digits_val (w : Z) (ds : list Z) : Z :=
  match ds with
  | [] => 0
  | d :: t => d + 2 ^ w * digits_val w t
  end.

(** The masks of a folding step on [n] pairs of digits. *)
Fixpoint lo_mask (w : Z) (n : nat) : Z :=
  match n with
  | O => 0
  | S k => (2 ^ w - 1) + 2 ^ w * (0 + 2 ^ w * lo_mask w k)
  end.

Fixpoint pair_sums (ds : list Z) : list Z :=
  match ds with
  | a :: b :: t => (a + b) :: pair_sums t
  | _ => []
  end.

Definition fold_fields (w : Z) (n : nat) (x : Z) : Z :=
  ((x .& (lo_mask w n << w)) >> w) + (x .& lo_mask w n).

Lemma land_full w d : 0 <= w -> 0 <= d < 2 ^ w -> d .& (2 ^ w - 1) = d.
Proof. intros. rewrite land_mask by lia. apply Z.mod_small; lia. Qed.

Lemma land_lo_mask w n ds : 0 <= w -> length ds = (2 * n)%nat ->
  Forall (fun d => 0 <= d < 2 ^ w) ds ->
  (digits_val w ds .& lo_mask w n) + ((digits_val w ds >> w) .& lo_mask w n) =
  digits_val (2 * w) (pair_sums ds).
Proof.
  intros Hw; revert ds; induction n as [|n IH]; intros ds Hl Hd.
  { destruct ds; [simpl; now rewrite Z.land_0_r | discriminate]. }
  destruct ds as [|a [|b ds]]; simpl in Hl; try lia.
  inversion_clear Hd as [|? ? Ha Hd']; inversion_clear Hd' as [|? ? Hb Hd].
  specialize (IH ds ltac:(lia) Hd).
  cbn [digits_val pair_sums lo_mask].
  rewrite !land_split by lia. rewrite Z.land_0_r, !land_full by lia.
  replace ((a + 2 ^ w * (b + 2 ^ w * digits_val w ds)) >> w)
    with (b + 2 ^ w * digits_val w ds)
    by (rewrite shiftr_div, (Z.mul_comm (2 ^ w) (b + _)), Z.div_add, Z.div_small by lia; lia).
  assert (Hshift : digits_val w ds = digits_val w ds mod 2 ^ w + 2 ^ w * (digits_val w ds >> w)).
  { rewrite shiftr_div by lia. pose proof (Z.div_mod (digits_val w ds) (2 ^ w)). lia. }
  rewrite Hshift at 2. rewrite !land_split by (try lia; apply Z.mod_pos_bound; lia).
  rewrite Z.land_0_r, land_full by lia.
  replace (2 ^ (2 * w)) with (2 ^ w * 2 ^ w) by (rewrite <- Z.pow_add_r by lia; f_equal; lia).
  rewrite <- IH. ring.
Qed.

Lemma fold_fields_spec w n ds : 0 <= w -> length ds = (2 * n)%nat ->
  Forall (fun d => 0 <= d < 2 ^ w) ds ->
  fold_fields w n (digits_val w ds) = digits_val (2 * w) (pair_sums ds).
Proof.
  intros Hw Hl Hd. unfold fold_fields.
  rewrite Z.shiftr_land, Z.shiftr_shiftl_l, Z.sub_diag, Z.shiftl_0_r by lia.
  rewrite Z.add_comm. now apply land_lo_mask.
Qed.

Definition sum_list (ds : list Z) : Z := fold_right Z.add 0 ds.

Lemma pair_sums_props m n ds : length ds = (2 * n)%nat ->
  Forall (fun d => 0 <= d <= m) ds ->
  length (pair_sums ds) = n /\ Forall (fun d => 0 <= d <= 2 * m) (pair_sums ds) /\
  sum_list (pair_sums ds) = sum_list ds.
Proof.
  revert ds; induction n as [|n IH]; intros ds Hl Hd.
  { destruct ds; [simpl; auto | discriminate]. }
  destruct ds as [|a [|b ds]]; simpl in Hl; try lia.
  inversion_clear Hd as [|? ? Ha Hd']; inversion_clear Hd' as [|? ? Hb Hd].
  destruct (IH ds ltac:(lia) Hd) as (H1 & H2 & H3).
  cbn [pair_sums length sum_list fold_right] in *. fold (sum_list ds) in *.
  repeat split; [lia | constructor; [lia | exact H2] |].
  unfold sum_list in *; simpl; lia.
Qed.

(** One folding step on a digit list whose digits are at most [m]. *)
Lemma fold_fields_step w m n ds : 0 <= w -> m < 2 ^ w -> length ds = (2 * n)%nat ->
  Forall (fun d => 0 <= d <= m) ds ->
  exists ds', fold_fields w n (digits_val w ds) = digits_val (2 * w) ds' /\
    length ds' = n /\ Forall (fun d => 0 <= d <= 2 * m) ds' /\ sum_list ds' = sum_list ds.
Proof.
  intros Hw Hm Hl Hd. exists (pair_sums ds).
  split; [| now apply pair_sums_props].
  apply fold_fields_spec; auto. eapply Forall_impl; [| exact Hd]. simpl; lia.
Qed.

Fixpoint bin_digits (n : nat) (x : Z) : list Z :=
  match n with
  | O => []
  | S k => x mod 2 :: bin_digits k (x / 2)
  end.

Lemma bin_digits_props n x : 0 <= x ->
  length (bin_digits n x) = n /\ Forall (fun d => 0 <= d <= 1) (bin_digits n x) /\
  digits_val 1 (bin_digits n x) = x mod 2 ^ Z.of_nat n /\
  sum_list (bin_digits n x) = popcount (x mod 2 ^ Z.of_nat n).
Proof.
  revert x; induction n as [|n IH]; intros x Hx.
  { simpl. rewrite Z.mod_1_r. auto. }
  destruct (IH (x / 2)) as (H1 & H2 & H3 & H4); [apply Z.div_pos; lia |].
  assert (Hp : 0 < 2 ^ Z.of_nat n) by (apply Z.pow_pos_nonneg; lia).
  assert (Hm : x mod 2 ^ Z.of_nat (S n) = x mod 2 + 2 * ((x / 2) mod 2 ^ Z.of_nat n))
    by (rewrite Nat2Z.inj_succ, Z.pow_succ_r, Z.rem_mul_r by lia; reflexivity).
  pose proof (Z.mod_pos_bound x 2 ltac:(lia)).
  pose proof (Z.mod_pos_bound (x / 2) _ Hp).
  cbn [bin_digits digits_val length sum_list fold_right].
  fold (sum_list (bin_digits n (x / 2))).
  repeat split; [lia | constructor; [lia | exact H2] | rewrite H3, Hm; lia |].
  rewrite H4, Hm, (popcount_step (_ + _)) by lia.
  f_equal; [| f_equal]; zlia.
Qed.

Lemma bitcount_as_folds x :
  bitcount x = i32 (fold_fields 16 1 (fold_fields 8 2 (fold_fields 4 4
                 (fold_fields 2 8 (fold_fields 1 16 (x mod 2 ^ 32)))))).
Proof.
  assert (Hlow : forall m, 0 <= m < 2 ^ 32 -> x .& m = (x mod 2 ^ 32) .& m).
  { intros m Hm. rewrite <- (Z.mod_small m (2 ^ 32)) at 1 by lia.
    rewrite <- !Z.land_ones by lia.
    rewrite (Z.land_comm m), Z.land_assoc. reflexivity. }
  unfold bitcount, fold_fields.
  rewrite (Hlow 0xAAAAAAAA), (Hlow 0x55555555) by lia.
  reflexivity.
Qed.

(** The agreement of the counters with [popcount]: each counts the low 32 bits
    of its argument, or all 64 of them. *)
Lemma bitcount_spec x : bitcount x = popcount (x mod 2 ^ 32).
Proof.
  rewrite bitcount_as_folds.
  assert (Hr : 0 <= x mod 2 ^ 32 < 2 ^ 32) by (apply Z.mod_pos_bound; lia).
  pose proof (popcount_bound 32 _ ltac:(lia) Hr) as Hb.
  destruct (bin_digits_props 32 (x mod 2 ^ 32)) as (L & B & V & S); [lia |].
  change (Z.of_nat 32) with 32 in *. rewrite Z.mod_mod in V, S by lia.
  rewrite <- V.
  destruct (fold_fields_step 1 1 16 _ ltac:(lia) ltac:(lia) L B) as (d1 & -> & L1 & B1 & S1).
  destruct (fold_fields_step 2 2 8 d1 ltac:(lia) ltac:(lia) L1 B1) as (d2 & E & L2 & B2 & S2).
  change (2 * 1) with 2. rewrite E; clear E.
  destruct (fold_fields_step 4 4 4 d2 ltac:(lia) ltac:(lia) L2 B2) as (d3 & E & L3 & B3 & S3).
  change (2 * 2) with 4. rewrite E; clear E.
  destruct (fold_fields_step 8 8 2 d3 ltac:(lia) ltac:(lia) L3 B3) as (d4 & E & L4 & B4 & S4).
  change (2 * 4) with 8. rewrite E; clear E.
  destruct (fold_fields_step 16 16 1 d4 ltac:(lia) ltac:(lia) L4 B4) as (d5 & E & L5 & B5 & S5).
  change (2 * 8) with 16. rewrite E; clear E.
  destruct d5 as [|s [|? ?]]; try discriminate.
  replace (digits_val (2 * 16) [s]) with (sum_list [s]) by (simpl; lia).
  rewrite S5, S4, S3, S2, S1, S, V. apply i32_id. unfold is_i32; lia.
Qed.

Lemma ntbl_bitcount_spec x : ntbl_bitcount x = popcount (u64 x mod 2 ^ 32).
Proof.
  unfold ntbl_bitcount.
  assert (Hn : forall j m, 0 <= j -> m = (2 ^ 4 - 1) * 2 ^ j ->
    bits.[i32 ((u64 x .& m) >> j)] = popcount ((u64 x / 2 ^ j) mod 2 ^ 4)).
  { intros j m Hj ->. rewrite land_shifted_mask by lia.
    pose proof (Z.mod_pos_bound (u64 x / 2 ^ j) (2 ^ 4) ltac:(lia)).
    rewrite i32_id by (unfold is_i32; lia). apply bits_table; lia. }
  pose proof (Hn 0 0x0000000F ltac:(lia) eq_refl) as H0. rewrite Z.shiftr_0_r in H0.
  rewrite H0, !Hn by (reflexivity || lia).
  set (y := u64 x). pose proof (u64_range x : is_u64 y) as Hy; unfold is_u64 in Hy.
  rewrite (popcount_field 28 4 32), (popcount_field 24 4 28), (popcount_field 20 4 24),
    (popcount_field 16 4 20), (popcount_field 12 4 16), (popcount_field 8 4 12),
    (popcount_field 4 4 8) by lia.
  change (2 ^ 0) with 1. rewrite Z.div_1_r. lia.
Qed.

Lemma long_byte_spec x k : 0 <= k -> long_byte x k = (u64 x / 2 ^ (8 * k)) mod 2 ^ 8.
Proof. intros; unfold long_byte, u8, zext. now rewrite shiftr_div by lia. Qed.

Lemma bits_long_byte x k : 0 <= k ->
  bits.[long_byte x k] = popcount ((u64 x / 2 ^ (8 * k)) mod 2 ^ 8).
Proof.
  intros; rewrite long_byte_spec by lia.
  apply bits_table, Z.mod_pos_bound; lia.
Qed.

Lemma AR_btbl_bitcount_spec x : AR_btbl_bitcount x = popcount (u64 x mod 2 ^ 32).
Proof.
  unfold AR_btbl_bitcount. rewrite !bits_long_byte by lia.
  pose proof (u64_range x) as Hy; unfold is_u64 in Hy.
  rewrite (popcount_field 24 8 32), (popcount_field 16 8 24), (popcount_field 8 8 16) by lia.
  change (2 ^ (8 * 0)) with 1. rewrite Z.div_1_r. reflexivity.
Qed.

Lemma BW_btbl_bitcount_spec x : BW_btbl_bitcount x = popcount (u64 x mod 2 ^ 32).
Proof.
  rewrite <- AR_btbl_bitcount_spec. unfold BW_btbl_bitcount, AR_btbl_bitcount. lia.
Qed.

Lemma bit_shifter_loop_spec left x n : is_i64 x ->
  bit_shifter_loop left x n = n + popcount (x mod 2 ^ Z.of_nat left).
Proof.
  revert x n; induction left as [|k IH]; intros x n Hx.
  - change (2 ^ Z.of_nat 0) with 1. rewrite Z.mod_1_r. simpl; lia.
  - cbn [bit_shifter_loop]. destruct (Z.eqb_spec x 0) as [->|Hnz].
    { rewrite Z.mod_0_l by (apply Z.pow_nonzero; lia). simpl; lia. }
    assert (Hb : i32 (x .& 1) = x mod 2).
    { change 1 with (2 ^ 1 - 1) at 1. rewrite land_mask by lia. change (2 ^ 1) with 2.
      apply i32_id. pose proof (Z.mod_pos_bound x 2). unfold is_i32; lia. }
    rewrite Hb, IH by (rewrite shiftr_div by lia; unfold is_i64 in *; zlia).
    rewrite shiftr_div by lia. change (2 ^ 1) with 2.
    assert (0 < 2 ^ Z.of_nat k) by (apply Z.pow_pos_nonneg; lia).
    rewrite Nat2Z.inj_succ, Z.pow_succ_r, Z.rem_mul_r by lia.
    pose proof (Z.mod_pos_bound x 2 ltac:(lia)).
    pose proof (Z.mod_pos_bound (x / 2) (2 ^ Z.of_nat k) ltac:(lia)).
    rewrite (popcount_step (_ + _)) by lia.
    replace ((x mod 2 + 2 * ((x / 2) mod 2 ^ Z.of_nat k)) mod 2) with (x mod 2) by zlia.
    replace ((x mod 2 + 2 * ((x / 2) mod 2 ^ Z.of_nat k)) / 2)
      with ((x / 2) mod 2 ^ Z.of_nat k) by zlia. lia.
Qed.

(** The recursive counter consumes one nibble per call. *)
Lemma ntbl_bitcnt_spec fuel x : 0 <= x < 2 ^ (4 * Z.of_nat fuel) -> (0 < fuel)%nat ->
  ntbl_bitcnt fuel x = Some (popcount x).
Proof.
  revert x; induction fuel as [|k IH]; intros x Hx Hf; [lia |].
  assert (Hd : bits.[i32 (x .& 0x0000000F)] = popcount (x mod 2 ^ 4)).
  { change 0x0000000F with (2 ^ 4 - 1). rewrite land_mask by lia.
    pose proof (Z.mod_pos_bound x (2 ^ 4) ltac:(lia)).
    rewrite i32_id by (unfold is_i32; lia). apply bits_table; lia. }
  cbn [ntbl_bitcnt]. rewrite Hd, shiftr_div by lia.
  rewrite (popcount_split 4 x) by lia.
  destruct (Z.eqb_spec 0 (x / 2 ^ 4)) as [<-|Hnz]; cbn [negb].
  - f_equal; simpl; lia.
  - assert (Hx4 : 0 <= x / 2 ^ 4 < 2 ^ (4 * Z.of_nat k)).
    { replace (4 * Z.of_nat (S k)) with (4 + 4 * Z.of_nat k) in Hx by lia.
      rewrite Z.pow_add_r in Hx by lia. split; [apply Z.div_pos; lia |].
      apply Z.div_lt_upper_bound; lia. }
    destruct k as [|k]; [simpl in Hx4; lia |].
    rewrite IH by lia. reflexivity.
Qed.

(** ** Theorems: the counters *)

(** [bit_count] terminates on every [long] within 64 iterations and returns
    the number of set bits of its 64-bit representation. *)
Theorem bit_count_correct x : is_i64 x -> bit_count x = Some (popcount (u64 x)).
Proof.
  intros Hx. unfold bit_count. destruct (Z.eqb_spec x 0) as [->|Hnz]; [reflexivity |].
  rewrite bit_count_loop_spec; auto.
  pose proof (popcount_bound 64 (u64 x) ltac:(lia) (u64_range x)). lia.
Qed.

Lemma bit_count_correct_witness : bit_count (-1) = Some 64.
Proof.
  change 64 with (popcount (u64 (-1))).
  apply (bit_count_correct (-1)). unfold is_i64; lia.
Defined.

Lemma counter_spec f x : 0 <= x < 2 ^ 32 -> In f (pBitCntFunc 16) -> f x = Some (popcount x).
Proof.
  intros Hx Hf.
  assert (Hu : u64 x = x) by (apply u64_id; unfold is_u64; lia).
  assert (Hm : x mod 2 ^ 32 = x) by (apply Z.mod_small; lia).
  assert (Hi : is_i64 x) by (unfold is_i64; lia).
  unfold pBitCntFunc in Hf; cbn [In] in Hf.
  destruct Hf as [<-|[<-|[<-|[<-|[<-|[<-|[<-|[]]]]]]]].
  - unfold bit_count. destruct (Z.eqb_spec x 0) as [->|Hnz]; [reflexivity |].
    rewrite bit_count_loop_spec, Hu; auto.
    pose proof (popcount_bound 32 x ltac:(lia) Hx). rewrite Hu. lia.
  - now rewrite bitcount_spec, Hm.
  - apply ntbl_bitcnt_spec; [change (4 * Z.of_nat 16) with 64; lia | lia].
  - now rewrite ntbl_bitcount_spec, Hu, Hm.
  - now rewrite BW_btbl_bitcount_spec, Hu, Hm.
  - now rewrite AR_btbl_bitcount_spec, Hu, Hm.
  - unfold bit_shifter. rewrite bit_shifter_loop_spec by assumption.
    change (Z.of_nat 64) with 64. rewrite Z.mod_small by lia. reflexivity.
Qed.

(** Sum of the set bits of [iterations] seeds, 13 apart. *)
Fixpoint seeds_popcount (iterations : nat) (seed : Z) : Z :=
  match iterations with
  | O => 0
  | S k => popcount seed + seeds_popcount k (seed + 13)
  end.

Lemma bench_loop_spec f n seed acc :
  In f (pBitCntFunc 16) -> 0 <= seed -> seed + 13 * Z.of_nat n <= 2 ^ 32 ->
  0 <= acc -> acc + 32 * Z.of_nat n < 2 ^ 63 ->
  bench_loop f n seed acc = Some (acc + seeds_popcount n seed).
Proof.
  intros Hf; revert seed acc; induction n as [|n IH]; intros seed acc Hs Hb Ha Hc.
  - simpl. f_equal; lia.
  - cbn [bench_loop seeds_popcount]. rewrite (counter_spec f) by (auto; lia).
    pose proof (popcount_bound 32 seed ltac:(lia) ltac:(lia)).
    rewrite !i64_id by (unfold is_i64; lia). rewrite IH by lia. f_equal; lia.
Qed.

(** All seven counters of the benchmark report the same total: for seeds that
    stay below 2^32 every entry of [pBitCntFunc] accumulates exactly the set
    bits of the seeds it is called on. *)
Theorem bench_totals_agree f iterations seed :
  In f (pBitCntFunc 16) -> 0 <= seed -> seed + 13 * Z.of_nat iterations <= 2 ^ 32 ->
  bench_loop f iterations seed 0 = Some (seeds_popcount iterations seed).
Proof.
  intros Hf Hs Hn. rewrite bench_loop_spec by (auto; lia). reflexivity.
Qed.

Lemma bench_totals_agree_witness :
  bench_loop (nth 2 (pBitCntFunc 16) bit_count) 3 5 0 = Some 9.
Proof.
  change (Some 9) with (Some (seeds_popcount 3 5)).
  apply bench_totals_agree; [apply nth_In; cbn; lia | lia | lia].
Defined.

(** The recursive nibble counter never returns on a negative argument: the
    arithmetic shift keeps the sign and the recursion has no base case. *)
Theorem ntbl_bitcnt_negative_diverges fuel x : x < 0 -> ntbl_bitcnt fuel x = None.
Proof.
  revert x; induction fuel as [|k IH]; intros x Hx; [reflexivity |].
  cbn [ntbl_bitcnt]. assert (x >> 4 < 0) by (rewrite shiftr_div by lia; zlia).
  destruct (Z.eqb_spec 0 (x >> 4)); [lia |]. cbn [negb].
  now rewrite IH.
Qed.

Lemma ntbl_bitcnt_negative_diverges_witness : ntbl_bitcnt 1000 (-1) = None.
Proof. apply (ntbl_bitcnt_negative_diverges 1000 (-1)). lia. Defined.

(** ** Theorems: bit arrays *)

Lemma bit_update_cell c k b n : 0 <= k < 8 -> 0 <= n < 8 ->
  Z.testbit (i8 (if b : bool then c .| (1 << k) else c .& Z.lnot (1 << k))) n =
  if n =? k then b else Z.testbit c n.
Proof.
  intros Hk Hn. unfold i8. rewrite sext_testbit, Z.shiftl_1_l by lia.
  destruct b, (Z.eqb_spec n k) as [->|].
  - rewrite Z.lor_spec, Z.pow2_bits_true by lia. apply orb_true_r.
  - rewrite Z.lor_spec, Z.pow2_bits_false by lia. apply orb_false_r.
  - rewrite Z.land_spec, Z.lnot_spec, Z.pow2_bits_true by lia. apply andb_false_r.
  - rewrite Z.land_spec, Z.lnot_spec, Z.pow2_bits_false by lia. apply andb_true_r.
Qed.

Lemma getbit_testbit set n : 0 <= n -> getbit set n = Z.testbit set.[n / 8] (n mod 8).
Proof.
  intros Hn. unfold getbit.
  rewrite Z.quot_div_nonneg, Z.rem_mod_nonneg by lia.
  apply land_bit_nonzero, Z.mod_pos_bound; lia.
Qed.

Lemma bit_index_eq n m : 0 <= n -> 0 <= m -> n / 8 = m / 8 -> n mod 8 = m mod 8 -> n = m.
Proof. intros. rewrite (Z.div_mod n 8), (Z.div_mod m 8) by lia. congruence. Qed.

(** Bit arrays behave like arrays of bits: after [setbit] the addressed bit
    has the truth value of [value] and every other bit of the array is
    unchanged. *)
Theorem getbit_setbit set n m value :
  0 <= n < 8 * Z.of_nat (length set) -> 0 <= m ->
  getbit (setbit set n value) m = if m =? n then negb (value =? 0) else getbit set m.
Proof.
  intros Hn Hm. rewrite !getbit_testbit by lia. unfold setbit.
  rewrite Z.quot_div_nonneg, Z.rem_mod_nonneg by lia.
  pose proof (bit_update_cell set.[n / 8] (n mod 8) (negb (value =? 0)) (m mod 8)
                ltac:(apply Z.mod_pos_bound; lia) ltac:(apply Z.mod_pos_bound; lia)) as Hc.
  assert (Hp : 0 <= n / 8 < Z.of_nat (length set)) by zlia.
  assert (Hq : 0 <= m / 8) by zlia.
  destruct (negb (value =? 0)); rewrite aget_aset by lia;
    (destruct (Z.eqb_spec (m / 8) (n / 8)) as [E|E];
     [rewrite Hc, E; destruct (Z.eqb_spec m n) as [->|Hne];
       [now rewrite Z.eqb_refl |];
       destruct (Z.eqb_spec (m mod 8) (n mod 8)) as [E'|]; [|reflexivity];
       elim Hne; now apply bit_index_eq
     | destruct (Z.eqb_spec m n) as [->|]; [easy | reflexivity]]).
Qed.

Lemma getbit_setbit_witness : getbit (setbit (alloc_bit_array 20) 17 1) 17 = true.
Proof.
  rewrite (getbit_setbit (alloc_bit_array 20) 17 17 1);
    [reflexivity | change (length (alloc_bit_array 20)) with 3%nat; lia | lia].
Defined.

(** ** Theorems: bit strings *)

Lemma bitstring_digits_length byze n :
  Z.of_nat (length (bitstring_digits byze n)) =
  if (n =? 0)%nat then 0 else Z.of_nat n + (Z.of_nat n - 1) / 4.
Proof.
  induction n as [|k IH]; [reflexivity |].
  cbn [bitstring_digits length Nat.eqb]. rewrite length_app, Nat2Z.inj_succ, Nat2Z.inj_add, IH.
  rewrite Z.rem_mod_nonneg by lia.
  destruct k as [|k]; [reflexivity |]. cbn [Nat.eqb].
  replace (Z.of_nat (S k) =? 0) with false by (symmetry; apply Z.eqb_neq; lia).
  destruct (Z.eqb_spec (Z.of_nat (S k) mod 4) 0); cbn [andb negb length]; zlia.
Qed.

(** [bitstring] writes exactly [strwid] characters when the bits and their
    separating blanks fit in that width, and otherwise the [biz] bits and the
    [(biz-1)/4] blanks between groups of four, none of them after the last. *)
Theorem bitstring_width byze biz strwid : 0 < biz ->
  Z.of_nat (length (bitstring byze biz strwid)) = Z.max strwid (biz + (biz - 1) / 4).
Proof.
  intros Hb. unfold bitstring. rewrite length_app, repeat_length, Nat2Z.inj_add.
  rewrite bitstring_digits_length.
  replace (Z.to_nat biz =? 0)%nat with false by (symmetry; apply Nat.eqb_neq; lia).
  rewrite (Z2Nat.id biz) by lia. unfold bitstring_pad.
  rewrite shiftr_div, Z.rem_mod_nonneg by lia. change (2 ^ 2) with 4.
  destruct (Z.eqb_spec (biz mod 4) 0); cbn [negb]; zlia.
Qed.

Lemma bitstring_width_witness : Z.of_nat (length (bitstring 5 16 5)) = 19.
Proof. rewrite (bitstring_width 5 16 5); [reflexivity | lia]. Defined.

Lemma digit_char byze b : 0 <= b ->
  ((byze >> b) .& 1) + 48 = 48 + Z.b2z (Z.testbit byze b).
Proof.
  intros Hb. change 1 with (2 ^ 1 - 1) at 1. rewrite land_mask by lia.
  change (2 ^ 1) with 2. rewrite <- Z.bit0_mod, Z.shiftr_spec, Z.add_0_l by lia. lia.
Qed.

Lemma bstr_i_digits byze n j : (n <= 32)%nat -> 0 <= j < 2 ^ (32 - Z.of_nat n) ->
  bstr_i_loop (filter (fun c => negb (c =? 32)) (bitstring_digits byze n)) j =
  j * 2 ^ Z.of_nat n + byze mod 2 ^ Z.of_nat n.
Proof.
  revert j; induction n as [|k IH]; intros j Hk Hj.
  { simpl. rewrite Z.mod_1_r. lia. }
  cbn [bitstring_digits filter]. rewrite digit_char by lia.
  assert (Hd : 0 <= Z.b2z (Z.testbit byze (Z.of_nat k)) <= 1)
    by (destruct (Z.testbit byze (Z.of_nat k)); simpl; lia).
  set (d := Z.b2z _) in *.
  replace (48 + d =? 32) with false by (symmetry; apply Z.eqb_neq; lia). cbn [negb].
  rewrite filter_app.
  match goal with |- context [filter ?p (if ?c then ?x else ?y)] =>
    replace (filter p (if c then x else y)) with (@nil Z) by (now destruct c) end.
  cbn [app bstr_i_loop].
  replace ((48 + d =? 48) || (48 + d =? 49)) with true
    by (symmetry; rewrite orb_true_iff, !Z.eqb_eq; lia).
  assert (Hpow : 2 ^ (32 - Z.of_nat k) = 2 * 2 ^ (32 - Z.of_nat (S k)))
    by (rewrite <- Z.pow_succ_r by lia; f_equal; lia).
  assert (Hmax : 2 ^ (32 - Z.of_nat k) <= 2 ^ 32) by (apply Z.pow_le_mono_r; lia).
  assert (Hj2 : u32 (j << 1) .| (u32 (48 + d - 48) .& 1) = 2 * j + d).
  { rewrite !u32_id by (unfold is_u32; rewrite ?shiftl_mul by lia; lia).
    rewrite shiftl_mul by lia. replace (48 + d - 48) with d by lia.
    change 1 with (2 ^ 1 - 1) at 2. rewrite land_full by lia.
    rewrite Z.lor_comm, Z.mul_comm, lor_split by lia. lia. }
  rewrite Hj2, IH by lia.
  rewrite Nat2Z.inj_succ, Z.pow_succ_r by lia.
  rewrite (Z.mul_comm 2 (2 ^ Z.of_nat k)), (Z.rem_mul_r byze) by lia.
  subst d. rewrite Z.testbit_spec' by lia. ring.
Qed.

(** Round trip between the two string routines: reading back with [bstr_i]
    the digits [bitstring] prints (blanks removed) gives the low [biz] bits of
    the value, for every width up to the 32 bits of the result. *)
Theorem bstr_i_bitstring byze biz strwid : 0 <= biz <= 32 ->
  bstr_i (filter (fun c => negb (c =? 32)) (bitstring byze biz strwid)) = byze mod 2 ^ biz.
Proof.
  intros Hb. unfold bstr_i, bitstring. rewrite filter_app.
  match goal with |- context [filter ?p (repeat 32 ?n)] =>
    replace (filter p (repeat 32 n)) with (@nil Z) by (induction n; simpl; auto) end.
  cbn [app]. rewrite bstr_i_digits
    by (pose proof (Z.pow_pos_nonneg 2 (32 - Z.of_nat (Z.to_nat biz))); lia).
  rewrite Z2Nat.id by lia. lia.
Qed.

Lemma bstr_i_bitstring_witness :
  bstr_i (filter (fun c => negb (c =? 32)) (bitstring 1000 9 16)) = 488.
Proof. rewrite (bstr_i_bitstring 1000 9 16); [reflexivity | lia]. Defined.

(** ** Theorems: bit files *)

(** The eight bits of a byte, most significant first; more generally the low
    [n] bits of a buffer. *)
Fixpoint low_bits (n : nat) (w : Z) : list Z :=
  match n with
  | O => []
  | S k => Z.b2z (Z.testbit w (Z.of_nat k)) :: low_bits k w
  end.

Definition stream_bits (bytes : list Z) : list Z := flat_map (low_bits 8) bytes.

Lemma low_bits_ext n v w : (forall k, 0 <= k < Z.of_nat n -> Z.testbit v k = Z.testbit w k) ->
  low_bits n v = low_bits n w.
Proof.
  induction n as [|k IH]; intros H; [reflexivity |].
  cbn [low_bits]. rewrite H by lia. f_equal. apply IH; intros; apply H; lia.
Qed.

Lemma low_bits_push n w b : (n < 8)%nat ->
  low_bits (S n) (i8 (i8 (w << 1) .| (b .& 1))) = low_bits n w ++ [b mod 2].
Proof.
  intros Hn.
  assert (Hb : forall k, 0 <= k < 8 -> Z.testbit (i8 (i8 (w << 1) .| (b .& 1))) k =
                 if k =? 0 then Z.odd b else Z.testbit w (k - 1)).
  { intros k Hk. unfold i8. rewrite sext_testbit, Z.lor_spec, sext_testbit by lia.
    rewrite Z.land_spec. destruct (Z.eqb_spec k 0) as [->|Hk0].
    - rewrite Z.shiftl_spec_low by lia. rewrite Z.bit0_odd. simpl. apply andb_true_r.
    - rewrite Z.shiftl_spec by lia. rewrite (testbit_small 1 1 k) by lia.
      rewrite andb_false_r. apply orb_false_r. }
  assert (G : forall m, (m <= n)%nat ->
     low_bits (S m) (i8 (i8 (w << 1) .| (b .& 1))) = low_bits m w ++ [b mod 2]).
  { induction m as [|m IHm]; intros Hm.
    - cbn [low_bits app]. rewrite Hb by lia. simpl.
      now rewrite Zmod_odd; destruct (Z.odd b).
    - change (low_bits (S (S m)) ?x) with
        (Z.b2z (Z.testbit x (Z.of_nat (S m))) :: low_bits (S m) x).
      rewrite IHm by lia. rewrite Hb by lia.
      replace (Z.of_nat (S m) =? 0) with false by (symmetry; apply Z.eqb_neq; lia).
      cbn [low_bits app]. do 3 f_equal; lia. }
  apply G; lia.
Qed.

(** What the writer has stored: complete bytes on the stream, then the low
    [wcnt] bits of the buffer. *)
Record bf_wrote (bf : bfile) (bs : list Z) : Prop := {
  wrote_cnt : 0 <= wcnt bf <= 8;
  wrote_some : bs = [] <-> wcnt bf = 0;
  wrote_bits : map (fun b => b mod 2) bs =
               stream_bits (file_out bf) ++ low_bits (Z.to_nat (wcnt bf)) (wbuf bf)
}.

Lemma bfwrite_wrote bf bs b : bf_wrote bf bs -> bf_wrote (bfwrite b bf) (bs ++ [b]).
Proof.
  intros [Hc Hs Hb]. unfold bfwrite.
  destruct (Z.eqb_spec 8 (wcnt bf)) as [E|E]; constructor; cbn [wcnt wbuf file_out]; try lia.
  - split; [now destruct bs | lia].
  - rewrite map_app, Hb, <- E. cbn [map Z.add].
    unfold stream_bits at 2. rewrite flat_map_app. fold (stream_bits (file_out bf)).
    cbn [flat_map]. rewrite app_nil_r, <- !app_assoc. f_equal.
    change (Z.to_nat 8) with 8%nat. change (Z.to_nat 1) with (S 0).
    rewrite low_bits_push by lia.
    rewrite (low_bits_ext 8 (u8 (wbuf bf)) (wbuf bf)); [reflexivity |].
    intros; apply zext_testbit; lia.
  - split; [now destruct bs | lia].
  - rewrite map_app, Hb, <- app_assoc. f_equal. cbn [map].
    replace (Z.to_nat (wcnt bf + 1)) with (S (Z.to_nat (wcnt bf))) by lia.
    rewrite low_bits_push by lia. reflexivity.
Qed.

Lemma bfwrite_all_wrote bs bf bs0 : bf_wrote bf bs0 -> bf_wrote (bfwrite_all bs bf) (bs0 ++ bs).
Proof.
  revert bf bs0; induction bs as [|b bs IH]; intros bf bs0 H.
  - now rewrite app_nil_r.
  - replace (bs0 ++ b :: bs) with ((bs0 ++ [b]) ++ bs) by (now rewrite <- app_assoc).
    apply IH, bfwrite_wrote, H.
Qed.

Lemma stream_bits_length bytes : length (stream_bits bytes) = (8 * length bytes)%nat.
Proof.
  induction bytes as [|b t IH]; [reflexivity |].
  unfold stream_bits in *. cbn [flat_map]. rewrite length_app, IH. simpl; lia.
Qed.

Lemma low_bits_length n w : length (low_bits n w) = n.
Proof. induction n; simpl; auto. Qed.

(** Reading the rest of a byte that is in the buffer. *)
Lemma bfread_buffered k n rest out buf wb wc : (k <= 8)%nat ->
  bfread_n (k + n) (mkbfile rest out buf (Z.of_nat k) wb wc) =
  let (bs, bf) := bfread_n n (mkbfile rest out buf 0 wb wc) in (low_bits k buf ++ bs, bf).
Proof.
  induction k as [|k IH]; intros Hk.
  - simpl. now destruct (bfread_n n _).
  - cbn [Nat.add bfread_n]. unfold bfread.
    replace (0 =? rcnt _) with false by (symmetry; apply Z.eqb_neq; cbn [rcnt]; lia).
    cbn [rcnt rbuf file_in file_out wbuf wcnt].
    replace (Z.of_nat (S k) - 1) with (Z.of_nat k) by lia.
    rewrite IH by lia. destruct (bfread_n n _) as [bs bf].
    rewrite land_bit_nonzero by lia. reflexivity.
Qed.

Lemma bfread_n_fetch k b t out buf wb wc :
  bfread_n (S k) (mkbfile (b :: t) out buf 0 wb wc) =
  bfread_n (S k) (mkbfile t out (i8 b) 8 wb wc).
Proof. cbn [bfread_n]. unfold bfread. cbn [rcnt file_in file_out fgetc Z.eqb]. reflexivity. Qed.

Lemma bfread_stream bytes : forall out buf wb wc, Forall (fun b => 0 <= b < 256) bytes ->
  fst (bfread_n (8 * length bytes) (mkbfile bytes out buf 0 wb wc)) = stream_bits bytes.
Proof.
  induction bytes as [|b t IH]; intros out buf wb wc Hb; [reflexivity |].
  inversion_clear Hb as [|? ? Hb0 Ht].
  replace (8 * length (b :: t))%nat with (8 + 8 * length t)%nat by (simpl; lia).
  change (8 + 8 * length t)%nat with (S (7 + 8 * length t)).
  rewrite bfread_n_fetch. change 8 with (Z.of_nat 8) at 1.
  change (S (7 + 8 * length t)) with (8 + 8 * length t)%nat.
  rewrite bfread_buffered by lia.
  specialize (IH out (i8 b) wb wc Ht).
  destruct (bfread_n (8 * length t) _) as [bs bf]; cbn [fst] in *. subst bs.
  unfold stream_bits; cbn [flat_map]. f_equal.
  apply low_bits_ext; intros; apply sext_testbit; lia.
Qed.

Lemma bfwrite_bytes bf b : Forall (fun b => 0 <= b < 256) (file_out bf) ->
  Forall (fun b => 0 <= b < 256) (file_out (bfwrite b bf)).
Proof.
  intros H; unfold bfwrite; destruct (8 =? wcnt bf); cbn [file_out]; [| exact H].
  apply Forall_app; split; [exact H |]. constructor; [apply (zext_range 8); lia | constructor].
Qed.

Lemma bfwrite_all_bytes bs bf : Forall (fun b => 0 <= b < 256) (file_out bf) ->
  Forall (fun b => 0 <= b < 256) (file_out (bfwrite_all bs bf)).
Proof. revert bf; induction bs; simpl; auto using bfwrite_bytes. Qed.

(** Bit files round-trip except for their tail: closing a bit file after
    writing [n] bits leaves [(n-1)/8] bytes in it, which read back as the first
    [8*((n-1)/8)] bits written; [bfclose] never flushes the buffer, so the last
    one to eight bits are lost. *)
Theorem bitfile_roundtrip bs g1 g2 g3 g4 :
  let stored := bfclose (bfwrite_all bs (bfopen [] g1 g2)) in
  Z.of_nat (length stored) = (Z.of_nat (length bs) - 1) / 8 + b2z (length bs =? 0)%nat /\
  fst (bfread_n (8 * length stored) (bfopen stored g3 g4)) =
  firstn (8 * length stored) (map (fun b => b mod 2) bs).
Proof.
  intros stored. unfold stored, bfclose, bfopen.
  destruct (bfwrite_all_wrote bs (mkbfile [] [] g1 0 g2 0) []) as [Hc Hs Hb].
  { constructor; simpl; [lia | tauto | reflexivity]. }
  set (bf := bfwrite_all bs _) in *. simpl app in *.
  split.
  - apply (f_equal (@length Z)) in Hb.
    rewrite length_map, length_app, stream_bits_length, low_bits_length in Hb.
    destruct bs as [|b0 bs'].
    + apply proj1 in Hs. specialize (Hs eq_refl). rewrite Hs in Hb. simpl in *. lia.
    + assert (wcnt bf <> 0) by (intros E; apply Hs in E; discriminate).
      replace (length (b0 :: bs') =? 0)%nat with false by reflexivity.
      unfold b2z. zlia.
  - rewrite bfread_stream.
    + rewrite Hb, firstn_app, stream_bits_length, Nat.sub_diag, firstn_O, app_nil_r.
      symmetry; apply firstn_all2. rewrite stream_bits_length; lia.
    + apply bfwrite_all_bytes. constructor.
Qed.
