(* ===== verification/Isqrt.v ===== *)
(** * Integer square root of the basicmath workload
    (src/mibench/automotive/basicmath/isqrt.c)

    [usqrt] computes the square root digit by digit with shifts, additions and
    comparisons on [unsigned long]; the theorem says that what it stores is the
    scaled integer square root its comment promises. *)

From Stdlib Require Import ZArith Lia.
From S2P Require Import Prelude.

Definition BITSPERLONG : Z := 32.

(** [TOP2BITS(x)] *)
Definition TOP2BITS (x : Z) : Z := (x .& (3 << (BITSPERLONG - 2))) >> (BITSPERLONG - 2).

(** [struct int_sqrt] of snipmath.h *)
Record int_sqrt := mk_int_sqrt { sqrt : Z; frac : Z }.

Record usqrt_vars := mk_usqrt_vars { us_x : Z; us_a : Z; us_r : Z }.

(** One iteration of the loop, all variables [unsigned long]. *)
Definition usqrt_iter (v : usqrt_vars) : usqrt_vars :=
  let r := u64 (u64 (us_r v << 2) + TOP2BITS (us_x v)) in
  let x := u64 (us_x v << 2) in
  let a := u64 (us_a v << 1) in
  let e := u64 (u64 (a << 1) + 1) in
  if e <=? r
  then mk_usqrt_vars x (u64 (a + 1)) (u64 (r - e))
  else mk_usqrt_vars x a r.

(** [memcpy(q, &a, sizeof(long))]: the low half lands in [sqrt], the high half
    in [frac]. *)
Definition usqrt (x : Z) : int_sqrt :=
  let v := for_range 0 BITSPERLONG (fun _ => usqrt_iter) (mk_usqrt_vars x 0 0) in
  mk_int_sqrt (u32 (us_a v)) (us_a v >> 32).

(** ** Correctness *)

(** The part of the radicand consumed after [i] iterations. *)
Definition consumed (x i : Z) : Z := x * 4 ^ i / 2 ^ 32.

Record usqrt_inv (x i : Z) (v : usqrt_vars) : Prop := {
  inv_x : us_x v = u64 (x * 4 ^ i);
  inv_a : 0 <= us_a v < 2 ^ i;
  inv_r : 0 <= us_r v <= 2 * us_a v;
  inv_v : us_a v * us_a v + us_r v = consumed x i
}.

Lemma TOP2BITS_spec x : TOP2BITS x = (x / 2 ^ 30) mod 4.
Proof.
  unfold TOP2BITS, BITSPERLONG. change (3 << (32 - 2)) with ((2 ^ 2 - 1) * 2 ^ 30).
  now rewrite land_shifted_mask by lia.
Qed.

Lemma consumed_succ x i : 0 <= x -> 0 <= i ->
  consumed x (i + 1) = 4 * consumed x i + (x * 4 ^ i / 2 ^ 30) mod 4.
Proof.
  intros Hx Hi. unfold consumed. rewrite Z.pow_add_r by lia.
  change (4 ^ 1) with 4. set (y := x * 4 ^ i).
  replace (x * (4 ^ i * 4)) with (y * 4) by (unfold y; ring).
  change (2 ^ 32) with (2 ^ 30 * 4).
  rewrite Z.div_mul_cancel_r by lia. rewrite <- Z.div_div by lia.
  set (z := y / 2 ^ 30). pose proof (Z.div_mod z 4 ltac:(lia)). lia.
Qed.

Lemma usqrt_iter_inv x i v : 0 <= x < 2 ^ 32 -> 0 <= i < 32 ->
  usqrt_inv x i v -> usqrt_inv x (i + 1) (usqrt_iter v).
Proof.
  intros Hx Hi [Ix Ia Ir Iv].
  assert (H2i : 2 ^ i <= 2 ^ 31) by (apply Z.pow_le_mono_r; lia).
  assert (H2s : 2 ^ (i + 1) = 2 * 2 ^ i) by (rewrite Z.pow_add_r by lia; lia).
  assert (Hx' : u64 (us_x v << 2) = u64 (x * 4 ^ (i + 1))).
  { rewrite Ix, shiftl_mul, Z.pow_add_r by lia. unfold u64, zext.
    rewrite Z.mul_mod_idemp_l by lia. f_equal. change (2 ^ 2) with (4 ^ 1). ring. }
  assert (Htop : TOP2BITS (us_x v) = (x * 4 ^ i / 2 ^ 30) mod 4).
  { rewrite TOP2BITS_spec, Ix. unfold u64, zext.
    change 64 with (30 + 34). rewrite mod_pow2_div by lia.
    change 4 with (2 ^ 2) at 2 3. rewrite mod_pow2_mod by lia. reflexivity. }
  pose proof (Z.mod_pos_bound (x * 4 ^ i / 2 ^ 30) 4 ltac:(lia)) as Hd.
  pose proof (consumed_succ x i ltac:(lia) ltac:(lia)) as Hc.
  set (d := (x * 4 ^ i / 2 ^ 30) mod 4) in *.
  unfold usqrt_iter. rewrite Hx', Htop.
  rewrite !shiftl_mul by lia.
  rewrite (u64_id (us_r v * 2 ^ 2)) by (unfold is_u64; lia).
  rewrite (u64_id (us_a v * 2 ^ 1)) by (unfold is_u64; lia).
  rewrite (u64_id (us_a v * 2 ^ 1 * 2 ^ 1)) by (unfold is_u64; lia).
  rewrite (u64_id (us_r v * 2 ^ 2 + d)) by (unfold is_u64; lia).
  rewrite (u64_id (us_a v * 2 ^ 1 * 2 ^ 1 + 1)) by (unfold is_u64; lia).
  destruct (Z.leb_spec (us_a v * 2 ^ 1 * 2 ^ 1 + 1) (us_r v * 2 ^ 2 + d)).
  - rewrite (u64_id (us_a v * 2 ^ 1 + 1)), (u64_id (us_r v * 2 ^ 2 + d - _))
      by (unfold is_u64; lia).
    constructor; cbn [us_x us_a us_r]; [reflexivity | lia | lia | nia].
  - constructor; cbn [us_x us_a us_r]; [reflexivity | lia | lia | nia].
Qed.

(** [usqrt] returns [floor(sqrt(x) * 2^16)], exactly as its comment says: for
    every 32-bit argument the stored root is the integer square root of
    [x * 2^32], and the [frac] half is zero. *)
Theorem usqrt_correct x : is_u32 x -> usqrt x = mk_int_sqrt (Z.sqrt (x * 2 ^ 32)) 0.
Proof.
  unfold is_u32; intros Hx. unfold usqrt.
  assert (I : usqrt_inv x 32 (for_range 0 BITSPERLONG (fun _ => usqrt_iter) (mk_usqrt_vars x 0 0))).
  { unfold BITSPERLONG. apply for_range_ind; [lia | | intros; now apply usqrt_iter_inv].
    constructor; cbn [us_x us_a us_r]; try lia.
    - rewrite u64_id by (unfold is_u64; lia). lia.
    - unfold consumed. rewrite Z.mul_1_r, Z.div_small by lia. reflexivity. }
  destruct I as [_ Ia Ir Iv].
  set (v := for_range _ _ _ _) in *.
  assert (E : us_a v = Z.sqrt (x * 2 ^ 32)).
  { symmetry. apply Z.sqrt_unique. unfold consumed in Iv.
    change (4 ^ 32) with (2 ^ 32 * 2 ^ 32) in Iv.
    rewrite Z.mul_assoc, Z.div_mul in Iv by lia. nia. }
  rewrite u32_id by (unfold is_u32; lia).
  rewrite shiftr_div, Z.div_small, E by lia. reflexivity.
Qed.

Lemma usqrt_correct_witness : usqrt 144 = mk_int_sqrt 786432 0.
Proof.
  change 786432 with (Z.sqrt (144 * 2 ^ 32)).
  apply (usqrt_correct 144). unfold is_u32; lia.
Defined.
