(* ===== verification/Crc32.v ===== *)
(** * The CRC32 workload (src/mibench/telecomm/CRC32/crc_32.c)

    The table-driven CRC of the benchmark, at the widths it has on an LP64
    target ([DWORD] is [unsigned long], 64 bits), compared with the bit-serial
    shift register the file describes for the polynomial 0xedb88320. *)

From Stdlib Require Import ZArith Lia List Bool.
Import ListNotations.
From S2P Require Import Prelude.

(** ** The program *)

Definition crc_32_tab : list Z :=
  [ 0x00000000; 0x77073096; 0xee0e612c; 0x990951ba; 0x076dc419; 0x706af48f;
    0xe963a535; 0x9e6495a3; 0x0edb8832; 0x79dcb8a4; 0xe0d5e91e; 0x97d2d988;
    0x09b64c2b; 0x7eb17cbd; 0xe7b82d07; 0x90bf1d91; 0x1db71064; 0x6ab020f2;
    0xf3b97148; 0x84be41de; 0x1adad47d; 0x6ddde4eb; 0xf4d4b551; 0x83d385c7;
    0x136c9856; 0x646ba8c0; 0xfd62f97a; 0x8a65c9ec; 0x14015c4f; 0x63066cd9;
    0xfa0f3d63; 0x8d080df5; 0x3b6e20c8; 0x4c69105e; 0xd56041e4; 0xa2677172;
    0x3c03e4d1; 0x4b04d447; 0xd20d85fd; 0xa50ab56b; 0x35b5a8fa; 0x42b2986c;
    0xdbbbc9d6; 0xacbcf940; 0x32d86ce3; 0x45df5c75; 0xdcd60dcf; 0xabd13d59;
    0x26d930ac; 0x51de003a; 0xc8d75180; 0xbfd06116; 0x21b4f4b5; 0x56b3c423;
    0xcfba9599; 0xb8bda50f; 0x2802b89e; 0x5f058808; 0xc60cd9b2; 0xb10be924;
    0x2f6f7c87; 0x58684c11; 0xc1611dab; 0xb6662d3d; 0x76dc4190; 0x01db7106;
    0x98d220bc; 0xefd5102a; 0x71b18589; 0x06b6b51f; 0x9fbfe4a5; 0xe8b8d433;
    0x7807c9a2; 0x0f00f934; 0x9609a88e; 0xe10e9818; 0x7f6a0dbb; 0x086d3d2d;
    0x91646c97; 0xe6635c01; 0x6b6b51f4; 0x1c6c6162; 0x856530d8; 0xf262004e;
    0x6c0695ed; 0x1b01a57b; 0x8208f4c1; 0xf50fc457; 0x65b0d9c6; 0x12b7e950;
    0x8bbeb8ea; 0xfcb9887c; 0x62dd1ddf; 0x15da2d49; 0x8cd37cf3; 0xfbd44c65;
    0x4db26158; 0x3ab551ce; 0xa3bc0074; 0xd4bb30e2; 0x4adfa541; 0x3dd895d7;
    0xa4d1c46d; 0xd3d6f4fb; 0x4369e96a; 0x346ed9fc; 0xad678846; 0xda60b8d0;
    0x44042d73; 0x33031de5; 0xaa0a4c5f; 0xdd0d7cc9; 0x5005713c; 0x270241aa;
    0xbe0b1010; 0xc90c2086; 0x5768b525; 0x206f85b3; 0xb966d409; 0xce61e49f;
    0x5edef90e; 0x29d9c998; 0xb0d09822; 0xc7d7a8b4; 0x59b33d17; 0x2eb40d81;
    0xb7bd5c3b; 0xc0ba6cad; 0xedb88320; 0x9abfb3b6; 0x03b6e20c; 0x74b1d29a;
    0xead54739; 0x9dd277af; 0x04db2615; 0x73dc1683; 0xe3630b12; 0x94643b84;
    0x0d6d6a3e; 0x7a6a5aa8; 0xe40ecf0b; 0x9309ff9d; 0x0a00ae27; 0x7d079eb1;
    0xf00f9344; 0x8708a3d2; 0x1e01f268; 0x6906c2fe; 0xf762575d; 0x806567cb;
    0x196c3671; 0x6e6b06e7; 0xfed41b76; 0x89d32be0; 0x10da7a5a; 0x67dd4acc;
    0xf9b9df6f; 0x8ebeeff9; 0x17b7be43; 0x60b08ed5; 0xd6d6a3e8; 0xa1d1937e;
    0x38d8c2c4; 0x4fdff252; 0xd1bb67f1; 0xa6bc5767; 0x3fb506dd; 0x48b2364b;
    0xd80d2bda; 0xaf0a1b4c; 0x36034af6; 0x41047a60; 0xdf60efc3; 0xa867df55;
    0x316e8eef; 0x4669be79; 0xcb61b38c; 0xbc66831a; 0x256fd2a0; 0x5268e236;
    0xcc0c7795; 0xbb0b4703; 0x220216b9; 0x5505262f; 0xc5ba3bbe; 0xb2bd0b28;
    0x2bb45a92; 0x5cb36a04; 0xc2d7ffa7; 0xb5d0cf31; 0x2cd99e8b; 0x5bdeae1d;
    0x9b64c2b0; 0xec63f226; 0x756aa39c; 0x026d930a; 0x9c0906a9; 0xeb0e363f;
    0x72076785; 0x05005713; 0x95bf4a82; 0xe2b87a14; 0x7bb12bae; 0x0cb61b38;
    0x92d28e9b; 0xe5d5be0d; 0x7cdcefb7; 0x0bdbdf21; 0x86d3d2d4; 0xf1d4e242;
    0x68ddb3f8; 0x1fda836e; 0x81be16cd; 0xf6b9265b; 0x6fb077e1; 0x18b74777;
    0x88085ae6; 0xff0f6a70; 0x66063bca; 0x11010b5c; 0x8f659eff; 0xf862ae69;
    0x616bffd3; 0x166ccf45; 0xa00ae278; 0xd70dd2ee; 0x4e048354; 0x3903b3c2;
    0xa7672661; 0xd06016f7; 0x4969474d; 0x3e6e77db; 0xaed16a4a; 0xd9d65adc;
    0x40df0b66; 0x37d83bf0; 0xa9bcae53; 0xdebb9ec5; 0x47b2cf7f; 0x30b5ffe9;
    0xbdbdf21c; 0xcabac28a; 0x53b39330; 0x24b4a3a6; 0xbad03605; 0xcdd70693;
    0x54de5729; 0x23d967bf; 0xb3667a2e; 0xc4614ab8; 0x5d681b02; 0x2a6f2b94;
    0xb40bbe37; 0xc30c8ea1; 0x5a05df1b; 0x2d02ef8d ].

(** [UPDC32(octet, crc)] of crc.h *)
Definition UPDC32 (octet crc : Z) : Z :=
  crc_32_tab.[(crc .^ u8 octet) .& 0xff] .^ (crc >> 8).

Definition updateCRC32 (ch crc : Z) : Z := UPDC32 ch crc.

(** [~x] on a [DWORD] *)
Definition not_u64 (x : Z) : Z := u64 (Z.lnot x).

(** [buf] is a sequence of (signed) [char]. *)
Definition crc32buf (buf : list Z) : Z :=
  not_u64 (fold_left (fun oldcrc32 c => UPDC32 c oldcrc32) buf 0xFFFFFFFF).

(** What [fopen] and the stream functions give for a name: no stream, or the
    bytes read before EOF and whether [ferror] is set then. *)
Definition filesystem := list Z -> option (list Z * bool).

Inductive Boolean_T := Error_ | Success_.

Definition Boolean_T_int (b : Boolean_T) : Z :=
  match b with Error_ => -1 | Success_ => 0 end.

(** [while ((c = getc(fin)) != EOF) { ++*charcnt; oldcrc32 = UPDC32(c, oldcrc32); }] *)
Fixpoint crc_getc_loop (s : list Z) (charcnt oldcrc32 : Z) : Z * Z :=
  match s with
  | [] => (charcnt, oldcrc32)
  | c :: t => crc_getc_loop t (i64 (charcnt + 1)) (UPDC32 c oldcrc32)
  end.

(** [crc] is what the caller's variable held before: it is left alone on error. *)
Definition crc32file (fs : filesystem) (name : list Z) (crc : Z) : Boolean_T * Z * Z :=
  let oldcrc32 := 0xFFFFFFFF in
  let charcnt := 0 in
  match fs name with
  | None => (Error_, crc, charcnt)
  | Some (s, err) =>
      let (charcnt, oldcrc32) := crc_getc_loop s charcnt oldcrc32 in
      let charcnt := if err : bool then -1 else charcnt in
      (Success_, not_u64 oldcrc32, charcnt)
  end.

(** [main]: the printed lines (crc, charcnt, name) and the exit status. *)
Fixpoint crc_main_loop (fs : filesystem) (argv : list (list Z)) (errors crc : Z)
  : list (Z * Z * list Z) * Z :=
  match argv with
  | [] => ([], errors)
  | name :: rest =>
      let '(r, crc, charcnt) := crc32file fs name crc in
      let (out, errors) := crc_main_loop fs rest (errors .| Boolean_T_int r) crc in
      ((crc, charcnt, name) :: out, errors)
  end.

Definition crc_main (fs : filesystem) (argv : list (list Z)) (crc0 : Z)
  : list (Z * Z * list Z) * Z :=
  let (out, errors) := crc_main_loop fs argv 0 crc0 in (out, b2z (negb (errors =? 0))).

(** ** The reference: a bit-serial shift register *)

(** One shift; the feedback is the reversed polynomial. *)
Definition crc_bit (c : Z) : Z :=
  if Z.odd c then (c >> 1) .^ 0xedb88320 else c >> 1.

Fixpoint crc_bits (n : nat) (c : Z) : Z :=
  match n with O => c | S k => crc_bits k (crc_bit c) end.

(** Feed a byte, low bit first. *)
Definition crc_byte (c b : Z) : Z := crc_bits 8 (c .^ b).

(** The CRC-32 of a message: preset to ones, complemented at the end. *)
Definition crc32_spec (bytes : list Z) : Z := fold_left crc_byte bytes 0xFFFFFFFF .^ 0xFFFFFFFF.

(** ** The table is eight shifts of the register *)

Lemma crc_bit_shifted a h j : 0 < j -> crc_bit (a .^ (h << j)) = crc_bit a .^ (h << (j - 1)).
Proof.
  intros Hj. unfold crc_bit.
  assert (Ho : Z.odd (a .^ (h << j)) = Z.odd a).
  { rewrite <- !Z.bit0_odd, Z.lxor_spec, Z.shiftl_spec_low by lia. apply xorb_false_r. }
  assert (Hs : (a .^ (h << j)) >> 1 = (a >> 1) .^ (h << (j - 1))).
  { rewrite Z.shiftr_lxor, Z.shiftr_shiftl_l by lia. reflexivity. }
  rewrite Ho, Hs. destruct (Z.odd a); [| reflexivity].
  rewrite !Z.lxor_assoc. f_equal. apply Z.lxor_comm.
Qed.

Lemma crc_bits_shifted n a h : crc_bits n (a .^ (h << Z.of_nat n)) = crc_bits n a .^ h.
Proof.
  revert a; induction n as [|n IH]; intros a; [cbn [crc_bits]; now rewrite Z.shiftl_0_r |].
  cbn [crc_bits]. rewrite crc_bit_shifted by lia.
  replace (Z.of_nat (S n) - 1) with (Z.of_nat n) by lia. apply IH.
Qed.

Lemma crc_bits_add n m c : crc_bits (n + m) c = crc_bits m (crc_bits n c).
Proof. revert c; induction n; simpl; auto. Qed.

Lemma crc_32_tab_spec b : 0 <= b < 256 -> crc_32_tab.[b] = crc_bits 8 b.
Proof.
  intros Hb. apply Z.eqb_eq.
  apply (all_range_spec 0 256 (fun b => crc_32_tab.[b] =? crc_bits 8 b)); [| lia].
  vm_compute; reflexivity.
Qed.

Lemma lxor_low_high x : x = (x .& 0xff) .^ ((x >> 8) << 8).
Proof.
  apply Z.bits_inj'; intros n Hn. rewrite Z.lxor_spec, Z.land_spec.
  change 0xff with (Z.ones 8).
  destruct (Z.ltb_spec n 8).
  - rewrite Z.ones_spec_low, Z.shiftl_spec_low by lia. now rewrite andb_true_r, xorb_false_r.
  - rewrite Z.ones_spec_high, Z.shiftl_spec, Z.shiftr_spec by lia.
    rewrite andb_false_r. simpl. f_equal; lia.
Qed.

Lemma UPDC32_spec octet crc : is_u8 octet -> UPDC32 octet crc = crc_byte crc octet.
Proof.
  intros Ho. unfold UPDC32, crc_byte, is_u8 in *. unfold u8.
  rewrite zext_id by lia. set (x := crc .^ octet).
  assert (Hx : crc >> 8 = x >> 8).
  { unfold x. rewrite Z.shiftr_lxor, (shiftr_div octet), (Z.div_small octet) by lia.
    now rewrite Z.lxor_0_r. }
  assert (Hb : crc_bits 8 x = crc_bits 8 (x .& 0xff) .^ (x >> 8)).
  { rewrite (lxor_low_high x) at 1. exact (crc_bits_shifted 8 (x .& 0xff) (x >> 8)). }
  rewrite Hx, Hb, crc_32_tab_spec; [reflexivity |].
  change 0xff with (2 ^ 8 - 1). rewrite land_mask by lia. apply Z.mod_pos_bound; lia.
Qed.

Lemma UPDC32_char c crc : UPDC32 c crc = crc_byte crc (u8 c).
Proof.
  rewrite <- UPDC32_spec by (apply (zext_range 8); lia).
  unfold UPDC32, u8, zext. now rewrite Z.mod_mod by lia.
Qed.

(** ** Ranges *)

Lemma lxor_range w a b : 0 <= w -> 0 <= a < 2 ^ w -> 0 <= b < 2 ^ w -> 0 <= (a .^ b) < 2 ^ w.
Proof.
  intros Hw Ha Hb. rewrite <- (Z.mod_small a (2 ^ w)), <- (Z.mod_small b (2 ^ w)) by lia.
  pose proof (zext_lxor w a b Hw) as E; unfold zext in E. rewrite <- E.
  apply Z.mod_pos_bound, Z.pow_pos_nonneg; lia.
Qed.

Lemma crc_bit_range c : is_u32 c -> is_u32 (crc_bit c).
Proof.
  unfold is_u32, crc_bit; intros Hc.
  assert (0 <= c >> 1 < 2 ^ 32) by (rewrite shiftr_div by lia; zlia).
  destruct (Z.odd c); [apply lxor_range; lia | lia].
Qed.

Lemma crc_bits_range n c : is_u32 c -> is_u32 (crc_bits n c).
Proof. revert c; induction n; intros c Hc; simpl; auto using crc_bit_range. Qed.

Lemma crc_byte_range c b : is_u32 c -> is_u8 b -> is_u32 (crc_byte c b).
Proof.
  intros Hc Hb. apply crc_bits_range. unfold is_u32, is_u8 in *. apply lxor_range; lia.
Qed.

Lemma crc_fold_range bytes c : is_u32 c -> Forall is_u8 bytes -> is_u32 (fold_left crc_byte bytes c).
Proof.
  intros Hc Hb; revert c Hc; induction Hb; intros c Hc; simpl; auto using crc_byte_range.
Qed.

Lemma bytes_of_chars buf : Forall is_u8 (map u8 buf).
Proof. induction buf; simpl; constructor; auto. apply (zext_range 8); lia. Qed.

Lemma crc_fold_chars buf c :
  fold_left (fun crc ch => UPDC32 ch crc) buf c = fold_left crc_byte (map u8 buf) c.
Proof. revert c; induction buf; intros c; simpl; auto. rewrite UPDC32_char; auto. Qed.

Lemma lxor_ones32 c : is_u32 c -> c .^ 0xFFFFFFFF = 0xFFFFFFFF - c.
Proof.
  unfold is_u32; intros Hc.
  pose proof (Z.sub_2lor_lxor c 0xFFFFFFFF). pose proof (Z.sub_lor_land c 0xFFFFFFFF).
  assert (c .& 0xFFFFFFFF = c).
  { change 0xFFFFFFFF with (2 ^ 32 - 1). rewrite land_mask, Z.mod_small by lia. reflexivity. }
  lia.
Qed.

(** Complementing 64 bits where the register has 32. *)
Lemma not_u64_u32 c : is_u32 c -> not_u64 c = 0xFFFFFFFF00000000 + (c .^ 0xFFFFFFFF).
Proof.
  intros Hc. rewrite lxor_ones32 by assumption. unfold not_u64, u64, zext, is_u32 in *.
  pose proof (Z.add_lnot_diag c). zlia.
Qed.

Lemma crc32buf_value buf :
  crc32buf buf = 0xFFFFFFFF00000000 + crc32_spec (map u8 buf).
Proof.
  unfold crc32buf, crc32_spec. rewrite crc_fold_chars. apply not_u64_u32.
  apply crc_fold_range; [unfold is_u32; lia | apply bytes_of_chars].
Qed.

(** ** Theorems *)

(** C24. The table-driven [crc32buf] computes the CRC-32 of the reversed polynomial
    0xedb88320 as defined by the bit-serial register; on an LP64 target the
    final complement acts on 64 bits, so the value returned is that CRC with
    the upper 32 bits set. *)
Theorem crc32buf_correct buf :
  crc32buf buf = 0xFFFFFFFF00000000 + crc32_spec (map u8 buf).
Proof. apply crc32buf_value. Qed.

(** The register step loses no information. *)
Lemma crc_bit_inj c d : is_u32 c -> is_u32 d -> crc_bit c = crc_bit d -> c = d.
Proof.
  intros Hc Hd E. unfold is_u32 in *.
  assert (Htop : forall x, 0 <= x < 2 ^ 32 -> Z.testbit (crc_bit x) 31 = Z.odd x).
  { intros x Hx. unfold crc_bit.
    assert (Z.testbit (x >> 1) 31 = false).
    { apply (testbit_small _ 31); [rewrite shiftr_div by lia; zlia | lia]. }
    destruct (Z.odd x); [rewrite Z.lxor_spec, H; reflexivity | assumption]. }
  assert (Ho : Z.odd c = Z.odd d) by (rewrite <- !Htop, E by lia; reflexivity).
  assert (Hs : c >> 1 = d >> 1).
  { unfold crc_bit in E. rewrite Ho in E. destruct (Z.odd d); [| assumption].
    apply (f_equal (fun z => z .^ 0xedb88320)) in E.
    now rewrite !Z.lxor_assoc, Z.lxor_nilpotent, !Z.lxor_0_r in E. }
  rewrite !shiftr_div in Hs by lia. change (2 ^ 1) with 2 in Hs.
  rewrite (Z.div_mod c 2), (Z.div_mod d 2), Hs, !Zmod_odd, Ho by lia. reflexivity.
Qed.

Lemma crc_bits_inj n c d : is_u32 c -> is_u32 d -> crc_bits n c = crc_bits n d -> c = d.
Proof.
  revert c d; induction n as [|n IH]; intros c d Hc Hd E; [exact E |].
  apply crc_bit_inj; auto. apply IH; auto using crc_bit_range.
Qed.

Lemma lxor_cancel_l c x y : c .^ x = c .^ y -> x = y.
Proof.
  intros E. apply (f_equal (Z.lxor c)) in E.
  now rewrite <- !Z.lxor_assoc, Z.lxor_nilpotent, !Z.lxor_0_l in E.
Qed.

(** Little-endian value of a byte sequence. *)
Fixpoint le_val (bytes : list Z) : Z :=
  match bytes with [] => 0 | b :: t => b .^ (le_val t << 8) end.

Lemma crc_fold_le_val bytes c :
  fold_left crc_byte bytes c = crc_bits (8 * length bytes) (c .^ le_val bytes).
Proof.
  revert c; induction bytes as [|b t IH]; intros c.
  { simpl. now rewrite Z.lxor_0_r. }
  cbn [fold_left le_val]. rewrite IH.
  replace (8 * length (b :: t))%nat with (8 + 8 * length t)%nat by (simpl; lia).
  rewrite crc_bits_add. unfold crc_byte. f_equal.
  rewrite <- Z.lxor_assoc. symmetry. exact (crc_bits_shifted 8 (c .^ b) (le_val t)).
Qed.

Lemma le_val_range bytes : Forall is_u8 bytes ->
  0 <= le_val bytes < 2 ^ (8 * Z.of_nat (length bytes)).
Proof.
  induction 1 as [|b t Hb Ht IH]; [simpl; lia |]. unfold is_u8 in Hb.
  cbn [le_val length]. replace (8 * Z.of_nat (S (length t))) with (8 + 8 * Z.of_nat (length t)) by lia.
  apply lxor_range; [lia | |].
  - split; [lia |]. apply Z.lt_le_trans with (2 ^ 8); [lia | apply Z.pow_le_mono_r; lia].
  - rewrite shiftl_mul, Z.pow_add_r by lia. lia.
Qed.

Lemma le_val_inj xs ys : length xs = length ys -> Forall is_u8 xs -> Forall is_u8 ys ->
  le_val xs = le_val ys -> xs = ys.
Proof.
  revert ys; induction xs as [|x xs IH]; intros [|y ys] Hl Hx Hy E; try discriminate; auto.
  inversion_clear Hx; inversion_clear Hy. unfold is_u8 in *. cbn [le_val] in E.
  assert (Hlow : forall b v, 0 <= b < 256 -> (b .^ (v << 8)) mod 2 ^ 8 = b).
  { intros b v Hb. apply Z.bits_inj'; intros n Hn.
    destruct (Z.ltb_spec n 8).
    - rewrite testbit_low, Z.lxor_spec, Z.shiftl_spec_low by lia. apply xorb_false_r.
    - rewrite Z.mod_pow2_bits_high by lia. symmetry. apply (testbit_small b 8); lia. }
  assert (x = y) by (rewrite <- (Hlow x (le_val xs)), <- (Hlow y (le_val ys)), E by lia; reflexivity).
  subst y. f_equal. apply IH; auto.
  apply lxor_cancel_l in E.
  apply (f_equal (fun z => z >> 8)) in E.
  now rewrite !Z.shiftr_shiftl_l, !Z.shiftl_0_r in E by lia.
Qed.

Lemma crc_fold_state_inj bytes c d : Forall is_u8 bytes -> is_u32 c -> is_u32 d ->
  fold_left crc_byte bytes c = fold_left crc_byte bytes d -> c = d.
Proof.
  intros Hb; revert c d; induction Hb as [|b t Hb Ht IH]; intros c d Hc Hd E; [exact E |].
  simpl in E. apply IH in E; auto using crc_byte_range.
  unfold crc_byte in E. unfold is_u32, is_u8 in *.
  apply crc_bits_inj in E; [| apply lxor_range; lia | apply lxor_range; lia].
  rewrite (Z.lxor_comm c), (Z.lxor_comm d) in E. now apply lxor_cancel_l in E.
Qed.

(** Every error burst of up to 32 bits is detected: two buffers that differ
    only inside a window of at most four bytes never have the same CRC. *)
Theorem crc32buf_detects_bursts pre e1 e2 post :
  length e1 = length e2 -> (length e1 <= 4)%nat -> map u8 e1 <> map u8 e2 ->
  crc32buf (pre ++ e1 ++ post) <> crc32buf (pre ++ e2 ++ post).
Proof.
  intros Hl H4 Hne E. apply Hne.
  rewrite !crc32buf_value in E. unfold crc32_spec in E.
  assert (E' : fold_left crc_byte (map u8 (pre ++ e1 ++ post)) 0xFFFFFFFF =
               fold_left crc_byte (map u8 (pre ++ e2 ++ post)) 0xFFFFFFFF).
  { apply (lxor_cancel_l 0xFFFFFFFF). rewrite !(Z.lxor_comm 0xFFFFFFFF). lia. }
  rewrite !map_app, !fold_left_app in E'.
  set (c := fold_left crc_byte (map u8 pre) 0xFFFFFFFF) in *.
  assert (Hc : is_u32 c) by (apply crc_fold_range; [unfold is_u32; lia | apply bytes_of_chars]).
  apply crc_fold_state_inj in E'; auto using bytes_of_chars, crc_fold_range.
  rewrite !crc_fold_le_val, !length_map, <- Hl in E'.
  assert (Hr : forall e, (length e <= 4)%nat -> is_u32 (le_val (map u8 e))).
  { intros e He. pose proof (le_val_range (map u8 e) (bytes_of_chars e)) as H.
    rewrite length_map in H. unfold is_u32. split; [lia |].
    eapply Z.lt_le_trans; [apply H | apply Z.pow_le_mono_r; lia]. }
  unfold is_u32 in *.
  apply crc_bits_inj in E'; [| apply lxor_range; auto; lia | apply lxor_range; try lia; apply Hr; lia].
  apply lxor_cancel_l in E'.
  apply le_val_inj; auto using bytes_of_chars. now rewrite !length_map.
Qed.

Lemma crc32buf_detects_bursts_witness :
  crc32buf ([1; 2] ++ [3; 4; 5] ++ [6]) <> crc32buf ([1; 2] ++ [3; 5; 5] ++ [6]).
Proof.
  apply (crc32buf_detects_bursts [1; 2] [3; 4; 5] [3; 5; 5] [6]);
    [reflexivity | simpl; lia | vm_compute; discriminate].
Defined.

Lemma crc_getc_loop_spec s n c : 0 <= n -> n + Z.of_nat (length s) < 2 ^ 63 ->
  crc_getc_loop s n c =
  (n + Z.of_nat (length s), fold_left (fun crc ch => UPDC32 ch crc) s c).
Proof.
  revert n c; induction s as [|b t IH]; intros n c Hn Hl.
  { simpl. f_equal; lia. }
  cbn [crc_getc_loop fold_left]. cbn [length] in *.
  rewrite i64_id by (unfold is_i64; lia). rewrite IH by lia. f_equal; lia.
Qed.

(** [crc32file] on a readable file stores the checksum [crc32buf] gives for
    its bytes and counts them, or reports -1 as the count when the stream had a
    read error. *)
Theorem crc32file_reads fs name crc0 s err :
  fs name = Some (s, err) -> Z.of_nat (length s) < 2 ^ 63 ->
  crc32file fs name crc0 =
  (Success_, crc32buf s, if err : bool then -1 else Z.of_nat (length s)).
Proof.
  intros Hf Hl. unfold crc32file. rewrite Hf, crc_getc_loop_spec by lia. reflexivity.
Qed.

Lemma crc32file_reads_witness :
  crc32file (fun _ => Some ([97; 98; 99], false)) [] 7 = (Success_, 0xFFFFFFFF352441c2, 3).
Proof.
  rewrite (crc32file_reads (fun _ => Some ([97; 98; 99], false)) [] 7 [97; 98; 99] false);
    [reflexivity | reflexivity | simpl; lia].
Defined.

Lemma crc_main_loop_errors fs argv errors crc :
  (errors = 0 \/ errors = -1) ->
  snd (crc_main_loop fs argv errors crc) =
  if existsb (fun n => match fs n with None => true | Some _ => false end) argv
  then -1 else errors.
Proof.
  revert errors crc; induction argv as [|n t IH]; intros errors crc He; [reflexivity |].
  cbn [crc_main_loop existsb]. unfold crc32file at 1.
  destruct (fs n) as [[s err]|] eqn:Ef.
  - destruct (crc_getc_loop s 0 0xFFFFFFFF) as [cnt c].
    specialize (IH (errors .| Boolean_T_int Success_) (not_u64 c)).
    destruct (crc_main_loop fs t _ _) as [out e]. simpl snd in *. simpl orb.
    rewrite IH; cbn [Boolean_T_int]; rewrite Z.lor_0_r; auto.
  - specialize (IH (errors .| Boolean_T_int Error_) crc).
    destruct (crc_main_loop fs t _ _) as [out e]. simpl snd in *. simpl orb.
    rewrite IH; cbn [Boolean_T_int]; rewrite Z.lor_m1_r; auto.
    now destruct (existsb _ t).
Qed.

(** The exit status of the program is 1 exactly when some argument names a
    file that cannot be opened, and one line is printed per argument. *)
Theorem crc_main_status fs argv crc0 :
  snd (crc_main fs argv crc0) =
    b2z (existsb (fun n => match fs n with None => true | Some _ => false end) argv) /\
  map snd (fst (crc_main fs argv crc0)) = argv.
Proof.
  unfold crc_main. pose proof (crc_main_loop_errors fs argv 0 crc0 (or_introl eq_refl)) as H.
  split.
  - destruct (crc_main_loop fs argv 0 crc0) as [out e]. simpl in *. subst e.
    now destruct (existsb _ argv).
  - clear H. generalize 0 as errors. revert crc0; induction argv as [|n t IH]; intros crc0 errors; auto.
    cbn [crc_main_loop]. destruct (crc32file fs n crc0) as [[r c] cnt].
    specialize (IH c (errors .| Boolean_T_int r)).
    destruct (crc_main_loop fs t _ _) as [out e]. simpl in *. now rewrite IH.
Qed.
