(* ===== verification/Adpcm.v ===== *)
(** * The ADPCM workload (src/mibench/telecomm/adpcm/src/adpcm.c)

    The Intel/DVI coder and decoder: four bits per 16-bit sample, predicted
    from the previous reconstruction with an adaptive step.  The coder carries
    a copy of the decoder in its loop; the theorems say that the copy is exact,
    that the table indices stay inside the tables, and how far a reconstructed
    sample can be from the original. *)

From Stdlib Require Import ZArith Lia List Bool.
Import ListNotations.
From S2P Require Import Prelude.

(** ** Tables and state *)

Definition indexTable : list Z :=
  [ -1; -1; -1; -1; 2; 4; 6; 8;
    -1; -1; -1; -1; 2; 4; 6; 8 ].

Definition stepsizeTable : list Z :=
  [ 7; 8; 9; 10; 11; 12; 13; 14; 16; 17;
    19; 21; 23; 25; 28; 31; 34; 37; 41; 45;
    50; 55; 60; 66; 73; 80; 88; 97; 107; 118;
    130; 143; 157; 173; 190; 209; 230; 253; 279; 307;
    337; 371; 408; 449; 494; 544; 598; 658; 724; 796;
    876; 963; 1060; 1166; 1282; 1411; 1552; 1707; 1878; 2066;
    2272; 2499; 2749; 3024; 3327; 3660; 4026; 4428; 4871; 5358;
    5894; 6484; 7132; 7845; 8630; 9493; 10442; 11487; 12635; 13899;
    15289; 16818; 18500; 20350; 22385; 24623; 27086; 29794; 32767 ].

(** [struct adpcm_state] of adpcm.h *)
Record adpcm_state := mk_state { valprev : Z; index : Z }.

(** ** The coder *)

(** The loop variables of [adpcm_coder]; [outp] holds the bytes written. *)
Record coder_vars := mk_coder_vars {
  c_valpred : Z; c_index : Z; c_step : Z;
  c_outputbuffer : Z; c_bufferstep : bool; c_outp : list Z
}.

(** Steps 1 to 5 for the sample [val]: the code emitted, and the new
    prediction, index and step. *)
Definition coder_quantise (valpred index step val : Z) : Z * Z * Z * Z :=
  (* Step 1 *)
  let diff := val - valpred in
  let sign := if diff <? 0 then 8 else 0 in
  let diff := if negb (sign =? 0) then - diff else diff in
  (* Step 2 *)
  let delta := 0 in
  let vpdiff := step >> 3 in
  let '(delta, diff, vpdiff) :=
    if step <=? diff then (4, diff - step, vpdiff + step) else (delta, diff, vpdiff) in
  let step := step >> 1 in
  let '(delta, diff, vpdiff) :=
    if step <=? diff then (delta .| 2, diff - step, vpdiff + step) else (delta, diff, vpdiff) in
  let step := step >> 1 in
  let '(delta, vpdiff) :=
    if step <=? diff then (delta .| 1, vpdiff + step) else (delta, vpdiff) in
  (* Step 3 *)
  let valpred := if negb (sign =? 0) then valpred - vpdiff else valpred + vpdiff in
  (* Step 4 *)
  let valpred := if 32767 <? valpred then 32767
                 else if valpred <? -32768 then -32768 else valpred in
  (* Step 5 *)
  let delta := delta .| sign in
  let index := index + indexTable.[delta] in
  let index := if index <? 0 then 0 else index in
  let index := if 88 <? index then 88 else index in
  (delta, valpred, index, stepsizeTable.[index]).

(** The body of the coder's loop; step 6 packs two codes per byte. *)
Definition coder_iter (v : coder_vars) (val : Z) : coder_vars :=
  let '(delta, valpred, index, step) :=
    coder_quantise (c_valpred v) (c_index v) (c_step v) val in
  let '(outputbuffer, outp) :=
    if c_bufferstep v then ((delta << 4) .& 0xf0, c_outp v)
    else (c_outputbuffer v, c_outp v ++ [i8 ((delta .& 0x0f) .| c_outputbuffer v)]) in
  mk_coder_vars valpred index step outputbuffer (negb (c_bufferstep v)) outp.

(** [adpcm_coder(indata, outdata, len, state)] with [len] the length of
    [indata]: the bytes written and the new state. *)
Definition adpcm_coder (indata : list Z) (state : adpcm_state) : list Z * adpcm_state :=
  let v := fold_left coder_iter indata
             (mk_coder_vars (valprev state) (index state) stepsizeTable.[index state] 0 true []) in
  let outp := if negb (c_bufferstep v) then c_outp v ++ [i8 (c_outputbuffer v)] else c_outp v in
  (outp, mk_state (i16 (c_valpred v)) (i8 (c_index v))).

(** ** The decoder *)

Record decoder_vars := mk_decoder_vars {
  d_valpred : Z; d_index : Z; d_step : Z;
  d_inputbuffer : Z; d_bufferstep : bool; d_inp : list Z; d_outp : list Z
}.

(** Steps 2 to 6 for the code [delta]: the new prediction, index and step. *)
Definition decoder_expand (valpred index step delta : Z) : Z * Z * Z :=
  (* Step 2 *)
  let index := index + indexTable.[delta] in
  let index := if index <? 0 then 0 else index in
  let index := if 88 <? index then 88 else index in
  (* Step 3 *)
  let sign := delta .& 8 in
  let delta := delta .& 7 in
  (* Step 4 *)
  let vpdiff := step >> 3 in
  let vpdiff := if negb ((delta .& 4) =? 0) then vpdiff + step else vpdiff in
  let vpdiff := if negb ((delta .& 2) =? 0) then vpdiff + (step >> 1) else vpdiff in
  let vpdiff := if negb ((delta .& 1) =? 0) then vpdiff + (step >> 2) else vpdiff in
  let valpred := if negb (sign =? 0) then valpred - vpdiff else valpred + vpdiff in
  (* Step 5 *)
  let valpred := if 32767 <? valpred then 32767
                 else if valpred <? -32768 then -32768 else valpred in
  (* Step 6 *)
  (valpred, index, stepsizeTable.[index]).

(** The body of the decoder's loop; step 1 unpacks two codes per byte. *)
Definition decoder_iter (v : decoder_vars) : decoder_vars :=
  let '(delta, inputbuffer, inp) :=
    if d_bufferstep v then (d_inputbuffer v .& 0xf, d_inputbuffer v, d_inp v)
    else let b := (d_inp v).[0] in ((b >> 4) .& 0xf, b, tl (d_inp v)) in
  let '(valpred, index, step) := decoder_expand (d_valpred v) (d_index v) (d_step v) delta in
  mk_decoder_vars valpred index step inputbuffer (negb (d_bufferstep v)) inp
    (d_outp v ++ [i16 valpred]).

Fixpoint decoder_loop (len : nat) (v : decoder_vars) : decoder_vars :=
  match len with
  | O => v
  | S k => decoder_loop k (decoder_iter v)
  end.

Definition adpcm_decoder (indata : list Z) (len : nat) (state : adpcm_state)
  : list Z * adpcm_state :=
  let v := decoder_loop len
             (mk_decoder_vars (valprev state) (index state) stepsizeTable.[index state]
                0 false indata []) in
  (d_outp v, mk_state (i16 (d_valpred v)) (i8 (d_index v))).

(** ** Invariant *)

Record vars_ok (valpred index step : Z) : Prop := {
  ok_valpred : is_i16 valpred;
  ok_index : 0 <= index <= 88;
  ok_step : step = stepsizeTable.[index]
}.

Definition state_ok (s : adpcm_state) : Prop :=
  is_i16 (valprev s) /\ 0 <= index s <= 88.

Lemma stepsizeTable_range i : 0 <= i <= 88 -> 7 <= stepsizeTable.[i] <= 32767.
Proof.
  intros Hi.
  pose proof (all_range_spec 0 89 (fun i => (7 <=? stepsizeTable.[i]) && (stepsizeTable.[i] <=? 32767))
    ltac:(vm_compute; reflexivity) i ltac:(lia)) as H.
  apply andb_true_iff in H as [H1 H2]. apply Z.leb_le in H1, H2. lia.
Qed.

Definition clamp16 (x : Z) : Z :=
  if 32767 <? x then 32767 else if x <? -32768 then -32768 else x.

Lemma clamp16_range x : is_i16 (clamp16 x).
Proof. unfold clamp16, is_i16; zcases; lia. Qed.

Lemma clamp_index_range x :
  0 <= (let x := if x <? 0 then 0 else x in if 88 <? x then 88 else x) <= 88.
Proof. cbv zeta. zcases; lia. Qed.

(** The decoder's step, by the fields of the code: [q] is the magnitude. *)
Definition vpdiff_of (step q : Z) : Z :=
  (step >> 3) + (if Z.testbit q 2 then step else 0) +
  (if Z.testbit q 1 then step >> 1 else 0) + (if Z.testbit q 0 then step >> 2 else 0).

Lemma all_codes (P : Z -> Prop) :
  P 0 -> P 1 -> P 2 -> P 3 -> P 4 -> P 5 -> P 6 -> P 7 ->
  forall q, 0 <= q < 8 -> P q.
Proof.
  intros ? ? ? ? ? ? ? ? q Hq.
  assert (q = 0 \/ q = 1 \/ q = 2 \/ q = 3 \/ q = 4 \/ q = 5 \/ q = 6 \/ q = 7) as
    [->|[->|[->|[->|[->|[->|[->| ->]]]]]]] by lia; assumption.
Qed.

Lemma decoder_expand_fields valpred idx step q s : 0 <= q < 8 -> s = 0 \/ s = 8 ->
  decoder_expand valpred idx step (q .| s) =
  let i := idx + indexTable.[q] in
  let i := if i <? 0 then 0 else i in
  let i := if 88 <? i then 88 else i in
  (clamp16 (if s =? 0 then valpred + vpdiff_of step q else valpred - vpdiff_of step q),
   i, stepsizeTable.[i]).
Proof.
  intros Hq Hs.
  revert q Hq; destruct Hs as [-> | ->]; apply all_codes;
    unfold decoder_expand, vpdiff_of, clamp16; cbn [Z.lor Pos.lor Z.land Pos.land Z.eqb negb
      Z.testbit Pos.testbit Pos.pred_N N.testbit Z.odd Pos.eqb Z.of_N];
    rewrite ?Z.add_0_r; reflexivity.
Qed.

(** The coder's search for the magnitude, as a function of the difference. *)
Definition magnitude (step diff : Z) : Z :=
  let b2 := step <=? diff in
  let d1 := if b2 then diff - step else diff in
  let b1 := step >> 1 <=? d1 in
  let d0 := if b1 then d1 - (step >> 1) else d1 in
  let b0 := (step >> 1) >> 1 <=? d0 in
  4 * b2z b2 + 2 * b2z b1 + b2z b0.

Lemma vpdiff_of_bits step (b2 b1 b0 : bool) :
  vpdiff_of step (4 * b2z b2 + 2 * b2z b1 + b2z b0) =
  (step >> 3) + (if b2 then step else 0) + (if b1 then step >> 1 else 0) +
  (if b0 then step >> 2 else 0).
Proof. now destruct b2, b1, b0. Qed.

Lemma magnitude_range step diff : 0 <= magnitude step diff < 8.
Proof.
  unfold magnitude, b2z.
  destruct (step <=? diff), (step >> 1 <=? _), ((step >> 1) >> 1 <=? _); lia.
Qed.

Lemma coder_quantise_fields valpred idx step val :
  let s := if val - valpred <? 0 then 8 else 0 in
  let q := magnitude step (Z.abs (val - valpred)) in
  coder_quantise valpred idx step val =
  let i := idx + indexTable.[q] in
  let i := if i <? 0 then 0 else i in
  let i := if 88 <? i then 88 else i in
  (q .| s,
   clamp16 (if s =? 0 then valpred + vpdiff_of step q else valpred - vpdiff_of step q),
   i, stepsizeTable.[i]).
Proof.
  cbv zeta. unfold coder_quantise, magnitude.
  assert (Hd : (if negb ((if val - valpred <? 0 then 8 else 0) =? 0)
                then - (val - valpred) else val - valpred) = Z.abs (val - valpred)).
  { destruct (Z.ltb_spec (val - valpred) 0); simpl; lia. }
  rewrite Hd. set (d := Z.abs (val - valpred)).
  assert (Hq : (step >> 1) >> 1 = step >> 2) by (now rewrite Z.shiftr_shiftr by lia).
  destruct (val - valpred <? 0), (step <=? d);
    destruct (step >> 1 <=? _); destruct ((step >> 1) >> 1 <=? _);
    unfold clamp16, vpdiff_of; cbn [b2z Z.mul Z.add Z.lor Pos.lor Z.eqb negb Z.testbit
      Pos.testbit Pos.pred_N N.testbit Z.odd Pos.eqb Pos.mul Pos.add Pos.succ];
    rewrite ?Hq, ?Z.add_0_r; reflexivity.
Qed.

(** The heart of the codec: expanding the code the coder emits is what the
    coder itself did to its prediction. *)
Lemma expand_quantise valpred idx step val delta p i st :
  coder_quantise valpred idx step val = (delta, p, i, st) ->
  decoder_expand valpred idx step delta = (p, i, st) /\ 0 <= delta < 16.
Proof.
  rewrite coder_quantise_fields. cbv zeta. intros E; injection E as <- <- <- <-.
  set (q := magnitude step (Z.abs (val - valpred))).
  assert (Hq : 0 <= q < 8) by apply magnitude_range.
  split.
  - rewrite decoder_expand_fields by (auto; destruct (val - valpred <? 0); auto).
    reflexivity.
  - revert Hq; generalize q. destruct (val - valpred <? 0); apply all_codes; cbn; lia.
Qed.

Lemma quantise_ok valpred idx step val delta p i st :
  coder_quantise valpred idx step val = (delta, p, i, st) -> vars_ok p i st.
Proof.
  rewrite coder_quantise_fields. cbv zeta. intros E; injection E as <- <- <- <-.
  constructor; [apply clamp16_range | apply clamp_index_range | reflexivity].
Qed.

(** ** Packing *)

(** High nibble first; a last odd code leaves the low nibble zero. *)
Fixpoint pack (ds : list Z) : list Z :=
  match ds with
  | [] => []
  | [d] => [i8 ((d << 4) .& 0xf0)]
  | d :: e :: t => i8 ((e .& 0x0f) .| ((d << 4) .& 0xf0)) :: pack t
  end.

Lemma nibbles d e : 0 <= d < 16 -> 0 <= e < 16 ->
  let b := i8 ((e .& 0x0f) .| ((d << 4) .& 0xf0)) in
  (b >> 4) .& 0xf = d /\ b .& 0xf = e /\ (i8 ((d << 4) .& 0xf0) >> 4) .& 0xf = d.
Proof.
  intros Hd He.
  pose proof (all_range_spec 0 16 (fun d => all_range 0 16 (fun e =>
    let b := i8 ((e .& 0x0f) .| ((d << 4) .& 0xf0)) in
    (((b >> 4) .& 0xf) =? d) && ((b .& 0xf) =? e) && (((i8 ((d << 4) .& 0xf0) >> 4) .& 0xf) =? d)))
    ltac:(vm_compute; reflexivity) d ltac:(lia)) as H.
  pose proof (all_range_spec _ _ _ H e ltac:(lia)) as H'. cbv zeta in *.
  apply andb_true_iff in H' as [H' H3]. apply andb_true_iff in H' as [H1 H2].
  apply Z.eqb_eq in H1, H2, H3. auto.
Qed.

(** The coder and the decoder as functions of a code sequence. *)
Fixpoint quantise_all (valpred idx step : Z) (vals : list Z) : list Z * list Z * (Z * Z) :=
  match vals with
  | [] => ([], [], (valpred, idx))
  | v :: t =>
      let '(delta, p, i, st) := coder_quantise valpred idx step v in
      let '(ds, ps, fin) := quantise_all p i st t in
      (delta :: ds, p :: ps, fin)
  end.

Fixpoint expand_all (valpred idx step : Z) (ds : list Z) : list Z * (Z * Z) :=
  match ds with
  | [] => ([], (valpred, idx))
  | d :: t =>
      let '(p, i, st) := decoder_expand valpred idx step d in
      let '(ps, fin) := expand_all p i st t in (p :: ps, fin)
  end.

Lemma expand_all_quantise_all vals : forall valpred idx step ds ps fin,
  quantise_all valpred idx step vals = (ds, ps, fin) ->
  expand_all valpred idx step ds = (ps, fin) /\ Forall (fun d => 0 <= d < 16) ds /\
  length ds = length vals /\ Forall is_i16 ps.
Proof.
  induction vals as [|v t IH]; intros valpred idx step ds ps fin E; cbn [quantise_all] in E.
  { injection E as <- <- <-. simpl; auto. }
  destruct (coder_quantise valpred idx step v) as [[[delta p] i] st] eqn:Eq.
  destruct (quantise_all p i st t) as [[ds' ps'] fin'] eqn:Ea.
  injection E as <- <- <-.
  destruct (expand_quantise _ _ _ _ _ _ _ _ Eq) as [He Hd].
  destruct (quantise_ok _ _ _ _ _ _ _ _ Eq) as [Hp _ _].
  destruct (IH _ _ _ _ _ _ Ea) as (H1 & H2 & H3 & H4).
  cbn [expand_all length]. rewrite He, H1. repeat split; auto.
Qed.

(** The predictions the coder keeps while it runs. *)
Fixpoint coder_trace (v : coder_vars) (vals : list Z) : list Z :=
  match vals with
  | [] => []
  | x :: t => let v' := coder_iter v x in c_valpred v' :: coder_trace v' t
  end.

(** What the coder's variables hold when the loop ends. *)
Definition coder_flush (v : coder_vars) : list Z :=
  if negb (c_bufferstep v) then c_outp v ++ [i8 (c_outputbuffer v)] else c_outp v.

Lemma coder_iter_eq p i st ob (b : bool) out x :
  coder_iter (mk_coder_vars p i st ob b out) x =
  let '(d, p', i', st') := coder_quantise p i st x in
  if b then mk_coder_vars p' i' st' ((d << 4) .& 0xf0) false out
  else mk_coder_vars p' i' st' ob true (out ++ [i8 ((d .& 0x0f) .| ob)]).
Proof.
  unfold coder_iter; cbn [c_valpred c_index c_step c_bufferstep c_outp c_outputbuffer].
  destruct (coder_quantise p i st x) as [[[d p'] i'] st']. now destruct b.
Qed.

Lemma decoder_iter_eq p i st ib (b : bool) inp out :
  decoder_iter (mk_decoder_vars p i st ib b inp out) =
  let '(p', i', st') :=
    decoder_expand p i st (if b then ib .& 0xf else (inp.[0] >> 4) .& 0xf) in
  if b then mk_decoder_vars p' i' st' ib false inp (out ++ [i16 p'])
  else mk_decoder_vars p' i' st' inp.[0] true (tl inp) (out ++ [i16 p']).
Proof.
  unfold decoder_iter; cbn [d_valpred d_index d_step d_bufferstep d_inp d_outp d_inputbuffer].
  destruct b; destruct (decoder_expand _ _ _ _) as [[p' i'] st']; reflexivity.
Qed.

Lemma coder_loop_packs vals : forall p i st ob out,
  let '(ds, ps, fin) := quantise_all p i st vals in
  let v := fold_left coder_iter vals (mk_coder_vars p i st ob true out) in
  coder_flush v = out ++ pack ds /\ (c_valpred v, c_index v) = fin.
Proof.
  induction vals as [|x|x y t IH] using list_pair_ind; intros p i st ob out.
  - cbn. now rewrite app_nil_r.
  - cbn [quantise_all fold_left]. rewrite coder_iter_eq.
    destruct (coder_quantise p i st x) as [[[d1 p1] i1] s1]. now unfold coder_flush.
  - cbn [quantise_all fold_left]. rewrite coder_iter_eq.
    destruct (coder_quantise p i st x) as [[[d1 p1] i1] s1]. rewrite coder_iter_eq.
    destruct (coder_quantise p1 i1 s1 y) as [[[d2 p2] i2] s2].
    specialize (IH p2 i2 s2 ((d1 << 4) .& 0xf0)
                  (out ++ [i8 ((d2 .& 0x0f) .| ((d1 << 4) .& 0xf0))])).
    destruct (quantise_all p2 i2 s2 t) as [[ds ps] fin].
    destruct IH as [H1 H2]. split; [| exact H2].
    rewrite H1, <- app_assoc. reflexivity.
Qed.

Lemma coder_trace_predictions vals : forall p i st ob b out,
  coder_trace (mk_coder_vars p i st ob b out) vals = snd (fst (quantise_all p i st vals)).
Proof.
  induction vals as [|x t IH]; intros; [reflexivity |].
  cbn [coder_trace quantise_all]. rewrite coder_iter_eq.
  destruct (coder_quantise p i st x) as [[[d1 p1] i1] s1].
  destruct b; cbn [c_valpred];
    rewrite IH; destruct (quantise_all p1 i1 s1 t) as [[? ?] ?]; reflexivity.
Qed.

Lemma decoder_loop_unpacks ds : forall p i st ib out, Forall (fun d => 0 <= d < 16) ds ->
  let '(ps, fin) := expand_all p i st ds in
  let v := decoder_loop (length ds) (mk_decoder_vars p i st ib false (pack ds) out) in
  d_outp v = out ++ map i16 ps /\ (d_valpred v, d_index v) = fin.
Proof.
  induction ds as [|x|x y t IH] using list_pair_ind; intros p i st ib out Hd.
  - cbn. now rewrite app_nil_r.
  - inversion_clear Hd as [|? ? Hx _].
    destruct (nibbles x 0 Hx ltac:(lia)) as (_ & _ & E).
    cbn [expand_all length decoder_loop pack]. rewrite decoder_iter_eq.
    change ([?b].[0]) with b. rewrite E.
    destruct (decoder_expand p i st x) as [[p1 i1] s1]. now cbn.
  - inversion_clear Hd as [|? ? Hx Hd']; inversion_clear Hd' as [|? ? Hy Ht].
    destruct (nibbles x y Hx Hy) as (E1 & E2 & _).
    cbn [expand_all length decoder_loop pack]. rewrite decoder_iter_eq.
    change ((?b :: ?l).[0]) with b. rewrite E1. cbn [tl].
    destruct (decoder_expand p i st x) as [[p1 i1] s1].
    rewrite decoder_iter_eq, E2.
    destruct (decoder_expand p1 i1 s1 y) as [[p2 i2] s2].
    specialize (IH p2 i2 s2 (i8 ((y .& 0x0f) .| ((x << 4) .& 0xf0)))
                  ((out ++ [i16 p1]) ++ [i16 p2]) Ht).
    destruct (expand_all p2 i2 s2 t) as [ps fin]. destruct IH as [H1 H2].
    split; [| exact H2]. rewrite H1, <- !app_assoc. reflexivity.
Qed.

(** ** Theorems *)

(** The decoder tracks the coder exactly: decoding the bytes [adpcm_coder]
    wrote, from the same initial state, gives back sample by sample the
    predictions the coder had, and leaves the decoder in the coder's final
    state, for any number of samples, odd or even. *)
Theorem decoder_tracks_coder vals s :
  let '(out, s') := adpcm_coder vals s in
  adpcm_decoder out (length vals) s =
  (coder_trace (mk_coder_vars (valprev s) (index s) stepsizeTable.[index s] 0 true []) vals, s').
Proof.
  unfold adpcm_coder. fold (coder_flush (fold_left coder_iter vals
    (mk_coder_vars (valprev s) (index s) stepsizeTable.[index s] 0 true []))).
  rewrite coder_trace_predictions.
  pose proof (coder_loop_packs vals (valprev s) (index s) stepsizeTable.[index s] 0 []) as Hc.
  destruct (quantise_all (valprev s) (index s) stepsizeTable.[index s] vals) as [[ds ps] fin] eqn:Eq.
  destruct (expand_all_quantise_all _ _ _ _ _ _ _ Eq) as (He & Hd & Hl & Hp).
  cbv zeta in Hc. destruct Hc as [Hc1 Hc2]. rewrite Hc1. cbn [app fst snd].
  unfold adpcm_decoder. rewrite <- Hl.
  pose proof (decoder_loop_unpacks ds (valprev s) (index s) stepsizeTable.[index s] 0 [] Hd) as Hx.
  rewrite He in Hx. cbv zeta in Hx. destruct Hx as [Hx1 Hx2]. rewrite Hx1. cbn [app].
  assert (Hm : map i16 ps = ps).
  { rewrite <- (map_id ps) at 2. apply map_ext_in. intros a Ha. apply i16_id.
    rewrite Forall_forall in Hp; auto. }
  rewrite Hm, <- Hx2 in *. injection Hc2 as <- <-. reflexivity.
Qed.

Lemma i8_index i : 0 <= i <= 88 -> i8 i = i.
Proof. intros; apply sext_id; lia. Qed.

Lemma quantise_all_ok vals : forall p i st, is_i16 p -> 0 <= i <= 88 ->
  let '(_, _, (p', i')) := quantise_all p i st vals in is_i16 p' /\ 0 <= i' <= 88.
Proof.
  induction vals as [|x t IH]; intros p i st Hp Hi; [simpl; auto |].
  cbn [quantise_all]. destruct (coder_quantise p i st x) as [[[d1 p1] i1] s1] eqn:E.
  destruct (quantise_ok _ _ _ _ _ _ _ _ E) as [H1 H2 _].
  specialize (IH p1 i1 s1 H1 H2).
  destruct (quantise_all p1 i1 s1 t) as [[? ?] [? ?]]. exact IH.
Qed.

(** The coder preserves its state invariant: the prediction stays a 16-bit
    sample and the index stays inside the 89 entries of the step table, so the
    conversions to [short] and [char] on return lose nothing. *)
Theorem adpcm_coder_state vals s : state_ok s ->
  state_ok (snd (adpcm_coder vals s)) /\
  length (fst (adpcm_coder vals s)) = Nat.div2 (length vals + 1).
Proof.
  intros [Hv Hi]. unfold adpcm_coder. cbn [fst snd].
  pose proof (coder_loop_packs vals (valprev s) (index s) stepsizeTable.[index s] 0 []) as Hc.
  pose proof (quantise_all_ok vals (valprev s) (index s) stepsizeTable.[index s] Hv Hi) as Ho.
  destruct (quantise_all (valprev s) (index s) stepsizeTable.[index s] vals) as [[ds ps] [p' i']] eqn:Eq.
  destruct (expand_all_quantise_all _ _ _ _ _ _ _ Eq) as (_ & _ & Hl & _).
  cbv zeta in Hc. destruct Hc as [Hc1 Hc2]. injection Hc2 as -> ->.
  destruct Ho as [Hp' Hi'].
  unfold coder_flush in Hc1. rewrite Hc1, <- Hl. split.
  - split; cbn [valprev index]; [rewrite i16_id; auto | rewrite i8_index; lia].
  - clear. induction ds as [|x|x y t IH] using list_pair_ind; simpl; auto.
Qed.

Lemma adpcm_coder_state_witness :
  state_ok (snd (adpcm_coder [1000; -2000; 30000] (mk_state 0 0))) /\
  length (fst (adpcm_coder [1000; -2000; 30000] (mk_state 0 0))) = 2%nat.
Proof.
  apply (adpcm_coder_state [1000; -2000; 30000] (mk_state 0 0)).
  unfold state_ok, is_i16; simpl; lia.
Defined.

(** Bounded reconstruction error: one coding step leaves the prediction within
    an eighth of the step size (plus rounding) of the sample, unless the step
    was too small for the jump, and then the remaining error is smaller than
    before by at least the whole step. *)
Theorem quantise_error valpred idx val :
  is_i16 valpred -> 0 <= idx <= 88 -> is_i16 val ->
  let step := stepsizeTable.[idx] in
  let '(_, valpred', _, _) := coder_quantise valpred idx step val in
  Z.abs (val - valpred') <= Z.max ((step >> 3) + 2) (Z.abs (val - valpred) - step).
Proof.
  intros Hp Hi Hv step. pose proof (stepsizeTable_range idx Hi) as Hs. fold step in Hs.
  rewrite coder_quantise_fields. cbv zeta.
  assert (Hc : forall x, Z.abs (val - clamp16 x) <= Z.abs (val - x)).
  { intros x. unfold clamp16, is_i16 in *. zcases; lia. }
  eapply Z.le_trans; [apply Hc |]. clear Hc.
  assert (Hvp : Z.abs (Z.abs (val - valpred) - vpdiff_of step (magnitude step (Z.abs (val - valpred))))
                <= Z.max ((step >> 3) + 2) (Z.abs (val - valpred) - step)).
  { set (d := Z.abs (val - valpred)). assert (0 <= d) by (unfold d; lia).
    clearbody step d.
    assert (Hq : (step >> 1) >> 1 = step >> 2) by (now rewrite Z.shiftr_shiftr by lia).
    unfold magnitude. rewrite vpdiff_of_bits, Hq, !shiftr_div by lia.
    change (2 ^ 3) with 8; change (2 ^ 2) with 4; change (2 ^ 1) with 2.
    zcases; zlia. }
  destruct (Z.ltb_spec (val - valpred) 0); cbn [Z.eqb]; lia.
Qed.

Lemma quantise_error_witness :
  let '(_, valpred', _, _) := coder_quantise 0 40 stepsizeTable.[40] 900 in
  Z.abs (900 - valpred') <= Z.max ((stepsizeTable.[40] >> 3) + 2) (Z.abs (900 - 0) - stepsizeTable.[40]).
Proof. apply (quantise_error 0 40 900); unfold is_i16; lia. Defined.
