(* ===== verification/AdpcmDriver.v ===== *)
(** * The ADPCM programs
    (src/mibench/telecomm/adpcm: src/rawcaudio.c, src/rawdaudio.c)

    The two filters around the coder and the decoder, with the standard input as
    the sequence of the results of [read]: a piece of the input, however the
    system cuts it (no longer than the buffer), or an error.  The theorem is that
    the pieces do not matter, and that the decoding filter reproduces what the
    coding filter predicted. *)

From Stdlib Require Import ZArith Lia List Bool.
From S2P Require Import Prelude Adpcm.
Import ListNotations.

(** The result of [read]: [None] is -1. *)
Definition read_result : Type := option (list Z).

(** [main] of [rawcaudio.c]: the exit status, the bytes written and [state].
    Of a piece of [n] bytes it codes [n/2] samples and writes [n/4] bytes. *)
Fixpoint rawcaudio (reads : list read_result) (state : adpcm_state) : Z * list Z * adpcm_state :=
  match reads with
  | [] => (0, [], state)
  | None :: _ => (1, [], state)
  | Some sbuf :: reads' =>
      let n := Z.of_nat (length sbuf) in
      if n =? 0 then (0, [], state)
      else
        let '(abuf, state) := adpcm_coder (firstn (Z.to_nat (n / 2)) (shorts sbuf)) state in
        let '(status, out, state) := rawcaudio reads' state in
        (status, map u8 (firstn (Z.to_nat (n / 4)) abuf) ++ out, state)
  end.

(** [main] of [rawdaudio.c]: of a piece of [n] bytes it decodes [2n] samples and
    writes [4n] bytes. *)
Fixpoint rawdaudio (reads : list read_result) (state : adpcm_state) : Z * list Z * adpcm_state :=
  match reads with
  | [] => (0, [], state)
  | None :: _ => (1, [], state)
  | Some abuf :: reads' =>
      let n := Z.of_nat (length abuf) in
      if n =? 0 then (0, [], state)
      else
        let '(sbuf, state) := adpcm_decoder (map i8 abuf) (Z.to_nat (n * 2)) state in
        let '(status, out, state) := rawdaudio reads' state in
        (status, firstn (Z.to_nat (n * 4)) (flat_map short_bytes sbuf) ++ out, state)
  end.

(** ** The coder in pieces *)

Lemma coder_packs vals s : state_ok s ->
  let '(ds, ps, (p, i)) := quantise_all (valprev s) (index s) stepsizeTable.[index s] vals in
  adpcm_coder vals s = (pack ds, mk_state p i).
Proof.
  intros [Hv Hi]. pose proof (coder_loop_packs vals (valprev s) (index s) stepsizeTable.[index s] 0 []) as Hc.
  pose proof (quantise_all_ok vals (valprev s) (index s) stepsizeTable.[index s] Hv Hi) as Hok.
  unfold adpcm_coder. destruct (quantise_all _ _ _ vals) as [[ds ps] [p i]]. cbv zeta in Hc. destruct Hc as [Hc1 Hc2].
  destruct Hok as [Hp Hi']. unfold coder_flush in Hc1. rewrite Hc1. injection Hc2 as -> ->.
  now rewrite i16_id, i8_index.
Qed.

Lemma quantise_all_app a b p i st : st = stepsizeTable.[i] ->
  let '(d1, p1, (p', i')) := quantise_all p i st a in
  let '(d2, p2, fin) := quantise_all p' i' stepsizeTable.[i'] b in
  quantise_all p i st (a ++ b) = (d1 ++ d2, p1 ++ p2, fin).
Proof.
  revert p i st; induction a as [|x a IH]; intros p i st ->; cbn [quantise_all app].
  - now destruct (quantise_all p i stepsizeTable.[i] b) as [[d2 p2] fin].
  - destruct (coder_quantise p i stepsizeTable.[i] x) as [[[d p1] i1] st1] eqn:E.
    apply quantise_ok in E as [_ _ Hst]. specialize (IH p1 i1 st1 Hst).
    destruct (quantise_all p1 i1 st1 a) as [[da pa] [p' i']].
    destruct (quantise_all p' i' stepsizeTable.[i'] b) as [[d2 p2] fin]. now rewrite IH.
Qed.

Lemma pack_app a b : Nat.Even (length a) -> pack (a ++ b) = pack a ++ pack b.
Proof.
  induction a as [|x|x y a IH] using list_pair_ind; intros H; [reflexivity | now apply Nat.even_spec in H |].
  cbn [app pack]. rewrite IH; [reflexivity |]. apply Nat.even_spec. now apply Nat.even_spec in H.
Qed.

Lemma quantise_all_length p i st vals : length (fst (fst (quantise_all p i st vals))) = length vals.
Proof.
  destruct (quantise_all p i st vals) as [[ds ps] fin] eqn:E.
  destruct (expand_all_quantise_all _ _ _ _ _ _ _ E) as (_ & _ & H & _). exact H.
Qed.

(** An even number of samples can be coded by a call of its own. *)
Lemma adpcm_coder_app a b s : state_ok s -> Nat.Even (length a) ->
  let '(out1, s1) := adpcm_coder a s in
  let '(out2, s2) := adpcm_coder b s1 in
  adpcm_coder (a ++ b) s = (out1 ++ out2, s2).
Proof.
  intros Hs Ha. pose proof (coder_packs a s Hs) as E1. pose proof (coder_packs (a ++ b) s Hs) as E2.
  pose proof (quantise_all_app a b (valprev s) (index s) _ eq_refl) as Happ.
  pose proof (quantise_all_length (valprev s) (index s) stepsizeTable.[index s] a) as Hl.
  pose proof (quantise_all_ok a (valprev s) (index s) stepsizeTable.[index s] (proj1 Hs) (proj2 Hs)) as Hok.
  destruct (quantise_all (valprev s) (index s) _ a) as [[d1 p1] [p' i']]. cbn [fst] in Hl. rewrite E1.
  pose proof (coder_packs b (mk_state p' i') Hok) as E3. cbn [valprev index] in E3.
  destruct (quantise_all p' i' _ b) as [[d2 p2] [p2' i2']]. rewrite Happ in E2. rewrite E2, E3.
  rewrite pack_app by now rewrite Hl. reflexivity.
Qed.

(** ** The decoder in pieces *)

(** The two codes of each byte. *)
Definition codes_of (bytes : list Z) : list Z := flat_map (fun b => [(b >> 4) .& 0xf; b .& 0xf]) bytes.

Lemma byte_codes_check : all_range 0 256 (fun b =>
  (i8 b =? i8 (((b .& 0xf) .& 0x0f) .| ((((b >> 4) .& 0xf) << 4) .& 0xf0)))) = true.
Proof. vm_compute. reflexivity. Qed.

Lemma pack_codes bytes : Forall is_u8 bytes -> pack (codes_of bytes) = map i8 bytes.
Proof.
  induction 1 as [|b bytes Hb _ IH]; [reflexivity |]. cbn [codes_of flat_map app pack map]. fold (codes_of bytes).
  rewrite IH. f_equal. symmetry. apply Z.eqb_eq. exact (all_range_spec _ _ _ byte_codes_check b Hb).
Qed.

Lemma codes_of_length bytes : length (codes_of bytes) = (2 * length bytes)%nat.
Proof. unfold codes_of. induction bytes as [|b bytes IH]; cbn [flat_map app length] in *; lia. Qed.

Lemma codes_of_range bytes : Forall (fun d => 0 <= d < 16) (codes_of bytes).
Proof.
  unfold codes_of. induction bytes as [|b bytes IH]; cbn [flat_map app]; [constructor |].
  change 15 with (2 ^ 4 - 1). rewrite !land_mask by lia.
  constructor; [apply Z.mod_pos_bound; lia |]. constructor; [apply Z.mod_pos_bound; lia | exact IH].
Qed.

Lemma expand_all_ok ds p i st : is_i16 p -> 0 <= i <= 88 -> Forall (fun d => 0 <= d < 16) ds ->
  let '(ps, (p', i')) := expand_all p i st ds in Forall is_i16 ps /\ is_i16 p' /\ 0 <= i' <= 88.
Proof.
  revert p i st; induction ds as [|d ds IH]; intros p i st Hp Hi Hd; cbn [expand_all]; [auto |].
  inversion Hd as [|? ? H1 H2]; subst.
  destruct (decoder_expand p i st d) as [[p1 i1] st1] eqn:E. unfold decoder_expand in E. injection E as E1 E2 E3.
  assert (Hp1 : is_i16 p1) by (rewrite <- E1; apply clamp16_range).
  assert (Hi1 : 0 <= i1 <= 88) by (rewrite <- E2; apply clamp_index_range).
  specialize (IH p1 i1 st1 Hp1 Hi1 H2). destruct (expand_all p1 i1 st1 ds) as [ps [p' i']].
  destruct IH as (H3 & H4 & H5). auto.
Qed.

(** Decoding any bytes is expanding their codes. *)
Lemma decoder_unpacks bytes s : state_ok s -> Forall is_u8 bytes ->
  let '(ps, (p, i)) := expand_all (valprev s) (index s) stepsizeTable.[index s] (codes_of bytes) in
  adpcm_decoder (map i8 bytes) (2 * length bytes) s = (ps, mk_state p i) /\ state_ok (mk_state p i).
Proof.
  intros [Hv Hi] Hb.
  pose proof (decoder_loop_unpacks (codes_of bytes) (valprev s) (index s) stepsizeTable.[index s] 0 [] (codes_of_range bytes)) as Hx.
  pose proof (expand_all_ok (codes_of bytes) (valprev s) (index s) stepsizeTable.[index s] Hv Hi (codes_of_range bytes)) as Hok.
  rewrite pack_codes, codes_of_length in Hx by assumption. unfold adpcm_decoder.
  remember (2 * length bytes)%nat as len.
  destruct (expand_all _ _ _ _) as [ps [p i]]. destruct Hok as (Hps & Hp & Hi'). cbv zeta in Hx. destruct Hx as [Hx1 Hx2].
  rewrite Hx1. injection Hx2 as -> ->. rewrite i16_id, i8_index by assumption. cbn [app].
  split; [| now split]. f_equal. rewrite <- (map_id ps) at 2. apply map_ext_in. intros a Ha. apply i16_id.
  rewrite Forall_forall in Hps. auto.
Qed.

Lemma expand_all_length ds p i st : length (fst (expand_all p i st ds)) = length ds.
Proof.
  revert p i st; induction ds as [|d ds IH]; intros p i st; cbn [expand_all]; [reflexivity |].
  destruct (decoder_expand p i st d) as [[p1 i1] st1]. specialize (IH p1 i1 st1).
  destruct (expand_all p1 i1 st1 ds) as [ps fin]. cbn in *. lia.
Qed.

Lemma decoder_length bytes s : state_ok s -> Forall is_u8 bytes ->
  length (fst (adpcm_decoder (map i8 bytes) (2 * length bytes) s)) = (2 * length bytes)%nat.
Proof.
  intros Hs Hb. pose proof (decoder_unpacks bytes s Hs Hb) as H.
  pose proof (expand_all_length (codes_of bytes) (valprev s) (index s) stepsizeTable.[index s]) as Hl.
  destruct (expand_all _ _ _ _) as [ps [p i]]. destruct H as [-> _]. cbn [fst] in *. now rewrite Hl, codes_of_length.
Qed.

Lemma expand_all_app a b p i st : st = stepsizeTable.[i] ->
  let '(p1, (p', i')) := expand_all p i st a in
  let '(p2, fin) := expand_all p' i' stepsizeTable.[i'] b in
  expand_all p i st (a ++ b) = (p1 ++ p2, fin).
Proof.
  revert p i st; induction a as [|x a IH]; intros p i st ->; cbn [expand_all app].
  - now destruct (expand_all p i stepsizeTable.[i] b) as [p2 fin].
  - destruct (decoder_expand p i stepsizeTable.[i] x) as [[p1 i1] st1] eqn:E.
    assert (Hst : st1 = stepsizeTable.[i1]) by (unfold decoder_expand in E; now injection E as _ <- <-).
    specialize (IH p1 i1 st1 Hst). destruct (expand_all p1 i1 st1 a) as [pa [p' i']].
    destruct (expand_all p' i' stepsizeTable.[i'] b) as [p2 fin]. now rewrite IH.
Qed.

Lemma adpcm_decoder_app a b s : state_ok s -> Forall is_u8 a -> Forall is_u8 b ->
  let '(out1, s1) := adpcm_decoder (map i8 a) (2 * length a) s in
  let '(out2, s2) := adpcm_decoder (map i8 b) (2 * length b) s1 in
  adpcm_decoder (map i8 (a ++ b)) (2 * length (a ++ b)) s = (out1 ++ out2, s2) /\ state_ok s1.
Proof.
  intros Hs Ha Hb. pose proof (decoder_unpacks a s Hs Ha) as E1.
  pose proof (decoder_unpacks (a ++ b) s Hs (proj2 (Forall_app _ _ _) (conj Ha Hb))) as E2.
  unfold codes_of in E2. rewrite flat_map_app in E2. fold (codes_of a) (codes_of b) in E2.
  pose proof (expand_all_app (codes_of a) (codes_of b) (valprev s) (index s) _ eq_refl) as Happ.
  destruct (expand_all (valprev s) (index s) _ (codes_of a)) as [p1 [p' i']]. destruct E1 as [E1 Hs1]. rewrite E1.
  pose proof (decoder_unpacks b (mk_state p' i') Hs1 Hb) as E3. cbn [valprev index] in E3.
  destruct (expand_all p' i' _ (codes_of b)) as [p2 [p2' i2']]. rewrite Happ in E2. destruct E2 as [E2 _], E3 as [E3 _].
  now rewrite E2, E3.
Qed.

(** ** The filters *)

Lemma shorts_length l : length (shorts l) = (length l / 2)%nat.
Proof.
  induction l as [|a|a b l IH] using list_pair_ind; [reflexivity | reflexivity |]. cbn [shorts length]. rewrite IH.
  replace (S (S (length l))) with (length l + 1 * 2)%nat by lia. rewrite Nat.div_add by lia. lia.
Qed.

Lemma shorts_app a b : Nat.Even (length a) -> shorts (a ++ b) = shorts a ++ shorts b.
Proof.
  induction a as [|x|x y a IH] using list_pair_ind; intros H; [reflexivity | now apply Nat.even_spec in H |].
  cbn [app shorts]. rewrite IH; [reflexivity |]. apply Nat.even_spec. now apply Nat.even_spec in H.
Qed.

Lemma rawcaudio_pieces pieces s : state_ok s ->
  Forall (fun p => p <> [] /\ (length p mod 4 = 0)%nat) pieces ->
  let '(out, s') := adpcm_coder (shorts (concat pieces)) s in
  rawcaudio (map Some pieces) s = (0, map u8 out, s').
Proof.
  intros Hs Hp. revert s Hs. induction Hp as [|p pieces [Hne H4] _ IH]; intros s Hs.
  - cbn. destruct Hs as [H1 H2]. unfold adpcm_coder. cbn. rewrite i16_id, i8_index by assumption. now destruct s.
  - cbn [concat map rawcaudio]. destruct (Z.eqb_spec (Z.of_nat (length p)) 0) as [E|_]; [destruct p; [easy | cbn in E; lia] |].
    assert (Hlen : length p = (4 * (length p / 4))%nat) by (pose proof (Nat.div_mod_eq (length p) 4); lia).
    assert (Hs2 : length (shorts p) = (2 * (length p / 4))%nat).
    { rewrite shorts_length. rewrite Hlen at 1. replace (4 * (length p / 4))%nat with (2 * (length p / 4) * 2)%nat by lia.
      now rewrite Nat.div_mul by lia. }
    rewrite shorts_app by (exists (2 * (length p / 4))%nat; lia).
    pose proof (adpcm_coder_app (shorts p) (shorts (concat pieces)) s Hs ltac:(exists (length p / 4)%nat; lia)) as Happ.
    pose proof (adpcm_coder_state (shorts p) s Hs) as [Hs1 Hl1].
    rewrite firstn_all2 by (rewrite Hs2; zlia).
    destruct (adpcm_coder (shorts p) s) as [out1 s1]. cbn [fst snd] in *. specialize (IH s1 Hs1).
    destruct (adpcm_coder (shorts (concat pieces)) s1) as [out2 s2]. rewrite IH, Happ. rewrite map_app.
    rewrite firstn_all2; [reflexivity |]. rewrite Hl1, Hs2. replace (2 * (length p / 4) + 1)%nat with (S (2 * (length p / 4))) by lia.
    rewrite Nat.div2_succ_double. zlia.
Qed.

Lemma rawdaudio_pieces pieces s : state_ok s -> Forall (fun p => p <> []) pieces -> Forall is_u8 (concat pieces) ->
  let '(out, s') := adpcm_decoder (map i8 (concat pieces)) (2 * length (concat pieces)) s in
  rawdaudio (map Some pieces) s = (0, flat_map short_bytes out, s').
Proof.
  intros Hs Hp. revert s Hs. induction Hp as [|p pieces Hne _ IH]; intros s Hs Hb.
  - cbn. destruct Hs as [H1 H2]. unfold adpcm_decoder. cbn. rewrite i16_id, i8_index by assumption. now destruct s.
  - cbn [concat map rawdaudio] in *. apply Forall_app in Hb as [Hb1 Hb2].
    destruct (Z.eqb_spec (Z.of_nat (length p)) 0) as [E|_]; [destruct p; [easy | cbn in E; lia] |].
    replace (Z.to_nat (Z.of_nat (length p) * 2)) with (2 * length p)%nat by lia.
    pose proof (adpcm_decoder_app p (concat pieces) s Hs Hb1 Hb2) as Happ.
    pose proof (decoder_length p s Hs Hb1) as Hl.
    destruct (adpcm_decoder (map i8 p) (2 * length p) s) as [out1 s1]. cbn [fst] in Hl.
    specialize (IH s1). destruct (adpcm_decoder (map i8 (concat pieces)) (2 * length (concat pieces)) s1) as [out2 s2].
    destruct Happ as [Happ Hs1]. rewrite (IH Hs1 Hb2), Happ, flat_map_app.
    rewrite firstn_all2; [reflexivity |]. rewrite short_bytes_length, Hl. lia.
Qed.

Lemma i8_u8 x : i8 (u8 x) = i8 x.
Proof. apply sext_zext. lia. Qed.

Lemma pack_i8 ds : map i8 (map u8 (pack ds)) = pack ds.
Proof.
  rewrite map_map. induction ds as [|x|x y ds IH] using list_pair_ind; cbn [pack map]; [reflexivity | |];
    rewrite i8_u8; unfold i8 at 1; rewrite sext_id by (lia || apply sext_range; lia); congruence.
Qed.

(** The two filters in a row: if the coding filter reads its samples in
    pieces of whole pairs (as it does from a file) it writes the code of the whole
    stream; and however that is cut into pieces for the decoding filter, this ends
    with status 0, has written the coder's own predictions, one for every sample,
    and has followed the coder into its final state. *)
Theorem adpcm_pipeline pieces received s : state_ok s ->
  Forall (fun p => p <> [] /\ (length p mod 4 = 0)%nat) pieces -> Forall (fun p => p <> []) received ->
  concat received = snd (fst (rawcaudio (map Some pieces) s)) ->
  let vals := shorts (concat pieces) in
  rawcaudio (map Some pieces) s = (0, map u8 (fst (adpcm_coder vals s)), snd (adpcm_coder vals s)) /\
  rawdaudio (map Some received) s =
    (0, flat_map short_bytes
          (coder_trace (mk_coder_vars (valprev s) (index s) stepsizeTable.[index s] 0 true []) vals),
     snd (adpcm_coder vals s)).
Proof.
  intros Hs Hp Hr Hc vals. pose proof (rawcaudio_pieces pieces s Hs Hp) as Hcoder. fold vals in Hcoder.
  pose proof (decoder_tracks_coder vals s) as Htrack. pose proof (coder_packs vals s Hs) as Hpack.
  pose proof (adpcm_coder_state vals s Hs) as [_ Hlen].
  assert (Heven : length vals = (2 * (length (concat pieces) / 4))%nat).
  { unfold vals. rewrite shorts_length. clear - Hp. assert (H4 : (length (concat pieces) mod 4 = 0)%nat).
    { induction Hp as [|p pieces [_ H] _ IH]; [reflexivity |]. cbn [concat]. rewrite length_app.
      rewrite <- Nat.Div0.add_mod_idemp_l, H, Nat.add_0_l. exact IH. }
    pose proof (Nat.div_mod_eq (length (concat pieces)) 4). set (q := (length (concat pieces) / 4)%nat) in *.
    replace (length (concat pieces)) with (2 * q * 2)%nat by lia. now rewrite Nat.div_mul by lia. }
  destruct (adpcm_coder vals s) as [out s']. rewrite Hcoder in Hc |- *. cbn [fst snd] in *. split; [reflexivity |].
  assert (Hb : Forall is_u8 (concat received)).
  { rewrite Hc. apply Forall_map, Forall_forall. intros x _. apply u8_byte. }
  pose proof (rawdaudio_pieces received s Hs Hr Hb) as Hdec. rewrite Hc, length_map in Hdec.
  replace (2 * length out)%nat with (length vals) in Hdec.
  2:{ rewrite Hlen, Heven. replace (2 * (length (concat pieces) / 4) + 1)%nat with (S (2 * (length (concat pieces) / 4))) by lia.
      now rewrite Nat.div2_succ_double. }
  destruct (quantise_all _ _ _ vals) as [[ds ps] [p i]]. injection Hpack as -> ->.
  rewrite pack_i8, Htrack in Hdec. exact Hdec.
Qed.

Lemma adpcm_pipeline_witness :
  rawdaudio (map Some [[119]; [119]]) (mk_state 0 0) =
  (0, flat_map short_bytes (coder_trace (mk_coder_vars 0 0 7 0 true []) [1000; 2000; 3000; 4000]),
   snd (adpcm_coder [1000; 2000; 3000; 4000] (mk_state 0 0))).
Proof.
  refine (proj2 (adpcm_pipeline [[232; 3; 208; 7]; [184; 11; 160; 15]] [[119]; [119]] (mk_state 0 0) _ _ _ _)).
  - split; cbn; [unfold is_i16; lia | lia].
  - repeat constructor; discriminate.
  - repeat constructor; discriminate.
  - vm_compute. reflexivity.
Defined.
