(* ===== verification/GsmArith.v ===== *)
(** * GSM 06.10 arithmetic (src/mibench/telecomm/gsm/src/add.c, inc/private.h)

    The fixed-point operations of the codec.  A [word] is a [short]; a
    [longword] is a [long], 64 bits on the targets although the codec was
    written for 32: the lemmas of this file show that on 32-bit operands every
    operation gives the 32-bit result, so the codec does not depend on the
    width.  Assertions are enabled in this build (the Makefile leaves NDEBUG
    undefined); an operation that asserts is in the option monad. *)

From Stdlib Require Import ZArith Lia List Bool.
Import ListNotations.
From S2P Require Import Prelude.

Definition MIN_WORD : Z := -32768.
Definition MAX_WORD : Z := 32767.
Definition MIN_LONGWORD : Z := -2147483648.
Definition MAX_LONGWORD : Z := 2147483647.

(** [SASR(x, by)]: a signed arithmetic shift right *)
Definition SASR (x by_ : Z) : Z := x >> by_.

(** ** add.c *)

Definition saturate (x : Z) : Z :=
  if x <? MIN_WORD then MIN_WORD else if MAX_WORD <? x then MAX_WORD else x.

Definition gsm_add (a b : Z) : Z := i16 (saturate (a + b)).
Definition gsm_sub (a b : Z) : Z := i16 (saturate (a - b)).

Definition gsm_mult (a b : Z) : Z :=
  if (a =? MIN_WORD) && (b =? MIN_WORD) then MAX_WORD
  else i16 (SASR (a * b) 15).

Definition gsm_mult_r (a b : Z) : Z :=
  if (b =? MIN_WORD) && (a =? MIN_WORD) then MAX_WORD
  else let prod := a * b + 16384 in
       let prod := prod >> 15 in
       i16 (prod .& 0xFFFF).

Definition gsm_abs (a : Z) : Z :=
  if a <? 0 then (if a =? MIN_WORD then MAX_WORD else - a) else a.

Definition gsm_L_mult (a b : Z) : option Z :=
  assert! negb (a =? MIN_WORD) || negb (b =? MIN_WORD) in
  Some (i64 (a * b << 1)).

Definition gsm_L_add (a b : Z) : Z :=
  if a <? 0 then
    if 0 <=? b then a + b
    else let A := u64 (u64 (- (a + 1)) + u64 (- (b + 1))) in
         if MAX_LONGWORD <=? A then MIN_LONGWORD else - i64 A - 2
  else if b <=? 0 then a + b
  else let A := u64 (u64 a + u64 b) in
       i64 (if MAX_LONGWORD <? A then MAX_LONGWORD else A).

Definition gsm_L_sub (a b : Z) : Z :=
  if 0 <=? a then
    if 0 <=? b then a - b
    else let A := u64 (u64 a + u64 (- (b + 1))) in
         i64 (if MAX_LONGWORD <=? A then MAX_LONGWORD else u64 (A + 1))
  else if b <=? 0 then a - b
  else let A := u64 (u64 (- (a + 1)) + u64 b) in
       if MAX_LONGWORD <=? A then MIN_LONGWORD else - i64 A - 1.

Definition bitoff : list Z :=
  [ 8; 7; 6; 6; 5; 5; 5; 5; 4; 4; 4; 4; 4; 4; 4; 4;
    3; 3; 3; 3; 3; 3; 3; 3; 3; 3; 3; 3; 3; 3; 3; 3;
    2; 2; 2; 2; 2; 2; 2; 2; 2; 2; 2; 2; 2; 2; 2; 2;
    2; 2; 2; 2; 2; 2; 2; 2; 2; 2; 2; 2; 2; 2; 2; 2;
    1; 1; 1; 1; 1; 1; 1; 1; 1; 1; 1; 1; 1; 1; 1; 1;
    1; 1; 1; 1; 1; 1; 1; 1; 1; 1; 1; 1; 1; 1; 1; 1;
    1; 1; 1; 1; 1; 1; 1; 1; 1; 1; 1; 1; 1; 1; 1; 1;
    1; 1; 1; 1; 1; 1; 1; 1; 1; 1; 1; 1; 1; 1; 1; 1;
    0; 0; 0; 0; 0; 0; 0; 0; 0; 0; 0; 0; 0; 0; 0; 0;
    0; 0; 0; 0; 0; 0; 0; 0; 0; 0; 0; 0; 0; 0; 0; 0;
    0; 0; 0; 0; 0; 0; 0; 0; 0; 0; 0; 0; 0; 0; 0; 0;
    0; 0; 0; 0; 0; 0; 0; 0; 0; 0; 0; 0; 0; 0; 0; 0;
    0; 0; 0; 0; 0; 0; 0; 0; 0; 0; 0; 0; 0; 0; 0; 0;
    0; 0; 0; 0; 0; 0; 0; 0; 0; 0; 0; 0; 0; 0; 0; 0;
    0; 0; 0; 0; 0; 0; 0; 0; 0; 0; 0; 0; 0; 0; 0; 0;
    0; 0; 0; 0; 0; 0; 0; 0; 0; 0; 0; 0; 0; 0; 0; 0 ].

Definition gsm_norm (a : Z) : option Z :=
  assert! negb (a =? 0) in
  if (a <? 0) && (a <=? -1073741824) then Some 0
  else
    let a := if a <? 0 then Z.lnot a else a in
    Some (i16 (
      if negb ((a .& 0xffff0000) =? 0)
      then (if negb ((a .& 0xff000000) =? 0)
            then -1 + bitoff.[0xFF .& (a >> 24)]
            else 7 + bitoff.[0xFF .& (a >> 16)])
      else (if negb ((a .& 0xff00) =? 0)
            then 15 + bitoff.[0xFF .& (a >> 8)]
            else 23 + bitoff.[0xFF .& a]))).

Definition gsm_L_asr (a n : Z) : Z :=
  if 32 <=? n then - b2z (a <? 0)
  else if n <=? -32 then 0
  else if n <? 0 then i64 (a << (- n))
  else a >> n.

Definition gsm_L_asl (a n : Z) : Z :=
  if 32 <=? n then 0
  else if n <=? -32 then - b2z (a <? 0)
  else if n <? 0 then gsm_L_asr a (- n)
  else i64 (a << n).

Definition gsm_asr (a n : Z) : Z :=
  if 16 <=? n then - b2z (a <? 0)
  else if n <=? -16 then 0
  else if n <? 0 then i16 (a << (- n))
  else i16 (a >> n).

Definition gsm_asl (a n : Z) : Z :=
  if 16 <=? n then 0
  else if n <=? -16 then - b2z (a <? 0)
  else if n <? 0 then gsm_asr a (- n)
  else i16 (a << n).

(** One turn of the division loop on [(div, L_num)]. *)
Definition gsm_div_iter (L_denum : Z) (s : Z * Z) : Z * Z :=
  let '(div, L_num) := s in
  let div := i16 (div << 1) in
  let L_num := i64 (L_num << 1) in
  if L_denum <=? L_num then (i16 (div + 1), i64 (L_num - L_denum)) else (div, L_num).

Definition gsm_div (num denum : Z) : option Z :=
  assert! (0 <=? num) && (num <=? denum) in
  if num =? 0 then Some 0
  else Some (fst (for_range 0 15 (fun _ => gsm_div_iter denum) (0, num))).

(** ** The macros of private.h *)

Definition GSM_MULT_R (a b : Z) : Z := SASR (a * b + 16384) 15.
Definition GSM_MULT (a b : Z) : Z := SASR (a * b) 15.
Definition GSM_L_MULT (a b : Z) : Z := i64 (a * b << 1).

Definition GSM_L_ADD (a b : Z) : Z :=
  if a <? 0 then
    if 0 <=? b then a + b
    else let utmp := u64 (u64 (- (a + 1)) + u64 (- (b + 1))) in
         if MAX_LONGWORD <=? utmp then MIN_LONGWORD else - i64 utmp - 2
  else if b <=? 0 then a + b
  else let utmp := u64 (u64 a + u64 b) in
       i64 (if MAX_LONGWORD <=? utmp then MAX_LONGWORD else utmp).

Definition GSM_ADD (a b : Z) : Z :=
  let ltmp := a + b in
  if MAX_WORD - MIN_WORD <? u64 (ltmp - MIN_WORD)
  then (if 0 <? ltmp then MAX_WORD else MIN_WORD) else ltmp.

Definition GSM_SUB (a b : Z) : Z :=
  let ltmp := a - b in
  if MAX_WORD <=? ltmp then MAX_WORD else if ltmp <=? MIN_WORD then MIN_WORD else ltmp.

Definition GSM_ABS (a : Z) : Z :=
  if a <? 0 then (if a =? MIN_WORD then MAX_WORD else - a) else a.

(** ** Specifications *)

Definition saturate32 (x : Z) : Z :=
  if x <? MIN_LONGWORD then MIN_LONGWORD else if MAX_LONGWORD <? x then MAX_LONGWORD else x.

#[export] Hint Unfold MIN_WORD MAX_WORD MIN_LONGWORD MAX_LONGWORD : cint.

Ltac gsm_unfold :=
  unfold saturate, saturate32, SASR, is_i16, is_i32, MIN_WORD, MAX_WORD, MIN_LONGWORD,
    MAX_LONGWORD in *.

Lemma saturate_range x : is_i16 (saturate x).
Proof. gsm_unfold; zcases; lia. Qed.

Lemma saturate_id x : is_i16 x -> saturate x = x.
Proof. gsm_unfold; zcases; lia. Qed.

Lemma saturate32_range x : is_i32 (saturate32 x).
Proof. gsm_unfold; zcases; lia. Qed.

#[export] Hint Resolve saturate_range saturate32_range : cint.

(** The "nonportable, but faster" macro is the saturated sum. *)
Lemma GSM_ADD_spec a b : - 2 ^ 62 <= a + b < 2 ^ 62 -> GSM_ADD a b = saturate (a + b).
Proof.
  intros H. unfold GSM_ADD. gsm_unfold. unfold u64, zext.
  zcases; zlia.
Qed.

Lemma GSM_SUB_spec a b : GSM_SUB a b = saturate (a - b).
Proof. unfold GSM_SUB. gsm_unfold. zcases; lia. Qed.

Lemma GSM_ADD_range a b : - 2 ^ 62 <= a + b < 2 ^ 62 -> is_i16 (GSM_ADD a b).
Proof. intros; rewrite GSM_ADD_spec by lia; apply saturate_range. Qed.

Lemma GSM_SUB_range a b : is_i16 (GSM_SUB a b).
Proof. rewrite GSM_SUB_spec; apply saturate_range. Qed.

Lemma GSM_ABS_spec a : is_i16 a -> GSM_ABS a = Z.min (Z.abs a) MAX_WORD.
Proof. unfold GSM_ABS; gsm_unfold; zcases; lia. Qed.

Ltac u64_simpl :=
  repeat match goal with
    | |- context [u64 ?x] => rewrite (u64_id x) by (unfold is_u64 in *; lia)
    | |- context [i64 ?x] => rewrite (i64_id x) by (unfold is_i64 in *; lia)
    end.

Lemma GSM_L_ADD_spec a b : is_i32 a -> is_i32 b -> GSM_L_ADD a b = saturate32 (a + b).
Proof.
  intros Ha Hb. unfold GSM_L_ADD; gsm_unfold.
  destruct (Z.ltb_spec a 0).
  - destruct (Z.leb_spec 0 b); [zcases; lia |]. cbv zeta. u64_simpl. zcases; u64_simpl; lia.
  - destruct (Z.leb_spec b 0); [zcases; lia |]. cbv zeta. u64_simpl. zcases; u64_simpl; lia.
Qed.

Lemma gsm_L_add_spec a b : is_i32 a -> is_i32 b -> gsm_L_add a b = saturate32 (a + b).
Proof.
  intros Ha Hb. unfold gsm_L_add; gsm_unfold.
  destruct (Z.ltb_spec a 0).
  - destruct (Z.leb_spec 0 b); [zcases; lia |]. cbv zeta. u64_simpl. zcases; u64_simpl; lia.
  - destruct (Z.leb_spec b 0); [zcases; lia |]. cbv zeta. u64_simpl. zcases; u64_simpl; lia.
Qed.

Lemma gsm_L_sub_spec a b : is_i32 a -> is_i32 b -> gsm_L_sub a b = saturate32 (a - b).
Proof.
  intros Ha Hb. unfold gsm_L_sub; gsm_unfold.
  destruct (Z.leb_spec 0 a).
  - destruct (Z.leb_spec 0 b); [zcases; lia |]. cbv zeta. u64_simpl. zcases; u64_simpl; lia.
  - destruct (Z.leb_spec b 0); [zcases; lia |]. cbv zeta. u64_simpl. zcases; u64_simpl; lia.
Qed.

(** Products of two words, rounded. *)
Lemma GSM_MULT_R_div a b : GSM_MULT_R a b = (a * b + 16384) / 32768.
Proof. unfold GSM_MULT_R, SASR. now rewrite shiftr_div by lia. Qed.

Lemma GSM_MULT_R_range a b : is_i16 a -> is_i16 b -> -32768 <= GSM_MULT_R a b <= 32768.
Proof.
  intros Ha Hb. rewrite GSM_MULT_R_div. unfold is_i16 in *.
  assert (- (32768 * 32768) <= a * b <= 32768 * 32768) by nia. zlia.
Qed.

(** The product fits a word unless both operands are [MIN_WORD]. *)
Lemma GSM_MULT_R_word a b : is_i16 a -> is_i16 b -> (a <> MIN_WORD \/ b <> MIN_WORD) ->
  is_i16 (GSM_MULT_R a b).
Proof.
  intros Ha Hb Hne. rewrite GSM_MULT_R_div. unfold is_i16, MIN_WORD in *.
  assert (- (32768 * 32767) <= a * b <= 32768 * 32767) by (destruct Hne; nia). zlia.
Qed.

Lemma gsm_mult_r_spec a b : is_i16 a -> is_i16 b ->
  gsm_mult_r a b = saturate (GSM_MULT_R a b).
Proof.
  intros Ha Hb. unfold gsm_mult_r.
  destruct (Z.eqb_spec b MIN_WORD) as [Eb|Hb'], (Z.eqb_spec a MIN_WORD) as [Ea|Ha'];
    cbn [andb]; [now rewrite Ea, Eb | | |];
    (assert (Hw : is_i16 (GSM_MULT_R a b)) by (apply GSM_MULT_R_word; auto);
     rewrite saturate_id by exact Hw;
     rewrite <- (i16_id (GSM_MULT_R a b)) by exact Hw;
     unfold GSM_MULT_R, SASR, i16; change 0xFFFF with (2 ^ 16 - 1);
     rewrite land_mask by lia; apply sext_zext; lia).
Qed.

(** ** Normalisation *)

Lemma bitoff_spec b : 0 < b < 256 -> 128 <= b * 2 ^ bitoff.[b] < 256 /\ 0 <= bitoff.[b] <= 7.
Proof.
  intros Hb.
  pose proof (all_range_spec 1 255 (fun b => (128 <=? b * 2 ^ bitoff.[b]) && (b * 2 ^ bitoff.[b] <? 256)
      && (0 <=? bitoff.[b]) && (bitoff.[b] <=? 7))
    ltac:(vm_compute; reflexivity) b ltac:(lia)) as H.
  rewrite !andb_true_iff, !Z.leb_le, Z.ltb_lt in H. lia.
Qed.

(** Masking off the low bits of a 32-bit value leaves something exactly when
    the value is large enough. *)
Lemma high_mask_nonzero a k m : 0 <= a < 2 ^ 32 -> 0 <= k <= 32 ->
  m = (2 ^ (32 - k) - 1) * 2 ^ k -> negb ((a .& m) =? 0) = (2 ^ k <=? a).
Proof.
  intros Ha Hk ->.
  assert (0 < 2 ^ k) by (apply Z.pow_pos_nonneg; lia).
  assert (E : a .& ((2 ^ (32 - k) - 1) * 2 ^ k) = 2 ^ k * (a / 2 ^ k)).
  { pose proof (Z.mod_pos_bound a (2 ^ k) ltac:(lia)).
    rewrite (Z.div_mod a (2 ^ k)) at 1 by lia.
    replace (2 ^ k * (a / 2 ^ k) + a mod 2 ^ k) with (a mod 2 ^ k + 2 ^ k * (a / 2 ^ k)) by lia.
    replace ((2 ^ (32 - k) - 1) * 2 ^ k) with (0 + 2 ^ k * (2 ^ (32 - k) - 1)) by lia.
    assert (Hq : 0 <= a / 2 ^ k < 2 ^ (32 - k)).
    { split; [apply Z.div_pos; lia | apply Z.div_lt_upper_bound; [lia |]].
      rewrite <- Z.pow_add_r by lia. replace (k + (32 - k)) with 32 by lia. lia. }
    rewrite land_split, Z.land_0_r, land_mask, Z.mod_small by lia. lia. }
  rewrite E. destruct (Z.leb_spec (2 ^ k) a).
  - assert (0 < a / 2 ^ k) by (apply Z.div_str_pos; lia).
    destruct (Z.eqb_spec (2 ^ k * (a / 2 ^ k)) 0); [nia | reflexivity].
  - rewrite Z.div_small by lia. now rewrite Z.mul_0_r.
Qed.

Lemma land_byte x : 0xFF .& x = x mod 256.
Proof. rewrite Z.land_comm. change 0xFF with (2 ^ 8 - 1). now rewrite land_mask by lia. Qed.

(** The four-way table lookup on a positive value: [k] is the position of the
    byte looked up. *)
Lemma norm_lookup a k o : In k [0; 8; 16; 24] -> 2 ^ k <= a < 2 ^ (k + 8) -> a < 2 ^ 31 ->
  o = bitoff.[0xFF .& (a >> k)] ->
  2 ^ 30 <= a * 2 ^ (23 - k + o) < 2 ^ 31 /\ 0 <= 23 - k + o <= 30.
Proof.
  intros Hk Ha Ha31 ->. rewrite land_byte.
  assert (Hb : 0 < a / 2 ^ k < 256 /\ a >> k = a / 2 ^ k).
  { cbn [In] in Hk. destruct Hk as [<-|[<-|[<-|[<-|[]]]]];
      (split; [simpl Z.pow in *; zlia | apply shiftr_div; lia]). }
  destruct Hb as [Hb ->]. rewrite Z.mod_small by lia.
  destruct (bitoff_spec _ Hb) as [H1 H2]. set (o := bitoff.[a / 2 ^ k]) in *. clearbody o.
  assert (Ho : o = 0 \/ o = 1 \/ o = 2 \/ o = 3 \/ o = 4 \/ o = 5 \/ o = 6 \/ o = 7) by lia.
  cbn [In] in Hk. destruct Hk as [<-|[<-|[<-|[<-|[]]]]];
    destruct Ho as [->|[->|[->|[->|[->|[->|[->| ->]]]]]]]; zpow_compute;
    zlia.
Qed.

Lemma gsm_norm_pos a : 0 < a < 2 ^ 31 ->
  exists n, gsm_norm a = Some n /\ 0 <= n <= 30 /\ 2 ^ 30 <= a * 2 ^ n < 2 ^ 31.
Proof.
  intros Ha. unfold gsm_norm.
  replace (a =? 0) with false by (symmetry; apply Z.eqb_neq; lia).
  replace (a <? 0) with false by (symmetry; apply Z.ltb_ge; lia).
  cbn [negb andb].
  rewrite (high_mask_nonzero a 16 0xffff0000), (high_mask_nonzero a 24 0xff000000)
    by (reflexivity || lia).
  destruct (Z.leb_spec (2 ^ 16) a).
  - destruct (Z.leb_spec (2 ^ 24) a).
    + destruct (norm_lookup a 24 _ ltac:(simpl; auto) ltac:(lia) ltac:(lia) eq_refl) as [H1 H2].
      eexists; split; [reflexivity |]. rewrite i16_id by (unfold is_i16; lia). split; [lia | exact H1].
    + destruct (norm_lookup a 16 _ ltac:(simpl; auto) ltac:(lia) ltac:(lia) eq_refl) as [H1 H2].
      eexists; split; [reflexivity |]. rewrite i16_id by (unfold is_i16; lia). split; [lia | exact H1].
  - assert (E : (a .& 0xff00) = a .& 0xffffff00).
    { assert (Hs : a = a mod 2 ^ 16) by (rewrite Z.mod_small; lia).
      rewrite Hs, <- Z.land_ones, <- !Z.land_assoc by lia. reflexivity. }
    rewrite E, (high_mask_nonzero a 8 0xffffff00) by (reflexivity || lia).
    destruct (Z.leb_spec (2 ^ 8) a).
    + destruct (norm_lookup a 8 _ ltac:(simpl; auto) ltac:(lia) ltac:(lia) eq_refl) as [H1 H2].
      eexists; split; [reflexivity |]. rewrite i16_id by (unfold is_i16; lia). split; [lia | exact H1].
    + destruct (norm_lookup a 0 _ ltac:(simpl; auto) ltac:(lia) ltac:(lia) eq_refl) as [H1 H2].
      rewrite Z.shiftr_0_r in *.
      eexists; split; [reflexivity |]. rewrite i16_id by (unfold is_i16; lia). split; [lia | exact H1].
Qed.

Lemma gsm_norm_neg a : -1073741824 < a < -1 -> gsm_norm a = gsm_norm (- a - 1).
Proof.
  intros Ha. unfold gsm_norm.
  replace (a =? 0) with false by (symmetry; apply Z.eqb_neq; lia).
  replace (- a - 1 =? 0) with false by (symmetry; apply Z.eqb_neq; lia).
  replace (a <? 0) with true by (symmetry; apply Z.ltb_lt; lia).
  replace (- a - 1 <? 0) with false by (symmetry; apply Z.ltb_ge; lia).
  replace (a <=? -1073741824) with false by (symmetry; apply Z.leb_gt; lia).
  cbn [negb andb].
  replace (Z.lnot a) with (- a - 1) by (pose proof (Z.add_lnot_diag a); lia). reflexivity.
Qed.

(** What the comment above [gsm_norm] asks of a shift count. *)
Definition normalises (a n : Z) : Prop :=
  (0 < a -> 1073741824 <= a * 2 ^ n <= 2147483647) /\
  (a < 0 -> -2147483648 <= a * 2 ^ n <= -1073741824).

(** [gsm_norm] returns, for every non-zero 32-bit value, the left shift count
    that brings it into the normalised interval its comment gives (between
    2^30 and 2^31-1 for positive values, -2^31 and -2^30 for negative ones);
    on zero its assertion fails. *)
Theorem gsm_norm_correct a : is_i32 a ->
  match gsm_norm a with
  | Some n => a <> 0 /\ 0 <= n <= 31 /\ normalises a n
  | None => a = 0
  end.
Proof.
  unfold is_i32; intros Ha. destruct (Z.eqb_spec a 0) as [->|Hnz]; [reflexivity |].
  unfold normalises. destruct (Z.ltb_spec 0 a) as [Hpos|Hneg].
  - destruct (gsm_norm_pos a ltac:(lia)) as (n & -> & Hn & Hb). lia.
  - destruct (Z.leb_spec a (-1073741824)) as [Hbig|Hsmall].
    + unfold gsm_norm. replace (a =? 0) with false by (symmetry; apply Z.eqb_neq; lia).
      replace (a <? 0) with true by (symmetry; apply Z.ltb_lt; lia).
      replace (a <=? -1073741824) with true by (symmetry; apply Z.leb_le; lia).
      cbn [negb andb]. rewrite Z.pow_0_r. lia.
    + destruct (Z.eqb_spec a (-1)) as [->|Hm1]; [vm_compute; intuition discriminate |].
      rewrite gsm_norm_neg by lia.
      destruct (gsm_norm_pos (- a - 1) ltac:(lia)) as (n & -> & Hn & Hb).
      assert (0 < 2 ^ n) by (apply Z.pow_pos_nonneg; lia).
      assert (2 ^ 31 = 2 ^ n * 2 ^ (31 - n)) by (rewrite <- Z.pow_add_r by lia; f_equal; lia).
      assert (- a - 1 < 2 ^ (31 - n)) by nia.
      split; [lia |]. split; [lia |]. split; [lia |]. intros _. nia.
Qed.

Lemma gsm_norm_correct_witness : gsm_norm (-3) = Some 29 /\ normalises (-3) 29.
Proof.
  split; [reflexivity |].
  pose proof (gsm_norm_correct (-3) ltac:(unfold is_i32; lia)) as H.
  change (gsm_norm (-3)) with (Some 29) in H. exact (proj2 (proj2 H)).
Defined.

(** ** Division *)

Lemma gsm_div_iter_spec num denum k div L :
  0 < num <= denum -> denum <= 32767 -> 0 <= k < 15 ->
  0 <= div < 2 ^ k -> 0 <= L <= denum -> num * 2 ^ k = div * denum + L ->
  (L = denum -> num = denum) ->
  let '(div', L') := gsm_div_iter denum (div, L) in
  0 <= div' < 2 ^ (k + 1) /\ 0 <= L' <= denum /\ num * 2 ^ (k + 1) = div' * denum + L' /\
  (L' = denum -> num = denum).
Proof.
  intros Hn Hd Hk Hdiv HL E Heq.
  assert (H2 : 2 ^ (k + 1) = 2 * 2 ^ k) by (rewrite Z.pow_add_r by lia; lia).
  assert (2 ^ k <= 2 ^ 14) by (apply Z.pow_le_mono_r; lia).
  unfold gsm_div_iter. rewrite !shiftl_mul by lia.
  rewrite (i16_id (div * 2 ^ 1)) by (unfold is_i16; lia).
  rewrite (i64_id (L * 2 ^ 1)) by (unfold is_i64; lia).
  destruct (Z.leb_spec denum (L * 2 ^ 1)).
  - rewrite i16_id by (unfold is_i16; lia). rewrite i64_id by (unfold is_i64; lia).
    repeat split; try lia.
  - repeat split; lia.
Qed.

Lemma gsm_div_value num denum : 0 <= num <= denum -> denum <= MAX_WORD -> 0 < denum ->
  gsm_div num denum = Some (Z.min 32767 (num * 32768 / denum)).
Proof.
  unfold MAX_WORD; intros Hn Hd Hp. unfold gsm_div.
  replace (0 <=? num) with true by (symmetry; apply Z.leb_le; lia).
  replace (num <=? denum) with true by (symmetry; apply Z.leb_le; lia). cbn [andb].
  destruct (Z.eqb_spec num 0) as [->|Hnz].
  { rewrite Z.mul_0_l, Z.div_0_l by lia. reflexivity. }
  f_equal.
  assert (I : let '(div, L) := for_range 0 15 (fun _ => gsm_div_iter denum) (0, num) in
    0 <= div < 2 ^ 15 /\ 0 <= L <= denum /\ num * 2 ^ 15 = div * denum + L /\
    (L = denum -> num = denum)).
  { apply (for_range_ind (fun k s => let '(div, L) := s in
      0 <= div < 2 ^ k /\ 0 <= L <= denum /\ num * 2 ^ k = div * denum + L /\
      (L = denum -> num = denum))); [lia | lia |].
    intros k [div L] Hk (H1 & H2 & H3 & H4).
    apply (gsm_div_iter_spec num denum k div L); auto; lia. }
  destruct (for_range 0 15 _ _) as [div L]. cbn [fst].
  destruct I as (H1 & H2 & H3 & H4). change (2 ^ 15) with 32768 in *.
  destruct (Z.eqb_spec L denum) as [->|HL].
  - specialize (H4 eq_refl). subst num. assert (div = 32767) by nia. subst div.
    rewrite Z.mul_comm, Z.div_mul by lia. reflexivity.
  - assert (num * 32768 / denum = div).
    { symmetry; apply Z.div_unique with L; lia. }
    lia.
Qed.

(** [gsm_div] is the fractional division of GSM 06.10: for a positive
    denominator not below the numerator it returns the 15-bit quotient
    [num * 2^15 / denum], saturated to 32767 when the operands are equal. *)
Theorem gsm_div_correct num denum : 0 <= num <= denum -> denum <= MAX_WORD -> 0 < denum ->
  gsm_div num denum = Some (Z.min 32767 (num * 32768 / denum)).
Proof. apply gsm_div_value. Qed.

Lemma gsm_div_correct_witness : gsm_div 100 300 = Some 10922.
Proof.
  change 10922 with (Z.min 32767 (100 * 32768 / 300)).
  apply (gsm_div_correct 100 300); unfold MAX_WORD; lia.
Defined.

(** On 16- and 32-bit operands the saturating operations of add.c and their
    macro versions in private.h agree and are exact sums, differences and
    rounded products clamped to the word or longword range, although the
    target's [long] is wider than the 32 bits the code was written for. *)
Theorem saturating_ops_exact a b A B :
  is_i16 a -> is_i16 b -> is_i32 A -> is_i32 B ->
  gsm_add a b = saturate (a + b) /\ GSM_ADD a b = saturate (a + b) /\
  gsm_sub a b = saturate (a - b) /\ GSM_SUB a b = saturate (a - b) /\
  gsm_L_add A B = saturate32 (A + B) /\ GSM_L_ADD A B = saturate32 (A + B) /\
  gsm_L_sub A B = saturate32 (A - B) /\
  gsm_mult_r a b = saturate ((a * b + 16384) / 32768).
Proof.
  intros Ha Hb HA HB.
  rewrite gsm_mult_r_spec, GSM_MULT_R_div, gsm_L_add_spec, GSM_L_ADD_spec, gsm_L_sub_spec,
    GSM_SUB_spec, GSM_ADD_spec by (auto; unfold is_i16 in *; lia).
  unfold gsm_add, gsm_sub. rewrite !i16_id by apply saturate_range. tauto.
Qed.

Lemma saturating_ops_exact_witness :
  gsm_add 32767 1 = 32767 /\ gsm_L_add (-2147483648) (-1) = -2147483648.
Proof.
  destruct (saturating_ops_exact 32767 1 (-2147483648) (-1)) as (H1 & _ & _ & _ & H2 & _);
    try (unfold is_i16, is_i32; lia).
  split; [exact H1 | exact H2].
Defined.
