(* ===== verification/GsmState.v ===== *)
(** * GSM 06.10: the codec's state and tables
    (src/mibench/telecomm/gsm: inc/private.h, inc/gsm.h, src/gsm_create.c,
    src/gsm_option.c, src/table.c)

    [struct gsm_state] as a record, its creation and its options, the tables of
    the standard, and the frame parameters the coder hands to the packer. *)

From Stdlib Require Import ZArith Lia List Bool.
Import ListNotations.
From S2P Require Import Prelude GsmArith.

(** ** [struct gsm_state] *)

Record gsm_state := mk_gsm {
  dp0 : list Z;            (* word[280]: 120 old and 160 new residual samples *)
  z1 : Z; L_z2 : Z; mp : Z; (* preprocessing *)
  u : list Z;              (* word[8]: short-term analysis filter *)
  LARpp : list (list Z);   (* word[2][8]: decoded log-area ratios, double-buffered *)
  j : Z;                   (* which of the two is current *)
  nrp : Z;                 (* last valid LTP lag, decoder *)
  v : list Z;              (* word[9]: short-term synthesis filter *)
  msr : Z;                 (* postprocessing *)
  verbose : Z; fast : Z
}.

Definition set_dp0 (S : gsm_state) x := mk_gsm x (z1 S) (L_z2 S) (mp S) (u S) (LARpp S) (j S) (nrp S) (v S) (msr S) (verbose S) (fast S).
Definition set_pre (S : gsm_state) a b c := mk_gsm (dp0 S) a b c (u S) (LARpp S) (j S) (nrp S) (v S) (msr S) (verbose S) (fast S).
Definition set_u (S : gsm_state) x := mk_gsm (dp0 S) (z1 S) (L_z2 S) (mp S) x (LARpp S) (j S) (nrp S) (v S) (msr S) (verbose S) (fast S).
Definition set_LARpp (S : gsm_state) l i := mk_gsm (dp0 S) (z1 S) (L_z2 S) (mp S) (u S) l i (nrp S) (v S) (msr S) (verbose S) (fast S).
Definition set_nrp (S : gsm_state) x := mk_gsm (dp0 S) (z1 S) (L_z2 S) (mp S) (u S) (LARpp S) (j S) x (v S) (msr S) (verbose S) (fast S).
Definition set_v (S : gsm_state) x := mk_gsm (dp0 S) (z1 S) (L_z2 S) (mp S) (u S) (LARpp S) (j S) (nrp S) x (msr S) (verbose S) (fast S).
Definition set_msr (S : gsm_state) x := mk_gsm (dp0 S) (z1 S) (L_z2 S) (mp S) (u S) (LARpp S) (j S) (nrp S) (v S) x (verbose S) (fast S).
Definition set_verbose (S : gsm_state) x := mk_gsm (dp0 S) (z1 S) (L_z2 S) (mp S) (u S) (LARpp S) (j S) (nrp S) (v S) (msr S) x (fast S).

(** [gsm_create]: a zeroed state, except for the lag; [None] when malloc fails. *)
Definition gsm_create (malloc_ok : bool) : option gsm_state :=
  if malloc_ok
  then Some (mk_gsm (repeat 0 280) 0 0 0 (repeat 0 8) [repeat 0 8; repeat 0 8] 0 40 (repeat 0 9) 0 0 0)
  else None.

Definition GSM_OPT_VERBOSE : Z := 1.
Definition GSM_OPT_FAST : Z := 2.

(** [gsm_option] in this build: NDEBUG and FAST are undefined; [val] is [None]
    for a null pointer.  The stored flag is a [char]. *)
Definition gsm_option (r : gsm_state) (opt : Z) (val : option Z) : Z * gsm_state :=
  if opt =? GSM_OPT_VERBOSE then
    (verbose r, match val with Some x => set_verbose r (i8 x) | None => r end)
  else if opt =? GSM_OPT_FAST then (-1, r)
  else (-1, r).

(** ** table.c *)

Definition gsm_A : list Z := [20480; 20480; 20480; 20480; 13964; 15360; 8534; 9036].
Definition gsm_B : list Z := [0; 0; 2048; -2560; 94; -1792; -341; -1144].
Definition gsm_MIC : list Z := [-32; -32; -16; -16; -8; -8; -4; -4].
Definition gsm_MAC : list Z := [31; 31; 15; 15; 7; 7; 3; 3].
Definition gsm_INVA : list Z := [13107; 13107; 13107; 13107; 19223; 17476; 31454; 29708].
Definition gsm_DLB : list Z := [6554; 16384; 26214; 32767].
Definition gsm_QLB : list Z := [3277; 11469; 21299; 32767].
Definition gsm_H : list Z := [-134; -374; 0; 2054; 5741; 8192; 5741; 2054; 0; -374; -134].
Definition gsm_NRFAC : list Z := [29128; 26215; 23832; 21846; 20165; 18725; 17476; 16384].
Definition gsm_FAC : list Z := [18431; 20479; 22527; 24575; 26623; 28671; 30719; 32767].

(** ** Frame parameters

    The arrays [LARc[8]], [Nc[4]], [bc[4]], [Mc[4]], [xmaxc[4]], [xmc[13*4]]
    that the coder fills and the decoder reads. *)
Record gsm_params := mk_params {
  LARc : list Z; Nc : list Z; bc : list Z; Mc : list Z; xmaxc : list Z; xmc : list Z
}.

(** ** Well-formedness *)

Definition words (n : nat) (l : list Z) : Prop := length l = n /\ Forall is_i16 l.

Definition field (w x : Z) : Prop := 0 <= x < 2 ^ w.
Definition fields (n : nat) (w : Z) (l : list Z) : Prop := length l = n /\ Forall (field w) l.

(** The widths the frame format gives the log-area ratios. *)
Definition LARc_widths : list Z := [6; 6; 5; 5; 4; 4; 3; 3].

(** Every parameter fits its field of the frame. *)
Record params_ok (p : gsm_params) : Prop := {
  ok_LARc : Forall2 field LARc_widths (LARc p);
  ok_Nc : fields 4 7 (Nc p);
  ok_bc : fields 4 2 (bc p);
  ok_Mc : fields 4 2 (Mc p);
  ok_xmaxc : fields 4 6 (xmaxc p);
  ok_xmc : fields 52 3 (xmc p)
}.

Lemma is_i16_0 : is_i16 0.
Proof. unfold is_i16; lia. Qed.
#[export] Hint Resolve is_i16_0 : cint.

Lemma words_aget n l i : words n l -> is_i16 l.[i].
Proof. intros [_ H]; apply Forall_aget; [apply is_i16_0 | exact H]. Qed.

Lemma words_aset n l i x : words n l -> is_i16 x -> words n (aset l i x).
Proof.
  intros [HL HF] Hx; split; [now rewrite aset_length | now apply Forall_aset].
Qed.

Lemma words_repeat n : words n (repeat 0 n).
Proof. split; [apply repeat_length | apply Forall_forall; intros x Hx]. apply repeat_spec in Hx as ->; apply is_i16_0. Qed.

#[export] Hint Resolve words_aget words_aset words_repeat : cint.

Definition wordsb (n : nat) (l : list Z) : bool :=
  Nat.eqb (length l) n && forallb (fun x => (-32768 <=? x) && (x <=? 32767)) l.

Lemma wordsb_ok n l : wordsb n l = true -> words n l.
Proof.
  unfold wordsb, words, is_i16. rewrite andb_true_iff, Nat.eqb_eq, forallb_forall, Forall_forall.
  intros [HL H]; split; [assumption | intros x Hx]. specialize (H x Hx).
  rewrite andb_true_iff, !Z.leb_le in H. lia.
Qed.

Lemma fields_aget n w l i : 0 <= w -> fields n w l -> field w l.[i].
Proof.
  intros Hw [_ H]; apply Forall_aget; [| exact H].
  split; [lia | apply Z.pow_pos_nonneg; lia].
Qed.

(** Two arrays of the same length with the same elements are equal. *)
Lemma aget_ext l1 l2 : length l1 = length l2 ->
  (forall i, 0 <= i < Z.of_nat (length l1) -> l1.[i] = l2.[i]) -> l1 = l2.
Proof.
  intros HL H. apply (nth_ext _ _ 0 0 HL). intros n Hn.
  specialize (H (Z.of_nat n) ltac:(lia)). unfold aget in H. now rewrite Nat2Z.id in H.
Qed.

Lemma aget_map f (l : list Z) i : 0 <= i < Z.of_nat (length l) -> (map f l).[i] = f l.[i].
Proof.
  intros Hi. unfold aget. rewrite (nth_indep _ 0 (f 0)) by (rewrite length_map; lia). apply map_nth.
Qed.

(** ** Loops that fill an array

    [for (k = 0; k < n; k++) a[off + k] = g(k, a)]: when [g] at [k] only reads
    cells the earlier turns have not written, the loop fills the array with the
    values of [g] on the initial array. *)
Definition fill (n off : Z) (g : Z -> list Z -> Z) (a : list Z) : list Z :=
  for_range 0 n (fun k a => aset a (off + k) (g k a)) a.

Definition agree_outside (lo hi : Z) (a b : list Z) : Prop :=
  length a = length b /\ forall i, 0 <= i -> ~ (lo <= i < hi) -> a.[i] = b.[i].

Lemma fill_spec n off g a0 : 0 <= n -> 0 <= off -> off + n <= Z.of_nat (length a0) ->
  (forall k a, 0 <= k < n -> agree_outside off (off + k) a a0 -> g k a = g k a0) ->
  let r := fill n off g a0 in
  agree_outside off (off + n) r a0 /\ forall k, 0 <= k < n -> r.[off + k] = g k a0.
Proof.
  intros Hn Ho HL Hg. unfold fill.
  apply (for_range_ind (fun m r => agree_outside off (off + m) r a0 /\
           forall k, 0 <= k < m -> r.[off + k] = g k a0)); [lia | |].
  - split; [split; [reflexivity | reflexivity] | intros; lia].
  - intros m r Hm [[HLr Ha] Hv].
    assert (Hr : g m r = g m a0) by (apply Hg; [lia | now split]).
    split.
    + split; [now rewrite aset_length |]. intros i Hi Hout.
      rewrite aget_aset by lia. destruct (Z.eqb_spec i (off + m)); [lia |].
      apply Ha; lia.
    + intros k Hk. rewrite aget_aset by lia.
      destruct (Z.eqb_spec (off + k) (off + m)).
      * now replace k with m by lia.
      * apply Hv; lia.
Qed.
