(* ===== verification/GsmFrame.v ===== *)
(** * GSM 06.10: the 33-byte frame
    (src/mibench/telecomm/gsm/src: gsm_encode.c, gsm_decode.c, gsm_implode.c,
    gsm_explode.c)

    The bit packing shared by [gsm_encode] and [gsm_implode] and the unpacking
    shared by [gsm_decode] and [gsm_explode].  The source writes the seven bytes
    of a sub-frame out four times with the indices advanced; here they are a
    function of the sub-frame's number.  The theorems: a frame holds exactly the
    parameters put in it, and a frame with the right magic nibble is determined
    by the parameters it explodes into. *)

From Stdlib Require Import ZArith Lia List Bool.
Import ListNotations.
From S2P Require Import Prelude GsmArith GsmState.

Definition GSM_MAGIC : Z := 0xD.

(** ** Packing *)

(** The five bytes of the magic nibble and [LARc]. *)
Definition pack_LARc (LARc : list Z) : list Z :=
  [ u8 (((GSM_MAGIC .& 0xF) << 4) .| ((LARc.[0] >> 2) .& 0xF));
    u8 (((LARc.[0] .& 0x3) << 6) .| (LARc.[1] .& 0x3F));
    u8 (((LARc.[2] .& 0x1F) << 3) .| ((LARc.[3] >> 2) .& 0x7));
    u8 (((LARc.[3] .& 0x3) << 6) .| ((LARc.[4] .& 0xF) << 2) .| ((LARc.[5] >> 2) .& 0x3));
    u8 (((LARc.[5] .& 0x3) << 6) .| ((LARc.[6] .& 0x7) << 3) .| (LARc.[7] .& 0x7)) ].

(** The seven bytes of sub-frame [i]; [xmc n] is the C [xmc[13 * i + n]]. *)
Definition pack_sub (Nc bc Mc xmaxc : Z) (xmc : Z -> Z) : list Z :=
  [ u8 (((Nc .& 0x7F) << 1) .| ((bc >> 1) .& 0x1));
    u8 (((bc .& 0x1) << 7) .| ((Mc .& 0x3) << 5) .| ((xmaxc >> 1) .& 0x1F));
    u8 (((xmaxc .& 0x1) << 7) .| ((xmc 0 .& 0x7) << 4) .| ((xmc 1 .& 0x7) << 1) .| ((xmc 2 >> 2) .& 0x1));
    u8 (((xmc 2 .& 0x3) << 6) .| ((xmc 3 .& 0x7) << 3) .| (xmc 4 .& 0x7));
    u8 (((xmc 5 .& 0x7) << 5) .| ((xmc 6 .& 0x7) << 2) .| ((xmc 7 >> 1) .& 0x3));
    u8 (((xmc 7 .& 0x1) << 7) .| ((xmc 8 .& 0x7) << 4) .| ((xmc 9 .& 0x7) << 1) .| ((xmc 10 >> 2) .& 0x1));
    u8 (((xmc 10 .& 0x3) << 6) .| ((xmc 11 .& 0x7) << 3) .| (xmc 12 .& 0x7)) ].

Definition pack_sub_of (p : gsm_params) (i : Z) : list Z :=
  pack_sub (Nc p).[i] (bc p).[i] (Mc p).[i] (xmaxc p).[i] (fun n => (xmc p).[13 * i + n]).

(** The stores [*c++ = ...] of [gsm_encode], lines 107 to 206. *)
Definition pack_frame (p : gsm_params) : list Z :=
  pack_LARc (LARc p) ++ pack_sub_of p 0 ++ pack_sub_of p 1 ++ pack_sub_of p 2 ++ pack_sub_of p 3.

(** ** Unpacking *)

Definition unpack_LARc (c : list Z) : list Z :=
  [ ((c.[0] .& 0xF) << 2) .| ((c.[1] >> 6) .& 0x3);
    c.[1] .& 0x3F;
    (c.[2] >> 3) .& 0x1F;
    ((c.[2] .& 0x7) << 2) .| ((c.[3] >> 6) .& 0x3);
    (c.[3] >> 2) .& 0xF;
    ((c.[3] .& 0x3) << 2) .| ((c.[4] >> 6) .& 0x3);
    (c.[4] >> 3) .& 0x7;
    c.[4] .& 0x7 ].

(** The fields of a sub-frame from its seven bytes [c 0 .. c 6]. *)
Definition unpack_Nc (c : Z -> Z) : Z := (c 0 >> 1) .& 0x7F.
Definition unpack_bc (c : Z -> Z) : Z := ((c 0 .& 0x1) << 1) .| ((c 1 >> 7) .& 0x1).
Definition unpack_Mc (c : Z -> Z) : Z := (c 1 >> 5) .& 0x3.
Definition unpack_xmaxc (c : Z -> Z) : Z := ((c 1 .& 0x1F) << 1) .| ((c 2 >> 7) .& 0x1).
Definition unpack_xmc (c : Z -> Z) : list Z :=
  [ (c 2 >> 4) .& 0x7;
    (c 2 >> 1) .& 0x7;
    ((c 2 .& 0x1) << 2) .| ((c 3 >> 6) .& 0x3);
    (c 3 >> 3) .& 0x7;
    c 3 .& 0x7;
    (c 4 >> 5) .& 0x7;
    (c 4 >> 2) .& 0x7;
    ((c 4 .& 0x3) << 1) .| ((c 5 >> 7) .& 0x1);
    (c 5 >> 4) .& 0x7;
    (c 5 >> 1) .& 0x7;
    ((c 5 .& 0x1) << 2) .| ((c 6 >> 6) .& 0x3);
    (c 6 >> 3) .& 0x7;
    c 6 .& 0x7 ].

Definition sub_bytes (c : list Z) (i : Z) : Z -> Z := fun k => c.[5 + 7 * i + k].

(** The assignments of [gsm_decode], lines 22 to 120; [None] is the early
    return -1 on a wrong magic nibble. *)
Definition unpack_frame (c : list Z) : option gsm_params :=
  if negb (((c.[0] >> 4) .& 0x0F) =? GSM_MAGIC) then None
  else
    let sub {A} (f : (Z -> Z) -> A) := map (fun i => f (sub_bytes c i)) [0; 1; 2; 3] in
    Some (mk_params (unpack_LARc c) (sub unpack_Nc) (sub unpack_bc) (sub unpack_Mc)
            (sub unpack_xmaxc) (concat (sub unpack_xmc))).

(** ** gsm_implode.c, gsm_explode.c

    The 76 parameters as one array of words: the macros [Nc], [bc], [Mc],
    [xmaxc] and [xmc] are offsets into it, redefined for each sub-frame. *)

Definition implode_params (source : list Z) : gsm_params :=
  let at_sub (off : Z) := map (fun i => source.[off + 17 * i]) [0; 1; 2; 3] in
  mk_params (firstn 8 source) (at_sub 8) (at_sub 9) (at_sub 10) (at_sub 11)
    (concat (map (fun i => firstn 13 (skipn (Z.to_nat (12 + 17 * i)) source)) [0; 1; 2; 3])).

Definition gsm_implode (source : list Z) : list Z := pack_frame (implode_params source).

Definition explode_params (p : gsm_params) : list Z :=
  LARc p ++ concat (map (fun i =>
    [(Nc p).[i]; (bc p).[i]; (Mc p).[i]; (xmaxc p).[i]] ++
    firstn 13 (skipn (Z.to_nat (13 * i)) (xmc p))) [0; 1; 2; 3]).

(** Returns the C result and the words written to [target]. *)
Definition gsm_explode (c : list Z) : Z * list Z :=
  match unpack_frame c with
  | None => (-1, [])
  | Some p => (0, explode_params p)
  end.


(** ** Bit fields as arithmetic *)

Lemma land_low x m k : m = 2 ^ k - 1 -> 0 <= k -> x .& m = x mod 2 ^ k.
Proof. intros -> ?; now apply land_mask. Qed.

(** Rewrite the shifts and masks of a packing expression into [*], [/] and
    [mod] by constants, then each [|] of disjoint fields into [+]. *)
Ltac field_arith :=
  rewrite ?shiftl_mul, ?shiftr_div by lia;
  repeat match goal with
    | |- context [?x .& ?m] =>
        let k := eval vm_compute in (Z.log2 (m + 1)) in
        rewrite (land_low x m k) by (reflexivity || lia)
    end;
  zpow_compute;
  repeat match goal with
    | |- context [?x .| ?y] =>
        lazymatch x with context [_ .| _] => fail | _ => idtac end;
        first [ rewrite (lor_add 1 x y) by (zpow_compute; zlia)
              | rewrite (lor_add 2 x y) by (zpow_compute; zlia)
              | rewrite (lor_add 3 x y) by (zpow_compute; zlia)
              | rewrite (lor_add 4 x y) by (zpow_compute; zlia)
              | rewrite (lor_add 5 x y) by (zpow_compute; zlia)
              | rewrite (lor_add 6 x y) by (zpow_compute; zlia)
              | rewrite (lor_add 7 x y) by (zpow_compute; zlia) ]
    end;
  unfold u8, zext; zpow_compute.

Section SubFrame.
Context (n b m x : Z) (q : Z -> Z).
Context (Hn : 0 <= n < 128) (Hb : 0 <= b < 4) (Hm : 0 <= m < 4) (Hx : 0 <= x < 64).
Context (Hq : forall k, 0 <= q k < 8).

Lemma pack_sub_value :
  pack_sub n b m x q =
    [ 2 * n + b / 2;
      128 * (b mod 2) + 32 * m + x / 2;
      128 * (x mod 2) + 16 * q 0 + 2 * q 1 + q 2 / 4;
      64 * (q 2 mod 4) + 8 * q 3 + q 4;
      32 * q 5 + 4 * q 6 + q 7 / 2;
      128 * (q 7 mod 2) + 16 * q 8 + 2 * q 9 + q 10 / 4;
      64 * (q 10 mod 4) + 8 * q 11 + q 12 ].
Proof.
  pose proof (Hq 0); pose proof (Hq 1); pose proof (Hq 2); pose proof (Hq 3);
  pose proof (Hq 4); pose proof (Hq 5); pose proof (Hq 6); pose proof (Hq 7);
  pose proof (Hq 8); pose proof (Hq 9); pose proof (Hq 10); pose proof (Hq 11);
  pose proof (Hq 12). clear Hq.
  unfold pack_sub. repeat f_equal.
  - field_arith; zlia.
  - field_arith; zlia.
  - field_arith; zlia.
  - field_arith; zlia.
  - field_arith; zlia.
  - field_arith; zlia.
  - field_arith; zlia.
Qed.
End SubFrame.

Ltac bounds_of H ks :=
  lazymatch ks with
  | nil => idtac
  | cons ?k ?ks' => pose proof (H k); bounds_of H ks'
  end.

Ltac list_eq :=
  repeat match goal with |- _ :: _ = _ :: _ => apply (f_equal2 (@cons Z)) | |- [] = [] => reflexivity end.

(** Evaluate the reads of an explicit list at explicit indices. *)
Ltac aget_compute :=
  repeat match goal with
    | |- context [aget (cons ?x ?l) ?i] =>
        let v := eval cbv [aget nth Z.to_nat Pos.to_nat Pos.iter_op Nat.add] in (aget (cons x l) i) in
        change (aget (cons x l) i) with v
    end.

Definition is_byte (x : Z) : Prop := 0 <= x < 256.

Section SubBytes.
Context (c : Z -> Z) (Hc : forall k, 0 <= c k < 256).

Lemma unpack_sub_value :
  unpack_Nc c = c 0 / 2 /\
  unpack_bc c = 2 * (c 0 mod 2) + c 1 / 128 /\
  unpack_Mc c = c 1 / 32 mod 4 /\
  unpack_xmaxc c = 2 * (c 1 mod 32) + c 2 / 128.
Proof.
  bounds_of Hc [0; 1; 2]. clear Hc.
  unfold unpack_Nc, unpack_bc, unpack_Mc, unpack_xmaxc.
  repeat split; field_arith; zlia.
Qed.

Lemma unpack_xmc_value :
  unpack_xmc c =
    [ c 2 / 16 mod 8; c 2 / 2 mod 8; 4 * (c 2 mod 2) + c 3 / 64; c 3 / 8 mod 8; c 3 mod 8;
      c 4 / 32; c 4 / 4 mod 8; 2 * (c 4 mod 4) + c 5 / 128; c 5 / 16 mod 8; c 5 / 2 mod 8;
      4 * (c 5 mod 2) + c 6 / 64; c 6 / 8 mod 8; c 6 mod 8 ].
Proof.
  bounds_of Hc [2; 3; 4; 5; 6]. clear Hc.
  unfold unpack_xmc. list_eq; field_arith; zlia.
Qed.
End SubBytes.

Lemma pack_LARc_value a0 a1 a2 a3 a4 a5 a6 a7 :
  Forall2 field LARc_widths [a0; a1; a2; a3; a4; a5; a6; a7] ->
  pack_LARc [a0; a1; a2; a3; a4; a5; a6; a7] =
    [ 208 + a0 / 4; 64 * (a0 mod 4) + a1; 8 * a2 + a3 / 4;
      64 * (a3 mod 4) + 4 * a4 + a5 / 4; 64 * (a5 mod 4) + 8 * a6 + a7 ].
Proof.
  intros H. unfold LARc_widths in H.
  repeat match goal with H : Forall2 field (_ :: _) _ |- _ => inversion H; clear H; subst end.
  unfold field in *. zpow_compute.
  unfold pack_LARc, GSM_MAGIC. aget_compute.
  change (0xD .& 0xF) with 13.
  list_eq; field_arith; zlia.
Qed.

Lemma unpack_LARc_value c : (forall k, 0 <= c.[k] < 256) ->
  unpack_LARc c =
    [ 4 * (c.[0] mod 16) + c.[1] / 64; c.[1] mod 64; c.[2] / 8; 4 * (c.[2] mod 8) + c.[3] / 64;
      c.[3] / 4 mod 16; 4 * (c.[3] mod 4) + c.[4] / 64; c.[4] / 8 mod 8; c.[4] mod 8 ].
Proof.
  intros Hc. bounds_of Hc [0; 1; 2; 3; 4]. clear Hc.
  unfold unpack_LARc. list_eq; field_arith; zlia.
Qed.

(** ** A frame holds the parameters packed in it *)

Definition sub_of (bytes : list Z) : Z -> Z := fun k => bytes.[k].

Lemma sub_roundtrip n b m x q :
  field 7 n -> field 2 b -> field 2 m -> field 6 x -> (forall k, field 3 (q k)) ->
  let c := sub_of (pack_sub n b m x q) in
  unpack_Nc c = n /\ unpack_bc c = b /\ unpack_Mc c = m /\ unpack_xmaxc c = x /\
  unpack_xmc c = map q [0; 1; 2; 3; 4; 5; 6; 7; 8; 9; 10; 11; 12].
Proof.
  intros Hn Hb Hm Hx Hq c. unfold field in *. zpow_compute.
  assert (Hc : forall k, 0 <= c k < 256).
  { intros k. apply (Forall_aget (fun y => 0 <= y < 256)); [lia |].
    unfold pack_sub. repeat (apply Forall_cons; [apply zext_range; lia |]). apply Forall_nil. }
  destruct (unpack_sub_value c Hc) as (-> & -> & -> & ->).
  rewrite (unpack_xmc_value c Hc).
  subst c. unfold sub_of. rewrite pack_sub_value by assumption. aget_compute.
  cbn [map]. bounds_of Hq [0; 1; 2; 3; 4; 5; 6; 7; 8; 9; 10; 11; 12]. clear Hq Hc.
  repeat split; list_eq; zlia.
Qed.

(** The bytes of sub-frame [i] are where the packer put them. *)
Lemma sub_bytes_pack p i k : In i [0; 1; 2; 3] -> In k [0; 1; 2; 3; 4; 5; 6] ->
  sub_bytes (pack_frame p) i k = sub_of (pack_sub_of p i) k.
Proof.
  intros Hi Hk. unfold sub_bytes, sub_of, pack_frame.
  cbn [In] in Hi, Hk.
  destruct Hi as [<-|[<-|[<-|[<-|[]]]]];
    destruct Hk as [<-|[<-|[<-|[<-|[<-|[<-|[<-|[]]]]]]]]; reflexivity.
Qed.

Lemma unpack_sub_ext c c' : (forall k, In k [0; 1; 2; 3; 4; 5; 6] -> c k = c' k) ->
  unpack_Nc c = unpack_Nc c' /\ unpack_bc c = unpack_bc c' /\ unpack_Mc c = unpack_Mc c' /\
  unpack_xmaxc c = unpack_xmaxc c' /\ unpack_xmc c = unpack_xmc c'.
Proof.
  intros H. unfold unpack_Nc, unpack_bc, unpack_Mc, unpack_xmaxc, unpack_xmc.
  rewrite (H 0), (H 1), (H 2), (H 3), (H 4), (H 5), (H 6) by (simpl; tauto). tauto.
Qed.

(** What the decoder reads of sub-frame [i]. *)
Lemma unpack_sub_pack p i : params_ok p -> In i [0; 1; 2; 3] ->
  let c := sub_bytes (pack_frame p) i in
  unpack_Nc c = (Nc p).[i] /\ unpack_bc c = (bc p).[i] /\ unpack_Mc c = (Mc p).[i] /\
  unpack_xmaxc c = (xmaxc p).[i] /\
  unpack_xmc c = map (fun n => (xmc p).[13 * i + n]) [0; 1; 2; 3; 4; 5; 6; 7; 8; 9; 10; 11; 12].
Proof.
  intros [_ H1 H2 H3 H4 H5] Hi c.
  destruct (unpack_sub_ext c (sub_of (pack_sub_of p i)) (fun k => sub_bytes_pack p i k Hi))
    as (-> & -> & -> & -> & ->).
  apply sub_roundtrip; try intros k;
    eapply fields_aget; eauto; lia.
Qed.

Lemma fields_list4 w l : fields 4 w l -> l = [l.[0]; l.[1]; l.[2]; l.[3]].
Proof. intros [HL _]. do 5 (destruct l as [|? l]; try discriminate HL). reflexivity. Qed.

Lemma list52 (l : list Z) : length l = 52%nat ->
  concat (map (fun i => map (fun n => l.[13 * i + n]) [0; 1; 2; 3; 4; 5; 6; 7; 8; 9; 10; 11; 12])
    [0; 1; 2; 3]) = l.
Proof. intros HL. do 53 (destruct l as [|? l]; try discriminate HL). reflexivity. Qed.

Lemma LARc_list l : Forall2 field LARc_widths l ->
  exists a0 a1 a2 a3 a4 a5 a6 a7, l = [a0; a1; a2; a3; a4; a5; a6; a7].
Proof.
  intros H; apply Forall2_length in H.
  do 9 (destruct l as [|? l]; try discriminate H). repeat eexists.
Qed.

Lemma LARc_roundtrip l : Forall2 field LARc_widths l ->
  (((pack_LARc l).[0] >> 4) .& 0x0F) = GSM_MAGIC /\ unpack_LARc (pack_LARc l) = l.
Proof.
  intros HF. destruct (LARc_list l HF) as (a0 & a1 & a2 & a3 & a4 & a5 & a6 & a7 & ->).
  rewrite unpack_LARc_value.
  2:{ intros k. apply (Forall_aget (fun y => 0 <= y < 256)); [lia |].
      unfold pack_LARc. repeat (apply Forall_cons; [apply zext_range; lia |]). apply Forall_nil. }
  rewrite pack_LARc_value by assumption. aget_compute.
  unfold LARc_widths in HF.
  repeat match goal with H : Forall2 field (_ :: _) _ |- _ => inversion H; clear H; subst end.
  unfold field in *. zpow_compute.
  split; [unfold GSM_MAGIC; field_arith; zlia | list_eq; zlia].
Qed.

Lemma magic_pack p : params_ok p ->
  (((pack_frame p).[0] >> 4) .& 0x0F) = GSM_MAGIC /\ unpack_LARc (pack_frame p) = LARc p.
Proof.
  intros [H _ _ _ _ _].
  assert (E : forall k, In k [0; 1; 2; 3; 4] -> (pack_frame p).[k] = (pack_LARc (LARc p)).[k]).
  { intros k Hk; cbn [In] in Hk. destruct Hk as [<-|[<-|[<-|[<-|[<-|[]]]]]]; reflexivity. }
  assert (EU : unpack_LARc (pack_frame p) = unpack_LARc (pack_LARc (LARc p))).
  { unfold unpack_LARc. rewrite (E 0), (E 1), (E 2), (E 3), (E 4) by (simpl; tauto). reflexivity. }
  rewrite EU, (E 0) by (simpl; tauto). now apply LARc_roundtrip.
Qed.

Lemma unpack_pack_frame p : params_ok p -> unpack_frame (pack_frame p) = Some p.
Proof.
  intros Hp. destruct (magic_pack p Hp) as [Hm HL].
  unfold unpack_frame. rewrite Hm, HL, Z.eqb_refl. cbn [negb map].
  destruct (unpack_sub_pack p 0 Hp ltac:(simpl; tauto)) as (-> & -> & -> & -> & ->).
  destruct (unpack_sub_pack p 1 Hp ltac:(simpl; tauto)) as (-> & -> & -> & -> & ->).
  destruct (unpack_sub_pack p 2 Hp ltac:(simpl; tauto)) as (-> & -> & -> & -> & ->).
  destruct (unpack_sub_pack p 3 Hp ltac:(simpl; tauto)) as (-> & -> & -> & -> & ->).
  destruct Hp as [_ H1 H2 H3 H4 [H5 _]].
  rewrite <- (fields_list4 7 (Nc p) H1), <- (fields_list4 2 (bc p) H2),
    <- (fields_list4 2 (Mc p) H3), <- (fields_list4 6 (xmaxc p) H4).
  pose proof (list52 (xmc p) H5) as E. cbn [map] in E |- *. rewrite E.
  now destruct p.
Qed.

(** ** The parameters of a frame determine it *)

Definition frame_ok (c : list Z) : Prop := length c = 33%nat /\ Forall is_byte c.

(** What [pack_frame] writes, whatever the parameters. *)
Lemma pack_frame_ok p : frame_ok (pack_frame p).
Proof.
  split; [reflexivity |]. unfold pack_frame, pack_LARc, pack_sub_of, pack_sub.
  repeat (apply Forall_app; split); repeat (apply List.Forall_cons; [apply (zext_range 8); lia |]); apply List.Forall_nil.
Qed.

Lemma frame_byte c k : frame_ok c -> is_byte c.[k].
Proof. intros [_ H]. apply Forall_aget; [unfold is_byte; lia | exact H]. Qed.

Lemma sub_repack c : (forall k, is_byte (c k)) ->
  pack_sub (unpack_Nc c) (unpack_bc c) (unpack_Mc c) (unpack_xmaxc c)
    (fun n => (unpack_xmc c).[n]) = map c [0; 1; 2; 3; 4; 5; 6].
Proof.
  unfold is_byte; intros Hc. destruct (unpack_sub_value c Hc) as (-> & -> & -> & ->).
  rewrite (unpack_xmc_value c Hc).
  assert (HQ : forall n, 0 <= aget [ c 2 / 16 mod 8; c 2 / 2 mod 8; 4 * (c 2 mod 2) + c 3 / 64; c 3 / 8 mod 8; c 3 mod 8;
      c 4 / 32; c 4 / 4 mod 8; 2 * (c 4 mod 4) + c 5 / 128; c 5 / 16 mod 8; c 5 / 2 mod 8;
      4 * (c 5 mod 2) + c 6 / 64; c 6 / 8 mod 8; c 6 mod 8 ] n < 8).
  { intros n. apply (Forall_aget (fun y => 0 <= y < 8)); [lia |].
    bounds_of Hc [2; 3; 4; 5; 6]. clear Hc.
    repeat (apply Forall_cons; [zlia |]). apply Forall_nil. }
  bounds_of Hc [0; 1; 2; 3; 4; 5; 6]. clear Hc.
  rewrite pack_sub_value by (assumption || zlia). clear HQ. aget_compute.
  cbn [map]. list_eq; zlia.
Qed.

Lemma LARc_repack c : (forall k, is_byte c.[k]) -> ((c.[0] >> 4) .& 0x0F) = GSM_MAGIC ->
  pack_LARc (unpack_LARc c) = [c.[0]; c.[1]; c.[2]; c.[3]; c.[4]].
Proof.
  unfold is_byte, GSM_MAGIC; intros Hc Hm.
  rewrite unpack_LARc_value by assumption.
  bounds_of Hc [0; 1; 2; 3; 4]. clear Hc. revert Hm. field_arith. intros Hm.
  rewrite pack_LARc_value.
  - list_eq; zlia.
  - unfold LARc_widths, field. repeat (apply Forall2_cons; [zpow_compute; zlia |]). apply Forall2_nil.
Qed.

Lemma pack_unpack_frame c p : frame_ok c -> unpack_frame c = Some p -> pack_frame p = c.
Proof.
  intros Hc. pose proof (fun k => frame_byte c k Hc) as Hb.
  unfold unpack_frame. destruct (Z.eqb_spec ((c.[0] >> 4) .& 0x0F) GSM_MAGIC) as [Hm|]; [| discriminate].
  cbn [negb]. intros E; injection E as <-.
  assert (HS : forall i, In i [0; 1; 2; 3] ->
    pack_sub_of (mk_params (unpack_LARc c)
      (map (fun i => unpack_Nc (sub_bytes c i)) [0; 1; 2; 3])
      (map (fun i => unpack_bc (sub_bytes c i)) [0; 1; 2; 3])
      (map (fun i => unpack_Mc (sub_bytes c i)) [0; 1; 2; 3])
      (map (fun i => unpack_xmaxc (sub_bytes c i)) [0; 1; 2; 3])
      (concat (map (fun i => unpack_xmc (sub_bytes c i)) [0; 1; 2; 3]))) i =
    map (sub_bytes c i) [0; 1; 2; 3; 4; 5; 6]).
  { intros i Hi. rewrite <- sub_repack by (intros k; apply Hb).
    cbn [In] in Hi. destruct Hi as [<-|[<-|[<-|[<-|[]]]]]; reflexivity. }
  unfold pack_frame. rewrite !HS by (simpl; tauto). cbn [LARc].
  rewrite LARc_repack by assumption.
  destruct Hc as [HL _]. do 34 (destruct c as [|? c]; try discriminate HL). reflexivity.
Qed.

Lemma Some_inj {A} (x y : A) : Some x = Some y -> x = y.
Proof. congruence. Qed.

Lemma unpack_params_ok c p : frame_ok c -> unpack_frame c = Some p -> params_ok p.
Proof.
  intros Hc. pose proof (fun k => frame_byte c k Hc) as Hb. clear Hc.
  unfold unpack_frame. destruct (negb _); [discriminate |]. intros E; apply Some_inj in E; subst p.
  assert (Hs : forall i k, 0 <= sub_bytes c i k < 256) by (intros; apply Hb).
  assert (HX : forall i, Forall (field 3) (unpack_xmc (sub_bytes c i)) /\
                         length (unpack_xmc (sub_bytes c i)) = 13%nat).
  { intros i. rewrite (unpack_xmc_value _ (Hs i)). specialize (Hs i).
    bounds_of Hs [2; 3; 4; 5; 6]. clear Hs Hb. split; [| reflexivity]. unfold field. zpow_compute.
    repeat (apply Forall_cons; [zlia |]). apply Forall_nil. }
  assert (HV : forall i, field 7 (unpack_Nc (sub_bytes c i)) /\ field 2 (unpack_bc (sub_bytes c i)) /\
     field 2 (unpack_Mc (sub_bytes c i)) /\ field 6 (unpack_xmaxc (sub_bytes c i))).
  { intros i. destruct (unpack_sub_value _ (Hs i)) as (-> & -> & -> & ->). specialize (Hs i).
    bounds_of Hs [0; 1; 2]. clear Hs Hb. unfold field. zpow_compute. repeat split; zlia. }
  split; cbn [LARc Nc bc Mc xmaxc xmc];
    try (split; [reflexivity |]; cbn [map]; repeat apply Forall_cons; try apply Forall_nil; apply HV).
  - rewrite (unpack_LARc_value c Hb). bounds_of Hb [0; 1; 2; 3; 4]. clear Hs Hb HX HV.
    unfold LARc_widths, field, is_byte in *. repeat (apply Forall2_cons; [zpow_compute; zlia |]). apply Forall2_nil.
  - split.
    + cbn [map concat]. rewrite !length_app. now rewrite !(proj2 (HX _)).
    + apply Forall_concat. cbn [map]. repeat (apply Forall_cons; [apply HX |]). apply Forall_nil.
Qed.

(** ** The exploded form *)

(** The widths of the 76 parameters, as the comment of gsm_implode.c lists them. *)
Definition frame_widths : list Z :=
  LARc_widths ++ concat (repeat ([7; 2; 2; 6] ++ repeat 3 13) 4).

Lemma Forall2_aget (P : Z -> Z -> Prop) l l' i : P 0 0 -> Forall2 P l l' -> P l.[i] l'.[i].
Proof.
  intros H0 H. unfold aget. generalize (Z.to_nat i) as n.
  induction H; intros [|n]; simpl; auto.
Qed.

Lemma field_0 w : 0 <= w -> field w 0.
Proof. intros; split; [lia | apply Z.pow_pos_nonneg; lia]. Qed.

Lemma Forall2_slice {A B} (P : A -> B -> Prop) m n l l' : Forall2 P l l' ->
  Forall2 P (firstn n (skipn m l)) (firstn n (skipn m l')).
Proof.
  intros H. revert m n; induction H as [|x y l l' Hxy H IH]; intros [|m] [|n]; cbn [firstn skipn];
    try apply Forall2_nil.
  - apply Forall2_cons; [assumption |]. apply (IH 0%nat n).
  - apply (IH m (S n)).
Qed.

Lemma Forall2_repeat w n l : Forall2 field (repeat w n) l -> fields n w l.
Proof.
  revert l; induction n as [|n IH]; intros l H; inversion H; subst; [now split |].
  destruct (IH l') as [HL HF]; [assumption |]. split; [simpl; lia | now apply Forall_cons].
Qed.

Lemma implode_params_ok source : Forall2 field frame_widths source ->
  params_ok (implode_params source).
Proof.
  intros H.
  assert (HS : forall i, field frame_widths.[i] source.[i])
    by (intros; apply Forall2_aget; [apply field_0; lia | exact H]).
  assert (HX : forall i, In i [0; 1; 2; 3] ->
    fields 13 3 (firstn 13 (skipn (Z.to_nat (12 + 17 * i)) source))).
  { intros i Hi. apply Forall2_repeat.
    replace (repeat 3 13) with (firstn 13 (skipn (Z.to_nat (12 + 17 * i)) frame_widths))
      by (cbn [In] in Hi; destruct Hi as [<-|[<-|[<-|[<-|[]]]]]; reflexivity).
    now apply Forall2_slice. }
  unfold implode_params. split; cbn [LARc Nc bc Mc xmaxc xmc];
    try (split; [reflexivity |]; cbn [map];
         repeat (apply Forall_cons; [exact (HS _) |]); apply Forall_nil).
  - exact (Forall2_slice field 0 8 _ _ H).
  - split.
    + assert (HL : forall i, In i [0; 1; 2; 3] ->
        length (firstn 13 (skipn (Z.to_nat (12 + 17 * i)) source)) = 13%nat) by (intros; now apply HX).
      cbn [map concat]. rewrite !length_app. now rewrite !HL by (simpl; tauto).
    + apply Forall_concat. cbn [map].
      repeat (apply Forall_cons; [apply HX; simpl; tauto |]). apply Forall_nil.
Qed.

Lemma explode_implode_params source : length source = 76%nat ->
  explode_params (implode_params source) = source.
Proof. intros HL. do 77 (destruct source as [|? source]; try discriminate HL). reflexivity. Qed.

Lemma implode_explode_params p : params_ok p -> implode_params (explode_params p) = p.
Proof.
  intros [H0 H1 H2 H3 H4 [H5 _]]. destruct p as [a n b m x q]; cbn [LARc Nc bc Mc xmaxc xmc] in *.
  destruct (LARc_list a H0) as (? & ? & ? & ? & ? & ? & ? & ? & ->).
  rewrite (fields_list4 _ n H1), (fields_list4 _ b H2), (fields_list4 _ m H3), (fields_list4 _ x H4).
  clear H1 H2 H3 H4.
  do 53 (destruct q as [|? q]; try discriminate H5). reflexivity.
Qed.

(** C5. Imploding 76 parameters that fit their fields and exploding the
    33-byte frame gives the parameters back, with result 0. *)
Theorem explode_implode source : Forall2 field frame_widths source ->
  gsm_explode (gsm_implode source) = (0, source).
Proof.
  intros H. unfold gsm_explode, gsm_implode.
  rewrite unpack_pack_frame by now apply implode_params_ok.
  rewrite explode_implode_params by (now rewrite <- (Forall2_length H)). reflexivity.
Qed.

Definition sample_source : list Z :=
  [40; 33; 20; 9; 7; 12; 3; 5] ++
  concat (repeat ([101; 2; 1; 47] ++ [0; 1; 2; 3; 4; 5; 6; 7; 6; 5; 4; 3; 2]) 4).

Lemma explode_implode_witness : gsm_explode (gsm_implode sample_source) = (0, sample_source).
Proof.
  apply (explode_implode sample_source).
  unfold frame_widths, LARc_widths, sample_source, field. cbn [app concat repeat].
  repeat (apply Forall2_cons; [lia |]). apply Forall2_nil.
Defined.

(** C40. [gsm_explode] returns -1 exactly on a frame whose high nibble is not
    the magic 0xD; any other frame of 33 bytes it takes apart without loss:
    imploding the words it wrote gives the same 33 bytes. *)
Theorem implode_explode c : frame_ok c ->
  (fst (gsm_explode c) = -1 <-> c.[0] / 16 <> GSM_MAGIC) /\
  (c.[0] / 16 = GSM_MAGIC -> fst (gsm_explode c) = 0 /\ gsm_implode (snd (gsm_explode c)) = c).
Proof.
  intros Hc. pose proof (frame_byte c 0 Hc) as H0. unfold is_byte in H0.
  assert (EM : (c.[0] >> 4) .& 0x0F = c.[0] / 16) by (field_arith; zlia).
  unfold gsm_explode. destruct (unpack_frame c) as [p|] eqn:E.
  - assert (Hp : c.[0] / 16 = GSM_MAGIC).
    { unfold unpack_frame in E. rewrite EM in E. destruct (Z.eqb_spec (c.[0] / 16) GSM_MAGIC); [assumption | discriminate]. }
    cbn [fst snd]. split; [split; [discriminate | intros []; assumption] |].
    intros _. split; [reflexivity |]. unfold gsm_implode.
    rewrite implode_explode_params by (eapply unpack_params_ok; eassumption).
    now apply pack_unpack_frame.
  - assert (Hp : c.[0] / 16 <> GSM_MAGIC).
    { unfold unpack_frame in E. rewrite EM in E. destruct (Z.eqb_spec (c.[0] / 16) GSM_MAGIC); [discriminate | assumption]. }
    cbn [fst]. tauto.
Qed.

Lemma implode_explode_witness :
  gsm_implode (snd (gsm_explode (0xDA :: repeat 0x5C 32))) = 0xDA :: repeat 0x5C 32.
Proof.
  apply (implode_explode (0xDA :: repeat 0x5C 32)); [| reflexivity].
  split; [reflexivity |]. cbn [repeat].
  repeat (apply Forall_cons; [unfold is_byte; lia |]). apply Forall_nil.
Defined.
