(* ===== verification/GsmPreprocess.v ===== *)
(** * GSM 06.10: preprocessing and postprocessing
    (src/mibench/telecomm/gsm/src: preprocess.c, decode.c)

    Downscaling, offset compensation and pre-emphasis of the 160 input samples
    (4.2.0 to 4.2.3), and the decoder's de-emphasis and upscaling (4.3.5..7). *)

From Stdlib Require Import ZArith Lia List Bool.
Import ListNotations.
From S2P Require Import Prelude GsmArith GsmState.

(** The locals [z1], [L_z2], [mp] of [Gsm_Preprocess]. *)
Record pre_vars := mk_pre { pz1 : Z; pL_z2 : Z; pmp : Z }.

(** One turn of the loop on the sample [s]; the result is the output sample. *)
Definition preprocess_step (s : Z) (w : pre_vars) : option (Z * pre_vars) :=
  (* 4.2.1 downscaling *)
  let SO := i16 (SASR s 3 << 2) in
  assert! -0x4000 <=? SO in
  assert! SO <=? 0x3FFC in
  (* 4.2.2 offset compensation *)
  let s1 := i16 (SO - pz1 w) in
  let z1 := SO in
  assert! negb (s1 =? MIN_WORD) in
  let L_s2 := i64 (s1 << 15) in
  let msp := i16 (SASR (pL_z2 w) 15) in
  let lsp := i16 (pL_z2 w - i64 (msp << 15)) in
  let L_s2 := L_s2 + GSM_MULT_R lsp 32735 in
  let L_temp := msp * 32735 in
  let L_z2 := GSM_L_ADD L_temp L_s2 in
  let L_temp := GSM_L_ADD L_z2 16384 in
  (* 4.2.3 preemphasis *)
  let msp := i16 (GSM_MULT_R (pmp w) (-28180)) in
  let mp := i16 (SASR L_temp 15) in
  Some (i16 (GSM_ADD mp msp), mk_pre z1 L_z2 mp).

(** [while (k--) { ... *s++ ... *so++ = ...; }] *)
Fixpoint preprocess_loop (k : nat) (s : list Z) (w : pre_vars) : option (list Z * pre_vars) :=
  match k with
  | O => Some ([], w)
  | S k' =>
      let* (x, w) := preprocess_step (hd 0 s) w in
      let* (so, w) := preprocess_loop k' (tl s) w in
      Some (x :: so, w)
  end.

Definition Gsm_Preprocess (S : gsm_state) (s : list Z) : option (list Z * gsm_state) :=
  let* (so, w) := preprocess_loop 160 s (mk_pre (z1 S) (L_z2 S) (i16 (mp S))) in
  Some (so, set_pre S (pz1 w) (pL_z2 w) (pmp w)).

(** One turn of the loop of [Postprocessing] on [*s] and [msr]. *)
Definition post_step (s msr : Z) : Z * Z :=
  let tmp := i16 (GSM_MULT_R msr 28180) in
  let msr := i16 (GSM_ADD s tmp) in
  (i16 (GSM_ADD msr msr .& 0xFFF8), msr).

Fixpoint post_loop (k : nat) (s : list Z) (msr : Z) : list Z * Z :=
  match k with
  | O => (s, msr)
  | S k' =>
      let '(x, msr) := post_step (hd 0 s) msr in
      let '(s', msr) := post_loop k' (tl s) msr in
      (x :: s', msr)
  end.

Definition Postprocessing (S : gsm_state) (s : list Z) : list Z * gsm_state :=
  let '(s, msr) := post_loop 160 s (msr S) in (s, set_msr S msr).

(** ** The offset-compensation filter

    The high-pass filter keeps [L_z2] within [2^30]: the difference
    [z1 * 2^15 - L_z2] is a weighted mean of past inputs plus rounding, so it
    stays in the range of the inputs but for the accumulated rounding error,
    at most 500 units of the last place. *)
Record pre_inv (w : pre_vars) : Prop := {
  pre_z1 : -16384 <= pz1 w <= 16380;
  pre_z2 : - 2 ^ 29 - 500 <= pz1 w * 32768 - pL_z2 w <= 2 ^ 29 - 131072 + 500;
  pre_mp : is_i16 (pmp w)
}.

(** The same step on exact integers: no saturation and no narrowing. *)
Definition preprocess_exact (s : Z) (w : pre_vars) : Z * pre_vars :=
  let SO := s / 8 * 4 in
  let L_z2 := (SO - pz1 w) * 32768 + (pL_z2 w * 32735 + 16384) / 32768 in
  let mp := (L_z2 + 16384) / 32768 in
  (saturate (mp + (pmp w * -28180 + 16384) / 32768), mk_pre SO L_z2 mp).

(** The 31 by 16 bit multiplication, done in two halves. *)
Lemma split_multiplication z : 
  (z / 32768) * 32735 + ((z - z / 32768 * 32768) * 32735 + 16384) / 32768
  = (z * 32735 + 16384) / 32768.
Proof. zlia. Qed.

Lemma preprocess_exact_inv s w : is_i16 s -> pre_inv w -> pre_inv (snd (preprocess_exact s w)).
Proof.
  intros Hs [H1 H2 H3]. unfold preprocess_exact, is_i16 in *. cbn [snd].
  assert (HS : -16384 <= s / 8 * 4 <= 16380) by zlia.
  set (SO := s / 8 * 4) in *. clearbody SO. clear Hs s.
  split; cbn [pz1 pL_z2 pmp]; [lia | |]; unfold is_i16; zlia.
Qed.

Lemma preprocess_step_value s w : is_i16 s -> pre_inv w ->
  preprocess_step s w = Some (preprocess_exact s w).
Proof.
  intros Hs Hw. pose proof (preprocess_exact_inv s w Hs Hw) as [I1 I2 I3].
  destruct Hw as [H1 H2 H3]. unfold preprocess_step, preprocess_exact, is_i16 in *.
  cbn [snd pz1 pL_z2 pmp] in I1, I2, I3.
  unfold SASR. rewrite !shiftr_div, !shiftl_mul by lia. zpow_compute.
  rewrite (i16_id (s / 8 * 4)) by (unfold is_i16; zlia).
  set (SO := s / 8 * 4) in *. clearbody SO.
  assert (HS : -16384 <= SO <= 16380) by assumption. clear Hs s.
  replace (-16384 <=? SO) with true by (symmetry; apply Z.leb_le; lia).
  replace (SO <=? 16380) with true by (symmetry; apply Z.leb_le; lia).
  rewrite (i16_id (SO - pz1 w)) by (unfold is_i16; lia).
  replace (SO - pz1 w =? MIN_WORD) with false
    by (symmetry; apply Z.eqb_neq; unfold MIN_WORD; lia). cbn [negb].
  rewrite (i64_id ((SO - pz1 w) * 32768)) by (unfold is_i64; lia).
  set (z := pL_z2 w) in *. clearbody z. set (x := pz1 w) in *. clearbody x.
  assert (Hz : - 2 ^ 30 <= z < 2 ^ 30) by lia.
  rewrite (i16_id (z / 32768)) by (unfold is_i16; zlia).
  rewrite (i64_id (z / 32768 * 32768)) by (unfold is_i64; zlia).
  rewrite (i16_id (z - z / 32768 * 32768)) by (unfold is_i16; zlia).
  rewrite !GSM_MULT_R_div.
  rewrite (GSM_L_ADD_spec (z / 32768 * 32735)) by (unfold is_i32; zlia).
  replace (z / 32768 * 32735 + ((SO - x) * 32768 + ((z - z / 32768 * 32768) * 32735 + 16384) / 32768))
    with ((SO - x) * 32768 + (z * 32735 + 16384) / 32768) by (rewrite <- split_multiplication; lia).
  set (L := (SO - x) * 32768 + (z * 32735 + 16384) / 32768) in *. clearbody L.
  assert (HL : - 2 ^ 30 <= L < 2 ^ 30) by lia.
  replace (saturate32 L) with L by (gsm_unfold; zcases; lia).
  rewrite (GSM_L_ADD_spec L) by (unfold is_i32; lia).
  replace (saturate32 (L + 16384)) with (L + 16384) by (gsm_unfold; zcases; lia).
  rewrite (i16_id ((L + 16384) / 32768)) by (unfold is_i16; zlia).
  rewrite (i16_id ((pmp w * -28180 + 16384) / 32768)) by (unfold is_i16; zlia).
  rewrite GSM_ADD_spec by zlia. rewrite i16_id by apply saturate_range.
  reflexivity.
Qed.

(** The 160 samples, exactly. *)
Fixpoint preprocess_spec (s : list Z) (w : pre_vars) : list Z * pre_vars :=
  match s with
  | [] => ([], w)
  | x :: s' =>
      let '(y, w) := preprocess_exact x w in
      let '(so, w) := preprocess_spec s' w in (y :: so, w)
  end.

Lemma preprocess_loop_value k s w : length s = k -> Forall is_i16 s -> pre_inv w ->
  preprocess_loop k s w = Some (preprocess_spec s w).
Proof.
  revert s w; induction k as [|k IH]; intros [|x s] w HL HF Hw; try discriminate; [reflexivity |].
  apply Forall_cons_iff in HF as [Hx HF]. simpl in HL.
  cbn [preprocess_loop hd tl preprocess_spec]. rewrite preprocess_step_value by assumption.
  pose proof (preprocess_exact_inv x w Hx Hw) as Hw'.
  destruct (preprocess_exact x w) as [y w']. cbn [bind snd] in *.
  rewrite IH by (auto; lia). cbn [bind]. now destruct (preprocess_spec s w').
Qed.

Lemma preprocess_spec_ok s w : Forall is_i16 s -> pre_inv w ->
  let '(so, w') := preprocess_spec s w in words (length s) so /\ pre_inv w'.
Proof.
  intros HF; revert w; induction HF as [|x s Hx HF IH]; intros w Hw.
  { split; [split; [reflexivity | constructor] | assumption]. }
  cbn [preprocess_spec]. pose proof (preprocess_exact_inv x w Hx Hw) as Hw'.
  destruct (preprocess_exact x w) as [y w'] eqn:E. cbn [snd] in Hw'.
  specialize (IH w' Hw'). destruct (preprocess_spec s w') as [so w''].
  destruct IH as [[HL HW] Hinv]. split; [| assumption]. split; [simpl; lia |].
  apply Forall_cons; [| assumption]. unfold preprocess_exact in E. injection E as <- _.
  apply saturate_range.
Qed.

Definition pre_of (S : gsm_state) : pre_vars := mk_pre (z1 S) (L_z2 S) (mp S).

Lemma Gsm_Preprocess_value S s : words 160 s -> pre_inv (pre_of S) ->
  Gsm_Preprocess S s =
    let '(so, w) := preprocess_spec s (pre_of S) in
    Some (so, set_pre S (pz1 w) (pL_z2 w) (pmp w)).
Proof.
  intros [HL HF] Hw. unfold Gsm_Preprocess. rewrite i16_id by apply Hw.
  rewrite preprocess_loop_value by assumption. cbn [bind]. unfold pre_of. now destruct preprocess_spec.
Qed.

(** C39. The preprocessing of a frame never trips an assertion and never
    overflows: from any state its invariant allows (the created one, or one
    left by an earlier frame), each output sample is the pre-emphasised output
    of the offset-compensation filter computed on exact integers, the only
    saturation being that of the pre-emphasis sum; the invariant is kept. *)
Theorem Gsm_Preprocess_exact S s : words 160 s -> pre_inv (pre_of S) ->
  exists so S', Gsm_Preprocess S s = Some (so, S') /\
    (so, pre_of S') = preprocess_spec s (pre_of S) /\ words 160 so /\ pre_inv (pre_of S').
Proof.
  intros Hs Hw. rewrite Gsm_Preprocess_value by assumption.
  pose proof (preprocess_spec_ok s (pre_of S) (proj2 Hs) Hw) as H.
  destruct (preprocess_spec s (pre_of S)) as [so w]. destruct H as [H1 H2].
  rewrite (proj1 Hs) in H1.
  exists so, (set_pre S (pz1 w) (pL_z2 w) (pmp w)).
  replace (pre_of (set_pre S (pz1 w) (pL_z2 w) (pmp w))) with w by (now destruct w).
  auto.
Qed.

(** A square wave of full amplitude, the input that drives the filter furthest. *)
Definition loud : list Z := concat (repeat (repeat 32767 20 ++ repeat (-32768) 20) 4).

Lemma loud_words : words 160 loud.
Proof. apply wordsb_ok; reflexivity. Qed.

Lemma pre_inv_0 : pre_inv (mk_pre 0 0 0).
Proof. split; cbn [pz1 pL_z2 pmp]; unfold is_i16; lia. Qed.

Lemma Gsm_Preprocess_exact_witness :
  exists S so S', gsm_create true = Some S /\ Gsm_Preprocess S loud = Some (so, S') /\
    pre_inv (pre_of S').
Proof.
  eexists; destruct (Gsm_Preprocess_exact
    (mk_gsm (repeat 0 280) 0 0 0 (repeat 0 8) [repeat 0 8; repeat 0 8] 0 40 (repeat 0 9) 0 0 0)
    loud loud_words pre_inv_0) as (so & S' & E & _ & _ & H).
  exists so, S'. split; [reflexivity |]. split; [exact E | exact H].
Defined.

(** ** Postprocessing *)

Lemma post_step_value s m : is_i16 s -> is_i16 m ->
  post_step s m =
    (let m' := saturate (s + (m * 28180 + 16384) / 32768) in
     (saturate (2 * m') / 8 * 8, m')).
Proof.
  unfold is_i16; intros Hs Hm. unfold post_step. rewrite GSM_MULT_R_div.
  rewrite (i16_id ((m * 28180 + 16384) / 32768)) by (unfold is_i16; zlia).
  rewrite (GSM_ADD_spec s) by zlia. rewrite (i16_id (saturate _)) by apply saturate_range.
  set (m' := saturate _). pose proof (saturate_range (s + (m * 28180 + 16384) / 32768)) as Hm'.
  fold m' in Hm'. unfold is_i16 in Hm'. clearbody m'.
  rewrite GSM_ADD_spec by lia. replace (m' + m') with (2 * m') by lia.
  pose proof (saturate_range (2 * m')) as Hx. unfold is_i16 in Hx.
  set (x := saturate (2 * m')) in *. clearbody x. f_equal.
  rewrite <- (i16_id (x / 8 * 8)) by (unfold is_i16; zlia).
  unfold i16. rewrite <- (sext_zext 16 (x .& 0xFFF8)), <- (sext_zext 16 (x / 8 * 8)) by lia.
  f_equal. rewrite zext_land by lia. change (zext 16 0xFFF8) with (0 + 2 ^ 3 * 8191).
  unfold zext. rewrite (Z.div_mod (x mod 2 ^ 16) 8) by lia.
  replace (8 * (x mod 2 ^ 16 / 8) + (x mod 2 ^ 16) mod 8)
    with ((x mod 2 ^ 16) mod 8 + 2 ^ 3 * (x mod 2 ^ 16 / 8)) by lia.
  rewrite land_split by zlia. rewrite Z.land_0_r. change 8191 with (2 ^ 13 - 1).
  rewrite land_mask by lia. zlia.
Qed.

Lemma post_loop_ok k s m : words k s -> is_i16 m ->
  let '(s', m') := post_loop k s m in
  words k s' /\ is_i16 m' /\ Forall (fun x => x mod 8 = 0) s'.
Proof.
  revert s m; induction k as [|k IH]; intros s m [HL HF] Hm.
  { destruct s; [| discriminate]. split; [split; [reflexivity | constructor] | split; [assumption | constructor]]. }
  destruct s as [|x s]; [discriminate |]. apply Forall_cons_iff in HF as [Hx HF].
  cbn [post_loop hd tl]. rewrite post_step_value by assumption. cbn zeta.
  set (m1 := saturate (x + _)). assert (Hm1 : is_i16 m1) by apply saturate_range. clearbody m1.
  specialize (IH s m1 (conj (eq_add_S _ _ HL) HF) Hm1).
  destruct (post_loop k s m1) as [s' m'] eqn:E. destruct IH as ([HL' HF'] & H2 & H3).
  pose proof (saturate_range (2 * m1)) as Hr. unfold is_i16 in Hr.
  rewrite E. split; [split; [simpl; lia |] | split; [assumption |]]; (apply Forall_cons; [| assumption]).
  - unfold is_i16; zlia.
  - apply Z.mod_mul; lia.
Qed.

Lemma Postprocessing_ok S s : words 160 s -> is_i16 (msr S) ->
  exists s' m, Postprocessing S s = (s', set_msr S m) /\ words 160 s' /\ is_i16 m /\
    Forall (fun x => x mod 8 = 0) s'.
Proof.
  intros Hs Hm. unfold Postprocessing. pose proof (post_loop_ok 160 s (msr S) Hs Hm) as H.
  destruct (post_loop 160 s (msr S)) as [s' m]. exists s', m. split; [reflexivity | exact H].
Qed.
