(* ===== verification/GsmLpc.v ===== *)
(** * GSM 06.10: LPC analysis (src/mibench/telecomm/gsm/src/lpc.c)

    Autocorrelation of the scaled frame, the Schur recursion for the eight
    reflection coefficients, their log-area ratios and the quantised codes
    [LARc] (4.2.4 to 4.2.7).  The integer version: USE_FLOAT_MUL and FAST are
    off.  The theorems: no assertion of the analysis can fail, nothing
    overflows its type (the "? overflow ?" of the source included), and every
    code fits the field the frame gives it. *)

From Stdlib Require Import ZArith Lia List Bool.
Import ListNotations.
From S2P Require Import Prelude GsmArith GsmState.

(** ** Autocorrelation *)

(** The search for the maximum magnitude, shared with the LTP and the RPE. *)
Definition max_abs (n : Z) (s : list Z) : Z :=
  for_range 0 n (fun k smax => let temp := GSM_ABS s.[k] in if smax <? temp then temp else smax) 0.

Definition acf_scalauto (smax : Z) : option Z :=
  if smax =? 0 then Some 0
  else
    assert! 0 <? smax in
    let* n := gsm_norm (smax << 16) in Some (i16 (4 - n)).

(** [SCALE(n)]: the switch has the cases 1 to 4. *)
Definition acf_scale (scalauto : Z) (s : list Z) : list Z :=
  if (0 <? scalauto) && (scalauto <=? 4)
  then fill 160 0 (fun k s => i16 (GSM_MULT_R s.[k] (16384 >> (scalauto - 1)))) s
  else s.

(** [STEP(0); ...; STEP(kmax)] at sample [i]: [STEP(k)] is
    [L_ACF[k] += sl * sp[-k]] with [sl = s[i]] and [sp[-k] = s[i - k]].  A sum
    has at most 160 products of two words, far below the range of a 64-bit
    [longword]. *)
Definition acf_STEPS (s : list Z) (i kmax : Z) (L_ACF : list Z) : list Z :=
  fill (kmax + 1) 0 (fun k L_ACF => L_ACF.[k] + s.[i] * s.[i - k]) L_ACF.

Definition acf_compute (s : list Z) : list Z :=
  let L_ACF := repeat 0 9 in
  let L_ACF := for_range 0 8 (fun i => acf_STEPS s i i) L_ACF in
  let L_ACF := for_range 8 160 (fun i => acf_STEPS s i 8) L_ACF in
  map (fun x => i64 (x << 1)) L_ACF.

(** The frame is scaled in place and scaled back at the end. *)
Definition Autocorrelation (s : list Z) : option (list Z * list Z) :=
  let smax := max_abs 160 s in
  let* scalauto := acf_scalauto smax in
  let s := acf_scale scalauto s in
  let L_ACF := acf_compute s in
  if 0 <? scalauto then
    assert! scalauto <=? 4 in
    Some (fill 160 0 (fun k s => i16 (s.[k] << scalauto)) s, L_ACF)
  else Some (s, L_ACF).

(** ** Reflection coefficients *)

(** The inner loop of the Schur recursion at step [n], on [(P, K)]. *)
Definition schur_step (n r : Z) (PK : list Z * list Z) : list Z * list Z :=
  let '(P, K) := PK in
  let temp := i16 (GSM_MULT_R P.[1] r) in
  let P := aset P 0 (GSM_ADD P.[0] temp) in
  for_range 1 (8 - n + 1) (fun m PK =>
    let '(P, K) := PK in
    let temp := i16 (GSM_MULT_R K.[m] r) in
    let P := aset P m (GSM_ADD P.[m + 1] temp) in
    let temp := i16 (GSM_MULT_R P.[m + 1] r) in
    (P, aset K m (GSM_ADD K.[m] temp))) (P, K).

(** [for (n = 1; n <= 8; n++, r++)]; [left] is [9 - n]. *)
Fixpoint reflection_loop (left : nat) (PK : list Z * list Z) : option (list Z) :=
  match left with
  | O => Some []
  | S left' =>
      let '(P, K) := PK in
      let n := 9 - Z.of_nat left in
      let temp := GSM_ABS P.[1] in
      if P.[0] <? temp then Some (repeat 0 left)
      else
        let* r := gsm_div temp P.[0] in
        assert! 0 <=? r in
        let r := if 0 <? P.[1] then i16 (- r) else r in
        assert! negb (r =? MIN_WORD) in
        if n =? 8 then Some [r]
        else
          let* rs := reflection_loop left' (schur_step n r (P, K)) in
          Some (r :: rs)
  end.

(** [K[0]] and [K[8]] are uninitialised in the source and never read. *)
Definition Reflection_coefficients (L_ACF : list Z) : option (list Z) :=
  if L_ACF.[0] =? 0 then Some (repeat 0 8)
  else
    let* temp := gsm_norm L_ACF.[0] in
    assert! (0 <=? temp) && (temp <? 32) in
    let ACF := map (fun x => i16 (SASR (i64 (x << temp)) 16)) L_ACF in
    reflection_loop 8 (ACF, ACF).

(** ** Log-area ratios *)

Definition log_area_ratio (r : Z) : option Z :=
  let temp := GSM_ABS r in
  assert! 0 <=? temp in
  let* temp :=
    if temp <? 22118 then Some (temp >> 1)
    else if temp <? 31130 then (assert! 11059 <=? temp in Some (temp - 11059))
    else (assert! 26112 <=? temp in Some (i16 (i16 (temp - 26112) << 2))) in
  let r := if r <? 0 then i16 (- temp) else temp in
  assert! negb (r =? MIN_WORD) in Some r.

Definition Transformation_to_Log_Area_Ratios (r : list Z) : option (list Z) :=
  map_opt log_area_ratio r.

(** ** Quantisation *)

Definition quantize_STEP (A B MAC MIC LAR : Z) : Z :=
  let temp := i16 (GSM_MULT A LAR) in
  let temp := GSM_ADD temp B in
  let temp := GSM_ADD temp 256 in
  let temp := SASR temp 9 in
  if MAC <? temp then MAC - MIC else if temp <? MIC then 0 else temp - MIC.

Definition Quantization_and_coding (LAR : list Z) : list Z :=
  [ quantize_STEP 20480 0 31 (-32) LAR.[0];
    quantize_STEP 20480 0 31 (-32) LAR.[1];
    quantize_STEP 20480 2048 15 (-16) LAR.[2];
    quantize_STEP 20480 (-2560) 15 (-16) LAR.[3];
    quantize_STEP 13964 94 7 (-8) LAR.[4];
    quantize_STEP 15360 (-1792) 7 (-8) LAR.[5];
    quantize_STEP 8534 (-341) 3 (-4) LAR.[6];
    quantize_STEP 9036 (-1144) 3 (-4) LAR.[7] ].

Definition Gsm_LPC_Analysis (s : list Z) : option (list Z * list Z) :=
  let* (s, L_ACF) := Autocorrelation s in
  let* r := Reflection_coefficients L_ACF in
  let* LAR := Transformation_to_Log_Area_Ratios r in
  Some (s, Quantization_and_coding LAR).

(** ** The largest magnitude *)

Definition magnitudes_below (n m : Z) (s : list Z) : Prop :=
  forall k, 0 <= k < n -> GSM_ABS s.[k] <= m.

Lemma GSM_ABS_range a : is_i16 a -> 0 <= GSM_ABS a <= 32767.
Proof. intros; rewrite GSM_ABS_spec by assumption; gsm_unfold; lia. Qed.

Lemma max_abs_spec n s : 0 <= n -> Forall is_i16 s ->
  0 <= max_abs n s <= 32767 /\ magnitudes_below n (max_abs n s) s.
Proof.
  intros Hn HF. unfold max_abs, magnitudes_below.
  apply (for_range_ind (fun i m => 0 <= m <= 32767 /\ forall k, 0 <= k < i -> GSM_ABS s.[k] <= m)).
  - lia.
  - split; intros; lia.
  - intros i m Hi [Hm Hk].
    assert (Hs : is_i16 s.[i]) by (apply Forall_aget; [apply is_i16_0 | assumption]).
    pose proof (GSM_ABS_range _ Hs). cbv zeta.
    destruct (Z.ltb_spec m (GSM_ABS s.[i])); (split; [lia |]); intros k Hk';
      (destruct (Z.eqb_spec k i) as [->|]; [lia | specialize (Hk k); lia]).
Qed.

(** A magnitude bound is a bound on both sides, [MIN_WORD] being its own case. *)
Lemma GSM_ABS_le a m : is_i16 a -> GSM_ABS a <= m -> - m - 1 <= a <= m /\ (a < - m -> m = 32767).
Proof. intros Ha. rewrite GSM_ABS_spec by assumption. gsm_unfold; lia. Qed.

(** ** Scaling *)

(** The scale brings the frame below [2^11]. *)
Lemma acf_scalauto_spec m : 0 <= m <= 32767 ->
  exists sc, acf_scalauto m = Some sc /\ -10 <= sc <= 4 /\
    (0 < sc -> 2 ^ (10 + sc) <= m < 2 ^ (11 + sc)) /\ (sc <= 0 -> m < 2 ^ 11).
Proof.
  intros Hm. unfold acf_scalauto. destruct (Z.eqb_spec m 0) as [->|Hnz].
  { exists 0. repeat split; lia. }
  replace (0 <? m) with true by (symmetry; apply Z.ltb_lt; lia).
  rewrite shiftl_mul by lia.
  destruct (gsm_norm_pos (m * 2 ^ 16) ltac:(lia)) as (n & -> & Hn & Hb). cbn [bind].
  exists (4 - n). rewrite i16_id by (unfold is_i16; lia). split; [reflexivity |].
  assert (Hn14 : n <= 14).
  { destruct (Z.leb_spec n 14); [assumption |].
    assert (2 ^ 15 <= 2 ^ n) by (apply Z.pow_le_mono_r; lia). nia. }
  assert (E : n = 0 \/ n = 1 \/ n = 2 \/ n = 3 \/ 4 <= n) by lia.
  destruct E as [->|[->|[->|[->|Hn4]]]]; zpow_compute; try (repeat split; lia).
  assert (2 ^ 4 <= 2 ^ n) by (apply Z.pow_le_mono_r; lia). repeat split; try lia; nia.
Qed.

(** [GSM_MULT_R( s, 16384 >> (n-1) )] is a rounded shift. *)
Lemma scale_value x sc : is_i16 x -> 0 < sc <= 4 ->
  i16 (GSM_MULT_R x (16384 >> (sc - 1))) = (x + 2 ^ (sc - 1)) / 2 ^ sc.
Proof.
  intros Hx Hsc. rewrite GSM_MULT_R_div.
  assert (E : sc = 1 \/ sc = 2 \/ sc = 3 \/ sc = 4) by lia. unfold is_i16 in *.
  destruct E as [->|[->|[->| ->]]];
    match goal with |- context [16384 >> ?e] => let v := eval vm_compute in (16384 >> e) in change (16384 >> e) with v end;
    zpow_compute; rewrite i16_id by (unfold is_i16; zlia); zlia.
Qed.

(** The frame after scaling, as a function of the frame and the scale. *)
Definition scaled (sc x : Z) : Z := if 0 <? sc then (x + 2 ^ (sc - 1)) / 2 ^ sc else x.

Lemma acf_scale_value sc s : words 160 s -> sc <= 4 -> acf_scale sc s = map (scaled sc) s.
Proof.
  intros [HL HF] Hsc. unfold acf_scale, scaled.
  destruct (Z.ltb_spec 0 sc); cbn [andb]; [| now rewrite map_id].
  replace (sc <=? 4) with true by (symmetry; apply Z.leb_le; lia).
  destruct (fill_spec 160 0 (fun k s => i16 (GSM_MULT_R s.[k] (16384 >> (sc - 1)))) s) as [[HL' _] Hv];
    [lia | lia | lia | intros k a Hk [_ Ha]; now rewrite Ha by lia |].
  apply aget_ext; [rewrite length_map; lia |]. intros i Hi. rewrite HL', HL in Hi.
  specialize (Hv i ltac:(lia)). replace (0 + i) with i in Hv by lia. rewrite Hv.
  rewrite scale_value by (lia || apply (words_aget 160 s i (conj HL HF))).
  now rewrite aget_map by lia.
Qed.

(** The scaled frame has 12-bit samples. *)
Lemma scaled_bound s sc : words 160 s -> acf_scalauto (max_abs 160 s) = Some sc ->
  forall i, 0 <= i < 160 -> Z.abs (map (scaled sc) s).[i] <= 2048.
Proof.
  intros Hs E i Hi.
  destruct (max_abs_spec 160 s ltac:(lia) (proj2 Hs)) as [Hm Hb].
  destruct (acf_scalauto_spec _ Hm) as (sc' & E' & Hsc & H1 & H2).
  rewrite E in E'; injection E' as <-.
  set (m := max_abs 160 s) in *. clearbody m.
  rewrite aget_map by (rewrite (proj1 Hs); lia).
  pose proof (words_aget 160 s i Hs) as Hw. specialize (Hb i ltac:(lia)).
  destruct (GSM_ABS_le _ _ Hw Hb) as [Hlo Hmin]. unfold scaled, is_i16 in *.
  destruct (Z.ltb_spec 0 sc).
  - specialize (H1 ltac:(lia)).
    assert (Es : sc = 1 \/ sc = 2 \/ sc = 3 \/ sc = 4) by lia.
    destruct Es as [->|[->|[->| ->]]]; zpow_compute; zlia.
  - specialize (H2 ltac:(lia)). zpow_compute. lia.
Qed.

(** ** The sums *)

(** The autocorrelation of a frame at lag [k]. *)
Definition acf (s : list Z) (k : Z) : Z := sum_range k 160 (fun i => s.[i] * s.[i - k]).

(** The partial sums after the samples below [i]. *)
Definition acf_inv (s : list Z) (i : Z) (L : list Z) : Prop :=
  length L = 9%nat /\ forall k, 0 <= k <= 8 -> L.[k] = sum_range k (Z.max k i) (fun i => s.[i] * s.[i - k]).

Lemma acf_STEPS_inv s i kmax L : 0 <= i -> kmax = Z.min i 8 -> acf_inv s i L ->
  acf_inv s (i + 1) (acf_STEPS s i kmax L).
Proof.
  intros Hi -> [HL Hk]. unfold acf_STEPS.
  destruct (fill_spec (Z.min i 8 + 1) 0 (fun k L => L.[k] + s.[i] * s.[i - k]) L) as [[HL' Ha] Hv];
    [lia | lia | lia | intros k a Hk' [_ Ha]; now rewrite Ha by lia |].
  split; [lia |]. intros k Hk'. destruct (Z.leb_spec k i).
  - specialize (Hv k ltac:(lia)). replace (0 + k) with k in Hv by lia. rewrite Hv, Hk by lia.
    replace (Z.max k (i + 1)) with (i + 1) by lia. replace (Z.max k i) with i by lia.
    now rewrite sum_range_snoc by lia.
  - rewrite Ha, Hk by lia. now replace (Z.max k (i + 1)) with (Z.max k i) by lia.
Qed.

Lemma acf_inv_0 s : acf_inv s 0 (repeat 0 9).
Proof.
  split; [reflexivity |]. intros k Hk. rewrite sum_range_nil by lia.
  assert (E : k = 0 \/ k = 1 \/ k = 2 \/ k = 3 \/ k = 4 \/ k = 5 \/ k = 6 \/ k = 7 \/ k = 8) by lia.
  destruct E as [->|[->|[->|[->|[->|[->|[->|[->| ->]]]]]]]]; reflexivity.
Qed.

Lemma acf_loops s :
  let L := for_range 8 160 (fun i => acf_STEPS s i 8)
             (for_range 0 8 (fun i => acf_STEPS s i i) (repeat 0 9)) in
  length L = 9%nat /\ forall k, 0 <= k <= 8 -> L.[k] = acf s k.
Proof.
  intros L.
  assert (H8 : acf_inv s 8 (for_range 0 8 (fun i => acf_STEPS s i i) (repeat 0 9))).
  { apply (for_range_ind (acf_inv s)); [lia | apply acf_inv_0 |].
    intros i x Hi; apply acf_STEPS_inv; lia. }
  assert (H160 : acf_inv s 160 L).
  { apply (for_range_ind (acf_inv s)); [lia | exact H8 |].
    intros i x Hi; apply acf_STEPS_inv; lia. }
  destruct H160 as [HL Hk]. split; [assumption |]. intros k Hk'. rewrite Hk by lia.
  unfold acf. now replace (Z.max k 160) with 160 by lia.
Qed.

Lemma two_mul_le a b : 2 * (a * b) <= a * a + b * b /\ - 2 * (a * b) <= a * a + b * b.
Proof. pose proof (Z.square_nonneg (a - b)); pose proof (Z.square_nonneg (a + b)). lia. Qed.

(** [|acf k| <= acf 0], and the energy of a 12-bit frame is below [2^30]. *)
Lemma acf_le_energy s k : 0 <= k <= 8 -> Z.abs (acf s k) <= acf s 0.
Proof.
  intros Hk. unfold acf.
  set (e := fun i => s.[i] * s.[i]).
  assert (E0 : sum_range 0 160 (fun i => s.[i] * s.[i - 0]) = sum_range 0 160 e)
    by (apply sum_range_ext; intros i _; unfold e; now rewrite Z.sub_0_r).
  rewrite E0.
  assert (He : forall i, 0 <= e i) by (intros; unfold e; nia).
  assert (B1 : sum_range k 160 e <= sum_range 0 160 e).
  { rewrite (sum_range_split 0 k 160) by lia. pose proof (sum_range_nonneg 0 k e (fun i _ => He i)). lia. }
  assert (B2 : sum_range k 160 (fun i => e (i - k)) <= sum_range 0 160 e).
  { rewrite sum_range_shift, (sum_range_split 0 (160 - k) 160) by lia. rewrite Z.sub_diag.
    pose proof (sum_range_nonneg (160 - k) 160 e (fun i _ => He i)). lia. }
  assert (U : 2 * sum_range k 160 (fun i => s.[i] * s.[i - k]) <= 2 * sum_range 0 160 e).
  { rewrite <- sum_range_mul.
    etransitivity; [apply (sum_range_le k 160 _ (fun i => e i + e (i - k))) |].
    - intros i _. unfold e. apply two_mul_le.
    - rewrite sum_range_add. lia. }
  assert (D : - 2 * sum_range k 160 (fun i => s.[i] * s.[i - k]) <= 2 * sum_range 0 160 e).
  { rewrite <- sum_range_mul.
    etransitivity; [apply (sum_range_le k 160 _ (fun i => e i + e (i - k))) |].
    - intros i _. unfold e. apply two_mul_le.
    - rewrite sum_range_add. lia. }
  lia.
Qed.

Lemma acf_energy_bound s : (forall i, 0 <= i < 160 -> Z.abs s.[i] <= 2048) ->
  0 <= acf s 0 <= 160 * 2 ^ 22.
Proof.
  intros H. unfold acf. split.
  - apply sum_range_nonneg. intros i _. rewrite Z.sub_0_r. nia.
  - etransitivity; [apply (sum_range_le 0 160 _ (fun _ => 2 ^ 22)) |].
    + intros i Hi. rewrite Z.sub_0_r. specialize (H i Hi). zpow_compute. nia.
    + rewrite sum_range_const by lia. lia.
Qed.

Lemma acf_compute_value s : (forall i, 0 <= i < 160 -> Z.abs s.[i] <= 2048) ->
  acf_compute s = map (fun k => 2 * acf s k) [0; 1; 2; 3; 4; 5; 6; 7; 8].
Proof.
  intros H. unfold acf_compute. destruct (acf_loops s) as [HL Hk].
  set (L := for_range 8 160 _ _) in *. clearbody L.
  apply aget_ext; [now rewrite length_map |]. rewrite length_map, HL. intros i Hi.
  rewrite !aget_map by (rewrite ?HL; simpl; lia). rewrite Hk by lia.
  replace ([0; 1; 2; 3; 4; 5; 6; 7; 8].[i]) with i.
  - rewrite shiftl_mul, i64_id by
      (try lia; pose proof (acf_le_energy s i ltac:(lia)); pose proof (acf_energy_bound s H);
       unfold is_i64; lia). lia.
  - assert (E : i = 0 \/ i = 1 \/ i = 2 \/ i = 3 \/ i = 4 \/ i = 5 \/ i = 6 \/ i = 7 \/ i = 8) by lia.
    destruct E as [->|[->|[->|[->|[->|[->|[->|[->| ->]]]]]]]]; reflexivity.
Qed.

(** ** The Schur recursion *)

Lemma GSM_ADD_word a b : is_i16 a -> is_i16 b -> is_i16 (GSM_ADD a b).
Proof. unfold is_i16 at 1 2; intros; apply GSM_ADD_range; lia. Qed.
#[export] Hint Resolve GSM_ADD_word GSM_SUB_range : cint.

Lemma schur_step_words n r P K : words 9 P -> words 9 K ->
  words 9 (fst (schur_step n r (P, K))) /\ words 9 (snd (schur_step n r (P, K))).
Proof.
  intros HP HK. unfold schur_step.
  destruct (Z.leb_spec 1 (8 - n + 1)) as [Hn|Hn].
  - apply (for_range_ind (fun _ PK => words 9 (fst PK) /\ words 9 (snd PK))); [lia | |].
    + cbn [fst snd]; split; eauto 6 with cint.
    + intros m [P' K'] Hm [HP' HK']. cbn [fst snd] in *.
      assert (HP'' : words 9 (aset P' m (GSM_ADD P'.[m + 1] (i16 (GSM_MULT_R K'.[m] r)))))
        by eauto 6 with cint.
      split; [exact HP'' |]. apply words_aset; [assumption |]. eauto 6 with cint.
  - rewrite for_range_nil by lia. cbn [fst snd]; split; eauto 6 with cint.
Qed.

(** A reflection coefficient: a word other than [MIN_WORD]. *)
Definition reflection_ok (r : Z) : Prop := -32767 <= r <= 32767.

Lemma gsm_div_ok a b : 0 <= a <= b -> b <= 32767 ->
  exists r, gsm_div a b = Some r /\ 0 <= r <= 32767.
Proof.
  intros Ha Hb. destruct (Z.eqb_spec a 0) as [->|].
  - exists 0. unfold gsm_div. replace (0 <=? b) with true by (symmetry; apply Z.leb_le; lia).
    split; [reflexivity | lia].
  - rewrite gsm_div_value by (unfold MAX_WORD; lia). eexists; split; [reflexivity |].
    pose proof (Z.div_pos (a * 32768) b ltac:(lia) ltac:(lia)). lia.
Qed.

Lemma reflection_loop_ok left P K : (left <= 8)%nat -> words 9 P -> words 9 K ->
  exists r, reflection_loop left (P, K) = Some r /\ Forall reflection_ok r /\ length r = left.
Proof.
  revert P K; induction left as [|left IH]; intros P K Hl HP HK; [exists []; auto |].
  cbn [reflection_loop].
  pose proof (words_aget 9 P 0 HP) as H0. pose proof (words_aget 9 P 1 HP) as H1.
  pose proof (GSM_ABS_range _ H1) as Ha.
  destruct (Z.ltb_spec P.[0] (GSM_ABS P.[1])) as [Hlt|Hge].
  { eexists; split; [reflexivity |]. split; [| apply repeat_length].
    apply Forall_forall; intros x Hx; apply repeat_spec in Hx as ->. unfold reflection_ok; lia. }
  unfold is_i16 in H0.
  destruct (gsm_div_ok (GSM_ABS P.[1]) P.[0]) as (r & -> & Hr); [lia | lia |]. cbn [bind].
  replace (0 <=? r) with true by (symmetry; apply Z.leb_le; lia).
  set (r1 := if 0 <? P.[1] then i16 (- r) else r).
  assert (Hr1 : reflection_ok r1).
  { unfold r1, reflection_ok. destruct (0 <? P.[1]); [rewrite i16_id by (unfold is_i16; lia) |]; lia. }
  replace (r1 =? MIN_WORD) with false
    by (symmetry; apply Z.eqb_neq; unfold reflection_ok, MIN_WORD in *; lia).
  cbn [negb].
  destruct (Z.eqb_spec (9 - Z.of_nat (S left)) 8) as [E8|].
  { exists [r1]. split; [reflexivity |]. split; [now constructor | simpl; lia]. }
  destruct (schur_step_words (9 - Z.of_nat (S left)) r1 P K HP HK) as [HP' HK'].
  destruct (schur_step _ r1 (P, K)) as [P' K']. cbn [fst snd] in *.
  destruct (IH P' K' ltac:(lia) HP' HK') as (rs & -> & Hrs & HL). cbn [bind].
  exists (r1 :: rs). split; [reflexivity |]. split; [now constructor | simpl; lia].
Qed.

(** The normalised autocorrelation fits a word: what the source asks with
    "? overflow ?". *)
Lemma normalised_acf_word x e n : 0 <= n <= 30 -> 2 ^ 30 <= e * 2 ^ n < 2 ^ 31 -> Z.abs x <= e ->
  i16 (SASR (i64 (x << n)) 16) = x * 2 ^ n / 2 ^ 16.
Proof.
  intros Hn He Hx. assert (0 < 2 ^ n) by (apply Z.pow_pos_nonneg; lia).
  assert (- 2 ^ 31 < x * 2 ^ n < 2 ^ 31) by nia.
  unfold SASR. rewrite shiftl_mul, shiftr_div, i64_id by (try lia; unfold is_i64; lia).
  apply i16_id. unfold is_i16. zpow_compute. zlia.
Qed.

Definition acf_ok (L : list Z) : Prop :=
  length L = 9%nat /\ 0 <= L.[0] < 2 ^ 31 /\ Forall (fun x => Z.abs x <= L.[0]) L.

Lemma Reflection_coefficients_ok L : acf_ok L ->
  exists r, Reflection_coefficients L = Some r /\ Forall reflection_ok r /\ length r = 8%nat.
Proof.
  intros (HL & H0 & HF). unfold Reflection_coefficients.
  destruct (Z.eqb_spec L.[0] 0) as [|Hnz].
  { exists (repeat 0 8). split; [reflexivity |]. split; [| reflexivity].
    apply Forall_forall; intros x Hx; apply repeat_spec in Hx as ->. unfold reflection_ok; lia. }
  destruct (gsm_norm_pos L.[0] ltac:(lia)) as (n & -> & Hn & Hb). cbn [bind].
  replace (0 <=? n) with true by (symmetry; apply Z.leb_le; lia).
  replace (n <? 32) with true by (symmetry; apply Z.ltb_lt; lia). cbn [andb].
  apply reflection_loop_ok; [lia | |]; (split; [now rewrite length_map |]);
    apply Forall_map, Forall_forall; intros x _; apply i16_range.
Qed.

(** ** Log-area ratios and their codes *)

Lemma log_area_ratio_value r : reflection_ok r ->
  log_area_ratio r = Some (Z.sgn r *
    (if Z.abs r <? 22118 then Z.abs r / 2
     else if Z.abs r <? 31130 then Z.abs r - 11059 else (Z.abs r - 26112) * 4)).
Proof.
  unfold reflection_ok; intros Hr. unfold log_area_ratio.
  rewrite GSM_ABS_spec by (unfold is_i16; lia).
  replace (Z.min (Z.abs r) MAX_WORD) with (Z.abs r) by (unfold MAX_WORD; lia).
  replace (0 <=? Z.abs r) with true by (symmetry; apply Z.leb_le; lia).
  set (t := if _ <? 22118 then Z.abs r / 2 else _).
  assert (Ht : 0 <= t <= 26620) by (unfold t; zcases; zlia).
  assert (E : (if Z.abs r <? 22118 then Some (Z.abs r >> 1)
     else if Z.abs r <? 31130 then (assert! 11059 <=? Z.abs r in Some (Z.abs r - 11059))
     else (assert! 26112 <=? Z.abs r in Some (i16 (i16 (Z.abs r - 26112) << 2)))) = Some t).
  { unfold t. rewrite shiftr_div by lia. rewrite shiftl_mul by lia.
    destruct (Z.ltb_spec (Z.abs r) 22118); [reflexivity |].
    destruct (Z.ltb_spec (Z.abs r) 31130).
    - replace (11059 <=? Z.abs r) with true by (symmetry; apply Z.leb_le; lia). reflexivity.
    - replace (26112 <=? Z.abs r) with true by (symmetry; apply Z.leb_le; lia).
      rewrite (i16_id (Z.abs r - 26112)), i16_id by (unfold is_i16; lia). reflexivity. }
  rewrite E. cbn [bind].
  assert (E2 : (if r <? 0 then i16 (- t) else t) = Z.sgn r * t).
  { destruct (Z.ltb_spec r 0); [rewrite i16_id by (unfold is_i16; lia); lia |].
    destruct (Z.eqb_spec r 0) as [->|]; [reflexivity | lia]. }
  rewrite E2.
  replace (Z.sgn r * t =? MIN_WORD) with false; [reflexivity |].
  symmetry; apply Z.eqb_neq; unfold MIN_WORD. pose proof (Z.sgn_spec r). nia.
Qed.

Definition LAR_ok (l : Z) : Prop := -26620 <= l <= 26620.

Lemma log_area_ratio_ok r : reflection_ok r -> exists l, log_area_ratio r = Some l /\ LAR_ok l.
Proof.
  intros Hr. rewrite log_area_ratio_value by assumption. eexists; split; [reflexivity |].
  unfold LAR_ok, reflection_ok in *.
  assert (Hs : Z.sgn r = 1 \/ Z.sgn r = 0 \/ Z.sgn r = -1) by (pose proof (Z.sgn_spec r); lia).
  destruct Hs as [->|[->| ->]]; zcases; zlia.
Qed.

Lemma quantize_STEP_field w A B MAC MIC l : 2 <= w <= 8 ->
  MAC = 2 ^ (w - 1) - 1 -> MIC = - 2 ^ (w - 1) -> field w (quantize_STEP A B MAC MIC l).
Proof.
  intros Hw -> ->. unfold quantize_STEP, field. rewrite (pow2_half w) by lia.
  assert (0 < 2 ^ (w - 1)) by (apply Z.pow_pos_nonneg; lia).
  cbv zeta. zcases; lia.
Qed.

Lemma Quantization_fields LAR : Forall2 field LARc_widths (Quantization_and_coding LAR).
Proof.
  unfold LARc_widths, Quantization_and_coding.
  repeat (apply Forall2_cons; [apply quantize_STEP_field; (lia || reflexivity) |]).
  apply Forall2_nil.
Qed.

(** ** The whole analysis *)

(** The frame as the analysis leaves it: scaled down, rounded, scaled back. *)
Definition rescaled (sc x : Z) : Z := if 0 <? sc then i16 (scaled sc x * 2 ^ sc) else x.

Lemma Autocorrelation_value s : words 160 s ->
  exists sc, acf_scalauto (max_abs 160 s) = Some sc /\ sc <= 4 /\
    Autocorrelation s =
      Some (map (rescaled sc) s,
            map (fun k => 2 * acf (map (scaled sc) s) k) [0; 1; 2; 3; 4; 5; 6; 7; 8]).
Proof.
  intros Hs. destruct (max_abs_spec 160 s ltac:(lia) (proj2 Hs)) as [Hm _].
  destruct (acf_scalauto_spec _ Hm) as (sc & E & Hsc & _).
  exists sc. split; [exact E |]. split; [lia |].
  unfold Autocorrelation. rewrite E. cbn [bind].
  rewrite acf_scale_value, acf_compute_value by (lia || assumption || (intros; now apply scaled_bound)).
  unfold rescaled. destruct (Z.ltb_spec 0 sc) as [Hpos|Hneg].
  - replace (sc <=? 4) with true by (symmetry; apply Z.leb_le; lia). do 2 f_equal.
    set (t := map (scaled sc) s). assert (HL : length t = 160%nat) by (unfold t; rewrite length_map; apply Hs).
    destruct (fill_spec 160 0 (fun k s => i16 (s.[k] << sc)) t) as [[HL' _] Hv];
      [lia | lia | lia | intros k a Hk [_ Ha]; now rewrite Ha by lia |].
    apply aget_ext; [rewrite length_map; unfold t in *; rewrite length_map in *; lia |].
    rewrite HL', HL. intros i Hi. specialize (Hv i Hi). replace (0 + i) with i in Hv by lia.
    rewrite Hv. unfold t. rewrite !aget_map by (rewrite (proj1 Hs); lia).
    now rewrite shiftl_mul by lia.
  - do 2 f_equal. unfold scaled. replace (0 <? sc) with false by (symmetry; apply Z.ltb_ge; lia).
    now rewrite map_id.
Qed.

Lemma rescaled_words sc s : words 160 s -> words 160 (map (rescaled sc) s).
Proof.
  intros [HL HF]. split; [now rewrite length_map |]. apply Forall_map.
  eapply Forall_impl; [| exact HF]. intros x Hx. unfold rescaled.
  destruct (0 <? sc); [apply i16_range | exact Hx].
Qed.

Lemma acf_result_ok s sc : words 160 s -> acf_scalauto (max_abs 160 s) = Some sc ->
  acf_ok (map (fun k => 2 * acf (map (scaled sc) s) k) [0; 1; 2; 3; 4; 5; 6; 7; 8]).
Proof.
  intros Hs E. set (t := map (scaled sc) s).
  assert (Hb : forall i, 0 <= i < 160 -> Z.abs t.[i] <= 2048) by (intros; now apply scaled_bound).
  pose proof (acf_energy_bound t Hb).
  split; [reflexivity |]. rewrite aget_map by (simpl; lia).
  change (aget [0; 1; 2; 3; 4; 5; 6; 7; 8] 0) with 0. split; [lia |].
  apply Forall_map, Forall_forall. intros k Hk. assert (0 <= k <= 8) by (simpl in Hk; lia).
  pose proof (acf_le_energy t k ltac:(lia)). lia.
Qed.

Lemma Gsm_LPC_Analysis_value s : words 160 s ->
  exists sc LARc, acf_scalauto (max_abs 160 s) = Some sc /\
    Gsm_LPC_Analysis s = Some (map (rescaled sc) s, LARc) /\ Forall2 field LARc_widths LARc.
Proof.
  intros Hs. destruct (Autocorrelation_value s Hs) as (sc & E & _ & EA).
  destruct (Reflection_coefficients_ok _ (acf_result_ok s sc Hs E)) as (r & ER & HR & _).
  destruct (map_opt_Forall reflection_ok LAR_ok log_area_ratio r log_area_ratio_ok HR) as (LAR & EL & _ & _).
  unfold Gsm_LPC_Analysis, Transformation_to_Log_Area_Ratios. rewrite EA. cbn [bind].
  rewrite ER. cbn [bind]. rewrite EL. cbn [bind].
  exists sc; eexists. split; [exact E |]. split; [reflexivity | apply Quantization_fields].
Qed.

(** The LPC analysis of any 160 words runs to the end: no assertion of
    lpc.c, add.c included, can fail (the normalisation shift, the division and
    the Schur recursion stay in range), the frame it leaves is 160 words, and
    the eight codes fit the 6, 6, 5, 5, 4, 4, 3 and 3 bits of the frame. *)
Theorem Gsm_LPC_Analysis_ok s : words 160 s ->
  exists s' LARc, Gsm_LPC_Analysis s = Some (s', LARc) /\ words 160 s' /\
    Forall2 field LARc_widths LARc.
Proof.
  intros Hs. destruct (Gsm_LPC_Analysis_value s Hs) as (sc & LARc & _ & E & HF).
  exists (map (rescaled sc) s), LARc. split; [exact E |]. split; [now apply rescaled_words | exact HF].
Qed.

Definition ramp : list Z := map (fun n => 200 * Z.of_nat n - 16000) (seq 0 160).

Lemma Gsm_LPC_Analysis_ok_witness : exists s' LARc, Gsm_LPC_Analysis ramp = Some (s', LARc) /\
  Forall2 field LARc_widths LARc.
Proof.
  destruct (Gsm_LPC_Analysis_ok ramp ltac:(apply wordsb_ok; vm_compute; reflexivity))
    as (s' & LARc & E & _ & H).
  exists s', LARc. split; [exact E | exact H].
Defined.

(** The analysis scales the frame down and back up in place, so the filter
    that follows sees rounded samples: each is within 8 of the original, with
    one exception: a sample of 32760 or more is rounded up to 32768, which the
    16-bit store turns into -32768. *)
Theorem Gsm_LPC_Analysis_rescales s s' LARc : words 160 s -> Gsm_LPC_Analysis s = Some (s', LARc) ->
  forall i, 0 <= i < 160 ->
    (s.[i] < 32760 -> Z.abs (s'.[i] - s.[i]) <= 8) /\ (32760 <= s.[i] -> s'.[i] = -32768).
Proof.
  intros Hs E i Hi. destruct (Gsm_LPC_Analysis_value s Hs) as (sc & L & Esc & E' & _).
  rewrite E in E'; injection E' as -> _. rewrite aget_map by (rewrite (proj1 Hs); lia).
  destruct (max_abs_spec 160 s ltac:(lia) (proj2 Hs)) as [Hm Hb].
  destruct (acf_scalauto_spec _ Hm) as (sc' & E2 & Hsc & H1 & H2).
  rewrite Esc in E2; injection E2 as <-. specialize (Hb i Hi).
  pose proof (words_aget 160 s i Hs) as Hw.
  destruct (GSM_ABS_le _ _ Hw Hb) as [Hx _]. set (m := max_abs 160 s) in *. clearbody m.
  set (x := s.[i]) in *. clearbody x. unfold rescaled, scaled, is_i16 in *.
  destruct (Z.ltb_spec 0 sc); [| specialize (H2 ltac:(lia)); zpow_compute; split; intros; lia].
  specialize (H1 ltac:(lia)).
  assert (Es : sc = 1 \/ sc = 2 \/ sc = 3 \/ sc = 4) by lia.
  destruct Es as [->|[->|[->| ->]]]; zpow_compute; unfold i16, sext; zpow_compute; split; intros; zlia.
Qed.

(** The sign flip of a full-scale sample. *)
Lemma Gsm_LPC_Analysis_rescales_witness :
  exists s' LARc, Gsm_LPC_Analysis (32764 :: repeat 0 159) = Some (s', LARc) /\ s'.[0] = -32768.
Proof.
  destruct (Gsm_LPC_Analysis (32764 :: repeat 0 159)) as [[s' LARc]|] eqn:E;
    [| vm_compute in E; discriminate E].
  exists s', LARc. split; [reflexivity |].
  apply (Gsm_LPC_Analysis_rescales (32764 :: repeat 0 159) s' LARc
           ltac:(apply wordsb_ok; vm_compute; reflexivity) E 0 ltac:(lia)).
  vm_compute; discriminate.
Defined.
