(* ===== verification/GsmShortTerm.v ===== *)
(** * GSM 06.10: short-term filtering (src/mibench/telecomm/gsm/src/short_term.c)

    The decoding of the log-area ratios, their interpolation over the frame, the
    lattice analysis filter of the coder and the synthesis filter of the decoder
    (4.2.8 to 4.2.10, 4.3.3, 4.3.4).  The main theorem: with the same
    coefficients and memories the synthesis filter undoes the analysis filter
    exactly, bit for bit, as long as the analysis residual does not saturate. *)

From Stdlib Require Import ZArith Lia List Bool.
Import ListNotations.
From S2P Require Import Prelude GsmArith GsmState GsmLpc.

(** ** Coefficients *)

Definition decode_STEP (B MIC INVA LARc : Z) : Z :=
  let temp1 := i16 (GSM_ADD LARc MIC << 10) in
  let temp1 := GSM_SUB temp1 (B << 1) in
  let temp1 := i16 (GSM_MULT_R INVA temp1) in
  GSM_ADD temp1 temp1.

Definition Decoding_of_the_coded_Log_Area_Ratios (LARc : list Z) : list Z :=
  [ decode_STEP 0 (-32) 13107 LARc.[0];
    decode_STEP 0 (-32) 13107 LARc.[1];
    decode_STEP 2048 (-16) 13107 LARc.[2];
    decode_STEP (-2560) (-16) 13107 LARc.[3];
    decode_STEP 94 (-8) 19223 LARc.[4];
    decode_STEP (-1792) (-8) 17476 LARc.[5];
    decode_STEP (-341) (-4) 31454 LARc.[6];
    decode_STEP (-1144) (-4) 29708 LARc.[7] ].

(** The loops of 4.2.9.1 walk three arrays of 8 words in step. *)
Fixpoint map2 (f : Z -> Z -> Z) (l1 l2 : list Z) : list Z :=
  match l1, l2 with
  | x :: t1, y :: t2 => f x y :: map2 f t1 t2
  | _, _ => []
  end.

Definition Coefficients_0_12 (LARpp_j_1 LARpp_j : list Z) : list Z :=
  map2 (fun a b => let l := GSM_ADD (SASR a 2) (SASR b 2) in GSM_ADD l (SASR a 1)) LARpp_j_1 LARpp_j.

Definition Coefficients_13_26 (LARpp_j_1 LARpp_j : list Z) : list Z :=
  map2 (fun a b => GSM_ADD (SASR a 1) (SASR b 1)) LARpp_j_1 LARpp_j.

Definition Coefficients_27_39 (LARpp_j_1 LARpp_j : list Z) : list Z :=
  map2 (fun a b => let l := GSM_ADD (SASR a 2) (SASR b 2) in GSM_ADD l (SASR b 1)) LARpp_j_1 LARpp_j.

Definition Coefficients_40_159 (LARpp_j : list Z) : list Z := map (fun x => x) LARpp_j.

Definition LARp_to_rp1 (LARp : Z) : Z :=
  let expand (temp : Z) :=
    if temp <? 11059 then temp << 1
    else if temp <? 20070 then temp + 11059
    else GSM_ADD (temp >> 2) 26112 in
  if LARp <? 0 then
    let temp := if LARp =? MIN_WORD then MAX_WORD else - LARp in
    i16 (- expand temp)
  else i16 (expand LARp).

Definition LARp_to_rp (LARp : list Z) : list Z := map LARp_to_rp1 LARp.

(** ** The lattice filters *)

(** The inner loop of the analysis filter, [for (i = 0; i < 8; i++)]: the
    arrays [rp] and [u] are walked from the front. *)
Fixpoint analysis_lattice (rp u : list Z) (sav di : Z) : list Z * Z :=
  match rp, u with
  | rpi :: rp', ui :: u' =>
      let zzz := i16 (GSM_MULT_R rpi di) in
      let sav' := GSM_ADD ui zzz in
      let zzz := i16 (GSM_MULT_R rpi ui) in
      let di' := GSM_ADD di zzz in
      let '(us, d) := analysis_lattice rp' u' sav' di' in
      (sav :: us, d)
  | _, _ => (u, di)
  end.

(** The loop over the [k_n] samples, on [s] in place and the memory [u]. *)
Fixpoint Short_term_analysis_filtering (rp : list Z) (k_n : nat) (s : list Z) (u : list Z)
  : list Z * list Z :=
  match k_n with
  | O => ([], u)
  | S k' =>
      let x := hd 0 s in
      let '(u, di) := analysis_lattice rp u x x in
      let '(d, u) := Short_term_analysis_filtering rp k' (tl s) u in
      (di :: d, u)
  end.

(** [gsm_mult_r] as the synthesis filter spells it out. *)
Definition synth_mult_r (a b : Z) : Z :=
  i16 (if (a =? MIN_WORD) && (b =? MIN_WORD) then MAX_WORD
       else 0x0FFFF .& ((a * b + 16384) >> 15)).

(** The inner loop of the synthesis filter, [for (i = 8; i--;)], on
    [(sri, v)]. *)
Definition synthesis_iter (rrp : list Z) (i : Z) (sv : Z * list Z) : Z * list Z :=
  let '(sri, v) := sv in
  let tmp1 := rrp.[i] in
  let tmp2 := synth_mult_r tmp1 v.[i] in
  let sri := GSM_SUB sri tmp2 in
  let tmp1 := synth_mult_r tmp1 sri in
  (sri, aset v (i + 1) (GSM_ADD v.[i] tmp1)).

Definition synthesis_sample (rrp : list Z) (wt : Z) (v : list Z) : Z * list Z :=
  let '(sri, v) := for_range 0 8 (fun t => synthesis_iter rrp (7 - t)) (wt, v) in
  (sri, aset v 0 sri).

Fixpoint Short_term_synthesis_filtering (rrp : list Z) (k : nat) (wt : list Z) (v : list Z)
  : list Z * list Z :=
  match k with
  | O => ([], v)
  | S k' =>
      let '(sri, v) := synthesis_sample rrp (hd 0 wt) v in
      let '(sr, v) := Short_term_synthesis_filtering rrp k' (tl wt) v in
      (sri :: sr, v)
  end.

(** ** The filters over a frame *)

Definition LARpp_old (S : gsm_state) : list Z := nth (Z.to_nat (j S .^ 1)) (LARpp S) [].

(** [LARpp_j = S->LARpp[S->j]; LARpp_j_1 = S->LARpp[S->j ^= 1];] then the
    decoded ratios are stored through [LARpp_j]. *)
Definition store_LARpp (S : gsm_state) (LARpp_j : list Z) : gsm_state :=
  set_LARpp S (upd (LARpp S) (Z.to_nat (j S)) LARpp_j) (j S .^ 1).

(** The four segments of 13, 14, 13 and 120 samples with their coefficients. *)
Definition segments (LARpp_j_1 LARpp_j : list Z) : list (list Z * nat) :=
  [ (LARp_to_rp (Coefficients_0_12 LARpp_j_1 LARpp_j), 13%nat);
    (LARp_to_rp (Coefficients_13_26 LARpp_j_1 LARpp_j), 14%nat);
    (LARp_to_rp (Coefficients_27_39 LARpp_j_1 LARpp_j), 13%nat);
    (LARp_to_rp (Coefficients_40_159 LARpp_j), 120%nat) ].

(** [FILTER( S, LARp, n, s + off )] for each segment in turn. *)
Fixpoint run_filter (filter : list Z -> nat -> list Z -> list Z -> list Z * list Z)
    (segs : list (list Z * nat)) (s mem : list Z) : list Z * list Z :=
  match segs with
  | [] => ([], mem)
  | (rp, n) :: segs' =>
      let '(d, mem) := filter rp n s mem in
      let '(ds, mem) := run_filter filter segs' (skipn n s) mem in
      (d ++ ds, mem)
  end.

Definition Gsm_Short_Term_Analysis_Filter (S : gsm_state) (LARc s : list Z) : list Z * gsm_state :=
  let LARpp_j := Decoding_of_the_coded_Log_Area_Ratios LARc in
  let '(d, u') := run_filter Short_term_analysis_filtering (segments (LARpp_old S) LARpp_j) s (u S) in
  (d, set_u (store_LARpp S LARpp_j) u').

Definition Gsm_Short_Term_Synthesis_Filter (S : gsm_state) (LARcr wt : list Z) : list Z * gsm_state :=
  let LARpp_j := Decoding_of_the_coded_Log_Area_Ratios LARcr in
  let '(s, v') := run_filter Short_term_synthesis_filtering (segments (LARpp_old S) LARpp_j) wt (v S) in
  (s, set_v (store_LARpp S LARpp_j) v').

(** ** Reflection coefficients *)

Lemma LARp_to_rp1_value l : is_i16 l ->
  LARp_to_rp1 l = Z.sgn l *
    (let t := Z.min (Z.abs l) 32767 in
     if t <? 11059 then 2 * t else if t <? 20070 then t + 11059
     else Z.min (t / 4 + 26112) 32767).
Proof.
  unfold is_i16; intros Hl. unfold LARp_to_rp1.
  assert (HA : forall t, 20070 <= t <= 32767 -> GSM_ADD (t >> 2) 26112 = Z.min (t / 4 + 26112) 32767).
  { intros t Ht. rewrite shiftr_div by lia. zpow_compute. rewrite GSM_ADD_spec by zlia.
    gsm_unfold. zcases; zlia. }
  destruct (Z.ltb_spec l 0).
  - assert (E : (if l =? MIN_WORD then MAX_WORD else - l) = Z.min (Z.abs l) 32767)
      by (gsm_unfold; zcases; lia).
    rewrite E. set (t := Z.min (Z.abs l) 32767). assert (0 <= t <= 32767) by lia. clearbody t.
    rewrite shiftl_mul by lia. replace (Z.sgn l) with (-1) by lia. cbv zeta.
    destruct (Z.ltb_spec t 11059); [rewrite i16_id by (unfold is_i16; lia); lia |].
    destruct (Z.ltb_spec t 20070); [rewrite i16_id by (unfold is_i16; lia); lia |].
    rewrite HA, i16_id by (unfold is_i16; zlia). lia.
  - destruct (Z.eqb_spec l 0) as [->|]; [reflexivity |].
    replace (Z.min (Z.abs l) 32767) with l by lia. rewrite shiftl_mul by lia. cbv zeta.
    replace (Z.sgn l) with 1 by lia.
    destruct (Z.ltb_spec l 11059); [rewrite i16_id by (unfold is_i16; lia); lia |].
    destruct (Z.ltb_spec l 20070); [rewrite i16_id by (unfold is_i16; lia); lia |].
    rewrite HA, i16_id by (unfold is_i16; zlia). lia.
Qed.

Lemma sgn_cases x : Z.sgn x = 1 \/ Z.sgn x = 0 \/ Z.sgn x = -1.
Proof. pose proof (Z.sgn_spec x); lia. Qed.

Lemma LARp_to_rp1_ok l : is_i16 l -> reflection_ok (LARp_to_rp1 l).
Proof.
  intros Hl. rewrite LARp_to_rp1_value by assumption. unfold reflection_ok, is_i16 in *.
  cbv zeta. destruct (sgn_cases l) as [->|[->| ->]]; zcases; zlia.
Qed.

(** The piecewise-linear log-area-ratio transform of the coder and its
    inverse in the filters match: a reflection coefficient survives the round
    trip exactly from magnitude 22118 on, and loses at most the last bit below. *)
Theorem log_area_ratio_roundtrip r : reflection_ok r ->
  exists l, log_area_ratio r = Some l /\ Z.abs (LARp_to_rp1 l - r) <= 1 /\
    (22118 <= Z.abs r -> LARp_to_rp1 l = r).
Proof.
  intros Hr. destruct (log_area_ratio_ok r Hr) as (l & E & Hl). exists l. split; [exact E |].
  rewrite log_area_ratio_value in E by assumption. injection E as <-.
  rewrite LARp_to_rp1_value by (unfold LAR_ok, is_i16 in *; lia).
  unfold reflection_ok, LAR_ok in *. cbv zeta.
  set (a := Z.abs r) in *.
  set (t := if a <? 22118 then a / 2 else if a <? 31130 then a - 11059 else (a - 26112) * 4) in *.
  assert (Ht : 0 <= t <= 26620) by (unfold t; zcases; zlia).
  assert (Hs : Z.abs (Z.sgn r * t) = t /\ (0 < t -> Z.sgn (Z.sgn r * t) = Z.sgn r)).
  { assert (Z.sgn r = 0 -> t = 0) by (intros; unfold t; zcases; zlia).
    destruct (sgn_cases r) as [->|[Es| ->]]; [| rewrite Es in * |]; lia. }
  destruct Hs as (-> & Hsg).
  replace (Z.min t 32767) with t by lia.
  destruct (Z.eqb_spec t 0) as [E0|Hnz].
  { rewrite E0, Z.mul_0_r. cbn. unfold t in E0. revert E0. zcases; zlia. }
  rewrite (Hsg ltac:(lia)). clear Hsg.
  assert (Hd : r = Z.sgn r * a) by (unfold a; lia).
  set (g := Z.sgn r) in *. assert (Hg : g = 1 \/ g = 0 \/ g = -1) by apply sgn_cases.
  clearbody g. clearbody a. subst r.
  destruct Hg as [->|[->| ->]]; unfold t; zcases; zlia.
Qed.

Lemma log_area_ratio_roundtrip_witness :
  exists l, log_area_ratio (-30000) = Some l /\ LARp_to_rp1 l = -30000.
Proof.
  destruct (log_area_ratio_roundtrip (-30000) ltac:(unfold reflection_ok; lia)) as (l & E & _ & H).
  exists l. split; [exact E | apply H; simpl; lia].
Defined.

(** ** Quantisation error of the log-area ratios *)

(** The interval each coefficient's code covers, and half its step (plus the rounding). *)
Definition LAR_lo : list Z := [-26620; -26620; -16793; -9420; -10433; -5461; -7537; -4206].
Definition LAR_hi : list Z := [25804; 25804; 9420; 16793; 8790; 12014; 8190; 10647].
Definition LAR_err : list Z := [412; 412; 412; 412; 603; 549; 986; 931].

Lemma quantize_value A B MAC MIC l q : -30000 <= A * l / 32768 <= 30000 -> -2560 <= B <= 2048 ->
  q = (A * l / 32768 + B + 256) / 512 -> MIC <= q <= MAC ->
  quantize_STEP A B MAC MIC l = q - MIC.
Proof.
  intros Hl HB Eq Hq. unfold quantize_STEP, GSM_MULT, SASR. rewrite !shiftr_div by lia.
  zpow_compute. set (a := A * l / 32768) in *. clearbody a.
  rewrite (i16_id a) by (unfold is_i16; lia).
  rewrite (GSM_ADD_spec a), (saturate_id (a + B)) by (unfold is_i16; lia).
  rewrite (GSM_ADD_spec (a + B)), (saturate_id (a + B + 256)) by (unfold is_i16; lia).
  cbv zeta. rewrite <- Eq. zcases; lia.
Qed.

Lemma decode_value B MIC INVA q : -32 <= q <= 31 -> -32 <= MIC <= 0 -> is_i16 (q * 1024 - 2 * B) ->
  0 < INVA <= 32767 -> -16384 <= (INVA * (q * 1024 - 2 * B) + 16384) / 32768 <= 16383 ->
  decode_STEP B MIC INVA (q - MIC) = 2 * ((INVA * (q * 1024 - 2 * B) + 16384) / 32768).
Proof.
  intros Hq HM HB HI Hr. unfold decode_STEP. rewrite !shiftl_mul by lia.
  rewrite (GSM_ADD_spec (q - MIC)), (saturate_id (q - MIC + MIC)) by (unfold is_i16; lia).
  replace ((q - MIC + MIC) * 2 ^ 10) with (q * 1024) by lia.
  rewrite (i16_id (q * 1024)) by (unfold is_i16; lia). rewrite GSM_SUB_spec.
  replace (B * 2 ^ 1) with (2 * B) by lia. rewrite saturate_id by assumption.
  rewrite GSM_MULT_R_div. set (t := (INVA * _ + 16384) / 32768) in *. clearbody t.
  rewrite (i16_id t) by (unfold is_i16; lia).
  rewrite GSM_ADD_spec, saturate_id by (unfold is_i16; lia). lia.
Qed.

(** The rational content of the bound: [a], [q], [t] are the three quotients. *)
Lemma quantize_decode_value A B MAC MIC INVA l a q t :
  32768 * a <= A * l < 32768 * a + 32768 -> 512 * q <= a + B + 256 < 512 * q + 512 ->
  32768 * t <= INVA * (q * 1024 - 2 * B) + 16384 < 32768 * t + 32768 ->
  -30000 <= a <= 30000 -> -2560 <= B <= 2048 -> -32 <= MIC -> MAC <= 31 -> MIC <= 0 -> MIC <= q <= MAC ->
  is_i16 (q * 1024 - 2 * B) -> 0 < INVA <= 32767 -> -16384 <= t <= 16383 ->
  decode_STEP B MIC INVA (quantize_STEP A B MAC MIC l) = 2 * t.
Proof.
  intros Ea Eq Et Ha HB HM HX HM0 Hq Hw HI Ht.
  assert (Da : A * l / 32768 = a) by (symmetry; apply Z.div_unique with (A * l - 32768 * a); lia).
  assert (Dq : (a + B + 256) / 512 = q)
    by (symmetry; apply Z.div_unique with (a + B + 256 - 512 * q); lia).
  assert (Dt : (INVA * (q * 1024 - 2 * B) + 16384) / 32768 = t)
    by (symmetry; apply Z.div_unique with (INVA * (q * 1024 - 2 * B) + 16384 - 32768 * t); lia).
  rewrite (quantize_value A B MAC MIC l q) by (rewrite ?Da; auto; lia).
  rewrite decode_value by (rewrite ?Dt; auto; lia). lia.
Qed.

Lemma div_bounds x d : 0 < d -> exists q, d * q <= x < d * q + d.
Proof. intros; exists (x / d). pose proof (Z.div_mod x d); pose proof (Z.mod_pos_bound x d); lia. Qed.

Lemma quantize_decode_error A B MAC MIC INVA lo hi err l :
  In (A, B, MAC, MIC, INVA, lo, hi, err)
    [(20480, 0, 31, -32, 13107, -26620, 25804, 412); (20480, 2048, 15, -16, 13107, -16793, 9420, 412);
     (20480, -2560, 15, -16, 13107, -9420, 16793, 412); (13964, 94, 7, -8, 19223, -10433, 8790, 603);
     (15360, -1792, 7, -8, 17476, -5461, 12014, 549); (8534, -341, 3, -4, 31454, -7537, 8190, 986);
     (9036, -1144, 3, -4, 29708, -4206, 10647, 931)] ->
  lo <= l <= hi -> Z.abs (decode_STEP B MIC INVA (quantize_STEP A B MAC MIC l) - l) <= err.
Proof.
  intros Hin Hl. destruct (div_bounds (A * l) 32768) as [a Ha]; [lia |].
  destruct (div_bounds (a + B + 256) 512) as [q Hq]; [lia |].
  destruct (div_bounds (INVA * (q * 1024 - 2 * B) + 16384) 32768) as [t Ht]; [lia |].
  cbn [In] in Hin.
  repeat (destruct Hin as [Hin|Hin]; [injection Hin as <- <- <- <- <- <- <- <-;
    rewrite (quantize_decode_value _ _ _ _ _ l a q t) by (unfold is_i16; lia); lia |]).
  contradiction.
Qed.

(** A log-area ratio within the range its code covers is decoded to within
    half a quantisation step (and 2 units of rounding) of its value, for each of the eight coefficients. *)
Theorem LAR_quantisation_error LAR i : 0 <= i < 8 -> LAR_lo.[i] <= LAR.[i] <= LAR_hi.[i] ->
  Z.abs ((Decoding_of_the_coded_Log_Area_Ratios (Quantization_and_coding LAR)).[i] - LAR.[i])
  <= LAR_err.[i].
Proof.
  intros Hi.
  assert (E : i = 0 \/ i = 1 \/ i = 2 \/ i = 3 \/ i = 4 \/ i = 5 \/ i = 6 \/ i = 7) by lia.
  destruct E as [->|[->|[->|[->|[->|[->|[->| ->]]]]]]];
    intros Hl; (eapply quantize_decode_error; [simpl; tauto | exact Hl]).
Qed.

Lemma LAR_quantisation_error_witness :
  Z.abs ((Decoding_of_the_coded_Log_Area_Ratios
    (Quantization_and_coding [0; 0; 0; 0; 0; 0; 0; 10000])).[7] - 10000) <= 931.
Proof.
  apply (LAR_quantisation_error [0; 0; 0; 0; 0; 0; 0; 10000] 7); [lia |].
  vm_compute; split; discriminate.
Defined.

(** ** Words in, words out *)

Lemma map2_words f n l1 l2 : (forall a b, is_i16 a -> is_i16 b -> is_i16 (f a b)) ->
  words n l1 -> words n l2 -> words n (map2 f l1 l2).
Proof.
  intros Hf. revert l1 l2; induction n as [|n IH]; intros [|x l1] [|y l2] [HL1 H1] [HL2 H2];
    try discriminate; [now split |].
  apply Forall_cons_iff in H1 as [Hx H1]; apply Forall_cons_iff in H2 as [Hy H2].
  destruct (IH l1 l2) as [HL HF]; [split; auto | split; auto |].
  split; [simpl; congruence | constructor; auto].
Qed.

Lemma SASR_word a k : is_i16 a -> 0 <= k -> is_i16 (SASR a k).
Proof.
  unfold SASR; intros Ha Hk. rewrite shiftr_div by lia. unfold is_i16 in *.
  assert (1 <= 2 ^ k) by (pose proof (Z.pow_pos_nonneg 2 k); lia).
  pose proof (Z.div_mod a (2 ^ k)); pose proof (Z.mod_pos_bound a (2 ^ k)). nia.
Qed.

Definition reflections (rp : list Z) : Prop := length rp = 8%nat /\ Forall reflection_ok rp.

Lemma LARp_to_rp_ok l : words 8 l -> reflections (LARp_to_rp l).
Proof.
  intros [HL HF]. split; [unfold LARp_to_rp; now rewrite length_map |].
  apply Forall_map. eapply Forall_impl; [| exact HF]. apply LARp_to_rp1_ok.
Qed.

Lemma Decoding_words LARc : words 8 (Decoding_of_the_coded_Log_Area_Ratios LARc).
Proof.
  split; [reflexivity |]. unfold Decoding_of_the_coded_Log_Area_Ratios.
  repeat (apply Forall_cons; [apply GSM_ADD_word; apply i16_range |]). apply Forall_nil.
Qed.

Lemma segments_ok old cur : words 8 old -> words 8 cur ->
  Forall (fun seg => reflections (fst seg)) (segments old cur).
Proof.
  intros Ho Hc.
  assert (Hs : forall k, 0 <= k -> forall a, is_i16 a -> is_i16 (SASR a k)) by (intros; now apply SASR_word).
  unfold segments. repeat apply Forall_cons; try apply Forall_nil; cbn [fst]; apply LARp_to_rp_ok;
    try (apply map2_words; auto; intros a b Ha Hb; cbv zeta; repeat apply GSM_ADD_word; apply Hs; auto; lia).
  unfold Coefficients_40_159. now rewrite map_id.
Qed.

Lemma analysis_lattice_words n rp u sav di : length rp = n -> words n u -> is_i16 sav -> is_i16 di ->
  words n (fst (analysis_lattice rp u sav di)) /\ is_i16 (snd (analysis_lattice rp u sav di)).
Proof.
  revert rp u sav di; induction n as [|n IH]; intros [|r rp] [|x u] sav di HL [HLu HF] Hs Hd;
    try discriminate; [now split |].
  apply Forall_cons_iff in HF as [Hx HF]. cbn [analysis_lattice].
  specialize (IH rp u (GSM_ADD x (i16 (GSM_MULT_R r di))) (GSM_ADD di (i16 (GSM_MULT_R r x)))
    ltac:(simpl in HL; lia) (conj (eq_add_S _ _ HLu) HF)
    ltac:(auto with cint) ltac:(auto with cint)).
  destruct (analysis_lattice rp u _ _) as [us d]. destruct IH as [[HL' HF'] Hd']. cbn [fst snd] in *.
  split; [split; [simpl; congruence | now constructor] | assumption].
Qed.

Lemma analysis_words rp k s u : reflections rp -> words 8 u -> Forall is_i16 s ->
  words k (fst (Short_term_analysis_filtering rp k s u)) /\
  words 8 (snd (Short_term_analysis_filtering rp k s u)).
Proof.
  intros Hrp. revert s u; induction k as [|k IH]; intros s u Hu Hs; [now split |].
  cbn [Short_term_analysis_filtering].
  assert (Hx : is_i16 (hd 0 s)) by (destruct s; [apply is_i16_0 | now inversion Hs]).
  assert (Ht : Forall is_i16 (tl s)) by (destruct s; [constructor | now inversion Hs]).
  destruct (analysis_lattice_words 8 rp u (hd 0 s) (hd 0 s) (proj1 Hrp) Hu Hx Hx) as [Hu' Hd].
  destruct (analysis_lattice rp u (hd 0 s) (hd 0 s)) as [u' d]. cbn [fst snd] in *.
  specialize (IH (tl s) u' Hu' Ht).
  destruct (Short_term_analysis_filtering rp k (tl s) u') as [ds u'']. cbn [fst snd] in *.
  destruct IH as [[HL HF] Hu'']. split; [split; [simpl; congruence | now constructor] | assumption].
Qed.

(** ** The synthesis filter undoes the analysis filter *)

(** The sums that make the residual stay in the word range. *)
Fixpoint lattice_exact (rp u : list Z) (di : Z) : bool :=
  match rp, u with
  | rpi :: rp', ui :: u' =>
      let d := di + GSM_MULT_R rpi ui in
      (MIN_WORD <=? d) && (d <=? MAX_WORD) && lattice_exact rp' u' d
  | _, _ => true
  end.

Fixpoint filter_exact (rp : list Z) (k : nat) (s u : list Z) : bool :=
  match k with
  | O => true
  | S k' =>
      lattice_exact rp u (hd 0 s) &&
      filter_exact rp k' (tl s) (fst (analysis_lattice rp u (hd 0 s) (hd 0 s)))
  end.

(** The product of a coefficient and a word, as both filters compute it. *)
Lemma synth_mult_r_eq r x : reflection_ok r -> is_i16 x ->
  synth_mult_r r x = GSM_MULT_R r x /\ i16 (GSM_MULT_R r x) = GSM_MULT_R r x /\ is_i16 (GSM_MULT_R r x).
Proof.
  unfold reflection_ok; intros Hr Hx.
  assert (Hw : is_i16 (GSM_MULT_R r x))
    by (apply GSM_MULT_R_word; [unfold is_i16; lia | assumption | left; unfold MIN_WORD; lia]).
  split; [| now rewrite i16_id by assumption].
  unfold synth_mult_r. replace (r =? MIN_WORD) with false by (symmetry; apply Z.eqb_neq; unfold MIN_WORD; lia).
  cbn [andb]. rewrite Z.land_comm. change 0x0FFFF with (2 ^ 16 - 1). rewrite land_mask by lia.
  unfold GSM_MULT_R, SASR in *. unfold i16.
  rewrite <- (sext_id 16 ((r * x + 16384) >> 15)) at 2 by (unfold is_i16 in Hw; lia).
  apply (sext_zext 16); lia.
Qed.

(** The synthesis filter's inner loop by recursion on the stages, as the
    analysis filter has it: the last stage comes first. *)
Fixpoint synthesis_lattice (rrp v : list Z) (sri : Z) : Z * list Z :=
  match rrp, v with
  | r :: rrp', x :: v' =>
      let '(sri, vs) := synthesis_lattice rrp' v' sri in
      let sri := GSM_SUB sri (synth_mult_r r x) in
      (sri, GSM_ADD x (synth_mult_r r sri) :: vs)
  | _, _ => (sri, [])
  end.

Lemma synthesis_sample_lattice rrp wt v : length rrp = 8%nat -> length v = 9%nat ->
  synthesis_sample rrp wt v =
    (let '(sri, vs) := synthesis_lattice rrp (firstn 8 v) wt in (sri, sri :: vs)).
Proof.
  intros HL HLv.
  do 9 (destruct rrp as [|? rrp]; try discriminate HL).
  do 10 (destruct v as [|? v]; try discriminate HLv). reflexivity.
Qed.

Lemma lattice_inverse n rp u sav d : length rp = n -> Forall reflection_ok rp -> words n u ->
  is_i16 d -> lattice_exact rp u d = true ->
  let '(us, dn) := analysis_lattice rp u sav d in
  let '(d', vs) := synthesis_lattice rp u dn in
  d' = d /\ exists w, sav :: vs = us ++ [w].
Proof.
  revert rp u sav d; induction n as [|n IH]; intros [|r rp] [|x u] sav d HL HF [HLu HFu] Hd HE;
    try discriminate; [split; [reflexivity | now exists sav] |].
  apply Forall_cons_iff in HF as [Hr HF]; apply Forall_cons_iff in HFu as [Hx HFu].
  cbn [analysis_lattice lattice_exact] in *. rewrite !andb_true_iff, !Z.leb_le in HE.
  destruct HE as [Hd' HE].
  destruct (synth_mult_r_eq r x Hr Hx) as (E1 & E2 & _).
  destruct (synth_mult_r_eq r d Hr Hd) as (E3 & E4 & _).
  rewrite E2, E4, (GSM_ADD_spec d), saturate_id by (unfold is_i16, MIN_WORD, MAX_WORD in *; lia).
  specialize (IH rp u (GSM_ADD x (GSM_MULT_R r d)) (d + GSM_MULT_R r x)
    (eq_add_S _ _ HL) HF (conj (eq_add_S _ _ HLu) HFu)
    ltac:(unfold is_i16, MIN_WORD, MAX_WORD in *; lia) HE).
  destruct (analysis_lattice rp u _ _) as [us dn]. cbn [synthesis_lattice].
  destruct (synthesis_lattice rp u dn) as [d' vs]. destruct IH as (-> & w & Ew).
  rewrite E1, GSM_SUB_spec.
  replace (d + GSM_MULT_R r x - GSM_MULT_R r x) with d by lia.
  rewrite saturate_id, E3 by assumption.
  split; [reflexivity |]. exists w. rewrite Ew. reflexivity.
Qed.

(** One sample: the synthesis filter with the analysis memory returns the
    sample and is left with the new analysis memory. *)
Lemma sample_inverse rp u v x : reflections rp -> words 8 u -> is_i16 x -> length v = 9%nat ->
  firstn 8 v = u -> lattice_exact rp u x = true ->
  let '(us, d) := analysis_lattice rp u x x in
  let '(x', v') := synthesis_sample rp d v in
  x' = x /\ length v' = 9%nat /\ firstn 8 v' = us.
Proof.
  intros [HLr HFr] Hu Hx HLv Ev HE.
  pose proof (lattice_inverse 8 rp u x x HLr HFr Hu Hx HE) as H.
  destruct (analysis_lattice_words 8 rp u x x HLr Hu Hx Hx) as [[HLus _] _].
  destruct (analysis_lattice rp u x x) as [us d]. cbn [fst] in HLus.
  rewrite synthesis_sample_lattice, Ev by assumption.
  destruct (synthesis_lattice rp u d) as [d' vs]. destruct H as (-> & w & Ew).
  split; [reflexivity |]. rewrite Ew. split; [rewrite length_app; simpl; lia |].
  rewrite firstn_app, HLus, Nat.sub_diag, firstn_O, app_nil_r. rewrite <- HLus. apply firstn_all.
Qed.

Lemma filter_inverse rp k s u v : reflections rp -> words 8 u -> Forall is_i16 s ->
  (k <= length s)%nat -> length v = 9%nat -> firstn 8 v = u -> filter_exact rp k s u = true ->
  let '(d, u') := Short_term_analysis_filtering rp k s u in
  let '(s', v') := Short_term_synthesis_filtering rp k d v in
  s' = firstn k s /\ length v' = 9%nat /\ firstn 8 v' = u'.
Proof.
  intros Hrp. revert s u v; induction k as [|k IH]; intros s u v Hu Hs Hk HLv Ev HE;
    [cbn; auto |].
  destruct s as [|x s]; [simpl in Hk; lia |]. apply Forall_cons_iff in Hs as [Hx Hs].
  cbn [Short_term_analysis_filtering filter_exact hd tl] in *. apply andb_true_iff in HE as [HE1 HE2].
  pose proof (sample_inverse rp u v x Hrp Hu Hx HLv Ev HE1) as H1.
  destruct (analysis_lattice_words 8 rp u x x (proj1 Hrp) Hu Hx Hx) as [Hu' _].
  destruct (analysis_lattice rp u x x) as [us d]. cbn [fst] in *.
  destruct (synthesis_sample rp d v) as [x' v'] eqn:E1. destruct H1 as (-> & HLv' & Ev').
  specialize (IH s us v' Hu' Hs ltac:(simpl in Hk; lia) HLv' Ev' HE2).
  destruct (Short_term_analysis_filtering rp k s us) as [ds u''].
  cbn [Short_term_synthesis_filtering hd tl]. rewrite E1.
  destruct (Short_term_synthesis_filtering rp k ds v') as [s' v'']. destruct IH as (-> & H2 & H3).
  cbn [firstn]. auto.
Qed.

Lemma synthesis_prefix rp k d ds v : length d = k ->
  Short_term_synthesis_filtering rp k (d ++ ds) v = Short_term_synthesis_filtering rp k d v.
Proof.
  revert d v; induction k as [|k IH]; intros [|x d] v HL; try discriminate; [reflexivity |].
  cbn [Short_term_synthesis_filtering hd tl app]. destruct (synthesis_sample rp x v) as [y v'].
  now rewrite IH by (simpl in HL; lia).
Qed.

(** No residual of the frame saturates. *)
Fixpoint run_exact (segs : list (list Z * nat)) (s u : list Z) : bool :=
  match segs with
  | [] => true
  | (rp, n) :: segs' =>
      filter_exact rp n s u &&
      run_exact segs' (skipn n s) (snd (Short_term_analysis_filtering rp n s u))
  end.

Definition total (segs : list (list Z * nat)) : nat := fold_right (fun seg n => (snd seg + n)%nat) O segs.

Lemma run_words segs s u : Forall (fun seg => reflections (fst seg)) segs -> words 8 u ->
  Forall is_i16 s ->
  words (total segs) (fst (run_filter Short_term_analysis_filtering segs s u)) /\
  words 8 (snd (run_filter Short_term_analysis_filtering segs s u)).
Proof.
  intros HS; revert s u; induction HS as [|[rp n] segs Hrp HS IH]; intros s u Hu Hs; [now split |].
  cbn [run_filter total fold_right snd fst] in *.
  destruct (analysis_words rp n s u Hrp Hu Hs) as [Hd Hu'].
  destruct (Short_term_analysis_filtering rp n s u) as [d u']. cbn [fst snd] in *.
  specialize (IH (skipn n s) u' Hu' (Forall_skipn _ _ _ Hs)).
  destruct (run_filter _ segs (skipn n s) u') as [ds u'']. cbn [fst snd] in *.
  destruct IH as [[HL HF] Hu'']. destruct Hd as [HLd HFd].
  split; [split; [rewrite length_app; unfold total in HL; lia | now apply Forall_app] | assumption].
Qed.

Lemma run_inverse segs s u v : Forall (fun seg => reflections (fst seg)) segs -> words 8 u ->
  Forall is_i16 s -> length s = total segs -> length v = 9%nat -> firstn 8 v = u ->
  run_exact segs s u = true ->
  let '(d, u') := run_filter Short_term_analysis_filtering segs s u in
  let '(s', v') := run_filter Short_term_synthesis_filtering segs d v in
  s' = s /\ length v' = 9%nat /\ firstn 8 v' = u'.
Proof.
  intros HS; revert s u v; induction HS as [|[rp n] segs Hrp HS IH]; intros s u v Hu Hs HL HLv Ev HE.
  { destruct s; [cbn; auto | discriminate]. }
  cbn [run_filter total fold_right snd fst run_exact] in *. apply andb_true_iff in HE as [HE1 HE2].
  pose proof (filter_inverse rp n s u v Hrp Hu Hs ltac:(lia) HLv Ev HE1) as H1.
  destruct (analysis_words rp n s u Hrp Hu Hs) as [Hd Hu'].
  destruct (Short_term_analysis_filtering rp n s u) as [d u']. cbn [fst snd] in *.
  destruct (Short_term_synthesis_filtering rp n d v) as [s1 v1] eqn:E1. destruct H1 as (-> & HLv1 & Ev1).
  specialize (IH (skipn n s) u' v1 Hu' (Forall_skipn _ _ _ Hs)
    ltac:(rewrite length_skipn; unfold total in *; lia) HLv1 Ev1 HE2).
  destruct (run_filter _ segs (skipn n s) u') as [ds u''].
  cbn [run_filter]. rewrite synthesis_prefix, E1 by apply Hd.
  replace (skipn n (d ++ ds)) with ds.
  2:{ rewrite skipn_app, (proj1 Hd), Nat.sub_diag. rewrite <- (proj1 Hd), skipn_all. reflexivity. }
  destruct (run_filter _ segs ds v1) as [s2 v2]. destruct IH as (-> & H2 & H3).
  split; [apply firstn_skipn | auto].
Qed.

(** ** Frames *)

(** What the short-term stage keeps true of a state. *)
Definition short_ok (S : gsm_state) : Prop :=
  words 8 (u S) /\ words 9 (v S) /\ (exists a b, LARpp S = [a; b] /\ words 8 a /\ words 8 b) /\
  (j S = 0 \/ j S = 1).

Lemma LARpp_old_words S : short_ok S -> words 8 (LARpp_old S).
Proof.
  intros (_ & _ & (a & b & E & Ha & Hb) & Hj). unfold LARpp_old. rewrite E.
  destruct Hj as [-> | ->]; assumption.
Qed.

Lemma store_LARpp_ok S l : short_ok S -> words 8 l -> short_ok (store_LARpp S l).
Proof.
  intros (Hu & Hv & (a & b & E & Ha & Hb) & Hj) Hl.
  split; [exact Hu |]. split; [exact Hv |]. unfold store_LARpp, set_LARpp; cbn [LARpp j]. rewrite E.
  destruct Hj as [-> | ->]; (split; [| cbn; auto]); [exists l, b | exists a, l]; auto.
Qed.

(** C4. The decoder's short-term filter undoes the coder's: if the two states
    hold the same log-area ratios and the same filter memory, and no residual
    of the frame saturates, synthesis of the residual returns the 160 input
    samples bit for bit, and the states agree again for the next frame. *)
Theorem short_term_synthesis_inverts S T LARc s :
  short_ok S -> words 160 s -> length (v T) = 9%nat -> firstn 8 (v T) = u S ->
  LARpp T = LARpp S -> j T = j S ->
  run_exact (segments (LARpp_old S) (Decoding_of_the_coded_Log_Area_Ratios LARc)) s (u S) = true ->
  let '(d, S') := Gsm_Short_Term_Analysis_Filter S LARc s in
  let '(s', T') := Gsm_Short_Term_Synthesis_Filter T LARc d in
  s' = s /\ firstn 8 (v T') = u S' /\ LARpp T' = LARpp S' /\ j T' = j S'.
Proof.
  intros HS Hs HLv Ev EL Ej HE. unfold Gsm_Short_Term_Analysis_Filter, Gsm_Short_Term_Synthesis_Filter.
  assert (Eo : LARpp_old T = LARpp_old S) by (unfold LARpp_old; now rewrite EL, Ej).
  pose proof (segments_ok _ _ (LARpp_old_words S HS) (Decoding_words LARc)) as Hseg.
  set (segs := segments (LARpp_old S) (Decoding_of_the_coded_Log_Area_Ratios LARc)) in *.
  pose proof (run_inverse segs s (u S) (v T) Hseg (proj1 HS) (proj2 Hs) (proj1 Hs) HLv Ev HE) as H.
  destruct (run_filter _ segs s (u S)) as [d u']. rewrite Eo. fold segs.
  destruct (run_filter _ segs d (v T)) as [s' v']. destruct H as (-> & _ & Hv').
  split; [reflexivity |]. split; [exact Hv' |].
  unfold store_LARpp, set_v, set_u, set_LARpp; cbn [LARpp j]. rewrite EL, Ej. split; reflexivity.
Qed.

Definition gsm_initial : gsm_state :=
  mk_gsm (repeat 0 280) 0 0 0 (repeat 0 8) [repeat 0 8; repeat 0 8] 0 40 (repeat 0 9) 0 0 0.

Lemma gsm_initial_short : short_ok gsm_initial.
Proof.
  split; [apply words_repeat |]. split; [apply words_repeat |].
  split; [exists (repeat 0 8), (repeat 0 8); split; [reflexivity | split; apply words_repeat] | now left].
Qed.

Lemma short_term_synthesis_inverts_witness :
  let '(d, S') := Gsm_Short_Term_Analysis_Filter gsm_initial [45; 20; 18; 12; 9; 7; 4; 3] ramp in
  fst (Gsm_Short_Term_Synthesis_Filter gsm_initial [45; 20; 18; 12; 9; 7; 4; 3] d) = ramp.
Proof.
  pose proof (short_term_synthesis_inverts gsm_initial gsm_initial [45; 20; 18; 12; 9; 7; 4; 3] ramp
    gsm_initial_short ltac:(apply wordsb_ok; vm_compute; reflexivity) eq_refl eq_refl eq_refl eq_refl
    ltac:(vm_compute; reflexivity)) as H.
  destruct (Gsm_Short_Term_Analysis_Filter _ _ _) as [d S'].
  destruct (Gsm_Short_Term_Synthesis_Filter _ _ _) as [s' T']. exact (proj1 H).
Defined.

(** What the coder needs of the analysis filter. *)
Lemma Gsm_Short_Term_Analysis_ok S LARc s : short_ok S -> words 160 s ->
  let '(d, S') := Gsm_Short_Term_Analysis_Filter S LARc s in words 160 d /\ short_ok S'.
Proof.
  intros HS Hs. unfold Gsm_Short_Term_Analysis_Filter.
  pose proof (segments_ok _ _ (LARpp_old_words S HS) (Decoding_words LARc)) as Hseg.
  pose proof (run_words _ s (u S) Hseg (proj1 HS) (proj2 Hs)) as H.
  destruct (run_filter _ _ s (u S)) as [d u']. cbn [fst snd] in H. destruct H as [Hd Hu'].
  split; [exact Hd |].
  destruct (store_LARpp_ok S _ HS (Decoding_words LARc)) as (_ & Hv & HL & Hj).
  exact (conj Hu' (conj Hv (conj HL Hj))).
Qed.

(** What the decoder needs of the synthesis filter. *)
Lemma synthesis_sample_words rrp x v : is_i16 x -> words 9 v ->
  is_i16 (fst (synthesis_sample rrp x v)) /\ words 9 (snd (synthesis_sample rrp x v)).
Proof.
  intros Hx Hv. unfold synthesis_sample.
  assert (H : is_i16 (fst (for_range 0 8 (fun t => synthesis_iter rrp (7 - t)) (x, v))) /\
              words 9 (snd (for_range 0 8 (fun t => synthesis_iter rrp (7 - t)) (x, v)))).
  { apply (for_range_ind (fun _ sv => is_i16 (fst sv) /\ words 9 (snd sv))); [lia | now split |].
    intros i [y w] _ [Hy Hw]. unfold synthesis_iter. cbn [fst snd] in *.
    split; [apply GSM_SUB_range |]. apply words_aset; [assumption |].
    apply GSM_ADD_word; [eapply words_aget; eassumption | apply i16_range]. }
  destruct (for_range _ _ _ _) as [y w]. cbn [fst snd] in *. destruct H.
  split; [assumption | now apply words_aset].
Qed.

Lemma synthesis_words rp k s v : words 9 v -> Forall is_i16 s ->
  words k (fst (Short_term_synthesis_filtering rp k s v)) /\
  words 9 (snd (Short_term_synthesis_filtering rp k s v)).
Proof.
  revert s v; induction k as [|k IH]; intros s v Hv Hs; [now split |].
  cbn [Short_term_synthesis_filtering].
  assert (Hx : is_i16 (hd 0 s)) by (destruct s; [apply is_i16_0 | now inversion Hs]).
  assert (Ht : Forall is_i16 (tl s)) by (destruct s; [constructor | now inversion Hs]).
  destruct (synthesis_sample_words rp (hd 0 s) v Hx Hv) as [Hy Hv'].
  destruct (synthesis_sample rp (hd 0 s) v) as [y v']. cbn [fst snd] in *.
  specialize (IH (tl s) v' Hv' Ht).
  destruct (Short_term_synthesis_filtering rp k (tl s) v') as [ds v'']. cbn [fst snd] in *.
  destruct IH as [[HL HF] Hv'']. split; [split; [simpl; congruence | now constructor] | assumption].
Qed.

Lemma run_synthesis_words segs s v : words 9 v -> Forall is_i16 s ->
  words (total segs) (fst (run_filter Short_term_synthesis_filtering segs s v)) /\
  words 9 (snd (run_filter Short_term_synthesis_filtering segs s v)).
Proof.
  revert s v; induction segs as [|[rp n] segs IH]; intros s v Hv Hs; [now split |].
  cbn [run_filter total fold_right snd fst] in *.
  destruct (synthesis_words rp n s v Hv Hs) as [[HLd HFd] Hv'].
  destruct (Short_term_synthesis_filtering rp n s v) as [d v']. cbn [fst snd] in *.
  specialize (IH (skipn n s) v' Hv' (Forall_skipn _ _ _ Hs)).
  destruct (run_filter _ segs (skipn n s) v') as [ds v'']. cbn [fst snd] in *.
  destruct IH as [[HL HF] Hv''].
  split; [split; [rewrite length_app; unfold total in HL; lia | now apply Forall_app] | assumption].
Qed.

(** The rest of the state is untouched. *)
Lemma Gsm_Short_Term_Synthesis_state S LARcr wt : short_ok S -> words 160 wt ->
  exists s S', Gsm_Short_Term_Synthesis_Filter S LARcr wt = (s, S') /\ words 160 s /\ short_ok S' /\
    dp0 S' = dp0 S /\ nrp S' = nrp S /\ msr S' = msr S /\
    LARpp S' = upd (LARpp S) (Z.to_nat (j S)) (Decoding_of_the_coded_Log_Area_Ratios LARcr) /\
    j S' = j S .^ 1.
Proof.
  intros HS Hs. unfold Gsm_Short_Term_Synthesis_Filter.
  pose proof (run_synthesis_words (segments (LARpp_old S) (Decoding_of_the_coded_Log_Area_Ratios LARcr))
    wt (v S) (proj1 (proj2 HS)) (proj2 Hs)) as H.
  destruct (run_filter _ _ wt (v S)) as [d v']. cbn [fst snd] in H. destruct H as [Hd Hv'].
  destruct (store_LARpp_ok S _ HS (Decoding_words LARcr)) as (Hu & _ & HL & Hj).
  do 2 eexists. split; [reflexivity |]. split; [exact Hd |].
  split; [exact (conj Hu (conj Hv' (conj HL Hj))) |]. repeat (split; [reflexivity |]). reflexivity.
Qed.
