(* ===== verification/GsmLongTerm.v ===== *)
(** * GSM 06.10: long-term prediction (src/mibench/telecomm/gsm/src/long_term.c)

    The search for the lag and the gain of the long-term predictor, the
    prediction residual of the coder (4.2.11, 4.2.12) and the synthesis of the
    decoder (4.3.2).  Integer version without the multiplication table.

    The buffers are arrays of the state addressed through pointers: [dp0] is the
    array and [dp], [dpp], [drp] are offsets into it, so that [dp[k - lambda]]
    is [dp0.[dp + k - lambda]].  The caller passes [dpp] equal to [dp]: the
    estimate overwrites the place of the new samples. *)

From Stdlib Require Import ZArith Lia List Bool.
Import ListNotations.
From S2P Require Import Prelude GsmArith GsmState GsmLpc.

(** ** [Calculation_of_the_LTP_parameters] *)

(** The scaling of [d[0..39]]. *)
Definition ltp_scal (d : list Z) : option Z :=
  let dmax := max_abs 40 d in
  let* temp :=
    if dmax =? 0 then Some 0
    else (assert! 0 <? dmax in gsm_norm (dmax << 16)) in
  let scal := if 6 <? temp then 0 else i16 (6 - temp) in
  assert! 0 <=? scal in Some scal.

(** [STEP(0) + ... + STEP(39)]: products of a 10-bit and a 16-bit value, within
    the [int] they are computed in. *)
Definition cross_correlation (wt dp0 : list Z) (dp lambda : Z) : Z :=
  sum_range 0 40 (fun k => wt.[k] * dp0.[dp + k - lambda]).

(** The loop over the lags, on [(Nc, L_max)]. *)
Definition ltp_search (wt dp0 : list Z) (dp : Z) : Z * Z :=
  for_range 40 121 (fun lambda best =>
    let '(Nc, L_max) := best in
    let L_result := cross_correlation wt dp0 dp lambda in
    if L_max <? L_result then (lambda, L_result) else (Nc, L_max)) (40, 0).

(** The power of the reconstructed residual at the lag found. *)
Definition ltp_power (dp0 : list Z) (dp Nc : Z) : Z :=
  i64 (sum_range 0 40 (fun k =>
    let L_temp := SASR dp0.[dp + k - Nc] 3 in L_temp * L_temp) << 1).

(** [for (bc = 0; bc <= 2; bc++) if (R <= gsm_mult(S, gsm_DLB[bc])) break;] *)
Fixpoint gain_loop (left : nat) (R S bc : Z) : Z :=
  match left with
  | O => bc
  | Datatypes.S left' => if R <=? gsm_mult S gsm_DLB.[bc] then bc else gain_loop left' R S (bc + 1)
  end.

Definition ltp_gain (L_max L_power : Z) : option Z :=
  if L_max <=? 0 then Some 0
  else if L_power <=? L_max then Some 3
  else
    let* temp := gsm_norm L_power in
    let R := i16 (SASR (i64 (L_max << temp)) 16) in
    let S := i16 (SASR (i64 (L_power << temp)) 16) in
    Some (gain_loop 3 R S 0).

(** The result is [(bc_out, Nc_out)]. *)
Definition Calculation_of_the_LTP_parameters (d dp0 : list Z) (dp : Z) : option (Z * Z) :=
  let* scal := ltp_scal d in
  let wt := map (fun x => SASR x scal) d in
  let '(Nc, L_max) := ltp_search wt dp0 dp in
  let L_max := i64 (L_max << 1) in
  assert! (scal <=? 100) && (-100 <=? scal) in
  let L_max := L_max >> (6 - scal) in
  assert! (Nc <=? 120) && (40 <=? Nc) in
  let L_power := ltp_power dp0 dp Nc in
  let* bc := ltp_gain L_max L_power in
  Some (bc, Nc).

(** ** [Long_term_analysis_filtering] *)

(** [STEP(BP)]: the loop over the 40 samples, on the arrays [(dp0, e)]; the
    caller's [e] is the array's address plus 5. *)
Definition ltp_STEP (BP Nc dp dpp : Z) (d : list Z) (a : list Z * list Z) : list Z * list Z :=
  for_range 0 40 (fun k a =>
    let '(dp0, e) := a in
    let dp0 := aset dp0 (dpp + k) (i16 (GSM_MULT_R BP dp0.[dp + k - Nc])) in
    let e := aset e (5 + k) (GSM_SUB d.[k] dp0.[dpp + k]) in
    (dp0, e)) a.

Definition Long_term_analysis_filtering (bc Nc dp dpp : Z) (d dp0 e : list Z) : list Z * list Z :=
  if bc =? 0 then ltp_STEP 3277 Nc dp dpp d (dp0, e)
  else if bc =? 1 then ltp_STEP 11469 Nc dp dpp d (dp0, e)
  else if bc =? 2 then ltp_STEP 21299 Nc dp dpp d (dp0, e)
  else if bc =? 3 then ltp_STEP 32767 Nc dp dpp d (dp0, e)
  else (dp0, e).

(** The result is [(Nc, bc, dp0, e)]; the pointer assertions hold for the
    caller's arrays. *)
Definition Gsm_Long_Term_Predictor (d dp0 e : list Z) (dp dpp : Z)
  : option (Z * Z * list Z * list Z) :=
  let* (bc, Nc) := Calculation_of_the_LTP_parameters d dp0 dp in
  let '(dp0, e) := Long_term_analysis_filtering bc Nc dp dpp d dp0 e in
  Some (Nc, bc, dp0, e).

(** ** [Gsm_Long_Term_Synthesis_Filtering] *)

Definition Gsm_Long_Term_Synthesis_Filtering (S : gsm_state) (Ncr bcr : Z) (erp : list Z) (drp : Z)
  : option gsm_state :=
  let Nr := if (Ncr <? 40) || (120 <? Ncr) then nrp S else Ncr in
  let S := set_nrp S Nr in
  assert! (40 <=? Nr) && (Nr <=? 120) in
  let brp := gsm_QLB.[bcr] in
  assert! negb (brp =? MIN_WORD) in
  let dp0 := fill 40 drp (fun k dp0 =>
    let drpp := i16 (GSM_MULT_R brp dp0.[drp + k - Nr]) in GSM_ADD erp.[k] drpp) (dp0 S) in
  let dp0 := fill 120 (drp - 120) (fun k dp0 => dp0.[drp - 80 + k]) dp0 in
  Some (set_dp0 S dp0).

(** ** The scaling *)

Lemma ltp_scal_ok d : words 40 d ->
  exists scal, ltp_scal d = Some scal /\ 0 <= scal <= 6 /\
    forall k, 0 <= k < 40 -> -512 <= SASR d.[k] scal <= 512.
Proof.
  intros Hd. destruct (max_abs_spec 40 d ltac:(lia) (proj2 Hd)) as [Hm Hb]. unfold ltp_scal.
  set (m := max_abs 40 d) in *. clearbody m.
  assert (HB : forall k, 0 <= k < 40 -> - m - 1 <= d.[k] <= m /\ (d.[k] < - m -> m = 32767))
    by (intros k Hk; apply GSM_ABS_le; [eapply words_aget; eassumption | now apply Hb]).
  destruct (Z.eqb_spec m 0) as [->|Hnz].
  { cbn [bind]. exists 6. split; [reflexivity |]. split; [lia |]. intros k Hk.
    specialize (HB k Hk). unfold SASR. rewrite shiftr_div by lia. zpow_compute. zlia. }
  replace (0 <? m) with true by (symmetry; apply Z.ltb_lt; lia). rewrite shiftl_mul by lia.
  destruct (gsm_norm_pos (m * 2 ^ 16) ltac:(lia)) as (n & -> & Hn & Hnb). cbn [bind].
  destruct (Z.ltb_spec 6 n) as [H6|H6].
  - exists 0. split; [reflexivity |]. split; [lia |]. intros k Hk. specialize (HB k Hk).
    unfold SASR. rewrite Z.shiftr_0_r.
    assert (2 ^ 7 <= 2 ^ n) by (apply Z.pow_le_mono_r; lia).
    assert (m < 256) by nia. lia.
  - rewrite i16_id by (unfold is_i16; lia).
    replace (0 <=? 6 - n) with true by (symmetry; apply Z.leb_le; lia).
    exists (6 - n). split; [reflexivity |]. split; [lia |]. intros k Hk. specialize (HB k Hk).
    unfold SASR. rewrite shiftr_div by lia.
    assert (E : n = 0 \/ n = 1 \/ n = 2 \/ n = 3 \/ n = 4 \/ n = 5 \/ n = 6) by lia.
    destruct E as [->|[->|[->|[->|[->|[->| ->]]]]]]; zpow_compute; zlia.
Qed.

(** ** The lag *)

Record best_lag (wt dp0 : list Z) (dp Nc L_max : Z) : Prop := {
  lag_range : 40 <= Nc <= 120;
  lag_max : forall lambda, 40 <= lambda <= 120 -> cross_correlation wt dp0 dp lambda <= L_max;
  lag_attained : (L_max = 0 /\ Nc = 40) \/ (0 < L_max /\ L_max = cross_correlation wt dp0 dp Nc);
  lag_first : forall lambda, 40 <= lambda < Nc -> cross_correlation wt dp0 dp lambda < L_max
}.

Lemma ltp_search_best wt dp0 dp :
  let '(Nc, L_max) := ltp_search wt dp0 dp in best_lag wt dp0 dp Nc L_max.
Proof.
  unfold ltp_search. set (cc := cross_correlation wt dp0 dp).
  assert (I : let '(Nc, L_max) := for_range 40 121 (fun lambda best =>
      let '(Nc, L_max) := best in
      if L_max <? cc lambda then (lambda, cc lambda) else (Nc, L_max)) (40, 0) in
    40 <= Nc <= 120 /\ (forall l, 40 <= l < 121 -> cc l <= L_max) /\
    ((L_max = 0 /\ Nc = 40) \/ (0 < L_max /\ L_max = cc Nc)) /\
    (forall l, 40 <= l < Nc -> cc l < L_max)).
  { apply (for_range_ind (fun i best => let '(Nc, L_max) := best in
      40 <= Nc <= 120 /\ (forall l, 40 <= l < i -> cc l <= L_max) /\
      ((L_max = 0 /\ Nc = 40) \/ (0 < L_max /\ L_max = cc Nc)) /\
      (forall l, 40 <= l < Nc -> cc l < L_max))); [lia | repeat split; try lia; tauto |].
    intros i [Nc L] Hi (H1 & H2 & H3 & H4). cbv zeta.
    destruct (Z.ltb_spec L (cc i)) as [Hlt|Hge].
    - split; [lia |]. split; [| split; [right; lia |]].
      + intros l Hl. destruct (Z.eqb_spec l i) as [->|]; [lia |]. specialize (H2 l ltac:(lia)). lia.
      + intros l Hl. specialize (H2 l ltac:(lia)). lia.
    - split; [lia |]. split; [| split; assumption].
      intros l Hl. destruct (Z.eqb_spec l i) as [->|]; [lia |]. apply H2; lia. }
  destruct (for_range 40 121 _ _) as [Nc L]. destruct I as (H1 & H2 & H3 & H4).
  split; [exact H1 | intros l Hl; apply H2; lia | exact H3 | exact H4].
Qed.

Lemma cross_correlation_bound wt dp0 dp lambda :
  (forall k, 0 <= k < 40 -> -512 <= wt.[k] <= 512) -> Forall is_i16 dp0 ->
  Z.abs (cross_correlation wt dp0 dp lambda) <= 40 * (512 * 32768).
Proof.
  intros Hw Hd. unfold cross_correlation.
  assert (HT : forall k, 0 <= k < 40 -> - (512 * 32768) <= wt.[k] * dp0.[dp + k - lambda] <= 512 * 32768).
  { intros k Hk. specialize (Hw k Hk).
    assert (H : is_i16 dp0.[dp + k - lambda]) by (apply Forall_aget; [apply is_i16_0 | assumption]).
    unfold is_i16 in H. nia. }
  pose proof (sum_range_le 0 40 (fun _ => - (512 * 32768)) _ (fun k Hk => proj1 (HT k Hk))) as L.
  pose proof (sum_range_le 0 40 _ (fun _ => 512 * 32768) (fun k Hk => proj2 (HT k Hk))) as U.
  rewrite sum_range_const in L, U by lia. lia.
Qed.

(** ** The gain *)

(** Energy of the predictor's input at the lag, in the code's units. *)
Lemma ltp_power_value dp0 dp Nc : Forall is_i16 dp0 ->
  ltp_power dp0 dp Nc = 2 * sum_range 0 40 (fun k => (dp0.[dp + k - Nc] / 8) * (dp0.[dp + k - Nc] / 8)) /\
  0 <= ltp_power dp0 dp Nc <= 1342177280.
Proof.
  intros Hd. unfold ltp_power. set (f := fun k => _).
  assert (E : sum_range 0 40 f = sum_range 0 40 (fun k => (dp0.[dp + k - Nc] / 8) * (dp0.[dp + k - Nc] / 8)))
    by (apply sum_range_ext; intros k _; unfold f, SASR; now rewrite shiftr_div by lia).
  rewrite E. clear E f.
  assert (HT : forall k, 0 <= k < 40 -> 0 <= (dp0.[dp + k - Nc] / 8) * (dp0.[dp + k - Nc] / 8) <= 16777216).
  { intros k Hk. assert (H : is_i16 dp0.[dp + k - Nc]) by (apply Forall_aget; [apply is_i16_0 | assumption]).
    unfold is_i16 in H. assert (-4096 <= dp0.[dp + k - Nc] / 8 <= 4095) by zlia. nia. }
  pose proof (sum_range_nonneg 0 40 _ (fun k Hk => proj1 (HT k Hk))) as L.
  pose proof (sum_range_le 0 40 _ (fun _ => 16777216) (fun k Hk => proj2 (HT k Hk))) as U.
  rewrite sum_range_const in U by lia. cbv beta in L.
  rewrite shiftl_mul, i64_id by (try lia; unfold is_i64; lia). lia.
Qed.

(** The quantised gain brackets the ratio [L_max / L_power]: the comparison of
    the normalised 16-bit values is off by at most 2 in 32768. *)
Definition gain_brackets (bc L_max L_power : Z) : Prop :=
  0 <= bc <= 3 /\
  (bc < 3 -> 32768 * L_max <= (gsm_DLB.[bc] + 2) * L_power) /\
  (0 < bc -> (gsm_DLB.[bc - 1] - 2) * L_power <= 32768 * L_max).

Lemma gain_step R S x y D n : 0 <= n -> 0 < D <= 32767 -> 0 < x < y -> 2 ^ 30 <= y * 2 ^ n < 2 ^ 31 ->
  R = x * 2 ^ n / 65536 -> S = y * 2 ^ n / 65536 ->
  ((R <=? gsm_mult S D) = true -> 32768 * x <= (D + 2) * y) /\
  ((R <=? gsm_mult S D) = false -> (D - 2) * y <= 32768 * x).
Proof.
  intros Hn HD Hxy Hy ER ES.
  assert (HS : 16384 <= S <= 32767) by (subst S; zlia).
  assert (HM : gsm_mult S D = S * D / 32768).
  { unfold gsm_mult, SASR. rewrite shiftr_div by lia.
    replace (S =? MIN_WORD) with false by (symmetry; apply Z.eqb_neq; unfold MIN_WORD; lia).
    cbn [andb]. zpow_compute. apply i16_id. unfold is_i16.
    assert (0 <= S * D <= 32767 * 32767) by nia. zlia. }
  rewrite HM. assert (0 < 2 ^ n) by (apply Z.pow_pos_nonneg; lia).
  set (X := x * 2 ^ n) in *. set (Y := y * 2 ^ n) in *.
  assert (HX : 65536 * R <= X < 65536 * R + 65536) by zlia.
  assert (HY : 65536 * S <= Y < 65536 * S + 65536) by zlia.
  assert (HP : 32768 * (S * D / 32768) <= S * D < 32768 * (S * D / 32768) + 32768) by zlia.
  set (q := S * D / 32768) in *. clearbody q. clear ER ES.
  destruct (Z.leb_spec R q); (split; [| try discriminate]); try discriminate; intros _.
  - assert (32768 * X <= (D + 2) * Y) by nia. unfold X, Y in *. nia.
  - assert ((D - 2) * Y <= 32768 * X) by nia. unfold X, Y in *. nia.
Qed.

Lemma ltp_gain_ok L_max L_power : L_power < 2 ^ 31 ->
  exists bc, ltp_gain L_max L_power = Some bc /\ 0 <= bc <= 3 /\
    (L_max <= 0 -> bc = 0) /\ (0 < L_max -> L_power <= L_max -> bc = 3) /\
    (0 < L_max < L_power -> gain_brackets bc L_max L_power).
Proof.
  intros HP. unfold ltp_gain. destruct (Z.leb_spec L_max 0); [exists 0; repeat split; lia |].
  destruct (Z.leb_spec L_power L_max); [exists 3; repeat split; lia |].
  destruct (gsm_norm_pos L_power ltac:(lia)) as (n & -> & Hn & Hb). cbn [bind].
  eexists; split; [reflexivity |].
  assert (0 < 2 ^ n) by (apply Z.pow_pos_nonneg; lia).
  assert (E : forall x, 0 < x <= L_power ->
    i16 (SASR (i64 (x << n)) 16) = x * 2 ^ n / 65536).
  { intros x Hx. rewrite (normalised_acf_word x L_power n) by lia. reflexivity. }
  rewrite (E L_max), (E L_power) by lia.
  set (R := L_max * 2 ^ n / 65536). set (S := L_power * 2 ^ n / 65536).
  pose proof (fun D HD => gain_step R S L_max L_power D n ltac:(lia) HD ltac:(lia) Hb eq_refl eq_refl) as G.
  cbn [gain_loop]. unfold gain_brackets.
  change (gsm_DLB.[0]) with 6554. change (gsm_DLB.[0 + 1]) with 16384. change (gsm_DLB.[0 + 1 + 1]) with 26214.
  pose proof (G 6554 ltac:(lia)) as [G1 G1']. pose proof (G 16384 ltac:(lia)) as [G2 G2'].
  pose proof (G 26214 ltac:(lia)) as [G3 G3']. clear G.
  destruct (R <=? gsm_mult S 6554); [| destruct (R <=? gsm_mult S 16384); [| destruct (R <=? gsm_mult S 26214)]];
    (split; [lia |]); (split; [lia |]); (split; [lia |]); intros _; (split; [lia |]);
    (split; intros; try lia).
  - exact (G1 eq_refl).
  - exact (G2 eq_refl).
  - exact (G1' eq_refl).
  - exact (G3 eq_refl).
  - exact (G2' eq_refl).
  - exact (G3' eq_refl).
Qed.

(** The lag and the gain of one sub-segment, from the scaled segment [wt]. *)
Lemma Calculation_ok d dp0 dp : words 40 d -> Forall is_i16 dp0 ->
  exists scal bc Nc L_max, ltp_scal d = Some scal /\ 0 <= scal <= 6 /\
    Calculation_of_the_LTP_parameters d dp0 dp = Some (bc, Nc) /\ 0 <= bc <= 3 /\
    best_lag (map (fun x => SASR x scal) d) dp0 dp Nc L_max /\
    (let L := 2 * L_max / 2 ^ (6 - scal) in
     0 < L < ltp_power dp0 dp Nc -> gain_brackets bc L (ltp_power dp0 dp Nc)).
Proof.
  intros Hd Hp. destruct (ltp_scal_ok d Hd) as (scal & E & Hs & Hw).
  unfold Calculation_of_the_LTP_parameters. rewrite E. cbn [bind].
  set (wt := map (fun x => SASR x scal) d).
  assert (Hwt : forall k, 0 <= k < 40 -> -512 <= wt.[k] <= 512)
    by (intros k Hk; unfold wt; rewrite aget_map by (rewrite (proj1 Hd); lia); now apply Hw).
  pose proof (ltp_search_best wt dp0 dp) as HB.
  destruct (ltp_search wt dp0 dp) as [Nc L_max].
  pose proof (cross_correlation_bound wt dp0 dp Nc Hwt Hp) as HC.
  assert (HL : 0 <= L_max <= 671088640)
    by (destruct (lag_attained _ _ _ _ _ HB) as [[-> _]|[? ->]]; lia).
  pose proof (lag_range _ _ _ _ _ HB) as HN.
  rewrite shiftl_mul, i64_id by (try lia; unfold is_i64; lia).
  replace (scal <=? 100) with true by (symmetry; apply Z.leb_le; lia).
  replace (-100 <=? scal) with true by (symmetry; apply Z.leb_le; lia).
  replace (Nc <=? 120) with true by (symmetry; apply Z.leb_le; lia).
  replace (40 <=? Nc) with true by (symmetry; apply Z.leb_le; lia). cbn [andb].
  destruct (ltp_power_value dp0 dp Nc Hp) as [_ HPow].
  destruct (ltp_gain_ok (L_max * 2 ^ 1 >> (6 - scal)) (ltp_power dp0 dp Nc) ltac:(lia))
    as (bc & -> & Hbc & _ & _ & HG). cbn [bind].
  exists scal, bc, Nc, L_max. rewrite shiftr_div in HG by lia.
  replace (L_max * 2 ^ 1) with (2 * L_max) in HG by lia.
  split; [reflexivity |]. split; [lia |]. split; [reflexivity |]. split; [exact Hbc |].
  split; [exact HB | exact HG].
Qed.

(** For any 40 residual words and any history, the long-term predictor's
    parameters are computed without a failed assertion; the lag is the first
    of 40..120 that maximises the cross-correlation with the scaled segment
    (40 when none is positive), and the coded gain brackets the ratio of
    correlation to power between its two decision levels. *)
Theorem LTP_parameters_correct d dp0 dp : words 40 d -> Forall is_i16 dp0 ->
  exists scal bc Nc L_max, ltp_scal d = Some scal /\
    Calculation_of_the_LTP_parameters d dp0 dp = Some (bc, Nc) /\ 0 <= bc <= 3 /\
    best_lag (map (fun x => SASR x scal) d) dp0 dp Nc L_max /\
    (let L := 2 * L_max / 2 ^ (6 - scal) in
     0 < L < ltp_power dp0 dp Nc -> gain_brackets bc L (ltp_power dp0 dp Nc)).
Proof.
  intros Hd Hp. destruct (Calculation_ok d dp0 dp Hd Hp) as (scal & bc & Nc & L & H1 & _ & H).
  exists scal, bc, Nc, L. split; [exact H1 | exact H].
Qed.

Definition pulses : list Z := map (fun n => if Nat.eqb (Nat.modulo n 55) 0 then 9000 else Z.of_nat n - 80) (seq 0 280).

Lemma LTP_parameters_correct_witness :
  exists bc Nc L_max scal, Calculation_of_the_LTP_parameters (firstn 40 pulses) pulses 120 = Some (bc, Nc) /\
    best_lag (map (fun x => SASR x scal) (firstn 40 pulses)) pulses 120 Nc L_max.
Proof.
  destruct (LTP_parameters_correct (firstn 40 pulses) pulses 120) as (scal & bc & Nc & L & _ & E & _ & H & _).
  - apply wordsb_ok; vm_compute; reflexivity.
  - apply (wordsb_ok 280); vm_compute; reflexivity.
  - exists bc, Nc, L, scal. split; [exact E | exact H].
Defined.

(** ** The prediction *)

Lemma QLB_words bc : is_i16 gsm_QLB.[bc].
Proof.
  apply Forall_aget; [apply is_i16_0 |]. unfold gsm_QLB.
  repeat (apply Forall_cons; [unfold is_i16; lia |]). apply Forall_nil.
Qed.

(** The estimate of the 40 new samples from the history at offset [dp]. *)
Definition ltp_estimate (dp0 : list Z) (dp Nc bc k : Z) : Z :=
  i16 (GSM_MULT_R gsm_QLB.[bc] dp0.[dp + k - Nc]).

Lemma ltp_STEP_spec BP Nc dp d dp0 e : 40 <= Nc <= 120 -> 120 <= dp ->
  dp + 40 <= Z.of_nat (length dp0) -> length e = 50%nat ->
  let '(dp0', e') := ltp_STEP BP Nc dp dp d (dp0, e) in
  (agree_outside dp (dp + 40) dp0' dp0 /\
   forall k, 0 <= k < 40 -> dp0'.[dp + k] = i16 (GSM_MULT_R BP dp0.[dp + k - Nc])) /\
  (agree_outside 5 45 e' e /\
   forall k, 0 <= k < 40 -> e'.[5 + k] = GSM_SUB d.[k] (i16 (GSM_MULT_R BP dp0.[dp + k - Nc]))).
Proof.
  intros HN Hdp HL HLe. unfold ltp_STEP.
  apply (for_range_ind (fun m a => let '(dp0', e') := a in
    (agree_outside dp (dp + m) dp0' dp0 /\
     forall k, 0 <= k < m -> dp0'.[dp + k] = i16 (GSM_MULT_R BP dp0.[dp + k - Nc])) /\
    (agree_outside 5 (5 + m) e' e /\
     forall k, 0 <= k < m -> e'.[5 + k] = GSM_SUB d.[k] (i16 (GSM_MULT_R BP dp0.[dp + k - Nc]))))).
  - lia.
  - repeat split; intros; lia.
  - intros m [a b] Hm (([HLa Ha] & Hva) & ([HLb Hb] & Hvb)).
    assert (Er : a.[dp + m - Nc] = dp0.[dp + m - Nc]) by (apply Ha; lia).
    rewrite Er. rewrite aget_aset, Z.eqb_refl by lia.
    split; split.
    + split; [rewrite aset_length; lia |]. intros i Hi Ho. rewrite aget_aset by lia.
      destruct (Z.eqb_spec i (dp + m)); [lia | apply Ha; lia].
    + intros k Hk. rewrite aget_aset by lia.
      destruct (Z.eqb_spec (dp + k) (dp + m)); [now replace k with m by lia | apply Hva; lia].
    + split; [rewrite aset_length; lia |]. intros i Hi Ho. rewrite aget_aset by lia.
      destruct (Z.eqb_spec i (5 + m)); [lia | apply Hb; lia].
    + intros k Hk. rewrite aget_aset by lia.
      destruct (Z.eqb_spec (5 + k) (5 + m)); [now replace k with m by lia | apply Hvb; lia].
Qed.

(** The switch on [bc] is the table of quantised gains. *)
Lemma Long_term_analysis_switch bc Nc dp dpp d dp0 e : 0 <= bc <= 3 ->
  Long_term_analysis_filtering bc Nc dp dpp d dp0 e = ltp_STEP gsm_QLB.[bc] Nc dp dpp d (dp0, e).
Proof.
  intros H. assert (E : bc = 0 \/ bc = 1 \/ bc = 2 \/ bc = 3) by lia.
  destruct E as [->|[->|[->| ->]]]; reflexivity.
Qed.

(** What the coder gets from the predictor: codes in range, the estimate in
    place of the new samples, the residual in [e]. *)
Lemma Gsm_Long_Term_Predictor_ok d dp0 e dp : words 40 d -> words 280 dp0 -> words 50 e ->
  120 <= dp -> dp + 40 <= 280 ->
  exists Nc bc dp0' e', Gsm_Long_Term_Predictor d dp0 e dp dp = Some (Nc, bc, dp0', e') /\
    40 <= Nc <= 120 /\ 0 <= bc <= 3 /\
    (agree_outside dp (dp + 40) dp0' dp0 /\
     forall k, 0 <= k < 40 -> dp0'.[dp + k] = ltp_estimate dp0 dp Nc bc k) /\
    (agree_outside 5 45 e' e /\
     forall k, 0 <= k < 40 -> e'.[5 + k] = GSM_SUB d.[k] (ltp_estimate dp0 dp Nc bc k)).
Proof.
  intros Hd Hp He Hdp Hdp'. destruct (Calculation_ok d dp0 dp Hd (proj2 Hp))
    as (scal & bc & Nc & L & _ & _ & E & Hbc & HB & _).
  pose proof (lag_range _ _ _ _ _ HB) as HN.
  unfold Gsm_Long_Term_Predictor. rewrite E. cbn [bind].
  rewrite Long_term_analysis_switch by assumption.
  pose proof (ltp_STEP_spec gsm_QLB.[bc] Nc dp d dp0 e HN Hdp ltac:(rewrite (proj1 Hp); lia) (proj1 He)) as H.
  destruct (ltp_STEP _ _ _ _ _ _) as [dp0' e'].
  exists Nc, bc, dp0', e'. split; [reflexivity |]. split; [exact HN |]. split; [exact Hbc | exact H].
Qed.

(** ** The decoder's side *)

Definition effective_lag (S : gsm_state) (Ncr : Z) : Z :=
  if (Ncr <? 40) || (120 <? Ncr) then nrp S else Ncr.

(** One sub-segment of the decoder: the 40 new samples follow the history and
    the whole window moves down by 40. *)
Lemma Gsm_Long_Term_Synthesis_ok S Ncr bcr erp : words 280 (dp0 S) -> 40 <= nrp S <= 120 ->
  exists S', Gsm_Long_Term_Synthesis_Filtering S Ncr bcr erp 120 = Some S' /\
    S' = set_dp0 (set_nrp S (effective_lag S Ncr)) (dp0 S') /\
    40 <= effective_lag S Ncr <= 120 /\ length (dp0 S') = 280%nat /\
    (forall k, 0 <= k < 40 ->
       (dp0 S').[120 + k] = GSM_ADD erp.[k] (ltp_estimate (dp0 S) 120 (effective_lag S Ncr) bcr k)) /\
    (forall i, 0 <= i < 80 -> (dp0 S').[i] = (dp0 S).[i + 40]) /\
    (forall k, 0 <= k < 40 -> (dp0 S').[80 + k] = (dp0 S').[120 + k]) /\
    (forall i, 160 <= i -> (dp0 S').[i] = (dp0 S).[i]).
Proof.
  intros [HL _] HN. unfold Gsm_Long_Term_Synthesis_Filtering. fold (effective_lag S Ncr).
  assert (HE : 40 <= effective_lag S Ncr <= 120)
    by (unfold effective_lag; destruct (Z.ltb_spec Ncr 40), (Z.ltb_spec 120 Ncr); cbn [orb]; lia).
  set (Nr := effective_lag S Ncr) in *. clearbody Nr.
  replace (40 <=? Nr) with true by (symmetry; apply Z.leb_le; lia).
  replace (Nr <=? 120) with true by (symmetry; apply Z.leb_le; lia). cbn [andb].
  replace (gsm_QLB.[bcr] =? MIN_WORD) with false.
  2:{ symmetry; apply Z.eqb_neq. unfold MIN_WORD.
      enough (0 <= gsm_QLB.[bcr]) by lia. apply (Forall_aget (fun x => 0 <= x)); [lia |].
      unfold gsm_QLB. repeat (apply Forall_cons; [lia |]). apply Forall_nil. }
  cbn [negb]. cbn [dp0 set_nrp].
  destruct (fill_spec 40 120 (fun k dp0 =>
      GSM_ADD erp.[k] (i16 (GSM_MULT_R gsm_QLB.[bcr] dp0.[120 + k - Nr]))) (dp0 S)) as [[HL1 Ha1] Hv1];
    [lia | lia | lia | intros k a Hk [_ Ha]; now rewrite Ha by lia |].
  set (a1 := fill 40 120 _ (dp0 S)) in *.
  destruct (fill_spec 120 (120 - 120) (fun k dp0 => dp0.[120 - 80 + k]) a1) as [[HL2 Ha2] Hv2];
    [lia | lia | lia | intros k a Hk [_ Ha]; now rewrite Ha by lia |].
  set (a2 := fill 120 (120 - 120) _ a1) in *.
  eexists; split; [reflexivity |]. cbn [dp0 set_dp0 set_nrp].
  replace (120 - 120) with 0 in * by lia.
  split; [reflexivity |]. split; [exact HE |]. split; [lia |].
  assert (HT : forall k, 0 <= k < 40 -> a2.[120 + k] = a1.[120 + k]) by (intros; apply Ha2; lia).
  split; [intros k Hk; rewrite HT by lia; apply Hv1; lia |].
  split; [| split].
  - intros i Hi. specialize (Hv2 i ltac:(lia)). replace (0 + i) with i in Hv2 by lia. rewrite Hv2.
    rewrite Ha1 by lia. f_equal. lia.
  - intros k Hk. rewrite HT by lia. specialize (Hv2 (80 + k) ltac:(lia)).
    replace (0 + (80 + k)) with (80 + k) in Hv2 by lia. rewrite Hv2. f_equal. lia.
  - intros i Hi. rewrite Ha2 by lia. apply Ha1; lia.
Qed.
