(* ===== verification/GsmRpe.v ===== *)
(** * GSM 06.10: regular-pulse excitation (src/mibench/telecomm/gsm/src/rpe.c)

    The weighting filter, the choice of the grid, the adaptive quantisation of
    the 13 samples, its inverse, and the placement of the decoded samples on the
    grid (4.2.13 to 4.2.17).  STUPID_COMPILER is defined. *)

From Stdlib Require Import ZArith Lia List Bool.
Import ListNotations.
From S2P Require Import Prelude GsmArith GsmState GsmLpc.

(** ** [Weighting_filter] *)

(** [e] is the caller's whole array: the pointer's [e - 5] is its start. *)
Definition weighting_sum (e : list Z) (k : Z) : Z :=
  let STEP i H := e.[k + i] * H in
  let L_result := 8192 >> 1 in
  let L_result := L_result + STEP 0 (-134) in
  let L_result := L_result + STEP 1 (-374) in
  let L_result := L_result + STEP 3 2054 in
  let L_result := L_result + STEP 4 5741 in
  let L_result := L_result + STEP 5 8192 in
  let L_result := L_result + STEP 6 5741 in
  let L_result := L_result + STEP 7 2054 in
  let L_result := L_result + STEP 9 (-374) in
  let L_result := L_result + STEP 10 (-134) in
  L_result.

Definition Weighting_filter (e : list Z) : list Z :=
  fill 40 0 (fun k _ =>
    let L_result := SASR (weighting_sum e k) 13 in
    if L_result <? MIN_WORD then MIN_WORD
    else if MAX_WORD <? L_result then MAX_WORD else L_result) (repeat 0 40).

(** ** [RPE_grid_selection] *)

(** [STEP( m, i )] accumulates the square of [SASR( x[m + 3 * i], 2 )]. *)
Definition grid_STEP (x : list Z) (m i L_result : Z) : Z :=
  let L_temp := SASR x.[m + 3 * i] 2 in L_result + L_temp * L_temp.

(** [STEP( m, lo ); ...; STEP( m, 12 )] *)
Definition grid_STEPS (x : list Z) (m lo L_result : Z) : Z :=
  for_range lo 13 (grid_STEP x m) L_result.

(** The four candidates, the first and the last sharing a sum; then the
    down-sampling.  The result is [(xM, Mc)]. *)
Definition RPE_grid_selection (x : list Z) : list Z * Z :=
  let L_common_0_3 := grid_STEPS x 0 1 0 in
  let L_result := grid_STEP x 0 0 L_common_0_3 in
  let L_result := i64 (L_result << 1) in
  let '(EM, Mc) := (L_result, 0) in
  let L_result := grid_STEPS x 1 1 (grid_STEP x 1 0 0) in
  let L_result := i64 (L_result << 1) in
  let '(EM, Mc) := if EM <? L_result then (L_result, 1) else (EM, Mc) in
  let L_result := grid_STEPS x 2 1 (grid_STEP x 2 0 0) in
  let L_result := i64 (L_result << 1) in
  let '(EM, Mc) := if EM <? L_result then (L_result, 2) else (EM, Mc) in
  let L_result := grid_STEP x 3 12 L_common_0_3 in
  let L_result := i64 (L_result << 1) in
  let '(EM, Mc) := if EM <? L_result then (L_result, 3) else (EM, Mc) in
  (fill 13 0 (fun i _ => x.[Mc + 3 * i]) (repeat 0 13), Mc).

(** ** [APCM_quantization_xmaxc_to_exp_mant] *)

(** [while (mant <= 7) { mant = mant << 1 | 1; exp--; }] from a positive
    mantissa: at most 3 turns. *)
Fixpoint exp_mant_loop (fuel : nat) (exp mant : Z) : option (Z * Z) :=
  if mant <=? 7 then
    match fuel with
    | O => None
    | S fuel' => exp_mant_loop fuel' (exp - 1) (i16 ((mant << 1) .| 1))
    end
  else Some (exp, mant).

Definition APCM_quantization_xmaxc_to_exp_mant (xmaxc : Z) : option (Z * Z) :=
  let exp := if 15 <? xmaxc then i16 (SASR xmaxc 3 - 1) else 0 in
  let mant := i16 (xmaxc - (exp << 3)) in
  let* (exp, mant) :=
    if mant =? 0 then Some (-4, 7)
    else let* (exp, mant) := exp_mant_loop 16 exp mant in Some (exp, mant - 8) in
  assert! (-4 <=? exp) && (exp <=? 6) in
  assert! (0 <=? mant) && (mant <=? 7) in
  Some (exp, mant).

(** ** [APCM_quantization] *)

(** One turn of the loop that codes [xmax], on [(exp, temp, itest)]. *)
Definition xmax_iter (s : Z * Z * Z) : option (Z * Z * Z) :=
  let '(exp, temp, itest) := s in
  let itest := itest .| b2z (temp <=? 0) in
  let temp := SASR temp 1 in
  assert! exp <=? 5 in
  Some (if itest =? 0 then exp + 1 else exp, temp, itest).

Definition code_xmax (xmax : Z) : option Z :=
  let* (exp, _, _) := for_opt 0 6 (fun _ => xmax_iter) (0, SASR xmax 9, 0) in
  assert! (exp <=? 6) && (0 <=? exp) in
  let temp := exp + 5 in
  assert! (temp <=? 11) && (0 <=? temp) in
  Some (gsm_add (SASR xmax temp) (exp << 3)).

(** One turn of the loop that codes the samples. *)
Definition code_sample (temp1 temp2 x : Z) : option Z :=
  assert! (0 <=? temp1) && (temp1 <? 16) in
  let temp := i16 (x << temp1) in
  let temp := i16 (GSM_MULT temp temp2) in
  let temp := SASR temp 12 in
  Some (temp + 4).

(** The result is [(xMc, mant, exp, xmaxc)]. *)
Definition APCM_quantization (xM : list Z) : option (list Z * Z * Z * Z) :=
  let xmax := max_abs 13 xM in
  let* xmaxc := code_xmax xmax in
  let* (exp, mant) := APCM_quantization_xmaxc_to_exp_mant xmaxc in
  assert! (exp <=? 4096) && (-4096 <=? exp) in
  assert! (0 <=? mant) && (mant <=? 7) in
  let temp1 := i16 (6 - exp) in
  let temp2 := gsm_NRFAC.[mant] in
  let* xMc := map_opt (code_sample temp1 temp2) xM in
  Some (xMc, mant, exp, xmaxc).

(** ** [APCM_inverse_quantization] *)

Definition decode_sample (temp1 temp2 temp3 xMc : Z) : option Z :=
  assert! (xMc <=? 7) && (0 <=? xMc) in
  let temp := i16 ((xMc << 1) - 7) in
  assert! (temp <=? 7) && (-7 <=? temp) in
  let temp := i16 (temp << 12) in
  let temp := i16 (GSM_MULT_R temp1 temp) in
  let temp := GSM_ADD temp temp3 in
  Some (gsm_asr temp temp2).

Definition APCM_inverse_quantization (xMc : list Z) (mant exp : Z) : option (list Z) :=
  assert! (0 <=? mant) && (mant <=? 7) in
  let temp1 := gsm_FAC.[mant] in
  let temp2 := gsm_sub 6 exp in
  let temp3 := gsm_asl 1 (gsm_sub temp2 1) in
  map_opt (decode_sample temp1 temp2 temp3) xMc.

(** ** [RPE_grid_positioning] *)

(** The [do ... while (--i)] of the switch: every turn but the first writes two
    zeros before the sample; the first writes [first] of them, according to the
    case entered. *)
Fixpoint grid_loop (first : nat) (xMp : list Z) : list Z :=
  match xMp with
  | [] => []
  | x :: xMp' => repeat 0 first ++ x :: grid_loop 2 xMp'
  end.

Definition RPE_grid_positioning (Mc : Z) (xMp : list Z) : option (list Z) :=
  assert! (0 <=? Mc) && (Mc <=? 3) in
  let body :=
    if Mc =? 3 then 0 :: grid_loop 2 xMp
    else if Mc =? 2 then grid_loop 2 xMp
    else if Mc =? 1 then grid_loop 1 xMp
    else grid_loop 0 xMp in
  Some (body ++ repeat 0 (Z.to_nat (3 - Mc))).

(** ** The two entry points *)

(** [e] is the caller's 50-word array, of which the middle 40 are replaced by
    the reconstructed residual.  The result is [(e, xmaxc, Mc, xMc)]. *)
Definition Gsm_RPE_Encoding (e : list Z) : option (list Z * Z * Z * list Z) :=
  let x := Weighting_filter e in
  let '(xM, Mc) := RPE_grid_selection x in
  let* (xMc, mant, exp, xmaxc) := APCM_quantization xM in
  let* xMp := APCM_inverse_quantization xMc mant exp in
  let* ep := RPE_grid_positioning Mc xMp in
  Some (fill 40 5 (fun k _ => ep.[k]) e, xmaxc, Mc, xMc).

Definition Gsm_RPE_Decoding (xmaxcr Mcr : Z) (xMcr : list Z) : option (list Z) :=
  let* (exp, mant) := APCM_quantization_xmaxc_to_exp_mant xmaxcr in
  let* xMp := APCM_inverse_quantization xMcr mant exp in
  RPE_grid_positioning Mcr xMp.

(** ** The grid *)

(** The loop the comment of [RPE_grid_selection] gives, on [(EM, Mc)]. *)
Definition grid_energy (x : list Z) (m : Z) : Z :=
  2 * sum_range 0 13 (fun i => (x.[m + 3 * i] / 4) * (x.[m + 3 * i] / 4)).

Definition grid_reference (x : list Z) : Z * Z :=
  for_range 0 4 (fun m best =>
    let '(EM, Mc) := best in
    if EM <? grid_energy x m then (grid_energy x m, m) else (EM, Mc)) (0, 0).

Lemma grid_STEPS_sum x m lo a : 0 <= lo <= 13 ->
  grid_STEPS x m lo a = a + sum_range lo 13 (fun i => (x.[m + 3 * i] / 4) * (x.[m + 3 * i] / 4)).
Proof.
  intros Hlo. unfold grid_STEPS.
  apply (for_range_ind (fun h L => L = a + sum_range lo h (fun i => (x.[m + 3 * i] / 4) * (x.[m + 3 * i] / 4)))).
  - lia.
  - rewrite sum_range_nil; lia.
  - intros i L Hi ->. rewrite sum_range_snoc by lia. unfold grid_STEP, SASR.
    rewrite shiftr_div by lia. change (2 ^ 2) with 4. lia.
Qed.

Lemma grid_STEP_value x m i a : grid_STEP x m i a = a + (x.[m + 3 * i] / 4) * (x.[m + 3 * i] / 4).
Proof. unfold grid_STEP, SASR. now rewrite shiftr_div by lia. Qed.

Lemma grid_energy_bound x m : Forall is_i16 x -> 0 <= grid_energy x m <= 26 * 67108864.
Proof.
  intros Hx. unfold grid_energy.
  assert (HT : forall i, 0 <= i < 13 -> 0 <= (x.[m + 3 * i] / 4) * (x.[m + 3 * i] / 4) <= 67108864).
  { intros i _. assert (H : is_i16 x.[m + 3 * i]) by (apply Forall_aget; [apply is_i16_0 | assumption]).
    unfold is_i16 in H. assert (-8192 <= x.[m + 3 * i] / 4 <= 8191) by zlia. nia. }
  pose proof (sum_range_nonneg 0 13 _ (fun i Hi => proj1 (HT i Hi))) as L.
  pose proof (sum_range_le 0 13 _ (fun _ => 67108864) (fun i Hi => proj2 (HT i Hi))) as U.
  rewrite sum_range_const in U by lia. cbv beta in L. lia.
Qed.

(** Grids 0 and 3 share the samples 3, 6, ..., 36. *)
Lemma grid3_sum x :
  sum_range 1 13 (fun i => (x.[0 + 3 * i] / 4) * (x.[0 + 3 * i] / 4)) +
  (x.[3 + 3 * 12] / 4) * (x.[3 + 3 * 12] / 4) =
  sum_range 0 13 (fun i => (x.[3 + 3 * i] / 4) * (x.[3 + 3 * i] / 4)).
Proof.
  change 13 with (12 + 1) at 2. rewrite sum_range_snoc by lia.
  apply (f_equal2 Z.add); [| reflexivity].
  transitivity (sum_range 1 13 (fun i => (fun i => (x.[3 + 3 * i] / 4) * (x.[3 + 3 * i] / 4)) (i - 1))).
  - apply sum_range_ext. intros i _. now replace (3 + 3 * (i - 1)) with (0 + 3 * i) by lia.
  - exact (sum_range_shift 1 13 1 (fun i => (x.[3 + 3 * i] / 4) * (x.[3 + 3 * i] / 4))).
Qed.

Lemma grid_energies x : Forall is_i16 x ->
  i64 (grid_STEP x 0 0 (grid_STEPS x 0 1 0) << 1) = grid_energy x 0 /\
  i64 (grid_STEPS x 1 1 (grid_STEP x 1 0 0) << 1) = grid_energy x 1 /\
  i64 (grid_STEPS x 2 1 (grid_STEP x 2 0 0) << 1) = grid_energy x 2 /\
  i64 (grid_STEP x 3 12 (grid_STEPS x 0 1 0) << 1) = grid_energy x 3.
Proof.
  intros Hx.
  assert (HI : forall m y, 2 * y = grid_energy x m -> i64 (y << 1) = grid_energy x m).
  { intros m y E. pose proof (grid_energy_bound x m Hx).
    rewrite shiftl_mul, i64_id by (try lia; unfold is_i64; lia). lia. }
  assert (H0 : forall m, sum_range 0 13 (fun i => (x.[m + 3 * i] / 4) * (x.[m + 3 * i] / 4)) =
    (x.[m + 3 * 0] / 4) * (x.[m + 3 * 0] / 4) +
    sum_range 1 13 (fun i => (x.[m + 3 * i] / 4) * (x.[m + 3 * i] / 4))).
  { intros m. rewrite (sum_range_split 0 1 13) by lia. f_equal. }
  repeat split; apply HI; unfold grid_energy; rewrite ?grid_STEPS_sum, ?grid_STEP_value by lia.
  - rewrite H0, ?grid_STEPS_sum by lia. lia.
  - rewrite H0. lia.
  - rewrite H0. lia.
  - rewrite <- grid3_sum. lia.
Qed.

Lemma grid_selection_reference x : Forall is_i16 x ->
  snd (RPE_grid_selection x) = snd (grid_reference x) /\
  fst (RPE_grid_selection x) = map (fun i => x.[snd (grid_reference x) + 3 * i]) [0; 1; 2; 3; 4; 5; 6; 7; 8; 9; 10; 11; 12].
Proof.
  intros Hx. destruct (grid_energies x Hx) as (E0 & E1 & E2 & E3).
  unfold RPE_grid_selection, grid_reference. rewrite E0, E1, E2, E3.
  pose proof (grid_energy_bound x 0 Hx).
  change (for_range 0 4 ?f ?a) with (f 3 (f 2 (f 1 (f 0 a)))). cbv beta iota.
  replace (if 0 <? grid_energy x 0 then (grid_energy x 0, 0) else (0, 0)) with (grid_energy x 0, 0)
    by (destruct (Z.ltb_spec 0 (grid_energy x 0)); [reflexivity | f_equal; lia]).
  destruct (grid_energy x 0 <? grid_energy x 1);
    [destruct (grid_energy x 1 <? grid_energy x 2) | destruct (grid_energy x 0 <? grid_energy x 2)];
    cbv beta iota;
    match goal with |- context [?a <? grid_energy x 3] => destruct (a <? grid_energy x 3) end;
    split; reflexivity.
Qed.

Record best_grid (x : list Z) (Mc : Z) : Prop := {
  grid_range : 0 <= Mc <= 3;
  grid_max : forall m, 0 <= m <= 3 -> grid_energy x m <= grid_energy x Mc;
  grid_first : forall m, 0 <= m < Mc -> grid_energy x m < grid_energy x Mc
}.

Lemma grid_reference_best x : Forall is_i16 x -> best_grid x (snd (grid_reference x)).
Proof.
  intros Hx. unfold grid_reference.
  assert (I : let '(EM, Mc) := for_range 0 4 (fun m best =>
      let '(EM, Mc) := best in if EM <? grid_energy x m then (grid_energy x m, m) else (EM, Mc)) (0, 0) in
    (0 <= Mc <= 3) /\ (EM = grid_energy x Mc \/ (EM = 0 /\ Mc = 0)) /\
    (forall l, 0 <= l < 4 -> grid_energy x l <= EM) /\ (forall l, 0 <= l < Mc -> grid_energy x l < EM)).
  { apply (for_range_ind (fun i best => let '(EM, Mc) := best in
      (0 <= Mc <= 3) /\ (EM = grid_energy x Mc \/ (EM = 0 /\ Mc = 0)) /\
      (forall l, 0 <= l < i -> grid_energy x l <= EM) /\ (forall l, 0 <= l < Mc -> grid_energy x l < EM)));
      [lia | repeat split; intros; try lia |].
    intros i [EM Mc] Hi (H1 & H2 & H3 & H4).
    destruct (Z.ltb_spec EM (grid_energy x i)) as [Hlt|Hge].
    - split; [lia |]. split; [now left |]. split; intros l Hl;
        [destruct (Z.eqb_spec l i) as [->|]; [lia |] |]; specialize (H3 l ltac:(lia)); lia.
    - split; [lia |]. split; [assumption |]. split; [| assumption].
      intros l Hl. destruct (Z.eqb_spec l i) as [->|]; [lia | apply H3; lia]. }
  destruct (for_range 0 4 _ _) as [EM Mc]. cbn [snd]. destruct I as (H1 & H2 & H3 & H4).
  assert (EM = grid_energy x Mc).
  { destruct H2 as [|[-> ->]]; [assumption |]. specialize (H3 0 ltac:(lia)).
    pose proof (grid_energy_bound x 0 Hx). lia. }
  subst EM. split; [lia | intros; apply H3; lia | exact H4].
Qed.

(** The grid selection, with its sum shared between grids 0 and 3, does what
    the loop in its comment does: it picks the first grid of largest energy and
    returns its 13 samples. *)
Theorem RPE_grid_selection_correct x : words 40 x ->
  let '(xM, Mc) := RPE_grid_selection x in
  Mc = snd (grid_reference x) /\ best_grid x Mc /\
  length xM = 13%nat /\ forall i, 0 <= i < 13 -> xM.[i] = x.[Mc + 3 * i].
Proof.
  intros [_ HF]. destruct (grid_selection_reference x HF) as [E1 E2].
  pose proof (grid_reference_best x HF) as HB.
  destruct (RPE_grid_selection x) as [xM Mc]. cbn [fst snd] in *. subst xM Mc.
  split; [reflexivity |]. split; [exact HB |]. split; [reflexivity |].
  intros i Hi. rewrite aget_map by (simpl; lia).
  assert (E : i = 0 \/ i = 1 \/ i = 2 \/ i = 3 \/ i = 4 \/ i = 5 \/ i = 6 \/ i = 7 \/ i = 8 \/
    i = 9 \/ i = 10 \/ i = 11 \/ i = 12) by lia.
  destruct E as [->|[->|[->|[->|[->|[->|[->|[->|[->|[->|[->|[->| ->]]]]]]]]]]]]; reflexivity.
Qed.

Lemma RPE_grid_selection_correct_witness : best_grid (firstn 40 ramp) (snd (RPE_grid_selection (firstn 40 ramp))).
Proof.
  pose proof (RPE_grid_selection_correct (firstn 40 ramp) ltac:(apply wordsb_ok; vm_compute; reflexivity)) as H.
  destruct (RPE_grid_selection _) as [xM Mc]. apply H.
Defined.

(** ** The placement *)

(** The two loops the comment of [RPE_grid_positioning] gives. *)
Definition positioning_reference (Mc : Z) (xMp : list Z) : list Z :=
  for_range 0 13 (fun i ep => aset ep (Mc + 3 * i) xMp.[i]) (repeat 0 40).

(** The interleaved switch and do-while of the grid positioning write the
    same 40 samples as the two plain loops in its comment; the assertion
    rejects exactly the grid numbers outside 0..3. *)
Theorem RPE_grid_positioning_correct Mc xMp : length xMp = 13%nat ->
  RPE_grid_positioning Mc xMp =
    if (0 <=? Mc) && (Mc <=? 3) then Some (positioning_reference Mc xMp) else None.
Proof.
  intros HL. unfold RPE_grid_positioning.
  destruct (Z.leb_spec 0 Mc), (Z.leb_spec Mc 3); cbn [andb]; try reflexivity.
  do 14 (destruct xMp as [|? xMp]; try discriminate HL).
  assert (E : Mc = 0 \/ Mc = 1 \/ Mc = 2 \/ Mc = 3) by lia.
  destruct E as [->|[->|[->| ->]]]; reflexivity.
Qed.

Lemma RPE_grid_positioning_correct_witness :
  RPE_grid_positioning 2 [1; 2; 3; 4; 5; 6; 7; 8; 9; 10; 11; 12; 13] =
  Some (positioning_reference 2 [1; 2; 3; 4; 5; 6; 7; 8; 9; 10; 11; 12; 13]).
Proof. exact (RPE_grid_positioning_correct 2 [1; 2; 3; 4; 5; 6; 7; 8; 9; 10; 11; 12; 13] eq_refl). Defined.

Lemma positioning_ok Mc xMp : 0 <= Mc <= 3 -> words 13 xMp ->
  exists ep, RPE_grid_positioning Mc xMp = Some ep /\ words 40 ep.
Proof.
  intros HM [HL HF]. unfold RPE_grid_positioning.
  destruct (Z.leb_spec 0 Mc), (Z.leb_spec Mc 3); try lia. cbn [andb].
  eexists; split; [reflexivity |].
  do 14 (destruct xMp as [|? xMp]; try discriminate HL).
  assert (E : Mc = 0 \/ Mc = 1 \/ Mc = 2 \/ Mc = 3) by lia.
  repeat (apply Forall_cons_iff in HF as [? HF]).
  destruct E as [->|[->|[->| ->]]]; (split; [reflexivity |]); cbn;
    repeat (apply Forall_cons; [assumption || apply is_i16_0 |]); apply Forall_nil.
Qed.

(** ** The code of the maximum *)

(** The exponent counts the bits of [xmax] above the ninth. *)
Lemma xmax_loop xmax e : 0 <= xmax <= 32767 -> 0 <= e <= 6 ->
  xmax < 2 ^ (9 + e) -> (0 < e -> 2 ^ (8 + e) <= xmax) ->
  for_opt 0 6 (fun _ => xmax_iter) (0, SASR xmax 9, 0) = Some (e, xmax / 2 ^ 15, b2z (e <? 6)).
Proof.
  intros Hx He Hu Hl. unfold for_opt.
  replace e with (Z.min e 6) at 1 by lia. change 15 with (9 + 6).
  apply (for_range_ind (fun i m => m = Some (Z.min e i, xmax / 2 ^ (9 + i), b2z (e <? i)))); [lia | |].
  - replace (Z.min e 0) with 0 by lia. replace (e <? 0) with false by (symmetry; apply Z.ltb_ge; lia).
    unfold SASR. now rewrite shiftr_div by lia.
  - intros i m Hi ->. cbn [bind]. unfold xmax_iter.
    assert (P : 2 ^ (9 + (i + 1)) = 2 ^ (9 + i) * 2) by (replace (9 + (i + 1)) with (Z.succ (9 + i)) by lia; rewrite Z.pow_succ_r; lia).
    assert (0 < 2 ^ (9 + i)) by (apply Z.pow_pos_nonneg; lia).
    assert (ET : (xmax / 2 ^ (9 + i) <=? 0) = (e <=? i)).
    { destruct (Z.leb_spec e i).
      - assert (2 ^ (9 + e) <= 2 ^ (9 + i)) by (apply Z.pow_le_mono_r; lia).
        apply Z.leb_le. rewrite Z.div_small; lia.
      - assert (2 ^ (9 + i) <= 2 ^ (8 + e)) by (apply Z.pow_le_mono_r; lia).
        apply Z.leb_gt. apply Z.div_str_pos. lia. }
    rewrite ET. replace (Z.min e i <=? 5) with true by (symmetry; apply Z.leb_le; lia).
    unfold SASR. rewrite shiftr_div, Z.div_div by lia. change (2 ^ 1) with 2. rewrite <- P.
    destruct (Z.ltb_spec e i), (Z.leb_spec e i), (Z.ltb_spec e (i + 1)); try lia; cbn;
      do 3 f_equal; lia.
Qed.

Lemma code_xmax_value xmax e : 0 <= xmax <= 32767 -> 0 <= e <= 6 ->
  xmax < 2 ^ (9 + e) -> (0 < e -> 2 ^ (8 + e) <= xmax) ->
  code_xmax xmax = Some (xmax / 2 ^ (e + 5) + 8 * e).
Proof.
  intros Hx He Hu Hl. unfold code_xmax.
  rewrite (xmax_loop xmax e) by assumption. cbn [bind].
  replace (e <=? 6) with true by (symmetry; apply Z.leb_le; lia).
  replace (0 <=? e) with true by (symmetry; apply Z.leb_le; lia).
  replace (e + 5 <=? 11) with true by (symmetry; apply Z.leb_le; lia).
  replace (0 <=? e + 5) with true by (symmetry; apply Z.leb_le; lia). cbn [andb].
  unfold gsm_add, SASR. rewrite shiftr_div, shiftl_mul by lia.
  assert (0 <= xmax / 2 ^ (e + 5) <= 15).
  { assert (0 < 2 ^ (e + 5)) by (apply Z.pow_pos_nonneg; lia).
    split; [apply Z.div_pos; lia |]. apply Z.lt_succ_r, Z.div_lt_upper_bound; [lia |].
    replace (9 + e) with (e + 5 + 4) in Hu by lia. rewrite Z.pow_add_r in Hu by lia. lia. }
  rewrite saturate_id, i16_id by (unfold is_i16; lia). f_equal. lia.
Qed.

Lemma xmax_exponent xmax : 0 <= xmax <= 32767 ->
  exists e, 0 <= e <= 6 /\ xmax < 2 ^ (9 + e) /\ (0 < e -> 2 ^ (8 + e) <= xmax).
Proof.
  intros Hx.
  destruct (Z.ltb_spec xmax 512); [exists 0; lia |].
  destruct (Z.ltb_spec xmax 1024); [exists 1; lia |].
  destruct (Z.ltb_spec xmax 2048); [exists 2; lia |].
  destruct (Z.ltb_spec xmax 4096); [exists 3; lia |].
  destruct (Z.ltb_spec xmax 8192); [exists 4; lia |].
  destruct (Z.ltb_spec xmax 16384); [exists 5; lia |].
  exists 6; lia.
Qed.

(** The upper end of the interval of maxima that [xmaxc] codes. *)
Definition xmaxc_limit (xmaxc : Z) : Z :=
  if xmaxc <? 16 then 32 * (xmaxc + 1) else (xmaxc mod 8 + 9) * 2 ^ (xmaxc / 8 + 4).

Lemma xmaxc_limit_value e q : 0 <= e <= 6 -> 0 <= q <= 15 -> (0 < e -> 8 <= q) ->
  field 6 (q + 8 * e) /\ xmaxc_limit (q + 8 * e) = 2 ^ (e + 5) * (q + 1).
Proof.
  intros He Hq Hl. unfold field, xmaxc_limit. split; [lia |].
  destruct (Z.ltb_spec (q + 8 * e) 16).
  - assert (e = 0 \/ e = 1) as [->| ->] by lia; [lia |]. lia.
  - replace ((q + 8 * e) / 8) with (e + 1) by zlia. replace ((q + 8 * e) mod 8) with (q - 8) by zlia.
    replace (e + 1 + 4) with (e + 5) by lia. lia.
Qed.

Lemma code_xmax_ok xmax : 0 <= xmax <= 32767 ->
  exists xmaxc, code_xmax xmax = Some xmaxc /\ field 6 xmaxc /\ xmax < xmaxc_limit xmaxc.
Proof.
  intros Hx. destruct (xmax_exponent xmax Hx) as (e & He & Hu & Hl).
  rewrite (code_xmax_value xmax e) by assumption. eexists; split; [reflexivity |].
  assert (0 < 2 ^ (e + 5)) by (apply Z.pow_pos_nonneg; lia).
  assert (P4 : 2 ^ (9 + e) = 2 ^ (e + 5) * 16)
    by (replace (9 + e) with (e + 5 + 4) by lia; rewrite Z.pow_add_r; lia).
  assert (P3 : 2 ^ (8 + e) = 2 ^ (e + 5) * 8)
    by (replace (8 + e) with (e + 5 + 3) by lia; rewrite Z.pow_add_r; lia).
  pose proof (Z.div_mod xmax (2 ^ (e + 5)) ltac:(lia)).
  pose proof (Z.mod_pos_bound xmax (2 ^ (e + 5)) ltac:(lia)).
  set (q := xmax / 2 ^ (e + 5)) in *.
  destruct (xmaxc_limit_value e q) as [F1 F2]; [lia | nia | intros; specialize (Hl ltac:(lia)); nia |].
  split; [exact F1 |]. rewrite F2. nia.
Qed.

(** ** Exponent and mantissa *)

Definition exp_mant_check (xmaxc : Z) : bool :=
  match APCM_quantization_xmaxc_to_exp_mant xmaxc with
  | Some (exp, mant) =>
      (-4 <=? exp) && (exp <=? 6) && (0 <=? mant) && (mant <=? 7) &&
      (xmaxc_limit xmaxc * 2 ^ (6 - exp) =? (mant + 9) * 2048)
  | None => false
  end.

Lemma exp_mant_ok xmaxc : field 6 xmaxc ->
  exists exp mant, APCM_quantization_xmaxc_to_exp_mant xmaxc = Some (exp, mant) /\
    -4 <= exp <= 6 /\ 0 <= mant <= 7 /\ xmaxc_limit xmaxc * 2 ^ (6 - exp) = (mant + 9) * 2048.
Proof.
  intros H. unfold field in H. change (2 ^ 6) with 64 in H.
  pose proof (all_range_spec 0 64 exp_mant_check ltac:(vm_compute; reflexivity) xmaxc ltac:(lia)) as C.
  unfold exp_mant_check in C.
  destruct (APCM_quantization_xmaxc_to_exp_mant xmaxc) as [[exp mant]|]; [| discriminate].
  rewrite !andb_true_iff, !Z.leb_le, Z.eqb_eq in C. exists exp, mant. split; [reflexivity | lia].
Qed.

(** ** The samples *)

Lemma NRFAC_cases mant : 0 <= mant <= 7 ->
  (mant = 0 /\ gsm_NRFAC.[mant] = 29128) \/ (mant = 1 /\ gsm_NRFAC.[mant] = 26215) \/
  (mant = 2 /\ gsm_NRFAC.[mant] = 23832) \/ (mant = 3 /\ gsm_NRFAC.[mant] = 21846) \/
  (mant = 4 /\ gsm_NRFAC.[mant] = 20165) \/ (mant = 5 /\ gsm_NRFAC.[mant] = 18725) \/
  (mant = 6 /\ gsm_NRFAC.[mant] = 17476) \/ (mant = 7 /\ gsm_NRFAC.[mant] = 16384).
Proof.
  intros H. assert (E : mant = 0 \/ mant = 1 \/ mant = 2 \/ mant = 3 \/ mant = 4 \/ mant = 5 \/ mant = 6 \/ mant = 7) by lia.
  destruct E as [->|[->|[->|[->|[->|[->|[->| ->]]]]]]]; vm_compute; tauto.
Qed.

(** A sample not above the limit gets a 3-bit code: the table of inverse
    mantissas just does not overflow. *)
Lemma code_sample_value t mant x : 0 <= t <= 10 -> 0 <= mant <= 7 ->
  - (mant + 9) * 2048 <= x * 2 ^ t < (mant + 9) * 2048 ->
  (x * 2 ^ t = - (mant + 9) * 2048 -> mant = 7) ->
  code_sample t gsm_NRFAC.[mant] x = Some (x * 2 ^ t * gsm_NRFAC.[mant] / 2 ^ 27 + 4) /\
  0 <= x * 2 ^ t * gsm_NRFAC.[mant] / 2 ^ 27 + 4 <= 7.
Proof.
  intros Ht Hm Hx Hmin. unfold code_sample.
  replace (0 <=? t) with true by (symmetry; apply Z.leb_le; lia).
  replace (t <? 16) with true by (symmetry; apply Z.ltb_lt; lia). cbn [andb].
  rewrite shiftl_mul by lia. set (y := x * 2 ^ t) in *. clearbody y.
  rewrite (i16_id y) by (unfold is_i16; lia).
  unfold GSM_MULT, SASR. rewrite !shiftr_div by lia.
  change (2 ^ 27) with (2 ^ 15 * 2 ^ 12). rewrite <- Z.div_div by lia. zpow_compute.
  set (N := gsm_NRFAC.[mant]) in *.
  assert (HB : -16384 <= y * N / 32768 <= 16383).
  { pose proof (NRFAC_cases mant Hm) as HC. fold N in HC.
    repeat (destruct HC as [[-> ->]|HC]; [zlia |]). destruct HC as [-> ->]. zlia. }
  rewrite i16_id by (unfold is_i16; lia). split; [reflexivity | zlia].
Qed.

Lemma Forall_of_aget (P : Z -> Prop) l :
  (forall i, 0 <= i < Z.of_nat (length l) -> P l.[i]) -> Forall P l.
Proof.
  intros H. apply Forall_forall. intros x Hx. destruct (In_nth l x 0 Hx) as (n & Hn & <-).
  specialize (H (Z.of_nat n) ltac:(lia)). unfold aget in H. now rewrite Nat2Z.id in H.
Qed.

(** Samples a maximum bounds. *)
Definition bounded_by (m x : Z) : Prop := - m - 1 <= x <= m /\ (x < - m -> m = 32767).

Lemma max_abs_bounds n l : words n l -> Forall (bounded_by (max_abs (Z.of_nat n) l)) l.
Proof.
  intros Hl. destruct (max_abs_spec (Z.of_nat n) l ltac:(lia) (proj2 Hl)) as [_ Hb].
  apply Forall_of_aget. intros i Hi. rewrite (proj1 Hl) in Hi.
  apply GSM_ABS_le; [eapply words_aget; eassumption | now apply Hb].
Qed.

(** The code of a sample of a sub-sequence with coded maximum [xmaxc]. *)
Definition sample_code (exp mant x : Z) : Z := x * 2 ^ (6 - exp) * gsm_NRFAC.[mant] / 2 ^ 27 + 4.

Lemma code_samples_ok exp mant xmax lim xM : -4 <= exp <= 6 -> 0 <= mant <= 7 ->
  0 <= xmax < lim -> lim * 2 ^ (6 - exp) = (mant + 9) * 2048 -> Forall (bounded_by xmax) xM ->
  map_opt (code_sample (i16 (6 - exp)) gsm_NRFAC.[mant]) xM = Some (map (sample_code exp mant) xM) /\
  Forall (field 3) (map (sample_code exp mant) xM).
Proof.
  intros He Hm Hx Hlim HF. rewrite i16_id by (unfold is_i16; lia).
  assert (0 < 2 ^ (6 - exp)) by (apply Z.pow_pos_nonneg; lia).
  assert (HC : forall x, bounded_by xmax x ->
    code_sample (6 - exp) gsm_NRFAC.[mant] x = Some (sample_code exp mant x) /\ field 3 (sample_code exp mant x)).
  { intros x [Hb Hmin].
    assert (Hlow : - (mant + 9) * 2048 <= x * 2 ^ (6 - exp) < (mant + 9) * 2048).
    { split; [| nia].
      enough (- lim <= x) by nia. lia. }
    destruct (code_sample_value (6 - exp) mant x) as [H1 H2]; [lia | lia | exact Hlow | |].
    - intros E. assert (Elim : x = - lim) by nia. specialize (Hmin ltac:(lia)).
      assert (1 <= 2 ^ (6 - exp)) by lia. nia.
    - split; [exact H1 |]. unfold field, sample_code. change (2 ^ 3) with 8. lia. }
  induction HF as [|x xM Hb HF [IH1 IH2]]; [split; [reflexivity | constructor] |].
  destruct (HC x Hb) as [H1 H2]. cbn [map_opt map]. rewrite H1. cbn [bind].
  rewrite IH1. cbn [bind]. split; [reflexivity | now constructor].
Qed.

Lemma APCM_quantization_ok xM : words 13 xM ->
  exists xmaxc exp mant, code_xmax (max_abs 13 xM) = Some xmaxc /\
    APCM_quantization xM = Some (map (sample_code exp mant) xM, mant, exp, xmaxc) /\
    field 6 xmaxc /\ max_abs 13 xM < xmaxc_limit xmaxc /\
    APCM_quantization_xmaxc_to_exp_mant xmaxc = Some (exp, mant) /\
    -4 <= exp <= 6 /\ 0 <= mant <= 7 /\ xmaxc_limit xmaxc * 2 ^ (6 - exp) = (mant + 9) * 2048 /\
    fields 13 3 (map (sample_code exp mant) xM).
Proof.
  intros Hx. destruct (max_abs_spec 13 xM ltac:(lia) (proj2 Hx)) as [Hm _].
  destruct (code_xmax_ok _ Hm) as (xmaxc & E1 & Hf & Hlim).
  destruct (exp_mant_ok xmaxc Hf) as (exp & mant & E2 & He & Hma & HE).
  destruct (code_samples_ok exp mant _ _ xM He Hma (conj (proj1 Hm) Hlim) HE (max_abs_bounds 13 xM Hx)) as [E3 HF].
  exists xmaxc, exp, mant. split; [exact E1 |]. split.
  - unfold APCM_quantization. rewrite E1. cbn [bind]. rewrite E2. cbn [bind].
    replace (exp <=? 4096) with true by (symmetry; apply Z.leb_le; lia).
    replace (-4096 <=? exp) with true by (symmetry; apply Z.leb_le; lia).
    replace (0 <=? mant) with true by (symmetry; apply Z.leb_le; lia).
    replace (mant <=? 7) with true by (symmetry; apply Z.leb_le; lia). cbn [andb].
    rewrite E3. reflexivity.
  - repeat (split; [assumption || lia |]). split; [rewrite length_map; apply Hx | exact HF].
Qed.

(** ** The inverse *)

Lemma FAC_bound mant : 0 <= gsm_FAC.[mant] <= 32767.
Proof.
  apply (Forall_aget (fun x => 0 <= x <= 32767)); [lia |].
  unfold gsm_FAC. repeat (apply Forall_cons; [lia |]). apply Forall_nil.
Qed.

Definition half_unit (t : Z) : Z := if t =? 0 then 0 else 2 ^ (t - 1).

(** The decoded sample of code [c]. *)
Definition sample_value (exp mant c : Z) : Z :=
  (((2 * c - 7) * 4096 * gsm_FAC.[mant] + 16384) / 32768 + half_unit (6 - exp)) / 2 ^ (6 - exp).

Lemma half_unit_eq exp : -4 <= exp <= 6 ->
  gsm_sub 6 exp = 6 - exp /\ gsm_asl 1 (gsm_sub (gsm_sub 6 exp) 1) = half_unit (6 - exp) /\
  0 <= half_unit (6 - exp) <= 512.
Proof.
  intros He. assert (E : exp = -4 \/ exp = -3 \/ exp = -2 \/ exp = -1 \/ exp = 0 \/ exp = 1 \/ exp = 2 \/
    exp = 3 \/ exp = 4 \/ exp = 5 \/ exp = 6) by lia.
  destruct E as [->|[->|[->|[->|[->|[->|[->|[->|[->|[->| ->]]]]]]]]]]; vm_compute; intuition discriminate.
Qed.

Lemma decode_sample_value exp mant c : -4 <= exp <= 6 -> field 3 c ->
  decode_sample gsm_FAC.[mant] (6 - exp) (half_unit (6 - exp)) c = Some (sample_value exp mant c) /\
  is_i16 (sample_value exp mant c).
Proof.
  unfold field; change (2 ^ 3) with 8; intros He Hc. unfold decode_sample, sample_value.
  destruct (half_unit_eq exp He) as (_ & _ & Hh). set (h := half_unit (6 - exp)) in *. clearbody h.
  pose proof (FAC_bound mant) as HF. set (f := gsm_FAC.[mant]) in *. clearbody f.
  rewrite shiftl_mul, shiftl_mul by lia. zpow_compute.
  rewrite (i16_id (c * 2 - 7)) by (unfold is_i16; lia).
  rewrite (i16_id ((c * 2 - 7) * 4096)) by (unfold is_i16; lia).
  replace (c <=? 7) with true by (symmetry; apply Z.leb_le; lia).
  replace (0 <=? c) with true by (symmetry; apply Z.leb_le; lia).
  replace (c * 2 - 7 <=? 7) with true by (symmetry; apply Z.leb_le; lia).
  replace (-7 <=? c * 2 - 7) with true by (symmetry; apply Z.leb_le; lia). cbn [andb].
  rewrite GSM_MULT_R_div. replace (f * ((c * 2 - 7) * 4096)) with ((2 * c - 7) * 4096 * f) by lia.
  assert (HB : -28672 <= ((2 * c - 7) * 4096 * f + 16384) / 32768 <= 28672)
    by (assert (- (7 * 4096 * 32767) <= (2 * c - 7) * 4096 * f <= 7 * 4096 * 32767) by nia; zlia).
  set (y := ((2 * c - 7) * 4096 * f + 16384) / 32768) in *. clearbody y.
  rewrite (i16_id y) by (unfold is_i16; lia).
  rewrite GSM_ADD_spec, saturate_id by (unfold is_i16; lia).
  assert (0 < 2 ^ (6 - exp)) by (apply Z.pow_pos_nonneg; lia).
  assert (HR : is_i16 ((y + h) / 2 ^ (6 - exp))).
  { unfold is_i16.
    pose proof (Z.div_mod (y + h) (2 ^ (6 - exp)) ltac:(lia)).
    pose proof (Z.mod_pos_bound (y + h) (2 ^ (6 - exp)) ltac:(lia)). nia. }
  split; [| exact HR]. f_equal. unfold gsm_asr.
  replace (16 <=? 6 - exp) with false by (symmetry; apply Z.leb_gt; lia).
  replace (6 - exp <=? -16) with false by (symmetry; apply Z.leb_gt; lia).
  replace (6 - exp <? 0) with false by (symmetry; apply Z.ltb_ge; lia).
  rewrite shiftr_div by lia. now apply i16_id.
Qed.

Lemma APCM_inverse_ok xMc mant exp : -4 <= exp <= 6 -> 0 <= mant <= 7 -> Forall (field 3) xMc ->
  APCM_inverse_quantization xMc mant exp = Some (map (sample_value exp mant) xMc) /\
  Forall is_i16 (map (sample_value exp mant) xMc).
Proof.
  intros He Hm HF. unfold APCM_inverse_quantization.
  replace (0 <=? mant) with true by (symmetry; apply Z.leb_le; lia).
  replace (mant <=? 7) with true by (symmetry; apply Z.leb_le; lia). cbn [andb].
  destruct (half_unit_eq exp He) as (E1 & E2 & _). rewrite E2, E1.
  induction HF as [|c xMc Hc HF [IH1 IH2]]; [split; [reflexivity | constructor] |].
  destruct (decode_sample_value exp mant c He Hc) as [H1 H2]. cbn [map_opt map]. rewrite H1. cbn [bind].
  rewrite IH1. cbn [bind]. split; [reflexivity | now constructor].
Qed.

(** ** Quantisation error *)

Lemma half_unit_bounds t : 0 <= t -> 2 ^ t - 1 <= 2 * half_unit t <= 2 ^ t.
Proof.
  intros Ht. unfold half_unit. destruct (Z.eqb_spec t 0) as [->|]; [simpl; lia |].
  rewrite (pow2_half t) by lia. lia.
Qed.

(** The linear core: [y] is the scaled sample, [D] the scaled decoded one. *)
Lemma apcm_error_core mant y c z D T h : 0 <= mant <= 7 -> 1 <= T -> T - 1 <= 2 * h <= T ->
  - (mant + 9) * 2048 <= y <= (mant + 9) * 2048 -> 0 <= c <= 7 ->
  134217728 * (c - 4) <= y * gsm_NRFAC.[mant] < 134217728 * (c - 4) + 134217728 ->
  32768 * z <= (2 * c - 7) * 4096 * gsm_FAC.[mant] + 16384 < 32768 * z + 32768 ->
  D <= z + h < D + T ->
  8 * Z.abs (D - y) <= (mant + 9) * 2048 + 16 * T.
Proof.
  intros Hm HT Hh Hy Hc H1 H2 H3.
  assert (E : mant = 0 \/ mant = 1 \/ mant = 2 \/ mant = 3 \/ mant = 4 \/ mant = 5 \/ mant = 6 \/ mant = 7) by lia.
  destruct E as [->|[->|[->|[->|[->|[->|[->| ->]]]]]]];
    match goal with H : context [gsm_NRFAC.[?m]], G : context [gsm_FAC.[?m]] |- _ =>
      let n := eval vm_compute in (gsm_NRFAC.[m]) in change (gsm_NRFAC.[m]) with n in *;
      let f := eval vm_compute in (gsm_FAC.[m]) in change (gsm_FAC.[m]) with f in * end; lia.
Qed.

Lemma apcm_sample_error exp mant lim x : -4 <= exp <= 6 -> 0 <= mant <= 7 ->
  lim * 2 ^ (6 - exp) = (mant + 9) * 2048 -> - lim <= x < lim -> field 3 (sample_code exp mant x) ->
  8 * Z.abs (sample_value exp mant (sample_code exp mant x) - x) <= lim + 16.
Proof.
  intros He Hm Hlim Hx Hc. unfold field in Hc. change (2 ^ 3) with 8 in Hc.
  assert (HT : 1 <= 2 ^ (6 - exp)) by (pose proof (Z.pow_pos_nonneg 2 (6 - exp)); lia).
  pose proof (half_unit_bounds (6 - exp) ltac:(lia)) as Hh.
  unfold sample_value. set (c := sample_code exp mant x) in *.
  assert (H1 : 134217728 * (c - 4) <= x * 2 ^ (6 - exp) * gsm_NRFAC.[mant] < 134217728 * (c - 4) + 134217728).
  { unfold c, sample_code. change (2 ^ 27) with 134217728.
    pose proof (Z.div_mod (x * 2 ^ (6 - exp) * gsm_NRFAC.[mant]) 134217728 ltac:(lia)).
    pose proof (Z.mod_pos_bound (x * 2 ^ (6 - exp) * gsm_NRFAC.[mant]) 134217728 ltac:(lia)). lia. }
  clearbody c. set (T := 2 ^ (6 - exp)) in *. set (h := half_unit (6 - exp)) in *.
  set (w := (2 * c - 7) * 4096 * gsm_FAC.[mant] + 16384) in *.
  pose proof (Z.div_mod w 32768 ltac:(lia)). pose proof (Z.mod_pos_bound w 32768 ltac:(lia)).
  set (z := w / 32768) in *.
  pose proof (Z.div_mod (z + h) T ltac:(lia)). pose proof (Z.mod_pos_bound (z + h) T ltac:(lia)).
  set (d := (z + h) / T) in *.
  pose proof (apcm_error_core mant (x * T) c z (T * d) T h Hm HT Hh ltac:(nia) ltac:(lia) H1
    ltac:(fold w; lia) ltac:(lia)) as HE.
  assert (E : T * d - x * T = T * (d - x)) by lia. rewrite E, Z.abs_mul in HE. nia.
Qed.

(** Adaptive quantisation of 13 samples never fails an assertion and loses
    at most an eighth of the coded maximum: the code of the maximum has 6 bits,
    each sample's code 3 bits, and decoding them gives every sample back to
    within [lim / 8 + 2], where [lim], the end of the interval [xmaxc] stands
    for, exceeds the largest magnitude. *)
Theorem APCM_quantization_error xM : words 13 xM ->
  exists xMc mant exp xmaxc xMp,
    APCM_quantization xM = Some (xMc, mant, exp, xmaxc) /\
    field 6 xmaxc /\ fields 13 3 xMc /\ max_abs 13 xM < xmaxc_limit xmaxc /\
    APCM_inverse_quantization xMc mant exp = Some xMp /\
    forall i, 0 <= i < 13 -> 8 * Z.abs (xMp.[i] - xM.[i]) <= xmaxc_limit xmaxc + 16.
Proof.
  intros Hx. destruct (APCM_quantization_ok xM Hx)
    as (xmaxc & exp & mant & _ & E & Hf & Hlim & _ & He & Hm & HE & HC).
  destruct (APCM_inverse_ok _ mant exp He Hm (proj2 HC)) as [EI _].
  do 5 eexists. split; [exact E |]. split; [exact Hf |]. split; [exact HC |].
  split; [exact Hlim |]. split; [exact EI |]. intros i Hi.
  rewrite !aget_map by (rewrite ?length_map, (proj1 Hx); lia).
  pose proof (max_abs_bounds 13 xM Hx) as HB. rewrite Forall_forall in HB.
  assert (Hb : bounded_by (max_abs 13 xM) xM.[i]).
  { apply HB. unfold aget. apply nth_In. rewrite (proj1 Hx). lia. }
  destruct Hb as [Hb _]. apply apcm_sample_error; auto; [lia |].
  pose proof (fields_aget 13 3 _ i ltac:(lia) HC) as HF. now rewrite aget_map in HF by (rewrite (proj1 Hx); lia).
Qed.

Lemma APCM_quantization_error_witness :
  exists xMc mant exp xmaxc xMp,
    APCM_quantization (firstn 13 ramp) = Some (xMc, mant, exp, xmaxc) /\
    APCM_inverse_quantization xMc mant exp = Some xMp /\
    8 * Z.abs (xMp.[3] - ramp.[3]) <= xmaxc_limit xmaxc + 16.
Proof.
  destruct (APCM_quantization_error (firstn 13 ramp) ltac:(apply wordsb_ok; vm_compute; reflexivity))
    as (xMc & mant & exp & xmaxc & xMp & E & _ & _ & _ & EI & H).
  exists xMc, mant, exp, xmaxc, xMp. split; [exact E |]. split; [exact EI |].
  exact (H 3 ltac:(lia)).
Defined.

(** ** What the coder and the decoder need *)

Lemma Weighting_filter_words e : words 40 (Weighting_filter e).
Proof.
  unfold Weighting_filter. set (g := fun k (_ : list Z) => _).
  destruct (fill_spec 40 0 g (repeat 0 40)) as [[HL _] Hv];
    [lia | lia | simpl; lia | reflexivity |].
  split; [rewrite HL; reflexivity |]. apply Forall_of_aget. rewrite HL. intros i Hi.
  change (Z.of_nat (length (repeat 0 40))) with 40 in Hi.
  specialize (Hv i Hi). replace (0 + i) with i in Hv by lia. rewrite Hv. unfold g.
  gsm_unfold. zcases; lia.
Qed.

Lemma grid_selection_words x : words 40 x ->
  words 13 (fst (RPE_grid_selection x)) /\ 0 <= snd (RPE_grid_selection x) <= 3.
Proof.
  intros Hx. destruct (grid_selection_reference x (proj2 Hx)) as [E1 E2].
  rewrite E1, E2. split; [| apply (grid_reference_best x (proj2 Hx))].
  split; [reflexivity |]. apply Forall_map, Forall_forall. intros i _. eapply words_aget; eassumption.
Qed.

(** The decoder accepts any parameters that fit their fields. *)
Lemma Gsm_RPE_Decoding_ok xmaxcr Mcr xMcr : field 6 xmaxcr -> field 2 Mcr -> fields 13 3 xMcr ->
  exists erp, Gsm_RPE_Decoding xmaxcr Mcr xMcr = Some erp /\ words 40 erp.
Proof.
  intros Hx HM [HL HF]. destruct (exp_mant_ok xmaxcr Hx) as (exp & mant & E & He & Hm & _).
  destruct (APCM_inverse_ok xMcr mant exp He Hm HF) as [EI HW].
  unfold Gsm_RPE_Decoding. rewrite E. cbn [bind]. rewrite EI. cbn [bind].
  apply positioning_ok; [unfold field in HM; lia |]. split; [now rewrite length_map | exact HW].
Qed.

(** The coder never fails and leaves in [e] exactly what the decoder will
    reconstruct from the codes. *)
Lemma Gsm_RPE_Encoding_ok e : length e = 50%nat ->
  exists e' xmaxc Mc xMc erp, Gsm_RPE_Encoding e = Some (e', xmaxc, Mc, xMc) /\
    field 6 xmaxc /\ field 2 Mc /\ fields 13 3 xMc /\
    Gsm_RPE_Decoding xmaxc Mc xMc = Some erp /\ words 40 erp /\
    agree_outside 5 45 e' e /\ forall k, 0 <= k < 40 -> e'.[5 + k] = erp.[k].
Proof.
  intros HL. unfold Gsm_RPE_Encoding.
  destruct (grid_selection_words _ (Weighting_filter_words e)) as [HxM HMc].
  destruct (RPE_grid_selection (Weighting_filter e)) as [xM Mc]. cbn [fst snd] in *.
  destruct (APCM_quantization_ok xM HxM)
    as (xmaxc & exp & mant & _ & E & Hf & _ & EM & He & Hm & _ & HC).
  rewrite E. cbn [bind]. destruct (APCM_inverse_ok _ mant exp He Hm (proj2 HC)) as [EI HW].
  rewrite EI. cbn [bind].
  destruct (positioning_ok Mc _ HMc (conj (eq_trans (length_map _ _) (proj1 HC)) HW)) as (ep & EP & HP).
  rewrite EP. cbn [bind].
  destruct (fill_spec 40 5 (fun k _ => ep.[k]) e) as [HA Hv]; [lia | lia | lia | reflexivity |].
  exists (fill 40 5 (fun k _ => ep.[k]) e), xmaxc, Mc, (map (sample_code exp mant) xM), ep.
  split; [reflexivity |]. split; [exact Hf |]. split; [unfold field; lia |]. split; [exact HC |].
  split; [unfold Gsm_RPE_Decoding; rewrite EM; cbn [bind]; rewrite EI; exact EP |].
  split; [exact HP |]. split; [exact HA | exact Hv].
Qed.
