(* ===== verification/GsmCodec.v ===== *)
(** * GSM 06.10: coder and decoder
    (src/mibench/telecomm/gsm/src: code.c, decode.c, gsm_encode.c, gsm_decode.c)

    The stages put together: [Gsm_Coder] and [Gsm_Decoder] on frame parameters,
    [gsm_encode] and [gsm_decode] on 33-byte frames.  The theorems: neither can
    fail an assertion from a state reached from [gsm_create]; what the coder
    produces always fits the frame; and the decoder that receives the frames
    rebuilds exactly the residual signal the coder predicts from, so the two
    never drift apart. *)

From Stdlib Require Import ZArith Lia List Bool.
Import ListNotations.
From S2P Require Import Prelude GsmArith GsmState GsmFrame GsmPreprocess GsmLpc GsmShortTerm GsmLongTerm GsmRpe.

(** ** [Gsm_Coder] *)

(** The parameters of one sub-segment. *)
Record sub_params := mk_sub { s_Nc : Z; s_bc : Z; s_Mc : Z; s_xmaxc : Z; s_xMc : list Z }.

(** One turn of [for (k = 0; k <= 3; k++, xMc += 13)]: [dp] and [dpp] are both
    [S->dp0 + 120 + 40 * k], [e] is the static array of the function. *)
Definition coder_sub (k : Z) (so dp0 e : list Z) : option (sub_params * list Z * list Z) :=
  let dp := 120 + 40 * k in
  let dpp := dp in
  let d := firstn 40 (skipn (Z.to_nat (k * 40)) so) in
  let* (Nc, bc, dp0, e) := Gsm_Long_Term_Predictor d dp0 e dp dpp in
  let* (e, xmaxc, Mc, xMc) := Gsm_RPE_Encoding e in
  let dp0 := fill 40 dp (fun i dp0 => GSM_ADD e.[5 + i] dp0.[dpp + i]) dp0 in
  Some (mk_sub Nc bc Mc xmaxc xMc, dp0, e).

Fixpoint coder_loop (left : nat) (k : Z) (so dp0 e : list Z)
  : option (list sub_params * list Z * list Z) :=
  match left with
  | O => Some ([], dp0, e)
  | S left' =>
      let* (p, dp0, e) := coder_sub k so dp0 e in
      let* (ps, dp0, e) := coder_loop left' (k + 1) so dp0 e in
      Some (p :: ps, dp0, e)
  end.

Definition assemble (LARc : list Z) (ps : list sub_params) : gsm_params :=
  mk_params LARc (map s_Nc ps) (map s_bc ps) (map s_Mc ps) (map s_xmaxc ps) (concat (map s_xMc ps)).

(** The static [e] is threaded through: it is shared by all coders. *)
Definition Gsm_Coder (S : gsm_state) (e s : list Z) : option (gsm_params * gsm_state * list Z) :=
  let* (so, st) := Gsm_Preprocess S s in
  let* (so, LARc) := Gsm_LPC_Analysis so in
  let '(so, st) := Gsm_Short_Term_Analysis_Filter st LARc so in
  let* (ps, dp0, e) := coder_loop 4 0 so (dp0 st) e in
  let dp0 := fill 120 0 (fun i dp0 => dp0.[160 + i]) dp0 in
  Some (assemble LARc ps, set_dp0 st dp0, e).

Definition gsm_encode (s : gsm_state) (e source : list Z) : option (list Z * gsm_state * list Z) :=
  let* (p, s, e) := Gsm_Coder s e source in
  Some (pack_frame p, s, e).

(** ** [Gsm_Decoder] *)

(** One turn of the loop over the sub-segments: the new state and the 40
    samples copied to [wt]. *)
Definition decoder_sub (S : gsm_state) (p : gsm_params) (jj : Z) : option (list Z * gsm_state) :=
  let* erp := Gsm_RPE_Decoding (xmaxc p).[jj] (Mc p).[jj] (firstn 13 (skipn (Z.to_nat (13 * jj)) (xmc p))) in
  let* st := Gsm_Long_Term_Synthesis_Filtering S (Nc p).[jj] (bc p).[jj] erp 120 in
  Some (firstn 40 (skipn 120 (dp0 st)), st).

Fixpoint decoder_subs (left : nat) (jj : Z) (st : gsm_state) (p : gsm_params) : option (list Z * gsm_state) :=
  match left with
  | O => Some ([], st)
  | S left' =>
      let* (w, st) := decoder_sub st p jj in
      let* (ws, st) := decoder_subs left' (jj + 1) st p in
      Some (w ++ ws, st)
  end.

Definition Gsm_Decoder (S : gsm_state) (p : gsm_params) : option (list Z * gsm_state) :=
  let* (wt, st) := decoder_subs 4 0 S p in
  let '(s, st) := Gsm_Short_Term_Synthesis_Filter st (LARc p) wt in
  Some (Postprocessing st s).

(** The result is the C return value, the target samples and the state. *)
Definition gsm_decode (s : gsm_state) (c : list Z) : option (Z * list Z * gsm_state) :=
  match unpack_frame c with
  | None => Some (-1, [], s)
  | Some p => let* (target, s) := Gsm_Decoder s p in Some (0, target, s)
  end.

(** ** Invariants *)

Record coder_ok (S : gsm_state) : Prop := {
  co_dp0 : words 280 (dp0 S);
  co_pre : pre_inv (pre_of S);
  co_short : short_ok S
}.

Record decoder_ok (S : gsm_state) : Prop := {
  do_dp0 : words 280 (dp0 S);
  do_short : short_ok S;
  do_nrp : 40 <= nrp S <= 120;
  do_msr : is_i16 (msr S)
}.

Definition sub_ok (p : sub_params) : Prop :=
  40 <= s_Nc p <= 120 /\ field 2 (s_bc p) /\ field 2 (s_Mc p) /\ field 6 (s_xmaxc p) /\ fields 13 3 (s_xMc p).

Lemma words_agree n a b lo hi : words n a -> agree_outside lo hi b a ->
  (forall i, lo <= i < hi -> is_i16 b.[i]) -> words n b.
Proof.
  intros [HL HF] [HL' Ha] Hv. split; [lia |]. apply Forall_of_aget. intros i Hi.
  destruct (Z.leb_spec lo i), (Z.ltb_spec i hi); try (apply Hv; lia);
    (rewrite Ha by lia; apply (words_aget n a i (conj HL HF))).
Qed.

Lemma words_slice n m a b l : words n l -> (a + b <= n)%nat -> m = b -> words m (firstn b (skipn a l)).
Proof.
  intros [HL HF] Hn ->. split; [rewrite length_firstn, length_skipn; lia |].
  apply Forall_firstn. now apply Forall_skipn.
Qed.

Lemma ltp_estimate_word a dp N b k : is_i16 (ltp_estimate a dp N b k).
Proof. apply i16_range. Qed.

(** One sub-segment of the coder: [erp] is what the decoder will decode from
    the codes, and the new samples of [dp0] are [erp] plus the estimate. *)
Lemma coder_sub_ok k so dp0 e : 0 <= k <= 3 -> words 160 so -> words 280 dp0 -> words 50 e ->
  exists p dp0' e' erp, coder_sub k so dp0 e = Some (p, dp0', e') /\ sub_ok p /\
    words 280 dp0' /\ words 50 e' /\
    Gsm_RPE_Decoding (s_xmaxc p) (s_Mc p) (s_xMc p) = Some erp /\ words 40 erp /\
    agree_outside (120 + 40 * k) (120 + 40 * k + 40) dp0' dp0 /\
    forall i, 0 <= i < 40 -> dp0'.[120 + 40 * k + i] =
      GSM_ADD erp.[i] (ltp_estimate dp0 (120 + 40 * k) (s_Nc p) (s_bc p) i).
Proof.
  intros Hk Hso Hdp He. unfold coder_sub. set (dp := 120 + 40 * k).
  assert (Hd : words 40 (firstn 40 (skipn (Z.to_nat (k * 40)) so)))
    by (apply (words_slice 160); [assumption | lia | reflexivity]).
  destruct (Gsm_Long_Term_Predictor_ok _ dp0 e dp Hd Hdp He ltac:(unfold dp; lia) ltac:(unfold dp; lia))
    as (N & b & a1 & e1 & E1 & HN & Hb & [HA1 HV1] & [HAe HVe]).
  rewrite E1. cbn [bind].
  assert (He1 : length e1 = 50%nat) by (rewrite (proj1 HAe); apply He).
  destruct (Gsm_RPE_Encoding_ok e1 He1)
    as (e2 & xc & M & xM & erp & E2 & Hxc & HM & HxM & ED & Herp & HA2 & HV2).
  rewrite E2. cbn [bind].
  assert (HL1 : length a1 = 280%nat) by (rewrite (proj1 HA1); apply Hdp).
  destruct (fill_spec 40 dp (fun i a => GSM_ADD e2.[5 + i] a.[dp + i]) a1) as [HA3 HV3];
    [lia | unfold dp; lia | unfold dp; lia | intros i a Hi [_ Ha]; now rewrite Ha by lia |].
  set (a3 := fill 40 dp _ a1) in *.
  assert (HV : forall i, 0 <= i < 40 -> a3.[dp + i] = GSM_ADD erp.[i] (ltp_estimate dp0 dp N b i)).
  { intros i Hi. rewrite HV3, HV2, HV1 by lia. reflexivity. }
  assert (HA : agree_outside dp (dp + 40) a3 dp0).
  { destruct HA1 as [L1 A1], HA3 as [L3 A3]. split; [lia |]. intros i Hi Ho. rewrite A3, A1; auto. }
  exists (mk_sub N b M xc xM), a3, e2, erp. cbn [s_Nc s_bc s_Mc s_xmaxc s_xMc].
  split; [reflexivity |]. split; [split; [exact HN | split; [unfold field; cbn [s_bc]; lia | auto]] |].
  split; [| split; [| split; [exact ED | split; [exact Herp | split; [exact HA | exact HV]]]]].
  - apply (words_agree 280 dp0 a3 dp (dp + 40) Hdp HA). intros i Hi.
    replace i with (dp + (i - dp)) by lia. rewrite HV by lia.
    apply GSM_ADD_word; [eapply words_aget; exact Herp | apply ltp_estimate_word].
  - apply (words_agree 50 e e2 5 45 He).
    + destruct HAe as [L1 A1], HA2 as [L2 A2]. split; [lia |]. intros i Hi Ho. rewrite A2, A1; auto.
    + intros i Hi. replace i with (5 + (i - 5)) by lia. rewrite HV2 by lia.
      eapply words_aget; exact Herp.
Qed.

(** ** The coder *)

Lemma coder_loop_ok left k so dp0 e : 0 <= k -> k + Z.of_nat left <= 4 ->
  words 160 so -> words 280 dp0 -> words 50 e ->
  exists ps dp0' e', coder_loop left k so dp0 e = Some (ps, dp0', e') /\ Forall sub_ok ps /\
    length ps = left /\ words 280 dp0' /\ words 50 e'.
Proof.
  revert k dp0 e; induction left as [|left IH]; intros k a e Hk Hl Hso Ha He.
  - exists [], a, e. auto.
  - cbn [coder_loop]. destruct (coder_sub_ok k so a e ltac:(lia) Hso Ha He)
      as (p & a' & e' & erp & -> & Hp & Ha' & He' & _). cbn [bind].
    destruct (IH (k + 1) a' e' ltac:(lia) ltac:(lia) Hso Ha' He')
      as (ps & a'' & e'' & -> & Hps & HL & Ha'' & He''). cbn [bind].
    exists (p :: ps), a'', e''. split; [reflexivity |]. split; [now constructor |].
    split; [simpl; lia | auto].
Qed.

Lemma memcpy_words a : words 280 a -> words 280 (fill 120 0 (fun i a => a.[160 + i]) a).
Proof.
  intros Ha. destruct (fill_spec 120 0 (fun i a => a.[160 + i]) a) as [HA HV];
    [lia | lia | rewrite (proj1 Ha); lia | intros i b Hi [_ Hb]; now rewrite Hb by lia |].
  eapply words_agree; [exact Ha | exact HA |]. intros i Hi. replace i with (0 + i) by lia.
  rewrite HV by lia. eapply words_aget; eassumption.
Qed.

Lemma fields_map {A} (f : A -> Z) w n (l : list A) : length l = n -> Forall (fun x => field w (f x)) l ->
  fields n w (map f l).
Proof. intros HL HF. split; [now rewrite length_map | now apply Forall_map]. Qed.

Lemma assemble_ok LARc ps : Forall2 field LARc_widths LARc -> Forall sub_ok ps -> length ps = 4%nat ->
  params_ok (assemble LARc ps).
Proof.
  intros HL HF H4. split; cbn [assemble GsmState.LARc Nc bc Mc xmaxc xmc]; [assumption | | | | |];
    try (apply fields_map; [assumption | eapply Forall_impl; [| exact HF]];
         intros p (H1 & H2 & H3 & H5 & H6); try assumption; unfold field; lia).
  split.
  - do 5 (destruct ps as [|? ps]; try discriminate H4).
    repeat (apply Forall_cons_iff in HF as [(_ & _ & _ & _ & [? _]) HF]).
    cbn [map concat]. rewrite !length_app. simpl. lia.
  - apply Forall_concat, Forall_map. eapply Forall_impl; [| exact HF].
    intros p (_ & _ & _ & _ & [_ ?]). assumption.
Qed.

(** A frame of the coder, stage by stage. *)
Lemma Gsm_Coder_stages S e s : coder_ok S -> words 50 e -> words 160 s ->
  exists LARc so ps a e' S', Gsm_Coder S e s = Some (assemble LARc ps, S', e') /\
    Forall2 field LARc_widths LARc /\ Forall sub_ok ps /\ length ps = 4%nat /\
    words 160 so /\ coder_loop 4 0 so (dp0 S) e = Some (ps, a, e') /\
    dp0 S' = fill 120 0 (fun i a => a.[160 + i]) a /\ words 280 a /\
    LARpp S' = upd (LARpp S) (Z.to_nat (j S)) (Decoding_of_the_coded_Log_Area_Ratios LARc) /\
    j S' = j S .^ 1 /\ coder_ok S' /\ words 50 e'.
Proof.
  intros [Hdp Hpre Hsh] He Hs. unfold Gsm_Coder. rewrite Gsm_Preprocess_value by assumption.
  pose proof (preprocess_spec_ok s (pre_of S) (proj2 Hs) Hpre) as HP.
  destruct (preprocess_spec s (pre_of S)) as [so w]. destruct HP as [Hso Hw].
  rewrite (proj1 Hs) in Hso. cbn [bind].
  destruct (Gsm_LPC_Analysis_value so Hso) as (sc & LARc & _ & -> & HLAR). cbn [bind].
  pose proof (Gsm_Short_Term_Analysis_ok (set_pre S (pz1 w) (pL_z2 w) (pmp w)) LARc _ Hsh
    (rescaled_words sc so Hso)) as HA.
  unfold Gsm_Short_Term_Analysis_Filter in *.
  destruct (run_filter _ _ _ _) as [d u']. destruct HA as [Hd Hsh'].
  destruct (coder_loop_ok 4 0 d (dp0 S) e ltac:(lia) ltac:(lia) Hd Hdp He)
    as (ps & a & e' & E & Hps & H4 & Ha & He').
  cbn [dp0 set_u store_LARpp set_LARpp set_pre]. rewrite E. cbn [bind].
  exists LARc, d, ps, a, e'; eexists. split; [reflexivity |].
  split; [exact HLAR |]. split; [exact Hps |]. split; [exact H4 |].
  split; [exact Hd |]. split; [exact E |]. split; [reflexivity |]. split; [exact Ha |].
  split; [reflexivity |]. split; [reflexivity |].
  split; [| exact He']. split.
  - apply memcpy_words, Ha.
  - destruct w. exact Hw.
  - exact Hsh'.
Qed.

(** ** The decoder *)

(** What one sub-segment does to the decoder's history: [erp] is the decoded
    excitation. *)
Lemma decoder_sub_ok S p jj : decoder_ok S -> params_ok p -> 0 <= jj <= 3 ->
  exists w S' erp, decoder_sub S p jj = Some (w, S') /\ decoder_ok S' /\ words 40 w /\
    Gsm_RPE_Decoding (xmaxc p).[jj] (Mc p).[jj] (firstn 13 (skipn (Z.to_nat (13 * jj)) (xmc p))) = Some erp /\
    (forall k, 0 <= k < 40 -> w.[k] =
       GSM_ADD erp.[k] (ltp_estimate (dp0 S) 120 (effective_lag S (Nc p).[jj]) (bc p).[jj] k)) /\
    (forall k, 0 <= k < 40 -> (dp0 S').[80 + k] = w.[k]) /\
    (forall i, 0 <= i < 80 -> (dp0 S').[i] = (dp0 S).[i + 40]) /\
    LARpp S' = LARpp S /\ j S' = j S /\ v S' = v S.
Proof.
  intros [Hdp Hsh Hn Hm] Hp Hj. unfold decoder_sub.
  assert (HX : fields 13 3 (firstn 13 (skipn (Z.to_nat (13 * jj)) (xmc p)))).
  { destruct (ok_xmc p Hp) as [HL HF]. split; [rewrite length_firstn, length_skipn; lia |].
    apply Forall_firstn. now apply Forall_skipn. }
  destruct (Gsm_RPE_Decoding_ok (xmaxc p).[jj] (Mc p).[jj] _
    (fields_aget 4 6 _ jj ltac:(lia) (ok_xmaxc p Hp)) (fields_aget 4 2 _ jj ltac:(lia) (ok_Mc p Hp)) HX)
    as (erp & E & Herp).
  rewrite E. cbn [bind].
  destruct (Gsm_Long_Term_Synthesis_ok S (Nc p).[jj] (bc p).[jj] erp Hdp Hn)
    as (S' & E' & ES & HN & HL & H1 & H2 & H3 & H4).
  rewrite E'. cbn [bind]. exists (firstn 40 (skipn 120 (dp0 S'))), S', erp.
  assert (HW : forall i, 0 <= i -> is_i16 (dp0 S').[i]).
  { intros i Hi. pose proof (fun i => words_aget 280 _ i Hdp) as HO.
    assert (HNew : forall k, 0 <= k < 40 -> is_i16 (dp0 S').[120 + k]).
    { intros k Hk. rewrite H1 by lia.
      apply GSM_ADD_word; [eapply words_aget; exact Herp | apply ltp_estimate_word]. }
    destruct (Z.ltb_spec i 80); [rewrite H2 by lia; apply HO |].
    destruct (Z.ltb_spec i 120);
      [replace i with (80 + (i - 80)) by lia; rewrite H3 by lia; apply HNew; lia |].
    destruct (Z.ltb_spec i 160);
      [replace i with (120 + (i - 120)) by lia; apply HNew; lia | rewrite H4 by lia; apply HO]. }
  assert (HD : words 280 (dp0 S')) by (split; [exact HL | apply Forall_of_aget; intros i Hi; apply HW; lia]).
  assert (Hw : forall k, 0 <= k < 40 -> (firstn 40 (skipn 120 (dp0 S'))).[k] = (dp0 S').[120 + k]).
  { intros k Hk. unfold aget. rewrite nth_firstn, nth_skipn.
    replace (Z.to_nat k <? 40)%nat with true by (symmetry; apply Nat.ltb_lt; lia). f_equal. lia. }
  split; [reflexivity |]. split.
  - rewrite ES. split; [exact HD | exact Hsh | exact HN | exact Hm].
  - split; [apply (words_slice 280); [exact HD | lia | reflexivity] |].
    split; [reflexivity |]. split; [intros k Hk; rewrite Hw by lia; now apply H1 |].
    split; [intros k Hk; rewrite Hw by lia; now apply H3 |]. split; [exact H2 |].
    rewrite ES. auto.
Qed.

Lemma decoder_subs_ok left jj S p : decoder_ok S -> params_ok p -> 0 <= jj -> jj + Z.of_nat left <= 4 ->
  exists wt S', decoder_subs left jj S p = Some (wt, S') /\ decoder_ok S' /\ words (40 * left) wt /\
    LARpp S' = LARpp S /\ j S' = j S /\ v S' = v S.
Proof.
  revert jj S; induction left as [|left IH]; intros jj S HS Hp Hj Hl.
  - exists [], S. split; [reflexivity |]. split; [exact HS |]. split; [| auto].
    split; [reflexivity | constructor].
  - cbn [decoder_subs]. destruct (decoder_sub_ok S p jj HS Hp ltac:(lia))
      as (w & S1 & erp & -> & HS1 & [HLw HFw] & _ & _ & _ & _ & EL & Ej & Ev). cbn [bind].
    destruct (IH (jj + 1) S1 HS1 Hp ltac:(lia) ltac:(lia)) as (ws & S2 & -> & HS2 & [HL HF] & EL2 & Ej2 & Ev2).
    cbn [bind]. exists (w ++ ws), S2. split; [reflexivity |]. split; [exact HS2 |].
    split; [split; [rewrite length_app; lia | now apply Forall_app] |].
    rewrite EL2, Ej2, Ev2. auto.
Qed.

Lemma Gsm_Decoder_stages S p : decoder_ok S -> params_ok p ->
  exists wt S1 s S', decoder_subs 4 0 S p = Some (wt, S1) /\ Gsm_Decoder S p = Some (s, S') /\
    decoder_ok S' /\ words 160 s /\ Forall (fun x => x mod 8 = 0) s /\ dp0 S' = dp0 S1 /\
    LARpp S' = upd (LARpp S) (Z.to_nat (j S)) (Decoding_of_the_coded_Log_Area_Ratios (LARc p)) /\
    j S' = j S .^ 1.
Proof.
  intros HS Hp. unfold Gsm_Decoder.
  destruct (decoder_subs_ok 4 0 S p HS Hp ltac:(lia) ltac:(lia)) as (wt & S1 & E & HS1 & Hwt & EL & Ej & _).
  rewrite E. cbn [bind]. destruct HS1 as [Hdp Hsh Hn Hm].
  destruct (Gsm_Short_Term_Synthesis_state S1 (LARc p) wt Hsh Hwt)
    as (s1 & S2 & -> & Hs1 & Hsh2 & Ed & En & Em & EL2 & Ej2).
  destruct (Postprocessing_ok S2 s1 Hs1 ltac:(rewrite Em; exact Hm)) as (s & m & -> & H1 & H2 & H3).
  exists wt, S1, s, (set_msr S2 m). split; [reflexivity |]. split; [reflexivity |].
  split; [split; cbn [dp0 nrp msr set_msr]; [rewrite Ed | | rewrite En |]; auto |].
  split; [assumption |]. split; [assumption |]. cbn [dp0 LARpp j set_msr].
  rewrite Ed, EL2, Ej2, EL, Ej. auto.
Qed.

(** ** The initial states *)

Lemma gsm_initial_coder : coder_ok gsm_initial.
Proof. split; [apply words_repeat | apply pre_inv_0 | apply gsm_initial_short]. Qed.

Lemma gsm_initial_decoder : decoder_ok gsm_initial.
Proof.
  split; [apply words_repeat | apply gsm_initial_short | cbn; lia | apply is_i16_0].
Qed.

Lemma gsm_create_initial S : gsm_create true = Some S -> S = gsm_initial.
Proof. intros E; injection E as <-. reflexivity. Qed.

(** ** Coder and decoder in step *)

(** The decoder's history is the coder's, and so are the log-area ratios. *)
Definition synced (S T : gsm_state) : Prop :=
  (forall i, 0 <= i < 120 -> (dp0 S).[i] = (dp0 T).[i]) /\ LARpp S = LARpp T /\ j S = j T.

(** Sub-segment [jj] of the frame parameters. *)
Definition matches (p : gsm_params) (jj : Z) (s : sub_params) : Prop :=
  (Nc p).[jj] = s_Nc s /\ (bc p).[jj] = s_bc s /\ (Mc p).[jj] = s_Mc s /\
  (xmaxc p).[jj] = s_xmaxc s /\ firstn 13 (skipn (Z.to_nat (13 * jj)) (xmc p)) = s_xMc s.

Fixpoint matches_all (p : gsm_params) (k : Z) (ps : list sub_params) : Prop :=
  match ps with
  | [] => True
  | s :: ps' => matches p k s /\ matches_all p (k + 1) ps'
  end.

Lemma assemble_matches LARc ps : Forall sub_ok ps -> length ps = 4%nat ->
  matches_all (assemble LARc ps) 0 ps.
Proof.
  intros HF H4. do 5 (destruct ps as [|? ps]; try discriminate H4).
  repeat (apply Forall_cons_iff in HF as [(_ & _ & _ & _ & [? _]) HF]).
  repeat match goal with
    | s : sub_params |- _ => destruct s as [? ? ? ? l]; cbn [s_xMc] in *;
        do 14 (destruct l as [|? l]; try discriminate)
    end.
  repeat split.
Qed.

Lemma coder_loop_S left k so a e : coder_loop (S left) k so a e =
  bind (coder_sub k so a e) (fun '(p, a, e) =>
    bind (coder_loop left (k + 1) so a e) (fun '(ps, a, e) => Some (p :: ps, a, e))).
Proof. reflexivity. Qed.

Lemma decoder_subs_S left jj T p : decoder_subs (S left) jj T p =
  bind (decoder_sub T p jj) (fun '(w, T) =>
    bind (decoder_subs left (jj + 1) T p) (fun '(ws, T) => Some (w ++ ws, T))).
Proof. reflexivity. Qed.

(** One frame's worth of sub-segments: the coder's window slides over its
    array, the decoder's array slides under its window. *)
Lemma loop_synced left k so a e p T ps a' e' : 0 <= k -> k + Z.of_nat left <= 4 ->
  words 160 so -> words 280 a -> words 50 e -> decoder_ok T -> params_ok p ->
  (forall i, 0 <= i < 120 -> a.[40 * k + i] = (dp0 T).[i]) ->
  coder_loop left k so a e = Some (ps, a', e') -> matches_all p k ps ->
  exists wt T', decoder_subs left k T p = Some (wt, T') /\
    forall i, 0 <= i < 120 -> a'.[40 * (k + Z.of_nat left) + i] = (dp0 T').[i].
Proof.
  revert k a e T ps; induction left as [|left IH]; intros k a e T ps Hk Hl Hso Ha He HT Hp HW E HM.
  - injection E as <- <- <-. exists [], T. split; [reflexivity |]. now rewrite Z.add_0_r.
  - rewrite coder_loop_S in E. rewrite decoder_subs_S.
    destruct (coder_sub_ok k so a e ltac:(lia) Hso Ha He)
      as (s & a1 & e1 & erp & E1 & Hs & Ha1 & He1 & ED & Herp & [_ HA] & HV).
    rewrite E1 in E. cbn [bind] in E.
    destruct (coder_loop left (k + 1) so a1 e1) as [[[ps' a2] e2]|] eqn:E2; [| discriminate].
    cbn [bind] in E. injection E as <- <- <-. destruct HM as [(M1 & M2 & M3 & M4 & M5) HM].
    destruct (decoder_sub_ok T p k HT Hp ltac:(lia))
      as (w & T1 & erp' & D1 & HT1 & _ & ED' & HV' & H80 & Hsh & _).
    rewrite M3, M4, M5, ED in ED'. injection ED' as <-. rewrite M1, M2 in HV'.
    rewrite D1. cbn [bind].
    assert (EN : effective_lag T (s_Nc s) = s_Nc s).
    { unfold effective_lag. destruct Hs as [HN _].
      destruct (Z.ltb_spec (s_Nc s) 40), (Z.ltb_spec 120 (s_Nc s)); cbn [orb]; lia. }
    rewrite EN in HV'. destruct Hs as [HN _].
    destruct (IH (k + 1) a1 e1 T1 ps' ltac:(lia) ltac:(lia) Hso Ha1 He1 HT1 Hp) as (ws & T2 & D2 & HW2);
      [| exact E2 | exact HM |].
    + intros i Hi. destruct (Z.ltb_spec i 80).
      * rewrite Hsh, <- HW, HA by lia. f_equal. lia.
      * replace i with (80 + (i - 80)) by lia. rewrite H80, HV' by lia.
        replace (40 * (k + 1) + (80 + (i - 80))) with (120 + 40 * k + (i - 80)) by lia.
        rewrite HV by lia. unfold ltp_estimate. do 3 f_equal.
        rewrite <- HW by lia. f_equal. lia.
    + rewrite D2. cbn [bind]. exists (w ++ ws), T2. split; [reflexivity |].
      intros i Hi. rewrite <- HW2 by lia. f_equal. lia.
Qed.

(** A frame encoded and decoded keeps the two sides in step. *)
Lemma frame_synced S e T s : coder_ok S -> words 50 e -> decoder_ok T -> synced S T -> words 160 s ->
  exists c S' e' out T', gsm_encode S e s = Some (c, S', e') /\ gsm_decode T c = Some (0, out, T') /\
    coder_ok S' /\ words 50 e' /\ decoder_ok T' /\ synced S' T' /\ words 160 out.
Proof.
  intros HS He HT (HW & EL & Ej) Hs.
  destruct (Gsm_Coder_stages S e s HS He Hs)
    as (LARc & so & ps & a & e' & S' & E & HL & Hps & H4 & Hso & EC & ED & Ha & EL' & Ej' & HS' & He').
  pose proof (assemble_ok LARc ps HL Hps H4) as Hp.
  destruct (Gsm_Decoder_stages T (assemble LARc ps) HT Hp)
    as (wt & T1 & out & T' & D1 & D2 & HT' & Hout & _ & Dd & DL & Dj).
  exists (pack_frame (assemble LARc ps)), S', e', out, T'.
  split; [unfold gsm_encode; rewrite E; reflexivity |].
  split; [unfold gsm_decode; rewrite unpack_pack_frame by assumption; rewrite D2; reflexivity |].
  split; [exact HS' |]. split; [exact He' |]. split; [exact HT' |]. split; [| exact Hout].
  destruct (loop_synced 4 0 so (dp0 S) e (assemble LARc ps) T ps a e' ltac:(lia) ltac:(lia) Hso
    (co_dp0 S HS) He HT Hp ltac:(intros i Hi; rewrite <- HW by lia; f_equal; lia) EC
    (assemble_matches LARc ps Hps H4)) as (wt' & T1' & D1' & HW').
  rewrite D1 in D1'. injection D1' as <- <-.
  split; [| rewrite EL', Ej', DL, Dj, EL, Ej; auto].
  intros i Hi. rewrite ED, Dd, <- HW' by lia.
  destruct (fill_spec 120 0 (fun i a => a.[160 + i]) a) as [_ HV];
    [lia | lia | rewrite (proj1 Ha); lia | intros k b Hk [_ Hb]; now rewrite Hb by lia |].
  replace i with (0 + i) at 1 by lia. rewrite HV by lia. reflexivity.
Qed.

(** ** Reachable states *)

(** The states a coder passes through: created, then fed frames of 160 words.
    The second component is the static array of [Gsm_Coder]. *)
Inductive coder_reachable : gsm_state -> list Z -> Prop :=
| cr_create S : gsm_create true = Some S -> coder_reachable S (repeat 0 50)
| cr_encode S e s c S' e' : coder_reachable S e -> words 160 s ->
    gsm_encode S e s = Some (c, S', e') -> coder_reachable S' e'.

(** The states a decoder passes through: created, then fed arbitrary 33-byte
    frames, those with a wrong magic included. *)
Inductive decoder_reachable : gsm_state -> Prop :=
| dr_create S : gsm_create true = Some S -> decoder_reachable S
| dr_decode S c r s S' : decoder_reachable S -> frame_ok c ->
    gsm_decode S c = Some (r, s, S') -> decoder_reachable S'.

Lemma gsm_encode_total S e s : coder_ok S -> words 50 e -> words 160 s ->
  exists p S' e', Gsm_Coder S e s = Some (p, S', e') /\ gsm_encode S e s = Some (pack_frame p, S', e') /\ params_ok p /\
    Forall (fun n => 40 <= n <= 120) (Nc p) /\ coder_ok S' /\ words 50 e'.
Proof.
  intros HS He Hs. destruct (Gsm_Coder_stages S e s HS He Hs)
    as (LARc & so & ps & a & e' & S' & E & HL & Hps & H4 & _ & _ & _ & _ & _ & _ & HS' & He').
  exists (assemble LARc ps), S', e'. split; [exact E |]. split; [unfold gsm_encode; rewrite E; reflexivity |].
  split; [now apply assemble_ok |]. split; [| auto].
  cbn [assemble Nc]. apply Forall_map. eapply Forall_impl; [| exact Hps]. now intros p [H _].
Qed.

Lemma coder_reachable_ok S e : coder_reachable S e -> coder_ok S /\ words 50 e.
Proof.
  induction 1 as [S E | S e s c S' e' HR [HS He] Hs E].
  - rewrite (gsm_create_initial S E). split; [apply gsm_initial_coder | apply words_repeat].
  - destruct (gsm_encode_total S e s HS He Hs) as (p & S1 & e1 & _ & E' & _ & _ & HS1 & He1).
    rewrite E in E'. injection E' as _ -> ->. auto.
Qed.

Lemma gsm_decode_total S c : decoder_ok S -> frame_ok c ->
  exists r s S', gsm_decode S c = Some (r, s, S') /\ decoder_ok S' /\
    (c.[0] / 16 <> GSM_MAGIC -> r = -1 /\ S' = S) /\
    (c.[0] / 16 = GSM_MAGIC -> r = 0 /\ words 160 s /\ Forall (fun x => x mod 8 = 0) s).
Proof.
  intros HS Hc. pose proof (frame_byte c 0 Hc) as H0. unfold is_byte in H0.
  assert (EM : (c.[0] >> 4) .& 0x0F = c.[0] / 16) by (field_arith; zlia).
  unfold gsm_decode. destruct (unpack_frame c) as [p|] eqn:E.
  - assert (Hm : c.[0] / 16 = GSM_MAGIC).
    { unfold unpack_frame in E. rewrite EM in E. destruct (Z.eqb_spec (c.[0] / 16) GSM_MAGIC); [assumption | discriminate]. }
    destruct (Gsm_Decoder_stages S p HS (unpack_params_ok c p Hc E))
      as (wt & S1 & s & S' & _ & -> & HS' & Hs & H8 & _).
    cbn [bind]. exists 0, s, S'. split; [reflexivity |]. split; [exact HS' |].
    split; [intros Hn; now destruct Hn | auto].
  - assert (Hm : c.[0] / 16 <> GSM_MAGIC).
    { unfold unpack_frame in E. rewrite EM in E. destruct (Z.eqb_spec (c.[0] / 16) GSM_MAGIC); [discriminate | assumption]. }
    exists (-1), [], S. split; [reflexivity |]. split; [exact HS |]. split; [auto | tauto].
Qed.

Lemma decoder_reachable_ok S : decoder_reachable S -> decoder_ok S.
Proof.
  induction 1 as [S E | S c r s S' HR HS Hc E].
  - rewrite (gsm_create_initial S E). apply gsm_initial_decoder.
  - destruct (gsm_decode_total S c HS Hc) as (r1 & s1 & S1 & E' & HS1 & _).
    rewrite E in E'. injection E' as _ _ ->. exact HS1.
Qed.

(** C2. From any state a coder can reach, encoding any 160 samples returns: no
    assertion of the codec can fail.  The parameters that [Gsm_Coder] hands over to
    be packed all fit their fields (so that the masks of the packing cut nothing
    off), with the long-term lags in the legal 40..120; the frame has 33 bytes, and
    unpacking it gives exactly these parameters. *)
Theorem gsm_encode_never_aborts S e s : coder_reachable S e -> words 160 s ->
  exists p c S' e', Gsm_Coder S e s = Some (p, S', e') /\ gsm_encode S e s = Some (c, S', e') /\
    params_ok p /\ Forall (fun n => 40 <= n <= 120) (Nc p) /\
    length c = 33%nat /\ Forall is_byte c /\ unpack_frame c = Some p /\ coder_reachable S' e'.
Proof.
  intros HR Hs. destruct (coder_reachable_ok S e HR) as [HS He].
  destruct (gsm_encode_total S e s HS He Hs) as (p & S' & e' & Ec & E & Hp & HN & _).
  destruct (pack_frame_ok p) as [Hlen Hbytes].
  exists p, (pack_frame p), S', e'. repeat (split; [assumption |]).
  split; [now apply unpack_pack_frame | exact (cr_encode S e s _ S' e' HR Hs E)].
Qed.

Lemma gsm_encode_never_aborts_witness :
  exists p c S' e', Gsm_Coder gsm_initial (repeat 0 50) loud = Some (p, S', e') /\ params_ok p /\
    gsm_encode gsm_initial (repeat 0 50) loud = Some (c, S', e') /\ length c = 33%nat /\ unpack_frame c = Some p.
Proof.
  destruct (gsm_encode_never_aborts gsm_initial (repeat 0 50) loud (cr_create gsm_initial eq_refl) loud_words)
    as (p & c & S' & e' & Ec & E & Hp & _ & Hlen & _ & Hu & _).
  exists p, c, S', e'. split; [exact Ec |]. split; [exact Hp |]. split; [exact E |]. split; [exact Hlen | exact Hu].
Defined.

(** C3. From any state a decoder can reach, decoding any 33 bytes returns: -1
    with the state untouched when the magic nibble is wrong, and otherwise 0
    with 160 output samples, each a multiple of 8; no assertion can fail
    whatever the bits of the frame. *)
Theorem gsm_decode_never_aborts S c : decoder_reachable S -> frame_ok c ->
  exists r s S', gsm_decode S c = Some (r, s, S') /\ decoder_reachable S' /\
    (c.[0] / 16 <> GSM_MAGIC -> r = -1 /\ S' = S) /\
    (c.[0] / 16 = GSM_MAGIC -> r = 0 /\ words 160 s /\ Forall (fun x => x mod 8 = 0) s).
Proof.
  intros HR Hc. destruct (gsm_decode_total S c (decoder_reachable_ok S HR) Hc)
    as (r & s & S' & E & _ & H).
  exists r, s, S'. split; [exact E |]. split; [exact (dr_decode S c r s S' HR Hc E) | exact H].
Qed.

(** A frame of all ones under the magic: lags of 127 are out of range. *)
Lemma gsm_decode_never_aborts_witness :
  exists s S', gsm_decode gsm_initial (0xDF :: repeat 0xFF 32) = Some (0, s, S') /\ words 160 s.
Proof.
  destruct (gsm_decode_never_aborts gsm_initial (0xDF :: repeat 0xFF 32) (dr_create gsm_initial eq_refl))
    as (r & s & S' & E & _ & _ & H).
  - split; [reflexivity |]. cbn [repeat]. repeat (apply Forall_cons; [unfold is_byte; lia |]). apply Forall_nil.
  - destruct (H eq_refl) as (-> & Hs & _). exists s, S'. split; [exact E | exact Hs].
Defined.

(** ** A conversation *)

(** Encode each frame and decode what was sent. *)
Fixpoint codec_run (S : gsm_state) (e : list Z) (T : gsm_state) (frames : list (list Z))
  : option (list (list Z) * gsm_state * gsm_state) :=
  match frames with
  | [] => Some ([], S, T)
  | s :: frames' =>
      let* (c, S1, e1) := gsm_encode S e s in
      let* (_, out, T1) := gsm_decode T c in
      let* (outs, S2, T2) := codec_run S1 e1 T1 frames' in
      Some (out :: outs, S2, T2)
  end.

Lemma codec_run_ok frames S e T : coder_ok S -> words 50 e -> decoder_ok T -> synced S T ->
  Forall (words 160) frames ->
  exists outs S' T', codec_run S e T frames = Some (outs, S', T') /\ synced S' T' /\
    length outs = length frames.
Proof.
  intros HS He HT HY HF. revert S e T HS He HT HY; induction HF as [|s frames Hs HF IH];
    intros S e T HS He HT HY; [exists [], S, T; auto |].
  destruct (frame_synced S e T s HS He HT HY Hs)
    as (c & S1 & e1 & out & T1 & E1 & D1 & HS1 & He1 & HT1 & HY1 & _).
  cbn [codec_run]. rewrite E1. cbn [bind]. rewrite D1. cbn [bind].
  destruct (IH S1 e1 T1 HS1 He1 HT1 HY1) as (outs & S2 & T2 & -> & HY2 & HL). cbn [bind].
  exists (out :: outs), S2, T2. split; [reflexivity |]. split; [exact HY2 | simpl; congruence].
Qed.

(** C1. A coder and a decoder created together and connected by the 33-byte
    frames never drift apart: after any number of frames the decoder's 120
    samples of reconstructed residual and its log-area ratios equal the coder's
    own, so that the coder's predictions are those the decoder will make. *)
Theorem codec_stays_synced frames S T : gsm_create true = Some S -> gsm_create true = Some T ->
  Forall (words 160) frames ->
  exists outs S' T', codec_run S (repeat 0 50) T frames = Some (outs, S', T') /\ synced S' T' /\
    length outs = length frames.
Proof.
  intros ES ET HF. rewrite (gsm_create_initial S ES), (gsm_create_initial T ET).
  apply codec_run_ok; [apply gsm_initial_coder | apply words_repeat | apply gsm_initial_decoder | | exact HF].
  split; [reflexivity | split; reflexivity].
Qed.

Lemma codec_stays_synced_witness :
  exists outs S' T', codec_run gsm_initial (repeat 0 50) gsm_initial [loud; ramp] = Some (outs, S', T') /\
    synced S' T'.
Proof.
  destruct (codec_stays_synced [loud; ramp] gsm_initial gsm_initial eq_refl eq_refl) as (outs & S' & T' & E & H & _).
  - repeat (apply Forall_cons; [apply wordsb_ok; vm_compute; reflexivity |]). apply Forall_nil.
  - exists outs, S', T'. split; [exact E | exact H].
Defined.
