(* ===== verification/Dijkstra.v ===== *)
(** * Dijkstra: shortest paths over a 100-node adjacency matrix

    Models [network/dijkstra/dijkstra_large.c] (and [dijkstra_small.c], which
    differs only in the number of queries): the linked-list queue, the label
    correcting search that relaxes the edges of the nodes it takes off the
    queue, the recursive printing of the path found, and [main].

    The search is not Dijkstra's algorithm proper (the queue is a plain FIFO, a
    node may be queued several times and with labels that are out of date), so
    what makes it correct is proved from a loop invariant: every label is the
    cost of a simple path, every edge out of a node that is not queued is
    relaxed, and the predecessors form a tree.  The label [NONE] = 9999 is both
    "not reached" and an ordinary cost; with edge costs up to 100 a simple path
    costs at most 9900, so the two never meet. *)

From Stdlib Require Import ZArith Lia List Bool.
From S2P Require Import Prelude.
Import ListNotations.

Definition NUM_NODES : Z := 100.
Definition NONE : Z := 9999.

(** ** Data *)

(** [struct _NODE]: the fields [iDist] and [iPrev]. *)
Record NODE := mkNODE { nDist : Z; nPrev : Z }.

(** [struct _QITEM]; the [qNext] links are the list structure of the queue. *)
Record QITEM := mkQITEM { qNode : Z; qDist : Z; qPrev : Z }.

(** What a call prints: the fixed line when start and end are equal, else the
    cost and the nodes of the path. *)
Inductive line :=
| Stay
| Path (cost : Z) (nodes : list Z).

(** The file-scope variables a search reads and writes, with the lines printed
    so far.  [ch], [i] and [iCost] are loop temporaries. *)
Record search_state := mkSearch {
  qHead : list QITEM;
  g_qCount : Z;
  rgnNodes : list NODE;
  iNode : Z;
  iDist : Z;
  iPrev : Z;
  out : list line
}.

(** How a run ends: by returning, by [exit(1)] when [malloc] fails, or not
    within the fuel. *)
Inductive run :=
| Finished (s : search_state)
| OutOfMemory
| OutOfFuel.

Definition node (l : list NODE) (v : Z) : NODE := nth (Z.to_nat v) l (mkNODE 0 0).
Definition set_node (l : list NODE) (v : Z) (n : NODE) : list NODE := upd l (Z.to_nat v) n.

Definition dist (st : search_state) (v : Z) : Z := nDist (node (rgnNodes st) v).
Definition prev (st : search_state) (v : Z) : Z := nPrev (node (rgnNodes st) v).

Section Program.

(** [malloc n]: whether the allocation of an item succeeds while [n] are live. *)
Variable malloc : Z -> bool.

(** The adjacency matrix, row by row. *)
Variable AdjMatrix : list (list Z).

Definition adj (u v : Z) : Z := (nth (Z.to_nat u) AdjMatrix []).[v].

(** ** Operations *)

(** [print_path]: the nodes printed; [None] when the recursion is deeper than
    the fuel. *)
Fixpoint print_path (fuel : nat) (nodes : list NODE) (chNode : Z) : option (list Z) :=
  match fuel with
  | O => None
  | S f =>
      let* before := (if negb (nPrev (node nodes chNode) =? NONE)
                      then print_path f nodes (nPrev (node nodes chNode))
                      else Some []) in
      Some (before ++ [chNode])
  end.

Definition enqueue (node dist prev : Z) (st : search_state) : option search_state :=
  if malloc (Z.of_nat (length (qHead st))) then
    Some (mkSearch (qHead st ++ [mkQITEM node dist prev]) (i32 (g_qCount st + 1))
            (rgnNodes st) (iNode st) (iDist st) (iPrev st) (out st))
  else None.

(** [dequeue (&iNode, &iDist, &iPrev)] *)
Definition dequeue (st : search_state) : search_state :=
  match qHead st with
  | [] => st
  | q :: rest =>
      mkSearch rest (i32 (g_qCount st - 1)) (rgnNodes st) (qNode q) (qDist q) (qPrev q) (out st)
  end.

Definition qcount (st : search_state) : Z := g_qCount st.

Definition set_label (v d p : Z) (st : search_state) : search_state :=
  mkSearch (qHead st) (g_qCount st) (set_node (rgnNodes st) v (mkNODE d p))
    (iNode st) (iDist st) (iPrev st) (out st).

(** The body of the [for] loop over the neighbours of [iNode]. *)
Definition relax (i : Z) (st : search_state) : option search_state :=
  let iCost := adj (iNode st) i in
  if negb (iCost =? NONE) then
    if (NONE =? dist st i) || (dist st i >? i32 (iCost + iDist st)) then
      let d := i32 (iDist st + iCost) in
      enqueue i d (iNode st) (set_label i d (iNode st) st)
    else Some st
  else Some st.

Definition relax_all (st : search_state) : option search_state :=
  for_opt 0 NUM_NODES relax st.

(** [while (qcount() > 0)] *)
Fixpoint search (fuel : nat) (st : search_state) : run :=
  match fuel with
  | O => OutOfFuel
  | S f =>
      if qcount st >? 0 then
        match relax_all (dequeue st) with
        | Some st' => search f st'
        | None => OutOfMemory
        end
      else Finished st
  end.

(** The first loop of [dijkstra]. *)
Definition clear_labels (st : search_state) : search_state :=
  for_range 0 NUM_NODES (fun ch => set_label ch NONE NONE) st.

Definition print_line (l : line) (st : search_state) : search_state :=
  mkSearch (qHead st) (g_qCount st) (rgnNodes st) (iNode st) (iDist st) (iPrev st)
    (out st ++ [l]).

(** [fuel] bounds the [while] loop and the recursion of [print_path]. *)
Definition dijkstra (fuel : nat) (chStart chEnd : Z) (st : search_state) : run :=
  let st := clear_labels st in
  if chStart =? chEnd then Finished (print_line Stay st)
  else
    match enqueue chStart 0 NONE (set_label chStart 0 NONE st) with
    | None => OutOfMemory
    | Some st =>
        match search fuel st with
        | Finished st =>
            match print_path fuel (rgnNodes st) chEnd with
            | Some p => Finished (print_line (Path (dist st chEnd) p) st)
            | None => OutOfFuel
            end
        | r => r
        end
    end.

(** The query loop of [main]: [for (i=0,j=NUM_NODES/2; i<n; i++,j++)] with
    [j=j%NUM_NODES] first in the body. *)
Fixpoint queries (fuel n : nat) (i j : Z) (st : search_state) : run :=
  match n with
  | O => Finished st
  | S m =>
      let j := Z.rem j NUM_NODES in
      match dijkstra fuel i j st with
      | Finished st => queries fuel m (i + 1) (j + 1) st
      | r => r
      end
  end.

End Program.

(** The matrix that the [fscanf] loop reads: [k] keeps its value once the input
    is used up. *)
Fixpoint read_row (n : nat) (k : Z) (input : list Z) : list Z * Z * list Z :=
  match n with
  | O => ([], k, input)
  | S m =>
      let '(k, input) := match input with [] => (k, []) | x :: r => (x, r) end in
      let '(row, k', rest) := read_row m k input in
      (k :: row, k', rest)
  end.

Fixpoint read_matrix (n : nat) (k : Z) (input : list Z) : list (list Z) :=
  match n with
  | O => []
  | S m =>
      let '(row, k, input) := read_row (Z.to_nat NUM_NODES) k input in
      row :: read_matrix m k input
  end.

(** The state the file-scope initialisers give. *)
Definition initial_state : search_state :=
  mkSearch [] 0 (repeat (mkNODE 0 0) (Z.to_nat NUM_NODES)) 0 0 0 [].

(** [main] on the numbers of the file named on the command line; [k0] is the
    value [k] happens to start with, [n] is 100 in the large and 20 in the small
    program. *)
Definition dijkstra_main (malloc : Z -> bool) (fuel n : nat) (k0 : Z) (input : list Z) : run :=
  queries malloc (read_matrix (Z.to_nat NUM_NODES) k0 input) fuel n 0 (NUM_NODES / 2)
    initial_state.

(** ** Specification *)

Definition in_graph (v : Z) : Prop := 0 <= v < NUM_NODES.

(** The edge costs the search is meant for (those of [input.dat] are). *)
Definition costs_ok (A : list (list Z)) : Prop :=
  forall u v, in_graph u -> in_graph v -> adj A u v = NONE \/ 0 <= adj A u v <= 100.

Definition costs_okb (A : list (list Z)) : bool :=
  all_range 0 100 (fun u => all_range 0 100 (fun v =>
    (adj A u v =? NONE) || ((0 <=? adj A u v) && (adj A u v <=? 100)))).

(** [walk A s p v c]: [p] lists the nodes of a walk of cost [c] from [s] to [v]. *)
Inductive walk (A : list (list Z)) (s : Z) : list Z -> Z -> Z -> Prop :=
| walk_start : walk A s [s] s 0
| walk_step p u c v : walk A s p u c -> in_graph v -> adj A u v <> NONE ->
    walk A s (p ++ [v]) v (c + adj A u v).

(** What a call should print: a cheapest walk with its cost; the label [NONE]
    and the end node alone when there is no walk. *)
Inductive answer (A : list (list Z)) (s e : Z) : line -> Prop :=
| answer_stay : s = e -> answer A s e Stay
| answer_path c p : s <> e -> walk A s p e c ->
    (forall p' c', walk A s p' e c' -> c <= c') -> answer A s e (Path c p)
| answer_none : s <> e -> (forall p c, ~ walk A s p e c) -> answer A s e (Path NONE [e]).

(** Bounds on the iterations of a search and on the items it has live. *)
Definition search_bound : Z := NUM_NODES * NONE.
Definition search_fuel : nat := Z.to_nat (search_bound + 1).

Ltac graph := unfold in_graph, search_bound, NUM_NODES, NONE in *.

Lemma costs_okb_ok A : costs_okb A = true -> costs_ok A.
Proof.
  intros H u v Hu Hv. graph.
  pose proof (all_range_spec _ _ _ H u ltac:(lia)) as Hr.
  pose proof (all_range_spec _ _ _ Hr v ltac:(lia)) as Hc.
  apply orb_prop in Hc as [Hc|Hc]; [left; now apply Z.eqb_eq | right].
  apply andb_prop in Hc as [H1 H2]. apply Z.leb_le in H1, H2. split; assumption.
Qed.

(** ** Labels *)

Lemma node_set_node l v n w : 0 <= v < Z.of_nat (length l) -> 0 <= w ->
  node (set_node l v n) w = if w =? v then n else node l w.
Proof.
  intros Hv Hw; unfold node, set_node; rewrite nth_upd.
  replace (Z.to_nat w =? Z.to_nat v)%nat with (w =? v)
    by (destruct (Z.eqb_spec w v), (Nat.eqb_spec (Z.to_nat w) (Z.to_nat v)); lia).
  replace (Z.to_nat v <? length l)%nat with true by (symmetry; apply Nat.ltb_lt; lia).
  now rewrite andb_true_r.
Qed.

Lemma dist_set_label v d p st w : Z.of_nat (length (rgnNodes st)) = NUM_NODES ->
  in_graph v -> 0 <= w -> dist (set_label v d p st) w = if w =? v then d else dist st w.
Proof.
  intros Hl Hv Hw. unfold dist; cbn [set_label rgnNodes].
  rewrite node_set_node by (graph; lia). now destruct (w =? v).
Qed.

Lemma prev_set_label v d p st w : Z.of_nat (length (rgnNodes st)) = NUM_NODES ->
  in_graph v -> 0 <= w -> prev (set_label v d p st) w = if w =? v then p else prev st w.
Proof.
  intros Hl Hv Hw. unfold prev; cbn [set_label rgnNodes].
  rewrite node_set_node by (graph; lia). now destruct (w =? v).
Qed.

Lemma set_label_length v d p st :
  length (rgnNodes (set_label v d p st)) = length (rgnNodes st).
Proof. apply upd_length. Qed.

(** ** Simple paths and predecessor chains

    Both are stated over label functions, so that a change of the state is a
    change of one point. *)

Section Graph.

Variable A : list (list Z).
Variable s : Z.
Hypothesis HA : costs_ok A.
Hypothesis Hs : in_graph s.

(** A simple path none of whose nodes has a label above the path's cost to it. *)
Inductive spath (d : Z -> Z) : list Z -> Z -> Z -> Prop :=
| spath_start : d s <= 0 -> spath d [s] s 0
| spath_step p u c v : spath d p u c -> in_graph v -> adj A u v <> NONE -> ~ In v p ->
    d v <= c + adj A u v -> spath d (p ++ [v]) v (c + adj A u v).

Lemma edge_cost u v : in_graph u -> in_graph v -> adj A u v <> NONE -> 0 <= adj A u v <= 100.
Proof. intros Hu Hv; destruct (HA u v Hu Hv); tauto. Qed.

Lemma walk_end p v c : walk A s p v c -> in_graph v.
Proof. destruct 1; auto. Qed.

Lemma spath_end d p v c : spath d p v c -> in_graph v.
Proof. destruct 1; auto. Qed.

Lemma spath_walk d p v c : spath d p v c -> walk A s p v c.
Proof. induction 1; econstructor; eauto. Qed.

Lemma spath_mono d d' p v c : (forall x, in_graph x -> d' x <= d x) ->
  spath d p v c -> spath d' p v c.
Proof.
  intros Hd; induction 1; constructor; auto.
  - specialize (Hd s Hs); lia.
  - specialize (Hd v H0); lia.
Qed.

(** A node on the path has a label at most the cost of the path. *)
Lemma spath_label d p v c : spath d p v c -> 0 <= c /\ forall x, In x p -> d x <= c.
Proof.
  induction 1 as [|p u c v Hp [Hc IH] Hv Hadj Hn Hd].
  - split; [lia | intros x [<-|[]]; assumption].
  - pose proof (edge_cost u v (spath_end _ _ _ _ Hp) Hv Hadj).
    split; [lia |]. intros x [Hx|[<-|[]]]%in_app_or; [specialize (IH x Hx); lia | assumption].
Qed.

Lemma spath_simple d p v c : spath d p v c ->
  NoDup p /\ Forall in_graph p /\ 0 <= c <= 100 * (Z.of_nat (length p) - 1).
Proof.
  induction 1 as [|p u c v Hp (Hnd & Hg & Hc) Hv Hadj Hn Hd].
  - split; [repeat constructor; intros [] | split; [now constructor | simpl; lia]].
  - pose proof (edge_cost u v (spath_end _ _ _ _ Hp) Hv Hadj).
    split; [| split].
    + apply NoDup_app; auto; [repeat constructor; intros [] |].
      intros x Hx [<-|[]]; contradiction.
    + apply Forall_app; auto.
    + rewrite length_app; simpl length; lia.
Qed.

Lemma simple_length p : NoDup p -> Forall in_graph p -> Z.of_nat (length p) <= NUM_NODES.
Proof.
  intros Hnd Hg.
  assert (Hi : incl (map Z.to_nat p) (seq 0 (Z.to_nat NUM_NODES))).
  { intros n (x & <- & Hx)%in_map_iff. rewrite Forall_forall in Hg. specialize (Hg x Hx).
    apply in_seq. graph; lia. }
  apply NoDup_incl_length in Hi.
  - rewrite length_map, length_seq in Hi. graph; lia.
  - rewrite Forall_forall in Hg. clear Hi. induction Hnd as [|x l Hx Hnd IH]; constructor.
    + intros (y & Hy & Hin)%in_map_iff. apply Hx.
      assert (in_graph x /\ in_graph y) by (split; apply Hg; simpl; auto).
      replace x with y by (graph; lia). assumption.
    + apply IH. intros y Hy; apply Hg; now right.
Qed.

(** So the cost of a simple path is never the label [NONE]. *)
Lemma spath_cost d p v c : spath d p v c -> 0 <= c <= 9900.
Proof.
  intros (Hnd & Hg & Hc)%spath_simple.
  pose proof (simple_length p Hnd Hg). graph; lia.
Qed.

(** The path that following predecessors from [v] gives. *)
Inductive chain (pr : Z -> Z) : list Z -> Z -> Prop :=
| chain_root v : pr v = NONE -> chain pr [v] v
| chain_step p v : pr v <> NONE -> chain pr p (pr v) -> chain pr (p ++ [v]) v.

(** Every predecessor is the near end of an edge that accounts for the label. *)
Definition preds_ok (d pr : Z -> Z) : Prop :=
  forall v, in_graph v -> pr v <> NONE ->
    in_graph (pr v) /\ adj A (pr v) v <> NONE /\ d (pr v) + adj A (pr v) v <= d v.

Lemma chain_label d pr p v : preds_ok d pr -> in_graph v -> chain pr p v ->
  forall x, In x p -> in_graph x /\ d x <= d v.
Proof.
  intros Hpr Hv; induction 1 as [v E|p v E Hc IH]; intros x Hx.
  - destruct Hx as [<-|[]]; split; [assumption | lia].
  - destruct (Hpr v Hv E) as (Hg & Hadj & Hd).
    pose proof (edge_cost _ _ Hg Hv Hadj).
    apply in_app_or in Hx as [Hx|[<-|[]]]; [| split; [assumption | lia]].
    destruct (IH Hg x Hx); split; [assumption | lia].
Qed.

Lemma chain_ext pr pr' p v : (forall x, In x p -> pr' x = pr x) ->
  chain pr p v -> chain pr' p v.
Proof.
  intros Hx Hc; induction Hc as [v E|p v E Hc IH].
  - constructor. rewrite Hx; [assumption | now left].
  - assert (Ev : pr' v = pr v) by (apply Hx, in_or_app; right; now left).
    constructor; rewrite Ev; [assumption |].
    apply IH. intros x Hin; apply Hx, in_or_app; now left.
Qed.

(** Giving [v] the predecessor [u] keeps every chain finite when [u]'s chain
    does not run through [v]. *)
Lemma chain_update pr pr' u v pu : u <> NONE ->
  pr' v = u -> (forall x, in_graph x -> x <> v -> pr' x = pr x) ->
  (forall x, in_graph x -> pr x <> NONE -> in_graph (pr x)) ->
  Forall in_graph pu -> ~ In v pu -> chain pr pu u ->
  forall p x, in_graph x -> chain pr p x -> exists p', chain pr' p' x.
Proof.
  intros Hu Ev Hne Hin Hgu Hv Hcu p x Hx Hc.
  assert (Hv' : exists p', chain pr' p' v).
  { exists (pu ++ [v]). constructor; rewrite Ev; [assumption |].
    apply (chain_ext pr); [| assumption]. rewrite Forall_forall in Hgu.
    intros y Hy; apply Hne; [auto | intros ->; contradiction]. }
  induction Hc as [x E|p x E Hc IH];
    destruct (Z.eqb_spec x v) as [->|Hxv]; auto.
  - exists [x]. constructor. now rewrite Hne.
  - destruct (IH (Hin x Hx E)) as [p' Hp']. exists (p' ++ [x]).
    constructor; rewrite Hne by assumption; assumption.
Qed.

End Graph.

(** ** The search *)

Lemma sum_range_update lo hi f g v : lo <= v < hi ->
  (forall i, lo <= i < hi -> i <> v -> g i = f i) ->
  sum_range lo hi g = sum_range lo hi f + (g v - f v).
Proof.
  intros Hv Hg.
  rewrite (sum_range_split lo v hi f), (sum_range_split lo v hi g) by lia.
  rewrite (sum_range_split v (v + 1) hi f), (sum_range_split v (v + 1) hi g) by lia.
  rewrite !(sum_range_snoc v v), !(sum_range_nil v v) by lia.
  rewrite (sum_range_ext lo v g f), (sum_range_ext (v + 1) hi g f) by (intros; apply Hg; lia).
  lia.
Qed.

(** The quantity that bounds both the iterations and the queue. *)
Definition measure (st : search_state) : Z :=
  sum_range 0 NUM_NODES (dist st) + Z.of_nat (length (qHead st)).

(** The edge from [u] to [v] is accounted for. *)
Definition relaxed (A : list (list Z)) (st : search_state) (u v : Z) : Prop :=
  dist st v <> NONE /\ dist st v <= dist st u + adj A u v.

Definition queued (st : search_state) (u : Z) : Prop :=
  exists q, In q (qHead st) /\ qNode q = u /\ qDist q = dist st u.

Section Search.

Variable malloc : Z -> bool.
Variable A : list (list Z).
Variable s : Z.
Variable printed : list line.
Hypothesis HA : costs_ok A.
Hypothesis Hs : in_graph s.
Hypothesis Hmem : forall n, n <= search_bound -> malloc n = true.

(** The invariant, before the iteration [k] of the loop over neighbours; with
    [k = NUM_NODES] it is the invariant of the [while] loop. *)
Record Inv (k : Z) (st : search_state) : Prop := {
  inv_len : Z.of_nat (length (rgnNodes st)) = NUM_NODES;
  inv_count : g_qCount st = Z.of_nat (length (qHead st));
  inv_start : dist st s = 0 /\ prev st s = NONE;
  inv_node : forall v, in_graph v ->
    (dist st v = NONE /\ prev st v = NONE) \/
    ((exists p, spath A s (dist st) p v (dist st v)) /\ (v = s \/ prev st v <> NONE));
  inv_items : forall q, In q (qHead st) -> exists p, spath A s (dist st) p (qNode q) (qDist q);
  inv_cur : k < NUM_NODES -> exists p, spath A s (dist st) p (iNode st) (iDist st);
  inv_feas : forall u v, in_graph u -> in_graph v -> adj A u v <> NONE -> dist st u <> NONE ->
    queued st u \/ relaxed A st u v \/
    (u = iNode st /\ dist st u = iDist st /\ k <= v);
  inv_preds : preds_ok A (dist st) (prev st);
  inv_chain : forall v, in_graph v -> exists p, chain (prev st) p v;
  inv_measure : measure st <= search_bound;
  inv_out : out st = printed
}.

Lemma inv_dist k st v : Inv k st -> in_graph v -> 0 <= dist st v <= NONE.
Proof.
  intros HI Hv. destruct (inv_node _ _ HI v Hv) as [[E _]|[[p Hp] _]].
  - rewrite E; graph; lia.
  - apply spath_cost in Hp; auto. graph; lia.
Qed.

Lemma inv_queue k st : Inv k st -> Z.of_nat (length (qHead st)) <= measure st.
Proof.
  intros HI. unfold measure.
  pose proof (sum_range_nonneg 0 NUM_NODES (dist st)
    (fun v Hv => proj1 (inv_dist k st v HI Hv))). lia.
Qed.

(** Lowering the label of [i] through the current node and queueing [i]. *)
Section Relax.

Variables (k : Z) (st st' : search_state).
Hypothesis HI : Inv k st.
Hypothesis Hk : in_graph k.
Hypothesis Hedge : adj A (iNode st) k <> NONE.
Hypothesis Hlow : iDist st + adj A (iNode st) k < dist st k.

Let d := iDist st + adj A (iNode st) k.

Hypothesis Hst' : st' = mkSearch (qHead st ++ [mkQITEM k d (iNode st)]) (g_qCount st + 1)
  (set_node (rgnNodes st) k (mkNODE d (iNode st))) (iNode st) (iDist st) (iPrev st) (out st).

Lemma relax_dist v : 0 <= v -> dist st' v = if v =? k then d else dist st v.
Proof.
  intros Hv. rewrite <- (dist_set_label k d (iNode st) st v) by (auto; apply (inv_len _ _ HI)).
  now subst st'.
Qed.

Lemma relax_prev v : 0 <= v -> prev st' v = if v =? k then iNode st else prev st v.
Proof.
  intros Hv. rewrite <- (prev_set_label k d (iNode st) st v) by (auto; apply (inv_len _ _ HI)).
  now subst st'.
Qed.

Lemma relax_dist_le v : in_graph v -> dist st' v <= dist st v.
Proof.
  intros Hv. rewrite relax_dist by (graph; lia).
  destruct (Z.eqb_spec v k) as [->|]; unfold d; lia.
Qed.

Lemma relax_path p v c : spath A s (dist st) p v c -> spath A s (dist st') p v c.
Proof. apply spath_mono; auto. apply relax_dist_le. Qed.

Lemma relax_cur : exists p, spath A s (dist st) p (iNode st) (iDist st) /\ ~ In k p.
Proof.
  destruct (inv_cur _ _ HI) as [p Hp]; [apply Hk |].
  exists p; split; [assumption |]. intros Hin.
  destruct (spath_label A s HA Hs _ _ _ _ Hp) as [Hc Hl]. specialize (Hl k Hin).
  pose proof (edge_cost A HA _ _ (spath_end A s Hs _ _ _ _ Hp) Hk Hedge). lia.
Qed.

Lemma relax_cur_facts : in_graph (iNode st) /\ 0 <= iDist st /\ 0 <= adj A (iNode st) k /\
  dist st (iNode st) <= iDist st /\ iNode st <> k /\ d <= 9900.
Proof.
  destruct relax_cur as (p & Hp & Hn).
  destruct (spath_label A s HA Hs _ _ _ _ Hp) as [Hc Hl].
  pose proof (spath_end A s Hs _ _ _ _ Hp) as Hg.
  pose proof (edge_cost A HA _ _ Hg Hk Hedge).
  assert (Hin : In (iNode st) p)
    by (destruct Hp; [now left | apply in_or_app; right; now left]).
  specialize (Hl _ Hin).
  assert (Hd : spath A s (dist st') (p ++ [k]) k d).
  { apply spath_step; auto; [now apply relax_path |].
    rewrite relax_dist, Z.eqb_refl by (graph; lia). unfold d; lia. }
  apply spath_cost in Hd; auto.
  repeat split; try lia; try apply Hg. intros E; congruence.
Qed.

Lemma relax_new : exists p, spath A s (dist st') p k d.
Proof.
  destruct relax_cur as (p & Hp & Hn). exists (p ++ [k]).
  apply spath_step; auto; [now apply relax_path |].
  rewrite relax_dist, Z.eqb_refl by (graph; lia). unfold d; lia.
Qed.

Lemma relax_measure : measure st' <= measure st.
Proof.
  unfold measure. rewrite (sum_range_update 0 NUM_NODES (dist st) (dist st') k Hk).
  - rewrite relax_dist, Z.eqb_refl by (graph; lia).
    subst st'; cbn [qHead]; rewrite length_app; simpl length. unfold d; lia.
  - intros i Hi Hne. rewrite relax_dist by lia. destruct (Z.eqb_spec i k); congruence.
Qed.

Lemma relax_node v : in_graph v ->
  (dist st' v = NONE /\ prev st' v = NONE) \/
  ((exists p, spath A s (dist st') p v (dist st' v)) /\ (v = s \/ prev st' v <> NONE)).
Proof.
  intros Hv. destruct relax_cur_facts as (Hg & _).
  rewrite relax_dist, relax_prev by (graph; lia). destruct (Z.eqb_spec v k) as [->|Hne].
  - right. split; [apply relax_new | right; graph; lia].
  - destruct (inv_node _ _ HI v Hv) as [?|[[p Hp] Hr]]; [now left | right].
    split; [exists p; now apply relax_path | assumption].
Qed.

Lemma relax_feas u v : in_graph u -> in_graph v -> adj A u v <> NONE -> dist st' u <> NONE ->
  queued st' u \/ relaxed A st' u v \/
  (u = iNode st' /\ dist st' u = iDist st' /\ k + 1 <= v).
Proof.
  intros Hu Hv He. destruct relax_cur_facts as (_ & _ & _ & _ & _ & H99).
  unfold queued, relaxed. rewrite (relax_dist u) by (graph; lia).
  destruct (Z.eqb_spec u k) as [->|Hne]; intros Hd.
  - left. exists (mkQITEM k d (iNode st)). subst st'; cbn [qHead qNode qDist].
    split; [apply in_or_app; right; now left | auto].
  - pose proof (relax_dist_le v Hv).
    destruct (inv_feas _ _ HI u v Hu Hv He Hd) as [(q & Hq & Eq)|[[Hr Hle]|(-> & Ed & Hle)]].
    + left. exists q. subst st'; cbn [qHead]. split; [apply in_or_app; now left | assumption].
    + right; left. split; [| lia]. rewrite relax_dist by (graph; lia).
      destruct (v =? k); [graph; lia | assumption].
    + destruct (Z.eqb_spec v k) as [->|Hvk].
      * right; left. rewrite relax_dist, Z.eqb_refl by (graph; lia).
        split; [graph; lia | unfold d; lia].
      * right; right. subst st'; cbn [iNode iDist]. repeat split; lia.
Qed.

Lemma relax_preds : preds_ok A (dist st') (prev st').
Proof.
  destruct relax_cur_facts as (Hg & H0 & Ha & Hle & Hne & _).
  intros v Hv. rewrite relax_prev, (relax_dist v) by (graph; lia).
  destruct (Z.eqb_spec v k) as [->|Hvk]; intros Hp.
  - rewrite relax_dist by (graph; lia). destruct (Z.eqb_spec (iNode st) k); [contradiction |].
    split; [assumption | split; [assumption | unfold d; lia]].
  - destruct (inv_preds _ _ HI v Hv Hp) as (Hgp & Hep & Hd).
    pose proof (relax_dist_le _ Hgp). split; [assumption | split; [assumption | lia]].
Qed.

Lemma relax_chain v : in_graph v -> exists p, chain (prev st') p v.
Proof.
  destruct relax_cur_facts as (Hg & H0 & Ha & Hle & Hne & _). intros Hv.
  destruct (inv_chain _ _ HI v Hv) as [p Hp].
  destruct (inv_chain _ _ HI _ Hg) as [pu Hpu].
  pose proof (chain_label A HA _ _ _ _ (inv_preds _ _ HI) Hg Hpu) as Hl.
  apply (chain_update (prev st) (prev st') (iNode st) k pu) with (p := p); auto.
  - graph; lia.
  - rewrite relax_prev, Z.eqb_refl by (graph; lia). reflexivity.
  - intros x Hx Hxk. rewrite relax_prev by (graph; lia). destruct (Z.eqb_spec x k); congruence.
  - intros x Hx Hp0. apply (inv_preds _ _ HI x Hx Hp0).
  - apply Forall_forall. intros x Hx; apply (Hl x Hx).
  - intros Hin. destruct (Hl k Hin). lia.
Qed.

Lemma relax_Inv : Inv (k + 1) st'.
Proof.
  destruct relax_cur_facts as (Hg & H0 & Ha & Hle & Hne & Hd).
  assert (Hks : s <> k) by (intros <-; rewrite (proj1 (inv_start _ _ HI)) in Hlow; lia).
  split.
  - subst st'; cbn [rgnNodes]. unfold set_node. rewrite upd_length. apply (inv_len _ _ HI).
  - subst st'; cbn [g_qCount qHead]. rewrite length_app, (inv_count _ _ HI). simpl length. lia.
  - rewrite relax_dist, relax_prev by (graph; lia).
    destruct (Z.eqb_spec s k); [contradiction | apply (inv_start _ _ HI)].
  - apply relax_node.
  - intros q Hq. assert (Hq' : In q (qHead st) \/ q = mkQITEM k d (iNode st)).
    { subst st'; cbn [qHead] in Hq. apply in_app_or in Hq as [Hq|[Hq|[]]]; auto. }
    destruct Hq' as [Hq' | ->]; [| apply relax_new].
    destruct (inv_items _ _ HI q Hq') as [p Hp]. exists p. now apply relax_path.
  - intros _. destruct relax_cur as (p & Hp & _). exists p. apply relax_path in Hp.
    subst st'; cbn [iNode iDist]. assumption.
  - apply relax_feas.
  - apply relax_preds.
  - apply relax_chain.
  - pose proof relax_measure. pose proof (inv_measure _ _ HI). lia.
  - subst st'; apply (inv_out _ _ HI).
Qed.

End Relax.

(** The three ways an iteration of the loop over neighbours can go. *)
Lemma relax_take k st : Inv k st -> in_graph k -> adj A (iNode st) k <> NONE ->
  iDist st + adj A (iNode st) k < dist st k ->
  exists st', enqueue malloc k (iDist st + adj A (iNode st) k) (iNode st)
                (set_label k (iDist st + adj A (iNode st) k) (iNode st) st) = Some st' /\
    Inv (k + 1) st' /\ measure st' <= measure st.
Proof.
  intros HI Hk He Hlow. pose proof (inv_queue k st HI). pose proof (inv_measure _ _ HI).
  unfold enqueue; cbn [set_label qHead g_qCount rgnNodes iNode iDist iPrev out].
  rewrite Hmem by lia. rewrite i32_id by (rewrite (inv_count _ _ HI); unfold is_i32; graph; lia).
  eexists; split; [reflexivity |].
  split; [eapply relax_Inv | eapply relax_measure]; eauto.
Qed.

Lemma relax_skip k st : Inv k st ->
  (adj A (iNode st) k <> NONE -> relaxed A st (iNode st) k \/ dist st (iNode st) <> iDist st) ->
  Inv (k + 1) st.
Proof.
  intros HI Hok. destruct HI; split; auto; [intros; apply inv_cur0; lia |].
  intros u v Hu Hv He Hd. destruct (inv_feas0 u v Hu Hv He Hd) as [?|[?|(-> & Ed & Hle)]]; auto.
  destruct (Z.eqb_spec v k) as [->|]; [| right; right; repeat split; auto; lia].
  destruct (Hok He); auto; contradiction.
Qed.

Lemma relax_unreached k st : Inv k st -> in_graph k -> adj A (iNode st) k <> NONE ->
  dist st k = NONE -> iDist st + adj A (iNode st) k < dist st k.
Proof.
  intros HI Hk He En. destruct (inv_cur _ _ HI (proj2 Hk)) as [p Hp].
  pose proof (edge_cost A HA _ _ (spath_end A s Hs _ _ _ _ Hp) Hk He).
  pose proof (spath_cost A s HA Hs _ _ _ _ Hp).
  destruct (spath_label A s HA Hs _ _ _ _ Hp) as [_ Hl].
  assert (Hnin : ~ In k p) by (intros Hin; specialize (Hl k Hin); graph; lia).
  assert (Hp' : spath A s (fun _ => 0) (p ++ [k]) k (iDist st + adj A (iNode st) k)).
  { apply spath_step; auto; [| lia]. apply (spath_mono A s Hs (dist st)); auto.
    intros x Hx; apply (inv_dist _ _ _ HI Hx). }
  apply (spath_cost A s HA Hs) in Hp'. graph; lia.
Qed.

Lemma relax_step k st : in_graph k -> Inv k st ->
  exists st', relax malloc A k st = Some st' /\ Inv (k + 1) st' /\ measure st' <= measure st.
Proof.
  intros Hk HI. destruct (inv_cur _ _ HI (proj2 Hk)) as [p Hp].
  pose proof (spath_cost A s HA Hs _ _ _ _ Hp) as Hc.
  unfold relax. destruct (Z.eqb_spec (adj A (iNode st) k) NONE) as [He|He]; cbn [negb].
  { exists st; split; [reflexivity | split; [apply relax_skip; auto; contradiction | lia]]. }
  pose proof (edge_cost A HA _ _ (spath_end A s Hs _ _ _ _ Hp) Hk He).
  rewrite !i32_id by (unfold is_i32; lia).
  destruct (Z.eqb_spec NONE (dist st k)) as [Hn|Hn]; cbn [orb];
    [| rewrite Z.gtb_ltb; destruct (Z.ltb_spec (adj A (iNode st) k + iDist st) (dist st k))].
  - apply relax_take; auto. now apply relax_unreached.
  - apply relax_take; auto; lia.
  - exists st; split; [reflexivity | split; [apply relax_skip; auto | lia]]. intros _.
    destruct (Z.eqb_spec (dist st (iNode st)) (iDist st)) as [E|]; [left | now right].
    split; [congruence | lia].
Qed.

Lemma dequeue_Inv st : Inv NUM_NODES st -> qHead st <> [] ->
  Inv 0 (dequeue st) /\ measure (dequeue st) = measure st - 1.
Proof.
  intros HI Hne. pose proof (inv_queue _ _ HI) as Hq. pose proof (inv_measure _ _ HI) as Hm.
  unfold dequeue. destruct (qHead st) as [|q rest] eqn:E; [contradiction |].
  assert (Hmeas : measure (mkSearch rest (i32 (g_qCount st - 1)) (rgnNodes st) (qNode q)
                    (qDist q) (qPrev q) (out st)) = measure st - 1).
  { unfold measure at 2. rewrite E. unfold measure, dist; cbn [qHead rgnNodes]. simpl length. lia. }
  split; [| assumption]. pose proof (inv_count _ _ HI) as Hn. rewrite E in Hn.
  simpl length in Hn, Hq. pose proof (inv_items _ _ HI) as Hit. rewrite E in Hit.
  split; cbn [qHead iNode iDist g_qCount].
  - exact (inv_len _ _ HI).
  - rewrite i32_id by (rewrite Hn; unfold is_i32; graph; lia). lia.
  - exact (inv_start _ _ HI).
  - exact (inv_node _ _ HI).
  - intros q' Hq'. apply Hit; now right.
  - intros _. apply Hit; now left.
  - intros u v Hu Hv He Hd.
    destruct (inv_feas _ _ HI u v Hu Hv He Hd) as [(q' & Hq' & <- & Ed)|[?|(_ & _ & Hle)]].
    + rewrite E in Hq'. destruct Hq' as [<-|Hq'].
      * right; right. split; [reflexivity | split; [symmetry; exact Ed | graph; lia]].
      * left. exists q'. split; [exact Hq' | split; [reflexivity | exact Ed]].
    + right; left; assumption.
    + graph; lia.
  - exact (inv_preds _ _ HI).
  - exact (inv_chain _ _ HI).
  - rewrite Hmeas; lia.
  - exact (inv_out _ _ HI).
Qed.

Lemma relax_all_step st : Inv 0 st ->
  exists st', relax_all malloc A st = Some st' /\ Inv NUM_NODES st' /\ measure st' <= measure st.
Proof.
  intros HI. unfold relax_all.
  apply (for_opt_ind (fun k x => Inv k x /\ measure x <= measure st));
    [graph; lia | split; [assumption | lia] |].
  intros k x Hk [HIx Hm]. destruct (relax_step k x Hk HIx) as (y & Ey & HIy & Hmy).
  exists y. split; [assumption | split; [assumption | lia]].
Qed.

(** The search ends, without running out of memory, with an empty queue. *)
Lemma search_ends fuel st : Inv NUM_NODES st -> measure st < Z.of_nat fuel ->
  exists st', search malloc A fuel st = Finished st' /\ Inv NUM_NODES st' /\ qHead st' = [].
Proof.
  revert st; induction fuel as [|f IH]; intros st HI Hf.
  - pose proof (inv_queue _ _ HI). lia.
  - cbn [search]. unfold qcount. rewrite (inv_count _ _ HI), Z.gtb_ltb.
    destruct (Z.ltb_spec 0 (Z.of_nat (length (qHead st)))) as [Hq|Hq].
    + destruct (dequeue_Inv st HI) as [HI' Hm]; [destruct (qHead st); simpl in Hq; [lia | discriminate] |].
      destruct (relax_all_step _ HI') as (st1 & -> & HI1 & Hm1). apply IH; [assumption | lia].
    + exists st; split; [reflexivity | split; [assumption |]].
      destruct (qHead st); simpl length in Hq; [reflexivity | lia].
Qed.

(** ** After the search *)

(** A label is a lower bound of every walk's cost. *)
Lemma final_lower st p v c : Inv NUM_NODES st -> qHead st = [] -> walk A s p v c ->
  dist st v <> NONE /\ dist st v <= c.
Proof.
  intros HI Hq; induction 1 as [|p u c v Hw [IHn IH] Hv He].
  - rewrite (proj1 (inv_start _ _ HI)). graph; lia.
  - pose proof (walk_end A s Hs _ _ _ Hw) as Hu.
    destruct (inv_feas _ _ HI u v Hu Hv He IHn) as [(q & Hin & _)|[[Hn Hle]|(_ & _ & Hle)]].
    + rewrite Hq in Hin; destruct Hin.
    + split; [assumption | lia].
    + graph; lia.
Qed.

(** The chain of predecessors of a reached node is a walk of the label's cost. *)
Lemma final_chain st p v : Inv NUM_NODES st -> qHead st = [] -> in_graph v ->
  chain (prev st) p v -> dist st v <> NONE -> walk A s p v (dist st v).
Proof.
  intros HI Hq Hv Hc; induction Hc as [v E|p v E Hc IH]; intros Hd.
  - destruct (inv_node _ _ HI v Hv) as [[? _]|[_ [->|?]]]; [contradiction | | contradiction].
    rewrite (proj1 (inv_start _ _ HI)). constructor.
  - destruct (inv_preds _ _ HI v Hv E) as (Hg & He & Hle).
    pose proof (edge_cost A HA _ _ Hg Hv He). pose proof (inv_dist _ _ _ HI Hv).
    assert (Hn : dist st (prev st v) <> NONE) by (graph; lia).
    replace (dist st v) with (dist st (prev st v) + adj A (prev st v) v);
      [constructor; auto |].
    destruct (inv_feas _ _ HI _ v Hg Hv He Hn) as [(q & Hin & _)|[[_ Hge]|(_ & _ & Hge)]].
    + rewrite Hq in Hin; destruct Hin.
    + lia.
    + graph; lia.
Qed.

Lemma chain_prefix pr p v x : chain pr p v -> In x p ->
  exists p1, chain pr p1 x /\ (length p1 <= length p)%nat.
Proof.
  induction 1 as [v E|p v E Hc IH]; intros Hx.
  - destruct Hx as [<-|[]]. exists [v]. split; [now constructor | auto].
  - apply in_app_or in Hx as [Hx|[<-|[]]].
    + destruct (IH Hx) as (p1 & Hp1 & Hl). exists p1. rewrite length_app. split; [auto | lia].
    + exists (p ++ [v]). split; [now constructor | auto].
Qed.

Lemma chain_det pr p v p' : chain pr p v -> chain pr p' v -> p = p'.
Proof.
  intros Hc; revert p'; induction Hc as [v E|p v E Hc IH]; intros p'; destruct 1;
    try contradiction; [reflexivity |]. f_equal; auto.
Qed.

Lemma chain_NoDup pr p v : chain pr p v -> NoDup p.
Proof.
  induction 1 as [v E|p v E Hc IH]; [repeat constructor; intros [] |].
  apply NoDup_app; [assumption | repeat constructor; intros [] |].
  intros x Hx [<-|[]]. destruct (chain_prefix _ _ _ _ Hc Hx) as (p1 & Hp1 & Hl).
  apply (chain_det _ (p ++ [v])) in Hp1; [| now constructor].
  rewrite <- Hp1, length_app in Hl; simpl in Hl; lia.
Qed.

Lemma print_path_chain st p v fuel : chain (prev st) p v -> (length p <= fuel)%nat ->
  print_path fuel (rgnNodes st) v = Some p.
Proof.
  intros Hc; revert fuel; induction Hc as [v E|p v E Hc IH]; intros [|f] Hf;
    rewrite ?length_app in Hf; simpl length in Hf; try lia; cbn [print_path];
    fold (prev st v).
  - now rewrite E, Z.eqb_refl.
  - destruct (Z.eqb_spec (prev st v) NONE); [contradiction |]. cbn [negb].
    rewrite IH by lia. reflexivity.
Qed.

(** What is printed after the search. *)
Lemma final_answer st e fuel : Inv NUM_NODES st -> qHead st = [] -> in_graph e -> s <> e ->
  NUM_NODES <= Z.of_nat fuel ->
  exists p, print_path fuel (rgnNodes st) e = Some p /\ answer A s e (Path (dist st e) p).
Proof.
  intros HI Hq He Hse Hf. destruct (inv_chain _ _ HI e He) as [p Hp]. exists p. split.
  - apply print_path_chain; [assumption |].
    pose proof (chain_label A HA _ _ _ _ (inv_preds _ _ HI) He Hp) as Hl.
    pose proof (simple_length p (chain_NoDup _ _ _ Hp)
      (proj2 (Forall_forall _ _) (fun x Hx => proj1 (Hl x Hx)))). lia.
  - destruct (Z.eq_dec (dist st e) NONE) as [Hn|Hn].
    + destruct (inv_node _ _ HI e He) as [[_ Hpe]|[[p' Hp'] _]].
      * replace p with [e] by (destruct Hp; congruence). rewrite Hn.
        apply answer_none; [assumption |]. intros p' c' Hw.
        destruct (final_lower st p' e c' HI Hq Hw). contradiction.
      * apply spath_cost in Hp'; auto. graph; lia.
    + apply answer_path; [assumption | now apply final_chain |].
      intros p' c' Hw. apply (final_lower st p' e c' HI Hq Hw).
Qed.

End Search.

(** ** A whole call *)

(** The state between calls: the queue is empty. *)
Definition idle (st : search_state) : Prop :=
  qHead st = [] /\ g_qCount st = 0 /\ Z.of_nat (length (rgnNodes st)) = NUM_NODES.

Lemma clear_labels_spec st : idle st ->
  idle (clear_labels st) /\ out (clear_labels st) = out st /\
  forall v, in_graph v -> dist (clear_labels st) v = NONE /\ prev (clear_labels st) v = NONE.
Proof.
  intros Hi. unfold clear_labels.
  enough (H : idle (for_range 0 NUM_NODES (fun ch => set_label ch NONE NONE) st) /\
    out (for_range 0 NUM_NODES (fun ch => set_label ch NONE NONE) st) = out st /\
    forall v, 0 <= v < NUM_NODES ->
      dist (for_range 0 NUM_NODES (fun ch => set_label ch NONE NONE) st) v = NONE /\
      prev (for_range 0 NUM_NODES (fun ch => set_label ch NONE NONE) st) v = NONE) by exact H.
  apply (for_range_ind (fun k x => idle x /\ out x = out st /\
    forall v, 0 <= v < k -> dist x v = NONE /\ prev x v = NONE)).
  - graph; lia.
  - split; [assumption | split; [reflexivity | lia]].
  - intros k x Hk ((Hq & Hc & Hl) & Ho & Hv). split; [| split; [exact Ho |]].
    + split; [exact Hq | split; [exact Hc |]]. rewrite set_label_length. exact Hl.
    + intros v Hvk. rewrite dist_set_label, prev_set_label by (auto; lia).
      destruct (Z.eqb_spec v k); [auto | apply Hv; lia].
Qed.

Lemma print_line_spec l st : idle st ->
  idle (print_line l st) /\ out (print_line l st) = out st ++ [l].
Proof. destruct st. intros H; split; [exact H | reflexivity]. Qed.

Section Call.

Variable malloc : Z -> bool.
Variable A : list (list Z).
Hypothesis HA : costs_ok A.
Hypothesis Hmem : forall n, n <= search_bound -> malloc n = true.

(** The invariant holds when the start node has been queued. *)
Lemma start_Inv s st : in_graph s -> idle st ->
  (forall v, in_graph v -> dist st v = NONE /\ prev st v = NONE) ->
  exists st', enqueue malloc s 0 NONE (set_label s 0 NONE st) = Some st' /\
    Inv A s (out st) NUM_NODES st'.
Proof.
  intros Hs (Hq & Hc & Hl) Hv. unfold enqueue; cbn [set_label qHead g_qCount rgnNodes].
  rewrite Hq, Hc, Hmem by (simpl length; graph; lia).
  eexists; split; [reflexivity |]. set (st' := mkSearch _ _ _ _ _ _ _).
  assert (Hd : forall v, in_graph v -> dist st' v = if v =? s then 0 else NONE).
  { intros v Hg. rewrite <- (proj1 (Hv v Hg)), <- (dist_set_label s 0 NONE st v); auto; apply Hg. }
  assert (Hp : forall v, in_graph v -> prev st' v = NONE).
  { intros v Hg. change (prev (set_label s 0 NONE st) v = NONE).
    rewrite prev_set_label, (proj2 (Hv v Hg)) by (auto; apply Hg). now destruct (v =? s). }
  assert (Hss : dist st' s = 0) by (rewrite Hd, Z.eqb_refl by assumption; reflexivity).
  split.
  - exact (eq_trans (f_equal Z.of_nat (set_label_length s 0 NONE st)) Hl).
  - reflexivity.
  - auto.
  - intros v Hg. rewrite Hd, Hp by assumption. destruct (Z.eqb_spec v s) as [->|]; [right | auto].
    split; [exists [s]; constructor; lia | auto].
  - intros q [<-|[]]. exists [s]. apply spath_start. exact (Z.eq_le_incl _ _ Hss).
  - lia.
  - intros u v Hu Hg He Hn. left. rewrite Hd in Hn by assumption.
    destruct (Z.eqb_spec u s) as [->|]; [| contradiction].
    exists (mkQITEM s 0 NONE). split; [now left | auto].
  - intros v Hg Hn. rewrite Hp in Hn by assumption; contradiction.
  - intros v Hg. exists [v]. constructor. now apply Hp.
  - unfold measure. rewrite (sum_range_update 0 NUM_NODES (fun _ => NONE) (dist st') s Hs).
    + rewrite sum_range_const, Hss by (graph; lia). subst st'; cbn [qHead]; simpl length. graph; lia.
    + intros i Hi Hne. rewrite Hd by assumption. destruct (Z.eqb_spec i s); congruence.
  - reflexivity.
Qed.

Lemma dijkstra_call s e st fuel : in_graph s -> in_graph e -> idle st ->
  search_bound < Z.of_nat fuel ->
  exists st' l, dijkstra malloc A fuel s e st = Finished st' /\ idle st' /\
    out st' = out st ++ [l] /\ answer A s e l.
Proof.
  intros Hs He Hi Hf. destruct (clear_labels_spec st Hi) as (Hi' & Ho & Hv). unfold dijkstra.
  destruct (Z.eqb_spec s e) as [Hse|Hse].
  { destruct (print_line_spec Stay _ Hi') as [Hi2 Ho2].
    exists (print_line Stay (clear_labels st)), Stay. rewrite Ho2, Ho.
    split; [reflexivity | split; [assumption | split; [reflexivity | now constructor]]]. }
  destruct (start_Inv s _ Hs Hi' Hv) as (st1 & -> & HI).
  destruct (search_ends malloc A s (out (clear_labels st)) HA Hs Hmem fuel st1 HI)
    as (st2 & -> & HI2 & Hq2); [pose proof (inv_measure _ _ _ _ _ HI); lia |].
  destruct (final_answer A s (out (clear_labels st)) HA Hs st2 e fuel HI2 Hq2 He Hse)
    as (p & -> & Hans); [graph; lia |].
  assert (Hidle : idle st2).
  { split; [exact Hq2 | split; [| exact (inv_len _ _ _ _ _ HI2)]].
    now rewrite (inv_count _ _ _ _ _ HI2), Hq2. }
  destruct (print_line_spec (Path (dist st2 e) p) st2 Hidle) as [Hi3 Ho3].
  exists (print_line (Path (dist st2 e) p) st2), (Path (dist st2 e) p).
  rewrite Ho3, (inv_out _ _ _ _ _ HI2), Ho.
  split; [reflexivity | split; [assumption | split; [reflexivity | assumption]]].
Qed.

(** The [i]-th query of [main]. *)
Definition query_end (i : Z) : Z := (NUM_NODES / 2 + i) mod NUM_NODES.

Lemma queries_run fuel n i j st : idle st -> 0 <= i -> i + Z.of_nat n <= NUM_NODES -> 0 <= j ->
  search_bound < Z.of_nat fuel ->
  exists st' ls, queries malloc A fuel n i j st = Finished st' /\ out st' = out st ++ ls /\
    length ls = n /\
    forall m, 0 <= m < Z.of_nat n ->
      answer A (i + m) ((j + m) mod NUM_NODES) (nth (Z.to_nat m) ls Stay).
Proof.
  revert i j st; induction n as [|n IH]; intros i j st Hi H0 Hn Hj Hf; cbn [queries].
  { exists st, []. rewrite app_nil_r. repeat split; simpl; lia. }
  rewrite Z.rem_mod_nonneg by (graph; lia).
  assert (Hg : in_graph (j mod NUM_NODES)) by (apply Z.mod_pos_bound; graph; lia).
  destruct (dijkstra_call i (j mod NUM_NODES) st fuel) as (st1 & l & -> & Hi1 & Ho & Ha);
    auto; [graph; lia |].
  destruct (IH (i + 1) (j mod NUM_NODES + 1) st1) as (st' & ls & -> & Ho' & Hl & Hans);
    auto; [lia | lia | graph; lia |].
  exists st', (l :: ls). split; [reflexivity |]. split; [| split; [simpl; lia |]].
  - rewrite Ho', Ho, <- app_assoc. reflexivity.
  - intros m Hm. destruct (Z.eqb_spec m 0) as [->|]; [simpl; now rewrite !Z.add_0_r |].
    specialize (Hans (m - 1) ltac:(lia)).
    replace (i + 1 + (m - 1)) with (i + m) in Hans by lia.
    replace (j mod NUM_NODES + 1 + (m - 1)) with (j mod NUM_NODES + m) in Hans by lia.
    rewrite Z.add_mod_idemp_l in Hans by (graph; lia).
    replace (Z.to_nat m) with (S (Z.to_nat (m - 1))) by lia. exact Hans.
Qed.

End Call.

(** ** Reading the matrix *)

Lemma read_row_spec n k input : (n <= length input)%nat ->
  exists k', read_row n k input = (firstn n input, k', skipn n input).
Proof.
  revert k input; induction n as [|n IH]; intros k input Hn; [now exists k |].
  destruct input as [|x r]; simpl in Hn; [lia |]. cbn [read_row].
  destruct (IH x r ltac:(lia)) as [k' ->]. now exists k'.
Qed.

Lemma nth_firstn_skipn (l : list Z) n m i d : (i < n)%nat ->
  nth i (firstn n (skipn m l)) d = nth (m + i) l d.
Proof. intros Hi. rewrite nth_firstn. destruct (Nat.ltb_spec i n); [apply nth_skipn | lia]. Qed.

Lemma read_matrix_nth n k input u : (Z.to_nat NUM_NODES * n <= length input)%nat -> (u < n)%nat ->
  nth u (read_matrix n k input) [] =
  firstn (Z.to_nat NUM_NODES) (skipn (Z.to_nat NUM_NODES * u) input).
Proof.
  set (N := Z.to_nat NUM_NODES). revert k input u; induction n as [|n IH]; intros k input u Hl Hu; [lia |].
  cbn [read_matrix]. fold N. destruct (read_row_spec N k input) as [k' ->]; [lia |].
  destruct u as [|u]; [now rewrite Nat.mul_0_r |].
  change (nth u (read_matrix n k' (skipn N input)) [] = firstn N (skipn (N * S u) input)).
  rewrite IH by (rewrite ?length_skipn; lia).
  rewrite skipn_skipn. do 2 f_equal. lia.
Qed.

(** The matrix is the input in row-major order. *)
Lemma read_matrix_adj k input u v : length input = Z.to_nat (NUM_NODES * NUM_NODES) ->
  in_graph u -> in_graph v ->
  adj (read_matrix (Z.to_nat NUM_NODES) k input) u v = input.[NUM_NODES * u + v].
Proof.
  intros Hl Hu Hv. unfold adj, aget. graph.
  rewrite read_matrix_nth by (graph; lia). rewrite nth_firstn_skipn by (graph; lia).
  f_equal. graph; lia.
Qed.

(** ** Properties *)

(** C15. A call of [dijkstra] between two nodes, from the state the program
    keeps between calls, returns (the search ends and memory suffices), leaves
    the queue empty again and prints one line, and the line is right: a walk
    from start to end of minimal cost with that cost, the fixed sentence when
    the two are equal, or the label 9999 with the end node alone when there is
    no walk. *)
Theorem dijkstra_correct malloc A s e st fuel : costs_ok A ->
  (forall n, n <= search_bound -> malloc n = true) ->
  in_graph s -> in_graph e -> idle st -> search_bound < Z.of_nat fuel ->
  exists st' l, dijkstra malloc A fuel s e st = Finished st' /\ idle st' /\
    out st' = out st ++ [l] /\ answer A s e l.
Proof. intros HA Hm; now apply dijkstra_call. Qed.

(** A matrix with the edges of a ring. *)
Definition ring : list (list Z) :=
  map (fun u => map (fun v => if v =? (u + 1) mod 100 then 7 else NONE)
    (map Z.of_nat (seq 0 100))) (map Z.of_nat (seq 0 100)).

Lemma initial_idle : idle initial_state.
Proof. repeat split. Qed.

Lemma search_fuel_enough : search_bound < Z.of_nat search_fuel.
Proof. unfold search_fuel. rewrite Z2Nat.id; graph; lia. Qed.

Lemma dijkstra_correct_witness : exists st' l,
  dijkstra (fun _ => true) ring search_fuel 0 3 initial_state = Finished st' /\ idle st' /\
  out st' = out initial_state ++ [l] /\ answer ring 0 3 l.
Proof.
  apply (dijkstra_correct (fun _ => true) ring 0 3 initial_state search_fuel).
  - apply costs_okb_ok. vm_compute. reflexivity.
  - reflexivity.
  - graph; lia.
  - graph; lia.
  - apply initial_idle.
  - apply search_fuel_enough.
Defined.

(** The line for that call, and the one for an end node that is not reached. *)
Example ring_path :
  (match dijkstra (fun _ => true) ring 200 0 3 initial_state with
   | Finished st => out st | _ => [] end) = [Path 21 [0; 1; 2; 3]].
Proof. vm_compute. reflexivity. Qed.

Example no_edges_path :
  (match dijkstra (fun _ => true) (repeat (repeat NONE 100) 100) 200 0 3 initial_state with
   | Finished st => out st | _ => [] end) = [Path NONE [3]].
Proof. vm_compute. reflexivity. Qed.

(** C14. [main] on a file of 10,000 edge costs, each 9999 or between 0 and 100:
    it runs its queries to the end and prints one line for each; the line of
    query [m] is the right answer from node [m] to node [50+m] (modulo 100) in
    the graph whose costs are the file in row-major order. *)
Theorem dijkstra_main_correct malloc n k0 input fuel :
  length input = Z.to_nat (NUM_NODES * NUM_NODES) ->
  Forall (fun c => c = NONE \/ 0 <= c <= 100) input ->
  (forall m, m <= search_bound -> malloc m = true) ->
  Z.of_nat n <= NUM_NODES -> search_bound < Z.of_nat fuel ->
  exists st A, dijkstra_main malloc fuel n k0 input = Finished st /\ length (out st) = n /\
    (forall u v, in_graph u -> in_graph v -> adj A u v = input.[NUM_NODES * u + v]) /\
    forall m, 0 <= m < Z.of_nat n -> answer A m (query_end m) (nth (Z.to_nat m) (out st) Stay).
Proof.
  intros Hl Hc Hm Hn Hf. set (A := read_matrix (Z.to_nat NUM_NODES) k0 input).
  assert (HE : forall u v, in_graph u -> in_graph v -> adj A u v = input.[NUM_NODES * u + v])
    by (intros; now apply read_matrix_adj).
  assert (HA : costs_ok A).
  { intros u v Hu Hv. rewrite HE by assumption. apply Forall_aget; [right; lia | assumption]. }
  destruct (queries_run malloc A HA Hm fuel n 0 (NUM_NODES / 2) initial_state)
    as (st & ls & E & Ho & Hln & Ha); [apply initial_idle | lia | lia | discriminate | exact Hf |].
  exists st, A. cbn [initial_state out app] in Ho. rewrite Ho.
  split; [exact E | split; [exact Hln | split; [exact HE | exact Ha]]].
Qed.

Lemma dijkstra_main_correct_witness : exists st A,
  dijkstra_main (fun _ => true) search_fuel 20 0 (repeat 3 (Z.to_nat 10000)) = Finished st /\
  length (out st) = 20%nat /\
  (forall u v, in_graph u -> in_graph v ->
     adj A u v = (repeat 3 (Z.to_nat 10000)).[NUM_NODES * u + v]) /\
  forall m, 0 <= m < 20 -> answer A m (query_end m) (nth (Z.to_nat m) (out st) Stay).
Proof.
  apply (dijkstra_main_correct (fun _ => true) 20 0 (repeat 3 (Z.to_nat 10000)) search_fuel).
  - apply repeat_length.
  - apply Forall_forall. intros c Hc. apply repeat_spec in Hc. lia.
  - reflexivity.
  - graph; lia.
  - apply search_fuel_enough.
Defined.
