(* ===== verification/StringSearch.v ===== *)
(** * StringSearch: the four Boyer-Moore style searches

    Models [office/stringsearch]: [init_search]/[strsearch] ([pbmsrch_small.c],
    repeated in [pbmsrch_large.c]) and the three Horspool searches, exact
    ([bmhsrch.c]), without case ([bmhisrch.c]) and without case and accents
    ([bmhasrch.c]).

    The Horspool searches share their search loop, which is one definition over
    the comparison of the source; the class [Skips] is what an [init] function
    promises about its tables to the loop, and the loop is proved against it.

    A [char] is a signed byte, so a string is the list of its characters in
    [-128..127] without the terminator; the casts to [unsigned char] are
    written out. *)

From Stdlib Require Import ZArith Lia List Bool.
From S2P Require Import Prelude.
Import ListNotations.

Definition is_char (c : Z) : Prop := -128 <= c < 128.

Definition UCHAR_MAX : Z := 255.

(** [strlen] of the modelled string. *)
Definition strlen (s : list Z) : Z := Z.of_nat (length s).

(** ** Pratt-Boyer-Moore: [pbmsrch_small.c] *)

(** The statics [len], [table] and [findme]. *)
Record pbm := mkPbm { len : Z; table : list Z; findme : list Z }.

Definition init_search (string : list Z) : pbm :=
  let len := strlen string in
  let table := for_range 0 (UCHAR_MAX + 1) (fun i t => aset t i len) (repeat 0 256) in
  let table := for_range 0 len (fun i t => aset t (u8 string.[i]) (len - i - 1)) table in
  mkPbm len table string.

(** [strncmp(findme, &string[at], n) == 0], both having [n] characters left. *)
Fixpoint strncmp_eq (n : nat) (a b : list Z) (at_ : Z) : bool :=
  match n with
  | O => true
  | S m => strncmp_eq m a b at_ && (u8 a.[Z.of_nat m] =? u8 b.[at_ + Z.of_nat m])
  end.

(** The inner [while]: the final [pos] and [shift]. *)
Fixpoint pbm_skip (fuel : nat) (p : pbm) (string : list Z) (limit pos shift : Z)
  : option (Z * Z) :=
  match fuel with
  | O => None
  | S f =>
      if pos <? limit then
        let shift := (table p).[u8 string.[pos]] in
        if shift >? 0 then pbm_skip f p string limit (u64 (pos + shift)) shift
        else Some (pos, shift)
      else Some (pos, shift)
  end.

(** The outer [while]; the result is [None] for [NULL], or the offset of [here]. *)
Fixpoint pbm_loop (fuel : nat) (p : pbm) (string : list Z) (limit pos shift : Z)
  : option (option Z) :=
  match fuel with
  | O => None
  | S f =>
      if pos <? limit then
        let* (pos, shift) := pbm_skip fuel p string limit pos shift in
        if 0 =? shift then
          let here := pos - len p + 1 in
          if strncmp_eq (Z.to_nat (len p)) (findme p) string here then Some (Some here)
          else pbm_loop f p string limit (u64 (pos + 1)) shift
        else pbm_loop f p string limit pos shift
      else Some None
  end.

(** [shift0] is the value of the uninitialised [shift]. *)
Definition strsearch (p : pbm) (shift0 : Z) (string : list Z) : option (option Z) :=
  let limit := strlen string in
  pbm_loop (S (S (length string))) p string limit (u64 (len p - 1)) shift0.

(** ** Horspool searches *)

Definition LARGE : Z := 32767.

(** The statics [patlen], [skip], [skip2] and [pat] of each of the three files. *)
Record tables := mkTables { patlen : Z; skip : list Z; skip2 : Z; pat : list Z }.

(** *** Exact: [bmhsrch.c] *)

Definition bmh_init (pattern : list Z) : tables :=
  let pat := map u8 pattern in
  let patlen := i32 (strlen pattern) in
  let skip := for_range 0 (UCHAR_MAX + 1) (fun i t => aset t i patlen) (repeat 0 256) in
  let skip := for_range 0 patlen (fun i t => aset t pat.[i] (patlen - i - 1)) skip in
  let lastpatchar := pat.[patlen - 1] in
  let skip := aset skip lastpatchar LARGE in
  let skip2 := for_range 0 (patlen - 1)
    (fun i s2 => if pat.[i] =? lastpatchar then patlen - i - 1 else s2) patlen in
  mkTables patlen skip skip2 pat.

(** *** Without case: [bmhisrch.c] *)

(** The C library's conversions in the "C" locale. *)
Definition tolower (c : Z) : Z := if (65 <=? c) && (c <=? 90) then c + 32 else c.

(** [alloc] is whether [realloc] succeeds; [None] is [exit(1)]. *)
Definition bmhi_init (alloc : bool) (pattern : list Z) : option tables :=
  let patlen := i32 (strlen pattern) in
  if alloc then
    let pat := map (fun c => u8 (toupper c)) pattern in
    let skip := for_range 0 (UCHAR_MAX + 1) (fun i t => aset t i patlen) (repeat 0 256) in
    let skip := for_range 0 (patlen - 1) (fun i t =>
      aset (aset t pat.[i] (patlen - i - 1)) (tolower pat.[i]) (patlen - i - 1)) skip in
    let lastpatchar := pat.[patlen - 1] in
    let skip := aset (aset skip lastpatchar LARGE) (tolower lastpatchar) LARGE in
    let skip2 := for_range 0 (patlen - 1)
      (fun i s2 => if pat.[i] =? lastpatchar then patlen - i - 1 else s2) patlen in
    Some (mkTables patlen skip skip2 pat)
  else None.

(** *** Without case and accents: [bmhasrch.c] *)

(** The table with [LOWER_ACCENTED_CHARS] defined: IBM PC code page letters. *)
Definition lowervec : list Z :=
  map Z.of_nat (seq 0 65) ++ map Z.of_nat (seq 97 26) ++ map Z.of_nat (seq 91 37) ++
  [99; 117; 101; 97; 97; 97; 97; 99; 101; 101; 101; 105; 105; 105; 97; 97;
   101; 145; 146; 111; 111; 111; 117; 117; 121; 111; 117; 155; 156; 157; 158; 159;
   97; 105; 111; 117; 110; 110] ++ map Z.of_nat (seq 166 90).

Definition lowerc (c : Z) : Z := lowervec.[u8 c].

(** [for (j = patlen - 1; j >= 0; --j) if (lowerc(i) == lowerc(pat[j])) break;]:
    the final [j]. *)
Fixpoint bmha_find (n : nat) (pat : list Z) (i : Z) : Z :=
  match n with
  | O => -1
  | S m => if lowerc i =? lowerc pat.[Z.of_nat m] then Z.of_nat m else bmha_find m pat i
  end.

Definition bmha_init (pattern : list Z) : tables :=
  let pat := map u8 pattern in
  let patlen := i32 (strlen pattern) in
  let skip := for_range 0 (UCHAR_MAX + 1) (fun i t =>
    let t := aset t i patlen in
    let j := bmha_find (Z.to_nat patlen) pat i in
    let t := if j >=? 0 then aset t i (patlen - j - 1) else t in
    if j =? patlen - 1 then aset t i LARGE else t) (repeat 0 256) in
  let skip2 := for_range 0 (patlen - 1)
    (fun i s2 => if lowerc pat.[i] =? lowerc pat.[patlen - 1] then patlen - i - 1 else s2)
    patlen in
  mkTables patlen skip skip2 pat.

(** *** The search loop of the three files *)

Section Loop.

(** The comparison [s[j] == pat[j]] of the file: a text [char] and a pattern
    [uchar]. *)
Variable same : Z -> Z -> bool.

Variable t : tables.
Variable string : list Z.
Let stringlen : Z := strlen string.

(** [while ((i += skip[((uchar * )string)[i]]) < 0);] with [string] already
    advanced past the text, so that [i] is negative inside it. *)
Fixpoint scan (fuel : nat) (i : Z) : option Z :=
  match fuel with
  | O => None
  | S f =>
      let i := i32 (i + (skip t).[u8 string.[stringlen + i]]) in
      if i <? 0 then scan f i else Some i
  end.

(** [while (--j >= 0 && s[j] == pat[j]);] ends with [j < 0]; [s] is the offset
    of the alignment. *)
Fixpoint tail_match (j : nat) (s : Z) : bool :=
  match j with
  | O => true
  | S m => if same string.[s + Z.of_nat m] (pat t).[Z.of_nat m] then tail_match m s else false
  end.

(** The [for (;;)] loop; the inner result is [NULL] or the offset of [s]. *)
Fixpoint align (fuel : nat) (i : Z) : option (option Z) :=
  match fuel with
  | O => None
  | S f =>
      let* i := scan fuel i in
      if i <? LARGE - stringlen then Some None
      else
        let i := i - LARGE in
        let j := patlen t - 1 in
        let s := stringlen + (i - j) in
        if tail_match (Z.to_nat j) s then Some (Some s)
        else
          let i := i32 (i + skip2 t) in
          if i >=? 0 then Some None else align f i
  end.

Definition horspool_search : option (option Z) :=
  let i := i32 (patlen t - 1 - stringlen) in
  if i >=? 0 then Some None else align (S (length string)) i.

End Loop.

Definition bmh_search (t : tables) (string : list Z) : option (option Z) :=
  horspool_search (fun c p => c =? p) t string.

Definition bmhi_search (t : tables) (string : list Z) : option (option Z) :=
  horspool_search (fun c p => toupper c =? p) t string.

Definition bmha_search (t : tables) (string : list Z) : option (option Z) :=
  horspool_search (fun c p => lowerc c =? lowerc p) t string.

(** ** Specification *)

(** The pattern occurs in the text at offset [k], character by character
    related by [R]. *)
Definition match_at (R : Z -> Z -> Prop) (T P : list Z) (k : Z) : Prop :=
  0 <= k <= strlen T - strlen P /\ forall j, 0 <= j < strlen P -> R T.[k + j] P.[j].

(** What a search should return: the offset of the first occurrence, or [NULL]
    when there is none. *)
Definition first_match (R : Z -> Z -> Prop) (T P : list Z) (r : option Z) : Prop :=
  match r with
  | Some k => match_at R T P k /\ forall k', k' < k -> ~ match_at R T P k'
  | None => forall k, ~ match_at R T P k
  end.

Lemma first_match_iff (R R' : Z -> Z -> Prop) T P r :
  (forall k, match_at R T P k <-> match_at R' T P k) ->
  first_match R T P r -> first_match R' T P r.
Proof.
  intros H. destruct r as [k|]; simpl.
  - intros [H1 H2]. split; [now apply H |]. intros k' Hk Hm. apply (H2 k' Hk). now apply H.
  - intros H1 k Hm. apply (H1 k). now apply H.
Qed.

(** ** Tables *)

Lemma strlen_nonneg s : 0 <= strlen s.
Proof. unfold strlen; lia. Qed.

Lemma u8_range c : 0 <= u8 c < 256.
Proof. apply zext_range; lia. Qed.

Lemma u8_char c : is_char c -> u8 c = if c <? 0 then c + 256 else c.
Proof. unfold is_char, u8, zext. change (2 ^ 8) with 256. intros H; zcases; zlia. Qed.

Lemma u8_inj a b : is_char a -> is_char b -> u8 a = u8 b -> a = b.
Proof. intros Ha Hb. rewrite !u8_char by assumption. unfold is_char in *. zcases; lia. Qed.

Lemma Forall_char s i : Forall is_char s -> is_char s.[i].
Proof. apply Forall_aget. unfold is_char; lia. Qed.

Lemma aget_map_u8 (f : Z -> Z) s i : 0 <= i < strlen s -> (map f s).[i] = f s.[i].
Proof.
  intros Hi. unfold aget. rewrite (nth_indep _ 0 (f 0)), map_nth by (rewrite length_map; unfold strlen in Hi; lia).
  reflexivity.
Qed.

(** The loop that records the last position selected by [w]. *)
Lemma last_loop n (w : Z -> bool) (g : Z -> Z) v : 0 <= n ->
  let r := for_range 0 n (fun i a => if w i then g i else a) v in
  ((forall j, 0 <= j < n -> w j = false) /\ r = v) \/
  (exists i, 0 <= i < n /\ w i = true /\ (forall j, i < j < n -> w j = false) /\ r = g i).
Proof.
  intros Hn r. subst r.
  apply (for_range_ind (fun k a => ((forall j, 0 <= j < k -> w j = false) /\ a = v) \/
    (exists i, 0 <= i < k /\ w i = true /\ (forall j, i < j < k -> w j = false) /\ a = g i)));
    [assumption | left; split; [lia | reflexivity] |].
  intros k a Hk IH. destruct (w k) eqn:E.
  - right. exists k. repeat split; auto; lia.
  - assert (Hlast : forall j, j < k + 1 -> (j < k -> w j = false) -> w j = false).
    { intros j Hj Hw. destruct (Z.eqb_spec j k) as [->|]; [assumption | apply Hw; lia]. }
    destruct IH as [[Hw Ev]|(i & Hi & Hwi & Hw & Ev)].
    + left. split; [| assumption]. intros j Hj. apply Hlast; [lia | intros; apply Hw; lia].
    + right. exists i. repeat split; auto; try lia.
      intros j Hj. apply Hlast; [lia | intros; apply Hw; lia].
Qed.

(** A loop whose iteration [i] overwrites the entries selected by [w i]. *)
Lemma table_loop n (w : Z -> Z -> bool) (g : Z -> Z) (F : Z -> list Z -> list Z) t0 :
  0 <= n -> length t0 = 256%nat ->
  (forall i t, 0 <= i < n -> length t = 256%nat -> length (F i t) = 256%nat /\
     forall c, 0 <= c < 256 -> (F i t).[c] = if w i c then g i else t.[c]) ->
  length (for_range 0 n F t0) = 256%nat /\
  forall c, 0 <= c < 256 ->
    ((forall j, 0 <= j < n -> w j c = false) /\ (for_range 0 n F t0).[c] = t0.[c]) \/
    (exists i, 0 <= i < n /\ w i c = true /\ (forall j, i < j < n -> w j c = false) /\
       (for_range 0 n F t0).[c] = g i).
Proof.
  intros Hn Hl HF.
  assert (H : length (for_range 0 n F t0) = 256%nat /\ forall c, 0 <= c < 256 ->
    (for_range 0 n F t0).[c] = for_range 0 n (fun i a => if w i c then g i else a) t0.[c]).
  { apply (for_range_ind (fun k t => length t = 256%nat /\ forall c, 0 <= c < 256 ->
      t.[c] = for_range 0 k (fun i a => if w i c then g i else a) t0.[c]));
      [assumption | split; [assumption | intros; now rewrite for_range_nil by lia] |].
    intros k t Hk [Hlt IH]. destruct (HF k t Hk Hlt) as [Hlt' Ht]. split; [assumption |].
    intros c Hc. rewrite Ht, for_range_snoc, IH by (assumption || lia). reflexivity. }
  destruct H as [Hl' H]. split; [assumption |]. intros c Hc. rewrite H by assumption.
  now apply (last_loop n (fun i => w i c)).
Qed.

(** The loop that clears a table. *)
Lemma table_clear v :
  length (for_range 0 (UCHAR_MAX + 1) (fun i t => aset t i v) (repeat 0 256)) = 256%nat /\
  forall c, 0 <= c < 256 ->
    (for_range 0 (UCHAR_MAX + 1) (fun i t => aset t i v) (repeat 0 256)).[c] = v.
Proof.
  destruct (table_loop (UCHAR_MAX + 1) (fun i c => c =? i) (fun _ => v)
    (fun i t => aset t i v) (repeat 0 256)) as [Hl H]; [unfold UCHAR_MAX; lia | reflexivity | |].
  - intros i t Hi Hl. rewrite aset_length. split; [assumption |]. intros c Hc.
    apply aget_aset; [rewrite Hl; unfold UCHAR_MAX in Hi; lia | lia].
  - split; [assumption |]. intros c Hc. destruct (H c Hc) as [[Hw _]|(i & _ & _ & _ & E)]; [| exact E].
    specialize (Hw c ltac:(unfold UCHAR_MAX; lia)). rewrite Z.eqb_refl in Hw. discriminate.
Qed.

(** Clearing a table to [m] and recording the distances from the end. *)
Definition cleared (m : Z) : list Z :=
  for_range 0 (UCHAR_MAX + 1) (fun i t => aset t i m) (repeat 0 256).

Lemma table_record n m (w : Z -> Z -> bool) (F : Z -> list Z -> list Z) : 0 <= n ->
  (forall i t, 0 <= i < n -> length t = 256%nat -> length (F i t) = 256%nat /\
     forall c, 0 <= c < 256 -> (F i t).[c] = if w i c then m - i - 1 else t.[c]) ->
  length (for_range 0 n F (cleared m)) = 256%nat /\
  forall c, 0 <= c < 256 ->
    ((forall j, 0 <= j < n -> w j c = false) /\ (for_range 0 n F (cleared m)).[c] = m) \/
    (exists i, 0 <= i < n /\ w i c = true /\ (forall j, i < j < n -> w j c = false) /\
       (for_range 0 n F (cleared m)).[c] = m - i - 1).
Proof.
  intros Hn HF. destruct (table_clear m) as [Hl0 H0]. fold (cleared m) in Hl0, H0.
  destruct (table_loop n w (fun i => m - i - 1) F (cleared m) Hn Hl0 HF) as [Hl H].
  split; [assumption |]. intros c Hc. destruct (H c Hc) as [[Hw E]|E]; [left | now right].
  split; [assumption | rewrite E; now apply H0].
Qed.

(** ** The Horspool loop against its tables *)

(** What the tables must satisfy for a comparison [same] and a test [final] of
    the last character: an entry is [LARGE] on the characters that can end an
    occurrence and else a shift that skips no occurrence; [skip2] skips none
    after an alignment whose last character fits. *)
Class Skips (same : Z -> Z -> bool) (final : Z -> Prop) (t : tables) : Prop := {
  sk_len : 1 <= patlen t < LARGE;
  sk_final : forall c, is_char c -> final c <-> (skip t).[u8 c] = LARGE;
  sk_range : forall c, is_char c -> ~ final c -> 1 <= (skip t).[u8 c] <= patlen t;
  sk_far : forall c e, is_char c -> ~ final c -> 1 <= e < (skip t).[u8 c] -> e < patlen t ->
    same c (pat t).[patlen t - 1 - e] = false;
  sk_two_range : 1 <= skip2 t <= patlen t;
  sk_two : forall c e, is_char c -> final c -> 1 <= e < skip2 t -> e < patlen t ->
    same c (pat t).[patlen t - 1 - e] = false
}.

Section Search.

Variable same : Z -> Z -> bool.
Variable final : Z -> Prop.
Variable t : tables.
Context `{HS : Skips same final t}.
Variable T : list Z.
Hypothesis HT : Forall is_char T.
Hypothesis Hlim : patlen t + strlen T <= LARGE.

(** An occurrence, as the loop tests it, at the alignment whose last character
    is the text character [e]. *)
Definition ends_at (e : Z) : Prop :=
  patlen t - 1 <= e < strlen T /\ final T.[e] /\
  forall j, 0 <= j < patlen t - 1 -> same T.[e - (patlen t - 1) + j] (pat t).[j] = true.

Lemma tail_match_spec n s : tail_match same t T n s = true <->
  forall j, 0 <= j < Z.of_nat n -> same T.[s + j] (pat t).[j] = true.
Proof.
  induction n as [|n IH]; cbn [tail_match]; [split; [lia | reflexivity] |].
  destruct (same T.[s + Z.of_nat n] (pat t).[Z.of_nat n]) eqn:E.
  - rewrite IH. split; intros H j Hj; [| apply H; lia].
    destruct (Z.eqb_spec j (Z.of_nat n)) as [->|]; [assumption | apply H; lia].
  - split; [discriminate |]. intros H. rewrite H in E by lia. discriminate.
Qed.

(** A shift below the table's entry leads to no occurrence. *)
Lemma skip_safe (d e e' : Z) :
  (forall x, 1 <= x < d -> x < patlen t -> same T.[e] (pat t).[patlen t - 1 - x] = false) ->
  e < e' < e + d -> e' < e + patlen t -> ~ ends_at e'.
Proof.
  intros Hd He Hm (Hr & _ & Hj).
  specialize (Hj (patlen t - 1 - (e' - e)) ltac:(lia)).
  replace (e' - (patlen t - 1) + (patlen t - 1 - (e' - e))) with e in Hj by lia.
  rewrite Hd in Hj by lia. discriminate.
Qed.

(** The inner loop stops past the text, or [LARGE] past the first character
    that can end an occurrence. *)
Lemma scan_spec fuel i : - strlen T <= i < 0 -> - i < Z.of_nat fuel ->
  patlen t - 1 <= strlen T + i ->
  (forall e, e < strlen T + i -> ~ ends_at e) ->
  exists i', scan t T fuel i = Some i' /\
    ((0 <= i' < LARGE - strlen T /\ forall e, ~ ends_at e) \/
     (i <= i' - LARGE < 0 /\ final T.[strlen T + (i' - LARGE)] /\
      forall e, e < strlen T + (i' - LARGE) -> ~ ends_at e)).
Proof.
  pose proof sk_len as Hlen. unfold LARGE in *.
  revert i; induction fuel as [|f IH]; intros i Hi Hf Hm Hno; [lia |]. cbn [scan].
  set (c := T.[strlen T + i]). pose proof (Forall_char T (strlen T + i) HT) as Hc. fold c in Hc.
  destruct (Z.eq_dec (skip t).[u8 c] LARGE) as [E|E].
  - rewrite E, i32_id by (unfold is_i32, LARGE; lia). unfold LARGE.
    destruct (Z.ltb_spec (i + 32767) 0); [lia |]. exists (i + 32767). split; [reflexivity | right].
    replace (i + 32767 - 32767) with i by lia.
    split; [lia | split; [now apply sk_final | assumption]].
  - assert (Hnf : ~ final c) by (rewrite sk_final; assumption).
    pose proof (sk_range c Hc Hnf) as Hr.
    rewrite i32_id by (unfold is_i32; lia).
    assert (Hno' : forall e, e < strlen T + (i + (skip t).[u8 c]) -> ~ ends_at e).
    { intros e He. destruct (Z.ltb_spec e (strlen T + i)); [now apply Hno |].
      destruct (Z.eqb_spec e (strlen T + i)) as [->|]; [intros (_ & Hfin & _); now apply Hnf |].
      apply (skip_safe (skip t).[u8 c] (strlen T + i)); [| lia | lia].
      intros x Hx Hp. now apply sk_far. }
    destruct (Z.ltb_spec (i + (skip t).[u8 c]) 0).
    + destruct (IH (i + (skip t).[u8 c])) as (i' & -> & Hres); try lia; [assumption |].
      exists i'. split; [reflexivity |].
      destruct Hres as [?|(? & ? & ?)]; [now left | right; split; [lia | auto]].
    + exists (i + (skip t).[u8 c]). split; [reflexivity | left; split; [lia |]].
      intros e He. assert (e < strlen T) by apply He. apply (Hno' e); [lia | assumption].
Qed.

(** What the whole loop finds: the first alignment at or after the current one. *)
Lemma align_spec fuel i : - strlen T <= i < 0 -> - i < Z.of_nat fuel ->
  patlen t - 1 <= strlen T + i ->
  (forall e, e < strlen T + i -> ~ ends_at e) ->
  exists r, align same t T fuel i = Some r /\
    match r with
    | Some k => ends_at (k + patlen t - 1) /\ forall e, e < k + patlen t - 1 -> ~ ends_at e
    | None => forall e, ~ ends_at e
    end.
Proof.
  pose proof sk_len as Hlen. pose proof sk_two_range as H2. unfold LARGE in Hlen.
  revert i; induction fuel as [|f IH]; intros i Hi Hf Hm Hno; [lia |]. cbn [align].
  destruct (scan_spec (S f) i Hi Hf Hm Hno) as (i' & -> & Hres). cbn [bind].
  destruct Hres as [[Hb Hnone]|(Hb & Hfin & Hno')].
  { destruct (Z.ltb_spec i' (LARGE - strlen T)); [| lia]. exists None. auto. }
  destruct (Z.ltb_spec i' (LARGE - strlen T)); [unfold LARGE in *; lia |].
  set (e := strlen T + (i' - LARGE)) in *.
  replace (strlen T + (i' - LARGE - (patlen t - 1))) with (e - (patlen t - 1)) by lia.
  destruct (tail_match same t T (Z.to_nat (patlen t - 1)) (e - (patlen t - 1))) eqn:Et.
  - exists (Some (e - (patlen t - 1))). split; [reflexivity |].
    replace (e - (patlen t - 1) + patlen t - 1) with e by lia. split; [| assumption].
    split; [lia | split; [assumption |]]. intros j Hj.
    apply (proj1 (tail_match_spec _ _) Et). lia.
  - assert (Hno2 : forall x, x < e + skip2 t -> ~ ends_at x).
    { intros x Hx. destruct (Z.ltb_spec x e); [now apply Hno' |].
      destruct (Z.eqb_spec x e) as [->|].
      - intros (_ & _ & Hj). enough (tail_match same t T (Z.to_nat (patlen t - 1))
          (e - (patlen t - 1)) = true) by congruence.
        apply tail_match_spec. intros j Hjj. apply Hj. lia.
      - apply (skip_safe (skip2 t) e); [| lia | lia]. intros y Hy Hp.
        apply sk_two; auto. now apply Forall_char. }
    rewrite i32_id by (unfold is_i32, LARGE in *; lia). rewrite Z.geb_leb.
    destruct (Z.leb_spec 0 (i' - LARGE + skip2 t)).
    + exists None. split; [reflexivity |]. intros x Hx.
      assert (x < strlen T) by apply Hx. apply (Hno2 x); [lia | assumption].
    + apply IH; try lia. intros x Hx. apply Hno2. lia.
Qed.

Lemma search_spec : exists r, horspool_search same t T = Some r /\
  match r with
  | Some k => ends_at (k + patlen t - 1) /\ forall e, e < k + patlen t - 1 -> ~ ends_at e
  | None => forall e, ~ ends_at e
  end.
Proof.
  pose proof sk_len as Hlen. pose proof (strlen_nonneg T). unfold horspool_search.
  rewrite i32_id by (unfold is_i32, LARGE in *; lia). rewrite Z.geb_leb.
  destruct (Z.leb_spec 0 (patlen t - 1 - strlen T)).
  - exists None. split; [reflexivity |]. intros e [He _]. lia.
  - apply align_spec; [lia | unfold strlen; lia | lia |]. intros e He [Hr _]. lia.
Qed.

(** The same in terms of occurrences of the pattern. *)
Lemma search_first R P : strlen P = patlen t ->
  (forall c, is_char c -> final c <-> R c P.[patlen t - 1]) ->
  (forall c j, is_char c -> 0 <= j < patlen t - 1 -> same c (pat t).[j] = true <-> R c P.[j]) ->
  exists r, horspool_search same t T = Some r /\ first_match R T P r.
Proof.
  intros HP Hfin Hsame. pose proof sk_len as Hlen.
  assert (Hiff : forall k, ends_at (k + patlen t - 1) <-> match_at R T P k).
  { intros k. unfold ends_at, match_at. rewrite HP. split.
    - intros (Hr & Hf & Hj). split; [lia |]. intros j Hjr.
      destruct (Z.eqb_spec j (patlen t - 1)) as [->|].
      + replace (k + (patlen t - 1)) with (k + patlen t - 1) by lia.
        apply Hfin; [now apply Forall_char | assumption].
      + apply Hsame; [now apply Forall_char | lia |]. specialize (Hj j ltac:(lia)).
        replace (k + patlen t - 1 - (patlen t - 1) + j) with (k + j) in Hj by lia. assumption.
    - intros (Hr & Hj). split; [lia | split].
      + apply Hfin; [now apply Forall_char |]. specialize (Hj (patlen t - 1) ltac:(lia)).
        replace (k + (patlen t - 1)) with (k + patlen t - 1) in Hj by lia. assumption.
      + intros j Hjr. replace (k + patlen t - 1 - (patlen t - 1) + j) with (k + j) by lia.
        apply Hsame; [now apply Forall_char | lia | apply Hj; lia]. }
  destruct search_spec as (r & -> & Hr). exists r. split; [reflexivity |].
  destruct r as [k|]; cbn [first_match].
  - destruct Hr as [H1 H2]. split; [now apply Hiff |]. intros k' Hk Hm.
    apply (H2 (k' + patlen t - 1)); [lia | now apply Hiff].
  - intros k Hm. apply (Hr (k + patlen t - 1)). now apply Hiff.
Qed.

End Search.

(** ** What the [init] functions build *)

(** Tables built from the last position a character is recorded at: [w j b] is
    whether position [j] is recorded for the byte [b], [w2 j] whether it is for
    the second shift. *)
Lemma Skips_intro same final t (w : Z -> Z -> bool) (w2 : Z -> bool) :
  1 <= patlen t < LARGE ->
  (forall c, is_char c -> final c \/ ~ final c) ->
  (forall c, is_char c -> final c -> (skip t).[u8 c] = LARGE) ->
  (forall c, is_char c -> ~ final c ->
     ((forall j, 0 <= j < patlen t - 1 -> w j (u8 c) = false) /\ (skip t).[u8 c] = patlen t) \/
     (exists i, 0 <= i < patlen t - 1 /\
        (forall j, i < j < patlen t - 1 -> w j (u8 c) = false) /\
        (skip t).[u8 c] = patlen t - i - 1)) ->
  (forall c j, is_char c -> 0 <= j < patlen t - 1 -> same c (pat t).[j] = true ->
     w j (u8 c) = true) ->
  skip2 t = for_range 0 (patlen t - 1)
    (fun i a => if w2 i then patlen t - i - 1 else a) (patlen t) ->
  (forall c j, is_char c -> final c -> 0 <= j < patlen t - 1 -> same c (pat t).[j] = true ->
     w2 j = true) ->
  Skips same final t.
Proof.
  intros Hlen Hdec HL Hn Hw H2 Hw2.
  assert (Hnot : forall b : bool, (b = true -> False) -> b = false) by (now intros []; intros H; [destruct H |]).
  pose proof (last_loop (patlen t - 1) w2 (fun i => patlen t - i - 1) (patlen t) ltac:(lia)) as Hl2.
  cbv beta zeta in Hl2. rewrite <- H2 in Hl2.
  split; auto.
  - intros c Hc. split; [auto |]. intros E. destruct (Hdec c Hc) as [|Hf]; [assumption |].
    destruct (Hn c Hc Hf) as [[_ E']|(i & Hi & _ & E')]; rewrite E' in E; lia.
  - intros c Hc Hf. destruct (Hn c Hc Hf) as [[_ ->]|(i & Hi & _ & ->)]; lia.
  - intros c e Hc Hf He Hp. apply Hnot; intros Hs. apply Hw in Hs; [| assumption | lia].
    destruct (Hn c Hc Hf) as [[Hj E]|(i & Hi & Hj & E)]; rewrite Hj in Hs; (discriminate || lia).
  - destruct Hl2 as [[_ ->]|(i & Hi & _ & _ & ->)]; lia.
  - intros c e Hc Hf He Hp. apply Hnot; intros Hs. apply (Hw2 c) in Hs; [| assumption | assumption | lia].
    destruct Hl2 as [[Hj E]|(i & Hi & _ & Hj & E)]; rewrite Hj in Hs; (discriminate || lia).
Qed.

Lemma lowerc_u8 c : lowerc (u8 c) = lowerc c.
Proof. unfold lowerc, u8, zext. rewrite Z.mod_mod; [reflexivity | discriminate]. Qed.

(** Case analysis on the ranges of letters. *)
Ltac cases_ctype := unfold toupper, tolower;
  repeat match goal with |- context [(?a <=? ?b) && (?c <=? ?d)] =>
    destruct (Z.leb_spec a b), (Z.leb_spec c d); cbn [andb] end.

Section Init.

Variable P : list Z.
Hypothesis HP : Forall is_char P.
Hypothesis Hlen : 1 <= strlen P < LARGE.

Lemma patlen_i32 : i32 (strlen P) = strlen P.
Proof. apply i32_id. unfold is_i32, LARGE in *; lia. Qed.

Definition bmh_same (c p : Z) : bool := c =? p.
Definition bmh_final (c : Z) : Prop := u8 c = u8 P.[strlen P - 1].

Lemma pat_get f i : 0 <= i < strlen P -> (map f P).[i] = f P.[i].
Proof. now apply aget_map_u8. Qed.

#[local] Instance bmh_Skips : Skips bmh_same bmh_final (bmh_init P).
Proof.
  unfold bmh_init. rewrite patlen_i32. fold (cleared (strlen P)).
  destruct (table_record (strlen P) (strlen P) (fun i c => c =? (map u8 P).[i])
    (fun i t => aset t (map u8 P).[i] (strlen P - i - 1)) ltac:(lia)) as [Hl H].
  { intros i t Hi Hl. rewrite aset_length. split; [assumption |]. intros c Hc.
    rewrite pat_get by assumption. pose proof (u8_range P.[i]). apply aget_aset; lia. }
  set (t1 := for_range 0 (strlen P) _ _) in *. pose proof (u8_range P.[strlen P - 1]) as Hlast.
  apply (Skips_intro _ _ _ (fun i c => c =? (map u8 P).[i])
    (fun i => (map u8 P).[i] =? (map u8 P).[strlen P - 1])); cbn [patlen skip skip2 pat]; auto;
    unfold bmh_final, bmh_same; intros c; pose proof (u8_range c);
    rewrite ?(pat_get u8 (strlen P - 1)) by lia.
  - intros _. destruct (Z.eq_dec (u8 c) (u8 P.[strlen P - 1])); auto.
  - intros _ Hf. rewrite aget_aset, Hf, Z.eqb_refl by lia. reflexivity.
  - intros _ Hf. rewrite aget_aset by lia.
    destruct (Z.eqb_spec (u8 c) (u8 P.[strlen P - 1])) as [|Hne]; [contradiction |].
    destruct (H (u8 c) ltac:(lia)) as [[Hw E]|(i & Hi & Hwi & Hw & E)].
    + left. split; [intros; apply Hw; lia | assumption].
    + right. exists i. apply Z.eqb_eq in Hwi. rewrite pat_get in Hwi by assumption.
      assert (i <> strlen P - 1) by (intros ->; contradiction).
      split; [lia | split; [intros; apply Hw; lia | assumption]].
  - intros j Hc Hj Hs%Z.eqb_eq. rewrite pat_get in * by lia. pose proof (u8_range P.[j]).
    rewrite u8_char, Hs by assumption. apply Z.eqb_eq. zcases; lia.
  - intros j Hc Hf Hj Hs%Z.eqb_eq. rewrite pat_get in * by lia. pose proof (u8_range P.[j]).
    rewrite u8_char in Hf by assumption. apply Z.eqb_eq. destruct (Z.ltb_spec c 0); lia.
Qed.

Definition bmhi_pat (i : Z) : Z := u8 (toupper P.[i]).
Definition bmhi_same (c p : Z) : bool := toupper c =? p.
Definition bmhi_final (c : Z) : Prop :=
  u8 c = bmhi_pat (strlen P - 1) \/ u8 c = tolower (bmhi_pat (strlen P - 1)).

Lemma toupper_char c : is_char c -> is_char (toupper c).
Proof. unfold is_char. cases_ctype; lia. Qed.

(** The pattern bytes are bytes and not lower-case letters. *)
Lemma bmhi_pat_range i : 0 <= bmhi_pat i < 256 /\ (bmhi_pat i < 97 \/ 122 < bmhi_pat i).
Proof.
  split; [apply u8_range |]. unfold bmhi_pat.
  pose proof (Forall_char P i HP) as Hc. pose proof (toupper_char _ Hc) as Hu.
  rewrite u8_char by assumption. unfold is_char in *. cases_ctype; zcases; lia.
Qed.

Lemma tolower_range b : 0 <= b < 256 -> 0 <= tolower b < 256.
Proof. cases_ctype; lia. Qed.

(** A text character with the upper case [b] is [b] or its lower case. *)
Lemma bmhi_same_byte c b : is_char c -> 0 <= b < 256 -> toupper c = b ->
  0 <= c /\ (u8 c = b \/ u8 c = tolower b).
Proof.
  intros Hc Hb. rewrite u8_char by assumption. unfold is_char in *.
  cases_ctype; intros; zcases; lia.
Qed.

Lemma bmhi_final_byte c b : is_char c -> 0 <= c -> (b < 97 \/ 122 < b) ->
  u8 c = b \/ u8 c = tolower b -> toupper c = b.
Proof.
  intros Hc H0 Hb. rewrite u8_char by assumption. unfold is_char in *.
  destruct (Z.ltb_spec c 0); [lia |]. cases_ctype; lia.
Qed.

Lemma bmhi_init_some : exists t, bmhi_init true P = Some t /\ patlen t = strlen P /\
  pat t = map (fun c => u8 (toupper c)) P /\ Skips bmhi_same bmhi_final t.
Proof.
  unfold bmhi_init. rewrite patlen_i32. eexists; split; [reflexivity |].
  split; [reflexivity | split; [reflexivity |]]. fold (cleared (strlen P)).
  set (up := map (fun c => u8 (toupper c)) P).
  assert (Hup : forall i, 0 <= i < strlen P -> up.[i] = bmhi_pat i) by (intros; now apply pat_get).
  destruct (table_record (strlen P - 1) (strlen P)
    (fun i c => (c =? tolower up.[i]) || (c =? up.[i]))
    (fun i t => aset (aset t up.[i] (strlen P - i - 1)) (tolower up.[i]) (strlen P - i - 1))
    ltac:(lia)) as [Hl H].
  { intros i t Hi Hl. rewrite !aset_length. split; [assumption |]. intros c Hc.
    rewrite Hup by lia. destruct (bmhi_pat_range i) as [Hr _]. pose proof (tolower_range _ Hr).
    rewrite !aget_aset by (rewrite ?aset_length; lia).
    now destruct (c =? tolower (bmhi_pat i)), (c =? bmhi_pat i). }
  set (t1 := for_range 0 (strlen P - 1) _ (cleared (strlen P))) in *.
  destruct (bmhi_pat_range (strlen P - 1)) as [Hr Hnl]. pose proof (tolower_range _ Hr).
  assert (Hskip : forall b, 0 <= b < 256 ->
    (aset (aset t1 up.[strlen P - 1] LARGE) (tolower up.[strlen P - 1]) LARGE).[b] =
    if (b =? tolower (bmhi_pat (strlen P - 1))) || (b =? bmhi_pat (strlen P - 1)) then LARGE
    else t1.[b]).
  { intros b Hb. rewrite Hup by lia. rewrite !aget_aset by (rewrite ?aset_length; lia).
    now destruct (b =? tolower (bmhi_pat (strlen P - 1))), (b =? bmhi_pat (strlen P - 1)). }
  apply (Skips_intro _ _ _ (fun i c => (c =? tolower up.[i]) || (c =? up.[i]))
    (fun i => up.[i] =? up.[strlen P - 1])); cbn [patlen skip skip2 pat]; auto;
    unfold bmhi_final, bmhi_same; intros c; pose proof (u8_range c).
  - intros _. destruct (Z.eq_dec (u8 c) (bmhi_pat (strlen P - 1))),
      (Z.eq_dec (u8 c) (tolower (bmhi_pat (strlen P - 1)))); tauto.
  - intros _ Hf. rewrite Hskip by lia. destruct Hf as [-> | ->]; rewrite Z.eqb_refl, ?orb_true_r; auto.
  - intros _ Hf. rewrite Hskip by lia.
    destruct (Z.eqb_spec (u8 c) (tolower (bmhi_pat (strlen P - 1)))); [tauto |].
    destruct (Z.eqb_spec (u8 c) (bmhi_pat (strlen P - 1))); [tauto |]. cbn [orb].
    destruct (H (u8 c) ltac:(lia)) as [?|(i & Hi & _ & Hw)]; [now left | right; exists i; auto].
  - intros j Hc Hj Hs%Z.eqb_eq. rewrite Hup in * by lia.
    destruct (bmhi_same_byte c _ Hc (proj1 (bmhi_pat_range j)) Hs) as [_ [-> | ->]];
      rewrite Z.eqb_refl, ?orb_true_r; reflexivity.
  - intros j Hc Hf Hj Hs%Z.eqb_eq. rewrite !Hup in * by lia.
    destruct (bmhi_same_byte c _ Hc (proj1 (bmhi_pat_range j)) Hs) as [Hpos _].
    rewrite <- Hs. apply Z.eqb_eq. now apply bmhi_final_byte.
Qed.

Definition bmha_same (c p : Z) : bool := lowerc c =? lowerc p.
Definition bmha_final (c : Z) : Prop := lowerc c = lowerc P.[strlen P - 1].

Lemma bmha_find_spec n p b :
  (bmha_find n p b = -1 /\ forall j, 0 <= j < Z.of_nat n -> (lowerc b =? lowerc p.[j]) = false) \/
  (0 <= bmha_find n p b < Z.of_nat n /\ lowerc b = lowerc p.[bmha_find n p b] /\
   forall j, bmha_find n p b < j < Z.of_nat n -> (lowerc b =? lowerc p.[j]) = false).
Proof.
  induction n as [|n IH]; cbn [bmha_find]; [left; split; [reflexivity | lia] |].
  destruct (lowerc b =? lowerc p.[Z.of_nat n]) eqn:E.
  - apply Z.eqb_eq in E. right. split; [lia | split; [assumption | lia]].
  - assert (Hlast : forall j, j < Z.of_nat (S n) ->
      (j < Z.of_nat n -> (lowerc b =? lowerc p.[j]) = false) -> (lowerc b =? lowerc p.[j]) = false).
    { intros j Hj Hw. destruct (Z.eqb_spec j (Z.of_nat n)) as [->|]; [assumption | apply Hw; lia]. }
    destruct IH as [[Ev Hw]|(Hr & Ev & Hw)].
    + left. split; [assumption |]. intros j Hj. apply Hlast; [lia | intros; apply Hw; lia].
    + right. split; [lia | split; [assumption |]].
      intros j Hj. apply Hlast; [lia | intros; apply Hw; lia].
Qed.

(** The entry that [bmha_init] computes for a byte. *)
Definition bmha_entry (b : Z) : Z :=
  let j := bmha_find (Z.to_nat (strlen P)) (map u8 P) b in
  if j =? strlen P - 1 then LARGE else if j >=? 0 then strlen P - j - 1 else strlen P.

Lemma bmha_skip b : 0 <= b < 256 -> (skip (bmha_init P)).[b] = bmha_entry b.
Proof.
  intros Hb. unfold bmha_init; cbn [skip]. rewrite patlen_i32.
  set (F := fun i t => _).
  destruct (table_loop (UCHAR_MAX + 1) (fun i c => c =? i) bmha_entry F (repeat 0 256)) as [_ H];
    [unfold UCHAR_MAX; lia | reflexivity | |].
  - intros i t Hi Hl. unfold F, bmha_entry, UCHAR_MAX in *.
    destruct (bmha_find _ _ i >=? 0), (bmha_find _ _ i =? strlen P - 1);
      rewrite !aset_length; (split; [assumption |]); intros c Hc;
      rewrite !aget_aset by (rewrite ?aset_length; lia); now destruct (c =? i).
  - destruct (H b Hb) as [[Hw _]|(i & Hi & Hwi & _ & E)].
    + specialize (Hw b ltac:(unfold UCHAR_MAX; lia)). rewrite Z.eqb_refl in Hw. discriminate.
    + apply Z.eqb_eq in Hwi. now subst i.
Qed.

#[local] Instance bmha_Skips : Skips bmha_same bmha_final (bmha_init P).
Proof.
  assert (Hpl : patlen (bmha_init P) = strlen P) by (cbn; apply patlen_i32).
  apply (Skips_intro _ _ _ (fun i b => lowerc b =? lowerc (map u8 P).[i])
    (fun i => lowerc (map u8 P).[i] =? lowerc (map u8 P).[strlen P - 1]));
    rewrite ?Hpl; auto; unfold bmha_final, bmha_same; try intros c; try pose proof (u8_range c) as Hb.
  - intros _. destruct (Z.eq_dec (lowerc c) (lowerc P.[strlen P - 1])); auto.
  - intros _ Hf. rewrite bmha_skip by assumption. unfold bmha_entry.
    destruct (bmha_find_spec (Z.to_nat (strlen P)) (map u8 P) (u8 c)) as [[_ Hw]|(Hr & _ & Hw)];
      [| destruct (Z.eqb_spec (bmha_find (Z.to_nat (strlen P)) (map u8 P) (u8 c)) (strlen P - 1));
         [reflexivity |]]; specialize (Hw (strlen P - 1) ltac:(lia));
      rewrite pat_get, !lowerc_u8, Hf, Z.eqb_refl in Hw by lia; discriminate.
  - intros _ Hf. rewrite bmha_skip by assumption. unfold bmha_entry. rewrite Z.geb_leb.
    destruct (bmha_find_spec (Z.to_nat (strlen P)) (map u8 P) (u8 c)) as [[-> Hw]|(Hr & Ev & Hw)].
    + left. split; [intros; apply Hw; lia |].
      destruct (Z.eqb_spec (-1) (strlen P - 1)); [lia | reflexivity].
    + right. exists (bmha_find (Z.to_nat (strlen P)) (map u8 P) (u8 c)).
      destruct (Z.eqb_spec (bmha_find (Z.to_nat (strlen P)) (map u8 P) (u8 c)) (strlen P - 1)) as [E|E].
      * rewrite E, pat_get, !lowerc_u8 in Ev by lia. contradiction.
      * split; [lia | split; [intros; apply Hw; lia |]].
        destruct (Z.leb_spec 0 (bmha_find (Z.to_nat (strlen P)) (map u8 P) (u8 c))); lia.
  - intros j Hc Hj Hs. now rewrite lowerc_u8.
  - cbn [bmha_init skip2]. now rewrite patlen_i32.
  - intros j Hc Hf Hj Hs%Z.eqb_eq. cbn [bmha_init pat] in Hs.
    rewrite (pat_get u8 (strlen P - 1)), lowerc_u8, <- Hf, Hs by lia. apply Z.eqb_refl.
Qed.

End Init.

(** ** The Pratt-Boyer-Moore loop *)

Section Pbm.

Variable P T : list Z.
Hypothesis HP : Forall is_char P.
Hypothesis HT : Forall is_char T.
Hypothesis Hlen : 1 <= strlen P.
Hypothesis Hlim : strlen P + strlen T < 2 ^ 64.

Let occurs (e : Z) : Prop := match_at eq T P (e - (strlen P - 1)).

Lemma pbm_table c : is_char c ->
  0 <= (table (init_search P)).[u8 c] <= strlen P /\
  ((table (init_search P)).[u8 c] = 0 -> c = P.[strlen P - 1]) /\
  forall x, 0 <= x < (table (init_search P)).[u8 c] -> x < strlen P ->
    c <> P.[strlen P - 1 - x].
Proof.
  intros Hc. unfold init_search; cbn [table]. fold (cleared (strlen P)).
  destruct (table_record (strlen P) (strlen P) (fun i b => b =? u8 P.[i])
    (fun i t => aset t (u8 P.[i]) (strlen P - i - 1)) ltac:(lia)) as [_ H].
  { intros i t Hi Hl. rewrite aset_length. split; [assumption |]. intros b Hb.
    pose proof (u8_range P.[i]). apply aget_aset; lia. }
  assert (Hne : forall j, (u8 c =? u8 P.[j]) = false -> c <> P.[j])
    by (intros j Hj ->; rewrite Z.eqb_refl in Hj; discriminate).
  destruct (H (u8 c) (u8_range c)) as [[Hw ->]|(i & Hi & Hwi & Hw & ->)].
  - split; [lia | split; [lia |]]. intros x Hx Hp. apply Hne, Hw. lia.
  - split; [lia | split].
    + intros E. replace (strlen P - 1) with i by lia. apply Z.eqb_eq in Hwi.
      apply u8_inj; auto. now apply Forall_char.
    + intros x Hx Hp. apply Hne, Hw. lia.
Qed.

Lemma strncmp_spec n k : strncmp_eq n P T k = true <->
  forall j, 0 <= j < Z.of_nat n -> T.[k + j] = P.[j].
Proof.
  induction n as [|n IH]; cbn [strncmp_eq]; [split; [lia | reflexivity] |].
  rewrite andb_true_iff, IH, Z.eqb_eq. split.
  - intros [H E] j Hj. destruct (Z.eqb_spec j (Z.of_nat n)) as [->|]; [| apply H; lia].
    symmetry. apply u8_inj; auto; now apply Forall_char.
  - intros H. split; [intros; apply H; lia | now rewrite H by lia].
Qed.

Lemma pbm_skip_spec fuel pos shift : strlen P - 1 <= pos -> pos < strlen T + strlen P ->
  strlen T - pos < Z.of_nat fuel -> (0 < fuel)%nat ->
  (pos < strlen T \/ 0 < shift) ->
  (forall e, e < pos -> ~ occurs e) ->
  exists pos' shift', pbm_skip fuel (init_search P) T (strlen T) pos shift = Some (pos', shift') /\
    pos <= pos' /\ (forall e, e < pos' -> ~ occurs e) /\
    ((strlen T <= pos' /\ 0 < shift') \/ (pos' < strlen T /\ shift' = 0)).
Proof.
  revert pos shift; induction fuel as [|f IH]; intros pos shift Hp1 Hp2 Hf Hf0 Hsh Hno; [lia |].
  cbn [pbm_skip]. destruct (Z.ltb_spec pos (strlen T)) as [Hlt|Hge].
  - destruct (pbm_table T.[pos] (Forall_char T pos HT)) as (Hr & Hz & Hx).
    set (sh := (table (init_search P)).[u8 T.[pos]]) in *. rewrite Z.gtb_ltb.
    destruct (Z.ltb_spec 0 sh) as [Hpos|Hzero].
    + rewrite u64_id by (unfold is_u64; lia).
      destruct (IH (pos + sh) sh) as (pos' & shift' & -> & Hle & Hres); try lia.
      * intros e He [Hre Hj]. destruct (Z.ltb_spec e pos); [now apply (Hno e); [| split] |].
        apply (Hx (e - pos) ltac:(lia) ltac:(lia)).
        specialize (Hj (strlen P - 1 - (e - pos)) ltac:(lia)).
        now replace (e - (strlen P - 1) + (strlen P - 1 - (e - pos))) with pos in Hj by lia.
      * exists pos', shift'. split; [reflexivity | split; [lia | assumption]].
    + exists pos, sh. split; [reflexivity | split; [lia | split; [assumption | right; lia]]].
  - exists pos, shift. split; [reflexivity | split; [lia | split; [assumption | left; lia]]].
Qed.

Lemma pbm_loop_spec fuel pos shift : strlen P - 1 <= pos -> pos < strlen T + strlen P ->
  strlen T - pos < Z.of_nat fuel -> (0 < fuel)%nat ->
  (forall e, e < pos -> ~ occurs e) ->
  exists r, pbm_loop fuel (init_search P) T (strlen T) pos shift = Some r /\ first_match eq T P r.
Proof.
  revert pos shift; induction fuel as [|f IH]; intros pos shift Hp1 Hp2 Hf Hf0 Hno; [lia |].
  assert (Hnone : forall q, strlen T <= q -> (forall e, e < q -> ~ occurs e) ->
    first_match eq T P None).
  { intros q Hq Hn k Hm. apply (Hn (k + (strlen P - 1))); [destruct Hm; lia |].
    unfold occurs. now replace (k + (strlen P - 1) - (strlen P - 1)) with k by lia. }
  cbn [pbm_loop]. destruct (Z.ltb_spec pos (strlen T)) as [Hlt|Hge];
    [| exists None; split; [reflexivity | now apply (Hnone pos)]].
  destruct (pbm_skip_spec (S f) pos shift) as (p' & sh & -> & Hle & Hno' & Hres); auto.
  cbn [bind]. destruct Hres as [[Hp Hs]|[Hp ->]].
  - destruct (Z.eqb_spec 0 sh); [lia |]. exists None. split; [| now apply (Hnone p')].
    destruct f; [lia |]. cbn [pbm_loop]. destruct (Z.ltb_spec p' (strlen T)); [lia | reflexivity].
  - cbn [Z.eqb]. cbn [init_search len findme].
    destruct (strncmp_eq (Z.to_nat (strlen P)) P T (p' - strlen P + 1)) eqn:E.
    + exists (Some (p' - strlen P + 1)). split; [reflexivity |]. split.
      * split; [lia |]. intros j Hj. apply (proj1 (strncmp_spec _ _) E). lia.
      * intros k' Hk Hm. apply (Hno' (k' + (strlen P - 1))); [lia |].
        unfold occurs. now replace (k' + (strlen P - 1) - (strlen P - 1)) with k' by lia.
    + rewrite u64_id by (unfold is_u64; lia).
      change (mkPbm (strlen P) _ P) with (init_search P). apply IH; try lia.
      intros e He. destruct (Z.eqb_spec e p') as [->|]; [| apply Hno'; lia].
      intros [_ Hj]. enough (strncmp_eq (Z.to_nat (strlen P)) P T (p' - strlen P + 1) = true)
        by congruence.
      apply strncmp_spec. intros j Hjr.
      replace (p' - strlen P + 1 + j) with (p' - (strlen P - 1) + j) by lia. apply Hj. lia.
Qed.

End Pbm.

(** ** Properties *)

(** After [init_search] of a non-empty pattern, [strsearch] returns on
    every text, and what it returns is the address of the first occurrence, or
    [NULL] when there is none; whatever the uninitialised [shift] holds. *)
Theorem strsearch_correct P T shift0 : Forall is_char P -> Forall is_char T ->
  1 <= strlen P -> strlen P + strlen T < 2 ^ 64 ->
  exists r, strsearch (init_search P) shift0 T = Some r /\ first_match eq T P r.
Proof.
  intros HP HT Hlen Hlim. pose proof (strlen_nonneg T). unfold strsearch.
  change (len (init_search P)) with (strlen P).
  rewrite u64_id by (unfold is_u64; lia).
  apply pbm_loop_spec; auto; try lia; [unfold strlen; lia |].
  intros e He [Hr _]. lia.
Qed.

(** A pattern and a text in which it overlaps itself. *)
Definition sample_pattern : list Z := [97; 98; 97].
Definition sample_text : list Z := [99; 97; 98; 98; 97; 98; 97; 98; 97].

Lemma sample_chars : Forall is_char sample_pattern /\ Forall is_char sample_text.
Proof. split; repeat constructor; discriminate. Qed.

Lemma strsearch_correct_witness :
  exists r, strsearch (init_search sample_pattern) 0 sample_text = Some r /\
    first_match eq sample_text sample_pattern r.
Proof.
  apply (strsearch_correct sample_pattern sample_text 0);
    [apply sample_chars | apply sample_chars | discriminate | reflexivity].
Defined.

Example strsearch_sample : strsearch (init_search sample_pattern) 0 sample_text = Some (Some 4).
Proof. reflexivity. Qed.

(** [bmh_search] after [bmh_init] returns the first occurrence of the
    pattern, or [NULL] when there is none, for a pattern whose characters
    before the last are ASCII and within the documented limit on the lengths. *)
Theorem bmh_search_correct P T : Forall is_char P -> Forall is_char T ->
  1 <= strlen P -> strlen P + strlen T < LARGE ->
  (forall j, 0 <= j < strlen P - 1 -> 0 <= P.[j]) ->
  exists r, bmh_search (bmh_init P) T = Some r /\ first_match eq T P r.
Proof.
  intros HP HT Hlen Hlim Hascii. pose proof (strlen_nonneg T).
  assert (Hm : 1 <= strlen P < LARGE) by lia.
  assert (Hpl : patlen (bmh_init P) = strlen P) by (cbn; now apply patlen_i32).
  apply (@search_first _ _ _ (bmh_Skips P Hm)); auto; rewrite ?Hpl; auto; [lia | |].
  - intros c Hc. unfold bmh_final. split; [| now intros ->].
    intros E. apply u8_inj; auto. now apply Forall_char.
  - intros c j Hc Hj. unfold bmh_same. cbn [bmh_init pat].
    rewrite pat_get, u8_char, Z.eqb_eq by (lia || now apply Forall_char).
    specialize (Hascii j ltac:(lia)). destruct (Z.ltb_spec P.[j] 0); [lia | reflexivity].
Qed.

Lemma bmh_search_correct_witness :
  exists r, bmh_search (bmh_init sample_pattern) sample_text = Some r /\
    first_match eq sample_text sample_pattern r.
Proof.
  apply (bmh_search_correct sample_pattern sample_text);
    [apply sample_chars | apply sample_chars | discriminate | reflexivity |].
  change (strlen sample_pattern - 1) with 2. intros j Hj.
  assert (j = 0 \/ j = 1) as [-> | ->] by lia; discriminate.
Defined.

(** A pattern with a character above 127 before its last one is never
    found: [s[j]] is a signed and [pat[j]] an unsigned character, so the
    comparison in [bmh_search] fails on every text, an occurrence included. *)
Theorem bmh_search_misses_high P T j : Forall is_char P -> Forall is_char T ->
  strlen P + strlen T < LARGE -> 0 <= j < strlen P - 1 -> P.[j] < 0 ->
  bmh_search (bmh_init P) T = Some None.
Proof.
  intros HP HT Hlim Hj Hneg. pose proof (strlen_nonneg T).
  assert (Hm : 1 <= strlen P < LARGE) by lia.
  assert (Hpl : patlen (bmh_init P) = strlen P) by (cbn; now apply patlen_i32).
  destruct (@search_spec _ _ _ (bmh_Skips P Hm) T HT) as ([k|] & E & Hr); [lia | exfalso | exact E].
  destruct Hr as [(_ & _ & Hs) _]. rewrite Hpl in Hs. specialize (Hs j Hj).
  set (c := T.[_]) in Hs. assert (Hc : is_char c) by now apply Forall_char.
  unfold bmh_same in Hs. cbn [bmh_init pat] in Hs. rewrite pat_get, Z.eqb_eq in Hs by lia.
  rewrite u8_char in Hs by now apply Forall_char. pose proof (Forall_char P j HP).
  unfold is_char in *. destruct (Z.ltb_spec P.[j] 0); lia.
Qed.

(** The text is the pattern itself, an accented letter and a plain one. *)
Lemma bmh_search_misses_high_witness :
  bmh_search (bmh_init [-23; 97]) [-23; 97] = Some None /\ match_at eq [-23; 97] [-23; 97] 0.
Proof.
  split.
  - apply (bmh_search_misses_high [-23; 97] [-23; 97] 0); try reflexivity;
      [repeat constructor; discriminate | repeat constructor; discriminate |
       split; [discriminate | reflexivity]].
  - split; [split; discriminate | reflexivity].
Defined.

(** [bmhi_search] after [bmhi_init] returns the first occurrence of an
    ASCII pattern up to case, or [NULL]; [bmhi_init] itself fails only when
    there is no memory. *)
Theorem bmhi_search_correct alloc P T : Forall (fun c => 0 <= c < 128) P -> Forall is_char T ->
  1 <= strlen P -> strlen P + strlen T < LARGE ->
  match bmhi_init alloc P with
  | Some t => exists r, bmhi_search t T = Some r /\
      first_match (fun c p => toupper c = toupper p) T P r
  | None => alloc = false
  end.
Proof.
  intros HA HT Hlen Hlim. pose proof (strlen_nonneg T). destruct alloc; [| reflexivity].
  assert (HP : Forall is_char P)
    by (eapply Forall_impl; [| exact HA]; unfold is_char; cbn; lia).
  assert (Hm : 1 <= strlen P < LARGE) by lia.
  destruct (bmhi_init_some P HP Hm) as (t & -> & Hpl & Hpat & HS).
  assert (Hu : forall j, bmhi_pat P j = toupper P.[j]).
  { intros j. assert (0 <= P.[j] < 128) by (apply (Forall_aget (fun c => 0 <= c < 128)); [lia | assumption]).
    unfold bmhi_pat. rewrite u8_char by (apply toupper_char; unfold is_char; lia).
    cases_ctype; zcases; lia. }
  apply (@search_first _ _ _ HS); auto; rewrite ?Hpl; auto; [lia | |].
  - intros c Hc. unfold bmhi_final. rewrite !Hu.
    assert (0 <= P.[strlen P - 1] < 128) by (apply (Forall_aget (fun c => 0 <= c < 128)); [lia | assumption]).
    rewrite u8_char by assumption. unfold is_char in Hc. cases_ctype; zcases; lia.
  - intros c j Hc Hj. unfold bmhi_same. rewrite Hpat, pat_get by lia. fold (bmhi_pat P j).
    rewrite Hu. apply Z.eqb_eq.
Qed.

Lemma bmhi_search_correct_witness :
  match bmhi_init true [65; 98; 65] with
  | Some t => exists r, bmhi_search t sample_text = Some r /\
      first_match (fun c p => toupper c = toupper p) sample_text [65; 98; 65] r
  | None => true = false
  end.
Proof.
  apply (bmhi_search_correct true [65; 98; 65] sample_text);
    [repeat constructor; discriminate | apply sample_chars | discriminate | reflexivity].
Defined.

(** [bmha_search] after [bmha_init] returns the first occurrence of any
    non-empty pattern up to case and accents as [lowervec] has them, or [NULL]. *)
Theorem bmha_search_correct P T : Forall is_char P -> Forall is_char T ->
  1 <= strlen P -> strlen P + strlen T < LARGE ->
  exists r, bmha_search (bmha_init P) T = Some r /\
    first_match (fun c p => lowerc c = lowerc p) T P r.
Proof.
  intros HP HT Hlen Hlim. pose proof (strlen_nonneg T).
  assert (Hm : 1 <= strlen P < LARGE) by lia.
  assert (Hpl : patlen (bmha_init P) = strlen P) by (cbn; now apply patlen_i32).
  apply (@search_first _ _ _ (bmha_Skips P Hm)); auto; rewrite ?Hpl; auto; [lia | |].
  - reflexivity.
  - intros c j Hc Hj. unfold bmha_same. cbn [bmha_init pat].
    rewrite (pat_get P u8), lowerc_u8 by lia. apply Z.eqb_eq.
Qed.

(** The pattern is an accented letter of the code page and an upper-case one. *)
Lemma bmha_search_correct_witness :
  exists r, bmha_search (bmha_init [-122; 66]) sample_text = Some r /\
    first_match (fun c p => lowerc c = lowerc p) sample_text [-122; 66] r.
Proof.
  apply (bmha_search_correct [-122; 66] sample_text);
    [repeat constructor; discriminate | apply sample_chars | discriminate | reflexivity].
Defined.

Example bmha_sample : bmha_search (bmha_init [-122; 66]) sample_text = Some (Some 1).
Proof. reflexivity. Qed.
