(* ===== verification/Sha.v ===== *)
(** * Sha: the secure hash algorithm

    Models [security/sha/sha.c] as the Makefile builds it: loops not unrolled,
    without [USE_MODIFIED_SHA] (so the hash of FIPS 180, known as SHA-0), and
    with [LITTLE_ENDIAN], which the C library's headers define.

    The code keeps the message in an array of [LONG] = [unsigned long] that it
    also accesses by bytes, so what it computes depends on [sizeof(LONG)], here
    the parameter [L].  The array is modelled by its bytes.  With 4-byte longs
    the program computes the FIPS 180 digest of its input whatever the buffer
    held before; with the 8-byte longs of the LP64 targets it does not. *)

From Stdlib Require Import ZArith Lia List Bool.
From S2P Require Import Prelude.
Import ListNotations.

Definition SHA_BLOCKSIZE : Z := 64.
Definition BLOCK_SIZE : Z := 8192.

(** [SHA_INFO]; [data] is the array [LONG data[16]] as its bytes. *)
Record SHA_INFO := mkSHA {
  digest : list Z;
  count_lo : Z;
  count_hi : Z;
  data : list Z
}.

(** ** Bytes and words in memory *)

(** The value of bytes in little-endian order. *)
Fixpoint le_value (l : list Z) : Z :=
  match l with
  | [] => 0
  | b :: r => b + 256 * le_value r
  end.

(** The [n] low bytes of a value, the lowest first. *)
Fixpoint le_bytes (n : nat) (v : Z) : list Z :=
  match n with
  | O => []
  | S m => v mod 256 :: le_bytes m (v / 256)
  end.

(** [memcpy(d, s, n)] and [memset(d + o, 0, n)] on the bytes of an array. *)
Definition memcpy (d s : list Z) (n : Z) : list Z :=
  firstn (Z.to_nat n) s ++ skipn (Z.to_nat n) d.

Definition memset0 (d : list Z) (o n : Z) : list Z :=
  firstn (Z.to_nat o) d ++ repeat 0 (Z.to_nat n) ++ skipn (Z.to_nat (o + n)) d.

Section Target.

(** [sizeof(LONG)] *)
Variable L : Z.

Definition LONG (x : Z) : Z := zext (8 * L) x.

(** [data[i]] and [data[i] = v] *)
Definition get_long (d : list Z) (i : Z) : Z :=
  le_value (firstn (Z.to_nat L) (skipn (Z.to_nat (i * L)) d)).

Definition put_long (d : list Z) (i v : Z) : list Z :=
  firstn (Z.to_nat (i * L)) d ++ le_bytes (Z.to_nat L) v ++ skipn (Z.to_nat (i * L + L)) d.

(** ** Macros *)

Definition not_long (x : Z) : Z := LONG (Z.lnot x).

Definition f1 (x y z : Z) : Z := (x .& y) .| (not_long x .& z).
Definition f2 (x y z : Z) : Z := x .^ y .^ z.
Definition f3 (x y z : Z) : Z := (x .& y) .| (x .& z) .| (y .& z).
Definition f4 (x y z : Z) : Z := x .^ y .^ z.

Definition CONST1 : Z := 0x5a827999.
Definition CONST2 : Z := 0x6ed9eba1.
Definition CONST3 : Z := 0x8f1bbcdc.
Definition CONST4 : Z := 0xca62c1d6.

Definition ROT32 (x n : Z) : Z := LONG (x << n) .| (x >> (32 - n)).

(** The variables [A] to [E] of [sha_transform]. *)
Definition regs : Type := (Z * Z * Z * Z * Z)%type.

Definition FUNC (f : Z -> Z -> Z -> Z) (CONST : Z) (W : list Z) (i : Z) (r : regs) : regs :=
  let '(A, B, C, D, E) := r in
  let temp := LONG (ROT32 A 5 + f B C D + E + W.[i] + CONST) in
  (temp, A, ROT32 B 30, C, D).

(** ** Functions *)

Definition sha_schedule (d : list Z) : list Z :=
  let W := for_range 0 16 (fun i W => aset W i (get_long d i)) (repeat 0 80) in
  for_range 16 80 (fun i W => aset W i (W.[i - 3] .^ W.[i - 8] .^ W.[i - 14] .^ W.[i - 16])) W.

Definition sha_transform (s : SHA_INFO) : SHA_INFO :=
  let W := sha_schedule (data s) in
  let H := digest s in
  let r := (H.[0], H.[1], H.[2], H.[3], H.[4]) in
  let r := for_range 0 20 (FUNC f1 CONST1 W) r in
  let r := for_range 20 40 (FUNC f2 CONST2 W) r in
  let r := for_range 40 60 (FUNC f3 CONST3 W) r in
  let '(A, B, C, D, E) := for_range 60 80 (FUNC f4 CONST4 W) r in
  mkSHA [LONG (H.[0] + A); LONG (H.[1] + B); LONG (H.[2] + C); LONG (H.[3] + D); LONG (H.[4] + E)]
    (count_lo s) (count_hi s) (data s).

(** The body of the loop of [byte_reverse], at the byte offset of [cp]. *)
Definition swap4 (d : list Z) (cp : Z) : list Z :=
  aset (aset (aset (aset d cp d.[cp + 3]) (cp + 1) d.[cp + 2]) (cp + 2) d.[cp + 1]) (cp + 3) d.[cp].

Definition byte_reverse (d : list Z) (count : Z) : list Z :=
  for_range 0 (count / L) (fun i d => swap4 d (i * L)) d.

Definition set_data (d : list Z) (s : SHA_INFO) : SHA_INFO :=
  mkSHA (digest s) (count_lo s) (count_hi s) d.

Definition sha_init (s : SHA_INFO) : SHA_INFO :=
  mkSHA [0x67452301; 0xefcdab89; 0x98badcfe; 0x10325476; 0xc3d2e1f0] 0 0 (data s).

(** The [while] loop of [sha_update] and the [memcpy] after it; [fuel] bounds
    the number of blocks. *)
Fixpoint update_blocks (fuel : nat) (buffer : list Z) (count : Z) (s : SHA_INFO) : SHA_INFO :=
  match fuel with
  | O => s
  | S f =>
      if count >=? SHA_BLOCKSIZE then
        let d := byte_reverse (memcpy (data s) buffer SHA_BLOCKSIZE) SHA_BLOCKSIZE in
        update_blocks f (skipn (Z.to_nat SHA_BLOCKSIZE) buffer) (count - SHA_BLOCKSIZE)
          (sha_transform (set_data d s))
      else set_data (memcpy (data s) buffer count) s
  end.

Definition sha_update (s : SHA_INFO) (buffer : list Z) (count : Z) : SHA_INFO :=
  let hi := if LONG (count_lo s + LONG (LONG count << 3)) <? count_lo s
            then LONG (count_hi s + 1) else count_hi s in
  let lo := LONG (count_lo s + LONG (LONG count << 3)) in
  let hi := LONG (hi + (LONG count >> 29)) in
  update_blocks (S (length buffer)) buffer count (mkSHA (digest s) lo hi (data s)).

Definition sha_final (s : SHA_INFO) : SHA_INFO :=
  let lo_bit_count := count_lo s in
  let hi_bit_count := count_hi s in
  let count := i32 ((lo_bit_count >> 3) .& 0x3f) in
  let d := aset (data s) count 0x80 in
  let count := count + 1 in
  let s := if count >? 56 then
      let d := memset0 d count (64 - count) in
      let s := sha_transform (set_data (byte_reverse d SHA_BLOCKSIZE) s) in
      set_data (memset0 (data s) 0 56) s
    else set_data (memset0 d count (56 - count)) s in
  let d := byte_reverse (data s) SHA_BLOCKSIZE in
  sha_transform (set_data (put_long (put_long d 14 hi_bit_count) 15 lo_bit_count) s).

(** [sha_stream] on the bytes of the stream: [fread] returns a full block as
    long as there is one. *)
Fixpoint stream_loop (fuel : nat) (fin : list Z) (s : SHA_INFO) : SHA_INFO :=
  match fuel with
  | O => s
  | S f =>
      let block := firstn (Z.to_nat BLOCK_SIZE) fin in
      let i := Z.of_nat (length block) in
      if i >? 0 then stream_loop f (skipn (Z.to_nat BLOCK_SIZE) fin) (sha_update s block i)
      else s
  end.

Definition sha_stream (s : SHA_INFO) (fin : list Z) : SHA_INFO :=
  sha_final (stream_loop (S (length fin)) fin (sha_init s)).

End Target.

(** ** Specification: FIPS 180 *)

Module Fips180.

(** Left rotation of a 32-bit word. *)
Definition rotl (n x : Z) : Z := (x * 2 ^ n) mod 2 ^ 32 + x / 2 ^ (32 - n).

Definition ft (t x y z : Z) : Z :=
  if t <? 20 then (x .& y) .| (Z.lnot x .& z)
  else if t <? 40 then x .^ y .^ z
  else if t <? 60 then (x .& y) .| (x .& z) .| (y .& z)
  else x .^ y .^ z.

Definition Kt (t : Z) : Z :=
  if t <? 20 then 0x5a827999 else if t <? 40 then 0x6ed9eba1
  else if t <? 60 then 0x8f1bbcdc else 0xca62c1d6.

(** The message schedule: [n] more words. *)
Fixpoint expand (n : nat) (W : list Z) : list Z :=
  match n with
  | O => W
  | S m =>
      let t := Z.of_nat (length W) in
      expand m (W ++ [W.[t - 3] .^ W.[t - 8] .^ W.[t - 14] .^ W.[t - 16]])
  end.

Definition round (W : list Z) (t : Z) (r : regs) : regs :=
  let '(A, B, C, D, E) := r in
  ((rotl 5 A + ft t B C D + E + W.[t] + Kt t) mod 2 ^ 32, A, rotl 30 B, C, D).

(** A block is 64 bytes; a word is four of them, the highest first. *)
Definition block_words (M : list Z) : list Z :=
  map (fun i => let i := 4 * Z.of_nat i in
    2 ^ 24 * M.[i] + 2 ^ 16 * M.[i + 1] + 2 ^ 8 * M.[i + 2] + M.[i + 3]) (seq 0 16).

Definition compress (H M : list Z) : list Z :=
  let W := expand 64 (block_words M) in
  let '(A, B, C, D, E) := for_range 0 80 (round W) (H.[0], H.[1], H.[2], H.[3], H.[4]) in
  map (fun x => x mod 2 ^ 32) [H.[0] + A; H.[1] + B; H.[2] + C; H.[3] + D; H.[4] + E].

Definition H0 : list Z := [0x67452301; 0xefcdab89; 0x98badcfe; 0x10325476; 0xc3d2e1f0].

(** The padding: a one bit, zeros, and the length in bits as 64 bits. *)
Definition pad (msg : list Z) : list Z :=
  let n := Z.of_nat (length msg) in
  msg ++ [128] ++ repeat 0 (Z.to_nat ((55 - n) mod 64)) ++ rev (le_bytes 8 (8 * n)).

Fixpoint hash_blocks (n : nat) (H msg : list Z) : list Z :=
  match n with
  | O => H
  | S m => hash_blocks m (compress H (firstn 64 msg)) (skipn 64 msg)
  end.

Definition sha (msg : list Z) : list Z :=
  hash_blocks (length (pad msg) / 64) H0 (pad msg).

End Fips180.

(** The published digest of "abc". *)
Example sha_abc : Fips180.sha [97; 98; 99] =
  [0x0164b8a9; 0x14cd2a5e; 0x74c4f7ff; 0x082c4d97; 0xf1edf880].
Proof. vm_compute. reflexivity. Qed.

Example sha_stream_abc :
  digest (sha_stream 4 (mkSHA [] 0 0 (repeat 7 64)) [97; 98; 99]) =
  [0x0164b8a9; 0x14cd2a5e; 0x74c4f7ff; 0x082c4d97; 0xf1edf880].
Proof. vm_compute. reflexivity. Qed.

(** ** Byte order *)

(** A 4-byte long of the array, from its bytes. *)
Lemma get_long_bytes d i : 0 <= i -> 4 * i + 4 <= Z.of_nat (length d) ->
  get_long 4 d i = d.[4 * i] + 256 * (d.[4 * i + 1] + 256 * (d.[4 * i + 2] + 256 * d.[4 * i + 3])).
Proof.
  intros Hi Hl. unfold get_long. change (Z.to_nat 4) with 4%nat.
  set (n := Z.to_nat (i * 4)).
  do 4 rewrite skipn_aget by lia. cbn [firstn le_value].
  replace (Z.of_nat n) with (4 * i) by lia. replace (Z.of_nat (S n)) with (4 * i + 1) by lia.
  replace (Z.of_nat (S (S n))) with (4 * i + 2) by lia.
  replace (Z.of_nat (S (S (S n)))) with (4 * i + 3) by lia. lia.
Qed.

(** [byte_reverse] turns round the bytes of every word of a block. *)
Lemma byte_reverse_spec d : (64 <= length d)%nat ->
  length (byte_reverse 4 d 64) = length d /\
  forall i k, 0 <= i < 16 -> 0 <= k < 4 -> (byte_reverse 4 d 64).[4 * i + k] = d.[4 * i + (3 - k)].
Proof.
  intros Hl. unfold byte_reverse. change (64 / 4) with 16.
  enough (H : length (for_range 0 16 (fun i d => swap4 d (i * 4)) d) = length d /\
    forall i k, 0 <= i < 16 -> 0 <= k < 4 ->
      (for_range 0 16 (fun i d => swap4 d (i * 4)) d).[4 * i + k] =
      if i <? 16 then d.[4 * i + (3 - k)] else d.[4 * i + k]).
  { destruct H as [H1 H2]. split; [assumption |]. intros i k Hi Hk. rewrite H2 by assumption.
    destruct (Z.ltb_spec i 16); [reflexivity | lia]. }
  apply (for_range_ind (fun n x => length x = length d /\ forall i k, 0 <= i < 16 -> 0 <= k < 4 ->
    x.[4 * i + k] = if i <? n then d.[4 * i + (3 - k)] else d.[4 * i + k])); [lia | |].
  - split; [reflexivity |]. intros i k Hi Hk. destruct (Z.ltb_spec i 0); [lia | reflexivity].
  - intros n x Hn [Hlx IH]. unfold swap4. rewrite !aset_length. split; [assumption |].
    intros i k Hi Hk. rewrite !aget_aset by (rewrite ?aset_length; lia).
    pose proof (IH n 0 ltac:(lia) ltac:(lia)) as E0. pose proof (IH n 1 ltac:(lia) ltac:(lia)) as E1.
    pose proof (IH n 2 ltac:(lia) ltac:(lia)) as E2. pose proof (IH n 3 ltac:(lia) ltac:(lia)) as E3.
    rewrite Z.ltb_irrefl in *. replace (n * 4) with (4 * n) by lia. rewrite Z.add_0_r in E0.
    rewrite E0, E1, E2, E3.
    destruct (Z.eqb_spec i n) as [->|Hne].
    + destruct (Z.ltb_spec n (n + 1)); [| lia].
      assert (k = 0 \/ k = 1 \/ k = 2 \/ k = 3) as [->|[->|[->| ->]]] by lia;
        zcases; try lia; f_equal; lia.
    + rewrite IH by assumption. zcases; try lia; reflexivity.
Qed.

(** The array holds the words of the block [M]. *)
Definition holds (d M : list Z) : Prop :=
  forall i, 0 <= i < 16 -> get_long 4 d i = (Fips180.block_words M).[i].

Lemma block_word M i : 0 <= i < 16 -> (Fips180.block_words M).[i] =
  2 ^ 24 * M.[4 * i] + 2 ^ 16 * M.[4 * i + 1] + 2 ^ 8 * M.[4 * i + 2] + M.[4 * i + 3].
Proof.
  intros Hi. unfold Fips180.block_words, aget at 1.
  set (f := fun i => _). rewrite (nth_indep _ 0 (f 0%nat)) by (rewrite length_map, length_seq; lia).
  rewrite map_nth, seq_nth by lia. subst f; cbv zeta beta.
  now replace (4 * Z.of_nat (0 + Z.to_nat i)) with (4 * i) by lia.
Qed.

Lemma block_words_length M : length (Fips180.block_words M) = 16%nat.
Proof. unfold Fips180.block_words. now rewrite length_map, length_seq. Qed.

(** After [byte_reverse] the array holds the block that was copied to it. *)
Lemma byte_reverse_word d M i : (64 <= length d)%nat -> 0 <= i < 16 ->
  (forall k, 0 <= k < 4 -> d.[4 * i + k] = M.[4 * i + k]) ->
  get_long 4 (byte_reverse 4 d 64) i = (Fips180.block_words M).[i].
Proof.
  intros Hl Hi HM. destruct (byte_reverse_spec d Hl) as [Hlr Hr].
  set (R := byte_reverse 4 d 64) in *. clearbody R.
  rewrite get_long_bytes, block_word by lia.
  pose proof (Hr i 0 Hi ltac:(lia)) as E0. rewrite Z.add_0_r in E0.
  rewrite E0, (Hr i 1), (Hr i 2), (Hr i 3) by lia.
  replace (3 - 0) with 3 by lia. replace (3 - 1) with 2 by lia.
  replace (3 - 2) with 1 by lia. replace (3 - 3) with 0 by lia.
  pose proof (HM 0 ltac:(lia)) as M0. rewrite Z.add_0_r in M0.
  rewrite Z.add_0_r, M0, (HM 1), (HM 2), (HM 3) by lia. lia.
Qed.

(** ** One block *)

Lemma expand_snoc n W : let X := Fips180.expand n W in let t := Z.of_nat (length X) in
  Fips180.expand (S n) W = X ++ [X.[t - 3] .^ X.[t - 8] .^ X.[t - 14] .^ X.[t - 16]].
Proof.
  revert W; induction n as [|n IH]; intros W; [reflexivity |].
  cbn zeta. change (Fips180.expand (S (S n)) W) with (Fips180.expand (S n)
    (W ++ [W.[Z.of_nat (length W) - 3] .^ W.[Z.of_nat (length W) - 8] .^
           W.[Z.of_nat (length W) - 14] .^ W.[Z.of_nat (length W) - 16]])).
  rewrite IH. reflexivity.
Qed.

Lemma expand_length n W : length (Fips180.expand n W) = (length W + n)%nat.
Proof.
  induction n as [|n IH]; [simpl; lia |]. rewrite expand_snoc, length_app, IH. simpl; lia.
Qed.

Lemma sha_schedule_spec d M : holds d M ->
  forall i, 0 <= i < 80 -> (sha_schedule 4 d).[i] = (Fips180.expand 64 (Fips180.block_words M)).[i].
Proof.
  intros Hh. unfold sha_schedule.
  assert (H1 : length (for_range 0 16 (fun i W => aset W i (get_long 4 d i)) (repeat 0 80)) = 80%nat /\
    forall i, 0 <= i < 16 -> (for_range 0 16 (fun i W => aset W i (get_long 4 d i)) (repeat 0 80)).[i] =
      (Fips180.block_words M).[i]).
  { apply (for_range_ind (fun k W => length W = 80%nat /\
      forall i, 0 <= i < k -> W.[i] = (Fips180.block_words M).[i])); [lia | split; [reflexivity | lia] |].
    intros k W Hk [Hl IH]. rewrite aset_length. split; [assumption |]. intros i Hi.
    rewrite aget_aset by lia. destruct (Z.eqb_spec i k) as [->|]; [now apply Hh | apply IH; lia]. }
  set (W0 := for_range 0 16 _ _) in *. clearbody W0. destruct H1 as [Hl0 H0].
  set (W1 := for_range 16 80 _ _).
  enough (H : length W1 = 80%nat /\ forall i, 0 <= i < 80 ->
    W1.[i] = (Fips180.expand (Z.to_nat (80 - 16)) (Fips180.block_words M)).[i]) by apply H.
  apply (for_range_ind (fun k W => length W = 80%nat /\ forall i, 0 <= i < k ->
    W.[i] = (Fips180.expand (Z.to_nat (k - 16)) (Fips180.block_words M)).[i])).
  - lia.
  - split; [assumption |]. intros i Hi. now rewrite H0.
  - intros k W Hk [Hl IH]. rewrite aset_length. split; [assumption |]. intros i Hi.
    replace (Z.to_nat (k + 1 - 16)) with (S (Z.to_nat (k - 16))) by lia.
    rewrite expand_snoc. set (X := Fips180.expand (Z.to_nat (k - 16)) _) in *.
    assert (HX : Z.of_nat (length X) = k)
      by (subst X; rewrite expand_length, block_words_length; lia).
    rewrite aget_aset by lia. destruct (Z.eqb_spec i k) as [->|Hne].
    + rewrite aget_app_r, HX, Z.sub_diag by lia. rewrite !IH by lia. reflexivity.
    + rewrite aget_app_l by lia. apply IH. lia.
Qed.

(** ** Rotations and complements *)

Lemma rotl_ROT32 n x : 0 < n < 32 -> is_u32 x -> ROT32 4 x n = Fips180.rotl n x.
Proof.
  intros Hn Hx. unfold ROT32, Fips180.rotl, LONG, zext, is_u32 in *. change (8 * 4) with 32.
  rewrite shiftl_mul, shiftr_div by lia.
  assert (Hp : 2 ^ 32 = 2 ^ n * 2 ^ (32 - n)) by (rewrite <- Z.pow_add_r by lia; f_equal; lia).
  assert (0 < 2 ^ n) by (apply Z.pow_pos_nonneg; lia).
  assert (0 < 2 ^ (32 - n)) by (apply Z.pow_pos_nonneg; lia).
  rewrite Hp, (Z.mul_comm x), Z.mul_mod_distr_l by lia.
  rewrite Z.lor_comm, lor_split; [lia | lia |].
  split; [apply Z.div_pos; lia |]. apply Z.div_lt_upper_bound; lia.
Qed.

Lemma rotl_word n x : 0 < n < 32 -> is_u32 x -> is_u32 (Fips180.rotl n x).
Proof.
  intros Hn Hx. rewrite <- rotl_ROT32 by assumption. unfold ROT32.
  apply lor_word; [apply zext_word |]. unfold is_u32 in *. rewrite shiftr_div by lia.
  assert (0 < 2 ^ (32 - n)) by (apply Z.pow_pos_nonneg; lia).
  split; [apply Z.div_pos; lia |]. apply Z.div_lt_upper_bound; nia.
Qed.

Lemma not_long_land x z : is_u32 z -> not_long 4 x .& z = Z.lnot x .& z.
Proof.
  intros Hz. unfold not_long, LONG. change (8 * 4) with 32.
  rewrite <- (proj1 (word_zext z) Hz) at 1. rewrite <- zext_land by lia.
  apply word_zext, land_word, Hz.
Qed.

(** ** Rounds *)

Definition regs_ok (r : regs) : Prop :=
  let '(A, B, C, D, E) := r in is_u32 A /\ is_u32 B /\ is_u32 C /\ is_u32 D /\ is_u32 E.

Lemma round_ok W t r : regs_ok r -> regs_ok (Fips180.round W t r).
Proof.
  destruct r as [[[[A B] C] D] E]. intros (HA & HB & HC & HD & HE).
  repeat split; try apply HA; try apply HC; try apply HD; try (apply (rotl_word 30 B); [lia | assumption]);
    apply (zext_word (Fips180.rotl 5 A + Fips180.ft t B C D + E + W.[t] + Fips180.Kt t)).
Qed.

(** A step of the code, for the function and constant of its range, is a round. *)
Lemma FUNC_round f K W W' i r : regs_ok r -> W.[i] = W'.[i] ->
  (forall x y z, is_u32 z -> f x y z = Fips180.ft i x y z) -> K = Fips180.Kt i ->
  FUNC 4 f K W i r = Fips180.round W' i r.
Proof.
  destruct r as [[[[A B] C] D] E]. intros (HA & HB & HC & HD & HE) HW Hf ->.
  unfold FUNC, Fips180.round. rewrite !rotl_ROT32, HW, Hf by (lia || assumption). reflexivity.
Qed.

Lemma rounds_range f K W W' lo hi r : lo <= hi -> regs_ok r ->
  (forall i, lo <= i < hi -> W.[i] = W'.[i]) ->
  (forall i, lo <= i < hi -> K = Fips180.Kt i) ->
  (forall i x y z, lo <= i < hi -> is_u32 z -> f x y z = Fips180.ft i x y z) ->
  for_range lo hi (FUNC 4 f K W) r = for_range lo hi (Fips180.round W') r /\
  regs_ok (for_range lo hi (Fips180.round W') r).
Proof.
  intros Hle Hr HW HK Hf. apply (for_range_sim regs_ok); auto.
  intros i x Hi Hx. split; [apply FUNC_round; auto | now apply round_ok].
Qed.

(** The side conditions of [rounds_range] for a concrete range. *)
Ltac round_side HW :=
  first [ lia | assumption | intros; apply HW; lia
        | intros; unfold Fips180.Kt; zcases; (reflexivity || lia)
        | intros; unfold f1, f2, f3, f4, Fips180.ft; rewrite ?not_long_land by assumption;
          zcases; (reflexivity || lia) ].

Definition digest_ok (H : list Z) : Prop := length H = 5%nat /\ Forall is_u32 H.

Lemma digest_word H i : digest_ok H -> is_u32 H.[i].
Proof. intros [_ HF]. apply Forall_aget; [unfold is_u32; lia | assumption]. Qed.

Lemma compress_ok H M : digest_ok (Fips180.compress H M).
Proof.
  unfold Fips180.compress. destruct (for_range _ _ _ _) as [[[[A B] C] D] E].
  split; [reflexivity |]. repeat (apply Forall_cons; [apply zext_word |]). apply Forall_nil.
Qed.

(** [sha_transform] is the compression function of the standard. *)
Lemma sha_transform_compress s M : holds (data s) M -> digest_ok (digest s) ->
  sha_transform 4 s =
  mkSHA (Fips180.compress (digest s) M) (count_lo s) (count_hi s) (data s).
Proof.
  intros Hh Hd. unfold sha_transform, Fips180.compress.
  pose proof (sha_schedule_spec (data s) M Hh) as HW.
  set (W := sha_schedule 4 (data s)) in *. set (W' := Fips180.expand 64 _) in *. clearbody W W'.
  set (r := ((digest s).[0], (digest s).[1], (digest s).[2], (digest s).[3], (digest s).[4])).
  assert (Hr : regs_ok r) by (repeat split; apply digest_word; assumption).
  clearbody r.
  rewrite (for_range_split 0 20 80), (for_range_split 20 40 80), (for_range_split 40 60 80) by lia.
  destruct (rounds_range (f1 4) CONST1 W W' 0 20 r) as [-> Hr1]; try round_side HW.
  set (r1 := for_range 0 20 (Fips180.round W') r) in *.
  destruct (rounds_range f2 CONST2 W W' 20 40 r1) as [-> Hr2]; try round_side HW.
  set (r2 := for_range 20 40 (Fips180.round W') r1) in *.
  destruct (rounds_range f3 CONST3 W W' 40 60 r2) as [-> Hr3]; try round_side HW.
  set (r3 := for_range 40 60 (Fips180.round W') r2) in *.
  destruct (rounds_range f4 CONST4 W W' 60 80 r3) as [-> _]; try round_side HW.
  destruct (for_range 60 80 _ _) as [[[[A B] C] D] E]. reflexivity.
Qed.

(** ** Blocks of a message *)

Lemma hash_blocks_0 H x : Fips180.hash_blocks 0 H x = H.
Proof. reflexivity. Qed.

Lemma hash_blocks_S n H x : Fips180.hash_blocks (S n) H x =
  Fips180.hash_blocks n (Fips180.compress H (firstn 64 x)) (skipn 64 x).
Proof. reflexivity. Qed.

Lemma hash_blocks_add a b H x : Fips180.hash_blocks (a + b) H x =
  Fips180.hash_blocks b (Fips180.hash_blocks a H x) (skipn (64 * a) x).
Proof.
  revert H x; induction a as [|a IH]; intros H x; [reflexivity |].
  change (S a + b)%nat with (S (a + b)). rewrite !hash_blocks_S, IH, skipn_skipn.
  do 2 f_equal. lia.
Qed.

Lemma hash_blocks_app n H x y : (64 * n <= length x)%nat ->
  Fips180.hash_blocks n H (x ++ y) = Fips180.hash_blocks n H x.
Proof.
  revert H x; induction n as [|n IH]; intros H x Hl; [reflexivity |]. rewrite !hash_blocks_S.
  rewrite firstn_app, skipn_app. replace (64 - length x)%nat with 0%nat by lia.
  change (firstn 0 y) with (@nil Z). rewrite app_nil_r. apply IH. rewrite length_skipn. lia.
Qed.

Lemma hash_blocks_ok n H x : digest_ok H -> digest_ok (Fips180.hash_blocks n H x).
Proof.
  revert H x; induction n as [|n IH]; intros H x HH; [assumption |].
  apply IH, compress_ok.
Qed.

Lemma memcpy_length d s n : 0 <= n <= Z.of_nat (length s) -> n <= Z.of_nat (length d) ->
  length (memcpy d s n) = length d.
Proof. intros Hn Hd. unfold memcpy. rewrite length_app, length_firstn, length_skipn. lia. Qed.

(** What a copied and reversed block becomes. *)
Definition loaded (s : SHA_INFO) (buffer : list Z) : list Z :=
  byte_reverse 4 (memcpy (data s) buffer SHA_BLOCKSIZE) SHA_BLOCKSIZE.

Lemma loaded_spec s buffer : length (data s) = 64%nat -> (64 <= length buffer)%nat ->
  length (loaded s buffer) = 64%nat /\ holds (loaded s buffer) (firstn 64 buffer).
Proof.
  intros Hl Hb. unfold loaded, SHA_BLOCKSIZE.
  assert (Hm : length (memcpy (data s) buffer 64) = 64%nat) by (rewrite memcpy_length; lia).
  split.
  - destruct (byte_reverse_spec (memcpy (data s) buffer 64)) as [-> _]; [lia | assumption].
  - intros i Hi. apply byte_reverse_word; [lia | assumption |]. intros k Hk.
    unfold memcpy. rewrite aget_app_l by (rewrite length_firstn; lia). reflexivity.
Qed.

Lemma block_transform s buffer : length (data s) = 64%nat -> (64 <= length buffer)%nat ->
  digest_ok (digest s) ->
  sha_transform 4 (set_data (loaded s buffer) s) =
  mkSHA (Fips180.compress (digest s) (firstn 64 buffer)) (count_lo s) (count_hi s)
    (loaded s buffer).
Proof.
  intros Hl Hb Hd. destruct (loaded_spec s buffer Hl Hb) as [_ Hh].
  generalize dependent (loaded s buffer). intros d Hh.
  rewrite (sha_transform_compress (set_data d s) (firstn 64 buffer) Hh Hd). reflexivity.
Qed.

(** ** [sha_update] *)

(** The state after the message [msg], started from the digest [H] and [n] bytes:
    its whole blocks are hashed and the rest is at the front of the buffer. *)
Record absorbed (H : list Z) (n : Z) (msg : list Z) (s : SHA_INFO) : Prop := {
  ab_digest : digest s = Fips180.hash_blocks (length msg / 64) H msg;
  ab_digest_ok : digest_ok (digest s);
  ab_lo : is_u32 (count_lo s);
  ab_hi : is_u32 (count_hi s);
  ab_count : count_hi s * 2 ^ 32 + count_lo s = 8 * (n + Z.of_nat (length msg));
  ab_len : length (data s) = 64%nat;
  ab_rest : firstn (length msg mod 64) (data s) = skipn (64 * (length msg / 64)) msg
}.

Lemma update_blocks_S f buffer count s : update_blocks 4 (S f) buffer count s =
  if count >=? SHA_BLOCKSIZE then
    update_blocks 4 f (skipn (Z.to_nat SHA_BLOCKSIZE) buffer) (count - SHA_BLOCKSIZE)
      (sha_transform 4 (set_data (loaded s buffer) s))
  else set_data (memcpy (data s) buffer count) s.
Proof. unfold loaded. reflexivity. Qed.

Lemma update_blocks_spec fuel buffer s : (length buffer < fuel)%nat ->
  length (data s) = 64%nat -> digest_ok (digest s) ->
  let s' := update_blocks 4 fuel buffer (Z.of_nat (length buffer)) s in
  digest s' = Fips180.hash_blocks (length buffer / 64) (digest s) buffer /\
  count_lo s' = count_lo s /\ count_hi s' = count_hi s /\ length (data s') = 64%nat /\
  firstn (length buffer mod 64) (data s') = skipn (64 * (length buffer / 64)) buffer.
Proof.
  revert buffer s; induction fuel as [|f IH]; intros buffer s Hf Hl Hd; [lia |].
  rewrite update_blocks_S, Z.geb_leb. change (Z.to_nat SHA_BLOCKSIZE) with 64%nat.
  destruct (Z.leb_spec SHA_BLOCKSIZE (Z.of_nat (length buffer))) as [Hge|Hlt]; unfold SHA_BLOCKSIZE in Hge || unfold SHA_BLOCKSIZE in Hlt.
  - rewrite block_transform by (assumption || lia).
    destruct (loaded_spec s buffer Hl ltac:(lia)) as [Hl' _].
    generalize dependent (loaded s buffer). intros d Hl'.
    assert (Hlen : length buffer = (length (skipn 64 buffer) + 1 * 64)%nat) by (rewrite length_skipn; lia).
    replace (Z.of_nat (length buffer) - SHA_BLOCKSIZE) with (Z.of_nat (length (skipn 64 buffer)))
      by (unfold SHA_BLOCKSIZE; lia).
    assert (Hdiv : (length buffer / 64 = S (length (skipn 64 buffer) / 64))%nat)
      by (rewrite Hlen at 1; rewrite Nat.div_add by lia; lia).
    assert (Hmod : (length buffer mod 64 = length (skipn 64 buffer) mod 64)%nat)
      by (rewrite Hlen at 1; apply Nat.Div0.mod_add).
    rewrite Hdiv, Hmod.
    rewrite hash_blocks_S.
    pose proof (compress_ok (digest s) (firstn 64 buffer)) as HD.
    generalize dependent (Fips180.compress (digest s) (firstn 64 buffer)). intros D HD.
    destruct (IH (skipn 64 buffer) (mkSHA D (count_lo s) (count_hi s) d))
      as (H1 & H2 & H3 & H4 & H5); [lia | exact Hl' | exact HD |].
    cbn [digest count_lo count_hi] in *.
    split; [exact H1 | split; [exact H2 | split; [exact H3 | split; [exact H4 |]]]].
    rewrite H5, skipn_skipn. f_equal. lia.
  - rewrite Nat.div_small, Nat.mod_small by lia. cbn [set_data digest count_lo count_hi data].
    assert (Hm : length (memcpy (data s) buffer (Z.of_nat (length buffer))) = length (data s))
      by (apply memcpy_length; lia).
    repeat split; [now rewrite Hm |]. unfold memcpy. rewrite Nat2Z.id, firstn_all.
    rewrite firstn_app, firstn_all, Nat.sub_diag. apply app_nil_r.
Qed.

(** The bit count of [sha_update], with its carry. *)
Lemma update_count lo hi c : is_u32 lo -> is_u32 hi -> 0 <= c <= BLOCK_SIZE ->
  hi * 2 ^ 32 + lo + 8 * c < 2 ^ 64 ->
  let lo' := LONG 4 (lo + LONG 4 (LONG 4 c << 3)) in
  let hi' := LONG 4 ((if lo' <? lo then LONG 4 (hi + 1) else hi) + (LONG 4 c >> 29)) in
  is_u32 lo' /\ is_u32 hi' /\ hi' * 2 ^ 32 + lo' = hi * 2 ^ 32 + lo + 8 * c.
Proof.
  intros Hlo Hhi Hc Hlim lo' hi'. unfold is_u32, BLOCK_SIZE in Hlo, Hhi, Hc |- *.
  assert (E3 : LONG 4 (LONG 4 c << 3) = 8 * c).
  { unfold LONG. change (8 * 4) with 32. rewrite (zext_id 32 c), shiftl_mul, zext_id by lia. lia. }
  assert (E29 : LONG 4 c >> 29 = 0).
  { unfold LONG. change (8 * 4) with 32. rewrite (zext_id 32 c), shiftr_div, Z.div_small by lia. reflexivity. }
  unfold hi', lo'. rewrite E3, E29, Z.add_0_r. unfold LONG, zext. change (8 * 4) with 32.
  destruct (Z.ltb_spec (lo + 8 * c) (2 ^ 32)) as [Hs|Hs].
  - rewrite (Z.mod_small (lo + 8 * c)) by lia. destruct (Z.ltb_spec (lo + 8 * c) lo); [lia |].
    rewrite (Z.mod_small hi) by lia. lia.
  - replace ((lo + 8 * c) mod 2 ^ 32) with (lo + 8 * c - 2 ^ 32)
      by (apply (Z.mod_unique _ _ 1); lia).
    destruct (Z.ltb_spec (lo + 8 * c - 2 ^ 32) lo); [| lia].
    rewrite Z.mod_mod, (Z.mod_small (hi + 1)) by lia. lia.
Qed.

Lemma sha_update_absorbed H n s buffer : absorbed H n [] s ->
  Z.of_nat (length buffer) <= BLOCK_SIZE -> 8 * (n + Z.of_nat (length buffer)) < 2 ^ 64 ->
  absorbed H n buffer (sha_update 4 s buffer (Z.of_nat (length buffer))).
Proof.
  intros [Hdg Hok Hlo Hhi Hc Hl _] Hb Hlim. cbn [length] in Hc. unfold sha_update.
  destruct (update_count (count_lo s) (count_hi s) (Z.of_nat (length buffer)))
    as (Hlo' & Hhi' & Hc'); try assumption; [lia | lia |].
  cbv zeta in Hlo', Hhi', Hc'. set (lo' := LONG 4 (count_lo s + _)) in *.
  set (hi' := LONG 4 (_ + (LONG 4 (Z.of_nat (length buffer)) >> 29))) in *. clearbody lo' hi'.
  destruct (update_blocks_spec (S (length buffer)) buffer (mkSHA (digest s) lo' hi' (data s)))
    as (H1 & H2 & H3 & H4 & H5); [lia | exact Hl | exact Hok |].
  cbn [digest count_lo count_hi] in *. change (digest s = H) in Hdg. rewrite <- Hdg.
  split; auto; rewrite ?H1, ?H2, ?H3; auto; [| lia]. now apply hash_blocks_ok.
Qed.

(** ** [sha_stream] *)

Lemma absorbed_start H n x s : absorbed H n x s -> (length x mod 64 = 0)%nat ->
  absorbed (digest s) (n + Z.of_nat (length x)) [] s.
Proof. intros [] Hm. split; auto. simpl length. lia. Qed.

Lemma absorbed_app H n x y s s' : absorbed H n x s -> (length x mod 64 = 0)%nat ->
  absorbed (digest s) (n + Z.of_nat (length x)) y s' -> absorbed H n (x ++ y) s'.
Proof.
  intros Hx Hm Hy. pose proof (Nat.div_mod (length x) 64) as Hd.
  assert (Hdiv : (length (x ++ y) / 64 = length x / 64 + length y / 64)%nat).
  { rewrite length_app. replace (length x + length y)%nat with (length y + length x / 64 * 64)%nat by lia.
    rewrite Nat.div_add by lia. lia. }
  assert (Hmod : (length (x ++ y) mod 64 = length y mod 64)%nat).
  { rewrite length_app. replace (length x + length y)%nat with (length y + length x / 64 * 64)%nat by lia.
    apply Nat.Div0.mod_add. }
  assert (Hsk : skipn (64 * (length x / 64)) (x ++ y) = y).
  { replace (64 * (length x / 64))%nat with (length x) by lia.
    rewrite skipn_app, skipn_all, Nat.sub_diag. reflexivity. }
  destruct Hx as [Hdx _ _ _ _ _ _], Hy as [Hdy Hok Hlo Hhi Hc Hl Hr]. split; auto.
  - rewrite Hdy, Hdiv, hash_blocks_add, Hsk, hash_blocks_app, Hdx by lia. reflexivity.
  - rewrite Hc, length_app. lia.
  - rewrite Hmod, Hdiv, Hr, Nat.mul_add_distr_l, Nat.add_comm, <- skipn_skipn, Hsk. reflexivity.
Qed.

Lemma stream_loop_S f fin s : stream_loop 4 (S f) fin s =
  if Z.of_nat (length (firstn (Z.to_nat BLOCK_SIZE) fin)) >? 0 then
    stream_loop 4 f (skipn (Z.to_nat BLOCK_SIZE) fin)
      (sha_update 4 s (firstn (Z.to_nat BLOCK_SIZE) fin)
         (Z.of_nat (length (firstn (Z.to_nat BLOCK_SIZE) fin))))
  else s.
Proof. reflexivity. Qed.

Lemma stream_loop_nil fuel s : stream_loop 4 fuel [] s = s.
Proof. destruct fuel; [reflexivity |]. now rewrite stream_loop_S, firstn_nil. Qed.

Lemma stream_absorbed fuel fin H n s : absorbed H n [] s -> (length fin < fuel)%nat ->
  8 * (n + Z.of_nat (length fin)) < 2 ^ 64 -> absorbed H n fin (stream_loop 4 fuel fin s).
Proof.
  assert (HB : Z.of_nat (Z.to_nat BLOCK_SIZE) = BLOCK_SIZE) by reflexivity.
  revert fin H n s; induction fuel as [|f IH]; intros fin H n s Hs Hf Hlim; [lia |].
  rewrite stream_loop_S. set (B := Z.to_nat BLOCK_SIZE) in *. clearbody B.
  unfold BLOCK_SIZE in HB. rewrite Z.gtb_ltb.
  destruct (Z.ltb_spec 0 (Z.of_nat (length (firstn B fin)))) as [Hp|Hz]; rewrite length_firstn in *.
  - pose proof (sha_update_absorbed H n s (firstn B fin) Hs) as Hu. rewrite length_firstn in Hu.
    specialize (Hu ltac:(unfold BLOCK_SIZE; lia) ltac:(lia)).
    set (s1 := sha_update 4 s _ _) in *. clearbody s1.
    destruct (Nat.leb_spec (length fin) B) as [Hle|Hgt].
    + rewrite skipn_all2, stream_loop_nil by lia. now rewrite firstn_all2 in Hu by lia.
    + assert (Hm : (length (firstn B fin) mod 64 = 0)%nat).
      { rewrite length_firstn. replace (Nat.min B (length fin)) with (128 * 64)%nat by lia.
        apply Nat.Div0.mod_mul. }
      pose proof (absorbed_start H n _ s1 Hu Hm) as Hs1.
      rewrite <- (firstn_skipn B fin) at 1. apply (absorbed_app H n _ _ s1); [assumption | assumption |].
      apply IH; [assumption | |]; rewrite ?length_skipn, ?length_firstn; lia.
  - destruct fin; [assumption | simpl length in Hz; lia].
Qed.

(** ** The last block *)

Lemma le_bytes_length n v : length (le_bytes n v) = n.
Proof. revert v; induction n; intros; simpl; auto. Qed.

Lemma le_value_bytes n v : le_value (le_bytes n v) = v mod 256 ^ Z.of_nat n.
Proof.
  revert v; induction n as [|n IH]; intros v; [simpl; now rewrite Z.mod_1_r |].
  cbn [le_bytes le_value]. rewrite IH, Nat2Z.inj_succ, Z.pow_succ_r by lia.
  assert (0 < 256 ^ Z.of_nat n) by (apply Z.pow_pos_nonneg; lia).
  rewrite Z.rem_mul_r by lia. reflexivity.
Qed.

Lemma le_bytes_word v : is_u32 v ->
  (le_bytes 4 v).[0] + 256 * ((le_bytes 4 v).[1] + 256 * ((le_bytes 4 v).[2] + 256 * (le_bytes 4 v).[3])) = v.
Proof.
  intros Hv. rewrite <- (Z.mod_small v (2 ^ 32) Hv) at 5. change (2 ^ 32) with (256 ^ Z.of_nat 4).
  rewrite <- le_value_bytes. generalize (le_bytes_length 4 v). generalize (le_bytes 4 v).
  intros [|b0 [|b1 [|b2 [|b3 [|]]]]]; try discriminate. intros _.
  unfold aget; simpl nth; cbn [le_value]. lia.
Qed.

Lemma put_long_get d i v m : length d = 64%nat -> 0 <= i < 16 -> 0 <= m < 64 ->
  (put_long 4 d i v).[m] =
  if (4 * i <=? m) && (m <? 4 * i + 4) then (le_bytes 4 v).[m - 4 * i] else d.[m].
Proof.
  intros Hl Hi Hm. unfold put_long. change (Z.to_nat 4) with 4%nat.
  assert (H1 : length (firstn (Z.to_nat (i * 4)) d) = Z.to_nat (4 * i)) by (rewrite length_firstn; lia).
  destruct (Z.leb_spec (4 * i) m); cbn [andb].
  - rewrite aget_app_r by lia. rewrite H1, Z2Nat.id by lia. destruct (Z.ltb_spec m (4 * i + 4)).
    + apply aget_app_l. rewrite le_bytes_length. lia.
    + rewrite aget_app_r by (rewrite le_bytes_length; lia). rewrite le_bytes_length.
      unfold aget. rewrite nth_skipn. f_equal. lia.
  - rewrite aget_app_l by lia. apply aget_firstn. lia.
Qed.

Lemma put_long_length d i v : length d = 64%nat -> 0 <= i < 16 -> length (put_long 4 d i v) = 64%nat.
Proof.
  intros Hl Hi. unfold put_long.
  rewrite !length_app, length_firstn, le_bytes_length, length_skipn. lia.
Qed.

Lemma get_put_long d i j v : length d = 64%nat -> 0 <= i < 16 -> 0 <= j < 16 -> is_u32 v ->
  get_long 4 (put_long 4 d i v) j = if j =? i then v else get_long 4 d j.
Proof.
  intros Hl Hi Hj Hv. rewrite !get_long_bytes by (rewrite ?put_long_length by assumption; lia).
  rewrite !put_long_get by lia. destruct (Z.eqb_spec j i) as [->|Hne].
  - replace (4 * i - 4 * i) with 0 by lia. replace (4 * i + 1 - 4 * i) with 1 by lia.
    replace (4 * i + 2 - 4 * i) with 2 by lia. replace (4 * i + 3 - 4 * i) with 3 by lia.
    zcases; cbn [andb]; try lia. now apply le_bytes_word.
  - zcases; cbn [andb]; try lia; reflexivity.
Qed.

Lemma le_bytes_add n m lo hi : 0 <= lo < 256 ^ Z.of_nat n ->
  le_bytes (n + m) (lo + 256 ^ Z.of_nat n * hi) = le_bytes n lo ++ le_bytes m hi.
Proof.
  revert lo; induction n as [|n IH]; intros lo Hlo.
  - change (256 ^ Z.of_nat 0) with 1 in *. cbn [Nat.add app le_bytes]. f_equal. lia.
  - rewrite Nat2Z.inj_succ, Z.pow_succ_r in * by lia.
    assert (0 < 256 ^ Z.of_nat n) by (apply Z.pow_pos_nonneg; lia).
    replace (lo + 256 * 256 ^ Z.of_nat n * hi) with (lo + 256 ^ Z.of_nat n * hi * 256) by lia.
    cbn [le_bytes Nat.add app]. rewrite Z.mod_add, Z.div_add by lia. f_equal. apply IH.
    split; [apply Z.div_pos; lia | apply Z.div_lt_upper_bound; lia].
Qed.

Lemma aget_rev4 (l : list Z) k : length l = 4%nat -> 0 <= k < 4 -> (rev l).[k] = l.[3 - k].
Proof. intros Hl Hk. unfold aget. rewrite rev_nth by lia. f_equal. lia. Qed.

(** The words of a block that ends with the bit count. *)
Lemma length_words p hi lo : length p = 56%nat -> is_u32 hi -> is_u32 lo ->
  let M := p ++ rev (le_bytes 8 (hi * 2 ^ 32 + lo)) in
  (Fips180.block_words M).[14] = hi /\ (Fips180.block_words M).[15] = lo.
Proof.
  intros Hp Hhi Hlo. cbv zeta.
  replace (hi * 2 ^ 32 + lo) with (lo + 256 ^ Z.of_nat 4 * hi) by (change (256 ^ Z.of_nat 4) with (2 ^ 32); lia).
  change 8%nat with (4 + 4)%nat. rewrite le_bytes_add by assumption. rewrite rev_app_distr.
  assert (Hr : forall v, length (rev (le_bytes 4 v)) = 4%nat) by (intros; now rewrite length_rev, le_bytes_length).
  assert (H14 : forall k, 0 <= k < 4 -> (p ++ rev (le_bytes 4 hi) ++ rev (le_bytes 4 lo)).[4 * 14 + k] = (le_bytes 4 hi).[3 - k]).
  { intros k Hk. rewrite aget_app_r, aget_app_l by (rewrite ?Hr; lia).
    replace (4 * 14 + k - Z.of_nat (length p)) with k by lia. apply aget_rev4; [apply le_bytes_length | assumption]. }
  assert (H15 : forall k, 0 <= k < 4 -> (p ++ rev (le_bytes 4 hi) ++ rev (le_bytes 4 lo)).[4 * 15 + k] = (le_bytes 4 lo).[3 - k]).
  { intros k Hk. rewrite aget_app_r, aget_app_r by (rewrite ?Hr; lia). rewrite Hr.
    replace (4 * 15 + k - Z.of_nat (length p) - Z.of_nat 4) with k by lia.
    apply aget_rev4; [apply le_bytes_length | assumption]. }
  set (M := p ++ _) in *. clearbody M. rewrite !block_word by lia.
  pose proof (H14 0 ltac:(lia)) as E. rewrite Z.add_0_r in E. rewrite E, (H14 1), (H14 2), (H14 3) by lia.
  pose proof (H15 0 ltac:(lia)) as F. rewrite Z.add_0_r in F. rewrite F, (H15 1), (H15 2), (H15 3) by lia.
  pose proof (le_bytes_word hi Hhi). pose proof (le_bytes_word lo Hlo).
  change (3 - 0) with 3. change (3 - 1) with 2. change (3 - 2) with 1. change (3 - 3) with 0. lia.
Qed.

Lemma final_holds d p hi lo : length d = 64%nat -> length p = 56%nat -> is_u32 hi -> is_u32 lo ->
  (forall j, 0 <= j < 56 -> d.[j] = p.[j]) ->
  holds (put_long 4 (put_long 4 (byte_reverse 4 d 64) 14 hi) 15 lo)
    (p ++ rev (le_bytes 8 (hi * 2 ^ 32 + lo))).
Proof.
  intros Hd Hp Hhi Hlo Hj i Hi. destruct (length_words p hi lo Hp Hhi Hlo) as [H14 H15].
  destruct (byte_reverse_spec d ltac:(lia)) as [Hrl _]. rewrite Hd in Hrl.
  rewrite !get_put_long by (rewrite ?put_long_length by lia; try lia; assumption).
  destruct (Z.eqb_spec i 15) as [->|]; [now rewrite H15 |].
  destruct (Z.eqb_spec i 14) as [->|]; [now rewrite H14 |].
  apply byte_reverse_word; [lia | assumption |]. intros k Hk.
  rewrite aget_app_l by lia. apply Hj. lia.
Qed.

Lemma memset0_get d o n j : 0 <= o -> 0 <= n -> o + n <= Z.of_nat (length d) -> 0 <= j ->
  (memset0 d o n).[j] = if (o <=? j) && (j <? o + n) then 0 else d.[j].
Proof.
  intros Ho Hn Hl Hj. unfold memset0.
  assert (H1 : length (firstn (Z.to_nat o) d) = Z.to_nat o) by (rewrite length_firstn; lia).
  destruct (Z.leb_spec o j); cbn [andb].
  - rewrite aget_app_r by lia. destruct (Z.ltb_spec j (o + n)).
    + rewrite aget_app_l by (rewrite repeat_length; lia). unfold aget. apply nth_repeat.
    + rewrite aget_app_r by (rewrite repeat_length; lia). rewrite repeat_length.
      unfold aget. rewrite nth_skipn. f_equal. lia.
  - rewrite aget_app_l by lia. apply aget_firstn. lia.
Qed.

Lemma memset0_length d o n : 0 <= o -> 0 <= n -> o + n <= Z.of_nat (length d) ->
  length (memset0 d o n) = length d.
Proof.
  intros Ho Hn Hl. unfold memset0. rewrite !length_app, length_firstn, repeat_length, length_skipn. lia.
Qed.

(** The start of the padding, up to position [P] of the buffer. *)
Lemma pad_bytes d tail P z r : length d = 64%nat -> firstn (length tail) d = tail ->
  Z.of_nat (length tail) + 1 <= P <= 64 -> P <= Z.of_nat (length tail) + 1 + Z.of_nat z ->
  let c := Z.of_nat (length tail) in
  length (memset0 (aset d c 128) (c + 1) (P - (c + 1))) = 64%nat /\
  forall j, 0 <= j < P ->
    (memset0 (aset d c 128) (c + 1) (P - (c + 1))).[j] = (tail ++ [128] ++ repeat 0 z ++ r).[j].
Proof.
  intros Hl Ht HP Hz c. split.
  - rewrite memset0_length; rewrite ?aset_length; lia.
  - intros j Hj. rewrite memset0_get, aget_aset by (rewrite ?aset_length; lia).
    destruct (Z.ltb_spec j c) as [Hlt|Hge].
    + rewrite aget_app_l by lia. replace tail.[j] with d.[j] by (rewrite <- Ht at 1; now rewrite aget_firstn by lia). zcases; try lia; reflexivity.
    + rewrite aget_app_r by lia. destruct (Z.eqb_spec j c) as [->|Hne].
      * replace (c - Z.of_nat (length tail)) with 0 by lia. zcases; try lia; reflexivity.
      * rewrite aget_app_r, aget_app_l by (rewrite ?repeat_length; simpl length; lia).
        unfold aget. rewrite nth_repeat. zcases; try lia; reflexivity.
Qed.

(** ** [sha_final] *)

Lemma final_count lo hi n : is_u32 lo -> hi * 2 ^ 32 + lo = 8 * n ->
  i32 ((lo >> 3) .& 0x3f) = n mod 64.
Proof.
  intros Hlo Hn. change 0x3f with (2 ^ 6 - 1). rewrite land_mask, shiftr_div by lia.
  change (2 ^ 3) with 8. change (2 ^ 6) with 64.
  replace lo with ((n - hi * 2 ^ 29) * 8) by lia. rewrite Z.div_mul by lia.
  replace (n - hi * 2 ^ 29) with (n + - hi * 2 ^ 23 * 64) by lia. rewrite Z.mod_add by lia.
  apply i32_id. unfold is_i32. pose proof (Z.mod_pos_bound n 64 ltac:(lia)). lia.
Qed.

(** The digest of a message from that of its whole blocks. *)
Definition pad_tail (msg : list Z) : list Z :=
  skipn (64 * (length msg / 64)) msg ++ [128] ++
  repeat 0 (Z.to_nat ((55 - Z.of_nat (length msg)) mod 64)) ++
  rev (le_bytes 8 (8 * Z.of_nat (length msg))).

Lemma sha_pad_tail msg : Fips180.sha msg =
  Fips180.hash_blocks (length (pad_tail msg) / 64)
    (Fips180.hash_blocks (length msg / 64) Fips180.H0 msg) (pad_tail msg).
Proof.
  set (q := (length msg / 64)%nat). pose proof (Nat.div_mod (length msg) 64 ltac:(lia)) as Hdm. fold q in Hdm.
  assert (Hf : length (firstn (64 * q) msg) = (64 * q)%nat) by (rewrite length_firstn; lia).
  assert (Hpad : Fips180.pad msg = firstn (64 * q) msg ++ pad_tail msg).
  { unfold pad_tail, Fips180.pad. fold q. now rewrite (app_assoc (firstn (64 * q) msg)), firstn_skipn. }
  unfold Fips180.sha. rewrite Hpad, length_app, Hf.
  replace (64 * q + length (pad_tail msg))%nat with (length (pad_tail msg) + q * 64)%nat by lia.
  rewrite Nat.div_add, Nat.add_comm, hash_blocks_add, hash_blocks_app by lia.
  rewrite skipn_app, Hf, Nat.sub_diag, skipn_all2 by lia. f_equal.
  rewrite <- (firstn_skipn (64 * q) msg) at 2. now rewrite hash_blocks_app by lia.
Qed.

(** The last call of [sha_transform]. *)
Lemma finish_block s p hi lo : length (data s) = 64%nat -> digest_ok (digest s) ->
  length p = 56%nat -> is_u32 hi -> is_u32 lo -> (forall j, 0 <= j < 56 -> (data s).[j] = p.[j]) ->
  digest (sha_transform 4 (set_data
    (put_long 4 (put_long 4 (byte_reverse 4 (data s) SHA_BLOCKSIZE) 14 hi) 15 lo) s)) =
  Fips180.compress (digest s) (p ++ rev (le_bytes 8 (hi * 2 ^ 32 + lo))).
Proof.
  intros Hl Hd Hp Hhi Hlo Hj. pose proof (final_holds (data s) p hi lo Hl Hp Hhi Hlo Hj) as Hh.
  unfold SHA_BLOCKSIZE. set (d := put_long 4 _ 15 lo) in *. clearbody d.
  now rewrite (sha_transform_compress (set_data d s) _ Hh Hd).
Qed.

Section Final.

Variable msg : list Z.
Variable s : SHA_INFO.
Hypothesis Hs : absorbed Fips180.H0 0 msg s.

Let tail := skipn (64 * (length msg / 64)) msg.
Let c := Z.of_nat (length tail).

Lemma tail_length : c = Z.of_nat (length msg) mod 64 /\ 0 <= c < 64.
Proof.
  unfold c, tail. rewrite length_skipn. pose proof (Nat.div_mod (length msg) 64 ltac:(lia)).
  pose proof (Nat.mod_upper_bound (length msg) 64 ltac:(lia)).
  split; [| lia]. change 64 with (Z.of_nat 64) at 1. rewrite <- Nat2Z.inj_mod. lia.
Qed.

Lemma tail_data : firstn (length tail) (data s) = tail.
Proof.
  destruct Hs as [_ _ _ _ _ _ Hr]. fold tail in Hr. rewrite <- Hr at 2. f_equal.
  destruct tail_length as [E _]. apply Nat2Z.inj. fold c. rewrite E, Nat2Z.inj_mod. reflexivity.
Qed.

Let z := Z.to_nat ((55 - Z.of_nat (length msg)) mod 64).
Let lenb := rev (le_bytes 8 (8 * Z.of_nat (length msg))).
Let X := tail ++ [128] ++ repeat 0 z ++ lenb.

Lemma zeros_count : Z.of_nat z = if c <=? 55 then 55 - c else 119 - c.
Proof.
  destruct tail_length as [Ec Hr]. unfold z. rewrite Z2Nat.id by (apply Z.mod_pos_bound; lia).
  pose proof (Z.div_mod (Z.of_nat (length msg)) 64 ltac:(lia)). symmetry.
  destruct (Z.leb_spec c 55).
  - apply (Z.mod_unique _ _ (- (Z.of_nat (length msg) / 64))); lia.
  - apply (Z.mod_unique _ _ (- (Z.of_nat (length msg) / 64) - 1)); lia.
Qed.

Lemma X_length : Z.of_nat (length X) = if c <=? 55 then 64 else 128.
Proof.
  unfold X, lenb. rewrite !length_app, repeat_length, length_rev, le_bytes_length. simpl length.
  pose proof zeros_count. fold c. destruct (Z.leb_spec c 55); lia.
Qed.

(** The block after the first when the padding needs two. *)
Lemma X_second : 56 <= c -> skipn 64 X = repeat 0 56 ++ lenb.
Proof.
  intros Hc. pose proof zeros_count as Hz. destruct tail_length as [_ Hr].
  destruct (Z.leb_spec c 55); [lia |]. unfold X.
  replace z with ((63 - length tail) + 56)%nat by lia. rewrite repeat_app.
  replace (tail ++ [128] ++ (repeat 0 (63 - length tail) ++ repeat 0 56) ++ lenb)
    with ((tail ++ [128] ++ repeat 0 (63 - length tail)) ++ repeat 0 56 ++ lenb)
    by now rewrite <- !app_assoc.
  rewrite skipn_app, skipn_all2, !length_app, repeat_length
    by (rewrite !length_app, repeat_length; simpl length; lia).
  simpl length. replace (64 - (length tail + (1 + (63 - length tail))))%nat with 0%nat by lia.
  reflexivity.
Qed.

Lemma final_short : c <= 55 -> digest (sha_final 4 s) = Fips180.sha msg.
Proof.
  intros Hc. destruct Hs as [Hdg Hok Hlo Hhi Hcnt Hl _]. destruct tail_length as [Ec Hr].
  unfold sha_final. rewrite (final_count _ (count_hi s) (Z.of_nat (length msg))) by (assumption || lia).
  rewrite <- Ec, Z.gtb_ltb. destruct (Z.ltb_spec 56 (c + 1)); [lia |].
  pose proof zeros_count as Hz. pose proof X_length as HX. destruct (Z.leb_spec c 55); [| lia].
  destruct (pad_bytes (data s) tail 56 z [] Hl tail_data ltac:(lia) ltac:(lia)) as [Hml Hmj].
  fold c in Hml, Hmj. cbv zeta.
  rewrite (finish_block (set_data _ s) (tail ++ [128] ++ repeat 0 z ++ []));
    cbn [set_data data digest count_lo count_hi]; try assumption.
  - rewrite sha_pad_tail, <- Hdg. change (pad_tail msg) with X.
    replace (count_hi s * 2 ^ 32 + count_lo s) with (8 * Z.of_nat (length msg)) by lia.
    rewrite app_nil_r, <- !app_assoc. fold lenb X. replace (length X) with 64%nat by lia.
    change (64 / 64)%nat with 1%nat. rewrite hash_blocks_S, hash_blocks_0, firstn_all2 by lia. reflexivity.
  - rewrite app_nil_r, !length_app, repeat_length. simpl length. lia.
Qed.

Lemma final_long : 56 <= c -> digest (sha_final 4 s) = Fips180.sha msg.
Proof.
  intros Hc. destruct Hs as [Hdg Hok Hlo Hhi Hcnt Hl _]. destruct tail_length as [Ec Hr].
  unfold sha_final. rewrite (final_count _ (count_hi s) (Z.of_nat (length msg))) by (assumption || lia).
  rewrite <- Ec, Z.gtb_ltb. destruct (Z.ltb_spec 56 (c + 1)); [| lia].
  pose proof zeros_count as Hz. pose proof X_length as HX. pose proof (X_second Hc) as HX2.
  destruct (Z.leb_spec c 55); [lia |].
  destruct (pad_bytes (data s) tail 64 z lenb Hl tail_data ltac:(lia) ltac:(lia)) as [Hml Hmj].
  fold c X in Hml, Hmj. cbv zeta.
  set (d1 := memset0 (aset (data s) c 128) (c + 1) (64 - (c + 1))) in *. clearbody d1.
  assert (Hh : holds (byte_reverse 4 d1 SHA_BLOCKSIZE) (firstn 64 X)).
  { intros i Hi. apply byte_reverse_word; [lia | assumption |]. intros k Hk.
    rewrite aget_firstn by lia. apply Hmj. lia. }
  destruct (byte_reverse_spec d1 ltac:(lia)) as [Hbl _]. change 64 with SHA_BLOCKSIZE in Hbl.
  set (d2 := byte_reverse 4 d1 SHA_BLOCKSIZE) in *. clearbody d2.
  rewrite (sha_transform_compress (set_data d2 s) (firstn 64 X) Hh Hok).
  cbn [set_data data digest count_lo count_hi].
  set (H1 := Fips180.compress (digest s) (firstn 64 X)).
  assert (HH1 : digest_ok H1) by apply compress_ok.
  rewrite (finish_block (mkSHA H1 (count_lo s) (count_hi s) (memset0 d2 0 56)) (repeat 0 56));
    cbn [data digest]; try assumption.
  - rewrite sha_pad_tail, <- Hdg.
    replace (count_hi s * 2 ^ 32 + count_lo s) with (8 * Z.of_nat (length msg)) by lia.
    change (pad_tail msg) with X. fold lenb. rewrite <- HX2. replace (length X) with 128%nat by lia. change (128 / 64)%nat with 2%nat.
    rewrite !hash_blocks_S, hash_blocks_0. fold H1. rewrite (firstn_all2 (skipn 64 X)) by (rewrite length_skipn; lia).
    reflexivity.
  - rewrite memset0_length; lia.
  - reflexivity.
  - intros j Hj. rewrite memset0_get by lia. unfold aget. rewrite nth_repeat. zcases; (reflexivity || lia).
Qed.

End Final.

Lemma initial_absorbed s : length (data s) = 64%nat -> absorbed Fips180.H0 0 [] (sha_init s).
Proof.
  intros Hl. split; auto; cbn [sha_init digest count_lo count_hi]; try (unfold is_u32; lia).
  split; [reflexivity |]. repeat (apply Forall_cons; [unfold is_u32; lia |]). apply Forall_nil.
Qed.

(** ** Properties *)

(** C21. With 4-byte longs [sha_stream] computes the FIPS 180 digest of the
    stream, for every stream whose length in bits fits 64 bits and whatever the
    structure held before: the blocks of 8192 bytes, the byte reversal, the
    carry of the bit count and the one or two padding blocks together hash the
    padded message. *)
Theorem sha_stream_correct s msg : length (data s) = 64%nat ->
  8 * Z.of_nat (length msg) < 2 ^ 64 -> digest (sha_stream 4 s msg) = Fips180.sha msg.
Proof.
  intros Hl Hlen. unfold sha_stream.
  pose proof (stream_absorbed (S (length msg)) msg Fips180.H0 0 (sha_init s)
    (initial_absorbed s Hl) ltac:(lia) ltac:(lia)) as Ha.
  destruct (tail_length msg) as [_ Hr].
  destruct (Z.leb_spec (Z.of_nat (length (skipn (64 * (length msg / 64)) msg))) 55).
  - now apply final_short.
  - apply final_long; [assumption | lia].
Qed.

(** A message of 60 bytes, which needs two padding blocks. *)
Lemma sha_stream_correct_witness :
  digest (sha_stream 4 (mkSHA [] 0 0 (repeat 7 64)) (repeat 97 60)) = Fips180.sha (repeat 97 60).
Proof.
  apply (sha_stream_correct (mkSHA [] 0 0 (repeat 7 64)) (repeat 97 60)); reflexivity.
Defined.

(** With the 8-byte longs of the LP64 targets the digest is not that of
    the standard and depends on what the buffer, a local variable of [main]
    that nothing initialises, held before: half of the words that the first
    block hashes are never written. *)
Theorem sha_stream_lp64_garbage :
  digest (sha_stream 8 (mkSHA [] 0 0 (repeat 0 128)) [97; 98; 99]) <>
    digest (sha_stream 8 (mkSHA [] 0 0 (repeat 1 128)) [97; 98; 99]) /\
  digest (sha_stream 8 (mkSHA [] 0 0 (repeat 0 128)) [97; 98; 99]) <> Fips180.sha [97; 98; 99].
Proof. split; vm_compute; discriminate. Qed.
