(* ===== verification/Blowfish.v ===== *)
(** * Blowfish: the cipher and its modes

    Models [security/blowfish]: the block cipher [BF_encrypt] ([bf_enc.c], with
    the table-indexing version of [BF_ENC] that the Makefile selects), the key
    schedule [BF_set_key] ([bf_skey.c]), and the ECB, CBC, 64-bit CFB and 64-bit
    OFB modes ([bf_ecb.c], [bf_cbc.c], [bf_cfb64.c], [bf_ofb64.c]) with the byte
    order macros of [bf_locl.h].

    [BF_LONG] is [unsigned long], 64 bits wide, and holds 32-bit words.  A mode
    takes the input bytes and returns the output bytes with the new values of
    the bytes it updates through pointers ([iv], [ivec], [num]).

    The block cipher is a Feistel network, so decryption undoes encryption
    whatever the key holds; from that and the byte order each mode is proved to
    give back what it encrypted, also when the two sides cut the data into
    different pieces. *)

From Stdlib Require Import ZArith Lia List Bool.
From S2P Require Import Prelude BlowfishTables.
Import ListNotations.

Definition BF_ROUNDS : Z := 16.

(** [struct bf_key_st] *)
Record BF_KEY := mkBF { key_P : list Z; key_S : list Z }.

Definition bf_init : BF_KEY := mkBF bf_init_P bf_init_S.

(** ** The block cipher *)

Definition BF_ENC (LL R : Z) (s : list Z) (p : Z) : Z :=
  let LL := LL .^ p in
  LL .^ (u64 ((u64 (s.[R >> 24] + s.[0x0100 + ((R >> 16) .& 0xff)]) .^
               s.[0x0200 + ((R >> 8) .& 0xff)]) + s.[0x0300 + (R .& 0xff)]) .& 0xffffffff).

(** Two lines of [BF_encrypt]: [BF_ENC(r,l,s,p[i]); BF_ENC(l,r,s,p[j]);] on
    the pair of [l] and [r]. *)
Definition two_rounds (key : BF_KEY) (lr : Z * Z) (ij : Z * Z) : Z * Z :=
  let '(l, r) := lr in
  let r := BF_ENC r l (key_S key) (key_P key).[fst ij] in
  let l := BF_ENC l r (key_S key) (key_P key).[snd ij] in
  (l, r).

(** The subkeys in the order of the encrypting and of the decrypting branch. *)
Definition enc_order : list (Z * Z) :=
  [(1, 2); (3, 4); (5, 6); (7, 8); (9, 10); (11, 12); (13, 14); (15, 16)].
Definition dec_order : list (Z * Z) :=
  [(16, 15); (14, 13); (12, 11); (10, 9); (8, 7); (6, 5); (4, 3); (2, 1)].

(** [data] is the pair of [data[0]] and [data[1]]. *)
Definition BF_encrypt (data : Z * Z) (key : BF_KEY) (encrypt : bool) : Z * Z :=
  let '(l, r) := data in
  let p := key_P key in
  let '(l, r) :=
    if encrypt then
      let l := l .^ p.[0] in
      let '(l, r) := fold_left (two_rounds key) enc_order (l, r) in
      (l, r .^ p.[BF_ROUNDS + 1])
    else
      let l := l .^ p.[BF_ROUNDS + 1] in
      let '(l, r) := fold_left (two_rounds key) dec_order (l, r) in
      (l, r .^ p.[0]) in
  (r .& 0xffffffff, l .& 0xffffffff).

(** ** Byte order: [bf_locl.h] *)

(** [n2l(c,l)] at the offset [o] *)
Definition n2l (c : list Z) (o : Z) : Z :=
  (((u64 (c.[o] << 24) .| u64 (c.[o + 1] << 16)) .| u64 (c.[o + 2] << 8)) .| c.[o + 3]).

(** [l2n(l,c)]: the four bytes written *)
Definition l2n (l : Z) : list Z :=
  [(l >> 24) .& 0xff; (l >> 16) .& 0xff; (l >> 8) .& 0xff; l .& 0xff].

(** [n2ln(c,l1,l2,n)]: the fall-through switch over the [n] bytes left *)
Definition n2ln (c : list Z) (n : Z) : Z * Z :=
  let l2 := if 8 <=? n then c.[7] else 0 in
  let l2 := if 7 <=? n then l2 .| u64 (c.[6] << 8) else l2 in
  let l2 := if 6 <=? n then l2 .| u64 (c.[5] << 16) else l2 in
  let l2 := if 5 <=? n then l2 .| u64 (c.[4] << 24) else l2 in
  let l1 := if 4 <=? n then c.[3] else 0 in
  let l1 := if 3 <=? n then l1 .| u64 (c.[2] << 8) else l1 in
  let l1 := if 2 <=? n then l1 .| u64 (c.[1] << 16) else l1 in
  let l1 := if 1 <=? n then l1 .| u64 (c.[0] << 24) else l1 in
  (l1, l2).

(** [l2nn(l1,l2,c,n)]: the [n] bytes written *)
Definition l2nn (l1 l2 n : Z) : list Z := firstn (Z.to_nat n) (l2n l1 ++ l2n l2).

(** ** Key schedule: [bf_skey.c] *)

(** [*(d++)] followed by [if (d >= end) d=data;]: the byte and the new index. *)
Definition key_byte (data : list Z) (len d : Z) : Z * Z :=
  (data.[d], if d + 1 >=? len then 0 else d + 1).

(** The body of the loop over [p]: [ri] and the new index. *)
Definition key_word (data : list Z) (len d : Z) : Z * Z :=
  let '(b, d) := key_byte data len d in let ri := b in
  let '(b, d) := key_byte data len d in let ri := u64 (ri << 8) .| b in
  let '(b, d) := key_byte data len d in let ri := u64 (ri << 8) .| b in
  let '(b, d) := key_byte data len d in let ri := u64 (ri << 8) .| b in
  (ri, d).

Definition key_xor (data : list Z) (len : Z) (p : list Z) : list Z * Z :=
  for_range 0 (BF_ROUNDS + 2) (fun i pd =>
    let '(p, d) := pd in
    let '(ri, d) := key_word data len d in
    (aset p i (p.[i] .^ ri), d)) (p, 0).

(** One step of the loops that fill [P] and then [S] with [in]; the index is
    [2 * t]. *)
Definition fill_P (t : Z) (ki : BF_KEY * (Z * Z)) : BF_KEY * (Z * Z) :=
  let '(key, in_) := ki in
  let in_ := BF_encrypt in_ key true in
  (mkBF (aset (aset (key_P key) (2 * t) (fst in_)) (2 * t + 1) (snd in_)) (key_S key), in_).

Definition fill_S (t : Z) (ki : BF_KEY * (Z * Z)) : BF_KEY * (Z * Z) :=
  let '(key, in_) := ki in
  let in_ := BF_encrypt in_ key true in
  (mkBF (key_P key) (aset (aset (key_S key) (2 * t) (fst in_)) (2 * t + 1) (snd in_)), in_).

Definition BF_set_key (len : Z) (data : list Z) : BF_KEY :=
  let len := if len >? (BF_ROUNDS + 2) * 4 then (BF_ROUNDS + 2) * 4 else len in
  let key := mkBF (fst (key_xor data len (key_P bf_init))) (key_S bf_init) in
  let ki := for_range 0 ((BF_ROUNDS + 2) / 2) fill_P (key, (0, 0)) in
  fst (for_range 0 (4 * 256 / 2) fill_S ki).

(** ** Modes *)

(** [bf_ecb.c]: eight bytes in, eight bytes out *)
Definition BF_ecb_encrypt (in_ : list Z) (ks : BF_KEY) (encrypt : bool) : list Z :=
  let d := BF_encrypt (n2l in_ 0, n2l in_ 4) ks encrypt in
  l2n (fst d) ++ l2n (snd d).

(** [bf_cbc.c], the encrypting branch: output and the last block. [l] is the
    number of bytes left; the loop runs while there are eight. *)
Fixpoint cbc_enc (fuel : nat) (in_ : list Z) (l : Z) (ks : BF_KEY) (tout : Z * Z)
  : list Z * (Z * Z) :=
  match fuel with
  | O => ([], tout)
  | S f =>
      if l >=? 8 then
        let tin := (n2l in_ 0 .^ fst tout, n2l in_ 4 .^ snd tout) in
        let tout := BF_encrypt tin ks true in
        let '(out, last) := cbc_enc f (skipn 8 in_) (l - 8) ks tout in
        (l2n (fst tout) ++ l2n (snd tout) ++ out, last)
      else if negb (l =? 0) then
        let '(tin0, tin1) := n2ln in_ l in
        let tout := BF_encrypt (tin0 .^ fst tout, tin1 .^ snd tout) ks true in
        (l2n (fst tout) ++ l2n (snd tout), tout)
      else ([], tout)
  end.

(** The decrypting branch. *)
Fixpoint cbc_dec (fuel : nat) (in_ : list Z) (l : Z) (ks : BF_KEY) (xor : Z * Z)
  : list Z * (Z * Z) :=
  match fuel with
  | O => ([], xor)
  | S f =>
      if l >=? 8 then
        let tin := (n2l in_ 0, n2l in_ 4) in
        let d := BF_encrypt tin ks false in
        let '(out, last) := cbc_dec f (skipn 8 in_) (l - 8) ks tin in
        (l2n (fst d .^ fst xor) ++ l2n (snd d .^ snd xor) ++ out, last)
      else if negb (l =? 0) then
        let tin := (n2l in_ 0, n2l in_ 4) in
        let d := BF_encrypt tin ks false in
        (l2nn (fst d .^ fst xor) (snd d .^ snd xor) l, tin)
      else ([], xor)
  end.

(** The result is the output and the new [iv]. *)
Definition BF_cbc_encrypt (in_ : list Z) (length : Z) (ks : BF_KEY) (iv : list Z) (encrypt : bool)
  : list Z * list Z :=
  let v := (n2l iv 0, n2l iv 4) in
  let '(out, last) :=
    if encrypt then cbc_enc (S (Z.to_nat length)) in_ length ks v
    else cbc_dec (S (Z.to_nat length)) in_ length ks v in
  (out, l2n (fst last) ++ l2n (snd last)).

(** The new [ivec] when a block of the key stream is needed. *)
Definition next_ivec (ks : BF_KEY) (iv : list Z) : list Z :=
  let ti := BF_encrypt (n2l iv 0, n2l iv 4) ks true in
  l2n (fst ti) ++ l2n (snd ti).

(** [bf_cfb64.c]: one iteration of either loop; the output byte, [ivec] and [n]. *)
Definition cfb_byte (ks : BF_KEY) (encrypt : bool) (b : Z) (iv : list Z) (n : Z) : Z * list Z * Z :=
  let iv := if n =? 0 then next_ivec ks iv else iv in
  if encrypt then
    let c := b .^ iv.[n] in
    (c, aset iv n c, (n + 1) .& 0x07)
  else
    let c := iv.[n] in
    (c .^ b, aset iv n b, (n + 1) .& 0x07).

Fixpoint BF_cfb64_encrypt (in_ : list Z) (ks : BF_KEY) (ivec : list Z) (num : Z) (encrypt : bool)
  : list Z * list Z * Z :=
  match in_ with
  | [] => ([], ivec, num)
  | b :: rest =>
      let '(c, ivec, num) := cfb_byte ks encrypt b ivec num in
      let '(out, ivec, num) := BF_cfb64_encrypt rest ks ivec num encrypt in
      (c :: out, ivec, num)
  end.

(** [bf_ofb64.c]: the loop, on the words [ti], the bytes [d], [n] and [save]. *)
Fixpoint ofb_loop (in_ : list Z) (ks : BF_KEY) (ti : Z * Z) (d : list Z) (n : Z) (save : bool)
  : list Z * (Z * Z) * Z * bool :=
  match in_ with
  | [] => ([], ti, n, save)
  | b :: rest =>
      let '(ti, d, save) :=
        if n =? 0 then
          let ti := BF_encrypt ti ks true in (ti, l2n (fst ti) ++ l2n (snd ti), true)
        else (ti, d, save) in
      let c := b .^ d.[n] in
      let '(out, ti, n, save) := ofb_loop rest ks ti d ((n + 1) .& 0x07) save in
      (c :: out, ti, n, save)
  end.

Definition BF_ofb64_encrypt (in_ : list Z) (ks : BF_KEY) (ivec : list Z) (num : Z)
  : list Z * list Z * Z :=
  let v := (n2l ivec 0, n2l ivec 4) in
  let '(out, ti, n, save) := ofb_loop in_ ks v (l2n (fst v) ++ l2n (snd v)) num false in
  (out, if save then l2n (fst ti) ++ l2n (snd ti) else ivec, n).

(** A test vector of [bftest.c]. *)
Example bf_zero_key :
  BF_ecb_encrypt (repeat 0 8) (BF_set_key 8 (repeat 0 8)) true =
  [0x4E; 0xF9; 0x97; 0x45; 0x61; 0x98; 0xDD; 0x78].
Proof. vm_compute. reflexivity. Qed.

(** ** The program: [bf.c] *)

(** The pieces in which the loop of [main] passes the stream to the cipher: up
    to 40 bytes each.  The last byte of the stream is the [EOF] that [getc]
    returns, stored as an [unsigned char]. *)
Fixpoint pieces (fuel : nat) (stream : list Z) : list (list Z) :=
  match fuel, stream with
  | _, [] => []
  | O, _ => []
  | S f, _ => firstn 40 stream :: pieces f (skipn 40 stream)
  end.

Fixpoint cfb_pieces (xs : list (list Z)) (ks : BF_KEY) (ivec : list Z) (num : Z) (encrypt : bool)
  : list Z * list Z * Z :=
  match xs with
  | [] => ([], ivec, num)
  | x :: rest =>
      let '(out, ivec, num) := BF_cfb64_encrypt x ks ivec num encrypt in
      let '(outs, ivec, num) := cfb_pieces rest ks ivec num encrypt in
      (out ++ outs, ivec, num)
  end.

(** [main] after the key is read: the bytes of the output file for the bytes of
    the input file.  [ivec] and [num] are what the uninitialised variables hold. *)
Definition bf_main (key ivec : list Z) (num : Z) (encordec : bool) (file : list Z) : list Z :=
  let stream := file ++ [255] in
  fst (fst (cfb_pieces (pieces (length stream) stream) (BF_set_key 8 key) ivec num encordec)).

(** The loop over the digits of the key.  [ukey] has eight bytes: a store past
    them is undefined. *)
Inductive key_result :=
| Key (ukey rest : list Z)
| Not_hex
| Overrun.

Fixpoint bf_key_loop (cp : list Z) (i by_ : Z) (ukey : list Z) : key_result :=
  match cp with
  | [] => Key ukey []
  | c :: rest =>
      if i <? 64 then
        match hex_digit (toupper c) with
        | None => Not_hex
        | Some d =>
            let by_ := i32 ((by_ << 4) + d) in
            if negb (i .& 1 =? 0) then
              if (i + 1) / 2 - 1 <? 8 then bf_key_loop rest (i + 1) by_ (aset ukey ((i + 1) / 2 - 1) (by_ .& 0xff))
              else Overrun
            else bf_key_loop rest (i + 1) by_ ukey
        end
      else Key ukey cp
  end.

(** [main] for a command line with all its arguments: the mode letter, the key
    digits, the input file if it can be opened, whether the output file can be,
    and the contents of the uninitialised variables.  The result is the exit
    status and the output file; [None] is undefined behaviour. *)
Definition bf_program (mode : Z) (cp : list Z) (file : option (list Z)) (fout : bool) (ukey ivec : list Z) (num : Z)
  : option (Z * option (list Z)) :=
  let encordec := if (mode =? 101) || (mode =? 69) then Some true
                  else if (mode =? 100) || (mode =? 68) then Some false else None in
  match encordec with
  | None => Some (-1, None)
  | Some encordec =>
      match bf_key_loop cp 0 0 ukey with
      | Not_hex => Some (-1, None)
      | Overrun => None
      | Key ukey rest =>
          if negb (length rest =? 0)%nat then Some (-1, None)
          else
            match file with
            | None => Some (-1, None)
            | Some content =>
                if negb fout then Some (-1, None)
                else Some (1, Some (bf_main ukey ivec num encordec content))
            end
      end
  end.

(** ** The network *)

Lemma lxor_cancel x a b : (((x .^ a) .^ b) .^ a) .^ b = x.
Proof.
  apply Z.bits_inj'. intros n Hn. rewrite !Z.lxor_spec.
  destruct (Z.testbit x n), (Z.testbit a n), (Z.testbit b n); reflexivity.
Qed.

(** A half round is its own inverse. *)
Lemma BF_ENC_inverse x y s p : BF_ENC (BF_ENC x y s p) y s p = x.
Proof. apply lxor_cancel. Qed.

Definition swap {A} (ab : A * A) : A * A := (snd ab, fst ab).

Lemma two_rounds_inverse key lr ij :
  two_rounds key (swap (two_rounds key lr ij)) (swap ij) = swap lr.
Proof.
  destruct lr as [l r], ij as [i j]. unfold two_rounds, swap; cbn [fst snd].
  now rewrite !BF_ENC_inverse.
Qed.

Lemma rounds_inverse key order lr :
  fold_left (two_rounds key) (map swap (rev order)) (swap (fold_left (two_rounds key) order lr)) =
  swap lr.
Proof.
  revert lr; induction order as [|ij order IH]; intros lr; [reflexivity |].
  cbn [fold_left rev]. rewrite map_app, fold_left_app, IH. cbn [map fold_left].
  apply two_rounds_inverse.
Qed.

(** A key of the right shape. *)
Definition key_ok (k : BF_KEY) : Prop :=
  length (key_P k) = 18%nat /\ Forall is_u32 (key_P k) /\
  length (key_S k) = 1024%nat /\ Forall is_u32 (key_S k).

Definition pair_u32 (ab : Z * Z) : Prop := is_u32 (fst ab) /\ is_u32 (snd ab).

Lemma mask_word x : is_u32 (x .& 0xffffffff).
Proof. apply land_word. unfold is_u32. lia. Qed.

Lemma mask_id x : is_u32 x -> x .& 0xffffffff = x.
Proof.
  intros Hx. change 0xffffffff with (2 ^ 32 - 1). rewrite land_mask by lia. now apply Z.mod_small.
Qed.

Lemma key_P_word k i : key_ok k -> is_u32 (key_P k).[i].
Proof. intros (_ & H & _). apply Forall_aget; [unfold is_u32; lia | assumption]. Qed.

Lemma BF_ENC_word x y s p : is_u32 x -> is_u32 p -> is_u32 (BF_ENC x y s p).
Proof. intros Hx Hp. unfold BF_ENC. auto using lxor_word, mask_word. Qed.

Lemma rounds_word key order lr : key_ok key -> pair_u32 lr ->
  pair_u32 (fold_left (two_rounds key) order lr).
Proof.
  intros Hk. revert lr; induction order as [|ij order IH]; intros [l r] [Hl Hr]; [now split |].
  apply IH. split; apply BF_ENC_word; auto; now apply key_P_word.
Qed.

Lemma BF_encrypt_word ab key e : pair_u32 (BF_encrypt ab key e).
Proof.
  unfold BF_encrypt. destruct ab as [l r]. destruct (if e then _ else _) as [l' r'].
  split; apply mask_word.
Qed.

(** Either direction undoes the other. *)
Lemma BF_encrypt_cancel key ab e : key_ok key -> pair_u32 ab ->
  BF_encrypt (BF_encrypt ab key e) key (negb e) = ab.
Proof.
  intros Hk Hab. destruct ab as [a b]. pose proof Hab as [Ha Hb]; cbn [fst snd] in Ha, Hb.
  pose proof (key_P_word key 0 Hk) as H0. pose proof (key_P_word key (BF_ROUNDS + 1) Hk) as H17.
  assert (Hgen : forall p q order, is_u32 p -> is_u32 q ->
    let '(l, r) := fold_left (two_rounds key) order (a .^ p, b) in
    let '(l', r') := fold_left (two_rounds key) (map swap (rev order))
      (((r .^ q) .& 0xffffffff) .^ q, l .& 0xffffffff) in
    ((r' .^ p) .& 0xffffffff, l' .& 0xffffffff) = (a, b)).
  { intros p q order Hp Hq.
    pose proof (rounds_word key order (a .^ p, b) Hk (conj (lxor_word _ _ Ha Hp) Hb)) as Hw.
    pose proof (rounds_inverse key order (a .^ p, b)) as Hi.
    destruct (fold_left (two_rounds key) order (a .^ p, b)) as [l r]. destruct Hw as [Hl Hr].
    cbn [fst snd] in Hl, Hr. rewrite (mask_id (r .^ q)), (mask_id l), Z.lxor_assoc, Z.lxor_nilpotent, Z.lxor_0_r
      by auto using lxor_word.
    unfold swap at 2 3 in Hi; cbn [fst snd] in Hi. rewrite Hi.
    rewrite Z.lxor_assoc, Z.lxor_nilpotent, Z.lxor_0_r, !mask_id by assumption. reflexivity. }
  unfold BF_encrypt. destruct e; cbn [negb].
  - specialize (Hgen _ _ enc_order H0 H17). change (map swap (rev enc_order)) with dec_order in Hgen.
    destruct (fold_left (two_rounds key) enc_order _) as [l r].
    destruct (fold_left (two_rounds key) dec_order _) as [l' r']. exact Hgen.
  - specialize (Hgen _ _ dec_order H17 H0). change (map swap (rev dec_order)) with enc_order in Hgen.
    destruct (fold_left (two_rounds key) dec_order _) as [l r].
    destruct (fold_left (two_rounds key) enc_order _) as [l' r']. exact Hgen.
Qed.

(** ** The key schedule *)

Definition is_byte (x : Z) : Prop := 0 <= x < 256.

Lemma key_byte_range data len d : Forall is_byte data -> is_byte (fst (key_byte data len d)).
Proof. intros H. unfold key_byte; cbn [fst]. apply Forall_aget; [unfold is_byte; lia | assumption]. Qed.

Lemma key_step ri b k : 0 <= k <= 24 -> 0 <= ri < 2 ^ k -> is_byte b ->
  0 <= u64 (ri << 8) .| b < 2 ^ (k + 8).
Proof.
  intros Hk Hr Hb. unfold is_byte in Hb. rewrite shiftl_mul by lia.
  assert (2 ^ (k + 8) = 2 ^ k * 2 ^ 8) by (apply Z.pow_add_r; lia).
  assert (2 ^ (k + 8) <= 2 ^ 32) by (apply Z.pow_le_mono_r; lia).
  rewrite u64_id by (unfold is_u64; lia). rewrite (lor_add 8) by (try lia; apply Z.mod_mul; lia). lia.
Qed.

Lemma key_word_range data len d : Forall is_byte data -> is_u32 (fst (key_word data len d)).
Proof.
  intros H. unfold key_word.
  pose proof (key_byte_range data len d H) as H1. destruct (key_byte data len d) as [b1 d1].
  pose proof (key_byte_range data len d1 H) as H2. destruct (key_byte data len d1) as [b2 d2].
  pose proof (key_byte_range data len d2 H) as H3. destruct (key_byte data len d2) as [b3 d3].
  pose proof (key_byte_range data len d3 H) as H4. destruct (key_byte data len d3) as [b4 d4].
  cbn [fst] in *.
  pose proof (key_step b1 b2 8 ltac:(lia) H1 H2) as K2.
  pose proof (key_step _ b3 16 ltac:(lia) K2 H3) as K3.
  exact (key_step _ b4 24 ltac:(lia) K3 H4).
Qed.

Lemma key_xor_ok data len p : Forall is_byte data -> length p = 18%nat -> Forall is_u32 p ->
  length (fst (key_xor data len p)) = 18%nat /\ Forall is_u32 (fst (key_xor data len p)).
Proof.
  intros Hd Hl Hp. unfold key_xor.
  apply (for_range_ind (fun _ pd => length (fst pd) = 18%nat /\ Forall is_u32 (fst pd)));
    [unfold BF_ROUNDS; lia | now split |].
  intros i [q d] _ [Hq1 Hq2]; cbn [fst] in *.
  pose proof (key_word_range data len d Hd) as Hw. destruct (key_word data len d) as [ri d'].
  cbn [fst] in *. rewrite aset_length. split; [assumption |]. apply Forall_aset; [| assumption].
  apply lxor_word; [apply Forall_aget; [unfold is_u32; lia | assumption] | assumption].
Qed.

Definition ki_ok (ki : BF_KEY * (Z * Z)) : Prop := key_ok (fst ki).

Lemma fill_P_ok t ki : ki_ok ki -> ki_ok (fill_P t ki).
Proof.
  destruct ki as [key in_]. intros (H1 & H2 & H3 & H4). cbn [fst] in *. unfold fill_P.
  destruct (BF_encrypt_word in_ key true). split; cbn [fst key_P key_S]; [now rewrite !aset_length |].
  split; [| now split]. now repeat apply Forall_aset.
Qed.

Lemma fill_S_ok t ki : ki_ok ki -> ki_ok (fill_S t ki).
Proof.
  destruct ki as [key in_]. intros (H1 & H2 & H3 & H4). cbn [fst] in *. unfold fill_S.
  destruct (BF_encrypt_word in_ key true). split; cbn [fst key_P key_S]; [assumption |].
  split; [assumption |]. split; [now rewrite !aset_length |]. now repeat apply Forall_aset.
Qed.

Lemma words_check l : forallb (fun x => (0 <=? x) && (x <? 2 ^ 32)) l = true -> Forall is_u32 l.
Proof.
  intros H. apply Forall_forall. intros x Hx. rewrite forallb_forall in H.
  apply H in Hx. apply andb_prop in Hx as [H1 H2]. unfold is_u32. split; [now apply Z.leb_le | now apply Z.ltb_lt].
Qed.

Lemma BF_set_key_ok len data : Forall is_byte data -> key_ok (BF_set_key len data).
Proof.
  intros Hd. unfold BF_set_key. set (n := if len >? _ then _ else _).
  destruct (key_xor_ok data n (key_P bf_init) Hd eq_refl (words_check bf_init_P eq_refl)) as [Hl Hw].
  set (p := fst (key_xor _ _ _)) in *. clearbody p.
  apply (for_range_ind (fun _ ki => ki_ok ki)); [discriminate | | intros; now apply fill_S_ok].
  apply (for_range_ind (fun _ ki => ki_ok ki)); [discriminate | | intros; now apply fill_P_ok].
  split; [assumption | split; [assumption | split; [reflexivity | now apply words_check]]].
Qed.

(** ** Byte order *)

(** A pair of words as eight bytes, and back. *)
Definition to_bytes (ab : Z * Z) : list Z := l2n (fst ab) ++ l2n (snd ab).
Definition of_bytes (c : list Z) : Z * Z := (n2l c 0, n2l c 4).

Lemma aget_byte l i : Forall is_byte l -> is_byte l.[i].
Proof. intros H. apply Forall_aget; [unfold is_byte; lia | assumption]. Qed.

Lemma n2l_value c o : Forall is_byte c ->
  n2l c o = c.[o] * 2 ^ 24 + c.[o + 1] * 2 ^ 16 + c.[o + 2] * 2 ^ 8 + c.[o + 3].
Proof.
  intros H. unfold n2l.
  pose proof (aget_byte c o H) as H0. pose proof (aget_byte c (o + 1) H) as H1.
  pose proof (aget_byte c (o + 2) H) as H2. pose proof (aget_byte c (o + 3) H) as H3.
  unfold is_byte in *. rewrite !shiftl_mul by lia. rewrite !u64_id by (unfold is_u64; lia).
  rewrite (lor_add 24 (c.[o] * 2 ^ 24)) by (zpow_compute; zlia).
  rewrite (lor_add 16 (_ + _)), (lor_add 8 (_ + _)) by (zpow_compute; zlia). lia.
Qed.

Lemma n2l_word c o : Forall is_byte c -> is_u32 (n2l c o).
Proof.
  intros H. rewrite n2l_value by assumption.
  pose proof (aget_byte c o H) as H0. pose proof (aget_byte c (o + 1) H) as H1.
  pose proof (aget_byte c (o + 2) H) as H2. pose proof (aget_byte c (o + 3) H) as H3.
  unfold is_byte, is_u32 in *. lia.
Qed.

Lemma l2n_value w : l2n w = [(w / 2 ^ 24) mod 256; (w / 2 ^ 16) mod 256; (w / 2 ^ 8) mod 256; w mod 256].
Proof.
  unfold l2n. change 0xff with (2 ^ 8 - 1). rewrite !land_mask, !shiftr_div by lia. reflexivity.
Qed.

Lemma l2n_bytes w : Forall is_byte (l2n w).
Proof.
  rewrite l2n_value. repeat (apply Forall_cons; [apply Z.mod_pos_bound; lia |]). apply Forall_nil.
Qed.

Lemma l2n_n2l b0 b1 b2 b3 : is_byte b0 -> is_byte b1 -> is_byte b2 -> is_byte b3 ->
  l2n (b0 * 2 ^ 24 + b1 * 2 ^ 16 + b2 * 2 ^ 8 + b3) = [b0; b1; b2; b3].
Proof.
  unfold is_byte. intros H0 H1 H2 H3. rewrite l2n_value.
  f_equal; [| f_equal; [| f_equal; [| f_equal]]]; zpow_compute; zlia.
Qed.

Lemma n2l_l2n w rest : is_u32 w -> Forall is_byte rest -> n2l (l2n w ++ rest) 0 = w.
Proof.
  intros Hw Hr. rewrite n2l_value by (apply Forall_app; split; [apply l2n_bytes | assumption]).
  rewrite l2n_value. unfold aget; simpl nth. unfold is_u32 in Hw. zpow_compute. zlia.
Qed.

Lemma of_to_bytes ab rest : pair_u32 ab -> Forall is_byte rest -> of_bytes (to_bytes ab ++ rest) = ab.
Proof.
  destruct ab as [a b]. intros [Ha Hb] Hr. unfold of_bytes, to_bytes; cbn [fst snd] in *.
  rewrite <- app_assoc. f_equal.
  - apply n2l_l2n; [assumption |]. apply Forall_app; split; [apply l2n_bytes | assumption].
  - change (n2l (l2n a ++ l2n b ++ rest) 4) with (n2l (l2n b ++ rest) 0). now apply n2l_l2n.
Qed.

Lemma of_bytes_word c : Forall is_byte c -> pair_u32 (of_bytes c).
Proof. intros H. split; now apply n2l_word. Qed.

Lemma to_bytes_byte ab : Forall is_byte (to_bytes ab).
Proof. apply Forall_app; split; apply l2n_bytes. Qed.

Lemma to_of_bytes c : Forall is_byte c -> (8 <= length c)%nat -> to_bytes (of_bytes c) = firstn 8 c.
Proof.
  intros H Hl. unfold to_bytes, of_bytes; cbn [fst snd]. rewrite !n2l_value by assumption.
  rewrite !l2n_n2l by now apply aget_byte.
  destruct c as [|c0 [|c1 [|c2 [|c3 [|c4 [|c5 [|c6 [|c7 c]]]]]]]]; simpl in Hl; try lia. reflexivity.
Qed.

Lemma to_bytes_length ab : length (to_bytes ab) = 8%nat.
Proof. reflexivity. Qed.

Lemma lor_low k x y : 0 <= k -> 0 <= x < 2 ^ k -> x .| (y * 2 ^ k) = x + y * 2 ^ k.
Proof. intros. rewrite (Z.mul_comm y). now apply lor_split. Qed.

(** Turn an or of shifted bytes, the lowest first, into a sum. *)
Ltac or_sum :=
  repeat match goal with
    | |- context [?x .| (?y * 2 ^ ?k)] =>
        lazymatch x with context [Z.lor] => fail | _ => rewrite (lor_low k x y) by lia end
    end.

(** The bytes left over are read as a block padded with zeros. *)
Lemma n2ln_pad c n : Forall is_byte c -> Z.of_nat (length c) = n -> 1 <= n <= 7 ->
  n2ln c n = of_bytes (c ++ repeat 0 (Z.to_nat (8 - n))).
Proof.
  intros Hc Hn Hr. unfold of_bytes, n2ln.
  assert (Hp : Forall is_byte (c ++ repeat 0 (Z.to_nat (8 - n)))).
  { apply Forall_app. split; [assumption |]. apply Forall_forall. intros x Hx.
    apply repeat_spec in Hx. subst x. unfold is_byte; lia. }
  rewrite !n2l_value by assumption. subst n.
  destruct c as [|c0 [|c1 [|c2 [|c3 [|c4 [|c5 [|c6 [|c7 c]]]]]]]]; simpl length in Hr; try lia;
    clear Hr Hp; unfold aget;
    repeat match goal with H : Forall _ (_ :: _) |- _ => apply Forall_cons_iff in H as [? H] end;
    unfold is_byte in *;
    repeat match goal with |- context [Z.to_nat ?e] =>
      let v := eval vm_compute in (Z.to_nat e) in change (Z.to_nat e) with v end;
    cbn -[Z.lor Z.shiftl Z.mul u64 Z.pow];
    rewrite ?shiftl_mul by lia; rewrite ?u64_id by (unfold is_u64; lia);
    or_sum; f_equal; lia.
Qed.

(** ** Cipher block chaining *)

Lemma pair_xor_cancel (ab v : Z * Z) :
  ((fst ab .^ fst v) .^ fst v, (snd ab .^ snd v) .^ snd v) = ab.
Proof. destruct ab. now rewrite !Z.lxor_assoc, !Z.lxor_nilpotent, !Z.lxor_0_r. Qed.

Definition pair_xor (ab v : Z * Z) : Z * Z := (fst ab .^ fst v, snd ab .^ snd v).

Lemma pair_xor_word ab v : pair_u32 ab -> pair_u32 v -> pair_u32 (pair_xor ab v).
Proof. intros [] []. split; now apply lxor_word. Qed.

(** The two branches over one block, in terms of words. *)
Lemma cbc_enc_S f in_ l ks v : cbc_enc (S f) in_ l ks v =
  if l >=? 8 then
    let tout := BF_encrypt (pair_xor (of_bytes in_) v) ks true in
    let '(out, last) := cbc_enc f (skipn 8 in_) (l - 8) ks tout in
    (to_bytes tout ++ out, last)
  else if negb (l =? 0) then
    let tout := BF_encrypt (pair_xor (n2ln in_ l) v) ks true in (to_bytes tout, tout)
  else ([], v).
Proof.
  unfold to_bytes. cbn [cbc_enc]. destruct (l >=? 8).
  - cbv zeta. unfold pair_xor, of_bytes; cbn [fst snd].
    destruct (cbc_enc f _ _ _ _). now rewrite <- app_assoc.
  - destruct (n2ln in_ l). reflexivity.
Qed.

Lemma cbc_dec_S f in_ l ks v : cbc_dec (S f) in_ l ks v =
  if l >=? 8 then
    let '(out, last) := cbc_dec f (skipn 8 in_) (l - 8) ks (of_bytes in_) in
    (to_bytes (pair_xor (BF_encrypt (of_bytes in_) ks false) v) ++ out, last)
  else if negb (l =? 0) then
    (firstn (Z.to_nat l) (to_bytes (pair_xor (BF_encrypt (of_bytes in_) ks false) v)), of_bytes in_)
  else ([], v).
Proof.
  unfold to_bytes, pair_xor, l2nn; cbn [fst snd cbc_dec]. fold (of_bytes in_).
  destruct (l >=? 8); [| reflexivity].
  destruct (cbc_dec f _ _ _ _). now rewrite <- app_assoc.
Qed.

Lemma cbc_block ks ab v rest : key_ok ks -> pair_u32 ab -> pair_u32 v -> Forall is_byte rest ->
  let tout := BF_encrypt (pair_xor ab v) ks true in
  of_bytes (to_bytes tout ++ rest) = tout /\ pair_xor (BF_encrypt tout ks false) v = ab.
Proof.
  intros Hk Hab Hv Hr tout. split; [apply of_to_bytes; [apply BF_encrypt_word | assumption] |].
  unfold tout. rewrite (BF_encrypt_cancel ks _ true) by (auto using pair_xor_word).
  apply pair_xor_cancel.
Qed.

(** The last block when it is short. *)
Lemma cbc_partial ks f msg v : key_ok ks -> Forall is_byte msg -> pair_u32 v ->
  1 <= Z.of_nat (length msg) <= 7 ->
  let tout := BF_encrypt (pair_xor (n2ln msg (Z.of_nat (length msg))) v) ks true in
  Forall is_byte (to_bytes tout) /\ pair_u32 tout /\
  cbc_dec (S f) (to_bytes tout) (Z.of_nat (length msg)) ks v = (msg, tout).
Proof.
  intros Hk Hm Hv Hl. rewrite n2ln_pad by (assumption || reflexivity || lia).
  set (padded := msg ++ repeat 0 _). cbv zeta.
  assert (Hp : Forall is_byte padded).
  { apply Forall_app. split; [assumption |]. apply Forall_forall. intros x Hx.
    apply repeat_spec in Hx. subst x. unfold is_byte; lia. }
  assert (Hpl : length padded = 8%nat) by (unfold padded; rewrite length_app, repeat_length; lia).
  destruct (cbc_block ks (of_bytes padded) v [] Hk (of_bytes_word _ Hp) Hv (Forall_nil _)) as [E1 E2].
  rewrite app_nil_r in E1. set (tout := BF_encrypt _ ks true) in *.
  split; [apply to_bytes_byte | split; [apply BF_encrypt_word |]].
  rewrite cbc_dec_S, E1, E2, Z.geb_leb. destruct (Z.leb_spec 8 (Z.of_nat (length msg))); [lia |].
  destruct (Z.eqb_spec (Z.of_nat (length msg)) 0); [lia |]. cbn [negb].
  rewrite to_of_bytes by (assumption || lia). rewrite (firstn_all2 padded) by lia.
  unfold padded. rewrite Nat2Z.id, firstn_app, firstn_all, Nat.sub_diag. now rewrite app_nil_r.
Qed.

Lemma cbc_dec_enc ks : key_ok ks -> forall fuel msg v, (length msg < fuel)%nat ->
  Forall is_byte msg -> pair_u32 v ->
  let '(out, last) := cbc_enc fuel msg (Z.of_nat (length msg)) ks v in
  Forall is_byte out /\ pair_u32 last /\
  cbc_dec fuel out (Z.of_nat (length msg)) ks v = (msg, last).
Proof.
  intros Hk. induction fuel as [|f IH]; intros msg v Hf Hm Hv; [lia |].
  rewrite cbc_enc_S, Z.geb_leb. destruct (Z.leb_spec 8 (Z.of_nat (length msg))) as [Hge|Hlt].
  - cbv zeta. set (tout := BF_encrypt (pair_xor (of_bytes msg) v) ks true).
    specialize (IH (skipn 8 msg) tout). rewrite length_skipn in IH.
    replace (Z.of_nat (length msg) - 8) with (Z.of_nat (length msg - 8)) by lia.
    destruct (cbc_enc f (skipn 8 msg) _ ks tout) as [out last] eqn:E.
    destruct IH as (Ho & Hl & Hd); [lia | now apply Forall_skipn | apply BF_encrypt_word |].
    destruct (cbc_block ks (of_bytes msg) v out Hk (of_bytes_word _ Hm) Hv Ho) as [E1 E2].
    fold tout in E1, E2. split; [apply Forall_app; split; [apply to_bytes_byte | assumption] |].
    split; [assumption |]. rewrite cbc_dec_S, E1, E2, Z.geb_leb.
    destruct (Z.leb_spec 8 (Z.of_nat (length msg))); [| lia].
    replace (Z.of_nat (length msg) - 8) with (Z.of_nat (length msg - 8)) by lia.
    rewrite skipn_app, skipn_all2, to_bytes_length, Nat.sub_diag by (rewrite to_bytes_length; lia).
    change (skipn 0 out) with out. cbn [app]. rewrite Hd.
    rewrite to_of_bytes by (assumption || lia). now rewrite firstn_skipn.
  - destruct (Z.eqb_spec (Z.of_nat (length msg)) 0) as [Hz|Hnz]; cbn [negb].
    + destruct msg; [| simpl in Hz; lia]. split; [constructor | split; [assumption |]].
      rewrite cbc_dec_S. reflexivity.
    + now apply cbc_partial; [| | | lia].
Qed.

(** ** Cipher feedback *)

Lemma cfb_byte_inverse ks b iv n : let '(c, iv', n') := cfb_byte ks true b iv n in
  cfb_byte ks false c iv n = (b, iv', n').
Proof.
  unfold cfb_byte. set (v := if n =? 0 then next_ivec ks iv else iv).
  now rewrite (Z.lxor_comm b), <- Z.lxor_assoc, Z.lxor_nilpotent, Z.lxor_0_l, Z.lxor_comm.
Qed.

Lemma cfb_inverse ks msg iv n : let '(out, iv', n') := BF_cfb64_encrypt msg ks iv n true in
  BF_cfb64_encrypt out ks iv n false = (msg, iv', n').
Proof.
  revert iv n; induction msg as [|b msg IH]; intros iv n; [reflexivity |]. cbn [BF_cfb64_encrypt].
  pose proof (cfb_byte_inverse ks b iv n) as H. destruct (cfb_byte ks true b iv n) as [[c iv1] n1].
  specialize (IH iv1 n1). destruct (BF_cfb64_encrypt msg ks iv1 n1 true) as [[out iv2] n2].
  cbn [BF_cfb64_encrypt]. now rewrite H, IH.
Qed.

(** Cutting the data into calls makes no difference. *)
Lemma cfb_app x y ks iv n e : BF_cfb64_encrypt (x ++ y) ks iv n e =
  let '(out, iv1, n1) := BF_cfb64_encrypt x ks iv n e in
  let '(out', iv2, n2) := BF_cfb64_encrypt y ks iv1 n1 e in (out ++ out', iv2, n2).
Proof.
  revert iv n; induction x as [|b x IH]; intros iv n; cbn [app BF_cfb64_encrypt].
  - now destruct (BF_cfb64_encrypt y ks iv n e) as [[out iv1] n1].
  - destruct (cfb_byte ks e b iv n) as [[c iv1] n1]. rewrite IH.
    destruct (BF_cfb64_encrypt x ks iv1 n1 e) as [[out iv2] n2].
    now destruct (BF_cfb64_encrypt y ks iv2 n2 e) as [[out' iv3] n3].
Qed.

Lemma cfb_pieces_concat xs ks iv n e :
  cfb_pieces xs ks iv n e = BF_cfb64_encrypt (concat xs) ks iv n e.
Proof.
  revert iv n; induction xs as [|x xs IH]; intros iv n; [reflexivity |]. cbn [cfb_pieces concat].
  rewrite cfb_app. destruct (BF_cfb64_encrypt x ks iv n e) as [[out iv1] n1]. now rewrite IH.
Qed.

Lemma pieces_concat fuel s : (length s <= fuel)%nat -> concat (pieces fuel s) = s.
Proof.
  revert s; induction fuel as [|f IH]; intros [|x s] Hf; try reflexivity; [simpl in Hf; lia |].
  cbn [pieces concat]. rewrite IH by (rewrite length_skipn; simpl in Hf; simpl length; lia).
  apply firstn_skipn.
Qed.

(** ** Output feedback *)

Lemma ofb_loop_inverse msg ks ti d n save :
  let '(out, ti', n', save') := ofb_loop msg ks ti d n save in
  ofb_loop out ks ti d n save = (msg, ti', n', save').
Proof.
  revert ti d n save; induction msg as [|b msg IH]; intros ti d n save; [reflexivity |].
  cbn [ofb_loop]. destruct (if n =? 0 then _ else _) as [[ti1 d1] save1] eqn:E.
  specialize (IH ti1 d1 ((n + 1) .& 0x07) save1).
  destruct (ofb_loop msg ks ti1 d1 _ save1) as [[[out ti2] n2] save2].
  cbn [ofb_loop]. rewrite E, IH. now rewrite Z.lxor_assoc, Z.lxor_nilpotent, Z.lxor_0_r.
Qed.

(** ** Properties *)

(** Under any key that [BF_set_key] builds from key bytes, decrypting a
    block of two 32-bit words undoes encrypting it, and the other way round. *)
Theorem BF_encrypt_inverse len data ab e : Forall is_byte data -> pair_u32 ab ->
  BF_encrypt (BF_encrypt ab (BF_set_key len data) e) (BF_set_key len data) (negb e) = ab.
Proof. intros Hd Hab. apply BF_encrypt_cancel; [now apply BF_set_key_ok | assumption]. Qed.

Definition sample_key : list Z := [1; 0x23; 0x45; 0x67; 0x89; 0xab; 0xcd; 0xef].

Lemma sample_key_bytes : Forall is_byte sample_key.
Proof. repeat (apply Forall_cons; [unfold is_byte; lia |]). apply Forall_nil. Qed.

Lemma BF_encrypt_inverse_witness :
  BF_encrypt (BF_encrypt (0x424c4f57, 0x46495348) (BF_set_key 8 sample_key) true)
    (BF_set_key 8 sample_key) false = (0x424c4f57, 0x46495348).
Proof.
  apply (BF_encrypt_inverse 8 sample_key (0x424c4f57, 0x46495348) true);
    [apply sample_key_bytes | split; unfold is_u32; cbn [fst snd]; lia].
Defined.

(** C22. [BF_cbc_encrypt] in its two directions, with the same key and initial
    [iv], gives back every message, also one whose length is not a multiple of
    the block size (the last block is padded and cut), and leaves the same
    [iv] on both sides. *)
Theorem BF_cbc_roundtrip ks iv msg : key_ok ks -> Forall is_byte iv -> Forall is_byte msg ->
  let n := Z.of_nat (length msg) in
  let '(out, iv') := BF_cbc_encrypt msg n ks iv true in
  BF_cbc_encrypt out n ks iv false = (msg, iv').
Proof.
  intros Hk Hiv Hm. cbv zeta. unfold BF_cbc_encrypt. rewrite Nat2Z.id.
  change (n2l iv 0, n2l iv 4) with (of_bytes iv).
  pose proof (cbc_dec_enc ks Hk (S (length msg)) msg (of_bytes iv) ltac:(lia) Hm (of_bytes_word iv Hiv)) as H.
  destruct (cbc_enc (S (length msg)) msg (Z.of_nat (length msg)) ks (of_bytes iv)) as [out last].
  destruct H as (_ & _ & ->). reflexivity.
Qed.

Lemma BF_cbc_roundtrip_witness :
  let '(out, iv') := BF_cbc_encrypt [104; 101; 108; 108; 111; 32; 119; 111; 114; 108; 100] 11
    (BF_set_key 8 sample_key) sample_key true in
  BF_cbc_encrypt out 11 (BF_set_key 8 sample_key) sample_key false =
  ([104; 101; 108; 108; 111; 32; 119; 111; 114; 108; 100], iv').
Proof.
  apply (BF_cbc_roundtrip (BF_set_key 8 sample_key) sample_key
    [104; 101; 108; 108; 111; 32; 119; 111; 114; 108; 100]);
    [apply BF_set_key_ok, sample_key_bytes | apply sample_key_bytes |].
  repeat (apply Forall_cons; [unfold is_byte; lia |]). apply Forall_nil.
Defined.

(** [BF_cfb64_encrypt] as a stream: the sender encrypts its data in the
    calls [xs]; whatever the calls [ys] in which the receiver decrypts the
    bytes that arrived, it gets the data back, and both end with the same
    [ivec] and [num].  Nothing is assumed of the key or the state. *)
Theorem BF_cfb64_roundtrip ks iv n xs ys :
  concat ys = fst (fst (cfb_pieces xs ks iv n true)) ->
  cfb_pieces ys ks iv n false =
  (concat xs, snd (fst (cfb_pieces xs ks iv n true)), snd (cfb_pieces xs ks iv n true)).
Proof.
  intros Hy. rewrite !cfb_pieces_concat in *. pose proof (cfb_inverse ks (concat xs) iv n) as H.
  destruct (BF_cfb64_encrypt (concat xs) ks iv n true) as [[out iv'] n']. cbn [fst snd] in *.
  now rewrite Hy.
Qed.

Lemma BF_cfb64_roundtrip_witness : exists ys,
  cfb_pieces ys (BF_set_key 8 sample_key) sample_key 0 false =
  ([1; 2; 3; 4; 5], snd (fst (cfb_pieces [[1; 2]; [3; 4; 5]] (BF_set_key 8 sample_key) sample_key 0 true)),
   snd (cfb_pieces [[1; 2]; [3; 4; 5]] (BF_set_key 8 sample_key) sample_key 0 true)).
Proof.
  exists [fst (fst (cfb_pieces [[1; 2]; [3; 4; 5]] (BF_set_key 8 sample_key) sample_key 0 true))].
  apply (BF_cfb64_roundtrip (BF_set_key 8 sample_key) sample_key 0 [[1; 2]; [3; 4; 5]]).
  apply app_nil_r.
Defined.

(** [BF_ofb64_encrypt] is its own inverse from the same [ivec] and [num],
    and moves both on in the same way. *)
Theorem BF_ofb64_involution ks ivec num msg :
  let '(out, ivec', num') := BF_ofb64_encrypt msg ks ivec num in
  BF_ofb64_encrypt out ks ivec num = (msg, ivec', num').
Proof.
  unfold BF_ofb64_encrypt. cbv zeta. set (v := (n2l ivec 0, n2l ivec 4)).
  pose proof (ofb_loop_inverse msg ks v (l2n (fst v) ++ l2n (snd v)) num false) as H.
  destruct (ofb_loop msg ks v _ num false) as [[[out ti] n] save]. now rewrite H.
Qed.

(** Decrypting an encryption, with both end-of-file bytes. *)
Lemma bf_main_back key ivec num file : exists b,
  bf_main key ivec num false (bf_main key ivec num true file) = file ++ [255; b].
Proof.
  unfold bf_main. rewrite !cfb_pieces_concat, !pieces_concat by lia.
  pose proof (cfb_inverse (BF_set_key 8 key) (file ++ [255]) ivec num) as H.
  destruct (BF_cfb64_encrypt (file ++ [255]) (BF_set_key 8 key) ivec num true) as [[out iv'] n'].
  cbn [fst]. rewrite cfb_app, H. cbn [BF_cfb64_encrypt].
  destruct (cfb_byte (BF_set_key 8 key) false 255 iv' n') as [[b iv2] n2].
  exists b. cbn [fst]. now rewrite <- app_assoc.
Qed.

(** With a key of up to 16 digits the loop stays inside [ukey], and with more it
    does not. *)
Lemma bf_key_loop_ok cp i by_ ukey : Forall is_hex cp -> 0 <= i -> i + Z.of_nat (length cp) <= 16 ->
  exists ukey', bf_key_loop cp i by_ ukey = Key ukey' [].
Proof.
  intros H; revert i by_ ukey; induction H as [|c cp Hc _ IH]; intros i by_ ukey Hi Hl; cbn [bf_key_loop length] in *; [eauto |].
  destruct (Z.ltb_spec i 64); [| lia]. destruct (hex_digit_some c Hc) as [d ->].
  destruct (negb (i .& 1 =? 0)); [| apply IH; lia].
  destruct (Z.ltb_spec ((i + 1) / 2 - 1) 8) as [_|Hbad]; [apply IH; lia | zlia].
Qed.

Lemma bf_key_loop_overrun cp i by_ ukey : Forall is_hex cp -> 0 <= i <= 17 -> 17 < i + Z.of_nat (length cp) ->
  bf_key_loop cp i by_ ukey = Overrun.
Proof.
  intros H; revert i by_ ukey; induction H as [|c cp Hc _ IH]; intros i by_ ukey Hi Hl; cbn [bf_key_loop length] in *; [lia |].
  destruct (Z.ltb_spec i 64); [| lia]. destruct (hex_digit_some c Hc) as [d ->].
  destruct (Z.eq_dec i 17) as [->|Hi17]; [reflexivity |].
  destruct (negb (i .& 1 =? 0)); [| apply IH; lia].
  destruct (Z.ltb_spec ((i + 1) / 2 - 1) 8) as [_|Hbad]; [apply IH; lia | reflexivity].
Qed.

(** The program, with a key of up to 16 hexadecimal digits, run to encrypt
    a file and again to decrypt the result with the same contents of its
    uninitialised [ivec] and [num], exits with status 1 both times and does not
    give the file back: the byte 255 of the first run's [EOF] follows it, and then
    one more byte from the second run's.  A key of more than 17 digits, which the
    program means to accept, makes it write past the end of [ukey]. *)
Theorem bf_program_appends cp long ukey ivec num file : Forall is_hex cp -> (length cp <= 16)%nat ->
  Forall is_hex long -> (17 < length long)%nat ->
  (exists out b, bf_program 101 cp (Some file) true ukey ivec num = Some (1, Some out) /\
     bf_program 100 cp (Some out) true ukey ivec num = Some (1, Some (file ++ [255; b]))) /\
  bf_program 101 long (Some file) true ukey ivec num = None.
Proof.
  intros Hcp Hl Hlong Hll. unfold bf_program. cbn [Z.eqb Pos.eqb orb].
  rewrite (bf_key_loop_overrun long) by (assumption || lia). split; [| reflexivity].
  destruct (bf_key_loop_ok cp 0 0 ukey) as [key ->]; [assumption | lia | lia |]. cbn [length Nat.eqb negb].
  destruct (bf_main_back key ivec num file) as [b Hb]. exists (bf_main key ivec num true file), b. now rewrite Hb.
Qed.

Lemma bf_program_appends_witness : exists out b,
  bf_program 101 [65; 48; 102] (Some [1; 2; 3]) true (repeat 0 8) (repeat 0 8) 0 = Some (1, Some out) /\
  bf_program 100 [65; 48; 102] (Some out) true (repeat 0 8) (repeat 0 8) 0 = Some (1, Some ([1; 2; 3] ++ [255; b])).
Proof.
  apply (bf_program_appends [65; 48; 102] (repeat 49 20) (repeat 0 8) (repeat 0 8) 0 [1; 2; 3]).
  - repeat constructor; unfold is_hex; lia.
  - cbn. lia.
  - apply Forall_forall. intros x Hx%repeat_spec. subst. unfold is_hex. lia.
  - cbn. lia.
Defined.
