(* ===== verification/Patricia.v ===== *)
(** * Patricia: a trie of IP addresses

    Models [network/patricia]: the trie operations of [patricia.c] and the loop
    of [patricia_test.c] that looks every address up and inserts it when it is
    new.

    The nodes are linked by pointers that go down the tree and back up into it,
    so the model keeps the store: a heap is the list of the allocated nodes and
    a pointer is an index into it; [None] is the null pointer.  A node that the
    program frees stays in the list, unreferenced.  The array [p_m] is owned by
    its node and is a list there.

    A run is [None] when it does not end within its fuel, when it shifts by an
    amount for which C defines no result, or when it follows a null pointer.  The
    program tests the results of its own calls of [malloc], which an oracle gives;
    the calls in [pat_insert] and [pat_remove], which are not tested, succeed.  The
    uninitialised variable that [pat_remove] tests is a parameter. *)

From Stdlib Require Import ZArith Lia List Bool Permutation Sorted.
From S2P Require Import Prelude.
Import ListNotations.

(** ** Data *)

(** [struct ptree_mask]; the data pointer is a number, 0 for null. *)
Record ptree_mask := mkMask { pm_mask : Z; pm_data : Z }.

(** [struct ptree] *)
Record ptree := mkPtree {
  p_key : Z;
  p_m : list ptree_mask;
  p_mlen : Z;
  p_b : Z;
  p_left : nat;
  p_right : nat
}.

Definition heap := list ptree.

(** [bzero]ed memory. *)
Definition zero_node : ptree := mkPtree 0 [] 0 0 0 0.

Definition get (h : heap) (a : nat) : ptree := nth a h zero_node.
Definition set (h : heap) (a : nat) (n : ptree) : heap := upd h a n.

Definition set_key (k : Z) (n : ptree) : ptree :=
  mkPtree k (p_m n) (p_mlen n) (p_b n) (p_left n) (p_right n).
Definition set_masks (m : list ptree_mask) (len : Z) (n : ptree) : ptree :=
  mkPtree (p_key n) m len (p_b n) (p_left n) (p_right n).
Definition set_links (b : Z) (l r : nat) (n : ptree) : ptree :=
  mkPtree (p_key n) (p_m n) (p_mlen n) b l r.
Definition set_left (l : nat) (n : ptree) : ptree := set_links (p_b n) l (p_right n) n.
Definition set_right (r : nat) (n : ptree) : ptree := set_links (p_b n) (p_left n) r n.

(** [p_m->pm_mask]: the first mask of a node. *)
Definition first_mask (n : ptree) : ptree_mask := nth 0 (p_m n) (mkMask 0 0).

(** ** Descending *)

(** [bit]: whether bit [i], counted from the left of 32, is set.  The shift
    count [31-i] must be that of an [int]; [1 << 31] is the sign bit, which the
    conversion to [unsigned long] extends. *)
Definition bit (i key : Z) : option bool :=
  if (0 <=? i) && (i <=? 31)
  then Some (negb ((key .& u64 (i32 (1 << (31 - i)))) =? 0))
  else None.

(** [bit(t->p_b, key) ? t->p_right : t->p_left] *)
Definition step (h : heap) (t : nat) (key : Z) : option nat :=
  let* b := bit (p_b (get h t)) key in
  Some (if b then p_right (get h t) else p_left (get h t)).

(** [do { i = t->p_b; t = ...; } while (i < t->p_b)] *)
Fixpoint find_leaf (fuel : nat) (h : heap) (t : nat) (key : Z) : option nat :=
  match fuel with
  | O => None
  | S f =>
      let i := p_b (get h t) in
      let* t := step h t key in
      if i <? p_b (get h t) then find_leaf f h t key else Some t
  end.

(** The bits to test are among 0 to 31 and increase along the way. *)
Definition depth : nat := 33.

(** ** Operations *)

(** [pat_count] *)
Fixpoint pat_count (fuel : nat) (h : heap) (t : nat) (b : Z) : option Z :=
  match fuel with
  | O => None
  | S f =>
      if p_b (get h t) <=? b then Some 0
      else
        let* l := pat_count f h (p_left (get h t)) (p_b (get h t)) in
        let* r := pat_count f h (p_right (get h t)) (p_b (get h t)) in
        Some (p_mlen (get h t) + l + r)
  end.

(** [insertR]: the returned pointer and the heap. *)
Fixpoint insertR (fuel : nat) (s : heap) (h n : nat) (d : Z) (p : nat) : option (nat * heap) :=
  match fuel with
  | O => None
  | S f =>
      if (d <=? p_b (get s h)) || (p_b (get s h) <=? p_b (get s p)) then
        let* b := bit d (p_key (get s n)) in
        Some (n, set s n (set_links d (if b then h else n) (if b then n else h) (get s n)))
      else
        let* b := bit (p_b (get s h)) (p_key (get s n)) in
        if b then
          let* (r, s) := insertR f s (p_right (get s h)) n d h in
          Some (h, set s h (set_right r (get s h)))
        else
          let* (l, s) := insertR f s (p_left (get s h)) n d h in
          Some (h, set s h (set_left l (get s h)))
  end.

(** The search for a duplicate mask: its index. *)
Fixpoint find_mask (mask : Z) (ms : list ptree_mask) : option nat :=
  match ms with
  | [] => None
  | m :: rest => if mask =? pm_mask m then Some O else option_map S (find_mask mask rest)
  end.

(** The loop that copies the masks of [t] and the new mask into [buf]; [old] are
    the masks from index [i] on.  The results are the masks written, the mask of
    [n] at the end and [copied]. *)
Fixpoint merge_masks (fuel : nat) (new : ptree_mask) (old : list ptree_mask) (copied : bool)
  : option (list ptree_mask * ptree_mask * bool) :=
  match fuel with
  | O => None
  | S f =>
      match old with
      | [] => Some ([], new, copied)
      | m :: rest =>
          if pm_mask new >? pm_mask m then
            let* (buf, new, copied) := merge_masks f new rest copied in
            Some (m :: buf, new, copied)
          else
            let* (buf, new', copied) := merge_masks f (mkMask 0xffffffff (pm_data new)) old true in
            Some (new :: buf, new', copied)
      end
  end.

Definition insert_mask (fuel : nat) (new : ptree_mask) (old : list ptree_mask)
  : option (list ptree_mask) :=
  let* (buf, new, copied) := merge_masks fuel new old false in
  Some (if copied : bool then buf else buf ++ [new]).

(** [for (i=1; i < 32 && bit(i, n->p_key) == bit(i, t->p_key); i++);] from [i] on. *)
Fixpoint first_diff (left : nat) (i a b : Z) : option Z :=
  match left with
  | O => Some i
  | S m =>
      let* x := bit i a in
      let* y := bit i b in
      if eqb x y then first_diff m (i + 1) a b else Some i
  end.

(** [pat_insert]: the returned pointer and the heap. *)
Definition pat_insert (s : heap) (n head : option nat) : option (option nat * heap) :=
  match head, n with
  | Some head, Some n =>
      match p_m (get s n) with
      | [] => Some (None, s)
      | new :: _ =>
          let s := set s n (set_key (p_key (get s n) .& pm_mask new) (get s n)) in
          let* t := find_leaf depth s head (p_key (get s n)) in
          if p_key (get s n) =? p_key (get s t) then
            let ms := firstn (Z.to_nat (p_mlen (get s t))) (p_m (get s t)) in
            match find_mask (pm_mask new) ms with
            | Some i =>
                let ms := upd ms i (mkMask (pm_mask (nth i ms new)) (pm_data new)) in
                Some (Some t, set s t (set_masks ms (p_mlen (get s t)) (get s t)))
            | None =>
                let* buf := insert_mask (S (S (length ms))) new ms in
                Some (Some t, set s t (set_masks buf (u8 (p_mlen (get s t) + 1)) (get s t)))
            end
          else
            let* i := first_diff 31 1 (p_key (get s n)) (p_key (get s t)) in
            let* b := bit (p_b (get s head)) (p_key (get s n)) in
            if b then
              let* (r, s) := insertR depth s (p_right (get s head)) n i head in
              Some (Some n, set s head (set_right r (get s head)))
            else
              let* (l, s) := insertR depth s (p_left (get s head)) n i head in
              Some (Some n, set s head (set_left l (get s head)))
      end
  | _, _ => Some (None, s)
  end.

(** [pat_search]: [p] is the best match so far. *)
Fixpoint search_loop (fuel : nat) (h : heap) (t : nat) (p : option nat) (key : Z)
  : option (option nat) :=
  match fuel with
  | O => None
  | S f =>
      let p := if p_key (get h t) =? (key .& pm_mask (first_mask (get h t))) then Some t else p in
      let i := p_b (get h t) in
      let* t := step h t key in
      if i <? p_b (get h t) then search_loop f h t p key
      else Some (if p_key (get h t) =? (key .& pm_mask (first_mask (get h t))) then Some t else p)
  end.

Definition pat_search (h : heap) (key : Z) (head : option nat) : option (option nat) :=
  match head with
  | None => Some None
  | Some t => search_loop depth h t None key
  end.

(** ** Removal *)

(** The descent of [pat_remove]: the node with its parent and grandparent. *)
Fixpoint find_family (fuel : nat) (h : heap) (p t : nat) (key : Z) : option (nat * nat * nat) :=
  match fuel with
  | O => None
  | S f =>
      let i := p_b (get h t) in
      let g := p in
      let p := t in
      let* t := step h t key in
      if i <? p_b (get h t) then find_family f h p t key else Some (g, p, t)
  end.

(** The node whose link leads back up to [p]. *)
Fixpoint find_back (fuel : nat) (h : heap) (pt : nat) (key : Z) : option nat :=
  match fuel with
  | O => None
  | S f =>
      let i := p_b (get h pt) in
      let pp := pt in
      let* pt := step h pt key in
      if i <? p_b (get h pt) then find_back f h pt key else Some pp
  end.

(** [if (bit(a->p_b, key)) a->p_right = x; else a->p_left = x;] *)
Definition set_child (s : heap) (a : nat) (key : Z) (x : nat) : option heap :=
  let* b := bit (p_b (get s a)) key in
  Some (set s a (if b then set_right x (get s a) else set_left x (get s a))).

(** [pat_remove]: the result and the heap.  The function tests the pointer [t]
    before it is assigned: [garbage] is what the variable happens to hold, and if
    that is null nothing is removed. *)
Definition pat_remove (garbage : option nat) (s : heap) (n head : nat) : option (Z * heap) :=
  let key := p_key (get s n) in
  match p_m (get s n), garbage with
  | [], _ => Some (0, s)
  | _, None => Some (0, s)
  | mask :: _, Some _ =>
      let* (g, p, t) := find_family depth s head head key in
      if negb (p_key (get s t) =? key) then Some (0, s)
      else if p_mlen (get s t) =? 1 then
        if p_b (get s t) =? 0 then Some (0, s)
        else if negb (pm_mask (first_mask (get s t)) =? pm_mask mask) then Some (0, s)
        else
          let* pp := find_back depth s p (p_key (get s p)) in
          let* s := set_child s pp (p_key (get s p)) t in
          let* b := bit (p_b (get s p)) key in
          let* s := set_child s g key (if b then p_left (get s p) else p_right (get s p)) in
          let s := if negb (t =? p)%nat
                   then set s t (set_masks (p_m (get s p)) (p_mlen (get s p))
                                   (set_key (p_key (get s p)) (get s t)))
                   else s in
          Some (1, s)
      else
        let ms := firstn (Z.to_nat (p_mlen (get s t))) (p_m (get s t)) in
        match find_mask (pm_mask mask) ms with
        | None => Some (0, s)
        | Some _ =>
            let buf := filter (fun m => negb (pm_mask mask =? pm_mask m)) ms in
            Some (1, set s t (set_masks buf (u8 (p_mlen (get s t) - 1)) (get s t)))
        end
  end.

(** ** The program: [patricia_test.c] *)

(** The head node that [main] builds, at address 0. *)
Definition initial_heap : heap := [mkPtree 0 [mkMask 0 1] 1 0 0 0].

(** What becomes of a line: the program goes on, having found the address or not,
    or it exits with a status. *)
Inductive line := Handled (found : bool) (s : heap) | Exits (status : Z).

(** One line of the input: look the address up, report it found or insert it.
    [malloc k] says whether the [k]-th call of [malloc] succeeds; [k] calls came
    before.  The node, its mask and its data are allocated. *)
Definition handle (malloc : nat -> bool) (k : nat) (s : heap) (addr : Z) : option line :=
  if negb (malloc k) then Some (Exits 0)
  else if negb (malloc (k + 1)%nat) then Some (Exits 0)
  else if negb (malloc (k + 2)%nat) then Some (Exits 0)
  else
    let n := length s in
    let s := s ++ [mkPtree addr [mkMask 0xffffffff 1] 0 0 0 0] in
    let* pfind := pat_search s addr (Some 0%nat) in
    match pfind with
    | None => None
    | Some f =>
        if p_key (get s f) =? addr then Some (Handled true s)
        else
          let* (p, s) := pat_insert s (Some n) (Some 0%nat) in
          match p with
          | None => Some (Exits 0)
          | Some _ => Some (Handled false s)
          end
    end.

(** The loop over the lines: for every address whether "Found." is printed, and the
    exit status. *)
Fixpoint patricia_loop (malloc : nat -> bool) (k : nat) (s : heap) (addrs : list Z) : option (list bool * Z) :=
  match addrs with
  | [] => Some ([], 1)
  | a :: rest =>
      let* l := handle malloc k s a in
      match l with
      | Exits status => Some ([], status)
      | Handled found s =>
          let* (fs, status) := patricia_loop malloc (k + 3) s rest in
          Some (found :: fs, status)
      end
  end.

(** [main] on a file of addresses: the head node takes three blocks as well. *)
Definition patricia_main (malloc : nat -> bool) (addrs : list Z) : option (list bool * Z) :=
  if negb (malloc 0%nat) then Some ([], 0)
  else if negb (malloc 1%nat) then Some ([], 0)
  else if negb (malloc 2%nat) then Some ([], 0)
  else patricia_loop malloc 3 initial_heap addrs.

Example patricia_small :
  patricia_main (fun _ => true) [5; 9; 5; 0x80000001; 0; 0xffffffff; 9; 0x80000001; 77] =
  Some ([false; false; true; false; true; false; true; true; false], 1).
Proof. vm_compute. reflexivity. Qed.

(** ** The order of the masks *)

Definition mask_lt (a b : ptree_mask) : Prop := pm_mask a < pm_mask b.

Definition is_full (m : ptree_mask) : bool := pm_mask m =? 0xffffffff.

Lemma merge_masks_S f new m rest copied : merge_masks (S f) new (m :: rest) copied =
  if pm_mask new >? pm_mask m then
    let* (buf, new, copied) := merge_masks f new rest copied in Some (m :: buf, new, copied)
  else
    let* (buf, new', copied) := merge_masks f (mkMask 0xffffffff (pm_data new)) (m :: rest) true in
    Some (new :: buf, new', copied).
Proof. reflexivity. Qed.

(** Once the new mask has been copied the rest follows, up to a full mask. *)
Lemma merge_copied data old : Forall (fun m => is_u32 (pm_mask m)) old -> existsb is_full old = false ->
  forall fuel, (length old < fuel)%nat ->
  merge_masks fuel (mkMask 0xffffffff data) old true = Some (old, mkMask 0xffffffff data, true).
Proof.
  induction 1 as [|m rest Hm Hr IH]; intros Hf [|f] Hlen; try (simpl in Hlen; lia); [reflexivity |].
  cbn [existsb length] in *. apply orb_false_iff in Hf as [Hm' Hf]. apply Z.eqb_neq in Hm'.
  rewrite merge_masks_S. cbn [pm_mask]. unfold is_u32 in Hm.
  destruct (Z.gtb_spec 0xffffffff (pm_mask m)); [| lia]. rewrite IH by (auto; lia). reflexivity.
Qed.

(** At a full mask the loop stays where it is. *)
Lemma merge_stuck new old copied fuel : pm_mask new = 0xffffffff -> existsb is_full old = true ->
  merge_masks fuel new old copied = None.
Proof.
  revert new old copied; induction fuel as [|f IH]; intros new [|m rest] copied Hn Hf;
    try reflexivity; try discriminate.
  rewrite merge_masks_S. cbn [existsb] in Hf. rewrite Hn.
  destruct (Z.gtb_spec 0xffffffff (pm_mask m)) as [Hlt|Hge].
  - unfold is_full at 1 in Hf. destruct (Z.eqb_spec (pm_mask m) 0xffffffff); [lia |]. now rewrite IH.
  - now rewrite (IH (mkMask 0xffffffff (pm_data new)) (m :: rest)).
Qed.

Lemma merge_diverges new old copied fuel : pm_mask new < 0xffffffff -> existsb is_full old = true ->
  merge_masks fuel new old copied = None.
Proof.
  revert old copied; induction fuel as [|f IH]; intros [|m rest] copied Hn Hf; try reflexivity; try discriminate.
  rewrite merge_masks_S. destruct (Z.gtb_spec (pm_mask new) (pm_mask m)) as [Hlt|Hge].
  - cbn [existsb] in Hf. unfold is_full at 1 in Hf.
    destruct (Z.eqb_spec (pm_mask m) 0xffffffff); [lia |]. now rewrite IH.
  - now rewrite merge_stuck.
Qed.

(** Without a full mask the new one goes before the first greater one. *)
Lemma merge_sorted new old : Forall (fun m => is_u32 (pm_mask m)) old -> existsb is_full old = false ->
  StronglySorted mask_lt old -> (forall m, In m old -> pm_mask m <> pm_mask new) ->
  forall fuel, (length old + 1 < fuel)%nat -> exists lo hi, old = lo ++ hi /\
    Forall (fun m => mask_lt m new) lo /\ Forall (mask_lt new) hi /\
    merge_masks fuel new old false =
      match hi with
      | [] => Some (lo, new, false)
      | _ => Some (lo ++ new :: hi, mkMask 0xffffffff (pm_data new), true)
      end.
Proof.
  induction 1 as [|m rest Hm Hr IH]; intros Hf Hs Hd [|f] Hlen; cbn [length] in Hlen; try lia.
  - exists [], []. auto.
  - rewrite merge_masks_S. apply StronglySorted_inv in Hs as [Hs Hall]. pose proof Hf as Hf'.
    cbn [existsb] in Hf. apply orb_false_iff in Hf as [_ Hf].
    destruct (Z.gtb_spec (pm_mask new) (pm_mask m)) as [Hlt|Hge].
    + destruct (IH Hf Hs (fun x Hx => Hd x (or_intror Hx)) f ltac:(lia)) as (lo & hi & -> & Hlo & Hhi & ->).
      exists (m :: lo), hi. split; [reflexivity |]. split; [now constructor |]. split; [assumption |].
      now destruct hi.
    + pose proof (Hd m (or_introl eq_refl)) as Hne.
      exists [], (m :: rest). split; [reflexivity |]. split; [constructor |]. split.
      * constructor; [unfold mask_lt; lia |]. revert Hall. apply Forall_impl. intros x. unfold mask_lt. lia.
      * rewrite merge_copied; [reflexivity | now constructor | assumption | cbn [length]; lia].
Qed.

Lemma sorted_insert new lo hi : StronglySorted mask_lt (lo ++ hi) ->
  Forall (fun m => mask_lt m new) lo -> Forall (mask_lt new) hi -> StronglySorted mask_lt (lo ++ new :: hi).
Proof.
  induction lo as [|m lo IH]; cbn [app]; intros Hs Hlo Hhi; [now constructor |].
  apply StronglySorted_inv in Hs as [Hs Hall]. inversion Hlo as [|? ? Hm Hlo']; subst.
  constructor; [now apply IH |]. apply Forall_app in Hall as [Ha Hb]. apply Forall_app. split; [assumption |].
  constructor; assumption.
Qed.

(** Adding a mask to a node whose masks, all of 32 bits, are in increasing
    order and do not contain it: when 0xffffffff is not among them the result is
    the masks with the new one, in increasing order; when it is among them the
    copying loop runs for ever. *)
Theorem insert_mask_ordered (new : ptree_mask) (old : list ptree_mask) :
  is_u32 (pm_mask new) -> Forall (fun m => is_u32 (pm_mask m)) old -> StronglySorted mask_lt old ->
  (forall m, In m old -> pm_mask m <> pm_mask new) ->
  if existsb is_full old then forall fuel, insert_mask fuel new old = None
  else exists buf, insert_mask (S (S (length old))) new old = Some buf /\
    StronglySorted mask_lt buf /\ Permutation buf (new :: old).
Proof.
  intros Hn Hu Hs Hd. destruct (existsb is_full old) eqn:E.
  - intros fuel. unfold insert_mask. rewrite merge_diverges; [reflexivity | | assumption].
    apply existsb_exists in E as (m & Hm & E%Z.eqb_eq). specialize (Hd m Hm). unfold is_u32 in Hn. lia.
  - unfold insert_mask. destruct (merge_sorted new old Hu E Hs Hd (S (S (length old))) ltac:(lia))
      as (lo & hi & -> & Hlo & Hhi & ->).
    exists (lo ++ new :: hi). split; [destruct hi; reflexivity |].
    split; [now apply sorted_insert | symmetry; apply Permutation_middle].
Qed.

Lemma insert_mask_ordered_witness :
  insert_mask 4 (mkMask 0xff00 1) [mkMask 0 2; mkMask 0xffff00 3] =
    Some [mkMask 0 2; mkMask 0xff00 1; mkMask 0xffff00 3] /\
  (exists buf, insert_mask 4 (mkMask 0xff00 1) [mkMask 0 2; mkMask 0xffff00 3] = Some buf /\
    StronglySorted mask_lt buf /\ Permutation buf [mkMask 0xff00 1; mkMask 0 2; mkMask 0xffff00 3]) /\
  (forall fuel, insert_mask fuel (mkMask 0xff00 1) [mkMask 0xffffffff 3] = None).
Proof.
  split; [reflexivity | split].
  - apply (insert_mask_ordered (mkMask 0xff00 1) [mkMask 0 2; mkMask 0xffff00 3]).
    + vm_compute. intuition congruence.
    + repeat constructor; vm_compute; congruence.
    + repeat constructor; vm_compute; congruence.
    + intros m [<-|[<-|[]]]; cbn; lia.
  - apply (insert_mask_ordered (mkMask 0xff00 1) [mkMask 0xffffffff 3]).
    + vm_compute. intuition congruence.
    + repeat constructor; vm_compute; congruence.
    + repeat constructor; vm_compute; congruence.
    + intros m [<-|[]]; cbn; lia.
Defined.
