(* ===== verification/PatriciaTree.v ===== *)
From Stdlib Require Import ZArith Lia List Bool Permutation.
From S2P Require Import Prelude Patricia.
Import ListNotations.

(** ** The tree in the heap

    The links that go down form a binary tree; a link that goes up (to a node
    whose bit is not greater) is a leaf of it. *)

Inductive tree :=
| Up (a : nat)
| Br (a : nat) (l r : tree).

Fixpoint leaves (T : tree) : list nat :=
  match T with
  | Up a => [a]
  | Br _ l r => leaves l ++ leaves r
  end.

Fixpoint inner (T : tree) : list nat :=
  match T with
  | Up _ => []
  | Br a l r => a :: inner l ++ inner r
  end.

(** [rep h b ptr T]: the link [ptr] of a node with bit [b] holds the tree [T]. *)
Fixpoint rep (h : heap) (b : Z) (ptr : nat) (T : tree) : Prop :=
  match T with
  | Up a => ptr = a /\ (a < length h)%nat /\ 0 <= p_b (get h a) <= b
  | Br a l r =>
      ptr = a /\ (a < length h)%nat /\ b < p_b (get h a) <= 31 /\
      rep h (p_b (get h a)) (p_left (get h a)) l /\ rep h (p_b (get h a)) (p_right (get h a)) r
  end.

(** Bit [i] from the left. *)
Definition kbit (i k : Z) : bool := Z.testbit k (31 - i).

(** The bits from 1 up to [d] agree; bit 0 chooses the side of the head. *)
Definition agree (d j k : Z) : Prop := forall i, 1 <= i < d -> kbit i j = kbit i k.

(** A node separates the keys of its leaves by its bit, and they agree before it. *)
Fixpoint wf (kf bf : nat -> Z) (T : tree) : Prop :=
  match T with
  | Up _ => True
  | Br a l r =>
      (forall x, In x (leaves l) -> kbit (bf a) (kf x) = false) /\
      (forall x, In x (leaves r) -> kbit (bf a) (kf x) = true) /\
      (forall x y, In x (leaves l ++ leaves r) -> In y (leaves l ++ leaves r) ->
         agree (bf a) (kf x) (kf y)) /\
      wf kf bf l /\ wf kf bf r
  end.

(** A node is also a leaf, below itself. *)
Fixpoint owned (T : tree) : Prop :=
  match T with
  | Up _ => True
  | Br a l r => In a (leaves l ++ leaves r) /\ owned l /\ owned r
  end.

(** A leaf is one of the nodes above it. *)
Fixpoint up_ok (above : list nat) (T : tree) : Prop :=
  match T with
  | Up a => In a above
  | Br a l r => up_ok (a :: above) l /\ up_ok (a :: above) r
  end.

(** The leaf that the bits of a key lead to. *)
Fixpoint walk (bf : nat -> Z) (key : Z) (T : tree) : nat :=
  match T with
  | Up a => a
  | Br a l r => if kbit (bf a) key then walk bf key r else walk bf key l
  end.

(** The tree after an insertion of [n] at bit [d]. *)
Fixpoint ins (bf : nat -> Z) (n : nat) (d key : Z) (T : tree) : tree :=
  let new := if kbit d key then Br n T (Up n) else Br n (Up n) T in
  match T with
  | Up _ => new
  | Br a l r =>
      if d <=? bf a then new
      else if kbit (bf a) key then Br a l (ins bf n d key r) else Br a (ins bf n d key l) r
  end.

(** ** Bits *)

Lemma bit_spec i k : 0 <= i <= 31 -> is_u32 k -> bit i k = Some (kbit i k).
Proof.
  intros Hi Hk. unfold bit, kbit.
  destruct (Z.leb_spec 0 i), (Z.leb_spec i 31); try lia. cbn [andb]. f_equal.
  rewrite <- (land_bit_nonzero k (31 - i)) by lia. do 2 f_equal.
  destruct (Z.eqb_spec i 0) as [->|Hne].
  - change (1 << (31 - 0)) with (2 ^ 31).
    replace (u64 (i32 (2 ^ 31))) with (2 ^ 31 + 2 ^ 32 * (2 ^ 32 - 1)) by reflexivity.
    rewrite <- (Z.mod_small k (2 ^ 32)) at 1 by assumption.
    replace (k mod 2 ^ 32) with (k + 2 ^ 32 * 0) by (rewrite Z.mod_small by assumption; lia).
    rewrite land_split by (unfold is_u32 in Hk; lia). rewrite Z.land_0_l. lia.
  - rewrite Z.shiftl_1_l. assert (2 ^ (31 - i) < 2 ^ 31) by (apply Z.pow_lt_mono_r; lia).
    assert (0 < 2 ^ (31 - i)) by (apply Z.pow_pos_nonneg; lia).
    rewrite i32_id, u64_id by (unfold is_i32, is_u64; lia). reflexivity.
Qed.

Lemma key_eq_bits j k : is_u32 j -> is_u32 k -> kbit 0 j = kbit 0 k -> agree 32 j k -> j = k.
Proof.
  intros Hj Hk H0 Ha. apply Z.bits_inj'. intros n Hn. destruct (Z.ltb_spec n 32).
  - destruct (Z.eqb_spec n 31) as [->|]; [exact H0 |].
    specialize (Ha (31 - n) ltac:(lia)). unfold kbit in Ha. now replace (31 - (31 - n)) with n in Ha by lia.
  - now rewrite !word_high by assumption.
Qed.

Lemma first_diff_spec left i a b : is_u32 a -> is_u32 b -> 1 <= i -> i + Z.of_nat left = 32 ->
  exists d, first_diff left i a b = Some d /\ i <= d <= 32 /\
    (forall j, i <= j < d -> kbit j a = kbit j b) /\ (d < 32 -> kbit d a <> kbit d b).
Proof.
  intros Ha Hb. revert i; induction left as [|m IH]; intros i Hi Hl; cbn [first_diff].
  - exists i. split; [reflexivity |]. split; [lia | split; lia].
  - rewrite !bit_spec by (assumption || lia). cbn [bind].
    destruct (eqb (kbit i a) (kbit i b)) eqn:E.
    + apply eqb_prop in E. destruct (IH (i + 1)) as (d & -> & Hd & Hs & Hn); [lia | lia |].
      exists d. split; [reflexivity |]. split; [lia |]. split; [| assumption].
      intros j Hj. destruct (Z.eqb_spec j i) as [->|]; [assumption | apply Hs; lia].
    + exists i. split; [reflexivity |]. split; [lia |]. split; [lia |].
      intros _ Heq. rewrite Heq, eqb_reflx in E. discriminate.
Qed.

(** ** Trees *)

Lemma NoDup_app_iff {A} (l r : list A) :
  NoDup (l ++ r) <-> NoDup l /\ NoDup r /\ (forall x, In x l -> ~ In x r).
Proof.
  split; [| intros (Hl & Hr & H); now apply NoDup_app]. intros H.
  split; [exact (NoDup_app_remove_r _ _ H) | split; [exact (NoDup_app_remove_l _ _ H) |]].
  induction l as [|a l IH]; [intros x [] |]. cbn [app] in H. apply NoDup_cons_iff in H as [Hn H].
  intros x [<-|Hx] Hr; [apply Hn, in_or_app; now right | exact (IH H x Hx Hr)].
Qed.

Lemma walk_leaf bf key T : In (walk bf key T) (leaves T).
Proof.
  induction T as [a|a l IHl r IHr]; cbn [walk leaves]; [now left |].
  apply in_or_app. destruct (kbit (bf a) key); auto.
Qed.

(** A key that is in the tree is where its bits lead. *)
Lemma walk_unique h b ptr T kf key y : rep h b ptr T -> 0 <= b -> wf kf (fun a => p_b (get h a)) T ->
  In y (leaves T) -> agree 32 key (kf y) -> walk (fun a => p_b (get h a)) key T = y.
Proof.
  revert b ptr; induction T as [a|a l IHl r IHr]; intros b ptr; cbn [rep wf leaves walk].
  - intros _ _ _ [->|[]] _. reflexivity.
  - intros (_ & _ & Hb & Hl & Hr) H0 (W0 & W1 & _ & Wl & Wr) Hy Ha.
    rewrite (Ha (p_b (get h a))) by lia.
    apply in_app_or in Hy as [Hy|Hy].
    + rewrite W0 by assumption. apply (IHl _ _ Hl); [lia | assumption | assumption | assumption].
    + rewrite W1 by assumption. apply (IHr _ _ Hr); [lia | assumption | assumption | assumption].
Qed.

Lemma rep_frame h h' b ptr T : (length h <= length h')%nat ->
  (forall a, In a (inner T) -> get h' a = get h a) ->
  (forall a, In a (leaves T) -> p_b (get h' a) = p_b (get h a)) ->
  rep h b ptr T -> rep h' b ptr T.
Proof.
  intros Hlen. revert b ptr; induction T as [a|a l IHl r IHr]; intros b ptr Hi Hv; cbn [rep].
  - intros (-> & Ha & Hb). rewrite (Hv a) by now left. split; [reflexivity | split; [lia | assumption]].
  - cbn [inner leaves] in *. rewrite (Hi a) by now left. intros (-> & Ha & Hb & Hl & Hr).
    split; [reflexivity | split; [lia | split; [assumption | split]]].
    + apply IHl; [| | assumption]; intros x Hx; [apply Hi; right | apply Hv]; apply in_or_app; now left.
    + apply IHr; [| | assumption]; intros x Hx; [apply Hi; right | apply Hv]; apply in_or_app; now right.
Qed.

Lemma rep_range h b ptr T : rep h b ptr T ->
  (forall a, In a (leaves T) -> (a < length h)%nat) /\ (forall a, In a (inner T) -> (a < length h)%nat).
Proof.
  revert b ptr; induction T as [a|a l IHl r IHr]; intros b ptr; cbn [rep leaves inner].
  - intros (-> & Ha & _). split; [intros x [<-|[]]; assumption | intros x []].
  - intros (_ & Ha & _ & Hl & Hr). destruct (IHl _ _ Hl), (IHr _ _ Hr). split.
    + intros x [Hx|Hx]%in_app_or; auto.
    + intros x [<-|[Hx|Hx]%in_app_or]; auto.
Qed.

Lemma wf_ext kf bf kf' bf' T : (forall a, In a (leaves T) -> kf' a = kf a) ->
  (forall a, In a (inner T) -> bf' a = bf a) -> wf kf bf T -> wf kf' bf' T.
Proof.
  induction T as [a|a l IHl r IHr]; cbn [wf leaves inner]; [auto |]. intros Hk Hb (W0 & W1 & Wa & Wl & Wr).
  rewrite (Hb a) by now left.
  split; [intros x Hx; rewrite Hk by (apply in_or_app; now left); auto |].
  split; [intros x Hx; rewrite Hk by (apply in_or_app; now right); auto |].
  split; [intros x y Hx Hy; rewrite !Hk by assumption; auto |].
  split; [apply IHl | apply IHr]; auto; intros x Hx; [apply Hk | apply Hb; right | apply Hk | apply Hb; right];
    apply in_or_app; auto.
Qed.

Lemma owned_inner T a : owned T -> In a (inner T) -> In a (leaves T).
Proof.
  induction T as [b|b l IHl r IHr]; cbn [owned inner leaves]; [intros _ [] |].
  intros (Hb & Hl & Hr) [<-|[Ha|Ha]%in_app_or]; [assumption | |]; apply in_or_app; auto.
Qed.

Lemma up_ok_incl above above' T : incl above above' -> up_ok above T -> up_ok above' T.
Proof.
  revert above above'; induction T as [a|a l IHl r IHr]; intros above above' Hi; cbn [up_ok]; [apply Hi |].
  intros [Hl Hr]. split; [eapply IHl | eapply IHr]; eauto; intros x [<-|Hx]; [now left | right; auto | now left | right; auto].
Qed.

(** ** The tree of an insertion *)

Section Insertion.

Variables (kf bf : nat -> Z) (n : nat) (d key : Z).

(** The bit of the node that the insertion stops at is not [d]. *)
Fixpoint stops (T : tree) : Prop :=
  match T with
  | Up _ => True
  | Br a l r =>
      if d <=? bf a then d < bf a else if kbit (bf a) key then stops r else stops l
  end.

Lemma ins_leaves T x : In x (leaves (ins bf n d key T)) <-> x = n \/ In x (leaves T).
Proof.
  clear kf. induction T as [a|a l IHl r IHr]; cbn [ins leaves].
  - destruct (kbit d key); simpl; intuition auto.
  - destruct (d <=? bf a); [destruct (kbit d key) | destruct (kbit (bf a) key)];
      cbn [leaves]; rewrite ?in_app_iff, ?IHl, ?IHr; cbn [leaves In]; rewrite ?in_app_iff; intuition auto.
Qed.

Lemma ins_inner T : Permutation (inner (ins bf n d key T)) (n :: inner T).
Proof.
  induction T as [a|a l IHl r IHr]; cbn [ins].
  - destruct (kbit d key); reflexivity.
  - destruct (d <=? bf a); [destruct (kbit d key) | destruct (kbit (bf a) key)]; cbn [inner app].
    + now rewrite app_nil_r.
    + reflexivity.
    + rewrite IHr, <- Permutation_middle. apply perm_swap.
    + rewrite IHl. cbn [app]. apply perm_swap.
Qed.

Lemma ins_owned T : owned T -> owned (ins bf n d key T).
Proof.
  clear kf. induction T as [a|a l IHl r IHr]; cbn [ins owned].
  - destruct (kbit d key); simpl; auto.
  - intros (Ha & Hl & Hr).
    destruct (d <=? bf a); [destruct (kbit d key) | destruct (kbit (bf a) key)];
      cbn [owned leaves]; rewrite ?in_app_iff in *; rewrite ?ins_leaves; cbn [In]; tauto.
Qed.

Lemma ins_up_ok T above : up_ok above T -> up_ok above (ins bf n d key T).
Proof.
  clear kf. revert above; induction T as [a|a l IHl r IHr]; intros above H; cbn [ins].
  - destruct (kbit d key); cbn [up_ok In] in *; auto.
  - destruct (d <=? bf a); [| destruct H as [Hl Hr]; destruct (kbit (bf a) key); split; auto].
    apply (up_ok_incl _ (n :: above)) in H; [| intros x; now right].
    destruct (kbit d key); split; auto; now left.
Qed.

Hypothesis Hd : 1 <= d.

Lemma walk_stops T : wf kf bf T -> kbit d key <> kbit d (kf (walk bf key T)) -> stops T.
Proof.
  induction T as [a|a l IHl r IHr]; cbn [wf stops walk]; [auto |]. intros (W0 & W1 & _ & Wl & Wr) Hn.
  destruct (Z.leb_spec d (bf a)) as [Hle|Hgt].
  - destruct (Z.eqb_spec d (bf a)) as [E|]; [exfalso | lia]. rewrite <- E in *. apply Hn.
    destruct (kbit d key) eqn:Ek; symmetry; [apply W1 | apply W0]; apply walk_leaf.
  - destruct (kbit (bf a) key); auto.
Qed.

Hypothesis Hkey : kf n = key.

(** The new node above a subtree all of whose keys differ from [key] at bit [d]
    and not before. *)
Lemma wf_new U : wf kf bf U -> bf n = d ->
  (forall y, In y (leaves U) -> kbit d (kf y) = negb (kbit d key) /\ agree d key (kf y)) ->
  wf kf bf (if kbit d key then Br n U (Up n) else Br n (Up n) U).
Proof.
  intros HU Hn Hy.
  assert (Hag : forall x y, (x = n \/ In x (leaves U)) -> (y = n \/ In y (leaves U)) -> agree d (kf x) (kf y)).
  { intros x y Hx Hy' i Hi.
    assert (Hk : forall z, (z = n \/ In z (leaves U)) -> kbit i (kf z) = kbit i key)
      by (intros z [->|Hz]; [now rewrite Hkey | symmetry; now apply (Hy z Hz)]).
    now rewrite !Hk. }
  destruct (kbit d key) eqn:Ek; cbn [wf leaves]; rewrite Hn.
  - split; [intros x Hx; apply (Hy x Hx) |]. split; [intros x [<-|[]]; now rewrite Hkey |].
    split; [| auto]. intros x y Hx%in_app_or Hy'%in_app_or.
    apply Hag; [destruct Hx as [|[<-|[]]] | destruct Hy' as [|[<-|[]]]]; auto.
  - split; [intros x [<-|[]]; now rewrite Hkey |]. split; [intros x Hx; apply (Hy x Hx) |].
    split; [| auto]. intros x y Hx%in_app_or Hy'%in_app_or.
    apply Hag; [destruct Hx as [[<-|[]]|] | destruct Hy' as [[<-|[]]|]]; auto.
Qed.

(** Below a node whose bit is before [d], the new key agrees with the others. *)
Lemma agree_below a S T w : bf a < d -> agree d key (kf w) -> In w S ->
  (forall x y, In x S -> In y S -> agree (bf a) (kf x) (kf y)) ->
  (forall x, In x (leaves T) <-> x = n \/ In x S) ->
  forall x y, In x (leaves T) -> In y (leaves T) -> agree (bf a) (kf x) (kf y).
Proof.
  intros Ha Hag Hw HS HT x y Hx%HT Hy%HT i Hi.
  assert (Hk : forall z, z = n \/ In z S -> kbit i (kf z) = kbit i key).
  { intros z [->|Hz]; [now rewrite Hkey |]. rewrite (Hag i ltac:(lia)). apply (HS z _ Hz Hw i Hi). }
  now rewrite !Hk.
Qed.

(** Separating the keys at their first difference keeps the tree in order. *)
Lemma wf_ins T : wf kf bf T -> bf n = d ->
  agree d key (kf (walk bf key T)) -> kbit d key <> kbit d (kf (walk bf key T)) -> stops T ->
  wf kf bf (ins bf n d key T).
Proof.
  intros HW Hn. revert HW; induction T as [a|a l IHl r IHr]; cbn [ins]; intros HW Hag Hne Hst.
  - apply wf_new; [exact I | assumption |]. intros y [<-|[]]. cbn [walk] in *. split; [| assumption].
    destruct (kbit d key), (kbit d (kf a)); auto; contradiction.
  - pose proof (walk_leaf bf key (Br a l r)) as Hw. cbn [stops] in Hst.
    destruct (Z.leb_spec d (bf a)) as [Hle|Hgt].
    + apply wf_new; [assumption | assumption |]. intros y Hy.
      destruct HW as (_ & _ & Wa & _ & _). cbn [leaves] in *.
      split; [| intros i Hi; rewrite (Hag i Hi); apply (Wa _ y Hw Hy); lia].
      rewrite <- (Wa _ y Hw Hy d) by lia.
      destruct (kbit d key), (kbit d (kf (walk bf key (Br a l r)))); auto; contradiction.
    + destruct HW as (W0 & W1 & Wa & Wl & Wr).
      pose proof (fun T => agree_below a (leaves l ++ leaves r) T _ Hgt Hag Hw Wa) as Hall.
      cbn [walk] in Hag, Hne. destruct (kbit (bf a) key) eqn:Eb; cbn [wf].
      * split; [assumption |]. split; [intros x [->|Hx]%ins_leaves; [now rewrite Hkey | auto] |].
        split; [apply (Hall (Br a l (ins bf n d key r))); intros x; cbn [leaves];
                rewrite !in_app_iff, ins_leaves; tauto | auto].
      * split; [intros x [->|Hx]%ins_leaves; [now rewrite Hkey | auto] |]. split; [assumption |].
        split; [apply (Hall (Br a (ins bf n d key l) r)); intros x; cbn [leaves];
                rewrite !in_app_iff, ins_leaves; tauto | auto].
Qed.

End Insertion.

(** ** The tree of a removal *)

(** The leaf [p] becomes [t]. *)
Fixpoint rename (p t : nat) (T : tree) : tree :=
  match T with
  | Up a => Up (if (a =? p)%nat then t else a)
  | Br a l r => Br a (rename p t l) (rename p t r)
  end.

(** The tree without the leaf [t] that a key leads to: the node [p] above it
    gives way to its other child, in which [t] stands for [p]. *)
Fixpoint del (bf : nat -> Z) (key : Z) (T : tree) : tree :=
  match T with
  | Up _ => T
  | Br a l r =>
      if kbit (bf a) key
      then match r with Up t => rename a t l | Br _ _ _ => Br a l (del bf key r) end
      else match l with Up t => rename a t r | Br _ _ _ => Br a (del bf key l) r end
  end.

(** The end of the path of a key with the two nodes above it; [g] and [x] are
    the nodes above [T]. *)
Fixpoint family (bf : nat -> Z) (key : Z) (g x : nat) (T : tree) : nat * nat * nat :=
  match T with
  | Up t => (g, x, t)
  | Br a l r => family bf key x a (if kbit (bf a) key then r else l)
  end.

Lemma rename_inner p t T : inner (rename p t T) = inner T.
Proof. induction T as [a|a l IHl r IHr]; cbn [rename inner]; [reflexivity | now rewrite IHl, IHr]. Qed.

Lemma rename_leaves p t T :
  leaves (rename p t T) = map (fun a => if (a =? p)%nat then t else a) (leaves T).
Proof.
  induction T as [a|a l IHl r IHr]; cbn [rename leaves]; [reflexivity |]. now rewrite IHl, IHr, map_app.
Qed.

Lemma rename_leaf p t T x : ~ In t (leaves T) ->
  In x (leaves (rename p t T)) <-> (x = t /\ In p (leaves T)) \/ (In x (leaves T) /\ x <> p).
Proof.
  intros Ht. rewrite rename_leaves, in_map_iff. split.
  - intros (a & <- & Ha). destruct (Nat.eqb_spec a p) as [->|]; auto.
  - intros [[-> Hp]|[Hx Hn]].
    + exists p. now rewrite Nat.eqb_refl.
    + exists x. apply Nat.eqb_neq in Hn as ->. auto.
Qed.

Lemma rename_owned p t T : ~ In p (inner T) -> owned T -> owned (rename p t T).
Proof.
  induction T as [a|a l IHl r IHr]; cbn [rename owned inner In]; [auto |].
  rewrite in_app_iff. intros Hp (Ha & Hl & Hr). split; [| split; tauto].
  rewrite !rename_leaves, <- map_app, in_map_iff. exists a. split; [| assumption].
  destruct (Nat.eqb_spec a p); [exfalso; auto | reflexivity].
Qed.

Lemma rename_up_ok p t ys above T : (In p (leaves T) -> In t above) ->
  up_ok (ys ++ p :: above) T -> up_ok (ys ++ above) (rename p t T).
Proof.
  revert ys; induction T as [a|a l IHl r IHr]; intros ys Hp; cbn [rename up_ok leaves] in *.
  - rewrite !in_app_iff. destruct (Nat.eqb_spec a p) as [->|Hn].
    + intros _. right. apply Hp. now left.
    + cbn [In]. intuition congruence.
  - rewrite in_app_iff in Hp. intros [Hl Hr].
    split; [apply (IHl (a :: ys)) | apply (IHr (a :: ys))]; tauto.
Qed.

Lemma wf_rename kf kf' bf p t T : (forall a, In a (leaves T) -> kf' (if (a =? p)%nat then t else a) = kf a) ->
  wf kf bf T -> wf kf' bf (rename p t T).
Proof.
  induction T as [a|a l IHl r IHr]; cbn [wf rename leaves]; [auto |]. intros Hk (W0 & W1 & Wa & Wl & Wr).
  rewrite !rename_leaves, <- map_app. split; [| split; [| split; [| split]]].
  - intros x (y & <- & Hy)%in_map_iff. rewrite Hk by (apply in_or_app; auto). auto.
  - intros x (y & <- & Hy)%in_map_iff. rewrite Hk by (apply in_or_app; auto). auto.
  - intros x x' (y & <- & Hy)%in_map_iff (y' & <- & Hy')%in_map_iff. rewrite !Hk by assumption. auto.
  - apply IHl; [| assumption]. intros; apply Hk, in_or_app; auto.
  - apply IHr; [| assumption]. intros; apply Hk, in_or_app; auto.
Qed.

Lemma wf_disjoint kf bf a l r x : wf kf bf (Br a l r) -> In x (leaves l) -> ~ In x (leaves r).
Proof. intros (W0 & W1 & _) Hl Hr. apply W0 in Hl. apply W1 in Hr. congruence. Qed.

Section Removal.

Variables (kf bf : nat -> Z) (key : Z).

Lemma family_walk g x T g' p t : family bf key g x T = (g', p, t) -> t = walk bf key T.
Proof.
  revert g x; induction T as [a|a l IHl r IHr]; intros g x; cbn [family walk]; [congruence |].
  destruct (kbit (bf a) key); [apply IHr | apply IHl].
Qed.

(** The path of the key ends at [p], with [t] below it and [O] on its other side. *)
Inductive path (p t : nat) (O : tree) : tree -> Prop :=
| path_right : kbit (bf p) key = true -> path p t O (Br p O (Up t))
| path_left : kbit (bf p) key = false -> path p t O (Br p (Up t) O)
| path_down_right a l r : kbit (bf a) key = true -> path p t O r -> path p t O (Br a l r)
| path_down_left a l r : kbit (bf a) key = false -> path p t O l -> path p t O (Br a l r).

Lemma family_path T g x g' p t : family bf key g x T = (g', p, t) ->
  match T with Up _ => g' = g /\ p = x | Br _ _ _ => exists O, path p t O T end.
Proof.
  revert g x; induction T as [a|a l IHl r IHr]; intros g x; cbn [family]; [intros [= -> -> ->]; auto |].
  destruct (kbit (bf a) key) eqn:E; intros H.
  - pose proof (IHr _ _ H) as Hr.
    destruct r; [| destruct Hr as [O Hr]; exists O; now apply path_down_right].
    destruct Hr as [_ ->]. injection H as _ <-. exists l. now apply path_right.
  - pose proof (IHl _ _ H) as Hl.
    destruct l; [| destruct Hl as [O Hl]; exists O; now apply path_down_left].
    destruct Hl as [_ ->]. injection H as _ <-. exists r. now apply path_left.
Qed.

Variables (p t : nat) (O : tree).

Lemma path_leaves T : path p t O T -> In t (leaves T) /\ In p (inner T).
Proof. clear kf. induction 1; cbn [leaves inner In]; rewrite ?in_app_iff; cbn [In]; tauto. Qed.

Lemma del_right a l r : kbit (bf a) key = true -> path p t O r -> del bf key (Br a l r) = Br a l (del bf key r).
Proof. intros E H. cbn [del]. rewrite E. now destruct H. Qed.

Lemma del_left a l r : kbit (bf a) key = false -> path p t O l -> del bf key (Br a l r) = Br a (del bf key l) r.
Proof. intros E H. cbn [del]. rewrite E. now destruct H. Qed.

Lemma del_inner T : path p t O T -> Permutation (p :: inner (del bf key T)) (inner T).
Proof.
  induction 1 as [E|E|a l r E HP IH|a l r E HP IH].
  - cbn [del]. rewrite E, rename_inner. cbn [inner]. now rewrite app_nil_r.
  - cbn [del]. rewrite E, rename_inner. reflexivity.
  - rewrite del_right by assumption. cbn [inner]. rewrite <- IH, <- Permutation_middle. apply perm_swap.
  - rewrite del_left by assumption. cbn [inner]. rewrite <- IH. cbn [app]. apply perm_swap.
Qed.

(** The leaves at the end: those of the other child [U], with [t] for [p]. *)
Lemma rename_removed U x : ~ In t (leaves U) -> (In p (leaves U) \/ p = t) ->
  In x (leaves (rename p t U)) <-> (In x (leaves U) \/ x = t) /\ x <> p.
Proof.
  intros Ht Hp. rewrite rename_leaf by assumption. split.
  - intros [[-> HU]|[Hx Hn]]; [| now auto]. split; [now right |]. intros ->. contradiction.
  - intros [[Hx|Hx] Hn]; [now auto |]. left. split; [assumption |]. destruct Hp as [|Hp]; [assumption | congruence].
Qed.

Lemma del_leaves T : path p t O T -> NoDup (inner T) -> wf kf bf T -> owned T ->
  forall x, In x (leaves (del bf key T)) <-> In x (leaves T) /\ x <> p.
Proof.
  induction 1 as [E|E|a l r E HP IH|a l r E HP IH]; intros HD HW HO x;
    pose proof (fun x => wf_disjoint _ _ _ _ _ x HW) as Hdis;
    destruct HW as (_ & _ & _ & Wl & Wr); cbn [owned] in HO; rewrite in_app_iff in HO; destruct HO as (Ha & Ol & Or).
  - cbn [del]. rewrite E. cbn [leaves In] in *. rewrite rename_removed, in_app_iff; [cbn [In]; intuition auto | |].
    + intros H. apply (Hdis t H). now left.
    + intuition auto.
  - cbn [del]. rewrite E. cbn [leaves In] in *. rewrite rename_removed, in_app_iff; [cbn [In]; intuition auto | |].
    + apply Hdis. now left.
    + intuition auto.
  - rewrite del_right by assumption. cbn [leaves inner] in *.
    apply NoDup_cons_iff in HD as [_ (Dl & Dr & Hi)%NoDup_app_iff].
    rewrite !in_app_iff, IH by assumption. split; [| tauto].
    intros [Hx|Hx]; [| tauto]. split; [now left |]. intros ->. apply (Hdis p Hx).
    apply owned_inner; [assumption | now apply path_leaves].
  - rewrite del_left by assumption. cbn [leaves inner] in *.
    apply NoDup_cons_iff in HD as [_ (Dl & Dr & Hi)%NoDup_app_iff].
    rewrite !in_app_iff, IH by assumption. split; [| tauto].
    intros [Hx|Hx]; [tauto |]. split; [now right |]. intros ->. apply (fun H => Hdis p H Hx).
    apply owned_inner; [assumption | now apply path_leaves].
Qed.

Lemma del_owned T : path p t O T -> NoDup (inner T) -> wf kf bf T -> owned T -> owned (del bf key T).
Proof.
  induction 1 as [E|E|a l r E HP IH|a l r E HP IH]; intros HD HW HO;
    [cbn [del]; rewrite E | cbn [del]; rewrite E | rewrite del_right by assumption | rewrite del_left by assumption];
    destruct HW as (W0 & W1 & Wa & Wl & Wr), HO as (Ha & Ol & Or); cbn [inner] in HD;
    apply NoDup_cons_iff in HD as [Hn (Dl & Dr & Hi)%NoDup_app_iff]; rewrite in_app_iff in Hn.
  - apply rename_owned; tauto.
  - apply rename_owned; tauto.
  - cbn [owned]. rewrite in_app_iff in *. rewrite del_leaves by assumption. split; [| auto].
    apply path_leaves in HP as [_ HP]. assert (a <> p) by (intros ->; tauto). tauto.
  - cbn [owned]. rewrite in_app_iff in *. rewrite del_leaves by assumption. split; [| auto].
    apply path_leaves in HP as [_ HP]. assert (a <> p) by (intros ->; tauto). tauto.
Qed.

Lemma del_up_ok T above : path p t O T -> wf kf bf T -> up_ok above T -> up_ok above (del bf key T).
Proof.
  intros HP. revert above; induction HP as [E|E|a l r E HP IH|a l r E HP IH]; intros above HW HU;
    [cbn [del]; rewrite E | cbn [del]; rewrite E | rewrite del_right by assumption | rewrite del_left by assumption];
    pose proof (fun x => wf_disjoint _ _ _ _ _ x HW) as Hdis; destruct HW as (_ & _ & _ & Wl & Wr), HU as [Ul Ur].
  - apply (rename_up_ok p t []); [| assumption]. intros Hp. destruct Ur as [<-|]; [| assumption].
    exfalso. apply (Hdis p Hp). now left.
  - apply (rename_up_ok p t []); [| assumption]. intros Hp. destruct Ul as [<-|]; [| assumption].
    exfalso. apply (Hdis p); [now left | assumption].
  - split; auto.
  - split; auto.
Qed.

(** The keys after the removal: [t] has the key of [p]. *)
Variable kf' : nat -> Z.
Hypothesis Ht : kf' t = kf p.
Hypothesis Hother : forall a, a <> t -> kf' a = kf a.

Lemma removed_key T : path p t O T -> NoDup (inner T) -> wf kf bf T -> owned T ->
  forall x, In x (leaves (del bf key T)) -> exists y, In y (leaves T) /\ kf' x = kf y.
Proof.
  intros HP HD HW HO x Hx. apply del_leaves in Hx as [Hx _]; [| assumption ..].
  destruct (Nat.eqb_spec x t) as [->|Hn]; [| exists x; auto].
  exists p. split; [| assumption]. apply owned_inner; [assumption | now apply path_leaves].
Qed.

Lemma wf_node_sub a l l' r r' : wf kf bf (Br a l r) -> wf kf' bf l' -> wf kf' bf r' ->
  (forall x, In x (leaves l') -> exists y, In y (leaves l) /\ kf' x = kf y) ->
  (forall x, In x (leaves r') -> exists y, In y (leaves r) /\ kf' x = kf y) -> wf kf' bf (Br a l' r').
Proof.
  intros (W0 & W1 & Wa & _ & _) Wl Wr Hl Hr. split; [| split; [| split; [| auto]]].
  - intros x (y & Hy & ->)%Hl. auto.
  - intros x (y & Hy & ->)%Hr. auto.
  - assert (Hs : forall x, In x (leaves l' ++ leaves r') -> exists y, In y (leaves l ++ leaves r) /\ kf' x = kf y).
    { intros x [(y & Hy & E)%Hl|(y & Hy & E)%Hr]%in_app_or; exists y; rewrite in_app_iff; auto. }
    intros x x' (y & Hy & ->)%Hs (y' & Hy' & ->)%Hs. auto.
Qed.

Lemma wf_del T : path p t O T -> NoDup (inner T) -> wf kf bf T -> owned T -> wf kf' bf (del bf key T).
Proof.
  assert (Hren : forall U, ~ In t (leaves U) -> forall a, In a (leaves U) ->
    kf' (if (a =? p)%nat then t else a) = kf a).
  { intros U HU a Ha. destruct (Nat.eqb_spec a p) as [->|]; [assumption |]. apply Hother. intros ->; contradiction. }
  assert (Hsame : forall U, ~ In t (leaves U) -> forall a, In a (leaves U) -> kf' a = kf a).
  { intros U HU a Ha. apply Hother. intros ->; contradiction. }
  induction 1 as [E|E|a l r E HP IH|a l r E HP IH]; intros HD HW HO;
    [cbn [del]; rewrite E | cbn [del]; rewrite E | rewrite del_right by assumption | rewrite del_left by assumption];
    pose proof (fun x => wf_disjoint _ _ _ _ _ x HW) as Hdis; pose proof HW as (_ & _ & _ & Wl & Wr);
    destruct HO as (Ha & Ol & Or); cbn [inner] in HD;
    apply NoDup_cons_iff in HD as [Hn (Dl & Dr & Hi)%NoDup_app_iff].
  - apply (wf_rename kf); [| assumption]. apply Hren. intros H. apply (Hdis t H). now left.
  - apply (wf_rename kf); [| assumption]. apply Hren. apply Hdis. now left.
  - assert (Htl : ~ In t (leaves l)) by (intros H; apply (Hdis t H); now apply path_leaves).
    apply (wf_node_sub a l l r); auto.
    + apply (wf_ext kf bf); auto. now apply Hsame.
    + intros x Hx. exists x. split; [assumption | now apply (Hsame l)].
    + now apply removed_key.
  - assert (Htr : ~ In t (leaves r)) by (apply Hdis; now apply path_leaves).
    apply (wf_node_sub a l _ r r); auto.
    + apply (wf_ext kf bf); auto. now apply Hsame.
    + now apply removed_key.
    + intros x Hx. exists x. split; [assumption | now apply (Hsame r)].
Qed.

End Removal.
