(* ===== verification/PatriciaTrie.v ===== *)
(** * PatriciaTrie: search and insertion in a Patricia trie

    The heap-level proofs for [pat_search], [pat_insert] and the loop of
    [patricia_test.c]: the descents end at the leaf that the bits of a key lead
    to, [insertR] builds the tree of the insertion, and the trie in the heap
    represents the set of the addresses inserted so far. *)

From Stdlib Require Import ZArith Lia List Bool Permutation.
From S2P Require Import Prelude Patricia PatriciaTree.
Import ListNotations.

(** ** The operations on a represented tree *)

Lemma get_set h a x n : (a < length h)%nat -> get (set h a n) x = if (x =? a)%nat then n else get h x.
Proof.
  intros Ha. unfold get, set. rewrite nth_upd.
  replace (a <? length h)%nat with true by (symmetry; now apply Nat.ltb_lt). now rewrite andb_true_r.
Qed.

Lemma set_length h a n : length (set h a n) = length h.
Proof. apply upd_length. Qed.

Section Descent.

Variables (h : heap) (key : Z).
Hypothesis Hkey : is_u32 key.

Lemma step_spec t : 0 <= p_b (get h t) <= 31 ->
  step h t key = Some (if kbit (p_b (get h t)) key then p_right (get h t) else p_left (get h t)).
Proof. intros Hb. unfold step. now rewrite bit_spec. Qed.

(** The descent from [t], whose link for [key] holds [T], ends at the leaf that
    the key leads to. *)
Lemma find_leaf_spec fuel t c T : 0 <= p_b (get h t) <= 31 -> step h t key = Some c ->
  rep h (p_b (get h t)) c T -> 31 - p_b (get h t) < Z.of_nat fuel ->
  find_leaf fuel h t key = Some (walk (fun a => p_b (get h a)) key T).
Proof.
  revert t c fuel; induction T as [a|a l IHl r IHr]; intros t c [|f] Hb Hst Hrep Hf; try lia;
    cbn [find_leaf]; rewrite Hst; cbn [bind rep walk] in *.
  - destruct Hrep as (-> & _ & Hle). destruct (Z.ltb_spec (p_b (get h t)) (p_b (get h a))); [lia | reflexivity].
  - destruct Hrep as (-> & _ & Hlt & Hl & Hr).
    destruct (Z.ltb_spec (p_b (get h t)) (p_b (get h a))); [| lia].
    pose proof (step_spec a ltac:(lia)) as Hs.
    destruct (kbit (p_b (get h a)) key); [eapply IHr | eapply IHl]; eauto; lia.
Qed.

(** Whether a node matches the key under its first mask. *)
Definition matches (a : nat) : bool :=
  p_key (get h a) =? (key .& pm_mask (first_mask (get h a))).

Lemma search_loop_spec fuel t c p T : 0 <= p_b (get h t) <= 31 -> step h t key = Some c ->
  rep h (p_b (get h t)) c T -> 31 - p_b (get h t) < Z.of_nat fuel ->
  let w := walk (fun a => p_b (get h a)) key T in
  exists r, search_loop fuel h t p key = Some r /\
    (matches w = true -> r = Some w) /\
    (matches w = false -> r = (if matches t then Some t else p) \/
       exists a, r = Some a /\ In a (inner T) /\ matches a = true).
Proof.
  revert t c p fuel; induction T as [a|a l IHl r IHr]; intros t c p [|f] Hb Hst Hrep Hf; try lia;
    cbn [search_loop]; rewrite Hst; cbn [bind rep walk inner] in *; fold (matches t).
  - destruct Hrep as (-> & _ & Hle). destruct (Z.ltb_spec (p_b (get h t)) (p_b (get h a))); [lia |].
    fold (matches a). eexists; split; [reflexivity |].
    split; intros E; rewrite E; auto.
  - destruct Hrep as (-> & _ & Hlt & Hl & Hr).
    destruct (Z.ltb_spec (p_b (get h t)) (p_b (get h a))); [| lia].
    pose proof (step_spec a ltac:(lia)) as Hs.
    set (p' := if matches t then Some t else p).
    assert (Hres : forall T' r', (r' = (if matches a then Some a else p') \/
        exists x, r' = Some x /\ In x (inner T') /\ matches x = true) ->
        (forall x, In x (inner T') -> In x (inner l ++ inner r)) ->
        r' = p' \/ exists x, r' = Some x /\ In x (a :: inner l ++ inner r) /\ matches x = true).
    { intros T' r' [->|(x & -> & Hx & Hm)] Hin.
      - destruct (matches a) eqn:Em; [right; exists a; simpl; auto | now left].
      - right. exists x. simpl; auto. }
    destruct (kbit (p_b (get h a)) key).
    + destruct (IHr a _ p' f ltac:(lia) Hs Hr ltac:(lia)) as (r' & -> & H1 & H2).
      exists r'. split; [reflexivity | split; [assumption |]]. intros E.
      apply (Hres r r'); auto. intros; apply in_or_app; auto.
    + destruct (IHl a _ p' f ltac:(lia) Hs Hl ltac:(lia)) as (r' & -> & H1 & H2).
      exists r'. split; [reflexivity | split; [assumption |]]. intros E.
      apply (Hres l r'); auto. intros; apply in_or_app; auto.
Qed.

End Descent.

(** What an insertion may change: the links of nodes, and the bit of [n]. *)
Definition same_data (n : nat) (h h' : heap) : Prop :=
  length h' = length h /\
  forall a, p_key (get h' a) = p_key (get h a) /\ p_m (get h' a) = p_m (get h a) /\
    p_mlen (get h' a) = p_mlen (get h a) /\ (a <> n -> p_b (get h' a) = p_b (get h a)).

(** The store after [insertR] has linked [n] above the tree [T] of [ptr]. *)
Definition linked (s : heap) (ptr n : nat) (d key : Z) : heap :=
  set s n (set_links d (if kbit d key then ptr else n) (if kbit d key then n else ptr) (get s n)).

Section Linking.

Variables (s : heap) (ptr n : nat) (d key : Z).
Hypothesis Hlen : (n < length s)%nat.

Lemma linked_other a : a <> n -> get (linked s ptr n d key) a = get s a.
Proof. intros Ha. unfold linked. rewrite get_set by assumption. now apply Nat.eqb_neq in Ha as ->. Qed.

Lemma linked_self : get (linked s ptr n d key) n =
  set_links d (if kbit d key then ptr else n) (if kbit d key then n else ptr) (get s n).
Proof. unfold linked. now rewrite get_set, Nat.eqb_refl. Qed.

Lemma linked_length : length (linked s ptr n d key) = length s.
Proof. apply set_length. Qed.

Lemma linked_data : same_data n s (linked s ptr n d key).
Proof.
  split; [apply set_length |]. intros a.
  destruct (Nat.eqb_spec a n) as [->|Ha]; [rewrite linked_self | rewrite linked_other by assumption];
    repeat split; intros; contradiction.
Qed.

Lemma linked_rep b T : 1 <= d <= 31 -> rep s b ptr T -> ~ In n (inner T) -> ~ In n (leaves T) -> 0 <= b < d ->
  match T with Up _ => True | Br a _ _ => d < p_b (get s a) end ->
  rep (linked s ptr n d key) b n (if kbit d key then Br n T (Up n) else Br n (Up n) T).
Proof.
  intros Hd HT Hin Hlf Hb Hroot.
  assert (HU : rep (linked s ptr n d key) d ptr T).
  { apply (rep_frame s); [unfold linked; rewrite set_length; lia | | |].
    - intros a Ha. apply linked_other. intros ->; contradiction.
    - intros a Ha. rewrite linked_other; [reflexivity |]. intros ->; contradiction.
    - destruct T; cbn [rep] in *; intuition lia. }
  destruct (kbit d key) eqn:Ek; cbn [rep]; rewrite linked_self, Ek;
    cbn [set_links p_b p_left p_right]; rewrite linked_length; intuition lia.
Qed.

End Linking.

(** Setting a link of [a] in a store [s'] that has grown a child of it. *)
Lemma rep_set_link n s s' a l r T U (right : bool) : same_data n s s' -> (a < length s)%nat -> a <> n ->
  get s' a = get s a -> ~ In a (inner T) -> ~ In a (inner U) -> ~ In n (leaves T) ->
  (forall x, In x (inner T) -> get s' x = get s x) ->
  rep s (p_b (get s a)) (if right then p_left (get s a) else p_right (get s a)) T ->
  rep s' (p_b (get s a)) (if right then r else l) U ->
  let s'' := set s' a ((if right then set_right r else set_left l) (get s' a)) in
  p_b (get s'' a) = p_b (get s a) /\ same_data n s s'' /\
  rep s'' (p_b (get s a)) (p_left (get s'' a)) (if right then T else U) /\
  rep s'' (p_b (get s a)) (p_right (get s'' a)) (if right then U else T).
Proof.
  intros [Hl Hd] Ha Hn Hga HaT HaU HnT HT RT RU s''.
  assert (Ha' : (a < length s')%nat) by lia.
  assert (Hself : get s'' a = (if right then set_right r else set_left l) (get s a))
    by (unfold s''; rewrite get_set, Nat.eqb_refl, Hga by assumption; reflexivity).
  assert (Hoth : forall x, x <> a -> get s'' x = get s' x)
    by (intros x Hx; unfold s''; rewrite get_set by assumption; now apply Nat.eqb_neq in Hx as ->).
  assert (Hb : p_b (get s'' a) = p_b (get s a)) by (rewrite Hself; now destruct right).
  assert (Hpb : forall x, p_b (get s'' x) = p_b (get s' x))
    by (intros x; destruct (Nat.eqb_spec x a) as [->|Hx]; [rewrite Hb, Hga | rewrite Hoth]; auto).
  assert (RT' : rep s'' (p_b (get s a)) (if right then p_left (get s a) else p_right (get s a)) T).
  { apply (rep_frame s); [unfold s''; rewrite set_length; lia | | | assumption].
    - intros x Hx. rewrite Hoth; [now apply HT |]. intros ->; contradiction.
    - intros x Hx. rewrite Hpb. apply Hd. intros ->; contradiction. }
  assert (RU' : rep s'' (p_b (get s a)) (if right then r else l) U).
  { apply (rep_frame s'); [unfold s''; rewrite set_length; lia | | auto | assumption].
    intros x Hx. apply Hoth. intros ->; contradiction. }
  split; [assumption |]. split.
  - split; [unfold s''; now rewrite set_length |]. intros x. destruct (Nat.eqb_spec x a) as [->|Hx].
    + rewrite Hself. destruct right; auto.
    + rewrite Hoth by assumption. apply Hd.
  - rewrite Hself. destruct right; auto.
Qed.

(** The recursive case of [insertR]: a child of [a], [V] before, is [U] now. *)
Lemma insertR_link n s s' a p q T U (right : bool) d V : same_data n s s' ->
  (a < length s)%nat -> (n < length s)%nat -> a <> n -> p_b (get s p) < p_b (get s a) <= 31 ->
  ~ In a (inner T) -> ~ In a (inner V) -> ~ In a (inner U) -> ~ In n (leaves T) -> ~ In n (inner T) ->
  (forall x, In x (inner T) -> ~ In x (inner V)) ->
  (forall x, x <> n -> ~ In x (inner V) -> get s' x = get s x) -> p_b (get s' n) = d ->
  rep s (p_b (get s a)) (if right then p_left (get s a) else p_right (get s a)) T ->
  rep s' (p_b (get s a)) q U ->
  let s'' := set s' a ((if right then set_right q else set_left q) (get s' a)) in
  rep s'' (p_b (get s p)) a (if right then Br a T U else Br a U T) /\
  same_data n s s'' /\ p_b (get s'' n) = d /\
  (forall x, x <> n -> ~ In x (inner (if right then Br a T V else Br a V T)) -> get s'' x = get s x).
Proof.
  intros D Ha Hn Han Hb HaT HaV HaU HnT HnT' Hdis Fr Bn RT RU s''.
  assert (Hga : get s' a = get s a) by now apply Fr.
  destruct (rep_set_link n s s' a q q T U right) as (B'' & D'' & L'' & R''); auto.
  { intros x Hx. apply Fr; [intros ->; contradiction | auto]. }
  { now destruct right. }
  fold s'' in B'', D'', L'', R''.
  assert (Hoth : forall x, x <> a -> get s'' x = get s' x).
  { intros x Hx. unfold s''. rewrite get_set by (rewrite (proj1 D); lia). now apply Nat.eqb_neq in Hx as ->. }
  split; [| split; [assumption | split]].
  - destruct right; cbn [rep]; rewrite B'', (proj1 D''); auto.
  - rewrite Hoth by auto. assumption.
  - intros x Hx Hxi. assert (x <> a /\ ~ In x (inner V)) as []
      by (destruct right; cbn [inner In] in Hxi; rewrite in_app_iff in Hxi; split; [intros -> | | intros -> |]; tauto).
    rewrite Hoth by assumption. now apply Fr.
Qed.

(** [insertR] builds the tree of the insertion. *)
Lemma insertR_spec n d key T : 1 <= d <= 31 -> is_u32 key -> forall fuel s ptr p,
  rep s (p_b (get s p)) ptr T -> 0 <= p_b (get s p) < d -> 32 - p_b (get s p) < Z.of_nat fuel ->
  (n < length s)%nat -> p_key (get s n) = key -> ~ In n (leaves T) -> ~ In n (inner T) ->
  NoDup (inner T) -> stops (fun a => p_b (get s a)) d key T ->
  exists ptr' s', insertR fuel s ptr n d p = Some (ptr', s') /\
    rep s' (p_b (get s p)) ptr' (ins (fun a => p_b (get s a)) n d key T) /\
    same_data n s s' /\ p_b (get s' n) = d /\
    (forall a, a <> n -> ~ In a (inner T) -> get s' a = get s a).
Proof.
  intros Hd Hk. induction T as [a|a l IHl r IHr]; intros [|f] s ptr p HT Hp Hf Hlen Hkn Hlf Hin Hdup Hst;
    try lia; cbn [insertR]; pose proof HT as HT'; cbn [rep] in HT'.
  - destruct HT' as (-> & Ha & Hb).
    destruct (Z.leb_spec (p_b (get s a)) (p_b (get s p))); [| lia]. rewrite orb_true_r, Hkn, bit_spec by (assumption || lia).
    cbn [bind]. exists n, (linked s a n d key). split; [reflexivity |].
    split; [apply linked_rep; auto |]. split; [now apply linked_data |].
    split; [now rewrite linked_self | intros x Hx _; now apply linked_other].
  - destruct HT' as (-> & Ha & Hb & Hl & Hr). cbn [stops ins inner leaves] in *.
    destruct (Z.leb_spec d (p_b (get s a))) as [Hle|Hgt].
    + cbn [orb]. rewrite Hkn, bit_spec by (assumption || lia). cbn [bind].
      exists n, (linked s a n d key). split; [reflexivity |].
      split; [apply linked_rep; auto |]. split; [now apply linked_data |].
      split; [now rewrite linked_self | intros x Hx _; now apply linked_other].
    + destruct (Z.leb_spec (p_b (get s a)) (p_b (get s p))); [lia |]. cbn [orb].
      rewrite Hkn, bit_spec by (assumption || lia). cbn [bind].
      apply NoDup_cons_iff in Hdup as [Hna Hdup].
      rewrite in_app_iff in Hna, Hlf. cbn [In] in Hin. rewrite in_app_iff in Hin.
      apply NoDup_app_iff in Hdup as (Hdl & Hdr & Hdis).
      destruct (kbit (p_b (get s a)) key) eqn:Eb.
      * destruct (IHr f s (p_right (get s a)) a Hr) as (q & s' & -> & R & D & Bn & Fr);
          try tauto; try lia. cbn [bind].
        assert (HU : ~ In a (inner (ins (fun a => p_b (get s a)) n d key r))).
        { intros [->|Hx]%(Permutation_in _ (ins_inner _ _ _ _ _)); tauto. }
        eexists; eexists; split; [reflexivity |].
        apply (insertR_link n s s' a p q l _ true d r); try tauto.
      * destruct (IHl f s (p_left (get s a)) a Hl) as (q & s' & -> & R & D & Bn & Fr);
          try tauto; try lia. cbn [bind].
        assert (HU : ~ In a (inner (ins (fun a => p_b (get s a)) n d key l))).
        { intros [->|Hx]%(Permutation_in _ (ins_inner _ _ _ _ _)); tauto. }
        eexists; eexists; split; [reflexivity |].
        apply (insertR_link n s s' a p q r _ false d l); try tauto.
        intros x Hx Hx'. now apply (Hdis x).
Qed.

(** ** The trie *)

Abbreviation keys h := (fun a => p_key (get h a)).
Abbreviation bits h := (fun a => p_b (get h a)).

Lemma walk_ext bf bf' key T : (forall a, In a (inner T) -> bf' a = bf a) -> walk bf' key T = walk bf key T.
Proof.
  induction T as [a|a l IHl r IHr]; cbn [walk inner]; [reflexivity |]. intros H.
  rewrite (H a), IHl, IHr; [reflexivity | | | now left]; intros x Hx; apply H; right; apply in_or_app; auto.
Qed.

Lemma ins_ext bf bf' n d key T : (forall a, In a (inner T) -> bf' a = bf a) ->
  ins bf' n d key T = ins bf n d key T.
Proof.
  induction T as [a|a l IHl r IHr]; cbn [ins inner]; [reflexivity |]. intros H.
  rewrite (H a), IHl, IHr; [reflexivity | | | now left]; intros x Hx; apply H; right; apply in_or_app; auto.
Qed.

Section Trie.

(** The [p_mlen] that the nodes were given. *)
Variable len : Z.

(** One of the two subtrees of the head. *)
Record side (h : heap) (right : bool) (ptr : nat) (T : tree) : Prop := {
  side_rep : rep h 0 ptr T;
  side_wf : wf (keys h) (bits h) T;
  side_dup : NoDup (inner T);
  side_pos : ~ In O (inner T);
  side_owned : owned T;
  side_up : up_ok [O] T;
  side_head : In O (leaves T);
  side_leaf : forall a, In a (leaves T) -> a <> O ->
    is_u32 (p_key (get h a)) /\ kbit 0 (p_key (get h a)) = right /\
    (exists data, p_m (get h a) = [mkMask 0xffffffff data]) /\ p_mlen (get h a) = len
}.

Lemma side_inner h right ptr T a : side h right ptr T -> In a (inner T) -> a <> O /\ In a (leaves T).
Proof.
  intros HS Ha. split; [intros ->; now apply (side_pos _ _ _ _ HS) |].
  now apply owned_inner; [apply (side_owned _ _ _ _ HS) |].
Qed.

(** The head is at address 0; bit 0 of a key chooses the subtree. *)
Record trie (h : heap) (TL TR : tree) : Prop := {
  trie_len : (0 < length h)%nat;
  trie_head : p_key (get h 0) = 0 /\ p_b (get h 0) = 0 /\ pm_mask (first_mask (get h 0)) = 0;
  trie_left : side h false (p_left (get h 0)) TL;
  trie_right : side h true (p_right (get h 0)) TR;
  trie_disj : forall a, In a (inner TL) -> ~ In a (inner TR)
}.

Lemma side_frame h h' right ptr T : side h right ptr T -> (length h <= length h')%nat ->
  (forall a, In a (inner T) -> get h' a = get h a) ->
  (forall a, In a (leaves T) -> p_b (get h' a) = p_b (get h a) /\
     p_key (get h' a) = p_key (get h a) /\ p_m (get h' a) = p_m (get h a) /\
     p_mlen (get h' a) = p_mlen (get h a)) ->
  side h' right ptr T.
Proof.
  intros [R W D P O U H L] Hlen Hi Hl. split; auto.
  - apply (rep_frame h); auto. intros a Ha. now apply Hl.
  - apply (wf_ext (keys h) (bits h)); auto.
    + intros a Ha. now apply Hl.
    + intros a Ha. now rewrite Hi.
  - intros a Ha H0. destruct (Hl a Ha) as (_ & Ek & Em & El). rewrite Ek, Em, El. now apply L.
Qed.

Lemma get_append h x a : (a < length h)%nat -> get (h ++ [x]) a = get h a.
Proof. intros Ha. unfold get. now rewrite app_nth1. Qed.

Lemma side_append h x right ptr T : side h right ptr T -> side (h ++ [x]) right ptr T.
Proof.
  intros HS. destruct (rep_range _ _ _ _ (side_rep _ _ _ _ HS)) as [Hl Hi].
  apply (side_frame h); [assumption | rewrite length_app; simpl; lia | |];
    intros a Ha; rewrite get_append; auto.
Qed.

Lemma trie_append h x TL TR : trie h TL TR -> trie (h ++ [x]) TL TR.
Proof.
  intros [Hlen Hh Hl Hr Hd]. split; [rewrite length_app; lia | | | | assumption];
    rewrite get_append by assumption; auto using side_append.
Qed.

Lemma trie_initial : trie initial_heap (Up O) (Up O).
Proof.
  assert (Hs : forall right, side initial_heap right 0 (Up O)).
  { intros right. split; cbn; try tauto; [lia | constructor |]. intros a [<-|[]] H; contradiction. }
  split; cbn; [lia | auto | apply Hs | apply Hs | intros a []].
Qed.

Lemma kbit_zero i : kbit i 0 = false.
Proof. apply Z.testbit_0_l. Qed.

(** The addresses in a side. *)
Definition holds (h : heap) (T : tree) (k : Z) : Prop :=
  exists a, In a (leaves T) /\ a <> O /\ p_key (get h a) = k.

Section Side.

Variables (h : heap) (right : bool) (ptr : nat) (T : tree) (key : Z).
Hypothesis Hside : side h right ptr T.
Hypothesis Hzero : p_key (get h 0) = 0.
Hypothesis Hkey : is_u32 key.
Hypothesis Hbit : kbit 0 key = right.

Let w := walk (bits h) key T.

(** A stored address is found at the end of its path. *)
Lemma side_walk_found : holds h T key -> w <> O /\ p_key (get h w) = key.
Proof.
  intros (a & Ha & H0 & Hk).
  assert (E : w = a); [| now rewrite E].
  apply (walk_unique h 0 ptr T (keys h)); [apply Hside | lia | apply Hside | assumption |].
  intros i _. now rewrite Hk.
Qed.

(** The address that is the head's but for bit 0 leads to the head. *)
Lemma side_walk_head : agree 32 key 0 -> w = O.
Proof.
  intros Ha. apply (walk_unique h 0 ptr T (keys h)); [apply Hside | lia | apply Hside | apply (side_head _ _ _ _ Hside) |].
  cbv beta. now rewrite Hzero.
Qed.

(** A new address differs from the end of its path after bit 0. *)
Lemma side_walk_new : ~ holds h T key -> key <> 0 -> key <> 0x80000000 ->
  ~ agree 32 key (p_key (get h w)).
Proof.
  intros Hn H0 H8 Ha. pose proof (walk_leaf (bits h) key T) as Hw. fold w in Hw.
  destruct (Nat.eqb_spec w 0) as [E|E].
  - rewrite E, Hzero in Ha. destruct (kbit 0 key) eqn:Eb.
    + apply H8. apply key_eq_bits; [assumption | unfold is_u32; lia | now rewrite Eb |].
      intros i Hi. rewrite (Ha i Hi), kbit_zero. unfold kbit. change 0x80000000 with (2 ^ 31).
      symmetry. apply Z.pow2_bits_false. lia.
    + apply H0. apply key_eq_bits; [assumption | unfold is_u32; lia | now rewrite Eb, kbit_zero | assumption].
  - destruct (side_leaf _ _ _ _ Hside w Hw E) as (Hu & Hb & _). apply Hn. exists w.
    split; [assumption | split; [assumption |]]. symmetry.
    apply key_eq_bits; [assumption | assumption | now rewrite Hb | assumption].
Qed.

End Side.

(** Inserting a new address in a side. *)
Lemma side_insert s right p ptr T n d key : side s right ptr T -> is_u32 key -> kbit 0 key = right ->
  p_b (get s p) = 0 -> (n < length s)%nat -> n <> O -> ~ In n (leaves T) ->
  p_key (get s n) = key -> (exists data, p_m (get s n) = [mkMask 0xffffffff data]) ->
  p_mlen (get s n) = len ->
  1 <= d <= 31 -> agree d key (p_key (get s (walk (bits s) key T))) ->
  kbit d key <> kbit d (p_key (get s (walk (bits s) key T))) ->
  exists ptr' s' T', insertR depth s ptr n d p = Some (ptr', s') /\ side s' right ptr' T' /\
    same_data n s s' /\
    (forall x, In x (leaves T') <-> x = n \/ In x (leaves T)) /\
    (forall x, In x (inner T') <-> x = n \/ In x (inner T)) /\
    (forall a, a <> n -> ~ In a (inner T) -> get s' a = get s a).
Proof.
  intros HS Hk Hbit Hp Hn Hn0 HnT Hkn Hm Hln Hd Hag Hne.
  assert (Hni : ~ In n (inner T)) by (intros Hx; apply HnT; now apply (side_inner _ _ _ _ _ HS)).
  destruct (insertR_spec n d key T Hd Hk depth s ptr p) as (ptr' & s' & Hrun & R & D & Bn & Fr);
    rewrite ?Hp; try assumption; try (unfold depth; lia); [apply HS | apply HS | |].
  { apply (walk_stops (keys s)); [apply HS | assumption]. }
  rewrite Hp in R. destruct D as [Dl D].
  assert (Hbits : forall a, In a (inner T) -> p_b (get s' a) = p_b (get s a))
    by (intros a Ha; apply (proj2 (proj2 (proj2 (D a)))); intros ->; contradiction).
  assert (Hlv : forall x, In x (leaves (ins (bits s) n d key T)) <-> x = n \/ In x (leaves T))
    by exact (ins_leaves (bits s) n d key T).
  assert (Hinn : forall x, In x (inner (ins (bits s) n d key T)) <-> x = n \/ In x (inner T)).
  { intros x. split; intros Hx.
    - apply (Permutation_in _ (ins_inner _ _ _ _ _)) in Hx as [->|]; auto.
    - apply (Permutation_in _ (Permutation_sym (ins_inner _ _ _ _ _))). simpl. intuition auto. }
  exists ptr', s', (ins (bits s) n d key T). split; [assumption |].
  split; [| split; [exact (conj Dl D) | split; [assumption | split; assumption]]].
  assert (HW : wf (keys s') (bits s') T).
  { apply (wf_ext (keys s) (bits s)); [intros a _; apply D | assumption | apply HS]. }
  assert (Hk' : p_key (get s' n) = key) by (rewrite <- Hkn; apply D).
  split; [assumption | | | | | | |].
  - rewrite <- (ins_ext (bits s) (bits s')) by assumption.
    rewrite <- (proj1 (D _)), <- (walk_ext (bits s) (bits s')) in Hag, Hne by assumption.
    apply wf_ins; try assumption; [lia |]. now apply (walk_stops (keys s')).
  - apply (Permutation_NoDup (Permutation_sym (ins_inner _ _ _ _ _))). constructor; [assumption | apply HS].
  - intros [H0|H0]%Hinn; [now apply Hn0 | now apply (side_pos _ _ _ _ HS)].
  - apply ins_owned, (side_owned _ _ _ _ HS).
  - apply ins_up_ok, (side_up _ _ _ _ HS).
  - apply Hlv. right. apply (side_head _ _ _ _ HS).
  - intros a [->|Ha]%Hlv H0.
    + destruct (D n) as (Ek & Em & El & _). rewrite Ek, Em, El, Hkn. auto.
    + destruct (D a) as (Ek & Em & El & _). rewrite Ek, Em, El. now apply (side_leaf _ _ _ _ HS).
Qed.

Lemma set_same h a : (a < length h)%nat -> set h a (get h a) = h.
Proof.
  intros Ha. apply (nth_ext _ _ zero_node zero_node); [apply set_length |]. intros i _.
  change (get (set h a (get h a)) i = get h i). rewrite get_set by assumption.
  now destruct (Nat.eqb_spec i a) as [->|].
Qed.

Lemma full_mask key : is_u32 key -> key .& 0xffffffff = key.
Proof. intros H. change 0xffffffff with (2 ^ 32 - 1). rewrite land_mask by lia. now apply Z.mod_small. Qed.

(** The key of a node with the full mask stays as it is. *)
Lemma set_key_full h n key : (n < length h)%nat -> p_key (get h n) = key -> is_u32 key ->
  set h n (set_key (p_key (get h n) .& 0xffffffff) (get h n)) = h.
Proof.
  intros Hn Hk Hu. rewrite Hk, full_mask by assumption.
  replace (set_key key (get h n)) with (get h n); [now apply set_same |]. rewrite <- Hk. now destruct (get h n).
Qed.

Lemma side_bit h right ptr T k : side h right ptr T -> holds h T k -> kbit 0 k = right.
Proof. intros HS (a & Ha & H0 & <-). now apply (side_leaf _ _ _ _ HS). Qed.

(** The addresses in the trie. *)
Definition stored (h : heap) (TL TR : tree) (k : Z) : Prop := holds h TL k \/ holds h TR k.

(** The subtree of a key, and its side. *)
Definition part (TL TR : tree) (key : Z) : tree := if kbit 0 key then TR else TL.

Section Operations.

Variables (h : heap) (TL TR : tree) (key : Z).
Hypothesis Htrie : trie h TL TR.
Hypothesis Hkey : is_u32 key.

Lemma trie_side : side h (kbit 0 key)
  (if kbit 0 key then p_right (get h 0) else p_left (get h 0)) (part TL TR key).
Proof. unfold part. destruct (kbit 0 key); apply Htrie. Qed.

Lemma trie_step : p_b (get h 0) = 0 /\
  step h 0 key = Some (if kbit 0 key then p_right (get h 0) else p_left (get h 0)).
Proof.
  destruct (trie_head _ _ _ Htrie) as (_ & Hb & _). split; [assumption |].
  rewrite step_spec, Hb by (rewrite ?Hb; assumption || lia). reflexivity.
Qed.

Lemma trie_find_leaf : find_leaf depth h 0 key = Some (walk (bits h) key (part TL TR key)).
Proof.
  destruct trie_step as [Hb Hs]. eapply (find_leaf_spec h key Hkey); [lia | exact Hs | | unfold depth; lia].
  rewrite Hb. apply trie_side.
Qed.

Lemma stored_part : stored h TL TR key <-> holds h (part TL TR key) key.
Proof.
  unfold stored, part. destruct (kbit 0 key) eqn:E; split; auto; intros [H|H]; auto; exfalso.
  - apply (side_bit _ _ _ _ _ (trie_left _ _ _ Htrie)) in H. congruence.
  - apply (side_bit _ _ _ _ _ (trie_right _ _ _ Htrie)) in H. congruence.
Qed.

(** The search returns a node, and one with the key if there is one. *)
Lemma trie_search : exists f, pat_search h key (Some O) = Some (Some f) /\
  (p_key (get h f) = key <-> key = 0 \/ stored h TL TR key).
Proof.
  destruct trie_step as [Hb Hs]. destruct (trie_head _ _ _ Htrie) as (Hk0 & _ & Hm0).
  pose proof trie_side as HS.
  set (c := if kbit 0 key then _ else _) in Hs, HS.
  destruct (search_loop_spec h key Hkey depth 0 c None (part TL TR key)) as (r & Hrun & Hyes & Hno);
    [lia | exact Hs | rewrite Hb; apply HS | unfold depth; lia |].
  set (w := walk (bits h) key (part TL TR key)) in *.
  assert (Hm : forall a, In a (leaves (part TL TR key)) -> a <> O ->
    (matches h key a = true <-> p_key (get h a) = key)).
  { intros a Ha H0. destruct (side_leaf _ _ _ _ HS a Ha H0) as (_ & _ & [data Em] & _).
    unfold matches, first_mask. rewrite Em. cbn [nth pm_mask]. now rewrite full_mask, Z.eqb_eq. }
  assert (Hw : In w (leaves (part TL TR key))) by apply walk_leaf.
  assert (Hin : forall a, In a (leaves (part TL TR key)) -> a <> O -> matches h key a = true ->
    p_key (get h a) = key <-> key = 0 \/ stored h TL TR key).
  { intros a Ha H0 E%Hm; try assumption. split; [| auto]. intros _. right. apply stored_part. now exists a. }
  assert (Hfound : stored h TL TR key -> w <> O /\ matches h key w = true).
  { intros H%stored_part.
    destruct (side_walk_found _ _ _ _ key HS H) as [H0 Hk]. split; [assumption | now apply Hm]. }
  assert (Hhead : (stored h TL TR key -> False) -> p_key (get h 0) = key <-> key = 0 \/ stored h TL TR key)
    by (rewrite Hk0; intuition auto).
  cbn [pat_search]. rewrite Hrun. destruct (matches h key w) eqn:E.
  - rewrite Hyes by reflexivity. exists w. split; [reflexivity |].
    destruct (Nat.eqb_spec w 0) as [E0|E0]; [rewrite E0 in *; apply Hhead; tauto | now apply Hin].
  - assert (Hnst : stored h TL TR key -> False) by (intros H; destruct (Hfound H); congruence).
    destruct (Hno eq_refl) as [-> | (a & -> & Ha & Em)].
    + unfold matches. rewrite Hk0, Hm0, Z.land_0_r. exists O. split; [reflexivity | now apply Hhead].
    + destruct (side_inner _ _ _ _ a HS Ha). exists a. split; [reflexivity | now apply Hin].
Qed.

End Operations.

Lemma insertR_past fuel s ptr n p : insertR fuel s ptr n 32 p = None.
Proof.
  revert ptr p; induction fuel as [|f IH]; intros ptr p; [reflexivity |]. cbn [insertR].
  destruct (_ || _); [reflexivity |]. destruct (bit (p_b _) _) as [[|]|]; cbn [bind]; [| | reflexivity];
    now rewrite IH.
Qed.

(** Setting a link of the head. *)
Lemma side_relink s right ptr T (c : nat) (r : bool) : (0 < length s)%nat -> side s right ptr T ->
  side (set s 0 ((if r then set_right c else set_left c) (get s 0))) right ptr T.
Proof.
  intros Hl HS. apply (side_frame s); [assumption | rewrite set_length; lia | |]; intros a Ha; rewrite get_set by assumption.
  - apply (side_inner _ _ _ _ _ HS) in Ha as [H0 _]. now apply Nat.eqb_neq in H0 as ->.
  - destruct (Nat.eqb_spec a 0) as [->|]; [destruct r |]; auto.
Qed.

Lemma trie_relink s TL TR c (r : bool) : (0 < length s)%nat ->
  p_key (get s 0) = 0 /\ p_b (get s 0) = 0 /\ pm_mask (first_mask (get s 0)) = 0 ->
  side s false (if r then p_left (get s 0) else c) TL -> side s true (if r then c else p_right (get s 0)) TR ->
  (forall a, In a (inner TL) -> ~ In a (inner TR)) ->
  trie (set s 0 ((if r then set_right c else set_left c) (get s 0))) TL TR.
Proof.
  intros Hlen Hh HL HR Hd.
  split; [rewrite set_length; lia | | | | assumption]; rewrite ?get_set, Nat.eqb_refl by assumption.
  - destruct r; exact Hh.
  - apply (side_relink _ _ _ _ c r Hlen) in HL. now destruct r.
  - apply (side_relink _ _ _ _ c r Hlen) in HR. now destruct r.
Qed.

Lemma same_data_relink n h s c (r : bool) : (0 < length s)%nat -> same_data n h s ->
  same_data n h (set s 0 ((if r then set_right c else set_left c) (get s 0))).
Proof.
  intros Hl [Dl D]. split; [now rewrite set_length |]. intros a. rewrite get_set by assumption.
  destruct (Nat.eqb_spec a 0) as [->|]; [| apply D]. destruct r; apply (D O).
Qed.

Section Insert.

Variables (h : heap) (TL TR : tree) (key : Z) (n : nat).
Hypothesis Htrie : trie h TL TR.
Hypothesis Hkey : is_u32 key.
Hypothesis Hlen : (n < length h)%nat.
Hypothesis Hn0 : n <> O.
Hypothesis HnL : ~ In n (leaves TL).
Hypothesis HnR : ~ In n (leaves TR).
Hypothesis Hkn : p_key (get h n) = key.
Hypothesis Hmn : exists data, p_m (get h n) = [mkMask 0xffffffff data].
Hypothesis Hln : p_mlen (get h n) = len.
Hypothesis Hnew : ~ stored h TL TR key.
Hypothesis Hnz : key <> 0.

Let T := part TL TR key.
Let w := walk (bits h) key T.
Let ptr := if kbit 0 key then p_right (get h 0) else p_left (get h 0).

Lemma insert_leaf_key : is_u32 (p_key (get h w)) /\ p_key (get h w) <> key.
Proof.
  destruct (Nat.eqb_spec w 0) as [E|E].
  - rewrite E. destruct (trie_head _ _ _ Htrie) as [-> _]. unfold is_u32. split; [lia | auto].
  - assert (Hw : In w (leaves T)) by apply walk_leaf.
    split; [now apply (side_leaf _ _ _ _ (trie_side _ _ _ key Htrie)) |].
    intros Hk. apply Hnew, stored_part; [assumption |]. now exists w.
Qed.

(** For a new key [pat_insert] is the search for the first difference and the
    linking of the node. *)
Lemma pat_insert_new : pat_insert h (Some n) (Some O) =
  let* i := first_diff 31 1 key (p_key (get h w)) in
  let* (c, s) := insertR depth h ptr n i 0 in
  Some (Some n, set s 0 ((if kbit 0 key then set_right c else set_left c) (get s 0))).
Proof.
  destruct Hmn as (data & Em). cbn [pat_insert]. rewrite Em. cbn [pm_mask].
  rewrite (set_key_full h n key), Hkn by assumption.
  rewrite (trie_find_leaf _ _ _ key Htrie Hkey). fold T.
  cbn [bind]. fold w. destruct insert_leaf_key as [_ Hne].
  apply not_eq_sym, Z.eqb_neq in Hne. rewrite Hne.
  destruct (trie_head _ _ _ Htrie) as (_ & -> & _).
  rewrite bit_spec by (assumption || lia). unfold ptr.
  destruct (first_diff _ _ _ _); [| reflexivity]. cbn [bind]. now destruct (kbit 0 key).
Qed.

(** Inserting 0x80000000: the difference search runs past the key. *)
Lemma trie_insert_past : key = 0x80000000 -> pat_insert h (Some n) (Some O) = None.
Proof.
  intros E. rewrite pat_insert_new. unfold w. rewrite (side_walk_head h true ptr T);
    [| | apply (trie_head _ _ _ Htrie) |].
  - destruct (trie_head _ _ _ Htrie) as [-> _]. rewrite E.
    replace (first_diff 31 1 0x80000000 0) with (Some 32) by reflexivity. cbn [bind]. now rewrite insertR_past.
  - pose proof (trie_side _ _ _ key Htrie) as HS. fold ptr T in HS. rewrite E in HS at 1. exact HS.
  - rewrite E. intros i Hi. rewrite kbit_zero. unfold kbit. change 0x80000000 with (2 ^ 31).
    apply Z.pow2_bits_false. lia.
Qed.

Lemma stored_insert s (r : bool) T' : same_data n h s -> r = kbit 0 key ->
  (forall x, In x (leaves T') <-> x = n \/ In x (leaves T)) ->
  forall k, stored s (if r then TL else T') (if r then T' else TR) k <-> k = key \/ stored h TL TR k.
Proof.
  intros [_ D] -> HT k.
  assert (Hsame : forall U, holds s U k <-> holds h U k).
  { intros U. unfold holds. split; intros (a & Ha & H0 & Hk); exists a; destruct (D a) as (Ek & _); rewrite Ek in *; auto. }
  assert (HT' : holds s T' k <-> k = key \/ holds h T k).
  { rewrite Hsame. unfold holds. split.
    - intros (a & [->|Ha]%HT & H0 & Hk); [left; congruence | right; now exists a].
    - intros [->|(a & Ha & H0 & Hk)]; [exists n | exists a]; rewrite HT; auto. }
  unfold stored, T, part in *. destruct (kbit 0 key); rewrite HT', Hsame; tauto.
Qed.

(** The other side is not touched. *)
Lemma insert_other s : same_data n h s ->
  (forall a, a <> n -> ~ In a (inner T) -> get s a = get h a) ->
  forall right q U, side h right q U -> ~ In n (leaves U) ->
  (forall a, In a (inner U) -> ~ In a (inner T)) -> side s right q U.
Proof.
  intros [Dl D] Fr right q U HU Hn Hdis. apply (side_frame h); [assumption | lia | |].
  - intros a Ha. apply Fr; [intros -> | auto]. now apply Hn, (side_inner _ _ _ _ _ HU).
  - intros a Ha. destruct (D a) as (Ek & Em & El & Eb). rewrite Ek, Em, El, Eb; [auto |]. intros ->; contradiction.
Qed.

(** Inserting any other new key. *)
Lemma trie_insert : key <> 0x80000000 ->
  exists s' TL' TR', pat_insert h (Some n) (Some O) = Some (Some n, s') /\ trie s' TL' TR' /\
    forall k, stored s' TL' TR' k <-> k = key \/ stored h TL TR k.
Proof.
  intros H8. rewrite pat_insert_new. pose proof (trie_side _ _ _ key Htrie) as HS. fold T ptr in HS.
  destruct (trie_head _ _ _ Htrie) as (Hk0 & Hb0 & Hm0).
  assert (Hdiff : ~ agree 32 key (p_key (get h w))).
  { apply (side_walk_new h (kbit 0 key) ptr T); auto. intros H. now apply Hnew, stored_part. }
  destruct insert_leaf_key as [Hu _].
  destruct (first_diff_spec 31 1 key (p_key (get h w)) Hkey Hu ltac:(lia) ltac:(lia)) as (d & -> & Hd & Hag & Hne).
  assert (Hd32 : d < 32).
  { destruct (Z.ltb_spec d 32); [assumption | exfalso; apply Hdiff]. replace 32 with d by lia. exact Hag. }
  cbn [bind].
  assert (HnT : ~ In n (leaves T)) by (unfold T, part; now destruct (kbit 0 key)).
  destruct (side_insert h (kbit 0 key) 0 ptr T n d key) as (c & s & T' & -> & HS' & D & HL & HI & Fr); auto; try lia.
  cbn [bind]. exists (set s 0 ((if kbit 0 key then set_right c else set_left c) (get s 0))).
  exists (if kbit 0 key then TL else T'), (if kbit 0 key then T' else TR).
  split; [reflexivity |].
  assert (Hhead : get s 0 = get h 0).
  { apply Fr; [auto |]. intros H0. now apply (side_inner _ _ _ _ _ HS) in H0 as [H0 _]. }
  split.
  - pose proof (insert_other s D Fr) as Ho. unfold T, part in *.
    destruct Htrie as [_ _ HTL HTR Hdis].
    assert (Hdis' : forall a, In a (inner TR) -> ~ In a (inner TL)) by (intros a Ha Hb; now apply (Hdis a)).
    apply trie_relink; [rewrite (proj1 D); lia | rewrite Hhead; auto | rewrite Hhead | rewrite Hhead |];
      destruct (kbit 0 key); auto.
    + intros a Ha [->|Hb]%HI; [apply HnL; now apply (side_inner _ _ _ _ _ HTL) | now apply (Hdis a)].
    + intros a [->|Ha]%HI Hb; [apply HnR; now apply (side_inner _ _ _ _ _ HTR) | now apply (Hdis a)].
  - apply stored_insert; auto. apply same_data_relink; [rewrite (proj1 D); lia | assumption].
Qed.

End Insert.

(** The heap holds a trie of the addresses [ks]; the default address 0 is
    always there. *)
Definition represents (h : heap) (ks : list Z) : Prop :=
  exists TL TR, trie h TL TR /\ forall k, stored h TL TR k <-> In k ks /\ k <> 0.

Lemma represents_initial : represents initial_heap [].
Proof.
  exists (Up O), (Up O). split; [apply trie_initial |]. intros k. split.
  - intros [(a & [<-|[]] & H & _)|(a & [<-|[]] & H & _)]; contradiction.
  - intros [[] _].
Qed.

Lemma represents_same h ks ks' : represents h ks ->
  (forall k, k <> 0 -> In k ks' <-> In k ks) -> represents h ks'.
Proof.
  intros (TL & TR & HT & Hks) H. exists TL, TR. split; [assumption |].
  intros k. rewrite Hks. split; intros [Hk H0]; split; auto; now apply H.
Qed.

Lemma stored_append h x TL TR k : trie h TL TR -> stored (h ++ [x]) TL TR k <-> stored h TL TR k.
Proof.
  intros HT. destruct (rep_range _ _ _ _ (side_rep _ _ _ _ (trie_left _ _ _ HT))) as [HL _].
  destruct (rep_range _ _ _ _ (side_rep _ _ _ _ (trie_right _ _ _ HT))) as [HR _].
  split; (intros [(a & Ha & H)|(a & Ha & H)]; [left | right]; exists a; rewrite get_append in *; auto).
Qed.

(** Allocating a node. *)
Lemma represents_append h ks x : represents h ks -> represents (h ++ [x]) ks.
Proof.
  intros (TL & TR & HT & Hks). exists TL, TR. split; [now apply trie_append |].
  intros k. now rewrite stored_append.
Qed.

Lemma search_represents h ks a : represents h ks -> is_u32 a ->
  exists f, pat_search h a (Some O) = Some (Some f) /\ (p_key (get h f) = a <-> a = 0 \/ In a ks).
Proof.
  intros (TL & TR & HT & Hks) Ha. destruct (trie_search h TL TR a HT Ha) as (f & Hs & Hf).
  exists f. split; [assumption |]. rewrite Hf, Hks. destruct (Z.eqb_spec a 0); tauto.
Qed.

(** A fresh node, as a client fills it in. *)
Definition fresh_node (a data : Z) : ptree := mkPtree a [mkMask 0xffffffff data] len 0 0 0.

Lemma get_fresh h x : get (h ++ [x]) (length h) = x.
Proof. unfold get. now rewrite app_nth2, Nat.sub_diag by lia. Qed.

Lemma insert_represents h ks a data : represents h ks -> is_u32 a -> a <> 0 -> ~ In a ks ->
  let run := pat_insert (h ++ [fresh_node a data]) (Some (length h)) (Some O) in
  if a =? 0x80000000 then run = None
  else exists s', run = Some (Some (length h), s') /\ represents s' (a :: ks).
Proof.
  intros (TL & TR & HT & Hks) Ha Hnz Hnew run. subst run.
  set (x := fresh_node a data). set (s := h ++ [x]).
  assert (Hst : forall k, stored s TL TR k <-> In k ks /\ k <> 0)
    by (intros k; rewrite <- Hks; now apply stored_append).
  assert (Hn : ~ stored s TL TR a) by (rewrite Hst; tauto).
  pose proof (trie_append h x TL TR HT) as HT'. fold s in HT'.
  assert (Hgn : get s (length h) = x) by apply get_fresh.
  assert (Hfresh : forall right q U, side h right q U -> ~ In (length h) (leaves U)).
  { intros right q U HS Hin. apply (rep_range _ _ _ _ (side_rep _ _ _ _ HS)) in Hin. lia. }
  pose proof (Hfresh _ _ _ (trie_left _ _ _ HT)) as HnL.
  pose proof (Hfresh _ _ _ (trie_right _ _ _ HT)) as HnR.
  assert (Hh0 : length h <> O) by (pose proof (trie_len _ _ _ HT); lia).
  assert (Hlen : (length h < length s)%nat) by (unfold s; rewrite length_app; simpl; lia).
  assert (Hkn : p_key (get s (length h)) = a) by now rewrite Hgn.
  assert (Hm : exists data, p_m (get s (length h)) = [mkMask 0xffffffff data]) by (rewrite Hgn; now exists data).
  assert (Hl : p_mlen (get s (length h)) = len) by now rewrite Hgn.
  destruct (Z.eqb_spec a 0x80000000) as [E8|E8].
  - now apply (trie_insert_past s TL TR a (length h)).
  - destruct (trie_insert s TL TR a (length h)) as (s' & TL' & TR' & -> & HT2 & Hst2); auto.
    exists s'. split; [reflexivity |]. exists TL', TR'. split; [assumption |].
    intros k. rewrite Hst2, Hst. cbn [In]. split; [intros [->|[Hin Hk]]; split; auto |].
    intros [[<-|Hin] Hk]; auto.
Qed.

End Trie.

(** ** The program *)

(** What the program is for: an address is found when it is 0.0.0.0 (the default
    route) or came before; [ks] are the addresses before. *)
Fixpoint found_before (ks addrs : list Z) : list bool :=
  match addrs with
  | [] => []
  | a :: rest => ((a =? 0) || existsb (Z.eqb a) ks) :: found_before (a :: ks) rest
  end.

Lemma existsb_In a ks : existsb (Z.eqb a) ks = true <-> In a ks.
Proof.
  rewrite existsb_exists. split; [intros (y & Hy & <-%Z.eqb_eq); assumption |].
  intros H. exists a. now rewrite Z.eqb_refl.
Qed.

(** The addresses that are read before an allocation fails; [k] calls of [malloc]
    came before. *)
Fixpoint served (malloc : nat -> bool) (k : nat) (addrs : list Z) : list Z :=
  match addrs with
  | [] => []
  | a :: rest => if malloc k && malloc (k + 1)%nat && malloc (k + 2)%nat then a :: served malloc (k + 3) rest else []
  end.

Lemma handle_spec malloc k h ks a : malloc k && malloc (k + 1)%nat && malloc (k + 2)%nat = true ->
  represents 0 h ks -> is_u32 a ->
  if (a =? 0) || existsb (Z.eqb a) ks
  then exists h', handle malloc k h a = Some (Handled true h') /\ represents 0 h' (a :: ks)
  else if a =? 0x80000000 then handle malloc k h a = None
  else exists h', handle malloc k h a = Some (Handled false h') /\ represents 0 h' (a :: ks).
Proof.
  intros Hm Hr Ha. unfold handle. apply andb_true_iff in Hm as [Hm ->]. apply andb_true_iff in Hm as [-> ->].
  cbn [negb]. fold (fresh_node 0 a 1).
  pose proof (represents_append _ _ _ (fresh_node 0 a 1) Hr) as Hr'.
  destruct (search_represents _ _ _ a Hr' Ha) as (f & -> & Hf). cbn [bind].
  assert (Hfound : (a =? 0) || existsb (Z.eqb a) ks = true <-> a = 0 \/ In a ks)
    by now rewrite orb_true_iff, existsb_In, Z.eqb_eq.
  rewrite <- Hfound in Hf. destruct ((a =? 0) || existsb (Z.eqb a) ks) eqn:E.
  - rewrite (proj2 (Z.eqb_eq _ _) (proj2 Hf eq_refl)). eexists. split; [reflexivity |].
    apply (represents_same _ _ ks); [assumption |]. intros x Hx. cbn [In].
    destruct (proj1 Hfound eq_refl); split; auto; intros [<-|]; auto; contradiction.
  - destruct (Z.eqb_spec (p_key (get (h ++ [fresh_node 0 a 1]) f)) a) as [Hk%Hf|_]; [discriminate |].
    assert (Hnew : a <> 0 /\ ~ In a ks) by (split; intros H; discriminate (proj2 Hfound ltac:(auto))).
    pose proof (insert_represents 0 h ks a 1 Hr Ha (proj1 Hnew) (proj2 Hnew)) as Hi. cbv zeta in Hi.
    destruct (a =? 0x80000000); [now rewrite Hi |].
    destruct Hi as (s' & -> & Hr2). cbn [bind]. now exists s'.
Qed.

Lemma handle_exits malloc k h a : malloc k && malloc (k + 1)%nat && malloc (k + 2)%nat = false ->
  handle malloc k h a = Some (Exits 0).
Proof. unfold handle. destruct (malloc k), (malloc (k + 1)%nat), (malloc (k + 2)%nat); easy. Qed.

(** C17. The program reports an address as found exactly when it is 0.0.0.0 or
    was read before, for every sequence of 32-bit addresses in which 0x80000000
    does not occur, and exits with 1; on that one address the search for the first
    differing bit runs past the 32 bits of the key and the run has no defined
    result.  When an allocation fails the program exits with 0, having reported the
    addresses read so far. *)
Theorem patricia_main_finds_earlier (malloc : nat -> bool) (addrs : list Z) : Forall is_u32 addrs ->
  patricia_main malloc addrs =
    if malloc 0%nat && malloc 1%nat && malloc 2%nat then
      let lines := served malloc 3 addrs in
      if existsb (Z.eqb 0x80000000) lines then None
      else Some (found_before [] lines, if (length lines =? length addrs)%nat then 1 else 0)
    else Some ([], 0).
Proof.
  intros Hu. unfold patricia_main. destruct (malloc 0%nat), (malloc 1%nat), (malloc 2%nat); cbn [negb andb]; try reflexivity.
  cbv zeta. generalize 3%nat.
  enough (forall k h ks, represents 0 h ks -> ~ In 0x80000000 ks -> patricia_loop malloc k h addrs =
    if existsb (Z.eqb 0x80000000) (served malloc k addrs) then None
    else Some (found_before ks (served malloc k addrs),
               if (length (served malloc k addrs) =? length addrs)%nat then 1 else 0)) as H
    by (intros k; apply H; [apply represents_initial | auto]).
  induction Hu as [|a rest Ha Hu IH]; intros k h ks Hr H8; [reflexivity |].
  cbn [patricia_loop served]. destruct (malloc k && _ && _) eqn:Em; [| now rewrite (handle_exits malloc k h a Em)].
  cbn [existsb found_before length Nat.eqb]. pose proof (handle_spec malloc k h ks a Em Hr Ha) as Hh.
  rewrite (Z.eqb_sym 0x80000000 a).
  destruct ((a =? 0) || existsb (Z.eqb a) ks) eqn:E.
  - destruct Hh as (h' & -> & Hr'). cbn [bind].
    assert (Hn8 : a <> 0x80000000) by (intros ->; now apply H8, existsb_In).
    apply Z.eqb_neq in Hn8 as Hn8'. rewrite Hn8'. cbn [orb].
    rewrite (IH (k + 3)%nat h' (a :: ks) Hr') by (intros [?|?]; auto). now destruct (existsb _ (served _ _ rest)).
  - destruct (Z.eqb_spec a 0x80000000) as [->|Hn8]; [now rewrite Hh |].
    destruct Hh as (h' & -> & Hr'). cbn [bind orb].
    rewrite (IH (k + 3)%nat h' (a :: ks) Hr') by (intros [?|?]; auto). now destruct (existsb _ (served _ _ rest)).
Qed.

(** All allocations succeed; the one for the second node fails. *)
Lemma patricia_main_finds_earlier_witness :
  Forall is_u32 [3232235777; 7; 3232235777; 0; 0x80000001] /\
  patricia_main (fun _ => true) [3232235777; 7; 3232235777; 0; 0x80000001] =
    Some ([false; false; true; true; false], 1) /\
  patricia_main (fun k => k <? 6)%nat [3232235777; 7; 3232235777; 0; 0x80000001] = Some ([false], 0).
Proof.
  assert (H : Forall is_u32 [3232235777; 7; 3232235777; 0; 0x80000001])
    by (repeat constructor; vm_compute; congruence).
  split; [exact H |]. split; [exact (patricia_main_finds_earlier (fun _ => true) _ H) |].
  exact (patricia_main_finds_earlier (fun k => k <? 6)%nat _ H).
Defined.
