(* ===== verification/PatriciaRemove.v ===== *)
(** * PatriciaRemove: removal from a Patricia trie

    [pat_remove] takes a leaf out by giving its node the data of the node above
    it and unlinking that one.  The heap-level proof that this yields the tree of
    the removal, and the theorem that a client's insertions, removals and
    searches behave as those of a set of addresses. *)

From Stdlib Require Import ZArith Lia List Bool Permutation.
From S2P Require Import Prelude Patricia PatriciaTree PatriciaTrie.
Import ListNotations.

(** ** Links *)

(** The link of a node that a key selects, and the other one. *)
Definition child (h : heap) (x : nat) (key : Z) : nat :=
  if kbit (p_b (get h x)) key then p_right (get h x) else p_left (get h x).
Definition sibling (h : heap) (x : nat) (key : Z) : nat :=
  if kbit (p_b (get h x)) key then p_left (get h x) else p_right (get h x).

Definition relink (s : heap) (y : nat) (key : Z) (c : nat) : heap :=
  set s y (if kbit (p_b (get s y)) key then set_right c (get s y) else set_left c (get s y)).

Section Relink.

Variables (s : heap) (y : nat) (key : Z) (c : nat).
Hypothesis Hy : (y < length s)%nat.

Lemma set_child_spec : 0 <= p_b (get s y) <= 31 -> is_u32 key -> set_child s y key c = Some (relink s y key c).
Proof. intros Hb Hk. unfold set_child, relink. rewrite bit_spec by assumption. reflexivity. Qed.

Lemma relink_length : length (relink s y key c) = length s.
Proof. apply set_length. Qed.

Lemma relink_other a : a <> y -> get (relink s y key c) a = get s a.
Proof. intros Ha. unfold relink. rewrite get_set by assumption. now apply Nat.eqb_neq in Ha as ->. Qed.

Lemma relink_self : get (relink s y key c) y =
  if kbit (p_b (get s y)) key then set_right c (get s y) else set_left c (get s y).
Proof. unfold relink. now rewrite get_set, Nat.eqb_refl. Qed.

(** All but the links. *)
Lemma relink_data a : p_b (get (relink s y key c) a) = p_b (get s a) /\
  p_key (get (relink s y key c) a) = p_key (get s a) /\ p_m (get (relink s y key c) a) = p_m (get s a) /\
  p_mlen (get (relink s y key c) a) = p_mlen (get s a).
Proof.
  destruct (Nat.eqb_spec a y) as [->|Ha]; [rewrite relink_self; destruct (kbit _ _); auto |].
  rewrite relink_other by assumption. auto.
Qed.

Lemma child_relink : child (relink s y key c) y key = c.
Proof. unfold child. rewrite (proj1 (relink_data y)), relink_self. now destruct (kbit _ _). Qed.

Lemma sibling_relink : sibling (relink s y key c) y key = sibling s y key.
Proof. unfold sibling. rewrite (proj1 (relink_data y)), relink_self. now destruct (kbit _ _). Qed.

End Relink.

(** A node through the links of a key. *)
Lemma rep_node h b ptr a l r key : rep h b ptr (Br a l r) <->
  ptr = a /\ (a < length h)%nat /\ b < p_b (get h a) <= 31 /\
  rep h (p_b (get h a)) (child h a key) (if kbit (p_b (get h a)) key then r else l) /\
  rep h (p_b (get h a)) (sibling h a key) (if kbit (p_b (get h a)) key then l else r).
Proof. cbn [rep]. unfold child, sibling. destruct (kbit _ _); tauto. Qed.

Section Family.

Variables (h : heap) (key : Z).
Hypothesis Hkey : is_u32 key.

Lemma find_family_spec fuel g x T : 0 <= p_b (get h x) <= 31 ->
  rep h (p_b (get h x)) (child h x key) T -> 31 - p_b (get h x) < Z.of_nat fuel ->
  find_family fuel h g x key = Some (family (bits h) key g x T).
Proof.
  revert g x fuel; induction T as [a|a l IHl r IHr]; intros g x [|f] Hb Hrep Hf; try lia;
    cbn [find_family family]; rewrite step_spec by assumption; fold (child h x key); cbn [bind].
  - destruct Hrep as (-> & _ & Hle). destruct (Z.ltb_spec (p_b (get h x)) (p_b (get h a))); [lia | reflexivity].
  - apply (rep_node _ _ _ _ _ _ key) in Hrep as (-> & _ & Hlt & Hc & _).
    destruct (Z.ltb_spec (p_b (get h x)) (p_b (get h a))); [| lia].
    destruct (kbit (p_b (get h a)) key); [apply IHr | apply IHl]; auto; lia.
Qed.

Lemma find_back_spec fuel g x T g' pp p : 0 <= p_b (get h x) <= 31 ->
  rep h (p_b (get h x)) (child h x key) T -> 31 - p_b (get h x) < Z.of_nat fuel ->
  family (bits h) key g x T = (g', pp, p) -> find_back fuel h x key = Some pp.
Proof.
  revert g x fuel; induction T as [a|a l IHl r IHr]; intros g x [|f] Hb Hrep Hf; try lia;
    cbn [find_back family]; rewrite step_spec by assumption; fold (child h x key); cbn [bind].
  - destruct Hrep as (-> & _ & Hle). destruct (Z.ltb_spec (p_b (get h x)) (p_b (get h a))); [lia | congruence].
  - apply (rep_node _ _ _ _ _ _ key) in Hrep as (-> & _ & Hlt & Hc & _).
    destruct (Z.ltb_spec (p_b (get h x)) (p_b (get h a))); [| lia].
    destruct (kbit (p_b (get h a)) key); [apply IHr | apply IHl]; auto; lia.
Qed.

End Family.

Lemma family_parent bf key g x T g' pp p : family bf key g x T = (g', pp, p) -> pp = x \/ In pp (inner T).
Proof.
  intros H%family_path. destruct T; [left; apply H |]. destruct H as [O H]. right. now apply path_leaves in H.
Qed.

Lemma rename_id p t T : ~ In p (leaves T) -> rename p t T = T.
Proof.
  induction T as [a|a l IHl r IHr]; cbn [rename leaves].
  - intros H. destruct (Nat.eqb_spec a p) as [->|]; [exfalso; apply H; now left | reflexivity].
  - rewrite in_app_iff. intros H. rewrite IHl, IHr; tauto.
Qed.

(** Pointing the link that leads back to [p] at [t]. *)
Lemma rep_rename s kp p t U : (t < length s)%nat -> 0 <= p_b (get s t) <= p_b (get s p) ->
  forall g x g' pp, (x < length s)%nat -> 0 <= p_b (get s x) <= 31 ->
  rep s (p_b (get s x)) (child s x kp) U -> wf (keys s) (bits s) U -> ~ In x (inner U) -> NoDup (inner U) ->
  family (bits s) kp g x U = (g', pp, p) ->
  (pp < length s)%nat /\ 0 <= p_b (get s pp) <= 31 /\
  rep (relink s pp kp t) (p_b (get s x)) (child (relink s pp kp t) x kp) (rename p t U).
Proof.
  intros Ht Hbt. induction U as [a|a l IHl r IHr]; intros g x g' pp Hx Hbx HU HW Hn HD HF.
  - injection HF as <- <- <-. split; [assumption | split; [assumption |]]. cbn [rename].
    rewrite Nat.eqb_refl, child_relink by assumption. cbn [rep] in *.
    rewrite relink_length, (proj1 (relink_data s x kp t Hx t)). intuition lia.
  - pose proof (family_walk _ _ _ _ _ _ _ _ HF) as Hp. pose proof (wf_disjoint _ _ _ _ _ p HW) as Hdis.
    apply (rep_node _ _ _ _ _ _ kp) in HU as (Ea & Ha & Hba & Hc & Hs).
    cbn [family walk inner In] in *. apply NoDup_cons_iff in HD as [Hna (Dl & Dr & Hi)%NoDup_app_iff].
    rewrite in_app_iff in Hn, Hna. destruct HW as (_ & _ & _ & Wl & Wr).
    set (b := kbit (p_b (get s a)) kp) in *.
    assert (IH : (pp < length s)%nat /\ 0 <= p_b (get s pp) <= 31 /\
      rep (relink s pp kp t) (p_b (get s a)) (child (relink s pp kp t) a kp) (rename p t (if b then r else l))).
    { destruct b; [apply (IHr x a g') | apply (IHl x a g')]; auto; lia || tauto. }
    destruct IH as (Hpp & Hbpp & Hc'). split; [assumption | split; [assumption |]].
    apply family_parent in HF.
    assert (Hno : ~ In p (leaves (if b then l else r)))
      by (pose proof (walk_leaf (bits s) kp (if b then r else l)) as Hw; destruct b; rewrite <- Hp in Hw; tauto).
    assert (Hpi : pp = a \/ ~ In pp (inner (if b then l else r)))
      by (destruct HF as [->|HF]; [now left | right]; destruct b; intros H; now apply (Hi pp)).
    assert (Hs' : rep (relink s pp kp t) (p_b (get s a)) (sibling (relink s pp kp t) a kp)
                    (rename p t (if b then l else r))).
    { rewrite rename_id by assumption.
      assert (Es : sibling (relink s pp kp t) a kp = sibling s a kp).
      { destruct (Nat.eqb_spec a pp) as [->|Hap]; [now apply sibling_relink |].
        unfold sibling. now rewrite relink_other. }
      rewrite Es. apply (rep_frame s); [rewrite relink_length; lia | | | assumption].
      - intros y Hy. apply relink_other; [assumption |]. intros ->.
        destruct Hpi as [->|]; [destruct b; tauto | contradiction].
      - intros y _. now apply relink_data. }
    apply (rep_node _ _ _ _ _ _ kp). rewrite (proj1 (relink_data s pp kp t Hpp a)), relink_length. fold b.
    split; [| split; [assumption | split; [lia | destruct b; auto]]].
    unfold child. rewrite relink_other; [exact Ea | assumption |].
    intros <-. destruct HF as [->|HF]; [tauto | destruct b; tauto].
Qed.

(** ** The node above the leaf *)

(** What is known at the node [p] above the leaf [t]; [O] is its other child. *)
Record parent_of (s : heap) (key : Z) (p t : nat) (O : tree) : Prop := {
  par_len : (p < length s)%nat;
  par_bit : 0 < p_b (get s p) <= 31;
  par_child : child s p key = t;
  par_leaf : (t < length s)%nat /\ 0 <= p_b (get s t) <= p_b (get s p);
  par_other : rep s (p_b (get s p)) (sibling s p key) O;
  par_wf : wf (keys s) (bits s) O;
  par_side : forall y, In y (leaves O) -> kbit (p_b (get s p)) (p_key (get s y)) = negb (kbit (p_b (get s p)) key);
  par_t : kbit (p_b (get s p)) (p_key (get s t)) = kbit (p_b (get s p)) key;
  par_own : In p (leaves O) \/ p = t;
  par_dup : ~ In p (inner O) /\ NoDup (inner O)
}.

Lemma path_parent s key p t O T b ptr : path (bits s) key p t O T -> 0 <= b -> rep s b ptr T ->
  wf (keys s) (bits s) T -> owned T -> NoDup (inner T) -> parent_of s key p t O.
Proof.
  intros HP. revert b ptr; induction HP as [E|E|a l r E HP IH|a l r E HP IH]; intros b ptr Hb HT HW HO HD;
    apply (rep_node _ _ _ _ _ _ key) in HT as (Ea & Ha & Hba & Hc & Hs); rewrite E in Hc, Hs;
    pose proof HW as (W0 & W1 & _ & Wl & Wr); destruct HO as (Ho & Ol & Or); cbn [inner] in HD;
    apply NoDup_cons_iff in HD as [Hna (Dl & Dr & _)%NoDup_app_iff]; cbn [leaves] in *;
    rewrite in_app_iff in Hna, Ho; cbn [In] in *.
  - destruct Hc as (Hc & Hc2 & Hc3).
    split; rewrite ?E; auto; [lia | intuition auto].
  - destruct Hc as (Hc & Hc2 & Hc3).
    split; rewrite ?E; auto; [lia | intuition auto].
  - apply (IH (p_b (get s a)) (child s a key)); auto; lia.
  - apply (IH (p_b (get s a)) (child s a key)); auto; lia.
Qed.

(** The node [g] above [p]; a leaf that moves up to it is not below it. *)
Lemma path_grandparent s key p t O T : path (bits s) key p t O T -> forall g0 x g above,
  family (bits s) key g0 x T = (g, p, t) -> rep s (p_b (get s x)) (child s x key) T ->
  wf (keys s) (bits s) T -> up_ok above T -> (forall y, In y above -> p_b (get s y) <= p_b (get s x)) ->
  (g = x \/ In g (inner T)) /\ (~ In x (inner T) -> NoDup (inner T) -> ~ In g (p :: inner O)) /\
  p_b (get s g) < p_b (get s p) /\ child s g key = p /\
  match rename p t O with Up y => p_b (get s y) <= p_b (get s g) | Br _ _ _ => True end.
Proof.
  intros HP. pose proof HP as HP0. induction HP as [E|E|a l r E HP IH|a l r E HP IH]; intros g0 x g above HF HT HW HU Hab;
    pose proof (del_up_ok (keys s) _ _ _ _ _ _ _ HP0 HW HU) as HU'.
  - cbn [family del inner In] in *. rewrite E in HF, HU'. injection HF as <-.
    destruct HT as (Ea & _ & Hb & _). rewrite app_nil_r.
    split; [auto |]. split; [tauto |]. split; [lia |]. split; [assumption |]. destruct (rename p t O); [| exact I]. now apply Hab.
  - cbn [family del inner In] in *. rewrite E in HF, HU'. injection HF as <-.
    destruct HT as (Ea & _ & Hb & _).
    split; [auto |]. split; [tauto |]. split; [lia |]. split; [assumption |]. destruct (rename p t O); [| exact I]. now apply Hab.
  - apply (rep_node _ _ _ _ _ _ key) in HT as (_ & Ha & Hba & Hc & _). cbn [family] in HF. rewrite E in HF, Hc.
    destruct HW as (_ & _ & _ & Wl & Wr), HU as [Ul Ur].
    destruct (IH HP x a g (a :: above) HF Hc Wr Ur) as (Hg & Hd & Hr).
    { intros y [<-|Hy]; [lia | specialize (Hab y Hy); lia]. }
    split; [right; cbn [inner In]; rewrite in_app_iff; intuition auto |]. split; [| assumption].
    cbn [inner]. intros _ [Hn (_ & Dr & _)%NoDup_app_iff]%NoDup_cons_iff. apply Hd; [| assumption].
    rewrite in_app_iff in Hn. tauto.
  - apply (rep_node _ _ _ _ _ _ key) in HT as (_ & Ha & Hba & Hc & _). cbn [family] in HF. rewrite E in HF, Hc.
    destruct HW as (_ & _ & _ & Wl & Wr), HU as [Ul Ur].
    destruct (IH HP x a g (a :: above) HF Hc Wl Ul) as (Hg & Hd & Hr).
    { intros y [<-|Hy]; [lia | specialize (Hab y Hy); lia]. }
    split; [right; cbn [inner In]; rewrite in_app_iff; intuition auto |]. split; [| assumption].
    cbn [inner]. intros _ [Hn (Dl & _ & _)%NoDup_app_iff]%NoDup_cons_iff. apply Hd; [| assumption].
    rewrite in_app_iff in Hn. tauto.
Qed.

(** The first link of the removal: the leaf [p] below [p] becomes [t]. *)
Lemma unlink_back s key p t O : parent_of s key p t O -> is_u32 (p_key (get s p)) ->
  (t = p -> p_key (get s p) = key) ->
  exists pp, find_back depth s p (p_key (get s p)) = Some pp /\ (pp < length s)%nat /\
    0 <= p_b (get s pp) <= 31 /\ (pp = p \/ In pp (inner O)) /\
    rep (relink s pp (p_key (get s p)) t) (p_b (get s p))
      (sibling (relink s pp (p_key (get s p)) t) p key) (rename p t O).
Proof.
  intros [Hlen Hb Hc [Ht Hbt] Ho HW Hside Htk Hown [Hpo HD]] Hk Hself. set (kp := p_key (get s p)) in *.
  destruct (Nat.eqb_spec p t) as [E|E].
  - assert (Ek : kp = key) by auto.
    assert (Hno : ~ In p (leaves O)).
    { intros Hin. specialize (Hside p Hin). fold kp in Hside. rewrite Ek in Hside. destruct (kbit _ key); discriminate. }
    exists p. split; [| split; [assumption | split; [lia | split; [auto |]]]].
    + apply (find_back_spec s kp Hk depth p p (Up t) p p t); [lia | | unfold depth; lia | reflexivity].
      rewrite Ek. cbn [rep]. auto.
    + rewrite rename_id, Ek, sibling_relink by assumption.
      apply (rep_frame s); [rewrite relink_length; lia | | intros; now apply relink_data | assumption].
      intros a Ha. apply relink_other; [assumption |]. intros ->; contradiction.
  - assert (Hin : In p (leaves O)) by tauto.
    assert (Hkb : kbit (p_b (get s p)) kp = negb (kbit (p_b (get s p)) key)) by apply (Hside p Hin).
    assert (Hcs : forall s' : heap, p_b (get s' p) = p_b (get s p) -> child s' p kp = sibling s' p key).
    { intros s' Es. unfold child, sibling. rewrite Es, Hkb. now destruct (kbit _ key). }
    rewrite <- (Hcs s eq_refl) in Ho.
    assert (Hw : walk (bits s) kp O = p)
      by (apply (walk_unique s _ _ O (keys s) kp p Ho); auto; [lia | intros i _; reflexivity]).
    destruct (family (bits s) kp p p O) as [[g' pp] p'] eqn:HF.
    pose proof (family_walk _ _ _ _ _ _ _ _ HF) as Hp'. rewrite Hw in Hp'. subst p'.
    destruct (rep_rename s kp p t O Ht Hbt p p g' pp) as (Hpp & Hbpp & Hrep); auto; [lia |].
    exists pp. split; [apply (find_back_spec s kp Hk depth p p O g' pp p); auto; unfold depth; lia |].
    split; [assumption | split; [assumption |]]. split; [now apply family_parent in HF |].
    rewrite <- Hcs; [assumption |]. now apply relink_data.
Qed.

Lemma path_inner bf key p t O T : path bf key p t O T -> forall y, y = p \/ In y (inner O) -> In y (inner T).
Proof.
  induction 1; intros y Hy; cbn [inner In app]; rewrite ?app_nil_r, ?in_app_iff; intuition auto.
Qed.

(** The tree after the link of [g] has been set, in a store [s2] that differs
    from [s] in the links of [g], [p] and the nodes of [O] only. *)
Lemma rep_del s s2 key p t O g : length s2 = length s -> (forall a, p_b (get s2 a) = p_b (get s a)) ->
  (forall y, y <> g -> y <> p -> ~ In y (inner O) -> get s2 y = get s y) ->
  sibling s2 g key = sibling s g key ->
  rep s2 (p_b (get s g)) (child s2 g key) (rename p t O) ->
  forall T, path (bits s) key p t O T -> forall g0 x, family (bits s) key g0 x T = (g, p, t) ->
  rep s (p_b (get s x)) (child s x key) T -> ~ In x (inner T) -> NoDup (inner T) ->
  (g = x \/ In g (inner T)) /\ rep s2 (p_b (get s x)) (child s2 x key) (del (bits s) key T).
Proof.
  intros Hlen Hbits Hsame Hsib Hren T HP.
  assert (Hdown : forall a c o x ptr, (forall y, y = p \/ In y (inner O) -> In y (inner c)) ->
    (g = a \/ In g (inner c)) -> ~ In x (a :: inner c) -> ~ In a (inner c) -> ~ In a (inner o) ->
    (forall y, In y (inner o) -> ~ In y (inner c)) ->
    child s x key = ptr -> rep s (p_b (get s a)) (sibling s a key) o ->
    child s2 x key = ptr /\ rep s2 (p_b (get s a)) (sibling s2 a key) o).
  { intros a c o x ptr HO Hg Hx Hac Hao Hoc Hptr Ho. cbn [In] in *.
    assert (Hout : forall y, y <> g -> ~ In y (inner c) -> get s2 y = get s y).
    { intros y Hy Hyc. apply Hsame; [assumption | |]; intros H; apply Hyc, HO; auto. }
    split.
    - unfold child in *. rewrite Hout; [assumption | |]; [intros -> | intros H]; intuition auto.
    - assert (Es : sibling s2 a key = sibling s a key).
      { destruct (Nat.eqb_spec a g) as [->|Ha]; [assumption |]. unfold sibling. now rewrite Hout. }
      rewrite Es. apply (rep_frame s); [lia | | auto | assumption].
      intros y Hy. apply Hout; [| auto]. intros ->. destruct Hg as [->|Hg]; [contradiction | now apply (Hoc g)]. }
  induction HP as [E|E|a l r E HP IH|a l r E HP IH]; intros g0 x HF HT Hx HD.
  - cbn [family del] in *. rewrite E in *. injection HF as <-. auto.
  - cbn [family del] in *. rewrite E in *. injection HF as <-. auto.
  - rewrite (del_right _ _ p t O) by assumption.
    apply (rep_node _ _ _ _ _ _ key) in HT as (Ea & Ha & Hba & Hc & Hs). cbn [family] in HF. rewrite E in *.
    cbn [inner In] in *. apply NoDup_cons_iff in HD as [Hna (Dl & Dr & Hi)%NoDup_app_iff].
    rewrite in_app_iff in Hna, Hx. destruct (IH x a HF Hc) as [Hg IHr]; [tauto | assumption |].
    rewrite in_app_iff. split; [intuition auto |].
    destruct (Hdown a r l x a (path_inner _ _ _ _ _ _ HP)) as [Ex Es]; auto; try (cbn [In]; tauto).
    apply (rep_node _ _ _ _ _ _ key). rewrite Hbits, Hlen, E. auto.
  - rewrite (del_left _ _ p t O) by assumption.
    apply (rep_node _ _ _ _ _ _ key) in HT as (Ea & Ha & Hba & Hc & Hs). cbn [family] in HF. rewrite E in *.
    cbn [inner In] in *. apply NoDup_cons_iff in HD as [Hna (Dl & Dr & Hi)%NoDup_app_iff].
    rewrite in_app_iff in Hna, Hx. destruct (IH x a HF Hc) as [Hg IHl]; [tauto | assumption |].
    rewrite in_app_iff. split; [intuition auto |].
    destruct (Hdown a l r x a (path_inner _ _ _ _ _ _ HP)) as [Ex Es]; auto; try (cbn [In]; tauto).
    { intros y Hy Hy'. now apply (Hi y). }
    apply (rep_node _ _ _ _ _ _ key). rewrite Hbits, Hlen, E. auto.
Qed.

(** ** The removal *)

Lemma rep_links s s' b ptr T : length s' = length s ->
  (forall a, p_b (get s' a) = p_b (get s a) /\ p_left (get s' a) = p_left (get s a) /\
     p_right (get s' a) = p_right (get s a)) -> rep s b ptr T -> rep s' b ptr T.
Proof.
  intros Hlen He. revert b ptr; induction T as [a|a l IHl r IHr]; intros b ptr; cbn [rep];
    destruct (He a) as (Eb & El & Er); rewrite ?Eb, ?El, ?Er, ?Hlen; intuition auto.
Qed.

(** The data of a node. *)
Definition data (h : heap) (a : nat) : Z * list ptree_mask * Z :=
  (p_key (get h a), p_m (get h a), p_mlen (get h a)).

Lemma relink_keeps s y key c a : (y < length s)%nat ->
  p_b (get (relink s y key c) a) = p_b (get s a) /\ data (relink s y key c) a = data s a.
Proof. intros Hy. unfold data. destruct (relink_data s y key c Hy a) as (-> & -> & -> & ->). auto. Qed.

(** The two links that the removal sets: that of [pp], back to [p], and that of
    [g], down to [p]. *)
Lemma relink_twice s key p t U g pp kp : (g < length s)%nat -> (pp < length s)%nat ->
  pp = p \/ In pp (inner U) -> ~ In g (p :: inner U) -> p_b (get s g) < p_b (get s p) ->
  match rename p t U with Up y => p_b (get s y) <= p_b (get s g) | Br _ _ _ => True end ->
  let s1 := relink s pp kp t in
  let s2 := relink s1 g key (sibling s1 p key) in
  rep s1 (p_b (get s p)) (sibling s1 p key) (rename p t U) ->
  length s2 = length s /\ (forall a, p_b (get s2 a) = p_b (get s a) /\ data s2 a = data s a) /\
  (forall y, y <> g -> y <> p -> ~ In y (inner U) -> get s2 y = get s y) /\
  sibling s2 g key = sibling s g key /\ rep s2 (p_b (get s g)) (child s2 g key) (rename p t U).
Proof.
  intros Hgl Hpp Hppi Hgp Hgb Hup s1 s2 Hren. cbn [In] in Hgp.
  assert (Hl1 : length s1 = length s) by apply relink_length.
  assert (Hl2 : length s2 = length s1) by apply relink_length.
  assert (D1 : forall a, p_b (get s1 a) = p_b (get s a) /\ data s1 a = data s a)
    by (intros; now apply relink_keeps).
  assert (D2 : forall a, p_b (get s2 a) = p_b (get s a) /\ data s2 a = data s a).
  { intros a. destruct (relink_keeps s1 g key (sibling s1 p key) a ltac:(lia)) as [Eb Ed].
    fold s2 in Eb, Ed. rewrite Eb, Ed. apply D1. }
  split; [lia |]. split; [assumption |]. split; [| split].
  - intros y Hyg Hyp Hyu. unfold s2. rewrite relink_other by (auto; lia).
    apply relink_other; [assumption |]. intros ->. tauto.
  - unfold s2. rewrite sibling_relink by lia. unfold sibling, s1. rewrite relink_other; auto.
    intros ->. intuition auto.
  - unfold s2. rewrite child_relink by lia. fold s2. rewrite <- (rename_inner p t U) in Hgp.
    apply (rep_frame s1); [lia | | |].
    + intros a Ha. apply relink_other; [lia |]. intros ->. tauto.
    + intros a _. rewrite (proj1 (D2 a)), (proj1 (D1 a)). reflexivity.
    + destruct (rename p t U) as [y|y l r]; cbn [rep] in *; rewrite (proj1 (D1 y)) in *; intuition lia.
Qed.

(** The last step: [t] takes the data of [p]. *)
Definition take_data (s : heap) (t p : nat) : heap :=
  if negb (t =? p)%nat
  then set s t (set_masks (p_m (get s p)) (p_mlen (get s p)) (set_key (p_key (get s p)) (get s t)))
  else s.

Lemma take_data_spec s t p : (t < length s)%nat ->
  length (take_data s t p) = length s /\ data (take_data s t p) t = data s p /\
  (forall a, a <> t -> get (take_data s t p) a = get s a) /\
  (forall a, p_b (get (take_data s t p) a) = p_b (get s a) /\
     p_left (get (take_data s t p) a) = p_left (get s a) /\ p_right (get (take_data s t p) a) = p_right (get s a)).
Proof.
  intros Ht. unfold take_data, data. destruct (Nat.eqb_spec t p) as [->|Hn]; cbn [negb]; [repeat split |].
  split; [apply set_length |]. rewrite get_set, Nat.eqb_refl by assumption. split; [reflexivity |].
  split; intros a; [intros Ha | destruct (Nat.eqb_spec a t) as [->|Ha]]; rewrite get_set by assumption;
    rewrite ?Nat.eqb_refl; auto; now apply Nat.eqb_neq in Ha as ->.
Qed.

Lemma up_ok_leaf above T x : up_ok above T -> In x (leaves T) -> In x above \/ In x (inner T).
Proof.
  revert above; induction T as [a|a l IHl r IHr]; intros above; cbn [up_ok leaves inner In].
  - intros Ha [<-|[]]. now left.
  - rewrite !in_app_iff. intros [Ul Ur] [Hx|Hx]; [apply (IHl _ Ul) in Hx | apply (IHr _ Ur) in Hx];
      cbn [In] in Hx; tauto.
Qed.

Lemma rep_inner_bit h b ptr T a : rep h b ptr T -> In a (inner T) -> b < p_b (get h a) <= 31.
Proof.
  revert b ptr; induction T as [x|x l IHl r IHr]; intros b ptr; cbn [rep inner In]; [tauto |].
  intros (_ & _ & Hb & Hl & Hr). rewrite in_app_iff.
  intros [<-|[Ha|Ha]]; [assumption | apply (IHl _ _ Hl) in Ha | apply (IHr _ _ Hr) in Ha]; lia.
Qed.

(** A leaf that is not the only one has a node above it. *)
Lemma family_path_node bf key g x T g' p t : family bf key g x T = (g', p, t) ->
  In O (leaves T) -> t <> O -> exists U, path bf key p t U T.
Proof.
  intros HF H0 Ht. pose proof (family_path _ _ _ _ _ _ _ _ HF) as HP. destruct T as [a|a l r]; [| assumption].
  destruct H0 as [->|[]]. cbn [family] in HF. congruence.
Qed.

Section Removal.

Variables (s : heap) (TL TR : tree) (key : Z) (n : nat) (mask : ptree_mask) (rest : list ptree_mask).
Hypothesis Htrie : trie 1 s TL TR.
Hypothesis Hkey : is_u32 key.
Hypothesis Hnz : key <> 0.
Hypothesis Hn : p_key (get s n) = key /\ p_m (get s n) = mask :: rest /\ pm_mask mask = 0xffffffff.

Let T := part TL TR key.
Let t := walk (bits s) key T.

Lemma head_child : p_b (get s 0) = 0 /\ rep s 0 (child s 0 key) T /\
  child s 0 key = (if kbit 0 key then p_right (get s 0) else p_left (get s 0)).
Proof.
  destruct (trie_head _ _ _ _ Htrie) as (_ & Hb & _). split; [assumption |].
  assert (E : child s 0 key = (if kbit 0 key then p_right (get s 0) else p_left (get s 0)))
    by (unfold child; now rewrite Hb).
  rewrite E. split; [| reflexivity]. apply (trie_side 1 s TL TR key Htrie).
Qed.

Lemma remove_family g p t' : family (bits s) key 0 0 T = (g, p, t') ->
  t' = t /\ find_family depth s 0 0 key = Some (g, p, t').
Proof.
  intros HF. destruct head_child as (Hb & Hrep & _). split; [exact (family_walk _ _ _ _ _ _ _ _ HF) |].
  rewrite <- HF. apply find_family_spec; rewrite ?Hb; auto; unfold depth; lia.
Qed.

(** Removing an address that is not there. *)
Lemma remove_absent junk : ~ stored s TL TR key -> pat_remove (Some junk) s n 0 = Some (0, s).
Proof.
  intros Hno. unfold pat_remove. destruct Hn as (-> & -> & _).
  destruct (family (bits s) key 0 0 T) as [[g p] t'] eqn:HF.
  destruct (remove_family g p t' HF) as [-> ->]. cbn [bind].
  assert (Hne : p_key (get s t) <> key).
  { destruct (Nat.eqb_spec t 0) as [E|E].
    - rewrite E. destruct (trie_head _ _ _ _ Htrie) as [-> _]. auto.
    - intros Hk. apply Hno, (stored_part 1); [assumption |]. exists t. repeat split; auto. apply walk_leaf. }
  apply Z.eqb_neq in Hne. now rewrite Hne.
Qed.

Hypothesis Hst : stored s TL TR key.

(** The address is at [t], below [p], which is below [g]. *)
Lemma remove_found : t <> O /\ p_key (get s t) = key /\
  exists g p U, family (bits s) key 0 0 T = (g, p, t) /\ path (bits s) key p t U T /\ parent_of s key p t U /\
    (g = O \/ In g (inner T)) /\ ~ In g (p :: inner U) /\ p_b (get s g) < p_b (get s p) /\ child s g key = p /\
    match rename p t U with Up y => p_b (get s y) <= p_b (get s g) | Br _ _ _ => True end.
Proof.
  pose proof (trie_side 1 s TL TR key Htrie) as HS. fold T in HS.
  apply (stored_part 1) in Hst; [| assumption]. fold T in Hst.
  destruct (side_walk_found 1 _ _ _ _ key HS Hst) as [Ht0 Htk]. split; [assumption | split; [assumption |]].
  destruct head_child as (Hb & Hrep & Hc).
  destruct (family (bits s) key 0 0 T) as [[g p] t'] eqn:HF.
  pose proof (family_walk _ _ _ _ _ _ _ _ HF) as Et. fold t in Et. subst t'.
  destruct (family_path_node _ _ _ _ _ _ _ _ HF (side_head _ _ _ _ _ HS) Ht0) as [U HP].
  exists g, p, U. split; [reflexivity |]. split; [assumption |].
  split.
  - apply (path_parent s key p t U T 0 (child s 0 key)); auto; [lia | apply HS | apply HS | apply HS].
  - destruct (path_grandparent s key p t U T HP 0 0 g [O]) as (Hg & Hd & Hr);
      [assumption | rewrite Hb; assumption | apply HS | apply (side_up _ _ _ _ _ HS) | |].
    + intros y [<-|[]]. lia.
    + split; [assumption |]. split; [| exact Hr]. apply Hd; [apply HS | apply HS].
Qed.

Lemma side_T : side 1 s (kbit 0 key) (if kbit 0 key then p_right (get s 0) else p_left (get s 0)) T.
Proof. exact (trie_side 1 s TL TR key Htrie). Qed.

(** The node of a leaf other than the head is in the tree. *)
Lemma leaf_inner a : In a (leaves T) -> a <> O -> In a (inner T).
Proof.
  intros Ha H0. destruct (up_ok_leaf _ _ _ (side_up _ _ _ _ _ side_T) Ha) as [[<-|[]]|]; [contradiction | assumption].
Qed.

Lemma node_range a : a = O \/ In a (inner T) -> (a < length s)%nat /\ 0 <= p_b (get s a) <= 31.
Proof.
  destruct head_child as (Hb & Hrep & _). intros [->|Ha].
  - split; [apply Htrie | lia].
  - split; [now apply (rep_range _ _ _ _ Hrep) |]. apply (rep_inner_bit _ _ _ _ _ Hrep) in Ha. lia.
Qed.

(** The run of [pat_remove] on an address that is there. *)
Lemma remove_run junk g p U pp : path (bits s) key p t U T -> parent_of s key p t U ->
  family (bits s) key 0 0 T = (g, p, t) -> (g = O \/ In g (inner T)) -> p_key (get s t) = key -> t <> O ->
  find_back depth s p (p_key (get s p)) = Some pp -> (pp < length s)%nat -> 0 <= p_b (get s pp) <= 31 ->
  let s1 := relink s pp (p_key (get s p)) t in
  let s2 := relink s1 g key (sibling s1 p key) in
  pat_remove (Some junk) s n 0 = Some (1, take_data s2 t p).
Proof.
  intros HP Hpar HF Hg Htk Ht0 Hback Hpp Hbpp s1 s2. unfold pat_remove. destruct Hn as (-> & -> & Hm).
  destruct (remove_family g p t HF) as [_ ->]. cbn [bind]. rewrite Htk, Z.eqb_refl. cbn [negb].
  assert (Htl : In t (leaves T)) by apply walk_leaf.
  destruct (side_leaf _ _ _ _ _ side_T t Htl Ht0) as (_ & _ & [dt Em] & ->). cbn [Z.eqb Pos.eqb].
  assert (Htb : 0 < p_b (get s t)).
  { apply (rep_inner_bit _ _ _ _ _ (side_rep _ _ _ _ _ side_T)). now apply leaf_inner. }
  destruct (Z.eqb_spec (p_b (get s t)) 0); [lia |].
  unfold first_mask. rewrite Em, Hm. cbn [nth pm_mask]. rewrite Z.eqb_refl. cbn [negb].
  rewrite Hback. cbn [bind].
  assert (Hku : is_u32 (p_key (get s p))).
  { destruct (path_leaves _ _ _ _ _ _ HP) as [_ Hpi].
    destruct (side_inner _ _ _ _ _ _ side_T Hpi) as [Hp0 Hpl].
    exact (proj1 (side_leaf _ _ _ _ _ side_T p Hpl Hp0)). }
  rewrite set_child_spec by assumption. cbn [bind]. fold s1.
  destruct (node_range g Hg) as [Hgl Hgb].
  assert (Hb1 : forall a, p_b (get s1 a) = p_b (get s a)) by (intros; now apply relink_data).
  rewrite bit_spec by (rewrite ?Hb1; auto; pose proof (par_bit _ _ _ _ _ Hpar); lia). cbn [bind].
  fold (sibling s1 p key). rewrite set_child_spec by (rewrite ?Hb1; auto). reflexivity.
Qed.

(** What the removal leaves: the tree without the leaf, and the data of [p] in [t]. *)
Lemma remove_effect junk : exists s' p U, pat_remove (Some junk) s n 0 = Some (1, s') /\ path (bits s) key p t U T /\
  length s' = length s /\ (forall a, p_b (get s' a) = p_b (get s a)) /\
  data s' t = data s p /\ (forall a, a <> t -> data s' a = data s a) /\
  (forall a, a <> O -> ~ In a (inner T) -> get s' a = get s a) /\
  sibling s' 0 key = sibling s 0 key /\ rep s' 0 (child s' 0 key) (del (bits s) key T).
Proof.
  destruct remove_found as (Ht0 & Htk & g & p & U & HF & HP & Hpar & Hg & Hgp & Hgb & Hgc & Hup).
  destruct head_child as (Hb0 & Hrep & _). pose proof (path_inner _ _ _ _ _ _ HP) as HPi.
  destruct (side_inner _ _ _ _ _ _ side_T (HPi p (or_introl eq_refl))) as [Hp0 Hpl].
  destruct (unlink_back s key p t U Hpar) as (pp & Hback & Hpp & Hbpp & Hppi & Hren).
  { exact (proj1 (side_leaf _ _ _ _ _ side_T p Hpl Hp0)). }
  { intros <-. assumption. }
  pose proof (remove_run junk g p U pp HP Hpar HF Hg Htk Ht0 Hback Hpp Hbpp) as Hrun. cbv zeta in Hrun.
  destruct (relink_twice s key p t U g pp (p_key (get s p)) (proj1 (node_range g Hg)) Hpp Hppi Hgp Hgb Hup Hren)
    as (Hl2 & D2 & Hout & Hsib & Hch).
  set (s2 := relink (relink s pp _ t) g key _) in *.
  destruct (take_data_spec s2 t p) as (Hl3 & E3t & E3o & E3l); [rewrite Hl2; apply (par_leaf _ _ _ _ _ Hpar) |].
  destruct (rep_del s s2 key p t U g Hl2 (fun a => proj1 (D2 a)) Hout Hsib Hch T HP 0 0 HF)
    as [_ Hdel]; [rewrite Hb0; assumption | apply side_T | apply side_T |].
  set (s3 := take_data s2 t p) in *. destruct (E3l O) as (Eb & El & Er).
  exists s3, p, U. split; [exact Hrun |]. split; [assumption |]. split; [lia |].
  split; [intros a; rewrite (proj1 (E3l a)); apply D2 |].
  split; [rewrite E3t; apply D2 |].
  split; [intros a Ha; unfold data; rewrite E3o by assumption; apply D2 |].
  split; [| split].
  - intros a Ha Hai. rewrite E3o.
    + apply Hout; [intros ->; tauto | |]; intros H; apply Hai, HPi; auto.
    + intros ->. apply Hai, leaf_inner; [apply walk_leaf | assumption].
  - unfold sibling. rewrite Eb, El, Er. fold (sibling s2 0 key).
    destruct (Nat.eqb_spec 0 g) as [<-|Hg0]; [assumption |]. unfold sibling.
    rewrite Hout; auto. intros Hu. apply (side_pos _ _ _ _ _ side_T), HPi. auto.
  - apply (rep_links s2); [assumption | assumption |]. rewrite <- Hb0.
    unfold child. rewrite Eb, El, Er. exact Hdel.
Qed.

Section Effect.

Variables (s' : heap) (p : nat) (U : tree).
Hypothesis HP : path (bits s) key p t U T.
Hypothesis Hbits : forall a, p_b (get s' a) = p_b (get s a).
Hypothesis Hdt : data s' t = data s p.
Hypothesis Hdo : forall a, a <> t -> data s' a = data s a.

Lemma key_taken : p_key (get s' t) = p_key (get s p).
Proof. now injection Hdt. Qed.

Lemma key_kept a : a <> t -> p_key (get s' a) = p_key (get s a).
Proof. intros Ha. now injection (Hdo a Ha). Qed.

Lemma leaf_kept x : In x (leaves (del (bits s) key T)) <-> In x (leaves T) /\ x <> p.
Proof.
  apply (del_leaves (keys s) (bits s) key p t U); [assumption | | | ];
    [apply (side_dup _ _ _ _ _ side_T) | apply side_T | apply (side_owned _ _ _ _ _ side_T)].
Qed.

Lemma parent_is_leaf : p <> O /\ In p (leaves T).
Proof. apply (side_inner _ _ _ _ _ _ side_T). now apply (path_leaves _ _ _ _ _ _ HP). Qed.

(** The side of the address after its removal. *)
Lemma side_removed : rep s' 0 (child s' 0 key) (del (bits s) key T) ->
  side 1 s' (kbit 0 key) (child s' 0 key) (del (bits s) key T).
Proof.
  intros Hrep. destruct parent_is_leaf as [Hp0 Hpl].
  pose proof (del_inner (bits s) key p t U T HP) as Hperm. destruct side_T as [R W D P Ow Up H0 L].
  split; auto.
  - apply (wf_ext (keys s') (bits s)); auto.
    apply (wf_del (keys s) (bits s) key p t U); auto using key_taken, key_kept.
  - apply (Permutation_NoDup (Permutation_sym Hperm)) in D. now apply NoDup_cons_iff in D.
  - intros H. apply P. apply (Permutation_in _ Hperm). now right.
  - now apply (del_owned (keys s) (bits s) key p t U).
  - now apply (del_up_ok (keys s) (bits s) key p t U).
  - apply leaf_kept. auto.
  - intros a [Ha Hap]%leaf_kept Ha0. destruct (Nat.eqb_spec a t) as [->|Hat].
    + injection Hdt as -> -> ->. now apply L.
    + injection (Hdo a Hat) as -> -> ->. now apply L.
Qed.

(** Its addresses are the others. *)
Lemma holds_removed k : holds s' (del (bits s) key T) k <-> holds s T k /\ k <> key.
Proof.
  destruct parent_is_leaf as [Hp0 Hpl]. destruct remove_found as (Ht0 & Htk & _).
  assert (Huniq : forall a, In a (leaves T) -> a <> O -> p_key (get s a) = key -> a = t).
  { intros a Ha Ha0 Hk. symmetry. apply (walk_unique s 0 _ T (keys s) key a (side_rep _ _ _ _ _ side_T));
      [lia | apply side_T | assumption |]. cbv beta. rewrite Hk. intros i _. reflexivity. }
  split.
  - intros (a & [Ha Hap]%leaf_kept & Ha0 & <-). destruct (Nat.eqb_spec a t) as [->|Hat].
    + rewrite key_taken. split; [now exists p |]. intros Hk. apply Hap. symmetry. now apply Huniq.
    + rewrite key_kept by assumption. split; [now exists a |]. intros Hk. now apply Hat, Huniq.
  - intros [(a & Ha & Ha0 & <-) Hk].
    assert (Hat : a <> t) by (intros ->; contradiction).
    destruct (Nat.eqb_spec a p) as [->|Hap].
    + exists t. rewrite leaf_kept, key_taken. repeat split; auto. apply walk_leaf.
    + exists a. rewrite leaf_kept, key_kept; auto.
Qed.

End Effect.

(** Removing an address that is there. *)
Lemma remove_present junk : exists s' TL' TR', pat_remove (Some junk) s n 0 = Some (1, s') /\ trie 1 s' TL' TR' /\
  forall k, stored s' TL' TR' k <-> stored s TL TR k /\ k <> key.
Proof.
  destruct (remove_effect junk) as (s' & p & U & Hrun & HP & Hlen & Hbits & Hdt & Hdo & Hout & Hsib & Hrep).
  pose proof (side_removed s' p U HP Hbits Hdt Hdo Hrep) as HS.
  pose proof (holds_removed s' p U HP Hdt Hdo) as Hholds.
  destruct (remove_found) as (Ht0 & _). destruct head_child as (Hb0 & _ & Hc).
  destruct Htrie as [Hl0 Hh HL HR Hdis].
  assert (Hti : In t (inner T)) by (apply leaf_inner; [apply walk_leaf | assumption]).
  assert (Hoth : forall right q V, side 1 s right q V -> (forall a, In a (inner V) -> ~ In a (inner T)) ->
    side 1 s' right q V /\ forall k, holds s' V k <-> holds s V k).
  { intros right q V HV Hd.
    assert (Hnt : forall a, In a (leaves V) -> a <> t).
    { intros a Ha ->. destruct (up_ok_leaf _ _ _ (side_up _ _ _ _ _ HV) Ha) as [[H|[]]|H]; [now apply Ht0 | now apply (Hd t)]. }
    split.
    - apply (side_frame 1 s); [assumption | lia | |].
      + intros a Ha. apply Hout; [| now apply Hd]. intros ->. now apply (side_pos _ _ _ _ _ HV).
      + intros a Ha. injection (Hdo a (Hnt a Ha)) as -> -> ->. auto.
    - intros k. unfold holds. split; intros (a & Ha & H0 & Hk); exists a;
        injection (Hdo a (Hnt a Ha)) as E _ _; rewrite E in *; auto. }
  assert (Hhead : p_key (get s' 0) = 0 /\ p_b (get s' 0) = 0 /\ pm_mask (first_mask (get s' 0)) = 0).
  { injection (Hdo O (not_eq_sym Ht0)) as -> E _. unfold first_mask. rewrite E, Hbits. exact Hh. }
  assert (Hinner : forall a, In a (inner (del (bits s) key T)) -> In a (inner T))
    by (intros a Ha; apply (Permutation_in _ (del_inner _ _ _ _ _ _ HP)); now right).
  exists s'. unfold T, part, child, sibling in *. rewrite Hbits, Hb0 in HS, Hsib. destruct (kbit 0 key) eqn:Eb.
  - destruct (Hoth _ _ _ HL Hdis) as [HL' HhL]. rewrite <- Hsib in HL'.
    exists TL, (del (bits s) key TR). split; [assumption |]. split.
    + split; auto; [lia |]. intros a Ha Ha'. now apply (Hdis a), Hinner.
    + intros k. unfold stored. rewrite HhL, Hholds. split; [| tauto].
      intros [H|H]; [| tauto]. split; [now left |]. intros ->.
      apply (side_bit _ _ _ _ _ _ HL) in H. congruence.
  - destruct (Hoth _ _ _ HR) as [HR' HhR]; [intros a Ha Hb; now apply (Hdis a) |]. rewrite <- Hsib in HR'.
    exists (del (bits s) key TL), TR. split; [assumption |]. split.
    + split; auto. lia.
    + intros k. unfold stored. rewrite HhR, Hholds. split; [| tauto].
      intros [H|H]; [tauto |]. split; [now right |]. intros ->.
      apply (side_bit _ _ _ _ _ _ HR) in H. congruence.
Qed.

End Removal.

(** ** Inserting an address that is there *)

Lemma side_new_data h right ptr T a d : (a < length h)%nat -> side 1 h right ptr T ->
  side 1 (set h a (set_masks [mkMask 0xffffffff d] 1 (get h a))) right ptr T.
Proof.
  intros Ha [R W D P Ow Up H0 L].
  assert (E : forall x, let n := get (set h a (set_masks [mkMask 0xffffffff d] 1 (get h a))) x in
    p_b n = p_b (get h x) /\ p_left n = p_left (get h x) /\ p_right n = p_right (get h x) /\
    p_key n = p_key (get h x)).
  { intros x n. unfold n. rewrite get_set by assumption. destruct (Nat.eqb_spec x a) as [->|]; auto. }
  split; auto.
  - apply (rep_links h); [apply set_length | | assumption]. intros x. destruct (E x) as (? & ? & ? & _). auto.
  - apply (wf_ext (keys h) (bits h)); [intros x _ | intros x _ | assumption]; apply E.
  - intros x Hx Hx0. destruct (L x Hx Hx0) as (? & ? & ?). rewrite get_set by assumption.
    destruct (Nat.eqb_spec x a) as [->|]; auto. cbn [set_masks p_key p_m p_mlen]. eauto.
Qed.

Lemma trie_replace s TL TR key n d : trie 1 s TL TR -> is_u32 key -> stored s TL TR key ->
  (n < length s)%nat -> p_key (get s n) = key -> p_m (get s n) = [mkMask 0xffffffff d] ->
  exists t s', pat_insert s (Some n) (Some O) = Some (Some t, s') /\ t <> O /\
    In t (leaves (part TL TR key)) /\ trie 1 s' TL TR /\
    forall k, stored s' TL TR k <-> stored s TL TR k.
Proof.
  intros HT Hk Hst Hn Hkn Hmn. pose proof (trie_side 1 s TL TR key HT) as HS.
  apply (stored_part 1) in Hst; [| assumption].
  destruct (side_walk_found 1 _ _ _ _ key HS Hst) as [Ht0 Htk].
  set (t := walk (bits s) key (part TL TR key)) in *.
  assert (Htl : In t (leaves (part TL TR key))) by apply walk_leaf.
  destruct (side_leaf _ _ _ _ _ HS t Htl Ht0) as (_ & _ & [dt Em] & El).
  assert (Ht : (t < length s)%nat) by exact (proj1 (rep_range _ _ _ _ (side_rep _ _ _ _ _ HS)) t Htl).
  exists t, (set s t (set_masks [mkMask 0xffffffff d] 1 (get s t))). split.
  - cbn [pat_insert]. rewrite Hmn. cbn [pm_mask pm_data].
    rewrite (set_key_full s n key), Hkn by assumption.
    rewrite (trie_find_leaf 1 s TL TR key HT Hk).
    cbn [bind]. fold t. rewrite Htk, Z.eqb_refl, Em, El. reflexivity.
  - split; [assumption |]. split; [assumption |]. split.
    + destruct HT as [Hl Hh HL HR Hd].
      split; [rewrite set_length; assumption | | | | assumption]; rewrite ?get_set by assumption;
        destruct (Nat.eqb_spec 0 t); try congruence; auto using side_new_data.
    + assert (E : forall a, p_key (get (set s t (set_masks [mkMask 0xffffffff d] 1 (get s t))) a) = p_key (get s a))
        by (intros a; rewrite get_set by assumption; destruct (Nat.eqb_spec a t) as [->|]; auto).
      intros k. unfold stored, holds. split; (intros [(a & Ha & H0 & Hka)|(a & Ha & H0 & Hka)]; [left | right];
        exists a; rewrite E in *; auto).
Qed.

(** ** The trie as a set of addresses *)

(** What a client may ask for.  A removal comes with what the uninitialised pointer
    of [pat_remove] happens to hold. *)
Inductive op := Insert (a : Z) | Remove (a : Z) (garbage : option nat) | Search (a : Z).

(** A client's node: the address with the full mask, and [p_mlen] set to 1, the
    number of masks (which the repository's own client leaves at 0). *)
Definition client_node (a : Z) : ptree := fresh_node 1 a 1.

(** One operation, and its answer: whether the insertion replaced an entry, the
    removal removed one, or the search found the address. *)
Definition run_op (h : heap) (o : op) : option (bool * heap) :=
  match o with
  | Insert a =>
      let* (r, s) := pat_insert (h ++ [client_node a]) (Some (length h)) (Some O) in
      match r with
      | Some t => Some (negb (t =? length h)%nat, s)
      | None => None
      end
  | Remove a garbage =>
      let* (r, s) := pat_remove garbage (h ++ [client_node a]) (length h) O in
      Some (r =? 1, s)
  | Search a =>
      let* r := pat_search h a (Some O) in
      match r with
      | Some f => Some (p_key (get h f) =? a, h)
      | None => None
      end
  end.

Fixpoint run_ops (h : heap) (os : list op) : option (list bool) :=
  match os with
  | [] => Some []
  | o :: rest =>
      let* (b, h) := run_op h o in
      let* bs := run_ops h rest in
      Some (b :: bs)
  end.

(** The same on a list of addresses; a removal that meets a null pointer removes
    nothing. *)
Definition set_op (ks : list Z) (o : op) : bool * list Z :=
  match o with
  | Insert a => (existsb (Z.eqb a) ks, a :: ks)
  | Remove a None => (false, ks)
  | Remove a (Some _) => (existsb (Z.eqb a) ks, filter (fun k => negb (k =? a)) ks)
  | Search a => (existsb (Z.eqb a) ks, ks)
  end.

Fixpoint set_ops (ks : list Z) (os : list op) : list bool :=
  match os with
  | [] => []
  | o :: rest => let (b, ks) := set_op ks o in b :: set_ops ks rest
  end.

Definition op_addr (o : op) : Z := match o with Insert a | Remove a _ | Search a => a end.

Definition valid_addr (a : Z) : Prop := is_u32 a /\ a <> 0 /\ a <> 0x80000000.

Lemma run_op_insert h ks a : represents 1 h ks -> valid_addr a ->
  exists h', run_op h (Insert a) = Some (existsb (Z.eqb a) ks, h') /\ represents 1 h' (a :: ks).
Proof.
  intros Hr (Hu & H0 & H8). cbn [run_op]. destruct (existsb (Z.eqb a) ks) eqn:E.
  - apply existsb_In in E. destruct Hr as (TL & TR & HT & Hks).
    pose proof (trie_append 1 h (client_node a) TL TR HT) as HT'.
    assert (Hst : forall k, stored (h ++ [client_node a]) TL TR k <-> In k ks /\ k <> 0)
      by (intros k; rewrite <- Hks; now apply (stored_append 1)).
    destruct (trie_replace (h ++ [client_node a]) TL TR a (length h) 1 HT' Hu)
      as (t & s' & -> & Ht0 & Htl & HT2 & Hst2);
      [apply Hst; auto | rewrite length_app; simpl; lia | exact (f_equal p_key (get_fresh _ _)) | exact (f_equal p_m (get_fresh _ _)) |].
    cbn [bind]. exists s'. split.
    + assert (Hlt : (t < length h)%nat).
      { unfold part in Htl. destruct (kbit 0 a).
        - exact (proj1 (rep_range _ _ _ _ (side_rep _ _ _ _ _ (trie_right _ _ _ _ HT))) t Htl).
        - exact (proj1 (rep_range _ _ _ _ (side_rep _ _ _ _ _ (trie_left _ _ _ _ HT))) t Htl). }
      destruct (Nat.eqb_spec t (length h)); [lia | reflexivity].
    + exists TL, TR. split; [assumption |]. intros k. rewrite Hst2, Hst. cbn [In].
      split; [tauto |]. intros [[<-|Hk] Hk0]; auto.
  - assert (Hn : ~ In a ks) by (rewrite <- existsb_In, E; discriminate).
    pose proof (insert_represents 1 h ks a 1 Hr Hu H0 Hn) as Hi. cbv zeta in Hi.
    destruct (Z.eqb_spec a 0x80000000); [contradiction |]. destruct Hi as (s' & Hrun & Hr').
    unfold client_node. rewrite Hrun. cbn [bind]. rewrite Nat.eqb_refl. exists s'. split; [reflexivity | assumption].
Qed.

Lemma run_op_remove_null h ks a : represents 1 h ks ->
  exists h', run_op h (Remove a None) = Some (false, h') /\ represents 1 h' ks.
Proof.
  intros Hr. cbn [run_op]. exists (h ++ [client_node a]). split; [| now apply represents_append].
  unfold pat_remove. now destruct (p_m _).
Qed.

Lemma run_op_remove junk h ks a : represents 1 h ks -> valid_addr a ->
  exists h', run_op h (Remove a (Some junk)) = Some (existsb (Z.eqb a) ks, h') /\
    represents 1 h' (filter (fun k => negb (k =? a)) ks).
Proof.
  intros (TL & TR & HT & Hks) (Hu & H0 & H8). cbn [run_op].
  pose proof (trie_append 1 h (client_node a) TL TR HT) as HT'.
  assert (Hst : forall k, stored (h ++ [client_node a]) TL TR k <-> In k ks /\ k <> 0)
    by (intros k; rewrite <- Hks; now apply (stored_append 1)).
  set (s := h ++ [client_node a]) in *.
  assert (Hn : p_key (get s (length h)) = a /\ p_m (get s (length h)) = [mkMask 0xffffffff 1] /\
    pm_mask (mkMask 0xffffffff 1) = 0xffffffff) by (unfold s; now rewrite get_fresh).
  assert (Hfilter : forall k, In k (filter (fun k => negb (k =? a)) ks) <-> In k ks /\ k <> a)
    by (intros k; now rewrite filter_In, negb_true_iff, Z.eqb_neq).
  destruct (existsb (Z.eqb a) ks) eqn:E.
  - apply existsb_In in E.
    destruct (remove_present s TL TR a (length h) _ _ HT' Hu Hn (proj2 (Hst a) (conj E H0)) junk)
      as (s' & TL' & TR' & -> & HT2 & Hst2). cbn [bind]. exists s'. split; [reflexivity |]. exists TL', TR'. split; [assumption |].
    intros k. rewrite Hst2, Hst, Hfilter. tauto.
  - assert (Hni : ~ In a ks) by (rewrite <- existsb_In, E; discriminate).
    rewrite (remove_absent s TL TR a (length h) _ _ HT' Hu H0 Hn junk) by (rewrite Hst; tauto). cbn [bind].
    exists s. split; [reflexivity |]. exists TL, TR. split; [assumption |].
    intros k. rewrite Hst, Hfilter. split; [| tauto]. intros [Hk Hk0]. repeat split; auto. intros ->. contradiction.
Qed.

Lemma run_op_search h ks a : represents 1 h ks -> valid_addr a ->
  run_op h (Search a) = Some (existsb (Z.eqb a) ks, h).
Proof.
  intros Hr (Hu & H0 & _). cbn [run_op]. destruct (search_represents 1 h ks a Hr Hu) as (f & -> & Hf).
  cbn [bind]. do 2 f_equal. apply eq_iff_eq_true. rewrite Z.eqb_eq, existsb_In, Hf. tauto.
Qed.

(** C16. The trie behaves as a set of addresses, for a client whose nodes have the
    full mask 0xffffffff and [p_mlen] set to 1: any sequence of insertions, removals
    and searches of 32-bit addresses other than 0 and 0x80000000 ends, and each
    operation answers whether its address was in the set before it, an insertion
    adding it and a removal taking exactly it out; except that a removal whose
    uninitialised pointer happens to be null answers 0 and removes nothing. *)
Theorem patricia_set (os : list op) : Forall (fun o => valid_addr (op_addr o)) os ->
  run_ops initial_heap os = Some (set_ops [] os).
Proof.
  intros Hv.
  enough (forall h ks, represents 1 h ks -> run_ops h os = Some (set_ops ks os)) as H
    by (apply H, represents_initial).
  induction Hv as [|o os Ho Hv IH]; intros h ks Hr; [reflexivity |]. cbn [run_ops set_ops].
  assert (Hstep : exists h', run_op h o = Some (fst (set_op ks o), h') /\ represents 1 h' (snd (set_op ks o))).
  { destruct o as [a|a [junk|]|a]; cbn [set_op fst snd op_addr] in *.
    - now apply run_op_insert.
    - now apply run_op_remove.
    - now apply run_op_remove_null.
    - exists h. split; [now apply run_op_search | assumption]. }
  destruct Hstep as (h' & -> & Hr'). cbn [bind]. rewrite (IH _ _ Hr'). now destruct (set_op ks o).
Qed.

Lemma patricia_set_witness :
  let os := [Insert 5; Insert 0xc0a80101; Search 5; Insert 7; Remove 7 None; Remove 5 (Some 9%nat); Search 5; Search 7; Remove 6 (Some 1%nat)] in
  Forall (fun o => valid_addr (op_addr o)) os /\
  run_ops initial_heap os = Some [false; false; true; false; false; true; false; true; false].
Proof.
  cbv zeta. assert (H : Forall (fun o => valid_addr (op_addr o))
    [Insert 5; Insert 0xc0a80101; Search 5; Insert 7; Remove 7 None; Remove 5 (Some 9%nat); Search 5; Search 7; Remove 6 (Some 1%nat)])
    by (repeat constructor; vm_compute; congruence).
  split; [exact H | exact (patricia_set _ H)].
Defined.
