(* ===== verification/Aes.v ===== *)
(** * Aes: the Rijndael cipher

    Models [security/rijndael/aes.c] as it is configured there and in [aes.h]:
    16-byte blocks, fixed tables, four tables for the rounds, for the last round
    and for the inverse column mix, unrolled rounds, little-endian words.

    [word] is a 32-bit word, as the comment at its declaration demands.  A
    pointer into a key schedule is an index, and the arrays [b0] and [b1] of the
    cipher are lists of four words.

    Also modelled is the generator of the tables, [gen_tabs], which another
    configuration compiles in place of [aestab.h]. *)

From Stdlib Require Import ZArith Lia List Bool.
From S2P Require Import Prelude AesTables.
Import ListNotations.

(** ** Words and bytes *)

(** [bval(x,n)], [bytes2word] and [upr] of [aes.h]. *)
Definition bval (x n : Z) : Z := u8 (x >> (8 * n)).
Definition bytes2word (b0 b1 b2 b3 : Z) : Z := ((u32 (b3 << 24) .| u32 (b2 << 16)) .| u32 (b1 << 8)) .| b0.
Definition upr (x n : Z) : Z := u32 (x << (8 * n)) .| (x >> (32 - 8 * n)).

(** [word_in] and [word_out]: a word of 32 bits, as [aes.h] demands, at an offset of
    a byte array.  (Where [unsigned long] has 64 bits these would read and write
    eight bytes.) *)
Definition word_in (x : list Z) (i : Z) : Z := bytes2word x.[i] x.[i + 1] x.[i + 2] x.[i + 3].
Definition word_out (y : list Z) (i v : Z) : list Z :=
  aset (aset (aset (aset y i (bval v 0)) (i + 1) (bval v 1)) (i + 2) (bval v 2)) (i + 3) (bval v 3).

(** [tab[r][b]] *)
Definition tget (tab : list (list Z)) (r b : Z) : Z := (nth (Z.to_nat r) tab []).[b].

(** [four_tables(x,tab,vf,rf,c)] *)
Definition four_tables {X} (x : X) (tab : list (list Z)) (vf : X -> Z -> Z -> Z) (rf : Z -> Z -> Z) (c : Z) : Z :=
  ((tget tab 0 (bval (vf x 0 c) (rf 0 c)) .^ tget tab 1 (bval (vf x 1 c) (rf 1 c))) .^
   tget tab 2 (bval (vf x 2 c) (rf 2 c))) .^ tget tab 3 (bval (vf x 3 c) (rf 3 c)).

Definition vf1 (x r c : Z) : Z := x.
Definition rf1 (r c : Z) : Z := r.
Definition rf2 (r c : Z) : Z := (r - c) .& 3.

Definition ls_box (x c : Z) : Z := four_tables x fl_tab vf1 rf2 c.
Definition inv_mcol (x : Z) : Z := four_tables x im_tab vf1 rf1 0.

(** ** The key schedule *)

Definition BLOCK_SIZE : Z := 16.
Definition KS_LENGTH : Z := 4 * BLOCK_SIZE.
(** [Ncol] *)
Definition nc : Z := BLOCK_SIZE / 4.
Definition Nr (Nk Nc : Z) : Z := (if Nk >? Nc then Nk else Nc) + 6.

Definition aes_bad : Z := 0.
Definition aes_good : Z := 1.
(** [enum aes_key] *)
Definition enc : Z := 1.
Definition dec : Z := 2.
Definition both : Z := 3.

(** The context [aes]. *)
Record aes := mkAes { Nkey : Z; Nrnd : Z; e_key : list Z; d_key : list Z; mode : Z }.

(** One pass of the loop of each key length; [k] is [e_key]. *)
Definition expand_4 (k : list Z) (kf rci : Z) : list Z :=
  let k := aset k (kf + 4) (k.[kf] .^ ls_box k.[kf + 3] 3 .^ rcon_tab.[rci]) in
  let k := aset k (kf + 5) (k.[kf + 1] .^ k.[kf + 4]) in
  let k := aset k (kf + 6) (k.[kf + 2] .^ k.[kf + 5]) in
  aset k (kf + 7) (k.[kf + 3] .^ k.[kf + 6]).

Definition expand_6 (k : list Z) (kf rci : Z) : list Z :=
  let k := aset k (kf + 6) (k.[kf] .^ ls_box k.[kf + 5] 3 .^ rcon_tab.[rci]) in
  let k := aset k (kf + 7) (k.[kf + 1] .^ k.[kf + 6]) in
  let k := aset k (kf + 8) (k.[kf + 2] .^ k.[kf + 7]) in
  let k := aset k (kf + 9) (k.[kf + 3] .^ k.[kf + 8]) in
  let k := aset k (kf + 10) (k.[kf + 4] .^ k.[kf + 9]) in
  aset k (kf + 11) (k.[kf + 5] .^ k.[kf + 10]).

Definition expand_8 (k : list Z) (kf rci : Z) : list Z :=
  let k := aset k (kf + 8) (k.[kf] .^ ls_box k.[kf + 7] 3 .^ rcon_tab.[rci]) in
  let k := aset k (kf + 9) (k.[kf + 1] .^ k.[kf + 8]) in
  let k := aset k (kf + 10) (k.[kf + 2] .^ k.[kf + 9]) in
  let k := aset k (kf + 11) (k.[kf + 3] .^ k.[kf + 10]) in
  let k := aset k (kf + 12) (k.[kf + 4] .^ ls_box k.[kf + 11] 0) in
  let k := aset k (kf + 13) (k.[kf + 5] .^ k.[kf + 12]) in
  let k := aset k (kf + 14) (k.[kf + 6] .^ k.[kf + 13]) in
  aset k (kf + 15) (k.[kf + 7] .^ k.[kf + 14]).

(** [do { ...; kf += nk; } while(kf < kt)] *)
Fixpoint key_loop (fuel : nat) (pass : list Z -> Z -> Z -> list Z) (nk : Z) (k : list Z) (kf kt rci : Z)
  : option (list Z) :=
  match fuel with
  | O => None
  | S f =>
      let k := pass k kf rci in
      let kf := kf + nk in
      if kf <? kt then key_loop f pass nk k kf kt (rci + 1) else Some k
  end.

(** Each pass adds at least four of the at most 64 words. *)
Definition key_fuel : nat := 16.

(** [cpy(kt,kf)] and [mix(kt,kf)]; both leave the pointers past the block. *)
Definition cpy (d : list Z) (kt : Z) (s : list Z) (kf : Z) : list Z :=
  aset (aset (aset (aset d kt s.[kf]) (kt + 1) s.[kf + 1]) (kt + 2) s.[kf + 2]) (kt + 3) s.[kf + 3].
Definition mix (d : list Z) (kt : Z) (s : list Z) (kf : Z) : list Z :=
  aset (aset (aset (aset d kt (inv_mcol s.[kf])) (kt + 1) (inv_mcol s.[kf + 1]))
     (kt + 2) (inv_mcol s.[kf + 2])) (kt + 3) (inv_mcol s.[kf + 3]).

(** The decryption schedule: the blocks of [e] from the last to the first. *)
Definition dec_schedule (d e : list Z) (nrnd : Z) : list Z :=
  let kt := nc * nrnd in
  let d := cpy d kt e 0 in
  let '(d, kt, kf) :=
    for_range 1 nrnd (fun _ '(d, kt, kf) => (mix d kt e kf, kt + nc - 2 * nc, kf + nc))
      (d, kt + nc - 2 * nc, nc) in
  cpy d kt e kf.

(** [set_key]: the result and the context. *)
Definition set_key (in_key : list Z) (n_bytes f : Z) (cx : aes) : option (Z * aes) :=
  if negb (n_bytes .& 7 =? 0) || (n_bytes <? 16) || (n_bytes >? 32) ||
     ((f .& 1 =? 0) && (f .& 2 =? 0))
  then
    Some (if negb (n_bytes =? 0)
          then (aes_bad, mkAes (Nkey cx) (Nrnd cx) (e_key cx) (d_key cx) (mode cx .& Z.lnot 0x03))
          else (i16 (Nkey cx << 2), cx))
  else
    let mode := (mode cx .& Z.lnot 0x03) .| (u8 f .& 0x03) in
    let nkey := n_bytes >> 2 in
    let nrnd := Nr nkey nc in
    let e := aset (e_key cx) 0 (word_in in_key 0) in
    let e := aset e 1 (word_in in_key 4) in
    let e := aset e 2 (word_in in_key 8) in
    let e := aset e 3 (word_in in_key 12) in
    let kt := nc * (nrnd + 1) - nkey in
    let* e :=
      if nkey =? 4 then key_loop key_fuel expand_4 4 e 0 kt 0
      else if nkey =? 6 then
        let e := aset e 4 (word_in in_key 16) in
        let e := aset e 5 (word_in in_key 20) in
        key_loop key_fuel expand_6 6 e 0 kt 0
      else if nkey =? 8 then
        let e := aset e 4 (word_in in_key 16) in
        let e := aset e 5 (word_in in_key 20) in
        let e := aset e 6 (word_in in_key 24) in
        let e := aset e 7 (word_in in_key 28) in
        key_loop key_fuel expand_8 8 e 0 kt 0
      else Some e in
    let d := if negb (mode .& 3 =? enc) then dec_schedule (d_key cx) e nrnd else d_key cx in
    Some (aes_good, mkAes nkey nrnd e d mode).

(** ** The cipher *)

(** The column that row [r] of output column [c] is taken from. *)
Definition fwd_var (x : list Z) (r c : Z) : Z :=
  if r =? 0 then
    (if c =? 0 then x.[0] else if c =? 1 then x.[1] else if c =? 2 then x.[2] else if c =? 3 then x.[3]
     else if c =? 4 then x.[4] else if c =? 5 then x.[5] else if c =? 6 then x.[6] else x.[7])
  else if r =? 1 then
    (if c =? 0 then x.[1] else if c =? 1 then x.[2] else if c =? 2 then x.[3]
     else if c =? 3 then (if nc =? 4 then x.[0] else x.[4])
     else if c =? 4 then x.[5] else if c =? 5 then (if nc =? 8 then x.[6] else x.[0])
     else if c =? 6 then x.[7] else x.[0])
  else if r =? 2 then
    (if c =? 0 then (if nc =? 8 then x.[3] else x.[2]) else if c =? 1 then (if nc =? 8 then x.[4] else x.[3])
     else if c =? 2 then (if nc =? 4 then x.[0] else if nc =? 8 then x.[5] else x.[4])
     else if c =? 3 then (if nc =? 4 then x.[1] else if nc =? 8 then x.[6] else x.[5])
     else if c =? 4 then (if nc =? 8 then x.[7] else x.[0]) else if c =? 5 then (if nc =? 8 then x.[0] else x.[1])
     else if c =? 6 then x.[1] else x.[2])
  else
    (if c =? 0 then (if nc =? 8 then x.[4] else x.[3])
     else if c =? 1 then (if nc =? 4 then x.[0] else if nc =? 8 then x.[5] else x.[4])
     else if c =? 2 then (if nc =? 4 then x.[1] else if nc =? 8 then x.[6] else x.[5])
     else if c =? 3 then (if nc =? 4 then x.[2] else if nc =? 8 then x.[7] else x.[0])
     else if c =? 4 then (if nc =? 8 then x.[0] else x.[1]) else if c =? 5 then (if nc =? 8 then x.[1] else x.[2])
     else if c =? 6 then x.[2] else x.[3]).

Definition inv_var (x : list Z) (r c : Z) : Z :=
  if r =? 0 then
    (if c =? 0 then x.[0] else if c =? 1 then x.[1] else if c =? 2 then x.[2] else if c =? 3 then x.[3]
     else if c =? 4 then x.[4] else if c =? 5 then x.[5] else if c =? 6 then x.[6] else x.[7])
  else if r =? 1 then
    (if c =? 0 then (if nc =? 4 then x.[3] else if nc =? 8 then x.[7] else x.[5])
     else if c =? 1 then x.[0] else if c =? 2 then x.[1] else if c =? 3 then x.[2]
     else if c =? 4 then x.[3] else if c =? 5 then x.[4] else if c =? 6 then x.[5] else x.[6])
  else if r =? 2 then
    (if c =? 0 then (if nc =? 4 then x.[2] else if nc =? 8 then x.[5] else x.[4])
     else if c =? 1 then (if nc =? 4 then x.[3] else if nc =? 8 then x.[6] else x.[5])
     else if c =? 2 then (if nc =? 8 then x.[7] else x.[0]) else if c =? 3 then (if nc =? 8 then x.[0] else x.[1])
     else if c =? 4 then (if nc =? 8 then x.[1] else x.[2]) else if c =? 5 then (if nc =? 8 then x.[2] else x.[3])
     else if c =? 6 then x.[3] else x.[4])
  else
    (if c =? 0 then (if nc =? 4 then x.[1] else if nc =? 8 then x.[4] else x.[3])
     else if c =? 1 then (if nc =? 4 then x.[2] else if nc =? 8 then x.[5] else x.[4])
     else if c =? 2 then (if nc =? 4 then x.[3] else if nc =? 8 then x.[6] else x.[5])
     else if c =? 3 then (if nc =? 8 then x.[7] else x.[0])
     else if c =? 4 then (if nc =? 8 then x.[0] else x.[1]) else if c =? 5 then (if nc =? 8 then x.[1] else x.[2])
     else if c =? 6 then x.[2] else x.[3]).

(** The word [y[c]] of a round on [x] with the round key at [kp] of [k]. *)
Definition fwd_rnd (x k : list Z) (kp c : Z) : Z := k.[kp + c] .^ four_tables x ft_tab fwd_var rf1 c.
Definition inv_rnd (x k : list Z) (kp c : Z) : Z := k.[kp + c] .^ four_tables x it_tab inv_var rf1 c.
Definition fwd_lrnd (x k : list Z) (kp c : Z) : Z := k.[kp + c] .^ four_tables x fl_tab fwd_var rf1 c.
Definition inv_lrnd (x k : list Z) (kp c : Z) : Z := k.[kp + c] .^ four_tables x il_tab inv_var rf1 c.

(** [round(rm,y,x,k)]: the four words of [y]. *)
Definition round (rm : list Z -> list Z -> Z -> Z -> Z) (x k : list Z) (kp : Z) : list Z :=
  [rm x k kp 0; rm x k kp 1; rm x k kp 2; rm x k kp 3].

(** [state_in] and [state_out]. *)
Definition state_in (x k : list Z) (kp : Z) : list Z :=
  [word_in x 0 .^ k.[kp]; word_in x 4 .^ k.[kp + 1]; word_in x 8 .^ k.[kp + 2]; word_in x 12 .^ k.[kp + 3]].
Definition state_out (y x : list Z) : list Z :=
  word_out (word_out (word_out (word_out y 0 x.[0]) 4 x.[1]) 8 x.[2]) 12 x.[3].

(** Two rounds at the start of a case of the switch. *)
Definition two (rm : list Z -> list Z -> Z -> Z -> Z) (b0 k : list Z) (kp : Z) : list Z :=
  let b1 := round rm b0 k kp in
  round rm b1 k (kp + nc).

(** [switch(cx->Nrnd)]: each case falls through to the next. *)
Definition rounds (rm lrm : list Z -> list Z -> Z -> Z -> Z) (nrnd : Z) (b0 k : list Z) (kp : Z) : list Z :=
  let '(b0, kp) := if nrnd =? 14 then (two rm b0 k kp, kp + 2 * nc) else (b0, kp) in
  let '(b0, kp) := if (nrnd =? 14) || (nrnd =? 12) then (two rm b0 k kp, kp + 2 * nc) else (b0, kp) in
  if (nrnd =? 14) || (nrnd =? 12) || (nrnd =? 10) then
    let b1 := round rm b0 k kp in
    let b0 := round rm b1 k (kp + nc) in
    let b1 := round rm b0 k (kp + 2 * nc) in
    let b0 := round rm b1 k (kp + 3 * nc) in
    let b1 := round rm b0 k (kp + 4 * nc) in
    let b0 := round rm b1 k (kp + 5 * nc) in
    let b1 := round rm b0 k (kp + 6 * nc) in
    let b0 := round rm b1 k (kp + 7 * nc) in
    let b1 := round rm b0 k (kp + 8 * nc) in
    round lrm b1 k (kp + 9 * nc)
  else b0.

(** [encrypt] and [decrypt]: the result and the output block. *)
Definition encrypt (in_blk out_blk : list Z) (cx : aes) : Z * list Z :=
  if mode cx .& 0x01 =? 0 then (aes_bad, out_blk)
  else
    let b0 := state_in in_blk (e_key cx) 0 in
    let b0 := rounds fwd_rnd fwd_lrnd (Nrnd cx) b0 (e_key cx) nc in
    (aes_good, state_out out_blk b0).

Definition decrypt (in_blk out_blk : list Z) (cx : aes) : Z * list Z :=
  if mode cx .& 0x02 =? 0 then (aes_bad, out_blk)
  else
    let b0 := state_in in_blk (d_key cx) 0 in
    let b0 := rounds inv_rnd inv_lrnd (Nrnd cx) b0 (d_key cx) nc in
    (aes_good, state_out out_blk b0).

(** ** The table generator *)

Definition ff_poly : Z := 0x011b.
Definition ff_hi : Z := 0x80.

(** Without [FF_TABLES]: the extended Euclidean algorithm on bytes. *)
Definition hibit (x : Z) : Z :=
  let r := u8 ((x >> 1) .| (x >> 2)) in
  let r := r .| (r >> 2) in
  let r := r .| (r >> 4) in
  u8 ((r + 1) >> 1).

(** [while(n2 >= n1) { n2 /= n1; p2 ^= p1 * n2; v2 ^= v1 * n2; n2 = hibit(p2); }] *)
Fixpoint FFinv_reduce (fuel : nat) (p1 n1 v1 p2 n2 v2 : Z) : option (Z * Z * Z) :=
  match fuel with
  | O => None
  | S f =>
      if n2 >=? n1 then
        let n2 := n2 / n1 in
        let p2 := u8 (p2 .^ (p1 * n2)) in
        let v2 := u8 (v2 .^ (v1 * n2)) in
        FFinv_reduce f p1 n1 v1 p2 (hibit p2) v2
      else Some (p2, n2, v2)
  end.

Fixpoint FFinv_loop (fuel : nat) (p1 n1 v1 p2 n2 v2 : Z) : option Z :=
  match fuel with
  | O => None
  | S f =>
      if n1 =? 0 then Some v1
      else
        let* (p2, n2, v2) := FFinv_reduce 9 p1 n1 v1 p2 n2 v2 in
        if n2 =? 0 then Some v2
        else
          let* (p1, n1, v1) := FFinv_reduce 9 p2 n2 v2 p1 n1 v1 in
          FFinv_loop f p1 n1 v1 p2 n2 v2
  end.

Definition FFinv (x : Z) : option Z :=
  if x <? 2 then Some x else FFinv_loop 9 x (hibit x) 1 0x1b 0x80 0.

(** With [FF_TABLES]: the powers and logarithms of the root 0x03. *)
Record ff_tables := mkFF { ff_pow : list Z; ff_log : list Z }.

Fixpoint ff_loop (fuel : nat) (i w : Z) (t : ff_tables) : option ff_tables :=
  match fuel with
  | O => None
  | S f =>
      let p := aset (aset (ff_pow t) i (u8 w)) (i + 255) (u8 w) in
      let t := mkFF p (aset (ff_log t) w (u8 i)) in
      let w := w .^ ((w << 1) .^ (if negb (w .& ff_hi =? 0) then ff_poly else 0)) in
      if negb (w =? 1) then ff_loop f (i + 1) w t else Some t
  end.

(** [FFinv] and the multiplications by way of the tables. *)
Definition FFinv_tab (t : ff_tables) (x : Z) : Z :=
  if negb (x =? 0) then (ff_pow t).[255 - (ff_log t).[x]] else 0.
Definition FFmul_tab (t : ff_tables) (l x : Z) : Z :=
  if negb (x =? 0) then (ff_pow t).[(ff_log t).[x] + l] else 0.
Definition FFmul02 t x := FFmul_tab t 0x19 x.
Definition FFmul03 t x := FFmul_tab t 0x01 x.
Definition FFmul09 t x := FFmul_tab t 0xc7 x.
Definition FFmul0b t x := FFmul_tab t 0x68 x.
Definition FFmul0d t x := FFmul_tab t 0xee x.
Definition FFmul0e t x := FFmul_tab t 0xdf x.

Definition fwd_affine (x : Z) : Z :=
  let w := x in
  let w := w .^ ((((w << 1) .^ (w << 2)) .^ (w << 3)) .^ (w << 4)) in
  0x63 .^ u8 (w .^ (w >> 8)).
Definition inv_affine (x : Z) : Z :=
  let w := x in
  let w := ((w << 1) .^ (w << 3)) .^ (w << 6) in
  0x05 .^ u8 (w .^ (w >> 8)).

(** The tables that [gen_tabs] fills, each of the four-fold ones from its word
    [w] by rotation. *)
Record aes_tables := mkTabs {
  t_s_box : list Z; t_inv_s_box : list Z; t_rcon : list Z;
  t_ft : list (list Z); t_it : list (list Z);
  t_fl : list (list Z); t_il : list (list Z); t_im : list (list Z)
}.

Definition set4 (tabs : list (list Z)) (i w : Z) : list (list Z) :=
  match tabs with
  | [a; b; c; d] => [aset a i w; aset b i (upr w 1); aset c i (upr w 2); aset d i (upr w 3)]
  | _ => tabs
  end.

Definition gen_entry (ff : ff_tables) (i : Z) (t : aes_tables) : aes_tables :=
  let b := fwd_affine (FFinv_tab ff (u8 i)) in
  let s := aset (t_s_box t) i b in
  let fl := set4 (t_fl t) i (bytes2word b 0 0 0) in
  let ft := set4 (t_ft t) i (bytes2word (FFmul02 ff b) b b (FFmul03 ff b)) in
  let b := FFinv_tab ff (inv_affine (u8 i)) in
  let inv := aset (t_inv_s_box t) i b in
  let il := set4 (t_il t) i (bytes2word b 0 0 0) in
  let w := bytes2word (FFmul0e ff b) (FFmul09 ff b) (FFmul0d ff b) (FFmul0b ff b) in
  mkTabs s inv (t_rcon t) ft (set4 (t_it t) i w) fl il (set4 (t_im t) b w).

Definition RC_LENGTH : Z := 5 * BLOCK_SIZE / 4 - (if BLOCK_SIZE =? 16 then 10 else 11).

Definition gen_rcon (rcon : list Z) : list Z :=
  fst (for_range 0 RC_LENGTH
         (fun i '(rcon, w) =>
            (aset rcon i (bytes2word w 0 0 0), (w << 1) .^ (if negb (w .& ff_hi =? 0) then ff_poly else 0)))
         (rcon, 1)).

(** The static tables before the first use. *)
Definition empty_tabs : aes_tables :=
  let z := repeat 0 256 in
  mkTabs z z (repeat 0 (Z.to_nat RC_LENGTH)) (repeat z 4) (repeat z 4) (repeat z 4) (repeat z 4) (repeat z 4).

Definition gen_tabs (t : aes_tables) : option aes_tables :=
  let* ff := ff_loop 256 0 1 (mkFF (repeat 0 512) (repeat 0 256)) in
  Some (for_range 0 256 (gen_entry ff)
          (mkTabs (t_s_box t) (t_inv_s_box t) (gen_rcon (t_rcon t))
             (t_ft t) (t_it t) (t_fl t) (t_il t) (t_im t))).

(** The example of FIPS 197, appendix C.1. *)
Definition cx0 : aes := mkAes 0 0 (repeat 0 64) (repeat 0 64) 0.

Example fips197_c1 :
  option_map (fun r => encrypt
     [0x00; 0x11; 0x22; 0x33; 0x44; 0x55; 0x66; 0x77; 0x88; 0x99; 0xaa; 0xbb; 0xcc; 0xdd; 0xee; 0xff]
     (repeat 0 16) (snd r))
    (set_key [0; 1; 2; 3; 4; 5; 6; 7; 8; 9; 10; 11; 12; 13; 14; 15] 16 enc cx0) =
  Some (1, [0x69; 0xc4; 0xe0; 0xd8; 0x6a; 0x7b; 0x04; 0x30; 0xd8; 0xcd; 0xb7; 0x80; 0x70; 0xb4; 0xc5; 0x5a]).
Proof. vm_compute. reflexivity. Qed.

(** [gen_tabs] terminates and generates the tables that [aestab.h] lists:
    the S-boxes, the round constants a 16-byte block needs, the four-fold tables
    of the rounds, of the last rounds and of the inverse column mix. *)
Theorem gen_tabs_fixed_tables :
  gen_tabs empty_tabs =
  Some (mkTabs s_box inv_s_box (firstn 10 rcon_tab) ft_tab it_tab fl_tab il_tab im_tab).
Proof. vm_compute. reflexivity. Qed.

(** The two inversions of a field element agree: for every byte the Euclidean
    one ends and its result is that of the logarithm tables. *)
Lemma FFinv_tables_agree (x : Z) : 0 <= x < 256 ->
  match ff_loop 256 0 1 (mkFF (repeat 0 512) (repeat 0 256)) with
  | Some ff => FFinv x = Some (FFinv_tab ff x)
  | None => False
  end.
Proof.
  intros Hx. destruct (ff_loop _ _ _ _) as [ff|] eqn:E; [| vm_compute in E; discriminate].
  pose (p x := match FFinv x with Some y => y =? FFinv_tab ff x | None => false end).
  assert (H : p x = true).
  { apply (all_range_spec 0 256); [| lia]. unfold p. vm_compute in E. injection E as <-. vm_compute. reflexivity. }
  unfold p in H. destruct (FFinv x); [| discriminate]. apply Z.eqb_eq in H. congruence.
Qed.
