(* ===== verification/AesSpec.v ===== *)
(** * AesSpec: the cipher of FIPS 197

    The specification that [aes.c] implements with its tables: bytes as elements
    of GF(2^8), the state as 16 bytes column by column, the four round
    transformations with their inverses, the key expansion and the cipher, and
    the algebraic facts that the decryption rests on. *)

From Stdlib Require Import ZArith Lia List Bool Btauto.
From S2P Require Import Prelude.
Import ListNotations.

(** ** Bytes as field elements *)

Definition xtime (b : Z) : Z := if b <? 128 then 2 * b else (2 * b) .^ 0x11b.

(** Multiplication: the sum of the multiples of [b] by the powers of x in [a]. *)
Fixpoint gmul_bits (n : nat) (i a b : Z) : Z :=
  match n with
  | O => 0
  | S m => (if Z.testbit a i then b else 0) .^ gmul_bits m (i + 1) a (xtime b)
  end.

Definition gmul (a b : Z) : Z := gmul_bits 8 0 a b.

Fixpoint gpow (a : Z) (n : nat) : Z :=
  match n with
  | O => 1
  | S m => gmul a (gpow a m)
  end.

(** The inverse of a non-zero element is its power 254; 0 is its own. *)
Definition ginv (a : Z) : Z := gpow a 254.

(** The affine map: bit [i] is the sum of the bits [i], [i+4], ..., [i+7] modulo 8
    and bit [i] of 0x63. *)
Definition affine_bit (b i : Z) : bool :=
  xorb (xorb (xorb (xorb (xorb (Z.testbit b i) (Z.testbit b ((i + 4) mod 8)))
    (Z.testbit b ((i + 5) mod 8))) (Z.testbit b ((i + 6) mod 8))) (Z.testbit b ((i + 7) mod 8)))
    (Z.testbit 0x63 i).

Fixpoint byte_of_bits (n : nat) (i : Z) (f : Z -> bool) : Z :=
  match n with
  | O => 0
  | S m => (if f i then 2 ^ i else 0) + byte_of_bits m (i + 1) f
  end.

Definition sub_byte (b : Z) : Z := byte_of_bits 8 0 (affine_bit (ginv b)).

(** The inverse of the affine map, then that in the field. *)
Definition inv_affine_bit (b i : Z) : bool :=
  xorb (xorb (xorb (Z.testbit b ((i + 2) mod 8)) (Z.testbit b ((i + 5) mod 8)))
    (Z.testbit b ((i + 7) mod 8))) (Z.testbit 0x05 i).

Definition inv_sub_byte (b : Z) : Z := ginv (byte_of_bits 8 0 (inv_affine_bit b)).

(** ** The state *)

(** The 16 bytes given by [f] on rows and columns, column by column. *)
Definition build (f : Z -> Z -> Z) : list Z :=
  flat_map (fun c => map (fun r => f r c) [0; 1; 2; 3]) [0; 1; 2; 3].

(** Row [r] of column [c]. *)
Definition at_ (st : list Z) (r c : Z) : Z := st.[r + 4 * c].

Definition SubBytes (st : list Z) : list Z := build (fun r c => sub_byte (at_ st r c)).
Definition ShiftRows (st : list Z) : list Z := build (fun r c => at_ st r ((c + r) mod 4)).
Definition MixColumns (st : list Z) : list Z :=
  build (fun r c => gmul 2 (at_ st r c) .^ gmul 3 (at_ st ((r + 1) mod 4) c) .^
                    at_ st ((r + 2) mod 4) c .^ at_ st ((r + 3) mod 4) c).
Definition AddRoundKey (st k : list Z) : list Z := build (fun r c => at_ st r c .^ at_ k r c).

Definition InvSubBytes (st : list Z) : list Z := build (fun r c => inv_sub_byte (at_ st r c)).
Definition InvShiftRows (st : list Z) : list Z := build (fun r c => at_ st r ((c - r) mod 4)).
Definition InvMixColumns (st : list Z) : list Z :=
  build (fun r c => gmul 14 (at_ st r c) .^ gmul 11 (at_ st ((r + 1) mod 4) c) .^
                    gmul 13 (at_ st ((r + 2) mod 4) c) .^ gmul 9 (at_ st ((r + 3) mod 4) c)).

(** ** The key expansion

    A word is a list of four bytes; [w] are the words so far. *)

Definition RotWord (w : list Z) : list Z := [w.[1]; w.[2]; w.[3]; w.[0]].
Definition SubWord (w : list Z) : list Z := map sub_byte w.
Definition xor_word (a b : list Z) : list Z := [a.[0] .^ b.[0]; a.[1] .^ b.[1]; a.[2] .^ b.[2]; a.[3] .^ b.[3]].
Definition Rcon (i : nat) : list Z := [gpow 2 (i - 1); 0; 0; 0].

Definition next_word (nk : nat) (w : list (list Z)) : list Z :=
  let i := length w in
  let temp := nth (i - 1) w [] in
  let temp :=
    if (i mod nk =? 0)%nat then xor_word (SubWord (RotWord temp)) (Rcon (i / nk))
    else if (6 <? nk)%nat && (i mod nk =? 4)%nat then SubWord temp
    else temp in
  xor_word (nth (i - nk) w []) temp.

Fixpoint extend (n nk : nat) (w : list (list Z)) : list (list Z) :=
  match n with
  | O => w
  | S m => extend m nk (w ++ [next_word nk w])
  end.

(** The words of a key of [4 * nk] bytes. *)
Fixpoint words_of (n : nat) (key : list Z) : list (list Z) :=
  match n with
  | O => []
  | S m => [key.[0]; key.[1]; key.[2]; key.[3]] :: words_of m (skipn 4 key)
  end.

Definition KeyExpansion (key : list Z) (nk nr : nat) : list (list Z) :=
  extend (4 * (nr + 1) - nk) nk (words_of nk key).

(** The key of round [i]. *)
Definition round_key (w : list (list Z)) (i : Z) : list Z :=
  build (fun r c => (nth (Z.to_nat (4 * i + c)) w []).[r]).

(** ** The cipher *)

Fixpoint cipher_rounds (n : nat) (i : Z) (w : list (list Z)) (st : list Z) : list Z :=
  match n with
  | O => st
  | S m => cipher_rounds m (i + 1) w
             (AddRoundKey (MixColumns (ShiftRows (SubBytes st))) (round_key w i))
  end.

Definition Cipher (inp : list Z) (nr : nat) (w : list (list Z)) : list Z :=
  let st := AddRoundKey inp (round_key w 0) in
  let st := cipher_rounds (nr - 1) 1 w st in
  AddRoundKey (ShiftRows (SubBytes st)) (round_key w (Z.of_nat nr)).

Definition aes_cipher (key : list Z) (nk : nat) (inp : list Z) : list Z :=
  let nr := (nk + 6)%nat in
  Cipher inp nr (KeyExpansion key nk nr).

Example fips197_appendix_b :
  aes_cipher [0x2b; 0x7e; 0x15; 0x16; 0x28; 0xae; 0xd2; 0xa6; 0xab; 0xf7; 0x15; 0x88; 0x09; 0xcf; 0x4f; 0x3c] 4
    [0x32; 0x43; 0xf6; 0xa8; 0x88; 0x5a; 0x30; 0x8d; 0x31; 0x31; 0x98; 0xa2; 0xe0; 0x37; 0x07; 0x34] =
  [0x39; 0x25; 0x84; 0x1d; 0x02; 0xdc; 0x09; 0xfb; 0xdc; 0x11; 0x85; 0x97; 0x19; 0x6a; 0x0b; 0x32].
Proof. vm_compute. reflexivity. Qed.

(** ** Building states *)

Create HintDb aes.

(** Equality of sums up to the order of their terms, bit by bit. *)
Ltac xor_ring :=
  apply Z.bits_inj'; intros xor_ring_bit _; rewrite ?Z.lxor_spec;
  repeat match goal with |- context [Z.testbit ?x xor_ring_bit] => generalize (Z.testbit x xor_ring_bit); intro end;
  btauto.

Lemma range4 (P : Z -> Prop) : P 0 -> P 1 -> P 2 -> P 3 -> forall r, 0 <= r < 4 -> P r.
Proof.
  intros H0 H1 H2 H3 r Hr.
  assert (r = 0 \/ r = 1 \/ r = 2 \/ r = 3) as [->|[->|[->| ->]]] by lia; assumption.
Qed.

Lemma at_build f r c : 0 <= r < 4 -> 0 <= c < 4 -> at_ (build f) r c = f r c.
Proof.
  intros Hr Hc. revert r Hr. apply range4; revert c Hc; apply range4; reflexivity.
Qed.

Lemma build_ext f g : (forall r c, 0 <= r < 4 -> 0 <= c < 4 -> f r c = g r c) -> build f = build g.
Proof. intros H. unfold build. cbn [flat_map map app]. rewrite !H by lia. reflexivity. Qed.

Lemma build_at st : length st = 16%nat -> build (at_ st) = st.
Proof. intros H. do 16 (destruct st as [|? st]; [discriminate H |]). destruct st; [reflexivity | discriminate H]. Qed.

Lemma build_length f : length (build f) = 16%nat.
Proof. reflexivity. Qed.

Lemma Forall_build (P : Z -> Prop) f : (forall r c, 0 <= r < 4 -> 0 <= c < 4 -> P (f r c)) -> Forall P (build f).
Proof. intros H. unfold build. cbn [flat_map map app]. repeat constructor; apply H; lia. Qed.

Definition is_state (st : list Z) : Prop := length st = 16%nat /\ Forall is_u8 st.

Lemma is_state_build f : (forall r c, 0 <= r < 4 -> 0 <= c < 4 -> is_u8 (f r c)) -> is_state (build f).
Proof. intros H. split; [reflexivity | now apply Forall_build]. Qed.

Lemma at_byte st r c : is_state st -> is_u8 (at_ st r c).
Proof. intros [_ H]. unfold at_. apply Forall_aget; [unfold is_u8; lia | assumption]. Qed.

(** Two states are the same when their rows and columns are. *)
Lemma state_eq a b : length a = 16%nat -> length b = 16%nat ->
  (forall r c, 0 <= r < 4 -> 0 <= c < 4 -> at_ a r c = at_ b r c) -> a = b.
Proof.
  intros Ha Hb H. rewrite <- (build_at a), <- (build_at b) by assumption. now apply build_ext.
Qed.

(** ** The field *)

Lemma u8_xor a b : is_u8 a -> is_u8 b -> is_u8 (a .^ b).
Proof.
  unfold is_u8. intros Ha Hb. split; [apply Z.lxor_nonneg; lia |].
  destruct (Z.eqb_spec (a .^ b) 0) as [->|Hn]; [lia |].
  assert (0 < a .^ b) by (pose proof (proj2 (Z.lxor_nonneg a b)); lia).
  apply Z.log2_lt_pow2 with (b := 8); [lia |].
  pose proof (Z.log2_lxor a b ltac:(lia) ltac:(lia)).
  assert (forall x, 0 <= x < 256 -> Z.log2 x < 8).
  { intros x Hx. destruct (Z.eqb_spec x 0) as [->|]; [reflexivity |]. apply Z.log2_lt_pow2; lia. }
  specialize (H1 a Ha) as Ha'. specialize (H1 b Hb) as Hb'. lia.
Qed.

Lemma xtime_byte b : is_u8 b -> is_u8 (xtime b).
Proof.
  intros Hb. assert (H : (0 <=? xtime b) && (xtime b <? 256) = true).
  { revert b Hb. apply (all_range_spec 0 256). vm_compute. reflexivity. }
  unfold is_u8. lia.
Qed.

Lemma xtime_xor a b : is_u8 a -> is_u8 b -> xtime (a .^ b) = xtime a .^ xtime b.
Proof.
  intros Ha Hb. apply Z.eqb_eq. revert b Hb. apply (all_range_spec 0 256).
  revert a Ha. apply (all_range_spec 0 256). vm_compute. reflexivity.
Qed.

Lemma gmul_bits_byte n i a b : is_u8 b -> is_u8 (gmul_bits n i a b).
Proof.
  revert i b; induction n as [|n IH]; intros i b Hb; cbn [gmul_bits]; [unfold is_u8; lia |].
  apply u8_xor; [| apply IH, xtime_byte, Hb]. destruct (Z.testbit a i); [assumption | unfold is_u8; lia].
Qed.

Lemma gmul_byte a b : is_u8 b -> is_u8 (gmul a b).
Proof. apply gmul_bits_byte. Qed.

(** Exchanging the inner terms of a sum. *)
Lemma xor_swap a b c d : (a .^ b) .^ (c .^ d) = (a .^ c) .^ (b .^ d).
Proof.
  rewrite !Z.lxor_assoc. f_equal. rewrite <- !Z.lxor_assoc. f_equal. apply Z.lxor_comm.
Qed.

Lemma gmul_xor k a b : is_u8 a -> is_u8 b -> gmul k (a .^ b) = gmul k a .^ gmul k b.
Proof.
  unfold gmul. generalize 0 as i. generalize 8%nat as n. intros n; revert a b.
  induction n as [|n IH]; intros a b i Ha Hb; cbn [gmul_bits]; [reflexivity |].
  rewrite xtime_xor, IH by auto using xtime_byte. rewrite xor_swap. f_equal.
  destruct (Z.testbit k i); reflexivity.
Qed.

Lemma sub_byte_byte b : is_u8 b -> is_u8 (sub_byte b).
Proof.
  intros Hb. assert (H : (0 <=? sub_byte b) && (sub_byte b <? 256) = true).
  { revert b Hb. apply (all_range_spec 0 256). vm_compute. reflexivity. }
  unfold is_u8. lia.
Qed.

Lemma inv_sub_sub b : is_u8 b -> inv_sub_byte (sub_byte b) = b.
Proof. intros Hb. apply Z.eqb_eq. revert b Hb. apply (all_range_spec 0 256). vm_compute. reflexivity. Qed.

Lemma inv_sub_byte_byte b : is_u8 b -> is_u8 (inv_sub_byte b).
Proof.
  intros Hb. assert (H : (0 <=? inv_sub_byte b) && (inv_sub_byte b <? 256) = true).
  { revert b Hb. apply (all_range_spec 0 256). vm_compute. reflexivity. }
  unfold is_u8. lia.
Qed.

(** ** The inverse transformations *)

Lemma inv_sub_bytes st : is_state st -> InvSubBytes (SubBytes st) = st.
Proof.
  intros Hs. apply state_eq; [apply build_length | apply Hs |]. intros r c Hr Hc.
  unfold InvSubBytes, SubBytes. rewrite !at_build by assumption. now apply inv_sub_sub, at_byte.
Qed.

Lemma inv_shift_rows st : is_state st -> InvShiftRows (ShiftRows st) = st.
Proof.
  intros Hs. apply state_eq; [apply build_length | apply Hs |]. intros r c Hr Hc.
  unfold InvShiftRows, ShiftRows. rewrite !at_build by (try assumption; apply Z.mod_pos_bound; lia).
  f_equal. rewrite Zplus_mod_idemp_l. replace (c - r + r) with c by lia. now apply Z.mod_small.
Qed.

(** A column mixed and mixed back, one byte. *)
Lemma inv_mix_byte a b c d : is_u8 a -> is_u8 b -> is_u8 c -> is_u8 d ->
  gmul 14 (gmul 2 a .^ gmul 3 b .^ c .^ d) .^ gmul 11 (gmul 2 b .^ gmul 3 c .^ d .^ a) .^
  gmul 13 (gmul 2 c .^ gmul 3 d .^ a .^ b) .^ gmul 9 (gmul 2 d .^ gmul 3 a .^ b .^ c) = a.
Proof.
  intros Ha Hb Hc Hd. rewrite !gmul_xor by auto using u8_xor, gmul_byte.
  assert (E : forall x, is_u8 x ->
    (gmul 14 (gmul 2 x) .^ gmul 11 x .^ gmul 13 x .^ gmul 9 (gmul 3 x) =? x) &&
    (gmul 14 (gmul 3 x) .^ gmul 11 (gmul 2 x) .^ gmul 13 x .^ gmul 9 x =? 0) &&
    (gmul 14 x .^ gmul 11 (gmul 3 x) .^ gmul 13 (gmul 2 x) .^ gmul 9 x =? 0) &&
    (gmul 14 x .^ gmul 11 x .^ gmul 13 (gmul 3 x) .^ gmul 9 (gmul 2 x) =? 0) = true)
    by (apply (all_range_spec 0 256); vm_compute; reflexivity).
  assert (E' : forall x, is_u8 x -> _) by (intros x Hx; pose proof (E x Hx) as H; rewrite !andb_true_iff, !Z.eqb_eq in H; exact H).
  destruct (E' a Ha) as [[[Ea _] _] _], (E' b Hb) as [[[_ Eb] _] _], (E' c Hc) as [[_ Ec] _], (E' d Hd) as [_ Ed].
  clear E E'.
  match goal with |- ?x = _ =>
    replace x with ((gmul 14 (gmul 2 a) .^ gmul 11 a .^ gmul 13 a .^ gmul 9 (gmul 3 a)) .^
      (gmul 14 (gmul 3 b) .^ gmul 11 (gmul 2 b) .^ gmul 13 b .^ gmul 9 b) .^
      (gmul 14 c .^ gmul 11 (gmul 3 c) .^ gmul 13 (gmul 2 c) .^ gmul 9 c) .^
      (gmul 14 d .^ gmul 11 d .^ gmul 13 (gmul 3 d) .^ gmul 9 (gmul 2 d)))
  end; [now rewrite Ea, Eb, Ec, Ed, !Z.lxor_0_r |].
  xor_ring.
Qed.

Lemma inv_mix_columns st : is_state st -> InvMixColumns (MixColumns st) = st.
Proof.
  intros Hs. apply state_eq; [apply build_length | apply Hs |]. intros r c Hr Hc.
  unfold InvMixColumns. rewrite at_build by assumption. unfold MixColumns.
  rewrite !at_build by (try assumption; apply Z.mod_pos_bound; lia).
  revert r Hr. apply range4; apply inv_mix_byte; now apply at_byte.
Qed.

Lemma inv_mix_add a b : is_state a -> is_state b ->
  InvMixColumns (AddRoundKey a b) = AddRoundKey (InvMixColumns a) (InvMixColumns b).
Proof.
  intros Ha Hb. apply state_eq; [apply build_length | apply build_length |]. intros r c Hr Hc.
  unfold AddRoundKey at 2. rewrite at_build by assumption. unfold InvMixColumns. rewrite !at_build by assumption.
  unfold AddRoundKey. rewrite !at_build by (try assumption; apply Z.mod_pos_bound; lia).
  rewrite !gmul_xor by now apply at_byte. xor_ring.
Qed.

Lemma add_round_key_twice a k : is_state a -> AddRoundKey (AddRoundKey a k) k = a.
Proof.
  intros Ha. apply state_eq; [apply build_length | apply Ha |]. intros r c Hr Hc.
  unfold AddRoundKey. rewrite !at_build by assumption. now rewrite Z.lxor_assoc, Z.lxor_nilpotent, Z.lxor_0_r.
Qed.

Lemma add_round_key_comm a b : AddRoundKey a b = AddRoundKey b a.
Proof. apply build_ext. intros. apply Z.lxor_comm. Qed.

(** The transformations keep states. *)
Lemma sub_bytes_state st : is_state st -> is_state (SubBytes st).
Proof. intros Hs. apply is_state_build. intros. now apply sub_byte_byte, at_byte. Qed.

Lemma shift_rows_state st : is_state st -> is_state (ShiftRows st).
Proof. intros Hs. apply is_state_build. intros. now apply at_byte. Qed.

Lemma mix_columns_state st : is_state st -> is_state (MixColumns st).
Proof. intros Hs. apply is_state_build. intros. auto 10 using u8_xor, gmul_byte, at_byte. Qed.

Lemma add_round_key_state a k : is_state a -> is_state k -> is_state (AddRoundKey a k).
Proof. intros Ha Hk. apply is_state_build. intros. apply u8_xor; now apply at_byte. Qed.

#[export] Hint Resolve sub_bytes_state shift_rows_state mix_columns_state add_round_key_state : aes.
