(* ===== verification/AesCipher.v ===== *)
(** * AesCipher: the tables of [aes.c] implement FIPS 197

    A word of the implementation holds the four bytes of a column.  A table
    look-up per byte and three sums are one column of a round, so a round of the
    implementation is the round of the specification on the bytes of its words.
    From this follow the two theorems of the file: [encrypt] with the schedule
    that [set_key] expands is the cipher of FIPS 197, and [decrypt] undoes it. *)

From Stdlib Require Import ZArith Lia List Bool.
From S2P Require Import Prelude AesTables Aes AesSpec.
Import ListNotations.

(** ** The bytes of words *)

Lemma bval_byte x n : is_u8 (bval x n).
Proof. unfold bval, u8, is_u8. apply zext_range. lia. Qed.

Lemma bval_bits x n i : 0 <= n -> 0 <= i < 8 -> Z.testbit (bval x n) i = Z.testbit x (8 * n + i).
Proof.
  intros Hn Hi. unfold bval, u8, zext. rewrite Z.mod_pow2_bits_low by lia.
  rewrite Z.shiftr_spec by lia. f_equal. lia.
Qed.

Lemma bval_xor a b n : 0 <= n -> bval (a .^ b) n = bval a n .^ bval b n.
Proof.
  intros Hn. apply Z.bits_inj'. intros i Hi. rewrite Z.lxor_spec.
  destruct (Z.ltb_spec i 8).
  - rewrite !bval_bits by lia. apply Z.lxor_spec.
  - unfold bval, u8, zext. rewrite !Z.mod_pow2_bits_high by lia. reflexivity.
Qed.

(** The four bytes of a column, and the sixteen of a state. *)
Definition column (w : Z) : list Z := [bval w 0; bval w 1; bval w 2; bval w 3].
Definition bytes_of (x : list Z) : list Z := build (fun r c => bval x.[c] r).
(** The words from [kp] on. *)
Definition key_at (k : list Z) (kp : Z) : list Z := build (fun r c => bval k.[kp + c] r).

Lemma bytes_of_state x : is_state (bytes_of x).
Proof. apply is_state_build. intros. apply bval_byte. Qed.

Lemma key_at_state k kp : is_state (key_at k kp).
Proof. apply is_state_build. intros. apply bval_byte. Qed.

#[export] Hint Resolve bytes_of_state key_at_state : aes.

Lemma bval_word b0 b1 b2 b3 : is_u8 b0 -> is_u8 b1 -> is_u8 b2 -> is_u8 b3 ->
  column (bytes2word b0 b1 b2 b3) = [b0; b1; b2; b3].
Proof.
  intros H0 H1 H2 H3. unfold bytes2word.
  assert (E : forall x k, is_u8 x -> 0 <= k <= 24 -> u32 (x << k) = x * 2 ^ k).
  { intros x k Hx Hk. unfold is_u8 in Hx. rewrite Z.shiftl_mul_pow2 by lia. apply u32_id. unfold is_u32.
    assert (2 ^ k <= 2 ^ 24) by (apply Z.pow_le_mono_r; lia). nia. }
  rewrite !E by (assumption || lia). unfold is_u8 in *.
  rewrite (lor_add 24 (b3 * 2 ^ 24) (b2 * 2 ^ 16)) by (rewrite ?Z.mod_mul; lia).
  rewrite (lor_add 16 _ (b1 * 2 ^ 8)) by (try apply Z.mod_divide; try lia; exists (b3 * 2 ^ 8 + b2); lia).
  rewrite (lor_add 8 _ b0) by (try apply Z.mod_divide; try lia; exists (b3 * 2 ^ 16 + b2 * 2 ^ 8 + b1); lia).
  unfold column, bval, u8, zext. rewrite !Z.shiftr_div_pow2 by lia.
  repeat f_equal; Z.to_euclidean_division_equations; lia.
Qed.

(** ** What the tables hold *)

(** Byte [n] of an entry of the four-fold tables, for the byte of row [r]. *)
Definition mix_entry (d b : Z) : Z := if d =? 0 then gmul 2 b else if d =? 1 then gmul 3 b else b.
Definition inv_mix_entry (d b : Z) : Z :=
  if d =? 0 then gmul 14 b else if d =? 1 then gmul 11 b else if d =? 2 then gmul 13 b else gmul 9 b.

(** [f] on the rows and bytes of the four tables at [b], of which [g b] is the
    substitution. *)
Definition all_entries (tab : list (list Z)) (g : Z -> Z) (f : Z -> Z -> Z -> Z) (b : Z) : bool :=
  let y := g b in
  forallb (fun r => forallb (fun n => bval (tget tab r b) n =? f r n y) [0; 1; 2; 3]) [0; 1; 2; 3].

Lemma all_entries_spec tab g f : all_range 0 256 (all_entries tab g f) = true ->
  forall b r n, is_u8 b -> 0 <= r < 4 -> 0 <= n < 4 -> bval (tget tab r b) n = f r n (g b).
Proof.
  intros H b r n Hb Hr Hn. pose proof (all_range_spec _ _ _ H b Hb) as E. unfold all_entries in E.
  rewrite forallb_forall in E. specialize (E r ltac:(simpl; lia)).
  rewrite forallb_forall in E. apply Z.eqb_eq, (E n). simpl; lia.
Qed.

Ltac check_table tab g f := apply (all_entries_spec tab g f); vm_compute; reflexivity.

Lemma ft_tab_spec b r n : is_u8 b -> 0 <= r < 4 -> 0 <= n < 4 ->
  bval (tget ft_tab r b) n = mix_entry ((r - n) mod 4) (sub_byte b).
Proof. check_table ft_tab sub_byte (fun r n => mix_entry ((r - n) mod 4)). Qed.

Lemma fl_tab_spec b r n : is_u8 b -> 0 <= r < 4 -> 0 <= n < 4 ->
  bval (tget fl_tab r b) n = if r =? n then sub_byte b else 0.
Proof. check_table fl_tab sub_byte (fun r n y => if r =? n then y else 0). Qed.

Lemma it_tab_spec b r n : is_u8 b -> 0 <= r < 4 -> 0 <= n < 4 ->
  bval (tget it_tab r b) n = inv_mix_entry ((r - n) mod 4) (inv_sub_byte b).
Proof. check_table it_tab inv_sub_byte (fun r n => inv_mix_entry ((r - n) mod 4)). Qed.

Lemma il_tab_spec b r n : is_u8 b -> 0 <= r < 4 -> 0 <= n < 4 ->
  bval (tget il_tab r b) n = if r =? n then inv_sub_byte b else 0.
Proof. check_table il_tab inv_sub_byte (fun r n y => if r =? n then y else 0). Qed.

Lemma im_tab_spec b r n : is_u8 b -> 0 <= r < 4 -> 0 <= n < 4 ->
  bval (tget im_tab r b) n = inv_mix_entry ((r - n) mod 4) b.
Proof. check_table im_tab (fun b : Z => b) (fun r n => inv_mix_entry ((r - n) mod 4)). Qed.

(** A sum of four look-ups, byte by byte. *)
Lemma bval_four_tables {X} (x : X) tab vf rf c n : 0 <= n ->
  bval (four_tables x tab vf rf c) n =
  bval (tget tab 0 (bval (vf x 0 c) (rf 0 c))) n .^ bval (tget tab 1 (bval (vf x 1 c) (rf 1 c))) n .^
  bval (tget tab 2 (bval (vf x 2 c) (rf 2 c))) n .^ bval (tget tab 3 (bval (vf x 3 c) (rf 3 c))) n.
Proof. intros Hn. unfold four_tables. now rewrite !bval_xor. Qed.

Lemma fwd_var_spec x r c : 0 <= r < 4 -> 0 <= c < 4 -> fwd_var x r c = x.[(c + r) mod 4].
Proof. intros Hr Hc. revert r Hr. apply range4; revert c Hc; apply range4; reflexivity. Qed.

Lemma inv_var_spec x r c : 0 <= r < 4 -> 0 <= c < 4 -> inv_var x r c = x.[(c - r) mod 4].
Proof. intros Hr Hc. revert r Hr. apply range4; revert c Hc; apply range4; reflexivity. Qed.

(** ** The rounds *)

Lemma round_at rm x k kp r c : 0 <= r < 4 -> 0 <= c < 4 ->
  at_ (bytes_of (round rm x k kp)) r c = bval (rm x k kp c) r.
Proof.
  intros Hr Hc. unfold bytes_of. rewrite at_build by assumption. revert c Hc. apply range4; reflexivity.
Qed.

Lemma bytes_at x r c : 0 <= r < 4 -> 0 <= c < 4 -> at_ (bytes_of x) r c = bval x.[c] r.
Proof. intros. unfold bytes_of. now rewrite at_build. Qed.

Lemma key_at_at k kp r c : 0 <= r < 4 -> 0 <= c < 4 -> at_ (key_at k kp) r c = bval k.[kp + c] r.
Proof. intros. unfold key_at. now rewrite at_build. Qed.

(** To compare a round with its specification: the bytes of every row and column. *)
Ltac open_round spec :=
  apply state_eq; [apply build_length | apply build_length |]; intros r c Hr Hc;
  rewrite round_at by assumption; unfold AddRoundKey; rewrite at_build, key_at_at by assumption;
  unfold spec; rewrite bval_xor, bval_four_tables, Z.lxor_comm by lia; f_equal.

(** The sixteen cases, in each of which the sums agree up to their order. *)
Ltac norm_mod :=
  repeat match goal with
  | |- context [Z.modulo ?a ?b] => let v := eval vm_compute in (Z.modulo a b) in change (Z.modulo a b) with v
  end.
Ltac close_round :=
  match goal with r : Z, c : Z |- _ =>
    repeat match goal with H : 0 <= c < 4 |- _ => revert c H end; apply range4;
    repeat match goal with H : 0 <= r < 4 |- _ => revert r H end; apply range4;
    norm_mod; unfold mix_entry, inv_mix_entry; cbn [Z.eqb Pos.eqb]; rewrite ?Z.lxor_0_l, ?Z.lxor_0_r; xor_ring
  end.

Lemma fwd_round x k kp : bytes_of (round fwd_rnd x k kp) =
  AddRoundKey (MixColumns (ShiftRows (SubBytes (bytes_of x)))) (key_at k kp).
Proof.
  open_round fwd_rnd. rewrite !fwd_var_spec, !ft_tab_spec by (apply bval_byte || lia).
  unfold MixColumns, ShiftRows, SubBytes, rf1. rewrite !at_build by (try assumption; apply Z.mod_pos_bound; lia).
  rewrite !bytes_at by (apply Z.mod_pos_bound; lia) || assumption.
  close_round.
Qed.

Lemma inv_round x k kp : bytes_of (round inv_rnd x k kp) =
  AddRoundKey (InvMixColumns (InvSubBytes (InvShiftRows (bytes_of x)))) (key_at k kp).
Proof.
  open_round inv_rnd. rewrite !inv_var_spec, !it_tab_spec by (apply bval_byte || lia).
  unfold InvMixColumns, InvShiftRows, InvSubBytes, rf1.
  rewrite !at_build by (try assumption; apply Z.mod_pos_bound; lia).
  rewrite !bytes_at by (apply Z.mod_pos_bound; lia) || assumption.
  close_round.
Qed.

Lemma fwd_last_round x k kp : bytes_of (round fwd_lrnd x k kp) =
  AddRoundKey (ShiftRows (SubBytes (bytes_of x))) (key_at k kp).
Proof.
  open_round fwd_lrnd. rewrite !fwd_var_spec, !fl_tab_spec by (apply bval_byte || lia).
  unfold ShiftRows, SubBytes, rf1. rewrite !at_build by (try assumption; apply Z.mod_pos_bound; lia).
  rewrite !bytes_at by (apply Z.mod_pos_bound; lia) || assumption.
  close_round.
Qed.

Lemma inv_last_round x k kp : bytes_of (round inv_lrnd x k kp) =
  AddRoundKey (InvSubBytes (InvShiftRows (bytes_of x))) (key_at k kp).
Proof.
  open_round inv_lrnd. rewrite !inv_var_spec, !il_tab_spec by (apply bval_byte || lia).
  unfold InvShiftRows, InvSubBytes, rf1. rewrite !at_build by (try assumption; apply Z.mod_pos_bound; lia).
  rewrite !bytes_at by (apply Z.mod_pos_bound; lia) || assumption.
  close_round.
Qed.

(** ** Input and output *)

Lemma column_at w n : 0 <= n < 4 -> bval w n = (column w).[n].
Proof. intros Hn. revert n Hn. apply range4; reflexivity. Qed.

Lemma word_in_byte x i r : Forall is_u8 x -> 0 <= r < 4 -> bval (word_in x i) r = x.[i + r].
Proof.
  intros Hx Hr. unfold word_in. rewrite column_at by assumption.
  rewrite bval_word by (apply Forall_aget; [unfold is_u8; lia | assumption]).
  revert r Hr. apply range4; rewrite ?Z.add_0_r; reflexivity.
Qed.

Lemma state_in_spec x k kp : is_state x -> bytes_of (state_in x k kp) = AddRoundKey x (key_at k kp).
Proof.
  intros [Hl Hx]. apply state_eq; [apply build_length | apply build_length |]. intros r c Hr Hc.
  unfold AddRoundKey. rewrite at_build, key_at_at, bytes_at by assumption. unfold at_.
  assert (E : (state_in x k kp).[c] = word_in x (4 * c) .^ k.[kp + c])
    by (revert c Hc; apply range4; rewrite ?Z.add_0_r; reflexivity).
  rewrite E, bval_xor, word_in_byte by (assumption || lia). do 2 f_equal. lia.
Qed.

Lemma state_out_spec y x : length y = 16%nat -> state_out y x = bytes_of x.
Proof.
  intros H. do 16 (destruct y as [|? y]; [discriminate H |]). destruct y; [reflexivity | discriminate H].
Qed.

(** ** The sequence of rounds *)

Section Rounds.

Variables (rm : list Z -> list Z -> Z -> Z -> Z) (k b0 : list Z).

(** The words after [n] rounds. *)
Fixpoint after (n : nat) : list Z :=
  match n with
  | O => b0
  | S m => round rm (after m) k (nc * Z.of_nat (S m))
  end.

Lemma rounds_spec lrm nr : nr = 10%nat \/ nr = 12%nat \/ nr = 14%nat ->
  rounds rm lrm (Z.of_nat nr) b0 k nc = round lrm (after (nr - 1)) k (nc * Z.of_nat nr).
Proof. intros [->|[->| ->]]; reflexivity. Qed.

End Rounds.

(** The states of the specification before the last round, with the keys [K]. *)
Fixpoint enc_state (K : nat -> list Z) (s0 : list Z) (n : nat) : list Z :=
  match n with
  | O => s0
  | S m => AddRoundKey (MixColumns (ShiftRows (SubBytes (enc_state K s0 m)))) (K (S m))
  end.

Fixpoint dec_state (D : nat -> list Z) (t0 : list Z) (n : nat) : list Z :=
  match n with
  | O => t0
  | S m => AddRoundKey (InvMixColumns (InvSubBytes (InvShiftRows (dec_state D t0 m)))) (D (S m))
  end.

(** The round keys in a schedule. *)
Definition keys_of (k : list Z) (i : nat) : list Z := key_at k (nc * Z.of_nat i).

Lemma after_fwd k b n : bytes_of (after fwd_rnd k b n) = enc_state (keys_of k) (bytes_of b) n.
Proof. induction n as [|n IH]; [reflexivity |]. cbn [after enc_state]. now rewrite fwd_round, IH. Qed.

Lemma after_inv k b n : bytes_of (after inv_rnd k b n) = dec_state (keys_of k) (bytes_of b) n.
Proof. induction n as [|n IH]; [reflexivity |]. cbn [after dec_state]. now rewrite inv_round, IH. Qed.

Lemma enc_state_state K s0 n : is_state s0 -> (forall i, is_state (K i)) -> is_state (enc_state K s0 n).
Proof. intros Hs HK. induction n; cbn [enc_state]; auto with aes. Qed.

(** The rounds of the decryption run through the states of the encryption. *)
Lemma dec_follows_enc K D s0 nr : is_state s0 -> (forall i, is_state (K i)) ->
  (forall i, (0 < i < nr)%nat -> D i = InvMixColumns (K (nr - i)%nat)) ->
  forall n, (n < nr)%nat ->
  dec_state D (ShiftRows (SubBytes (enc_state K s0 (nr - 1)))) n =
  ShiftRows (SubBytes (enc_state K s0 (nr - 1 - n))).
Proof.
  intros Hs HK HD. induction n as [|n IH]; intros Hn; [now rewrite Nat.sub_0_r |].
  cbn [dec_state]. rewrite IH by lia.
  pose proof (enc_state_state K s0 (nr - 1 - n) Hs HK) as Hst.
  rewrite inv_shift_rows, inv_sub_bytes by auto with aes.
  destruct (nr - 1 - n)%nat as [|j] eqn:Ej; [lia |]. cbn [enc_state].
  pose proof (enc_state_state K s0 j Hs HK) as Hj.
  rewrite inv_mix_add, inv_mix_columns, HD by (auto with aes; lia).
  replace (nr - S n)%nat with (S j) by lia. replace (nr - 1 - S n)%nat with j by lia.
  rewrite add_round_key_twice; auto with aes.
Qed.

(** ** The decryption schedule *)

Definition put4 (d : list Z) (kt : Z) (v : Z -> Z) : list Z :=
  aset (aset (aset (aset d kt (v 0)) (kt + 1) (v 1)) (kt + 2) (v 2)) (kt + 3) (v 3).

Lemma put4_length d kt v : length (put4 d kt v) = length d.
Proof. unfold put4. now rewrite !aset_length. Qed.

Lemma put4_get d kt v m : 0 <= kt -> kt + 3 < Z.of_nat (length d) -> 0 <= m ->
  (put4 d kt v).[m] = if (kt <=? m) && (m <? kt + 4) then v (m - kt) else d.[m].
Proof.
  intros Hk Hl Hm. unfold put4. rewrite !aget_aset by (rewrite ?aset_length; lia).
  destruct (Z.leb_spec kt m), (Z.ltb_spec m (kt + 4)); cbn [andb];
    repeat match goal with |- context [m =? ?x] => destruct (Z.eqb_spec m x) end; try lia; try reflexivity;
    subst; f_equal; lia.
Qed.

Lemma cpy_put4 d kt e kf : cpy d kt e kf = put4 d kt (fun c => e.[kf + c]).
Proof. unfold cpy, put4. now rewrite Z.add_0_r. Qed.

Lemma mix_put4 d kt e kf : mix d kt e kf = put4 d kt (fun c => inv_mcol e.[kf + c]).
Proof. unfold mix, put4. now rewrite Z.add_0_r. Qed.

(** Word [c] of the block that [dec_schedule] makes of block [j]. *)
Definition sched_word (e : list Z) (nrnd j c : Z) : Z :=
  if (j =? 0) || (j =? nrnd) then e.[nc * j + c] else inv_mcol e.[nc * j + c].

(** The blocks before [i] are done. *)
Definition sched_done (e : list Z) (n : nat) (nrnd i : Z) (d : list Z) : Prop :=
  length d = n /\ forall j c, 0 <= j < i -> 0 <= c < 4 -> d.[nc * (nrnd - j) + c] = sched_word e nrnd j c.

Lemma sched_next e n nrnd i d v : nc * (nrnd + 1) <= Z.of_nat n -> 0 <= i <= nrnd ->
  sched_done e n nrnd i d -> (forall c, 0 <= c < 4 -> v c = sched_word e nrnd i c) ->
  sched_done e n nrnd (i + 1) (put4 d (nc * (nrnd - i)) v).
Proof.
  change nc with 4. intros Hn Hi [Hl Hd] Hv. split; [now rewrite put4_length |].
  intros j c Hj Hc. change nc with 4 in *. rewrite put4_get by lia.
  destruct (Z.eqb_spec j i) as [->|Hne].
  - replace (_ && _) with true by (symmetry; apply andb_true_iff; split; [apply Z.leb_le | apply Z.ltb_lt]; lia).
    rewrite Hv by lia. f_equal. lia.
  - replace (_ && _) with false by (symmetry; apply andb_false_iff; right; apply Z.ltb_ge; lia).
    apply Hd; lia.
Qed.

Lemma dec_schedule_get d e nrnd : 1 < nrnd -> nc * (nrnd + 1) <= Z.of_nat (length d) ->
  sched_done e (length d) nrnd (nrnd + 1) (dec_schedule d e nrnd).
Proof.
  intros Hr Hl. unfold dec_schedule.
  set (body := fun (_ : Z) '(d0, kt, kf) => _).
  pose (P := fun i '((d', kt, kf) : list Z * Z * Z) =>
    kt = nc * (nrnd - i) /\ kf = nc * i /\ sched_done e (length d) nrnd i d').
  assert (HP : P nrnd (for_range 1 nrnd body (cpy d (nc * nrnd) e 0, nc * nrnd + nc - 2 * nc, nc))).
  { apply for_range_ind; [lia | |].
    - split; [lia | split; [lia |]]. rewrite cpy_put4. replace (nc * nrnd) with (nc * (nrnd - 0)) by lia.
      apply (sched_next e _ nrnd 0); [assumption | lia | split; [reflexivity | lia] |].
      intros c _. reflexivity.
    - intros i [[d' kt] kf] Hi (-> & -> & Hd). cbn [body P]. split; [lia | split; [lia |]].
      rewrite mix_put4. apply sched_next; [assumption | lia | assumption |].
      intros c _. unfold sched_word. destruct (Z.eqb_spec i 0), (Z.eqb_spec i nrnd); try lia. reflexivity. }
  destruct (for_range _ _ _ _) as [[d' kt] kf]. destruct HP as (-> & -> & Hd).
  rewrite cpy_put4. apply sched_next; [assumption | lia | assumption |].
  intros c _. unfold sched_word. now rewrite Z.eqb_refl, orb_true_r.
Qed.

Lemma inv_mcol_byte w n : 0 <= n < 4 -> bval (inv_mcol w) n =
  gmul 14 (bval w n) .^ gmul 11 (bval w ((n + 1) mod 4)) .^
  gmul 13 (bval w ((n + 2) mod 4)) .^ gmul 9 (bval w ((n + 3) mod 4)).
Proof.
  intros Hn. unfold inv_mcol. rewrite bval_four_tables, !im_tab_spec by (apply bval_byte || lia).
  unfold vf1, rf1. revert n Hn. apply range4; norm_mod; unfold inv_mix_entry; cbn [Z.eqb Pos.eqb]; xor_ring.
Qed.

(** The keys of the decryption schedule. *)
Lemma dec_schedule_keys d e nr : (1 < nr)%nat -> nc * (Z.of_nat nr + 1) <= Z.of_nat (length d) ->
  let D := keys_of (dec_schedule d e (Z.of_nat nr)) in
  D 0%nat = keys_of e nr /\ D nr = keys_of e 0 /\
  forall i, (0 < i < nr)%nat -> D i = InvMixColumns (keys_of e (nr - i)).
Proof.
  intros Hr Hl D. destruct (dec_schedule_get d e (Z.of_nat nr) ltac:(lia) Hl) as [_ Hd].
  assert (HD : forall j r c, (j <= nr)%nat -> 0 <= r < 4 -> 0 <= c < 4 ->
    at_ (D (nr - j)%nat) r c = bval (sched_word e (Z.of_nat nr) (Z.of_nat j) c) r).
  { intros j r c Hj Hrr Hc. unfold D, keys_of. rewrite key_at_at by assumption. f_equal.
    rewrite <- (Hd (Z.of_nat j) c) by lia. f_equal. change nc with 4. lia. }
  assert (Hend : forall i j r c, i = (nr - j)%nat -> j = 0%nat \/ j = nr -> 0 <= r < 4 -> 0 <= c < 4 ->
    at_ (D i) r c = at_ (keys_of e j) r c).
  { intros i j r c -> Hj Hrr Hc. rewrite HD by (assumption || lia). unfold keys_of. rewrite key_at_at by assumption.
    unfold sched_word. destruct Hj as [->| ->]; [reflexivity |]. now rewrite Z.eqb_refl, orb_true_r. }
  split; [| split].
  - apply state_eq; [apply build_length | apply build_length |]. intros. apply Hend; [lia | auto ..].
  - apply state_eq; [apply build_length | apply build_length |]. intros. apply Hend; [lia | auto ..].
  - intros i Hi. apply state_eq; [apply build_length | apply build_length |]. intros r c Hrr Hc.
    replace i with (nr - (nr - i))%nat at 1 by lia. rewrite HD by (assumption || lia).
    unfold sched_word. destruct (Z.eqb_spec (Z.of_nat (nr - i)) 0), (Z.eqb_spec (Z.of_nat (nr - i)) (Z.of_nat nr)); try lia.
    cbn [orb]. rewrite inv_mcol_byte by assumption. unfold InvMixColumns. rewrite at_build by assumption.
    unfold keys_of. rewrite !key_at_at by (try assumption; apply Z.mod_pos_bound; lia). reflexivity.
Qed.

(** ** The key expansion *)

(** The first words of the schedule [e] are [w]. *)
Definition expanded (e : list Z) (w : list (list Z)) : Prop :=
  length e = 64%nat /\ (length w <= 64)%nat /\
  forall i, (i < length w)%nat -> column e.[Z.of_nat i] = nth i w [].

Lemma column_xor a b : column (a .^ b) = xor_word (column a) (column b).
Proof. unfold column. rewrite !bval_xor by lia. reflexivity. Qed.

Lemma xor_word_assoc a b c : xor_word (xor_word a b) c = xor_word a (xor_word b c).
Proof.
  exact (f_equal2 cons (Z.lxor_assoc a.[0] b.[0] c.[0]) (f_equal2 cons (Z.lxor_assoc a.[1] b.[1] c.[1])
    (f_equal2 cons (Z.lxor_assoc a.[2] b.[2] c.[2]) (f_equal2 cons (Z.lxor_assoc a.[3] b.[3] c.[3]) eq_refl)))).
Qed.

Lemma ls_box_byte x c n : 0 <= c < 4 -> 0 <= n < 4 ->
  bval (ls_box x c) n = sub_byte (bval x ((n - c) .& 3)).
Proof.
  intros Hc Hn. unfold ls_box. rewrite bval_four_tables, !fl_tab_spec by (apply bval_byte || lia). unfold vf1, rf2.
  revert n Hn. apply range4; cbn [Z.eqb Pos.eqb]; rewrite ?Z.lxor_0_l, ?Z.lxor_0_r; reflexivity.
Qed.

Lemma column_ls_box_3 x : column (ls_box x 3) = SubWord (RotWord (column x)).
Proof. unfold column. rewrite !ls_box_byte by lia. reflexivity. Qed.

Lemma column_ls_box_0 x : column (ls_box x 0) = SubWord (column x).
Proof. unfold column. rewrite !ls_box_byte by lia. reflexivity. Qed.

Lemma column_rcon m : 0 <= m < 29 -> column rcon_tab.[m] = Rcon (S (Z.to_nat m)).
Proof.
  intros Hm. unfold Rcon. rewrite Nat.sub_succ, Nat.sub_0_r.
  assert (E : let w := rcon_tab.[m] in
    (bval w 0 =? gpow 2 (Z.to_nat m)) && (bval w 1 =? 0) && (bval w 2 =? 0) && (bval w 3 =? 0) = true).
  { revert m Hm. apply (all_range_spec 0 29). vm_compute. reflexivity. }
  cbv zeta in E. rewrite !andb_true_iff, !Z.eqb_eq in E. destruct E as [[[E0 E1] E2] E3].
  unfold column. now rewrite E0, E1, E2, E3.
Qed.

Section Expansion.

Variables (k : list Z) (w : list (list Z)) (i : Z) (nk : nat).
Hypothesis He : expanded k w.
Hypothesis Hi : Z.of_nat (length w) = i.
Hypothesis Hmax : i < 64.
Hypothesis Hnk : (4 <= nk <= 8)%nat.
Hypothesis Hlen : (nk <= length w)%nat.

Lemma expanded_get j : 0 <= j < i -> column k.[j] = nth (Z.to_nat j) w [].
Proof.
  intros Hj. destruct He as (_ & _ & H). rewrite <- (H (Z.to_nat j)) by lia. now rewrite Z2Nat.id by lia.
Qed.

Lemma expanded_push v x : column v = x -> expanded (aset k i v) (w ++ [x]).
Proof.
  clear Hlen Hnk nk. intros Hv. destruct He as (Hl & Hw & H). split; [now rewrite aset_length |].
  rewrite length_app. split; [simpl; lia |]. intros j Hj. simpl in Hj.
  rewrite aget_aset by lia. destruct (Z.eqb_spec (Z.of_nat j) i) as [E|E].
  - replace j with (length w) by lia. now rewrite nth_middle.
  - rewrite app_nth1 by lia. apply H. lia.
Qed.

(** The three kinds of words. *)
Lemma push_plain a b : a = i - Z.of_nat nk -> b = i - 1 ->
  (length w mod nk)%nat <> 0%nat -> ((6 < nk)%nat -> (length w mod nk)%nat <> 4%nat) ->
  expanded (aset k i (k.[a] .^ k.[b])) (extend 1 nk w).
Proof.
  intros -> -> H0 H4. apply expanded_push. rewrite column_xor, !expanded_get by lia.
  unfold next_word. apply Nat.eqb_neq in H0. rewrite H0.
  destruct (Nat.ltb_spec 6 nk) as [Hk|Hk].
  - apply H4, Nat.eqb_neq in Hk. rewrite Hk. cbn [andb]. do 2 f_equal; lia.
  - cbn [andb]. do 2 f_equal; lia.
Qed.

Lemma push_rot a b m : a = i - Z.of_nat nk -> b = i - 1 -> (length w mod nk)%nat = 0%nat ->
  (length w / nk)%nat = S (Z.to_nat m) -> 0 <= m < 29 ->
  expanded (aset k i (k.[a] .^ ls_box k.[b] 3 .^ rcon_tab.[m])) (extend 1 nk w).
Proof.
  intros -> -> H0 Hq Hm. apply expanded_push.
  rewrite !column_xor, column_ls_box_3, column_rcon, !expanded_get by lia.
  unfold next_word. rewrite H0, Hq. cbn [Nat.eqb].
  replace (Z.to_nat (i - Z.of_nat nk)) with (length w - nk)%nat by lia.
  replace (Z.to_nat (i - 1)) with (length w - 1)%nat by lia.
  apply xor_word_assoc.
Qed.

Lemma push_sub a b : a = i - Z.of_nat nk -> b = i - 1 -> (6 < nk)%nat -> (length w mod nk)%nat = 4%nat ->
  expanded (aset k i (k.[a] .^ ls_box k.[b] 0)) (extend 1 nk w).
Proof.
  intros -> -> H6 H4. apply expanded_push.
  rewrite column_xor, column_ls_box_0, !expanded_get by lia.
  unfold next_word. rewrite H4. apply Nat.ltb_lt in H6. rewrite H6. cbn [Nat.eqb andb]. do 2 f_equal; [lia |].
  do 2 f_equal. lia.
Qed.

End Expansion.

Lemma extend_length n nk w : length (extend n nk w) = (length w + n)%nat.
Proof.
  revert w; induction n as [|n IH]; intros w; cbn [extend]; [lia |]. rewrite IH, length_app. simpl. lia.
Qed.

Lemma extend_add a b nk w : extend (a + b) nk w = extend b nk (extend a nk w).
Proof. revert w; induction a as [|a IH]; intros w; cbn [extend Nat.add]; auto. Qed.

Lemma extend_prefix n nk w : exists rest, extend n nk w = w ++ rest.
Proof.
  revert w; induction n as [|n IH]; intros w; cbn [extend]; [exists []; now rewrite app_nil_r |].
  destruct (IH (w ++ [next_word nk w])) as [rest ->]. exists (next_word nk w :: rest). now rewrite <- app_assoc.
Qed.

Lemma mod_at n nk q j : (j < nk)%nat -> n = (nk * q + j)%nat -> (n mod nk)%nat = j /\ (n / nk)%nat = q.
Proof.
  intros Hj ->. split; [symmetry; now apply (Nat.mod_unique _ _ q) | symmetry; now apply (Nat.div_unique _ _ _ j)].
Qed.

(** A pass over [nk] words with [kf = nk * rci]. *)
Definition pass_ok (nk : nat) (pass : list Z -> Z -> Z -> list Z) : Prop :=
  forall k w kf rci, expanded k w -> Z.of_nat (length w) = kf + Z.of_nat nk -> kf = Z.of_nat nk * rci ->
  0 <= rci < 29 -> kf + 2 * Z.of_nat nk <= 64 -> expanded (pass k kf rci) (extend nk nk w).

(** The side conditions of a word that is the [j]th of a pass. *)
Ltac pass_word j :=
  rewrite ?extend_length; try lia;
  match goal with rci : Z |- context [length ?w] =>
    let nk := match goal with H : _ = _ + Z.of_nat ?nk |- _ => nk end in
    let H := fresh in
    assert (H : ((length w + j) mod nk)%nat = j /\ ((length w + j) / nk)%nat = S (Z.to_nat rci))
      by (apply mod_at; lia);
    rewrite ?Nat.add_0_r, <- ?Nat.add_assoc in *; cbn [Nat.add] in *; destruct H; lia
  end.

Lemma pass_4_ok : pass_ok 4 expand_4.
Proof.
  intros k w kf rci He Hl Hk Hr Hm. unfold expand_4.
  change (extend 4 4 w) with (extend 1 4 (extend 1 4 (extend 1 4 (extend 1 4 w)))).
  apply push_plain; [| pass_word 3%nat ..].
  apply push_plain; [| pass_word 2%nat ..].
  apply push_plain; [| pass_word 1%nat ..].
  apply push_rot; [assumption | pass_word 0%nat ..].
Qed.

Lemma pass_6_ok : pass_ok 6 expand_6.
Proof.
  intros k w kf rci He Hl Hk Hr Hm. unfold expand_6.
  change (extend 6 6 w) with (extend 1 6 (extend 1 6 (extend 1 6 (extend 1 6 (extend 1 6 (extend 1 6 w)))))).
  apply push_plain; [| pass_word 5%nat ..].
  apply push_plain; [| pass_word 4%nat ..].
  apply push_plain; [| pass_word 3%nat ..].
  apply push_plain; [| pass_word 2%nat ..].
  apply push_plain; [| pass_word 1%nat ..].
  apply push_rot; [assumption | pass_word 0%nat ..].
Qed.

Lemma pass_8_ok : pass_ok 8 expand_8.
Proof.
  intros k w kf rci He Hl Hk Hr Hm. unfold expand_8.
  change (extend 8 8 w) with
    (extend 1 8 (extend 1 8 (extend 1 8 (extend 1 8 (extend 1 8 (extend 1 8 (extend 1 8 (extend 1 8 w)))))))).
  apply push_plain; [| pass_word 7%nat ..].
  apply push_plain; [| pass_word 6%nat ..].
  apply push_plain; [| pass_word 5%nat ..].
  apply push_sub; [| pass_word 4%nat ..].
  apply push_plain; [| pass_word 3%nat ..].
  apply push_plain; [| pass_word 2%nat ..].
  apply push_plain; [| pass_word 1%nat ..].
  apply push_rot; [assumption | pass_word 0%nat ..].
Qed.

Lemma key_loop_spec nk pass : pass_ok nk pass -> (0 < nk)%nat -> forall n fuel k w kf kt rci,
  (0 < n <= fuel)%nat -> kf + Z.of_nat nk * (Z.of_nat n - 1) < kt <= kf + Z.of_nat nk * Z.of_nat n ->
  expanded k w -> Z.of_nat (length w) = kf + Z.of_nat nk -> kf = Z.of_nat nk * rci -> 0 <= rci ->
  rci + Z.of_nat n < 29 -> kf + Z.of_nat nk * (Z.of_nat n + 1) <= 64 ->
  exists k', key_loop fuel pass (Z.of_nat nk) k kf kt rci = Some k' /\ expanded k' (extend (nk * n) nk w).
Proof.
  intros Hpass Hnk. induction n as [|n IH]; intros [|f] k w kf kt rci Hn Hkt He Hl Hk Hr Hr29 Hmax; try lia.
  cbn [key_loop]. pose proof (Hpass k w kf rci He Hl Hk ltac:(lia) ltac:(nia)) as He'.
  destruct (Z.ltb_spec (kf + Z.of_nat nk) kt) as [Hlt|Hge].
  - assert (Hn1 : (0 < n)%nat) by (destruct n; [nia | lia]).
    destruct (IH f (pass k kf rci) (extend nk nk w) (kf + Z.of_nat nk) kt (rci + 1)) as (k' & -> & Hk');
      try (rewrite ?extend_length; nia); try assumption.
    exists k'. split; [reflexivity |]. replace (nk * S n)%nat with (nk + nk * n)%nat by lia. now rewrite extend_add.
  - assert (n = 0%nat) as -> by nia. eexists. split; [reflexivity |]. rewrite Nat.mul_1_r. assumption.
Qed.

(** The words of the key at the start of the schedule. *)
Lemma expanded_start e : length e = 64%nat -> expanded e [].
Proof. intros He. split; [assumption |]. split; [simpl; lia |]. intros i Hi. simpl in Hi. lia. Qed.

Lemma expanded_word e w i key j : expanded e w -> Z.of_nat (length w) = i -> i < 64 -> Forall is_u8 key ->
  expanded (aset e i (word_in key j)) (w ++ [[key.[j]; key.[j + 1]; key.[j + 2]; key.[j + 3]]]).
Proof.
  intros He Hi Hmax Hk. apply expanded_push; [assumption | assumption | assumption |].
  unfold word_in. apply bval_word; (apply Forall_aget; [unfold is_u8; lia | assumption]).
Qed.

Lemma expanded_prefix e w rest : expanded e (w ++ rest) -> expanded e w.
Proof.
  intros (Hl & Hw & H). rewrite length_app in Hw. split; [assumption |]. split; [lia |].
  intros i Hi. rewrite H by (rewrite length_app; lia). now apply app_nth1.
Qed.

(** A legal key: its length in words and the flags that ask for a schedule. *)
Definition key_ok (key : list Z) (nk : nat) (f : Z) : Prop :=
  (nk = 4 \/ nk = 6 \/ nk = 8)%nat /\ Forall is_u8 key /\ (4 * nk <= length key)%nat /\ 1 <= f <= 3.

Definition context_ok (cx : aes) : Prop :=
  length (e_key cx) = 64%nat /\ length (d_key cx) = 64%nat /\ is_u8 (mode cx).

(** The words of the key in front of the schedule. *)
Lemma words_of_snoc n key : words_of (S n) key =
  words_of n key ++ [let i := 4 * Z.of_nat n in [key.[i]; key.[i + 1]; key.[i + 2]; key.[i + 3]]].
Proof.
  revert key; induction n as [|n IH]; intros key; [reflexivity |].
  change (words_of (S (S n)) key) with ([key.[0]; key.[1]; key.[2]; key.[3]] :: words_of (S n) (skipn 4 key)).
  rewrite IH. cbn [words_of app]. do 3 f_equal. cbv zeta. unfold aget. rewrite !nth_skipn.
  repeat f_equal; lia.
Qed.

Lemma words_of_length n key : length (words_of n key) = n.
Proof. revert key; induction n; intros key; cbn [words_of length]; auto. Qed.

Lemma load_word e key n i : expanded e (words_of n key) -> Forall is_u8 key -> i = Z.of_nat n -> i < 64 ->
  expanded (aset e i (word_in key (4 * i))) (words_of (S n) key).
Proof.
  intros He Hk -> Hmax. rewrite words_of_snoc. apply expanded_word; auto. now rewrite words_of_length.
Qed.

Lemma load_4 e key : length e = 64%nat -> Forall is_u8 key ->
  expanded (aset (aset (aset (aset e 0 (word_in key 0)) 1 (word_in key 4)) 2 (word_in key 8)) 3 (word_in key 12))
    (words_of 4 key).
Proof.
  intros He Hk. pose proof (expanded_start e He) as H.
  apply (load_word _ key 0 0) in H; [| assumption | reflexivity | lia].
  apply (load_word _ key 1 1) in H; [| assumption | reflexivity | lia].
  apply (load_word _ key 2 2) in H; [| assumption | reflexivity | lia].
  exact (load_word _ key 3 3 H Hk eq_refl ltac:(lia)).
Qed.

Lemma load_6 e key : expanded e (words_of 4 key) -> Forall is_u8 key ->
  expanded (aset (aset e 4 (word_in key 16)) 5 (word_in key 20)) (words_of 6 key).
Proof.
  intros H Hk. apply (load_word _ key 4 4) in H; [| assumption | reflexivity | lia].
  exact (load_word _ key 5 5 H Hk eq_refl ltac:(lia)).
Qed.

Lemma load_8 e key : expanded e (words_of 6 key) -> Forall is_u8 key ->
  expanded (aset (aset e 6 (word_in key 24)) 7 (word_in key 28)) (words_of 8 key).
Proof.
  intros H Hk. apply (load_word _ key 6 6) in H; [| assumption | reflexivity | lia].
  exact (load_word _ key 7 7 H Hk eq_refl ltac:(lia)).
Qed.

(** The flags after [set_key]. *)
Lemma mode_flags m f : 1 <= f <= 3 ->
  u8 f .& 3 = f /\ ((m .& Z.lnot 3) .| f) .& 3 = f /\ (f .& 1 =? 0) && (f .& 2 =? 0) = false.
Proof.
  intros Hf. assert (f = 1 \/ f = 2 \/ f = 3) as Hc by lia.
  split; [destruct Hc as [->|[->| ->]]; reflexivity |].
  split; [| destruct Hc as [->|[->| ->]]; reflexivity].
  rewrite Z.land_lor_distr_l, <- Z.land_assoc. replace (Z.lnot 3 .& 3) with 0 by reflexivity.
  rewrite Z.land_0_r, Z.lor_0_l. destruct Hc as [->|[->| ->]]; reflexivity.
Qed.

(** A loop that expands the words of the key to at least those of the cipher. *)
Lemma key_loop_key nk pass n more e key kt : pass_ok nk pass -> expanded e (words_of nk key) ->
  (0 < nk)%nat -> (0 < n <= 16)%nat ->
  Z.of_nat nk * (Z.of_nat n - 1) < kt <= Z.of_nat nk * Z.of_nat n -> Z.of_nat nk * (Z.of_nat n + 1) <= 64 ->
  (nk * n = (4 * (nk + 6 + 1) - nk) + more)%nat ->
  exists k, key_loop key_fuel pass (Z.of_nat nk) e 0 kt 0 = Some k /\ expanded k (KeyExpansion key nk (nk + 6)).
Proof.
  intros Hp He Hnk Hn Hkt Hmax Hm.
  destruct (key_loop_spec nk pass Hp Hnk n key_fuel e (words_of nk key) 0 kt 0) as (k & -> & Hk);
    try assumption; try (rewrite ?words_of_length; unfold key_fuel; lia).
  exists k. split; [reflexivity |]. rewrite Hm, extend_add in Hk.
  destruct (extend_prefix more nk (extend (4 * (nk + 6 + 1) - nk) nk (words_of nk key))) as [rest E].
  rewrite E in Hk. exact (expanded_prefix _ _ _ Hk).
Qed.

(** The end of [set_key], from the expanded key on. *)
Definition keyed (cx : aes) (f nk nr : Z) (run : option (list Z)) : option (Z * aes) :=
  let* e := run in
  Some (aes_good, mkAes nk nr e (if negb (f =? enc) then dec_schedule (d_key cx) e nr else d_key cx)
    ((mode cx .& Z.lnot 3) .| f)).

Lemma keyed_some cx f nk nr e : keyed cx f nk nr (Some e) =
  Some (aes_good, mkAes nk nr e (if f =? enc then d_key cx else dec_schedule (d_key cx) e nr)
    ((mode cx .& Z.lnot 3) .| f)).
Proof. unfold keyed. cbn [bind]. now destruct (f =? enc). Qed.

(** [set_key] on a legal key: the schedules it leaves. *)
Lemma set_key_spec key nk f cx : key_ok key nk f -> context_ok cx ->
  exists e, set_key key (4 * Z.of_nat nk) f cx =
    Some (aes_good, mkAes (Z.of_nat nk) (Z.of_nat (nk + 6)) e
      (if f =? enc then d_key cx else dec_schedule (d_key cx) e (Z.of_nat (nk + 6)))
      ((mode cx .& Z.lnot 3) .| f)) /\
    expanded e (KeyExpansion key nk (nk + 6)).
Proof.
  intros (Hnk & Hk & Hl & Hf) (He & Hd & Hm). unfold set_key.
  destruct (mode_flags (mode cx) f Hf) as (Ef & Em & Eb). rewrite Eb, Ef, Em, orb_false_r.
  assert (Hloop : exists pass n more,
    pass_ok nk pass /\ (0 < n <= 16)%nat /\ (nk * n = (4 * (nk + 6 + 1) - nk) + more)%nat /\ (more < nk)%nat /\
    (nk * (n + 1) <= 64)%nat /\
    pass = (if (nk =? 4)%nat then expand_4 else if (nk =? 6)%nat then expand_6 else expand_8)).
  { destruct Hnk as [->|[->| ->]]; [exists expand_4, 10%nat, 0%nat | exists expand_6, 8%nat, 2%nat | exists expand_8, 7%nat, 4%nat];
      (split; [auto using pass_4_ok, pass_6_ok, pass_8_ok | repeat split; lia || reflexivity]). }
  destruct Hloop as (pass & n & more & Hp & Hn & Hmore & Hless & Hmax & Epass).
  pose proof (load_4 (e_key cx) key He Hk) as H4. pose proof (load_6 _ key H4 Hk) as H6. pose proof (load_8 _ key H6 Hk) as H8.
  assert (Hrun : forall e, expanded e (words_of nk key) ->
    exists k, key_loop key_fuel pass (Z.of_nat nk) e 0 (nc * (Z.of_nat (nk + 6) + 1) - Z.of_nat nk) 0 = Some k /\
      expanded k (KeyExpansion key nk (nk + 6))).
  { intros e He'. apply (key_loop_key nk pass n more); auto; change nc with 4; lia. }
  cbv zeta. set (e4 := aset (aset (aset (aset (e_key cx) 0 _) _ _) _ _) _ _) in *.
  set (e6 := aset (aset e4 4 _) _ _) in *. set (e8 := aset (aset e6 6 _) _ _) in *. clearbody e8 e6 e4.
  destruct Hnk as [->|[->| ->]]; subst pass.
  - destruct (Hrun _ H4) as (k & Ek & HK). exists k. split; [| assumption]. clear - Ek.
    change (key_loop key_fuel expand_4 4 e4 0 40 0 = Some k) in Ek.
    change (keyed cx f 4 10 (key_loop key_fuel expand_4 4 e4 0 40 0) =
      Some (aes_good, mkAes 4 10 k (if f =? enc then d_key cx else dec_schedule (d_key cx) k 10) ((mode cx .& Z.lnot 3) .| f))).
    rewrite Ek. apply keyed_some.
  - destruct (Hrun _ H6) as (k & Ek & HK). exists k. split; [| assumption]. clear - Ek.
    change (key_loop key_fuel expand_6 6 e6 0 46 0 = Some k) in Ek.
    change (keyed cx f 6 12 (key_loop key_fuel expand_6 6 e6 0 46 0) =
      Some (aes_good, mkAes 6 12 k (if f =? enc then d_key cx else dec_schedule (d_key cx) k 12) ((mode cx .& Z.lnot 3) .| f))).
    rewrite Ek. apply keyed_some.
  - destruct (Hrun _ H8) as (k & Ek & HK). exists k. split; [| assumption]. clear - Ek.
    change (key_loop key_fuel expand_8 8 e8 0 52 0 = Some k) in Ek.
    change (keyed cx f 8 14 (key_loop key_fuel expand_8 8 e8 0 52 0) =
      Some (aes_good, mkAes 8 14 k (if f =? enc then d_key cx else dec_schedule (d_key cx) k 14) ((mode cx .& Z.lnot 3) .| f))).
    rewrite Ek. apply keyed_some.
Qed.

(** ** The cipher *)

Lemma expanded_round_key e w i : expanded e w -> (4 * (i + 1) <= length w)%nat ->
  keys_of e i = round_key w (Z.of_nat i).
Proof.
  intros (_ & _ & H) Hi. apply build_ext. intros r c Hr Hc. rewrite column_at by assumption.
  replace (nc * Z.of_nat i + c) with (Z.of_nat (Z.to_nat (4 * Z.of_nat i + c))) by (change nc with 4; lia).
  rewrite H by lia. reflexivity.
Qed.

Lemma cipher_rounds_snoc n i w st : cipher_rounds (S n) i w st =
  AddRoundKey (MixColumns (ShiftRows (SubBytes (cipher_rounds n i w st)))) (round_key w (i + Z.of_nat n)).
Proof.
  revert i st; induction n as [|n IH]; intros i st; [cbn [cipher_rounds]; now rewrite Z.add_0_r |].
  change (cipher_rounds (S (S n)) i w st) with (cipher_rounds (S n) (i + 1) w
    (AddRoundKey (MixColumns (ShiftRows (SubBytes st))) (round_key w i))).
  rewrite IH. cbn [cipher_rounds]. do 2 f_equal. lia.
Qed.

Lemma enc_state_cipher K w st n : (forall i, (0 < i <= n)%nat -> K i = round_key w (Z.of_nat i)) ->
  enc_state K st n = cipher_rounds n 1 w st.
Proof.
  induction n as [|n IH]; intros HK; [reflexivity |]. rewrite cipher_rounds_snoc. cbn [enc_state].
  rewrite IH, HK by (intros; auto with arith; apply HK; lia). do 2 f_equal. lia.
Qed.

Lemma KeyExpansion_length key nk : (nk = 4 \/ nk = 6 \/ nk = 8)%nat ->
  length (KeyExpansion key nk (nk + 6)) = (4 * (nk + 7))%nat.
Proof. intros H. unfold KeyExpansion. rewrite extend_length, words_of_length. lia. Qed.

(** The cipher on a schedule. *)
Definition cipher_on (K : nat -> list Z) (nr : nat) (inp : list Z) : list Z :=
  AddRoundKey (ShiftRows (SubBytes (enc_state K (AddRoundKey inp (K 0%nat)) (nr - 1)))) (K nr).

Lemma encrypt_run inp out nk nr e d m : (nr = 10 \/ nr = 12 \/ nr = 14)%nat -> is_state inp ->
  length out = 16%nat -> m .& 1 <> 0 ->
  encrypt inp out (mkAes nk (Z.of_nat nr) e d m) = (aes_good, cipher_on (keys_of e) nr inp).
Proof.
  intros Hnr Hin Hout Hm. unfold encrypt. cbn [mode e_key Nrnd]. apply Z.eqb_neq in Hm. rewrite Hm.
  rewrite rounds_spec, state_out_spec, fwd_last_round, after_fwd, state_in_spec by assumption. reflexivity.
Qed.

Lemma decrypt_run inp out nk nr e d m : (nr = 10 \/ nr = 12 \/ nr = 14)%nat -> is_state inp ->
  length out = 16%nat -> m .& 2 <> 0 ->
  decrypt inp out (mkAes nk (Z.of_nat nr) e d m) = (aes_good,
    AddRoundKey (InvSubBytes (InvShiftRows (dec_state (keys_of d) (AddRoundKey inp (keys_of d 0)) (nr - 1)))) (keys_of d nr)).
Proof.
  intros Hnr Hin Hout Hm. unfold decrypt. cbn [mode d_key Nrnd]. apply Z.eqb_neq in Hm. rewrite Hm.
  rewrite rounds_spec, state_out_spec, inv_last_round, after_inv, state_in_spec by assumption. reflexivity.
Qed.

Lemma cipher_on_state K nr inp : is_state inp -> (forall i, is_state (K i)) -> is_state (cipher_on K nr inp).
Proof.
  intros Hi HK. apply add_round_key_state; [| auto].
  apply shift_rows_state, sub_bytes_state, enc_state_state; auto with aes.
Qed.

Lemma cipher_on_ext K K' nr inp : (forall i, (i <= nr)%nat -> K i = K' i) -> cipher_on K nr inp = cipher_on K' nr inp.
Proof.
  intros HK.
  assert (H : forall n st, (n <= nr)%nat -> enc_state K st n = enc_state K' st n).
  { induction n as [|n IH]; intros st Hn; [reflexivity |]. cbn [enc_state]. rewrite IH, HK by lia. reflexivity. }
  unfold cipher_on. rewrite H, (HK nr), (HK 0%nat) by lia. reflexivity.
Qed.

Lemma keys_of_state k i : is_state (keys_of k i).
Proof. apply key_at_state. Qed.

#[export] Hint Resolve keys_of_state : aes.

(** Decryption with the decryption schedule undoes the cipher. *)
Lemma decrypt_cipher_on e d0 nr inp : (1 < nr)%nat -> nc * (Z.of_nat nr + 1) <= Z.of_nat (length d0) ->
  is_state inp -> let D := keys_of (dec_schedule d0 e (Z.of_nat nr)) in
  AddRoundKey (InvSubBytes (InvShiftRows (dec_state D (AddRoundKey (cipher_on (keys_of e) nr inp) (D 0%nat)) (nr - 1)))) (D nr)
  = inp.
Proof.
  intros Hnr Hl Hin D. destruct (dec_schedule_keys d0 e nr Hnr Hl) as (E0 & En & Ei). fold D in E0, En, Ei.
  unfold cipher_on. set (s0 := AddRoundKey inp (keys_of e 0)).
  assert (Hs0 : is_state s0) by (unfold s0; auto with aes).
  pose proof (enc_state_state (keys_of e) s0) as Hst.
  rewrite E0, add_round_key_twice by auto with aes.
  rewrite (dec_follows_enc (keys_of e) D s0 nr) by auto with aes arith.
  replace (nr - 1 - (nr - 1))%nat with 0%nat by lia. cbn [enc_state].
  rewrite inv_shift_rows, inv_sub_bytes by auto with aes.
  rewrite En. unfold s0. now rewrite add_round_key_twice.
Qed.

Lemma nr_cases nk : (nk = 4 \/ nk = 6 \/ nk = 8)%nat -> (nk + 6 = 10 \/ nk + 6 = 12 \/ nk + 6 = 14)%nat.
Proof. lia. Qed.

Lemma flag_enc m f : 1 <= f <= 3 -> Z.testbit f 0 = true -> ((m .& Z.lnot 3) .| f) .& 1 <> 0.
Proof.
  intros Hf Hb E. pose proof (f_equal (fun x => Z.testbit x 0) E) as H. cbv beta in H.
  rewrite Z.land_spec, Z.lor_spec, Hb, orb_true_r in H. discriminate H.
Qed.

Lemma flag_dec m f : 1 <= f <= 3 -> Z.testbit f 1 = true -> ((m .& Z.lnot 3) .| f) .& 2 <> 0.
Proof.
  intros Hf Hb E. pose proof (f_equal (fun x => Z.testbit x 1) E) as H. cbv beta in H.
  rewrite Z.land_spec, Z.lor_spec, Hb, orb_true_r in H. discriminate H.
Qed.

(** C18. For every key of 16, 24 or 32 bytes, [set_key] for encryption (or for
    both directions) succeeds and [encrypt] then computes the cipher of FIPS 197
    on every block: the table look-ups are the four transformations, and the
    loops of [set_key] the key expansion. *)
Theorem encrypt_is_aes (key : list Z) (nk : nat) (f : Z) (cx : aes) (inp out : list Z) :
  key_ok key nk f -> Z.testbit f 0 = true -> context_ok cx -> is_state inp -> length out = 16%nat ->
  exists cx', set_key key (4 * Z.of_nat nk) f cx = Some (aes_good, cx') /\
    encrypt inp out cx' = (aes_good, aes_cipher key nk inp).
Proof.
  intros Hk Hf Hcx Hin Hout. destruct (set_key_spec key nk f cx Hk Hcx) as (e & -> & He).
  eexists. split; [reflexivity |]. destruct Hk as (Hnk & _ & _ & Hf3).
  rewrite encrypt_run by auto using nr_cases, flag_enc. f_equal.
  pose proof (KeyExpansion_length key nk Hnk) as Hlen.
  unfold cipher_on, aes_cipher, Cipher. set (w := KeyExpansion key nk (nk + 6)) in *.
  rewrite (enc_state_cipher _ w) by (intros; apply expanded_round_key; [assumption | lia]).
  rewrite !(expanded_round_key e w) by (assumption || lia). reflexivity.
Qed.

Definition key_16 : list Z := [0x2b; 0x7e; 0x15; 0x16; 0x28; 0xae; 0xd2; 0xa6; 0xab; 0xf7; 0x15; 0x88; 0x09; 0xcf; 0x4f; 0x3c].
Definition block_16 : list Z := [0x32; 0x43; 0xf6; 0xa8; 0x88; 0x5a; 0x30; 0x8d; 0x31; 0x31; 0x98; 0xa2; 0xe0; 0x37; 0x07; 0x34].

Ltac bytes_ok := repeat constructor; vm_compute; congruence.

Lemma encrypt_is_aes_witness : exists cx',
  set_key key_16 16 enc cx0 = Some (aes_good, cx') /\
  encrypt block_16 (repeat 0 16) cx' = (aes_good, aes_cipher key_16 4 block_16).
Proof.
  apply (encrypt_is_aes key_16 4 enc cx0 block_16 (repeat 0 16)).
  - split; [now left |]. split; [bytes_ok |]. split; [cbn; lia | unfold enc; lia].
  - reflexivity.
  - split; [reflexivity |]. split; [reflexivity | unfold is_u8; cbn; lia].
  - split; [reflexivity | bytes_ok].
  - reflexivity.
Defined.

(** A pair of contexts for one key: a permutation of the blocks and its inverse. *)
Lemma cipher_pair key nk fe fd ce cd : key_ok key nk fe -> Z.testbit fe 0 = true -> context_ok ce ->
  key_ok key nk fd -> Z.testbit fd 1 = true -> context_ok cd ->
  exists ce' cd' E, set_key key (4 * Z.of_nat nk) fe ce = Some (aes_good, ce') /\
    set_key key (4 * Z.of_nat nk) fd cd = Some (aes_good, cd') /\
    forall inp, is_state inp -> is_state (E inp) /\
      forall out, length out = 16%nat ->
        encrypt inp out ce' = (aes_good, E inp) /\ decrypt (E inp) out cd' = (aes_good, inp).
Proof.
  intros Hke Hfe Hce Hkd Hfd Hcd.
  destruct (set_key_spec key nk fe ce Hke Hce) as (e & -> & He).
  destruct (set_key_spec key nk fd cd Hkd Hcd) as (e' & -> & He').
  destruct Hke as (Hnk & _ & _ & Hfe3), Hkd as (_ & _ & _ & Hfd3).
  assert (Hsame : forall i, (i <= nk + 6)%nat -> keys_of e i = keys_of e' i).
  { intros i Hi. pose proof (KeyExpansion_length key nk Hnk) as Hlen.
    rewrite (expanded_round_key e _ i He), (expanded_round_key e' _ i He') by lia. reflexivity. }
  eexists; eexists; exists (cipher_on (keys_of e) (nk + 6)). split; [reflexivity |]. split; [reflexivity |].
  intros inp Hin. split; [auto using cipher_on_state with aes |]. intros out Hout.
  split; [apply encrypt_run; auto using nr_cases, flag_enc |].
  assert (Hne : (fd =? enc) = false) by (apply Z.eqb_neq; intros ->; discriminate Hfd).
  rewrite Hne, decrypt_run by auto using nr_cases, flag_dec, cipher_on_state with aes. f_equal.
  rewrite (cipher_on_ext (keys_of e) (keys_of e')) by assumption.
  destruct Hcd as (_ & Hd & _). apply decrypt_cipher_on; [lia | change nc with 4; lia | assumption].
Qed.

(** C19. [decrypt] undoes [encrypt]: for every key of 16, 24 or 32 bytes, with
    one context keyed for encryption and one for decryption (or the same keyed
    for both), decrypting the encryption of any block gives it back. *)
Theorem decrypt_encrypt (key : list Z) (nk : nat) (fe fd : Z) (ce cd : aes) (inp out1 out2 : list Z) :
  key_ok key nk fe -> Z.testbit fe 0 = true -> context_ok ce ->
  key_ok key nk fd -> Z.testbit fd 1 = true -> context_ok cd ->
  is_state inp -> length out1 = 16%nat -> length out2 = 16%nat ->
  exists ce' cd' blk, set_key key (4 * Z.of_nat nk) fe ce = Some (aes_good, ce') /\
    set_key key (4 * Z.of_nat nk) fd cd = Some (aes_good, cd') /\
    encrypt inp out1 ce' = (aes_good, blk) /\ decrypt blk out2 cd' = (aes_good, inp).
Proof.
  intros Hke Hfe Hce Hkd Hfd Hcd Hin H1 H2.
  destruct (cipher_pair key nk fe fd ce cd Hke Hfe Hce Hkd Hfd Hcd) as (ce' & cd' & E & Se & Sd & HE).
  destruct (HE inp Hin) as [_ Hrun]. exists ce', cd', (E inp). split; [assumption |]. split; [assumption |].
  split; [apply (Hrun out1 H1) | apply (Hrun out2 H2)].
Qed.

Lemma decrypt_encrypt_witness : exists ce' cd' blk,
  set_key key_16 16 enc cx0 = Some (aes_good, ce') /\ set_key key_16 16 dec cx0 = Some (aes_good, cd') /\
  encrypt block_16 (repeat 0 16) ce' = (aes_good, blk) /\ decrypt blk (repeat 0 16) cd' = (aes_good, block_16).
Proof.
  assert (Hc : context_ok cx0) by (split; [reflexivity |]; split; [reflexivity | unfold is_u8; cbn; lia]).
  assert (Hk : forall f, 1 <= f <= 3 -> key_ok key_16 4 f)
    by (intros f Hf; split; [now left |]; split; [bytes_ok |]; split; [cbn; lia | exact Hf]).
  assert (Hb : is_state block_16) by (split; [reflexivity | bytes_ok]).
  apply (decrypt_encrypt key_16 4 enc dec cx0 cx0 block_16 (repeat 0 16) (repeat 0 16));
    try exact Hc; try exact Hb; try reflexivity; apply Hk; unfold enc, dec; lia.
Defined.

(** What [set_key] refuses: a key length other than 16, 24 or 32 bytes, or
    flags that ask for neither direction.  It then returns 0 and turns both
    directions off, so that [encrypt] and [decrypt] fail too; the length 0 only
    asks for the length of the current key. *)
Theorem set_key_refuses (key : list Z) (n f : Z) (cx : aes) (inp out : list Z) : 0 <= n ->
  (n <> 16 /\ n <> 24 /\ n <> 32) \/ (f .& 3 = 0) ->
  if n =? 0 then set_key key n f cx = Some (i16 (Nkey cx << 2), cx)
  else exists cx', set_key key n f cx = Some (aes_bad, cx') /\
    encrypt inp out cx' = (aes_bad, out) /\ decrypt inp out cx' = (aes_bad, out).
Proof.
  intros Hn Hbad. unfold set_key.
  assert (E : negb (n .& 7 =? 0) || (n <? 16) || (n >? 32) || ((f .& 1 =? 0) && (f .& 2 =? 0)) = true).
  { destruct Hbad as [(H16 & H24 & H32)|Hf].
    - destruct (Z.eqb_spec (n .& 7) 0) as [E7|]; [| reflexivity]. cbn [negb orb].
      change 7 with (2 ^ 3 - 1) in E7. rewrite land_mask in E7 by lia.
      destruct (Z.ltb_spec n 16); [reflexivity |]. destruct (Z.gtb_spec n 32); [reflexivity |].
      exfalso. change (2 ^ 3) with 8 in E7. Z.to_euclidean_division_equations. lia.
    - replace (f .& 1) with ((f .& 3) .& 1) by (rewrite <- Z.land_assoc; reflexivity).
      replace (f .& 2) with ((f .& 3) .& 2) by (rewrite <- Z.land_assoc; reflexivity).
      rewrite Hf. apply orb_true_r. }
  rewrite E. destruct (n =? 0); cbn [negb]; [reflexivity |]. eexists. split; [reflexivity |].
  unfold encrypt, decrypt. cbn [mode]. rewrite <- !Z.land_assoc.
  replace (Z.lnot 0x03 .& 0x01) with 0 by reflexivity. replace (Z.lnot 0x03 .& 0x02) with 0 by reflexivity.
  rewrite Z.land_0_r. auto.
Qed.

Lemma set_key_refuses_witness : exists cx',
  set_key key_16 20 enc cx0 = Some (aes_bad, cx') /\
  encrypt block_16 (repeat 0 16) cx' = (aes_bad, repeat 0 16) /\
  decrypt block_16 (repeat 0 16) cx' = (aes_bad, repeat 0 16).
Proof.
  apply (set_key_refuses key_16 20 enc cx0 block_16 (repeat 0 16)); [lia | left; lia].
Defined.
