(* ===== verification/Aesxam.v ===== *)
(** * Aesxam: encrypting and decrypting files

    Models [security/rijndael/aesxam.c]: the pseudo-random initialisation vector
    ([fillrand]), the encryption of a file in CBC mode with the length of its last
    block in the first byte ([encfile]), the decryption ([decfile]) and [main]
    with its parsing of the hexadecimal key.

    A file is the list of its bytes; reading is from the front of the bytes that
    are left, with the end-of-file flag of the stream.  Buffers are lists of
    sixteen bytes ([char]s are kept as bytes, of which only the low eight bits are
    used); their contents before the first assignment are parameters.  The output
    file has room for a number of bytes; a write beyond it is cut off and reported
    at once.

    Two properties of the platform matter.  [unsigned long] has 32 bits here, as
    [aes.h] demands of a [word]; with 64 bits the program writes past its buffers.
    And the key loop of [main] lets an [int] overflow, which C leaves undefined:
    the arithmetic of [int] is the parameter [arith], which is [None] where it is
    undefined. *)

From Stdlib Require Import ZArith Lia List Bool.
From S2P Require Import Prelude AesTables Aes AesSpec AesCipher.
Import ListNotations.

(** ** The initialisation vector *)

(** The static variables of [fillrand]. *)
Record rand_state := mkRand { ra0 : Z; ra1 : Z; rmt : Z; rcount : Z; rr : list Z }.

Definition rand_init : rand_state := mkRand 0 0 1 4 [0; 0; 0; 0].

(** [RAND(a,b)]: the value and the new [a] and [b]. *)
Definition RAND (a b : Z) : Z * Z * Z :=
  let a := u32 (36969 * (a .& 65535) + (a >> 16)) in
  let b := u32 (18000 * (b .& 65535) + (b >> 16)) in
  (u32 (u32 (a << 16) + b), a, b).

Definition rand_byte (st : rand_state) : Z * rand_state :=
  let st :=
    if rcount st =? 4 then
      let '(v, a, b) := RAND (ra0 st) (ra1 st) in
      mkRand a b (rmt st) 0 [bval v 0; bval v 1; bval v 2; bval v 3]
    else st in
  ((rr st).[rcount st], mkRand (ra0 st) (ra1 st) (rmt st) (rcount st + 1) (rr st)).

Fixpoint fill_loop (n : nat) (st : rand_state) : list Z * rand_state :=
  match n with
  | O => ([], st)
  | S m =>
      let '(b, st) := rand_byte st in
      let '(bs, st) := fill_loop m st in
      (b :: bs, st)
  end.

Definition fillrand (len : nat) (st : rand_state) : list Z * rand_state :=
  let st := if negb (rmt st =? 0) then mkRand 0xeaf3 0x35fe 0 (rcount st) (rr st) else st in
  fill_loop len st.

(** ** Streams and buffers *)

(** [fread(_, 1, n, fin)]: the bytes read, those left and the end-of-file flag. *)
Definition fread (n : nat) (rest : list Z) (eof : bool) : list Z * list Z * bool :=
  (firstn n rest, skipn n rest, eof || (length rest <? n)%nat).

(** Bytes stored in a buffer from an offset on. *)
Definition store (buf : list Z) (off : nat) (bytes : list Z) : list Z :=
  firstn off buf ++ bytes ++ skipn (off + length bytes) buf.

(** [fwrite] to a file with room for [room] bytes: whether all was written, and the
    file. *)
Definition fwrite (room : nat) (bytes out : list Z) : bool * list Z :=
  ((length out + length bytes <=? room)%nat, firstn room (out ++ bytes)).

(** [for(i = 0; i < 16; ++i) a[i] ^= b[i]] *)
Definition xor16 (a b : list Z) : list Z :=
  map (fun i => a.[i] .^ b.[i]) [0; 1; 2; 3; 4; 5; 6; 7; 8; 9; 10; 11; 12; 13; 14; 15].

(** ** Encryption *)

(** The variables of the loop of [encfile]: [i], [l], the buffers, the input left
    with its flag, and the output. *)
Record enc_vars := mkEnc {
  ei : nat; el : nat; einbuf : list Z; eoutbuf : list Z; erest : list Z; eeof : bool; eout : list Z
}.

(** The loop ends with its variables, or returns an error with the output. *)
Fixpoint enc_loop (fuel : nat) (room : nat) (cx : aes) (v : enc_vars) : option (enc_vars + Z * list Z) :=
  match fuel with
  | O => None
  | S f =>
      if eeof v then Some (inl v)
      else
        let '(bytes, rest, eof) := fread (el v) (erest v) (eeof v) in
        let inbuf := store (einbuf v) (16 - el v) bytes in
        let i := length bytes in
        if (i <? el v)%nat then Some (inl (mkEnc i (el v) inbuf (eoutbuf v) rest eof (eout v)))
        else
          let inbuf := xor16 inbuf (eoutbuf v) in
          let outbuf := snd (encrypt inbuf (eoutbuf v) cx) in
          let '(ok, out) := fwrite room outbuf (eout v) in
          if negb ok then Some (inr (-7, out))
          else enc_loop f room cx (mkEnc 16 16 inbuf outbuf rest eof out)
  end.

(** After the loop: the bytes of the last block, if any. *)
Definition enc_finish (room : nat) (cx : aes) (v : enc_vars) : Z * list Z :=
  let i := if (el v =? 15)%nat then S (ei v) else ei v in
  if negb (i =? 0)%nat then
    let inbuf := firstn i (einbuf v) ++ repeat 0 (16 - i) in
    let inbuf := xor16 inbuf (eoutbuf v) in
    let outbuf := snd (encrypt inbuf (eoutbuf v) cx) in
    let '(ok, out) := fwrite room outbuf (eout v) in
    if negb ok then (-8, out) else (0, out)
  else (0, eout v).

(** [encfile]: the result and the bytes written.  Whether the initialisation vector
    could be written is not tested. *)
Definition encfile (room : nat) (fin : list Z) (inbuf : list Z) (st : rand_state) (cx : aes) : option (Z * list Z) :=
  let '(outbuf, st) := fillrand 16 st in
  let '(_, out) := fwrite room outbuf [] in
  let '(b, st) := fillrand 1 st in
  let inbuf := store inbuf 0 b in
  let flen := Z.of_nat (length fin) in
  let inbuf := aset inbuf 0 ((flen .& 15) .| (inbuf.[0] .& 0xf0)) in
  let* r := enc_loop (S (length fin)) room cx (mkEnc 0 15 inbuf outbuf fin false out) in
  match r with
  | inl v => Some (enc_finish room cx v)
  | inr r => Some r
  end.

(** ** Decryption *)

Record dec_vars := mkDec {
  dl : nat; dbp1 : list Z; dbp2 : list Z; doutbuf : list Z; drest : list Z; dout : list Z
}.

Fixpoint dec_loop (fuel : nat) (room : nat) (cx : aes) (v : dec_vars) : option (dec_vars + Z * list Z) :=
  match fuel with
  | O => None
  | S f =>
      let '(bytes, rest, _) := fread 16 (drest v) false in
      let bp1 := store (dbp1 v) 0 bytes in
      if negb (length bytes =? 16)%nat
      then Some (inl (mkDec (dl v) bp1 (dbp2 v) (doutbuf v) rest (dout v)))
      else
        let '(ok, out) := fwrite room (firstn (dl v) (skipn (16 - dl v) (doutbuf v))) (dout v) in
        if negb ok then Some (inr (-11, out))
        else
          let outbuf := snd (decrypt bp1 (doutbuf v) cx) in
          let outbuf := xor16 outbuf (dbp2 v) in
          dec_loop f room cx (mkDec 16 (dbp2 v) bp1 outbuf rest out)
  end.

(** After the loop: the bytes of the last block, if any; [flen] is the length code. *)
Definition dec_finish (room : nat) (flen : Z) (v : dec_vars) : Z * list Z :=
  let l := if (dl v =? 15)%nat then 1%nat else 0%nat in
  let flen := flen + (1 - Z.of_nat l) in
  if negb (flen =? 0) then
    let '(ok, out) := fwrite room (firstn (Z.to_nat flen) (skipn l (doutbuf v))) (dout v) in
    if negb ok then (-12, out) else (0, out)
  else (0, dout v).

(** [decfile]: the result and the bytes written. *)
Definition decfile (room : nat) (fin inbuf1 inbuf2 outbuf : list Z) (cx : aes) : option (Z * list Z) :=
  let '(bytes, rest, _) := fread 16 fin false in
  if negb (length bytes =? 16)%nat then Some (9, [])
  else
    let inbuf1 := store inbuf1 0 bytes in
    let '(bytes, rest, _) := fread 16 rest false in
    let inbuf2 := store inbuf2 0 bytes in
    if negb (length bytes =? 0)%nat && negb (length bytes =? 16)%nat then Some (-10, [])
    else
      let outbuf := snd (decrypt inbuf2 outbuf cx) in
      let outbuf := xor16 outbuf inbuf1 in
      let flen := outbuf.[0] .& 15 in
      let* r := dec_loop (S (length fin)) room cx (mkDec 15 inbuf1 inbuf2 outbuf rest []) in
      match r with
      | inl v => Some (dec_finish room flen v)
      | inr r => Some r
      end.

(** ** The program *)

(** The arithmetic of [int]: the result of an operation whose value is [v], [None]
    where it is undefined.  As C defines it, and as compilers compute it that let
    an [int] wrap around. *)
Definition arith_c (v : Z) : option Z := if (- 2 ^ 31 <=? v) && (v <? 2 ^ 31) then Some v else None.

(** [by = (by << 4) + ch - '0'] and [by = (by << 4) + ch - 'A' + 10] *)
Definition add_digit (arith : Z -> option Z) (by_ ch : Z) : option Z :=
  let* x := arith (by_ << 4) in
  let* x := arith (x + ch) in
  if (48 <=? ch) && (ch <=? 57) then arith (x - 48)
  else let* x := arith (x - 65) in arith (x + 10).

(** How the loop over the key digits ends: with the error -2, with an overflow that
    is undefined, or with [i], the key and the characters left. *)
Inductive digits := Not_hex | Overflow | Digits (i : Z) (key rest : list Z).

Fixpoint key_digits (arith : Z -> option Z) (cp : list Z) (i by_ : Z) (key : list Z) : digits :=
  match cp with
  | [] => Digits i key []
  | c :: rest =>
      if i <? 64 then
        match hex_digit (toupper c) with
        | None => Not_hex
        | Some _ =>
            match add_digit arith by_ (toupper c) with
            | None => Overflow
            | Some by_ =>
                let key := if negb (i .& 1 =? 0) then aset key ((i + 1) / 2 - 1) (by_ .& 0xff) else key in
                key_digits arith rest (i + 1) by_ key
            end
        end
      else Digits i key cp
  end.

(** [main] with the direction and the key of the command line, the contents of
    the input file ([None] when it cannot be opened), the room in the output file
    ([None] when it cannot be opened), and the initial contents of the variables:
    the exit status and the output; [None] when the behaviour is undefined. *)
Definition aes_main (arith : Z -> option Z) (dir : Z) (cp : list Z) (fin : option (list Z)) (fout : option nat)
    (key inbuf1 inbuf2 outbuf : list Z) (ctx : aes) : option (Z * list Z) :=
  if negb (toupper dir =? 68) && negb (toupper dir =? 69) then Some (-1, [])
  else
    match key_digits arith cp 0 0 key with
    | Not_hex => Some (-2, [])
    | Overflow => None
    | Digits i key rest =>
        if negb (length rest =? 0)%nat then Some (-3, [])
        else if (i <? 32) || negb (i .& 15 =? 0) then Some (-4, [])
        else
          match fin with
          | None => Some (-5, [])
          | Some content =>
              match fout with
              | None => Some (-6, [])
              | Some room =>
                  if toupper dir =? 69 then
                    let* (_, ctx) := set_key key (i / 2) enc ctx in
                    encfile room content inbuf1 rand_init ctx
                  else
                    let* (_, ctx) := set_key key (i / 2) dec ctx in
                    decfile room content inbuf1 inbuf2 outbuf ctx
              end
          end
    end.

(** ** Writing *)





(** ** Cipher block chaining *)


Section CBC.

Variable E : list Z -> list Z.


Lemma is_state_bytes l : length l = 16%nat -> Forall is_u8 l -> is_state l.
Proof. now split. Qed.




Hypothesis HE : forall p, is_state p -> is_state (E p).


(** ** Encrypting a file *)

Variable cx : aes.
Hypothesis Henc : forall p out, is_state p -> length out = 16%nat -> snd (encrypt p out cx) = E p.









(** ** Decrypting a file *)

Variable cd : aes.
Hypothesis Hdec : forall p out, is_state p -> length out = 16%nat -> snd (decrypt (E p) out cd) = p.











End CBC.

(** ** The program *)








Definition hex_32 : list Z := repeat 55 16 ++ repeat 102 16.


(** As C defines the arithmetic of [int], the run with this key is undefined: the
    overflow comes with the ninth digit. *)
Lemma aesxam_key_overflow : aes_main arith_c 69 hex_32 (Some [1; 2; 3]) (Some 100%nat) (repeat 0 32) (repeat 0 16) (repeat 0 16) (repeat 0 16) cx0 = None.
Proof. vm_compute. reflexivity. Qed.
