(* ===== verification/ToastTables.v ===== *)
(** * The companding tables of toast
    (src/mibench/telecomm/gsm: src/toast_ulaw.c, src/toast_alaw.c)

    Generated from the sources: the sample of each u-law and A-law code, and the
    code of each sample, indexed by its upper 13 and 12 bits. *)

From Stdlib Require Import ZArith List.
From S2P Require Import Prelude.
Import ListNotations.

(** [u2s[256]] of toast_ulaw.c *)
Definition u2s : list Z :=
  [33280; 34308; 35336; 36364; 37393; 38421; 39449; 40477; 41505; 42534; 43562; 44590; 45618; 46647; 47675; 48703;
   49474; 49988; 50503; 51017; 51531; 52045; 52559; 53073; 53587; 54101; 54616; 55130; 55644; 56158; 56672; 57186;
   57572; 57829; 58086; 58343; 58600; 58857; 59114; 59371; 59628; 59885; 60142; 60399; 60656; 60913; 61171; 61428;
   61620; 61749; 61877; 62006; 62134; 62263; 62392; 62520; 62649; 62777; 62906; 63034; 63163; 63291; 63420; 63548;
   63645; 63709; 63773; 63838; 63902; 63966; 64030; 64095; 64159; 64223; 64287; 64352; 64416; 64480; 64544; 64609;
   64657; 64689; 64721; 64753; 64785; 64818; 64850; 64882; 64914; 64946; 64978; 65010; 65042; 65075; 65107; 65139;
   65163; 65179; 65195; 65211; 65227; 65243; 65259; 65275; 65291; 65308; 65324; 65340; 65356; 65372; 65388; 65404;
   65416; 65424; 65432; 65440; 65448; 65456; 65464; 65472; 65480; 65488; 65496; 65504; 65512; 65520; 65528; 0;
   32256; 31228; 30200; 29172; 28143; 27115; 26087; 25059; 24031; 23002; 21974; 20946; 19918; 18889; 17861; 16833;
   16062; 15548; 15033; 14519; 14005; 13491; 12977; 12463; 11949; 11435; 10920; 10406; 9892; 9378; 8864; 8350;
   7964; 7707; 7450; 7193; 6936; 6679; 6422; 6165; 5908; 5651; 5394; 5137; 4880; 4623; 4365; 4108;
   3916; 3787; 3659; 3530; 3402; 3273; 3144; 3016; 2887; 2759; 2630; 2502; 2373; 2245; 2116; 1988;
   1891; 1827; 1763; 1698; 1634; 1570; 1506; 1441; 1377; 1313; 1249; 1184; 1120; 1056; 992; 927;
   879; 847; 815; 783; 751; 718; 686; 654; 622; 590; 558; 526; 494; 461; 429; 397;
   373; 357; 341; 325; 309; 293; 277; 261; 245; 228; 212; 196; 180; 164; 148; 132;
   120; 112; 104; 96; 88; 80; 72; 64; 56; 48; 40; 32; 24; 16; 8; 0].

(** [s2u[8192]] of toast_ulaw.c *)
Definition s2u : list Z :=
  [255; 254; 253; 252; 251; 250; 249; 248; 247; 246; 245; 244; 243; 242; 241; 240; 239; 239; 238; 238; 237; 237; 236; 236; 235; 235; 234; 234; 233; 233; 232; 232;
   231; 231; 230; 230; 229; 229; 228; 228; 227; 227; 226; 226; 225; 225; 224; 224; 223; 223; 223; 223; 222; 222; 222; 222; 221; 221; 221; 221; 220; 220; 220; 220;
   219; 219; 219; 219; 218; 218; 218; 218; 217; 217; 217; 217; 216; 216; 216; 216; 215; 215; 215; 215; 214; 214; 214; 214; 213; 213; 213; 213; 212; 212; 212; 212;
   211; 211; 211; 211; 210; 210; 210; 210; 209; 209; 209; 209; 208; 208; 208; 208; 207; 207; 207; 207; 207; 207; 207; 207; 206; 206; 206; 206; 206; 206; 206; 206;
   205; 205; 205; 205; 205; 205; 205; 205; 204; 204; 204; 204; 204; 204; 204; 204; 203; 203; 203; 203; 203; 203; 203; 203; 202; 202; 202; 202; 202; 202; 202; 202;
   201; 201; 201; 201; 201; 201; 201; 201; 200; 200; 200; 200; 200; 200; 200; 200; 199; 199; 199; 199; 199; 199; 199; 199; 198; 198; 198; 198; 198; 198; 198; 198;
   197; 197; 197; 197; 197; 197; 197; 197; 196; 196; 196; 196; 196; 196; 196; 196; 195; 195; 195; 195; 195; 195; 195; 195; 195; 194; 194; 194; 194; 194; 194; 194;
   194; 193; 193; 193; 193; 193; 193; 193; 193; 192; 192; 192; 192; 192; 192; 192; 192; 191; 191; 191; 191; 191; 191; 191; 191; 191; 191; 191; 191; 191; 191; 191;
   191; 190; 190; 190; 190; 190; 190; 190; 190; 190; 190; 190; 190; 190; 190; 190; 190; 189; 189; 189; 189; 189; 189; 189; 189; 189; 189; 189; 189; 189; 189; 189;
   189; 188; 188; 188; 188; 188; 188; 188; 188; 188; 188; 188; 188; 188; 188; 188; 188; 187; 187; 187; 187; 187; 187; 187; 187; 187; 187; 187; 187; 187; 187; 187;
   187; 186; 186; 186; 186; 186; 186; 186; 186; 186; 186; 186; 186; 186; 186; 186; 186; 185; 185; 185; 185; 185; 185; 185; 185; 185; 185; 185; 185; 185; 185; 185;
   185; 184; 184; 184; 184; 184; 184; 184; 184; 184; 184; 184; 184; 184; 184; 184; 184; 183; 183; 183; 183; 183; 183; 183; 183; 183; 183; 183; 183; 183; 183; 183;
   183; 182; 182; 182; 182; 182; 182; 182; 182; 182; 182; 182; 182; 182; 182; 182; 182; 181; 181; 181; 181; 181; 181; 181; 181; 181; 181; 181; 181; 181; 181; 181;
   181; 180; 180; 180; 180; 180; 180; 180; 180; 180; 180; 180; 180; 180; 180; 180; 180; 179; 179; 179; 179; 179; 179; 179; 179; 179; 179; 179; 179; 179; 179; 179;
   179; 178; 178; 178; 178; 178; 178; 178; 178; 178; 178; 178; 178; 178; 178; 178; 178; 178; 177; 177; 177; 177; 177; 177; 177; 177; 177; 177; 177; 177; 177; 177;
   177; 177; 176; 176; 176; 176; 176; 176; 176; 176; 176; 176; 176; 176; 176; 176; 176; 176; 175; 175; 175; 175; 175; 175; 175; 175; 175; 175; 175; 175; 175; 175;
   175; 175; 175; 175; 175; 175; 175; 175; 175; 175; 175; 175; 175; 175; 175; 175; 175; 175; 174; 174; 174; 174; 174; 174; 174; 174; 174; 174; 174; 174; 174; 174;
   174; 174; 174; 174; 174; 174; 174; 174; 174; 174; 174; 174; 174; 174; 174; 174; 174; 174; 173; 173; 173; 173; 173; 173; 173; 173; 173; 173; 173; 173; 173; 173;
   173; 173; 173; 173; 173; 173; 173; 173; 173; 173; 173; 173; 173; 173; 173; 173; 173; 173; 172; 172; 172; 172; 172; 172; 172; 172; 172; 172; 172; 172; 172; 172;
   172; 172; 172; 172; 172; 172; 172; 172; 172; 172; 172; 172; 172; 172; 172; 172; 172; 172; 171; 171; 171; 171; 171; 171; 171; 171; 171; 171; 171; 171; 171; 171;
   171; 171; 171; 171; 171; 171; 171; 171; 171; 171; 171; 171; 171; 171; 171; 171; 171; 171; 170; 170; 170; 170; 170; 170; 170; 170; 170; 170; 170; 170; 170; 170;
   170; 170; 170; 170; 170; 170; 170; 170; 170; 170; 170; 170; 170; 170; 170; 170; 170; 170; 169; 169; 169; 169; 169; 169; 169; 169; 169; 169; 169; 169; 169; 169;
   169; 169; 169; 169; 169; 169; 169; 169; 169; 169; 169; 169; 169; 169; 169; 169; 169; 169; 169; 168; 168; 168; 168; 168; 168; 168; 168; 168; 168; 168; 168; 168;
   168; 168; 168; 168; 168; 168; 168; 168; 168; 168; 168; 168; 168; 168; 168; 168; 168; 168; 168; 167; 167; 167; 167; 167; 167; 167; 167; 167; 167; 167; 167; 167;
   167; 167; 167; 167; 167; 167; 167; 167; 167; 167; 167; 167; 167; 167; 167; 167; 167; 167; 167; 166; 166; 166; 166; 166; 166; 166; 166; 166; 166; 166; 166; 166;
   166; 166; 166; 166; 166; 166; 166; 166; 166; 166; 166; 166; 166; 166; 166; 166; 166; 166; 166; 165; 165; 165; 165; 165; 165; 165; 165; 165; 165; 165; 165; 165;
   165; 165; 165; 165; 165; 165; 165; 165; 165; 165; 165; 165; 165; 165; 165; 165; 165; 165; 165; 164; 164; 164; 164; 164; 164; 164; 164; 164; 164; 164; 164; 164;
   164; 164; 164; 164; 164; 164; 164; 164; 164; 164; 164; 164; 164; 164; 164; 164; 164; 164; 164; 163; 163; 163; 163; 163; 163; 163; 163; 163; 163; 163; 163; 163;
   163; 163; 163; 163; 163; 163; 163; 163; 163; 163; 163; 163; 163; 163; 163; 163; 163; 163; 163; 162; 162; 162; 162; 162; 162; 162; 162; 162; 162; 162; 162; 162;
   162; 162; 162; 162; 162; 162; 162; 162; 162; 162; 162; 162; 162; 162; 162; 162; 162; 162; 162; 162; 161; 161; 161; 161; 161; 161; 161; 161; 161; 161; 161; 161;
   161; 161; 161; 161; 161; 161; 161; 161; 161; 161; 161; 161; 161; 161; 161; 161; 161; 161; 161; 161; 160; 160; 160; 160; 160; 160; 160; 160; 160; 160; 160; 160;
   160; 160; 160; 160; 160; 160; 160; 160; 160; 160; 160; 160; 160; 160; 160; 160; 160; 160; 160; 160; 159; 159; 159; 159; 159; 159; 159; 159; 159; 159; 159; 159;
   159; 159; 159; 159; 159; 159; 159; 159; 159; 159; 159; 159; 159; 159; 159; 159; 159; 159; 159; 159; 159; 159; 159; 159; 159; 159; 159; 159; 159; 159; 159; 159;
   159; 159; 159; 159; 159; 159; 159; 159; 159; 159; 159; 159; 159; 159; 159; 159; 159; 159; 159; 159; 158; 158; 158; 158; 158; 158; 158; 158; 158; 158; 158; 158;
   158; 158; 158; 158; 158; 158; 158; 158; 158; 158; 158; 158; 158; 158; 158; 158; 158; 158; 158; 158; 158; 158; 158; 158; 158; 158; 158; 158; 158; 158; 158; 158;
   158; 158; 158; 158; 158; 158; 158; 158; 158; 158; 158; 158; 158; 158; 158; 158; 158; 158; 158; 158; 157; 157; 157; 157; 157; 157; 157; 157; 157; 157; 157; 157;
   157; 157; 157; 157; 157; 157; 157; 157; 157; 157; 157; 157; 157; 157; 157; 157; 157; 157; 157; 157; 157; 157; 157; 157; 157; 157; 157; 157; 157; 157; 157; 157;
   157; 157; 157; 157; 157; 157; 157; 157; 157; 157; 157; 157; 157; 157; 157; 157; 157; 157; 157; 157; 157; 156; 156; 156; 156; 156; 156; 156; 156; 156; 156; 156;
   156; 156; 156; 156; 156; 156; 156; 156; 156; 156; 156; 156; 156; 156; 156; 156; 156; 156; 156; 156; 156; 156; 156; 156; 156; 156; 156; 156; 156; 156; 156; 156;
   156; 156; 156; 156; 156; 156; 156; 156; 156; 156; 156; 156; 156; 156; 156; 156; 156; 156; 156; 156; 156; 155; 155; 155; 155; 155; 155; 155; 155; 155; 155; 155;
   155; 155; 155; 155; 155; 155; 155; 155; 155; 155; 155; 155; 155; 155; 155; 155; 155; 155; 155; 155; 155; 155; 155; 155; 155; 155; 155; 155; 155; 155; 155; 155;
   155; 155; 155; 155; 155; 155; 155; 155; 155; 155; 155; 155; 155; 155; 155; 155; 155; 155; 155; 155; 155; 154; 154; 154; 154; 154; 154; 154; 154; 154; 154; 154;
   154; 154; 154; 154; 154; 154; 154; 154; 154; 154; 154; 154; 154; 154; 154; 154; 154; 154; 154; 154; 154; 154; 154; 154; 154; 154; 154; 154; 154; 154; 154; 154;
   154; 154; 154; 154; 154; 154; 154; 154; 154; 154; 154; 154; 154; 154; 154; 154; 154; 154; 154; 154; 154; 153; 153; 153; 153; 153; 153; 153; 153; 153; 153; 153;
   153; 153; 153; 153; 153; 153; 153; 153; 153; 153; 153; 153; 153; 153; 153; 153; 153; 153; 153; 153; 153; 153; 153; 153; 153; 153; 153; 153; 153; 153; 153; 153;
   153; 153; 153; 153; 153; 153; 153; 153; 153; 153; 153; 153; 153; 153; 153; 153; 153; 153; 153; 153; 153; 153; 152; 152; 152; 152; 152; 152; 152; 152; 152; 152;
   152; 152; 152; 152; 152; 152; 152; 152; 152; 152; 152; 152; 152; 152; 152; 152; 152; 152; 152; 152; 152; 152; 152; 152; 152; 152; 152; 152; 152; 152; 152; 152;
   152; 152; 152; 152; 152; 152; 152; 152; 152; 152; 152; 152; 152; 152; 152; 152; 152; 152; 152; 152; 152; 152; 151; 151; 151; 151; 151; 151; 151; 151; 151; 151;
   151; 151; 151; 151; 151; 151; 151; 151; 151; 151; 151; 151; 151; 151; 151; 151; 151; 151; 151; 151; 151; 151; 151; 151; 151; 151; 151; 151; 151; 151; 151; 151;
   151; 151; 151; 151; 151; 151; 151; 151; 151; 151; 151; 151; 151; 151; 151; 151; 151; 151; 151; 151; 151; 151; 150; 150; 150; 150; 150; 150; 150; 150; 150; 150;
   150; 150; 150; 150; 150; 150; 150; 150; 150; 150; 150; 150; 150; 150; 150; 150; 150; 150; 150; 150; 150; 150; 150; 150; 150; 150; 150; 150; 150; 150; 150; 150;
   150; 150; 150; 150; 150; 150; 150; 150; 150; 150; 150; 150; 150; 150; 150; 150; 150; 150; 150; 150; 150; 150; 149; 149; 149; 149; 149; 149; 149; 149; 149; 149;
   149; 149; 149; 149; 149; 149; 149; 149; 149; 149; 149; 149; 149; 149; 149; 149; 149; 149; 149; 149; 149; 149; 149; 149; 149; 149; 149; 149; 149; 149; 149; 149;
   149; 149; 149; 149; 149; 149; 149; 149; 149; 149; 149; 149; 149; 149; 149; 149; 149; 149; 149; 149; 149; 149; 149; 148; 148; 148; 148; 148; 148; 148; 148; 148;
   148; 148; 148; 148; 148; 148; 148; 148; 148; 148; 148; 148; 148; 148; 148; 148; 148; 148; 148; 148; 148; 148; 148; 148; 148; 148; 148; 148; 148; 148; 148; 148;
   148; 148; 148; 148; 148; 148; 148; 148; 148; 148; 148; 148; 148; 148; 148; 148; 148; 148; 148; 148; 148; 148; 148; 147; 147; 147; 147; 147; 147; 147; 147; 147;
   147; 147; 147; 147; 147; 147; 147; 147; 147; 147; 147; 147; 147; 147; 147; 147; 147; 147; 147; 147; 147; 147; 147; 147; 147; 147; 147; 147; 147; 147; 147; 147;
   147; 147; 147; 147; 147; 147; 147; 147; 147; 147; 147; 147; 147; 147; 147; 147; 147; 147; 147; 147; 147; 147; 147; 146; 146; 146; 146; 146; 146; 146; 146; 146;
   146; 146; 146; 146; 146; 146; 146; 146; 146; 146; 146; 146; 146; 146; 146; 146; 146; 146; 146; 146; 146; 146; 146; 146; 146; 146; 146; 146; 146; 146; 146; 146;
   146; 146; 146; 146; 146; 146; 146; 146; 146; 146; 146; 146; 146; 146; 146; 146; 146; 146; 146; 146; 146; 146; 146; 145; 145; 145; 145; 145; 145; 145; 145; 145;
   145; 145; 145; 145; 145; 145; 145; 145; 145; 145; 145; 145; 145; 145; 145; 145; 145; 145; 145; 145; 145; 145; 145; 145; 145; 145; 145; 145; 145; 145; 145; 145;
   145; 145; 145; 145; 145; 145; 145; 145; 145; 145; 145; 145; 145; 145; 145; 145; 145; 145; 145; 145; 145; 145; 145; 145; 144; 144; 144; 144; 144; 144; 144; 144;
   144; 144; 144; 144; 144; 144; 144; 144; 144; 144; 144; 144; 144; 144; 144; 144; 144; 144; 144; 144; 144; 144; 144; 144; 144; 144; 144; 144; 144; 144; 144; 144;
   144; 144; 144; 144; 144; 144; 144; 144; 144; 144; 144; 144; 144; 144; 144; 144; 144; 144; 144; 144; 144; 144; 144; 144; 143; 143; 143; 143; 143; 143; 143; 143;
   143; 143; 143; 143; 143; 143; 143; 143; 143; 143; 143; 143; 143; 143; 143; 143; 143; 143; 143; 143; 143; 143; 143; 143; 143; 143; 143; 143; 143; 143; 143; 143;
   143; 143; 143; 143; 143; 143; 143; 143; 143; 143; 143; 143; 143; 143; 143; 143; 143; 143; 143; 143; 143; 143; 143; 143; 143; 143; 143; 143; 143; 143; 143; 143;
   143; 143; 143; 143; 143; 143; 143; 143; 143; 143; 143; 143; 143; 143; 143; 143; 143; 143; 143; 143; 143; 143; 143; 143; 143; 143; 143; 143; 143; 143; 143; 143;
   143; 143; 143; 143; 143; 143; 143; 143; 143; 143; 143; 143; 143; 143; 143; 143; 143; 143; 143; 143; 143; 143; 143; 143; 143; 142; 142; 142; 142; 142; 142; 142;
   142; 142; 142; 142; 142; 142; 142; 142; 142; 142; 142; 142; 142; 142; 142; 142; 142; 142; 142; 142; 142; 142; 142; 142; 142; 142; 142; 142; 142; 142; 142; 142;
   142; 142; 142; 142; 142; 142; 142; 142; 142; 142; 142; 142; 142; 142; 142; 142; 142; 142; 142; 142; 142; 142; 142; 142; 142; 142; 142; 142; 142; 142; 142; 142;
   142; 142; 142; 142; 142; 142; 142; 142; 142; 142; 142; 142; 142; 142; 142; 142; 142; 142; 142; 142; 142; 142; 142; 142; 142; 142; 142; 142; 142; 142; 142; 142;
   142; 142; 142; 142; 142; 142; 142; 142; 142; 142; 142; 142; 142; 142; 142; 142; 142; 142; 142; 142; 142; 142; 142; 142; 142; 141; 141; 141; 141; 141; 141; 141;
   141; 141; 141; 141; 141; 141; 141; 141; 141; 141; 141; 141; 141; 141; 141; 141; 141; 141; 141; 141; 141; 141; 141; 141; 141; 141; 141; 141; 141; 141; 141; 141;
   141; 141; 141; 141; 141; 141; 141; 141; 141; 141; 141; 141; 141; 141; 141; 141; 141; 141; 141; 141; 141; 141; 141; 141; 141; 141; 141; 141; 141; 141; 141; 141;
   141; 141; 141; 141; 141; 141; 141; 141; 141; 141; 141; 141; 141; 141; 141; 141; 141; 141; 141; 141; 141; 141; 141; 141; 141; 141; 141; 141; 141; 141; 141; 141;
   141; 141; 141; 141; 141; 141; 141; 141; 141; 141; 141; 141; 141; 141; 141; 141; 141; 141; 141; 141; 141; 141; 141; 141; 141; 141; 140; 140; 140; 140; 140; 140;
   140; 140; 140; 140; 140; 140; 140; 140; 140; 140; 140; 140; 140; 140; 140; 140; 140; 140; 140; 140; 140; 140; 140; 140; 140; 140; 140; 140; 140; 140; 140; 140;
   140; 140; 140; 140; 140; 140; 140; 140; 140; 140; 140; 140; 140; 140; 140; 140; 140; 140; 140; 140; 140; 140; 140; 140; 140; 140; 140; 140; 140; 140; 140; 140;
   140; 140; 140; 140; 140; 140; 140; 140; 140; 140; 140; 140; 140; 140; 140; 140; 140; 140; 140; 140; 140; 140; 140; 140; 140; 140; 140; 140; 140; 140; 140; 140;
   140; 140; 140; 140; 140; 140; 140; 140; 140; 140; 140; 140; 140; 140; 140; 140; 140; 140; 140; 140; 140; 140; 140; 140; 140; 140; 139; 139; 139; 139; 139; 139;
   139; 139; 139; 139; 139; 139; 139; 139; 139; 139; 139; 139; 139; 139; 139; 139; 139; 139; 139; 139; 139; 139; 139; 139; 139; 139; 139; 139; 139; 139; 139; 139;
   139; 139; 139; 139; 139; 139; 139; 139; 139; 139; 139; 139; 139; 139; 139; 139; 139; 139; 139; 139; 139; 139; 139; 139; 139; 139; 139; 139; 139; 139; 139; 139;
   139; 139; 139; 139; 139; 139; 139; 139; 139; 139; 139; 139; 139; 139; 139; 139; 139; 139; 139; 139; 139; 139; 139; 139; 139; 139; 139; 139; 139; 139; 139; 139;
   139; 139; 139; 139; 139; 139; 139; 139; 139; 139; 139; 139; 139; 139; 139; 139; 139; 139; 139; 139; 139; 139; 139; 139; 139; 139; 139; 138; 138; 138; 138; 138;
   138; 138; 138; 138; 138; 138; 138; 138; 138; 138; 138; 138; 138; 138; 138; 138; 138; 138; 138; 138; 138; 138; 138; 138; 138; 138; 138; 138; 138; 138; 138; 138;
   138; 138; 138; 138; 138; 138; 138; 138; 138; 138; 138; 138; 138; 138; 138; 138; 138; 138; 138; 138; 138; 138; 138; 138; 138; 138; 138; 138; 138; 138; 138; 138;
   138; 138; 138; 138; 138; 138; 138; 138; 138; 138; 138; 138; 138; 138; 138; 138; 138; 138; 138; 138; 138; 138; 138; 138; 138; 138; 138; 138; 138; 138; 138; 138;
   138; 138; 138; 138; 138; 138; 138; 138; 138; 138; 138; 138; 138; 138; 138; 138; 138; 138; 138; 138; 138; 138; 138; 138; 138; 138; 138; 137; 137; 137; 137; 137;
   137; 137; 137; 137; 137; 137; 137; 137; 137; 137; 137; 137; 137; 137; 137; 137; 137; 137; 137; 137; 137; 137; 137; 137; 137; 137; 137; 137; 137; 137; 137; 137;
   137; 137; 137; 137; 137; 137; 137; 137; 137; 137; 137; 137; 137; 137; 137; 137; 137; 137; 137; 137; 137; 137; 137; 137; 137; 137; 137; 137; 137; 137; 137; 137;
   137; 137; 137; 137; 137; 137; 137; 137; 137; 137; 137; 137; 137; 137; 137; 137; 137; 137; 137; 137; 137; 137; 137; 137; 137; 137; 137; 137; 137; 137; 137; 137;
   137; 137; 137; 137; 137; 137; 137; 137; 137; 137; 137; 137; 137; 137; 137; 137; 137; 137; 137; 137; 137; 137; 137; 137; 137; 137; 137; 137; 136; 136; 136; 136;
   136; 136; 136; 136; 136; 136; 136; 136; 136; 136; 136; 136; 136; 136; 136; 136; 136; 136; 136; 136; 136; 136; 136; 136; 136; 136; 136; 136; 136; 136; 136; 136;
   136; 136; 136; 136; 136; 136; 136; 136; 136; 136; 136; 136; 136; 136; 136; 136; 136; 136; 136; 136; 136; 136; 136; 136; 136; 136; 136; 136; 136; 136; 136; 136;
   136; 136; 136; 136; 136; 136; 136; 136; 136; 136; 136; 136; 136; 136; 136; 136; 136; 136; 136; 136; 136; 136; 136; 136; 136; 136; 136; 136; 136; 136; 136; 136;
   136; 136; 136; 136; 136; 136; 136; 136; 136; 136; 136; 136; 136; 136; 136; 136; 136; 136; 136; 136; 136; 136; 136; 136; 136; 136; 136; 136; 135; 135; 135; 135;
   135; 135; 135; 135; 135; 135; 135; 135; 135; 135; 135; 135; 135; 135; 135; 135; 135; 135; 135; 135; 135; 135; 135; 135; 135; 135; 135; 135; 135; 135; 135; 135;
   135; 135; 135; 135; 135; 135; 135; 135; 135; 135; 135; 135; 135; 135; 135; 135; 135; 135; 135; 135; 135; 135; 135; 135; 135; 135; 135; 135; 135; 135; 135; 135;
   135; 135; 135; 135; 135; 135; 135; 135; 135; 135; 135; 135; 135; 135; 135; 135; 135; 135; 135; 135; 135; 135; 135; 135; 135; 135; 135; 135; 135; 135; 135; 135;
   135; 135; 135; 135; 135; 135; 135; 135; 135; 135; 135; 135; 135; 135; 135; 135; 135; 135; 135; 135; 135; 135; 135; 135; 135; 135; 135; 135; 135; 134; 134; 134;
   134; 134; 134; 134; 134; 134; 134; 134; 134; 134; 134; 134; 134; 134; 134; 134; 134; 134; 134; 134; 134; 134; 134; 134; 134; 134; 134; 134; 134; 134; 134; 134;
   134; 134; 134; 134; 134; 134; 134; 134; 134; 134; 134; 134; 134; 134; 134; 134; 134; 134; 134; 134; 134; 134; 134; 134; 134; 134; 134; 134; 134; 134; 134; 134;
   134; 134; 134; 134; 134; 134; 134; 134; 134; 134; 134; 134; 134; 134; 134; 134; 134; 134; 134; 134; 134; 134; 134; 134; 134; 134; 134; 134; 134; 134; 134; 134;
   134; 134; 134; 134; 134; 134; 134; 134; 134; 134; 134; 134; 134; 134; 134; 134; 134; 134; 134; 134; 134; 134; 134; 134; 134; 134; 134; 134; 134; 133; 133; 133;
   133; 133; 133; 133; 133; 133; 133; 133; 133; 133; 133; 133; 133; 133; 133; 133; 133; 133; 133; 133; 133; 133; 133; 133; 133; 133; 133; 133; 133; 133; 133; 133;
   133; 133; 133; 133; 133; 133; 133; 133; 133; 133; 133; 133; 133; 133; 133; 133; 133; 133; 133; 133; 133; 133; 133; 133; 133; 133; 133; 133; 133; 133; 133; 133;
   133; 133; 133; 133; 133; 133; 133; 133; 133; 133; 133; 133; 133; 133; 133; 133; 133; 133; 133; 133; 133; 133; 133; 133; 133; 133; 133; 133; 133; 133; 133; 133;
   133; 133; 133; 133; 133; 133; 133; 133; 133; 133; 133; 133; 133; 133; 133; 133; 133; 133; 133; 133; 133; 133; 133; 133; 133; 133; 133; 133; 133; 133; 132; 132;
   132; 132; 132; 132; 132; 132; 132; 132; 132; 132; 132; 132; 132; 132; 132; 132; 132; 132; 132; 132; 132; 132; 132; 132; 132; 132; 132; 132; 132; 132; 132; 132;
   132; 132; 132; 132; 132; 132; 132; 132; 132; 132; 132; 132; 132; 132; 132; 132; 132; 132; 132; 132; 132; 132; 132; 132; 132; 132; 132; 132; 132; 132; 132; 132;
   132; 132; 132; 132; 132; 132; 132; 132; 132; 132; 132; 132; 132; 132; 132; 132; 132; 132; 132; 132; 132; 132; 132; 132; 132; 132; 132; 132; 132; 132; 132; 132;
   132; 132; 132; 132; 132; 132; 132; 132; 132; 132; 132; 132; 132; 132; 132; 132; 132; 132; 132; 132; 132; 132; 132; 132; 132; 132; 132; 132; 132; 132; 131; 131;
   131; 131; 131; 131; 131; 131; 131; 131; 131; 131; 131; 131; 131; 131; 131; 131; 131; 131; 131; 131; 131; 131; 131; 131; 131; 131; 131; 131; 131; 131; 131; 131;
   131; 131; 131; 131; 131; 131; 131; 131; 131; 131; 131; 131; 131; 131; 131; 131; 131; 131; 131; 131; 131; 131; 131; 131; 131; 131; 131; 131; 131; 131; 131; 131;
   131; 131; 131; 131; 131; 131; 131; 131; 131; 131; 131; 131; 131; 131; 131; 131; 131; 131; 131; 131; 131; 131; 131; 131; 131; 131; 131; 131; 131; 131; 131; 131;
   131; 131; 131; 131; 131; 131; 131; 131; 131; 131; 131; 131; 131; 131; 131; 131; 131; 131; 131; 131; 131; 131; 131; 131; 131; 131; 131; 131; 131; 131; 131; 130;
   130; 130; 130; 130; 130; 130; 130; 130; 130; 130; 130; 130; 130; 130; 130; 130; 130; 130; 130; 130; 130; 130; 130; 130; 130; 130; 130; 130; 130; 130; 130; 130;
   130; 130; 130; 130; 130; 130; 130; 130; 130; 130; 130; 130; 130; 130; 130; 130; 130; 130; 130; 130; 130; 130; 130; 130; 130; 130; 130; 130; 130; 130; 130; 130;
   130; 130; 130; 130; 130; 130; 130; 130; 130; 130; 130; 130; 130; 130; 130; 130; 130; 130; 130; 130; 130; 130; 130; 130; 130; 130; 130; 130; 130; 130; 130; 130;
   130; 130; 130; 130; 130; 130; 130; 130; 130; 130; 130; 130; 130; 130; 130; 130; 130; 130; 130; 130; 130; 130; 130; 130; 130; 130; 130; 130; 130; 130; 130; 129;
   129; 129; 129; 129; 129; 129; 129; 129; 129; 129; 129; 129; 129; 129; 129; 129; 129; 129; 129; 129; 129; 129; 129; 129; 129; 129; 129; 129; 129; 129; 129; 129;
   129; 129; 129; 129; 129; 129; 129; 129; 129; 129; 129; 129; 129; 129; 129; 129; 129; 129; 129; 129; 129; 129; 129; 129; 129; 129; 129; 129; 129; 129; 129; 129;
   129; 129; 129; 129; 129; 129; 129; 129; 129; 129; 129; 129; 129; 129; 129; 129; 129; 129; 129; 129; 129; 129; 129; 129; 129; 129; 129; 129; 129; 129; 129; 129;
   129; 129; 129; 129; 129; 129; 129; 129; 129; 129; 129; 129; 129; 129; 129; 129; 129; 129; 129; 129; 129; 129; 129; 129; 129; 129; 129; 129; 129; 129; 129; 129;
   128; 128; 128; 128; 128; 128; 128; 128; 128; 128; 128; 128; 128; 128; 128; 128; 128; 128; 128; 128; 128; 128; 128; 128; 128; 128; 128; 128; 128; 128; 128; 128;
   128; 128; 128; 128; 128; 128; 128; 128; 128; 128; 128; 128; 128; 128; 128; 128; 128; 128; 128; 128; 128; 128; 128; 128; 128; 128; 128; 128; 128; 128; 128; 128;
   128; 128; 128; 128; 128; 128; 128; 128; 128; 128; 128; 128; 128; 128; 128; 128; 128; 128; 128; 128; 128; 128; 128; 128; 128; 128; 128; 128; 128; 128; 128; 128;
   128; 128; 128; 128; 128; 128; 128; 128; 128; 128; 128; 128; 128; 128; 128; 128; 128; 128; 128; 128; 128; 128; 128; 128; 128; 128; 128; 128; 128; 128; 128; 128;
   0; 0; 0; 0; 0; 0; 0; 0; 0; 0; 0; 0; 0; 0; 0; 0; 0; 0; 0; 0; 0; 0; 0; 0; 0; 0; 0; 0; 0; 0; 0; 0;
   0; 0; 0; 0; 0; 0; 0; 0; 0; 0; 0; 0; 0; 0; 0; 0; 0; 0; 0; 0; 0; 0; 0; 0; 0; 0; 0; 0; 0; 0; 0; 0;
   0; 0; 0; 0; 0; 0; 0; 0; 0; 0; 0; 0; 0; 0; 0; 0; 0; 0; 0; 0; 0; 0; 0; 0; 0; 0; 0; 0; 0; 0; 0; 0;
   0; 0; 0; 0; 0; 0; 0; 0; 0; 0; 0; 0; 0; 0; 0; 0; 0; 0; 0; 0; 0; 0; 0; 0; 0; 0; 0; 0; 0; 0; 0; 0;
   1; 1; 1; 1; 1; 1; 1; 1; 1; 1; 1; 1; 1; 1; 1; 1; 1; 1; 1; 1; 1; 1; 1; 1; 1; 1; 1; 1; 1; 1; 1; 1;
   1; 1; 1; 1; 1; 1; 1; 1; 1; 1; 1; 1; 1; 1; 1; 1; 1; 1; 1; 1; 1; 1; 1; 1; 1; 1; 1; 1; 1; 1; 1; 1;
   1; 1; 1; 1; 1; 1; 1; 1; 1; 1; 1; 1; 1; 1; 1; 1; 1; 1; 1; 1; 1; 1; 1; 1; 1; 1; 1; 1; 1; 1; 1; 1;
   1; 1; 1; 1; 1; 1; 1; 1; 1; 1; 1; 1; 1; 1; 1; 1; 1; 1; 1; 1; 1; 1; 1; 1; 1; 1; 1; 1; 1; 1; 1; 1;
   1; 2; 2; 2; 2; 2; 2; 2; 2; 2; 2; 2; 2; 2; 2; 2; 2; 2; 2; 2; 2; 2; 2; 2; 2; 2; 2; 2; 2; 2; 2; 2;
   2; 2; 2; 2; 2; 2; 2; 2; 2; 2; 2; 2; 2; 2; 2; 2; 2; 2; 2; 2; 2; 2; 2; 2; 2; 2; 2; 2; 2; 2; 2; 2;
   2; 2; 2; 2; 2; 2; 2; 2; 2; 2; 2; 2; 2; 2; 2; 2; 2; 2; 2; 2; 2; 2; 2; 2; 2; 2; 2; 2; 2; 2; 2; 2;
   2; 2; 2; 2; 2; 2; 2; 2; 2; 2; 2; 2; 2; 2; 2; 2; 2; 2; 2; 2; 2; 2; 2; 2; 2; 2; 2; 2; 2; 2; 2; 2;
   2; 3; 3; 3; 3; 3; 3; 3; 3; 3; 3; 3; 3; 3; 3; 3; 3; 3; 3; 3; 3; 3; 3; 3; 3; 3; 3; 3; 3; 3; 3; 3;
   3; 3; 3; 3; 3; 3; 3; 3; 3; 3; 3; 3; 3; 3; 3; 3; 3; 3; 3; 3; 3; 3; 3; 3; 3; 3; 3; 3; 3; 3; 3; 3;
   3; 3; 3; 3; 3; 3; 3; 3; 3; 3; 3; 3; 3; 3; 3; 3; 3; 3; 3; 3; 3; 3; 3; 3; 3; 3; 3; 3; 3; 3; 3; 3;
   3; 3; 3; 3; 3; 3; 3; 3; 3; 3; 3; 3; 3; 3; 3; 3; 3; 3; 3; 3; 3; 3; 3; 3; 3; 3; 3; 3; 3; 3; 3; 3;
   3; 3; 4; 4; 4; 4; 4; 4; 4; 4; 4; 4; 4; 4; 4; 4; 4; 4; 4; 4; 4; 4; 4; 4; 4; 4; 4; 4; 4; 4; 4; 4;
   4; 4; 4; 4; 4; 4; 4; 4; 4; 4; 4; 4; 4; 4; 4; 4; 4; 4; 4; 4; 4; 4; 4; 4; 4; 4; 4; 4; 4; 4; 4; 4;
   4; 4; 4; 4; 4; 4; 4; 4; 4; 4; 4; 4; 4; 4; 4; 4; 4; 4; 4; 4; 4; 4; 4; 4; 4; 4; 4; 4; 4; 4; 4; 4;
   4; 4; 4; 4; 4; 4; 4; 4; 4; 4; 4; 4; 4; 4; 4; 4; 4; 4; 4; 4; 4; 4; 4; 4; 4; 4; 4; 4; 4; 4; 4; 4;
   4; 4; 5; 5; 5; 5; 5; 5; 5; 5; 5; 5; 5; 5; 5; 5; 5; 5; 5; 5; 5; 5; 5; 5; 5; 5; 5; 5; 5; 5; 5; 5;
   5; 5; 5; 5; 5; 5; 5; 5; 5; 5; 5; 5; 5; 5; 5; 5; 5; 5; 5; 5; 5; 5; 5; 5; 5; 5; 5; 5; 5; 5; 5; 5;
   5; 5; 5; 5; 5; 5; 5; 5; 5; 5; 5; 5; 5; 5; 5; 5; 5; 5; 5; 5; 5; 5; 5; 5; 5; 5; 5; 5; 5; 5; 5; 5;
   5; 5; 5; 5; 5; 5; 5; 5; 5; 5; 5; 5; 5; 5; 5; 5; 5; 5; 5; 5; 5; 5; 5; 5; 5; 5; 5; 5; 5; 5; 5; 5;
   5; 5; 5; 6; 6; 6; 6; 6; 6; 6; 6; 6; 6; 6; 6; 6; 6; 6; 6; 6; 6; 6; 6; 6; 6; 6; 6; 6; 6; 6; 6; 6;
   6; 6; 6; 6; 6; 6; 6; 6; 6; 6; 6; 6; 6; 6; 6; 6; 6; 6; 6; 6; 6; 6; 6; 6; 6; 6; 6; 6; 6; 6; 6; 6;
   6; 6; 6; 6; 6; 6; 6; 6; 6; 6; 6; 6; 6; 6; 6; 6; 6; 6; 6; 6; 6; 6; 6; 6; 6; 6; 6; 6; 6; 6; 6; 6;
   6; 6; 6; 6; 6; 6; 6; 6; 6; 6; 6; 6; 6; 6; 6; 6; 6; 6; 6; 6; 6; 6; 6; 6; 6; 6; 6; 6; 6; 6; 6; 6;
   6; 6; 6; 7; 7; 7; 7; 7; 7; 7; 7; 7; 7; 7; 7; 7; 7; 7; 7; 7; 7; 7; 7; 7; 7; 7; 7; 7; 7; 7; 7; 7;
   7; 7; 7; 7; 7; 7; 7; 7; 7; 7; 7; 7; 7; 7; 7; 7; 7; 7; 7; 7; 7; 7; 7; 7; 7; 7; 7; 7; 7; 7; 7; 7;
   7; 7; 7; 7; 7; 7; 7; 7; 7; 7; 7; 7; 7; 7; 7; 7; 7; 7; 7; 7; 7; 7; 7; 7; 7; 7; 7; 7; 7; 7; 7; 7;
   7; 7; 7; 7; 7; 7; 7; 7; 7; 7; 7; 7; 7; 7; 7; 7; 7; 7; 7; 7; 7; 7; 7; 7; 7; 7; 7; 7; 7; 7; 7; 7;
   7; 7; 7; 7; 8; 8; 8; 8; 8; 8; 8; 8; 8; 8; 8; 8; 8; 8; 8; 8; 8; 8; 8; 8; 8; 8; 8; 8; 8; 8; 8; 8;
   8; 8; 8; 8; 8; 8; 8; 8; 8; 8; 8; 8; 8; 8; 8; 8; 8; 8; 8; 8; 8; 8; 8; 8; 8; 8; 8; 8; 8; 8; 8; 8;
   8; 8; 8; 8; 8; 8; 8; 8; 8; 8; 8; 8; 8; 8; 8; 8; 8; 8; 8; 8; 8; 8; 8; 8; 8; 8; 8; 8; 8; 8; 8; 8;
   8; 8; 8; 8; 8; 8; 8; 8; 8; 8; 8; 8; 8; 8; 8; 8; 8; 8; 8; 8; 8; 8; 8; 8; 8; 8; 8; 8; 8; 8; 8; 8;
   8; 8; 8; 8; 8; 9; 9; 9; 9; 9; 9; 9; 9; 9; 9; 9; 9; 9; 9; 9; 9; 9; 9; 9; 9; 9; 9; 9; 9; 9; 9; 9;
   9; 9; 9; 9; 9; 9; 9; 9; 9; 9; 9; 9; 9; 9; 9; 9; 9; 9; 9; 9; 9; 9; 9; 9; 9; 9; 9; 9; 9; 9; 9; 9;
   9; 9; 9; 9; 9; 9; 9; 9; 9; 9; 9; 9; 9; 9; 9; 9; 9; 9; 9; 9; 9; 9; 9; 9; 9; 9; 9; 9; 9; 9; 9; 9;
   9; 9; 9; 9; 9; 9; 9; 9; 9; 9; 9; 9; 9; 9; 9; 9; 9; 9; 9; 9; 9; 9; 9; 9; 9; 9; 9; 9; 9; 9; 9; 9;
   9; 9; 9; 9; 9; 10; 10; 10; 10; 10; 10; 10; 10; 10; 10; 10; 10; 10; 10; 10; 10; 10; 10; 10; 10; 10; 10; 10; 10; 10; 10; 10;
   10; 10; 10; 10; 10; 10; 10; 10; 10; 10; 10; 10; 10; 10; 10; 10; 10; 10; 10; 10; 10; 10; 10; 10; 10; 10; 10; 10; 10; 10; 10; 10;
   10; 10; 10; 10; 10; 10; 10; 10; 10; 10; 10; 10; 10; 10; 10; 10; 10; 10; 10; 10; 10; 10; 10; 10; 10; 10; 10; 10; 10; 10; 10; 10;
   10; 10; 10; 10; 10; 10; 10; 10; 10; 10; 10; 10; 10; 10; 10; 10; 10; 10; 10; 10; 10; 10; 10; 10; 10; 10; 10; 10; 10; 10; 10; 10;
   10; 10; 10; 10; 10; 10; 11; 11; 11; 11; 11; 11; 11; 11; 11; 11; 11; 11; 11; 11; 11; 11; 11; 11; 11; 11; 11; 11; 11; 11; 11; 11;
   11; 11; 11; 11; 11; 11; 11; 11; 11; 11; 11; 11; 11; 11; 11; 11; 11; 11; 11; 11; 11; 11; 11; 11; 11; 11; 11; 11; 11; 11; 11; 11;
   11; 11; 11; 11; 11; 11; 11; 11; 11; 11; 11; 11; 11; 11; 11; 11; 11; 11; 11; 11; 11; 11; 11; 11; 11; 11; 11; 11; 11; 11; 11; 11;
   11; 11; 11; 11; 11; 11; 11; 11; 11; 11; 11; 11; 11; 11; 11; 11; 11; 11; 11; 11; 11; 11; 11; 11; 11; 11; 11; 11; 11; 11; 11; 11;
   11; 11; 11; 11; 11; 11; 12; 12; 12; 12; 12; 12; 12; 12; 12; 12; 12; 12; 12; 12; 12; 12; 12; 12; 12; 12; 12; 12; 12; 12; 12; 12;
   12; 12; 12; 12; 12; 12; 12; 12; 12; 12; 12; 12; 12; 12; 12; 12; 12; 12; 12; 12; 12; 12; 12; 12; 12; 12; 12; 12; 12; 12; 12; 12;
   12; 12; 12; 12; 12; 12; 12; 12; 12; 12; 12; 12; 12; 12; 12; 12; 12; 12; 12; 12; 12; 12; 12; 12; 12; 12; 12; 12; 12; 12; 12; 12;
   12; 12; 12; 12; 12; 12; 12; 12; 12; 12; 12; 12; 12; 12; 12; 12; 12; 12; 12; 12; 12; 12; 12; 12; 12; 12; 12; 12; 12; 12; 12; 12;
   12; 12; 12; 12; 12; 12; 12; 13; 13; 13; 13; 13; 13; 13; 13; 13; 13; 13; 13; 13; 13; 13; 13; 13; 13; 13; 13; 13; 13; 13; 13; 13;
   13; 13; 13; 13; 13; 13; 13; 13; 13; 13; 13; 13; 13; 13; 13; 13; 13; 13; 13; 13; 13; 13; 13; 13; 13; 13; 13; 13; 13; 13; 13; 13;
   13; 13; 13; 13; 13; 13; 13; 13; 13; 13; 13; 13; 13; 13; 13; 13; 13; 13; 13; 13; 13; 13; 13; 13; 13; 13; 13; 13; 13; 13; 13; 13;
   13; 13; 13; 13; 13; 13; 13; 13; 13; 13; 13; 13; 13; 13; 13; 13; 13; 13; 13; 13; 13; 13; 13; 13; 13; 13; 13; 13; 13; 13; 13; 13;
   13; 13; 13; 13; 13; 13; 13; 14; 14; 14; 14; 14; 14; 14; 14; 14; 14; 14; 14; 14; 14; 14; 14; 14; 14; 14; 14; 14; 14; 14; 14; 14;
   14; 14; 14; 14; 14; 14; 14; 14; 14; 14; 14; 14; 14; 14; 14; 14; 14; 14; 14; 14; 14; 14; 14; 14; 14; 14; 14; 14; 14; 14; 14; 14;
   14; 14; 14; 14; 14; 14; 14; 14; 14; 14; 14; 14; 14; 14; 14; 14; 14; 14; 14; 14; 14; 14; 14; 14; 14; 14; 14; 14; 14; 14; 14; 14;
   14; 14; 14; 14; 14; 14; 14; 14; 14; 14; 14; 14; 14; 14; 14; 14; 14; 14; 14; 14; 14; 14; 14; 14; 14; 14; 14; 14; 14; 14; 14; 14;
   14; 14; 14; 14; 14; 14; 14; 14; 15; 15; 15; 15; 15; 15; 15; 15; 15; 15; 15; 15; 15; 15; 15; 15; 15; 15; 15; 15; 15; 15; 15; 15;
   15; 15; 15; 15; 15; 15; 15; 15; 15; 15; 15; 15; 15; 15; 15; 15; 15; 15; 15; 15; 15; 15; 15; 15; 15; 15; 15; 15; 15; 15; 15; 15;
   15; 15; 15; 15; 15; 15; 15; 15; 15; 15; 15; 15; 15; 15; 15; 15; 15; 15; 15; 15; 15; 15; 15; 15; 15; 15; 15; 15; 15; 15; 15; 15;
   15; 15; 15; 15; 15; 15; 15; 15; 15; 15; 15; 15; 15; 15; 15; 15; 15; 15; 15; 15; 15; 15; 15; 15; 15; 15; 15; 15; 15; 15; 15; 15;
   15; 15; 15; 15; 15; 15; 15; 15; 16; 16; 16; 16; 16; 16; 16; 16; 16; 16; 16; 16; 16; 16; 16; 16; 16; 16; 16; 16; 16; 16; 16; 16;
   16; 16; 16; 16; 16; 16; 16; 16; 16; 16; 16; 16; 16; 16; 16; 16; 16; 16; 16; 16; 16; 16; 16; 16; 16; 16; 16; 16; 16; 16; 16; 16;
   16; 16; 16; 16; 16; 16; 16; 16; 17; 17; 17; 17; 17; 17; 17; 17; 17; 17; 17; 17; 17; 17; 17; 17; 17; 17; 17; 17; 17; 17; 17; 17;
   17; 17; 17; 17; 17; 17; 17; 17; 17; 17; 17; 17; 17; 17; 17; 17; 17; 17; 17; 17; 17; 17; 17; 17; 17; 17; 17; 17; 17; 17; 17; 17;
   17; 17; 17; 17; 17; 17; 17; 17; 17; 18; 18; 18; 18; 18; 18; 18; 18; 18; 18; 18; 18; 18; 18; 18; 18; 18; 18; 18; 18; 18; 18; 18;
   18; 18; 18; 18; 18; 18; 18; 18; 18; 18; 18; 18; 18; 18; 18; 18; 18; 18; 18; 18; 18; 18; 18; 18; 18; 18; 18; 18; 18; 18; 18; 18;
   18; 18; 18; 18; 18; 18; 18; 18; 18; 19; 19; 19; 19; 19; 19; 19; 19; 19; 19; 19; 19; 19; 19; 19; 19; 19; 19; 19; 19; 19; 19; 19;
   19; 19; 19; 19; 19; 19; 19; 19; 19; 19; 19; 19; 19; 19; 19; 19; 19; 19; 19; 19; 19; 19; 19; 19; 19; 19; 19; 19; 19; 19; 19; 19;
   19; 19; 19; 19; 19; 19; 19; 19; 19; 20; 20; 20; 20; 20; 20; 20; 20; 20; 20; 20; 20; 20; 20; 20; 20; 20; 20; 20; 20; 20; 20; 20;
   20; 20; 20; 20; 20; 20; 20; 20; 20; 20; 20; 20; 20; 20; 20; 20; 20; 20; 20; 20; 20; 20; 20; 20; 20; 20; 20; 20; 20; 20; 20; 20;
   20; 20; 20; 20; 20; 20; 20; 20; 20; 20; 21; 21; 21; 21; 21; 21; 21; 21; 21; 21; 21; 21; 21; 21; 21; 21; 21; 21; 21; 21; 21; 21;
   21; 21; 21; 21; 21; 21; 21; 21; 21; 21; 21; 21; 21; 21; 21; 21; 21; 21; 21; 21; 21; 21; 21; 21; 21; 21; 21; 21; 21; 21; 21; 21;
   21; 21; 21; 21; 21; 21; 21; 21; 21; 21; 22; 22; 22; 22; 22; 22; 22; 22; 22; 22; 22; 22; 22; 22; 22; 22; 22; 22; 22; 22; 22; 22;
   22; 22; 22; 22; 22; 22; 22; 22; 22; 22; 22; 22; 22; 22; 22; 22; 22; 22; 22; 22; 22; 22; 22; 22; 22; 22; 22; 22; 22; 22; 22; 22;
   22; 22; 22; 22; 22; 22; 22; 22; 22; 22; 23; 23; 23; 23; 23; 23; 23; 23; 23; 23; 23; 23; 23; 23; 23; 23; 23; 23; 23; 23; 23; 23;
   23; 23; 23; 23; 23; 23; 23; 23; 23; 23; 23; 23; 23; 23; 23; 23; 23; 23; 23; 23; 23; 23; 23; 23; 23; 23; 23; 23; 23; 23; 23; 23;
   23; 23; 23; 23; 23; 23; 23; 23; 23; 23; 24; 24; 24; 24; 24; 24; 24; 24; 24; 24; 24; 24; 24; 24; 24; 24; 24; 24; 24; 24; 24; 24;
   24; 24; 24; 24; 24; 24; 24; 24; 24; 24; 24; 24; 24; 24; 24; 24; 24; 24; 24; 24; 24; 24; 24; 24; 24; 24; 24; 24; 24; 24; 24; 24;
   24; 24; 24; 24; 24; 24; 24; 24; 24; 24; 24; 25; 25; 25; 25; 25; 25; 25; 25; 25; 25; 25; 25; 25; 25; 25; 25; 25; 25; 25; 25; 25;
   25; 25; 25; 25; 25; 25; 25; 25; 25; 25; 25; 25; 25; 25; 25; 25; 25; 25; 25; 25; 25; 25; 25; 25; 25; 25; 25; 25; 25; 25; 25; 25;
   25; 25; 25; 25; 25; 25; 25; 25; 25; 25; 25; 26; 26; 26; 26; 26; 26; 26; 26; 26; 26; 26; 26; 26; 26; 26; 26; 26; 26; 26; 26; 26;
   26; 26; 26; 26; 26; 26; 26; 26; 26; 26; 26; 26; 26; 26; 26; 26; 26; 26; 26; 26; 26; 26; 26; 26; 26; 26; 26; 26; 26; 26; 26; 26;
   26; 26; 26; 26; 26; 26; 26; 26; 26; 26; 26; 27; 27; 27; 27; 27; 27; 27; 27; 27; 27; 27; 27; 27; 27; 27; 27; 27; 27; 27; 27; 27;
   27; 27; 27; 27; 27; 27; 27; 27; 27; 27; 27; 27; 27; 27; 27; 27; 27; 27; 27; 27; 27; 27; 27; 27; 27; 27; 27; 27; 27; 27; 27; 27;
   27; 27; 27; 27; 27; 27; 27; 27; 27; 27; 27; 28; 28; 28; 28; 28; 28; 28; 28; 28; 28; 28; 28; 28; 28; 28; 28; 28; 28; 28; 28; 28;
   28; 28; 28; 28; 28; 28; 28; 28; 28; 28; 28; 28; 28; 28; 28; 28; 28; 28; 28; 28; 28; 28; 28; 28; 28; 28; 28; 28; 28; 28; 28; 28;
   28; 28; 28; 28; 28; 28; 28; 28; 28; 28; 28; 28; 29; 29; 29; 29; 29; 29; 29; 29; 29; 29; 29; 29; 29; 29; 29; 29; 29; 29; 29; 29;
   29; 29; 29; 29; 29; 29; 29; 29; 29; 29; 29; 29; 29; 29; 29; 29; 29; 29; 29; 29; 29; 29; 29; 29; 29; 29; 29; 29; 29; 29; 29; 29;
   29; 29; 29; 29; 29; 29; 29; 29; 29; 29; 29; 29; 30; 30; 30; 30; 30; 30; 30; 30; 30; 30; 30; 30; 30; 30; 30; 30; 30; 30; 30; 30;
   30; 30; 30; 30; 30; 30; 30; 30; 30; 30; 30; 30; 30; 30; 30; 30; 30; 30; 30; 30; 30; 30; 30; 30; 30; 30; 30; 30; 30; 30; 30; 30;
   30; 30; 30; 30; 30; 30; 30; 30; 30; 30; 30; 30; 31; 31; 31; 31; 31; 31; 31; 31; 31; 31; 31; 31; 31; 31; 31; 31; 31; 31; 31; 31;
   31; 31; 31; 31; 31; 31; 31; 31; 31; 31; 31; 31; 31; 31; 31; 31; 31; 31; 31; 31; 31; 31; 31; 31; 31; 31; 31; 31; 31; 31; 31; 31;
   31; 31; 31; 31; 31; 31; 31; 31; 31; 31; 31; 31; 32; 32; 32; 32; 32; 32; 32; 32; 32; 32; 32; 32; 32; 32; 32; 32; 32; 32; 32; 32;
   32; 32; 32; 32; 32; 32; 32; 32; 32; 32; 32; 32; 32; 33; 33; 33; 33; 33; 33; 33; 33; 33; 33; 33; 33; 33; 33; 33; 33; 33; 33; 33;
   33; 33; 33; 33; 33; 33; 33; 33; 33; 33; 33; 33; 33; 34; 34; 34; 34; 34; 34; 34; 34; 34; 34; 34; 34; 34; 34; 34; 34; 34; 34; 34;
   34; 34; 34; 34; 34; 34; 34; 34; 34; 34; 34; 34; 34; 35; 35; 35; 35; 35; 35; 35; 35; 35; 35; 35; 35; 35; 35; 35; 35; 35; 35; 35;
   35; 35; 35; 35; 35; 35; 35; 35; 35; 35; 35; 35; 35; 36; 36; 36; 36; 36; 36; 36; 36; 36; 36; 36; 36; 36; 36; 36; 36; 36; 36; 36;
   36; 36; 36; 36; 36; 36; 36; 36; 36; 36; 36; 36; 36; 37; 37; 37; 37; 37; 37; 37; 37; 37; 37; 37; 37; 37; 37; 37; 37; 37; 37; 37;
   37; 37; 37; 37; 37; 37; 37; 37; 37; 37; 37; 37; 37; 38; 38; 38; 38; 38; 38; 38; 38; 38; 38; 38; 38; 38; 38; 38; 38; 38; 38; 38;
   38; 38; 38; 38; 38; 38; 38; 38; 38; 38; 38; 38; 38; 39; 39; 39; 39; 39; 39; 39; 39; 39; 39; 39; 39; 39; 39; 39; 39; 39; 39; 39;
   39; 39; 39; 39; 39; 39; 39; 39; 39; 39; 39; 39; 39; 39; 40; 40; 40; 40; 40; 40; 40; 40; 40; 40; 40; 40; 40; 40; 40; 40; 40; 40;
   40; 40; 40; 40; 40; 40; 40; 40; 40; 40; 40; 40; 40; 40; 41; 41; 41; 41; 41; 41; 41; 41; 41; 41; 41; 41; 41; 41; 41; 41; 41; 41;
   41; 41; 41; 41; 41; 41; 41; 41; 41; 41; 41; 41; 41; 41; 42; 42; 42; 42; 42; 42; 42; 42; 42; 42; 42; 42; 42; 42; 42; 42; 42; 42;
   42; 42; 42; 42; 42; 42; 42; 42; 42; 42; 42; 42; 42; 42; 43; 43; 43; 43; 43; 43; 43; 43; 43; 43; 43; 43; 43; 43; 43; 43; 43; 43;
   43; 43; 43; 43; 43; 43; 43; 43; 43; 43; 43; 43; 43; 43; 44; 44; 44; 44; 44; 44; 44; 44; 44; 44; 44; 44; 44; 44; 44; 44; 44; 44;
   44; 44; 44; 44; 44; 44; 44; 44; 44; 44; 44; 44; 44; 44; 45; 45; 45; 45; 45; 45; 45; 45; 45; 45; 45; 45; 45; 45; 45; 45; 45; 45;
   45; 45; 45; 45; 45; 45; 45; 45; 45; 45; 45; 45; 45; 45; 46; 46; 46; 46; 46; 46; 46; 46; 46; 46; 46; 46; 46; 46; 46; 46; 46; 46;
   46; 46; 46; 46; 46; 46; 46; 46; 46; 46; 46; 46; 46; 46; 47; 47; 47; 47; 47; 47; 47; 47; 47; 47; 47; 47; 47; 47; 47; 47; 47; 47;
   47; 47; 47; 47; 47; 47; 47; 47; 47; 47; 47; 47; 47; 47; 47; 48; 48; 48; 48; 48; 48; 48; 48; 48; 48; 48; 48; 48; 48; 48; 48; 49;
   49; 49; 49; 49; 49; 49; 49; 49; 49; 49; 49; 49; 49; 49; 49; 50; 50; 50; 50; 50; 50; 50; 50; 50; 50; 50; 50; 50; 50; 50; 50; 51;
   51; 51; 51; 51; 51; 51; 51; 51; 51; 51; 51; 51; 51; 51; 51; 52; 52; 52; 52; 52; 52; 52; 52; 52; 52; 52; 52; 52; 52; 52; 52; 53;
   53; 53; 53; 53; 53; 53; 53; 53; 53; 53; 53; 53; 53; 53; 53; 54; 54; 54; 54; 54; 54; 54; 54; 54; 54; 54; 54; 54; 54; 54; 54; 55;
   55; 55; 55; 55; 55; 55; 55; 55; 55; 55; 55; 55; 55; 55; 55; 56; 56; 56; 56; 56; 56; 56; 56; 56; 56; 56; 56; 56; 56; 56; 56; 57;
   57; 57; 57; 57; 57; 57; 57; 57; 57; 57; 57; 57; 57; 57; 57; 58; 58; 58; 58; 58; 58; 58; 58; 58; 58; 58; 58; 58; 58; 58; 58; 59;
   59; 59; 59; 59; 59; 59; 59; 59; 59; 59; 59; 59; 59; 59; 59; 60; 60; 60; 60; 60; 60; 60; 60; 60; 60; 60; 60; 60; 60; 60; 60; 61;
   61; 61; 61; 61; 61; 61; 61; 61; 61; 61; 61; 61; 61; 61; 61; 61; 62; 62; 62; 62; 62; 62; 62; 62; 62; 62; 62; 62; 62; 62; 62; 62;
   63; 63; 63; 63; 63; 63; 63; 63; 63; 63; 63; 63; 63; 63; 63; 63; 64; 64; 64; 64; 64; 64; 64; 64; 65; 65; 65; 65; 65; 65; 65; 65;
   66; 66; 66; 66; 66; 66; 66; 66; 67; 67; 67; 67; 67; 67; 67; 67; 68; 68; 68; 68; 68; 68; 68; 68; 69; 69; 69; 69; 69; 69; 69; 69;
   70; 70; 70; 70; 70; 70; 70; 70; 71; 71; 71; 71; 71; 71; 71; 71; 72; 72; 72; 72; 72; 72; 72; 72; 73; 73; 73; 73; 73; 73; 73; 73;
   74; 74; 74; 74; 74; 74; 74; 74; 75; 75; 75; 75; 75; 75; 75; 75; 76; 76; 76; 76; 76; 76; 76; 76; 77; 77; 77; 77; 77; 77; 77; 77;
   78; 78; 78; 78; 78; 78; 78; 78; 79; 79; 79; 79; 79; 79; 79; 79; 80; 80; 80; 80; 81; 81; 81; 81; 82; 82; 82; 82; 83; 83; 83; 83;
   84; 84; 84; 84; 85; 85; 85; 85; 86; 86; 86; 86; 87; 87; 87; 87; 88; 88; 88; 88; 89; 89; 89; 89; 90; 90; 90; 90; 91; 91; 91; 91;
   92; 92; 92; 92; 93; 93; 93; 93; 94; 94; 94; 94; 95; 95; 95; 95; 96; 96; 97; 97; 98; 98; 99; 99; 100; 100; 101; 101; 102; 102; 103; 103;
   104; 104; 104; 105; 105; 106; 106; 107; 107; 108; 108; 109; 109; 110; 110; 111; 111; 112; 113; 114; 115; 116; 117; 118; 119; 120; 121; 122; 123; 124; 125; 126].

(** [a2s[256]] of toast_alaw.c *)
Definition a2s : list Z :=
  [5120; 60160; 320; 65200; 20480; 44032; 1280; 64192; 2560; 62848; 64; 65456; 10240; 54784; 640; 64864;
   7168; 58112; 448; 65072; 28672; 35840; 1792; 63680; 3584; 61824; 192; 65328; 14336; 50688; 896; 64608;
   4096; 61184; 256; 65264; 16384; 48128; 1024; 64448; 2048; 63360; 0; 65520; 8192; 56832; 512; 64992;
   6144; 59136; 384; 65136; 24576; 39936; 1536; 63936; 3072; 62336; 128; 65392; 12288; 52736; 768; 64736;
   5632; 59648; 352; 65168; 22528; 41984; 1408; 64064; 2816; 62592; 96; 65424; 11264; 53760; 704; 64800;
   7680; 57600; 480; 65040; 30720; 33792; 1920; 63552; 3840; 61568; 224; 65296; 15360; 49664; 960; 64544;
   4608; 60672; 288; 65232; 18432; 46080; 1152; 64320; 2304; 63104; 32; 65488; 9216; 55808; 576; 64928;
   6656; 58624; 416; 65104; 26624; 37888; 1664; 63808; 3328; 62080; 160; 65360; 13312; 51712; 832; 64672;
   5376; 59904; 336; 65184; 21504; 43008; 1344; 64128; 2688; 62720; 80; 65440; 10752; 54272; 672; 64832;
   7424; 57856; 464; 65056; 29696; 34816; 1856; 63616; 3712; 61696; 208; 65312; 14848; 50176; 928; 64576;
   4352; 60928; 272; 65248; 17408; 47104; 1088; 64384; 2176; 63232; 16; 65504; 8704; 56320; 544; 64960;
   6400; 58880; 400; 65120; 25600; 38912; 1600; 63872; 3200; 62208; 144; 65376; 12800; 52224; 800; 64704;
   5888; 59392; 368; 65152; 23552; 40960; 1472; 64000; 2944; 62464; 112; 65408; 11776; 53248; 736; 64768;
   7936; 57344; 496; 65024; 31744; 32768; 1984; 63488; 3968; 61440; 240; 65280; 15872; 49152; 992; 64512;
   4864; 60416; 304; 65216; 19456; 45056; 1216; 64256; 2432; 62976; 48; 65472; 9728; 55296; 608; 64896;
   6912; 58368; 432; 65088; 27648; 36864; 1728; 63744; 3456; 61952; 176; 65344; 13824; 51200; 864; 64640].

(** [s2a[4096]] of toast_alaw.c *)
Definition s2a : list Z :=
  [170; 42; 234; 106; 138; 10; 202; 74; 186; 58; 250; 122; 154; 26; 218; 90; 162; 34; 226; 98; 130; 2; 194; 66; 178; 50; 242; 114; 146; 18; 210; 82;
   174; 46; 46; 238; 238; 110; 110; 142; 142; 14; 14; 206; 206; 78; 78; 190; 190; 62; 62; 254; 254; 126; 126; 158; 158; 30; 30; 222; 222; 94; 94; 166;
   166; 38; 38; 38; 38; 230; 230; 230; 230; 102; 102; 102; 102; 134; 134; 134; 134; 6; 6; 6; 6; 198; 198; 198; 198; 70; 70; 70; 70; 182; 182; 182;
   182; 54; 54; 54; 54; 246; 246; 246; 246; 118; 118; 118; 118; 150; 150; 150; 150; 22; 22; 22; 22; 214; 214; 214; 214; 86; 86; 86; 86; 168; 168; 168;
   168; 40; 40; 40; 40; 40; 40; 40; 40; 232; 232; 232; 232; 232; 232; 232; 232; 104; 104; 104; 104; 104; 104; 104; 104; 136; 136; 136; 136; 136; 136; 136;
   136; 8; 8; 8; 8; 8; 8; 8; 8; 200; 200; 200; 200; 200; 200; 200; 200; 72; 72; 72; 72; 72; 72; 72; 72; 184; 184; 184; 184; 184; 184; 184;
   184; 56; 56; 56; 56; 56; 56; 56; 56; 248; 248; 248; 248; 248; 248; 248; 248; 120; 120; 120; 120; 120; 120; 120; 120; 152; 152; 152; 152; 152; 152; 152;
   152; 24; 24; 24; 24; 24; 24; 24; 24; 216; 216; 216; 216; 216; 216; 216; 216; 88; 88; 88; 88; 88; 88; 88; 88; 160; 160; 160; 160; 160; 160; 160;
   160; 32; 32; 32; 32; 32; 32; 32; 32; 32; 32; 32; 32; 32; 32; 32; 32; 224; 224; 224; 224; 224; 224; 224; 224; 224; 224; 224; 224; 224; 224; 224;
   224; 96; 96; 96; 96; 96; 96; 96; 96; 96; 96; 96; 96; 96; 96; 96; 96; 128; 128; 128; 128; 128; 128; 128; 128; 128; 128; 128; 128; 128; 128; 128;
   128; 0; 0; 0; 0; 0; 0; 0; 0; 0; 0; 0; 0; 0; 0; 0; 0; 192; 192; 192; 192; 192; 192; 192; 192; 192; 192; 192; 192; 192; 192; 192;
   192; 64; 64; 64; 64; 64; 64; 64; 64; 64; 64; 64; 64; 64; 64; 64; 64; 176; 176; 176; 176; 176; 176; 176; 176; 176; 176; 176; 176; 176; 176; 176;
   176; 48; 48; 48; 48; 48; 48; 48; 48; 48; 48; 48; 48; 48; 48; 48; 48; 240; 240; 240; 240; 240; 240; 240; 240; 240; 240; 240; 240; 240; 240; 240;
   240; 112; 112; 112; 112; 112; 112; 112; 112; 112; 112; 112; 112; 112; 112; 112; 112; 144; 144; 144; 144; 144; 144; 144; 144; 144; 144; 144; 144; 144; 144; 144;
   144; 16; 16; 16; 16; 16; 16; 16; 16; 16; 16; 16; 16; 16; 16; 16; 16; 208; 208; 208; 208; 208; 208; 208; 208; 208; 208; 208; 208; 208; 208; 208;
   208; 80; 80; 80; 80; 80; 80; 80; 80; 80; 80; 80; 80; 80; 80; 80; 80; 172; 172; 172; 172; 172; 172; 172; 172; 172; 172; 172; 172; 172; 172; 172;
   172; 44; 44; 44; 44; 44; 44; 44; 44; 44; 44; 44; 44; 44; 44; 44; 44; 44; 44; 44; 44; 44; 44; 44; 44; 44; 44; 44; 44; 44; 44; 44;
   44; 236; 236; 236; 236; 236; 236; 236; 236; 236; 236; 236; 236; 236; 236; 236; 236; 236; 236; 236; 236; 236; 236; 236; 236; 236; 236; 236; 236; 236; 236; 236;
   236; 108; 108; 108; 108; 108; 108; 108; 108; 108; 108; 108; 108; 108; 108; 108; 108; 108; 108; 108; 108; 108; 108; 108; 108; 108; 108; 108; 108; 108; 108; 108;
   108; 140; 140; 140; 140; 140; 140; 140; 140; 140; 140; 140; 140; 140; 140; 140; 140; 140; 140; 140; 140; 140; 140; 140; 140; 140; 140; 140; 140; 140; 140; 140;
   140; 12; 12; 12; 12; 12; 12; 12; 12; 12; 12; 12; 12; 12; 12; 12; 12; 12; 12; 12; 12; 12; 12; 12; 12; 12; 12; 12; 12; 12; 12; 12;
   12; 204; 204; 204; 204; 204; 204; 204; 204; 204; 204; 204; 204; 204; 204; 204; 204; 204; 204; 204; 204; 204; 204; 204; 204; 204; 204; 204; 204; 204; 204; 204;
   204; 76; 76; 76; 76; 76; 76; 76; 76; 76; 76; 76; 76; 76; 76; 76; 76; 76; 76; 76; 76; 76; 76; 76; 76; 76; 76; 76; 76; 76; 76; 76;
   76; 188; 188; 188; 188; 188; 188; 188; 188; 188; 188; 188; 188; 188; 188; 188; 188; 188; 188; 188; 188; 188; 188; 188; 188; 188; 188; 188; 188; 188; 188; 188;
   188; 60; 60; 60; 60; 60; 60; 60; 60; 60; 60; 60; 60; 60; 60; 60; 60; 60; 60; 60; 60; 60; 60; 60; 60; 60; 60; 60; 60; 60; 60; 60;
   60; 252; 252; 252; 252; 252; 252; 252; 252; 252; 252; 252; 252; 252; 252; 252; 252; 252; 252; 252; 252; 252; 252; 252; 252; 252; 252; 252; 252; 252; 252; 252;
   252; 124; 124; 124; 124; 124; 124; 124; 124; 124; 124; 124; 124; 124; 124; 124; 124; 124; 124; 124; 124; 124; 124; 124; 124; 124; 124; 124; 124; 124; 124; 124;
   124; 156; 156; 156; 156; 156; 156; 156; 156; 156; 156; 156; 156; 156; 156; 156; 156; 156; 156; 156; 156; 156; 156; 156; 156; 156; 156; 156; 156; 156; 156; 156;
   156; 28; 28; 28; 28; 28; 28; 28; 28; 28; 28; 28; 28; 28; 28; 28; 28; 28; 28; 28; 28; 28; 28; 28; 28; 28; 28; 28; 28; 28; 28; 28;
   28; 220; 220; 220; 220; 220; 220; 220; 220; 220; 220; 220; 220; 220; 220; 220; 220; 220; 220; 220; 220; 220; 220; 220; 220; 220; 220; 220; 220; 220; 220; 220;
   220; 92; 92; 92; 92; 92; 92; 92; 92; 92; 92; 92; 92; 92; 92; 92; 92; 92; 92; 92; 92; 92; 92; 92; 92; 92; 92; 92; 92; 92; 92; 92;
   92; 164; 164; 164; 164; 164; 164; 164; 164; 164; 164; 164; 164; 164; 164; 164; 164; 164; 164; 164; 164; 164; 164; 164; 164; 164; 164; 164; 164; 164; 164; 164;
   164; 36; 36; 36; 36; 36; 36; 36; 36; 36; 36; 36; 36; 36; 36; 36; 36; 36; 36; 36; 36; 36; 36; 36; 36; 36; 36; 36; 36; 36; 36; 36;
   36; 36; 36; 36; 36; 36; 36; 36; 36; 36; 36; 36; 36; 36; 36; 36; 36; 36; 36; 36; 36; 36; 36; 36; 36; 36; 36; 36; 36; 36; 36; 36;
   36; 228; 228; 228; 228; 228; 228; 228; 228; 228; 228; 228; 228; 228; 228; 228; 228; 228; 228; 228; 228; 228; 228; 228; 228; 228; 228; 228; 228; 228; 228; 228;
   228; 228; 228; 228; 228; 228; 228; 228; 228; 228; 228; 228; 228; 228; 228; 228; 228; 228; 228; 228; 228; 228; 228; 228; 228; 228; 228; 228; 228; 228; 228; 228;
   228; 100; 100; 100; 100; 100; 100; 100; 100; 100; 100; 100; 100; 100; 100; 100; 100; 100; 100; 100; 100; 100; 100; 100; 100; 100; 100; 100; 100; 100; 100; 100;
   100; 100; 100; 100; 100; 100; 100; 100; 100; 100; 100; 100; 100; 100; 100; 100; 100; 100; 100; 100; 100; 100; 100; 100; 100; 100; 100; 100; 100; 100; 100; 100;
   100; 132; 132; 132; 132; 132; 132; 132; 132; 132; 132; 132; 132; 132; 132; 132; 132; 132; 132; 132; 132; 132; 132; 132; 132; 132; 132; 132; 132; 132; 132; 132;
   132; 132; 132; 132; 132; 132; 132; 132; 132; 132; 132; 132; 132; 132; 132; 132; 132; 132; 132; 132; 132; 132; 132; 132; 132; 132; 132; 132; 132; 132; 132; 132;
   132; 4; 4; 4; 4; 4; 4; 4; 4; 4; 4; 4; 4; 4; 4; 4; 4; 4; 4; 4; 4; 4; 4; 4; 4; 4; 4; 4; 4; 4; 4; 4;
   4; 4; 4; 4; 4; 4; 4; 4; 4; 4; 4; 4; 4; 4; 4; 4; 4; 4; 4; 4; 4; 4; 4; 4; 4; 4; 4; 4; 4; 4; 4; 4;
   4; 196; 196; 196; 196; 196; 196; 196; 196; 196; 196; 196; 196; 196; 196; 196; 196; 196; 196; 196; 196; 196; 196; 196; 196; 196; 196; 196; 196; 196; 196; 196;
   196; 196; 196; 196; 196; 196; 196; 196; 196; 196; 196; 196; 196; 196; 196; 196; 196; 196; 196; 196; 196; 196; 196; 196; 196; 196; 196; 196; 196; 196; 196; 196;
   196; 68; 68; 68; 68; 68; 68; 68; 68; 68; 68; 68; 68; 68; 68; 68; 68; 68; 68; 68; 68; 68; 68; 68; 68; 68; 68; 68; 68; 68; 68; 68;
   68; 68; 68; 68; 68; 68; 68; 68; 68; 68; 68; 68; 68; 68; 68; 68; 68; 68; 68; 68; 68; 68; 68; 68; 68; 68; 68; 68; 68; 68; 68; 68;
   68; 180; 180; 180; 180; 180; 180; 180; 180; 180; 180; 180; 180; 180; 180; 180; 180; 180; 180; 180; 180; 180; 180; 180; 180; 180; 180; 180; 180; 180; 180; 180;
   180; 180; 180; 180; 180; 180; 180; 180; 180; 180; 180; 180; 180; 180; 180; 180; 180; 180; 180; 180; 180; 180; 180; 180; 180; 180; 180; 180; 180; 180; 180; 180;
   180; 52; 52; 52; 52; 52; 52; 52; 52; 52; 52; 52; 52; 52; 52; 52; 52; 52; 52; 52; 52; 52; 52; 52; 52; 52; 52; 52; 52; 52; 52; 52;
   52; 52; 52; 52; 52; 52; 52; 52; 52; 52; 52; 52; 52; 52; 52; 52; 52; 52; 52; 52; 52; 52; 52; 52; 52; 52; 52; 52; 52; 52; 52; 52;
   52; 244; 244; 244; 244; 244; 244; 244; 244; 244; 244; 244; 244; 244; 244; 244; 244; 244; 244; 244; 244; 244; 244; 244; 244; 244; 244; 244; 244; 244; 244; 244;
   244; 244; 244; 244; 244; 244; 244; 244; 244; 244; 244; 244; 244; 244; 244; 244; 244; 244; 244; 244; 244; 244; 244; 244; 244; 244; 244; 244; 244; 244; 244; 244;
   244; 116; 116; 116; 116; 116; 116; 116; 116; 116; 116; 116; 116; 116; 116; 116; 116; 116; 116; 116; 116; 116; 116; 116; 116; 116; 116; 116; 116; 116; 116; 116;
   116; 116; 116; 116; 116; 116; 116; 116; 116; 116; 116; 116; 116; 116; 116; 116; 116; 116; 116; 116; 116; 116; 116; 116; 116; 116; 116; 116; 116; 116; 116; 116;
   116; 148; 148; 148; 148; 148; 148; 148; 148; 148; 148; 148; 148; 148; 148; 148; 148; 148; 148; 148; 148; 148; 148; 148; 148; 148; 148; 148; 148; 148; 148; 148;
   148; 148; 148; 148; 148; 148; 148; 148; 148; 148; 148; 148; 148; 148; 148; 148; 148; 148; 148; 148; 148; 148; 148; 148; 148; 148; 148; 148; 148; 148; 148; 148;
   148; 20; 20; 20; 20; 20; 20; 20; 20; 20; 20; 20; 20; 20; 20; 20; 20; 20; 20; 20; 20; 20; 20; 20; 20; 20; 20; 20; 20; 20; 20; 20;
   20; 20; 20; 20; 20; 20; 20; 20; 20; 20; 20; 20; 20; 20; 20; 20; 20; 20; 20; 20; 20; 20; 20; 20; 20; 20; 20; 20; 20; 20; 20; 20;
   20; 212; 212; 212; 212; 212; 212; 212; 212; 212; 212; 212; 212; 212; 212; 212; 212; 212; 212; 212; 212; 212; 212; 212; 212; 212; 212; 212; 212; 212; 212; 212;
   212; 212; 212; 212; 212; 212; 212; 212; 212; 212; 212; 212; 212; 212; 212; 212; 212; 212; 212; 212; 212; 212; 212; 212; 212; 212; 212; 212; 212; 212; 212; 212;
   212; 84; 84; 84; 84; 84; 84; 84; 84; 84; 84; 84; 84; 84; 84; 84; 84; 84; 84; 84; 84; 84; 84; 84; 84; 84; 84; 84; 84; 84; 84; 84;
   84; 84; 84; 84; 84; 84; 84; 84; 84; 84; 84; 84; 84; 84; 84; 84; 84; 84; 84; 84; 84; 84; 84; 84; 84; 84; 84; 84; 84; 84; 84; 84;
   84; 85; 85; 85; 85; 85; 85; 85; 85; 85; 85; 85; 85; 85; 85; 85; 85; 85; 85; 85; 85; 85; 85; 85; 85; 85; 85; 85; 85; 85; 85; 85;
   85; 85; 85; 85; 85; 85; 85; 85; 85; 85; 85; 85; 85; 85; 85; 85; 85; 85; 85; 85; 85; 85; 85; 85; 85; 85; 85; 85; 85; 85; 85; 85;
   85; 213; 213; 213; 213; 213; 213; 213; 213; 213; 213; 213; 213; 213; 213; 213; 213; 213; 213; 213; 213; 213; 213; 213; 213; 213; 213; 213; 213; 213; 213; 213;
   213; 213; 213; 213; 213; 213; 213; 213; 213; 213; 213; 213; 213; 213; 213; 213; 213; 213; 213; 213; 213; 213; 213; 213; 213; 213; 213; 213; 213; 213; 213; 213;
   213; 21; 21; 21; 21; 21; 21; 21; 21; 21; 21; 21; 21; 21; 21; 21; 21; 21; 21; 21; 21; 21; 21; 21; 21; 21; 21; 21; 21; 21; 21; 21;
   21; 21; 21; 21; 21; 21; 21; 21; 21; 21; 21; 21; 21; 21; 21; 21; 21; 21; 21; 21; 21; 21; 21; 21; 21; 21; 21; 21; 21; 21; 21; 21;
   21; 149; 149; 149; 149; 149; 149; 149; 149; 149; 149; 149; 149; 149; 149; 149; 149; 149; 149; 149; 149; 149; 149; 149; 149; 149; 149; 149; 149; 149; 149; 149;
   149; 149; 149; 149; 149; 149; 149; 149; 149; 149; 149; 149; 149; 149; 149; 149; 149; 149; 149; 149; 149; 149; 149; 149; 149; 149; 149; 149; 149; 149; 149; 149;
   149; 117; 117; 117; 117; 117; 117; 117; 117; 117; 117; 117; 117; 117; 117; 117; 117; 117; 117; 117; 117; 117; 117; 117; 117; 117; 117; 117; 117; 117; 117; 117;
   117; 117; 117; 117; 117; 117; 117; 117; 117; 117; 117; 117; 117; 117; 117; 117; 117; 117; 117; 117; 117; 117; 117; 117; 117; 117; 117; 117; 117; 117; 117; 117;
   117; 245; 245; 245; 245; 245; 245; 245; 245; 245; 245; 245; 245; 245; 245; 245; 245; 245; 245; 245; 245; 245; 245; 245; 245; 245; 245; 245; 245; 245; 245; 245;
   245; 245; 245; 245; 245; 245; 245; 245; 245; 245; 245; 245; 245; 245; 245; 245; 245; 245; 245; 245; 245; 245; 245; 245; 245; 245; 245; 245; 245; 245; 245; 245;
   245; 53; 53; 53; 53; 53; 53; 53; 53; 53; 53; 53; 53; 53; 53; 53; 53; 53; 53; 53; 53; 53; 53; 53; 53; 53; 53; 53; 53; 53; 53; 53;
   53; 53; 53; 53; 53; 53; 53; 53; 53; 53; 53; 53; 53; 53; 53; 53; 53; 53; 53; 53; 53; 53; 53; 53; 53; 53; 53; 53; 53; 53; 53; 53;
   53; 181; 181; 181; 181; 181; 181; 181; 181; 181; 181; 181; 181; 181; 181; 181; 181; 181; 181; 181; 181; 181; 181; 181; 181; 181; 181; 181; 181; 181; 181; 181;
   181; 181; 181; 181; 181; 181; 181; 181; 181; 181; 181; 181; 181; 181; 181; 181; 181; 181; 181; 181; 181; 181; 181; 181; 181; 181; 181; 181; 181; 181; 181; 181;
   181; 69; 69; 69; 69; 69; 69; 69; 69; 69; 69; 69; 69; 69; 69; 69; 69; 69; 69; 69; 69; 69; 69; 69; 69; 69; 69; 69; 69; 69; 69; 69;
   69; 69; 69; 69; 69; 69; 69; 69; 69; 69; 69; 69; 69; 69; 69; 69; 69; 69; 69; 69; 69; 69; 69; 69; 69; 69; 69; 69; 69; 69; 69; 69;
   69; 197; 197; 197; 197; 197; 197; 197; 197; 197; 197; 197; 197; 197; 197; 197; 197; 197; 197; 197; 197; 197; 197; 197; 197; 197; 197; 197; 197; 197; 197; 197;
   197; 197; 197; 197; 197; 197; 197; 197; 197; 197; 197; 197; 197; 197; 197; 197; 197; 197; 197; 197; 197; 197; 197; 197; 197; 197; 197; 197; 197; 197; 197; 197;
   197; 5; 5; 5; 5; 5; 5; 5; 5; 5; 5; 5; 5; 5; 5; 5; 5; 5; 5; 5; 5; 5; 5; 5; 5; 5; 5; 5; 5; 5; 5; 5;
   5; 5; 5; 5; 5; 5; 5; 5; 5; 5; 5; 5; 5; 5; 5; 5; 5; 5; 5; 5; 5; 5; 5; 5; 5; 5; 5; 5; 5; 5; 5; 5;
   5; 133; 133; 133; 133; 133; 133; 133; 133; 133; 133; 133; 133; 133; 133; 133; 133; 133; 133; 133; 133; 133; 133; 133; 133; 133; 133; 133; 133; 133; 133; 133;
   133; 133; 133; 133; 133; 133; 133; 133; 133; 133; 133; 133; 133; 133; 133; 133; 133; 133; 133; 133; 133; 133; 133; 133; 133; 133; 133; 133; 133; 133; 133; 133;
   133; 101; 101; 101; 101; 101; 101; 101; 101; 101; 101; 101; 101; 101; 101; 101; 101; 101; 101; 101; 101; 101; 101; 101; 101; 101; 101; 101; 101; 101; 101; 101;
   101; 101; 101; 101; 101; 101; 101; 101; 101; 101; 101; 101; 101; 101; 101; 101; 101; 101; 101; 101; 101; 101; 101; 101; 101; 101; 101; 101; 101; 101; 101; 101;
   101; 229; 229; 229; 229; 229; 229; 229; 229; 229; 229; 229; 229; 229; 229; 229; 229; 229; 229; 229; 229; 229; 229; 229; 229; 229; 229; 229; 229; 229; 229; 229;
   229; 229; 229; 229; 229; 229; 229; 229; 229; 229; 229; 229; 229; 229; 229; 229; 229; 229; 229; 229; 229; 229; 229; 229; 229; 229; 229; 229; 229; 229; 229; 229;
   229; 37; 37; 37; 37; 37; 37; 37; 37; 37; 37; 37; 37; 37; 37; 37; 37; 37; 37; 37; 37; 37; 37; 37; 37; 37; 37; 37; 37; 37; 37; 37;
   37; 37; 37; 37; 37; 37; 37; 37; 37; 37; 37; 37; 37; 37; 37; 37; 37; 37; 37; 37; 37; 37; 37; 37; 37; 37; 37; 37; 37; 37; 37; 37;
   37; 165; 165; 165; 165; 165; 165; 165; 165; 165; 165; 165; 165; 165; 165; 165; 165; 165; 165; 165; 165; 165; 165; 165; 165; 165; 165; 165; 165; 165; 165; 165;
   165; 165; 165; 165; 165; 165; 165; 165; 165; 165; 165; 165; 165; 165; 165; 165; 165; 165; 165; 165; 165; 165; 165; 165; 165; 165; 165; 165; 165; 165; 165; 165;
   165; 93; 93; 93; 93; 93; 93; 93; 93; 93; 93; 93; 93; 93; 93; 93; 93; 93; 93; 93; 93; 93; 93; 93; 93; 93; 93; 93; 93; 93; 93; 93;
   93; 93; 93; 93; 93; 93; 93; 93; 93; 93; 93; 93; 93; 93; 93; 93; 93; 93; 93; 93; 93; 93; 93; 93; 93; 93; 93; 93; 93; 93; 93; 93;
   93; 221; 221; 221; 221; 221; 221; 221; 221; 221; 221; 221; 221; 221; 221; 221; 221; 221; 221; 221; 221; 221; 221; 221; 221; 221; 221; 221; 221; 221; 221; 221;
   221; 29; 29; 29; 29; 29; 29; 29; 29; 29; 29; 29; 29; 29; 29; 29; 29; 29; 29; 29; 29; 29; 29; 29; 29; 29; 29; 29; 29; 29; 29; 29;
   29; 157; 157; 157; 157; 157; 157; 157; 157; 157; 157; 157; 157; 157; 157; 157; 157; 157; 157; 157; 157; 157; 157; 157; 157; 157; 157; 157; 157; 157; 157; 157;
   157; 125; 125; 125; 125; 125; 125; 125; 125; 125; 125; 125; 125; 125; 125; 125; 125; 125; 125; 125; 125; 125; 125; 125; 125; 125; 125; 125; 125; 125; 125; 125;
   125; 253; 253; 253; 253; 253; 253; 253; 253; 253; 253; 253; 253; 253; 253; 253; 253; 253; 253; 253; 253; 253; 253; 253; 253; 253; 253; 253; 253; 253; 253; 253;
   253; 61; 61; 61; 61; 61; 61; 61; 61; 61; 61; 61; 61; 61; 61; 61; 61; 61; 61; 61; 61; 61; 61; 61; 61; 61; 61; 61; 61; 61; 61; 61;
   61; 189; 189; 189; 189; 189; 189; 189; 189; 189; 189; 189; 189; 189; 189; 189; 189; 189; 189; 189; 189; 189; 189; 189; 189; 189; 189; 189; 189; 189; 189; 189;
   189; 77; 77; 77; 77; 77; 77; 77; 77; 77; 77; 77; 77; 77; 77; 77; 77; 77; 77; 77; 77; 77; 77; 77; 77; 77; 77; 77; 77; 77; 77; 77;
   77; 205; 205; 205; 205; 205; 205; 205; 205; 205; 205; 205; 205; 205; 205; 205; 205; 205; 205; 205; 205; 205; 205; 205; 205; 205; 205; 205; 205; 205; 205; 205;
   205; 13; 13; 13; 13; 13; 13; 13; 13; 13; 13; 13; 13; 13; 13; 13; 13; 13; 13; 13; 13; 13; 13; 13; 13; 13; 13; 13; 13; 13; 13; 13;
   13; 141; 141; 141; 141; 141; 141; 141; 141; 141; 141; 141; 141; 141; 141; 141; 141; 141; 141; 141; 141; 141; 141; 141; 141; 141; 141; 141; 141; 141; 141; 141;
   141; 109; 109; 109; 109; 109; 109; 109; 109; 109; 109; 109; 109; 109; 109; 109; 109; 109; 109; 109; 109; 109; 109; 109; 109; 109; 109; 109; 109; 109; 109; 109;
   109; 237; 237; 237; 237; 237; 237; 237; 237; 237; 237; 237; 237; 237; 237; 237; 237; 237; 237; 237; 237; 237; 237; 237; 237; 237; 237; 237; 237; 237; 237; 237;
   237; 45; 45; 45; 45; 45; 45; 45; 45; 45; 45; 45; 45; 45; 45; 45; 45; 45; 45; 45; 45; 45; 45; 45; 45; 45; 45; 45; 45; 45; 45; 45;
   45; 173; 173; 173; 173; 173; 173; 173; 173; 173; 173; 173; 173; 173; 173; 173; 173; 173; 173; 173; 173; 173; 173; 173; 173; 173; 173; 173; 173; 173; 173; 173;
   173; 81; 81; 81; 81; 81; 81; 81; 81; 81; 81; 81; 81; 81; 81; 81; 81; 81; 81; 81; 81; 81; 81; 81; 81; 81; 81; 81; 81; 81; 81; 81;
   81; 209; 209; 209; 209; 209; 209; 209; 209; 209; 209; 209; 209; 209; 209; 209; 209; 17; 17; 17; 17; 17; 17; 17; 17; 17; 17; 17; 17; 17; 17; 17;
   17; 145; 145; 145; 145; 145; 145; 145; 145; 145; 145; 145; 145; 145; 145; 145; 145; 113; 113; 113; 113; 113; 113; 113; 113; 113; 113; 113; 113; 113; 113; 113;
   113; 241; 241; 241; 241; 241; 241; 241; 241; 241; 241; 241; 241; 241; 241; 241; 241; 49; 49; 49; 49; 49; 49; 49; 49; 49; 49; 49; 49; 49; 49; 49;
   49; 177; 177; 177; 177; 177; 177; 177; 177; 177; 177; 177; 177; 177; 177; 177; 177; 65; 65; 65; 65; 65; 65; 65; 65; 65; 65; 65; 65; 65; 65; 65;
   65; 193; 193; 193; 193; 193; 193; 193; 193; 193; 193; 193; 193; 193; 193; 193; 193; 1; 1; 1; 1; 1; 1; 1; 1; 1; 1; 1; 1; 1; 1; 1;
   1; 129; 129; 129; 129; 129; 129; 129; 129; 129; 129; 129; 129; 129; 129; 129; 129; 97; 97; 97; 97; 97; 97; 97; 97; 97; 97; 97; 97; 97; 97; 97;
   97; 225; 225; 225; 225; 225; 225; 225; 225; 225; 225; 225; 225; 225; 225; 225; 225; 33; 33; 33; 33; 33; 33; 33; 33; 33; 33; 33; 33; 33; 33; 33;
   33; 161; 161; 161; 161; 161; 161; 161; 161; 161; 161; 161; 161; 161; 161; 161; 161; 89; 89; 89; 89; 89; 89; 89; 89; 89; 89; 89; 89; 89; 89; 89;
   89; 217; 217; 217; 217; 217; 217; 217; 217; 25; 25; 25; 25; 25; 25; 25; 25; 153; 153; 153; 153; 153; 153; 153; 153; 121; 121; 121; 121; 121; 121; 121;
   121; 249; 249; 249; 249; 249; 249; 249; 249; 57; 57; 57; 57; 57; 57; 57; 57; 185; 185; 185; 185; 185; 185; 185; 185; 73; 73; 73; 73; 73; 73; 73;
   73; 201; 201; 201; 201; 201; 201; 201; 201; 9; 9; 9; 9; 9; 9; 9; 9; 137; 137; 137; 137; 137; 137; 137; 137; 105; 105; 105; 105; 105; 105; 105;
   105; 233; 233; 233; 233; 233; 233; 233; 233; 41; 41; 41; 41; 41; 41; 41; 41; 169; 169; 169; 169; 169; 169; 169; 169; 87; 87; 87; 87; 87; 87; 87;
   87; 215; 215; 215; 215; 23; 23; 23; 23; 151; 151; 151; 151; 119; 119; 119; 119; 247; 247; 247; 247; 55; 55; 55; 55; 183; 183; 183; 183; 71; 71; 71;
   71; 199; 199; 199; 199; 7; 7; 7; 7; 135; 135; 135; 135; 103; 103; 103; 103; 231; 231; 231; 231; 39; 39; 39; 39; 167; 167; 167; 167; 95; 95; 95;
   95; 223; 223; 31; 31; 159; 159; 127; 127; 255; 255; 63; 63; 191; 191; 79; 79; 207; 207; 15; 15; 143; 143; 111; 111; 239; 239; 47; 47; 175; 175; 83;
   83; 211; 19; 147; 115; 243; 51; 179; 67; 195; 3; 131; 99; 227; 35; 163; 91; 219; 27; 155; 123; 251; 59; 187; 75; 203; 11; 139; 107; 235; 43; 171].
