(* ===== verification/ToastIO.v ===== *)
(** * The audio formats of toast
    (src/mibench/telecomm/gsm: src/toast_ulaw.c, src/toast_alaw.c,
    src/toast_lin.c, src/toast_audio.c)

    Reading and writing frames of 160 samples as u-law or A-law codes or as
    16-bit words, and the header of a Sun audio file.  What the format functions
    promise to the program that calls them through the pointers [input] and
    [output] are the classes [SampleReader] and [SampleWriter].

    A stream of the C library is a record: an input stream is its bytes, the
    position in it, whether it can be positioned, and whether reading past the
    bytes is an error instead of the end of the file; an output stream is what
    was written, how much more fits, and its error indicator.  A write that does
    not fit fails at once. *)

From Stdlib Require Import ZArith Lia List Bool.
From S2P Require Import Prelude GsmState ToastTables.
Import ListNotations.

(** ** Streams *)

Record istream := mkIn { ibytes : list Z; ipos : nat; iseekable : bool; ibroken : bool }.
Record ostream := mkOut { obytes : list Z; oroom : nat; oerror : bool }.

(** The bytes still to be read. *)
Definition irest (s : istream) : list Z := skipn (ipos s) (ibytes s).

Definition iadvance (s : istream) (n : nat) : istream := mkIn (ibytes s) (ipos s + n) (iseekable s) (ibroken s).

(** [fgetc]; [None] is EOF. *)
Definition fgetc (s : istream) : option Z * istream :=
  match irest s with
  | [] => (None, s)
  | c :: _ => (Some c, iadvance s 1)
  end.

(** [ferror] of an input stream after EOF was returned. *)
Definition ferror_in (s : istream) : bool := ibroken s.

(** [fread] of up to [n] bytes. *)
Definition fread (n : nat) (s : istream) : list Z * istream :=
  let bytes := firstn n (irest s) in (bytes, iadvance s (length bytes)).

(** [fseek(f, off, SEEK_CUR) < 0], and the stream. *)
Definition fseek_cur (off : Z) (s : istream) : bool * istream :=
  if iseekable s && (0 <=? Z.of_nat (ipos s) + off)
  then (false, mkIn (ibytes s) (Z.to_nat (Z.of_nat (ipos s) + off)) (iseekable s) (ibroken s))
  else (true, s).

(** [fwrite] of bytes: how many were written. *)
Definition fwrite (bytes : list Z) (o : ostream) : nat * ostream :=
  if (length bytes <=? oroom o)%nat
  then (length bytes, mkOut (obytes o ++ bytes) (oroom o - length bytes) (oerror o))
  else (oroom o, mkOut (obytes o ++ firstn (oroom o) bytes) 0 true).

(** [fputc(c, out) == EOF] *)
Definition fputc (c : Z) (o : ostream) : bool * ostream :=
  let '(n, o) := fwrite [u8 c] o in (negb (n =? 1)%nat, o).

(** The types of the function pointers [input] and [output]. *)
Definition input_t : Type := list Z -> istream -> Z * list Z * istream.
Definition output_t : Type := list Z -> ostream -> Z * ostream.

(** ** Companding *)

Definition U2S (x : Z) : Z := u2s.[u8 x].
Definition S2U (x : Z) : Z := s2u.[zext 16 x >> 3].
Definition A2S (x : Z) : Z := a2s.[u8 x].
Definition S2A (x : Z) : Z := s2a.[zext 16 x >> 4].

(** [for (i = 0; i < 160 && (c = fgetc(in)) != EOF; i++) buf[i] = ...]: the
    value of [i], whether [c] is EOF, the buffer and the stream. *)
Fixpoint input_loop (conv : Z -> Z) (left : nat) (i : Z) (buf : list Z) (s : istream)
  : Z * bool * list Z * istream :=
  match left with
  | O => (i, false, buf, s)
  | S n =>
      match fgetc s with
      | (None, s) => (i, true, buf, s)
      | (Some c, s) => input_loop conv n (i + 1) (aset buf i (i16 (conv c))) s
      end
  end.

Definition ulaw_input : input_t := fun buf s =>
  let '(i, eof, buf, s) := input_loop U2S 160 0 buf s in
  if eof && ferror_in s then (-1, buf, s) else (i, buf, s).

Definition alaw_input : input_t := fun buf s =>
  let '(i, eof, buf, s) := input_loop A2S 160 0 buf s in
  if eof && ferror_in s then (-1, buf, s) else (i, buf, s).

(** [for (i = 0; i < 160; i++, buf++) if (fputc(..., out) == EOF) return -1;] *)
Fixpoint output_loop (conv : Z -> Z) (buf : list Z) (o : ostream) : Z * ostream :=
  match buf with
  | [] => (0, o)
  | x :: buf' => let '(eof, o) := fputc (conv x) o in if eof then (-1, o) else output_loop conv buf' o
  end.

Definition ulaw_output : output_t := fun buf o => output_loop (fun x => i8 (S2U (zext 16 x))) buf o.
Definition alaw_output : output_t := fun buf o => output_loop S2A buf o.

(** ** Linear samples *)

(** [fread] of 160 words into [buf]. *)
Definition linear_input : input_t := fun buf s =>
  let '(bytes, s) := fread 320 s in
  let xs := shorts bytes in
  (Z.of_nat (length xs), xs ++ skipn (length xs) buf, s).

(** The negation of whether [fwrite] wrote fewer than 160 words. *)
Definition linear_output : output_t := fun buf o =>
  let '(n, o) := fwrite (flat_map short_bytes buf) o in
  (- b2z (negb (n / 2 =? 160)%nat), o).

(** The functions that the pointers [input] and [output] can hold. *)
Inductive input_fn := In_ulaw | In_alaw | In_linear.
Inductive output_fn := Out_ulaw | Out_alaw | Out_linear.

(** The calls through the pointers. *)
Definition call_input (f : input_fn) : input_t :=
  match f with In_ulaw => ulaw_input | In_alaw => alaw_input | In_linear => linear_input end.
Definition call_output (f : output_fn) : output_t :=
  match f with Out_ulaw => ulaw_output | Out_alaw => alaw_output | Out_linear => linear_output end.

(** ** Sun audio files *)

(** [put_u32]: -1 as soon as a byte cannot be written. *)
Definition put_u32 (u : Z) (o : ostream) : Z * ostream :=
  let '(eof, o) := fputc (i8 ((u >> 24) .& 0x0FF)) o in if eof then (-1, o) else
  let '(eof, o) := fputc (i8 ((u >> 16) .& 0x0FF)) o in if eof then (-1, o) else
  let '(eof, o) := fputc (i8 ((u >> 8) .& 0x0FF)) o in if eof then (-1, o) else
  let '(eof, o) := fputc (i8 (u .& 0x0FF)) o in if eof then (-1, o) else (0, o).

(** [get_u32]: [None] is -1. *)
Definition get_u32 (s : istream) : option Z * istream :=
  match fgetc s with (None, s) => (None, s) | (Some a, s) =>
  match fgetc s with (None, s) => (None, s) | (Some b, s) =>
  match fgetc s with (None, s) => (None, s) | (Some c, s) =>
  match fgetc s with (None, s) => (None, s) | (Some d, s) =>
  (Some (u64 (u64 (u64 (u8 a << 8 .| u8 b) << 8 .| u8 c) << 8 .| u8 d)), s)
  end end end end.

(** [fgetc(in) != c], for each character in turn. *)
Fixpoint expect (cs : list Z) (s : istream) : bool * istream :=
  match cs with
  | [] => (true, s)
  | c :: cs' =>
      match fgetc s with
      | (Some x, s) => if x =? c then expect cs' s else (false, s)
      | (None, s) => (false, s)
      end
  end.

(** The characters ['.'], ['s'], ['n'], ['d']. *)
Definition snd_magic : list Z := [46; 115; 110; 100].

(** [audio_init_input]: the result, the value assigned to [input], the stream. *)
Definition audio_init_input (s : istream) : Z * option input_fn * istream :=
  match expect snd_magic s with (false, s) => (-1, None, s) | (true, s) =>
  match get_u32 s with (None, s) => (-1, None, s) | (Some len, s) =>
  match get_u32 s with (None, s) => (-1, None, s) | (Some _, s) =>
  match get_u32 s with (None, s) => (-1, None, s) | (Some enc, s) =>
  match fseek_cur (i64 (u64 (len - 4 * 4))) s with (true, s) => (-1, None, s) | (false, s) =>
    (0, Some (if enc =? 1 then In_ulaw else if enc =? 2 then In_alaw
              else if enc =? 3 then In_linear else In_ulaw), s)
  end end end end end.

(** [put_u32(out, a) || put_u32(out, b) || ...] *)
Fixpoint put_all (us : list Z) (o : ostream) : Z * ostream :=
  match us with
  | [] => (0, o)
  | u :: us' => let '(r, o) := put_u32 u o in if r =? 0 then put_all us' o else (-1, o)
  end.

Definition audio_init_output (o : ostream) : Z * ostream :=
  let '(n, o) := fwrite snd_magic o in
  if negb (n =? 4)%nat then (-1, o)
  else put_all [32; u64 (Z.lnot 0); 1; 8000; 1; 0; 0] o.

(** ** The companding tables *)

(** A check of every entry of a table with its index. *)
Fixpoint all_indexed (p : Z -> Z -> bool) (i : Z) (l : list Z) : bool :=
  match l with
  | [] => true
  | x :: l' => p i x && all_indexed p (i + 1) l'
  end.

Lemma all_indexed_spec p l i j : all_indexed p i l = true -> 0 <= j < Z.of_nat (length l) -> p (i + j) l.[j] = true.
Proof.
  revert i j; induction l as [|x l IH]; intros i j H Hj; cbn [all_indexed length] in *; [lia |].
  apply andb_prop in H. destruct H as [H0 H1]. destruct (Z.eq_dec j 0) as [->|Hj0].
  - now rewrite Z.add_0_r.
  - specialize (IH (i + 1) (j - 1) H1 ltac:(lia)). replace (i + j) with (i + 1 + (j - 1)) by lia.
    unfold aget in *. replace (Z.to_nat j) with (S (Z.to_nat (j - 1))) by lia. exact IH.
Qed.

(** The entry of a table of codes that a sample selects, [k] being the number of
    bits dropped. *)
Lemma sample_index k x : 0 <= k <= 16 -> is_i16 x ->
  exists i r, 0 <= i < 2 ^ (16 - k) /\ 0 <= r < 2 ^ k /\ zext 16 x >> k = i /\ x = i16 (2 ^ k * i + r).
Proof.
  intros Hk Hx. pose proof (zext_range 16 x ltac:(lia)) as Hz.
  assert (E2 : 2 ^ 16 = 2 ^ k * 2 ^ (16 - k)) by (rewrite <- Z.pow_add_r by lia; f_equal; lia).
  exists (zext 16 x / 2 ^ k), (zext 16 x mod 2 ^ k).
  split; [split; [apply Z.div_pos; lia | apply Z.div_lt_upper_bound; lia] |].
  split; [apply Z.mod_pos_bound; lia |].
  split; [apply shiftr_div; lia |].
  rewrite <- Z.div_mod by lia. unfold i16. rewrite sext_zext by lia. symmetry. now apply i16_id.
Qed.

(** What is checked of an entry of [s2u] and of [s2a]. *)
Definition ulaw_entry_ok (i code : Z) : bool :=
  let y := i16 (U2S code) in
  all_range (8 * i) 8 (fun x => 32 * Z.abs (y - i16 x) <=? Z.abs (i16 x) + 256).
Definition alaw_entry_ok (i code : Z) : bool :=
  let y := i16 (A2S code) in
  all_range (16 * i) 16 (fun x => (i16 x <? 31760) || (y =? -31744)).

Lemma ulaw_entries : all_indexed ulaw_entry_ok 0 s2u = true.
Proof. vm_cast_no_check (eq_refl true). Qed.

Lemma alaw_entries : all_indexed alaw_entry_ok 0 s2a = true.
Proof. vm_cast_no_check (eq_refl true). Qed.

Lemma s2u_length : Z.of_nat (length s2u) = 2 ^ 13.
Proof. vm_compute. reflexivity. Qed.

Lemma s2a_length : Z.of_nat (length s2a) = 2 ^ 12.
Proof. vm_compute. reflexivity. Qed.

Lemma ulaw_entry i r : 0 <= i < 2 ^ 13 -> 0 <= r < 2 ^ 3 ->
  32 * Z.abs (i16 (U2S s2u.[i]) - i16 (2 ^ 3 * i + r)) <= Z.abs (i16 (2 ^ 3 * i + r)) + 256.
Proof.
  intros Hi Hr. rewrite <- s2u_length in Hi. generalize (all_indexed_spec _ _ _ i ulaw_entries Hi).
  generalize s2u.[i]. intros code H. unfold ulaw_entry_ok in H. apply Z.leb_le.
  apply (all_range_spec _ _ _ H). change (2 ^ 3) with 8 in *. lia.
Qed.

Lemma alaw_entry i r : 0 <= i < 2 ^ 12 -> 0 <= r < 2 ^ 4 -> 31760 <= i16 (2 ^ 4 * i + r) ->
  i16 (A2S s2a.[i]) = -31744.
Proof.
  intros Hi Hr. rewrite <- s2a_length in Hi. generalize (all_indexed_spec _ _ _ i alaw_entries Hi).
  generalize s2a.[i]. intros code H Hx. unfold alaw_entry_ok in H.
  pose proof (all_range_spec _ _ _ H (2 ^ 4 * i + r) ltac:(change (2 ^ 4) with 16 in *; lia)) as H'. cbv beta in H'.
  apply orb_prop in H'. destruct H' as [H'|H']; [apply Z.ltb_lt in H'; lia | now apply Z.eqb_eq].
Qed.

(** u-law codes survive the conversion to samples and back, except that
    the second code for zero, 127, becomes 255; and every sample is decoded to
    within a thirty-second of its size (plus 8) after being coded. *)
Theorem ulaw_companding (c x : Z) : is_u8 c -> is_i16 x ->
  S2U (i16 (U2S c)) = (if c =? 127 then 255 else c) /\
  32 * Z.abs (i16 (U2S (S2U x)) - x) <= Z.abs x + 256.
Proof.
  intros Hc Hx. split.
  - apply Z.eqb_eq. apply (all_range_spec 0 256 (fun c => S2U (i16 (U2S c)) =? if c =? 127 then 255 else c));
      [vm_cast_no_check (eq_refl true) | exact Hc].
  - destruct (sample_index 3 x) as (i & r & Hi & Hr & E & ->); [lia | assumption |].
    unfold S2U. rewrite E. now apply ulaw_entry.
Qed.

Lemma ulaw_companding_witness :
  S2U (i16 (U2S 3)) = 3 /\ 32 * Z.abs (i16 (U2S (S2U (-20000))) - -20000) <= 20256.
Proof. apply (ulaw_companding 3 (-20000)); unfold is_u8, is_i16; lia. Defined.

(** The two A-law tables do not fit together: converting any code to a
    sample and back flips its top bit, and the loudest positive samples come back
    as -31744. *)
Theorem alaw_companding_broken (c x : Z) : is_u8 c -> 31760 <= x <= 32767 ->
  S2A (i16 (A2S c)) = c .^ 128 /\ i16 (A2S (S2A x)) = -31744.
Proof.
  intros Hc Hx. split.
  - apply Z.eqb_eq. apply (all_range_spec 0 256 (fun c => S2A (i16 (A2S c)) =? c .^ 128));
      [vm_cast_no_check (eq_refl true) | exact Hc].
  - destruct (sample_index 4 x) as (i & r & Hi & Hr & E & Ex); [lia | unfold is_i16; lia |].
    unfold S2A. rewrite E. apply (alaw_entry i r); [assumption | assumption | lia].
Qed.

Lemma alaw_companding_broken_witness : S2A (i16 (A2S 5)) = 133 /\ i16 (A2S (S2A 32000)) = -31744.
Proof. apply (alaw_companding_broken 5 32000); unfold is_u8; lia. Defined.

(** ** What a format promises *)

(** [inp] reads samples of [width] bytes: from a stream whose remaining bytes
    are [l] it stores up to 160 of the samples [samples l] at the start of the
    buffer and returns how many; [reports] tells whether a read error gives -1. *)
Class SampleReader (inp : input_t) (width : nat) (reports : bool) (samples : list Z -> list Z) : Prop := {
  reader_width : (0 < width)%nat;
  samples_short l : Forall is_u8 l -> Forall is_i16 (samples l);
  samples_skip l : samples (skipn (160 * width) l) = skipn 160 (samples l);
  samples_nil : samples [] = [];
  reader_spec buf s : length buf = 160%nat ->
    let xs := firstn 160 (samples (irest s)) in
    inp buf s =
      (if reports && ibroken s && (length xs <? 160)%nat then -1 else Z.of_nat (length xs),
       xs ++ skipn (length xs) buf, iadvance s (min (160 * width) (length (irest s))))
}.

(** [out] writes the bytes [codes buf] of a buffer of 160 samples, or fails and
    sets the error indicator when they do not fit. *)
Class SampleWriter (out : output_t) (codes : list Z -> list Z) : Prop := {
  codes_bytes buf : Forall is_i16 buf -> Forall is_u8 (codes buf);
  writer_spec buf o : length buf = 160%nat ->
    exists o', out buf o = (if (length (codes buf) <=? oroom o)%nat then 0 else -1, o') /\
      if (length (codes buf) <=? oroom o)%nat
      then o' = mkOut (obytes o ++ codes buf) (oroom o - length (codes buf)) (oerror o)
      else oerror o' = true
}.

(** *** Readers *)

Lemma irest_advance s n : irest (iadvance s n) = skipn n (irest s).
Proof. unfold irest, iadvance. cbn [ipos ibytes]. rewrite skipn_skipn. f_equal. lia. Qed.

Lemma iadvance_add s n m : iadvance (iadvance s n) m = iadvance s (n + m).
Proof. unfold iadvance. cbn. now rewrite Nat.add_assoc. Qed.

Lemma iadvance_0 s : iadvance s 0 = s.
Proof. destruct s. unfold iadvance. cbn. now rewrite Nat.add_0_r. Qed.

Lemma aset_app_here (done : list Z) x y rest : aset (done ++ y :: rest) (Z.of_nat (length done)) x = done ++ x :: rest.
Proof. unfold aset. rewrite Nat2Z.id. induction done as [|d done IH]; cbn; congruence. Qed.

Lemma input_loop_spec conv left done rest s : length rest = left ->
  let xs := firstn left (map (fun c => i16 (conv c)) (irest s)) in
  input_loop conv left (Z.of_nat (length done)) (done ++ rest) s =
  (Z.of_nat (length done + length xs), (length xs <? left)%nat,
   done ++ xs ++ skipn (length xs) rest, iadvance s (min left (length (irest s)))).
Proof.
  revert done rest s; induction left as [|left IH]; intros done rest s Hl; cbn [input_loop].
  - destruct rest; [| discriminate]. cbn. now rewrite Nat.add_0_r, iadvance_0, app_nil_r.
  - destruct rest as [|y rest]; [discriminate |]. unfold fgetc.
    destruct (irest s) as [|c l] eqn:E.
    + cbn. now rewrite Nat.add_0_r, iadvance_0.
    + cbn [map firstn length Nat.min skipn]. rewrite aset_app_here.
      replace (done ++ i16 (conv c) :: rest) with ((done ++ [i16 (conv c)]) ++ rest) by now rewrite <- app_assoc.
      replace (Z.of_nat (length done) + 1) with (Z.of_nat (length (done ++ [i16 (conv c)])))
        by (rewrite length_app; cbn; lia).
      rewrite IH by (cbn in Hl; lia). rewrite irest_advance, E. cbn [skipn]. rewrite iadvance_add.
      rewrite length_app. cbn [length]. rewrite <- !app_assoc. cbn [app].
      rewrite <- Nat.add_assoc. reflexivity.
Qed.

(** A reader that converts each byte. *)
Lemma companded_reader (conv : Z -> Z) (inp : input_t) :
  (forall buf s, inp buf s = let '(i, eof, buf, s) := input_loop conv 160 0 buf s in
                             if eof && ferror_in s then (-1, buf, s) else (i, buf, s)) ->
  SampleReader inp 1 true (map (fun c => i16 (conv c))).
Proof.
  intros Hinp. split.
  - lia.
  - intros l _. apply Forall_map. apply Forall_forall. intros c _. apply i16_range.
  - intros l. now rewrite skipn_map.
  - reflexivity.
  - intros buf s Hb xs. rewrite Hinp.
    pose proof (input_loop_spec conv 160 [] buf s Hb) as H. cbv zeta in H. cbn [length app Z.of_nat] in H.
    rewrite H. fold xs. unfold ferror_in. cbn [ibroken iadvance]. rewrite Nat.mul_1_r. cbn [Nat.add andb].
    rewrite (andb_comm (ibroken s)). now destruct ((length xs <? 160)%nat && ibroken s).
Qed.

#[export] Instance ulaw_reader : SampleReader ulaw_input 1 true (map (fun c => i16 (U2S c))).
Proof. now apply companded_reader. Qed.

#[export] Instance alaw_reader : SampleReader alaw_input 1 true (map (fun c => i16 (A2S c))).
Proof. now apply companded_reader. Qed.

#[export] Instance linear_reader : SampleReader linear_input 2 false shorts.
Proof.
  split.
  - lia.
  - intros l _. apply shorts_words.
  - intros l. apply (shorts_skip 160).
  - reflexivity.
  - intros buf s Hb xs. unfold linear_input, fread. cbn [andb].
    change 320%nat with (2 * 160)%nat. rewrite shorts_firstn, (length_firstn (2 * 160) (irest s)). reflexivity.
Qed.

(** *** Writers *)

Lemma output_loop_spec conv buf o :
  exists o', output_loop conv buf o = (if (length buf <=? oroom o)%nat then 0 else -1, o') /\
    if (length buf <=? oroom o)%nat
    then o' = mkOut (obytes o ++ map (fun x => u8 (conv x)) buf) (oroom o - length buf) (oerror o)
    else oerror o' = true.
Proof.
  revert o; induction buf as [|x buf IH]; intros o; cbn [output_loop length map].
  - exists o. destruct o. cbn. now rewrite app_nil_r, Nat.sub_0_r.
  - unfold fputc, fwrite. cbn [length]. destruct (Nat.leb_spec 1 (oroom o)) as [H|H].
    + cbn [Nat.eqb negb]. destruct (IH (mkOut (obytes o ++ [u8 (conv x)]) (oroom o - 1) (oerror o))) as (o' & -> & Ho').
      cbn [oroom obytes oerror] in *. exists o'.
      replace (S (length buf) <=? oroom o)%nat with (length buf <=? oroom o - 1)%nat
        by (destruct (Nat.leb_spec (length buf) (oroom o - 1)), (Nat.leb_spec (S (length buf)) (oroom o)); lia || reflexivity).
      split; [reflexivity |]. destruct (_ <=? _)%nat; [| assumption]. rewrite Ho', <- app_assoc. f_equal. lia.
    + assert (oroom o = 0)%nat as -> by lia. cbn. eexists. split; [reflexivity | reflexivity].
Qed.

Lemma companded_writer (conv : Z -> Z) (out : output_t) : (forall buf o, out buf o = output_loop conv buf o) ->
  SampleWriter out (map (fun x => u8 (conv x))).
Proof.
  intros Hout. split.
  - intros buf _. apply Forall_map, Forall_forall. intros x _. apply u8_byte.
  - intros buf o _. rewrite Hout, length_map. apply output_loop_spec.
Qed.

#[export] Instance ulaw_writer : SampleWriter ulaw_output (map (fun x => u8 (i8 (S2U (zext 16 x))))).
Proof. now apply companded_writer. Qed.

#[export] Instance alaw_writer : SampleWriter alaw_output (map (fun x => u8 (S2A x))).
Proof. now apply companded_writer. Qed.

#[export] Instance linear_writer : SampleWriter linear_output (flat_map short_bytes).
Proof.
  split.
  - intros buf _. apply short_bytes_u8.
  - intros buf o Hb. unfold linear_output, fwrite. rewrite short_bytes_length, Hb. change (2 * 160)%nat with 320%nat.
    destruct (Nat.leb_spec 320 (oroom o)) as [H|H].
    + eexists. split; reflexivity.
    + replace (oroom o / 2 =? 160)%nat with false; [eexists; split; reflexivity |].
      symmetry. apply Nat.eqb_neq. pose proof (Nat.Div0.div_lt_upper_bound (oroom o) 2 160). lia.
Qed.

(** *** The functions behind the pointers *)

Definition input_width (f : input_fn) : nat := match f with In_linear => 2 | _ => 1 end.
Definition input_reports (f : input_fn) : bool := match f with In_linear => false | _ => true end.

(** The samples in a file. *)
Definition input_samples (f : input_fn) : list Z -> list Z :=
  match f with
  | In_ulaw => map (fun c => i16 (U2S c))
  | In_alaw => map (fun c => i16 (A2S c))
  | In_linear => shorts
  end.

(** The bytes of samples. *)
Definition output_codes (f : output_fn) : list Z -> list Z :=
  match f with
  | Out_ulaw => map (fun x => u8 (i8 (S2U (zext 16 x))))
  | Out_alaw => map (fun x => u8 (S2A x))
  | Out_linear => flat_map short_bytes
  end.

#[export] Instance call_input_reader f :
  SampleReader (call_input f) (input_width f) (input_reports f) (input_samples f).
Proof. destruct f; cbn; typeclasses eauto. Qed.

#[export] Instance call_output_writer f : SampleWriter (call_output f) (output_codes f).
Proof. destruct f; cbn; typeclasses eauto. Qed.

(** ** The header of a Sun audio file *)

Lemma fputc_fits c o : (0 < oroom o)%nat ->
  fputc c o = (false, mkOut (obytes o ++ [u8 c]) (oroom o - 1) (oerror o)).
Proof. intros H. unfold fputc, fwrite. cbn [length]. destruct (Nat.leb_spec 1 (oroom o)); [reflexivity | lia]. Qed.

(** The four bytes of a word, most significant first. *)
Definition u32_bytes (u : Z) : list Z := [u8 (u >> 24); u8 (u >> 16); u8 (u >> 8); u8 u].

Lemma u8_low_byte x : u8 (i8 (x .& 0x0FF)) = u8 x.
Proof.
  unfold u8, i8. rewrite zext_sext by lia. change 255 with (2 ^ 8 - 1). rewrite land_mask by lia.
  unfold zext. apply Z.mod_mod. lia.
Qed.

Lemma put_u32_fits u o : (4 <= oroom o)%nat ->
  put_u32 u o = (0, mkOut (obytes o ++ u32_bytes u) (oroom o - 4) (oerror o)).
Proof.
  intros H. unfold put_u32.
  do 4 (rewrite fputc_fits by (cbn [oroom]; lia); cbn [obytes oroom oerror]). rewrite !u8_low_byte, <- !app_assoc.
  cbn [app]. unfold u32_bytes. f_equal. f_equal. lia.
Qed.

Lemma put_all_fits us o : (4 * length us <= oroom o)%nat ->
  put_all us o = (0, mkOut (obytes o ++ flat_map u32_bytes us) (oroom o - 4 * length us) (oerror o)).
Proof.
  revert o; induction us as [|u us IH]; intros o H.
  - cbn. rewrite app_nil_r, Nat.sub_0_r. now destruct o.
  - cbn [put_all flat_map length] in *. rewrite put_u32_fits by lia. cbn [Z.eqb].
    rewrite IH by (cbn [oroom]; lia). cbn [obytes oroom oerror]. rewrite <- app_assoc. f_equal. f_equal. lia.
Qed.

(** The header that [audio_init_output] writes. *)
Definition audio_header : list Z := snd_magic ++ flat_map u32_bytes [32; u64 (Z.lnot 0); 1; 8000; 1; 0; 0].

Lemma audio_init_output_fits o : (32 <= oroom o)%nat ->
  audio_init_output o = (0, mkOut (obytes o ++ audio_header) (oroom o - 32) (oerror o)).
Proof.
  intros H. unfold audio_init_output, fwrite. change (length snd_magic) with 4%nat.
  destruct (Nat.leb_spec 4 (oroom o)); [| lia]. cbn [Nat.eqb negb].
  rewrite put_all_fits by (cbn; lia). cbn [obytes oroom oerror length]. unfold audio_header. rewrite <- app_assoc.
  f_equal. f_equal. lia.
Qed.

Lemma audio_init_input_header data broken :
  audio_init_input (mkIn (audio_header ++ data) 0 true broken) =
  (0, Some In_ulaw, mkIn (audio_header ++ data) 32 true broken).
Proof. reflexivity. Qed.

(** A file that does not start with the magic is refused. *)
Lemma expect_false cs s : firstn (length cs) (irest s) <> cs -> exists s', expect cs s = (false, s').
Proof.
  revert s; induction cs as [|c cs IH]; intros s H; [now destruct H |]. cbn [expect]. unfold fgetc.
  destruct (irest s) as [|x l] eqn:E; [now eexists |]. cbn [length firstn] in H.
  destruct (Z.eqb_spec x c) as [->|Hx]; [| now eexists]. apply IH. rewrite irest_advance, E. cbn [skipn].
  intros H'. apply H. now rewrite H'.
Qed.

(** A file that toast writes for the Sun audio format is one it reads:
    the header is 32 bytes long, the reader accepts it, selects u-law and is left
    at the first sample; a file without the magic is refused. *)
Theorem audio_header_roundtrip (room : nat) (data other : list Z) (broken : bool) : (32 <= room)%nat ->
  firstn 4 other <> snd_magic ->
  exists h, audio_init_output (mkOut [] room false) = (0, mkOut h (room - 32) false) /\ length h = 32%nat /\
    audio_init_input (mkIn (h ++ data) 0 true broken) = (0, Some In_ulaw, mkIn (h ++ data) 32 true broken) /\
    fst (fst (audio_init_input (mkIn other 0 true broken))) = -1.
Proof.
  intros Hroom Hother. exists audio_header. split; [apply audio_init_output_fits; assumption |].
  split; [reflexivity |]. split; [apply audio_init_input_header |].
  unfold audio_init_input. destruct (expect_false snd_magic (mkIn other 0 true broken)) as [s' ->]; auto.
Qed.

Lemma audio_header_roundtrip_witness : exists h, audio_init_output (mkOut [] 40 false) = (0, mkOut h 8 false) /\
    audio_init_input (mkIn (h ++ [1; 2]) 0 true false) = (0, Some In_ulaw, mkIn (h ++ [1; 2]) 32 true false).
Proof.
  destruct (audio_header_roundtrip 40 [1; 2] [82; 73; 70; 70] false) as (h & H1 & _ & H2 & _); [lia | discriminate |].
  exists h. split; [exact H1 | exact H2].
Defined.
