(* ===== verification/Toast.v ===== *)
(** * The toast command
    (src/mibench/telecomm/gsm: src/toast.c, inc/toast.h)

    The command line, the file names, the opening and replacing of files, the
    loops that code and decode a whole file, and what remains in the file system
    when a file has been processed or an error has occurred.

    The file system maps names to files, each with its contents, whether it is a
    regular file and its number of links; no two names denote the same file.  The
    record [os] says which system calls succeed, and after how many bytes reading
    a file fails.  Times, modes and owners of files, messages and signals are not
    modelled, but for the one message whose printing is undefined, which is a
    result of its own ([Bad_printf]); [emalloc], [fdopen] and [fclose] succeed.  A
    loop gives [None], and a command [Aborted], only if an assertion of the codec
    fails or the fuel of the loop runs out. *)

From Stdlib Require Import ZArith Lia List Bool Ascii String.
From stdpp Require Import gmap.
From S2P Require Import Prelude GsmState GsmFrame GsmCodec ToastTables ToastIO.
Import ListNotations.

Local Open Scope Z_scope.

(** ** Names *)

(** A C string: its characters, without the final zero. *)
Definition name : Type := list Z.

Definition str (s : string) : name := map (fun c => Z.of_N (N_of_ascii c)) (list_ascii_of_string s).

Definition SUFFIX_TOASTED : name := str ".gsm".

Definition name_eqb (a b : name) : bool := bool_decide (a = b).

(** [strrchr(name, '/')]: the characters after the last slash, if there is one. *)
Fixpoint after_slash (n : name) : option name :=
  match n with
  | [] => None
  | c :: n' => match after_slash n' with
               | Some r => Some r
               | None => if c =? 47 then Some n' else None
               end
  end.

(** [endname] of a name. *)
Definition endname (n : name) : name :=
  match after_slash n with
  | Some (c :: r) => c :: r
  | _ => n
  end.

(** [suffix(name, suf)]: the length of the name before the suffix. *)
Definition suffix (n suf : name) : option nat :=
  if (length suf =? 0)%nat || (length n <=? length suf)%nat then None
  else if name_eqb (skipn (length n - length suf) n) suf then Some (length n - length suf)%nat else None.

Definition has_suffix (n suf : name) : bool := match suffix n suf with Some _ => true | None => false end.

Definition normalname (n want cut : name) : name :=
  match suffix n cut with
  | Some k => firstn k n ++ want
  | None => if negb (length want =? 0)%nat && negb (has_suffix n want) then n ++ want else n
  end.

Definition plainname (n : name) : name := normalname n [] SUFFIX_TOASTED.
Definition codename (n : name) : name := normalname n SUFFIX_TOASTED [].

(** ** Formats *)

Record fmtdesc := mkFmt {
  fmt_name : name; fmt_suffix : name;
  fmt_init_input : istream -> Z * option input_fn * istream;
  fmt_init_output : ostream -> Z * ostream;
  fmt_input : input_fn; fmt_output : output_fn
}.

Definition generic_init_input (s : istream) : Z * option input_fn * istream := (0, None, s).
Definition generic_init_output (o : ostream) : Z * ostream := (0, o).

Definition f_audio : fmtdesc := mkFmt (str "audio") (str ".au") audio_init_input audio_init_output In_ulaw Out_ulaw.
Definition f_ulaw : fmtdesc := mkFmt (str "u-law") (str ".u") generic_init_input generic_init_output In_ulaw Out_ulaw.
Definition f_alaw : fmtdesc := mkFmt (str "A-law") (str ".A") generic_init_input generic_init_output In_alaw Out_alaw.
Definition f_linear : fmtdesc := mkFmt (str "linear") (str ".l") generic_init_input generic_init_output In_linear Out_linear.

Definition alldescs : list fmtdesc := [f_audio; f_alaw; f_ulaw; f_linear].

Definition DEFAULT_FORMAT : fmtdesc := f_ulaw.

(** [grok_format] of a name. *)
Definition grok_format (n : name) : option fmtdesc :=
  let c := plainname n in
  find (fun f => negb (length (fmt_suffix f) =? 0)%nat && has_suffix c (fmt_suffix f)) alldescs.

(** ** The state of the program *)

(** The option variables. *)
Record flags := mkFlags {
  f_decode : bool; f_cat : bool; f_force : bool; f_precious : bool; f_fast : Z; f_verbose : Z;
  f_format : option fmtdesc
}.

Definition initial_flags : flags := mkFlags false false false false 0 0 None.

Record node := mkNode { n_data : list Z; n_regular : bool; n_links : Z }.

(** Which system calls succeed, for each file ([read_fails]: the number of bytes
    after which reading fails, if it does); how much a file can hold; whether the
    standard error stream is a terminal; whether the codec can be allocated. *)
Record os := mkOs {
  can_read : name -> bool; can_create : name -> bool; can_write : name -> bool; can_unlink : name -> bool;
  read_fails : name -> option nat; can_stat : name -> bool; room : name -> nat; is_tty : bool; can_malloc : bool
}.

(** The files, the standard streams, and the array [e] of the coder, which is
    static there. *)
Record world := mkWorld { w_fs : gmap name node; w_stdin : istream; w_stdout : ostream; w_e : list Z }.

Definition set_fs (w : world) fs := mkWorld fs (w_stdin w) (w_stdout w) (w_e w).
Definition set_stdin (w : world) s := mkWorld (w_fs w) s (w_stdout w) (w_e w).
Definition set_stdout (w : world) o := mkWorld (w_fs w) (w_stdin w) o (w_e w).
Definition set_e (w : world) e := mkWorld (w_fs w) (w_stdin w) (w_stdout w) e.

(** How a part of the program can end: it returns; it prints an integer with the
    conversion "%s", which is undefined; or it aborts. *)
Inductive exec (A : Type) :=
| Done (a : A)
| Bad_printf
| Aborted.

Arguments Done {A} a.
Arguments Bad_printf {A}.
Arguments Aborted {A}.

Definition exec_bind {A B} (m : exec A) (k : A -> exec B) : exec B :=
  match m with Done a => k a | Bad_printf => Bad_printf | Aborted => Aborted end.

Notation "'do*' x ':=' m 'in' k" := (exec_bind m (fun x => k)) (at level 10, x pattern, m at level 100, k at level 200).

Definition of_loop {A} (m : option A) : exec A := match m with Some a => Done a | None => Aborted end.

(** ** Opening files *)

(** A file with other links whose source name would be removed: the message about
    it passes the number of links to "%s". *)
Definition linked (fl : flags) (nd : node) : bool := (n_links nd >? 1) && negb (f_cat fl) && negb (f_precious fl).

(** [okay_as_input] *)
Definition okay_as_input (P : os) (fl : flags) (n : name) (nd : node) : exec bool :=
  if negb (can_stat P n) then Done false
  else if negb (n_regular nd) then Done false
  else if linked fl nd then Bad_printf
  else Done true.

(** The stream of an opened file: its bytes, or those before the read error. *)
Definition read_up_to (k : option nat) (data : list Z) : list Z :=
  match k with Some k => firstn k data | None => data end.

Definition file_stream (P : os) (n : name) (nd : node) : istream :=
  mkIn (read_up_to (read_fails P n) (n_data nd)) 0 true (match read_fails P n with Some _ => true | None => false end).

(** [open_input]: [inname] (null for the standard input), [in], and the format
    that [prepare_io] installs; [None] is the result 0. *)
Definition open_input (P : os) (fl : flags) (n : option name) (w : world)
  : exec (option (option name * istream * fmtdesc)) :=
  match n with
  | None => Done (Some (None, w_stdin w, match f_format fl with Some f => f | None => DEFAULT_FORMAT end))
  | Some n =>
      if negb (f_decode fl) && negb (f_cat fl) && has_suffix n SUFFIX_TOASTED then Done None
      else
        let inname := if f_decode fl then codename n else n in
        match w_fs w !! inname with
        | None => Done None
        | Some nd =>
            if negb (can_read P inname) then Done None
            else
              do* okay := okay_as_input P fl inname nd in
              if negb okay then Done None
              else
                let f := match f_format fl with Some f => Some f | None => grok_format inname end in
                Done (Some (Some inname, file_stream P inname nd, match f with Some f => f | None => DEFAULT_FORMAT end))
        end
  end.

(** [for (c = reply = getchar(); c != '\n' && c != EOF; c = getchar()) ;]: the
    rest of the line is skipped. *)
Fixpoint skip_line (fuel : nat) (c : option Z) (s : istream) : istream :=
  match fuel with
  | O => s
  | S f => match c with
           | None => s
           | Some x => if x =? 10 then s else let '(c, s) := fgetc s in skip_line f c s
           end
  end.

(** [ok_to_replace]: the answer, and the standard input. *)
Definition ok_to_replace (P : os) (fl : flags) (s : istream) : bool * istream :=
  if f_force fl then (true, s)
  else if negb (is_tty P) then (false, s)
  else
    let '(reply, s) := fgetc s in
    let s := skip_line (S (length (ibytes s))) reply s in
    (match reply with Some x => x =? 121 | None => false end, s).

(** [length_okay]: in this configuration neither [NAME_MAX] nor [USE_PATHCONF]
    is defined, so that only a null name is refused. *)
Definition length_okay (n : option name) : bool := match n with Some _ => true | None => false end.

Definition new_file : node := mkNode [] true 1.

(** [open_output]: [outname] (null for the standard output) and the stream;
    [None] is the result 0. *)
Definition open_output (P : os) (fl : flags) (n : option name) (w : world)
  : option (option name * ostream) * world :=
  match n with
  | None => (Some (None, w_stdout w), w)
  | Some n =>
      if f_cat fl then (Some (None, w_stdout w), w)
      else
        let o := if f_decode fl then plainname n else codename n in
        if negb (length_okay (Some o)) then (None, w)
        else
          match w_fs w !! o with
          | None => if can_create P o
                    then (Some (Some o, mkOut [] (room P o) false), set_fs w (<[o := new_file]> (w_fs w)))
                    else (None, w)
          | Some nd =>
              let '(ok, s) := ok_to_replace P fl (w_stdin w) in
              let w := set_stdin w s in
              if negb ok then (None, w)
              else if can_write P o
              then (Some (Some o, mkOut [] (room P o) false),
                    set_fs w (<[o := mkNode [] (n_regular nd) (n_links nd)]> (w_fs w)))
              else (None, w)
          end
  end.

(** ** Coding a file *)

(** [memset((char * )(s+cc), 0, ...)]: the samples from [cc] on are cleared. *)
Definition clear_tail (cc : Z) (s : list Z) : list Z :=
  if cc <? 160 then firstn (Z.to_nat cc) s ++ repeat 0 (160 - Z.to_nat cc) else s.

(** The loop of [process_encode]; [s] is the sample buffer.  The result is 0 or
    -1, with the streams and the coder's static array. *)
Fixpoint encode_loop (fuel : nat) (input : input_fn) (r : gsm_state) (e s : list Z) (i : istream) (o : ostream)
  : option (Z * istream * ostream * list Z) :=
  match fuel with
  | O => None
  | S f =>
      let '(cc, s, i) := call_input input s i in
      if cc >? 0 then
        let s := clear_tail cc s in
        let* (d, r, e) := gsm_encode r e s in
        let '(n, o) := fwrite d o in
        if negb (n / 33 =? 1)%nat then Some (-1, i, o, e)
        else encode_loop f input r e s i o
      else if cc <? 0 then Some (-1, i, o, e)
      else Some (0, i, o, e)
  end.

(** [gsm_create] and the options of [process_encode] and [process_decode]. *)
Definition codec_create (P : os) (fl : flags) : option gsm_state :=
  match gsm_create (can_malloc P) with
  | None => None
  | Some r =>
      let r := snd (gsm_option r GSM_OPT_FAST (Some (f_fast fl))) in
      Some (snd (gsm_option r GSM_OPT_VERBOSE (Some (f_verbose fl))))
  end.

(** The uninitialised buffer [s]: each round overwrites it, with the samples read
    and zeros after them. *)
Definition stack_samples : list Z := repeat 0 160.

Definition process_encode (P : os) (fl : flags) (input : input_fn) (e : list Z) (i : istream) (o : ostream)
  : option (Z * istream * ostream * list Z) :=
  match codec_create P fl with
  | None => Some (-1, i, o, e)
  | Some r => encode_loop (S (length (ibytes i))) input r e stack_samples i o
  end.

Fixpoint decode_loop (fuel : nat) (output : output_fn) (r : gsm_state) (i : istream) (o : ostream)
  : option (Z * istream * ostream) :=
  match fuel with
  | O => None
  | S f =>
      let '(s, i) := fread 33 i in
      let cc := Z.of_nat (length s) in
      if cc >? 0 then
        if negb (cc =? 33) then Some (-1, i, o)
        else
          let* (bad, d, r) := gsm_decode r s in
          if negb (bad =? 0) then Some (-1, i, o)
          else
            let '(res, o) := call_output output d o in
            if res <? 0 then Some (-1, i, o)
            else decode_loop f output r i o
      else if cc <? 0 then Some (-1, i, o)
      else Some (0, i, o)
  end.

Definition process_decode (P : os) (fl : flags) (output : output_fn) (i : istream) (o : ostream)
  : option (Z * istream * ostream) :=
  match codec_create P fl with
  | None => Some (-1, i, o)
  | Some r => decode_loop (S (length (ibytes i))) output r i o
  end.

(** ** One file *)

(** Unlinking a file, where the system allows it. *)
Definition unlink (P : os) (n : name) (w : world) : world :=
  if can_unlink P n then set_fs w (delete n (w_fs w)) else w.

(** The output stream is closed or flushed: what was written is in the file, or
    in the standard output. *)
Definition close_out (outname : option name) (o : ostream) (w : world) : world :=
  match outname with
  | None => set_stdout w o
  | Some n => match w_fs w !! n with
              | Some nd => set_fs w (<[n := mkNode (obytes o) (n_regular nd) (n_links nd)]> (w_fs w))
              | None => w
              end
  end.

(** Reading the standard input moves it. *)
Definition close_in (inname : option name) (i : istream) (w : world) : world :=
  match inname with None => set_stdin w i | Some _ => w end.

(** The label [err]: the output file is closed and removed. *)
Definition process_err (P : os) (outname : option name) (o : ostream) (w : world) : Z * world :=
  let w := close_out outname o w in
  (-1, match outname with Some n => unlink P n w | None => w end).

(** What [process] does between the opening and the closing of the files: the
    header and the data. *)
Definition convert (P : os) (fl : flags) (f : fmtdesc) (e : list Z) (i : istream) (o : ostream)
  : option (Z * istream * ostream * list Z) :=
  if f_decode fl then
    let '(r, o) := fmt_init_output f o in
    if negb (r =? 0) then Some (-1, i, o, e)
    else let* (r, i, o) := process_decode P fl (fmt_output f) i o in Some (r, i, o, e)
  else
    let '(r, inp, i) := fmt_init_input f i in
    if negb (r =? 0) then Some (-1, i, o, e)
    else process_encode P fl (match inp with Some g => g | None => fmt_input f end) e i o.

Definition process (P : os) (fl : flags) (n : option name) (w : world) : exec (Z * world) :=
  do* opened := open_input P fl n w in
  match opened with
  | None => Done (-1, w)
  | Some (inname, i, f) =>
      let '(out, w) := open_output P fl n w in
      match out with
      | None => Done (-1, w)
      | Some (outname, o) =>
          do* (r, i, o, e) := of_loop (convert P fl f (w_e w) i o) in
          let w := close_in inname i (set_e w e) in
          if negb (r =? 0) then Done (process_err P outname o w)
          else if oerror o then Done (process_err P outname o w)
          else
            let w := close_out outname o w in
            match inname with
            | None => Done (0, w)
            | Some inn =>
                (* [goto err] follows the removal of the source: the result is -1,
                   but [out] and [in] are null by then *)
                if negb (f_cat fl) && negb (f_precious fl) then Done (-1, unlink P inn w)
                else Done (0, w)
            end
      end
  end.

(** ** The command line *)

(** [parse_argv0] *)
Definition parse_argv0 (av0 : option name) (fl : flags) : flags :=
  let av0 := endname (match av0 with Some n => n | None => str "toast" end) in
  let fl := if name_eqb (firstn 2 av0) (str "un")
            then mkFlags true (f_cat fl) (f_force fl) (f_precious fl) (f_fast fl) (f_verbose fl) (f_format fl) else fl in
  if (3 <=? length av0)%nat && name_eqb (skipn (length av0 - 3) av0) (str "cat")
  then mkFlags true true (f_force fl) (f_precious fl) (f_fast fl) (f_verbose fl) (f_format fl) else fl.

(** [set_format]: [None] is [exit(1)].  Formats are compared by name, as their
    descriptions are distinct objects with distinct names. *)
Definition set_format (f : fmtdesc) (fl : flags) : option flags :=
  match f_format fl with
  | Some g => if name_eqb (fmt_name g) (fmt_name f) then Some fl else None
  | None => Some (mkFlags (f_decode fl) (f_cat fl) (f_force fl) (f_precious fl) (f_fast fl) (f_verbose fl) (Some f))
  end.

(** The switch on one option character: the new flags or an exit status. *)
Definition toast_option (opt : Z) (fl : flags) : flags + Z :=
  let with_format f := match set_format f fl with Some fl => inl fl | None => inr 1 end in
  if opt =? 100 then inl (mkFlags true (f_cat fl) (f_force fl) (f_precious fl) (f_fast fl) (f_verbose fl) (f_format fl))
  else if opt =? 102 then inl (mkFlags (f_decode fl) (f_cat fl) true (f_precious fl) (f_fast fl) (f_verbose fl) (f_format fl))
  else if opt =? 99 then inl (mkFlags (f_decode fl) true (f_force fl) (f_precious fl) (f_fast fl) (f_verbose fl) (f_format fl))
  else if opt =? 112 then inl (mkFlags (f_decode fl) (f_cat fl) (f_force fl) true (f_fast fl) (f_verbose fl) (f_format fl))
  else if opt =? 70 then inl (mkFlags (f_decode fl) (f_cat fl) (f_force fl) (f_precious fl) 1 (f_verbose fl) (f_format fl))
  else if opt =? 86 then inl (mkFlags (f_decode fl) (f_cat fl) (f_force fl) (f_precious fl) (f_fast fl) 1 (f_format fl))
  else if opt =? 117 then with_format f_ulaw
  else if opt =? 108 then with_format f_linear
  else if opt =? 97 then with_format f_alaw
  else if opt =? 115 then with_format f_audio
  else if (opt =? 118) || (opt =? 104) then inr 0
  else inr 1.

Fixpoint toast_options (opts : list Z) (fl : flags) : flags + Z :=
  match opts with
  | [] => inl fl
  | opt :: opts' => match toast_option opt fl with inl fl => toast_options opts' fl | inr c => inr c end
  end.

Fixpoint process_all (P : os) (fl : flags) (names : list name) (w : world) : exec world :=
  match names with
  | [] => Done w
  | n :: names' => do* (_, w) := process P fl (Some n) w in process_all P fl names' w
  end.

(** The flags after the options: [-c] implies [-p]. *)
Definition command_flags (av0 : option name) (opts : list Z) : flags + Z :=
  match toast_options opts (parse_argv0 av0 initial_flags) with
  | inl fl => inl (mkFlags (f_decode fl) (f_cat fl) (f_force fl) (f_precious fl || f_cat fl) (f_fast fl) (f_verbose fl) (f_format fl))
  | inr c => inr c
  end.

(** [main], with the option characters [getopt] returns and the remaining
    arguments: the exit status and what is left. *)
Definition toast_main (P : os) (av0 : option name) (opts : list Z) (names : list name) (w : world) : exec (Z * world) :=
  match command_flags av0 opts with
  | inr c => Done (c, w)
  | inl fl =>
      do* w := match names with
               | [] => do* (_, w) := process P fl None w in Done w
               | _ => process_all P fl names w
               end in
      Done (0, w)
  end.

(** Two of the names under which the Makefile installs the program. *)
Definition name_toast : name := str "toast".
Definition name_untoast : name := str "untoast".
