(* ===== verification/ToastStream.v ===== *)
(** * Coding and decoding a stream

    The loops of [process_encode] and [process_decode] end for every stream and
    produce exactly the frames of its samples, or the samples of its frames, or
    fail because the stream is damaged, cannot be read or does not fit; what is
    proved of a format is the class [FormatOk]. *)

From Stdlib Require Import ZArith Lia List Bool.
From stdpp Require Import gmap.
From S2P Require Import Prelude GsmState GsmFrame GsmCodec ToastTables ToastIO Toast.
Import ListNotations.

Local Open Scope Z_scope.

(** ** Frames *)

Definition good_frame (d : list Z) : Prop := frame_ok d /\ d.[0] / 16 = GSM_MAGIC.

Lemma pack_frame_good p : params_ok p -> good_frame (pack_frame p).
Proof.
  intros Hp. split; [apply pack_frame_ok |]. pose proof (unpack_pack_frame p Hp) as H. unfold unpack_frame in H.
  pose proof (frame_byte _ 0 (pack_frame_ok p)) as H0. unfold is_byte in H0.
  destruct (Z.eqb_spec (((pack_frame p).[0] >> 4) .& 0x0F) GSM_MAGIC) as [E|]; [| discriminate].
  rewrite <- E. change 15 with (2 ^ 4 - 1). rewrite land_mask, shiftr_div by lia.
  change (2 ^ 4) with 16. rewrite Z.mod_small; [reflexivity |]. zlia.
Qed.

(** One call of the coder, as the loop uses it. *)
Lemma encode_step r e s : coder_ok r -> words 50 e -> words 160 s ->
  exists d r' e', gsm_encode r e s = Some (d, r', e') /\ good_frame d /\ coder_ok r' /\ words 50 e'.
Proof.
  intros Hr He Hs. destruct (gsm_encode_total r e s Hr He Hs) as (p & r' & e' & _ & E & Hp & _ & Hr' & He').
  exists (pack_frame p), r', e'. auto using pack_frame_good.
Qed.

(** One call of the decoder on a good frame. *)
Lemma decode_step r d : decoder_ok r -> good_frame d ->
  exists s r', gsm_decode r d = Some (0, s, r') /\ words 160 s /\ decoder_ok r'.
Proof.
  intros Hr [Hd Hm]. destruct (gsm_decode_total r d Hr Hd) as (b & s & r' & E & Hr' & _ & H).
  destruct (H Hm) as (-> & Hs & _). eauto.
Qed.

Lemma codec_create_ok P fl r : codec_create P fl = Some r -> coder_ok r /\ decoder_ok r.
Proof.
  unfold codec_create, gsm_create. destruct (can_malloc P); [| discriminate]. intros H.
  injection H as <-. cbn -[repeat i8].
  split.
  - destruct gsm_initial_coder as [H1 H2 H3]. split; [exact H1 | exact H2 | exact H3].
  - destruct gsm_initial_decoder as [H1 H2 H3 H4]. split; [exact H1 | exact H2 | exact H3 | exact H4].
Qed.

(** ** Coding a stream of samples *)

(** A block of samples filled up with zeros. *)
Definition pad (xs : list Z) : list Z := xs ++ repeat 0 (160 - length xs).

(** The number of blocks. *)
Definition blocks (xs : list Z) : nat := (length xs + 159) / 160.

(** The frames of the samples [xs], coded one after the other from the state
    [r]; and the coder's array at the end. *)
Fixpoint frames_of (n : nat) (r : gsm_state) (e xs : list Z) : option (list Z * list Z) :=
  match n with
  | O => Some ([], e)
  | S n' =>
      let* (d, r, e) := gsm_encode r e (pad (firstn 160 xs)) in
      let* (ds, e) := frames_of n' r e (skipn 160 xs) in
      Some (d ++ ds, e)
  end.

Lemma pad_words xs : (length xs <= 160)%nat -> Forall is_i16 xs -> words 160 (pad xs).
Proof.
  intros Hl Hx. split; [unfold pad; rewrite length_app, repeat_length; lia |].
  apply Forall_app. split; [assumption | apply (words_repeat (160 - length xs))].
Qed.

Lemma blocks_0 xs : blocks xs = 0%nat <-> xs = [].
Proof.
  unfold blocks. split; [| intros ->; reflexivity]. intros H. apply length_zero_iff_nil.
  apply Nat.div_small_iff in H; lia.
Qed.

Lemma blocks_S xs : xs <> [] -> blocks xs = S (blocks (skipn 160 xs)).
Proof.
  intros H. unfold blocks. rewrite length_skipn. destruct xs as [|x xs]; [easy |].
  pose proof (Nat.div_mod_eq (length (x :: xs) + 159) 160).
  destruct (Nat.le_gt_cases (length (x :: xs)) 160) as [Hl|Hl].
  - replace (length (x :: xs) - 160)%nat with 0%nat by lia. change ((0 + 159) / 160)%nat with 0%nat.
    symmetry. apply (Nat.div_unique _ 160 1 (length (x :: xs) - 1)); cbn [length] in *; lia.
  - replace (length (x :: xs) + 159)%nat with (length (x :: xs) - 160 + 159 + 1 * 160)%nat by lia.
    rewrite Nat.div_add by lia. lia.
Qed.

(** A stream of good frames. *)
Inductive good_stream : nat -> list Z -> Prop :=
| good_nil : good_stream 0 []
| good_cons n d ds : good_frame d -> good_stream n ds -> good_stream (S n) (d ++ ds).

Lemma good_stream_length n ds : good_stream n ds -> length ds = (33 * n)%nat.
Proof. induction 1 as [|n d ds [[Hd _] _] _ IH]; [reflexivity |]. rewrite length_app, Hd, IH. lia. Qed.

Lemma good_stream_bytes n ds : good_stream n ds -> Forall is_u8 ds.
Proof. induction 1 as [|n d ds [[_ Hd] _] _ IH]; [constructor |]. apply Forall_app. auto. Qed.

Lemma frames_of_total n r e xs : coder_ok r -> words 50 e -> Forall is_i16 xs ->
  exists ds e', frames_of n r e xs = Some (ds, e') /\ good_stream n ds /\ words 50 e'.
Proof.
  revert r e xs; induction n as [|n IH]; intros r e xs Hr He Hx; cbn [frames_of].
  - exists [], e. repeat split; [constructor | apply He | apply He].
  - destruct (encode_step r e (pad (firstn 160 xs))) as (d & r' & e' & -> & Hd & Hr' & He'); auto.
    { apply pad_words; [rewrite length_firstn; lia | now apply Forall_firstn]. }
    cbn [bind]. destruct (IH r' e' (skipn 160 xs)) as (ds & e'' & -> & Hds & He''); auto using Forall_skipn.
    exists (d ++ ds), e''. cbn [bind]. split; [reflexivity |]. split; [now constructor | assumption].
Qed.

(** ** The coding loop *)

Lemma clear_tail_pad ys s : (length ys <= 160)%nat -> length s = 160%nat ->
  clear_tail (Z.of_nat (length ys)) (ys ++ skipn (length ys) s) = pad ys.
Proof.
  intros Hy Hs. unfold clear_tail, pad. rewrite Nat2Z.id.
  destruct (Z.ltb_spec (Z.of_nat (length ys)) 160).
  - now rewrite firstn_app, Nat.sub_diag, firstn_all, firstn_O, app_nil_r.
  - replace (length ys) with 160%nat by lia. rewrite skipn_all2 by lia. reflexivity.
Qed.

Lemma skipn_min {A} n (l : list A) : skipn (min n (length l)) l = skipn n l.
Proof.
  destruct (Nat.le_ge_cases n (length l)); [now rewrite Nat.min_l |].
  rewrite Nat.min_r by lia. now rewrite skipn_all, skipn_all2.
Qed.

(** A frame is written whole or the write fails. *)
Lemma write_frame d o : length d = 33%nat ->
  let '(n, o') := fwrite d o in
  if (33 <=? oroom o)%nat
  then n = 33%nat /\ o' = mkOut (obytes o ++ d) (oroom o - 33) (oerror o)
  else (n / 33 = 0)%nat.
Proof.
  intros Hd. unfold fwrite. rewrite Hd. destruct (Nat.leb_spec 33 (oroom o)); [auto |]. now apply Nat.div_small.
Qed.

Section Coding.
Context (inp : input_fn) {width : nat} {reports : bool} {samples : list Z -> list Z}.
Context `{R : !SampleReader (call_input inp) width reports samples}.

Lemma encode_loop_run fuel r e s i o : coder_ok r -> words 50 e -> length s = 160%nat ->
  Forall is_u8 (irest i) -> (length (irest i) < fuel)%nat ->
  let xs := samples (irest i) in
  exists res i' o' e', encode_loop fuel inp r e s i o = Some (res, i', o', e') /\
    words 50 e' /\ ibytes i' = ibytes i /\
    ((res = 0 /\ reports && ibroken i = false /\ (33 * blocks xs <= oroom o)%nat /\
      exists ds, frames_of (blocks xs) r e xs = Some (ds, e') /\
        o' = mkOut (obytes o ++ ds) (oroom o - 33 * blocks xs) (oerror o)) \/
     (res = -1 /\ (reports && ibroken i = true \/ (oroom o < 33 * blocks xs)%nat))).
Proof.
  revert r e s i o; induction fuel as [|fuel IH]; intros r e s i o Hr He Hs Hb Hf xs; [lia |].
  cbn [encode_loop]. rewrite (reader_spec s i Hs). fold xs.
  assert (Exs : xs = samples (irest i)) by reflexivity. clearbody xs.
  assert (Hxs : Forall is_i16 xs) by (subst xs; now apply samples_short).
  assert (Hys : (length (firstn 160 xs) <= 160)%nat) by (rewrite length_firstn; lia).
  set (i' := iadvance i _).
  destruct (reports && ibroken i && (length (firstn 160 xs) <? 160)%nat) eqn:Erep.
  { cbn [Z.gtb Z.ltb Z.compare]. apply andb_prop in Erep as [Erep _].
    exists (-1), i', o, e. repeat split; try apply He. right. auto. }
  destruct (decide (xs = [])) as [->|Hne].
  { cbn [firstn length Z.of_nat Z.gtb Z.ltb Z.compare]. rewrite andb_true_r in Erep.
    exists 0, i', o, e. repeat split; try apply He. left. repeat split; [assumption | cbn; lia |].
    exists []. split; [reflexivity |]. destruct o. cbn. now rewrite app_nil_r, Nat.sub_0_r. }
  destruct (Z.gtb_spec (Z.of_nat (length (firstn 160 xs))) 0) as [_|Hz]; [| destruct xs; [easy | cbn in Hz; lia]].
  set (ys := firstn 160 xs) in *.
  rewrite clear_tail_pad by assumption.
  destruct (encode_step r e (pad ys)) as (d & r' & e' & Eenc & Hd & Hr' & He'); auto.
  { apply pad_words; [assumption | now apply Forall_firstn]. }
  rewrite Eenc. cbn [bind]. pose proof (write_frame d o (proj1 (proj1 Hd))) as Hw.
  destruct (fwrite d o) as [n o1]. rewrite (blocks_S xs) by assumption.
  destruct (Nat.leb_spec 33 (oroom o)) as [Hroom|Hroom].
  2:{ rewrite Hw. cbn [Nat.eqb negb]. exists (-1), i', o1, e'. repeat split; try apply He'. right. split; [reflexivity |].
      right. lia. }
  destruct Hw as [-> ->]. cbn [Nat.div Nat.eqb negb].
  assert (Ei : irest i' = skipn (160 * width) (irest i)).
  { unfold i'. rewrite irest_advance. apply skipn_min. }
  assert (Hlen : (length (irest i') < fuel)%nat).
  { rewrite Ei, length_skipn. pose proof reader_width. destruct (irest i) as [|b l] eqn:Eb; [| cbn [length] in *; lia].
    exfalso. apply Hne. rewrite Exs. apply samples_nil. }
  destruct (IH r' e' (pad ys) i' (mkOut (obytes o ++ d) (oroom o - 33) (oerror o)) Hr' He')
    as (res & i2 & o2 & e2 & Erun & He2 & Hi2 & Hcase); auto.
  { apply pad_words; [assumption | now apply Forall_firstn]. }
  { rewrite Ei. now apply Forall_skipn. }
  rewrite Ei, samples_skip, <- Exs in Hcase. cbn [oroom obytes oerror ibroken i' iadvance] in Hcase.
  exists res, i2, o2, e2. change ((33 / 33 =? 1)%nat) with true. cbn [negb]. rewrite Erun.
  split; [reflexivity |]. split; [assumption |]. split; [now rewrite Hi2 |].
  destruct Hcase as [(-> & Hrep & Hfit & ds & Eds & ->)|(-> & Hwhy)]; [left | right].
  - repeat split; [assumption | lia |]. exists (d ++ ds). cbn [frames_of]. fold ys. rewrite Eenc. cbn [bind].
    rewrite Eds. cbn [bind]. split; [reflexivity |]. rewrite <- app_assoc. f_equal. lia.
  - split; [reflexivity |]. destruct Hwhy as [Hwhy|Hwhy]; [auto | right; lia].
Qed.

End Coding.

(** ** The decoding loop *)

Section Decoding.
Context (out : output_fn) (codes : list Z -> list Z) `{W : !SampleWriter (call_output out) codes}.

(** What the frames in [ds], [n] of them and nothing more, decode to. *)
Fixpoint samples_of (n : nat) (r : gsm_state) (ds : list Z) : option (list Z) :=
  match n with
  | O => if (length ds =? 0)%nat then Some [] else None
  | S n' =>
      let* (bad, s, r) := gsm_decode r (firstn 33 ds) in
      if bad =? 0 then let* rest := samples_of n' r (skipn 33 ds) in Some (codes s ++ rest) else None
  end.

Lemma samples_of_exact n r ds l : samples_of n r ds = Some l -> length ds = (33 * n)%nat \/ (length ds < 33 * n)%nat.
Proof.
  revert r ds l; induction n as [|n IH]; intros r ds l E; cbn [samples_of] in E.
  - destruct (Nat.eqb_spec (length ds) 0); [left; lia | discriminate].
  - destruct (gsm_decode r (firstn 33 ds)) as [[[b s] r']|]; [| discriminate]. cbn [bind] in E.
    destruct (b =? 0); [| discriminate]. destruct (samples_of n r' (skipn 33 ds)) as [rest|] eqn:Erest; [| discriminate].
    apply IH in Erest. rewrite length_skipn in Erest. lia.
Qed.

Lemma samples_of_bytes n r ds l : decoder_ok r -> Forall is_u8 ds -> length ds = (33 * n)%nat ->
  samples_of n r ds = Some l -> Forall is_u8 l.
Proof.
  revert r ds l; induction n as [|n IH]; intros r ds l Hr Hd Hl E; cbn [samples_of] in E.
  - destruct (length ds =? 0)%nat; [injection E as <-; constructor | discriminate].
  - assert (Hf : frame_ok (firstn 33 ds)) by (split; [rewrite length_firstn; lia | now apply Forall_firstn]).
    destruct (gsm_decode_total r _ Hr Hf) as (b & s & r' & Edec & Hr' & Hbad & Hgood). rewrite Edec in E. cbn [bind] in E.
    destruct (Z.eqb_spec b 0) as [->|]; [| discriminate].
    destruct (Z.eq_dec ((firstn 33 ds).[0] / 16) GSM_MAGIC) as [Hm|Hm]; [| destruct (Hbad Hm); lia].
    destruct (samples_of n r' (skipn 33 ds)) as [rest|] eqn:Erest; [| discriminate]. injection E as <-.
    apply Forall_app. split; [apply codes_bytes, (proj2 (proj1 (proj2 (Hgood Hm)))) |].
    apply (IH r' (skipn 33 ds)); auto using Forall_skipn. rewrite length_skipn. lia.
Qed.

Lemma decode_loop_run fuel r i o : decoder_ok r -> Forall is_u8 (irest i) -> (length (irest i) < fuel)%nat ->
  let ds := irest i in
  exists res i' o', decode_loop fuel out r i o = Some (res, i', o') /\ ibytes i' = ibytes i /\
    ((res = 0 /\ exists l, samples_of (length ds / 33) r ds = Some l /\ (length l <= oroom o)%nat /\
        o' = mkOut (obytes o ++ l) (oroom o - length l) (oerror o)) \/
     (res = -1 /\ forall l, samples_of (length ds / 33) r ds = Some l -> (oroom o < length l)%nat)).
Proof.
  revert r i o; induction fuel as [|fuel IH]; intros r i o Hr Hb Hf ds; [lia |].
  cbn [decode_loop]. unfold fread. set (i' := iadvance i _). fold ds. change (length ds < S fuel)%nat in Hf.
  assert (Hi' : irest i' = skipn 33 ds).
  { unfold i'. rewrite irest_advance, length_firstn. apply skipn_min. }
  assert (Hfirst : length (firstn 33 ds) = min 33 (length ds)) by apply length_firstn.
  destruct (Z.gtb_spec (Z.of_nat (length (firstn 33 ds))) 0) as [Hcc|Hcc].
  2:{ assert (Hds : ds = []) by (apply length_zero_iff_nil; lia). rewrite Hds.
      exists 0, i', o. repeat split. left. split; [reflexivity |]. exists []. destruct o. cbn. rewrite app_nil_r, Nat.sub_0_r.
      repeat split. lia. }
  destruct (Z.eqb_spec (Z.of_nat (length (firstn 33 ds))) 33) as [H33|H33]; cbn [negb].
  2:{ exists (-1), i', o. repeat split. right. split; [reflexivity |]. intros l.
      rewrite Nat.div_small by lia. cbn [samples_of]. destruct (Nat.eqb_spec (length ds) 0); [lia | discriminate]. }
  assert (Hfr : frame_ok (firstn 33 ds)) by (split; [lia | now apply Forall_firstn]).
  replace (length ds / 33)%nat with (S (length (skipn 33 ds) / 33)).
  2:{ rewrite length_skipn. replace (length ds) with (length ds - 33 + 1 * 33)%nat at 2 by lia. rewrite Nat.div_add by lia. lia. }
  destruct (gsm_decode_total r _ Hr Hfr) as (b & s & r' & Edec & Hr' & Hbad & Hgood). cbn [samples_of].
  rewrite Edec. cbn [bind].
  destruct (Z.eqb_spec b 0) as [->|Hb0]; cbn [negb].
  2:{ exists (-1), i', o. repeat split. right. split; [reflexivity |]. discriminate. }
  assert (Hs : words 160 s).
  { destruct (Z.eq_dec ((firstn 33 ds).[0] / 16) GSM_MAGIC) as [Hm|Hm]; [apply (Hgood Hm) | destruct (Hbad Hm); lia]. }
  destruct (writer_spec s o (proj1 Hs)) as (o1 & -> & Ho1).
  destruct (Nat.leb_spec (length (codes s)) (oroom o)) as [Hroom|Hroom]; cbn [Z.ltb Z.compare].
  2:{ exists (-1), i', o1. repeat split. right. split; [reflexivity |]. intros l.
      destruct (samples_of _ r' _) as [rest|]; [| discriminate]. intros H. injection H as <-. rewrite length_app. lia. }
  destruct (IH r' i' o1 Hr') as (res & i2 & o2 & Erun & Hi2 & Hcase).
  { rewrite Hi'. now apply Forall_skipn. }
  { rewrite Hi', length_skipn. lia. }
  exists res, i2, o2. rewrite Erun. split; [reflexivity |]. split; [now rewrite Hi2 |].
  rewrite Hi' in Hcase. subst o1. cbn [oroom obytes oerror] in Hcase.
  destruct Hcase as [(-> & rest & -> & Hfit & ->)|(-> & Hwhy)]; [left | right]; (split; [reflexivity |]).
  - exists (codes s ++ rest). rewrite length_app, <- app_assoc. repeat split; [lia |]. f_equal. lia.
  - intros l. destruct (samples_of _ r' _) as [rest|]; [| discriminate]. intros H. injection H as <-.
    specialize (Hwhy rest eq_refl). rewrite length_app. lia.
Qed.

End Decoding.

(** ** What is written are bytes *)

Lemma fwrite_bytes bs o : Forall is_u8 bs -> Forall is_u8 (obytes o) -> Forall is_u8 (obytes (snd (fwrite bs o))).
Proof.
  intros Hb Ho. unfold fwrite. destruct (length bs <=? oroom o)%nat; cbn [snd obytes]; apply Forall_app;
    auto using Forall_firstn.
Qed.

Lemma fputc_bytes c o : Forall is_u8 (obytes o) -> Forall is_u8 (obytes (snd (fputc c o))).
Proof.
  intros Ho. unfold fputc. pose proof (fwrite_bytes [u8 c] o) as H. destruct (fwrite [u8 c] o). cbn [snd] in *.
  apply H; [| assumption]. repeat constructor; apply u8_byte.
Qed.

Lemma output_loop_bytes conv buf o : Forall is_u8 (obytes o) -> Forall is_u8 (obytes (snd (output_loop conv buf o))).
Proof.
  revert o; induction buf as [|x buf IH]; intros o Ho; cbn [output_loop]; [assumption |].
  pose proof (fputc_bytes (conv x) o Ho) as H. destruct (fputc (conv x) o) as [[|] o1]; cbn [snd] in *; auto.
Qed.

Lemma call_output_bytes f buf o : Forall is_u8 (obytes o) -> Forall is_u8 (obytes (snd (call_output f buf o))).
Proof.
  intros Ho. destruct f; cbn [call_output]; [apply output_loop_bytes; assumption | apply output_loop_bytes; assumption |].
  unfold linear_output. pose proof (fwrite_bytes (flat_map short_bytes buf) o) as H.
  destruct (fwrite _ o) as [n o1]. cbn [snd] in *. apply H; [apply short_bytes_u8 | assumption].
Qed.

Lemma put_u32_bytes u o : Forall is_u8 (obytes o) -> Forall is_u8 (obytes (snd (put_u32 u o))).
Proof.
  intros Ho. unfold put_u32.
  do 4 (match goal with H : Forall is_u8 (obytes ?o) |- context [fputc ?c ?o] =>
          let H1 := fresh "H" in pose proof (fputc_bytes c o H) as H1; destruct (fputc c o) as [[|] ?];
          cbn [snd] in *; [assumption |]
        end). assumption.
Qed.

Lemma put_all_bytes us o : Forall is_u8 (obytes o) -> Forall is_u8 (obytes (snd (put_all us o))).
Proof.
  revert o; induction us as [|u us IH]; intros o Ho; cbn [put_all]; [assumption |].
  pose proof (put_u32_bytes u o Ho) as H. destruct (put_u32 u o) as [r o1]. destruct (r =? 0); cbn [snd] in *; auto.
Qed.

Lemma encode_loop_bytes fuel inp r e s i o res i' o' e' : encode_loop fuel inp r e s i o = Some (res, i', o', e') ->
  Forall is_u8 (obytes o) -> Forall is_u8 (obytes o').
Proof.
  revert r e s i o; induction fuel as [|fuel IH]; intros r e s i o; cbn [encode_loop]; [discriminate |].
  destruct (call_input inp s i) as [[cc s1] i1]. destruct (cc >? 0).
  2:{ destruct (cc <? 0); intros H Ho; injection H as <- <- <- <-; exact Ho. }
  unfold gsm_encode. destruct (Gsm_Coder r e (clear_tail cc s1)) as [[[p r1] e1]|]; [| discriminate]. cbn [bind].
  intros H Ho. pose proof (fwrite_bytes (pack_frame p) o (proj2 (pack_frame_ok p)) Ho) as Hw.
  destruct (fwrite (pack_frame p) o) as [n o1]. cbn [snd] in Hw.
  destruct (negb _); [injection H as <- <- <- <-; exact Hw | exact (IH _ _ _ _ _ H Hw)].
Qed.

Lemma decode_loop_bytes fuel out r i o res i' o' : decode_loop fuel out r i o = Some (res, i', o') ->
  Forall is_u8 (obytes o) -> Forall is_u8 (obytes o').
Proof.
  revert r i o; induction fuel as [|fuel IH]; intros r i o; cbn [decode_loop]; [discriminate |].
  destruct (fread 33 i) as [s i1]. destruct (Z.of_nat (length s) >? 0).
  2:{ destruct (_ <? 0); intros H Ho; injection H as <- <- <-; exact Ho. }
  destruct (negb _); [intros H Ho; injection H as <- <- <-; exact Ho |].
  destruct (gsm_decode r s) as [[[b d] r1]|]; [| discriminate]. cbn [bind].
  destruct (negb (b =? 0)); [intros H Ho; injection H as <- <- <-; exact Ho |].
  intros H Ho. pose proof (call_output_bytes out d o Ho) as Hw. destruct (call_output out d o) as [r2 o1]. cbn [snd] in Hw.
  destruct (r2 <? 0); [injection H as <- <- <-; exact Hw | exact (IH _ _ _ H Hw)].
Qed.

(** ** Formats *)

(** The header a format writes. *)
Definition header (f : fmtdesc) : list Z := obytes (snd (fmt_init_output f (mkOut [] 32 false))).

(** What the initialisers of a format promise. *)
Class FormatOk (f : fmtdesc) : Prop := {
  format_input i : let '(r, inp, i') := fmt_init_input f i in
    ibytes i' = ibytes i /\ ibroken i' = ibroken i;
  format_input_broken data b : fmt_init_input f (mkIn data 0 true b) =
    let '(r, inp, i) := fmt_init_input f (mkIn data 0 true false) in
    (r, inp, mkIn (ibytes i) (ipos i) (iseekable i) b);
  header_bytes : Forall is_u8 (header f);
  format_output o : exists r o', fmt_init_output f o = (r, o') /\
    if (length (header f) <=? oroom o)%nat
    then r = 0 /\ o' = mkOut (obytes o ++ header f) (oroom o - length (header f)) (oerror o)
    else r <> 0;
  format_output_bytes o : Forall is_u8 (obytes o) -> Forall is_u8 (obytes (snd (fmt_init_output f o)))
}.

Lemma generic_format n suf inp out : FormatOk (mkFmt n suf generic_init_input generic_init_output inp out).
Proof.
  split.
  - intros i. cbn. auto.
  - reflexivity.
  - constructor.
  - intros o. exists 0, o. split; [reflexivity |]. destruct o. cbn. rewrite app_nil_r, Nat.sub_0_r. auto.
  - auto.
Qed.

#[export] Instance f_ulaw_ok : FormatOk f_ulaw.
Proof. apply generic_format. Qed.
#[export] Instance f_alaw_ok : FormatOk f_alaw.
Proof. apply generic_format. Qed.
#[export] Instance f_linear_ok : FormatOk f_linear.
Proof. apply generic_format. Qed.

(** Reading keeps the bytes and the kind of a stream. *)
Definition same_stream (s s' : istream) : Prop :=
  ibytes s' = ibytes s /\ ibroken s' = ibroken s /\ iseekable s' = iseekable s.

Lemma fgetc_same s c s' : fgetc s = (c, s') -> same_stream s s'.
Proof. unfold fgetc. destruct (irest s); intros H; injection H as _ <-; repeat split. Qed.

Lemma get_u32_same s c s' : get_u32 s = (c, s') -> same_stream s s'.
Proof.
  unfold get_u32. intros H.
  repeat match type of H with
  | context [fgetc ?s] => let E := fresh "E" in destruct (fgetc s) as [[?|] ?] eqn:E; apply fgetc_same in E
  end; injection H as _ <-; unfold same_stream in *; intuition congruence.
Qed.

Lemma expect_same cs s b s' : expect cs s = (b, s') -> same_stream s s'.
Proof.
  revert s; induction cs as [|c cs IH]; intros s; cbn [expect].
  - intros H. injection H as _ <-. repeat split.
  - destruct (fgetc s) as [[x|] s1] eqn:E; apply fgetc_same in E.
    + destruct (x =? c); [intros H; apply IH in H | intros H; injection H as _ <-]; unfold same_stream in *; intuition congruence.
    + intros H. injection H as _ <-. exact E.
Qed.

Lemma audio_init_input_same s r inp s' : audio_init_input s = (r, inp, s') -> same_stream s s'.
Proof.
  unfold audio_init_input. destruct (expect snd_magic s) as [[|] s1] eqn:E1; apply expect_same in E1.
  2:{ intros H. injection H as _ _ <-. exact E1. }
  destruct (get_u32 s1) as [[len|] s2] eqn:E2; apply get_u32_same in E2.
  2:{ intros H. injection H as _ _ <-. unfold same_stream in *; intuition congruence. }
  destruct (get_u32 s2) as [[skip|] s3] eqn:E3; apply get_u32_same in E3.
  2:{ intros H. injection H as _ _ <-. unfold same_stream in *; intuition congruence. }
  destruct (get_u32 s3) as [[enc|] s4] eqn:E4; apply get_u32_same in E4.
  2:{ intros H. injection H as _ _ <-. unfold same_stream in *; intuition congruence. }
  unfold fseek_cur. destruct (iseekable s4 && _); intros H; injection H as _ _ <-;
    unfold same_stream in *; cbn [ibytes ibroken iseekable]; intuition congruence.
Qed.

(** The read error indicator does not matter to a read that stays inside the
    file: a stream and the same stream with the indicator [b]. *)
Definition with_broken (b : bool) (s : istream) : istream := mkIn (ibytes s) (ipos s) (iseekable s) b.

Lemma fgetc_broken b s : fgetc (with_broken b s) = (fst (fgetc s), with_broken b (snd (fgetc s))).
Proof. unfold fgetc. change (irest (with_broken b s)) with (irest s). now destruct (irest s). Qed.

Lemma get_u32_broken b s : get_u32 (with_broken b s) = (fst (get_u32 s), with_broken b (snd (get_u32 s))).
Proof.
  unfold get_u32.
  repeat (rewrite fgetc_broken; match goal with |- context [fgetc ?s] => destruct (fgetc s) as [[?|] ?] end;
          cbn [fst snd]; [| reflexivity]). reflexivity.
Qed.

Lemma expect_broken b cs s : expect cs (with_broken b s) = (fst (expect cs s), with_broken b (snd (expect cs s))).
Proof.
  revert s; induction cs as [|c cs IH]; intros s; cbn [expect]; [reflexivity |].
  rewrite fgetc_broken. destruct (fgetc s) as [[x|] s1]; cbn [fst snd]; [| reflexivity].
  destruct (x =? c); [apply IH | reflexivity].
Qed.

Lemma audio_init_input_broken b s : audio_init_input (with_broken b s) =
  let '(r, inp, i) := audio_init_input s in (r, inp, with_broken b i).
Proof.
  unfold audio_init_input. rewrite expect_broken. destruct (expect snd_magic s) as [[|] s1]; cbn [fst snd]; [| reflexivity].
  do 3 (rewrite get_u32_broken; match goal with |- context [get_u32 ?s] => destruct (get_u32 s) as [[?|] ?] end;
        cbn [fst snd]; [| reflexivity]).
  unfold fseek_cur. cbn [iseekable with_broken ipos ibytes].
  match goal with |- context [?a && ?b] => destruct (a && b) end; reflexivity.
Qed.

Lemma put_u32_full u o : (oroom o < 4)%nat -> fst (put_u32 u o) = -1.
Proof.
  destruct o as [bs room er]. cbn [oroom]. intros H. unfold put_u32, fputc, fwrite.
  destruct room as [|[|[|[|room]]]]; try reflexivity. lia.
Qed.

Lemma put_all_full us o : (oroom o < 4 * length us)%nat -> fst (put_all us o) = -1.
Proof.
  revert o; induction us as [|u us IH]; intros o H; cbn [length put_all] in *; [lia |].
  destruct (Nat.lt_ge_cases (oroom o) 4) as [Hr|Hr].
  - pose proof (put_u32_full u o Hr) as E. destruct (put_u32 u o) as [r o1]. cbn [fst] in E. subst r. reflexivity.
  - rewrite put_u32_fits by assumption. cbn [Z.eqb]. apply IH. cbn [oroom]. lia.
Qed.

Lemma audio_init_output_full o : (oroom o < 32)%nat -> fst (audio_init_output o) = -1.
Proof.
  intros H. unfold audio_init_output, fwrite. change (length snd_magic) with 4%nat.
  destruct (Nat.leb_spec 4 (oroom o)).
  - cbn [Nat.eqb negb]. apply put_all_full. cbn. lia.
  - destruct (Nat.eqb_spec (oroom o) 4); [lia | reflexivity].
Qed.

#[export] Instance f_audio_ok : FormatOk f_audio.
Proof.
  split.
  - intros i. cbn [fmt_init_input f_audio]. destruct (audio_init_input i) as [[r inp] i'] eqn:E.
    apply audio_init_input_same in E as (H1 & H2 & _). auto.
  - intros data b. apply (audio_init_input_broken b (mkIn data 0 true false)).
  - change (header f_audio) with audio_header. vm_compute. repeat constructor; congruence.
  - intros o. change (header f_audio) with audio_header. change (length audio_header) with 32%nat.
    cbn [fmt_init_output f_audio]. destruct (Nat.leb_spec 32 (oroom o)) as [H|H].
    + rewrite audio_init_output_fits by assumption. eauto.
    + pose proof (audio_init_output_full o H). destruct (audio_init_output o) as [r o']. exists r, o'.
      split; [reflexivity |]. cbn [fst] in *. lia.
  - intros o Ho. cbn [fmt_init_output f_audio]. unfold audio_init_output.
    pose proof (fwrite_bytes snd_magic o) as Hw. destruct (fwrite snd_magic o) as [n o1]. cbn [snd] in Hw.
    destruct (negb (n =? 4)%nat); [| apply put_all_bytes]; apply Hw; try assumption;
      repeat constructor; unfold is_u8; lia.
Qed.

(** ** What a conversion produces *)

(** The samples in a file of a given format. *)
Definition source_samples (f : fmtdesc) (data : list Z) : option (list Z) :=
  let '(r, inp, i) := fmt_init_input f (mkIn data 0 true false) in
  if r =? 0 then Some (input_samples (match inp with Some g => g | None => fmt_input f end) (irest i)) else None.

(** Whether the function that reads the samples reports read errors. *)
Definition source_reports (f : fmtdesc) (data : list Z) : bool :=
  let '(r, inp, i) := fmt_init_input f (mkIn data 0 true false) in
  input_reports (match inp with Some g => g | None => fmt_input f end).

(** The file that coding, or decoding, the contents [data] gives: the frames of
    all the samples, or the header and the samples of all the frames. *)
Definition conversion (P : os) (fl : flags) (f : fmtdesc) (e data : list Z) : option (list Z) :=
  let* r := codec_create P fl in
  if f_decode fl
  then let* l := samples_of (output_codes (fmt_output f)) (length data / 33) r data in Some (header f ++ l)
  else let* xs := source_samples f data in let* (ds, _) := frames_of (blocks xs) r e xs in Some ds.

Lemma source_samples_words f data xs `{!FormatOk f} : Forall is_u8 data -> source_samples f data = Some xs -> Forall is_i16 xs.
Proof.
  intros Hb. unfold source_samples. pose proof (format_input (mkIn data 0 true false)) as Hsame.
  destruct (fmt_init_input f (mkIn data 0 true false)) as [[r inp] i]. destruct Hsame as [Hi _]. cbn [ibytes] in Hi.
  destruct (r =? 0); [| discriminate]. intros H. injection H as <-. apply samples_short. apply Forall_skipn. now rewrite Hi.
Qed.

Lemma convert_decode P fl f `{!FormatOk f} e i o : f_decode fl = true -> ipos i = 0%nat -> Forall is_u8 (ibytes i) ->
  exists res i' o', convert P fl f e i o = Some (res, i', o', e) /\ ibytes i' = ibytes i /\
    ((res = 0 /\ exists l, conversion P fl f e (ibytes i) = Some l /\ (length l <= oroom o)%nat /\
        o' = mkOut (obytes o ++ l) (oroom o - length l) (oerror o) /\ Forall is_u8 l) \/
     (res = -1 /\ forall l, conversion P fl f e (ibytes i) = Some l -> (oroom o < length l)%nat)).
Proof.
  intros Hd Hpos Hb. unfold convert, conversion. rewrite Hd.
  assert (Hrest : irest i = ibytes i) by (unfold irest; now rewrite Hpos).
  destruct (format_output o) as (r & o1 & -> & Ho1). unfold process_decode.
  destruct (Nat.leb_spec (length (header f)) (oroom o)) as [Hroom|Hroom].
  2:{ destruct (Z.eqb_spec r 0); [easy |]. exists (-1), i, o1. repeat split. right. split; [reflexivity |].
      intros l H. destruct (codec_create P fl); [| discriminate]. cbn [bind] in H.
      destruct (samples_of _ _ _ _); [| discriminate]. injection H as <-. rewrite length_app. lia. }
  destruct Ho1 as [-> ->]. cbn [Z.eqb negb].
  destruct (codec_create P fl) as [r0|] eqn:Er.
  2:{ cbn [bind]. exists (-1), i. eexists. split; [reflexivity |]. split; [reflexivity |]. right. split; [reflexivity | discriminate]. }
  destruct (codec_create_ok _ _ _ Er) as [_ Hr0]. cbn [bind].
  destruct (decode_loop_run (fmt_output f) (output_codes (fmt_output f)) (S (length (ibytes i))) r0 i
              (mkOut (obytes o ++ header f) (oroom o - length (header f)) (oerror o)) Hr0)
    as (res & i' & o' & -> & Hi' & Hcase); [now rewrite Hrest | rewrite Hrest; lia |].
  cbn [bind]. exists res, i', o'. split; [reflexivity |]. split; [assumption |]. rewrite Hrest in Hcase.
  cbn [oroom obytes oerror] in Hcase.
  destruct Hcase as [(-> & l & E & Hfit & ->)|(-> & Hwhy)]; [left | right]; (split; [reflexivity |]).
  - exists (header f ++ l). rewrite E. cbn [bind]. rewrite length_app, <- app_assoc. repeat split; [lia | f_equal; lia |].
    apply Forall_app. split; [apply header_bytes |].
    assert (Hl : length (ibytes i) = (33 * (length (ibytes i) / 33))%nat) by (pose proof (samples_of_exact _ _ _ _ _ E); pose proof (Nat.Div0.mul_div_le (length (ibytes i)) 33); lia).
    exact (samples_of_bytes _ _ _ r0 _ l Hr0 Hb Hl E).
  - intros l. destruct (samples_of _ _ _ _) as [rest|]; [| discriminate]. cbn [bind]. intros H. injection H as <-.
    specialize (Hwhy rest eq_refl). rewrite length_app. lia.
Qed.

Lemma convert_encode P fl f `{!FormatOk f} e i o : f_decode fl = false -> ipos i = 0%nat -> iseekable i = true ->
  Forall is_u8 (ibytes i) -> words 50 e ->
  exists res i' o' e', convert P fl f e i o = Some (res, i', o', e') /\ ibytes i' = ibytes i /\ words 50 e' /\
    ((res = 0 /\ source_reports f (ibytes i) && ibroken i = false /\
      exists l, conversion P fl f e (ibytes i) = Some l /\ (length l <= oroom o)%nat /\
        o' = mkOut (obytes o ++ l) (oroom o - length l) (oerror o) /\ Forall is_u8 l) \/
     (res = -1 /\ (source_reports f (ibytes i) && ibroken i = true \/
        forall l, conversion P fl f e (ibytes i) = Some l -> (oroom o < length l)%nat))).
Proof.
  intros Hd Hpos Hseek Hb He. unfold convert, conversion, source_samples, source_reports. rewrite Hd.
  destruct i as [data pos seek broken]. cbn [ibytes ipos iseekable ibroken] in *. subst pos seek.
  pose proof (format_input (mkIn data 0 true broken)) as Hsame. rewrite format_input_broken in Hsame |- *.
  destruct (fmt_init_input f (mkIn data 0 true false)) as [[r inp] i]. cbn [ibytes ibroken] in Hsame.
  destruct (Z.eqb_spec r 0) as [->|Hr]; cbn [negb].
  2:{ eexists (-1), _, o, e. split; [reflexivity |]. cbn [ibytes]. split; [apply Hsame |]. split; [assumption |].
      right. split; [reflexivity |]. right. intros l. destruct (codec_create P fl); discriminate. }
  unfold process_encode. destruct (codec_create P fl) as [r0|] eqn:Er.
  2:{ eexists (-1), _, o, e. split; [reflexivity |]. cbn [ibytes]. split; [apply Hsame |]. split; [assumption |].
      right. split; [reflexivity |]. right. discriminate. }
  destruct (codec_create_ok _ _ _ Er) as [Hr0 _]. cbn [bind]. set (g := match inp with Some g => g | None => _ end).
  destruct (encode_loop_run g (S (length (ibytes i))) r0 e stack_samples (mkIn (ibytes i) (ipos i) (iseekable i) broken) o)
    as (res & i' & o' & e' & Erun & He' & Hi' & Hcase); auto.
  { apply Forall_skipn. cbn. destruct Hsame as [-> _]. assumption. }
  { unfold irest. cbn. rewrite length_skipn. lia. }
  cbn [ibytes ibroken] in *. change (irest (mkIn _ _ _ broken)) with (irest i) in Hcase.
  exists res, i', o', e'. split; [exact Erun |]. split; [now rewrite Hi', (proj1 Hsame) |]. split; [assumption |].
  destruct (frames_of_total (blocks (input_samples g (irest i))) r0 e (input_samples g (irest i)))
    as (ds & e2 & Eds & Hds & _); auto.
  { apply samples_short. apply Forall_skipn. destruct Hsame as [-> _]. assumption. }
  pose proof (good_stream_length _ _ Hds) as Hlen. rewrite Eds in *. cbn [bind].
  destruct Hcase as [(-> & Hrep & Hfit & ds' & E & ->)|(-> & Hwhy)]; [left | right]; (split; [reflexivity |]).
  - injection E as <- <-. split; [assumption |]. exists ds. rewrite Hlen. repeat split; [assumption |].
    exact (good_stream_bytes _ _ Hds).
  - destruct Hwhy as [Hwhy|Hwhy]; [auto | right]. intros l H. injection H as <-. lia.
Qed.

(** From any stream a conversion ends, with what it writes being bytes. *)
Lemma convert_total P fl f `{!FormatOk f} e i o : Forall is_u8 (ibytes i) -> words 50 e ->
  exists res i' o' e', convert P fl f e i o = Some (res, i', o', e') /\ ibytes i' = ibytes i /\ words 50 e'.
Proof.
  intros Hb He. unfold convert. destruct (f_decode fl).
  - destruct (format_output o) as (r & o1 & -> & _). destruct (negb (r =? 0)); [now eexists _, _, _, _ |].
    unfold process_decode. destruct (codec_create P fl) as [r0|] eqn:Er; [| now eexists _, _, _, _].
    destruct (codec_create_ok _ _ _ Er) as [_ Hr0].
    destruct (decode_loop_run (fmt_output f) (output_codes (fmt_output f)) (S (length (ibytes i))) r0 i o1 Hr0)
      as (res & i' & o' & -> & Hi' & _); [now apply Forall_skipn | unfold irest; rewrite length_skipn; lia |].
    now eexists _, _, _, _.
  - pose proof (format_input i) as Hsame. destruct (fmt_init_input f i) as [[r inp] i1]. destruct Hsame as [Hi1 _].
    destruct (negb (r =? 0)); [now eexists _, _, _, _ |].
    unfold process_encode. destruct (codec_create P fl) as [r0|] eqn:Er; [| now eexists _, _, _, _].
    destruct (codec_create_ok _ _ _ Er) as [Hr0 _]. set (g := match inp with Some g => g | None => _ end).
    destruct (encode_loop_run g (S (length (ibytes i1))) r0 e stack_samples i1 o)
      as (res & i' & o' & e' & -> & He' & Hi' & _); auto.
    { apply Forall_skipn. now rewrite Hi1. }
    { unfold irest. rewrite length_skipn. lia. }
    eexists _, _, _, _. split; [reflexivity |]. split; [congruence | assumption].
Qed.

Lemma convert_bytes P fl f `{!FormatOk f} e i o res i' o' e' : convert P fl f e i o = Some (res, i', o', e') ->
  Forall is_u8 (obytes o) -> Forall is_u8 (obytes o').
Proof.
  unfold convert. intros H Ho. destruct (f_decode fl).
  - pose proof (format_output_bytes o Ho) as Hw. destruct (fmt_init_output f o) as [r o1]. cbn [snd] in Hw.
    destruct (negb (r =? 0)); [injection H as <- <- <- <-; exact Hw |].
    unfold process_decode in H. destruct (codec_create P fl) as [r0|]; [| injection H as <- <- <- <-; exact Hw].
    destruct (decode_loop _ _ r0 i o1) as [[[r1 i1] o2]|] eqn:E; [| discriminate]. injection H as <- <- <- <-.
    exact (decode_loop_bytes _ _ _ _ _ _ _ _ E Hw).
  - destruct (fmt_init_input f i) as [[r inp] i1]. destruct (negb (r =? 0)); [injection H as <- <- <- <-; exact Ho |].
    unfold process_encode in H. destruct (codec_create P fl) as [r0|]; [| injection H as <- <- <- <-; exact Ho].
    exact (encode_loop_bytes _ _ _ _ _ _ _ _ _ _ _ H Ho).
Qed.
