(* ===== verification/ToastFile.v ===== *)
(** * What toast does to files

    Theorems about the model in [Toast], from what [ToastStream] shows of its
    loops: every command terminates and keeps the file system well formed, unless
    it comes to the one message whose printing is undefined; a source file is
    removed only once its conversion is complete, or after a read error that is
    not noticed; coding and decoding again gives back the name and the length of
    the file; damaged files are refused and leave no output behind. *)

From Stdlib Require Import ZArith Lia List Bool.
From stdpp Require Import gmap.
From S2P Require Import Prelude GsmState GsmFrame GsmCodec ToastTables ToastIO Toast ToastStream.
Import ListNotations.

Local Open Scope Z_scope.

(** ** Names *)

Lemma suffix_spec n suf k : suffix n suf = Some k -> n = firstn k n ++ suf /\ (k + length suf = length n)%nat /\ (0 < k)%nat.
Proof.
  unfold suffix, name_eqb. destruct (Nat.eqb_spec (length suf) 0); [discriminate |]. cbn [orb].
  destruct (Nat.leb_spec (length n) (length suf)); [discriminate |].
  case_bool_decide as E; [| discriminate]. intros H1. injection H1 as <-.
  split; [| lia].
  etransitivity; [symmetry; apply (firstn_skipn (length n - length suf)) |]. now rewrite E.
Qed.

Lemma suffix_app n suf : n <> [] -> suf <> [] -> suffix (n ++ suf) suf = Some (length n).
Proof.
  intros Hn Hs. unfold suffix, name_eqb. rewrite length_app.
  destruct n; [easy |]. destruct suf as [|c suf]; [easy |].
  destruct (Nat.eqb_spec (length (c :: suf)) 0); [discriminate |]. cbn [orb].
  destruct (Nat.leb_spec (length (z :: n) + length (c :: suf)) (length (c :: suf))); [cbn in *; lia |].
  replace (length (z :: n) + length (c :: suf) - length (c :: suf))%nat with (length (z :: n)) by lia.
  rewrite skipn_app, Nat.sub_diag, skipn_all. rewrite bool_decide_true by reflexivity. reflexivity.
Qed.

Lemma codename_plain n : has_suffix n SUFFIX_TOASTED = false -> codename n = n ++ SUFFIX_TOASTED.
Proof. intros H. unfold codename, normalname. cbn [suffix]. unfold suffix at 1. cbn [length Nat.eqb orb]. now rewrite H. Qed.

Lemma codename_code n : has_suffix n SUFFIX_TOASTED = true -> codename n = n.
Proof. intros H. unfold codename, normalname. unfold suffix at 1. cbn [length Nat.eqb orb]. now rewrite H. Qed.

Lemma plainname_plain n : has_suffix n SUFFIX_TOASTED = false -> plainname n = n.
Proof. unfold has_suffix, plainname, normalname. destruct (suffix n SUFFIX_TOASTED); [discriminate | reflexivity]. Qed.

Lemma plainname_app n : n <> [] -> plainname (n ++ SUFFIX_TOASTED) = n.
Proof.
  intros H. unfold plainname, normalname. rewrite suffix_app by easy.
  now rewrite firstn_app, Nat.sub_diag, firstn_all, firstn_O, !app_nil_r.
Qed.

Lemma has_suffix_app n : n <> [] -> has_suffix (n ++ SUFFIX_TOASTED) SUFFIX_TOASTED = true.
Proof. intros H. unfold has_suffix. now rewrite suffix_app. Qed.

(** The input and the output of one run are never the same file. *)
Lemma names_differ n : plainname n <> codename n.
Proof.
  intros H. destruct (has_suffix n SUFFIX_TOASTED) eqn:E.
  - rewrite (codename_code n E) in H. unfold has_suffix, plainname, normalname in *.
    destruct (suffix n SUFFIX_TOASTED) as [k|] eqn:Ek; [| discriminate]. apply suffix_spec in Ek as (_ & Hk & _).
    apply (f_equal length) in H. rewrite app_nil_r, length_firstn in H. cbn [SUFFIX_TOASTED str map length] in Hk.
    change (length SUFFIX_TOASTED) with 4%nat in Hk. lia.
  - rewrite (plainname_plain n E), (codename_plain n E) in H. apply (f_equal length) in H.
    rewrite length_app in H. change (length SUFFIX_TOASTED) with 4%nat in H. lia.
Qed.

Section PlainName.
Context (n : name) (Hn : n <> []) (Hsuf : has_suffix n SUFFIX_TOASTED = false).

Lemma codename_longer : codename n <> n.
Proof using Hsuf.
  rewrite codename_plain by assumption. intros E. apply (f_equal length) in E. rewrite length_app in E.
  change (length SUFFIX_TOASTED) with 4%nat in E. lia.
Qed.

Lemma codename_codename : codename (codename n) = codename n.
Proof using All. rewrite (codename_plain n) by assumption. now apply codename_code, has_suffix_app. Qed.

Lemma plainname_codename : plainname (codename n) = n.
Proof using All. rewrite codename_plain by assumption. now apply plainname_app. Qed.

(** The format of a coded file is that of the plain name. *)
Lemma grok_format_code : grok_format (codename n) = grok_format n.
Proof using All. unfold grok_format. now rewrite plainname_codename, plainname_plain. Qed.

End PlainName.

(** ** Processing a file *)

Record world_ok (w : world) : Prop := {
  wo_fs : map_Forall (fun _ nd => Forall is_u8 (n_data nd)) (w_fs w);
  wo_in : Forall is_u8 (ibytes (w_stdin w));
  wo_e : words 50 (w_e w)
}.

Definition flags_ok (fl : flags) : Prop := match f_format fl with Some f => FormatOk f | None => True end.

(** The format of a file: the one of the command line, or else that of its name. *)
Definition format_of (fl : flags) (inname : name) : fmtdesc :=
  match f_format fl with
  | Some f => f
  | None => match grok_format inname with Some f => f | None => DEFAULT_FORMAT end
  end.

(** The files that a run for the name [n] reads and writes. *)
Definition source (fl : flags) (n : name) : name := if f_decode fl then codename n else n.
Definition target (fl : flags) (n : name) : name := if f_decode fl then plainname n else codename n.

Lemma default_format_ok : FormatOk DEFAULT_FORMAT.
Proof. apply f_ulaw_ok. Qed.

Lemma grok_format_ok n f : grok_format n = Some f -> FormatOk f.
Proof.
  intros H. apply find_some in H as [H _]. cbn in H.
  destruct H as [<-|[<-|[<-|[<-|[]]]]]; typeclasses eauto.
Qed.

Lemma format_of_ok fl n : flags_ok fl -> FormatOk (format_of fl n).
Proof.
  unfold flags_ok, format_of. destruct (f_format fl); [auto |]. intros _.
  destruct (grok_format n) eqn:E; [exact (grok_format_ok n _ E) | apply default_format_ok].
Qed.

(** Opening a named file: the message about other links is printed only for a
    regular file that has some; otherwise the input is refused or its stream is
    open. *)
Lemma open_input_file P fl n w :
  match open_input P fl (Some n) w with
  | Done None => True
  | Done (Some (inname, i, f)) => exists nd, w_fs w !! source fl n = Some nd /\ inname = Some (source fl n) /\
      i = file_stream P (source fl n) nd /\ f = format_of fl (source fl n) /\
      (f_cat fl = true \/ source fl n <> target fl n)
  | Bad_printf => exists nd, w_fs w !! source fl n = Some nd /\ n_regular nd = true /\ linked fl nd = true
  | Aborted => False
  end.
Proof.
  unfold open_input, source, target. destruct (negb (f_decode fl) && _ && _) eqn:Esuf; [exact I |].
  set (inn := if f_decode fl then codename n else n).
  destruct (w_fs w !! inn) as [nd|]; [| exact I]. destruct (negb (can_read P inn)); [exact I |].
  unfold okay_as_input. destruct (negb (can_stat P inn)); [exact I |].
  destruct (n_regular nd) eqn:Ereg; cbn [negb exec_bind]; [| exact I].
  destruct (linked fl nd) eqn:El; cbn [exec_bind negb]; [now exists nd |].
  exists nd. repeat split; [unfold format_of; destruct (f_format fl); reflexivity |]. unfold inn.
  destruct (f_decode fl); [right; intros E; symmetry in E; now apply names_differ in E |].
  destruct (f_cat fl); [now left | right]. cbn [negb andb] in Esuf. intros E. symmetry in E. now apply codename_longer in E.
Qed.

(** Whether the program notices a read error after the bytes [data] of a source:
    decoding and reading linear samples do not. *)
Definition notices (fl : flags) (f : fmtdesc) (data : list Z) : bool := negb (f_decode fl) && source_reports f data.

(** Both directions: a conversion of the bytes read succeeds exactly when there
    was no read error that is noticed, it is defined, and its result fits. *)
Lemma convert_file P fl f `{!FormatOk f} e data broken o : Forall is_u8 data -> words 50 e ->
  exists res i' o' e', convert P fl f e (mkIn data 0 true broken) o = Some (res, i', o', e') /\
    words 50 e' /\ (Forall is_u8 (obytes o) -> Forall is_u8 (obytes o')) /\
    ((res = 0 /\ notices fl f data && broken = false /\
      exists l, conversion P fl f e data = Some l /\ (length l <= oroom o)%nat /\
        obytes o' = obytes o ++ l /\ oerror o' = oerror o) \/
     (res = -1 /\ (notices fl f data && broken = true \/
        forall l, conversion P fl f e data = Some l -> (oroom o < length l)%nat))).
Proof.
  intros Hb He. unfold notices. destruct (f_decode fl) eqn:Hd.
  - destruct (convert_decode P fl f e (mkIn data 0 true broken) o Hd eq_refl Hb)
      as (res & i' & o' & E & _ & Hcase).
    exists res, i', o', e. split; [assumption |]. split; [assumption |].
    split; [exact (convert_bytes P fl f _ _ _ _ _ _ _ E) |].
    destruct Hcase as [(-> & l & El & Hl & -> & _)|(-> & Hwhy)]; [left | right; auto].
    repeat split. exists l. auto.
  - destruct (convert_encode P fl f e (mkIn data 0 true broken) o Hd eq_refl eq_refl Hb He)
      as (res & i' & o' & e' & E & _ & He' & Hcase).
    exists res, i', o', e'. split; [assumption |]. split; [assumption |].
    split; [exact (convert_bytes P fl f _ _ _ _ _ _ _ E) |]. cbn [negb andb ibytes ibroken] in *.
    destruct Hcase as [(-> & Hr & l & El & Hl & -> & _)|(-> & Hwhy)]; [left | right].
    + rewrite Hr. repeat split. exists l. auto.
    + split; [reflexivity |]. destruct Hwhy as [->|Hwhy]; auto.
Qed.

Lemma skip_line_bytes fuel c s : ibytes (skip_line fuel c s) = ibytes s.
Proof.
  revert c s; induction fuel as [|fuel IH]; intros c s; cbn [skip_line]; [reflexivity |].
  destruct c as [x|]; [| reflexivity]. destruct (x =? 10); [reflexivity |].
  destruct (fgetc s) as [c s1] eqn:E. apply fgetc_same in E as [E _]. now rewrite IH.
Qed.

Lemma ok_to_replace_bytes P fl s : ibytes (snd (ok_to_replace P fl s)) = ibytes s.
Proof.
  unfold ok_to_replace. destruct (f_force fl); [reflexivity |]. destruct (negb (is_tty P)); [reflexivity |].
  destruct (fgetc s) as [c s1] eqn:E. apply fgetc_same in E as [E _]. cbn [snd]. now rewrite skip_line_bytes.
Qed.

(** Replacing the target: a new file, or the old one with its links. *)
Definition replaces (fs : gmap name node) (t : name) (reg : bool) (links : Z) : Prop :=
  match fs !! t with
  | None => reg = true /\ links = 1
  | Some nd => reg = n_regular nd /\ links = n_links nd
  end.

(** Opening the output of a named file: nothing in the file system changes but
    the target, which is emptied or created. *)
Lemma open_output_file P fl n w res w' : open_output P fl (Some n) w = (res, w') -> world_ok w ->
  w_e w' = w_e w /\ Forall is_u8 (ibytes (w_stdin w')) /\
  match res with
  | None => w_fs w' = w_fs w
  | Some (None, _) => f_cat fl = true /\ w_fs w' = w_fs w
  | Some (Some o, s) => f_cat fl = false /\ o = target fl n /\ s = mkOut [] (room P o) false /\
      exists reg links, replaces (w_fs w) o reg links /\ w_fs w' = <[o := mkNode [] reg links]> (w_fs w)
  end.
Proof.
  intros H Hw. unfold open_output in H. fold (target fl n) in H.
  destruct (f_cat fl); [injection H as <- <-; repeat split; apply Hw |]. cbn [length_okay negb] in H.
  unfold replaces. destruct (w_fs w !! target fl n) as [nd|] eqn:Et.
  - pose proof (ok_to_replace_bytes P fl (w_stdin w)) as Hs. destruct (ok_to_replace P fl (w_stdin w)) as [ok s]. cbn [snd] in Hs.
    destruct (negb ok); [| destruct (can_write P (target fl n))]; injection H as <- <-; cbn [w_e w_fs w_stdin set_fs set_stdin];
      rewrite Hs; repeat split; try apply Hw. rewrite Et. eauto.
  - destruct (can_create P (target fl n)); injection H as <- <-; cbn [w_e w_fs w_stdin set_fs]; repeat split; try apply Hw.
    rewrite Et. exists true, 1. auto.
Qed.

Definition unlinked (P : os) (n : name) (fs : gmap name node) : gmap name node :=
  if can_unlink P n then delete n fs else fs.

(** The bytes [l] are the conversion of the whole source. *)
Definition complete (P : os) (fl : flags) (n : name) (w : world) (l : list Z) : Prop :=
  exists nd, w_fs w !! source fl n = Some nd /\
    conversion P fl (format_of fl (source fl n)) (w_e w) (n_data nd) = Some l.

(** Reading the source failed before its end, which was not noticed: the bytes
    [l] are the conversion of the part before the error. *)
Definition cut_short (P : os) (fl : flags) (n : name) (w : world) (l : list Z) : Prop :=
  exists nd k, w_fs w !! source fl n = Some nd /\ read_fails P (source fl n) = Some k /\ (k < length (n_data nd))%nat /\
    notices fl (format_of fl (source fl n)) (firstn k (n_data nd)) = false /\
    conversion P fl (format_of fl (source fl n)) (w_e w) (firstn k (n_data nd)) = Some l.

Definition converted (P : os) (fl : flags) (n : name) (w : world) (l : list Z) : Prop :=
  complete P fl n w l \/ cut_short P fl n w l.

Definition breaks (P : os) (n : name) : bool := match read_fails P n with Some _ => true | None => false end.

Lemma stream_converted P fl n w nd l : w_fs w !! source fl n = Some nd ->
  notices fl (format_of fl (source fl n)) (read_up_to (read_fails P (source fl n)) (n_data nd)) && breaks P (source fl n) = false ->
  conversion P fl (format_of fl (source fl n)) (w_e w) (read_up_to (read_fails P (source fl n)) (n_data nd)) = Some l ->
  converted P fl n w l.
Proof.
  intros Hnd Hno Hc. unfold breaks in Hno. destruct (read_fails P (source fl n)) as [k|] eqn:Ek; cbn [read_up_to] in *.
  - destruct (Nat.ltb_spec k (length (n_data nd))) as [Hk|Hk].
    + right. exists nd, k. rewrite andb_true_r in Hno. auto.
    + left. exists nd. rewrite firstn_all2 in Hc by assumption. auto.
  - left. exists nd. auto.
Qed.

(** A file keeps its kind and its number of links, or is new with one link. *)
Definition links_kept (fs fs' : gmap name node) : Prop :=
  forall m nd', fs' !! m = Some nd' -> n_links nd' <= 1 \/
    exists nd, fs !! m = Some nd /\ n_links nd = n_links nd' /\ n_regular nd = n_regular nd'.


Lemma links_kept_trans fs1 fs2 fs3 : links_kept fs1 fs2 -> links_kept fs2 fs3 -> links_kept fs1 fs3.
Proof.
  intros H12 H23 m nd3 H3. destruct (H23 m nd3 H3) as [|(nd2 & H2 & E2 & E2')]; [now left |].
  destruct (H12 m nd2 H2) as [H|(nd1 & H1 & E1 & E1')]; [left; lia | right]. exists nd1. split; [assumption |]. split; congruence.
Qed.



(** How processing the name [n] can end: its result and the file system. *)
Inductive outcome (P : os) (fl : flags) (n : name) (w : world) : Z -> gmap name node -> Prop :=
| refused : outcome P fl n w (-1) (w_fs w)
| failed nd' : f_cat fl = false -> source fl n <> target fl n -> replaces (w_fs w) (target fl n) (n_regular nd') (n_links nd') ->
    outcome P fl n w (-1) (unlinked P (target fl n) (<[target fl n := nd']> (w_fs w)))
| printed l : f_cat fl = true -> converted P fl n w l -> outcome P fl n w 0 (w_fs w)
| copied nd' : f_cat fl = false -> f_precious fl = true -> source fl n <> target fl n ->
    replaces (w_fs w) (target fl n) (n_regular nd') (n_links nd') ->
    converted P fl n w (n_data nd') -> outcome P fl n w 0 (<[target fl n := nd']> (w_fs w))
| moved nd' : f_cat fl = false -> f_precious fl = false -> source fl n <> target fl n ->
    replaces (w_fs w) (target fl n) (n_regular nd') (n_links nd') ->
    converted P fl n w (n_data nd') ->
    outcome P fl n w (-1) (unlinked P (source fl n) (<[target fl n := nd']> (w_fs w))).


Lemma unlink_fs P n w : w_fs (unlink P n w) = unlinked P n (w_fs w).
Proof. unfold unlink, unlinked. now destruct (can_unlink P n). Qed.

Lemma unlink_ok P n w : world_ok w -> world_ok (unlink P n w).
Proof.
  intros [H1 H2 H3]. unfold unlink. destruct (can_unlink P n); [| now split].
  split; cbn [w_fs w_stdin w_e set_fs]; [now apply map_Forall_delete | assumption | assumption].
Qed.

(** Closing the output of a named file. *)
Lemma close_out_target w o n reg links fs : w_fs w = <[n := mkNode [] reg links]> fs ->
  w_fs (close_out (Some n) o w) = <[n := mkNode (obytes o) reg links]> fs.
Proof.
  intros E. unfold close_out. rewrite E, lookup_insert_eq. cbn [w_fs set_fs n_regular n_links].
  apply insert_insert_eq.
Qed.

Lemma close_out_ok outname o w : world_ok w -> (outname = None \/ Forall is_u8 (obytes o)) -> world_ok (close_out outname o w).
Proof.
  intros [H1 H2 H3] Ho. destruct outname as [n|]; cbn [close_out]; [| now split].
  destruct (w_fs w !! n) as [nd|]; [| now split]. destruct Ho as [|Ho]; [discriminate |].
  split; cbn [w_fs w_stdin w_e set_fs]; [now apply map_Forall_insert_2 | assumption | assumption].
Qed.

Lemma read_up_to_bytes k data : Forall is_u8 data -> Forall is_u8 (read_up_to k data).
Proof. destruct k; cbn [read_up_to]; [apply Forall_take | auto]. Qed.

Lemma process_named P fl n w : world_ok w -> flags_ok fl ->
  (exists r w', process P fl (Some n) w = Done (r, w') /\ world_ok w' /\ outcome P fl n w r (w_fs w')) \/
  (process P fl (Some n) w = Bad_printf /\
   exists nd, w_fs w !! source fl n = Some nd /\ n_regular nd = true /\ linked fl nd = true).
Proof.
  intros Hw Hfl. unfold process. pose proof (open_input_file P fl n w) as Ein.
  destruct (open_input P fl (Some n) w) as [[[[inname i] f]|]| |]; cbn [exec_bind]; [left | left | now right | easy].
  2:{ exists (-1), w. split; [reflexivity |]. split; [assumption | constructor]. }
  destruct Ein as (nd & Hnd & -> & -> & -> & Hne).
  pose proof (format_of_ok fl (source fl n) Hfl) as Hf. set (f := format_of fl (source fl n)) in *.
  destruct (open_output P fl (Some n) w) as [out w1] eqn:Eout.
  destruct (open_output_file P fl n w out w1 Eout Hw) as (Ee & Hin & Hout).
  assert (Hw1 : world_ok w1).
  { split; [| assumption | rewrite Ee; apply Hw]. destruct out as [[[o|] s]|].
    - destruct Hout as (_ & _ & _ & reg & links & _ & ->). apply map_Forall_insert_2; [constructor | apply Hw].
    - destruct Hout as [_ ->]. apply Hw.
    - rewrite Hout. apply Hw. }
  destruct out as [[outname o]|]; [| exists (-1), w1; split; [reflexivity |]; split; [assumption | rewrite Hout; constructor]].
  unfold file_stream. fold (breaks P (source fl n)).
  destruct (convert_file P fl f (w_e w1) (read_up_to (read_fails P (source fl n)) (n_data nd)) (breaks P (source fl n)) o
              (read_up_to_bytes _ _ (wo_fs w Hw _ _ Hnd)) (wo_e w1 Hw1))
    as (res & i' & o' & e' & -> & He' & Hbytes & Hcase).
  cbn [of_loop exec_bind]. set (w2 := close_in _ _ _). assert (Hw2 : world_ok w2) by (destruct Hw1; split; assumption).
  assert (Hfs2 : w_fs w2 = w_fs w1) by reflexivity.
  assert (Hw3 : world_ok (close_out outname o' w2)).
  { apply close_out_ok; [assumption |]. destruct outname; [right | now left]. apply Hbytes.
    destruct Hout as (_ & _ & -> & _). constructor. }
  assert (Herr : exists r w', process_err P outname o' w2 = (r, w') /\ world_ok w' /\ outcome P fl n w r (w_fs w')).
  { unfold process_err. eexists _, _. split; [reflexivity |]. destruct outname as [t|].
    - split; [now apply unlink_ok |]. destruct Hout as (Hcat & -> & -> & reg & links & Hrep & E).
      rewrite unlink_fs, (close_out_target w2 o' _ reg links (w_fs w)) by now rewrite Hfs2.
      apply failed; [assumption | destruct Hne; congruence | assumption].
    - split; [assumption |]. cbn [close_out w_fs set_stdout]. rewrite Hfs2, (proj2 Hout). constructor. }
  destruct Herr as (r1 & w1' & Eerr & Hw1' & Hout1).
  destruct Hcase as [(-> & Hread & l & El & Hl & Hol & Hoe)|(-> & _)]; cbn [Z.eqb negb];
    [| rewrite Eerr; eauto].
  destruct (oerror o') eqn:Eoe; [rewrite Eerr; eauto |].
  assert (Hcomp : converted P fl n w l) by (apply (stream_converted P fl n w nd); [| | rewrite <- Ee]; assumption).
  destruct outname as [t|].
  - destruct Hout as (Hcat & -> & -> & reg & links & Hrep & E). cbn [obytes app] in Hol. rewrite Hcat. cbn [negb andb].
    assert (Hst : source fl n <> target fl n) by (destruct Hne; congruence).
    pose proof (close_out_target w2 o' (target fl n) reg links (w_fs w) E) as E3. rewrite Hol in E3.
    destruct (f_precious fl) eqn:Hp; cbn [negb].
    + eexists _, _. split; [reflexivity |]. split; [assumption |]. rewrite E3. apply copied; assumption.
    + eexists _, _. split; [reflexivity |]. split; [now apply unlink_ok |]. rewrite unlink_fs, E3. apply moved; assumption.
  - destruct Hout as [Hcat E]. rewrite Hcat. cbn [negb andb]. eexists _, _. split; [reflexivity |]. split; [assumption |].
    cbn [close_out w_fs set_stdout]. rewrite Hfs2, E. now apply (printed P fl n w l).
Qed.

(** ** A run that succeeds *)

(** The system lets the program convert the file [src], whose contents are those
    of [nd], to a new file [dst] of up to [size] bytes. *)
Record granted (P : os) (src : name) (nd : node) (dst : name) (size : nat) : Prop := {
  gr_read : can_read P src = true;
  gr_stat : can_stat P src = true;
  gr_unlink : can_unlink P src = true;
  gr_regular : n_regular nd = true;
  gr_links : n_links nd <= 1;
  gr_create : can_create P dst = true;
  gr_room : (size <= room P dst)%nat
}.

Lemma process_moves P fl n w nd l : world_ok w -> flags_ok fl -> f_cat fl = false -> f_precious fl = false ->
  f_decode fl || negb (has_suffix n SUFFIX_TOASTED) = true ->
  w_fs w !! source fl n = Some nd -> w_fs w !! target fl n = None ->
  granted P (source fl n) nd (target fl n) (length l) ->
  conversion P fl (format_of fl (source fl n)) (w_e w) (read_up_to (read_fails P (source fl n)) (n_data nd)) = Some l ->
  notices fl (format_of fl (source fl n)) (read_up_to (read_fails P (source fl n)) (n_data nd)) && breaks P (source fl n) = false ->
  exists w', process P fl (Some n) w = Done (-1, w') /\ world_ok w' /\
    w_fs w' = <[target fl n := mkNode l true 1]> (delete (source fl n) (w_fs w)).
Proof.
  intros Hw Hfl Hcat Hpre Hsuf Hsrc Hdst [G1 G2 G3 G4 G5 G6 G7] Hconv Hread.
  assert (Hlk : linked fl nd = false) by (unfold linked; now destruct (Z.gtb_spec (n_links nd) 1); [lia |]).
  destruct (process_named P fl n w Hw Hfl) as [(r & w' & E & Hw' & _)|(_ & nd0 & Hnd0 & _ & Hlk0)]; [| congruence].
  pose proof E as E0. unfold process, open_input in E. fold (source fl n) in E. rewrite Hcat in E. cbn [negb] in E.
  rewrite andb_true_r in E.
  assert (Es : negb (f_decode fl) && has_suffix n SUFFIX_TOASTED = false)
    by (now destruct (f_decode fl), (has_suffix n SUFFIX_TOASTED)).
  rewrite Es, Hsrc, G1 in E. cbn [negb] in E. unfold okay_as_input in E. rewrite G2, G4, Hlk in E. cbn [negb exec_bind] in E.
  replace (match (match f_format fl with Some f => Some f | None => grok_format (source fl n) end) with
           | Some f => f | None => DEFAULT_FORMAT end) with (format_of fl (source fl n)) in E
    by (unfold format_of; destruct (f_format fl); reflexivity).
  unfold open_output in E. fold (target fl n) in E. rewrite Hcat, Hdst, G6 in E. cbn [length_okay negb] in E.
  pose proof (format_of_ok fl (source fl n) Hfl) as Hf. cbn [w_e set_fs] in E.
  unfold file_stream in E. fold (breaks P (source fl n)) in E.
  destruct (convert_file P fl (format_of fl (source fl n)) (w_e w) (read_up_to (read_fails P (source fl n)) (n_data nd))
              (breaks P (source fl n)) (mkOut [] (room P (target fl n)) false) (read_up_to_bytes _ _ (wo_fs w Hw _ _ Hsrc)) (wo_e w Hw))
    as (res & i' & o' & e' & Ec & _ & _ & Hcase).
  rewrite Ec in E. cbn [of_loop exec_bind] in E.
  destruct Hcase as [(-> & _ & l' & El & _ & Hol & Hoe)|(-> & [Hbad|Hbad])]; [| congruence | specialize (Hbad l Hconv); cbn in Hbad; lia].
  rewrite Hconv in El. injection El as <-. cbn [obytes oerror app] in Hol, Hoe.
  cbn [Z.eqb negb] in E. rewrite Hoe, Hpre in E. cbn [negb andb] in E. injection E as <- Ew.
  exists w'. split; [exact E0 |]. split; [assumption |]. rewrite <- Ew, unlink_fs.
  rewrite lookup_insert_eq. cbn [w_fs set_fs set_e n_regular n_links new_file]. rewrite insert_insert_eq, Hol.
  unfold unlinked. rewrite G3.
  apply delete_insert_ne. congruence.
Qed.

(** ** The command terminates *)











(** An example: a system where everything succeeds and a file "a.u" of three
    bytes; and systems where reading fails after two bytes, and where nothing can
    be written. *)
Definition easy_os : os :=
  mkOs (fun _ => true) (fun _ => true) (fun _ => true) (fun _ => true) (fun _ => None) (fun _ => true) (fun _ => 1000%nat) false true.
Definition broken_os : os :=
  mkOs (fun _ => true) (fun _ => true) (fun _ => true) (fun _ => true) (fun _ => Some 2%nat) (fun _ => true) (fun _ => 1000%nat) false true.
Definition a_u : name := [97; 46; 117].
Definition a_l : name := [97; 46; 108].
Definition small : node := mkNode [1; 2; 200] true 1.
Definition world_with (n : name) (nd : node) : world :=
  mkWorld {[ n := nd ]} (mkIn [] 0 false false) (mkOut [] 100 false) (repeat 0 50).

Lemma world_with_ok n nd : Forall is_u8 (n_data nd) -> world_ok (world_with n nd).
Proof. intros H. split; cbn [world_with w_fs w_stdin w_e ibytes]; [now apply map_Forall_singleton | constructor | apply words_repeat]. Qed.

Lemma small_bytes : Forall is_u8 (n_data small).
Proof. repeat constructor; cbv; congruence. Qed.


(** ** What is lost *)

Lemma unlinked_other (P : os) (n m : name) (fs : gmap name node) : m <> n -> unlinked P n fs !! m = fs !! m.
Proof. intros H. unfold unlinked. destruct (can_unlink P n); [| reflexivity]. now rewrite lookup_delete_ne. Qed.



(** The third case does happen, for every file of linear samples whose reading
    fails: [linear_input] returns the samples read so far, so the file is coded
    up to the error, as if it ended there, and then removed. *)
Theorem linear_read_error_loses P n w nd k l : world_ok w -> has_suffix n SUFFIX_TOASTED = false ->
  grok_format n = Some f_linear -> read_fails P n = Some k ->
  w_fs w !! n = Some nd -> w_fs w !! codename n = None -> granted P n nd (codename n) (length l) ->
  conversion P initial_flags f_linear (w_e w) (firstn k (n_data nd)) = Some l ->
  exists w', process P initial_flags (Some n) w = Done (-1, w') /\
    w_fs w' = <[codename n := mkNode l true 1]> (delete n (w_fs w)).
Proof.
  intros Hw Hsuf Hf Hfail Hnd Hout Hgr Hconv.
  destruct (process_moves P initial_flags n w nd l) as (w' & E & _ & Hfs); auto; try easy;
    unfold format_of; cbn [f_decode f_format initial_flags orb source].
  - now rewrite Hsuf.
  - rewrite Hf, Hfail. exact Hconv.
  - now rewrite Hf.
  - exists w'. auto.
Qed.

Definition a_l_coded : list Z :=
  match conversion broken_os initial_flags f_linear (repeat 0 50) (firstn 2 (n_data small)) with Some l => l | None => [] end.

Lemma linear_read_error_loses_witness : exists w',
  process broken_os initial_flags (Some a_l) (world_with a_l small) = Done (-1, w') /\
  w_fs w' = <[codename a_l := mkNode a_l_coded true 1]> (delete a_l (w_fs (world_with a_l small))).
Proof.
  apply (linear_read_error_loses broken_os a_l (world_with a_l small) small 2 a_l_coded).
  - apply world_with_ok, small_bytes.
  - vm_compute. reflexivity.
  - vm_compute. reflexivity.
  - reflexivity.
  - vm_compute. reflexivity.
  - vm_compute. reflexivity.
  - split; try reflexivity.
    apply Nat.leb_le. vm_compute. reflexivity.
  - vm_compute. reflexivity.
Defined.

(** ** Damaged files *)

(** A file that cannot be a sequence of frames: its length is not a multiple of
    33, or one of its frames has a wrong magic nibble. *)
Definition damaged (data : list Z) : Prop :=
  (length data mod 33 <> 0)%nat \/
  exists k, (33 * k < length data)%nat /\ data.[33 * Z.of_nat k] / 16 <> GSM_MAGIC.

Lemma samples_of_magic codes n r ds l k : samples_of codes n r ds = Some l -> (k < n)%nat -> Forall is_u8 ds ->
  length ds = (33 * n)%nat -> ds.[33 * Z.of_nat k] / 16 = GSM_MAGIC.
Proof.
  revert r ds l k; induction n as [|n IH]; intros r ds l k E Hk Hb Hl; [lia |]. cbn [samples_of] in E.
  unfold gsm_decode in E. destruct (unpack_frame (firstn 33 ds)) as [p|] eqn:Eu.
  2:{ cbn [bind] in E. discriminate. }
  destruct (Gsm_Decoder r p) as [[s r']|]; [| discriminate]. cbn [bind Z.eqb] in E.
  destruct (samples_of codes n r' (skipn 33 ds)) as [rest|] eqn:Erest; [| discriminate].
  destruct k as [|k].
  - unfold unpack_frame in Eu. assert (Ed : (firstn 33 ds).[0] = ds.[33 * Z.of_nat 0]).
    { unfold aget. destruct ds; reflexivity. }
    destruct (Z.eqb_spec (((firstn 33 ds).[0] >> 4) .& 0x0F) GSM_MAGIC) as [Em|]; [| discriminate].
    rewrite Ed in Em. rewrite <- Em. change 15 with (2 ^ 4 - 1). rewrite land_mask, shiftr_div by lia.
    assert (0 <= ds.[33 * Z.of_nat 0] < 256) by (apply (Forall_aget is_u8); [unfold is_u8; lia | assumption]).
    change (2 ^ 4) with 16. rewrite Z.mod_small; [reflexivity | zlia].
  - replace ds.[33 * Z.of_nat (S k)] with (skipn 33 ds).[33 * Z.of_nat k].
    + apply (IH r' _ rest); [assumption | lia | now apply Forall_skipn | rewrite length_skipn; lia].
    + unfold aget. rewrite nth_skipn. f_equal. lia.
Qed.

Lemma damaged_conversion P fl f e data : f_decode fl = true -> Forall is_u8 data -> damaged data ->
  conversion P fl f e data = None.
Proof.
  intros Hd Hb Hbad. unfold conversion. rewrite Hd. destruct (codec_create P fl) as [r|]; [| reflexivity]. cbn [bind].
  destruct (samples_of _ _ r data) as [l|] eqn:E; [| reflexivity]. exfalso.
  pose proof (samples_of_exact _ _ _ _ _ E) as Hl. pose proof (Nat.div_mod_eq (length data) 33) as Hdm.
  destruct Hbad as [Hbad|(k & Hk & Hbad)]; [lia |]. apply Hbad.
  apply (samples_of_magic _ _ _ _ _ k E); [| assumption | lia].
  apply Nat.div_le_lower_bound with (a := length data) (b := 33%nat) (q := S k); [lia |].
  pose proof (Nat.mod_upper_bound (length data) 33). nia.
Qed.

(** A damaged file is refused: decoding a file whose length is not a
    multiple of 33, or with a frame without the magic nibble, gives -1 and keeps
    the source, if reading it does not fail; and the output begun is removed again, so that the file system is
    as before if there was no file with the name of the output. *)
Theorem untoast_refuses_damaged P fl n w nd : world_ok w -> flags_ok fl -> f_decode fl = true ->
  w_fs w !! source fl n = Some nd -> linked fl nd = false -> read_fails P (source fl n) = None -> damaged (n_data nd) ->
  exists w', process P fl (Some n) w = Done (-1, w') /\ w_fs w' !! source fl n = Some nd /\
    (can_unlink P (target fl n) = true -> w_fs w !! target fl n = None -> w_fs w' = w_fs w).
Proof.
  intros Hw Hfl Hd Hnd Hlk Hrf Hbad.
  destruct (process_named P fl n w Hw Hfl) as [(r & w' & E & _ & Hout)|(_ & nd0 & Hnd0 & _ & Hlk0)]; [| congruence].
  assert (Hno : forall l, converted P fl n w l -> False).
  { intros l [(nd0 & Hnd0 & Hc)|(nd0 & k & _ & Hk & _)]; [| congruence]. rewrite Hnd in Hnd0. injection Hnd0 as <-.
    rewrite damaged_conversion in Hc; [discriminate | assumption | apply (wo_fs w Hw _ _ Hnd) | assumption]. }
  exists w'. rewrite E.
  destruct Hout as [|nd' Hc Hne _|l Hc Hl|nd' Hc Hp Hne _ Hl|nd' Hc Hp Hne _ Hl]; try (exfalso; eapply Hno; eassumption); auto.
  split; [reflexivity |]. split; [now rewrite unlinked_other, lookup_insert_ne by auto |].
  intros Hu Ht. unfold unlinked. rewrite Hu. now apply delete_insert_id.
Qed.

Definition decode_flags : flags := mkFlags true false false false 0 0 None.

Lemma untoast_refuses_damaged_witness : exists w',
  process easy_os decode_flags (Some a_u) (world_with (codename a_u) small) = Done (-1, w') /\
  w_fs w' = w_fs (world_with (codename a_u) small).
Proof.
  destruct (untoast_refuses_damaged easy_os decode_flags a_u (world_with (codename a_u) small) small)
    as (w' & H1 & _ & H2).
  - apply world_with_ok, small_bytes.
  - exact I.
  - reflexivity.
  - vm_compute. reflexivity.
  - reflexivity.
  - reflexivity.
  - left. cbn. lia.
  - exists w'. split; [exact H1 |]. apply H2; [reflexivity |]. vm_compute. reflexivity.
Defined.

(** ** There and back again *)

Definition output_width (f : output_fn) : nat := match f with Out_linear => 2 | _ => 1 end.

Lemma output_codes_length f buf : length (output_codes f buf) = (output_width f * length buf)%nat.
Proof.
  destruct f; cbn [output_codes output_width]; [rewrite length_map; lia | rewrite length_map; lia | apply short_bytes_length].
Qed.

Lemma samples_of_good f n r ds : good_stream n ds -> decoder_ok r ->
  exists l, samples_of (output_codes f) n r ds = Some l /\ length l = (n * (160 * output_width f))%nat.
Proof.
  intros H. revert r; induction H as [|n d ds Hd _ IH]; intros r Hr; cbn [samples_of length Nat.eqb]; [now exists [] |].
  assert (Hl : length d = 33%nat) by apply Hd.
  rewrite firstn_app, skipn_app, Hl, Nat.sub_diag, firstn_O, app_nil_r, skipn_O, <- Hl, firstn_all, skipn_all.
  destruct (decode_step r d Hr Hd) as (s & r' & -> & Hs & Hr'). cbn [bind Z.eqb app].
  destruct (IH r' Hr') as (l & -> & Hll). cbn [bind]. exists (output_codes f s ++ l). split; [reflexivity |].
  rewrite length_app, output_codes_length, (proj1 Hs), Hll. lia.
Qed.

Lemma toast_main_toast P n w : toast_main P (Some name_toast) [] [n] w =
  do* (_, w) := process P initial_flags (Some n) w in Done (0, w).
Proof.
  unfold toast_main. change (command_flags (Some name_toast) []) with (@inl flags Z initial_flags).
  cbn [process_all]. now destruct (process P initial_flags (Some n) w) as [[r w']| |].
Qed.

Lemma toast_main_untoast P n w : toast_main P (Some name_untoast) [] [n] w =
  do* (_, w) := process P decode_flags (Some n) w in Done (0, w).
Proof.
  unfold toast_main. change (command_flags (Some name_untoast) []) with (@inl flags Z decode_flags).
  cbn [process_all]. now destruct (process P decode_flags (Some n) w) as [[r w']| |].
Qed.

Lemma codec_create_some P fl : can_malloc P = true -> exists r, codec_create P fl = Some r.
Proof. intros H. unfold codec_create. rewrite H. eexists. reflexivity. Qed.

(** Reading the first [len] bytes of a file does not fail. *)
Definition reads_all (P : os) (n : name) (len : nat) : Prop := match read_fails P n with Some k => (len <= k)%nat | None => True end.

Lemma reads_all_bytes P n data : reads_all P n (length data) -> read_up_to (read_fails P n) data = data.
Proof. unfold reads_all. destruct (read_fails P n); cbn [read_up_to]; [apply firstn_all2 | reflexivity]. Qed.

(** C7. [toast] and [untoast] belong together: coding a file of any format
    moves it to its name with ".gsm", one frame of 33 bytes for every 160
    samples begun, and decoding that file puts back a file of the original name
    with as many samples, the last block filled up to 160; no other file is
    touched. *)
Theorem toast_untoast P n w nd xs : world_ok w -> n <> [] -> has_suffix n SUFFIX_TOASTED = false ->
  w_fs w !! n = Some nd -> w_fs w !! codename n = None ->
  source_samples (format_of initial_flags n) (n_data nd) = Some xs ->
  granted P n nd (codename n) (33 * blocks xs) -> read_fails P n = None -> reads_all P (codename n) (33 * blocks xs) ->
  can_malloc P = true ->
  granted P (codename n) new_file n
    (length (header (format_of initial_flags n)) + blocks xs * (160 * output_width (fmt_output (format_of initial_flags n)))) ->
  exists w1 w2 d l, toast_main P (Some name_toast) [] [n] w = Done (0, w1) /\
    w_fs w1 = <[codename n := mkNode d true 1]> (delete n (w_fs w)) /\ length d = (33 * blocks xs)%nat /\
    toast_main P (Some name_untoast) [] [codename n] w1 = Done (0, w2) /\
    w_fs w2 = <[n := mkNode l true 1]> (w_fs w) /\
    length l = (length (header (format_of initial_flags n)) +
                blocks xs * (160 * output_width (fmt_output (format_of initial_flags n))))%nat.
Proof.
  intros Hw Hn Hsuf Hnd Hcode Hxs Hg1 Hrf Hr2 Hm Hg2. set (f := format_of initial_flags n) in *.
  destruct (codec_create_some P initial_flags Hm) as [r0 Er0]. destruct (codec_create_some P decode_flags Hm) as [r1 Er1].
  assert (Hfmt : FormatOk f) by now apply format_of_ok.
  destruct (frames_of_total (blocks xs) r0 (w_e w) xs) as (d & e' & Ed & Hd & _).
  { apply (codec_create_ok _ _ _ Er0). }
  { apply Hw. }
  { exact (source_samples_words f _ _ (wo_fs w Hw _ _ Hnd) Hxs). }
  pose proof (good_stream_length _ _ Hd) as Hdl.
  destruct (process_moves P initial_flags n w nd d) as (w1 & E1 & Hw1 & Hfs1); auto; try easy.
  { cbn [f_decode initial_flags orb]. now rewrite Hsuf. }
  { now rewrite Hdl. }
  { cbn [source initial_flags f_decode]. rewrite Hrf. cbn [read_up_to]. unfold conversion. rewrite Er0. cbn [bind f_decode initial_flags source]. fold f. rewrite Hxs. cbn [bind]. now rewrite Ed. }
  { cbn [source initial_flags f_decode]. unfold breaks. rewrite Hrf. apply andb_false_r. }
  destruct (samples_of_good (fmt_output f) (blocks xs) r1 d Hd) as (l & El & Hll); [apply (codec_create_ok _ _ _ Er1) |].
  change (target initial_flags n) with (codename n) in Hfs1. change (source initial_flags n) with n in Hfs1.
  set (c := codename n) in *.
  assert (Hc : codename c = c) by now apply codename_codename.
  assert (Hp : plainname c = n) by now apply plainname_codename.
  assert (Hcn : c <> n) by now apply codename_longer.
  destruct (process_moves P decode_flags c w1 (mkNode d true 1) (header f ++ l)) as (w2 & E2 & _ & Hfs2);
    unfold source, target; cbn [decode_flags f_decode]; rewrite ?Hc, ?Hp;
    [assumption | exact I | reflexivity | reflexivity | reflexivity | | | | | reflexivity |].
  { rewrite Hfs1. apply lookup_insert_eq. }
  { rewrite Hfs1, lookup_insert_ne by auto. apply lookup_delete_eq. }
  { rewrite length_app, Hll. destruct Hg2. now split. }
  { cbn [n_data]. rewrite reads_all_bytes by now rewrite Hdl.
    unfold conversion, format_of. cbn [decode_flags f_decode f_format]. rewrite Er1. cbn [bind].
    unfold c. rewrite grok_format_code by assumption. change (match grok_format n with Some f => f | None => _ end) with f.
    rewrite Hdl, Nat.mul_comm, Nat.div_mul by lia. now rewrite El. }
  unfold source, target in Hfs2. cbn [decode_flags f_decode] in Hfs2. rewrite Hc, Hp, Hfs1 in Hfs2.
  exists w1, w2, d, (header f ++ l).
  rewrite toast_main_toast, E1. cbn [exec_bind]. rewrite toast_main_untoast, E2. cbn [exec_bind].
  repeat split; [assumption | assumption | | now rewrite length_app, Hll].
  rewrite Hfs2, delete_insert_id by (now rewrite lookup_delete_ne by auto). apply insert_delete_eq.
Qed.

Lemma toast_untoast_witness : exists w1 w2 d l,
  toast_main easy_os (Some name_toast) [] [a_u] (world_with a_u small) = Done (0, w1) /\ length d = 33%nat /\
  w_fs w1 = <[codename a_u := mkNode d true 1]> (delete a_u (w_fs (world_with a_u small))) /\
  toast_main easy_os (Some name_untoast) [] [codename a_u] w1 = Done (0, w2) /\
  w_fs w2 = <[a_u := mkNode l true 1]> (w_fs (world_with a_u small)) /\ length l = 160%nat.
Proof.
  destruct (toast_untoast easy_os a_u (world_with a_u small) small (input_samples In_ulaw (n_data small)))
    as (w1 & w2 & d & l & H1 & H2 & H3 & H4 & H5 & H6).
  - apply world_with_ok, small_bytes.
  - discriminate.
  - vm_compute. reflexivity.
  - vm_compute. reflexivity.
  - vm_compute. reflexivity.
  - vm_compute. reflexivity.
  - split; try reflexivity. apply Nat.leb_le. vm_compute. reflexivity.
  - reflexivity.
  - exact I.
  - reflexivity.
  - split; try reflexivity. apply Nat.leb_le. vm_compute. reflexivity.
  - exists w1, w2, d, l. split; [exact H1 |]. split; [exact H3 |]. split; [exact H2 |].
    split; [exact H4 |]. split; [exact H5 |]. exact H6.
Defined.
