(* ===== verification/SusanImage.v ===== *)
(** * SUSAN: images in memory

    The buffers of [automotive/susan/susan.c] and the loops over them.  Every
    access of the program goes through [rd] and [wr], which have no result
    outside the buffer; a division by zero, a conversion that does not fit
    and the signed overflows that an input could cause have none either.  A
    function of the program that returns [Some] has therefore no undefined
    behaviour on that input.  The sums over the masks of at most 37 pixels are
    plain integers: their terms are at most 900 and the squares of the sums of
    [moment_bound] add up to less than [2^31].

    The pixel loops of the program are [raster]; [raster_ind] is their invariant
    rule and [raster_cells] the rule for loops whose body writes only the cell of
    its own pixel.  The walk of a pointer over a mask, unrolled in the source,
    is [walk]. *)

From Stdlib Require Import ZArith Lia List Bool.
From S2P Require Import Prelude.
Import ListNotations.

(** Equality of tuples up to arithmetic. *)
Ltac tuple_eq :=
  try apply f_equal;
  repeat match goal with |- (_, _) = (_, _) => apply f_equal2 end; try reflexivity; lia.

(** ** Checked memory *)

Definition len (l : list Z) : Z := Z.of_nat (length l).

Definition inside (l : list Z) (i : Z) : bool := (0 <=? i) && (i <? len l).

(** [l[i]] and [l[i] = v]. *)
Definition rd (l : list Z) (i : Z) : option Z := assert! inside l i in Some l.[i].
Definition wr (l : list Z) (i v : Z) : option (list Z) := assert! inside l i in Some (aset l i v).

(** A value of type [int], and the division of two. *)
Definition int_of (v : Z) : option Z := assert! (- 2 ^ 31 <=? v) && (v <? 2 ^ 31) in Some v.
Definition int_div (a b : Z) : option Z := assert! negb (b =? 0) in int_of (Z.quot a b).

Lemma inside_true l i : inside l i = true <-> 0 <= i < len l.
Proof. unfold inside. rewrite andb_true_iff, Z.leb_le, Z.ltb_lt. reflexivity. Qed.

Lemma rd_some l i : 0 <= i < len l -> rd l i = Some l.[i].
Proof. intros H. unfold rd. now rewrite (proj2 (inside_true l i) H). Qed.

Lemma wr_some l i v : 0 <= i < len l -> wr l i v = Some (aset l i v).
Proof. intros H. unfold wr. now rewrite (proj2 (inside_true l i) H). Qed.

Lemma int_of_some v : is_i32 v -> int_of v = Some v.
Proof. intros H. unfold int_of. unfold is_i32 in H. now rewrite (proj2 (Z.leb_le _ _)), (proj2 (Z.ltb_lt _ _)) by lia. Qed.

Lemma int_div_some a b : b <> 0 -> is_i32 (Z.quot a b) -> int_div a b = Some (Z.quot a b).
Proof. intros Hb H. unfold int_div. rewrite (proj2 (Z.eqb_neq b 0) Hb). now apply int_of_some. Qed.

Lemma len_aset l i v : len (aset l i v) = len l.
Proof. unfold len. now rewrite aset_length. Qed.

Lemma len_repeat v n : 0 <= n -> len (repeat v (Z.to_nat n)) = n.
Proof. intros. unfold len. rewrite repeat_length. lia. Qed.

Lemma aget_repeat v n i : 0 <= i < n -> (repeat v (Z.to_nat n)).[i] = v.
Proof. intros. unfold aget. apply nth_repeat_lt. lia. Qed.

(** ** How a function ends

    By returning, by [exit], with undefined behaviour, or not within the steps
    that it is given ([Running]; only thinning is given a number of steps). *)

Inductive res (A : Type) :=
| Ret (a : A)
| Exit (code : Z)
| Undef
| Running.
Arguments Ret {A}.
Arguments Exit {A}.
Arguments Undef {A}.
Arguments Running {A}.

Definition rbind {A B} (m : res A) (k : A -> res B) : res B :=
  match m with Ret a => k a | Exit c => Exit c | Undef => Undef | Running => Running end.

Notation "'let!' x := m 'in' k" := (rbind m (fun x => k))
  (at level 10, x pattern, m at level 100, k at level 200).

Definition lift {A} (m : option A) : res A := match m with Some a => Ret a | None => Undef end.

(** ** Memory

    [malloc n] is the block that a call for [n] elements returns, with whatever it
    holds; [None] is the null pointer, which the program never tests for, so that
    its use is undefined. *)

(** Every call for fewer than [2^31] elements succeeds, with a block of that
    length. *)
Definition allocates (malloc : Z -> option (list Z)) : Prop :=
  forall n, 0 <= n < 2 ^ 31 -> exists blk, malloc n = Some blk /\ len blk = n.

(** ** Pixels

    Pixel [(i, j)], row first, of an image with rows of [x] is [i*x + j]. *)

Definition px (x i j : Z) : Z := i * x + j.

Lemma px_inside x y i j : 0 <= i < y -> 0 <= j < x -> 0 <= px x i j < x * y.
Proof. unfold px. nia. Qed.

Lemma px_inj x i j u v : 0 <= j < x -> 0 <= v < x -> px x i j = px x u v -> i = u /\ j = v.
Proof.
  unfold px. intros Hj Hv E.
  destruct (Z.lt_trichotomy i u) as [H | [-> | H]]; [nia | lia | nia].
Qed.

Lemma Forall_of_cells (P : Z -> Prop) l : (forall i, 0 <= i < len l -> P l.[i]) -> Forall P l.
Proof.
  intros H. apply Forall_forall. intros v Hv. apply (In_nth _ _ 0) in Hv as (n & Hn & <-).
  specialize (H (Z.of_nat n)). unfold aget, len in H. rewrite Nat2Z.id in H. apply H. lia.
Qed.

(** Every index is the index of a pixel. *)
Lemma px_of x y k : 0 < x -> 0 <= k < x * y ->
  exists u v, 0 <= u < y /\ 0 <= v < x /\ k = px x u v.
Proof.
  intros Hx Hk. exists (k / x), (k mod x). unfold px.
  pose proof (Z.div_mod k x ltac:(lia)). pose proof (Z.mod_pos_bound k x ltac:(lia)).
  repeat split; try lia; [apply Z.div_pos; lia | apply Z.div_lt_upper_bound; lia].
Qed.

Lemma Forall_pixels (P : Z -> Prop) x y l : 0 < x -> len l = x * y ->
  (forall u v, 0 <= u < y -> 0 <= v < x -> P l.[px x u v]) -> Forall P l.
Proof.
  intros Hx Hl H. apply Forall_of_cells. intros k Hk. rewrite Hl in Hk.
  destruct (px_of x y k Hx Hk) as (u & v & Hu & Hv & ->). auto.
Qed.

Definition image_ok (x y : Z) (im : list Z) : Prop :=
  0 < x /\ 0 < y /\ x * y < 2 ^ 31 /\ len im = x * y /\ Forall is_u8 im.

(** [border b x y i j]: the pixel is at least [b] away from every side. *)
Definition interior (b x y i j : Z) : bool :=
  (b <=? i) && (i <? y - b) && (b <=? j) && (j <? x - b).

Lemma interior_true b x y i j :
  interior b x y i j = true <-> (b <= i < y - b /\ b <= j < x - b).
Proof. unfold interior. rewrite !andb_true_iff, !Z.leb_le, !Z.ltb_lt. lia. Qed.

(** [for (i=b; i<y-b; i++) for (j=b; j<x-b; j++) a = f i j a] *)
Definition raster {A} (b x y : Z) (f : Z -> Z -> A -> option A) (a : A) : option A :=
  for_opt b (y - b) (fun i => for_opt b (x - b) (f i)) a.

Lemma for_opt_nil {A} lo hi f (a : A) : hi <= lo -> for_opt lo hi f a = Some a.
Proof. intros. unfold for_opt. now apply for_range_nil. Qed.

Lemma for_opt_id {A} lo hi f (a : A) : (forall i, lo <= i < hi -> f i a = Some a) ->
  for_opt lo hi f a = Some a.
Proof.
  intros H. destruct (Z.leb_spec lo hi) as [L |]; [| apply for_opt_nil; lia].
  destruct (for_opt_ind (fun _ b => b = a) lo hi f a L eq_refl) as (y & E & ->); [| exact E].
  intros j b Hj ->. exists a. auto.
Qed.

(** A loop with an iteration that is undefined is undefined. *)
Lemma for_opt_none {A} lo k hi f (a : A) : lo <= k < hi -> (forall b, f k b = None) ->
  for_opt lo hi f a = None.
Proof.
  intros Hk Hf. unfold for_opt. rewrite (for_range_split lo k hi), (for_range_S k hi) by lia.
  replace (bind _ (f k)) with (@None A) by (destruct (for_range lo k _ _); cbn; auto).
  apply (for_range_ind (fun _ m => m = None)); [lia | reflexivity |]. now intros j x _ ->.
Qed.

Lemma raster_ind {A} (P : Z -> Z -> A -> Prop) b x y f a :
  b <= x - b -> b <= y - b -> P b b a ->
  (forall i j c, b <= i < y - b -> b <= j < x - b -> P i j c ->
     exists c', f i j c = Some c' /\ P i (j + 1) c') ->
  (forall i c, b <= i < y - b -> P i (x - b) c -> P (i + 1) b c) ->
  exists c, raster b x y f a = Some c /\ P (y - b) b c.
Proof.
  intros Hx Hy H0 HS HR. unfold raster.
  apply (for_opt_ind (fun i c => P i b c)); auto.
  intros i c Hi Hc.
  destruct (for_opt_ind (fun j c => P i j c) b (x - b) (f i) c) as (c' & E & Hc'); eauto.
Qed.

Lemma raster_empty {A} b x y f (a : A) : x - b <= b \/ y - b <= b -> raster b x y f a = Some a.
Proof.
  intros [H | H]; unfold raster; [| now apply for_opt_nil].
  apply for_opt_id. intros. now apply for_opt_nil.
Qed.

(** A property of the state that the body keeps. *)
Lemma raster_inv {A} (P : A -> Prop) b x y f (a : A) : P a ->
  (forall i j c, b <= i < y - b -> b <= j < x - b -> P c -> exists c', f i j c = Some c' /\ P c') ->
  exists c, raster b x y f a = Some c /\ P c.
Proof.
  intros H0 HS.
  destruct (Z.leb_spec b (x - b)); [| exists a; split; [apply raster_empty; lia | exact H0]].
  destruct (Z.leb_spec b (y - b)); [| exists a; split; [apply raster_empty; lia | exact H0]].
  apply (raster_ind (fun _ _ c => P c)); auto.
Qed.

(** Whether the loop has passed pixel [(u, v)] when it is about to do [(i, j)]. *)
Definition passed (i j u v : Z) : bool := (u <? i) || ((u =? i) && (v <? j)).

Section Cells.
Context {A V : Type} (b x y : Z) (f : Z -> Z -> A -> option A).
Context (good : A -> Prop) (cell : A -> Z -> V) (F : Z -> Z -> V -> V).
Hypothesis Hb : 0 <= b.
Hypothesis Hf : forall i j a, b <= i < y - b -> b <= j < x - b -> good a ->
  exists a', f i j a = Some a' /\ good a' /\
    cell a' (px x i j) = F i j (cell a (px x i j)) /\
    forall k, 0 <= k -> k <> px x i j -> cell a' k = cell a k.

(** A loop whose body writes the cell of its own pixel only computes that cell
    from the one before the loop, and leaves the cells of the border. *)
Lemma raster_cells a : good a ->
  exists a', raster b x y f a = Some a' /\ good a' /\
    forall u v, 0 <= u < y -> 0 <= v < x ->
      cell a' (px x u v) =
        if interior b x y u v then F u v (cell a (px x u v)) else cell a (px x u v).
Proof using Hb Hf.
  intros Hg.
  assert (Hnone : x - b < b \/ y - b < b -> forall u v, interior b x y u v = false).
  { intros Hs u v. destruct (interior b x y u v) eqn:E; [| reflexivity].
    apply interior_true in E. lia. }
  destruct (Z.leb_spec b (x - b)) as [Lx | Lx];
    [| exists a; split; [apply raster_empty; lia |]; split; [exact Hg |];
       intros; now rewrite Hnone by lia].
  destruct (Z.leb_spec b (y - b)) as [Ly | Ly];
    [| exists a; split; [apply raster_empty; lia |]; split; [exact Hg |];
       intros; now rewrite Hnone by lia].
  destruct (raster_ind (fun i j c => good c /\ forall u v, 0 <= u < y -> 0 <= v < x ->
      cell c (px x u v) = if interior b x y u v && passed i j u v
                          then F u v (cell a (px x u v)) else cell a (px x u v)) b x y f a)
    as (c & E & Hc & Hcells); try assumption.
  - split; [exact Hg |]. intros u v Hu Hv.
    destruct (interior b x y u v && passed b b u v) eqn:E; [| reflexivity].
    apply andb_true_iff in E as [E E']. apply interior_true in E. unfold passed in E'. lia.
  - intros i j c Hi Hj (Hc & Hcells).
    destruct (Hf i j c Hi Hj Hc) as (c' & E & Hc' & Hown & Hother).
    exists c'. split; [exact E |]. split; [exact Hc' |]. intros u v Hu Hv.
    destruct (Z.eq_dec (px x u v) (px x i j)) as [Ep | Np].
    + destruct (px_inj x u v i j) as [-> ->]; try assumption; try lia.
      rewrite Hown, Hcells by lia.
      rewrite (proj2 (interior_true b x y i j)) by lia. cbn [andb].
      replace (passed i j i j) with false by (unfold passed; lia).
      replace (passed i (j + 1) i j) with true by (unfold passed; lia). reflexivity.
    + rewrite Hother, Hcells by (try assumption; apply (px_inside x y u v); lia).
      replace (passed i (j + 1) u v) with (passed i j u v); [reflexivity |].
      assert (~ (u = i /\ v = j)) by (intros [-> ->]; now apply Np). unfold passed. lia.
  - intros i c Hi (Hc & Hcells). split; [exact Hc |]. intros u v Hu Hv.
    rewrite Hcells by assumption.
    destruct (interior b x y u v) eqn:E; [| reflexivity]. apply interior_true in E.
    replace (passed (i + 1) b u v) with (passed i (x - b) u v) by (unfold passed; lia).
    reflexivity.
  - exists c. split; [exact E |]. split; [exact Hc |]. intros u v Hu Hv.
    rewrite Hcells by assumption.
    destruct (interior b x y u v) eqn:E'; [| reflexivity]. apply interior_true in E'.
    replace (passed (y - b) b u v) with true by (unfold passed; lia). reflexivity.
Qed.
End Cells.

(** ** A pointer that walks over a mask

    The source unrolls the walk of [p] over the pixels of a mask: runs of reads
    [*p++] whose last read leaves [p] in place, then a step to the next run.  A
    mask is the list of its runs, each with what is done at its reads and with
    the step that follows it. *)

Section Walk.
Context {W A : Type} (get : Z -> option Z) (act : W -> Z -> A -> A).

Fixpoint walk_run (ws : list W) (p : Z) (a : A) : option (Z * A) :=
  match ws with
  | [] => Some (p, a)
  | [w] => let* c := get p in Some (p, act w c a)
  | w :: ws' => let* c := get p in walk_run ws' (p + 1) (act w c a)
  end.

Fixpoint walk (mask : list (list W * Z)) (p : Z) (a : A) : option (Z * A) :=
  match mask with
  | [] => Some (p, a)
  | (ws, step) :: rest =>
      let* (p', a') := walk_run ws p a in walk rest (p' + step) a'
  end.

(** Where a run and a mask read, with what is done there. *)
Fixpoint run_reads (ws : list W) (p : Z) : list (W * Z) :=
  match ws with
  | [] => []
  | w :: ws' => (w, p) :: run_reads ws' (p + 1)
  end.

Definition run_end (ws : list W) (p : Z) : Z :=
  match ws with [] => p | _ :: ws' => p + Z.of_nat (length ws') end.

Fixpoint reads (mask : list (list W * Z)) (p : Z) : list (W * Z) :=
  match mask with
  | [] => []
  | (ws, step) :: rest => run_reads ws p ++ reads rest (run_end ws p + step)
  end.

Fixpoint walk_end (mask : list (list W * Z)) (p : Z) : Z :=
  match mask with
  | [] => p
  | (ws, step) :: rest => walk_end rest (run_end ws p + step)
  end.

Context (val : Z -> Z).

Definition act_all (l : list (W * Z)) (a : A) : A :=
  fold_left (fun a '(w, p) => act w (val p) a) l a.

Lemma walk_run_ok ws p a : (forall w q, In (w, q) (run_reads ws p) -> get q = Some (val q)) ->
  walk_run ws p a = Some (run_end ws p, act_all (run_reads ws p) a).
Proof.
  revert p a. induction ws as [|w [|w' ws] IH]; intros p a H; [reflexivity | |].
  - cbn. rewrite (H w p) by (cbn; auto). cbn. do 2 f_equal. lia.
  - change (walk_run (w :: w' :: ws) p a)
      with (let* c := get p in walk_run (w' :: ws) (p + 1) (act w c a)).
    rewrite (H w p) by (cbn; auto). cbn [bind]. rewrite IH by (intros; apply (H w0); now right).
    cbn [run_end run_reads act_all fold_left length]. do 2 f_equal. lia.
Qed.

Lemma walk_ok mask p a : (forall w q, In (w, q) (reads mask p) -> get q = Some (val q)) ->
  walk mask p a = Some (walk_end mask p, act_all (reads mask p) a).
Proof.
  revert p a. induction mask as [|(ws, step) rest IH]; intros p a H; [reflexivity |].
  cbn [walk reads walk_end]. rewrite walk_run_ok
    by (intros; apply (H w); cbn [reads]; apply in_or_app; auto).
  cbn [bind]. rewrite IH by (intros; apply (H w); cbn [reads]; apply in_or_app; auto).
  unfold act_all. now rewrite fold_left_app.
Qed.
End Walk.
