(* ===== verification/SusanFloat.v ===== *)
(** * SUSAN: floating point

    The [float] and [double] operations that [automotive/susan/susan.c] uses, as
    the executable IEEE arithmetic of [SpecFloat]: [float] is binary32 and
    [double] binary64, both rounded to nearest even, as the target computes
    them.  A [float] that meets a [double] is converted, and an assignment to a
    [float] rounds again.

    The bound lemma of this file is [upto_round]: a result whose exact value is at
    most a small dyadic number stays at most that number after rounding.  It
    bounds the table of similarities and the steps that the corner detector
    takes along a direction. *)

From Stdlib Require Import ZArith Lia List Bool.
From Stdlib Require Import SpecFloat.
From S2P Require Import Prelude.

(** ** Operations *)

Definition f32_of_Z (k : Z) : spec_float := binary_normalize 24 128 k 0 false.
Definition f32_div : spec_float -> spec_float -> spec_float := SFdiv 24 128.
Definition f32_mul : spec_float -> spec_float -> spec_float := SFmul 24 128.
Definition f64_of_Z (k : Z) : spec_float := binary_normalize 53 1024 k 0 false.
Definition f64_add : spec_float -> spec_float -> spec_float := SFadd 53 1024.
Definition f64_sub : spec_float -> spec_float -> spec_float := SFsub 53 1024.
Definition f64_mul : spec_float -> spec_float -> spec_float := SFmul 53 1024.
Definition f64_sqrt : spec_float -> spec_float := SFsqrt 53 1024.

(** Conversions between the two types. *)
Definition sf_round (prec emax : Z) (f : spec_float) : spec_float :=
  match f with
  | S754_finite s m e => binary_round prec emax s m e
  | _ => f
  end.
Definition to_f32 : spec_float -> spec_float := sf_round 24 128.
Definition to_f64 : spec_float -> spec_float := sf_round 53 1024.

(** Conversion to an integer truncates; a NaN or an infinity has none. *)
Definition sf_trunc (f : spec_float) : option Z :=
  match f with
  | S754_zero _ => Some 0
  | S754_finite s m e => Some (cond_Zopp s (if 0 <=? e then Zpos m * 2 ^ e else Zpos m / 2 ^ (- e)))
  | _ => None
  end.

(** [FTOI(a)], with [a] a [float]: to the nearest integer, halves away from 0. *)
Definition half : spec_float := S754_finite false 4503599627370496 (-53).
Definition FTOI (a : spec_float) : option Z :=
  if SFltb (to_f64 a) (S754_zero false) then sf_trunc (f64_sub (to_f64 a) half)
  else sf_trunc (f64_add (to_f64 a) half).

(** ** Bounds *)

(** [m * 2^(e+h) <= B]. *)
Definition le2 (h m e B : Z) : Prop := if 0 <=? e + h then m * 2 ^ (e + h) <= B else m <= B * 2 ^ (- (e + h)).

(** The absolute value of [f] is finite and at most [B * 2^-h]. *)
Definition upto (h B : Z) (f : spec_float) : Prop :=
  match f with
  | S754_zero _ => True
  | S754_finite _ m e => le2 h (Zpos m) e B
  | _ => False
  end.

Definition is_neg (f : spec_float) : bool :=
  match f with S754_zero s | S754_infinity s | S754_finite s _ _ => s | S754_nan => false end.

(** The mantissa of a record rounded up. *)
Definition up (mrs : shr_record) : Z := shr_m mrs + b2z (shr_r mrs || shr_s mrs).

Lemma shr_1_up mrs K : 0 <= shr_m mrs -> up mrs <= 2 * K ->
  0 <= shr_m (shr_1 mrs) /\ up (shr_1 mrs) <= K.
Proof.
  destruct mrs as [m r s]. unfold up. cbn [shr_m shr_r shr_s]. intros Hm Hu.
  destruct m as [|[p|p|]|p]; destruct r, s; cbn [shr_1 shr_m shr_r shr_s orb b2z] in *; lia.
Qed.

Lemma shr_iter_up p : forall mrs K, 0 <= shr_m mrs -> up mrs <= 2 ^ Zpos p * K ->
  0 <= shr_m (iter_pos shr_1 p mrs) /\ up (iter_pos shr_1 p mrs) <= K.
Proof.
  induction p as [p IH | p IH |]; intros mrs K Hm Hu; cbn [iter_pos].
  - replace (2 ^ Zpos p~1) with (2 * (2 ^ Zpos p * 2 ^ Zpos p)) in Hu
      by (rewrite Pos2Z.inj_xI, <- Z.pow_add_r, <- Z.pow_succ_r by lia; f_equal; lia).
    destruct (shr_1_up mrs (2 ^ Zpos p * (2 ^ Zpos p * K))) as [H1 H2]; [exact Hm | lia |].
    destruct (IH _ _ H1 H2) as [H3 H4]. exact (IH _ _ H3 H4).
  - replace (2 ^ Zpos p~0) with (2 ^ Zpos p * 2 ^ Zpos p) in Hu
      by (rewrite Pos2Z.inj_xO, <- Z.pow_add_r by lia; f_equal; lia).
    destruct (IH mrs (2 ^ Zpos p * K)) as [H3 H4]; [exact Hm | lia |]. exact (IH _ _ H3 H4).
  - apply shr_1_up; [exact Hm | lia].
Qed.

Lemma digits2_pos_bounds m : 2 ^ (Zpos (digits2_pos m) - 1) <= Zpos m < 2 ^ Zpos (digits2_pos m).
Proof.
  assert (D : forall p, Zpos (Pos.succ (digits2_pos p)) - 1 = Zpos (digits2_pos p)) by lia.
  assert (E : forall d, 2 ^ Zpos (Pos.succ d) = 2 * 2 ^ Zpos d)
    by (intros; rewrite Pos2Z.inj_succ, Z.pow_succ_r by lia; reflexivity).
  assert (G : forall d, 2 ^ Zpos d = 2 * 2 ^ (Zpos d - 1))
    by (intros; rewrite <- Z.pow_succ_r by lia; f_equal; lia).
  induction m as [m IH | m IH |]; cbn [digits2_pos]; [| | cbn; lia];
    rewrite D, E, (G (digits2_pos m)) in *; lia.
Qed.

Section Rounding.
Context (prec emax h k : Z).
Hypothesis Hprec : 2 <= k <= prec.
Hypothesis Hemax : 2 * prec <= emax.
Hypothesis Hh : 0 <= h <= prec.

Lemma le2_pow m e B : 0 < m -> le2 h m e B -> B < 2 ^ k -> fexp prec emax (Zdigits2 m + e) + h <= 0.
Proof using Hprec Hemax Hh.
  intros Hm HB HBk. unfold fexp, emin.
  enough (Zdigits2 m + e <= k - h) by lia.
  destruct m as [|p|p]; try lia. cbn [Zdigits2]. pose proof (digits2_pos_bounds p) as [HL _].
  set (d := Zpos (digits2_pos p)) in *. assert (Hd : 1 <= d) by (subst d; lia).
  apply Z.nlt_ge. intros HC. unfold le2 in HB. destruct (Z.leb_spec 0 (e + h)).
  - assert (2 ^ k <= 2 ^ (d - 1) * 2 ^ (e + h))
      by (rewrite <- Z.pow_add_r by lia; apply Z.pow_le_mono_r; lia).
    assert (0 < 2 ^ (e + h)) by (apply Z.pow_pos_nonneg; lia). nia.
  - assert (2 ^ k * 2 ^ (- (e + h)) <= 2 ^ (d - 1))
      by (rewrite <- Z.pow_add_r by lia; apply Z.pow_le_mono_r; lia).
    assert (0 < 2 ^ (- (e + h))) by (apply Z.pow_pos_nonneg; lia). nia.
Qed.

Lemma le2_mono m m' e B : m <= m' -> le2 h m' e B -> le2 h m e B.
Proof using.
  unfold le2. intros Hm. destruct (Z.leb_spec 0 (e + h)); [| lia].
  assert (0 < 2 ^ (e + h)) by (apply Z.pow_pos_nonneg; lia). nia.
Qed.

(** [m * 2^e <= B], [n] bits shifted out with the result rounded up. *)
Lemma shr_le2 mrs e n B : 0 <= shr_m mrs -> le2 h (up mrs) e B -> e + n + h <= 0 \/ n <= 0 ->
  0 <= shr_m (fst (shr mrs e n)) /\ le2 h (up (fst (shr mrs e n))) (snd (shr mrs e n)) B.
Proof using.
  intros Hm HB Hn. destruct n as [|p|p]; cbn [shr fst snd]; try (split; assumption).
  destruct Hn as [Hn | Hn]; [| lia].
  assert (HE : up mrs <= 2 ^ Zpos p * (B * 2 ^ (- (e + Zpos p + h)))).
  { unfold le2 in HB. replace (0 <=? e + h) with false in HB by lia.
    replace (- (e + h)) with (Zpos p + - (e + Zpos p + h)) in HB by lia.
    rewrite Z.pow_add_r in HB by lia. lia. }
  destruct (shr_iter_up p mrs _ Hm HE) as [H1 H2]. split; [exact H1 |].
  unfold le2. destruct (Z.leb_spec 0 (e + Zpos p + h)); [| exact H2].
  assert (Z0 : e + Zpos p + h = 0) by lia. rewrite Z0 in *. cbn in *. lia.
Qed.

Definition loc_up (l : location) : Z := match l with loc_Exact => 0 | _ => 1 end.

Lemma up_record m l : up (shr_record_of_loc m l) = m + loc_up l /\ shr_m (shr_record_of_loc m l) = m.
Proof using. destruct l as [|[]]; cbn; unfold up; cbn; lia. Qed.

Lemma round_up mrs : 0 <= shr_m mrs ->
  0 <= round_nearest_even (shr_m mrs) (loc_of_shr_record mrs) <= up mrs.
Proof using.
  destruct mrs as [m [] []]; cbn -[Z.even]; intros; unfold up; cbn -[Z.even]; try lia.
  destruct (Z.even m); lia.
Qed.

Lemma le2_exp m e B : 0 < m -> 0 < B < 2 ^ k -> le2 h m e B -> e + h < k.
Proof using Hprec.
  intros Hm HB H. unfold le2 in H. destruct (Z.leb_spec 0 (e + h)); [| lia].
  apply (Z.pow_lt_mono_r_iff 2); [lia | lia |].
  assert (0 < 2 ^ (e + h)) by (apply Z.pow_pos_nonneg; lia). nia.
Qed.

(** One normalising shift. *)
Lemma shr_fexp_le2 m e l B : 0 <= m -> 0 < B < 2 ^ k -> le2 h (m + loc_up l) e B ->
  let '(mrs, e') := shr_fexp prec emax m e l in 0 <= shr_m mrs /\ le2 h (up mrs) e' B.
Proof using Hprec Hemax Hh.
  intros Hm HB Hl. destruct (up_record m l) as [Eu Em].
  pose proof (shr_le2 (shr_record_of_loc m l) e (fexp prec emax (Zdigits2 m + e) - e) B) as HS.
  unfold shr_fexp. rewrite Eu, Em in HS.
  destruct (shr (shr_record_of_loc m l) e (fexp prec emax (Zdigits2 m + e) - e)) as [mrs e'].
  cbn [fst snd] in HS. apply HS; [exact Hm | exact Hl |].
  destruct (Z.eq_dec m 0) as [-> | N].
  - destruct (Z.leb_spec e (- h)) as [Le | Le];
      [left | right]; cbn [Zdigits2]; unfold fexp, emin; lia.
  - left. pose proof (le2_pow m e B ltac:(lia) ltac:(eapply le2_mono; [| exact Hl]; destruct l; cbn; lia)). lia.
Qed.

Lemma upto_aux s m e l B : 0 <= m -> 0 < B < 2 ^ k -> le2 h (m + loc_up l) e B ->
  upto h B (binary_round_aux prec emax s m e l) /\
  (is_neg (binary_round_aux prec emax s m e l) = s).
Proof using Hprec Hemax Hh.
  intros Hm HB Hl. unfold binary_round_aux.
  pose proof (shr_fexp_le2 m e l B Hm HB Hl) as H1.
  destruct (shr_fexp prec emax m e l) as [mrs e1]. destruct H1 as [P1 L1].
  pose proof (round_up mrs P1) as R.
  set (m1 := round_nearest_even _ _) in *. clearbody m1.
  pose proof (shr_fexp_le2 m1 e1 loc_Exact B ltac:(lia) HB) as H2.
  destruct (shr_fexp prec emax m1 e1 loc_Exact) as [mrs2 e2].
  destruct H2 as [P2 L2]; [eapply le2_mono; [| exact L1]; cbn; lia |].
  destruct mrs2 as [m2 r2 s2]. cbn [shr_m] in *. unfold up in L2. cbn [shr_m shr_r shr_s] in L2.
  assert (L3 : le2 h m2 e2 B) by (eapply le2_mono; [| exact L2]; destruct (r2 || s2); cbn; lia).
  destruct m2 as [|p|p]; [cbn; auto | | lia].
  pose proof (le2_exp (Zpos p) e2 B ltac:(lia) HB L3).
  replace (e2 <=? emax - prec) with true by lia. cbn. auto.
Qed.

Lemma iter_xO m d : Zpos (Pos.iter xO m d) = Zpos m * 2 ^ Zpos d.
Proof using.
  revert d. apply Pos.peano_ind; [cbn; lia |]. intros d IH.
  rewrite Pos.iter_succ, Pos2Z.inj_xO, IH, Pos2Z.inj_succ, Z.pow_succ_r by lia. lia.
Qed.

Lemma le2_shift m e d B : 0 <= d -> le2 h m e B -> le2 h (m * 2 ^ d) (e - d) B.
Proof using.
  intros Hd H. unfold le2 in *. destruct (Z.leb_spec 0 (e - d + h)).
  - replace (0 <=? e + h) with true in H by lia.
    rewrite <- Z.mul_assoc, <- Z.pow_add_r by lia. now replace (d + (e - d + h)) with (e + h) by lia.
  - assert (P : 0 < 2 ^ d) by (apply Z.pow_pos_nonneg; lia). destruct (Z.leb_spec 0 (e + h)).
    + replace d with ((e + h) + - (e - d + h)) by lia.
      rewrite Z.pow_add_r, Z.mul_assoc by lia.
      replace (- (e - (e + h + - (e - d + h)) + h)) with (- (e - d + h)) by lia.
      apply Z.mul_le_mono_nonneg_r; [apply Z.pow_nonneg; lia | exact H].
    + replace (- (e - d + h)) with (- (e + h) + d) by lia. rewrite Z.pow_add_r by lia. nia.
Qed.

(** A positive number of at most [B * 2^-h] rounds to one that is. *)
Lemma upto_round s m e B : 0 < B < 2 ^ k -> le2 h (Zpos m) e B ->
  upto h B (binary_round prec emax s m e) /\ is_neg (binary_round prec emax s m e) = s.
Proof using Hprec Hemax Hh.
  intros HB Hl. unfold binary_round, shl_align.
  destruct (fexp prec emax (Zpos (digits2_pos m) + e) - e) as [|d|d] eqn:E;
    try (apply upto_aux; [lia | exact HB | cbn [loc_up]; now rewrite Z.add_0_r]).
  apply upto_aux; [lia | exact HB |]. rewrite iter_xO. cbn [loc_up]. rewrite Z.add_0_r.
  replace (fexp prec emax (Zpos (digits2_pos m) + e)) with (e - Zpos d) by lia.
  apply le2_shift; [lia | exact Hl].
Qed.
End Rounding.

Lemma upto_convert prec emax h k B f : 2 <= k <= prec -> 2 * prec <= emax -> 0 <= h <= prec ->
  0 < B < 2 ^ k -> upto h B f ->
  upto h B (sf_round prec emax f) /\ is_neg (sf_round prec emax f) = is_neg f.
Proof.
  intros Hk He Hh HB Hf. destruct f as [s|s| |s m e]; cbn [upto sf_round] in *; try easy.
  now apply (upto_round prec emax h k).
Qed.

(** Truncation to an integer. *)
Lemma upto_trunc h B f : 0 <= h -> 0 <= B -> upto h B f -> exists z, sf_trunc f = Some z /\
  Z.abs z <= B / 2 ^ h /\ (if is_neg f then z <= 0 else 0 <= z).
Proof.
  intros Hh HB Hf. assert (P : 0 < 2 ^ h) by (apply Z.pow_pos_nonneg; lia).
  pose proof (Z.div_pos B (2 ^ h) HB P).
  destruct f as [s|s| |s m e]; cbn [upto sf_trunc is_neg] in *; try easy.
  - exists 0. split; [reflexivity |]. destruct s; lia.
  - eexists; split; [reflexivity |].
    assert (A : forall a, 0 <= a <= B / 2 ^ h ->
      Z.abs (cond_Zopp s a) <= B / 2 ^ h /\ (if s then cond_Zopp s a <= 0 else 0 <= cond_Zopp s a))
      by (intros a Ha; destruct s; cbn; lia).
    apply A. unfold le2 in Hf. destruct (Z.leb_spec 0 e) as [He | He].
    + replace (0 <=? e + h) with true in Hf by lia. rewrite Z.pow_add_r in Hf by lia.
      split; [apply Z.mul_nonneg_nonneg; [lia | apply Z.pow_nonneg; lia] |].
      apply Z.div_le_lower_bound; lia.
    + assert (Q : 0 < 2 ^ (- e)) by (apply Z.pow_pos_nonneg; lia).
      split; [apply Z.div_pos; lia |]. apply Z.div_le_lower_bound; [exact P |].
      destruct (Z.leb_spec 0 (e + h)).
      * replace h with ((e + h) + - e) at 1 by lia. rewrite Z.pow_add_r by lia.
        assert (0 < 2 ^ (e + h)) by (apply Z.pow_pos_nonneg; lia).
        pose proof (Z.mul_div_le (Zpos m) (2 ^ (- e)) Q). nia.
      * replace (- e) with (h + - (e + h)) in * by lia. rewrite Z.pow_add_r in * by lia.
        assert (0 < 2 ^ (- (e + h))) by (apply Z.pow_pos_nonneg; lia).
        pose proof (Z.mul_div_le (Zpos m) (2 ^ h * 2 ^ (- (e + h))) Q). nia.
Qed.

(** ** Bounds of the operations *)

Lemma le2_iff h m e B t : 0 <= t -> 0 <= e + h + t ->
  le2 h m e B <-> m * 2 ^ (e + h + t) <= B * 2 ^ t.
Proof.
  intros Ht Hs. unfold le2. destruct (Z.leb_spec 0 (e + h)).
  - rewrite (Z.pow_add_r 2 (e + h) t) by lia. assert (0 < 2 ^ t) by (apply Z.pow_pos_nonneg; lia). nia.
  - replace t with ((e + h + t) + - (e + h)) at 2 by lia. rewrite (Z.pow_add_r 2 (e + h + t)) by lia.
    assert (0 < 2 ^ (e + h + t)) by (apply Z.pow_pos_nonneg; lia). nia.
Qed.

Lemma le2_mul h m1 e1 B m2 e2 C : 0 <= m1 -> 0 <= m2 ->
  le2 h m1 e1 B -> le2 0 m2 e2 C -> le2 h (m1 * m2) (e1 + e2) (B * C).
Proof.
  intros P1 P2 H1 H2.
  assert (T1 : exists t, 0 <= t /\ 0 <= e1 + h + t) by (exists (Z.abs (e1 + h)); lia).
  assert (T2 : exists t, 0 <= t /\ 0 <= e2 + 0 + t) by (exists (Z.abs e2); lia).
  destruct T1 as (t1 & ? & ?), T2 as (t2 & ? & ?).
  rewrite (le2_iff _ _ _ _ t1) in H1 by lia. rewrite (le2_iff _ _ _ _ t2) in H2 by lia.
  rewrite (le2_iff _ _ _ _ (t1 + t2)) by lia.
  replace (e1 + e2 + h + (t1 + t2)) with ((e1 + h + t1) + (e2 + 0 + t2)) by lia.
  rewrite (Z.pow_add_r 2 (e1 + h + t1)), (Z.pow_add_r 2 t1) by lia.
  replace (m1 * m2 * (2 ^ (e1 + h + t1) * 2 ^ (e2 + 0 + t2)))
    with ((m1 * 2 ^ (e1 + h + t1)) * (m2 * 2 ^ (e2 + 0 + t2))) by ring.
  replace (B * C * (2 ^ t1 * 2 ^ t2)) with ((B * 2 ^ t1) * (C * 2 ^ t2)) by ring.
  apply Z.mul_le_mono_nonneg; try assumption; apply Z.mul_nonneg_nonneg; try assumption;
    apply Z.pow_nonneg; lia.
Qed.

Lemma upto_mul prec emax k h B C f g : 2 <= k <= prec -> 2 * prec <= emax -> 0 <= h <= prec ->
  0 < B * C < 2 ^ k -> upto h B f -> upto 0 C g ->
  upto h (B * C) (SFmul prec emax f g) /\ is_neg (SFmul prec emax f g) = xorb (is_neg f) (is_neg g).
Proof.
  intros Hk He Hh HB Hf Hg.
  destruct f as [s|s| |s m e], g as [s'|s'| |s' m' e']; cbn [upto SFmul is_neg] in *; try easy.
  apply (upto_aux prec emax h k); try assumption; [lia |]. cbn [loc_up].
  rewrite Z.add_0_r, Pos2Z.inj_mul. now apply le2_mul.
Qed.

Lemma le2_of_Z m : 0 <= m -> le2 0 m 0 m.
Proof. intros. unfold le2. cbn. lia. Qed.

Lemma upto_of_Z prec emax k n : 2 <= k <= prec -> 2 * prec <= emax -> 0 < Z.abs n < 2 ^ k ->
  upto 0 (Z.abs n) (binary_normalize prec emax n 0 false)
  /\ is_neg (binary_normalize prec emax n 0 false) = (n <? 0).
Proof.
  intros Hk He Hn. destruct n as [|m|m]; cbn [binary_normalize Z.abs] in *; [lia | |];
    apply (upto_round prec emax 0 k); try lia; try exact Hn; apply le2_of_Z; lia.
Qed.

Lemma digits2_unique p d : 0 < d -> 2 ^ (d - 1) <= Zpos p < 2 ^ d -> Zpos (digits2_pos p) = d.
Proof.
  intros Hd [L U]. pose proof (digits2_pos_bounds p) as [L' U'].
  destruct (Z.lt_trichotomy (Zpos (digits2_pos p)) d) as [C | [C | C]]; [| exact C |].
  - assert (2 ^ Zpos (digits2_pos p) <= 2 ^ (d - 1)) by (apply Z.pow_le_mono_r; lia). lia.
  - assert (2 ^ d <= 2 ^ (Zpos (digits2_pos p) - 1)) by (apply Z.pow_le_mono_r; lia). lia.
Qed.

Lemma shl_align_ge m e e' : e' <= e ->
  Zpos (fst (shl_align m e e')) = Zpos m * 2 ^ (e - e') /\ snd (shl_align m e e') = e'.
Proof.
  intros H. unfold shl_align. destruct (e' - e) as [|d|d] eqn:E; [| lia |]; cbn [fst snd].
  - replace (e - e') with 0 by lia. rewrite Z.pow_0_r. lia.
  - rewrite iter_xO. replace (e - e') with (Zpos d) by lia. lia.
Qed.

(** An [int] of less than 24 bits is a [float] exactly. *)
Lemma f32_exact s p : Zpos p < 2 ^ 24 -> exists m e, binary_round 24 128 s p 0 = S754_finite s m e /\
  -23 <= e <= 0 /\ Zpos m = Zpos p * 2 ^ (- e) /\ Zpos (digits2_pos m) = 24.
Proof.
  intros Hn. unfold binary_round. set (d := Zpos (digits2_pos p)).
  pose proof (digits2_pos_bounds p) as Hd. fold d in Hd.
  assert (D : 1 <= d <= 24).
  { subst d. split; [lia |]. apply Z.nlt_ge. intros C.
    assert (2 ^ 24 <= 2 ^ (Zpos (digits2_pos p) - 1)) by (apply Z.pow_le_mono_r; lia). lia. }
  assert (Ef : fexp 24 128 (d + 0) = d - 24) by (unfold fexp, emin; lia). rewrite Ef.
  destruct (shl_align_ge p 0 (d - 24) ltac:(lia)) as [Em Ee].
  destruct (shl_align p 0 (d - 24)) as [m e]. cbn [fst snd] in Em, Ee. subst e.
  assert (Dm : Zpos (digits2_pos m) = 24).
  { apply digits2_unique; [lia |]. rewrite Em. replace (24 - 1) with ((d - 1) + (0 - (d - 24))) by lia.
    replace (2 ^ 24) with (2 ^ d * 2 ^ (0 - (d - 24))) by (rewrite <- Z.pow_add_r by lia; f_equal; lia).
    rewrite Z.pow_add_r by lia. assert (0 < 2 ^ (0 - (d - 24))) by (apply Z.pow_pos_nonneg; lia). nia. }
  assert (Es : shr_fexp 24 128 (Zpos m) (d - 24) loc_Exact = (Build_shr_record (Zpos m) false false, d - 24)).
  { unfold shr_fexp. cbn [Zdigits2 shr_record_of_loc]. rewrite Dm.
    replace (fexp 24 128 (24 + (d - 24)) - (d - 24)) with 0 by (unfold fexp, emin; lia). reflexivity. }
  exists m, (d - 24). split; [| replace (- (d - 24)) with (0 - (d - 24)) by lia; repeat split; try lia; exact Em].
  unfold binary_round_aux. rewrite Es. cbn [shr_m loc_of_shr_record round_nearest_even].
  rewrite Es. cbn [shr_m]. now replace (d - 24 <=? 128 - 24) with true by lia.
Qed.

(** A quotient of two such numbers that is at most 1 rounds to at most 1. *)
Lemma f32_div_le1 a b : 0 < b < 2 ^ 24 -> Z.abs a <= b -> upto 0 1 (f32_div (f32_of_Z a) (f32_of_Z b)).
Proof.
  intros Hb Ha. unfold f32_div, f32_of_Z. destruct b as [|q|q]; try lia.
  assert (H : forall s p, Zpos p <= Zpos q ->
    upto 0 1 (SFdiv 24 128 (binary_round 24 128 s p 0) (binary_round 24 128 false q 0))).
  { intros s p Hp. destruct (f32_exact s p ltac:(lia)) as (m1 & e1 & -> & He1 & E1 & D1).
    destruct (f32_exact false q ltac:(lia)) as (m2 & e2 & -> & He2 & E2 & D2).
    cbn [SFdiv]. unfold SFdiv_core_binary. cbn [Zdigits2]. rewrite D1, D2.
    set (e' := Z.min _ _). assert (E' : -49 <= e' <= e1 - e2 /\ e' <= 0) by (unfold e', fexp, emin; lia).
    set (m' := match _ with Z0 => _ | Zpos _ => _ | Zneg _ => _ end).
    assert (Em : m' = Zpos m1 * 2 ^ (e1 - e2 - e')).
    { unfold m'. destruct (e1 - e2 - e') as [|t|t] eqn:Et; [cbn; lia | | lia].
      now rewrite Z.shiftl_mul_pow2 by lia. }
    assert (Hm : m' <= Zpos m2 * 2 ^ (- e')).
    { rewrite Em, E1, E2, <- !Z.mul_assoc, <- !Z.pow_add_r by lia.
      replace (- e1 + (e1 - e2 - e')) with (- e2 + - e') by lia.
      apply Z.mul_le_mono_nonneg_r; [apply Z.pow_nonneg; lia | exact Hp]. }
    assert (Pm : 0 <= m') by (rewrite Em; apply Z.mul_nonneg_nonneg; [lia | apply Z.pow_nonneg; lia]).
    clearbody m' e'. pose proof (Z_div_mod m' (Zpos m2) ltac:(lia)) as HD.
    destruct (Z.div_eucl m' (Zpos m2)) as [qq r]. destruct HD as [Eq Hr].
    apply (upto_aux 24 128 0 24); try lia; [nia |].
    assert (L : loc_up (new_location (Zpos m2) r) = if r =? 0 then 0 else 1).
    { unfold new_location, new_location_even, new_location_odd.
      destruct (Z.even _), (r =? 0); reflexivity. }
    rewrite L. rewrite (le2_iff _ _ _ _ (- e')) by lia.
    replace (e' + 0 + - e') with 0 by lia. rewrite Z.pow_0_r, Z.mul_1_r, Z.mul_1_l.
    destruct (Z.eqb_spec r 0); nia. }
  destruct a as [|p|p]; cbn [binary_normalize]; [| apply H; lia | apply H; lia].
  destruct (f32_exact false q ltac:(lia)) as (m2 & e2 & -> & _). exact I.
Qed.

Lemma upto_half_sum s m e B : 0 < B < 2 ^ 20 -> upto 0 B (S754_finite s m e) ->
  upto 1 (2 * B + 1)
    (binary_normalize 53 1024 (cond_Zopp s (Zpos (fst (shl_align m e (Z.min e (-53))))
       + Zpos (fst (shl_align 4503599627370496 (-53) (Z.min e (-53))))))
       (Z.min e (-53)) false).
Proof.
  intros HB Hf. cbn [upto] in Hf. set (z := Z.min e (-53)).
  destruct (shl_align_ge m e z ltac:(lia)) as [E1 _].
  destruct (shl_align_ge 4503599627370496 (-53) z ltac:(lia)) as [E2 _].
  set (a := fst (shl_align m e z)) in *. set (b := fst (shl_align _ (-53) z)) in *. clearbody a b.
  assert (H : le2 1 (Zpos a + Zpos b) z (2 * B + 1)).
  { assert (T : exists t, 52 <= t /\ 0 <= e + t /\ 0 <= z + 1 + t) by (exists (Z.abs e - z); lia).
    destruct T as (t & ? & ? & ?). rewrite (le2_iff _ _ _ _ t) in Hf by lia.
    rewrite (le2_iff _ _ _ _ t) by lia. rewrite Z.mul_add_distr_r, E1, E2, <- !Z.mul_assoc, <- !Z.pow_add_r by lia.
    replace (e - z + (z + 1 + t)) with (e + 0 + t + 1) by lia.
    replace (-53 - z + (z + 1 + t)) with (t - 52) by lia.
    replace 4503599627370496 with (2 ^ 52) by reflexivity. rewrite <- Z.pow_add_r by lia.
    replace (52 + (t - 52)) with t by lia. rewrite (Z.pow_add_r 2 (e + 0 + t) 1) by lia.
    assert (0 < 2 ^ t) by (apply Z.pow_pos_nonneg; lia). nia. }
  assert (B' : 0 < 2 * B + 1 < 2 ^ 53) by lia.
  destruct s; cbn [cond_Zopp]; rewrite <- Pos2Z.inj_add in *; [rewrite Pos2Z.opp_pos|]; cbn [binary_normalize];
    apply (upto_round 53 1024 1 53); try lia; assumption.
Qed.

(** Rounding to an integer a number of at most [B] gives an integer of at most [B]. *)
Lemma FTOI_upto B f : 0 < B < 2 ^ 20 -> upto 0 B f -> exists z, FTOI f = Some z /\ Z.abs z <= B.
Proof.
  intros HB Hf. unfold FTOI.
  destruct (upto_convert 53 1024 0 20 B f) as [Hu Hs]; try assumption; try lia. fold to_f64 in *.
  assert (T : forall g, upto 1 (2 * B + 1) g -> exists z, sf_trunc g = Some z /\ Z.abs z <= B).
  { intros g Hg. destruct (upto_trunc 1 (2 * B + 1) g) as (z & E & Hz & _); try lia; try exact Hg.
    exists z. split; [exact E |]. change (2 ^ 1) with 2 in Hz. zlia. }
  destruct (to_f64 f) as [s|s| |s m e]; try easy.
  - exists 0. split; [reflexivity | lia].
  - pose proof (upto_half_sum s m e B HB Hu) as Hsum. unfold f64_sub, f64_add, half.
    destruct s; cbn [SFltb SFcompare SFsub SFadd]; apply T; [| exact Hsum].
    cbn [cond_Zopp] in *. rewrite <- Z.add_opp_r, <- Z.opp_add_distr. exact Hsum.
Qed.
