(* ===== verification/SusanPrinciple.v ===== *)
(** * SUSAN: the brightness table, the masks and the principle

    Models [susan_principle] and [susan_principle_small] of
    [automotive/susan/susan.c]: for every pixel the sum [n] of the similarities
    of the pixels under the mask (the USAN area), and the response [max_no - n]
    where the area is small.  The similarity of two brightnesses is read from
    the table [bp], which [setup_brightness_lut] fills ([SusanLut]).

    The masks are the unrolled pointer walks of the source; [circle_disc] and
    [square_ring] show that they visit the disc of radius 3.4 (37 pixels, the
    centre left out) and the ring of 8 neighbours, and the theorems that the
    response is [max 0 (max_no - area)] in the interior and 0 on the border. *)

From Stdlib Require Import ZArith Lia List Bool.
From S2P Require Import Prelude SusanImage.
Import ListNotations.

(** ** The table

    [bp] points at entry 258 of a block of 516 bytes and is indexed by the
    difference of two brightnesses. *)

Definition lut (bp : list Z) (k : Z) : option Z := rd bp (258 + k).

Definition lut_ok (bp : list Z) : Prop :=
  len bp = 516 /\ bp.[258] = 100 /\ forall k, -255 <= k <= 255 -> 0 <= bp.[258 + k] <= 100.

(** [*(cp-*p)] with [cp = bp + centre]. *)
Definition similar (im bp : list Z) (centre p : Z) : option Z :=
  let* q := rd im p in lut bp (centre - q).

(** [memset(l, v, n)] in elements, and the buffer it needs. *)
Definition memset (l : list Z) (v n : Z) : option (list Z) :=
  assert! (0 <=? n) && (n <=? len l) in Some (repeat v (Z.to_nat n) ++ skipn (Z.to_nat n) l).

(** ** Masks *)

(** The eight runs of the circular mask and the steps between them, with what
    is done at each read as an argument. *)
Definition circle {W} (runs : list (list W)) (x_size : Z) : list (list W * Z) :=
  combine runs [x_size - 3; x_size - 5; x_size - 6; 2; x_size - 6; x_size - 5; x_size - 3; 0].

(** The four runs of the 3x3 mask. *)
Definition square {W} (runs : list (list W)) (x_size : Z) : list (list W * Z) :=
  combine runs [x_size - 2; 2; x_size - 2; 0].

Definition usan_circle : list (list unit) := map (repeat tt) [3; 5; 7; 3; 3; 7; 5; 3]%nat.
Definition usan_square : list (list unit) := map (repeat tt) [3; 1; 1; 3]%nat.

(** [n += *(cp-*p)] *)
Definition add_area (_ : unit) (c n : Z) : Z := n + c.

(** The body of the pixel loops. *)
Definition principle_pixel (mask : list (list unit * Z)) (q : Z -> Z -> Z)
    (im bp : list Z) (max_no x_size i j : Z) (r : list Z) : option (list Z) :=
  let* centre := rd im (px x_size i j) in
  let* (_, n) := walk (similar im bp centre) add_area mask (q i j) 100 in
  if n <=? max_no then wr r (px x_size i j) (max_no - n) else Some r.

Definition susan_principle (im r bp : list Z) (max_no x_size y_size : Z) : option (list Z) :=
  let* r := memset r 0 (x_size * y_size) in
  raster 3 x_size y_size
    (principle_pixel (circle usan_circle x_size) (fun i j => (i - 3) * x_size + j - 1)
       im bp max_no x_size) r.

(** The argument [max_no] is overwritten. *)
Definition susan_principle_small (im r bp : list Z) (max_no x_size y_size : Z) : option (list Z) :=
  let* r := memset r 0 (x_size * y_size) in
  let max_no := 730 in
  raster 1 x_size y_size
    (principle_pixel (square usan_square x_size) (fun i j => (i - 1) * x_size + j - 1)
       im bp max_no x_size) r.

(** ** Specification *)

(** Offsets (row, column) in raster order. *)
Definition grid (k : Z) : list (Z * Z) :=
  let row := map (fun d => d - k) (map Z.of_nat (seq 0 (Z.to_nat (2 * k + 1)))) in
  flat_map (fun dy => map (fun dx => (dy, dx)) row) row.

Definition centre_pixel (d : Z * Z) : bool := (fst d =? 0) && (snd d =? 0).

(** The disc and the ring. *)
Definition disc : list (Z * Z) :=
  filter (fun d => (fst d * fst d + snd d * snd d <=? 11) && negb (centre_pixel d)) (grid 3).
Definition ring : list (Z * Z) := filter (fun d => negb (centre_pixel d)) (grid 1).

Definition zsum (l : list Z) : Z := fold_right Z.add 0 l.

Lemma zsum_nonneg {B} (f : B -> Z) l : (forall b, In b l -> 0 <= f b) -> 0 <= zsum (map f l).
Proof.
  induction l as [|b t IH]; intros H; [cbn; lia |]. cbn [map zsum fold_right].
  pose proof (H b (or_introl eq_refl)). specialize (IH (fun b' K => H b' (or_intror K))). unfold zsum in IH. lia.
Qed.

Lemma zsum_app l l' : zsum (l ++ l') = zsum l + zsum l'.
Proof. induction l as [|a t IH]; [reflexivity |]. cbn [app zsum fold_right]. unfold zsum in *. lia. Qed.

(** The similarity of pixel [(i, j)] and the pixel at offset [d] from it. *)
Definition sim_at (im bp : list Z) (x i j : Z) (d : Z * Z) : Z :=
  bp.[258 + (im.[px x i j] - im.[px x (i + fst d) (j + snd d)])].

(** The USAN area: the similarities under the mask, the centre's included. *)
Definition usan (mask : list (Z * Z)) (im bp : list Z) (x i j : Z) : Z :=
  100 + zsum (map (sim_at im bp x i j) mask).

(** ** The walks visit the masks *)

Definition circle_runs : list (list (Z * Z)) :=
  [[(-3,-1);(-3,0);(-3,1)]; [(-2,-2);(-2,-1);(-2,0);(-2,1);(-2,2)];
   [(-1,-3);(-1,-2);(-1,-1);(-1,0);(-1,1);(-1,2);(-1,3)];
   [(0,-3);(0,-2);(0,-1)]; [(0,1);(0,2);(0,3)];
   [(1,-3);(1,-2);(1,-1);(1,0);(1,1);(1,2);(1,3)];
   [(2,-2);(2,-1);(2,0);(2,1);(2,2)]; [(3,-1);(3,0);(3,1)]].

Definition square_runs : list (list (Z * Z)) :=
  [[(-1,-1);(-1,0);(-1,1)]; [(0,-1)]; [(0,1)]; [(1,-1);(1,0);(1,1)]].

Lemma circle_disc : concat circle_runs = disc.
Proof. reflexivity. Qed.

Lemma square_ring : concat square_runs = ring.
Proof. reflexivity. Qed.

Ltac reads_tac :=
  cbn -[Z.add Z.mul Z.sub Z.of_nat];
  repeat (apply f_equal2; [apply f_equal2; [reflexivity | unfold px; lia] |]); reflexivity.

Lemma circle_reads {W} (w : Z * Z -> W) x i j :
  reads (circle (map (map w) circle_runs) x) ((i - 3) * x + j - 1)
  = map (fun d => (w d, px x (i + fst d) (j + snd d))) disc.
Proof. rewrite <- circle_disc. reads_tac. Qed.

Lemma square_reads {W} (w : Z * Z -> W) x i j :
  reads (square (map (map w) square_runs) x) ((i - 1) * x + j - 1)
  = map (fun d => (w d, px x (i + fst d) (j + snd d))) ring.
Proof. rewrite <- square_ring. reads_tac. Qed.

(** [mask] stays within [b] of its centre. *)
Definition within (b : Z) (mask : list (Z * Z)) : Prop :=
  Forall (fun d => - b <= fst d <= b /\ - b <= snd d <= b) mask.

Definition within_b (b : Z) (d : Z * Z) : bool :=
  (- b <=? fst d) && (fst d <=? b) && (- b <=? snd d) && (snd d <=? b).

Lemma within_check b mask : forallb (within_b b) mask = true -> within b mask.
Proof.
  intros H. apply Forall_forall. intros d Hd. rewrite forallb_forall in H.
  specialize (H d Hd). unfold within_b in H. lia.
Qed.

Lemma disc_within : within 3 disc.
Proof. apply within_check. reflexivity. Qed.

Lemma ring_within : within 1 ring.
Proof. apply within_check. reflexivity. Qed.

(** ** Reads of well-formed images *)

Section Reads.
Context (im bp : list Z) (x y : Z).
Hypothesis Him : image_ok x y im.
Hypothesis Hbp : lut_ok bp.

Lemma rd_pixel i j : 0 <= i < y -> 0 <= j < x -> rd im (px x i j) = Some im.[px x i j].
Proof using Him.
  intros Hi Hj. apply rd_some. destruct Him as (_ & _ & _ & -> & _). now apply px_inside.
Qed.

Lemma pixel_u8 p : 0 <= im.[p] <= 255.
Proof using Him.
  destruct Him as (_ & _ & _ & _ & H).
  enough (is_u8 im.[p]) by (unfold is_u8 in *; lia). apply Forall_aget; [| exact H].
  unfold is_u8; lia.
Qed.

Lemma lut_pixel p q : lut bp (im.[p] - im.[q]) = Some bp.[258 + (im.[p] - im.[q])].
Proof using Him Hbp.
  apply rd_some. destruct Hbp as (-> & _).
  pose proof (pixel_u8 p). pose proof (pixel_u8 q). lia.
Qed.

Lemma sim_range i j d : 0 <= sim_at im bp x i j d <= 100.
Proof using Him Hbp.
  destruct Hbp as (_ & _ & H). apply H.
  pose proof (pixel_u8 (px x i j)). pose proof (pixel_u8 (px x (i + fst d) (j + snd d))). lia.
Qed.

(** What a walk over a mask computes: the actions at its offsets, in order. *)
Lemma mask_walk {W A} (act : W -> Z -> A -> A) runs p (w : Z * Z -> W) mask b i j a :
  reads runs p = map (fun d => (w d, px x (i + fst d) (j + snd d))) mask ->
  within b mask -> b <= i < y - b -> b <= j < x - b ->
  walk (similar im bp im.[px x i j]) act runs p a
  = Some (walk_end runs p, fold_left (fun a d => act (w d) (sim_at im bp x i j d) a) mask a).
Proof using Him Hbp.
  intros E Hm Hi Hj.
  rewrite (walk_ok _ _ (fun q => bp.[258 + (im.[px x i j] - im.[q])])).
  - rewrite E. unfold act_all. do 2 f_equal. clear E Hm. revert a.
    induction mask as [|d m IH]; intros a; [reflexivity |]. cbn [map fold_left]. apply IH.
  - intros w' q Hq. rewrite E in Hq. apply in_map_iff in Hq as (d & Eq & Hd).
    inversion Eq; subst. apply (proj1 (Forall_forall _ _) Hm) in Hd.
    unfold similar. rewrite rd_pixel by lia. cbn [bind]. apply lut_pixel.
Qed.
End Reads.

Lemma fold_area (s : Z * Z -> Z) mask n :
  fold_left (fun a d => add_area tt (s d) a) mask n = n + zsum (map s mask).
Proof.
  revert n. induction mask as [|d m IH]; intros n; cbn [fold_left map zsum fold_right]; [lia |].
  rewrite IH. unfold add_area, zsum. lia.
Qed.

Lemma memset_ok r v n : 0 <= n -> len r = n -> memset r v n = Some (repeat v (Z.to_nat n)).
Proof.
  intros Hn Hr. unfold memset. rewrite (proj2 (Z.leb_le _ _)), (proj2 (Z.leb_le _ _)) by lia.
  cbn [andb]. rewrite skipn_all2 by (unfold len in Hr; lia). now rewrite app_nil_r.
Qed.

(** ** The responses *)

(** What the pixel loops of the two functions compute. *)
Definition response (mask : list (Z * Z)) (b max_no : Z) (im bp : list Z) (x y i j : Z) : Z :=
  if interior b x y i j then Z.max 0 (max_no - usan mask im bp x i j) else 0.

Lemma wr_cells x y (r : list Z) i j v : len r = x * y -> 0 <= i < y -> 0 <= j < x ->
  exists r', wr r (px x i j) v = Some r' /\ len r' = x * y /\ r'.[px x i j] = v /\
    forall k, 0 <= k -> k <> px x i j -> r'.[k] = r.[k].
Proof.
  intros Hr Hi Hj. pose proof (px_inside x y i j Hi Hj).
  exists (aset r (px x i j) v). rewrite wr_some by lia. rewrite len_aset.
  split; [reflexivity |]. split; [exact Hr |]. unfold len in Hr.
  split; [rewrite aget_aset, Z.eqb_refl by lia; reflexivity |].
  intros k Hk Hn. rewrite aget_aset by lia. now rewrite (proj2 (Z.eqb_neq _ _) Hn).
Qed.

Lemma principle_raster mask runs b q max_no im bp x y :
  0 <= b -> within b mask -> image_ok x y im -> lut_ok bp ->
  (forall i j, reads runs (q i j) = map (fun d => (tt, px x (i + fst d) (j + snd d))) mask) ->
  exists r', raster b x y (principle_pixel runs q im bp max_no x) (repeat 0 (Z.to_nat (x * y))) = Some r'
    /\ len r' = x * y
    /\ forall i j, 0 <= i < y -> 0 <= j < x -> r'.[px x i j] = response mask b max_no im bp x y i j.
Proof.
  intros Hb Hm Him Hbp Hq. assert (Hxy : 0 <= x * y) by (destruct Him; nia).
  destruct (raster_cells b x y (principle_pixel runs q im bp max_no x)
    (fun r => len r = x * y) aget
    (fun i j c => if usan mask im bp x i j <=? max_no then max_no - usan mask im bp x i j else c) Hb)
    with (a := repeat 0 (Z.to_nat (x * y))) as (r' & E & Hl & Hc).
  - intros i j r Hi Hj Hr. unfold principle_pixel.
    rewrite (rd_pixel im x y Him) by lia. cbn [bind].
    rewrite (mask_walk im bp x y Him Hbp _ _ _ (fun _ => tt) mask b i j 100 (Hq i j) Hm Hi Hj).
    cbn [bind]. rewrite fold_area. fold (usan mask im bp x i j).
    destruct (Z.leb_spec (usan mask im bp x i j) max_no); [now apply (wr_cells x y); try lia |].
    exists r. auto.
  - now apply len_repeat.
  - exists r'. split; [exact E |]. split; [exact Hl |]. intros i j Hi Hj.
    rewrite Hc by assumption. rewrite aget_repeat by (apply px_inside; assumption).
    unfold response. destruct (interior b x y i j); [| reflexivity].
    destruct (Z.leb_spec (usan mask im bp x i j) max_no); lia.
Qed.

(** On an image of any size, [susan_principle] reads and writes inside its
    buffers and leaves in [r] the SUSAN response of every pixel: [max_no] less
    the USAN area over the 37-pixel disc where that is positive, 0 elsewhere and
    within 3 pixels of a side. *)
Theorem susan_principle_response im r bp max_no x y :
  image_ok x y im -> lut_ok bp -> len r = x * y ->
  exists r', susan_principle im r bp max_no x y = Some r' /\ len r' = x * y /\
    forall i j, 0 <= i < y -> 0 <= j < x ->
      r'.[px x i j] = response disc 3 max_no im bp x y i j.
Proof.
  intros Him Hbp Hr. unfold susan_principle. rewrite memset_ok by (destruct Him; nia). cbn [bind].
  apply principle_raster; auto using disc_within; [lia |].
  intros i j. apply (circle_reads (fun _ => tt)).
Qed.

(** The 3x3 version computes the response over the 8 neighbours, with
    the threshold 730 whatever its argument [max_no] is. *)
Theorem susan_principle_small_response im r bp max_no x y :
  image_ok x y im -> lut_ok bp -> len r = x * y ->
  exists r', susan_principle_small im r bp max_no x y = Some r' /\ len r' = x * y /\
    forall i j, 0 <= i < y -> 0 <= j < x ->
      r'.[px x i j] = response ring 1 730 im bp x y i j.
Proof.
  intros Him Hbp Hr. unfold susan_principle_small. rewrite memset_ok by (destruct Him; nia). cbn [bind].
  apply principle_raster; auto using ring_within; [lia |].
  intros i j. apply (square_reads (fun _ => tt)).
Qed.

(** ** A small image and a table *)

Definition ramp (x y : Z) : list Z := map (fun k => (37 * Z.of_nat k) mod 256) (seq 0 (Z.to_nat (x * y))).
Definition zeros (n : Z) : list Z := repeat 0 (Z.to_nat n).

Lemma zeros_len n : 0 <= n -> len (zeros n) = n.
Proof. apply len_repeat. Qed.

Lemma ramp_ok x y : 0 < x -> 0 < y -> x * y < 2 ^ 31 -> image_ok x y (ramp x y).
Proof.
  intros Hx Hy Hs. repeat split; try assumption.
  - unfold len, ramp. rewrite length_map, length_seq. nia.
  - unfold ramp. apply Forall_map, Forall_forall. intros k _. apply (Z.mod_pos_bound _ 256). lia.
Qed.

(** A table: 100 for equal brightnesses, 50 up to a difference of 40, else 0. *)
Definition step_lut : list Z :=
  map (fun k => let d := Z.abs (Z.of_nat k - 258) in if d =? 0 then 100 else if d <=? 40 then 50 else 0)
    (seq 0 516).

Lemma step_lut_ok : lut_ok step_lut.
Proof.
  split; [reflexivity |]. split; [reflexivity |]. intros k Hk.
  assert (H : Forall (fun v => 0 <= v <= 100) step_lut); [| apply Forall_aget; [lia | exact H]].
  unfold step_lut. apply Forall_map, Forall_forall. intros q _. cbv beta zeta. zcases; lia.
Qed.

Lemma susan_principle_response_witness :
  exists r', susan_principle (ramp 9 8) (zeros 72) step_lut 2650 9 8 = Some r' /\ len r' = 72 /\
    r'.[px 9 4 4] = response disc 3 2650 (ramp 9 8) step_lut 9 8 4 4.
Proof.
  destruct (susan_principle_response (ramp 9 8) (zeros 72) step_lut 2650 9 8
    (ramp_ok 9 8 ltac:(lia) ltac:(lia) ltac:(lia)) step_lut_ok eq_refl) as (r' & E & Hl & H).
  exists r'. split; [exact E |]. split; [exact Hl |]. apply H; lia.
Defined.

Lemma susan_principle_small_response_witness :
  exists r', susan_principle_small (ramp 4 3) (zeros 12) step_lut 2650 4 3 = Some r' /\ len r' = 12.
Proof.
  destruct (susan_principle_small_response (ramp 4 3) (zeros 12) step_lut 2650 4 3
    (ramp_ok 4 3 ltac:(lia) ltac:(lia) ltac:(lia)) step_lut_ok eq_refl) as (r' & E & Hl & H).
  exists r'. auto.
Defined.
