(* ===== verification/SusanLut.v ===== *)
(** * SUSAN: the table of similarities

    Models [setup_brightness_lut] of [automotive/susan/susan.c]: entry [k] of the
    table is [100 * exp(-(k/thresh)^form)] cut down to a byte.  The library's
    [exp] is a parameter; what the program relies on is the class [ExpOk]. *)

From Stdlib Require Import ZArith Lia List Bool.
From Stdlib Require Import SpecFloat.
From S2P Require Import Prelude SusanImage SusanPrinciple SusanFloat.
Import ListNotations.

(** What is known of [exp]: it is 1 at zero, at most 1 and not negative below
    zero (at minus infinity too), and a NaN at a NaN. *)
Class ExpOk (exp : spec_float -> spec_float) : Prop := {
  exp_zero s : exp (S754_zero s) = f64_of_Z 1;
  exp_neg f : is_neg f = true -> upto 0 1 (exp f) /\ is_neg (exp f) = false;
  exp_nan : exp S754_nan = S754_nan
}.

(** [(uchar) f]: undefined unless the truncated value is a byte. *)
Definition uchar_of (f : spec_float) : option Z :=
  let* z := sf_trunc f in assert! (0 <=? z) && (z <? 256) in Some z.

(** The value stored at [k]. *)
Definition brightness_entry (exp : spec_float -> spec_float) (thresh form k : Z) : option Z :=
  let temp := f32_div (f32_of_Z k) (f32_of_Z thresh) in
  let temp := f32_mul temp temp in
  let temp := if form =? 6 then f32_mul (f32_mul temp temp) temp else temp in
  let temp := to_f32 (f64_mul (f64_of_Z 100) (exp (to_f64 (SFopp temp)))) in
  uchar_of temp.

(** [blk] is the block of 516 bytes that [malloc] returned. *)
Definition setup_brightness_lut (exp : spec_float -> spec_float) (blk : list Z) (thresh form : Z)
    : option (list Z) :=
  for_opt (-256) 257
    (fun k bp => let* v := brightness_entry exp thresh form k in wr bp (258 + k) v) blk.

(** ** Signs *)

(** [f] is a number of the sign [s], or an infinity. *)
Definition signed_as (s : bool) (f : spec_float) : Prop := f <> S754_nan /\ is_neg f = s.

Lemma shr_nonneg mrs e n : 0 <= shr_m mrs -> 0 <= shr_m (fst (shr mrs e n)).
Proof.
  intros Hm. destruct n as [|p|p]; try exact Hm. cbn [shr fst].
  apply (shr_iter_up p mrs (up mrs) Hm).
  assert (0 <= up mrs) by (unfold up; destruct (shr_r mrs || shr_s mrs); cbn; lia).
  assert (0 < 2 ^ Zpos p) by (apply Z.pow_pos_nonneg; lia). nia.
Qed.

Lemma round_aux_signed prec emax s m e l : 0 <= m -> signed_as s (binary_round_aux prec emax s m e l).
Proof.
  intros Hm. unfold binary_round_aux.
  assert (F : forall m e l, 0 <= m -> 0 <= shr_m (fst (shr_fexp prec emax m e l))).
  { intros m0 e0 l0 H0. apply shr_nonneg. now rewrite (proj2 (up_record m0 l0)). }
  pose proof (F m e l Hm) as H1. destruct (shr_fexp prec emax m e l) as [mrs e1]. cbn [fst] in H1.
  pose proof (round_up mrs H1) as R. set (m1 := round_nearest_even _ _) in *. clearbody m1.
  pose proof (F m1 e1 loc_Exact (proj1 R)) as H2.
  destruct (shr_fexp prec emax m1 e1 loc_Exact) as [mrs2 e2]. cbn [fst] in H2.
  destruct (shr_m mrs2); [easy | | lia]. now destruct (e2 <=? emax - prec).
Qed.

Lemma square_nonneg t : t <> S754_nan -> signed_as false (f32_mul t t).
Proof.
  intros Ht. unfold f32_mul. destruct t as [s|s| |s m e]; try easy; cbn [SFmul];
    try (split; [easy | cbn; now destruct s]).
  rewrite xorb_nilpotent. apply round_aux_signed. lia.
Qed.

Lemma cube_nonneg t : signed_as false t -> signed_as false (f32_mul (f32_mul t t) t).
Proof.
  intros [Ht Hs]. unfold f32_mul. destruct t as [s|s| |s m e]; try easy; cbn [is_neg] in Hs; subst s;
    try easy. cbn [SFmul xorb].
  destruct (round_aux_signed 24 128 false (Zpos (m * m)) (e + e) loc_Exact ltac:(lia)) as [Hn Hs].
  destruct (binary_round_aux 24 128 false (Zpos (m * m)) (e + e) loc_Exact) as [s|s| |s m' e'];
    try easy; cbn [is_neg] in Hs; subst s; try easy.
  cbn [SFmul xorb]. apply round_aux_signed. lia.
Qed.

Lemma f32_of_Z_small k : Z.abs k < 2 ^ 24 -> k <> 0 ->
  exists s m e, f32_of_Z k = S754_finite s m e.
Proof.
  intros Hk Hn. unfold f32_of_Z. destruct k as [|p|p]; [lia | |]; cbn [binary_normalize];
    match goal with |- context [binary_round 24 128 ?s p 0] =>
      destruct (f32_exact s p ltac:(lia)) as (m & e & -> & _) end; eauto.
Qed.

(** Shifting keeps the leading digit of the mantissa, and so does rounding. *)
Lemma shr_iter_down p : forall mrs K, 0 <= shr_m mrs -> 2 ^ Zpos p * K <= shr_m mrs ->
  0 <= shr_m (iter_pos shr_1 p mrs) /\ K <= shr_m (iter_pos shr_1 p mrs).
Proof.
  assert (H1 : forall mrs K, 0 <= shr_m mrs -> 2 * K <= shr_m mrs -> 0 <= shr_m (shr_1 mrs) /\ K <= shr_m (shr_1 mrs)).
  { intros [m r s] K. cbn [shr_m]. intros Hm HK. destruct m as [|[p'|p'|]|p']; cbn [shr_1 shr_m] in *; lia. }
  induction p as [p IH | p IH |]; intros mrs K Hm HK; cbn [iter_pos].
  - replace (2 ^ Zpos p~1) with (2 * (2 ^ Zpos p * 2 ^ Zpos p)) in HK
      by (rewrite <- Z.pow_add_r, <- Z.pow_succ_r by lia; f_equal; lia).
    destruct (H1 mrs (2 ^ Zpos p * (2 ^ Zpos p * K)) Hm ltac:(lia)) as [? ?].
    destruct (IH (shr_1 mrs) (2 ^ Zpos p * K)) as [? ?]; [assumption | assumption |]. now apply IH.
  - replace (2 ^ Zpos p~0) with (2 ^ Zpos p * 2 ^ Zpos p) in HK by (rewrite <- Z.pow_add_r by lia; f_equal; lia).
    destruct (IH mrs (2 ^ Zpos p * K)) as [? ?]; [assumption | lia |]. now apply IH.
  - apply H1; [exact Hm | lia].
Qed.

Lemma shr_fexp_pos m e l : 0 < m -> -149 <= e ->
  0 < shr_m (fst (shr_fexp 24 128 m e l)) /\ -149 <= snd (shr_fexp 24 128 m e l).
Proof.
  intros Hm He. unfold shr_fexp. destruct (up_record m l) as [_ Em].
  destruct m as [|p|p]; try lia. cbn [Zdigits2]. pose proof (digits2_pos_bounds p) as [HL _].
  unfold fexp, emin in *. set (d := Zpos (digits2_pos p)) in *.
  destruct (Z.max (d + e - 24) (3 - 128 - 24) - e) as [|n|n] eqn:E; cbn [shr fst snd]; try (rewrite Em; lia).
  destruct (shr_iter_down n (shr_record_of_loc (Zpos p) l) 1) as [_ H]; [rewrite Em; lia | | lia].
  rewrite Em, Z.mul_1_r. etransitivity; [| exact HL]. apply Z.pow_le_mono_r; lia.
Qed.

Lemma round_down mrs : shr_m mrs <= round_nearest_even (shr_m mrs) (loc_of_shr_record mrs).
Proof. destruct mrs as [m [] []]; cbn -[Z.even]; try lia. destruct (Z.even m); lia. Qed.

Lemma round_aux_nonzero s m e l : 0 < m -> -149 <= e -> forall s', binary_round_aux 24 128 s m e l <> S754_zero s'.
Proof.
  intros Hm He s'. unfold binary_round_aux.
  pose proof (shr_fexp_pos m e l Hm He) as H1. destruct (shr_fexp 24 128 m e l) as [mrs e1]. cbn [fst snd] in H1.
  pose proof (round_down mrs) as R. set (m1 := round_nearest_even _ _) in *. clearbody m1.
  pose proof (shr_fexp_pos m1 e1 loc_Exact ltac:(lia) ltac:(lia)) as H2.
  destruct (shr_fexp 24 128 m1 e1 loc_Exact) as [mrs2 e2]. cbn [fst snd] in H2.
  destruct (shr_m mrs2); [lia | | lia]. destruct (e2 <=? 128 - 24); discriminate.
Qed.

(** A non-zero integer is a non-zero [float]. *)
Lemma f32_of_Z_nonzero k : k <> 0 ->
  exists s, f32_of_Z k = S754_infinity s \/ exists m e, f32_of_Z k = S754_finite s m e.
Proof.
  intros Hk.
  assert (R : forall s p, exists s', binary_round 24 128 s p 0 = S754_infinity s' \/
    exists m e, binary_round 24 128 s p 0 = S754_finite s' m e).
  { intros s p. unfold binary_round.
    assert (He : -149 <= snd (shl_align p 0 (fexp 24 128 (Zpos (digits2_pos p) + 0)))).
    { unfold fexp, emin, shl_align. destruct (Z.max _ _ - 0) eqn:E; cbn [snd]; lia. }
    destruct (shl_align p 0 _) as [m e]. cbn [snd] in He.
    pose proof (round_aux_nonzero s (Zpos m) e loc_Exact ltac:(lia) He) as Hz.
    destruct (round_aux_signed 24 128 s (Zpos m) e loc_Exact ltac:(lia)) as [Hn _].
    destruct (binary_round_aux 24 128 s (Zpos m) e loc_Exact) as [s'|s'| |s' m' e']; try easy; eauto 6.
    now destruct (Hz s'). }
  unfold f32_of_Z. destruct k as [|p|p]; [lia | |]; apply R.
Qed.

Lemma div_signed s m e s' m' e' :
  signed_as (xorb s s') (f32_div (S754_finite s m e) (S754_finite s' m' e')).
Proof.
  unfold f32_div. cbn [SFdiv].
  unfold SFdiv_core_binary. set (sh := Z.sub (Z.sub e e') _). set (m1 := match sh with Z0 => _ | _ => _ end).
  assert (P : 0 <= m1) by (unfold m1; destruct sh; try lia; now apply Z.shiftl_nonneg).
  pose proof (Z_div_mod m1 (Zpos m') ltac:(lia)) as HD.
  destruct (Z.div_eucl m1 (Zpos m')) as [q r]. apply round_aux_signed. nia.
Qed.

Lemma quotient_number k thresh : Z.abs k < 2 ^ 24 -> thresh <> 0 ->
  f32_div (f32_of_Z k) (f32_of_Z thresh) <> S754_nan.
Proof.
  intros Hk Hn. destruct (f32_of_Z_nonzero thresh Hn) as (s & [-> | (m & e & ->)]);
    (destruct (Z.eq_dec k 0) as [-> | Nk]; [easy |]);
    destruct (f32_of_Z_small k Hk Nk) as (s' & m' & e' & ->); [easy | apply div_signed].
Qed.

Lemma to_f64_signed s t : signed_as s t -> is_neg (to_f64 t) = s.
Proof.
  intros [Hn Hs]. destruct t as [s'|s'| |s' m e]; try easy; cbn in Hs; subst s'; try reflexivity.
  unfold to_f64, sf_round, binary_round. destruct (shl_align _ _ _) as [m' e']. now apply round_aux_signed.
Qed.

Lemma opp_signed t : signed_as false t -> signed_as true (SFopp t).
Proof. intros [Hn Hs]. destruct t; cbn in *; try easy; now subst. Qed.

(** ** The entries *)

Section Entries.
Context (exp : spec_float -> spec_float) {Hexp : ExpOk exp}.

(** The argument of [exp] at [k], before its sign is changed. *)
Lemma entry_argument thresh form k : Z.abs k < 2 ^ 24 -> thresh <> 0 ->
  let t := f32_mul (f32_div (f32_of_Z k) (f32_of_Z thresh)) (f32_div (f32_of_Z k) (f32_of_Z thresh)) in
  signed_as false (if form =? 6 then f32_mul (f32_mul t t) t else t).
Proof using.
  intros Hk Hn t. pose proof (square_nonneg _ (quotient_number k thresh Hk Hn)) as H.
  destruct (form =? 6); [now apply cube_nonneg | exact H].
Qed.

(** [100.0 * exp(t)] for [t] below zero. *)
Lemma scaled_exp t : is_neg t = true ->
  upto 0 100 (f64_mul (f64_of_Z 100) (exp t)) /\ is_neg (f64_mul (f64_of_Z 100) (exp t)) = false.
Proof using Hexp.
  intros Ht. destruct (exp_neg _ Ht) as [Hu Hs].
  destruct (upto_of_Z 53 1024 10 100) as [H100 S100]; try lia.
  destruct (upto_mul 53 1024 10 0 100 1 (f64_of_Z 100) (exp t)) as [Hm Sm]; try lia; try assumption.
  split; [exact Hm |]. unfold f64_mul. rewrite Sm, Hs. reflexivity.
Qed.

Lemma trunc_100 f : upto 0 100 f -> is_neg f = false -> exists z, sf_trunc f = Some z /\ 0 <= z <= 100.
Proof using.
  intros Hu Hs. destruct (upto_trunc 0 100 f ltac:(lia) ltac:(lia) Hu) as (z & E & Hz & Sz).
  rewrite Hs in Sz. change (100 / 2 ^ 0) with 100 in Hz. exists z. split; [exact E | lia].
Qed.

Lemma entry_range thresh form k : Z.abs k < 2 ^ 24 -> thresh <> 0 ->
  exists v, brightness_entry exp thresh form k = Some v /\ 0 <= v <= 100.
Proof using Hexp.
  intros Hk Hn. unfold brightness_entry.
  pose proof (entry_argument thresh form k Hk Hn) as Ha. cbn zeta in Ha.
  set (t := if form =? 6 then _ else _) in *. clearbody t.
  destruct (scaled_exp _ (to_f64_signed true _ (opp_signed t Ha))) as [Hu Hs].
  destruct (upto_convert 24 128 0 10 100 (f64_mul (f64_of_Z 100) (exp (to_f64 (SFopp t)))))
    as [Hc Sc]; try lia; try assumption. rewrite Hs in Sc.
  destruct (trunc_100 _ Hc Sc) as (z & E & Hz).
  unfold uchar_of, to_f32. rewrite E. cbn [bind].
  exists z. replace ((0 <=? z) && (z <? 256)) with true by lia. split; [reflexivity | lia].
Qed.

Lemma entry_zero thresh form : thresh <> 0 ->
  brightness_entry exp thresh form 0 = Some 100.
Proof using Hexp.
  intros Hn. unfold brightness_entry. change (f32_of_Z 0) with (S754_zero false).
  assert (Eq : exists s, f32_div (S754_zero false) (f32_of_Z thresh) = S754_zero s).
  { destruct (f32_of_Z_nonzero thresh Hn) as (s & [-> | (m & e & ->)]); unfold f32_div; cbn [SFdiv]; eauto. }
  destruct Eq as [s ->]. unfold f32_mul. cbn [SFmul]. rewrite !xorb_nilpotent.
  destruct (form =? 6); cbn [SFmul xorb SFopp negb]; unfold to_f64, sf_round; rewrite exp_zero;
    vm_compute; reflexivity.
Qed.

Lemma entry_nan form : brightness_entry exp 0 form 0 = None.
Proof using Hexp.
  unfold brightness_entry. destruct (form =? 6); cbn; now rewrite exp_nan.
Qed.

Lemma setup_lut_ok blk thresh form :
  len blk = 516 -> thresh <> 0 ->
  exists bp, setup_brightness_lut exp blk thresh form = Some bp /\ lut_ok bp.
Proof using Hexp.
  intros Hb Hn.
  destruct (for_opt_ind (fun k bp => len bp = 516 /\ forall q, -256 <= q < k ->
      0 <= bp.[258 + q] <= 100 /\ (q = 0 -> bp.[258 + q] = 100)) (-256) 257
    (fun k bp => let* v := brightness_entry exp thresh form k in wr bp (258 + k) v) blk)
    as (bp & E & Hl & Hq); [lia | split; [exact Hb | lia] | |].
  - intros k bp Hk (Hl & Hq). destruct (entry_range thresh form k ltac:(lia) Hn) as (v & Ev & Hv).
    exists (aset bp (258 + k) v). cbv beta. rewrite Ev. cbn [bind].
    rewrite wr_some, len_aset by lia. split; [reflexivity |]. split; [exact Hl |].
    intros q Hqk. unfold len in Hl. rewrite aget_aset by lia.
    destruct (Z.eqb_spec (258 + q) (258 + k)) as [Eq |]; [| apply Hq; lia].
    split; [exact Hv |]. intros ->. replace k with 0 in Ev by lia.
    rewrite entry_zero in Ev by assumption. congruence.
  - exists bp. split; [exact E |]. split; [exact Hl |].
    split; [apply (Hq 0); lia |]. intros k Hk. apply Hq. lia.
Qed.

(** C23. With any threshold that is not zero, the table has an entry between 0
    and 100 for every difference of two brightnesses, and 100 for equal
    ones; the loop writes inside the block. *)
Theorem setup_brightness_lut_ok blk thresh form :
  len blk = 516 -> thresh <> 0 ->
  exists bp, setup_brightness_lut exp blk thresh form = Some bp /\ lut_ok bp.
Proof using Hexp. apply setup_lut_ok. Qed.

(** With the threshold 0 (the option [-t 0], or [-t] followed by a word
    that is not a number) the entry for equal brightnesses is a NaN converted
    to a byte: the behaviour is undefined. *)
Theorem setup_brightness_lut_zero blk form : setup_brightness_lut exp blk 0 form = None.
Proof using Hexp.
  unfold setup_brightness_lut. apply (for_opt_none _ 0); [lia |]. intros b. now rewrite entry_nan.
Qed.
End Entries.

(** ** An [exp] that satisfies the class *)

(** The coarsest one: everything below zero underflows and everything above
    overflows. *)
Definition step_exp (f : spec_float) : spec_float :=
  match f with
  | S754_nan => S754_nan
  | S754_zero _ => f64_of_Z 1
  | S754_infinity s | S754_finite s _ _ => if s then S754_zero false else S754_infinity false
  end.

#[export] Instance step_exp_ok : ExpOk step_exp.
Proof.
  split; [reflexivity | | reflexivity].
  intros [s|s| |s m e] H; cbn in *; try discriminate; subst; try easy.
Qed.

Lemma setup_brightness_lut_ok_witness :
  exists bp, setup_brightness_lut step_exp (repeat 0 516) 20 6 = Some bp /\ lut_ok bp.
Proof. apply (setup_brightness_lut_ok step_exp (repeat 0 516) 20 6); [reflexivity | lia]. Defined.

Lemma setup_brightness_lut_zero_witness : setup_brightness_lut step_exp (repeat 0 516) 0 6 = None.
Proof. exact (setup_brightness_lut_zero step_exp (repeat 0 516) 6). Defined.
