(* ===== verification/SusanPgm.v ===== *)
(** * SUSAN: PGM files and the response as an image

    Models [getint], [get_image], [put_image] and [int_to_uchar] of
    [automotive/susan/susan.c].  A file is the list of its bytes; what
    [malloc] hands out is the parameter [malloc], the null pointer or a block with
    whatever it holds, so that the pixels a short file leaves unread are visible. *)

From Stdlib Require Import ZArith Lia List Bool.
From S2P Require Import Prelude SusanImage.
Import ListNotations.

(** ** Reading *)

Definition digit (c : Z) : bool := (48 <=? c) && (c <=? 57).

(** The search for the first digit.  [budget] is 0 outside comments; at [#] the
    program calls [fgets(dummy,9000,fd)], which reads up to a newline but at
    most 8999 characters, and [budget] counts the ones left. *)
Fixpoint find_int (budget : nat) (fd : list Z) : res (Z * list Z) :=
  match fd with
  | [] => Exit 0
  | c :: fd' =>
      match budget with
      | S more => if c =? 10 then find_int 0 fd' else find_int more fd'
      | O => if c =? 35 then find_int (Z.to_nat 8999) fd'
             else if digit c then Ret (c, fd')
             else find_int 0 fd'
      end
  end.

(** The second loop, with [i] the number so far; the character after the
    number is consumed. *)
Fixpoint read_int (i : Z) (fd : list Z) : res (Z * list Z) :=
  match fd with
  | [] => Ret (i, [])
  | c :: fd' =>
      if digit c then let! i' := lift (int_of (i * 10 + (c - 48))) in read_int i' fd'
      else Ret (i, fd')
  end.

Definition getint (fd : list Z) : res (Z * list Z) :=
  let! (c, fd) := find_int 0 fd in read_int (c - 48) fd.

(** [file] is [None] when [fopen] fails.  [fread] into a null pointer is undefined
    if there is anything to be read. *)
Definition get_image (malloc : Z -> option (list Z)) (file : option (list Z)) : res (list Z * Z * Z) :=
  match file with
  | None => Exit 0
  | Some (h0 :: h1 :: fd) =>
      if (h0 =? 80) && (h1 =? 53) then
        let! (x_size, fd) := getint fd in
        let! (y_size, fd) := getint fd in
        let! (tmp, fd) := getint fd in
        let! size := lift (int_of (x_size * y_size)) in
        let got := firstn (Z.to_nat size) fd in
        if len got =? 0 then Exit 0
        else
          let! blk := lift (malloc size) in
          Ret (got ++ skipn (length got) blk, x_size, y_size)
      else Exit 0
  | Some _ => Exit 0
  end.

(** ** Writing *)

(** [%d] of an [int] that is not negative: at most 10 digits. *)
Fixpoint dec_digits (fuel : nat) (n : Z) (acc : list Z) : list Z :=
  match fuel with
  | O => acc
  | S f => if n <? 10 then (48 + n) :: acc else dec_digits f (n / 10) ((48 + n mod 10) :: acc)
  end.
Definition dec (n : Z) : list Z :=
  if n <? 0 then 45 :: dec_digits 10 (- n) [] else dec_digits 10 n [].

(** The bytes written, or the exit when the file cannot be opened or [fwrite]
    reports nothing written, as it does for an empty image. *)
Definition put_image (writable : bool) (im : list Z) (x_size y_size : Z) : res (list Z) :=
  if negb writable then Exit 0 else
  let header := [80; 53; 10] ++ dec x_size ++ [32] ++ dec y_size ++ [10] ++ [50; 53; 53; 10] in
  let! size := lift (int_of (x_size * y_size)) in
  if size =? 0 then Exit 0
  else if size <=? len im then Ret (header ++ firstn (Z.to_nat size) im)
  else Undef.

(** ** The response as an image *)

(** The body of the first loop, on [max_r] and [min_r]. *)
Definition extremes_step (r : list Z) (i : Z) (mm : Z * Z) : option (Z * Z) :=
  let '(max_r, min_r) := mm in
  let* v := rd r i in
  let max_r := if v >? max_r then v else max_r in
  let min_r := if v <? min_r then v else min_r in
  Some (max_r, min_r).

(** The body of the second loop. *)
Definition scale_step (r : list Z) (min_r max_r i : Z) (im : list Z) : option (list Z) :=
  let* v := rd r i in
  let* d := int_of (v - min_r) in
  let* d := int_of (d * 255) in
  let* q := int_div d max_r in
  wr im i (u8 q).

Definition int_to_uchar (r im : list Z) (size : Z) : option (list Z) :=
  let* r0 := rd r 0 in
  let* (max_r, min_r) := for_opt 0 size (extremes_step r) (r0, r0) in
  let* max_r := int_of (max_r - min_r) in
  for_opt 0 size (scale_step r min_r max_r) im.

(** ** Numbers *)

(** The number that a string of digits denotes, after the digits of [i]. *)
Definition number (i : Z) (ds : list Z) : Z := fold_left (fun i c => i * 10 + (c - 48)) ds i.

Lemma number_ge i ds : 0 <= i -> Forall (fun c => digit c = true) ds -> i <= number i ds.
Proof.
  revert i. induction ds as [|c ds IH]; intros i Hi H; cbn; [lia |].
  apply List.Forall_cons_iff in H as [Hc H]. unfold digit in Hc. specialize (IH (i * 10 + (c - 48)) ltac:(lia) H).
  unfold number in IH. lia.
Qed.

Lemma read_number i ds c fd : 0 <= i -> Forall (fun c => digit c = true) ds -> digit c = false ->
  number i ds < 2 ^ 31 -> read_int i (ds ++ c :: fd) = Ret (number i ds, fd).
Proof.
  revert i. induction ds as [|a ds IH]; intros i Hi H Hc Hn; cbn [read_int app].
  - now rewrite Hc.
  - apply List.Forall_cons_iff in H as [Ha H]. rewrite Ha. pose proof Ha as Ha'. unfold digit in Ha'.
    cbn [number fold_left] in *. fold (number (i * 10 + (a - 48)) ds) in *.
    pose proof (number_ge (i * 10 + (a - 48)) ds ltac:(lia) H).
    rewrite int_of_some by (unfold is_i32; lia). cbn [lift rbind]. apply IH; auto; lia.
Qed.

Lemma dec_digits_app fuel n acc : dec_digits fuel n acc = dec_digits fuel n [] ++ acc.
Proof.
  revert n acc. induction fuel as [|f IH]; intros n acc; [reflexivity |]. cbn [dec_digits].
  destruct (n <? 10); [reflexivity |].
  rewrite (IH _ (_ :: acc)), (IH _ [_]), <- app_assoc. reflexivity.
Qed.

Lemma dec_digits_spec fuel n : 0 <= n < 10 ^ Z.of_nat fuel -> (0 < fuel)%nat ->
  exists c ds, dec_digits fuel n [] = c :: ds /\ digit c = true /\ Forall (fun c => digit c = true) ds
    /\ number (c - 48) ds = n.
Proof.
  revert n. induction fuel as [|f IH]; intros n Hn Hf; [lia |]. cbn [dec_digits].
  destruct (Z.ltb_spec n 10) as [L | L].
  - exists (48 + n), [].
    split; [reflexivity |]. split; [unfold digit; lia |]. split; [constructor | unfold number; cbn [fold_left]; lia].
  - rewrite Nat2Z.inj_succ, Z.pow_succ_r in Hn by lia.
    assert (f <> 0)%nat by (intros ->; cbn in Hn; lia).
    destruct (IH (n / 10)) as (c & ds & E & Hc & Hds & Hv); [zlia | lia |].
    rewrite dec_digits_app, E. exists c, (ds ++ [48 + n mod 10]). cbn [app].
    assert (0 <= n mod 10 < 10) by (apply Z.mod_pos_bound; lia).
    split; [reflexivity |]. split; [exact Hc |]. split.
    + apply Forall_app. split; [exact Hds |]. constructor; [unfold digit; lia | constructor].
    + unfold number in *. rewrite fold_left_app, Hv. cbn [fold_left].
      pose proof (Z.div_mod n 10). lia.
Qed.

(** Text that the search for a number passes over. *)
Inductive gap : list Z -> Prop :=
| gap_nil : gap []
| gap_char c g : digit c = false -> c <> 35 -> gap g -> gap (c :: g)
| gap_comment text g : Forall (fun c => c <> 10) text -> (len text <= 8998) -> gap g ->
    gap (35 :: text ++ 10 :: g).

Lemma skip_comment text k fd : Forall (fun c => c <> 10) text -> (length text < k)%nat ->
  find_int k (text ++ 10 :: fd) = find_int 0 fd.
Proof.
  revert k. induction text as [|c t IH]; intros k H Hk; (destruct k as [|k]; [cbn in Hk; lia |]);
    cbn [app find_int]; [reflexivity |].
  apply List.Forall_cons_iff in H as [Hc H]. rewrite (proj2 (Z.eqb_neq c 10) Hc).
  apply IH; [exact H | cbn in Hk; lia].
Qed.

Lemma find_gap g fd : gap g -> find_int 0 (g ++ fd) = find_int 0 fd.
Proof.
  induction 1 as [| c g Hc Hn Hg IH | text g Ht Hl Hg IH]; [reflexivity | |].
  - cbn [app find_int]. rewrite (proj2 (Z.eqb_neq c 35) Hn), Hc. exact IH.
  - cbn [app]. rewrite <- app_assoc. cbn [app find_int Z.eqb].
    change (35 =? 35) with true. cbv iota. rewrite skip_comment by (try exact Ht; unfold len in Hl; lia). exact IH.
Qed.

Lemma getint_dec g n c fd : gap g -> 0 <= n < 2 ^ 31 -> digit c = false ->
  getint (g ++ dec n ++ c :: fd) = Ret (n, fd).
Proof.
  intros Hg Hn Hc. unfold getint. rewrite find_gap by exact Hg. unfold dec.
  replace (n <? 0) with false by lia.
  destruct (dec_digits_spec 10 n) as (d & ds & E & Hd & Hds & Hv); [lia | lia |].
  rewrite E. cbn [app find_int]. replace (d =? 35) with false by (unfold digit in Hd; lia).
  rewrite Hd. cbn [rbind]. unfold digit in Hd. rewrite read_number; auto; [now rewrite Hv | lia | lia].
Qed.

(** A PGM file with the fields separated by [g1], [g2], [g3] and the one
    character that ends each number. *)
Definition pgm_file (g1 g2 g3 : list Z) (w1 w2 w3 : Z) (im : list Z) (x y : Z) : list Z :=
  [80; 53] ++ g1 ++ dec x ++ w1 :: g2 ++ dec y ++ w2 :: g3 ++ dec 255 ++ w3 :: im.

Lemma get_pgm_short malloc blk g1 g2 g3 w1 w2 w3 data x y :
  gap g1 -> gap g2 -> gap g3 -> digit w1 = false -> digit w2 = false -> digit w3 = false ->
  0 < x -> 0 < y -> x * y < 2 ^ 31 -> data <> [] -> len data <= x * y -> malloc (x * y) = Some blk ->
  get_image malloc (Some (pgm_file g1 g2 g3 w1 w2 w3 data x y))
  = Ret (data ++ skipn (length data) blk, x, y).
Proof.
  intros Hg1 Hg2 Hg3 H1 H2 H3 Hx Hy Hs Hd Hl Hm. unfold pgm_file. cbn [get_image app].
  cbn [Z.eqb Pos.eqb andb]. rewrite (getint_dec g1 x) by (try assumption; nia). cbn [rbind].
  rewrite (getint_dec g2 y) by (try assumption; nia). cbn [rbind].
  rewrite (getint_dec g3 255) by (try assumption; lia). cbn [rbind].
  rewrite int_of_some by (unfold is_i32; nia). cbn [lift rbind].
  rewrite firstn_all2 by (unfold len in Hl; lia).
  rewrite (proj2 (Z.eqb_neq (len data) 0)); [now rewrite Hm |].
  destruct data; [easy | unfold len; cbn; lia].
Qed.

Lemma get_pgm_file malloc g1 g2 g3 w1 w2 w3 im x y :
  gap g1 -> gap g2 -> gap g3 -> digit w1 = false -> digit w2 = false -> digit w3 = false ->
  image_ok x y im -> allocates malloc ->
  get_image malloc (Some (pgm_file g1 g2 g3 w1 w2 w3 im x y)) = Ret (im, x, y).
Proof.
  intros Hg1 Hg2 Hg3 H1 H2 H3 (Hx & Hy & Hs & Hl & _) Hm.
  destruct (Hm (x * y) ltac:(nia)) as (blk & Eb & Hb).
  rewrite (get_pgm_short malloc blk); try assumption; try lia; [| now destruct im; cbn in Hl; try nia].
  rewrite skipn_all2 by (unfold len in *; lia).
  now rewrite app_nil_r.
Qed.

Lemma put_image_file im x y : image_ok x y im ->
  put_image true im x y = Ret (pgm_file [10] [] [] 32 10 10 im x y).
Proof.
  intros (Hx & Hy & Hs & Hl & _). unfold put_image. cbn [negb].
  rewrite int_of_some by (unfold is_i32; nia). cbn [lift rbind].
  rewrite (proj2 (Z.eqb_neq (x * y) 0)) by nia. rewrite Hl, Z.leb_refl.
  rewrite firstn_all2 by (unfold len in Hl; lia). unfold pgm_file.
  cbn [app]. rewrite <- !app_assoc. cbn [app]. rewrite <- !app_assoc. reflexivity.
Qed.

(** [put_image] writes a file that [get_image] reads back as the same
    image, and [get_image] reads every binary PGM file of that image, with any
    text without digits and any comments of up to 8998 characters between the
    fields of the header. *)
Theorem get_put_image malloc im x y :
  image_ok x y im -> allocates malloc ->
  (let! file := put_image true im x y in get_image malloc (Some file)) = Ret (im, x, y) /\
  forall g1 g2 g3 w1 w2 w3, gap g1 -> gap g2 -> gap g3 ->
    digit w1 = false -> digit w2 = false -> digit w3 = false ->
    get_image malloc (Some (pgm_file g1 g2 g3 w1 w2 w3 im x y)) = Ret (im, x, y).
Proof.
  intros Him Hm. split; [| intros; now apply get_pgm_file].
  rewrite put_image_file by exact Him. cbn [rbind].
  apply get_pgm_file; auto using gap_nil. apply gap_char; [reflexivity | lia | constructor].
Qed.

Lemma get_put_image_witness :
  (let! file := put_image true [7; 80; 255; 48; 10; 35] 3 2 in
   get_image (fun n => Some (repeat 0 (Z.to_nat n))) (Some file)) = Ret ([7; 80; 255; 48; 10; 35], 3, 2).
Proof.
  apply (get_put_image (fun n => Some (repeat 0 (Z.to_nat n))) [7; 80; 255; 48; 10; 35] 3 2).
  - repeat split; try reflexivity. repeat constructor; unfold is_u8; lia.
  - intros n Hn. eexists. split; [reflexivity |]. now apply len_repeat.
Defined.

(** A comment longer than what [fgets] takes at once: its rest is read as part
    of the header. *)
Lemma long_comment_read text c fd : Forall (fun c => c <> 10) text -> length text = Z.to_nat 8999 ->
  digit c = true -> find_int 0 (35 :: text ++ c :: fd) = Ret (c, fd).
Proof.
  intros Ht Hl Hc. cbn [find_int Z.eqb Pos.eqb].
  assert (S : forall k t, Forall (fun c => c <> 10) t -> length t = k ->
    find_int k (t ++ c :: fd) = find_int 0 (c :: fd)).
  { intros k t. revert k. induction t as [|a t IH]; intros k H E; cbn in E; subst k; [reflexivity |].
    apply List.Forall_cons_iff in H as [Ha H]. cbn [app find_int].
    rewrite (proj2 (Z.eqb_neq a 10) Ha). now apply IH. }
  rewrite (S (Z.to_nat 8999) text Ht Hl). cbn [find_int].
  replace (c =? 35) with false by (unfold digit in Hc; lia). now rewrite Hc.
Qed.

(** A file whose pixels are cut off is accepted as long as one byte is
    there: the missing pixels are whatever the block held that [malloc]
    returned. *)
Theorem get_image_short malloc blk g1 g2 g3 w1 w2 w3 data x y :
  gap g1 -> gap g2 -> gap g3 -> digit w1 = false -> digit w2 = false -> digit w3 = false ->
  0 < x -> 0 < y -> x * y < 2 ^ 31 -> data <> [] -> len data <= x * y -> malloc (x * y) = Some blk ->
  get_image malloc (Some (pgm_file g1 g2 g3 w1 w2 w3 data x y))
  = Ret (data ++ skipn (length data) blk, x, y).
Proof. apply get_pgm_short. Qed.

Lemma get_image_short_witness :
  get_image (fun n => Some (repeat 99 (Z.to_nat n))) (Some (pgm_file [10] [] [] 32 10 10 [1; 2] 2 3))
  = Ret ([1; 2; 99; 99; 99; 99], 2, 3).
Proof.
  apply (get_image_short (fun n => Some (repeat 99 (Z.to_nat n))) (repeat 99 6) [10] [] [] 32 10 10 [1; 2] 2 3);
    try (constructor; fail); try reflexivity; try lia; try discriminate.
  apply gap_char; [reflexivity | lia | constructor].
Defined.

(** ** The scaled response *)

(** [lo] and [hi] are the least and the greatest value of [r]. *)
Definition extremes (r : list Z) (lo hi : Z) : Prop :=
  (forall i, 0 <= i < len r -> lo <= r.[i] <= hi) /\
  (exists i, 0 <= i < len r /\ r.[i] = lo) /\ (exists i, 0 <= i < len r /\ r.[i] = hi).

Lemma extremes_loop r : 0 < len r ->
  exists hi lo, for_opt 0 (len r) (extremes_step r) (r.[0], r.[0]) = Some (hi, lo) /\ extremes r lo hi.
Proof.
  intros Hr.
  destruct (for_opt_ind (fun i mm => (forall q, 0 <= q < i -> snd mm <= r.[q] <= fst mm) /\
      (exists q, 0 <= q < len r /\ r.[q] = snd mm) /\ (exists q, 0 <= q < len r /\ r.[q] = fst mm))
      0 (len r) (extremes_step r) (r.[0], r.[0])) as ([hi lo] & E & H); [lia | | |].
  - split; [lia |]. split; exists 0; auto with zarith.
  - intros i [mx mn] Hi (Hq & (a & Ha & Ea) & (b & Hb & Eb)). cbn [fst snd] in *.
    unfold extremes_step. rewrite rd_some by lia. cbn [bind]. eexists; split; [reflexivity |]. cbn [fst snd].
    split; [| split].
    + intros q Hqi. destruct (Z.eq_dec q i) as [-> | N]; [zcases; lia |].
      specialize (Hq q ltac:(lia)). zcases; lia.
    + destruct (Z.ltb_spec r.[i] mn); [exists i | exists a]; auto.
    + rewrite Z.gtb_ltb. destruct (Z.ltb_spec mx r.[i]); [exists i | exists b]; auto.
  - exists hi, lo. split; [exact E |]. exact H.
Qed.

Lemma int_to_uchar_eq r im : 0 < len r -> exists lo hi, extremes r lo hi /\
  int_to_uchar r im (len r) =
    (let* max_r := int_of (hi - lo) in for_opt 0 (len r) (scale_step r lo max_r) im).
Proof.
  intros Hr. destruct (extremes_loop r Hr) as (hi & lo & E & Hx). exists lo, hi. split; [exact Hx |].
  unfold int_to_uchar. rewrite rd_some by lia. cbn [bind].
  rewrite E. reflexivity.
Qed.

Lemma scale_range v lo hi : lo <= v <= hi -> lo < hi -> 0 <= 255 * (v - lo) / (hi - lo) < 256.
Proof.
  intros Hv Hlt. split; [apply Z.div_pos; lia |]. apply Z.div_lt_upper_bound; nia.
Qed.

(** A response that is not the same everywhere is scaled to the whole
    range of bytes: the least value becomes 0, the greatest 255, the others
    are in proportion, rounded down. *)
Theorem int_to_uchar_scales r im lo hi :
  extremes r lo hi -> lo < hi -> 0 <= lo -> hi < 2 ^ 23 -> len im = len r ->
  exists im', int_to_uchar r im (len r) = Some im' /\ len im' = len r /\ Forall is_u8 im' /\
    forall i, 0 <= i < len r -> im'.[i] = 255 * (r.[i] - lo) / (hi - lo).
Proof.
  intros (Hr & (a & Ha & Ea) & (b & Hb & Eb)) Hlt Hlo Hhi Him.
  destruct (int_to_uchar_eq r im ltac:(lia)) as (lo' & hi' & (Hr' & (a' & Ha' & Ea') & (b' & Hb' & Eb')) & ->).
  replace lo' with lo by (pose proof (Hr a' Ha'); pose proof (Hr' a Ha); lia).
  replace hi' with hi by (pose proof (Hr b' Hb'); pose proof (Hr' b Hb); lia).
  rewrite int_of_some by (unfold is_i32; lia). cbn [bind].
  destruct (for_opt_ind (fun i m => len m = len r /\ forall q, 0 <= q < i ->
      m.[q] = 255 * (r.[q] - lo) / (hi - lo)) 0 (len r) (scale_step r lo (hi - lo)) im) as (im' & E & Hl & Hq);
    [lia | split; [exact Him | lia] | |].
  - intros i m Hi (Hl & Hq). pose proof (Hr i Hi) as Hv.
    pose proof (scale_range r.[i] lo hi Hv Hlt) as Hs.
    assert (Eq : Z.quot ((r.[i] - lo) * 255) (hi - lo) = 255 * (r.[i] - lo) / (hi - lo))
      by (rewrite Z.mul_comm; apply Z.quot_div_nonneg; lia).
    unfold scale_step. rewrite rd_some by lia. cbn [bind]. rewrite int_of_some by (unfold is_i32; lia). cbn [bind].
    rewrite int_of_some by (unfold is_i32; lia). cbn [bind].
    rewrite int_div_some by (rewrite ?Eq; unfold is_i32; lia). cbn [bind]. rewrite Eq.
    change (u8 ?q) with (zext 8 q). rewrite zext_id by exact Hs.
    rewrite wr_some by lia. eexists; split; [reflexivity |]. rewrite len_aset. split; [exact Hl |].
    intros q Hqi. unfold len in *. rewrite aget_aset by lia.
    destruct (Z.eqb_spec q i) as [-> |]; [reflexivity | apply Hq; lia].
  - exists im'. split; [exact E |]. split; [exact Hl |]. split; [| exact Hq].
    apply Forall_of_cells. intros i Hi. rewrite Hl in Hi. rewrite Hq by exact Hi.
    apply scale_range; [now apply Hr | exact Hlt].
Qed.

Lemma int_to_uchar_scales_witness :
  exists im', int_to_uchar [0; 5; 10; 3] [0; 0; 0; 0] 4 = Some im' /\ len im' = 4 /\ Forall is_u8 im' /\
    forall i, 0 <= i < 4 -> im'.[i] = 255 * ([0; 5; 10; 3].[i] - 0) / (10 - 0).
Proof.
  apply (int_to_uchar_scales [0; 5; 10; 3] [0; 0; 0; 0] 0 10); try lia; [| reflexivity].
  split; [| split; [exists 0 | exists 2]; split; (reflexivity || (unfold len; simpl length; lia))].
  intros i Hi. change (len _) with 4 in Hi.
  assert (i = 0 \/ i = 1 \/ i = 2 \/ i = 3) as [-> | [-> | [-> | ->]]] by lia; (vm_compute; split; intros C; discriminate C).
Defined.

(** A response that is the same at every pixel, as on an image without
    structure, is divided by zero. *)
Theorem int_to_uchar_flat r im c : 0 < len r -> (forall i, 0 <= i < len r -> r.[i] = c) -> is_i32 c ->
  int_to_uchar r im (len r) = None.
Proof.
  intros Hr Hc Hi. destruct (int_to_uchar_eq r im Hr) as (lo & hi & (_ & (a & Ha & Ea) & (b & Hb & Eb)) & ->).
  rewrite Hc in Ea, Eb by assumption. subst lo hi. rewrite Z.sub_diag.
  change (int_of 0) with (Some 0). cbn [bind]. apply (for_opt_none _ 0); [lia |]. intros b'. unfold scale_step.
  rewrite rd_some by lia. cbn [bind]. rewrite Hc by lia. now rewrite Z.sub_diag.
Qed.

Lemma int_to_uchar_flat_witness : int_to_uchar [0; 0; 0] [1; 2; 3] 3 = None.
Proof.
  apply (int_to_uchar_flat [0; 0; 0] [1; 2; 3] 0); [unfold len; simpl length; lia | | unfold is_i32; lia].
  intros i Hi. change (len _) with 3 in Hi.
  assert (i = 0 \/ i = 1 \/ i = 2) as [-> | [-> | ->]] by lia; reflexivity.
Defined.
