(* ===== verification/SusanMedian.v ===== *)
(** * SUSAN: the median of the neighbours and the enlarged image

    Models [median] and [enlarge] of [automotive/susan/susan.c], the two helpers
    of the smoothing filter: a bubble sort of the eight neighbours of a pixel,
    and a copy of the image with a mirrored border. *)

From Stdlib Require Import ZArith Lia List Bool Permutation Sorted.
From S2P Require Import Prelude SusanImage SusanPrinciple.
Import ListNotations.

(** ** The median *)

(** The body of the inner loop: compare and swap. *)
Definition bubble_step (l : Z) (p : list Z) : option (list Z) :=
  let* a := rd p l in
  let* b := rd p (l + 1) in
  if a >? b then
    let tmp := a in
    let* p := wr p l b in wr p (l + 1) tmp
  else Some p.

Definition bubble (p : list Z) : option (list Z) :=
  for_opt 0 7 (fun k => for_opt 0 (7 - k) bubble_step) p.

Definition median (im : list Z) (i j x_size : Z) : option Z :=
  let* p0 := rd im ((i - 1) * x_size + j - 1) in
  let* p1 := rd im ((i - 1) * x_size + j) in
  let* p2 := rd im ((i - 1) * x_size + j + 1) in
  let* p3 := rd im (i * x_size + j - 1) in
  let* p4 := rd im (i * x_size + j + 1) in
  let* p5 := rd im ((i + 1) * x_size + j - 1) in
  let* p6 := rd im ((i + 1) * x_size + j) in
  let* p7 := rd im ((i + 1) * x_size + j + 1) in
  let* p := bubble [p0; p1; p2; p3; p4; p5; p6; p7] in
  let* a := rd p 3 in
  let* b := rd p 4 in
  Some (u8 (Z.quot (a + b) 2)).

(** ** The enlarged image *)

(** [memcpy(dst + d, src + s, n)] *)
Definition memcpy (dst : list Z) (d : Z) (src : list Z) (s n : Z) : option (list Z) :=
  for_opt 0 n (fun k dst => let* v := rd src (s + k) in wr dst (d + k) v) dst.

(** The three loops of [enlarge]; the function returns the new image and size. *)
Definition enlarge_copy (im : list Z) (x_size border i : Z) (tmp_image : list Z) : option (list Z) :=
  memcpy tmp_image ((i + border) * (x_size + 2 * border) + border) im (i * x_size) x_size.

Definition enlarge_rows (im : list Z) (x_size y_size border i : Z) (tmp_image : list Z) : option (list Z) :=
  let* tmp_image :=
    memcpy tmp_image ((border - 1 - i) * (x_size + 2 * border) + border) im (i * x_size) x_size in
  memcpy tmp_image ((y_size + border + i) * (x_size + 2 * border) + border)
    im ((y_size - i - 1) * x_size) x_size.

Definition enlarge_columns (x_size border i j : Z) (tmp_image : list Z) : option (list Z) :=
  let* v := rd tmp_image (j * (x_size + 2 * border) + border + i) in
  let* tmp_image := wr tmp_image (j * (x_size + 2 * border) + border - 1 - i) v in
  let* v := rd tmp_image (j * (x_size + 2 * border) + x_size + border - 1 - i) in
  wr tmp_image (j * (x_size + 2 * border) + x_size + border + i) v.

Definition enlarge (im tmp_image : list Z) (x_size y_size border : Z) : option (list Z * Z * Z) :=
  let* tmp_image := for_opt 0 y_size (enlarge_copy im x_size border) tmp_image in
  let* tmp_image := for_opt 0 border (enlarge_rows im x_size y_size border) tmp_image in
  let* tmp_image :=
    for_opt 0 border (fun i => for_opt 0 (y_size + 2 * border) (enlarge_columns x_size border i)) tmp_image in
  Some (tmp_image, x_size + 2 * border, y_size + 2 * border).

(** ** Bubble sort sorts *)

Lemma upd_swap l n : (S n < length l)%nat ->
  Permutation l (upd (upd l n (nth (S n) l 0)) (S n) (nth n l 0)).
Proof.
  revert n. induction l as [|a t IH]; intros n Hn; [cbn in Hn; lia |].
  destruct n as [|n].
  - destruct t as [|b t]; [cbn in Hn; lia |]. cbn. apply perm_swap.
  - cbn [upd nth]. apply perm_skip. apply IH. cbn in Hn. lia.
Qed.

(** The elements from [b] on are at least the ones before them. *)
Definition settled (p : list Z) (b : Z) : Prop :=
  forall q t, 0 <= q < t -> b <= t < len p -> p.[q] <= p.[t].

Lemma bubble_step_ok p l k : 0 <= l < 7 - k -> 0 <= k -> len p = 8 ->
  settled p (8 - k) -> (forall q, 0 <= q < l -> p.[q] <= p.[l]) ->
  exists p', bubble_step l p = Some p' /\ len p' = 8 /\ Permutation p p' /\ settled p' (8 - k) /\
    forall q, 0 <= q < l + 1 -> p'.[q] <= p'.[l + 1].
Proof.
  intros Hl Hk Hp Hs Hm. unfold bubble_step. rewrite !rd_some by lia. cbn [bind].
  rewrite Z.gtb_ltb. destruct (Z.ltb_spec p.[l + 1] p.[l]) as [L | L].
  - rewrite wr_some by lia. cbn [bind]. rewrite wr_some by (rewrite len_aset; lia).
    eexists; split; [reflexivity |]. rewrite !len_aset. split; [exact Hp |]. unfold len in *.
    assert (G : forall q, 0 <= q -> (aset (aset p l p.[l + 1]) (l + 1) p.[l]).[q] =
      if q =? l + 1 then p.[l] else if q =? l then p.[l + 1] else p.[q])
      by (intros; rewrite !aget_aset by (rewrite ?aset_length; lia); reflexivity).
    split; [| split].
    + unfold aset, aget. replace (Z.to_nat (l + 1)) with (S (Z.to_nat l)) by lia.
      apply upd_swap. lia.
    + intros q t Hq Ht. rewrite !len_aset in Ht. unfold settled, len in *. rewrite !G by lia.
      pose proof (Hs q t). pose proof (Hs l t). pose proof (Hs (l + 1) t). zcases; lia.
    + intros q Hq. rewrite !G by lia. specialize (Hm q). zcases; lia.
  - exists p. split; [reflexivity |]. split; [exact Hp |]. split; [apply Permutation_refl |].
    split; [exact Hs |]. intros q Hq. specialize (Hm q).
    destruct (Z.eq_dec q l) as [-> | N]; lia.
Qed.

Lemma bubble_ok p : len p = 8 ->
  exists s, bubble p = Some s /\ len s = 8 /\ Permutation p s /\ settled s 1.
Proof.
  intros Hp. unfold bubble.
  destruct (for_opt_ind (fun k s => len s = 8 /\ Permutation p s /\ settled s (8 - k)) 0 7
    (fun k => for_opt 0 (7 - k) bubble_step) p) as (s & E & H); [lia | | |].
  - split; [exact Hp |]. split; [apply Permutation_refl |]. intros q t Hq Ht. lia.
  - intros k s Hk (Hl & HP & Hs).
    destruct (for_opt_ind (fun l s => len s = 8 /\ Permutation p s /\ settled s (8 - k) /\
      forall q, 0 <= q < l -> s.[q] <= s.[l]) 0 (7 - k) bubble_step s) as (s' & E & Hl' & HP' & Hs' & Hm);
      [lia | repeat split; auto; lia | |].
    + intros l u Hl0 (Lu & Pu & Su & Mu).
      destruct (bubble_step_ok u l k) as (u' & E & Lu' & Pu' & Su' & Mu'); try assumption; try lia.
      exists u'. split; [exact E |]. split; [exact Lu' |].
      split; [eapply Permutation_trans; eassumption |]. auto.
    + exists s'. split; [exact E |]. split; [exact Hl' |]. split; [exact HP' |].
      intros q t Hq Ht. destruct (Z.eq_dec t (7 - k)) as [-> | N]; [apply Hm; lia | apply Hs'; lia].
  - exists s. split; [exact E |]. exact H.
Qed.

(** The value half way between the 4th and 5th of eight values in order. *)
Definition median_of (l : list Z) (v : Z) : Prop :=
  exists s, Permutation l s /\ (forall q t, 0 <= q <= t -> t < len s -> s.[q] <= s.[t]) /\ v = (s.[3] + s.[4]) / 2.

(** Pixels as a function: the brightnesses of the neighbours of [(i, j)]. *)
Definition neighbours (f : Z -> Z -> Z) (i j : Z) : list Z :=
  map (fun d => f (i + fst d) (j + snd d)) ring.

Lemma median_sorted im i j x y : image_ok x y im -> 0 < i < y - 1 -> 0 < j < x - 1 ->
  exists v, median im i j x = Some v /\ is_u8 v /\ median_of (neighbours (fun u v => im.[px x u v]) i j) v.
Proof.
  intros Him Hi Hj. unfold median.
  assert (R : forall di dj, -1 <= di <= 1 -> -1 <= dj <= 1 ->
    rd im ((i + di) * x + (j + dj)) = Some im.[px x (i + di) (j + dj)])
    by (intros; apply (rd_pixel im x y Him); lia).
  assert (R' : forall di dj e, e = (i + di) * x + (j + dj) -> -1 <= di <= 1 -> -1 <= dj <= 1 ->
    rd im e = Some im.[px x (i + di) (j + dj)]) by (intros di dj e ->; apply R).
  rewrite (R' (-1) (-1)), (R' (-1) 0), (R' (-1) 1), (R' 0 (-1)), (R' 0 1), (R' 1 (-1)), (R' 1 0), (R' 1 1) by lia.
  cbn [bind].
  match goal with |- context [bubble ?l] => set (p := l) end.
  change p with (neighbours (fun u v => im.[px x u v]) i j).
  destruct (bubble_ok (neighbours (fun u v => im.[px x u v]) i j) eq_refl) as (s & -> & Hl & HP & Hs).
  cbn [bind]. rewrite !rd_some by lia. cbn [bind].
  assert (U : forall q, 0 <= s.[q] <= 255).
  { intros q. assert (H : Forall (fun v => 0 <= v <= 255) s).
    { eapply Permutation_Forall; [exact HP |]. unfold neighbours. apply Forall_forall. intros v Hv.
      apply in_map_iff in Hv as (d & <- & _). apply (pixel_u8 im x y Him). }
    apply Forall_aget; [lia | exact H]. }
  pose proof (U 3). pose proof (U 4). rewrite Z.quot_div_nonneg by lia.
  assert (B : 0 <= (s.[3] + s.[4]) / 2 < 256) by zlia.
  change (u8 ((s.[3] + s.[4]) / 2)) with (zext 8 ((s.[3] + s.[4]) / 2)). rewrite zext_id by exact B.
  eexists; split; [reflexivity |]. split; [exact B |]. exists s. split; [exact HP |].
  split; [| reflexivity]. intros q t Hq Ht. destruct (Z.eq_dec q t) as [-> | N]; [lia | apply Hs; lia].
Qed.

(** ** The mirrored border *)

(** A coordinate outside [0 .. n-1], reflected at the nearer side. *)
Definition mirror (n t : Z) : Z := if t <? 0 then - 1 - t else if n <=? t then 2 * n - 1 - t else t.

Lemma mirror_range n b t : b <= n -> - b <= t < n + b -> 0 <= mirror n t < n.
Proof. unfold mirror. intros. zcases; lia. Qed.

(** Brightness at any pixel within the border. *)
Definition mirrored (im : list Z) (x y u v : Z) : Z := im.[px x (mirror y u) (mirror x v)].

Section Enlarge.
Context (im : list Z) (x y b : Z).
Hypothesis Him : image_ok x y im.
Hypothesis Hb : 0 <= b /\ b <= x /\ b <= y.

(** The pixel that belongs at [(u, v)] of the enlarged image. *)
Let M (u v : Z) : Z := mirrored im x y (u - b) (v - b).

(** The cells of [D] hold the right pixel. *)
Let known (D : Z -> Z -> Prop) (tmp : list Z) : Prop :=
  len tmp = (x + 2 * b) * (y + 2 * b) /\
  forall u v, 0 <= u < y + 2 * b -> 0 <= v < x + 2 * b -> D u v -> tmp.[px (x + 2 * b) u v] = M u v.

Lemma known_weaken (D D' : Z -> Z -> Prop) tmp : 
  (forall u v, 0 <= u < y + 2 * b -> 0 <= v < x + 2 * b -> D' u v -> D u v) ->
  known D tmp -> known D' tmp.
Proof using. intros H (Hl & Hk). split; [exact Hl |]. auto. Qed.

(** Writing the right pixel keeps what is known. *)
Lemma known_write D tmp p u v c : known D tmp -> 0 <= u < y + 2 * b -> 0 <= v < x + 2 * b ->
  p = px (x + 2 * b) u v -> c = M u v ->
  exists tmp', wr tmp p c = Some tmp' /\ known (fun u' v' => D u' v' \/ (u' = u /\ v' = v)) tmp'.
Proof using.
  intros (Hl & Hk) Hu Hv -> ->.
  destruct (wr_cells (x + 2 * b) (y + 2 * b) tmp u v (M u v) Hl Hu Hv) as (tmp' & E & Hl' & Hown & Hoth).
  exists tmp'. split; [exact E |]. split; [exact Hl' |]. intros u' v' Hu' Hv' HD.
  destruct (Z.eq_dec (px (x + 2 * b) u' v') (px (x + 2 * b) u v)) as [Ep | Np].
  - rewrite Ep. destruct (px_inj (x + 2 * b) u' v' u v) as [-> ->]; try lia; auto.
  - destruct HD as [HD | [-> ->]]; [| easy]. rewrite Hoth; auto.
    apply (px_inside (x + 2 * b) (y + 2 * b)); assumption.
Qed.

(** A row of the image copied into row [u]. *)
Lemma known_memcpy D tmp u row : known D tmp -> 0 <= u < y + 2 * b -> 0 <= row < y ->
  row = mirror y (u - b) ->
  exists tmp', memcpy tmp (u * (x + 2 * b) + b) im (row * x) x = Some tmp' /\
    known (fun u' v' => D u' v' \/ (u' = u /\ b <= v' < b + x)) tmp'.
Proof using Him Hb.
  intros Hk Hu Hrow Erow. unfold memcpy.
  apply (for_opt_ind (fun k t => known (fun u' v' => D u' v' \/ (u' = u /\ b <= v' < b + k)) t));
    [lia | eapply known_weaken; [| exact Hk]; intros u' v' _ _ [H | H]; [exact H | lia] |].
  intros k t Hkx Ht.
  change (row * x + k) with (px x row k). rewrite (rd_pixel im x y Him) by lia. cbn [bind].
  edestruct (known_write _ t (u * (x + 2 * b) + b + k) u (b + k) im.[px x row k] Ht)
    as (t' & E & Ht'); try lia; [unfold px; lia | | exists t'; split; [exact E |]].
  - unfold M, mirrored. rewrite <- Erow. f_equal. f_equal. unfold mirror. zcases; lia.
  - eapply known_weaken; [| exact Ht']. cbv beta. intros u' v' _ _ [H | H]; [auto |].
    destruct (Z.eq_dec v' (b + k)); [right; lia | left; right; lia].
Qed.

Lemma copy_loop tmp : known (fun _ _ => False) tmp ->
  exists tmp', for_opt 0 y (enlarge_copy im x b) tmp = Some tmp' /\
    known (fun u v => b <= u < b + y /\ b <= v < b + x) tmp'.
Proof using Him Hb.
  intros H0. destruct Him as (Hx & Hy & _).
  apply (for_opt_ind (fun i t => known (fun u v => b <= u < b + i /\ b <= v < b + x) t));
    [lia | eapply known_weaken; [| exact H0]; cbn; lia |].
  intros i t Hi Ht. unfold enlarge_copy.
  edestruct (known_memcpy _ t (i + b) i Ht) as (t' & E & Ht'); [lia | lia | |].
  - replace (i + b - b) with i by lia. unfold mirror. zcases; lia.
  - exists t'. split; [exact E |]. eapply known_weaken; [| exact Ht']. cbv beta. intros u v _ _ H.
    destruct (Z.eq_dec u (i + b)); [right; lia | left; lia].
Qed.

Lemma rows_loop tmp : known (fun u v => b <= u < b + y /\ b <= v < b + x) tmp ->
  exists tmp', for_opt 0 b (enlarge_rows im x y b) tmp = Some tmp' /\
    known (fun u v => b <= v < b + x) tmp'.
Proof using Him Hb.
  intros H0. destruct Him as (Hx & Hy & _).
  destruct (for_opt_ind (fun i t => known (fun u v => b - i <= u < b + y + i /\ b <= v < b + x) t)
    0 b (enlarge_rows im x y b) tmp) as (tmp' & E & H);
    [lia | eapply known_weaken; [| exact H0]; cbn; lia | |].
  - intros i t Hi Ht. unfold enlarge_rows.
    edestruct (known_memcpy _ t (b - 1 - i) i Ht) as (t1 & E1 & Ht1);
      [lia | lia | unfold mirror; zcases; lia |].
    edestruct (known_memcpy _ t1 (y + b + i) (y - i - 1) Ht1) as (t2 & E2 & Ht2);
      [lia | lia | unfold mirror; zcases; lia |].
    rewrite E1. cbn [bind]. exists t2. split; [exact E2 |].
    eapply known_weaken; [| exact Ht2]. cbv beta. intros u v _ _ H.
    destruct (Z.eq_dec u (b - 1 - i)); [left; right; lia |].
    destruct (Z.eq_dec u (y + b + i)); [right; lia | left; left; lia].
  - exists tmp'. split; [exact E |]. destruct H as (Hl & Hk). split; [exact Hl |].
    intros u v Hu Hv HD. apply Hk; [exact Hu | exact Hv | lia].
Qed.

(** One step of the column loop: the two pixels come from columns already
    known. *)
Lemma columns_step (D : Z -> Z -> Prop) tmp i j : known D tmp -> 0 <= i < b -> 0 <= j < y + 2 * b ->
  D j (b + i) -> D j (x + b - 1 - i) ->
  exists tmp', enlarge_columns x b i j tmp = Some tmp' /\
    known (fun u v => D u v \/ (u = j /\ v = b - 1 - i) \/ (u = j /\ v = x + b + i)) tmp'.
Proof using Him Hb.
  intros Ht Hi Hj D1 D2. destruct Him as (Hx & Hy & _). unfold enlarge_columns.
  assert (R : forall D t v p, known D t -> 0 <= v < x + 2 * b -> D j v -> p = px (x + 2 * b) j v ->
    rd t p = Some (M j v)).
  { intros D' t v p (Hl & Hk) Hv HD ->.
    rewrite rd_some by (rewrite Hl; apply px_inside; lia). f_equal. now apply Hk. }
  rewrite (R D tmp (b + i)) by (try assumption; unfold px; lia). cbn [bind].
  edestruct (known_write D tmp (j * (x + 2 * b) + b - 1 - i) j (b - 1 - i) (M j (b + i)) Ht)
    as (t1 & E1 & Ht1); try lia; [unfold px; lia | |].
  { unfold M, mirrored. f_equal. f_equal. unfold mirror. zcases; lia. }
  rewrite E1. cbn [bind].
  rewrite (R _ t1 (x + b - 1 - i)) with (1 := Ht1) by (auto; unfold px; lia). cbn [bind].
  edestruct (known_write _ t1 (j * (x + 2 * b) + x + b + i) j (x + b + i) (M j (x + b - 1 - i)) Ht1)
    as (t2 & E2 & Ht2); try lia; [unfold px; lia | |].
  { unfold M, mirrored. f_equal. f_equal. unfold mirror. zcases; lia. }
  exists t2. split; [exact E2 |]. eapply known_weaken; [| exact Ht2]. cbv beta. tauto.
Qed.

Lemma columns_loop tmp : known (fun u v => b <= v < b + x) tmp ->
  exists tmp', for_opt 0 b (fun i => for_opt 0 (y + 2 * b) (enlarge_columns x b i)) tmp = Some tmp' /\
    known (fun u v => True) tmp'.
Proof using Him Hb.
  intros H0. destruct Him as (Hx & Hy & _).
  destruct (for_opt_ind (fun i t => known (fun u v => b - i <= v < b + x + i) t) 0 b
    (fun i => for_opt 0 (y + 2 * b) (enlarge_columns x b i)) tmp) as (tmp' & E & H);
    [lia | eapply known_weaken; [| exact H0]; cbn; lia | |].
  - intros i t Hi Ht.
    destruct (for_opt_ind (fun j t => known (fun u v => b - i <= v < b + x + i \/
        (u < j /\ (v = b - 1 - i \/ v = x + b + i))) t) 0 (y + 2 * b) (enlarge_columns x b i) t)
      as (t' & E & Ht');
      [lia | eapply known_weaken; [| exact Ht]; cbn; intros u v Hu _ [H | H]; [exact H | lia] | |].
  + intros j s Hj Hs. destruct (columns_step _ s i j Hs Hi Hj) as (s' & E & Hs'); try (left; lia).
    exists s'. split; [exact E |]. eapply known_weaken; [| exact Hs']. cbv beta. intros u v _ _ H.
    destruct (Z.eq_dec u j); lia.
  + exists t'. split; [exact E |]. destruct Ht' as (Hl & Hk). split; [exact Hl |].
    intros u v Hu Hv HD. apply Hk; [exact Hu | exact Hv | lia].
  - exists tmp'. split; [exact E |]. destruct H as (Hl & Hk). split; [exact Hl |].
    intros u v Hu Hv _. apply Hk; [exact Hu | exact Hv | lia].
Qed.

(** The enlarged image is the image continued by reflection, whatever the new
    block held; a border wider than the image is excluded. *)
Lemma enlarge_mirrors tmp : len tmp = (x + 2 * b) * (y + 2 * b) ->
  exists tmp', enlarge im tmp x y b = Some (tmp', x + 2 * b, y + 2 * b) /\
    len tmp' = (x + 2 * b) * (y + 2 * b) /\
    forall u v, - b <= u < y + b -> - b <= v < x + b ->
      tmp'.[px (x + 2 * b) (u + b) (v + b)] = mirrored im x y u v.
Proof using Him Hb.
  intros Hl. unfold enlarge.
  destruct (copy_loop tmp) as (t1 & -> & H1); [split; [exact Hl | easy] |]. cbn [bind].
  destruct (rows_loop t1 H1) as (t2 & -> & H2). cbn [bind].
  destruct (columns_loop t2 H2) as (t3 & -> & Hl3 & H3). cbn [bind].
  exists t3. split; [reflexivity |]. split; [exact Hl3 |]. intros u v Hu Hv.
  rewrite H3 by (exact I || lia). unfold M. f_equal; lia.
Qed.
End Enlarge.
