(* ===== verification/SusanSmooth.v ===== *)
(** * SUSAN: the smoothing filter

    Models [susan_smoothing] of [automotive/susan/susan.c]: the enlarged copy of
    the image, the table of distances, the weighted sums over the mask of every
    pixel and the 3x3 variant.  The result goes into the caller's image. *)

From Stdlib Require Import ZArith Lia List Bool Permutation.
From Stdlib Require Import SpecFloat.
From S2P Require Import Prelude SusanImage SusanPrinciple SusanFloat SusanLut SusanMedian.
Import ListNotations.

(** ** The table of distances *)

Definition one_and_half : spec_float := S754_finite false 6755399441055744 (-52).

(** [((int)(1.5 * dt)) + 1] *)
Definition mask_size_of (dt : spec_float) : option Z :=
  let* t := sf_trunc (f64_mul one_and_half (to_f64 dt)) in let* t := int_of t in int_of (t + 1).

(** The byte stored for the offset [(i, j)], with [temp = -(dt*dt)]. *)
Definition distance_entry (exp : spec_float -> spec_float) (temp : spec_float) (i j : Z) : option Z :=
  let* x := sf_trunc (f64_mul (f64_of_Z 100) (exp (to_f64 (f32_div (f32_of_Z (i * i + j * j)) temp)))) in
  let* x := int_of x in Some (u8 x).

Definition distance_step (exp : spec_float -> spec_float) (temp : spec_float) (i j : Z)
    (s : Z * list Z) : option (Z * list Z) :=
  let '(dpt, dp) := s in
  let* v := distance_entry exp temp i j in
  let* dp := wr dp dpt v in
  Some (dpt + 1, dp).

Definition distance_lut (exp : spec_float -> spec_float) (temp : spec_float) (mask_size : Z)
    (dp : list Z) : option (list Z) :=
  let* (_, dp) :=
    for_opt (- mask_size) (mask_size + 1)
      (fun i => for_opt (- mask_size) (mask_size + 1) (distance_step exp temp i)) (0, dp) in
  Some dp.

(** ** The sums over the mask *)

(** The pointers [ip] and [dpt] and the sums [area] and [total]. *)
Definition sums : Type := Z * Z * Z * Z.

Definition smooth_read (im dp bp : list Z) (centre : Z) (s : sums) : option sums :=
  let '(ip, dpt, area, total) := s in
  let* brightness := rd im ip in
  let* d := rd dp dpt in
  let* c := lut bp (centre - brightness) in
  let tmp := d * c in
  let* area := int_of (area + tmp) in
  let* total := int_of (total + tmp * brightness) in
  Some (ip + 1, dpt + 1, area, total).

Definition smooth_row (im dp bp : list Z) (centre mask_size increment : Z) (s : sums) : option sums :=
  let* (ip, dpt, area, total) :=
    for_opt (- mask_size) (mask_size + 1) (fun _ => smooth_read im dp bp centre) s in
  Some (ip + increment, dpt, area, total).

Definition smooth_window (im dp bp : list Z) (mask_size x_size i j centre : Z) : option (Z * Z) :=
  let increment := x_size - (mask_size * 2 + 1) in
  let* (_, _, area, total) :=
    for_opt (- mask_size) (mask_size + 1) (fun _ => smooth_row im dp bp centre mask_size increment)
      ((i - mask_size) * x_size + j - mask_size, 0, 0, 0) in
  Some (area, total).

(** The value of a pixel from the two sums; [unit] is what the centre adds to
    [area]. *)
Definition smooth_value (im : list Z) (x_size i j centre unit area total : Z) : option Z :=
  let tmp := area - unit in
  if tmp =? 0 then median im i j x_size
  else let* n := int_of (total - centre * unit) in let* q := int_div n tmp in Some (u8 q).

(** The pixel loops, with [out] the buffer and [op] the pointer into it. *)
Definition smooth_pixel (im dp bp : list Z) (mask_size x_size i j : Z) (s : list Z * Z)
    : option (list Z * Z) :=
  let '(out, op) := s in
  let* centre := rd im (px x_size i j) in
  let* (area, total) := smooth_window im dp bp mask_size x_size i j centre in
  let* v := smooth_value im x_size i j centre 10000 area total in
  let* out := wr out op v in
  Some (out, op + 1).

(** The 3x3 mask is unrolled; [tmp = *(cp-brightness)]. *)
Definition smooth3_read (bp : list Z) (centre : Z) (_ : Datatypes.unit) (brightness : Z)
    (s : option (Z * Z)) : option (Z * Z) :=
  let* (area, total) := s in
  let* tmp := lut bp (centre - brightness) in
  Some (area + tmp, total + tmp * brightness).

Definition square3 (x_size : Z) : list (list Datatypes.unit * Z) :=
  [(repeat tt 3, x_size - 2); (repeat tt 3, x_size - 2); (repeat tt 3, 0)].

Definition smooth3_pixel (im bp : list Z) (x_size i j : Z) (s : list Z * Z) : option (list Z * Z) :=
  let '(out, op) := s in
  let* centre := rd im (px x_size i j) in
  let* (_, sums) := walk (rd im) (smooth3_read bp centre) (square3 x_size)
                      ((i - 1) * x_size + j - 1) (Some (0, 0)) in
  let* (area, total) := sums in
  let* v := smooth_value im x_size i j centre 100 area total in
  let* out := wr out op v in
  Some (out, op + 1).

Definition susan_smoothing (exp : spec_float -> spec_float) (malloc : Z -> option (list Z))
    (three_by_three : Z) (im : list Z) (dt : spec_float) (x_size y_size : Z) (bp : list Z)
    : res (list Z) :=
  let out := im in
  let! mask_size := if three_by_three =? 0 then lift (mask_size_of dt) else Ret 1 in
  if SFltb (f32_of_Z 15) dt then Exit 0
  else if (2 * mask_size + 1 >? x_size) || (2 * mask_size + 1 >? y_size) then Exit 0
  else
    let! size := lift (int_of ((x_size + mask_size * 2) * (y_size + mask_size * 2))) in
    let! tmp_image := lift (malloc size) in
    let! (im, x_size, y_size) := lift (enlarge im tmp_image x_size y_size mask_size) in
    if three_by_three =? 0 then
      let n_max := mask_size * 2 + 1 in
      let temp := SFopp (f32_mul dt dt) in
      let! dp := lift (malloc (n_max * n_max)) in
      let! dp := lift (distance_lut exp temp mask_size dp) in
      let! (out, _) := lift (raster mask_size x_size y_size
                               (smooth_pixel im dp bp mask_size x_size) (out, 0)) in
      Ret out
    else
      let! (out, _) := lift (raster 1 x_size y_size (smooth3_pixel im bp x_size) (out, 0)) in
      Ret out.

(** ** Specification *)

(** Sums over the square of side [2m+1]. *)
Definition dsum (m : Z) (f : Z -> Z -> Z) : Z :=
  sum_range (- m) (m + 1) (fun dy => sum_range (- m) (m + 1) (f dy)).

(** The weight of the pixel at an offset: its distance weight times its
    similarity to the centre, and 0 for the centre itself. *)
Definition weight (D : Z -> Z -> Z) (bp : list Z) (f : Z -> Z -> Z) (i j dy dx : Z) : Z :=
  if (dy =? 0) && (dx =? 0) then 0 else D dy dx * bp.[258 + (f i j - f (i + dy) (j + dx))].

(** [v] is the smoothed value of [(i, j)] of the image [f]: the weighted mean of
    the neighbours, rounded down, or their median where all weights are 0. *)
Definition smoothed (m : Z) (D : Z -> Z -> Z) (bp : list Z) (f : Z -> Z -> Z) (i j v : Z) : Prop :=
  let area := dsum m (weight D bp f i j) in
  let total := dsum m (fun dy dx => weight D bp f i j dy dx * f (i + dy) (j + dx)) in
  if area =? 0 then median_of (neighbours f i j) v else v = total / area.

(** ** Double sums *)

Lemma dsum_le m f g : (forall dy dx, - m <= dy <= m -> - m <= dx <= m -> f dy dx <= g dy dx) ->
  dsum m f <= dsum m g.
Proof.
  intros H. apply sum_range_le. intros. apply sum_range_le. intros. apply H; lia.
Qed.

Lemma dsum_ext m f g : (forall dy dx, - m <= dy <= m -> - m <= dx <= m -> f dy dx = g dy dx) ->
  dsum m f = dsum m g.
Proof.
  intros H. apply sum_range_ext. intros. apply sum_range_ext. intros. apply H; lia.
Qed.

Lemma dsum_add m f g : dsum m (fun dy dx => f dy dx + g dy dx) = dsum m f + dsum m g.
Proof.
  unfold dsum. rewrite <- sum_range_add. apply sum_range_ext. intros. apply sum_range_add.
Qed.

Lemma dsum_mul m c f : dsum m (fun dy dx => c * f dy dx) = c * dsum m f.
Proof.
  unfold dsum. rewrite <- sum_range_mul. apply sum_range_ext. intros. apply sum_range_mul.
Qed.

Lemma dsum_nonneg m f : (forall dy dx, 0 <= f dy dx) -> 0 <= dsum m f.
Proof. intros H. apply sum_range_nonneg. intros. apply sum_range_nonneg. auto. Qed.

Lemma sum_single lo hi k c : lo <= k < hi -> sum_range lo hi (fun i => if i =? k then c else 0) = c.
Proof.
  intros Hk. rewrite (sum_range_split lo k hi), <- (Z.add_0_l c) at 1 by lia.
  rewrite (sum_range_ext lo k _ (fun _ => 0)) by (intros; zcases; lia).
  rewrite sum_range_const by lia. rewrite Z.mul_0_r. f_equal.
  rewrite (sum_range_split k (k + 1) hi) by lia.
  rewrite sum_range_snoc, sum_range_nil by lia. rewrite Z.eqb_refl.
  rewrite (sum_range_ext (k + 1) hi _ (fun _ => 0)) by (intros; zcases; lia).
  rewrite sum_range_const by lia. lia.
Qed.

(** The centre's share of a sum. *)
Lemma dsum_centre m f : 0 <= m ->
  dsum m f = dsum m (fun dy dx => if (dy =? 0) && (dx =? 0) then 0 else f dy dx) + f 0 0.
Proof.
  intros Hm.
  rewrite (dsum_ext m f (fun dy dx => (if (dy =? 0) && (dx =? 0) then 0 else f dy dx)
             + (if dy =? 0 then if dx =? 0 then f 0 0 else 0 else 0))).
  - rewrite dsum_add. f_equal. unfold dsum.
    rewrite (sum_range_ext _ _ _ (fun dy => if dy =? 0 then f 0 0 else 0)); [apply sum_single; lia |].
    intros dy _. destruct (dy =? 0); [apply sum_single; lia |].
    rewrite sum_range_const by lia. lia.
  - intros dy dx _ _. destruct (Z.eqb_spec dy 0) as [-> |], (Z.eqb_spec dx 0) as [-> |]; cbn; lia.
Qed.

(** A double sum that has come to offset [(dy, dx)]. *)
Definition part (m : Z) (f : Z -> Z -> Z) (dy dx : Z) : Z :=
  sum_range (- m) dy (fun a => sum_range (- m) (m + 1) (f a)) + sum_range (- m) dx (f dy).

Lemma part_step m f dy dx : - m <= dx -> part m f dy (dx + 1) = part m f dy dx + f dy dx.
Proof. intros. unfold part. rewrite (sum_range_snoc (- m) dx) by lia. lia. Qed.

Lemma part_row m f dy : - m <= dy -> part m f dy (m + 1) = part m f (dy + 1) (- m).
Proof.
  intros. unfold part. rewrite (sum_range_snoc (- m) dy), (sum_range_nil (- m) (- m)) by lia. lia.
Qed.

Lemma part_le m f dy dx : (forall a c, 0 <= f a c) -> - m <= dy <= m -> - m <= dx <= m + 1 ->
  0 <= part m f dy dx <= dsum m f.
Proof.
  intros Hf Hy Hx. unfold part, dsum.
  rewrite (sum_range_split (- m) dy (m + 1)), (sum_range_split dy (dy + 1) (m + 1)),
    (sum_range_snoc dy dy), (sum_range_nil dy dy) by lia.
  rewrite (sum_range_split (- m) dx (m + 1) (f dy)) by lia.
  assert (N : forall lo hi, 0 <= sum_range lo hi (fun a => sum_range (- m) (m + 1) (f a)))
    by (intros; apply sum_range_nonneg; intros; apply sum_range_nonneg; auto).
  pose proof (N (- m) dy). pose proof (N (dy + 1) (m + 1)).
  pose proof (sum_range_nonneg (- m) dx (f dy) ltac:(auto)).
  pose proof (sum_range_nonneg dx (m + 1) (f dy) ltac:(auto)). lia.
Qed.

(** ** The window of a pixel *)

Section Window.
Context (im dp bp : list Z) (m x y i j : Z).
Hypothesis Him : image_ok x y im.
Hypothesis Hbp : lut_ok bp.
Hypothesis Hm : 0 <= m.
Hypothesis Hi : m <= i < y - m.
Hypothesis Hj : m <= j < x - m.

(** The table as a function of the offset. *)
Definition dist_at (dy dx : Z) : Z := dp.[(dy + m) * (2 * m + 1) + (dx + m)].

Hypothesis Hdp : len dp = (2 * m + 1) * (2 * m + 1).
Hypothesis HD : forall dy dx, 0 <= dist_at dy dx <= 100.
Hypothesis Hsum : dsum m dist_at <= 84215.

Let b (dy dx : Z) : Z := im.[px x (i + dy) (j + dx)].
Let f (dy dx : Z) : Z := dist_at dy dx * sim_at im bp x i j (dy, dx).
Let g (dy dx : Z) : Z := f dy dx * b dy dx.

Lemma f_range dy dx : 0 <= f dy dx <= 100 * dist_at dy dx.
Proof using Him Hbp HD Hsum.
  pose proof (sim_range im bp x y Him Hbp i j (dy, dx)). pose proof (HD dy dx). unfold f. nia.
Qed.

Lemma g_range dy dx : 0 <= g dy dx <= 25500 * dist_at dy dx.
Proof using Him Hbp HD Hsum.
  pose proof (f_range dy dx). pose proof (pixel_u8 im x y Him (px x (i + dy) (j + dx))).
  unfold g, b. nia.
Qed.

Lemma f_sum : dsum m f <= 100 * 84215.
Proof using Him Hbp HD Hsum.
  etransitivity; [apply (dsum_le m f (fun a c => 100 * dist_at a c)) |].
  - intros. apply f_range.
  - rewrite dsum_mul. lia.
Qed.

Lemma g_sum : dsum m g <= 25500 * 84215.
Proof using Him Hbp HD Hsum.
  etransitivity; [apply (dsum_le m g (fun a c => 25500 * dist_at a c)) |].
  - intros. apply g_range.
  - rewrite dsum_mul. lia.
Qed.

(** The pointers and sums at offset [(dy, dx)]. *)
Let at_ (dy dx : Z) : sums :=
  ((i + dy) * x + (j + dx), (dy + m) * (2 * m + 1) + (dx + m), part m f dy dx, part m g dy dx).

Lemma smooth_read_ok dy dx : - m <= dy <= m -> - m <= dx <= m ->
  smooth_read im dp bp im.[px x i j] (at_ dy dx) = Some (at_ dy (dx + 1)).
Proof using Him Hbp Hm Hi Hj Hdp HD Hsum.
  intros Hy Hx. unfold at_, smooth_read.
  change ((i + dy) * x + (j + dx)) with (px x (i + dy) (j + dx)).
  rewrite (rd_pixel im x y Him) by lia. cbn [bind].
  rewrite rd_some by (rewrite Hdp; nia). cbn [bind].
  rewrite (lut_pixel im bp x y Him Hbp). cbn [bind].
  change (dp.[(dy + m) * (2 * m + 1) + (dx + m)] *
          bp.[258 + (im.[px x i j] - im.[px x (i + dy) (j + dx)])]) with (f dy dx).
  change (f dy dx * im.[px x (i + dy) (j + dx)]) with (g dy dx).
  rewrite <- !part_step by lia.
  pose proof (part_le m f dy (dx + 1) (fun a c => proj1 (f_range a c)) ltac:(lia) ltac:(lia)).
  pose proof (part_le m g dy (dx + 1) (fun a c => proj1 (g_range a c)) ltac:(lia) ltac:(lia)).
  pose proof f_sum. pose proof g_sum.
  rewrite int_of_some by (unfold is_i32; lia). cbn [bind].
  rewrite int_of_some by (unfold is_i32; lia). cbn [bind].
  unfold px. tuple_eq.
Qed.

Lemma smooth_window_ok :
  smooth_window im dp bp m x i j im.[px x i j] = Some (dsum m f, dsum m g).
Proof using Him Hbp Hm Hi Hj Hdp HD Hsum.
  unfold smooth_window.
  destruct (for_opt_ind (fun dy s => s = at_ dy (- m)) (- m) (m + 1)
    (fun _ => smooth_row im dp bp im.[px x i j] m (x - (m * 2 + 1)))
    ((i - m) * x + j - m, 0, 0, 0)) as (s & E & ->); [lia | | |].
  - unfold at_, part. rewrite !sum_range_nil by lia. tuple_eq.
  - intros dy s Hy ->.
    destruct (for_opt_ind (fun dx s => s = at_ dy dx) (- m) (m + 1)
      (fun _ => smooth_read im dp bp im.[px x i j]) (at_ dy (- m))) as (s & E & ->); [lia | reflexivity | |].
    + intros dx s Hx ->. exists (at_ dy (dx + 1)). split; [apply smooth_read_ok; lia | reflexivity].
    + unfold smooth_row. rewrite E. unfold at_ at 1. cbn [bind]. eexists; split; [reflexivity |].
      unfold at_. rewrite !part_row by lia. tuple_eq.
  - rewrite E. unfold at_. cbn [bind]. unfold part. rewrite !(sum_range_nil (- m) (- m)) by lia.
    rewrite !Z.add_0_r. reflexivity.
Qed.
End Window.

(** ** The value of a pixel *)

Lemma median_between l v lo hi : length l = 8%nat -> Forall (fun a => lo <= a <= hi) l -> median_of l v ->
  lo <= v <= hi.
Proof.
  intros Hl H (s & HP & _ & ->). pose proof (Permutation_length HP) as EL.
  assert (Hs : Forall (fun a => lo <= a <= hi) s) by (eapply Permutation_Forall; eassumption).
  assert (G : forall n, (n < 8)%nat -> lo <= nth n s 0 <= hi)
    by (intros n Hn; eapply (proj1 (Forall_forall _ _) Hs), nth_In; lia).
  pose proof (G 3%nat ltac:(lia)). pose proof (G 4%nat ltac:(lia)).
  unfold aget. change (Z.to_nat 3) with 3%nat. change (Z.to_nat 4) with 4%nat. zlia.
Qed.

(** A smoothed value is between any bounds of the window. *)
Lemma smoothed_between m D bp f i j v lo hi : 1 <= m ->
  (forall dy dx, 0 <= weight D bp f i j dy dx) ->
  (forall dy dx, - m <= dy <= m -> - m <= dx <= m -> lo <= f (i + dy) (j + dx) <= hi) ->
  smoothed m D bp f i j v -> lo <= v <= hi.
Proof.
  intros Hm Hw Hf Hv. unfold smoothed in Hv.
  destruct (Z.eqb_spec (dsum m (weight D bp f i j)) 0) as [E | N].
  - eapply median_between; [| | exact Hv]; [reflexivity |]. unfold neighbours. apply Forall_map.
    eapply Forall_impl; [| exact ring_within]. intros [dy dx] H. cbn [fst snd] in *. apply Hf; lia.
  - pose proof (dsum_nonneg m _ Hw) as P. subst v.
    assert (L : lo * dsum m (weight D bp f i j)
      <= dsum m (fun dy dx => weight D bp f i j dy dx * f (i + dy) (j + dx))).
    { rewrite <- dsum_mul. apply dsum_le. intros dy dx Hy Hx. specialize (Hw dy dx). specialize (Hf dy dx Hy Hx). nia. }
    assert (U : dsum m (fun dy dx => weight D bp f i j dy dx * f (i + dy) (j + dx))
      <= hi * dsum m (weight D bp f i j)).
    { rewrite <- dsum_mul. apply dsum_le. intros dy dx Hy Hx. specialize (Hw dy dx). specialize (Hf dy dx Hy Hx). nia. }
    split; [apply Z.div_le_lower_bound; lia | apply Z.div_le_upper_bound; lia].
Qed.

(** Only the window matters. *)
Lemma smoothed_shift m D bp f g i j k v : 1 <= m ->
  (forall dy dx, - m <= dy <= m -> - m <= dx <= m -> f (i + k + dy) (j + k + dx) = g (i + dy) (j + dx)) ->
  smoothed m D bp f (i + k) (j + k) v -> smoothed m D bp g i j v.
Proof.
  intros Hm Hfg. unfold smoothed.
  assert (C : f (i + k) (j + k) = g i j)
    by (pose proof (Hfg 0 0 ltac:(lia) ltac:(lia)) as H; now rewrite !Z.add_0_r in H).
  assert (W : forall dy dx, - m <= dy <= m -> - m <= dx <= m ->
    weight D bp f (i + k) (j + k) dy dx = weight D bp g i j dy dx)
    by (intros; unfold weight; rewrite C, Hfg by lia; reflexivity).
  rewrite (dsum_ext m (weight D bp f (i + k) (j + k)) _ W).
  rewrite (dsum_ext m (fun dy dx => weight D bp f (i + k) (j + k) dy dx * _)
             (fun dy dx => weight D bp g i j dy dx * g (i + dy) (j + dx)))
    by (intros; rewrite W, Hfg by lia; reflexivity).
  replace (neighbours f (i + k) (j + k)) with (neighbours g i j); [trivial |].
  unfold neighbours. symmetry. apply map_ext_in. intros d Hd.
  pose proof (proj1 (Forall_forall _ _) ring_within d Hd) as H. cbv beta in H. apply Hfg; lia.
Qed.

Section Value.
Context (im bp : list Z) (m x y i j : Z) (D : Z -> Z -> Z).
Hypothesis Him : image_ok x y im.
Hypothesis Hbp : lut_ok bp.
Hypothesis Hm : 1 <= m.
Hypothesis Hi : m <= i < y - m.
Hypothesis Hj : m <= j < x - m.
Hypothesis HD : forall dy dx, 0 <= D dy dx.

Let F (u v : Z) : Z := im.[px x u v].
Lemma weight_nonneg dy dx : 0 <= weight D bp F i j dy dx.
Proof using Him Hbp HD.
  unfold weight. destruct ((dy =? 0) && (dx =? 0)); [lia |].
  pose proof (sim_range im bp x y Him Hbp i j (dy, dx)) as H. unfold sim_at in H. cbn [fst snd] in H.
  apply Z.mul_nonneg_nonneg; [apply HD | unfold F; lia].
Qed.

Lemma sim_centre : sim_at im bp x i j (0, 0) = 100.
Proof using Hbp.
  unfold sim_at. cbn [fst snd]. rewrite !Z.add_0_r, Z.sub_diag. change (258 + 0) with 258.
  now destruct Hbp as (_ & H & _).
Qed.

Let area := dsum m (fun dy dx => D dy dx * sim_at im bp x i j (dy, dx)).
Let total := dsum m (fun dy dx => D dy dx * sim_at im bp x i j (dy, dx) * F (i + dy) (j + dx)).

Lemma area_centre : area = dsum m (weight D bp F i j) + 100 * D 0 0.
Proof using Hbp Hm.
  unfold area. rewrite dsum_centre by lia. rewrite sim_centre.
  apply f_equal2; [reflexivity | lia].
Qed.

Lemma total_centre :
  total = dsum m (fun dy dx => weight D bp F i j dy dx * F (i + dy) (j + dx)) + 100 * D 0 0 * F i j.
Proof using Hbp Hm.
  unfold total. rewrite dsum_centre by lia. rewrite sim_centre, !Z.add_0_r. apply f_equal2; [| lia].
  apply dsum_ext. intros dy dx _ _. unfold weight.
  destruct ((dy =? 0) && (dx =? 0)); [lia | reflexivity].
Qed.

Lemma smooth_value_ok : total < 2 ^ 31 ->
  exists v, smooth_value im x i j (F i j) (100 * D 0 0) area total = Some v /\ is_u8 v /\
    smoothed m D bp F i j v.
Proof using Him Hbp Hm Hi Hj HD.
  intros Ht. unfold smooth_value. pose proof area_centre as EA. pose proof total_centre as ET.
  clearbody area total. subst area total.
  set (A := dsum m (weight D bp F i j)) in *.
  set (T := dsum m (fun dy dx => weight D bp F i j dy dx * F (i + dy) (j + dx))) in *.
  replace (A + 100 * D 0 0 - 100 * D 0 0) with A by lia.
  replace (T + 100 * D 0 0 * F i j - F i j * (100 * D 0 0)) with T by lia.
  assert (PA : 0 <= A) by (apply dsum_nonneg, weight_nonneg).
  assert (PF : forall u v, 0 <= F u v <= 255) by (intros; apply (pixel_u8 im x y Him)).
  assert (PT : 0 <= T)
    by (apply dsum_nonneg; intros; apply Z.mul_nonneg_nonneg; [apply weight_nonneg | apply PF]).
  assert (S : forall v, smoothed m D bp F i j v -> is_u8 v).
  { intros v Hv. enough (0 <= v <= 255) by (unfold is_u8; lia).
    apply (smoothed_between m D bp F i j v 0 255 Hm); auto using weight_nonneg. }
  assert (Es : forall v, smoothed m D bp F i j v = if A =? 0 then median_of (neighbours F i j) v else v = T / A)
    by reflexivity.
  destruct (Z.eqb_spec A 0) as [E | N].
  - destruct (median_sorted im i j x y Him) as (v & Ev & Uv & Mv); [lia | lia |].
    exists v. split; [exact Ev |]. split; [exact Uv |]. now rewrite Es.
  - assert (Sv : smoothed m D bp F i j (T / A)) by (now rewrite Es).
    pose proof (S _ Sv) as Uv. exists (T / A). split; [| auto].
    pose proof (PF i j). pose proof (HD 0 0).
    rewrite int_of_some by (unfold is_i32; nia). cbn [bind].
    rewrite int_div_some, Z.quot_div_nonneg by (rewrite ?Z.quot_div_nonneg by lia; unfold is_i32, is_u8 in *; lia).
    cbn [bind]. change (u8 (T / A)) with (zext 8 (T / A)). now rewrite zext_id by exact Uv.
Qed.
End Value.

(** ** The table of distances is right *)

Section Distances.
Context (exp : spec_float -> spec_float) {Hexp : ExpOk exp}.
Context (tm : positive) (te : Z).

(** [temp = -(dt*dt)], with a square that is a positive number. *)
Let temp : spec_float := S754_finite true tm te.

(** The entries as a function of the offset. *)
Definition dist_entry (dy dx : Z) : Z :=
  match distance_entry exp temp dy dx with Some v => v | None => 0 end.

Lemma distance_entry_ok dy dx : Z.abs dy <= 1000 -> Z.abs dx <= 1000 ->
  distance_entry exp temp dy dx = Some (dist_entry dy dx) /\ 0 <= dist_entry dy dx <= 100.
Proof using Hexp.
  intros Hy Hx. unfold dist_entry, distance_entry.
  assert (N : is_neg (to_f64 (f32_div (f32_of_Z (dy * dy + dx * dx)) temp)) = true).
  { destruct (Z.eq_dec (dy * dy + dx * dx) 0) as [-> | Nz]; [reflexivity |].
    destruct (f32_of_Z_small (dy * dy + dx * dx)) as (s & m & e & E); [nia | exact Nz |].
    assert (Es : s = false).
    { destruct (upto_of_Z 24 128 24 (dy * dy + dx * dx)) as [_ Hs]; [lia | lia | nia |].
      fold (f32_of_Z (dy * dy + dx * dx)) in Hs. rewrite E in Hs. cbn in Hs. rewrite Hs. nia. }
    subst s. rewrite E. apply to_f64_signed. exact (div_signed false m e true tm te). }
  destruct (scaled_exp exp _ N) as [Hu Hs]. destruct (trunc_100 _ Hu Hs) as (z & -> & Hz).
  cbn [bind]. rewrite int_of_some by (unfold is_i32; lia). cbn [bind].
  change (u8 z) with (zext 8 z). rewrite zext_id by (zpow_compute; lia). auto.
Qed.

Lemma dist_entry_nonneg dy dx : 0 <= dist_entry dy dx.
Proof using.
  unfold dist_entry, distance_entry.
  destruct (sf_trunc _) as [v|]; cbn [bind]; [| lia]. destruct (int_of v); cbn [bind]; [| lia].
  apply (u8_byte z).
Qed.

Lemma dist_entry_centre : dist_entry 0 0 = 100.
Proof using Hexp.
  unfold dist_entry, distance_entry. change (f32_of_Z (0 * 0 + 0 * 0)) with (S754_zero false).
  unfold temp, f32_div. cbn [SFdiv xorb]. unfold to_f64, sf_round. rewrite exp_zero. reflexivity.
Qed.

Lemma distance_lut_ok m dp : 0 <= m <= 1000 -> len dp = (2 * m + 1) * (2 * m + 1) ->
  exists dp', distance_lut exp temp m dp = Some dp' /\ len dp' = (2 * m + 1) * (2 * m + 1) /\
    forall dy dx, - m <= dy <= m -> - m <= dx <= m -> dist_at dp' m dy dx = dist_entry dy dx.
Proof using Hexp.
  intros Hm Hl. unfold distance_lut.
  set (n := 2 * m + 1) in *.
  set (inv := fun i j (s : Z * list Z) => fst s = px n (i + m) (j + m) /\ len (snd s) = n * n /\
    forall a c, - m <= a <= m -> - m <= c <= m -> passed i j a c = true ->
      (snd s).[px n (a + m) (c + m)] = dist_entry a c).
  destruct (for_opt_ind (fun i s => inv i (- m) s) (- m) (m + 1)
    (fun i => for_opt (- m) (m + 1) (distance_step exp temp i)) (0, dp)) as ([k dp'] & E & H); [lia | | |].
  - split; [unfold px; cbn [fst]; lia |]. split; [exact Hl |]. intros a c Ha Hc Hp. unfold passed in Hp. lia.
  - intros i s Hi Hs.
    destruct (for_opt_ind (fun j s => inv i j s) (- m) (m + 1) (distance_step exp temp i) s)
      as (s' & E & Hs'); [lia | exact Hs | |].
    + intros j [dpt d] Hj (Hp & Hd & Hk). cbn [fst snd] in *. unfold distance_step.
      destruct (distance_entry_ok i j ltac:(lia) ltac:(lia)) as [-> _]. cbn [bind].
      destruct (wr_cells n n d (i + m) (j + m) (dist_entry i j) Hd) as (d' & E & Hd' & Hown & Hoth);
        [lia | lia |].
      rewrite Hp, E. cbn [bind]. eexists; split; [reflexivity |]. unfold inv. cbn [fst snd].
      split; [unfold px; lia |]. split; [exact Hd' |]. intros a c Ha Hc Hpas.
      destruct (Z.eq_dec (px n (a + m) (c + m)) (px n (i + m) (j + m))) as [Ep | Np].
      * rewrite Ep, Hown. destruct (px_inj n (a + m) (c + m) (i + m) (j + m)); try lia.
        now replace a with i by lia; replace c with j by lia.
      * rewrite Hoth; [| apply (px_inside n n); lia | exact Np]. apply Hk; [exact Ha | exact Hc |].
        assert (~ (a = i /\ c = j)) by (intros [-> ->]; now apply Np). unfold passed in *. lia.
    + exists s'. split; [exact E |]. destruct Hs' as (Hp & Hd & Hk). split; [unfold px in *; lia |].
      split; [exact Hd |]. intros a c Ha Hc Hpas. apply Hk; [exact Ha | exact Hc |]. unfold passed in *. lia.
  - rewrite E. cbn [bind]. destruct H as (_ & Hd & Hk). cbn [snd] in *. exists dp'.
    split; [reflexivity |]. split; [exact Hd |]. intros dy dx Hy Hx.
    unfold dist_at. fold n. apply Hk; [exact Hy | exact Hx | unfold passed; lia].
Qed.
End Distances.

(** ** The pixel loops *)

(** A loop over the enlarged image whose body puts one value at the output
    pointer fills the image in order. *)
Lemma smooth_raster (m x y : Z) (f : Z -> Z -> list Z * Z -> option (list Z * Z)) (R : Z -> Z -> Z -> Prop) im :
  0 <= m -> image_ok x y im ->
  (forall i j out op, m <= i < y + m -> m <= j < x + m -> 0 <= op < len out ->
     exists v, f i j (out, op) = Some (aset out op v, op + 1) /\ is_u8 v /\ R i j v) ->
  exists out op, raster m (x + 2 * m) (y + 2 * m) f (im, 0) = Some (out, op) /\ image_ok x y out /\
    forall u v, 0 <= u < y -> 0 <= v < x -> R (u + m) (v + m) out.[px x u v].
Proof.
  intros Hm (Hx & Hy & Hxy & Hl & HU) Hf.
  destruct (raster_ind (fun i j s => snd s = px x (i - m) (j - m) /\ len (fst s) = x * y /\
      Forall is_u8 (fst s) /\
      forall u v, 0 <= u < y -> 0 <= v < x -> passed (i - m) (j - m) u v = true ->
        R (u + m) (v + m) (fst s).[px x u v]) m (x + 2 * m) (y + 2 * m) f (im, 0))
    as ([out op] & E & _ & Hl' & HU' & HR); [lia | lia | | | |].
  - cbn [fst snd]. split; [unfold px; lia |]. split; [exact Hl |]. split; [exact HU |].
    intros u v Hu Hv Hp. unfold passed in Hp. lia.
  - intros i j [out op] Hi Hj (Ho & Hlo & HUo & HR). cbn [fst snd] in *.
    pose proof (px_inside x y (i - m) (j - m) ltac:(lia) ltac:(lia)) as Hin.
    destruct (Hf i j out op) as (w & E & Uw & Rw); [lia | lia | lia |].
    exists (aset out op w, op + 1). split; [exact E |]. cbn [fst snd].
    split; [unfold px in *; lia |]. rewrite len_aset. split; [exact Hlo |].
    split; [now apply Forall_aset |]. intros u v Hu Hv Hp.
    pose proof (px_inside x y u v Hu Hv) as Huv. unfold len in Hlo. rewrite aget_aset by lia.
    destruct (Z.eqb_spec (px x u v) op) as [Ep | Np].
    + destruct (px_inj x u v (i - m) (j - m)); try lia.
      now replace (u + m) with i by lia; replace (v + m) with j by lia.
    + apply HR; [exact Hu | exact Hv |].
      assert (~ (u = i - m /\ v = j - m)) by (intros [-> ->]; now apply Np). unfold passed in *. lia.
  - intros i [out op] Hi (Ho & Hlo & HUo & HR). cbn [fst snd] in *.
    split; [unfold px in *; lia |]. split; [exact Hlo |]. split; [exact HUo |].
    intros u v Hu Hv Hp. apply HR; [exact Hu | exact Hv |]. unfold passed in *. lia.
  - exists out, op. split; [exact E |]. cbn [fst] in *. split; [repeat split; assumption |].
    intros u v Hu Hv. apply HR; [exact Hu | exact Hv | unfold passed; lia].
Qed.

Lemma aget_in (P : Z -> Prop) l i : (forall k, 0 <= k < len l -> P l.[k]) -> P 0 -> P l.[i].
Proof.
  intros H H0. destruct (Z.ltb_spec i 0) as [L | L].
  - unfold aget. replace (Z.to_nat i) with (Z.to_nat 0) by lia. destruct l as [|a t]; [exact H0 |].
    apply (H 0). unfold len. cbn [length]. lia.
  - destruct (Z.ltb_spec i (len l)); [apply H; lia |].
    unfold aget. rewrite nth_overflow by (unfold len in *; lia). exact H0.
Qed.

(** The entries of a table that is right at every offset are all bytes up to 100. *)
Lemma dist_at_range dp m E : 0 <= m -> len dp = (2 * m + 1) * (2 * m + 1) ->
  (forall dy dx, - m <= dy <= m -> - m <= dx <= m -> dist_at dp m dy dx = E dy dx /\ 0 <= E dy dx <= 100) ->
  forall dy dx, 0 <= dist_at dp m dy dx <= 100.
Proof.
  intros Hm Hl H dy dx. unfold dist_at.
  apply (aget_in (fun v => 0 <= v <= 100)); [| lia].
  intros k Hk. rewrite Hl in Hk.
  destruct (px_of (2 * m + 1) (2 * m + 1) k ltac:(lia) Hk) as (u & v & Hu & Hv & ->).
  destruct (H (u - m) (v - m) ltac:(lia) ltac:(lia)) as [E1 E2]. unfold dist_at in E1.
  replace (u - m + m) with u in E1 by lia. replace (v - m + m) with v in E1 by lia. unfold px. lia.
Qed.

Lemma dsum_const m c : 0 <= m -> dsum m (fun _ _ => c) = (2 * m + 1) * ((2 * m + 1) * c).
Proof.
  intros Hm. unfold dsum. rewrite (sum_range_ext _ _ _ (fun _ => (2 * m + 1) * c)).
  - rewrite sum_range_const by lia. f_equal. lia.
  - intros. rewrite sum_range_const by lia. f_equal. lia.
Qed.

Lemma enlarged_ok im tmp x y b : image_ok x y im -> 0 <= b -> (x + 2 * b) * (y + 2 * b) < 2 ^ 31 ->
  b <= x -> b <= y ->
  len tmp = (x + 2 * b) * (y + 2 * b) ->
  (forall u v, - b <= u < y + b -> - b <= v < x + b ->
     tmp.[px (x + 2 * b) (u + b) (v + b)] = mirrored im x y u v) ->
  image_ok (x + 2 * b) (y + 2 * b) tmp.
Proof.
  intros Him Hb Hs Hbx Hby Hl Hc. pose proof Him as (Hx & Hy & _).
  repeat split; try lia. apply (Forall_pixels _ (x + 2 * b) (y + 2 * b)); [lia | exact Hl |].
  intros u v Hu Hv. specialize (Hc (u - b) (v - b) ltac:(lia) ltac:(lia)).
  rewrite !Z.sub_add in Hc. rewrite Hc. unfold mirrored.
  pose proof (pixel_u8 im x y Him (px x (mirror y (u - b)) (mirror x (v - b)))). unfold is_u8. lia.
Qed.

(** ** The filter *)

(** What both variants of the filter leave at a pixel. *)
Definition smooth_result (m : Z) (D : Z -> Z -> Z) (im bp : list Z) (x y i j v : Z) : Prop :=
  smoothed m D bp (mirrored im x y) i j v /\
  forall lo hi, (forall dy dx, - m <= dy <= m -> - m <= dx <= m ->
    lo <= mirrored im x y (i + dy) (j + dx) <= hi) -> lo <= v <= hi.

Lemma smoothed_ext_weight m D D' bp f i j v :
  (forall dy dx, - m <= dy <= m -> - m <= dx <= m -> D dy dx = D' dy dx) ->
  smoothed m D bp f i j v -> smoothed m D' bp f i j v.
Proof.
  intros HD. unfold smoothed.
  assert (W : forall dy dx, - m <= dy <= m -> - m <= dx <= m -> weight D bp f i j dy dx = weight D' bp f i j dy dx)
    by (intros; unfold weight; rewrite HD by lia; reflexivity).
  rewrite (dsum_ext m (weight D bp f i j) _ W).
  rewrite (dsum_ext m (fun dy dx => weight D bp f i j dy dx * _)
             (fun dy dx => weight D' bp f i j dy dx * f (i + dy) (j + dx))) by (intros; now rewrite W by lia).
  trivial.
Qed.

(** From the enlarged image to the mirrored one. *)
Lemma smooth_result_of m D im tmp bp x y i j v : 1 <= m -> image_ok x y im -> lut_ok bp ->
  image_ok (x + 2 * m) (y + 2 * m) tmp -> (forall dy dx, 0 <= D dy dx) -> 0 <= i < y -> 0 <= j < x ->
  (forall u v, - m <= u < y + m -> - m <= v < x + m ->
     tmp.[px (x + 2 * m) (u + m) (v + m)] = mirrored im x y u v) ->
  smoothed m D bp (fun u v => tmp.[px (x + 2 * m) u v]) (i + m) (j + m) v ->
  smooth_result m D im bp x y i j v.
Proof.
  intros Hm Him Hbp Htmp HD Hi Hj Hc Hv.
  assert (E : forall dy dx, - m <= dy <= m -> - m <= dx <= m ->
    tmp.[px (x + 2 * m) (i + m + dy) (j + m + dx)] = mirrored im x y (i + dy) (j + dx)).
  { intros dy dx Hy Hx. rewrite <- Hc by lia. do 2 f_equal; lia. }
  split.
  - apply (smoothed_shift m D bp (fun u v => tmp.[px (x + 2 * m) u v]) _ i j m); assumption.
  - intros lo hi Hb.
    apply (smoothed_between m D bp (fun u v => tmp.[px (x + 2 * m) u v]) (i + m) (j + m) v lo hi Hm);
      [| intros dy dx Hy Hx; rewrite E by assumption; now apply Hb | exact Hv].
    intros dy dx. apply (weight_nonneg tmp bp (x + 2 * m) (y + 2 * m) (i + m) (j + m) D Htmp Hbp HD).
Qed.

(** ** The 3x3 mask *)

Lemma dsum_1 f : dsum 1 f =
  zsum [f (-1) (-1); f (-1) 0; f (-1) 1; f 0 (-1); f 0 0; f 0 1; f 1 (-1); f 1 0; f 1 1].
Proof.
  unfold dsum, sum_range, for_range. change (Z.to_nat (1 + 1 - - (1))) with 3%nat.
  cbn [for_loop zsum fold_right]. change (- (1)) with (-1). change (-1 + 1) with 0. change (0 + 1) with 1. lia.
Qed.

Lemma square3_reads x i j :
  reads (square3 x) ((i - 1) * x + j - 1) = map (fun d => (tt, px x (i + fst d) (j + snd d))) (grid 1).
Proof.
  change (grid 1) with [(-1,-1); (-1,0); (-1,1); (0,-1); (0,0); (0,1); (1,-1); (1,0); (1,1)]. reads_tac.
Qed.

Lemma smooth3_sums im bp x y i j : image_ok x y im -> lut_ok bp -> 1 <= i < y - 1 -> 1 <= j < x - 1 ->
  exists p, walk (rd im) (smooth3_read bp im.[px x i j]) (square3 x) ((i - 1) * x + j - 1) (Some (0, 0))
  = Some (p, Some (dsum 1 (fun dy dx => 1 * sim_at im bp x i j (dy, dx)),
                   dsum 1 (fun dy dx => 1 * sim_at im bp x i j (dy, dx) * im.[px x (i + dy) (j + dx)]))).
Proof.
  intros Him Hbp Hi Hj. eexists. rewrite (walk_ok _ _ (fun p => im.[p])).
  - rewrite square3_reads. do 2 f_equal. unfold act_all, smooth3_read.
    change (grid 1) with [(-1,-1); (-1,0); (-1,1); (0,-1); (0,0); (0,1); (1,-1); (1,0); (1,1)].
    cbn [map fold_left fst snd bind]. rewrite !(lut_pixel im bp x y Him Hbp). cbn [bind].
    rewrite !dsum_1. unfold sim_at. cbn [fst snd zsum fold_right]. f_equal. f_equal; lia.
  - intros w q Hq. rewrite square3_reads in Hq. apply in_map_iff in Hq as (d & E & Hd). inversion E; subst.
    assert (W : within 1 (grid 1)) by (apply within_check; reflexivity).
    pose proof (proj1 (Forall_forall _ _) W d Hd) as H. cbv beta in H. apply (rd_pixel im x y Him); lia.
Qed.

Section Filter.
Context (exp : spec_float -> spec_float) {Hexp : ExpOk exp}.
Context (malloc : Z -> option (list Z)) (im bp : list Z) (x y : Z).
Hypothesis Hmalloc : allocates malloc.
Hypothesis Him : image_ok x y im.
Hypothesis Hbp : lut_ok bp.

(** The sums of the loops fit an [int] when the entries of the table of distances
    sum up to at most [weight_limit]. *)
Definition weight_limit : Z := 84215.

Lemma small_mask_weights m tm te : 0 <= m <= 14 -> dsum m (dist_entry exp tm te) <= weight_limit.
Proof using Hexp.
  intros Hm. unfold weight_limit. etransitivity; [apply (dsum_le m _ (fun _ _ => 100)) |].
  - intros dy dx Hy Hx. apply distance_entry_ok; [exact Hexp | lia | lia].
  - rewrite dsum_const by lia. nia.
Qed.

Lemma smoothing_ok dt m tm te :
  f32_mul dt dt = S754_finite false tm te -> SFltb (f32_of_Z 15) dt = false ->
  mask_size_of dt = Some m -> 1 <= m <= 1000 -> dsum m (dist_entry exp tm te) <= weight_limit ->
  2 * m + 1 <= x -> 2 * m + 1 <= y -> (x + 2 * m) * (y + 2 * m) < 2 ^ 31 ->
  exists out, susan_smoothing exp malloc 0 im dt x y bp = Ret out /\ image_ok x y out /\
    forall i j, 0 <= i < y -> 0 <= j < x ->
      smooth_result m (dist_entry exp tm te) im bp x y i j out.[px x i j].
Proof using Hexp Hmalloc Him Hbp.
  intros Hdt H15 Hmask Hm Hw Hmx Hmy Hsize. unfold susan_smoothing.
  change (0 =? 0) with true. cbv iota. rewrite Hmask. cbn [lift rbind]. rewrite H15.
  rewrite !Z.gtb_ltb, !(proj2 (Z.ltb_ge _ _)) by lia. cbn [orb].
  replace (m * 2) with (2 * m) by lia. rewrite int_of_some by (unfold is_i32; nia). cbn [lift rbind].
  destruct (Hmalloc ((x + 2 * m) * (y + 2 * m))) as (blk & -> & Hblk); [nia |]. cbn [lift rbind].
  destruct (enlarge_mirrors im x y m Him ltac:(lia) blk Hblk) as (tmp & -> & Hl & Hc). cbn [lift rbind].
  pose proof (enlarged_ok im tmp x y m Him ltac:(lia) Hsize ltac:(lia) ltac:(lia) Hl Hc) as Htmp.
  rewrite Hdt. cbn [SFopp negb].
  destruct (Hmalloc ((2 * m + 1) * (2 * m + 1))) as (blk2 & -> & Hblk2); [nia |]. cbn [lift rbind].
  destruct (distance_lut_ok exp tm te m blk2 ltac:(lia) Hblk2) as (dp & -> & Hdl & Hdp). cbn [lift rbind].
  assert (HD : forall dy dx, 0 <= dist_at dp m dy dx <= 100).
  { apply (dist_at_range dp m (dist_entry exp tm te)); [lia | exact Hdl |].
    intros dy dx Hy Hx. rewrite Hdp by assumption. split; [reflexivity |].
    apply distance_entry_ok; [exact Hexp | lia | lia]. }
  assert (HS : dsum m (dist_at dp m) <= 84215) by (rewrite (dsum_ext m _ _ Hdp); exact Hw).
  destruct (smooth_raster m x y (smooth_pixel tmp dp bp m (x + 2 * m))
    (fun i j v => smoothed m (dist_at dp m) bp (fun u v => tmp.[px (x + 2 * m) u v]) i j v) im)
    as (out & op & -> & Hout & HR); [lia | exact Him | |].
  - intros i j out op Hi Hj Hop. unfold smooth_pixel.
    rewrite (rd_pixel tmp (x + 2 * m) (y + 2 * m) Htmp) by lia. cbn [bind].
    rewrite (smooth_window_ok tmp dp bp m (x + 2 * m) (y + 2 * m) i j) by (try assumption; lia).
    cbn [bind].
    destruct (smooth_value_ok tmp bp m (x + 2 * m) (y + 2 * m) i j (dist_at dp m)) as (v & E & Uv & Sv);
      try assumption; try lia; [intros; apply HD | |].
    + pose proof (g_sum tmp dp bp m (x + 2 * m) (y + 2 * m) i j Htmp Hbp HD HS). lia.
    + assert (C : dist_at dp m 0 0 = 100) by (rewrite Hdp by lia; apply dist_entry_centre; exact Hexp).
      rewrite C in E. change (100 * 100) with 10000 in E.
      rewrite E. cbn [bind]. rewrite wr_some by lia. cbn [bind]. eauto.
  - cbn [lift rbind]. exists out. split; [reflexivity |]. split; [exact Hout |]. intros i j Hi Hj.
    apply (smooth_result_of m (dist_entry exp tm te) im tmp bp x y i j); try assumption; try lia;
      [intros; apply dist_entry_nonneg |].
    apply (smoothed_ext_weight m (dist_at dp m)); [exact Hdp | now apply HR].
Qed.

(** The 3x3 variant: every pixel becomes the mean of its eight
    neighbours weighted by their similarity alone, or their median. *)
Lemma susan_smoothing_3x3 three_by_three dt :
  three_by_three <> 0 -> SFltb (f32_of_Z 15) dt = false -> 3 <= x -> 3 <= y ->
  (x + 2) * (y + 2) < 2 ^ 31 ->
  exists out, susan_smoothing exp malloc three_by_three im dt x y bp = Ret out /\ image_ok x y out /\
    forall i j, 0 <= i < y -> 0 <= j < x ->
      smooth_result 1 (fun _ _ => 1) im bp x y i j out.[px x i j].
Proof using Hmalloc Him Hbp.
  intros H3 H15 Hx Hy Hsize. unfold susan_smoothing.
  rewrite (proj2 (Z.eqb_neq _ _) H3). cbn [lift rbind]. rewrite H15.
  rewrite !Z.gtb_ltb, !(proj2 (Z.ltb_ge _ _)) by lia. cbn [orb].
  replace (1 * 2) with (2 * 1) by lia. rewrite int_of_some by (unfold is_i32; nia). cbn [lift rbind].
  destruct (Hmalloc ((x + 2 * 1) * (y + 2 * 1))) as (blk & -> & Hblk); [nia |]. cbn [lift rbind].
  destruct (enlarge_mirrors im x y 1 Him ltac:(lia) blk Hblk) as (tmp & -> & Hl & Hc). cbn [lift rbind].
  pose proof (enlarged_ok im tmp x y 1 Him ltac:(lia) Hsize ltac:(lia) ltac:(lia) Hl Hc) as Htmp.
  destruct (smooth_raster 1 x y (smooth3_pixel tmp bp (x + 2 * 1))
    (fun i j v => smoothed 1 (fun _ _ => 1) bp (fun u v => tmp.[px (x + 2 * 1) u v]) i j v) im)
    as (out & op & -> & Hout & HR); [lia | exact Him | |].
  - intros i j out op Hi Hj Hop. unfold smooth3_pixel.
    rewrite (rd_pixel tmp (x + 2 * 1) (y + 2 * 1) Htmp) by lia. cbn [bind].
    destruct (smooth3_sums tmp bp (x + 2 * 1) (y + 2 * 1) i j Htmp Hbp) as (p & ->); [lia | lia |].
    cbn [bind].
    destruct (smooth_value_ok tmp bp 1 (x + 2 * 1) (y + 2 * 1) i j (fun _ _ => 1)) as (v & E & Uv & Sv);
      try assumption; try lia.
    + rewrite dsum_1. cbn [zsum fold_right].
      assert (B : forall d p, 0 <= sim_at tmp bp (x + 2 * 1) i j d * tmp.[p] <= 25500).
      { intros d q. pose proof (sim_range tmp bp (x + 2 * 1) (y + 2 * 1) Htmp Hbp i j d).
        pose proof (pixel_u8 tmp (x + 2 * 1) (y + 2 * 1) Htmp q). nia. }
      rewrite !Z.mul_1_l.
      repeat match goal with |- context [sim_at ?a ?b ?c ?d ?e ?f * tmp.[?p]] =>
        let H := fresh in pose proof (B f p) as H; revert H; generalize (sim_at a b c d e f * tmp.[p]) end.
      intros; lia.
    + change (100 * 1) with 100 in E. rewrite E. cbn [bind]. rewrite wr_some by lia. cbn [bind]. eauto.
  - cbn [lift rbind]. exists out. split; [reflexivity |]. split; [exact Hout |]. intros i j Hi Hj.
    apply (smooth_result_of 1 (fun _ _ => 1) im tmp bp x y i j); try assumption; try lia. now apply HR.
Qed.

(** The mask of a run: 3x3 with equal weights for the option [-3], otherwise the
    square that the distance threshold asks for, with its table of distances. *)
Definition mask_fits (three_by_three : Z) (dt : spec_float) (m : Z) (D : Z -> Z -> Z) : Prop :=
  three_by_three <> 0 /\ m = 1 /\ D = (fun _ _ => 1) \/
  three_by_three = 0 /\ exists tm te, f32_mul dt dt = S754_finite false tm te /\ mask_size_of dt = Some m /\
    D = dist_entry exp tm te /\ 1 <= m <= 1000 /\ (m <= 14 \/ dsum m D <= weight_limit).

Lemma smoothing_fits_ok three_by_three dt m D :
  SFltb (f32_of_Z 15) dt = false -> mask_fits three_by_three dt m D ->
  2 * m + 1 <= x -> 2 * m + 1 <= y -> (x + 2 * m) * (y + 2 * m) < 2 ^ 31 ->
  exists out, susan_smoothing exp malloc three_by_three im dt x y bp = Ret out /\ image_ok x y out /\
    forall i j, 0 <= i < y -> 0 <= j < x -> smooth_result m D im bp x y i j out.[px x i j].
Proof using Hexp Hmalloc Him Hbp.
  intros H15 [(H3 & -> & ->) | (-> & tm & te & Hd & Hm & -> & H1 & Hw)] Hx Hy Hs.
  - now apply susan_smoothing_3x3.
  - apply (smoothing_ok dt m tm te); try assumption. destruct Hw as [Hw | Hw]; [apply small_mask_weights; lia | exact Hw].
Qed.

(** C10. The smoothing filter, with the 3x3 mask or with the mask of any distance
    threshold up to 15 that is not zero and whose table of distances sums up to at
    most 84215 (as it does for every mask of up to 29x29 pixels, whatever [exp]
    computes), on an image that holds the mask, when [malloc] succeeds: it has no
    undefined behaviour, no sum overflows, and every pixel becomes the mean of its
    neighbours weighted by distance (alike for 3x3) and similarity, or their median
    where no neighbour is similar.  The image is continued by reflection at its
    sides, and the new brightness never leaves the range of the window. *)
Theorem susan_smoothing_correct three_by_three dt m D :
  SFltb (f32_of_Z 15) dt = false -> mask_fits three_by_three dt m D ->
  2 * m + 1 <= x -> 2 * m + 1 <= y -> (x + 2 * m) * (y + 2 * m) < 2 ^ 31 ->
  exists out, susan_smoothing exp malloc three_by_three im dt x y bp = Ret out /\ image_ok x y out /\
    forall i j, 0 <= i < y -> 0 <= j < x -> smooth_result m D im bp x y i j out.[px x i j].
Proof using Hexp Hmalloc Him Hbp. apply smoothing_fits_ok. Qed.

(** A distance threshold of zero (the option [-d 0], or [-d] followed by
    a word that is not a number) divides zero by zero at the centre of the
    table of distances, and the result is converted to an integer: the
    behaviour is undefined for every image of at least 3x3 pixels. *)
Theorem susan_smoothing_zero_distance s : 3 <= x -> 3 <= y ->
  susan_smoothing exp malloc 0 im (S754_zero s) x y bp = Undef.
Proof using Hexp Him.
  intros Hx Hy. unfold susan_smoothing. change (0 =? 0) with true. cbv iota.
  change (mask_size_of (S754_zero s)) with (Some 1). cbn [lift rbind].
  replace (SFltb (f32_of_Z 15) (S754_zero s)) with false by reflexivity.
  rewrite !Z.gtb_ltb, !(proj2 (Z.ltb_ge _ _)) by lia. cbn [orb].
  destruct (int_of _); [| reflexivity]. cbn [lift rbind].
  destruct (malloc z) as [tmp|]; [| reflexivity]. cbn [lift rbind].
  destruct (enlarge im tmp x y 1) as [[[im' x'] y']|]; [| reflexivity]. cbn [lift rbind].
  destruct (malloc _) as [dp0|]; [| reflexivity]. cbn [lift rbind].
  replace (distance_lut exp (SFopp (f32_mul (S754_zero s) (S754_zero s))) 1 dp0) with (@None (list Z));
    [reflexivity |].
  symmetry. unfold distance_lut. rewrite (for_opt_none _ 0); [reflexivity | lia |].
  intros b. apply (for_opt_none _ 0); [lia |]. intros [dpt dp]. unfold distance_step, distance_entry.
  change (f32_of_Z (0 * 0 + 0 * 0)) with (S754_zero false).
  unfold f32_mul, f32_div. cbn [SFmul SFopp SFdiv to_f64 sf_round]. unfold to_f64, sf_round.
  rewrite exp_nan. reflexivity.
Qed.
End Filter.

(** ** Witnesses *)

(** Memory cleared by [malloc], and an [exp] that never decays. *)
Definition cleared (n : Z) : option (list Z) := Some (zeros n).

Lemma cleared_ok : allocates cleared.
Proof. intros n Hn. exists (zeros n). split; [reflexivity | now apply zeros_len]. Qed.

Definition flat_exp (f : spec_float) : spec_float :=
  match f with S754_nan => S754_nan | _ => f64_of_Z 1 end.

#[export] Instance flat_exp_ok : ExpOk flat_exp.
Proof.
  split; [reflexivity | | reflexivity].
  intros [s|s| |s m e] H; cbn in *; try discriminate; split; try reflexivity; vm_compute; discriminate.
Qed.

(** A 5x5 mask of equal weights, and the 3x3 mask: in both runs the pixel has
    similar neighbours and becomes their weighted mean. *)
Lemma susan_smoothing_correct_witness :
  (exists out, susan_smoothing flat_exp cleared 0 (ramp 6 5) (f32_of_Z 1) 6 5 step_lut = Ret out /\
     out.[px 6 2 2] = 23 /\ 0 < dsum 2 (weight (fun _ _ => 100) step_lut (mirrored (ramp 6 5) 6 5) 2 2)) /\
  (exists out, susan_smoothing step_exp cleared 1 (ramp 4 3) (f32_of_Z 4) 4 3 step_lut = Ret out /\ image_ok 4 3 out).
Proof.
  split.
  - destruct (susan_smoothing_correct flat_exp cleared (ramp 6 5) step_lut 6 5 cleared_ok
      (ramp_ok 6 5 ltac:(lia) ltac:(lia) ltac:(lia)) step_lut_ok 0 (f32_of_Z 1) 2 (dist_entry flat_exp 8388608 (-23)))
      as (out & E & _ & H); try reflexivity; try lia.
    + right. split; [reflexivity |]. exists 8388608%positive, (-23). repeat split; try reflexivity; try lia.
    + exists out. split; [exact E |]. destruct (H 2 2 ltac:(lia) ltac:(lia)) as [H' _].
      revert H'. generalize (out.[px 6 2 2]). intros v H'. vm_compute in H'.
      split; [exact H' |]. vm_compute. reflexivity.
  - destruct (susan_smoothing_correct step_exp cleared (ramp 4 3) step_lut 4 3 cleared_ok
      (ramp_ok 4 3 ltac:(lia) ltac:(lia) ltac:(lia)) step_lut_ok 1 (f32_of_Z 4) 1 (fun _ _ => 1))
      as (out & E & Hout & _); try reflexivity; try lia.
    + left. split; [lia |]. split; reflexivity.
    + exists out. split; [exact E | exact Hout].
Defined.

Lemma susan_smoothing_zero_distance_witness :
  susan_smoothing step_exp cleared 0 (ramp 4 3) (S754_zero false) 4 3 step_lut = Undef.
Proof.
  apply (susan_smoothing_zero_distance step_exp cleared (ramp 4 3) step_lut 4 3
    (ramp_ok 4 3 ltac:(lia) ltac:(lia) ltac:(lia)) false); lia.
Defined.
