(* ===== verification/SusanEdges.v ===== *)
(** * SUSAN: edges

    Models [susan_edges], [susan_edges_small] and [edge_draw] of
    [automotive/susan/susan.c].  The response of every pixel is computed as in
    [susan_principle]; a pixel with a response is then an edge point if the
    response is a maximum across the edge, whose direction comes from the first
    moments of the USAN (label 1) or, where they are small, from the second
    moments (label 2). *)

From Stdlib Require Import ZArith Lia List Bool.
From Stdlib Require Import SpecFloat.
From S2P Require Import Prelude SusanImage SusanPrinciple SusanFloat.
Import ListNotations.

(** ** The weights of the moments

    What the source adds to [x] and [y] at each read of the mask, and to [x],
    [y] and [w] in the second pass. *)

Definition moments_circle : list (list (Z * Z)) :=
  [[(-1,-3);(0,-3);(1,-3)]; [(-2,-2);(-1,-2);(0,-2);(1,-2);(2,-2)];
   [(-3,-1);(-2,-1);(-1,-1);(0,-1);(1,-1);(2,-1);(3,-1)];
   [(-3,0);(-2,0);(-1,0)]; [(1,0);(2,0);(3,0)];
   [(-3,1);(-2,1);(-1,1);(0,1);(1,1);(2,1);(3,1)];
   [(-2,2);(-1,2);(0,2);(1,2);(2,2)]; [(-1,3);(0,3);(1,3)]].

Definition symmetry_circle : list (list (Z * Z * Z)) :=
  [[(1,9,3);(0,9,0);(1,9,-3)]; [(4,4,4);(1,4,2);(0,4,0);(1,4,-2);(4,4,-4)];
   [(9,1,3);(4,1,2);(1,1,1);(0,1,0);(1,1,-1);(4,1,-2);(9,1,-3)];
   [(9,0,0);(4,0,0);(1,0,0)]; [(1,0,0);(4,0,0);(9,0,0)];
   [(9,1,-3);(4,1,-2);(1,1,-1);(0,1,0);(1,1,1);(4,1,2);(9,1,3)];
   [(4,4,-4);(1,4,-2);(0,4,0);(1,4,2);(4,4,4)]; [(1,9,-3);(0,9,0);(1,9,3)]].

Definition moments_square : list (list (Z * Z)) :=
  [[(-1,-1);(0,-1);(1,-1)]; [(-1,0)]; [(1,0)]; [(-1,1);(0,1);(1,1)]].

Definition symmetry_square : list (list (Z * Z * Z)) :=
  [[(1,1,1);(0,1,0);(1,1,-1)]; [(1,0,0)]; [(1,0,0)]; [(1,1,-1);(0,1,0);(1,1,1)]].

Definition add_moment (w : Z * Z) (c : Z) (s : Z * Z) : Z * Z :=
  (fst s + fst w * c, snd s + snd w * c).

Definition add_symmetry (w : Z * Z * Z) (c : Z) (s : Z * Z * Z) : Z * Z * Z :=
  let '(wx, wy, ww) := w in let '(x, y, v) := s in (x + wx * c, y + wy * c, v + ww * c).

(** ** Directions *)

(** The constants 0.5, 2.0, 0.9 and 0.4 of type [double], and 1000000.0. *)
Definition f_half : spec_float := S754_finite false 4503599627370496 (-53).
Definition f_two : spec_float := S754_finite false 4503599627370496 (-51).
Definition f_0_9 : spec_float := S754_finite false 8106479329266893 (-53).
Definition f_0_4 : spec_float := S754_finite false 7205759403792794 (-54).
Definition f_million : spec_float := f32_of_Z 1000000.

(** [z = sqrt((float)((x*x)+(y*y))); z > (c*(float)n)] *)
Definition strong (c : spec_float) (x y n : Z) : bool :=
  let z := to_f32 (f64_sqrt (to_f64 (f32_of_Z (x * x + y * y)))) in
  SFltb (f64_mul c (to_f64 (f32_of_Z n))) (to_f64 z).

(** The step [(a, b)] across the edge, from the slope [z] and the sign [w]. *)
Definition across (z : spec_float) (diagonal : Z * Z) : Z * Z :=
  if SFltb (to_f64 z) f_half then (0, 1)
  else if SFltb f_two (to_f64 z) then (1, 0)
  else diagonal.

Definition gradient_direction (x y : Z) : Z * Z :=
  let z := if x =? 0 then f_million else f32_div (f32_of_Z y) (f32_of_Z x) in
  let '(z, w) := if SFltb z (f32_of_Z 0) then (SFopp z, -1) else (z, 1) in
  across z (if w >? 0 then (1, 1) else (-1, 1)).

Definition symmetry_direction (x y w : Z) : Z * Z :=
  let z := if y =? 0 then f_million else f32_div (f32_of_Z x) (f32_of_Z y) in
  across z (if w >? 0 then (-1, 1) else (1, 1)).

(** ** Suppression of points that are not maxima

    The conjunction of comparisons of [m] with entries of [r], in order; [true]
    for [>] and [false] for [>=]. *)

Fixpoint peak (r : list Z) (m : Z) (tests : list (bool * Z)) : option bool :=
  match tests with
  | [] => Some true
  | (strict, k) :: rest =>
      let* v := rd r k in
      if (if strict then m >? v else m >=? v) then peak r m rest else Some false
  end.

Definition tests4 (x_size i j a b : Z) : list (bool * Z) :=
  [(true, (i + a) * x_size + j + b); (false, (i - a) * x_size + j - b);
   (true, (i + 2 * a) * x_size + j + 2 * b); (false, (i - 2 * a) * x_size + j - 2 * b)].

Definition tests2 (x_size i j a b : Z) : list (bool * Z) :=
  [(true, (i + a) * x_size + j + b); (false, (i - a) * x_size + j - b)].

(** ** The second pixel loop *)

(** What the two functions have in common, with what differs as arguments: the
    masks, the start of the walk, the bound on [n], the factor and the tests. *)
Definition edge_pixel (moments : list (list (Z * Z) * Z)) (symmetry : list (list (Z * Z * Z) * Z))
    (start : Z -> Z -> Z) (n_min : Z) (factor : spec_float) (tests : Z -> Z -> Z -> Z -> list (bool * Z))
    (im r bp : list Z) (max_no x_size i j : Z) (mid : list Z) : option (list Z) :=
  let* m := rd r (px x_size i j) in
  if m >? 0 then
    let n := max_no - m in
    let* centre := rd im (px x_size i j) in
    let* (mid, do_symmetry) :=
      if n >? n_min then
        let* (_, (x, y)) := walk (similar im bp centre) add_moment moments (start i j) (0, 0) in
        if strong factor x y n then
          let (a, b) := gradient_direction x y in
          let* max := peak r m (tests i j a b) in
          if max : bool then let* mid := wr mid (px x_size i j) 1 in Some (mid, false)
          else Some (mid, false)
        else Some (mid, true)
      else Some (mid, true) in
    if do_symmetry : bool then
      let* (_, (x, y, w)) := walk (similar im bp centre) add_symmetry symmetry (start i j) (0, 0, 0) in
      let (a, b) := symmetry_direction x y w in
      let* max := peak r m (tests i j a b) in
      if max : bool then wr mid (px x_size i j) 2 else Some mid
    else Some mid
  else Some mid.

Definition susan_edges (im r mid bp : list Z) (max_no x_size y_size : Z) : option (list Z * list Z) :=
  let* r := memset r 0 (x_size * y_size) in
  let start := fun i j => (i - 3) * x_size + j - 1 in
  let* r := raster 3 x_size y_size
    (principle_pixel (circle usan_circle x_size) start im bp max_no x_size) r in
  let* mid := raster 4 x_size y_size
    (edge_pixel (circle moments_circle x_size) (circle symmetry_circle x_size) start 600 f_0_9
       (tests4 x_size) im r bp max_no x_size) mid in
  Some (r, mid).

(** The argument [max_no] is overwritten. *)
Definition susan_edges_small (im r mid bp : list Z) (max_no x_size y_size : Z) : option (list Z * list Z) :=
  let* r := memset r 0 (x_size * y_size) in
  let max_no := 730 in
  let start := fun i j => (i - 1) * x_size + j - 1 in
  let* r := raster 1 x_size y_size
    (principle_pixel (square usan_square x_size) start im bp max_no x_size) r in
  let* mid := raster 2 x_size y_size
    (edge_pixel (square moments_square x_size) (square symmetry_square x_size) start 250 f_0_4
       (tests2 x_size) im r bp max_no x_size) mid in
  Some (r, mid).

(** ** Drawing *)

(** The 3x3 block of white pixels of [edge_draw] and [corner_draw], with what is
    written in the middle: nothing for an edge point. *)
Definition mark_block (x_size p : Z) (middle : option Z) (im : list Z) : option (list Z) :=
  let* im := wr im p 255 in
  let* im := wr im (p + 1) 255 in
  let* im := wr im (p + 2) 255 in
  let p := p + 2 + (x_size - 2) in
  let* im := wr im p 255 in
  let* im := match middle with Some c => wr im (p + 1) c | None => Some im end in
  let* im := wr im (p + 2) 255 in
  let p := p + 2 + (x_size - 2) in
  let* im := wr im p 255 in
  let* im := wr im (p + 1) 255 in
  wr im (p + 2) 255.

Definition edge_white (mid : list Z) (x_size i : Z) (im : list Z) : option (list Z) :=
  let* v := rd mid i in
  if v <? 8 then mark_block x_size (i - x_size - 1) None im else Some im.

Definition edge_black (mid : list Z) (i : Z) (im : list Z) : option (list Z) :=
  let* v := rd mid i in
  if v <? 8 then wr im i 0 else Some im.

Definition edge_draw (im mid : list Z) (x_size y_size drawing_mode : Z) : option (list Z) :=
  let* im := if drawing_mode =? 0 then for_opt 0 (x_size * y_size) (edge_white mid x_size) im
             else Some im in
  for_opt 0 (x_size * y_size) (edge_black mid) im.

(** ** Specification *)

(** A moment of the USAN: the similarities under the mask, weighted by a
    function of the offset (row, column). *)
Definition moment (w : Z * Z -> Z) (mask : list (Z * Z)) (im bp : list Z) (x i j : Z) : Z :=
  zsum (map (fun d => w d * sim_at im bp x i j d) mask).

(** [R i j] against its neighbours at the given multiples of [(a, b)], strictly
    or not. *)
Definition maximum_across (steps : list (bool * Z)) (R : Z -> Z -> Z) (i j a b : Z) : bool :=
  forallb (fun t : bool * Z => let (strict, k) := t in
             if strict then R i j >? R (i + k * a) (j + k * b) else R i j >=? R (i + k * a) (j + k * b))
    steps.

(** The label of a pixel: 0 for no edge point. *)
Definition edge_label (mask : list (Z * Z)) (n_min : Z) (factor : spec_float) (steps : list (bool * Z))
    (max_no : Z) (im bp : list Z) (R : Z -> Z -> Z) (x i j : Z) : Z :=
  if R i j >? 0 then
    let n := max_no - R i j in
    let gx := moment snd mask im bp x i j in
    let gy := moment fst mask im bp x i j in
    if (n >? n_min) && strong factor gx gy n then
      let (a, b) := gradient_direction gx gy in
      if maximum_across steps R i j a b then 1 else 0
    else
      let (a, b) := symmetry_direction (moment (fun d => snd d * snd d) mask im bp x i j)
                      (moment (fun d => fst d * fst d) mask im bp x i j)
                      (moment (fun d => fst d * snd d) mask im bp x i j) in
      if maximum_across steps R i j a b then 2 else 0
  else 0.

Definition steps4 : list (bool * Z) := [(true, 1); (false, -1); (true, 2); (false, -2)].
Definition steps2 : list (bool * Z) := [(true, 1); (false, -1)].

(** ** The weights of the source are the moments *)

Lemma moments_circle_weights : moments_circle = map (map (fun d => (snd d, fst d))) circle_runs.
Proof. reflexivity. Qed.

Lemma symmetry_circle_weights :
  symmetry_circle = map (map (fun d => (snd d * snd d, fst d * fst d, fst d * snd d))) circle_runs.
Proof. reflexivity. Qed.

Lemma moments_square_weights : moments_square = map (map (fun d => (snd d, fst d))) square_runs.
Proof. reflexivity. Qed.

Lemma symmetry_square_weights :
  symmetry_square = map (map (fun d => (snd d * snd d, fst d * fst d, fst d * snd d))) square_runs.
Proof. reflexivity. Qed.

Lemma fold_moments (s : Z * Z -> Z) mask x y :
  fold_left (fun a d => add_moment (snd d, fst d) (s d) a) mask (x, y)
  = (x + zsum (map (fun d => snd d * s d) mask), y + zsum (map (fun d => fst d * s d) mask)).
Proof.
  revert x y. induction mask as [|d m IH]; intros x y; cbn [fold_left map zsum fold_right]; [f_equal; lia |].
  unfold add_moment at 2. cbn [fst snd]. rewrite IH. unfold zsum. f_equal; lia.
Qed.

Lemma fold_symmetry (s : Z * Z -> Z) mask x y w :
  fold_left (fun a d => add_symmetry (snd d * snd d, fst d * fst d, fst d * snd d) (s d) a) mask (x, y, w)
  = (x + zsum (map (fun d => snd d * snd d * s d) mask), y + zsum (map (fun d => fst d * fst d * s d) mask),
     w + zsum (map (fun d => fst d * snd d * s d) mask)).
Proof.
  revert x y w. induction mask as [|d m IH]; intros x y w; cbn [fold_left map zsum fold_right];
    [tuple_eq |].
  unfold add_symmetry at 2. rewrite IH. unfold zsum. tuple_eq.
Qed.

(** ** The loops *)

Lemma peak_ok r m tests : Forall (fun t => 0 <= snd t < len r) tests ->
  peak r m tests = Some (forallb (fun t : bool * Z => let (strict, k) := t in
                           if strict then m >? r.[k] else m >=? r.[k]) tests).
Proof.
  induction 1 as [|[strict k] t Hk Ht IH]; [reflexivity |]. cbn [peak forallb snd] in *.
  rewrite rd_some by exact Hk. cbn [bind]. now destruct (if strict then _ else _).
Qed.

Lemma direction_steps (P : Z -> Z -> Prop) z diag :
  P 0 1 -> P 1 0 -> P (fst diag) (snd diag) -> P (fst (across z diag)) (snd (across z diag)).
Proof. intros. unfold across. destruct (SFltb (to_f64 z) f_half), (SFltb f_two (to_f64 z)); auto. Qed.

(** A direction is one of the eight neighbours. *)
Definition unit_step (d : Z * Z) : Prop := -1 <= fst d <= 1 /\ -1 <= snd d <= 1.

Lemma gradient_unit x y : unit_step (gradient_direction x y).
Proof.
  unfold gradient_direction. set (z := if x =? 0 then _ else _). clearbody z.
  destruct (if SFltb z (f32_of_Z 0) then _ else _) as [z' w].
  apply (direction_steps (fun a b => -1 <= a <= 1 /\ -1 <= b <= 1)); destruct (w >? 0); cbn; lia.
Qed.

Lemma symmetry_unit x y w : unit_step (symmetry_direction x y w).
Proof.
  unfold symmetry_direction.
  apply (direction_steps (fun a b => -1 <= a <= 1 /\ -1 <= b <= 1)); destruct (w >? 0); cbn; lia.
Qed.

Section Loop.
Context (im bp r : list Z) (x y max_no b : Z) (mask : list (Z * Z)) (R : Z -> Z -> Z).
Context (moments : list (list (Z * Z) * Z)) (symmetry : list (list (Z * Z * Z) * Z)).
Context (start : Z -> Z -> Z) (n_min : Z) (factor : spec_float).
Context (tests : Z -> Z -> Z -> Z -> list (bool * Z)) (steps : list (bool * Z)).
Hypothesis Him : image_ok x y im.
Hypothesis Hbp : lut_ok bp.
Hypothesis Hlen : len r = x * y.
Hypothesis HR : forall i j, 0 <= i < y -> 0 <= j < x -> r.[px x i j] = R i j.
Hypothesis Hb : 0 <= b.
Hypothesis Hmask : within b mask.
Hypothesis Hmom : forall i j,
  reads moments (start i j) = map (fun d => ((snd d, fst d), px x (i + fst d) (j + snd d))) mask.
Hypothesis Hsym : forall i j, reads symmetry (start i j)
  = map (fun d => ((snd d * snd d, fst d * fst d, fst d * snd d), px x (i + fst d) (j + snd d))) mask.
Hypothesis Htests : forall i j a c,
  tests i j a c = map (fun t : bool * Z => let (s, k) := t in (s, px x (i + k * a) (j + k * c))) steps.
Hypothesis Hsteps : Forall (fun t : bool * Z => - b <= snd t <= b) steps.

Lemma peak_across i j a c : b <= i < y - b -> b <= j < x - b -> unit_step (a, c) ->
  peak r (R i j) (tests i j a c) = Some (maximum_across steps R i j a c).
Proof using Hlen HR Hb Htests Hsteps.
  intros Hi Hj [Ha Hc]. cbn [fst snd] in *. rewrite Htests.
  assert (In_ : forall s k, In (s, k) steps -> 0 <= i + k * a < y /\ 0 <= j + k * c < x).
  { intros s k Hk. pose proof (proj1 (Forall_forall _ _) Hsteps _ Hk) as Hs. cbn [snd] in Hs. nia. }
  rewrite peak_ok.
  - f_equal. unfold maximum_across. revert In_. clear Htests Hsteps.
    induction steps as [|[s k] t IH]; intros In_; [reflexivity |]. cbn [map forallb].
    destruct (In_ s k (or_introl eq_refl)). rewrite HR by assumption. f_equal.
    apply IH. intros. apply (In_ s0). now right.
  - apply Forall_map, Forall_forall. intros [s k] Hk. cbn [snd]. rewrite Hlen.
    destruct (In_ s k Hk). now apply px_inside.
Qed.

Lemma edge_pixel_ok i j mid : b <= i < y - b -> b <= j < x - b ->
  edge_pixel moments symmetry start n_min factor tests im r bp max_no x i j mid
  = let l := edge_label mask n_min factor steps max_no im bp R x i j in
    if l =? 0 then Some mid else wr mid (px x i j) l.
Proof using Him Hbp Hlen HR Hb Hmask Hmom Hsym Htests Hsteps.
  intros Hi Hj. unfold edge_pixel, edge_label.
  rewrite rd_some, HR by (rewrite ?Hlen; try apply px_inside; lia). cbn [bind].
  destruct (R i j >? 0); [| reflexivity].
  rewrite (rd_pixel im x y Him) by lia. cbn [bind].
  rewrite (mask_walk im bp x y Him Hbp _ _ _ _ _ b i j _ (Hmom i j) Hmask Hi Hj).
  rewrite (mask_walk im bp x y Him Hbp _ _ _ _ _ b i j _ (Hsym i j) Hmask Hi Hj).
  cbn [bind]. rewrite fold_moments, fold_symmetry, !Z.add_0_l.
  fold (moment snd mask im bp x i j). fold (moment fst mask im bp x i j).
  fold (moment (fun d => snd d * snd d) mask im bp x i j).
  fold (moment (fun d => fst d * fst d) mask im bp x i j).
  fold (moment (fun d => fst d * snd d) mask im bp x i j).
  set (gx := moment snd _ _ _ _ _ _). set (gy := moment fst _ _ _ _ _ _).
  set (sx := moment (fun d => snd d * snd d) _ _ _ _ _ _).
  set (sy := moment (fun d => fst d * fst d) _ _ _ _ _ _).
  set (sw := moment (fun d => fst d * snd d) _ _ _ _ _ _).
  pose proof (gradient_unit gx gy) as UG. pose proof (symmetry_unit sx sy sw) as US.
  destruct (gradient_direction gx gy) as [a c], (symmetry_direction sx sy sw) as [a' c'].
  rewrite !peak_across by assumption.
  destruct (max_no - R i j >? n_min); cbn [andb bind];
    [destruct (strong factor gx gy (max_no - R i j)); cbn [bind] |];
    try (destruct (maximum_across steps R i j a c)); try (destruct (maximum_across steps R i j a' c'));
    cbn [bind Z.eqb]; try reflexivity; destruct (wr mid (px x i j) 1); reflexivity.
Qed.

Lemma edge_raster mid : len mid = x * y ->
  exists mid', raster b x y (edge_pixel moments symmetry start n_min factor tests im r bp max_no x) mid
    = Some mid' /\ len mid' = x * y /\
    forall i j, 0 <= i < y -> 0 <= j < x -> mid'.[px x i j] =
      let l := edge_label mask n_min factor steps max_no im bp R x i j in
      if interior b x y i j && negb (l =? 0) then l else mid.[px x i j].
Proof using Him Hbp Hlen HR Hb Hmask Hmom Hsym Htests Hsteps.
  intros Hm.
  destruct (raster_cells b x y (edge_pixel moments symmetry start n_min factor tests im r bp max_no x)
    (fun a => len a = x * y) aget
    (fun i j c => let l := edge_label mask n_min factor steps max_no im bp R x i j in
                  if l =? 0 then c else l) Hb) with (a := mid) as (mid' & E & Hl & Hc).
  - intros i j a Hi Hj Ha. rewrite edge_pixel_ok by assumption. cbv zeta.
    destruct (_ =? 0); [exists a; auto |]. now apply (wr_cells x y); try lia.
  - exact Hm.
  - exists mid'. split; [exact E |]. split; [exact Hl |]. intros i j Hi Hj. rewrite Hc by assumption.
    cbv zeta. destruct (interior b x y i j), (_ =? 0); reflexivity.
Qed.
End Loop.

Lemma edges_ok im r mid bp max_no x y :
  image_ok x y im -> lut_ok bp -> len r = x * y -> len mid = x * y ->
  exists r' mid', susan_edges im r mid bp max_no x y = Some (r', mid') /\
    len r' = x * y /\ len mid' = x * y /\
    forall i j, 0 <= i < y -> 0 <= j < x ->
      r'.[px x i j] = response disc 3 max_no im bp x y i j /\
      mid'.[px x i j] =
        let l := edge_label disc 600 f_0_9 steps4 max_no im bp (response disc 3 max_no im bp x y) x i j in
        if interior 4 x y i j && negb (l =? 0) then l else mid.[px x i j].
Proof.
  intros Him Hbp Hr Hmid. unfold susan_edges. rewrite memset_ok by (destruct Him; nia). cbn [bind].
  destruct (principle_raster disc (circle usan_circle x) 3 (fun i j => (i - 3) * x + j - 1) max_no im bp x y)
    as (r' & -> & Hl & HR); auto using disc_within; [lia | intros; apply (circle_reads (fun _ => tt)) |].
  cbn [bind].
  destruct (edge_raster im bp r' x y max_no 4 disc (response disc 3 max_no im bp x y)
    (circle moments_circle x) (circle symmetry_circle x) (fun i j => (i - 3) * x + j - 1) 600 f_0_9
    (tests4 x) steps4) with (mid := mid) as (mid' & -> & Hl' & HM); try assumption; try lia.
  - apply within_check. reflexivity.
  - intros i j. rewrite moments_circle_weights. apply circle_reads.
  - intros i j. rewrite symmetry_circle_weights. apply circle_reads.
  - intros i j a c. unfold tests4, steps4, px. cbn [map].
    repeat (apply f_equal2; [apply f_equal2; [reflexivity | lia] |]). reflexivity.
  - repeat constructor; cbn; lia.
  - cbn [bind]. exists r', mid'. auto 6.
Qed.

(** C11. [susan_edges] has no undefined behaviour, leaves in [r] the SUSAN response
    and labels exactly the pixels, at least 4 from every side, whose response is
    positive and a maximum across the edge: the direction comes from the
    centre of gravity of the USAN where that is far enough from the pixel (label
    1) and from its second moments elsewhere (label 2). *)
Theorem susan_edges_labels im r mid bp max_no x y :
  image_ok x y im -> lut_ok bp -> len r = x * y -> len mid = x * y ->
  exists r' mid', susan_edges im r mid bp max_no x y = Some (r', mid') /\
    len r' = x * y /\ len mid' = x * y /\
    forall i j, 0 <= i < y -> 0 <= j < x ->
      r'.[px x i j] = response disc 3 max_no im bp x y i j /\
      mid'.[px x i j] =
        let l := edge_label disc 600 f_0_9 steps4 max_no im bp (response disc 3 max_no im bp x y) x i j in
        if interior 4 x y i j && negb (l =? 0) then l else mid.[px x i j].
Proof. apply edges_ok. Qed.

Lemma susan_edges_labels_witness :
  exists r' mid', susan_edges (ramp 11 10) (zeros 110) (repeat 100 110) step_lut 2650 11 10 = Some (r', mid')
    /\ len mid' = 110.
Proof.
  destruct (susan_edges_labels (ramp 11 10) (zeros 110) (repeat 100 110) step_lut 2650 11 10
    (ramp_ok 11 10 ltac:(lia) ltac:(lia) ltac:(lia)) step_lut_ok eq_refl eq_refl)
    as (r' & mid' & E & _ & Hl & _). exists r', mid'. auto.
Defined.

(** The 3x3 version of the edge detector: the same over the eight neighbours,
    with the thresholds 250 and 0.4, for the pixels at least 2 from every side. *)
Theorem susan_edges_small_labels im r mid bp max_no x y :
  image_ok x y im -> lut_ok bp -> len r = x * y -> len mid = x * y ->
  exists r' mid', susan_edges_small im r mid bp max_no x y = Some (r', mid') /\
    len r' = x * y /\ len mid' = x * y /\
    forall i j, 0 <= i < y -> 0 <= j < x ->
      r'.[px x i j] = response ring 1 730 im bp x y i j /\
      mid'.[px x i j] =
        let l := edge_label ring 250 f_0_4 steps2 730 im bp (response ring 1 730 im bp x y) x i j in
        if interior 2 x y i j && negb (l =? 0) then l else mid.[px x i j].
Proof.
  intros Him Hbp Hr Hmid. unfold susan_edges_small. rewrite memset_ok by (destruct Him; nia). cbn [bind].
  destruct (principle_raster ring (square usan_square x) 1 (fun i j => (i - 1) * x + j - 1) 730 im bp x y)
    as (r' & -> & Hl & HR); auto using ring_within; [lia | intros; apply (square_reads (fun _ => tt)) |].
  cbn [bind].
  destruct (edge_raster im bp r' x y 730 2 ring (response ring 1 730 im bp x y)
    (square moments_square x) (square symmetry_square x) (fun i j => (i - 1) * x + j - 1) 250 f_0_4
    (tests2 x) steps2) with (mid := mid) as (mid' & -> & Hl' & HM); try assumption; try lia.
  - apply within_check. reflexivity.
  - intros i j. rewrite moments_square_weights. apply square_reads.
  - intros i j. rewrite symmetry_square_weights. apply square_reads.
  - intros i j a c. unfold tests2, steps2, px. cbn [map].
    repeat (apply f_equal2; [apply f_equal2; [reflexivity | lia] |]). reflexivity.
  - repeat constructor; cbn; lia.
  - cbn [bind]. exists r', mid'. auto 6.
Qed.

(** ** Drawing the edge points *)

(** Whether the pixel is an edge point of the map. *)
Definition marked (mid : list Z) (x y u v : Z) : bool :=
  (0 <=? u) && (u <? y) && (0 <=? v) && (v <? x) && (mid.[px x u v] <? 8).

Lemma wr_px x y im a b c : len im = x * y -> 0 <= a < y -> 0 <= b < x ->
  exists im', wr im (px x a b) c = Some im' /\ len im' = x * y /\
    forall u v, 0 <= u < y -> 0 <= v < x ->
      im'.[px x u v] = if (u =? a) && (v =? b) then c else im.[px x u v].
Proof.
  intros Hl Ha Hb. destruct (wr_cells x y im a b c Hl Ha Hb) as (im' & E & Hl' & Hown & Hoth).
  exists im'. split; [exact E |]. split; [exact Hl' |]. intros u v Hu Hv.
  destruct (Z.eq_dec (px x u v) (px x a b)) as [Ep | Np].
  - destruct (px_inj x u v a b) as [-> ->]; try lia; try assumption. now rewrite !Z.eqb_refl.
  - rewrite Hoth by (try assumption; apply (px_inside x y); assumption).
    destruct (Z.eqb_spec u a) as [-> |], (Z.eqb_spec v b) as [-> |]; easy.
Qed.

(** A sequence of writes: the last one to a pixel stays. *)
Fixpoint writes (x : Z) (l : list (Z * Z * Z)) (im : list Z) : option (list Z) :=
  match l with
  | [] => Some im
  | (a, b, c) :: t => let* im := wr im (px x a b) c in writes x t im
  end.

Definition written (l : list (Z * Z * Z)) (u v o : Z) : Z :=
  fold_left (fun o '(a, b, c) => if (u =? a) && (v =? b) then c else o) l o.

Lemma writes_ok x y l im : len im = x * y ->
  Forall (fun w => 0 <= fst (fst w) < y /\ 0 <= snd (fst w) < x) l ->
  exists im', writes x l im = Some im' /\ len im' = x * y /\
    forall u v, 0 <= u < y -> 0 <= v < x -> im'.[px x u v] = written l u v im.[px x u v].
Proof.
  revert im. induction l as [|[[a b] c] t IH]; intros im Hl H; [exists im; auto |].
  apply List.Forall_cons_iff in H as [[Ha Hb] H]. cbn [fst snd] in *.
  destruct (wr_px x y im a b c Hl Ha Hb) as (im1 & E & Hl1 & G1).
  destruct (IH im1 Hl1 H) as (im' & E' & Hl' & G'). exists im'. cbn [writes]. rewrite E. cbn [bind].
  split; [exact E' |]. split; [exact Hl' |]. intros u v Hu Hv.
  rewrite G', G1 by assumption. reflexivity.
Qed.

(** The block around [(i, j)] turns its eight neighbours white. *)
Lemma mark_block_ok x y im i j p middle : len im = x * y -> 0 < i < y - 1 -> 0 < j < x - 1 ->
  p = (i - 1) * x + j - 1 ->
  exists im', mark_block x p middle im = Some im' /\ len im' = x * y /\
    forall u v, 0 <= u < y -> 0 <= v < x ->
      im'.[px x u v] =
        if existsb (fun d => (u + fst d =? i) && (v + snd d =? j)) ring then 255
        else match middle with
             | Some c => if (u =? i) && (v =? j) then c else im.[px x u v]
             | None => im.[px x u v]
             end.
Proof.
  intros Hl Hi Hj ->.
  set (l := [(i-1,j-1,255);(i-1,j,255);(i-1,j+1,255);(i,j-1,255)] ++
    match middle with Some c => [(i,j,c)] | None => [] end ++
    [(i,j+1,255);(i+1,j-1,255);(i+1,j,255);(i+1,j+1,255)]).
  assert (E : mark_block x ((i - 1) * x + j - 1) middle im = writes x l im).
  { unfold mark_block, l.
    replace ((i - 1) * x + j - 1) with (px x (i - 1) (j - 1)) by (unfold px; lia).
    replace (px x (i - 1) (j - 1) + 1) with (px x (i - 1) j) by (unfold px; lia).
    replace (px x (i - 1) (j - 1) + 2) with (px x (i - 1) (j + 1)) by (unfold px; lia).
    replace (px x (i - 1) (j + 1) + (x - 2)) with (px x i (j - 1)) by (unfold px; lia).
    replace (px x i (j - 1) + 1) with (px x i j) by (unfold px; lia).
    replace (px x i (j - 1) + 2) with (px x i (j + 1)) by (unfold px; lia).
    replace (px x i (j + 1) + (x - 2)) with (px x (i + 1) (j - 1)) by (unfold px; lia).
    replace (px x (i + 1) (j - 1) + 1) with (px x (i + 1) j) by (unfold px; lia).
    replace (px x (i + 1) (j - 1) + 2) with (px x (i + 1) (j + 1)) by (unfold px; lia).
    destruct middle; cbn [app writes]; repeat (destruct (wr _ _ _); [cbn [bind] | reflexivity]); reflexivity. }
  rewrite E. destruct (writes_ok x y l im Hl) as (im' & -> & Hl' & G).
  { unfold l. destruct middle; repeat constructor; cbn; lia. }
  exists im'. split; [reflexivity |]. split; [exact Hl' |]. intros u v Hu Hv. rewrite G by assumption.
  change ring with [(-1,-1); (-1,0); (-1,1); (0,-1); (0,1); (1,-1); (1,0); (1,1)]. cbn [existsb fst snd].
  replace (u + -1 =? i) with (u =? i + 1) by lia. replace (u + 0 =? i) with (u =? i) by lia.
  replace (u + 1 =? i) with (u =? i - 1) by lia. replace (v + -1 =? j) with (v =? j + 1) by lia.
  replace (v + 0 =? j) with (v =? j) by lia. replace (v + 1 =? j) with (v =? j - 1) by lia.
  unfold l, written. destruct middle; cbn [app fold_left];
    destruct (Z.eqb_spec u (i - 1)); destruct (Z.eqb_spec u i); try lia;
    destruct (Z.eqb_spec u (i + 1)); try lia; destruct (Z.eqb_spec v (j - 1));
    destruct (Z.eqb_spec v j); try lia; destruct (Z.eqb_spec v (j + 1)); try lia; reflexivity.
Qed.

(** The pixels next to an edge point among the ones before index [k]. *)
Definition near (mid : list Z) (x y k u v : Z) : bool :=
  existsb (fun d => marked mid x y (u + fst d) (v + snd d) && (px x (u + fst d) (v + snd d) <? k)) ring.

Lemma near_step mid x y i j u v : 0 <= i < y -> 0 <= j < x ->
  near mid x y (px x i j + 1) u v =
  near mid x y (px x i j) u v
  || marked mid x y i j && existsb (fun d => (u + fst d =? i) && (v + snd d =? j)) ring.
Proof.
  intros Hi Hj. unfold near. induction ring as [|d t IH]; cbn [existsb]; [now rewrite andb_false_r |].
  rewrite IH. clear IH.
  assert (E : marked mid x y (u + fst d) (v + snd d) && (px x (u + fst d) (v + snd d) <? px x i j + 1)
    = marked mid x y (u + fst d) (v + snd d) && (px x (u + fst d) (v + snd d) <? px x i j)
      || marked mid x y i j && ((u + fst d =? i) && (v + snd d =? j))).
  { destruct (Z.eq_dec (u + fst d) i) as [-> | Nu]; [destruct (Z.eq_dec (v + snd d) j) as [-> | Nv] |].
    - rewrite !Z.eqb_refl, Z.ltb_irrefl, andb_true_r, andb_false_r. cbn [orb].
      now replace (px x i j <? px x i j + 1) with true by lia; rewrite andb_true_r.
    - rewrite Z.eqb_refl, (proj2 (Z.eqb_neq _ _) Nv), !andb_false_r, orb_false_r. unfold px. f_equal. lia.
    - rewrite (proj2 (Z.eqb_neq _ _) Nu), !andb_false_r, orb_false_r.
      destruct (marked mid x y (u + fst d) (v + snd d)) eqn:M; [| reflexivity]. cbn [andb].
      unfold marked in M. pose proof (px_inj x (u + fst d) (v + snd d) i j). lia. }
  rewrite E, andb_orb_distrib_r, <- !orb_assoc. f_equal. rewrite !orb_assoc. f_equal. apply orb_comm.
Qed.

Lemma near_all mid x y u v :
  near mid x y (x * y) u v = existsb (fun d => marked mid x y (u + fst d) (v + snd d)) ring.
Proof.
  unfold near. induction ring as [|d t IH]; [reflexivity |]. cbn [existsb]. rewrite IH. f_equal.
  destruct (marked mid x y (u + fst d) (v + snd d)) eqn:M; [| reflexivity]. cbn [andb].
  unfold marked in M. pose proof (px_inside x y (u + fst d) (v + snd d)). lia.
Qed.

Lemma rd_marked mid x y i j : len mid = x * y -> 0 <= i < y -> 0 <= j < x ->
  exists c, rd mid (px x i j) = Some c /\ (c <? 8) = marked mid x y i j.
Proof.
  intros Hm Hi Hj. eexists. split; [apply rd_some; rewrite Hm; now apply px_inside |].
  unfold marked. rewrite (proj2 (Z.leb_le 0 i)), (proj2 (Z.ltb_lt i y)), (proj2 (Z.leb_le 0 j)),
    (proj2 (Z.ltb_lt j x)) by lia. reflexivity.
Qed.

Lemma white_loop im mid x y : 0 < x -> 0 < y -> len im = x * y -> len mid = x * y ->
  (forall u v, marked mid x y u v = true -> interior 1 x y u v = true) ->
  exists im', for_opt 0 (x * y) (edge_white mid x) im = Some im' /\ len im' = x * y /\
    forall u v, 0 <= u < y -> 0 <= v < x ->
      im'.[px x u v] = if near mid x y (x * y) u v then 255 else im.[px x u v].
Proof.
  intros Hx Hy Hl Hm Hin.
  apply (for_opt_ind (fun k a => len a = x * y /\ forall u v, 0 <= u < y -> 0 <= v < x ->
    a.[px x u v] = if near mid x y k u v then 255 else im.[px x u v])); [nia | |].
  - split; [exact Hl |]. intros u v Hu Hv. replace (near mid x y 0 u v) with false; [reflexivity |].
    symmetry. unfold near. induction ring as [|d t IH]; [reflexivity |]. cbn [existsb]. rewrite IH.
    destruct (marked mid x y (u + fst d) (v + snd d)) eqn:M; [| reflexivity].
    unfold marked in M. pose proof (px_inside x y (u + fst d) (v + snd d)). lia.
  - intros k a Hk (Ha & G). destruct (px_of x y k Hx Hk) as (i & j & Hi & Hj & ->).
    destruct (rd_marked mid x y i j Hm Hi Hj) as (c & Ec & Em). unfold edge_white. rewrite Ec. cbn [bind].
    rewrite Em. destruct (marked mid x y i j) eqn:M.
    + pose proof (proj1 (interior_true _ _ _ _ _) (Hin i j M)) as Hij.
      destruct (mark_block_ok x y a i j (px x i j - x - 1) None Ha) as (a' & E & Ha' & G');
        [lia | lia | unfold px; lia |].
      exists a'. split; [exact E |]. split; [exact Ha' |]. intros u v Hu Hv.
      rewrite G', G, near_step, M by assumption. cbn [andb].
      destruct (existsb _ ring); [now rewrite orb_true_r | now rewrite orb_false_r].
    + exists a. split; [reflexivity |]. split; [exact Ha |]. intros u v Hu Hv.
      rewrite near_step, M by assumption. cbn [andb]. rewrite orb_false_r. now apply G.
Qed.

Lemma black_loop im mid x y : 0 < x -> 0 < y -> len im = x * y -> len mid = x * y ->
  exists im', for_opt 0 (x * y) (edge_black mid) im = Some im' /\ len im' = x * y /\
    forall u v, 0 <= u < y -> 0 <= v < x ->
      im'.[px x u v] = if marked mid x y u v then 0 else im.[px x u v].
Proof.
  intros Hx Hy Hl Hm.
  destruct (for_opt_ind (fun k a => len a = x * y /\ forall u v, 0 <= u < y -> 0 <= v < x ->
    a.[px x u v] = if marked mid x y u v && (px x u v <? k) then 0 else im.[px x u v])
    0 (x * y) (edge_black mid) im) as (im' & E & Hl' & G); [nia | | |].
  - split; [exact Hl |]. intros u v Hu Hv. pose proof (px_inside x y u v Hu Hv).
    replace (px x u v <? 0) with false by lia. now rewrite andb_false_r.
  - intros k a Hk (Ha & G). destruct (px_of x y k Hx Hk) as (i & j & Hi & Hj & ->).
    destruct (rd_marked mid x y i j Hm Hi Hj) as (c & Ec & Em). unfold edge_black. rewrite Ec. cbn [bind].
    rewrite Em. destruct (marked mid x y i j) eqn:M.
    + destruct (wr_px x y a i j 0 Ha Hi Hj) as (a' & E & Ha' & G').
      exists a'. split; [exact E |]. split; [exact Ha' |]. intros u v Hu Hv. rewrite G', G by assumption.
      pose proof (px_inj x u v i j) as Inj.
      destruct (Z.eqb_spec u i) as [Eu | Nu], (Z.eqb_spec v j) as [Ev | Nv]; cbn [andb].
      1: { subst u v. rewrite M. now replace (px x i j <? px x i j + 1) with true by lia. }
      all: destruct (marked mid x y u v); cbn [andb]; [| reflexivity];
           destruct (Z.ltb_spec (px x u v) (px x i j)), (Z.ltb_spec (px x u v) (px x i j + 1)); lia.
    + exists a. split; [reflexivity |]. split; [exact Ha |]. intros u v Hu Hv. rewrite G by assumption.
      destruct (marked mid x y u v) eqn:M'; [| reflexivity]. cbn [andb].
      assert (px x u v <> px x i j) by (intros Ep; destruct (px_inj x u v i j) as [-> ->]; try lia; congruence).
      destruct (Z.ltb_spec (px x u v) (px x i j)), (Z.ltb_spec (px x u v) (px x i j + 1)); lia.
  - exists im'. split; [exact E |]. split; [exact Hl' |]. intros u v Hu Hv. rewrite G by assumption.
    pose proof (px_inside x y u v Hu Hv). replace (px x u v <? x * y) with true by lia. now rewrite andb_true_r.
Qed.

(** [edge_draw] paints every edge point black and, in the default mode, the
    other pixels next to one white; the rest of the image is untouched.  With
    edge points away from the sides, as the detectors give them, every write is
    inside the image. *)
Theorem edge_draw_paints im mid x y drawing_mode :
  0 < x -> 0 < y -> len im = x * y -> len mid = x * y ->
  (forall u v, marked mid x y u v = true -> interior 1 x y u v = true) ->
  exists im', edge_draw im mid x y drawing_mode = Some im' /\ len im' = x * y /\
    forall u v, 0 <= u < y -> 0 <= v < x ->
      im'.[px x u v] =
        if marked mid x y u v then 0
        else if (drawing_mode =? 0) && existsb (fun d => marked mid x y (u + fst d) (v + snd d)) ring
             then 255 else im.[px x u v].
Proof.
  intros Hx Hy Hl Hm Hin. unfold edge_draw.
  assert (W : exists im1, (if drawing_mode =? 0 then for_opt 0 (x * y) (edge_white mid x) im else Some im)
      = Some im1 /\ len im1 = x * y /\ forall u v, 0 <= u < y -> 0 <= v < x -> im1.[px x u v] =
        if (drawing_mode =? 0) && near mid x y (x * y) u v then 255 else im.[px x u v]).
  { destruct (drawing_mode =? 0); [| exists im; auto]. cbn [andb].
    now apply white_loop. }
  destruct W as (im1 & -> & Hl1 & G1). cbn [bind].
  destruct (black_loop im1 mid x y Hx Hy Hl1 Hm) as (im2 & -> & Hl2 & G2).
  exists im2. split; [reflexivity |]. split; [exact Hl2 |]. intros u v Hu Hv.
  rewrite G2, G1 by assumption. destruct (marked mid x y u v); [reflexivity |].
  now rewrite near_all.
Qed.

Lemma edge_draw_paints_witness :
  exists im', edge_draw (ramp 4 3) [100;100;100;100; 100;1;100;100; 100;100;100;100] 4 3 0 = Some im' /\
    len im' = 12.
Proof.
  destruct (edge_draw_paints (ramp 4 3) [100;100;100;100; 100;1;100;100; 100;100;100;100] 4 3 0)
    as (im' & E & Hl & _); try lia; try reflexivity; [| exists im'; auto].
  intros u v H. unfold marked in H.
  assert (Hu : 0 <= u < 3) by lia. assert (Hv : 0 <= v < 4) by lia.
  assert (u = 0 \/ u = 1 \/ u = 2) as [-> | [-> | ->]] by lia;
    assert (v = 0 \/ v = 1 \/ v = 2 \/ v = 3) as [-> | [-> | [-> | ->]]] by lia;
    vm_compute in H |- *; congruence.
Defined.

Lemma susan_edges_small_labels_witness :
  exists r' mid', susan_edges_small (ramp 6 5) (zeros 30) (repeat 100 30) step_lut 2650 6 5 = Some (r', mid')
    /\ len mid' = 30.
Proof.
  destruct (susan_edges_small_labels (ramp 6 5) (zeros 30) (repeat 100 30) step_lut 2650 6 5
    (ramp_ok 6 5 ltac:(lia) ltac:(lia) ltac:(lia)) step_lut_ok eq_refl eq_refl)
    as (r' & mid' & E & _ & Hl & _). exists r', mid'. auto.
Defined.
