(* ===== verification/SusanCorners.v ===== *)
(** * SUSAN: corners

    Models [susan_corners], [susan_corners_quick] and [corner_draw] of
    [automotive/susan/susan.c].  A pixel is a corner if its response is a maximum
    of the 7x7 window around it (the suppression that [SEVEN_SUPP] selects); the
    full version first discards the pixels whose USAN does not look like the
    inside of a corner.  The list of corners is an array of [MAX_CORNERS]
    entries ended by one with [info] 7. *)

From Stdlib Require Import ZArith Lia List Bool FinFun.
From Stdlib Require Import SpecFloat.
From S2P Require Import Prelude SusanImage SusanPrinciple SusanFloat SusanEdges.
Import ListNotations.

Definition MAX_CORNERS : Z := 15000.

(** [CORNER_LIST]'s elements. *)
Record corner := mkCorner { c_x : Z; c_y : Z; c_info : Z; c_dx : Z; c_dy : Z; c_I : Z }.

(** ** The USAN area, given up as soon as it is too large *)

Section While.
Context (get : Z -> option Z) (max_no : Z).

(** A run of reads, each followed by the test [n < max_no]: the pointer and the
    area, or nothing when a test failed. *)
Fixpoint run_while {W} (ws : list W) (p n : Z) : option (option (Z * Z)) :=
  match ws with
  | [] => Some (Some (p, n))
  | [_] => let* c := get p in
           if n + c <? max_no then Some (Some (p, n + c)) else Some None
  | _ :: ws' => let* c := get p in
                if n + c <? max_no then run_while ws' (p + 1) (n + c) else Some None
  end.

Fixpoint walk_while {W} (mask : list (list W * Z)) (p n : Z) : option (option Z) :=
  match mask with
  | [] => Some (Some n)
  | (ws, step) :: rest =>
      let* s := run_while ws p n in
      match s with
      | Some (p', n') => walk_while rest (p' + step) n'
      | None => Some None
      end
  end.
End While.

(** The first four runs of the circle have no tests; then there is one before
    the pointer moves on, and one after every read. *)
Definition corner_area (im bp : list Z) (centre max_no x_size p : Z) : option (option Z) :=
  let mask := circle usan_circle x_size in
  let* (p, n) := walk (similar im bp centre) add_area (firstn 4 mask) p 100 in
  if n <? max_no then walk_while (similar im bp centre) max_no (skipn 4 mask) p n else Some None.

(** ** The full version *)

(** The similarities of three pixels on the way to the centre of gravity. *)
Definition three_along (im bp : list Z) (centre x_size i j : Z) (step : Z -> option (Z * Z)) : option Z :=
  let* (di, dj) := step 1 in
  let* a := similar im bp centre ((i + di) * x_size + j + dj) in
  let* (di, dj) := step 2 in
  let* b := similar im bp centre ((i + di) * x_size + j + dj) in
  let* (di, dj) := step 3 in
  let* c := similar im bp centre ((i + di) * x_size + j + dj) in
  Some (a + b + c).

(** [FTOI(k*divide)], where the source writes [divide] for [k = 1]. *)
Definition scaled (k : Z) (divide : spec_float) : option Z :=
  FTOI (if k =? 1 then divide else f32_mul (f32_of_Z k) divide).

(** The pixels towards [(x, y)]: along the rows where [x] is the larger. *)
Definition towards (x y k : Z) : option (Z * Z) :=
  if y * y <? x * x then
    let divide := f32_div (f32_of_Z y) (f32_of_Z (Z.abs x)) in
    let* sq := int_div (Z.abs x) x in
    let* d := scaled k divide in
    Some (d, k * sq)
  else
    let divide := f32_div (f32_of_Z x) (f32_of_Z (Z.abs y)) in
    let* sq := int_div (Z.abs y) y in
    let* d := scaled k divide in
    Some (k * sq, d).

Definition corner_pixel (im bp : list Z) (max_no x_size i j : Z) (s : list Z * list Z * list Z)
    : option (list Z * list Z * list Z) :=
  let '(r, cgx, cgy) := s in
  let start := (i - 3) * x_size + j - 1 in
  let* centre := rd im (px x_size i j) in
  let* area := corner_area im bp centre max_no x_size start in
  match area with
  | None => Some s
  | Some n =>
      let* (_, (x, y)) := walk (similar im bp centre) add_moment (circle moments_circle x_size) start (0, 0) in
      let sq := x * x + y * y in
      let* lim := int_div (n * n) 2 in
      if sq >? lim then
        let* sq := three_along im bp centre x_size i j (towards x y) in
        if sq >? 290 then
          let* r := wr r (px x_size i j) (max_no - n) in
          let* gx := int_div (51 * x) n in
          let* cgx := wr cgx (px x_size i j) gx in
          let* gy := int_div (51 * y) n in
          let* cgy := wr cgy (px x_size i j) gy in
          Some (r, cgx, cgy)
        else Some s
      else Some s
  end.

(** ** Local maxima *)

(** The 48 comparisons of the 7x7 window, in the order of the source: strict
    with the pixels before the centre, not strict with the ones after. *)
Definition window : list (Z * Z) := filter (fun d => negb (centre_pixel d)) (grid 3).
Definition before (d : Z * Z) : bool := (fst d <? 0) || ((fst d =? 0) && (snd d <? 0)).
Definition tests7 (x_size i j : Z) : list (bool * Z) :=
  map (fun d => (before d, (i + fst d) * x_size + j + snd d)) window.

(** The list while it grows; [TooMany] after [exit(1)]. *)
Inductive found :=
| Found (l : list corner)
| TooMany.

Definition add_corner (l : list corner) (c : corner) : found :=
  let n := Z.of_nat (length l) + 1 in
  if n =? MAX_CORNERS then TooMany else Found (l ++ [c]).

(** The second loop, with the record that is made for a maximum. *)
Definition maximum_pixel (make : Z -> Z -> option corner) (r : list Z) (x_size i j : Z) (s : found)
    : option found :=
  match s with
  | TooMany => Some TooMany
  | Found l =>
      let* x := rd r (px x_size i j) in
      if x >? 0 then
        let* max := peak r x (tests7 x_size i j) in
        if max : bool then let* c := make i j in Some (add_corner l c) else Some s
      else Some s
  end.

Definition terminator : corner := mkCorner 0 0 7 0 0 0.

Definition finish (s : found) (r : list Z) : res (list corner * list Z) :=
  match s with
  | Found l => Ret (l ++ [terminator], r)
  | TooMany => Exit 1
  end.

(** [corner_list[n] = ...] in the full version. *)
Definition corner_record (im cgx cgy : list Z) (x_size i j : Z) : option corner :=
  let* dx := rd cgx (px x_size i j) in
  let* dy := rd cgy (px x_size i j) in
  let* inten := rd im (px x_size i j) in
  Some (mkCorner j i 0 dx dy inten).

(** [cgx] and [cgy] are the blocks that [malloc] returned. *)
Definition susan_corners (im r bp : list Z) (max_no x_size y_size : Z) (cgx cgy : list Z)
    : res (list corner * list Z) :=
  let! r := lift (memset r 0 (x_size * y_size)) in
  let! (r, cgx, cgy) := lift (raster 5 x_size y_size (corner_pixel im bp max_no x_size) (r, cgx, cgy)) in
  let! s := lift (raster 5 x_size y_size (maximum_pixel (corner_record im cgx cgy x_size) r x_size) (Found [])) in
  finish s r.

(** ** The quick version *)

Definition quick_pixel (im bp : list Z) (max_no x_size i j : Z) (r : list Z) : option (list Z) :=
  let* centre := rd im (px x_size i j) in
  let* area := corner_area im bp centre max_no x_size ((i - 3) * x_size + j - 1) in
  match area with
  | None => Some r
  | Some n => wr r (px x_size i j) (max_no - n)
  end.

(** The sum of the pixels at the given offsets from [(i, j)]. *)
Fixpoint sum_pixels (im : list Z) (x_size i j : Z) (offsets : list (Z * Z)) : option Z :=
  match offsets with
  | [] => Some 0
  | (di, dj) :: t =>
      let* a := rd im ((i + di) * x_size + j + dj) in
      let* s := sum_pixels im x_size i j t in
      Some (a + s)
  end.

(** Column [d] and row [d] of the 5x5 window. *)
Definition column5 (d : Z) : list (Z * Z) := map (fun di => (di, d)) [-2; -1; 0; 1; 2].
Definition row5 (d : Z) : list (Z * Z) := map (fun dj => (d, dj)) [-2; -1; 0; 1; 2].

Definition quick_record (im : list Z) (x_size i j : Z) : option corner :=
  let sum := sum_pixels im x_size i j in
  let* x := sum (grid 2) in
  let inten := Z.quot x 25 in
  let* a := sum (column5 2) in
  let* b := sum (column5 (-2)) in
  let x := a - b in
  let* a := sum (column5 1) in
  let* b := sum (column5 (-1)) in
  let x := x + (x + a - b) in
  let* a := sum (row5 2) in
  let* b := sum (row5 (-2)) in
  let y := a - b in
  let* a := sum (row5 1) in
  let* b := sum (row5 (-1)) in
  let y := y + (y + a - b) in
  Some (mkCorner j i 0 (Z.quot x 15) (Z.quot y 15) inten).

Definition susan_corners_quick (im r bp : list Z) (max_no x_size y_size : Z)
    : res (list corner * list Z) :=
  let! r := lift (memset r 0 (x_size * y_size)) in
  let! r := lift (raster 7 x_size y_size (quick_pixel im bp max_no x_size) r) in
  let! s := lift (raster 7 x_size y_size (maximum_pixel (quick_record im x_size) r x_size) (Found [])) in
  finish s r.

(** ** Drawing *)

(** The loop to the entry with [info] 7; running off the array is undefined. *)
Fixpoint corner_draw (im : list Z) (corner_list : list corner) (x_size drawing_mode : Z) : option (list Z) :=
  match corner_list with
  | [] => None
  | c :: rest =>
      if c_info c =? 7 then Some im
      else
        let* im :=
          if drawing_mode =? 0 then mark_block x_size ((c_y c - 1) * x_size + c_x c - 1) (Some 0) im
          else wr im (c_y c * x_size + c_x c) 0 in
        corner_draw im rest x_size drawing_mode
  end.

(** ** Loops over pixels as folds *)

Definition zrange (lo hi : Z) : list Z := map (fun k => lo + Z.of_nat k) (seq 0 (Z.to_nat (hi - lo))).

Lemma zrange_cons lo hi : lo < hi -> zrange lo hi = lo :: zrange (lo + 1) hi.
Proof.
  intros H. unfold zrange. replace (Z.to_nat (hi - lo)) with (S (Z.to_nat (hi - (lo + 1)))) by lia.
  cbn [seq map]. f_equal; [lia |]. rewrite <- seq_shift, map_map. apply map_ext. intros. lia.
Qed.

Lemma in_zrange lo hi k : In k (zrange lo hi) <-> lo <= k < hi.
Proof.
  unfold zrange. rewrite in_map_iff. split.
  - intros (n & <- & Hn). apply in_seq in Hn. lia.
  - intros H. exists (Z.to_nat (k - lo)). split; [lia |]. apply in_seq. lia.
Qed.

Fixpoint fold_opt {A B} (f : B -> A -> option A) (l : list B) (a : A) : option A :=
  match l with [] => Some a | b :: t => let* a := f b a in fold_opt f t a end.

Lemma fold_opt_app {A B} (f : B -> A -> option A) l l' a :
  fold_opt f (l ++ l') a = let* a := fold_opt f l a in fold_opt f l' a.
Proof.
  revert a. induction l as [|b t IH]; intros a; [reflexivity |]. cbn [app fold_opt].
  destruct (f b a); [apply IH | reflexivity].
Qed.

Lemma fold_opt_none {A} (f : Z -> A -> option A) n i :
  for_loop n i (fun i m => bind m (f i)) None = None.
Proof. revert i. induction n as [|n IH]; intros i; [reflexivity |]. apply IH. Qed.

Lemma for_opt_fold {A} (f : Z -> A -> option A) lo hi a : for_opt lo hi f a = fold_opt f (zrange lo hi) a.
Proof.
  unfold for_opt, for_range. remember (Z.to_nat (hi - lo)) as n eqn:En.
  revert lo a En. induction n as [|n IH]; intros lo a En.
  - unfold zrange. now rewrite <- En.
  - rewrite zrange_cons by lia. cbn [for_loop fold_opt bind].
    destruct (f lo a) as [a'|]; [apply IH; lia | apply fold_opt_none].
Qed.

(** The pixels of [raster b x y], in its order. *)
Definition pixels (b x y : Z) : list (Z * Z) :=
  flat_map (fun i => map (pair i) (zrange b (x - b))) (zrange b (y - b)).

Lemma in_pixels b x y i j : In (i, j) (pixels b x y) <-> interior b x y i j = true.
Proof.
  unfold pixels. rewrite in_flat_map, interior_true. split.
  - intros (i' & Hi & H). apply in_map_iff in H as (j' & E & Hj). inversion E; subst.
    apply in_zrange in Hi, Hj. lia.
  - intros [Hi Hj]. exists i. split; [now apply in_zrange |]. apply in_map, in_zrange. lia.
Qed.

Lemma raster_fold {A} (f : Z -> Z -> A -> option A) b x y a :
  raster b x y f a = fold_opt (fun p => f (fst p) (snd p)) (pixels b x y) a.
Proof.
  unfold raster, pixels. rewrite for_opt_fold. generalize (zrange b (y - b)) as rows. intros rows. revert a.
  induction rows as [|i t IH]; intros a; [reflexivity |]. cbn [fold_opt flat_map].
  rewrite fold_opt_app, for_opt_fold.
  replace (fold_opt (fun p => f (fst p) (snd p)) (map (pair i) (zrange b (x - b))) a)
    with (fold_opt (f i) (zrange b (x - b)) a).
  - destruct (fold_opt (f i) (zrange b (x - b)) a); [apply IH | reflexivity].
  - clear IH. revert a. induction (zrange b (x - b)) as [|j s IHs]; intros a; [reflexivity |]. cbn [map fold_opt fst snd].
    destruct (f i j a); [apply IHs | reflexivity].
Qed.

(** ** The area with early exits *)

Section WhileOk.
Context (get : Z -> option Z) (val : Z -> Z) (max_no : Z).

Lemma run_while_ok {W} (ws : list W) p n : n < max_no ->
  (forall w q, In (w, q) (run_reads ws p) -> get q = Some (val q) /\ 0 <= val q) ->
  let total := n + zsum (map (fun a => val (snd a)) (run_reads ws p)) in
  run_while get max_no ws p n = Some (if total <? max_no then Some (run_end ws p, total) else None).
Proof using.
  revert p n. induction ws as [|w [|w' ws] IH]; intros p n Hn H; cbv zeta.
  - cbn [run_reads map zsum fold_right run_while run_end]. rewrite Z.add_0_r. now rewrite (proj2 (Z.ltb_lt _ _) Hn).
  - destruct (H w p (or_introl eq_refl)) as [E _]. cbn -[Z.add Z.ltb Z.of_nat]. rewrite E. cbn [bind].
    rewrite Z.add_0_r. destruct (n + val p <? max_no); [| reflexivity]. do 3 f_equal; lia.
  - destruct (H w p (or_introl eq_refl)) as [E P].
    change (run_while get max_no (w :: w' :: ws) p n) with
      (let* c := get p in if n + c <? max_no then run_while get max_no (w' :: ws) (p + 1) (n + c) else Some None).
    rewrite E. cbn [bind].
    assert (S : 0 <= zsum (map (fun a => val (snd a)) (run_reads (w' :: ws) (p + 1)))).
    { apply zsum_nonneg. intros [w0 q] Hq. apply (H w0 q). now right. }
    remember (w' :: ws) as ws' eqn:Ews.
    change (run_reads (w :: ws') p) with ((w, p) :: run_reads ws' (p + 1)).
    cbn [map zsum fold_right snd]. fold (zsum (map (fun a => val (snd a)) (run_reads ws' (p + 1)))).
    destruct (Z.ltb_spec (n + val p) max_no) as [L | L].
    + rewrite IH; [| exact L | intros; apply (H w0); now right]. cbv zeta.
      rewrite Z.add_assoc. destruct (_ <? max_no); [| reflexivity]. do 3 f_equal.
      subst ws'. cbn [run_end length]. lia.
    + replace (_ <? max_no) with false by lia. reflexivity.
Qed.

Lemma walk_while_ok {W} (mask : list (list W * Z)) p n : n < max_no ->
  (forall w q, In (w, q) (reads mask p) -> get q = Some (val q) /\ 0 <= val q) ->
  let total := n + zsum (map (fun a => val (snd a)) (reads mask p)) in
  walk_while get max_no mask p n = Some (if total <? max_no then Some total else None).
Proof using.
  revert p n. induction mask as [|(ws, step) rest IH]; intros p n Hn H; cbv zeta.
  - cbn [reads map zsum fold_right walk_while]. rewrite Z.add_0_r. now rewrite (proj2 (Z.ltb_lt _ _) Hn).
  - cbn [walk_while reads]. rewrite run_while_ok;
      [| exact Hn | intros; apply (H w); cbn [reads]; apply in_or_app; auto].
    cbn [bind]. rewrite map_app, zsum_app, Z.add_assoc.
    assert (S : 0 <= zsum (map (fun a => val (snd a)) (reads rest (run_end ws p + step)))).
    { apply zsum_nonneg. intros [w0 q] Hq. apply (H w0 q). cbn [reads]. apply in_or_app. auto. }
    destruct (Z.ltb_spec (n + zsum (map (fun a => val (snd a)) (run_reads ws p))) max_no) as [L | L].
    + rewrite IH; [reflexivity | exact L |]. intros. apply (H w). cbn [reads]. apply in_or_app. auto.
    + replace (_ <? max_no) with false by lia. reflexivity.
Qed.
End WhileOk.

Lemma act_all_area val l n : act_all add_area val l n = n + zsum (map (fun a => val (snd a)) l).
Proof.
  unfold act_all. revert n. induction l as [|[w q] t IH]; intros n;
    cbn [map zsum fold_right fold_left snd]; [lia |]. rewrite IH. unfold add_area, zsum. lia.
Qed.

Section Area.
Context (im bp : list Z) (x y i j max_no : Z).
Hypothesis Him : image_ok x y im.
Hypothesis Hbp : lut_ok bp.
Hypothesis Hi : 3 <= i < y - 3.
Hypothesis Hj : 3 <= j < x - 3.

Lemma circle_parts p : reads (circle usan_circle x) p
  = reads (firstn 4 (circle usan_circle x)) p
    ++ reads (skipn 4 (circle usan_circle x)) (walk_end (firstn 4 (circle usan_circle x)) p).
Proof using.
  cbn -[Z.add Z.sub Z.of_nat]. reflexivity.
Qed.

(** Giving up early changes nothing: the area is known exactly when it is below
    the threshold. *)
Lemma corner_area_ok :
  corner_area im bp im.[px x i j] max_no x ((i - 3) * x + j - 1)
  = Some (if usan disc im bp x i j <? max_no then Some (usan disc im bp x i j) else None).
Proof using Him Hbp Hi Hj.
  set (start := (i - 3) * x + j - 1). set (mask := circle usan_circle x).
  set (val := fun q => bp.[258 + (im.[px x i j] - im.[q])]).
  assert (ER : reads mask start = map (fun d => (tt, px x (i + fst d) (j + snd d))) disc)
    by apply (circle_reads (fun _ => tt)).
  assert (EP := circle_parts start). fold mask in EP.
  assert (HR : forall w q, In (w, q) (reads mask start) ->
    similar im bp im.[px x i j] q = Some (val q) /\ 0 <= val q).
  { intros w q Hq. rewrite ER in Hq. apply in_map_iff in Hq as (d & E & Hd). inversion E; subst.
    pose proof (proj1 (Forall_forall _ _) disc_within d Hd) as W. cbv beta in W.
    unfold similar. rewrite (rd_pixel im x y Him) by lia. cbn [bind].
    rewrite (lut_pixel im bp x y Him Hbp). split; [reflexivity |].
    exact (proj1 (sim_range im bp x y Him Hbp i j d)). }
  assert (EU : usan disc im bp x i j = 100 + zsum (map (fun a => val (snd a)) (reads mask start))).
  { unfold usan. f_equal. rewrite ER, map_map. reflexivity. }
  rewrite EP, map_app, zsum_app, Z.add_assoc in EU. rewrite EP in HR.
  unfold corner_area. fold mask. rewrite (walk_ok _ _ val) by (intros; apply (HR w); apply in_or_app; auto).
  cbn [bind].
  rewrite act_all_area.
  destruct (Z.ltb_spec (100 + zsum (map (fun a => val (snd a)) (reads (firstn 4 mask) start))) max_no) as [L | L].
  - rewrite (walk_while_ok _ val) by (try exact L; intros; apply (HR w); apply in_or_app; auto).
    cbv zeta. now rewrite <- EU.
  - assert (0 <= zsum (map (fun a => val (snd a)) (reads (skipn 4 mask) (walk_end (firstn 4 mask) start)))).
    { apply zsum_nonneg. intros [w0 q] Hq. apply (HR w0 q). apply in_or_app. auto. }
    now replace (usan disc im bp x i j <? max_no) with false by lia.
Qed.
End Area.

(** ** The corner test *)

(** The offset of the [k]-th pixel on the way. *)
Definition along (gx gy k : Z) : Z * Z := match towards gx gy k with Some d => d | None => (0, 0) end.

(** The pixel looks like a corner: the centre of gravity of the USAN is far from
    it, and the three pixels on the way there belong to the USAN. *)
Definition corner_test (im bp : list Z) (x i j n gx gy : Z) : bool :=
  (gx * gx + gy * gy >? n * n / 2) &&
  (sim_at im bp x i j (along gx gy 1) + sim_at im bp x i j (along gx gy 2)
   + sim_at im bp x i j (along gx gy 3) >? 290).

Lemma quot_abs_le a b : b <> 0 -> Z.abs (Z.quot a b) <= Z.abs a.
Proof.
  intros Hb. rewrite <- Z.quot_abs by exact Hb. rewrite Z.quot_div_nonneg by lia.
  apply Z.div_le_upper_bound; nia.
Qed.

Lemma sign_quot a : a <> 0 -> int_div (Z.abs a) a = Some (Z.sgn a).
Proof.
  intros Ha. assert (E : Z.quot (Z.abs a) a = Z.sgn a).
  { destruct a as [|p|p]; [easy | |].
    - apply Z.quot_same. lia.
    - cbn [Z.abs Z.sgn]. rewrite <- (Pos2Z.opp_pos p), Z.quot_opp_r, Z.quot_same by lia. reflexivity. }
  rewrite int_div_some; rewrite ?E; auto. unfold is_i32. destruct a; cbn; lia.
Qed.

Lemma scaled_ok k a b : 1 <= k <= 3 -> 0 < b < 2 ^ 20 -> Z.abs a <= b ->
  exists d, scaled k (f32_div (f32_of_Z a) (f32_of_Z b)) = Some d /\ Z.abs d <= k.
Proof.
  intros Hk Hb Ha. pose proof (f32_div_le1 a b ltac:(lia) Ha) as Hd. unfold scaled.
  destruct (Z.eqb_spec k 1) as [-> | N]; [now apply FTOI_upto |].
  destruct (upto_of_Z 24 128 10 k) as [Hu _]; [lia | lia | lia |]. rewrite Z.abs_eq in Hu by lia.
  destruct (upto_mul 24 128 10 0 k 1 (f32_of_Z k) (f32_div (f32_of_Z a) (f32_of_Z b))) as [Hm _];
    try lia; try assumption.
  rewrite Z.mul_1_r in Hm. apply FTOI_upto; [lia | exact Hm].
Qed.

Lemma towards_ok gx gy k : 1 <= k <= 3 -> Z.abs gx < 2 ^ 20 -> Z.abs gy < 2 ^ 20 -> gx * gx + gy * gy <> 0 ->
  exists di dj, towards gx gy k = Some (di, dj) /\ Z.abs di <= k /\ Z.abs dj <= k.
Proof.
  intros Hk Hx Hy Hn. unfold towards. destruct (Z.ltb_spec (gy * gy) (gx * gx)) as [L | L].
  - assert (gx <> 0) by nia. assert (Z.abs gy <= Z.abs gx) by (apply Z.square_le_simpl_nonneg; lia).
    destruct (scaled_ok k gy (Z.abs gx)) as (d & E & Hd); [lia | lia | lia |].
    rewrite sign_quot by assumption. cbn [bind]. rewrite E. cbn [bind].
    exists d, (k * Z.sgn gx). split; [reflexivity |]. split; [exact Hd |]. destruct gx; cbn; lia.
  - assert (gy <> 0) by nia. assert (Z.abs gx <= Z.abs gy) by (apply Z.square_le_simpl_nonneg; lia).
    destruct (scaled_ok k gx (Z.abs gy)) as (d & E & Hd); [lia | lia | lia |].
    rewrite sign_quot by assumption. cbn [bind]. rewrite E. cbn [bind].
    exists (k * Z.sgn gy), d. split; [reflexivity |]. split; [destruct gy; cbn; lia | exact Hd].
Qed.

Lemma along_ok gx gy k : 1 <= k <= 3 -> Z.abs gx < 2 ^ 20 -> Z.abs gy < 2 ^ 20 -> gx * gx + gy * gy <> 0 ->
  towards gx gy k = Some (along gx gy k) /\ Z.abs (fst (along gx gy k)) <= 3 /\ Z.abs (snd (along gx gy k)) <= 3.
Proof.
  intros Hk Hx Hy Hn. destruct (towards_ok gx gy k Hk Hx Hy Hn) as (di & dj & E & Hi & Hj).
  unfold along. rewrite E. cbn [fst snd]. repeat split; lia.
Qed.

Section Pixel.
Context (im bp : list Z) (x y max_no : Z).
Hypothesis Him : image_ok x y im.
Hypothesis Hbp : lut_ok bp.

Lemma moment_bound w i j : (forall d, In d disc -> Z.abs (w d) <= 3) ->
  Z.abs (moment w disc im bp x i j) <= 300 * 36.
Proof using Him Hbp.
  intros Hw. unfold moment.
  assert (H : forall l, (forall d, In d l -> Z.abs (w d) <= 3) ->
    Z.abs (zsum (map (fun d => w d * sim_at im bp x i j d) l)) <= 300 * Z.of_nat (length l)).
  { induction l as [|d t IH]; intros Hl; [cbn; lia |].
    cbn [map zsum fold_right length]. specialize (IH (fun d' K => Hl d' (or_intror K))).
    pose proof (Hl d (or_introl eq_refl)). pose proof (sim_range im bp x y Him Hbp i j d).
    fold (zsum (map (fun d => w d * sim_at im bp x i j d) t)).
    assert (Z.abs (w d * sim_at im bp x i j d) <= 300) by (rewrite Z.abs_mul; nia). lia. }
  exact (H disc Hw).
Qed.

(** The moments of a pixel. *)
Definition gx i j := moment snd disc im bp x i j.
Definition gy i j := moment fst disc im bp x i j.

Lemma g_bound i j : Z.abs (gx i j) < 2 ^ 20 /\ Z.abs (gy i j) < 2 ^ 20.
Proof using Him Hbp.
  assert (D : forall d, In d disc -> Z.abs (snd d) <= 3 /\ Z.abs (fst d) <= 3).
  { intros d Hd. pose proof (proj1 (Forall_forall _ _) disc_within d Hd) as W. cbv beta in W. lia. }
  pose proof (moment_bound snd i j (fun d Hd => proj1 (D d Hd))).
  pose proof (moment_bound fst i j (fun d Hd => proj2 (D d Hd))). unfold gx, gy. lia.
Qed.

Lemma usan_range i j : 100 <= usan disc im bp x i j <= 3700.
Proof using Him Hbp.
  unfold usan.
  assert (H : forall l, 0 <= zsum (map (sim_at im bp x i j) l) <= 100 * Z.of_nat (length l)).
  { induction l as [|d t IH]; [cbn; lia |]. cbn [map zsum fold_right length].
    pose proof (sim_range im bp x y Him Hbp i j d). unfold zsum in IH. lia. }
  specialize (H disc). change (Z.of_nat (length disc)) with 36 in H. lia.
Qed.

(** Whether the first loop records a response, and the response. *)
Definition cornerlike i j : bool :=
  (usan disc im bp x i j <? max_no) && corner_test im bp x i j (usan disc im bp x i j) (gx i j) (gy i j).

Definition corner_response i j : Z :=
  if interior 5 x y i j && cornerlike i j then max_no - usan disc im bp x i j else 0.

(** The entries of [r], [cgx] and [cgy] that the loop writes. *)
Definition corner_cells i j : Z * Z * Z :=
  let n := usan disc im bp x i j in (max_no - n, Z.quot (51 * gx i j) n, Z.quot (51 * gy i j) n).

Lemma three_along_ok i j : 3 <= i < y - 3 -> 3 <= j < x - 3 -> gx i j * gx i j + gy i j * gy i j <> 0 ->
  three_along im bp im.[px x i j] x i j (towards (gx i j) (gy i j))
  = Some (sim_at im bp x i j (along (gx i j) (gy i j) 1) + sim_at im bp x i j (along (gx i j) (gy i j) 2)
          + sim_at im bp x i j (along (gx i j) (gy i j) 3)).
Proof using Him Hbp.
  intros Hi Hj Hn. destruct (g_bound i j) as [Bx By]. unfold three_along.
  assert (R : forall d : Z * Z, Z.abs (fst d) <= 3 -> Z.abs (snd d) <= 3 ->
    similar im bp im.[px x i j] ((i + fst d) * x + j + snd d) = Some (sim_at im bp x i j d)).
  { intros d D1 D2. unfold similar.
    replace ((i + fst d) * x + j + snd d) with (px x (i + fst d) (j + snd d)) by (unfold px; lia).
    rewrite (rd_pixel im x y Him) by lia. cbn [bind]. apply (lut_pixel im bp x y Him Hbp). }
  destruct (along_ok (gx i j) (gy i j) 1) as (E1 & A1 & B1); [lia | lia | lia | exact Hn |].
  destruct (along_ok (gx i j) (gy i j) 2) as (E2 & A2 & B2); [lia | lia | lia | exact Hn |].
  destruct (along_ok (gx i j) (gy i j) 3) as (E3 & A3 & B3); [lia | lia | lia | exact Hn |].
  pose proof (R _ A1 B1) as R1. pose proof (R _ A2 B2) as R2. pose proof (R _ A3 B3) as R3.
  rewrite E1, E2, E3. destruct (along (gx i j) (gy i j) 1) as [d1 d1'], (along (gx i j) (gy i j) 2) as [d2 d2'],
    (along (gx i j) (gy i j) 3) as [d3 d3']. cbn [bind fst snd] in *. rewrite R1. cbn [bind]. rewrite R2. cbn [bind].
  rewrite R3. reflexivity.
Qed.

Lemma corner_pixel_ok i j r cgx cgy : 5 <= i < y - 5 -> 5 <= j < x - 5 ->
  len r = x * y -> len cgx = x * y -> len cgy = x * y ->
  corner_pixel im bp max_no x i j (r, cgx, cgy) =
    if cornerlike i j then
      let '(a, b, c) := corner_cells i j in
      Some (aset r (px x i j) a, aset cgx (px x i j) b, aset cgy (px x i j) c)
    else Some (r, cgx, cgy).
Proof using Him Hbp.
  intros Hi Hj Hr Hcx Hcy. unfold corner_pixel, cornerlike.
  rewrite (rd_pixel im x y Him) by lia. cbn [bind].
  rewrite (corner_area_ok im bp x y i j max_no Him Hbp) by lia. cbn [bind].
  set (n := usan disc im bp x i j). pose proof (usan_range i j) as Hn. fold n in Hn.
  destruct (n <? max_no); [| reflexivity]. cbn [andb].
  rewrite moments_circle_weights.
  rewrite (mask_walk im bp x y Him Hbp _ _ _ _ _ 3 i j _ (circle_reads _ x i j) disc_within) by lia.
  cbn [bind]. rewrite fold_moments, !Z.add_0_l.
  fold (moment snd disc im bp x i j). fold (moment fst disc im bp x i j). fold (gx i j) (gy i j).
  assert (Hnn : 0 <= n * n <= 3700 * 3700) by nia.
  pose proof (quot_abs_le (n * n) 2 ltac:(lia)).
  rewrite int_div_some by (unfold is_i32; lia).
  cbn [bind]. rewrite Z.quot_div_nonneg by lia. unfold corner_test.
  destruct (Z.gtb_spec (gx i j * gx i j + gy i j * gy i j) (n * n / 2)) as [L | L]; [| reflexivity].
  assert (gx i j * gx i j + gy i j * gy i j <> 0) by (assert (0 <= n * n / 2) by (apply Z.div_pos; lia); lia).
  rewrite three_along_ok by (lia || assumption). cbn [bind andb].
  destruct (_ >? 290); [| reflexivity].
  pose proof (px_inside x y i j ltac:(lia) ltac:(lia)). destruct (g_bound i j) as [Bx By].
  rewrite wr_some by lia. cbn [bind].
  pose proof (quot_abs_le (51 * gx i j) n ltac:(lia)). pose proof (quot_abs_le (51 * gy i j) n ltac:(lia)).
  rewrite int_div_some by (try (unfold is_i32); lia). cbn [bind]. rewrite wr_some by lia. cbn [bind].
  rewrite int_div_some by (try (unfold is_i32); lia). cbn [bind]. rewrite wr_some by lia. reflexivity.
Qed.

(** What the first loop leaves. *)
Lemma corner_raster r cgx cgy : len r = x * y -> len cgx = x * y -> len cgy = x * y ->
  (forall i j, 0 <= i < y -> 0 <= j < x -> r.[px x i j] = 0) ->
  exists r' cgx' cgy', raster 5 x y (corner_pixel im bp max_no x) (r, cgx, cgy) = Some (r', cgx', cgy') /\
    len r' = x * y /\ len cgx' = x * y /\ len cgy' = x * y /\
    forall i j, 0 <= i < y -> 0 <= j < x ->
      r'.[px x i j] = corner_response i j /\
      (interior 5 x y i j && cornerlike i j = true ->
         (r'.[px x i j], cgx'.[px x i j], cgy'.[px x i j]) = corner_cells i j).
Proof using Him Hbp.
  intros Hr Hcx Hcy H0.
  destruct (raster_cells 5 x y (corner_pixel im bp max_no x)
    (fun s => let '(r, a, b) := s in len r = x * y /\ len a = x * y /\ len b = x * y)
    (fun s k => let '(r, a, b) := s in (r.[k], a.[k], b.[k]))
    (fun i j c => if cornerlike i j then corner_cells i j else c) ltac:(lia))
    with (a := (r, cgx, cgy)) as ([[r' a'] b'] & E & (L1 & L2 & L3) & Hc); [| auto |].
  - intros i j [[s a] b] Hi Hj (S1 & S2 & S3). rewrite corner_pixel_ok by assumption.
    destruct (cornerlike i j); [| exists (s, a, b); auto].
    destruct (corner_cells i j) as [[ca cb] cc].
    pose proof (px_inside x y i j ltac:(lia) ltac:(lia)).
    eexists; split; [reflexivity |]. cbv beta iota. rewrite !len_aset. unfold len in *.
    split; [auto |]. split.
    + now rewrite !aget_aset, !Z.eqb_refl by lia.
    + intros k Hk Nk. rewrite !aget_aset by lia. now rewrite (proj2 (Z.eqb_neq _ _) Nk).
  - exists r', a', b'. split; [exact E |]. split; [exact L1 |]. split; [exact L2 |]. split; [exact L3 |].
    intros i j Hi Hj. specialize (Hc i j Hi Hj). cbv beta iota in Hc. unfold corner_response.
    destruct (interior 5 x y i j); cbn [andb] in *.
    + destruct (cornerlike i j); [split; [now injection Hc as -> _ _ | auto] |].
      split; [injection Hc as -> _ _; now apply H0 | discriminate].
    + split; [injection Hc as -> _ _; now apply H0 | discriminate].
Qed.
End Pixel.

(** ** Local maxima *)

(** [R] has a positive maximum of the 7x7 pixels around [(i, j)] there; of equal
    values the first in raster order counts. *)
Definition is_maximum (R : Z -> Z -> Z) (p : Z * Z) : bool :=
  let (i, j) := p in
  (R i j >? 0) &&
  forallb (fun d => let (u, v) := (i + fst d, j + snd d) in
             centre_pixel d || (if passed i j u v then R i j >? R u v else R i j >=? R u v)) (grid 3).

(** The comparisons of the source. *)
Lemma is_maximum_window R i j : is_maximum R (i, j) =
  (R i j >? 0) &&
  forallb (fun d => if before d then R i j >? R (i + fst d) (j + snd d) else R i j >=? R (i + fst d) (j + snd d))
    window.
Proof.
  unfold is_maximum, window. f_equal. generalize (grid 3) as l.
  induction l as [|d l IH]; [reflexivity |]. cbn [forallb filter]. rewrite IH.
  destruct (centre_pixel d); [reflexivity |]. cbn [negb orb forallb]. f_equal.
  replace (before d) with (passed i j (i + fst d) (j + snd d)) by (unfold passed, before; lia). reflexivity.
Qed.

Lemma window_within : within 3 window.
Proof. apply within_check. reflexivity. Qed.

Section Maxima.
Context (r : list Z) (R : Z -> Z -> Z) (x y b : Z).
Context (make : Z -> Z -> option corner) (mk : Z * Z -> corner).
Hypothesis Hb : 3 <= b.
Hypothesis Hlen : len r = x * y.
Hypothesis HR : forall i j, 0 <= i < y -> 0 <= j < x -> r.[px x i j] = R i j.
Hypothesis Hmake : forall i j, interior b x y i j = true -> R i j > 0 -> make i j = Some (mk (i, j)).

Lemma maximum_pixel_ok i j l : interior b x y i j = true ->
  maximum_pixel make r x i j (Found l)
  = Some (if is_maximum R (i, j) then add_corner l (mk (i, j)) else Found l).
Proof using Hb Hlen HR Hmake.
  intros Hin. pose proof (proj1 (interior_true _ _ _ _ _) Hin) as [Hi Hj]. rewrite is_maximum_window. unfold maximum_pixel.
  rewrite rd_some, HR by (rewrite ?Hlen; try apply px_inside; lia). cbn [bind].
  destruct (Z.gtb_spec (R i j) 0) as [P | P]; [| reflexivity]. cbn [andb].
  assert (W : forall d, In d window -> 0 <= i + fst d < y /\ 0 <= j + snd d < x).
  { intros d Hd. pose proof (proj1 (Forall_forall _ _) window_within d Hd) as H. cbv beta in H. lia. }
  rewrite peak_ok.
  - cbn [bind]. replace (forallb _ (tests7 x i j)) with
      (forallb (fun d => if before d then R i j >? R (i + fst d) (j + snd d) else R i j >=? R (i + fst d) (j + snd d)) window).
    + destruct (forallb _ window); [| reflexivity]. rewrite Hmake by (assumption || lia). reflexivity.
    + unfold tests7. revert W. generalize window as w. induction w as [|d t IH]; intros W; [reflexivity |].
      cbn [map forallb]. rewrite IH by (intros; apply W; now right). f_equal.
      destruct (W d (or_introl eq_refl)).
      replace ((i + fst d) * x + j + snd d) with (px x (i + fst d) (j + snd d)) by (unfold px; lia).
      now rewrite HR by assumption.
  - unfold tests7. apply Forall_map, Forall_forall. intros d Hd. cbn [snd]. rewrite Hlen.
    destruct (W d Hd).
    replace ((i + fst d) * x + j + snd d) with (px x (i + fst d) (j + snd d)) by (unfold px; lia).
    now apply px_inside.
Qed.

(** The maxima among [l], or the exit when there are too many. *)
Definition listed (l : list corner) : found :=
  if Z.of_nat (length l) <? MAX_CORNERS then Found l else TooMany.

Lemma too_many_stays l : fold_opt (fun p => maximum_pixel make r x (fst p) (snd p)) l TooMany = Some TooMany.
Proof using. induction l as [|p t IH]; [reflexivity |]. exact IH. Qed.

Lemma maxima_fold ps acc : Forall (fun p => interior b x y (fst p) (snd p) = true) ps ->
  Z.of_nat (length acc) < MAX_CORNERS ->
  fold_opt (fun p => maximum_pixel make r x (fst p) (snd p)) ps (Found acc)
  = Some (listed (acc ++ map mk (filter (is_maximum R) ps))).
Proof using Hb Hlen HR Hmake.
  revert acc. induction ps as [|[i j] t IH]; intros acc Hp Ha.
  - cbn [fold_opt filter map]. unfold listed. rewrite app_nil_r. now rewrite (proj2 (Z.ltb_lt _ _) Ha).
  - apply List.Forall_cons_iff in Hp as [Hij Hp]. cbn [fst snd] in Hij. cbn [fold_opt fst snd].
    rewrite maximum_pixel_ok by exact Hij. cbn [bind filter].
    destruct (is_maximum R (i, j)); [| now apply IH]. cbn [map]. unfold add_corner.
    destruct (Z.eqb_spec (Z.of_nat (length acc) + 1) MAX_CORNERS) as [E | N].
    + rewrite too_many_stays. unfold listed. rewrite length_app. cbn [length].
      rewrite (proj2 (Z.ltb_ge _ _)) by lia. reflexivity.
    + rewrite IH by (try exact Hp; rewrite length_app; cbn [length]; lia).
      now rewrite <- app_assoc.
Qed.

Lemma maxima_raster : raster b x y (maximum_pixel make r x) (Found [])
  = Some (listed (map mk (filter (is_maximum R) (pixels b x y)))).
Proof using Hb Hlen HR Hmake.
  rewrite raster_fold, maxima_fold; [reflexivity | | cbn; unfold MAX_CORNERS; lia].
  apply Forall_forall. intros [i j] Hp. now apply in_pixels.
Qed.
End Maxima.

(** How the list ends. *)
Definition corners_result (l : list corner) (r : list Z) : res (list corner * list Z) :=
  if Z.of_nat (length l) <? MAX_CORNERS then Ret (l ++ [terminator], r) else Exit 1.

Lemma finish_listed l r : finish (listed l) r = corners_result l r.
Proof. unfold finish, listed, corners_result. now destruct (_ <? MAX_CORNERS). Qed.

(** The entry of a corner of the full version. *)
Definition corner_of (im bp : list Z) (x : Z) (p : Z * Z) : corner :=
  let (i, j) := p in
  let n := usan disc im bp x i j in
  mkCorner j i 0 (Z.quot (51 * gx im bp x i j) n) (Z.quot (51 * gy im bp x i j) n) im.[px x i j].

Lemma corners_ok im r bp max_no x y cgx cgy :
  image_ok x y im -> lut_ok bp -> len r = x * y -> len cgx = x * y -> len cgy = x * y ->
  exists r', len r' = x * y /\
    (forall i j, 0 <= i < y -> 0 <= j < x -> r'.[px x i j] = corner_response im bp x y max_no i j) /\
    susan_corners im r bp max_no x y cgx cgy
    = corners_result (map (corner_of im bp x)
        (filter (is_maximum (corner_response im bp x y max_no)) (pixels 5 x y))) r'.
Proof.
  intros Him Hbp Hr Hcx Hcy. unfold susan_corners. rewrite memset_ok by (destruct Him; nia). cbn [lift rbind].
  assert (Hxy : 0 <= x * y) by (destruct Him; nia).
  destruct (corner_raster im bp x y max_no Him Hbp (repeat 0 (Z.to_nat (x * y))) cgx cgy)
    as (r' & cgx' & cgy' & -> & Hr' & Hx' & Hy' & Hc); try assumption; [now apply len_repeat | |].
  { intros i j Hi Hj. apply aget_repeat, px_inside; assumption. }
  cbn [lift rbind]. exists r'. split; [exact Hr' |]. split; [intros; now apply Hc |].
  rewrite (maxima_raster r' (corner_response im bp x y max_no) x y 5 _ (corner_of im bp x));
    [| lia | exact Hr' | intros; now apply Hc |].
  - cbn [lift rbind]. apply finish_listed.
  - intros i j Hin HP. pose proof (proj1 (interior_true _ _ _ _ _) Hin) as [Hi Hj].
    destruct (Hc i j ltac:(lia) ltac:(lia)) as [_ HC].
    unfold corner_response in HP. destruct (interior 5 x y i j && cornerlike im bp x max_no i j) eqn:C; [| lia].
    specialize (HC eq_refl). unfold corner_cells in HC. injection HC as _ E1 E2.
    pose proof (px_inside x y i j ltac:(lia) ltac:(lia)).
    unfold corner_record. rewrite !rd_some by lia. cbn [bind].
    rewrite (rd_pixel im x y Him) by lia. cbn [bind]. unfold corner_of. now rewrite E1, E2.
Qed.

(** C12. [susan_corners] has no undefined behaviour on any image: giving up the sum
    early changes nothing, the steps along the direction of the centre of
    gravity stay within the window, and the corners listed, in raster order,
    are exactly the maxima of the 7x7 windows of the response.  With 15000
    corners or more the program exits with status 1. *)
Theorem susan_corners_listed im r bp max_no x y cgx cgy :
  image_ok x y im -> lut_ok bp -> len r = x * y -> len cgx = x * y -> len cgy = x * y ->
  exists r', len r' = x * y /\
    (forall i j, 0 <= i < y -> 0 <= j < x -> r'.[px x i j] = corner_response im bp x y max_no i j) /\
    susan_corners im r bp max_no x y cgx cgy
    = corners_result (map (corner_of im bp x)
        (filter (is_maximum (corner_response im bp x y max_no)) (pixels 5 x y))) r'.
Proof. apply corners_ok. Qed.

Lemma susan_corners_listed_witness :
  exists r', len r' = 143 /\
    susan_corners (ramp 13 11) (zeros 143) step_lut 1850 13 11 (zeros 143) (zeros 143)
    = corners_result (map (corner_of (ramp 13 11) step_lut 13)
        (filter (is_maximum (corner_response (ramp 13 11) step_lut 13 11 1850)) (pixels 5 13 11))) r'.
Proof.
  destruct (susan_corners_listed (ramp 13 11) (zeros 143) step_lut 1850 13 11 (zeros 143) (zeros 143)
    (ramp_ok 13 11 ltac:(lia) ltac:(lia) ltac:(lia)) step_lut_ok eq_refl eq_refl eq_refl) as (r' & Hl & _ & E).
  exists r'. auto.
Defined.

(** ** The quick version *)

Definition psum (im : list Z) (x i j : Z) (offsets : list (Z * Z)) : Z :=
  zsum (map (fun d => im.[px x (i + fst d) (j + snd d)]) offsets).

Definition quick_of (im : list Z) (x : Z) (p : Z * Z) : corner :=
  let (i, j) := p in
  let s := psum im x i j in
  mkCorner j i 0 (Z.quot (2 * (s (column5 2) - s (column5 (-2))) + (s (column5 1) - s (column5 (-1)))) 15)
    (Z.quot (2 * (s (row5 2) - s (row5 (-2))) + (s (row5 1) - s (row5 (-1)))) 15)
    (Z.quot (s (grid 2)) 25).

Section Quick.
Context (im bp : list Z) (x y max_no : Z).
Hypothesis Him : image_ok x y im.
Hypothesis Hbp : lut_ok bp.

Lemma sum_pixels_ok i j offsets : 2 <= i < y - 2 -> 2 <= j < x - 2 -> within 2 offsets ->
  sum_pixels im x i j offsets = Some (psum im x i j offsets).
Proof using Him.
  intros Hi Hj. induction offsets as [|[di dj] t IH]; intros Hw; [reflexivity |].
  apply List.Forall_cons_iff in Hw as [Hd Hw]. cbn [fst snd] in Hd. cbn [sum_pixels].
  replace ((i + di) * x + j + dj) with (px x (i + di) (j + dj)) by (unfold px; lia).
  rewrite (rd_pixel im x y Him) by lia. cbn [bind]. rewrite (IH Hw). reflexivity.
Qed.

Lemma quick_record_ok i j : 2 <= i < y - 2 -> 2 <= j < x - 2 ->
  quick_record im x i j = Some (quick_of im x (i, j)).
Proof using Him.
  intros Hi Hj. unfold quick_record, quick_of.
  rewrite !sum_pixels_ok by (try assumption; apply within_check; reflexivity). cbn [bind].
  apply f_equal. f_equal; (apply f_equal2; [lia | reflexivity]).
Qed.

Lemma quick_raster : exists r',
  raster 7 x y (quick_pixel im bp max_no x) (repeat 0 (Z.to_nat (x * y))) = Some r' /\ len r' = x * y /\
  forall i j, 0 <= i < y -> 0 <= j < x -> r'.[px x i j] = response disc 7 max_no im bp x y i j.
Proof using Him Hbp.
  assert (Hxy : 0 <= x * y) by (destruct Him; nia).
  destruct (raster_cells 7 x y (quick_pixel im bp max_no x) (fun r => len r = x * y) aget
    (fun i j c => if usan disc im bp x i j <? max_no then max_no - usan disc im bp x i j else c) ltac:(lia))
    with (a := repeat 0 (Z.to_nat (x * y))) as (r' & E & Hl & Hc).
  - intros i j r Hi Hj Hr. unfold quick_pixel. rewrite (rd_pixel im x y Him) by lia. cbn [bind].
    rewrite (corner_area_ok im bp x y i j max_no Him Hbp) by lia. cbn [bind].
    destruct (usan disc im bp x i j <? max_no); [now apply (wr_cells x y); try lia |]. exists r. auto.
  - now apply len_repeat.
  - exists r'. split; [exact E |]. split; [exact Hl |]. intros i j Hi Hj. rewrite Hc by assumption.
    rewrite aget_repeat by (apply px_inside; assumption). unfold response.
    destruct (interior 7 x y i j); [| reflexivity].
    destruct (Z.ltb_spec (usan disc im bp x i j) max_no); lia.
Qed.

Lemma quick_ok r : len r = x * y ->
  exists r', len r' = x * y /\
    (forall i j, 0 <= i < y -> 0 <= j < x -> r'.[px x i j] = response disc 7 max_no im bp x y i j) /\
    susan_corners_quick im r bp max_no x y
    = corners_result (map (quick_of im x)
        (filter (is_maximum (response disc 7 max_no im bp x y)) (pixels 7 x y))) r'.
Proof using Him Hbp.
  intros Hr. unfold susan_corners_quick. rewrite memset_ok by (destruct Him; nia). cbn [lift rbind].
  destruct quick_raster as (r' & -> & Hr' & Hc). cbn [lift rbind].
  exists r'. split; [exact Hr' |]. split; [exact Hc |].
  rewrite (maxima_raster r' (response disc 7 max_no im bp x y) x y 7 _ (quick_of im x));
    [cbn [lift rbind]; apply finish_listed | lia | exact Hr' | exact Hc |].
  intros i j Hin _. pose proof (proj1 (interior_true _ _ _ _ _) Hin) as [Hi Hj].
  apply quick_record_ok; lia.
Qed.

(** The quick version has no undefined behaviour either and lists exactly the
    maxima of the plain SUSAN response at least 7 pixels from the sides, with
    the mean brightness and the gradient of the 5x5 window. *)
Theorem susan_corners_quick_listed r : len r = x * y ->
  exists r', len r' = x * y /\
    (forall i j, 0 <= i < y -> 0 <= j < x -> r'.[px x i j] = response disc 7 max_no im bp x y i j) /\
    susan_corners_quick im r bp max_no x y
    = corners_result (map (quick_of im x)
        (filter (is_maximum (response disc 7 max_no im bp x y)) (pixels 7 x y))) r'.
Proof using Him Hbp. apply quick_ok. Qed.
End Quick.

Lemma susan_corners_quick_listed_witness :
  exists r', len r' = 272 /\
    susan_corners_quick (ramp 17 16) (zeros 272) step_lut 1850 17 16
    = corners_result (map (quick_of (ramp 17 16) 17)
        (filter (is_maximum (response disc 7 1850 (ramp 17 16) step_lut 17 16)) (pixels 7 17 16))) r'.
Proof.
  destruct (susan_corners_quick_listed (ramp 17 16) step_lut 17 16 1850
    (ramp_ok 17 16 ltac:(lia) ltac:(lia) ltac:(lia)) step_lut_ok (zeros 272) eq_refl) as (r' & Hl & _ & E).
  exists r'. auto.
Defined.

(** ** Corners are apart *)

(** Two different maxima are more than 3 rows or more than 3 columns apart. *)
Lemma maxima_apart R i j u v : is_maximum R (i, j) = true -> is_maximum R (u, v) = true ->
  (i, j) <> (u, v) -> 3 < Z.abs (i - u) \/ 3 < Z.abs (j - v).
Proof.
  intros H1 H2 N. destruct (Z_lt_ge_dec 3 (Z.abs (i - u))) as [|Gi]; [auto |].
  destruct (Z_lt_ge_dec 3 (Z.abs (j - v))) as [|Gj]; [auto | exfalso].
  rewrite is_maximum_window in H1, H2. apply andb_true_iff in H1 as [_ H1], H2 as [_ H2].
  rewrite forallb_forall in H1, H2.
  assert (W : forall a b, -3 <= a <= 3 -> -3 <= b <= 3 -> (a, b) <> (0, 0) -> In (a, b) window).
  { intros a b Ha Hb Nab. unfold window. apply filter_In. split.
    - assert (K : forall c, -3 <= c <= 3 -> In c [-3; -2; -1; 0; 1; 2; 3]) by (intros; cbn; lia).
      change (grid 3) with (flat_map (fun dy => map (fun dx => (dy, dx)) [-3; -2; -1; 0; 1; 2; 3]) [-3; -2; -1; 0; 1; 2; 3]).
      apply in_flat_map. exists a. split; [now apply K |]. apply in_map. now apply K.
    - unfold centre_pixel. cbn [fst snd]. destruct (Z.eqb_spec a 0), (Z.eqb_spec b 0); subst; easy. }
  assert (N' : (u - i, v - j) <> (0, 0)) by (intros E; injection E as E1 E2; apply N; f_equal; lia).
  assert (N'' : (i - u, j - v) <> (0, 0)) by (intros E; injection E as E1 E2; apply N; f_equal; lia).
  specialize (H1 _ (W (u - i) (v - j) ltac:(lia) ltac:(lia) N')).
  specialize (H2 _ (W (i - u) (j - v) ltac:(lia) ltac:(lia) N'')). cbn [fst snd] in H1, H2.
  replace (i + (u - i)) with u in H1 by lia. replace (j + (v - j)) with v in H1 by lia.
  replace (u + (i - u)) with i in H2 by lia. replace (v + (j - v)) with j in H2 by lia.
  unfold before in H1, H2. cbn [fst snd] in H1, H2.
  assert (B : (u - i <? 0) || (u - i =? 0) && (v - j <? 0) =
              negb ((i - u <? 0) || (i - u =? 0) && (j - v <? 0))).
  { assert (u <> i \/ v <> j) by (destruct (Z.eq_dec u i), (Z.eq_dec v j); auto; subst; easy). lia. }
  rewrite B in H1. destruct ((i - u <? 0) || _); cbn [negb] in H1; lia.
Qed.

(** ** Drawing corners *)

Definition apart (p q : Z * Z) : Prop := 3 < Z.abs (fst p - fst q) \/ 3 < Z.abs (snd p - snd q).

Definition at_pixel (u v : Z) (p : Z * Z) : bool := (u =? fst p) && (v =? snd p).
Definition next_to (u v : Z) (p : Z * Z) : bool :=
  existsb (fun d => (u + fst d =? fst p) && (v + snd d =? snd p)) ring.

(** The pixel [(u, v)] after the corners at [ps] have been drawn. *)
Definition drawn (ps : list (Z * Z)) (drawing_mode u v o : Z) : Z :=
  if existsb (at_pixel u v) ps then 0
  else if (drawing_mode =? 0) && existsb (next_to u v) ps then 255
  else o.

Lemma next_to_close u v p : next_to u v p = true -> Z.abs (u - fst p) <= 1 /\ Z.abs (v - snd p) <= 1.
Proof.
  intros H. apply existsb_exists in H as (d & Hd & H).
  pose proof (proj1 (Forall_forall _ _) ring_within d Hd) as W. cbv beta in W. lia.
Qed.

Lemma drawn_cons p ps mode u v o : Forall (apart p) ps ->
  drawn ps mode u v (drawn [p] mode u v o) = drawn (p :: ps) mode u v o.
Proof.
  intros Hp. unfold drawn. cbn [existsb]. rewrite !orb_false_r.
  destruct (existsb (at_pixel u v) ps) eqn:E1; [now rewrite orb_true_r |]. rewrite orb_false_r.
  destruct (at_pixel u v p) eqn:E2.
  - destruct (existsb (next_to u v) ps) eqn:E3; [| now rewrite andb_false_r].
    apply existsb_exists in E3 as (q & Hq & E3). apply next_to_close in E3.
    pose proof (proj1 (Forall_forall _ _) Hp q Hq) as A. unfold apart, at_pixel in *. lia.
  - destruct (mode =? 0), (next_to u v p), (existsb (next_to u v) ps); reflexivity.
Qed.

Lemma corner_draw_ok x y mode (mk : Z * Z -> corner) ps im : len im = x * y ->
  (forall p, c_y (mk p) = fst p /\ c_x (mk p) = snd p /\ c_info (mk p) <> 7) ->
  Forall (fun p => interior 1 x y (fst p) (snd p) = true) ps -> ForallOrdPairs apart ps ->
  exists im', corner_draw im (map mk ps ++ [terminator]) x mode = Some im' /\ len im' = x * y /\
    forall u v, 0 <= u < y -> 0 <= v < x -> im'.[px x u v] = drawn ps mode u v im.[px x u v].
Proof.
  intros Hl Hmk Hin Hap. revert im Hl Hin. induction Hap as [|[i j] t Hp Ht IH]; intros im Hl Hin.
  - exists im. cbn. rewrite andb_false_r. auto.
  - apply List.Forall_cons_iff in Hin as [Hij Hin]. apply interior_true in Hij as [Hi Hj]. cbn [fst snd] in Hi, Hj.
    destruct (Hmk (i, j)) as (Ey & Ex & Einfo). cbn [fst snd] in Ey, Ex.
    cbn [map app corner_draw]. rewrite (proj2 (Z.eqb_neq _ _) Einfo), Ey, Ex.
    assert (S : exists im1,
      (if mode =? 0 then mark_block x ((i - 1) * x + j - 1) (Some 0) im else wr im (i * x + j) 0) = Some im1 /\
      len im1 = x * y /\
      forall u v, 0 <= u < y -> 0 <= v < x -> im1.[px x u v] = drawn [(i, j)] mode u v im.[px x u v]).
    { unfold drawn. destruct (mode =? 0) eqn:Em.
      - destruct (mark_block_ok x y im i j ((i - 1) * x + j - 1) (Some 0) Hl) as (im1 & E & Hl1 & G); try lia.
        exists im1. split; [exact E |]. split; [exact Hl1 |]. intros u v Hu Hv. rewrite G by assumption.
        cbn [existsb andb]. rewrite !orb_false_r. fold (next_to u v (i, j)).
        unfold at_pixel at 1. cbn [fst snd].
        change (existsb _ ring) with (next_to u v (i, j)).
        destruct (next_to u v (i, j)) eqn:En; [| reflexivity].
        destruct (Z.eqb_spec u i), (Z.eqb_spec v j); try reflexivity. subst.
        unfold next_to in En. exfalso. revert En.
        change ring with [(-1,-1); (-1,0); (-1,1); (0,-1); (0,1); (1,-1); (1,0); (1,1)]. cbn [existsb fst snd]. lia.
      - destruct (wr_px x y im i j 0 Hl ltac:(lia) ltac:(lia)) as (im1 & E & Hl1 & G).
        exists im1. split; [exact E |]. split; [exact Hl1 |]. intros u v Hu Hv. rewrite G by assumption.
        cbn [existsb andb]. rewrite orb_false_r. unfold at_pixel. reflexivity. }
    destruct S as (im1 & -> & Hl1 & G1). cbn [bind].
    destruct (IH im1 Hl1 Hin) as (im' & E & Hl' & G'). exists im'. split; [exact E |]. split; [exact Hl' |].
    intros u v Hu Hv. rewrite G', G1 by assumption. now apply drawn_cons.
Qed.

Lemma NoDup_pixels b x y : NoDup (pixels b x y).
Proof.
  assert (Z1 : forall lo hi, NoDup (zrange lo hi)).
  { intros. unfold zrange. apply Injective_map_NoDup; [intros a c E; lia | apply seq_NoDup]. }
  unfold pixels. generalize (Z1 b (y - b)). generalize (zrange b (y - b)) as rows. intros rows H.
  induction H as [|i t Hi Ht IH]; [constructor |]. cbn [flat_map]. apply NoDup_app; [| exact IH |].
  - apply Injective_map_NoDup; [intros a b' E; now injection E | apply Z1].
  - intros [a c] Ha. apply in_map_iff in Ha as (c' & E & _). injection E as -> ->. intros Hin.
    apply in_flat_map in Hin as (i' & Hi' & Hin). apply in_map_iff in Hin as (c'' & E & _).
    injection E as -> ->. now apply Hi.
Qed.

Lemma apart_pairs R l : NoDup l -> ForallOrdPairs apart (filter (is_maximum R) l).
Proof.
  induction 1 as [|p t Hp Ht IH]; [constructor |]. cbn [filter]. destruct (is_maximum R p) eqn:E; [| exact IH].
  constructor; [| exact IH]. apply Forall_forall. intros q Hq. apply filter_In in Hq as [Hq Eq].
  destruct p as [i j], q as [u v]. apply (maxima_apart R i j u v E Eq). intros EE. injection EE as -> ->.
  now apply Hp.
Qed.

Lemma draw_ok im x y b mode (mk : Z * Z -> corner) (R : Z -> Z -> Z) :
  1 <= b -> len im = x * y ->
  (forall p, c_y (mk p) = fst p /\ c_x (mk p) = snd p /\ c_info (mk p) <> 7) ->
  let ps := filter (is_maximum R) (pixels b x y) in
  ForallOrdPairs apart ps /\
  exists im', corner_draw im (map mk ps ++ [terminator]) x mode = Some im' /\ len im' = x * y /\
    forall u v, 0 <= u < y -> 0 <= v < x -> im'.[px x u v] = drawn ps mode u v im.[px x u v].
Proof.
  intros Hb Hl Hmk ps. pose proof (apart_pairs R (pixels b x y) (NoDup_pixels b x y)) as Hap.
  split; [exact Hap |]. apply corner_draw_ok; try assumption.
  apply Forall_forall. intros [i j] Hp. apply filter_In in Hp as [Hp _]. apply in_pixels in Hp.
  apply interior_true in Hp. apply interior_true. cbn [fst snd]. lia.
Qed.

(** The corners that either version lists are more than 3 rows or 3 columns
    apart, and [corner_draw] paints each of them black and, in the default mode,
    its eight neighbours white, inside the image; nothing else changes. *)
Theorem corner_draw_paints im x y b mode (mk : Z * Z -> corner) (R : Z -> Z -> Z) :
  1 <= b -> len im = x * y ->
  (forall p, c_y (mk p) = fst p /\ c_x (mk p) = snd p /\ c_info (mk p) <> 7) ->
  let ps := filter (is_maximum R) (pixels b x y) in
  ForallOrdPairs apart ps /\
  exists im', corner_draw im (map mk ps ++ [terminator]) x mode = Some im' /\ len im' = x * y /\
    forall u v, 0 <= u < y -> 0 <= v < x -> im'.[px x u v] = drawn ps mode u v im.[px x u v].
Proof. apply draw_ok. Qed.

Lemma corner_draw_paints_witness :
  exists im', corner_draw (ramp 13 11) (map (corner_of (ramp 13 11) step_lut 13)
      (filter (is_maximum (corner_response (ramp 13 11) step_lut 13 11 1850)) (pixels 5 13 11)) ++ [terminator]) 13 0
    = Some im' /\ len im' = 143.
Proof.
  destruct (corner_draw_paints (ramp 13 11) 13 11 5 0 (corner_of (ramp 13 11) step_lut 13)
    (corner_response (ramp 13 11) step_lut 13 11 1850) ltac:(lia) eq_refl) as (_ & im' & E & Hl & _).
  - intros [i j]. cbn. repeat split; lia.
  - exists im'. auto.
Defined.
