(* ===== verification/SusanThin.v ===== *)
(** * SUSAN: thinning of the edge map

    Models [susan_thin] of [automotive/susan/susan.c], a single pass over the
    edge map [mid] that removes, moves and adds edge points and jumps back in the
    image to do bits again, by changing the loop counters.  The two loops are the
    step function [thin_step] on the counters and the map.

    Proved: every step stays inside the buffers; edge points stay at least 2
    pixels from the sides; and no step disconnects edge points that it does not
    remove (points are connected through their eight neighbours). *)

From Stdlib Require Import ZArith Lia List Bool Relations.
From Stdlib Require Import SpecFloat.
From S2P Require Import Prelude SusanImage SusanPrinciple SusanFloat SusanEdges.
Import ListNotations.

(** ** The pass *)

(** [mid[i*x_size+j]<8] *)
Definition on (mid : list Z) (x_size i j : Z) : option bool :=
  let* v := rd mid (i * x_size + j) in Some (v <? 8).

(** The eight neighbours [b00 b01 b02 b10 b12 b20 b21 b22], in the order of the
    rows. *)
Record around := mkAround
  { b00 : bool; b01 : bool; b02 : bool; b10 : bool; b12 : bool; b20 : bool; b21 : bool; b22 : bool }.

Definition read_around (mid : list Z) (x_size i j : Z) : option around :=
  let* c00 := on mid x_size (i - 1) (j - 1) in
  let* c01 := on mid x_size (i - 1) j in
  let* c02 := on mid x_size (i - 1) (j + 1) in
  let* c10 := on mid x_size i (j - 1) in
  let* c12 := on mid x_size i (j + 1) in
  let* c20 := on mid x_size (i + 1) (j - 1) in
  let* c21 := on mid x_size (i + 1) j in
  let* c22 := on mid x_size (i + 1) (j + 1) in
  Some (mkAround c00 c01 c02 c10 c12 c20 c21 c22).

Definition count (l : list bool) : Z := zsum (map b2z l).

(** [n] *)
Definition neighbour_count (b : around) : Z :=
  count [b00 b; b01 b; b02 b; b10 b; b12 b; b20 b; b21 b; b22 b].

(** *** n == 1: extend a line *)

(** The factors of [l[0] .. l[8]] for the neighbour that is present. *)
Definition line_weights (b : around) : list Z :=
  if b00 b then [0; 0; 2; 0; 1; 3; 2; 3; 4]
  else if b01 b then [0; 0; 0; 2; 1; 2; 3; 4; 3]
  else if b02 b then [2; 0; 0; 3; 1; 0; 4; 3; 2]
  else if b10 b then [0; 2; 3; 0; 1; 4; 0; 2; 3]
  else if b12 b then [3; 2; 0; 4; 1; 0; 3; 2; 0]
  else if b20 b then [2; 3; 4; 0; 1; 3; 0; 0; 2]
  else if b21 b then [3; 4; 3; 2; 1; 2; 0; 0; 0]
  else if b22 b then [4; 3; 2; 3; 1; 0; 2; 0; 0]
  else repeat 1 9.

Definition read_l (r : list Z) (x_size i j : Z) : option (list Z) :=
  let* l0 := rd r ((i - 1) * x_size + j - 1) in
  let* l1 := rd r ((i - 1) * x_size + j) in
  let* l2 := rd r ((i - 1) * x_size + j + 1) in
  let* l3 := rd r (i * x_size + j - 1) in
  let l4 := 0 in
  let* l5 := rd r (i * x_size + j + 1) in
  let* l6 := rd r ((i + 1) * x_size + j - 1) in
  let* l7 := rd r ((i + 1) * x_size + j) in
  let* l8 := rd r ((i + 1) * x_size + j + 1) in
  Some [l0; l1; l2; l3; l4; l5; l6; l7; l8].

(** The first of the greatest positive entries: [(m, a, b)], with [m = 0] when
    there is none. *)
Definition highest (l : list Z) : Z * Z * Z :=
  fold_left (fun best yx =>
      let '(m, a, b) := best in let '(y, x) := yx in
      if l.[y + y + y + x] >? m then (l.[y + y + y + x], y, x) else best)
    [(0, 0); (0, 1); (0, 2); (1, 0); (1, 1); (1, 2); (2, 0); (2, 1); (2, 2)] (0, 0, 0).

(** [if (i<4) i=4; if (j<4) j=4;] *)
Definition clamp (i j : Z) : Z * Z := (if i <? 4 then 4 else i, if j <? 4 then 4 else j).

Definition counters : Type := Z * Z.

Definition extend_line (r mid : list Z) (x_size i j v : Z) (b : around) : option (counters * list Z) :=
  let* l := read_l r x_size i j in
  let '(m, a, b) := highest (map (fun p => fst p * snd p) (combine l (line_weights b))) in
  if m >? 0 then
    let* mid := wr mid ((i + a - 1) * x_size + j + b - 1) (if v <? 4 then 4 else v + 1) in
    if a + a + b <? 3 then Some (clamp (i + a - 1) (j + b - 2), mid)
    else Some ((i, j), mid)
  else Some ((i, j), mid).

(** *** n == 2: move a point into line, or clear a right angle *)

Definition f_0_7 : spec_float := S754_finite false 6305039478318694 (-53).

(** [((float)a/(float)centre) > 0.7] *)
Definition close_to (a centre : Z) : bool :=
  SFltb f_0_7 (to_f64 (f32_div (f32_of_Z a) (f32_of_Z centre))).

(** [a > 7 && b > 7 && c > 7], with the reads that it makes. *)
Fixpoint all_off (mid : list Z) (x_size : Z) (ps : list (Z * Z)) : option bool :=
  match ps with
  | [] => Some true
  | (i, j) :: t => let* o := on mid x_size i j in if o : bool then Some false else all_off mid x_size t
  end.

Definition straighten (r mid : list Z) (x_size i j centre : Z) (b : around) : option (counters * list Z) :=
  let '(x, y) := if b00 b then (if b02 b then (0, -1) else (-1, 0))
                 else (if b02 b then (1, 0) else (0, 1)) in
  let* v := rd r ((i + y) * x_size + j + x) in
  if close_to v centre then
    let* free :=
      if x =? 0 then all_off mid x_size [(i + 2 * y, j); (i + 2 * y, j - 1); (i + 2 * y, j + 1)]
      else all_off mid x_size [(i, j + 2 * x); (i + 1, j + 2 * x); (i - 1, j + 2 * x)] in
    if free : bool then
      let* mid := wr mid (i * x_size + j) 100 in
      let* mid := wr mid ((i + y) * x_size + j + x) 3 in
      Some ((i, j), mid)
    else Some ((i, j), mid)
  else Some ((i, j), mid).

(** The disjunction over the two pixels beyond each of the four neighbours. *)
Definition beyond (mid : list Z) (x_size i j : Z) (b : around) : option bool :=
  let* u1 := on mid x_size (i - 2) (j - 1) in
  let* u2 := on mid x_size (i - 2) (j + 1) in
  let* l1 := on mid x_size (i - 1) (j - 2) in
  let* l2 := on mid x_size (i + 1) (j - 2) in
  let* r1 := on mid x_size (i - 1) (j + 2) in
  let* r2 := on mid x_size (i + 1) (j + 2) in
  let* d1 := on mid x_size (i + 2) (j - 1) in
  let* d2 := on mid x_size (i + 2) (j + 1) in
  Some (b01 b && (u1 || u2) || b10 b && (l1 || l2) || b12 b && (r1 || r2) || b21 b && (d1 || d2)).

Definition right_angle (b : around) : bool :=
  (count [b01 b; b12 b; b21 b; b10 b] =? 2) && ((b10 b || b12 b) && (b01 b || b21 b)).

Definition clear_angle (mid : list Z) (x_size i j : Z) (b : around) : option (counters * list Z) :=
  if right_angle b then
    let* e := beyond mid x_size i j b in
    if e : bool then
      let* mid := wr mid (i * x_size + j) 100 in
      Some (clamp (i - 1) (j - 2), mid)
    else Some ((i, j), mid)
  else Some ((i, j), mid).

Definition two_neighbours (r mid : list Z) (x_size i j centre : Z) (b : around) : option (counters * list Z) :=
  if (count [b00 b; b02 b; b20 b; b22 b] =? 2) && ((b00 b || b22 b) && (b02 b || b20 b))
  then straighten r mid x_size i j centre b
  else clear_angle mid x_size i j b.

(** *** n > 2: thin without breaking connectivity *)

Definition removable (b : around) : bool :=
  if count [b01 b; b12 b; b21 b; b10 b] >? 1 then
    let p1 := b00 b || b01 b in
    let p2 := b02 b || b12 b in
    let p3 := b22 b || b21 b in
    let p4 := b20 b || b10 b in
    count [p1; p2; p3; p4] - count [b01 b && p2; b12 b && p3; b21 b && p4; b10 b && p1] <? 2
  else false.

Definition thin_dense (mid : list Z) (x_size i j : Z) (b : around) : option (counters * list Z) :=
  if removable b then
    let* mid := wr mid (i * x_size + j) 100 in
    Some (clamp (i - 1) (j - 2), mid)
  else Some ((i, j), mid).

(** *** The loops *)

(** The body: the counters after it, and the map. *)
Definition thin_pixel (r : list Z) (x_size i j : Z) (mid : list Z) : option (counters * list Z) :=
  let* v := rd mid (i * x_size + j) in
  if v <? 8 then
    let* centre := rd r (i * x_size + j) in
    let* b := read_around mid x_size i j in
    let n := neighbour_count b in
    if n =? 0 then let* mid := wr mid (i * x_size + j) 100 in Some ((i, j), mid)
    else if n =? 1 then
      if v <? 6 then extend_line r mid x_size i j v b else Some ((i, j), mid)
    else if n =? 2 then two_neighbours r mid x_size i j centre b
    else thin_dense mid x_size i j b
  else Some ((i, j), mid).

(** A state at the test of the inner loop; the outcome is the next state, or the
    map when the outer loop is over. *)
Record thin_state := mkThin { t_i : Z; t_j : Z; t_mid : list Z }.

Inductive outcome :=
| Next (s : thin_state)
| Done (mid : list Z).

Definition thin_step (r : list Z) (x_size y_size : Z) (s : thin_state) : option outcome :=
  let '(mkThin i j mid) := s in
  if i <? y_size - 4 then
    if j <? x_size - 4 then
      let* ((i, j), mid) := thin_pixel r x_size i j mid in
      Some (Next (mkThin i (j + 1) mid))
    else Some (Next (mkThin (i + 1) 4 mid))
  else Some (Done mid).

Fixpoint thin_loop (fuel : nat) (r : list Z) (x_size y_size : Z) (s : thin_state) : option outcome :=
  match fuel with
  | O => Some (Next s)
  | S f =>
      let* o := thin_step r x_size y_size s in
      match o with
      | Next s => thin_loop f r x_size y_size s
      | Done mid => Some (Done mid)
      end
  end.

Definition susan_thin (fuel : nat) (r mid : list Z) (x_size y_size : Z) : option outcome :=
  thin_loop fuel r x_size y_size (mkThin 4 4 mid).

(** ** Connectivity *)

Definition adjb (p q : Z * Z) : bool :=
  negb ((fst p =? fst q) && (snd p =? snd q)) && (Z.abs (fst p - fst q) <=? 1) && (Z.abs (snd p - snd q) <=? 1).

Definition adj (p q : Z * Z) : Prop := adjb p q = true.

(** [q] can be reached from [p] through points of [E]. *)
Inductive conn (E : Z * Z -> Prop) (p : Z * Z) : Z * Z -> Prop :=
| conn_refl : conn E p p
| conn_next q q' : conn E p q -> adj q q' -> E q' -> conn E p q'.

Lemma adj_sym p q : adj p q -> adj q p.
Proof. unfold adj, adjb. intros H. lia. Qed.

Lemma adj_irrefl p : ~ adj p p.
Proof. unfold adj, adjb. rewrite !Z.eqb_refl. easy. Qed.

Lemma conn_mono (E E' : Z * Z -> Prop) p q : (forall a, E a -> E' a) -> conn E p q -> conn E' p q.
Proof. intros H. induction 1 as [|q q' _ IH A Q]; [constructor |]. exact (conn_next E' p q q' IH A (H _ Q)). Qed.

Lemma conn_trans E p q s : conn E p q -> conn E q s -> conn E p s.
Proof. intros H. induction 1 as [|a a' _ IH A Q]; [exact H |]. exact (conn_next E p a a' IH A Q). Qed.

(** A point can go when its neighbours are connected without it. *)
Lemma conn_reroute (E E' : Z * Z -> Prop) c p q :
  (forall a, E a -> a <> c -> E' a) ->
  (forall a b, E a -> E b -> adj c a -> adj c b -> conn E' a b) ->
  E p -> p <> c -> q <> c -> conn E p q -> conn E' p q.
Proof.
  intros HE Hn Ep Hp Hq H.
  enough (G : (q <> c -> conn E' p q) /\ (q = c -> exists a, E a /\ adj c a /\ conn E' p a) /\ E q) by now apply G.
  clear Hq. assert (dec : forall a b : Z * Z, a = b \/ a <> b)
    by (intros [a1 a2] [d1 d2]; destruct (Z.eq_dec a1 d1), (Z.eq_dec a2 d2);
        [left; congruence | right; congruence | right; congruence | right; congruence]).
  induction H as [|q q' H IH A Q]; [split; [constructor | split; [easy | exact Ep]] |].
  destruct IH as (IH1 & IH2 & IH3). split; [| split; [| exact Q]].
  - intros Nq'. destruct (dec q c) as [-> | Nq].
    + destruct (IH2 eq_refl) as (a & Ea & Aa & Ca). exact (conn_trans E' p a q' Ca (Hn a q' Ea Q Aa A)).
    + exact (conn_next E' p q q' (IH1 Nq) A (HE q' Q Nq')).
  - intros ->. destruct (dec q c) as [-> | Nq]; [now apply adj_irrefl in A |].
    exists q. split; [exact IH3 |]. split; [now apply adj_sym | now apply IH1].
Qed.

(** ** The neighbourhood of a point *)

(** The offsets of the neighbours that are edge points. *)
Definition ring_on (b : around) : list (Z * Z) :=
  map fst (filter snd (combine ring [b00 b; b01 b; b02 b; b10 b; b12 b; b20 b; b21 b; b22 b])).

(** The points of [l] that are in [s] or next to a point of [s]. *)
Definition grow (l s : list (Z * Z)) : list (Z * Z) :=
  filter (fun q => existsb (fun p => adjb p q || (fst p =? fst q) && (snd p =? snd q)) s) l.

Definition same_point (p q : Z * Z) : bool := (fst p =? fst q) && (snd p =? snd q).

(** Every two neighbours are connected through neighbours. *)
Definition linked (l : list (Z * Z)) : bool :=
  forallb (fun a => forallb (fun c => existsb (same_point c) (Nat.iter 8 (grow l) [a])) l) l.

Lemma same_point_eq p q : same_point p q = true -> p = q.
Proof. destruct p, q. unfold same_point. cbn [fst snd]. intros H. f_equal; lia. Qed.

Definition shift (c d : Z * Z) : Z * Z := (fst c + fst d, snd c + snd d).

Lemma adj_shift c p q : adj p q -> adj (shift c p) (shift c q).
Proof. unfold adj, adjb, shift. cbn [fst snd]. intros H. lia. Qed.

Lemma linked_conn (E : Z * Z -> Prop) c l a b : linked l = true -> (forall d, In d l -> E (shift c d)) ->
  In a l -> In b l -> conn E (shift c a) (shift c b).
Proof.
  intros HL HE Ha Hb. unfold linked in HL. rewrite forallb_forall in HL. specialize (HL a Ha). cbv beta in HL.
  rewrite forallb_forall in HL. specialize (HL b Hb). cbv beta in HL.
  assert (G : forall k q, In q (Nat.iter k (grow l) [a]) -> conn E (shift c a) (shift c q)).
  { induction k as [|k IH]; intros q Hq.
    - destruct Hq as [<- | []]. constructor.
    - cbn [Nat.iter nat_rect] in Hq. unfold grow in Hq at 1. apply filter_In in Hq as [Hq H].
      apply existsb_exists in H as (p & Hp & H). apply IH in Hp. apply orb_true_iff in H as [H | H].
      + exact (conn_next E _ _ _ Hp (adj_shift c p q H) (HE q Hq)).
      + now rewrite (same_point_eq p q H) in Hp. }
  apply existsb_exists in HL as (q & Hq & HL). apply same_point_eq in HL. subst q. now apply (G 8%nat).
Qed.

(** The conditions under which a point is removed leave its neighbours linked:
    checked for all 256 neighbourhoods. *)
Definition removal (b : around) : bool :=
  let n := neighbour_count b in
  (n =? 0) || (n =? 2) && right_angle b || (n >? 2) && removable b.

Lemma removal_linked b : removal b = true -> linked (ring_on b) = true.
Proof. destruct b as [[] [] [] [] [] [] [] []]; vm_compute; intros H; try reflexivity; discriminate H. Qed.

(** When a point is moved, both its neighbours are next to the new place. *)
Definition move_step (b : around) : Z * Z :=
  let '(x, y) := if b00 b then (if b02 b then (0, -1) else (-1, 0))
                 else (if b02 b then (1, 0) else (0, 1)) in (y, x).

Definition movable (b : around) : bool :=
  (neighbour_count b =? 2) &&
  ((count [b00 b; b02 b; b20 b; b22 b] =? 2) && ((b00 b || b22 b) && (b02 b || b20 b))).

Lemma movable_next b : movable b = true -> forallb (adjb (move_step b)) (ring_on b) = true.
Proof. destruct b as [[] [] [] [] [] [] [] []]; vm_compute; intros H; try reflexivity; discriminate H. Qed.

(** ** What the body does to the map *)

Section Effect.
Context (r : list Z) (x y : Z).
Hypothesis Hr : len r = x * y.

(** The neighbourhood of [(i, j)] in the map. *)
Definition around_of (mid : list Z) (i j : Z) : around :=
  let m di dj := marked mid x y (i + di) (j + dj) in
  mkAround (m (-1) (-1)) (m (-1) 0) (m (-1) 1) (m 0 (-1)) (m 0 1) (m 1 (-1)) (m 1 0) (m 1 1).

Inductive effect (mid : list Z) (i j : Z) : list Z -> Prop :=
| kept : effect mid i j mid
| removed : removal (around_of mid i j) = true -> effect mid i j (aset mid (px x i j) 100)
| added di dj v : -1 <= di <= 1 -> -1 <= dj <= 1 -> v < 8 ->
    effect mid i j (aset mid (px x (i + di) (j + dj)) v)
| moved : movable (around_of mid i j) = true ->
    effect mid i j (aset (aset mid (px x i j) 100)
      (px x (i + fst (move_step (around_of mid i j))) (j + snd (move_step (around_of mid i j)))) 3).

Section At.
Context (mid : list Z) (i j : Z).
Hypothesis Hmid : len mid = x * y.
Hypothesis Hi : 4 <= i < y - 4.
Hypothesis Hj : 4 <= j < x - 4.

Lemma on_ok a b : 0 <= a < y -> 0 <= b < x -> on mid x a b = Some (marked mid x y a b).
Proof using Hmid.
  intros Ha Hb. unfold on. change (a * x + b) with (px x a b).
  destruct (rd_marked mid x y a b Hmid Ha Hb) as (c & -> & <-). reflexivity.
Qed.

Lemma read_around_ok : read_around mid x i j = Some (around_of mid i j).
Proof using Hmid Hi Hj.
  unfold read_around. rewrite !on_ok by lia. cbn [bind]. unfold around_of. now rewrite !Z.add_0_r.
Qed.

Lemma highest_range l : 0 <= snd (fst (highest l)) <= 2 /\ 0 <= snd (highest l) <= 2.
Proof using.
  unfold highest.
  assert (G : forall ps best,
    Forall (fun p => 0 <= fst p <= 2 /\ 0 <= snd p <= 2) ps ->
    0 <= snd (fst best) <= 2 /\ 0 <= snd best <= 2 ->
    let best' := fold_left (fun best yx =>
        let '(m, a, b) := best in let '(u, v) := yx in
        if l.[u + u + u + v] >? m then (l.[u + u + u + v], u, v) else best) ps best in
    0 <= snd (fst best') <= 2 /\ 0 <= snd best' <= 2).
  { induction ps as [|[u v] t IH]; intros [[m a] b] Hp Hb; [exact Hb |]. cbn [fold_left].
    apply List.Forall_cons_iff in Hp as [Huv Hp]. apply IH; [exact Hp |].
    destruct (_ >? m); [exact Huv | exact Hb]. }
  apply G; [repeat constructor; cbn; lia | cbn; lia].
Qed.

Lemma clamp_range a b : a <= i -> b <= j ->
  exists i' j', clamp a b = (i', j') /\ 4 <= i' <= i /\ 4 <= j' <= j.
Proof using Hi Hj.
  intros Ha Hb. unfold clamp. eexists _, _. split; [reflexivity |]. zcases; lia.
Qed.

(** The counters and the map after a body. *)
Definition after (o : option (counters * list Z)) : Prop :=
  exists i' j' mid', o = Some ((i', j'), mid') /\ 4 <= i' <= i /\ 4 <= j' <= j /\ effect mid i j mid'.

Lemma after_kept : after (Some ((i, j), mid)).
Proof using Hi Hj. exists i, j, mid. repeat split; try lia. constructor. Qed.

Lemma wr_at a b v : 0 <= a < y -> 0 <= b < x -> forall p, p = px x a b ->
  wr mid p v = Some (aset mid (px x a b) v).
Proof using Hmid. intros Ha Hb p ->. apply wr_some. rewrite Hmid. now apply px_inside. Qed.

Lemma after_removed a b : removal (around_of mid i j) = true -> a <= i -> b <= j ->
  after (let* m := wr mid (i * x + j) 100 in Some (clamp a b, m)).
Proof using Hmid Hi Hj.
  intros HR Ha Hb. rewrite (wr_at i j) by (reflexivity || lia). cbn [bind].
  destruct (clamp_range a b Ha Hb) as (i' & j' & -> & Hi' & Hj').
  exists i', j', (aset mid (px x i j) 100). repeat split; try lia. now constructor.
Qed.

Lemma extend_line_after v b : v < 6 -> after (extend_line r mid x i j v b).
Proof using Hr Hmid Hi Hj.
  intros Hv. unfold extend_line.
  assert (R : exists l, read_l r x i j = Some l).
  { unfold read_l.
    assert (Rd : forall a c p, 0 <= a < y -> 0 <= c < x -> p = px x a c -> rd r p = Some r.[p]).
    { intros a c p Ha Hc ->. apply rd_some. rewrite Hr. now apply px_inside. }
    rewrite (Rd (i - 1) (j - 1)), (Rd (i - 1) j), (Rd (i - 1) (j + 1)), (Rd i (j - 1)), (Rd i (j + 1)),
      (Rd (i + 1) (j - 1)), (Rd (i + 1) j), (Rd (i + 1) (j + 1)) by (unfold px; lia).
    eexists. reflexivity. }
  destruct R as (l & ->). cbn [bind].
  pose proof (highest_range (map (fun p => fst p * snd p) (combine l (line_weights b)))) as HH.
  destruct (highest _) as [[m a] c]. cbn [fst snd] in HH.
  destruct (m >? 0); [| apply after_kept].
  rewrite (wr_at (i + (a - 1)) (j + (c - 1))) by (unfold px; lia). cbn [bind].
  set (w := if v <? 4 then 4 else v + 1). assert (Hw : w < 8) by (unfold w; zcases; lia).
  pose proof (added mid i j (a - 1) (c - 1) w ltac:(lia) ltac:(lia) Hw) as HE.
  destruct (Z.ltb_spec (a + a + c) 3).
  - destruct (clamp_range (i + a - 1) (j + c - 2)) as (i' & j' & -> & Hi' & Hj'); [lia | lia |].
    eexists i', j', _. split; [reflexivity |]. auto.
  - eexists i, j, _. split; [reflexivity |]. split; [lia |]. split; [lia | exact HE].
Qed.

Lemma all_off_ok ps : Forall (fun p => 0 <= fst p < y /\ 0 <= snd p < x) ps ->
  exists f, all_off mid x ps = Some f.
Proof using Hmid.
  induction 1 as [|[a b] t [Ha Hb] Ht [f E]]; [now exists true |]. cbn [all_off].
  rewrite on_ok by assumption. cbn [bind]. destruct (marked mid x y a b); [now exists false | now exists f].
Qed.

Lemma straighten_after centre : movable (around_of mid i j) = true ->
  after (straighten r mid x i j centre (around_of mid i j)).
Proof using Hr Hmid Hi Hj.
  intros HM. unfold straighten. pose proof (moved mid i j HM) as HE. unfold move_step in HE.
  set (st := if b00 _ then _ else _) in *.
  assert (Hst : -1 <= fst st <= 1 /\ -1 <= snd st <= 1)
    by (unfold st; destruct (b00 _), (b02 _); cbn; lia).
  destruct st as [sx sy]. cbn [fst snd] in *.
  rewrite rd_some by (rewrite Hr; replace ((i + sy) * x + j + sx) with (px x (i + sy) (j + sx)) by (unfold px; lia);
                      apply px_inside; lia).
  cbn [bind]. destruct (close_to _ centre); [| apply after_kept].
  assert (F : exists f, (if sx =? 0 then all_off mid x [(i + 2 * sy, j); (i + 2 * sy, j - 1); (i + 2 * sy, j + 1)]
    else all_off mid x [(i, j + 2 * sx); (i + 1, j + 2 * sx); (i - 1, j + 2 * sx)]) = Some f)
    by (destruct (sx =? 0); apply all_off_ok; repeat (apply Forall_cons; [cbn [fst snd]; lia |]); apply Forall_nil).
  destruct F as ([] & ->); cbn [bind]; [| apply after_kept].
  rewrite (wr_at i j) by (reflexivity || lia). cbn [bind].
  replace ((i + sy) * x + j + sx) with (px x (i + sy) (j + sx)) by (unfold px; lia).
  rewrite wr_some by (rewrite len_aset, Hmid; apply px_inside; lia). cbn [bind].
  eexists i, j, _. split; [reflexivity |]. split; [lia |]. split; [lia | exact HE].
Qed.

Lemma beyond_ok b : exists e, beyond mid x i j b = Some e.
Proof using Hmid Hi Hj. unfold beyond. rewrite !on_ok by lia. cbn [bind]. eexists. reflexivity. Qed.

Lemma thin_pixel_after : after (thin_pixel r x i j mid).
Proof using Hr Hmid Hi Hj.
  unfold thin_pixel. change (i * x + j) with (px x i j) at 1 2.
  pose proof (px_inside x y i j ltac:(lia) ltac:(lia)) as Hp.
  rewrite rd_some by lia. cbn [bind]. destruct (mid.[px x i j] <? 8); [| apply after_kept].
  rewrite rd_some by lia. cbn [bind]. rewrite read_around_ok. cbn [bind].
  set (b := around_of mid i j). set (n := neighbour_count b).
  destruct (Z.eqb_spec n 0) as [E0 | N0].
  { assert (K : clamp i j = (i, j)) by (unfold clamp; zcases; f_equal; lia).
    rewrite <- K. apply after_removed; [| lia | lia]. unfold removal. fold b n. rewrite E0. reflexivity. }
  destruct (Z.eqb_spec n 1) as [E1 | N1].
  { destruct (Z.ltb_spec mid.[px x i j] 6); [now apply extend_line_after | apply after_kept]. }
  destruct (Z.eqb_spec n 2) as [E2 | N2].
  { unfold two_neighbours.
    destruct ((count [b00 b; b02 b; b20 b; b22 b] =? 2) && ((b00 b || b22 b) && (b02 b || b20 b))) eqn:D.
    - apply straighten_after. unfold movable. fold b n. rewrite E2, D. reflexivity.
    - unfold clear_angle. destruct (right_angle b) eqn:RA; [| apply after_kept].
      destruct (beyond_ok b) as ([] & ->); cbn [bind]; [| apply after_kept].
      apply after_removed; [| lia | lia]. unfold removal. fold b n. rewrite E2, RA. reflexivity. }
  unfold thin_dense. destruct (removable b) eqn:RM; [| apply after_kept].
  apply after_removed; [| lia | lia]. unfold removal. fold b n. rewrite RM.
  assert (0 <= n).
  { unfold n, neighbour_count, count. apply zsum_nonneg. intros [] _; cbn; lia. }
  replace (n >? 2) with true by lia. now rewrite orb_true_r.
Qed.
End At.
End Effect.

(** ** Edge points *)

Definition edge (mid : list Z) (x y : Z) (p : Z * Z) : Prop := marked mid x y (fst p) (snd p) = true.

Lemma marked_aset mid x y a b v u w : len mid = x * y -> 0 <= a < y -> 0 <= b < x ->
  marked (aset mid (px x a b) v) x y u w = if (u =? a) && (w =? b) then v <? 8 else marked mid x y u w.
Proof.
  intros Hl Ha Hb. pose proof (px_inside x y a b Ha Hb) as Hp.
  destruct ((0 <=? u) && (u <? y) && (0 <=? w) && (w <? x)) eqn:In_.
  - unfold marked. rewrite In_. cbn [andb]. pose proof (px_inside x y u w ltac:(lia) ltac:(lia)).
    unfold len in Hl. rewrite aget_aset by lia.
    destruct (Z.eqb_spec u a) as [-> | Nu]; [destruct (Z.eqb_spec w b) as [-> | Nw] |]; cbn [andb].
    + now rewrite Z.eqb_refl.
    + replace (px x a w =? px x a b) with false by (unfold px; lia). reflexivity.
    + pose proof (px_inj x u w a b). now replace (px x u w =? px x a b) with false by lia.
  - unfold marked. rewrite In_. cbn [andb].
    destruct ((u =? a) && (w =? b)) eqn:E; [exfalso; lia | reflexivity].
Qed.

Lemma edge_inside mid x y p : edge mid x y p -> 0 <= fst p < y /\ 0 <= snd p < x.
Proof. unfold edge, marked. intros H. lia. Qed.

Lemma filter_combine {A} (f : A -> bool) l : map fst (filter snd (combine l (map f l))) = filter f l.
Proof.
  induction l as [|a t IH]; [reflexivity |]. cbn [map combine filter snd].
  destruct (f a); cbn [map fst]; now rewrite IH.
Qed.

Lemma ring_on_around x y mid i j :
  ring_on (around_of x y mid i j) = filter (fun d => marked mid x y (i + fst d) (j + snd d)) ring.
Proof. rewrite <- filter_combine. reflexivity. Qed.

Lemma adj_ring c a : adj c a -> In (fst a - fst c, snd a - snd c) ring.
Proof.
  unfold adj, adjb. intros H. set (u := fst a - fst c). set (v := snd a - snd c).
  assert (Hu : u = -1 \/ u = 0 \/ u = 1) by (unfold u; lia).
  assert (Hv : v = -1 \/ v = 0 \/ v = 1) by (unfold v; lia).
  assert (N : ~ (u = 0 /\ v = 0)) by (unfold u, v; lia). clearbody u v.
  change ring with [(-1,-1); (-1,0); (-1,1); (0,-1); (0,1); (1,-1); (1,0); (1,1)].
  destruct Hu as [-> | [-> | ->]], Hv as [-> | [-> | ->]];
    try (exfalso; apply N; split; reflexivity); cbn [In]; auto 10.
Qed.

Section Connected.
Context (x y : Z).

Lemma neighbour_offset mid i j a : edge mid x y a -> adj (i, j) a ->
  exists d, In d (ring_on (around_of x y mid i j)) /\ a = shift (i, j) d.
Proof using.
  intros Ea Aa. exists (fst a - i, snd a - j). split.
  - rewrite ring_on_around. apply filter_In. split; [exact (adj_ring (i, j) a Aa) |]. cbn [fst snd].
    unfold edge in Ea. now rewrite !Zplus_minus.
  - destruct a. unfold shift. cbn [fst snd]. f_equal; lia.
Qed.

Lemma ring_nonzero d : In d ring -> fst d <> 0 \/ snd d <> 0.
Proof using.
  change ring with [(-1,-1); (-1,0); (-1,1); (0,-1); (0,1); (1,-1); (1,0); (1,1)].
  intros H. repeat (destruct H as [<- | H]; [cbn [fst snd]; lia |]). destruct H.
Qed.

Lemma effect_connected mid mid' i j p q : len mid = x * y -> 4 <= i < y - 4 -> 4 <= j < x - 4 ->
  effect x y mid i j mid' -> edge mid x y p -> edge mid' x y p -> edge mid' x y q ->
  conn (edge mid x y) p q -> conn (edge mid' x y) p q.
Proof using.
  intros Hl Hi Hj He Ep Ep' Eq' HC. destruct He as [| HR | di dj v Hdi Hdj Hv | HM].
  - exact HC.
  - assert (M : forall a, edge (aset mid (px x i j) 100) x y a <-> edge mid x y a /\ a <> (i, j)).
    { intros [u w]. unfold edge. cbn [fst snd]. rewrite marked_aset by (lia || assumption).
      unfold not. rewrite pair_equal_spec. change (100 <? 8) with false.
      destruct ((u =? i) && (w =? j)) eqn:C;
        generalize (marked mid x y u w) as k; intros []; intuition (lia || congruence). }
    apply (conn_reroute (edge mid x y) _ (i, j)); try assumption; try (now apply M).
    + intros a Ea Na. now apply M.
    + intros a b Ea Eb Aa Ab.
      destruct (neighbour_offset mid i j a Ea Aa) as (da & Ia & ->).
      destruct (neighbour_offset mid i j b Eb Ab) as (db & Ib & ->).
      apply (linked_conn _ (i, j) (ring_on (around_of x y mid i j))); try assumption;
        [now apply removal_linked |].
      intros d Hd. rewrite ring_on_around in Hd. apply filter_In in Hd as [Hr Hd]. apply M. split; [exact Hd |].
      unfold shift. cbn [fst snd]. intros EE. injection EE as E1 E2. apply ring_nonzero in Hr. lia.
  - apply (conn_mono (edge mid x y)); [| exact HC]. intros [u w] Hu. unfold edge in *. cbn [fst snd] in *.
    rewrite marked_aset by (lia || assumption). destruct ((u =? i + di) && (w =? j + dj)); [lia | exact Hu].
  - set (d := move_step (around_of x y mid i j)) in *.
    assert (Hd : (-1 <= fst d <= 1 /\ -1 <= snd d <= 1) /\ (fst d <> 0 \/ snd d <> 0))
      by (unfold d, move_step; destruct (b00 _), (b02 _); cbn; lia).
    assert (M : forall a, edge (aset (aset mid (px x i j) 100) (px x (i + fst d) (j + snd d)) 3) x y a
      <-> (edge mid x y a /\ a <> (i, j)) \/ a = shift (i, j) d).
    { intros [u w]. unfold edge, shift. cbn [fst snd].
      rewrite marked_aset by (rewrite ?len_aset; lia || assumption).
      rewrite marked_aset by (lia || assumption). change (3 <? 8) with true. change (100 <? 8) with false.
      unfold not. rewrite !pair_equal_spec.
      destruct ((u =? i + fst d) && (w =? j + snd d)) eqn:A, ((u =? i) && (w =? j)) eqn:C;
        generalize (marked mid x y u w) as k; intros []; intuition (lia || congruence). }
    assert (Nc : ~ edge (aset (aset mid (px x i j) 100) (px x (i + fst d) (j + snd d)) 3) x y (i, j)).
    { intros H. apply M in H as [[_ H] | H]; [easy |]. unfold shift in H. injection H as E1 E2. lia. }
    apply (conn_reroute (edge mid x y) _ (i, j)); try assumption; try (intros ->; contradiction).
    + intros a Ea Na. apply M. auto.
    + intros a b Ea Eb Aa Ab.
      destruct (neighbour_offset mid i j a Ea Aa) as (da & Ia & Ea').
      destruct (neighbour_offset mid i j b Eb Ab) as (db & Ib & Eb').
      pose proof (movable_next _ HM) as HN. rewrite forallb_forall in HN. fold d in HN.
      assert (A1 : adj a (shift (i, j) d)) by (subst a; apply adj_sym, adj_shift, HN, Ia).
      assert (A2 : adj (shift (i, j) d) b) by (subst b; apply adj_shift, HN, Ib).
      eapply conn_next; [eapply conn_next; [apply conn_refl | exact A1 | apply M; auto] | exact A2 |].
      apply M. left. split; [exact Eb |]. intros ->. now apply adj_irrefl in Ab.
Qed.

(** The edge points are at least 2 from the sides. *)
Definition off_border (mid : list Z) : Prop :=
  forall u v, marked mid x y u v = true -> interior 2 x y u v = true.

Lemma effect_off_border mid mid' i j : len mid = x * y -> 4 <= i < y - 4 -> 4 <= j < x - 4 ->
  effect x y mid i j mid' -> off_border mid -> len mid' = x * y /\ off_border mid'.
Proof using.
  intros Hl Hi Hj He Ho.
  assert (W : forall m a b v, len m = x * y -> off_border m -> 3 <= a < y - 3 -> 3 <= b < x - 3 ->
    len (aset m (px x a b) v) = x * y /\ off_border (aset m (px x a b) v)).
  { intros m a b v Hm Hb Ha Hb'. rewrite len_aset. split; [exact Hm |]. intros u w H.
    rewrite marked_aset in H by (lia || assumption).
    destruct ((u =? a) && (w =? b)) eqn:E; [apply interior_true; lia | now apply Hb]. }
  destruct He as [| HR | di dj v Hdi Hdj Hv | HM]; [auto | apply W; auto; lia | apply W; auto; lia |].
  set (d := move_step (around_of x y mid i j)).
  assert (Hd : -1 <= fst d <= 1 /\ -1 <= snd d <= 1)
    by (unfold d, move_step; destruct (b00 _), (b02 _); cbn; lia).
  destruct (W mid i j 100) as [H1 H2]; auto; try lia. apply W; auto; lia.
Qed.
End Connected.

(** ** Runs *)

(** The states of the loops: counters inside the image, edge points away from
    the sides. *)
Definition thin_inv (x y : Z) (s : thin_state) : Prop :=
  4 <= t_i s /\ 4 <= t_j s /\ len (t_mid s) = x * y /\ off_border x y (t_mid s).

(** One step from such a state, with its effect on the map. *)
Lemma thin_step_ok r x y s : len r = x * y -> thin_inv x y s ->
  (thin_step r x y s = Some (Done (t_mid s))) \/
  (exists s', thin_step r x y s = Some (Next s') /\ thin_inv x y s' /\
     (t_mid s' = t_mid s \/
      4 <= t_i s < y - 4 /\ 4 <= t_j s < x - 4 /\ effect x y (t_mid s) (t_i s) (t_j s) (t_mid s'))).
Proof.
  intros Hr (Hi & Hj & Hl & Ho). destruct s as [i j mid]. cbn [t_i t_j t_mid] in *. unfold thin_step.
  destruct (Z.ltb_spec i (y - 4)); [| left; reflexivity]. right.
  destruct (Z.ltb_spec j (x - 4)).
  - destruct (thin_pixel_after r x y Hr mid i j Hl ltac:(lia) ltac:(lia))
      as (i' & j' & mid' & -> & Hi' & Hj' & He). cbn [bind].
    destruct (effect_off_border x y mid mid' i j Hl ltac:(lia) ltac:(lia) He Ho) as [Hl' Ho'].
    eexists. split; [reflexivity |]. split; [repeat split; cbn; lia || assumption |].
    cbn [t_mid]. right. split; [lia |]. split; [lia | exact He].
  - eexists. split; [reflexivity |]. split; [repeat split; cbn; lia || assumption |]. left. reflexivity.
Qed.

Lemma thin_loop_safe r x y fuel s : len r = x * y -> thin_inv x y s ->
  exists o, thin_loop fuel r x y s = Some o /\
    match o with Next s' => thin_inv x y s' | Done mid => len mid = x * y /\ off_border x y mid end.
Proof.
  intros Hr. revert s. induction fuel as [|f IH]; intros s Hs; [exists (Next s); auto |]. cbn [thin_loop].
  destruct (thin_step_ok r x y s Hr Hs) as [-> | (s' & -> & Hs' & _)]; cbn [bind]; [| now apply IH].
  exists (Done (t_mid s)). split; [reflexivity |]. now destruct Hs as (_ & _ & ? & ?).
Qed.

(** However long it runs, thinning reads and writes inside its buffers and
    keeps the edge points at least 2 pixels from the sides, so that drawing
    them afterwards stays inside the image. *)
Theorem susan_thin_safe fuel r mid x y :
  len r = x * y -> len mid = x * y -> off_border x y mid ->
  exists o, susan_thin fuel r mid x y = Some o /\
    match o with Next s => thin_inv x y s | Done mid' => len mid' = x * y /\ off_border x y mid' end.
Proof. intros Hr Hl Ho. apply thin_loop_safe; [exact Hr |]. repeat split; cbn; lia || assumption. Qed.

(** A map with a block of four edge points. *)
Definition block_map : list Z := repeat 100 48 ++ [1; 1] ++ repeat 100 9 ++ [1; 1] ++ repeat 100 60.

Lemma block_map_off : off_border 11 11 block_map.
Proof.
  intros u v H.
  assert (R : 0 <= u < 11 /\ 0 <= v < 11) by (unfold marked in H; lia).
  assert (A : all_range 0 11 (fun u => all_range 0 11 (fun v =>
    negb (marked block_map 11 11 u v) || interior 2 11 11 u v)) = true) by reflexivity.
  pose proof (all_range_spec _ _ _ A u ltac:(lia)) as B. cbv beta in B.
  pose proof (all_range_spec _ _ _ B v ltac:(lia)) as C. cbv beta in C. rewrite H in C. exact C.
Qed.

Lemma susan_thin_safe_witness :
  exists o, susan_thin 200 (repeat 7 121) block_map 11 11 = Some o /\
    match o with Next s => thin_inv 11 11 s | Done mid' => len mid' = 11 * 11 /\ off_border 11 11 mid' end.
Proof. apply (susan_thin_safe 200 (repeat 7 121) block_map 11 11); [reflexivity | reflexivity | exact block_map_off]. Defined.

(** A run during which [p] and [q] stay edge points. *)
Inductive surviving (r : list Z) (x y : Z) (p q : Z * Z) : thin_state -> thin_state -> Prop :=
| surviving_start s : surviving r x y p q s s
| surviving_step s s1 s' : thin_step r x y s = Some (Next s1) ->
    edge (t_mid s1) x y p -> edge (t_mid s1) x y q ->
    surviving r x y p q s1 s' -> surviving r x y p q s s'.

(** C13. Thinning never breaks an edge: two edge points that are connected before
    a run, through edge points and their eight neighbours, and that the run does
    not remove, are connected after it. *)
Theorem susan_thin_connected r x y p q s s' :
  len r = x * y -> thin_inv x y s -> surviving r x y p q s s' -> edge (t_mid s) x y p ->
  conn (edge (t_mid s) x y) p q -> conn (edge (t_mid s') x y) p q.
Proof.
  intros Hr Hs Hrun. induction Hrun as [| s s1 s' E Ep1 Eq1 _ IH]; intros Ep HC; [exact HC |].
  destruct (thin_step_ok r x y s Hr Hs) as [E' | (s2 & E' & Hs2 & Hc)]; [congruence |].
  assert (s2 = s1) by congruence. subst s2. apply IH; [exact Hs2 | exact Ep1 |].
  destruct Hc as [Em | (Hi & Hj & He)]; [now rewrite Em |].
  apply (effect_connected x y (t_mid s) (t_mid s1) (t_i s) (t_j s)); try assumption. now destruct Hs as (_ & _ & ? & _).
Qed.

Lemma susan_thin_connected_witness :
  exists s', thin_step (repeat 7 121) 11 11 (mkThin 5 5 block_map) = Some (Next s') /\
    t_mid s' <> block_map /\ conn (edge (t_mid s') 11 11) (5, 4) (4, 5).
Proof.
  eexists. split; [vm_compute; reflexivity |]. split; [discriminate |].
  apply (susan_thin_connected (repeat 7 121) 11 11 (5, 4) (4, 5) (mkThin 5 5 block_map)).
  - reflexivity.
  - split; [cbn; lia |]. split; [cbn; lia |]. split; [reflexivity | exact block_map_off].
  - eapply surviving_step; [vm_compute; reflexivity | reflexivity | reflexivity | apply surviving_start].
  - reflexivity.
  - apply (conn_next _ _ (5, 4)); [apply conn_refl | reflexivity | reflexivity].
Defined.
