(* ===== verification/SusanMain.v ===== *)
(** * SUSAN: the program

    Models [main] of [automotive/susan/susan.c]: the options, the three modes
    and the files.  A run gets the words of the command line after the program's
    name, the contents of the input file ([None] if it cannot be opened) and
    whether the output file can be opened; it gives the bytes written. *)

From Stdlib Require Import ZArith Lia List Bool.
From Stdlib Require Import SpecFloat.
From S2P Require Import Prelude SusanImage SusanPrinciple SusanFloat SusanLut SusanPgm.
From S2P Require Import SusanMedian SusanSmooth SusanEdges SusanCorners SusanThin.
Import ListNotations.

(** ** The library the program calls *)

Record libc := mkLibc {
  exp : spec_float -> spec_float;
  atof : list Z -> spec_float;
  atoi : list Z -> Z;
  malloc : Z -> option (list Z)
}.

(** What the program relies on: a block that [malloc] returns is as long as asked
    for.  That a call succeeds at all is not part of it. *)
Class LibcOk (c : libc) : Prop := {
  libc_exp : ExpOk (exp c);
  libc_malloc n blk : 0 <= n -> malloc c n = Some blk -> len blk = n
}.

(** There is memory for every call of a run.  The program never looks whether
    [malloc] returned a null pointer. *)
Definition enough_memory (c : libc) : Prop := forall n, 0 <= n < 2 ^ 31 -> malloc c n <> None.

Lemma libc_allocates c {Hc : LibcOk c} : enough_memory c -> allocates (malloc c).
Proof.
  intros Hm n Hn. destruct (malloc c n) as [blk|] eqn:E; [| now destruct (Hm n Hn)].
  exists blk. split; [reflexivity |]. apply libc_malloc; [lia | exact E].
Qed.

(** ** Options *)

Record options := mkOptions {
  mode : Z; principle : Z; thin_post_proc : Z; three_by_three : Z;
  drawing_mode : Z; susan_quick : Z; dt : spec_float; bt : Z
}.

(** The initial values of [main]'s variables; [dt=4.0]. *)
Definition defaults : options := mkOptions 0 0 1 0 0 0 (f32_of_Z 4) 20.

Definition max_no_corners : Z := 1850.
Definition max_no_edges : Z := 2650.

Definition set_mode (m : Z) (o : options) : options :=
  mkOptions m (principle o) (thin_post_proc o) (three_by_three o) (drawing_mode o) (susan_quick o) (dt o) (bt o).
Definition set_principle (o : options) : options :=
  mkOptions (mode o) 1 (thin_post_proc o) (three_by_three o) (drawing_mode o) (susan_quick o) (dt o) (bt o).
Definition set_no_thin (o : options) : options :=
  mkOptions (mode o) (principle o) 0 (three_by_three o) (drawing_mode o) (susan_quick o) (dt o) (bt o).
Definition set_three (o : options) : options :=
  mkOptions (mode o) (principle o) (thin_post_proc o) 1 (drawing_mode o) (susan_quick o) (dt o) (bt o).
Definition set_drawing (o : options) : options :=
  mkOptions (mode o) (principle o) (thin_post_proc o) (three_by_three o) 1 (susan_quick o) (dt o) (bt o).
Definition set_quick (o : options) : options :=
  mkOptions (mode o) (principle o) (thin_post_proc o) (three_by_three o) (drawing_mode o) 1 (dt o) (bt o).
Definition set_dt (d : spec_float) (o : options) : options :=
  mkOptions (mode o) (principle o) (thin_post_proc o) (three_by_three o) (drawing_mode o) (susan_quick o) d (bt o).
Definition set_bt (t : Z) (o : options) : options :=
  mkOptions (mode o) (principle o) (thin_post_proc o) (three_by_three o) (drawing_mode o) (susan_quick o) (dt o) t.

Section Program.
Context (c : libc).

(** The loop over [argv]; a word that does not begin with [-], or a missing
    argument, ends the program. *)
Fixpoint read_options (argv : list (list Z)) (o : options) : res options :=
  match argv with
  | [] => Ret o
  | (45 :: flag) :: rest =>
      match flag with
      | 115 :: _ => read_options rest (set_mode 0 o)
      | 101 :: _ => read_options rest (set_mode 1 o)
      | 99 :: _ => read_options rest (set_mode 2 o)
      | 112 :: _ => read_options rest (set_principle o)
      | 110 :: _ => read_options rest (set_no_thin o)
      | 98 :: _ => read_options rest (set_drawing o)
      | 51 :: _ => read_options rest (set_three o)
      | 113 :: _ => read_options rest (set_quick o)
      | 100 :: _ =>
          match rest with
          | [] => Exit 0
          | a :: rest =>
              let d := to_f32 (atof c a) in
              let o := set_dt d o in
              read_options rest (if SFltb d (f32_of_Z 0) then set_three o else o)
          end
      | 116 :: _ =>
          match rest with
          | [] => Exit 0
          | a :: rest => read_options rest (set_bt (atoi c a) o)
          end
      | _ => read_options rest o
      end
  | _ => Exit 0
  end.

(** The image in memory after the mode has run. *)
Definition run_smoothing (o : options) (im : list Z) (x_size y_size : Z) : res (list Z) :=
  let! bp := lift (malloc c 516) in
  let! bp := lift (setup_brightness_lut (exp c) bp (bt o) 2) in
  susan_smoothing (exp c) (malloc c) (three_by_three o) im (dt o) x_size y_size bp.

Definition run_edges (fuel : nat) (o : options) (im : list Z) (x_size y_size : Z) : res (list Z) :=
  let! r := lift (malloc c (x_size * y_size)) in
  let! bp := lift (malloc c 516) in
  let! bp := lift (setup_brightness_lut (exp c) bp (bt o) 6) in
  if negb (principle o =? 0) then
    let! r := lift (if negb (three_by_three o =? 0)
                    then susan_principle_small im r bp max_no_edges x_size y_size
                    else susan_principle im r bp max_no_edges x_size y_size) in
    lift (int_to_uchar r im (x_size * y_size))
  else
    let! mid := lift (malloc c (x_size * y_size)) in
    let! mid := lift (memset mid 100 (x_size * y_size)) in
    let! (r, mid) := lift (if negb (three_by_three o =? 0)
                           then susan_edges_small im r mid bp max_no_edges x_size y_size
                           else susan_edges im r mid bp max_no_edges x_size y_size) in
    let! mid := if negb (thin_post_proc o =? 0) then
                  match susan_thin fuel r mid x_size y_size with
                  | Some (Done mid) => Ret mid
                  | Some (Next _) => Running
                  | None => Undef
                  end
                else Ret mid in
    lift (edge_draw im mid x_size y_size (drawing_mode o)).

Definition run_corners (o : options) (im : list Z) (x_size y_size : Z) : res (list Z) :=
  let! r := lift (malloc c (x_size * y_size)) in
  let! bp := lift (malloc c 516) in
  let! bp := lift (setup_brightness_lut (exp c) bp (bt o) 6) in
  if negb (principle o =? 0) then
    let! r := lift (susan_principle im r bp max_no_corners x_size y_size) in
    lift (int_to_uchar r im (x_size * y_size))
  else
    let! (corner_list, r) :=
      if negb (susan_quick o =? 0) then susan_corners_quick im r bp max_no_corners x_size y_size
      else
        let! cgx := lift (malloc c (x_size * y_size)) in
        let! cgy := lift (malloc c (x_size * y_size)) in
        susan_corners im r bp max_no_corners x_size y_size cgx cgy in
    lift (corner_draw im corner_list x_size (drawing_mode o)).

Definition run_mode (fuel : nat) (o : options) (im : list Z) (x_size y_size : Z) : res (list Z) :=
  if mode o =? 0 then run_smoothing o im x_size y_size
  else if mode o =? 1 then run_edges fuel o im x_size y_size
  else if mode o =? 2 then run_corners o im x_size y_size
  else Ret im.

Definition main (fuel : nat) (argv : list (list Z)) (input : option (list Z)) (writable : bool)
    : res (list Z) :=
  match argv with
  | _ :: _ :: args =>
      let! (im, x_size, y_size) := get_image (malloc c) input in
      let! o := read_options args defaults in
      let o := if (principle o =? 1) && (mode o =? 0) then set_mode 1 o else o in
      let! im := run_mode fuel o im x_size y_size in
      put_image writable im x_size y_size
  | _ => Exit 0
  end.
End Program.

(** ** Every mode gives an image *)



Section Modes.
Context (c : libc) {Hc : LibcOk c}.
Context (o : options) (im : list Z) (x y : Z).
Hypothesis Him : image_ok x y im.
Hypothesis Hmem : enough_memory c.


Lemma malloc_image : exists blk, malloc c (x * y) = Some blk /\ len blk = x * y.
Proof using Hc Him Hmem. destruct Him as (? & ? & ? & _). apply (libc_allocates c Hmem). nia. Qed.

Lemma malloc_lut : exists blk, malloc c 516 = Some blk /\ len blk = 516.
Proof using Hc Hmem. apply (libc_allocates c Hmem). lia. Qed.






(** On an image of one brightness every USAN is the whole mask. *)
Lemma usan_flat mask bp b v : (forall p, 0 <= p < x * y -> im.[p] = v) -> lut_ok bp -> 0 <= b -> within b mask ->
  forall i j, interior b x y i j = true -> usan mask im bp x i j = 100 + 100 * Z.of_nat (length mask).
Proof using.
  intros Hv (_ & H100 & _) Hb Hm i j Hij. apply interior_true in Hij. unfold usan. f_equal.
  revert Hm. induction mask as [|[a d] mask IH]; [reflexivity |].
  intros Hm. apply Forall_cons_iff in Hm. destruct Hm as [[? ?] Hm]. cbn [map zsum fold_right fst snd] in *.
  fold (zsum (map (sim_at im bp x i j) mask)). rewrite IH by exact Hm. unfold sim_at. cbn [fst snd].
  rewrite !Hv by (apply px_inside; lia). rewrite Z.sub_diag, Z.add_0_r, H100. simpl length. lia.
Qed.

Lemma scale_flat r mask bp b max_no v : (forall p, 0 <= p < x * y -> im.[p] = v) -> lut_ok bp ->
  0 <= b -> within b mask -> max_no <= 100 + 100 * Z.of_nat (length mask) -> len r = x * y ->
  (forall i j, 0 <= i < y -> 0 <= j < x -> r.[px x i j] = response mask b max_no im bp x y i j) ->
  int_to_uchar r im (x * y) = None.
Proof using Him.
  intros Hv Hbp Hb Hm Hmax Hl Hr. destruct Him as (Hx & Hy & _). rewrite <- Hl.
  apply (int_to_uchar_flat r im 0); [nia | | unfold is_i32; lia].
  rewrite Hl. intros k Hk. destruct (px_of x y k Hx Hk) as (i & j & Hi & Hj & ->).
  rewrite Hr by assumption. unfold response. destruct (interior b x y i j) eqn:E; [| reflexivity].
  rewrite (usan_flat mask bp b v) by assumption. lia.
Qed.

Hypothesis Hbt : bt o <> 0.

Lemma lut_made form : exists blk bp, malloc c 516 = Some blk /\
  setup_brightness_lut (exp c) blk (bt o) form = Some bp /\ lut_ok bp.
Proof using Hc Hmem Hbt.
  destruct malloc_lut as (blk & E & Hl). exists blk.
  destruct (setup_lut_ok (exp c) (Hexp := libc_exp) blk (bt o) form Hl Hbt) as (bp & E' & Hbp). eauto.
Qed.



(** With [-p] such an image has no contrast to stretch. *)
Lemma run_flat fuel v : (forall p, 0 <= p < x * y -> im.[p] = v) -> principle o <> 0 ->
  run_edges c fuel o im x y = Undef /\ run_corners c o im x y = Undef.
Proof using Hc Him Hmem Hbt.
  intros Hv Hp. unfold run_edges, run_corners. destruct malloc_image as (blk & Eblk & Hblk). rewrite Eblk. cbn [lift rbind].
  destruct (lut_made 6) as (blk2 & bp & -> & Elut & Hbp). cbn [lift rbind]. rewrite Elut. cbn [lift rbind]. rewrite (proj2 (Z.eqb_neq _ _) Hp). cbn [negb].
  assert (D : forall max_no r, max_no <= 3700 -> len r = x * y ->
    (let! r := lift (susan_principle im r bp max_no x y) in lift (int_to_uchar r im (x * y))) = Undef).
  { intros max_no r Hmax Hr.
    destruct (susan_principle_response im r bp max_no x y Him Hbp Hr) as (r' & -> & Hl & Hr').
    cbn [lift rbind]. rewrite (scale_flat r' disc bp 3 max_no v); try assumption; try reflexivity; try lia.
    apply disc_within. }
  split; [| apply D; [easy | exact Hblk]].
  destruct (negb (three_by_three o =? 0)); [| apply D; [easy | exact Hblk]].
  destruct (susan_principle_small_response im blk bp max_no_edges x y Him Hbp Hblk)
    as (r' & -> & Hl & Hr'). cbn [lift rbind].
  rewrite (scale_flat r' ring bp 1 730 v); try assumption; try reflexivity; try lia.
  - apply ring_within.
  - change (Z.of_nat (length ring)) with 8. lia.
Qed.
End Modes.

(** ** The program *)

Lemma read_options_mode c argv : forall o o', read_options c argv o = Ret o' ->
  0 <= mode o <= 2 -> 0 <= mode o' <= 2.
Proof.
  remember (length argv) as n eqn:En. assert (Hn : (length argv <= n)%nat) by lia. clear En. revert argv Hn.
  induction n as [|n IH]; intros [|w rest] Hn o o' H Ho; cbn in Hn; try lia;
    try (cbn in H; congruence).
  cbn [read_options] in H.
  assert (K : forall rest o, (length rest <= n)%nat -> 0 <= mode o <= 2 ->
    read_options c rest o = Ret o' -> 0 <= mode o' <= 2) by (intros; eapply IH; eassumption). clear IH.
  repeat match type of H with match ?e with _ => _ end = _ => destruct e; try discriminate H end;
    simpl in Hn; (eapply K; [| | exact H]); try lia; cbn; try lia; now destruct (SFltb _ _).
Qed.

Section Runs.
Context (c : libc) {Hc : LibcOk c}.
Hypothesis Hmem : enough_memory c.

(** A run on a readable file: the options, then the mode, then the output. *)
Lemma main_eq fuel a0 a1 args g1 g2 g3 w1 w2 w3 im x y o :
  gap g1 -> gap g2 -> gap g3 -> digit w1 = false -> digit w2 = false -> digit w3 = false ->
  image_ok x y im -> read_options c args defaults = Ret o ->
  main c fuel (a0 :: a1 :: args) (Some (pgm_file g1 g2 g3 w1 w2 w3 im x y)) true
  = let! im := run_mode c fuel (if (principle o =? 1) && (mode o =? 0) then set_mode 1 o else o) im x y in
    put_image true im x y.
Proof using Hc Hmem.
  intros G1 G2 G3 D1 D2 D3 Him Ho. unfold main. rewrite get_pgm_file; try assumption; [| exact (libc_allocates c Hmem)].
  cbn [rbind]. rewrite Ho. reflexivity.
Qed.



(** With the option [-p] an image of a single brightness, of any size and in
    any mode, ends in a division by zero: its response is 0 everywhere, and
    [int_to_uchar] scales by the difference of the greatest and the least
    response. *)
Theorem susan_main_flat fuel a0 a1 args g1 g2 g3 w1 w2 w3 im x y o v :
  gap g1 -> gap g2 -> gap g3 -> digit w1 = false -> digit w2 = false -> digit w3 = false ->
  image_ok x y im -> read_options c args defaults = Ret o ->
  principle o = 1 -> bt o <> 0 -> (forall p, 0 <= p < x * y -> im.[p] = v) ->
  main c fuel (a0 :: a1 :: args) (Some (pgm_file g1 g2 g3 w1 w2 w3 im x y)) true = Undef.
Proof using Hc Hmem.
  intros G1 G2 G3 D1 D2 D3 Him Ho Hp Hb Hv. rewrite (main_eq _ _ _ _ _ _ _ _ _ _ _ _ _ o) by assumption.
  pose proof (read_options_mode c args defaults o Ho ltac:(cbn; lia)) as Hm. rewrite Hp. cbn [Z.eqb andb Pos.eqb].
  assert (R : forall o', bt o' = bt o -> principle o' = 1 ->
    run_edges c fuel o' im x y = Undef /\ run_corners c o' im x y = Undef).
  { intros o' E E'. apply (run_flat c o' im x y Him Hmem) with v; rewrite ?E, ?E'; easy. }
  unfold run_mode. destruct (Z.eqb_spec (mode o) 0) as [E0 | N0].
  { cbn [mode set_mode Z.eqb Pos.eqb]. now rewrite (proj1 (R (set_mode 1 o) eq_refl Hp)). }
  rewrite (proj2 (Z.eqb_neq _ _) N0). destruct (R o eq_refl Hp) as [-> ->].
  destruct (Z.eqb_spec (mode o) 1); [reflexivity |]. now replace (mode o =? 2) with true by lia.
Qed.
End Runs.

(** ** Runs *)

(** A library with the coarsest [exp], decimal numbers only and cleared blocks. *)
Definition small_atoi (w : list Z) : Z := number 0 w.
Definition small_libc : libc := mkLibc step_exp (fun w => f64_of_Z (small_atoi w)) small_atoi cleared.

#[export] Instance small_libc_ok : LibcOk small_libc.
Proof.
  split; [exact step_exp_ok |]. intros n blk Hn H. injection H as <-. now apply zeros_len.
Qed.

Lemma small_memory : enough_memory small_libc.
Proof. intros n _. discriminate. Qed.

Definition c_flag : list Z := [45; 99].
Definition p_flag : list Z := [45; 112].
Definition own_file (im : list Z) (x y : Z) : list Z := pgm_file [10] [] [] 32 10 10 im x y.

Lemma own_gap : gap [10].
Proof. apply gap_char; [reflexivity | lia | constructor]. Qed.



Lemma susan_main_flat_witness :
  main small_libc 0 [[97]; [98]; p_flag; c_flag] (Some (own_file (repeat 7 64) 8 8)) true = Undef.
Proof.
  apply (susan_main_flat small_libc small_memory 0 [97] [98] [p_flag; c_flag] [10] [] [] 32 10 10 (repeat 7 64) 8 8
    (set_mode 2 (set_principle defaults)) 7 own_gap gap_nil gap_nil eq_refl eq_refl eq_refl); try easy.
  - repeat split; try reflexivity. apply Forall_forall. intros v Hv. apply repeat_spec in Hv. subst. easy.
  - intros p Hp. now rewrite (aget_repeat 7 64) by (cbn; lia).
Defined.
