(* ===== verification/PgpMd5.v ===== *)
(** * PGP: the MD5 message digest

    Models [security/pgp/src/md5.c] on a little-endian machine ([byteReverse] is
    empty) with the 32-bit [uint32] of its name: [md5.h] makes it an
    [unsigned int] on the Alpha and an [unsigned long] elsewhere, which has 32
    bits on the ARM the program was built for too.

    The digest of a message does not depend on how the message is cut into
    calls of [MD5Update]: it is the digest of RFC 1321, written out in the
    module [Rfc1321]. *)

From Stdlib Require Import ZArith Lia List Bool.
From S2P Require Import Prelude Sha.
Import ListNotations.

(** [in] is the array of 64 bytes that is also read as 16 words. *)
Record MD5Context := mkMD5 {
  buf : list Z;
  bits0 : Z;
  bits1 : Z;
  inb : list Z
}.

Definition set_in (d : list Z) (c : MD5Context) : MD5Context := mkMD5 (buf c) (bits0 c) (bits1 c) d.

(** [memcpy(d + o, s, n)] *)
Definition memcpy_at (d : list Z) (o : Z) (s : list Z) (n : Z) : list Z :=
  firstn (Z.to_nat o) d ++ firstn (Z.to_nat n) s ++ skipn (Z.to_nat (o + n)) d.

(** [(uint32 * ) in] *)
Definition in_words (d : list Z) : list Z := map (fun i => get_long 4 d (Z.of_nat i)) (seq 0 16).

(** ** The transformation *)

Definition F1 (x y z : Z) : Z := z .^ (x .& (y .^ z)).
Definition F2 (x y z : Z) : Z := F1 z x y.
Definition F3 (x y z : Z) : Z := x .^ y .^ z.
Definition F4 (x y z : Z) : Z := y .^ (x .| u32 (Z.lnot z)).

Definition MD5STEP (f : Z -> Z -> Z -> Z) (w x y z data s : Z) : Z :=
  let w := u32 (w + (f x y z + data)) in
  let w := u32 (w << s) .| (w >> (32 - s)) in
  u32 (w + x).

(** The variables [a] to [d], and four steps in the order of the source, each
    with the index into [in], the constant and the shift. *)
Definition md5_regs : Type := (Z * Z * Z * Z)%type.

Definition md5_quad (f : Z -> Z -> Z -> Z) (inw : list Z) (e0 e1 e2 e3 : Z * Z * Z) (r : md5_regs) : md5_regs :=
  let '(a, b, c, d) := r in
  let step := fun (e : Z * Z * Z) w x y z =>
    let '(k, t, s) := e in MD5STEP f w x y z (u32 (inw.[k] + t)) s in
  let a := step e0 a b c d in
  let d := step e1 d a b c in
  let c := step e2 c d a b in
  let b := step e3 b c d a in
  (a, b, c, d).

Definition MD5Transform (buf inw : list Z) : list Z :=
  let r := (buf.[0], buf.[1], buf.[2], buf.[3]) in
  let r := md5_quad F1 inw (0, 0xd76aa478, 7) (1, 0xe8c7b756, 12) (2, 0x242070db, 17) (3, 0xc1bdceee, 22) r in
  let r := md5_quad F1 inw (4, 0xf57c0faf, 7) (5, 0x4787c62a, 12) (6, 0xa8304613, 17) (7, 0xfd469501, 22) r in
  let r := md5_quad F1 inw (8, 0x698098d8, 7) (9, 0x8b44f7af, 12) (10, 0xffff5bb1, 17) (11, 0x895cd7be, 22) r in
  let r := md5_quad F1 inw (12, 0x6b901122, 7) (13, 0xfd987193, 12) (14, 0xa679438e, 17) (15, 0x49b40821, 22) r in
  let r := md5_quad F2 inw (1, 0xf61e2562, 5) (6, 0xc040b340, 9) (11, 0x265e5a51, 14) (0, 0xe9b6c7aa, 20) r in
  let r := md5_quad F2 inw (5, 0xd62f105d, 5) (10, 0x02441453, 9) (15, 0xd8a1e681, 14) (4, 0xe7d3fbc8, 20) r in
  let r := md5_quad F2 inw (9, 0x21e1cde6, 5) (14, 0xc33707d6, 9) (3, 0xf4d50d87, 14) (8, 0x455a14ed, 20) r in
  let r := md5_quad F2 inw (13, 0xa9e3e905, 5) (2, 0xfcefa3f8, 9) (7, 0x676f02d9, 14) (12, 0x8d2a4c8a, 20) r in
  let r := md5_quad F3 inw (5, 0xfffa3942, 4) (8, 0x8771f681, 11) (11, 0x6d9d6122, 16) (14, 0xfde5380c, 23) r in
  let r := md5_quad F3 inw (1, 0xa4beea44, 4) (4, 0x4bdecfa9, 11) (7, 0xf6bb4b60, 16) (10, 0xbebfbc70, 23) r in
  let r := md5_quad F3 inw (13, 0x289b7ec6, 4) (0, 0xeaa127fa, 11) (3, 0xd4ef3085, 16) (6, 0x04881d05, 23) r in
  let r := md5_quad F3 inw (9, 0xd9d4d039, 4) (12, 0xe6db99e5, 11) (15, 0x1fa27cf8, 16) (2, 0xc4ac5665, 23) r in
  let r := md5_quad F4 inw (0, 0xf4292244, 6) (7, 0x432aff97, 10) (14, 0xab9423a7, 15) (5, 0xfc93a039, 21) r in
  let r := md5_quad F4 inw (12, 0x655b59c3, 6) (3, 0x8f0ccc92, 10) (10, 0xffeff47d, 15) (1, 0x85845dd1, 21) r in
  let r := md5_quad F4 inw (8, 0x6fa87e4f, 6) (15, 0xfe2ce6e0, 10) (6, 0xa3014314, 15) (13, 0x4e0811a1, 21) r in
  let r := md5_quad F4 inw (4, 0xf7537e82, 6) (11, 0xbd3af235, 10) (2, 0x2ad7d2bb, 15) (9, 0xeb86d391, 21) r in
  let '(a, b, c, d) := r in
  [u32 (buf.[0] + a); u32 (buf.[1] + b); u32 (buf.[2] + c); u32 (buf.[3] + d)].

(** ** The digest of a stream *)

Definition MD5Init (c : MD5Context) : MD5Context :=
  mkMD5 [0x67452301; 0xefcdab89; 0x98badcfe; 0x10325476] 0 0 (inb c).

(** [MD5Transform(ctx->buf, (uint32 * ) ctx->in)] *)
Definition transform (c : MD5Context) : MD5Context :=
  mkMD5 (MD5Transform (buf c) (in_words (inb c))) (bits0 c) (bits1 c) (inb c).

(** The loop over the whole blocks of the argument, and the [memcpy] after it. *)
Fixpoint md5_blocks (fuel : nat) (c : MD5Context) (b : list Z) (len : Z) : MD5Context :=
  match fuel with
  | O => c
  | S f =>
      if len >=? 64 then
        md5_blocks f (transform (set_in (memcpy_at (inb c) 0 b 64) c)) (skipn 64 b) (len - 64)
      else set_in (memcpy_at (inb c) 0 b len) c
  end.

Definition MD5Update (c : MD5Context) (b : list Z) (len : Z) : MD5Context :=
  let t := bits0 c in
  let lo := u32 (t + u32 (len << 3)) in
  let hi := if lo <? t then u32 (bits1 c + 1) else bits1 c in
  let hi := u32 (hi + (len >> 29)) in
  let c := mkMD5 (buf c) lo hi (inb c) in
  let t := (t >> 3) .& 0x3f in
  if negb (t =? 0) then
    let p := t in
    let t := 64 - t in
    if len <? t then set_in (memcpy_at (inb c) p b len) c
    else
      let c := transform (set_in (memcpy_at (inb c) p b t) c) in
      md5_blocks (S (length b)) c (skipn (Z.to_nat t) b) (len - t)
  else md5_blocks (S (length b)) c b len.

(** [memcpy(digest, ctx->buf, 16)] *)
Definition digest_bytes (buf : list Z) : list Z :=
  flat_map (fun i => le_bytes 4 buf.[Z.of_nat i]) (seq 0 4).

(** The digest and what is left in the context: [sizeof(ctx)] is the size of a
    pointer, so that [memset] clears two words. *)
Definition MD5Final (c : MD5Context) : list Z * MD5Context :=
  let count := (bits0 c >> 3) .& 0x3F in
  let d := aset (inb c) count 0x80 in
  let p := count + 1 in
  let count := 64 - 1 - count in
  let c :=
    if count <? 8 then
      let c := transform (set_in (memset0 d p count) c) in
      set_in (memset0 (inb c) 0 56) c
    else set_in (memset0 d p (count - 8)) c in
  let d := put_long 4 (put_long 4 (inb c) 14 (bits0 c)) 15 (bits1 c) in
  let c := transform (set_in d c) in
  (digest_bytes (buf c), mkMD5 [0; 0; (buf c).[2]; (buf c).[3]] (bits0 c) (bits1 c) (inb c)).

(** ** Specification: RFC 1321 *)

Module Rfc1321.

Definition F (x y z : Z) : Z := (x .& y) .| (Z.lnot x .& z).
Definition G (x y z : Z) : Z := (x .& z) .| (y .& Z.lnot z).
Definition H (x y z : Z) : Z := x .^ y .^ z.
Definition I (x y z : Z) : Z := y .^ (x .| (2 ^ 32 - 1 - z)).

(** The integer part of [2^32 * abs(sin(t))], for [t] from 1 to 64. *)
Definition T : list Z :=
  [0xd76aa478; 0xe8c7b756; 0x242070db; 0xc1bdceee; 0xf57c0faf; 0x4787c62a; 0xa8304613;
   0xfd469501; 0x698098d8; 0x8b44f7af; 0xffff5bb1; 0x895cd7be; 0x6b901122; 0xfd987193;
   0xa679438e; 0x49b40821; 0xf61e2562; 0xc040b340; 0x265e5a51; 0xe9b6c7aa; 0xd62f105d;
   0x02441453; 0xd8a1e681; 0xe7d3fbc8; 0x21e1cde6; 0xc33707d6; 0xf4d50d87; 0x455a14ed;
   0xa9e3e905; 0xfcefa3f8; 0x676f02d9; 0x8d2a4c8a; 0xfffa3942; 0x8771f681; 0x6d9d6122;
   0xfde5380c; 0xa4beea44; 0x4bdecfa9; 0xf6bb4b60; 0xbebfbc70; 0x289b7ec6; 0xeaa127fa;
   0xd4ef3085; 0x04881d05; 0xd9d4d039; 0xe6db99e5; 0x1fa27cf8; 0xc4ac5665; 0xf4292244;
   0x432aff97; 0xab9423a7; 0xfc93a039; 0x655b59c3; 0x8f0ccc92; 0xffeff47d; 0x85845dd1;
   0x6fa87e4f; 0xfe2ce6e0; 0xa3014314; 0x4e0811a1; 0xf7537e82; 0xbd3af235; 0x2ad7d2bb;
   0xeb86d391].

Definition func (t : Z) : Z -> Z -> Z -> Z :=
  if t <? 16 then F else if t <? 32 then G else if t <? 48 then H else I.

(** Which word of the block step [t] adds, and by how much it rotates. *)
Definition word (t : Z) : Z :=
  if t <? 16 then t else if t <? 32 then (5 * t + 1) mod 16
  else if t <? 48 then (3 * t + 5) mod 16 else 7 * t mod 16.

Definition shift (t : Z) : Z :=
  (if t <? 16 then [7; 12; 17; 22] else if t <? 32 then [5; 9; 14; 20]
   else if t <? 48 then [4; 11; 16; 23] else [6; 10; 15; 21]).[t mod 4].

Definition step (X : list Z) (t : Z) (r : md5_regs) : md5_regs :=
  let '(a, b, c, d) := r in
  let sum := (a + func t b c d + X.[word t] + T.[t]) mod 2 ^ 32 in
  (d, (b + Fips180.rotl (shift t) sum) mod 2 ^ 32, b, c).

(** A block is 64 bytes; a word is four of them, the lowest first. *)
Definition block_words (M : list Z) : list Z :=
  map (fun i => le_value (firstn 4 (skipn (4 * i) M))) (seq 0 16).

Definition compress (V X : list Z) : list Z :=
  let '(a, b, c, d) := for_range 0 64 (step X) (V.[0], V.[1], V.[2], V.[3]) in
  map (fun x => x mod 2 ^ 32) [V.[0] + a; V.[1] + b; V.[2] + c; V.[3] + d].

Fixpoint hash_blocks (n : nat) (V msg : list Z) : list Z :=
  match n with
  | O => V
  | S m => hash_blocks m (compress V (block_words (firstn 64 msg))) (skipn 64 msg)
  end.

(** A one bit, zeros, and the low 64 bits of the length in bits. *)
Definition pad (msg : list Z) : list Z :=
  let n := Z.of_nat (length msg) in
  msg ++ [128] ++ repeat 0 (Z.to_nat ((55 - n) mod 64)) ++ le_bytes 8 (8 * n).

Definition V0 : list Z := [0x67452301; 0xefcdab89; 0x98badcfe; 0x10325476].

Definition md5 (msg : list Z) : list Z :=
  flat_map (le_bytes 4) (hash_blocks (length (pad msg) / 64) V0 (pad msg)).

End Rfc1321.

(** The digests that the RFC lists for the empty string and "abc". *)
Example md5_empty : Rfc1321.md5 [] =
  [0xd4; 0x1d; 0x8c; 0xd9; 0x8f; 0x00; 0xb2; 0x04; 0xe9; 0x80; 0x09; 0x98; 0xec; 0xf8; 0x42; 0x7e].
Proof. vm_compute. reflexivity. Qed.

Example md5_abc :
  fst (MD5Final (MD5Update (MD5Update (MD5Init (mkMD5 [] 9 9 (repeat 7 64))) [97; 98] 2) [99] 1)) =
  [0x90; 0x01; 0x50; 0x98; 0x3c; 0xd2; 0x4f; 0xb0; 0xd6; 0x96; 0x3f; 0x7d; 0x28; 0xe1; 0x7f; 0x72].
Proof. vm_compute. reflexivity. Qed.

(** ** The transformation is the RFC's *)

Lemma F1_F x y z : F1 x y z = Rfc1321.F x y z.
Proof.
  apply Z.bits_inj'. intros n Hn. unfold F1, Rfc1321.F.
  rewrite Z.lxor_spec, Z.land_spec, Z.lxor_spec, Z.lor_spec, !Z.land_spec, Z.lnot_spec by lia.
  destruct (Z.testbit x n), (Z.testbit y n), (Z.testbit z n); reflexivity.
Qed.

Lemma F2_G x y z : F2 x y z = Rfc1321.G x y z.
Proof.
  unfold F2. rewrite F1_F. unfold Rfc1321.F, Rfc1321.G. f_equal; [apply Z.land_comm |].
  apply Z.land_comm.
Qed.

Lemma F4_I x y z : is_u32 z -> F4 x y z = Rfc1321.I x y z.
Proof.
  intros Hz. unfold F4, Rfc1321.I. do 2 f_equal. unfold u32, zext, Z.lnot, is_u32 in *.
  symmetry. apply (Z.mod_unique _ _ (-1)); lia.
Qed.

Definition md5_words (r : md5_regs) : Prop :=
  let '(a, b, c, d) := r in is_u32 a /\ is_u32 b /\ is_u32 c /\ is_u32 d.

(** A step of the source, for the words, constants and shifts of step [t]. *)
Lemma step_ok f X t w x y z k T s : is_u32 w -> is_u32 x -> is_u32 y -> is_u32 z ->
  (forall x y z, is_u32 z -> f x y z = Rfc1321.func t x y z) ->
  k = Rfc1321.word t -> T = Rfc1321.T.[t] -> s = Rfc1321.shift t -> 0 < s < 32 ->
  (z, MD5STEP f w x y z (u32 (X.[k] + T)) s, x, y) = Rfc1321.step X t (w, x, y, z).
Proof.
  intros Hw Hx Hy Hz Hf -> -> -> Hs. unfold MD5STEP, Rfc1321.step. do 3 f_equal.
  rewrite Hf by exact Hz.
  set (v := u32 (w + _)).
  assert (Ev : v = (w + Rfc1321.func t x y z + X.[Rfc1321.word t] + Rfc1321.T.[t]) mod 2 ^ 32).
  { unfold v, u32, zext. rewrite Z.add_assoc, Z.add_mod_idemp_r by lia. f_equal. lia. }
  change (u32 (v << Rfc1321.shift t) .| (v >> (32 - Rfc1321.shift t))) with (ROT32 4 v (Rfc1321.shift t)).
  rewrite rotl_ROT32 by (exact Hs || apply u32_range). rewrite Ev, Z.add_comm. reflexivity.
Qed.

Lemma md5_step_words X t r : md5_words r -> md5_words (Rfc1321.step X t r).
Proof.
  destruct r as [[[a b] c] d]. intros (Ha & Hb & Hc & Hd).
  repeat split; try apply Hb; try apply Hc; try apply Hd;
    apply (zext_word (b + Fips180.rotl (Rfc1321.shift t) _)).
Qed.

(** The entry of step [t]. *)
Definition entry (t : Z) : Z * Z * Z := (Rfc1321.word t, Rfc1321.T.[t], Rfc1321.shift t).

Lemma quad_ok f X t r : md5_words r ->
  (forall i x y z, 0 <= i < 4 -> is_u32 z -> f x y z = Rfc1321.func (t + i) x y z) ->
  (forall i, 0 <= i < 4 -> 0 < Rfc1321.shift (t + i) < 32) ->
  md5_quad f X (entry t) (entry (t + 1)) (entry (t + 2)) (entry (t + 3)) r = for_range t (t + 4) (Rfc1321.step X) r
  /\ md5_words (for_range t (t + 4) (Rfc1321.step X) r).
Proof.
  intros Hr Hf Hs.
  assert (E : for_range t (t + 4) (Rfc1321.step X) r =
    Rfc1321.step X (t + 3) (Rfc1321.step X (t + 2) (Rfc1321.step X (t + 1) (Rfc1321.step X t r)))).
  { unfold for_range. replace (Z.to_nat (t + 4 - t)) with 4%nat by lia. cbn [for_loop].
    now replace (t + 1 + 1) with (t + 2) by lia; replace (t + 2 + 1) with (t + 3) by lia. }
  rewrite E. split; [| repeat apply md5_step_words; exact Hr].
  destruct r as [[[a b] c] d]. unfold md5_quad, entry. destruct Hr as (Ha & Hb & Hc & Hd).
  pose proof (Hf 0) as F0. pose proof (Hs 0 ltac:(lia)) as S0. rewrite Z.add_0_r in F0, S0.
  rewrite <- (step_ok f X t a b c d _ _ _ Ha Hb Hc Hd) by (reflexivity || assumption || (intros; apply F0; lia || assumption)).
  set (a' := MD5STEP f a b c d _ _). assert (Ha' : is_u32 a') by apply u32_range. clearbody a'.
  rewrite <- (step_ok f X (t + 1) d a' b c _ _ _ Hd Ha' Hb Hc) by (reflexivity || (apply Hs; lia) || (intros; apply Hf; lia || assumption)).
  set (d' := MD5STEP f d a' b c _ _). assert (Hd' : is_u32 d') by apply u32_range. clearbody d'.
  rewrite <- (step_ok f X (t + 2) c d' a' b _ _ _ Hc Hd' Ha' Hb) by (reflexivity || (apply Hs; lia) || (intros; apply Hf; lia || assumption)).
  set (c' := MD5STEP f c d' a' b _ _). assert (Hc' : is_u32 c') by apply u32_range. clearbody c'.
  rewrite <- (step_ok f X (t + 3) b c' d' a' _ _ _ Hb Hc' Hd' Ha') by (reflexivity || (apply Hs; lia) || (intros; apply Hf; lia || assumption)).
  reflexivity.
Qed.

(** The variables after the first [t] steps. *)
Definition reaches (X : list Z) (r0 : md5_regs) (t : Z) (r : md5_regs) : Prop :=
  r = for_range 0 t (Rfc1321.step X) r0 /\ md5_words r.

Lemma quad_reaches f X r0 t t' e0 e1 e2 e3 r : 0 <= t -> t' = t + 4 ->
  (forall i x y z, 0 <= i < 4 -> is_u32 z -> f x y z = Rfc1321.func (t + i) x y z) ->
  (forall i, 0 <= i < 4 -> 0 < Rfc1321.shift (t + i) < 32) ->
  e0 = entry t -> e1 = entry (t + 1) -> e2 = entry (t + 2) -> e3 = entry (t + 3) ->
  reaches X r0 t r -> reaches X r0 t' (md5_quad f X e0 e1 e2 e3 r).
Proof.
  intros Ht -> Hf Hs -> -> -> -> [Er Hr]. destruct (quad_ok f X t r Hr Hf Hs) as [-> HW].
  split; [| exact HW]. rewrite Er. symmetry. apply for_range_split. lia.
Qed.

Ltac quads f t :=
  eapply (quad_reaches f _ _ t);
  [ lia | reflexivity
  | intros i x y z Hi Hz; unfold Rfc1321.func; zcases; try lia;
    first [apply F1_F | apply F2_G | reflexivity | now apply F4_I]
  | intros i Hi; assert (i = 0 \/ i = 1 \/ i = 2 \/ i = 3) as [-> | [-> | [-> | ->]]] by lia;
    vm_compute; split; reflexivity
  | vm_compute; reflexivity | vm_compute; reflexivity | vm_compute; reflexivity | vm_compute; reflexivity |].

Definition digest4 (V : list Z) : Prop := length V = 4%nat /\ Forall is_u32 V.

Lemma MD5Transform_compress V X : digest4 V -> MD5Transform V X = Rfc1321.compress V X.
Proof.
  intros [_ HV]. assert (HW : forall i, is_u32 V.[i]) by (intros; apply Forall_aget; [unfold is_u32; lia | exact HV]).
  unfold MD5Transform, Rfc1321.compress. set (r0 := (V.[0], V.[1], V.[2], V.[3])).
  assert (W : reaches X r0 0 r0) by (split; [reflexivity | repeat split; apply HW]). clearbody r0. cbv zeta.
  match goal with |- context [md5_quad F4 X ?e0 ?e1 ?e2 ?e3 ?r] => set (R := md5_quad F4 X e0 e1 e2 e3 r) end.
  assert (HR : reaches X r0 64 R).
  { unfold R. quads F4 60. quads F4 56. quads F4 52. quads F4 48. quads F3 44. quads F3 40. quads F3 36. quads F3 32.
    quads F2 28. quads F2 24. quads F2 20. quads F2 16. quads F1 12. quads F1 8. quads F1 4. quads F1 0. exact W. }
  destruct HR as [-> _]. destruct (for_range 0 64 _ _) as [[[a b] c] d]. reflexivity.
Qed.

(** ** A message byte by byte *)

(** The digest of the whole blocks so far and the bytes after them. *)
Definition absorb1 (s : list Z * list Z) (b : Z) : list Z * list Z :=
  let p := snd s ++ [b] in
  if (length p =? 64)%nat then (Rfc1321.compress (fst s) (Rfc1321.block_words p), []) else (fst s, p).

Definition absorb (s : list Z * list Z) (x : list Z) : list Z * list Z := fold_left absorb1 x s.

Lemma absorb_app s x y : absorb s (x ++ y) = absorb (absorb s x) y.
Proof. apply fold_left_app. Qed.

Lemma absorb_part V p x : (length p + length x < 64)%nat -> absorb (V, p) x = (V, p ++ x).
Proof.
  revert p. induction x as [|b x IH]; intros p Hl; [now rewrite app_nil_r |].
  cbn [absorb fold_left]. fold (absorb (absorb1 (V, p) b) x). unfold absorb1. cbn [fst snd].
  simpl length in Hl. destruct (Nat.eqb_spec (length (p ++ [b])) 64) as [E | _];
    [rewrite length_app in E; simpl length in E; lia |].
  rewrite IH by (rewrite length_app; simpl length; lia). now rewrite <- app_assoc.
Qed.

Lemma absorb_full V p x : (length p < 64)%nat -> (length p + length x = 64)%nat ->
  absorb (V, p) x = (Rfc1321.compress V (Rfc1321.block_words (p ++ x)), []).
Proof.
  intros Hp Hl. destruct x as [|b x] using rev_ind; [simpl length in Hl; lia |]. clear IHx.
  rewrite length_app in Hl. simpl length in Hl. rewrite absorb_app, absorb_part by lia.
  cbn [absorb fold_left]. unfold absorb1. cbn [fst snd]. rewrite <- app_assoc, !length_app. simpl length.
  replace (length p + (length x + 1) =? 64)%nat with true by (symmetry; apply Nat.eqb_eq; lia). reflexivity.
Qed.

Lemma absorb_blocks n V x : length x = (64 * n)%nat -> absorb (V, []) x = (Rfc1321.hash_blocks n V x, []).
Proof.
  revert V x. induction n as [|n IH]; intros V x Hl; [now destruct x |].
  rewrite <- (firstn_skipn 64 x) at 1. rewrite absorb_app, absorb_full by (rewrite ?length_firstn; simpl length; lia).
  rewrite IH by (rewrite length_skipn; lia). reflexivity.
Qed.

Lemma absorb_rest V x : let (V', p) := absorb (V, []) x in
  Z.of_nat (length p) = Z.of_nat (length x) mod 64.
Proof.
  pose proof (Nat.div_mod (length x) 64 ltac:(lia)) as Hd. pose proof (Nat.mod_upper_bound (length x) 64 ltac:(lia)).
  set (q := (length x / 64)%nat) in *.
  rewrite <- (firstn_skipn (64 * q) x). rewrite absorb_app, (absorb_blocks q) by (rewrite length_firstn; lia).
  rewrite absorb_part by (rewrite length_skipn; simpl length; lia). cbn [app].
  rewrite firstn_skipn, length_skipn. change 64 with (Z.of_nat 64). rewrite <- Nat2Z.inj_mod. lia.
Qed.

Lemma compress_digest4 V X : digest4 (Rfc1321.compress V X).
Proof.
  unfold Rfc1321.compress. destruct (for_range _ _ _ _) as [[[a b] c] d].
  split; [reflexivity |]. repeat (apply Forall_cons; [apply zext_word |]). apply Forall_nil.
Qed.

Lemma MD5Transform_words V X : digest4 (MD5Transform V X).
Proof.
  unfold MD5Transform. destruct (md5_quad F4 X _ _ _ _ _) as [[[a b] c] d].
  split; [reflexivity |]. repeat (apply Forall_cons; [apply u32_range |]). apply Forall_nil.
Qed.

#[local] Opaque Rfc1321.compress MD5Transform.

(** ** The context *)

(** The context that has hashed whole blocks to [fst s] and buffers [snd s]. *)
Definition holding (s : list Z * list Z) (c : MD5Context) : Prop :=
  buf c = fst s /\ digest4 (buf c) /\ length (inb c) = 64%nat /\
  (length (snd s) < 64)%nat /\ firstn (length (snd s)) (inb c) = snd s.

Lemma memcpy_at_length d o s n : 0 <= o -> 0 <= n <= Z.of_nat (length s) -> o + n <= Z.of_nat (length d) ->
  length (memcpy_at d o s n) = length d.
Proof. intros. unfold memcpy_at. rewrite !length_app, !length_firstn, length_skipn. lia. Qed.

(** Copying bytes behind the ones buffered. *)
Lemma memcpy_behind p d s n : firstn (length p) d = p -> 0 <= n <= Z.of_nat (length s) ->
  Z.of_nat (length p) + n <= Z.of_nat (length d) ->
  firstn (length p + Z.to_nat n) (memcpy_at d (Z.of_nat (length p)) s n) = p ++ firstn (Z.to_nat n) s.
Proof.
  intros Hp Hn Hl. unfold memcpy_at. rewrite Nat2Z.id, Hp, app_assoc, firstn_app.
  rewrite firstn_all2 by (rewrite length_app, length_firstn; lia).
  replace (_ - _)%nat with 0%nat by (rewrite length_app, length_firstn; lia). apply app_nil_r.
Qed.

Lemma hold_part V p c s : holding (V, p) c -> (length p + length s < 64)%nat ->
  holding (absorb (V, p) s) (set_in (memcpy_at (inb c) (Z.of_nat (length p)) s (Z.of_nat (length s))) c).
Proof.
  intros (Hb & Hd & Hl & Hp & Hf) Hs. rewrite absorb_part by exact Hs. cbn [fst snd] in *.
  split; [exact Hb |]. split; [exact Hd |]. split; [cbn; rewrite memcpy_at_length; lia |].
  cbn [snd inb set_in]. rewrite length_app. split; [lia |].
  pose proof (memcpy_behind p (inb c) s (Z.of_nat (length s)) Hf) as H. rewrite Nat2Z.id in H.
  rewrite H, firstn_all by lia. reflexivity.
Qed.

Lemma in_words_block d : in_words d = Rfc1321.block_words d.
Proof.
  unfold in_words, Rfc1321.block_words. apply map_ext. intros i. unfold get_long.
  now replace (Z.to_nat (Z.of_nat i * 4)) with (4 * i)%nat by lia.
Qed.

Lemma hold_full V p c s k : holding (V, p) c -> (length p + k = 64)%nat -> (k <= length s)%nat ->
  holding (absorb (V, p) (firstn k s))
    (transform (set_in (memcpy_at (inb c) (Z.of_nat (length p)) s (Z.of_nat k)) c)).
Proof.
  intros (Hb & Hd & Hl & Hp & Hf) Hk Hs. rewrite absorb_full by (rewrite ?length_firstn; cbn [snd] in Hp; lia).
  cbn [fst snd] in *. pose proof (memcpy_behind p (inb c) s (Z.of_nat k) Hf ltac:(lia) ltac:(lia)) as H.
  assert (Hm : length (memcpy_at (inb c) (Z.of_nat (length p)) s (Z.of_nat k)) = 64%nat)
    by (rewrite memcpy_at_length; lia).
  rewrite Nat2Z.id, firstn_all2 in H by lia. unfold transform, set_in. cbn [buf bits0 bits1 inb].
  rewrite MD5Transform_compress by exact Hd. rewrite H, Hb.
  unfold holding. cbn [buf inb fst snd]. split; [now rewrite in_words_block |].
  split; [apply compress_digest4 |]. rewrite <- H. split; [exact Hm |]. split; [simpl length; lia | reflexivity].
Qed.

Lemma md5_blocks_holding fuel V c b : holding (V, []) c -> (length b < fuel)%nat ->
  holding (absorb (V, []) b) (md5_blocks fuel c b (Z.of_nat (length b))) /\
  bits0 (md5_blocks fuel c b (Z.of_nat (length b))) = bits0 c /\
  bits1 (md5_blocks fuel c b (Z.of_nat (length b))) = bits1 c.
Proof.
  revert V c b. induction fuel as [|f IH]; intros V c b Hc Hf; [lia |]. cbn [md5_blocks].
  rewrite Z.geb_leb. destruct (Z.leb_spec 64 (Z.of_nat (length b))) as [Hge | Hlt].
  - pose proof (hold_full V [] c b 64 Hc ltac:(reflexivity) ltac:(lia)) as H1.
    change (Z.of_nat (length (@nil Z))) with 0 in H1. change (Z.of_nat 64) with 64 in H1.
    set (c1 := transform _) in *. rewrite absorb_full in H1 by (rewrite ?length_firstn; simpl length; lia).
    replace (Z.of_nat (length b) - 64) with (Z.of_nat (length (skipn 64 b))) by (rewrite length_skipn; lia).
    destruct (IH _ _ (skipn 64 b) H1) as (H2 & E0 & E1); [rewrite length_skipn; lia |].
    rewrite <- (firstn_skipn 64 b) at 1. rewrite absorb_app, absorb_full by (rewrite ?length_firstn; simpl length; lia).
    split; [exact H2 |]. split; [exact E0 | exact E1].
  - split; [| split; reflexivity]. exact (hold_part V [] c b Hc ltac:(simpl length; lia)).
Qed.

(** The state of a context that has been given the message [msg]. *)
Definition md5_state (msg : list Z) (c : MD5Context) : Prop :=
  holding (absorb (Rfc1321.V0, []) msg) c /\ is_u32 (bits0 c) /\ is_u32 (bits1 c) /\
  bits1 c * 2 ^ 32 + bits0 c = (8 * Z.of_nat (length msg)) mod 2 ^ 64.

(** The bit count with its carry. *)
Lemma md5_count lo hi n len : is_u32 lo -> is_u32 hi -> 0 <= len < 2 ^ 32 ->
  hi * 2 ^ 32 + lo = (8 * n) mod 2 ^ 64 ->
  let lo' := u32 (lo + u32 (len << 3)) in
  let hi' := u32 ((if lo' <? lo then u32 (hi + 1) else hi) + (len >> 29)) in
  is_u32 lo' /\ is_u32 hi' /\ hi' * 2 ^ 32 + lo' = (8 * (n + len)) mod 2 ^ 64.
Proof.
  intros Hlo Hhi Hlen Hn lo' hi'. split; [apply u32_range |]. split; [apply u32_range |].
  assert (E : exists c, lo + (8 * len) mod 2 ^ 32 = c * 2 ^ 32 + lo' /\
                        (c = 0 /\ lo <= lo' \/ c = 1 /\ lo' < lo)).
  { unfold lo', u32, zext. rewrite shiftl_mul by lia. rewrite (Z.mul_comm len). change (2 ^ 3) with 8.
    unfold is_u32 in *. pose proof (Z.mod_pos_bound (8 * len) (2 ^ 32) ltac:(lia)).
    destruct (Z_lt_ge_dec (lo + (8 * len) mod 2 ^ 32) (2 ^ 32)).
    - exists 0. rewrite (Z.mod_small (_ + _)) by lia. lia.
    - exists 1. replace ((lo + (8 * len) mod 2 ^ 32) mod 2 ^ 32) with (lo + (8 * len) mod 2 ^ 32 - 2 ^ 32)
        by (apply (Z.mod_unique _ _ 1); lia). lia. }
  destruct E as (c & E & Hc).
  assert (Eh : hi' = (hi + c + 8 * len / 2 ^ 32) mod 2 ^ 32).
  { unfold hi', u32, zext. rewrite shiftr_div by lia.
    replace (len / 2 ^ 29) with (8 * len / 2 ^ 32) by zlia.
    destruct Hc as [[-> ?] | [-> ?]].
    - rewrite (proj2 (Z.ltb_ge lo' lo)) by lia. f_equal. lia.
    - rewrite (proj2 (Z.ltb_lt lo' lo)) by lia. now rewrite Z.add_mod_idemp_l by lia. }
  assert (Hlo' : is_u32 lo') by apply u32_range. clearbody lo' hi'. subst hi'.
  pose proof (Z.div_mod (8 * len) (2 ^ 32) ltac:(lia)).
  replace (8 * (n + len)) with (8 * n + 8 * len) by lia. rewrite <- (Z.add_mod_idemp_l (8 * n) (8 * len) (2 ^ 64)), <- Hn by lia.
  change (2 ^ 64) with (2 ^ 32 * 2 ^ 32).
  replace (hi * 2 ^ 32 + lo + 8 * len) with (lo' + 2 ^ 32 * (hi + c + 8 * len / 2 ^ 32)) by lia.
  rewrite Z.rem_mul_r by lia. rewrite (Z.mul_comm (2 ^ 32) (_ + _)), Z.mod_add, Z.div_add by lia.
  unfold is_u32 in Hlo'. rewrite (Z.mod_small lo'), (Z.div_small lo') by lia. rewrite Z.add_0_l. lia.
Qed.

Lemma md5_position msg c : md5_state msg c ->
  (bits0 c >> 3) .& 0x3f = Z.of_nat (length (snd (absorb (Rfc1321.V0, []) msg))).
Proof.
  intros (_ & Hlo & Hhi & Hn). pose proof (absorb_rest Rfc1321.V0 msg) as Hr.
  destruct (absorb (Rfc1321.V0, []) msg) as [V p]. cbn [snd]. rewrite Hr.
  change 0x3f with (2 ^ 6 - 1). rewrite land_mask, shiftr_div by lia. change (2 ^ 3) with 8. change (2 ^ 6) with 64.
  pose proof (Z.div_mod (8 * Z.of_nat (length msg)) (2 ^ 64) ltac:(lia)) as Hd.
  replace (bits0 c) with ((Z.of_nat (length msg) + - (2 ^ 61 * (8 * Z.of_nat (length msg) / 2 ^ 64) + bits1 c * 2 ^ 29)) * 8)
    by lia.
  rewrite Z.div_mul by lia. set (k := 2 ^ 61 * _ + _).
  assert (Hk : exists j, k = j * 64).
  { exists (2 ^ 55 * (8 * Z.of_nat (length msg) / 2 ^ 64) + bits1 c * 2 ^ 23). unfold k. lia. }
  destruct Hk as [j ->]. replace (- (j * 64)) with (- j * 64) by lia. now rewrite Z.mod_add by lia.
Qed.

Lemma MD5Update_state msg c b : md5_state msg c -> Z.of_nat (length b) < 2 ^ 32 ->
  md5_state (msg ++ b) (MD5Update c b (Z.of_nat (length b))).
Proof.
  intros Hs Hb. pose proof (md5_position msg c Hs) as Hp. destruct Hs as (Hh & Hlo & Hhi & Hn).
  destruct (md5_count (bits0 c) (bits1 c) _ (Z.of_nat (length b)) Hlo Hhi ltac:(lia) Hn) as (Hlo' & Hhi' & Hn').
  unfold MD5Update. rewrite Hp. cbv zeta in Hlo', Hhi', Hn' |- *.
  set (lo := u32 (bits0 c + _)) in *. set (hi := u32 (_ + (Z.of_nat (length b) >> 29))) in *. clearbody lo hi.
  assert (Hc : holding (absorb (Rfc1321.V0, []) msg) (mkMD5 (buf c) lo hi (inb c))) by exact Hh.
  set (c' := mkMD5 (buf c) lo hi (inb c)) in *. change lo with (bits0 c') in Hlo', Hn'. change hi with (bits1 c') in Hhi', Hn'.
  clearbody c'. clear Hh Hp Hlo Hhi Hn c lo hi.
  assert (F : forall c2, holding (absorb (absorb (Rfc1321.V0, []) msg) b) c2 -> bits0 c2 = bits0 c' -> bits1 c2 = bits1 c' ->
    md5_state (msg ++ b) c2).
  { intros c2 H2 E0 E1. split; [now rewrite absorb_app |]. rewrite E0, E1. split; [exact Hlo' |]. split; [exact Hhi' |].
    rewrite Hn', length_app. do 2 f_equal. lia. }
  destruct (absorb (Rfc1321.V0, []) msg) as [V p]. cbn [snd] in *. pose proof Hc as (_ & _ & _ & Hp & _). cbn [snd] in Hp.
  destruct (Z.eqb_spec (Z.of_nat (length p)) 0) as [E | E]; cbn [negb].
  { destruct p; [| simpl length in E; lia]. destruct (md5_blocks_holding (S (length b)) V c' b Hc ltac:(lia)) as (H & E0 & E1).
    now apply F. }
  destruct (Z.ltb_spec (Z.of_nat (length b)) (64 - Z.of_nat (length p))) as [Hlt | Hge].
  { apply F; [apply hold_part; [exact Hc | lia] | reflexivity | reflexivity]. }
  set (k := (64 - length p)%nat). replace (64 - Z.of_nat (length p)) with (Z.of_nat k) by lia.
  pose proof (hold_full V p c' b k Hc ltac:(lia) ltac:(lia)) as H1. rewrite Nat2Z.id.
  rewrite absorb_full in H1 by (rewrite ?length_firstn; lia). set (V1 := Rfc1321.compress _ _) in *.
  set (c1 := transform _) in *. replace (Z.of_nat (length b) - Z.of_nat k) with (Z.of_nat (length (skipn k b)))
    by (rewrite length_skipn; lia).
  destruct (md5_blocks_holding (S (length b)) V1 c1 (skipn k b) H1) as (H & E0 & E1); [rewrite length_skipn; lia |].
  apply F; [| exact E0 | exact E1]. rewrite <- (firstn_skipn k b) at 1.
  rewrite absorb_app, absorb_full by (rewrite ?length_firstn; lia). exact H.
Qed.

(** ** The padding *)

(** The buffered bytes, the mark and zeros. *)
Lemma mark_zeros p d k : firstn (length p) d = p -> (length p + 1 + k <= length d)%nat ->
  let d' := memset0 (aset d (Z.of_nat (length p)) 0x80) (Z.of_nat (length p) + 1) (Z.of_nat k) in
  length d' = length d /\ firstn (length p + 1 + k) d' = p ++ [0x80] ++ repeat 0 k.
Proof.
  intros Hp Hl d'. split; [unfold d'; rewrite memset0_length; rewrite ?aset_length; lia |].
  unfold d', memset0, aset. rewrite !Nat2Z.id, upd_split, Hp by lia.
  replace (Z.to_nat (Z.of_nat (length p) + 1)) with (length p + 1)%nat by lia.
  rewrite (firstn_app (length p + 1) p), (firstn_all2 p) by lia.
  replace (length p + 1 - length p)%nat with 1%nat by lia. cbn [app firstn].
  change (128 :: ?l) with ([128] ++ l). rewrite !app_assoc, firstn_app.
  rewrite firstn_all2 by (rewrite !length_app, repeat_length; simpl length; lia).
  replace (_ - _)%nat with 0%nat by (rewrite !length_app, repeat_length; simpl length; lia).
  now rewrite !app_nil_r.
Qed.

Lemma put_count d lo hi : length d = 64%nat ->
  put_long 4 (put_long 4 d 14 lo) 15 hi = firstn 56 d ++ le_bytes 4 lo ++ le_bytes 4 hi.
Proof.
  intros Hd. unfold put_long. change (Z.to_nat (14 * 4)) with 56%nat. change (Z.to_nat (14 * 4 + 4)) with 60%nat.
  change (Z.to_nat (15 * 4)) with 60%nat. change (Z.to_nat (15 * 4 + 4)) with 64%nat. change (Z.to_nat 4) with 4%nat.
  assert (H56 : length (firstn 56 d) = 56%nat) by (rewrite length_firstn; lia).
  assert (H60 : length (firstn 56 d ++ le_bytes 4 lo) = 60%nat) by (rewrite length_app, le_bytes_length; lia).
  rewrite !(app_assoc (firstn 56 d) (le_bytes 4 lo)).
  rewrite firstn_app, (firstn_all2 (firstn 56 d ++ le_bytes 4 lo)), H60, Nat.sub_diag by lia.
  change (firstn 0 (skipn 60 d)) with (@nil Z). rewrite app_nil_r, skipn_all2; [now rewrite app_nil_r, <- app_assoc |].
  rewrite length_app, H60, length_skipn. lia.
Qed.

Lemma le_bytes_mod n v : le_bytes n (v mod 256 ^ Z.of_nat n) = le_bytes n v.
Proof.
  revert v. induction n as [|n IH]; intros v; [reflexivity |]. cbn [le_bytes].
  rewrite Nat2Z.inj_succ, Z.pow_succ_r by lia. assert (0 < 256 ^ Z.of_nat n) by (apply Z.pow_pos_nonneg; lia).
  rewrite Z.rem_mul_r by lia. rewrite (Z.mul_comm 256), Z.mod_add, Z.div_add by lia.
  rewrite Z.mod_mod, (Z.div_small (v mod 256)) by (try apply Z.mod_pos_bound; lia).
  f_equal. rewrite Z.add_0_l. apply IH.
Qed.

Lemma count_bytes lo hi n : is_u32 lo -> is_u32 hi -> hi * 2 ^ 32 + lo = (8 * n) mod 2 ^ 64 ->
  le_bytes 4 lo ++ le_bytes 4 hi = le_bytes 8 (8 * n).
Proof.
  intros Hlo Hhi E. rewrite <- (le_bytes_mod 8). change (256 ^ Z.of_nat 8) with (2 ^ 64). rewrite <- E.
  replace (hi * 2 ^ 32 + lo) with (lo + 256 ^ Z.of_nat 4 * hi) by (change (256 ^ Z.of_nat 4) with (2 ^ 32); lia).
  symmetry. now apply (le_bytes_add 4 4).
Qed.

(** The message with its padding, from what is buffered. *)
Lemma md5_absorb msg : exists z V,
  (Z.of_nat z = (55 - Z.of_nat (length msg)) mod 64) /\
  absorb (absorb (Rfc1321.V0, []) msg) ([128] ++ repeat 0 z ++ le_bytes 8 (8 * Z.of_nat (length msg))) = (V, []) /\
  Rfc1321.md5 msg = flat_map (le_bytes 4) V.
Proof.
  set (z := Z.to_nat ((55 - Z.of_nat (length msg)) mod 64)). set (n := (length (Rfc1321.pad msg) / 64)%nat).
  exists z, (Rfc1321.hash_blocks n Rfc1321.V0 (Rfc1321.pad msg)).
  pose proof (Z.mod_pos_bound (55 - Z.of_nat (length msg)) 64 ltac:(lia)) as Hz.
  split; [unfold z; lia |]. split; [| reflexivity]. rewrite <- absorb_app. apply absorb_blocks.
  assert (E : (length (Rfc1321.pad msg) mod 64 = 0)%nat).
  { unfold Rfc1321.pad. rewrite !length_app, repeat_length, le_bytes_length. simpl length. fold z.
    pose proof (Z.div_mod (55 - Z.of_nat (length msg)) 64 ltac:(lia)).
    apply Nat2Z.inj. rewrite Nat2Z.inj_mod.
    replace (Z.of_nat (length msg + (1 + (z + 8)))) with ((1 - (55 - Z.of_nat (length msg)) / 64) * 64) by lia.
    apply Z.mod_mul. lia. }
  pose proof (Nat.div_mod (length (Rfc1321.pad msg)) 64 ltac:(lia)).
  change (length (Rfc1321.pad msg) = 64 * n)%nat. lia.
Qed.

Lemma transform_block c d : digest4 (buf c) ->
  buf (transform (set_in d c)) = Rfc1321.compress (buf c) (Rfc1321.block_words d).
Proof. intros Hd. cbn [transform set_in buf inb]. now rewrite MD5Transform_compress, in_words_block. Qed.

(** The last block: 56 bytes of the padded message and the count. *)
Lemma last_block c p k n : digest4 (buf c) -> length (inb c) = 64%nat ->
  firstn 56 (inb c) = p ++ repeat 0 k -> is_u32 (bits0 c) -> is_u32 (bits1 c) ->
  bits1 c * 2 ^ 32 + bits0 c = (8 * n) mod 2 ^ 64 ->
  buf (transform (set_in (put_long 4 (put_long 4 (inb c) 14 (bits0 c)) 15 (bits1 c)) c))
  = Rfc1321.compress (buf c) (Rfc1321.block_words (p ++ repeat 0 k ++ le_bytes 8 (8 * n))).
Proof.
  intros Hd Hl Hp Hlo Hhi Hn. rewrite transform_block, put_count by assumption.
  now rewrite (count_bytes _ _ n Hlo Hhi Hn), Hp, <- app_assoc.
Qed.

Section Padding.
Context (V p V' : list Z) (c : MD5Context) (n : Z) (z : nat).
Hypothesis Hc : holding (V, p) c.
Hypothesis Hlo : is_u32 (bits0 c).
Hypothesis Hhi : is_u32 (bits1 c).
Hypothesis Hn : bits1 c * 2 ^ 32 + bits0 c = (8 * n) mod 2 ^ 64.
Hypothesis Habs : absorb (V, p) ([128] ++ repeat 0 z ++ le_bytes 8 (8 * n)) = (V', []).

(** [c2] holds the last block but for the count. *)
Lemma md5_finish c2 q k W : digest4 (buf c2) -> length (inb c2) = 64%nat ->
  firstn 56 (inb c2) = q ++ repeat 0 k -> bits0 c2 = bits0 c -> bits1 c2 = bits1 c ->
  Rfc1321.compress (buf c2) (Rfc1321.block_words (q ++ repeat 0 k ++ le_bytes 8 (8 * n))) = W ->
  digest_bytes (buf (transform (set_in (put_long 4 (put_long 4 (inb c2) 14 (bits0 c2)) 15 (bits1 c2)) c2)))
  = flat_map (le_bytes 4) W.
Proof using Hlo Hhi Hn.
  intros Hd Hl Hq E0 E1 <-. rewrite (last_block c2 q k n) by (rewrite ?E0, ?E1; assumption).
  destruct (compress_digest4 (buf c2) (Rfc1321.block_words (q ++ repeat 0 k ++ le_bytes 8 (8 * n)))) as [H4 _].
  destruct (Rfc1321.compress _ _) as [|a [|b [|e [|f [|]]]]]; try discriminate. reflexivity.
Qed.

(** Room for the count in the block of the mark. *)
Lemma md5_final_one d1 : z = (55 - length p)%nat -> (length p <= 55)%nat ->
  length d1 = 64%nat -> firstn 56 d1 = p ++ [128] ++ repeat 0 z ->
  digest_bytes (buf (transform (set_in (put_long 4 (put_long 4 d1 14 (bits0 c)) 15 (bits1 c)) c)))
  = flat_map (le_bytes 4) V'.
Proof using Hc Hlo Hhi Hn Habs.
  intros Ez Hp Hl1 H1. destruct Hc as (Hb & Hd & _). cbn [fst snd] in *.
  apply (md5_finish (set_in d1 c) (p ++ [128]) z); try assumption; try reflexivity; [now rewrite <- app_assoc |].
  rewrite absorb_full in Habs by (rewrite ?length_app, ?repeat_length, ?le_bytes_length; simpl length; lia).
  apply (f_equal fst) in Habs. cbn [fst] in Habs. rewrite <- app_assoc. cbn [set_in buf]. now rewrite Hb.
Qed.

(** The count goes into a block of its own. *)
Lemma md5_final_two d1 : z = ((63 - length p) + 56)%nat -> (length p < 64)%nat ->
  length d1 = 64%nat -> firstn 64 d1 = p ++ [128] ++ repeat 0 (63 - length p) ->
  let c2 := set_in (memset0 d1 0 56) (transform (set_in d1 c)) in
  digest_bytes (buf (transform (set_in (put_long 4 (put_long 4 (inb c2) 14 (bits0 c2)) 15 (bits1 c2)) c2)))
  = flat_map (le_bytes 4) V'.
Proof using Hc Hlo Hhi Hn Habs.
  intros Ez Hp Hl1 H1 c2. destruct Hc as (Hb & Hd & _). cbn [fst snd] in *. rewrite firstn_all2 in H1 by lia.
  assert (B1 : buf c2 = Rfc1321.compress V (Rfc1321.block_words (p ++ [128] ++ repeat 0 (63 - length p)))).
  { change (buf c2) with (buf (transform (set_in d1 c))). now rewrite transform_block, H1, Hb by exact Hd. }
  apply (md5_finish c2 [] 56); try reflexivity.
  - rewrite B1. apply compress_digest4.
  - unfold c2. cbn [set_in inb]. rewrite memset0_length; lia.
  - rewrite Ez, repeat_app, <- app_assoc, app_assoc, absorb_app in Habs.
    rewrite absorb_full in Habs by (try lia; rewrite length_app, repeat_length; simpl length; lia).
    rewrite absorb_full in Habs by (rewrite ?length_app, ?repeat_length, ?le_bytes_length; simpl length; lia).
    apply (f_equal fst) in Habs. cbn [fst] in Habs. rewrite B1. exact Habs.
Qed.
End Padding.

Lemma MD5Final_digest msg c : md5_state msg c -> fst (MD5Final c) = Rfc1321.md5 msg.
Proof.
  intros Hs. pose proof (md5_position msg c Hs) as Hpos. destruct Hs as (Hc & Hlo & Hhi & Hn).
  pose proof (absorb_rest Rfc1321.V0 msg) as Hr. destruct (md5_absorb msg) as (z & V' & Hz & Habs & ->).
  destruct (absorb (Rfc1321.V0, []) msg) as [V p]. pose proof Hc as (_ & _ & Hl & Hp & Hf). cbn [fst snd] in *.
  unfold MD5Final. rewrite Hpos. cbv zeta. cbn [fst].
  pose proof (Z.div_mod (Z.of_nat (length msg)) 64 ltac:(lia)) as Hdm. rewrite <- Hr in Hdm.
  destruct (Z.ltb_spec (64 - 1 - Z.of_nat (length p)) 8) as [Hlong | Hshort].
  - assert (Ez : z = ((63 - length p) + 56)%nat).
    { enough ((55 - Z.of_nat (length msg)) mod 64 = 119 - Z.of_nat (length p)) by lia.
      symmetry. apply (Z.mod_unique _ _ (- (Z.of_nat (length msg) / 64) - 1)); lia. }
    destruct (mark_zeros p (inb c) (63 - length p) Hf ltac:(lia)) as [Hl1 H1].
    replace (Z.of_nat (63 - length p)) with (64 - 1 - Z.of_nat (length p)) in Hl1, H1 by lia.
    replace (length p + 1 + (63 - length p))%nat with 64%nat in H1 by lia.
    exact (md5_final_two V p V' c (Z.of_nat (length msg)) z Hc Hlo Hhi Hn Habs _ Ez Hp (eq_trans Hl1 Hl) H1).
  - assert (Ez : z = (55 - length p)%nat).
    { enough ((55 - Z.of_nat (length msg)) mod 64 = 55 - Z.of_nat (length p)) by lia.
      symmetry. apply (Z.mod_unique _ _ (- (Z.of_nat (length msg) / 64))); lia. }
    destruct (mark_zeros p (inb c) z Hf ltac:(lia)) as [Hl1 H1].
    replace (Z.of_nat z) with (64 - 1 - Z.of_nat (length p) - 8) in Hl1, H1 by lia.
    replace (length p + 1 + z)%nat with 56%nat in H1 by lia.
    exact (md5_final_one V p V' c (Z.of_nat (length msg)) z Hc Hlo Hhi Hn Habs _ Ez ltac:(lia) (eq_trans Hl1 Hl) H1).
Qed.

(** ** Properties *)

(** A message in pieces. *)
Definition md5_pieces (c : MD5Context) (pieces : list (list Z)) : MD5Context :=
  fold_left (fun c b => MD5Update c b (Z.of_nat (length b))) pieces c.

Lemma md5_pieces_state pieces msg c : md5_state msg c ->
  Forall (fun b => Z.of_nat (length b) < 2 ^ 32) pieces -> md5_state (msg ++ concat pieces) (md5_pieces c pieces).
Proof.
  revert msg c. induction pieces as [|b pieces IH]; intros msg c Hc Hp; [now rewrite app_nil_r |].
  inversion Hp; subst. cbn [concat md5_pieces fold_left]. rewrite app_assoc. apply IH; [| assumption].
  now apply MD5Update_state.
Qed.

Lemma MD5Init_state c : length (inb c) = 64%nat -> md5_state [] (MD5Init c).
Proof.
  intros Hl. split; [| cbn [MD5Init bits0 bits1]; repeat split; unfold is_u32; lia].
  split; [reflexivity |]. split; [split; [reflexivity |] |].
  - repeat (apply Forall_cons; [unfold is_u32; lia |]). apply Forall_nil.
  - split; [exact Hl |]. split; [simpl length; lia | reflexivity].
Qed.

(** C33. The digest of a message given in any number of pieces of any lengths is
    its MD5 digest by RFC 1321, whatever the context held before: the optimised
    round functions, the filling of a partial block, the count of bits with
    its carries (modulo [2^64]) and the one or two blocks of padding. *)
Theorem md5_digest c pieces : length (inb c) = 64%nat ->
  Forall (fun b => Z.of_nat (length b) < 2 ^ 32) pieces ->
  fst (MD5Final (md5_pieces (MD5Init c) pieces)) = Rfc1321.md5 (concat pieces).
Proof.
  intros Hl Hp. apply MD5Final_digest. apply (md5_pieces_state pieces []); [now apply MD5Init_state | exact Hp].
Qed.

(** Seventy bytes in three pieces, one of them empty. *)
Lemma md5_digest_witness :
  fst (MD5Final (md5_pieces (MD5Init (mkMD5 [] 0 0 (repeat 7 64))) [repeat 97 40; []; repeat 98 30]))
  = Rfc1321.md5 (repeat 97 40 ++ repeat 98 30).
Proof.
  apply (md5_digest (mkMD5 [] 0 0 (repeat 7 64)) [repeat 97 40; []; repeat 98 30]); [reflexivity |].
  repeat (apply Forall_cons; [reflexivity |]). apply Forall_nil.
Defined.
