(* ===== verification/PgpIdea.v ===== *)
(** * PGP: the IDEA block cipher

    Models [security/pgp/src/idea.c] up to the block cipher, in the configuration
    the Makefile selects for Linux: [IDEA32] (variables of 32 bits that are
    reduced to 16 only where it matters), multiplication inline, little-endian.

    [Lai] is the cipher as its authors describe it, on words of 16 bits:
    addition modulo [2^16], exclusive or, and multiplication modulo [2^16 + 1]
    with 0 in the place of [2^16].  The code computes that cipher, and with the
    key of [ideaInvertKey] it undoes it. *)

From Stdlib Require Import ZArith Znumtheory Lia List Bool.
From S2P Require Import Prelude.
Import ListNotations.

Definition IDEAROUNDS : Z := 8.
Definition IDEAKEYLEN : Z := 6 * IDEAROUNDS + 4.

Definition word16 (x : Z) : Z := zext 16 x.
Definition low16 (x : Z) : Z := x .& 0xFFFF.

(** ** Multiplication and its inverse *)

(** The new value of [x]; [t16] and [t32] are the macro's temporaries. *)
Definition MUL (x y : Z) : Z :=
  let t16 := y in
  if negb (t16 =? 0) then
    let x := low16 x in
    if negb (x =? 0) then
      let t32 := u32 (x * t16) in
      let x := low16 t32 in
      let t16 := t32 >> 16 in
      u32 (u32 (x - t16) + b2z (x <? t16))
    else u32 (1 - t16)
  else u32 (1 - x).

(** The [do] loop of [mulInv]; a division by zero has no result. *)
Fixpoint mulInv_loop (fuel : nat) (x y t0 t1 : Z) : option Z :=
  match fuel with
  | O => None
  | S f =>
      if y =? 0 then None
      else
        let q := x / y in
        let x := x mod y in
        let t0 := u32 (t0 + q * t1) in
        if x =? 1 then Some t0
        else if x =? 0 then None
        else
          let q := y / x in
          let y := y mod x in
          let t1 := u32 (t1 + q * t0) in
          if negb (y =? 1) then mulInv_loop f x y t0 t1
          else Some (low16 (u32 (1 - t1)))
  end.

Definition mulInv (x : Z) : option Z :=
  if x <=? 1 then Some x
  else
    let t1 := 0x10001 / x in
    let y := 0x10001 mod x in
    if y =? 1 then Some (low16 (u32 (1 - t1)))
    else mulInv_loop 16 x y 1 t1.

(** ** Keys *)

(** The first loop of [ideaExpandKey]. *)
Definition expand_words (userkey : list Z) : list Z :=
  for_range 0 8 (fun j EK => aset EK j (word16 ((userkey.[2 * j] << 8) + userkey.[2 * j + 1]))) (repeat 0 52).

(** The second; [e] is how far the pointer [EK] has moved. *)
Definition expand_step (_ : Z) (s : Z * Z * list Z) : Z * Z * list Z :=
  let '(i, e, EK) := s in
  let i := i + 1 in
  let EK := aset EK (e + (i + 7)) (word16 ((EK.[e + (i .& 7)] << 9) .| (EK.[e + ((i + 1) .& 7)] >> 7))) in
  let e := e + (i .& 8) in
  (i .& 7, e, EK).

Definition ideaExpandKey (userkey : list Z) : list Z :=
  let '(_, _, EK) := for_range 8 IDEAKEYLEN expand_step (0, 0, expand_words userkey) in EK.

(** Four words of the inverted key, put in front of [temp], the words from [p]
    on: [*--p = v].  The two in the middle change places in the inner rounds. *)
Definition invert_four (EK : list Z) (e : Z) (swap : bool) (temp : list Z) : option (list Z) :=
  let* t1 := mulInv EK.[e] in
  let t2 := word16 (- EK.[e + 1]) in
  let t3 := word16 (- EK.[e + 2]) in
  let* t4 := mulInv EK.[e + 3] in
  Some (word16 t1 :: (if swap : bool then [t3; t2] else [t2; t3]) ++ word16 t4 :: temp).

Definition invert_two (EK : list Z) (e : Z) (temp : list Z) : list Z := EK.[e] :: EK.[e + 1] :: temp.

Definition ideaInvertKey (EK : list Z) : option (list Z) :=
  let* temp := invert_four EK 0 false [] in
  let* temp := for_opt 0 (IDEAROUNDS - 1) (fun i temp =>
    invert_four EK (6 + 6 * i) true (invert_two EK (4 + 6 * i) temp)) temp in
  invert_four EK 48 false (invert_two EK 46 temp).

(** ** The cipher *)

Definition idea_regs : Type := (Z * Z * Z * Z)%type.

(** One round, with the key words from index [k] on. *)
Definition idea_round (key : list Z) (k : Z) (r : idea_regs) : idea_regs :=
  let '(x1, x2, x3, x4) := r in
  let x1 := MUL x1 key.[k] in
  let x2 := u32 (x2 + key.[k + 1]) in
  let x3 := u32 (x3 + key.[k + 2]) in
  let x4 := MUL x4 key.[k + 3] in
  let s3 := x3 in
  let x3 := x3 .^ x1 in
  let x3 := MUL x3 key.[k + 4] in
  let s2 := x2 in
  let x2 := x2 .^ x4 in
  let x2 := u32 (x2 + x3) in
  let x2 := MUL x2 key.[k + 5] in
  let x3 := u32 (x3 + x2) in
  let x1 := x1 .^ x2 in
  let x4 := x4 .^ x3 in
  let x2 := x2 .^ s3 in
  let x3 := x3 .^ s2 in
  (x1, x2, x3, x4).

(** A [word16] of memory, and [x1 = (x1 >> 8) | (x1 << 8)] in 32 bits. *)
Definition load16 (b : list Z) (i : Z) : Z := b.[2 * i] + 256 * b.[2 * i + 1].
Definition swap16 (x : Z) : Z := (x >> 8) .| u32 (x << 8).

(** [*out = (x >> 8) | (x << 8)] *)
Definition store16 (x : Z) : list Z := let v := word16 (swap16 (low16 x)) in [v mod 256; v / 256].

Definition ideaCipher (inbuf key : list Z) : list Z :=
  let x i := swap16 (load16 inbuf i) in
  let '(x1, x2, x3, x4) := for_range 0 IDEAROUNDS (fun r => idea_round key (6 * r)) (x 0, x 1, x 2, x 3) in
  let x1 := MUL x1 key.[48] in
  let x3 := u32 (x3 + key.[49]) in
  let x2 := u32 (x2 + key.[50]) in
  let x4 := MUL x4 key.[51] in
  store16 x1 ++ store16 x3 ++ store16 x2 ++ store16 x4.

(** ** Specification *)

Module Lai.

(** A word as a number from 1 to [2^16]. *)
Definition unit (a : Z) : Z := if a =? 0 then 2 ^ 16 else a.

Definition mul (a b : Z) : Z := ((unit a * unit b) mod (2 ^ 16 + 1)) mod 2 ^ 16.
Definition add (a b : Z) : Z := (a + b) mod 2 ^ 16.

(** Four key words combined with the four words of the block. *)
Definition mix (k1 k2 k3 k4 : Z) (x : idea_regs) : idea_regs :=
  let '(x1, x2, x3, x4) := x in (mul x1 k1, add x2 k2, add x3 k3, mul x4 k4).

(** The multiplication-addition structure, an involution. *)
Definition ma (k5 k6 : Z) (x : idea_regs) : idea_regs :=
  let '(x1, x2, x3, x4) := x in
  let s := mul (x1 .^ x3) k5 in
  let t := mul (add (x2 .^ x4) s) k6 in
  let u := add s t in
  (x1 .^ t, x2 .^ u, x3 .^ t, x4 .^ u).

Definition swap (x : idea_regs) : idea_regs := let '(x1, x2, x3, x4) := x in (x1, x3, x2, x4).

Definition round (K : list Z) (k : Z) (x : idea_regs) : idea_regs :=
  swap (ma K.[k + 4] K.[k + 5] (mix K.[k] K.[k + 1] K.[k + 2] K.[k + 3] x)).

(** Eight rounds, the last without the swap, and the output mixing. *)
Definition cipher (K : list Z) (x : idea_regs) : idea_regs :=
  mix K.[48] K.[49] K.[50] K.[51] (swap (for_range 0 8 (fun r => round K (6 * r)) x)).

(** A block is eight bytes; a word is two of them, the high one first. *)
Definition words (b : list Z) : idea_regs :=
  let w i := 256 * b.[2 * i] + b.[2 * i + 1] in (w 0, w 1, w 2, w 3).

Definition bytes (x : idea_regs) : list Z :=
  let '(x1, x2, x3, x4) := x in
  [x1 / 256; x1 mod 256; x2 / 256; x2 mod 256; x3 / 256; x3 mod 256; x4 / 256; x4 mod 256].

(** The key schedule: the key of 128 bits, rotated left by 25 bits for every
    eight words. *)
Definition key_bits (userkey : list Z) : Z := fold_left (fun v b => 256 * v + b) userkey 0.
Definition rotl128 (n v : Z) : Z := (v * 2 ^ n) mod 2 ^ 128 + v / 2 ^ (128 - n).
Definition schedule (userkey : list Z) (j : Z) : Z :=
  (rotl128 ((25 * (j / 8)) mod 128) (key_bits userkey) / 2 ^ (16 * (7 - j mod 8))) mod 2 ^ 16.

End Lai.

(** The published test vector: key 1 to 8, block 0 to 3. *)
Example idea_vector :
  ideaCipher [0; 0; 0; 1; 0; 2; 0; 3] (ideaExpandKey [0; 1; 0; 2; 0; 3; 0; 4; 0; 5; 0; 6; 0; 7; 0; 8])
  = [0x11; 0xFB; 0xED; 0x2B; 0x01; 0x98; 0x6D; 0xE5].
Proof. vm_compute. reflexivity. Qed.

(** ** Arithmetic modulo [2^16 + 1] *)

Lemma low16_mod x : low16 x = x mod 2 ^ 16.
Proof. unfold low16. change 0xFFFF with (2 ^ 16 - 1). now apply land_mask. Qed.

Lemma low16_range x : is_u16 (low16 x).
Proof. rewrite low16_mod. apply Z.mod_pos_bound. lia. Qed.

Lemma low16_id x : is_u16 x -> low16 x = x.
Proof. intros H. rewrite low16_mod. now apply Z.mod_small. Qed.

Lemma low16_u32 x : low16 (u32 x) = low16 x.
Proof. rewrite !low16_mod. unfold u32, zext. now apply mod_pow2_mod. Qed.

(** A composite number has a divisor up to its square root. *)
Lemma prime_65537 : prime 65537.
Proof.
  assert (D : forall d, 2 <= d <= 256 -> 65537 mod d <> 0).
  { intros d Hd. pose proof (all_range_spec 2 255 (fun d => negb (65537 mod d =? 0)) eq_refl d ltac:(lia)) as H.
    cbv beta in H. lia. }
  apply prime_intro; [lia |]. intros n Hn. apply Zgcd_1_rel_prime.
  pose proof (Z.gcd_nonneg n 65537). destruct (Z.gcd_divide_l n 65537) as [a Ha].
  destruct (Z.gcd_divide_r n 65537) as [b Hb]. set (g := Z.gcd n 65537) in *. clearbody g.
  destruct (Z.eq_dec g 1) as [|N]; [assumption | exfalso].
  assert (g <> 0) by (intros ->; lia). assert (g <= n) by (apply Z.divide_pos_le; [lia | now exists a]).
  assert (2 <= g) by lia. assert (2 <= b) by nia.
  destruct (Z_le_gt_dec g 256) as [L | G].
  - apply (D g); [lia |]. rewrite Hb. apply Z.mod_mul. lia.
  - apply (D b); [nia |]. rewrite Hb, Z.mul_comm. apply Z.mod_mul. lia.
Qed.

Lemma unit_range a : is_u16 a -> 1 <= Lai.unit a <= 2 ^ 16.
Proof. unfold is_u16, Lai.unit. intros. zcases; lia. Qed.

Lemma unit_mod a : is_u16 a -> Lai.unit a mod 2 ^ 16 = a.
Proof. unfold is_u16, Lai.unit. intros. zcases; [subst; reflexivity | apply Z.mod_small; lia]. Qed.

Lemma unit_inj a b : is_u16 a -> is_u16 b -> Lai.unit a = Lai.unit b -> a = b.
Proof. intros Ha Hb E. rewrite <- (unit_mod a Ha), <- (unit_mod b Hb). now rewrite E. Qed.

(** The product of two units is a unit. *)
Lemma units_product u v : 1 <= u <= 2 ^ 16 -> 1 <= v <= 2 ^ 16 -> 1 <= (u * v) mod (2 ^ 16 + 1) <= 2 ^ 16.
Proof.
  intros Hu Hv. pose proof (Z.mod_pos_bound (u * v) (2 ^ 16 + 1) ltac:(lia)).
  destruct (Z.eq_dec ((u * v) mod (2 ^ 16 + 1)) 0) as [E|]; [exfalso | lia].
  apply Z.mod_divide in E; [| lia]. apply (prime_mult _ prime_65537) in E.
  destruct E as [E | E]; apply Z.divide_pos_le in E; lia.
Qed.

Lemma mul_range a b : is_u16 (Lai.mul a b).
Proof. apply Z.mod_pos_bound. lia. Qed.

Lemma unit_mul a b : is_u16 a -> is_u16 b -> Lai.unit (Lai.mul a b) = (Lai.unit a * Lai.unit b) mod (2 ^ 16 + 1).
Proof.
  intros Ha Hb. unfold Lai.mul. pose proof (units_product _ _ (unit_range a Ha) (unit_range b Hb)) as H.
  set (m := (_ * _) mod _) in *. clearbody m. destruct (Z.eq_dec m (2 ^ 16)) as [-> |]; [reflexivity |].
  rewrite (Z.mod_small m) by lia. unfold Lai.unit. zcases; lia.
Qed.

Lemma mul_assoc a b c : is_u16 a -> is_u16 b -> is_u16 c ->
  Lai.mul (Lai.mul a b) c = Lai.mul a (Lai.mul b c).
Proof.
  intros Ha Hb Hc. apply unit_inj; try apply mul_range.
  rewrite !unit_mul by (assumption || apply mul_range). rewrite Z.mul_mod_idemp_l, Z.mul_mod_idemp_r by lia.
  f_equal. lia.
Qed.

Lemma mul_1_r a : is_u16 a -> Lai.mul a 1 = a.
Proof.
  intros Ha. unfold Lai.mul. change (Lai.unit 1) with 1. pose proof (unit_range a Ha).
  rewrite Z.mul_1_r, (Z.mod_small (Lai.unit a)) by lia. now apply unit_mod.
Qed.

Lemma mul_comm a b : Lai.mul a b = Lai.mul b a.
Proof. unfold Lai.mul. now rewrite Z.mul_comm. Qed.

(** The code's multiplication, which gets by without a division. *)
Lemma MUL_mul x y : is_u16 y -> low16 (MUL x y) = Lai.mul (low16 x) y.
Proof.
  intros Hy. pose proof (low16_range x) as Hx. unfold MUL.
  assert (Z0 : forall a, is_u16 a -> low16 (1 - a) = Lai.mul 0 a).
  { intros a Ha. pose proof (unit_range a Ha). unfold Lai.mul. change (Lai.unit 0) with (2 ^ 16). rewrite low16_mod.
    replace (2 ^ 16 * Lai.unit a) with ((2 ^ 16 + 1 - Lai.unit a) + (Lai.unit a - 1) * (2 ^ 16 + 1)) by lia.
    rewrite Z.mod_add, (Z.mod_small (2 ^ 16 + 1 - Lai.unit a)) by lia. rewrite <- (unit_mod a Ha) at 1.
    rewrite Zminus_mod_idemp_r. replace (2 ^ 16 + 1 - Lai.unit a) with (1 - Lai.unit a + 1 * 2 ^ 16) by lia.
    now rewrite Z.mod_add by lia. }
  destruct (Z.eqb_spec y 0) as [-> | Ny]; cbn [negb].
  { rewrite low16_u32, mul_comm, <- Z0 by exact Hx. rewrite !low16_mod, Zminus_mod_idemp_r. reflexivity. }
  destruct (Z.eqb_spec (low16 x) 0) as [-> | Nx]; cbn [negb]; [now rewrite low16_u32, Z0 |].
  set (a := low16 x) in *. clearbody a. unfold is_u16 in *.
  rewrite (u32_id (a * y)) by (unfold is_u32; nia). rewrite low16_u32, low16_mod, shiftr_div by lia.
  unfold u32 at 1, zext at 1. rewrite low16_mod, <- Z.add_mod_idemp_l, mod_pow2_mod, Z.add_mod_idemp_l by lia.
  set (lo := (a * y) mod 2 ^ 16). set (hi := a * y / 2 ^ 16). unfold Lai.mul.
  replace (Lai.unit a) with a by (unfold Lai.unit; zcases; lia).
  replace (Lai.unit y) with y by (unfold Lai.unit; zcases; lia).
  pose proof (Z.div_mod (a * y) (2 ^ 16) ltac:(lia)) as HD. fold lo hi in HD.
  pose proof (Z.mod_pos_bound (a * y) (2 ^ 16) ltac:(lia)) as Hlo. fold lo in Hlo.
  assert (0 <= hi < 2 ^ 16) by nia. clearbody lo hi.
  destruct (Z.ltb_spec lo hi); cbn [b2z].
  - replace ((a * y) mod (2 ^ 16 + 1)) with (lo - hi + 1 + 1 * 2 ^ 16) by (apply (Z.mod_unique _ _ (hi - 1)); lia).
    now rewrite Z.mod_add by lia.
  - f_equal. apply (Z.mod_unique _ _ hi); lia.
Qed.

(** ** The inverse *)

(** [u] is inverse to [x0], and [r] is the word that stands for [u]. *)
Lemma inverse_word x0 u k r : 2 <= x0 < 2 ^ 16 -> 1 <= u <= 2 ^ 16 -> u * x0 = 1 + k * (2 ^ 16 + 1) ->
  r = u mod 2 ^ 16 -> is_u16 r /\ Lai.mul x0 r = 1.
Proof.
  intros Hx Hu E ->. split; [apply Z.mod_pos_bound; lia |]. unfold Lai.mul.
  replace (Lai.unit x0) with x0 by (unfold Lai.unit; zcases; lia).
  replace (Lai.unit (u mod 2 ^ 16)) with u.
  - rewrite Z.mul_comm, E, Z.mod_add by lia. reflexivity.
  - unfold Lai.unit. destruct (Z.eq_dec u (2 ^ 16)) as [-> |]; [reflexivity |]. rewrite Z.mod_small by lia. zcases; lia.
Qed.

Lemma coprime_mod x y : Z.gcd x y = 1 -> 2 <= y -> x mod y <> 0 /\ Z.gcd y (x mod y) = 1.
Proof.
  intros Hg Hy. split.
  - intros E. apply Z.mod_divide in E; [| lia]. rewrite Z.gcd_comm in Hg.
    pose proof (Z.gcd_greatest y x y (Z.divide_refl y) E) as D. rewrite Hg in D. apply Z.divide_pos_le in D; lia.
  - rewrite Z.gcd_comm, Z.gcd_mod by lia. now rewrite Z.gcd_comm.
Qed.

(** Euclid's algorithm with [t0] and [t1], both positive: [x] is [t0 * x0] and [y]
    is [- t1 * x0], modulo [2^16 + 1]. *)
Lemma mulInv_loop_ok fuel x0 : 2 <= x0 < 2 ^ 16 -> forall x y t0 t1 k k',
  2 <= y < x -> x < 2 ^ 16 -> Z.gcd x y = 1 -> y < 2 ^ Z.of_nat fuel -> 1 <= t0 -> 1 <= t1 ->
  t0 * y + t1 * x = 2 ^ 16 + 1 -> t0 * x0 = x + k * (2 ^ 16 + 1) -> t1 * x0 = k' * (2 ^ 16 + 1) - y ->
  exists r, mulInv_loop fuel x y t0 t1 = Some r /\ is_u16 r /\ Lai.mul x0 r = 1.
Proof.
  intros Hx0. induction fuel as [|f IH]; intros x y t0 t1 k k' Hy Hx Hg Hf H0 H1 HB Ex Ey; [lia |].
  cbn [mulInv_loop]. rewrite (proj2 (Z.eqb_neq y 0)) by lia.
  destruct (coprime_mod x y Hg ltac:(lia)) as [Nx Hg1].
  pose proof (Z.div_mod x y ltac:(lia)) as Dx. pose proof (Z.mod_pos_bound x y ltac:(lia)) as Mx.
  assert (1 <= x / y) by (apply Z.div_le_lower_bound; lia).
  set (q := x / y) in *. set (x' := x mod y) in *. clearbody q x'.
  assert (HB' : (t0 + q * t1) * y + t1 * x' = 2 ^ 16 + 1) by lia.
  assert (E0' : (t0 + q * t1) * x0 = x' + (k + q * k') * (2 ^ 16 + 1)) by lia.
  assert (P0 : 1 <= t0 + q * t1) by nia. set (t0' := t0 + q * t1) in *. clearbody t0'.
  assert (1 <= t0' <= 2 ^ 15) by nia.
  rewrite (u32_id t0') by (unfold is_u32; lia).
  destruct (Z.eqb_spec x' 1) as [X1 | X1].
  { exists t0'. split; [reflexivity |]. apply (inverse_word x0 t0' (k + q * k')); try lia. symmetry. apply Z.mod_small. lia. }
  rewrite (proj2 (Z.eqb_neq x' 0)) by lia.
  destruct (coprime_mod y x' Hg1 ltac:(lia)) as [Ny Hg2].
  pose proof (Z.div_mod y x' ltac:(lia)) as Dy. pose proof (Z.mod_pos_bound y x' ltac:(lia)) as My.
  assert (1 <= y / x') by (apply Z.div_le_lower_bound; lia).
  set (p := y / x') in *. set (y' := y mod x') in *. clearbody p y'.
  assert (HB2 : t0' * y' + (t1 + p * t0') * x' = 2 ^ 16 + 1) by lia.
  assert (E1' : (t1 + p * t0') * x0 = (k' + p * (k + q * k')) * (2 ^ 16 + 1) - y').
  { replace ((t1 + p * t0') * x0) with (t1 * x0 + p * (t0' * x0)) by lia. rewrite Ey, E0', Dy. lia. }
  assert (P1 : 1 <= t1 + p * t0') by (pose proof (Z.mul_nonneg_nonneg p t0'); lia). set (t1' := t1 + p * t0') in *. clearbody t1'.
  assert (0 < t0' * y') by (apply Z.mul_pos_pos; lia). assert (2 * t1' <= t1' * x') by (apply Z.le_trans with (t1' * 2); [lia | apply Z.mul_le_mono_nonneg_l; lia]).
  assert (1 <= t1' <= 2 ^ 15) by lia.
  rewrite (u32_id t1') by (unfold is_u32; lia).
  destruct (Z.eqb_spec y' 1) as [Y1 | Y1]; cbn [negb].
  - exists (low16 (u32 (1 - t1'))). split; [reflexivity |].
    apply (inverse_word x0 (2 ^ 16 + 1 - t1') (x0 - (k' + p * (k + q * k')))); try lia.
    rewrite low16_u32, low16_mod. replace (2 ^ 16 + 1 - t1') with (1 - t1' + 1 * 2 ^ 16) by lia.
    now rewrite Z.mod_add by lia.
  - apply (IH x' y' t0' t1' (k + q * k') (k' + p * (k + q * k'))); try lia.
    rewrite Nat2Z.inj_succ, Z.pow_succ_r in Hf by lia.
    assert (x' * 1 <= x' * p) by (apply Z.mul_le_mono_nonneg_l; lia). lia.
Qed.

Lemma mulInv_ok x : is_u16 x -> exists r, mulInv x = Some r /\ is_u16 r /\ Lai.mul x r = 1.
Proof.
  intros Hx. unfold mulInv, is_u16 in *. destruct (Z.leb_spec x 1) as [L | G].
  { exists x. split; [reflexivity |]. split; [exact Hx |]. assert (x = 0 \/ x = 1) as [-> | ->] by lia; reflexivity. }
  pose proof (Z.div_mod 65537 x ltac:(lia)) as D. pose proof (Z.mod_pos_bound 65537 x ltac:(lia)) as M.
  assert (Hg : Z.gcd 65537 x = 1).
  { rewrite Z.gcd_comm. apply Zgcd_1_rel_prime, rel_prime_sym, prime_rel_prime; [exact prime_65537 |].
    intros Hd. apply Z.divide_pos_le in Hd; lia. }
  destruct (coprime_mod 65537 x Hg ltac:(lia)) as [Ny Hg1].
  set (t1 := 65537 / x) in *. set (y := 65537 mod x) in *.
  assert (1 <= t1 <= 2 ^ 15) by nia. clearbody t1 y.
  destruct (Z.eqb_spec y 1) as [Y1 | Y1].
  - exists (low16 (u32 (1 - t1))). split; [reflexivity |].
    apply (inverse_word x (2 ^ 16 + 1 - t1) (x - 1)); try lia.
    rewrite low16_u32, low16_mod. replace (2 ^ 16 + 1 - t1) with (1 - t1 + 1 * 2 ^ 16) by lia.
    now rewrite Z.mod_add by lia.
  - apply (mulInv_loop_ok 16 x ltac:(lia) x y 1 t1 0 1); lia.
Qed.

(** ** The code computes the cipher *)

Definition low (r : idea_regs) : idea_regs :=
  let '(x1, x2, x3, x4) := r in (low16 x1, low16 x2, low16 x3, low16 x4).

Lemma low16_add x y : low16 (u32 (x + y)) = Lai.add (low16 x) (low16 y).
Proof. rewrite low16_u32, !low16_mod. unfold Lai.add. now rewrite Z.add_mod by lia. Qed.

Lemma low16_lxor x y : low16 (x .^ y) = low16 x .^ low16 y.
Proof. rewrite !low16_mod. apply (zext_lxor 16). lia. Qed.

Lemma key_word key k : Forall is_u16 key -> is_u16 key.[k].
Proof. intros H. apply Forall_aget; [unfold is_u16; lia | exact H]. Qed.

Lemma round_low key k r : Forall is_u16 key -> low (idea_round key k r) = Lai.round key k (low r).
Proof.
  intros Hk. assert (K : forall i, is_u16 key.[i]) by (intros; now apply key_word).
  destruct r as [[[x1 x2] x3] x4]. unfold idea_round, Lai.round, low. cbn [Lai.mix Lai.ma Lai.swap].
  repeat (rewrite ?low16_lxor, ?low16_add, ?(MUL_mul _ _ (K _)), ?(low16_id _ (K _))).
  rewrite (Z.lxor_comm (Lai.add (low16 x3) _) (Lai.mul (low16 x1) _)).
  repeat match goal with |- (_, _) = (_, _) => apply f_equal2 end; reflexivity || apply Z.lxor_comm.
Qed.

Lemma rounds_low key n r : Forall is_u16 key ->
  low (for_range 0 (Z.of_nat n) (fun r => idea_round key (6 * r)) r)
  = for_range 0 (Z.of_nat n) (fun r => Lai.round key (6 * r)) (low r).
Proof.
  intros Hk. induction n as [|n IH]; [reflexivity |].
  rewrite Nat2Z.inj_succ, <- Z.add_1_r, !for_range_snoc by lia. rewrite round_low by exact Hk. now rewrite IH.
Qed.

Lemma load16_word b i : is_u8 b.[2 * i] -> is_u8 b.[2 * i + 1] ->
  low16 (swap16 (load16 b i)) = 256 * b.[2 * i] + b.[2 * i + 1].
Proof.
  unfold swap16, load16, is_u8. set (h := b.[2 * i]). set (l := b.[2 * i + 1]). clearbody h l. intros Hh Hl.
  rewrite shiftr_div, shiftl_mul by lia. change (2 ^ 8) with 256.
  rewrite u32_id by (unfold is_u32; lia). rewrite Z.lor_comm, (lor_add 8); [| lia | |].
  - rewrite low16_mod. symmetry. apply (Z.mod_unique _ _ l); [lia |]. zlia.
  - change (2 ^ 8) with 256. apply Z.mod_mul. lia.
  - change (2 ^ 8) with 256. zlia.
Qed.

Lemma store_word x : store16 x = [low16 x / 256; low16 x mod 256].
Proof.
  unfold store16, swap16. pose proof (low16_range x) as H. set (w := low16 x) in *. clearbody w. unfold is_u16 in H.
  rewrite shiftr_div, shiftl_mul by lia. change (2 ^ 8) with 256.
  rewrite u32_id by (unfold is_u32; lia). rewrite Z.lor_comm, (lor_add 8); [| lia | |].
  - replace (word16 (w * 256 + w / 256)) with (256 * (w mod 256) + w / 256); [f_equal; [zlia | f_equal; zlia] |].
    unfold word16, zext. change (2 ^ 16) with 65536. apply (Z.mod_unique _ _ (w / 256)); zlia.
  - change (2 ^ 8) with 256. apply Z.mod_mul. lia.
  - change (2 ^ 8) with 256. zlia.
Qed.

Lemma ideaCipher_lai b key : Forall is_u8 b -> Forall is_u16 key ->
  ideaCipher b key = Lai.bytes (Lai.cipher key (Lai.words b)).
Proof.
  intros Hb Hk. assert (K : forall i, is_u16 key.[i]) by (intros; now apply key_word).
  assert (B : forall i, is_u8 b.[i]) by (intros; apply Forall_aget; [unfold is_u8; lia | exact Hb]).
  unfold ideaCipher, Lai.cipher. pose proof (rounds_low key 8
    (swap16 (load16 b 0), swap16 (load16 b 1), swap16 (load16 b 2), swap16 (load16 b 3)) Hk) as E.
  change (Z.of_nat 8) with 8 in E. unfold IDEAROUNDS. set (R := for_range 0 8 _ _) in *. clearbody R.
  unfold low at 2 in E. rewrite !load16_word in E by apply B. unfold Lai.words. cbv zeta. rewrite <- E.
  destruct R as [[[x1 x2] x3] x4]. cbn [low Lai.swap Lai.mix Lai.bytes]. rewrite !store_word.
  repeat (rewrite ?low16_lxor, ?low16_add, ?(MUL_mul _ _ (K _)), ?(low16_id _ (K _))). reflexivity.
Qed.

(** ** The inverted key *)

Definition inv (k : Z) : Z := match mulInv k with Some r => r | None => 0 end.
Definition neg (k : Z) : Z := word16 (- k).

Lemma inv_ok k : is_u16 k -> mulInv k = Some (inv k) /\ is_u16 (inv k) /\ Lai.mul k (inv k) = 1.
Proof. intros Hk. unfold inv. destruct (mulInv_ok k Hk) as (r & -> & H). auto. Qed.

Definition four (EK : list Z) (e : Z) (swap : bool) : list Z :=
  [inv EK.[e]; neg EK.[e + if swap then 2 else 1]; neg EK.[e + if swap then 1 else 2]; inv EK.[e + 3]].

Lemma invert_four_ok EK e swap temp : Forall is_u16 EK ->
  invert_four EK e swap temp = Some (four EK e swap ++ temp).
Proof.
  intros HK. unfold invert_four.
  destruct (inv_ok EK.[e] (key_word EK e HK)) as (-> & H1 & _). cbn [bind].
  destruct (inv_ok EK.[e + 3] (key_word EK (e + 3) HK)) as (-> & H2 & _). cbn [bind].
  unfold four, neg, word16. rewrite (zext_id 16 (inv EK.[e])), (zext_id 16 (inv EK.[e + 3])) by assumption.
  now destruct swap.
Qed.

Definition inverted (EK : list Z) : list Z :=
  four EK 48 false ++ [EK.[46]; EK.[47]] ++ four EK 42 true ++ [EK.[40]; EK.[41]] ++ four EK 36 true ++
  [EK.[34]; EK.[35]] ++ four EK 30 true ++ [EK.[28]; EK.[29]] ++ four EK 24 true ++ [EK.[22]; EK.[23]] ++
  four EK 18 true ++ [EK.[16]; EK.[17]] ++ four EK 12 true ++ [EK.[10]; EK.[11]] ++ four EK 6 true ++
  [EK.[4]; EK.[5]] ++ four EK 0 false.

Lemma ideaInvertKey_ok EK : Forall is_u16 EK -> ideaInvertKey EK = Some (inverted EK).
Proof.
  intros HK. unfold ideaInvertKey. rewrite invert_four_ok by exact HK. cbn [bind].
  unfold for_opt, for_range. change (Z.to_nat (IDEAROUNDS - 1 - 0)) with 7%nat. cbn [for_loop bind].
  repeat (rewrite invert_four_ok by exact HK; cbn [bind]). reflexivity.
Qed.

Lemma neg_u16 k : is_u16 (neg k).
Proof. apply (zext_range 16). lia. Qed.

Lemma inverted_words EK : Forall is_u16 EK -> Forall is_u16 (inverted EK).
Proof.
  intros HK. assert (I : forall i, is_u16 (inv EK.[i])) by (intros; apply inv_ok; now apply key_word).
  assert (F : forall e s, Forall is_u16 (four EK e s))
    by (intros; unfold four; repeat (apply Forall_cons; [apply I || apply neg_u16 |]); apply Forall_nil).
  assert (T : forall i, is_u16 EK.[i]) by (intros; now apply key_word).
  unfold inverted. repeat (apply Forall_app; split; [first [apply F | repeat constructor; apply T] |]). apply F.
Qed.

(** ** Decryption *)

Definition words_ok (x : idea_regs) : Prop :=
  let '(x1, x2, x3, x4) := x in is_u16 x1 /\ is_u16 x2 /\ is_u16 x3 /\ is_u16 x4.

Lemma lxor_u16 a b : is_u16 a -> is_u16 b -> is_u16 (a .^ b).
Proof.
  unfold is_u16. intros Ha Hb. rewrite <- (Z.mod_small a (2 ^ 16)), <- (Z.mod_small b (2 ^ 16)) by lia.
  change (0 <= zext 16 a .^ zext 16 b < 2 ^ 16). rewrite <- zext_lxor by lia. apply zext_range. lia.
Qed.

Lemma add_u16 a b : is_u16 (Lai.add a b).
Proof. apply Z.mod_pos_bound. lia. Qed.

Lemma mix_ok k1 k2 k3 k4 x : words_ok (Lai.mix k1 k2 k3 k4 x).
Proof. destruct x as [[[x1 x2] x3] x4]. repeat split; apply mul_range || apply add_u16. Qed.

Lemma ma_ok k5 k6 x : words_ok x -> words_ok (Lai.ma k5 k6 x).
Proof.
  destruct x as [[[x1 x2] x3] x4]. intros (? & ? & ? & ?).
  split; [| split; [| split]]; apply lxor_u16; try assumption; apply mul_range || apply add_u16.
Qed.

Lemma swap_ok x : words_ok x -> words_ok (Lai.swap x).
Proof. destruct x as [[[x1 x2] x3] x4]. intros (? & ? & ? & ?). now split; [| split; [| split]]. Qed.

Lemma swap_swap x : Lai.swap (Lai.swap x) = x.
Proof. now destruct x as [[[x1 x2] x3] x4]. Qed.

Lemma ma_ma k5 k6 x : Lai.ma k5 k6 (Lai.ma k5 k6 x) = x.
Proof.
  destruct x as [[[x1 x2] x3] x4]. cbn [Lai.ma]. set (s := Lai.mul (x1 .^ x3) k5).
  set (t := Lai.mul (Lai.add (x2 .^ x4) s) k6). set (u := Lai.add s t).
  assert (C : forall a b c, (a .^ c) .^ (b .^ c) = a .^ b).
  { intros. rewrite Z.lxor_assoc, (Z.lxor_comm b c), <- (Z.lxor_assoc c c b), Z.lxor_nilpotent. now rewrite Z.lxor_0_l. }
  rewrite !C. fold s. fold t. fold u.
  assert (D : forall a c, (a .^ c) .^ c = a) by (intros; rewrite Z.lxor_assoc, Z.lxor_nilpotent; apply Z.lxor_0_r).
  now rewrite !D.
Qed.

Lemma mul_inv x k : is_u16 x -> is_u16 k -> Lai.mul (Lai.mul x k) (inv k) = x.
Proof.
  intros Hx Hk. destruct (inv_ok k Hk) as (_ & Hi & E). rewrite mul_assoc, E by assumption. now apply mul_1_r.
Qed.

Lemma add_neg x k : is_u16 x -> Lai.add (Lai.add x k) (neg k) = x.
Proof.
  intros Hx. unfold Lai.add, neg, word16, zext. rewrite Z.add_mod_idemp_l, Z.add_mod_idemp_r by lia.
  replace (x + k + - k) with x by lia. now apply Z.mod_small.
Qed.

Lemma unmix k1 k2 k3 k4 x : is_u16 k1 -> is_u16 k4 -> words_ok x ->
  Lai.mix (inv k1) (neg k2) (neg k3) (inv k4) (Lai.mix k1 k2 k3 k4 x) = x.
Proof.
  intros H1 H4. destruct x as [[[x1 x2] x3] x4]. intros (? & ? & ? & ?). cbn [Lai.mix].
  now rewrite !mul_inv, !add_neg by assumption.
Qed.

Lemma unmix_swap k1 k2 k3 k4 x : is_u16 k1 -> is_u16 k4 -> words_ok x ->
  Lai.mix (inv k1) (neg k3) (neg k2) (inv k4) (Lai.swap (Lai.mix k1 k2 k3 k4 x)) = Lai.swap x.
Proof.
  intros H1 H4. destruct x as [[[x1 x2] x3] x4]. intros (? & ? & ? & ?). cbn [Lai.mix Lai.swap].
  now rewrite !mul_inv, !add_neg by assumption.
Qed.

Section Decrypt.
Context (EK : list Z) (x : idea_regs).
Hypothesis HK : Forall is_u16 EK.
Hypothesis Hx : words_ok x.

Let Y (r : Z) : idea_regs := for_range 0 r (fun r => Lai.round EK (6 * r)) x.
Let M (r : Z) (y : idea_regs) : idea_regs :=
  Lai.mix EK.[6 * r] EK.[6 * r + 1] EK.[6 * r + 2] EK.[6 * r + 3] y.

Lemma Y_ok r : words_ok (Y r).
Proof using Hx.
  destruct (Z_le_gt_dec r 0) as [L | G]; [unfold Y; rewrite for_range_nil by lia; exact Hx |].
  unfold Y. replace r with (r - 1 + 1) by lia. rewrite for_range_snoc by lia. unfold Lai.round.
  apply swap_ok, ma_ok, mix_ok.
Qed.

(** Round [r] of the decryption undoes the mixing of round [8 - r] and the
    structure of the round before. *)
Lemma decrypt_round r : 1 <= r <= 7 ->
  Lai.round (inverted EK) (6 * r) (Lai.swap (M (8 - r) (Y (8 - r)))) = Lai.swap (M (7 - r) (Y (7 - r))).
Proof using HK Hx.
  intros Hr. replace (Y (8 - r)) with (Lai.round EK (6 * (7 - r)) (Y (7 - r)))
    by (unfold Y; replace (8 - r) with (7 - r + 1) by lia; now rewrite for_range_snoc by lia).
  unfold Lai.round.
  assert (E : exists k, r = Z.of_nat k /\ (1 <= k <= 7)%nat) by (exists (Z.to_nat r); lia).
  destruct E as (k & -> & Hk). assert (K : forall i, is_u16 EK.[i]) by (intros; now apply key_word).
  assert (S : forall a b, words_ok (Lai.swap (Lai.ma a b (M (7 - Z.of_nat k) (Y (7 - Z.of_nat k))))))
    by (intros; apply swap_ok, ma_ok, mix_ok).
  assert (W : Lai.mix (inverted EK).[6 * Z.of_nat k] (inverted EK).[6 * Z.of_nat k + 1] (inverted EK).[6 * Z.of_nat k + 2]
                (inverted EK).[6 * Z.of_nat k + 3] =
    let e := 6 * (8 - Z.of_nat k) in Lai.mix (inv EK.[e]) (neg EK.[e + 2]) (neg EK.[e + 1]) (inv EK.[e + 3])).
  { destruct k as [|[|[|[|[|[|[|[|k]]]]]]]]; try lia; reflexivity. }
  rewrite W. cbv zeta. unfold M at 1. rewrite unmix_swap by (apply K || apply S). rewrite swap_swap.
  assert (V : (inverted EK).[6 * Z.of_nat k + 4] = EK.[6 * (7 - Z.of_nat k) + 4] /\
              (inverted EK).[6 * Z.of_nat k + 5] = EK.[6 * (7 - Z.of_nat k) + 5]).
  { destruct k as [|[|[|[|[|[|[|[|k]]]]]]]]; try lia; split; reflexivity. }
  destruct V as [-> ->]. now rewrite ma_ma.
Qed.

Lemma decrypt_rounds n : (n <= 7)%nat ->
  for_range 0 (Z.of_nat n + 1) (fun r => Lai.round (inverted EK) (6 * r)) (Lai.cipher EK x)
  = Lai.swap (M (7 - Z.of_nat n) (Y (7 - Z.of_nat n))).
Proof using HK Hx.
  assert (K : forall i, is_u16 EK.[i]) by (intros; now apply key_word).
  induction n as [|n IH]; intros Hn.
  - rewrite (for_range_S 0 (Z.of_nat 0 + 1)), for_range_nil by lia. unfold Lai.cipher. fold (Y 8).
    change (7 - Z.of_nat 0) with 7. unfold Lai.round.
    replace (Y 8) with (Lai.round EK (6 * 7) (Y 7)) by reflexivity. unfold Lai.round. rewrite swap_swap.
    change (inverted EK).[6 * 0] with (inv EK.[48]). change (inverted EK).[6 * 0 + 1] with (neg EK.[49]).
    change (inverted EK).[6 * 0 + 2] with (neg EK.[50]). change (inverted EK).[6 * 0 + 3] with (inv EK.[51]).
    rewrite unmix by (apply K || apply ma_ok, mix_ok).
    change (inverted EK).[6 * 0 + 4] with EK.[6 * 7 + 4]. change (inverted EK).[6 * 0 + 5] with EK.[6 * 7 + 5].
    now rewrite ma_ma.
  - rewrite Nat2Z.inj_succ, <- Z.add_1_r, for_range_snoc by lia. rewrite IH by lia.
    replace (7 - Z.of_nat n) with (8 - (Z.of_nat n + 1)) by lia. rewrite decrypt_round by lia. reflexivity.
Qed.

Lemma cipher_inverse : Lai.cipher (inverted EK) (Lai.cipher EK x) = x.
Proof using HK Hx.
  pose proof (decrypt_rounds 7 ltac:(lia)) as E. change (Z.of_nat 7 + 1) with 8 in E.
  unfold Lai.cipher at 1. rewrite E, swap_swap.
  change (7 - Z.of_nat 7) with 0. change (Y 0) with x.
  change (inverted EK).[48] with (inv EK.[0]). change (inverted EK).[49] with (neg EK.[1]).
  change (inverted EK).[50] with (neg EK.[2]). change (inverted EK).[51] with (inv EK.[3]).
  apply unmix; try exact Hx; now apply key_word.
Qed.
End Decrypt.

(** ** The key schedule *)

Lemma rotl128_bit n v k : 0 <= n < 128 -> 0 <= v < 2 ^ 128 -> 0 <= k < 128 ->
  Z.testbit (Lai.rotl128 n v) k = Z.testbit v ((k - n) mod 128).
Proof.
  intros Hn Hv Hk. unfold Lai.rotl128.
  assert (Hp : 0 < 2 ^ n) by (apply Z.pow_pos_nonneg; lia).
  assert (E : 2 ^ 128 = 2 ^ n * 2 ^ (128 - n)) by (rewrite <- Z.pow_add_r by lia; f_equal; lia).
  assert (Hq : 0 < 2 ^ (128 - n)) by (apply Z.pow_pos_nonneg; lia).
  rewrite E, (Z.mul_comm v), Z.mul_mod_distr_l, Z.add_comm by lia.
  rewrite testbit_split; [| lia | split; [apply Z.div_pos; lia | apply Z.div_lt_upper_bound; lia] | lia].
  destruct (Z.ltb_spec k n).
  - rewrite Z.div_pow2_bits by lia. f_equal. apply (Z.mod_unique _ _ (-1)); lia.
  - rewrite testbit_low by lia. f_equal. apply (Z.mod_unique _ _ 0); lia.
Qed.

Lemma schedule_word uk j : is_u16 (Lai.schedule uk j).
Proof. apply Z.mod_pos_bound. lia. Qed.

Lemma schedule_bit uk j b : 0 <= Lai.key_bits uk < 2 ^ 128 -> 0 <= j -> 0 <= b < 16 ->
  Z.testbit (Lai.schedule uk j) b = Z.testbit (Lai.key_bits uk) ((16 * (7 - j mod 8) + b - 25 * (j / 8)) mod 128).
Proof.
  intros Hv Hj Hb. unfold Lai.schedule. pose proof (Z.mod_pos_bound j 8 ltac:(lia)).
  pose proof (Z.mod_pos_bound (25 * (j / 8)) 128 ltac:(lia)).
  rewrite testbit_low, Z.div_pow2_bits, rotl128_bit by lia. f_equal.
  rewrite Zminus_mod_idemp_r. f_equal. lia.
Qed.

(** The bit of a word, 0 outside it. *)
Lemma u16_bit x b : is_u16 x -> 16 <= b -> Z.testbit x b = false.
Proof. intros Hx Hb. apply (testbit_small x 16); [exact Hx | lia]. Qed.

Lemma schedule_step uk q m : 0 <= Lai.key_bits uk < 2 ^ 128 -> 0 <= q -> 0 <= m < 8 ->
  word16 ((Lai.schedule uk (8 * q + (m + 1) mod 8) << 9) .| (Lai.schedule uk (8 * q + (m + 2) mod 8) >> 7))
  = Lai.schedule uk (8 * q + 8 + m).
Proof.
  intros Hv Hq Hm. apply Z.bits_inj'. intros b Hb.
  destruct (Z_lt_ge_dec b 16) as [L | G];
    [| rewrite !u16_bit by (apply schedule_word || (apply (zext_range 16); lia) || lia); reflexivity].
  unfold word16. rewrite zext_testbit, Z.lor_spec, Z.shiftl_spec, Z.shiftr_spec by lia.
  pose proof (Z.mod_pos_bound (m + 1) 8 ltac:(lia)). pose proof (Z.mod_pos_bound (m + 2) 8 ltac:(lia)).
  assert (D : forall s, 0 <= s < 8 -> (8 * q + s) / 8 = q /\ (8 * q + s) mod 8 = s) by (intros; zlia).
  rewrite (schedule_bit uk (8 * q + 8 + m)) by lia.
  replace (8 * q + 8 + m) with (8 * (q + 1) + m) by lia.
  replace ((8 * (q + 1) + m) mod 8) with m by zlia. replace ((8 * (q + 1) + m) / 8) with (q + 1) by zlia.
  destruct (Z_lt_ge_dec b 9).
  - rewrite (Z.testbit_neg_r _ (b - 9)) by lia. cbn [orb]. rewrite schedule_bit by lia.
    destruct (D ((m + 2) mod 8) ltac:(lia)) as [-> ->]. f_equal.
    assert (E : exists c, (m + 2) mod 8 = m + 2 - 8 * c) by (exists ((m + 2) / 8); zlia). destruct E as [c ->].
    replace (16 * (7 - (m + 2 - 8 * c)) + (b + 7) - 25 * q) with (16 * (7 - m) + b - 25 * (q + 1) + c * 128) by lia.
    apply Z.mod_add. lia.
  - rewrite (u16_bit _ (b + 7)), orb_false_r by (apply schedule_word || lia). rewrite schedule_bit by lia.
    destruct (D ((m + 1) mod 8) ltac:(lia)) as [-> ->]. f_equal.
    assert (E : exists c, (m + 1) mod 8 = m + 1 - 8 * c) by (exists ((m + 1) / 8); zlia). destruct E as [c ->].
    replace (16 * (7 - (m + 1 - 8 * c)) + (b - 9) - 25 * q) with (16 * (7 - m) + b - 25 * (q + 1) + c * 128) by lia.
    apply Z.mod_add. lia.
Qed.

(** *** The first eight words *)

Lemma key_bits_from v l : fold_left (fun v b => 256 * v + b) l v = v * 256 ^ Z.of_nat (length l) + Lai.key_bits l.
Proof.
  unfold Lai.key_bits. revert v. induction l as [|b l IH]; intros v; [simpl; lia |].
  cbn [fold_left length]. rewrite IH, (IH (256 * 0 + b)), Nat2Z.inj_succ, Z.pow_succ_r by lia. lia.
Qed.

Lemma key_bits_app l l' : Lai.key_bits (l ++ l') = Lai.key_bits l * 256 ^ Z.of_nat (length l') + Lai.key_bits l'.
Proof. unfold Lai.key_bits at 1. rewrite fold_left_app. apply key_bits_from. Qed.

Lemma key_bits_range l : Forall is_u8 l -> 0 <= Lai.key_bits l < 256 ^ Z.of_nat (length l).
Proof.
  induction l as [|b l IH]; intros H; [unfold Lai.key_bits; simpl; lia |]. inversion H; subst.
  change (b :: l) with ([b] ++ l). rewrite key_bits_app. change (Lai.key_bits [b]) with b.
  specialize (IH ltac:(assumption)). simpl length in *. rewrite Nat2Z.inj_succ, Z.pow_succ_r by lia. unfold is_u8 in *. nia.
Qed.

Lemma schedule_first uk j : Forall is_u8 uk -> length uk = 16%nat -> 0 <= j < 8 ->
  Lai.schedule uk j = 256 * uk.[2 * j] + uk.[2 * j + 1].
Proof.
  intros Hu Hl Hj. unfold Lai.schedule. pose proof (key_bits_range uk Hu) as Hv. rewrite Hl in Hv.
  change (256 ^ Z.of_nat 16) with (2 ^ 128) in Hv. rewrite (Z.div_small j), Z.mul_0_r, (Z.mod_small j) by lia.
  change (0 mod 128) with 0. unfold Lai.rotl128. rewrite Z.mul_1_r, (Z.mod_small (Lai.key_bits uk)) by exact Hv.
  change (2 ^ (128 - 0)) with (2 ^ 128). rewrite (Z.div_small (Lai.key_bits uk)), Z.add_0_r by exact Hv. clear Hv.
  set (n := Z.to_nat (2 * j)). replace uk.[2 * j] with uk.[Z.of_nat n] by (f_equal; lia).
  replace uk.[2 * j + 1] with uk.[Z.of_nat (S n)] by (f_equal; lia).
  rewrite <- (firstn_skipn n uk) at 1. rewrite (skipn_aget uk n), (skipn_aget uk (S n)) by lia.
  set (a := uk.[Z.of_nat n]). set (b := uk.[Z.of_nat (S n)]).
  assert (Ha : is_u8 a /\ is_u8 b) by (split; apply Forall_aget; (unfold is_u8; lia) || exact Hu). clearbody a b.
  change (a :: b :: skipn (S (S n)) uk) with ([a; b] ++ skipn (S (S n)) uk). rewrite !key_bits_app, length_app.
  pose proof (key_bits_range (skipn (S (S n)) uk) (Forall_skipn _ _ _ Hu)) as Hr.
  assert (E : 256 ^ Z.of_nat (length (skipn (S (S n)) uk)) = 2 ^ (16 * (7 - j))).
  { change 256 with (2 ^ 8). rewrite <- Z.pow_mul_r by lia. f_equal. rewrite length_skipn. lia. }
  rewrite Nat2Z.inj_add, Z.pow_add_r, E in * by lia. change (Lai.key_bits [a; b]) with (256 * (256 * 0 + a) + b).
  change (256 ^ Z.of_nat (length [a; b])) with (2 ^ 16).
  assert (Hp : 0 < 2 ^ (16 * (7 - j))) by (apply Z.pow_pos_nonneg; lia). set (p := 2 ^ (16 * (7 - j))) in *. clearbody p.
  set (A := Lai.key_bits (firstn n uk)). set (B := Lai.key_bits (skipn (S (S n)) uk)) in *. clearbody A B.
  replace (A * (2 ^ 16 * p) + ((256 * (256 * 0 + a) + b) * p + B)) with (B + (A * 2 ^ 16 + (256 * a + b)) * p) by lia.
  rewrite Z.div_add, (Z.div_small B) by lia. rewrite Z.add_0_l, Z.add_comm, Z.mod_add by lia.
  apply Z.mod_small. unfold is_u8 in Ha. lia.
Qed.

(** *** The loops *)

Section Expand.
Context (uk : list Z).
Hypothesis Hu : Forall is_u8 uk.
Hypothesis Hl : length uk = 16%nat.

Let uk_bits : 0 <= Lai.key_bits uk < 2 ^ 128.
Proof. pose proof (key_bits_range uk Hu) as H. now rewrite Hl in H. Qed.

Lemma expand_words_ok : length (expand_words uk) = 52%nat /\
  forall j, 0 <= j < 8 -> (expand_words uk).[j] = Lai.schedule uk j.
Proof using Hu Hl.
  unfold expand_words.
  apply (for_range_ind (fun j EK => length EK = 52%nat /\ forall i, 0 <= i < j -> EK.[i] = Lai.schedule uk i));
    [lia | split; [reflexivity | lia] |].
  intros j EK Hj (HL & H). split; [now rewrite aset_length |]. intros i Hi. rewrite aget_aset by lia.
  destruct (Z.eqb_spec i j) as [-> |]; [| apply H; lia].
  rewrite schedule_first by (assumption || lia). unfold word16. rewrite shiftl_mul by lia.
  assert (B : forall k, is_u8 uk.[k]) by (intros; apply Forall_aget; [unfold is_u8; lia | exact Hu]).
  pose proof (B (2 * j)). pose proof (B (2 * j + 1)). unfold is_u8 in *.
  rewrite zext_id by (change (2 ^ 8) with 256; lia). change (2 ^ 8) with 256. lia.
Qed.

Lemma expand_step_ok j EK : 8 <= j < 52 -> length EK = 52%nat ->
  (forall i, 0 <= i < j -> EK.[i] = Lai.schedule uk i) ->
  expand_step j (j mod 8, 8 * (j / 8 - 1), EK) =
    ((j + 1) mod 8, 8 * ((j + 1) / 8 - 1), aset EK j (Lai.schedule uk j)).
Proof using Hu Hl.
  intros Hj HL H. unfold expand_step. set (q := j / 8 - 1). set (m := j mod 8).
  assert (Hm : 0 <= m < 8) by (apply Z.mod_pos_bound; lia).
  assert (Ej : j = 8 * q + 8 + m) by (unfold q, m; zlia). assert (Hq : 0 <= q) by (unfold q; zlia).
  assert (L7 : forall a, a .& 7 = a mod 8) by (intros; change 7 with (2 ^ 3 - 1); now rewrite land_mask).
  assert (L8 : (m + 1) .& 8 = if m =? 7 then 8 else 0).
  { clear -Hm. assert (E : exists k, m = Z.of_nat k /\ (k < 8)%nat) by (exists (Z.to_nat m); lia).
    destruct E as (k & -> & Hk). destruct k as [|[|[|[|[|[|[|[|k]]]]]]]]; try lia; reflexivity. }
  clearbody m. rewrite !L7, L8. replace (m + 1 + 1) with (m + 2) by lia.
  pose proof (Z.mod_pos_bound (m + 1) 8 ltac:(lia)). pose proof (Z.mod_pos_bound (m + 2) 8 ltac:(lia)).
  rewrite !H by (rewrite Ej; lia). rewrite schedule_step by (assumption || lia).
  replace (8 * q + (m + 1 + 7)) with j by lia. rewrite <- Ej.
  apply f_equal2; [apply f_equal2 |]; [| | reflexivity].
  - rewrite Ej. replace (8 * q + 8 + m + 1) with (m + 1 + (q + 1) * 8) by lia. now rewrite Z.mod_add by lia.
  - destruct (Z.eqb_spec m 7); zlia.
Qed.

Lemma ideaExpandKey_ok : length (ideaExpandKey uk) = 52%nat /\
  forall j, 0 <= j < 52 -> (ideaExpandKey uk).[j] = Lai.schedule uk j.
Proof using Hu Hl.
  destruct expand_words_ok as [HL HW]. unfold ideaExpandKey.
  assert (I : let '(i, e, EK) := for_range 8 IDEAKEYLEN expand_step (0, 0, expand_words uk) in
    i = IDEAKEYLEN mod 8 /\ e = 8 * (IDEAKEYLEN / 8 - 1) /\ length EK = 52%nat /\
    forall k, 0 <= k < IDEAKEYLEN -> EK.[k] = Lai.schedule uk k).
  { apply (for_range_ind (fun j s => let '(i, e, EK) := s in
      i = j mod 8 /\ e = 8 * (j / 8 - 1) /\ length EK = 52%nat /\ forall k, 0 <= k < j -> EK.[k] = Lai.schedule uk k));
      [easy | repeat split; assumption |].
    intros j [[i e] EK] Hj (-> & -> & HLe & HE). change IDEAKEYLEN with 52 in Hj. rewrite expand_step_ok by assumption.
    repeat split; [now rewrite aset_length |]. intros k Hk. rewrite aget_aset by lia.
    destruct (Z.eqb_spec k j) as [-> |]; [reflexivity | apply HE; lia]. }
  destruct (for_range 8 IDEAKEYLEN expand_step _) as [[i e] EK]. destruct I as (_ & _ & HE & HK). split; assumption.
Qed.

Lemma ideaExpandKey_words : Forall is_u16 (ideaExpandKey uk).
Proof using Hu Hl.
  destruct ideaExpandKey_ok as [HL H]. generalize dependent (ideaExpandKey uk). intros EK HL H.
  apply Forall_forall. intros w Hw. apply (In_nth _ _ 0) in Hw as (n & Hn & <-).
  replace (nth n EK 0) with EK.[Z.of_nat n] by (unfold aget; now rewrite Nat2Z.id).
  rewrite H by lia. apply schedule_word.
Qed.
End Expand.

(** ** Properties *)

(** C34. With the key schedule of a 16-byte key, [ideaCipher] computes the cipher
    of Lai and Massey on every block: the schedule is the key rotated by 25
    bits for every eight words, the multiplications without division are
    multiplications modulo 65537, and the bits above the sixteenth that the
    32-bit variables collect never matter. *)
Theorem idea_cipher_correct userkey block :
  Forall is_u8 userkey -> length userkey = 16%nat -> Forall is_u8 block ->
  (forall j, 0 <= j < 52 -> (ideaExpandKey userkey).[j] = Lai.schedule userkey j) /\
  ideaCipher block (ideaExpandKey userkey) = Lai.bytes (Lai.cipher (ideaExpandKey userkey) (Lai.words block)).
Proof.
  intros Hu Hl Hb. split; [now apply ideaExpandKey_ok |]. apply ideaCipher_lai; [exact Hb |].
  now apply ideaExpandKey_words.
Qed.

Lemma idea_cipher_correct_witness :
  ideaCipher [1; 2; 3; 4; 5; 6; 7; 8] (ideaExpandKey (map (fun i => 17 * Z.of_nat i) (seq 0 16)))
  = Lai.bytes (Lai.cipher (ideaExpandKey (map (fun i => 17 * Z.of_nat i) (seq 0 16))) (Lai.words [1; 2; 3; 4; 5; 6; 7; 8])).
Proof.
  apply (idea_cipher_correct (map (fun i => 17 * Z.of_nat i) (seq 0 16)) [1; 2; 3; 4; 5; 6; 7; 8]);
    [cbn; repeat constructor; unfold is_u8; lia | reflexivity | repeat constructor; unfold is_u8; lia].
Defined.

Lemma words_bytes x : words_ok x -> Lai.words (Lai.bytes x) = x /\ Forall is_u8 (Lai.bytes x).
Proof.
  destruct x as [[[x1 x2] x3] x4]. intros (H1 & H2 & H3 & H4). unfold is_u16 in *. change (2 ^ 16) with 65536 in *.
  split.
  - unfold Lai.words. cbn [Lai.bytes]. unfold aget; simpl nth.
    repeat match goal with |- (_, _) = (_, _) => apply f_equal2 end; symmetry; apply Z.div_mod; lia.
  - repeat (apply Forall_cons; [unfold is_u8; zlia |]). apply Forall_nil.
Qed.

Lemma bytes_words b : Forall is_u8 b -> length b = 8%nat -> Lai.bytes (Lai.words b) = b /\ words_ok (Lai.words b).
Proof.
  intros Hb Hl. destruct b as [|b0 [|b1 [|b2 [|b3 [|b4 [|b5 [|b6 [|b7 [|]]]]]]]]]; try discriminate.
  repeat match goal with H : Forall _ (_ :: _) |- _ => apply Forall_cons_iff in H as [? H] end.
  unfold is_u8 in *. unfold Lai.words, aget. simpl nth. split.
  - cbn [Lai.bytes]. repeat (apply f_equal2; [zlia |]). reflexivity.
  - unfold words_ok, is_u16. change (2 ^ 16) with 65536. lia.
Qed.

Lemma cipher_words_ok K x : words_ok (Lai.cipher K x).
Proof. apply mix_ok. Qed.

(** C35. [ideaInvertKey] inverts every key of 16-bit words: each Euclidean loop
    of [mulInv] ends within its sixteen iterations with the inverse modulo
    65537 and never divides by zero, and the cipher with the inverted key undoes
    the cipher with the key on every block. *)
Theorem idea_decrypts EK block : Forall is_u16 EK -> Forall is_u8 block -> length block = 8%nat ->
  exists DK, ideaInvertKey EK = Some DK /\ ideaCipher (ideaCipher block EK) DK = block.
Proof.
  intros HK Hb Hl. exists (inverted EK). split; [now apply ideaInvertKey_ok |].
  destruct (bytes_words block Hb Hl) as [E Hw].
  destruct (words_bytes (Lai.cipher EK (Lai.words block)) (cipher_words_ok _ _)) as [E2 H2].
  rewrite (ideaCipher_lai block EK Hb HK). rewrite ideaCipher_lai by (exact H2 || now apply inverted_words).
  now rewrite E2, cipher_inverse, E.
Qed.

Lemma idea_decrypts_witness :
  exists DK, ideaInvertKey (repeat 513 52) = Some DK /\
    ideaCipher (ideaCipher [1; 2; 3; 4; 5; 6; 7; 8] (repeat 513 52)) DK = [1; 2; 3; 4; 5; 6; 7; 8].
Proof.
  apply (idea_decrypts (repeat 513 52) [1; 2; 3; 4; 5; 6; 7; 8]);
    [apply Forall_forall; intros x Hx; apply repeat_spec in Hx; subst; unfold is_u16; lia
    | repeat constructor; unfold is_u8; lia | reflexivity].
Defined.
