(* ===== verification/PgpRandPool.v ===== *)
(** * PGP: the pool of random bytes

    Models [security/pgp/src/randpool.c]: a pool of 384 bytes into which noise is
    mixed and from which random bytes are taken, and the function that stirs it,
    MD5 used as a block cipher.  The pool is its bytes; [randPoolStir] works on
    its words. *)

From Stdlib Require Import ZArith Lia List Bool.
From S2P Require Import Prelude Sha PgpMd5.
Import ListNotations.

Definition RANDPOOLBITS : Z := 3072.
Definition RANDPOOLWORDS : Z := ((RANDPOOLBITS + 127) .& Z.lnot 127) >> 5.

(** [sizeof(randPool)] and [sizeof(randPoolKey)] *)
Definition pool_size : Z := 4 * RANDPOOLWORDS.
Definition key_size : Z := 64.

(** The static variables. *)
Record randpool := mkPool {
  randPool : list Z;
  randPoolGetPos : Z;
  randPoolAddPos : Z;
  randPoolKey : list Z
}.

Definition initial_pool : randpool := mkPool (repeat 0 (Z.to_nat pool_size)) pool_size 0 (repeat 0 16).

(** ** Stirring *)

(** [t = (word32)(p[3]<<8 | p[2]) << 16 | p[1]<<8 | p[0]] for every four bytes. *)
Fixpoint pool_words (p : list Z) : list Z :=
  match p with
  | p0 :: p1 :: p2 :: p3 :: p' =>
      u32 (u32 ((p3 << 8) .| p2) << 16) .| (p1 << 8) .| p0 :: pool_words p'
  | _ => []
  end.

(** [p[0] = t>>24; p[1] = t>>16; p[2] = t>>8; p[3] = t] *)
Definition pool_bytes (w : list Z) : list Z :=
  flat_map (fun t => [u8 (t >> 24); u8 (t >> 16); u8 (t >> 8); u8 t]) w.

(** One pass over the words from [randPool[i]] on; the new words and [iv]. *)
Fixpoint stir_pass (key iv w : list Z) : list Z * list Z :=
  match w with
  | w0 :: w1 :: w2 :: w3 :: w' =>
      let iv := MD5Transform iv key in
      let iv := [w0 .^ iv.[0]; w1 .^ iv.[1]; w2 .^ iv.[2]; w3 .^ iv.[3]] in
      let (w', last) := stir_pass key iv w' in
      (iv ++ w', last)
  | _ => ([], iv)
  end.

Definition randPoolStir (s : randpool) : randpool :=
  let w := pool_words (randPool s) in
  let iv := skipn (Z.to_nat (RANDPOOLWORDS - 4)) w in
  let (w, iv) := stir_pass (randPoolKey s) iv w in
  let key := firstn 16 w in
  let (w, iv) := stir_pass key iv w in
  let key := firstn 16 w in
  mkPool (pool_bytes w) key_size 0 key.

(** ** Deposits and withdrawals *)

(** [xorbytes(randPool + o, buf, len)]; [buf] is the [len] bytes. *)
Fixpoint xor_list (d s : list Z) : list Z :=
  match d, s with
  | x :: d', y :: s' => x .^ y :: xor_list d' s'
  | _, _ => d
  end.

Definition xorbytes (d : list Z) (o : Z) (s : list Z) : list Z :=
  firstn (Z.to_nat o) d ++ xor_list (skipn (Z.to_nat o) d) s.

Definition set_pool (p : list Z) (s : randpool) : randpool :=
  mkPool p (randPoolGetPos s) (randPoolAddPos s) (randPoolKey s).

Fixpoint randPoolAddBytes (fuel : nat) (b : list Z) (s : randpool) : randpool :=
  match fuel with
  | O => s
  | S f =>
      let t := pool_size - randPoolAddPos s in
      let len := Z.of_nat (length b) in
      if len >? t then
        randPoolAddBytes f (skipn (Z.to_nat t) b)
          (randPoolStir (set_pool (xorbytes (randPool s) (randPoolAddPos s) (firstn (Z.to_nat t) b)) s))
      else if negb (len =? 0) then
        mkPool (xorbytes (randPool s) (randPoolAddPos s) b) pool_size (randPoolAddPos s + len) (randPoolKey s)
      else s
  end.

(** The bytes copied to [buf], and the pool. *)
Fixpoint randPoolGetBytes (fuel : nat) (len : Z) (s : randpool) : list Z * randpool :=
  match fuel with
  | O => ([], s)
  | S f =>
      let t := pool_size - randPoolGetPos s in
      if len >? t then
        let (out, s') := randPoolGetBytes f (len - t) (randPoolStir s) in
        (firstn (Z.to_nat t) (skipn (Z.to_nat (randPoolGetPos s)) (randPool s)) ++ out, s')
      else if negb (len =? 0) then
        (firstn (Z.to_nat len) (skipn (Z.to_nat (randPoolGetPos s)) (randPool s)),
         mkPool (randPool s) (randPoolGetPos s + len) (randPoolAddPos s) (randPoolKey s))
      else ([], s)
  end.

Definition randPoolGetByte (s : randpool) : Z * randpool :=
  let s := if randPoolGetPos s =? pool_size then randPoolStir s else s in
  ((randPool s).[randPoolGetPos s], mkPool (randPool s) (randPoolGetPos s + 1) (randPoolAddPos s) (randPoolKey s)).

(** The calls, with fuel for every iteration: at most one without progress
    before the first stirring, then a byte at least per iteration. *)
Definition add_bytes (b : list Z) (s : randpool) : randpool := randPoolAddBytes (S (S (length b))) b s.
Definition get_bytes (len : Z) (s : randpool) : list Z * randpool :=
  randPoolGetBytes (S (S (Z.to_nat len))) len s.

(** ** The invariant *)

Record pool_ok (s : randpool) : Prop := {
  po_len : Z.of_nat (length (randPool s)) = pool_size;
  po_bytes : Forall is_u8 (randPool s);
  po_get : key_size <= randPoolGetPos s <= pool_size;
  po_add : 0 <= randPoolAddPos s <= pool_size;
  po_key : length (randPoolKey s) = 16%nat /\ Forall is_u32 (randPoolKey s)
}.

Definition is_words (l : list Z) : Prop := Forall is_u32 l.

Lemma byte_word x : is_u8 x -> is_u32 x.
Proof. unfold is_u8, is_u32. lia. Qed.

Lemma pool_words_ok n p : length p = (4 * n)%nat -> Forall is_u8 p ->
  length (pool_words p) = n /\ is_words (pool_words p).
Proof.
  revert p. induction n as [|n IH]; intros p Hl Hp; [destruct p; [split; [reflexivity | constructor] | discriminate] |].
  destruct p as [|p0 [|p1 [|p2 [|p3 p]]]]; simpl length in Hl; try lia.
  repeat match goal with H : Forall _ (_ :: _) |- _ => apply Forall_cons_iff in H as [? H] end.
  destruct (IH p ltac:(lia) ltac:(assumption)) as [E W]. cbn [pool_words length]. split; [now rewrite E |].
  apply Forall_cons; [| exact W]. apply lor_word; [apply lor_word |]; [apply u32_range | | now apply byte_word].
  unfold is_u8, is_u32 in *. rewrite shiftl_mul by lia. lia.
Qed.

Lemma pool_bytes_ok w : length (pool_bytes w) = (4 * length w)%nat /\ Forall is_u8 (pool_bytes w).
Proof.
  induction w as [|t w [E B]]; [split; [reflexivity | constructor] |]. cbn [pool_bytes flat_map length].
  fold (pool_bytes w). split; [simpl length in *; lia |].
  repeat (apply Forall_cons; [apply u8_byte |]). exact B.
Qed.

Lemma stir_pass_ok key n iv w : length w = (4 * n)%nat -> is_words w -> digest4 iv ->
  let (w', iv') := stir_pass key iv w in length w' = length w /\ is_words w' /\ digest4 iv'.
Proof.
  revert iv w. induction n as [|n IH]; intros iv w Hl Hw Hi;
    [destruct w; [split; [reflexivity | split; [constructor | exact Hi]] | discriminate] |].
  destruct w as [|w0 [|w1 [|w2 [|w3 w]]]]; simpl length in Hl; try lia.
  unfold is_words in Hw. repeat match goal with H : Forall _ (_ :: _) |- _ => apply Forall_cons_iff in H as [? H] end.
  cbn [stir_pass]. pose proof (MD5Transform_words iv key) as [_ HM]. set (v := MD5Transform iv key) in *. clearbody v.
  assert (V : forall i, is_u32 v.[i]) by (intros; apply Forall_aget; [unfold is_u32; lia | exact HM]).
  set (iv' := [w0 .^ v.[0]; w1 .^ v.[1]; w2 .^ v.[2]; w3 .^ v.[3]]).
  assert (Hi' : digest4 iv').
  { split; [reflexivity |]. repeat (apply Forall_cons; [apply lxor_word; [assumption | apply V] |]). apply Forall_nil. }
  specialize (IH iv' w ltac:(lia) Hw Hi'). destruct (stir_pass key iv' w) as [w' last].
  destruct IH as (E & W & I). split; [rewrite length_app; simpl length in *; lia |].
  split; [apply Forall_app; split; [apply Hi' | exact W] | exact I].
Qed.

Lemma stir_positions s : randPoolAddPos (randPoolStir s) = 0 /\ randPoolGetPos (randPoolStir s) = key_size.
Proof. unfold randPoolStir. do 2 destruct (stir_pass _ _ _). split; reflexivity. Qed.

Lemma stir_ok s : pool_ok s -> pool_ok (randPoolStir s).
Proof.
  intros [Hl Hb _ _ _]. unfold randPoolStir.
  destruct (pool_words_ok 96 (randPool s)) as [Ew Hw]; [change pool_size with 384 in Hl; lia | exact Hb |].
  set (w := pool_words (randPool s)) in *. clearbody w.
  assert (Hi : digest4 (skipn (Z.to_nat (RANDPOOLWORDS - 4)) w)).
  { change (Z.to_nat (RANDPOOLWORDS - 4)) with 92%nat. split; [rewrite length_skipn; lia | now apply Forall_skipn]. }
  pose proof (stir_pass_ok (randPoolKey s) 24 _ w Ew Hw Hi) as H1.
  destruct (stir_pass (randPoolKey s) _ w) as [w1 iv1]. destruct H1 as (E1 & W1 & I1).
  pose proof (stir_pass_ok (firstn 16 w1) 24 iv1 w1 ltac:(lia) W1 I1) as H2.
  destruct (stir_pass (firstn 16 w1) iv1 w1) as [w2 iv2]. destruct H2 as (E2 & W2 & I2).
  destruct (pool_bytes_ok w2) as [Eb Hb2]. split; cbn [randPool randPoolGetPos randPoolAddPos randPoolKey].
  - rewrite Eb, E2, E1, Ew. reflexivity.
  - exact Hb2.
  - easy.
  - easy.
  - split; [rewrite length_firstn; lia | now apply Forall_firstn].
Qed.

(** ** Byte by byte *)

(** The deposit of one byte. *)
Definition add_byte (s : randpool) (b : Z) : randpool :=
  let s := if randPoolAddPos s =? pool_size then randPoolStir s else s in
  mkPool (xorbytes (randPool s) (randPoolAddPos s) [b]) pool_size (randPoolAddPos s + 1) (randPoolKey s).

(** [n] calls of [randPoolGetByte]. *)
Fixpoint get_each (n : nat) (s : randpool) : list Z * randpool :=
  match n with
  | O => ([], s)
  | S n' => let (b, s) := randPoolGetByte s in let (out, s) := get_each n' s in (b :: out, s)
  end.

Lemma xor_list_length d s : length (xor_list d s) = length d.
Proof. revert s. induction d as [|x d IH]; intros [|y s]; cbn; auto. Qed.

Lemma xorbytes_length d o s : length (xorbytes d o s) = length d.
Proof. unfold xorbytes. rewrite length_app, xor_list_length, length_firstn, length_skipn. lia. Qed.

Lemma xor_list_nil d : xor_list d [] = d.
Proof. now destruct d. Qed.

Lemma xorbytes_nil d o : xorbytes d o [] = d.
Proof. unfold xorbytes. rewrite xor_list_nil. apply firstn_skipn. Qed.

Lemma xorbytes_cons d o b s : 0 <= o < Z.of_nat (length d) ->
  xorbytes d o (b :: s) = xorbytes (xorbytes d o [b]) (o + 1) s.
Proof.
  intros Ho. unfold xorbytes. set (n := Z.to_nat o). replace (Z.to_nat (o + 1)) with (S n) by lia.
  rewrite (skipn_aget d n) by lia. cbn [xor_list]. rewrite xor_list_nil.
  assert (L : length (firstn n d) = n) by (rewrite length_firstn; lia). set (h := firstn n d) in *. clearbody h.
  set (x := d.[Z.of_nat n] .^ b). set (t := skipn (S n) d). clearbody x t.
  rewrite (firstn_past h t x n L), (skipn_past h t x n L), <- app_assoc. reflexivity.
Qed.

Lemma lxor_u8 a b : is_u8 a -> is_u8 b -> is_u8 (a .^ b).
Proof.
  unfold is_u8. intros Ha Hb. rewrite <- (Z.mod_small a (2 ^ 8)), <- (Z.mod_small b (2 ^ 8)) by lia.
  change (0 <= zext 8 a .^ zext 8 b < 2 ^ 8). rewrite <- zext_lxor by lia. apply zext_range. lia.
Qed.

Lemma xor_list_u8 d s : Forall is_u8 d -> Forall is_u8 s -> Forall is_u8 (xor_list d s).
Proof.
  intros Hd. revert s. induction Hd as [|x d Hx Hd IH]; intros s Hs; [constructor |].
  destruct Hs as [|y s Hy Hs]; [now constructor |]. constructor; [now apply lxor_u8 | now apply IH].
Qed.

Lemma xorbytes_u8 d o s : Forall is_u8 d -> Forall is_u8 s -> Forall is_u8 (xorbytes d o s).
Proof.
  intros Hd Hs. apply Forall_app. split; [now apply Forall_firstn |]. apply xor_list_u8; [now apply Forall_skipn | exact Hs].
Qed.

Lemma add_byte_ok s b : pool_ok s -> is_u8 b -> pool_ok (add_byte s b).
Proof.
  intros Hs Hb. unfold add_byte.
  assert (E : exists s1, (if randPoolAddPos s =? pool_size then randPoolStir s else s) = s1 /\ pool_ok s1 /\
    randPoolAddPos s1 < pool_size).
  { destruct (Z.eqb_spec (randPoolAddPos s) pool_size); eexists; split; try reflexivity.
    - split; [now apply stir_ok |]. now rewrite (proj1 (stir_positions s)).
    - split; [exact Hs |]. destruct Hs. lia. }
  destruct E as (s1 & -> & [Hl HB Hg Ha Hk] & Hlt). split; cbn [randPool randPoolGetPos randPoolAddPos randPoolKey]; auto.
  - now rewrite xorbytes_length.
  - apply xorbytes_u8; [exact HB | now constructor].
  - easy.
  - lia.
Qed.

Lemma add_byte_room s b : randPoolAddPos s <> pool_size -> add_byte s b =
  mkPool (xorbytes (randPool s) (randPoolAddPos s) [b]) pool_size (randPoolAddPos s + 1) (randPoolKey s).
Proof. intros H. unfold add_byte. now rewrite (proj2 (Z.eqb_neq _ _) H). Qed.

(** A full pool is stirred before the next byte. *)
Lemma add_byte_full s b : randPoolAddPos s = pool_size -> add_byte s b = add_byte (randPoolStir s) b.
Proof.
  intros H. unfold add_byte at 1. rewrite (proj2 (Z.eqb_eq _ _) H). symmetry. apply add_byte_room.
  now rewrite (proj1 (stir_positions s)).
Qed.

(** Bytes that fit before the end of the pool. *)
Lemma add_fill x s : Z.of_nat (length (randPool s)) = pool_size -> 0 <= randPoolAddPos s ->
  x <> [] -> randPoolAddPos s + Z.of_nat (length x) <= pool_size ->
  fold_left add_byte x s =
  mkPool (xorbytes (randPool s) (randPoolAddPos s) x) pool_size (randPoolAddPos s + Z.of_nat (length x)) (randPoolKey s).
Proof.
  intros Hl Ha Hx Hfit. destruct x as [|b x]; [easy |]. clear Hx. revert b s Hl Ha Hfit.
  induction x as [|b' x IH]; intros b s Hl Ha Hfit; simpl length in Hfit; [apply add_byte_room; lia |].
  change (fold_left add_byte (b :: b' :: x) s) with (fold_left add_byte (b' :: x) (add_byte s b)).
  rewrite add_byte_room by lia. rewrite IH; cbn [randPool randPoolAddPos randPoolKey].
  - rewrite <- xorbytes_cons by lia. f_equal. simpl length. lia.
  - now rewrite xorbytes_length.
  - lia.
  - simpl length. lia.
Qed.

Lemma add_loop fuel b s : pool_ok s -> Forall is_u8 b ->
  (length b + 1 < fuel)%nat \/ (length b < fuel)%nat /\ randPoolAddPos s < pool_size ->
  randPoolAddBytes fuel b s = fold_left add_byte b s.
Proof.
  revert b s. induction fuel as [|f IH]; intros b s Hs Hb Hf; [lia |]. pose proof Hs as [Hl HB Hg Ha Hk].
  cbn [randPoolAddBytes]. rewrite Z.gtb_ltb. set (t := pool_size - randPoolAddPos s).
  destruct (Z.ltb_spec t (Z.of_nat (length b))) as [Hlt | Hge].
  - set (s1 := set_pool _ s).
    assert (H1 : pool_ok s1).
    { split; cbn [s1 set_pool randPool randPoolGetPos randPoolAddPos randPoolKey]; auto;
        [now rewrite xorbytes_length |]. apply xorbytes_u8; [exact HB | now apply Forall_firstn]. }
    rewrite IH; [| now apply stir_ok | now apply Forall_skipn |].
    + rewrite <- (firstn_skipn (Z.to_nat t) b) at 2. rewrite fold_left_app.
      assert (E : exists s2, fold_left add_byte (firstn (Z.to_nat t) b) s = s2 /\ randPoolAddPos s2 = pool_size /\
                             randPoolStir s2 = randPoolStir s1).
      { destruct (Z.eq_dec t 0) as [E0 | N0].
        - rewrite E0. exists s. split; [reflexivity |]. split; [lia |]. unfold s1. rewrite E0. cbn [Z.to_nat firstn].
          rewrite xorbytes_nil. reflexivity.
        - rewrite add_fill; [| exact Hl | lia | | rewrite length_firstn; lia].
          + eexists. split; [reflexivity |]. cbn [randPoolAddPos]. rewrite length_firstn. split; [lia | reflexivity].
          + intros E. apply (f_equal (@length Z)) in E. rewrite length_firstn in E. simpl length in E. lia. }
      destruct E as (s2 & -> & Ep & Es).
      destruct (skipn (Z.to_nat t) b) as [|b0 y] eqn:Ey;
        [apply (f_equal (@length Z)) in Ey; rewrite length_skipn in Ey; simpl length in Ey; lia |].
      cbn [fold_left]. now rewrite (add_byte_full s2 b0 Ep), Es.
    + right. rewrite length_skipn, (proj1 (stir_positions s1)). change pool_size with 384. lia.
  - destruct b as [|b0 y]; [reflexivity |]. rewrite (proj2 (Z.eqb_neq _ 0)) by (simpl length; lia). cbn [negb].
    rewrite add_fill by (assumption || lia || easy). reflexivity.
Qed.

Lemma add_bytes_each b s : pool_ok s -> Forall is_u8 b -> add_bytes b s = fold_left add_byte b s.
Proof. intros Hs Hb. apply add_loop; [exact Hs | exact Hb | left; lia]. Qed.

Lemma add_bytes_ok b s : pool_ok s -> Forall is_u8 b -> pool_ok (add_bytes b s).
Proof.
  intros Hs Hb. rewrite add_bytes_each by assumption. revert s Hs.
  induction Hb as [|x b Hx Hb IH]; intros s Hs; [exact Hs |]. cbn [fold_left]. apply IH. now apply add_byte_ok.
Qed.

(** Bytes that are in the pool. *)
Lemma get_fill n s : randPoolGetPos s + Z.of_nat n <= pool_size -> 0 <= randPoolGetPos s ->
  Z.of_nat (length (randPool s)) = pool_size ->
  get_each n s = (firstn n (skipn (Z.to_nat (randPoolGetPos s)) (randPool s)),
    mkPool (randPool s) (randPoolGetPos s + Z.of_nat n) (randPoolAddPos s) (randPoolKey s)).
Proof.
  revert s. induction n as [|n IH]; intros s Hfit Hg Hl; [cbn; rewrite Z.add_0_r; now destruct s |].
  cbn [get_each]. unfold randPoolGetByte. rewrite (proj2 (Z.eqb_neq _ _)) by lia.
  rewrite IH; cbn [randPool randPoolGetPos randPoolAddPos randPoolKey]; [| lia..].
  rewrite (skipn_aget (randPool s) (Z.to_nat (randPoolGetPos s))) by lia. cbn [firstn].
  rewrite Z2Nat.id by lia. replace (Z.to_nat (randPoolGetPos s + 1)) with (S (Z.to_nat (randPoolGetPos s))) by lia.
  do 2 f_equal. lia.
Qed.

Lemma get_each_app m n s : get_each (m + n) s =
  let (a, s1) := get_each m s in let (b, s2) := get_each n s1 in (a ++ b, s2).
Proof.
  revert s. induction m as [|m IH]; intros s; [cbn; now destruct (get_each n s) |].
  cbn [Nat.add get_each]. destruct (randPoolGetByte s) as [x s']. rewrite IH.
  destruct (get_each m s') as [a s1], (get_each n s1) as [b s2]. reflexivity.
Qed.

(** An empty pool is stirred before the next byte. *)
Lemma get_byte_empty s : randPoolGetPos s = pool_size -> randPoolGetByte s = randPoolGetByte (randPoolStir s).
Proof.
  intros H. unfold randPoolGetByte at 1. rewrite (proj2 (Z.eqb_eq _ _) H).
  unfold randPoolGetByte. rewrite (proj2 (Z.eqb_neq (randPoolGetPos (randPoolStir s)) pool_size)); [reflexivity |].
  now rewrite (proj2 (stir_positions s)).
Qed.

Lemma get_each_empty n s : randPoolGetPos s = pool_size ->
  get_each (S n) s = get_each (S n) (randPoolStir s).
Proof. intros H. cbn [get_each]. now rewrite get_byte_empty. Qed.

Lemma stir_same_pool g s : randPoolStir (mkPool (randPool s) g (randPoolAddPos s) (randPoolKey s)) = randPoolStir s.
Proof. reflexivity. Qed.

Lemma get_loop fuel len s : pool_ok s -> 0 <= len ->
  (Z.to_nat len + 1 < fuel)%nat \/ (Z.to_nat len < fuel)%nat /\ randPoolGetPos s < pool_size ->
  randPoolGetBytes fuel len s = get_each (Z.to_nat len) s.
Proof.
  revert len s. induction fuel as [|f IH]; intros len s Hs Hlen Hf; [lia |]. pose proof Hs as [Hl HB Hg Ha Hk].
  change key_size with 64 in Hg.
  cbn [randPoolGetBytes]. rewrite Z.gtb_ltb. set (t := pool_size - randPoolGetPos s).
  destruct (Z.ltb_spec t len) as [Hlt | Hge].
  - rewrite IH; [| now apply stir_ok | lia |].
    + replace (Z.to_nat len) with (Z.to_nat t + S (Z.to_nat (len - t) - 1))%nat by lia.
      rewrite get_each_app, (get_fill (Z.to_nat t) s) by (assumption || lia). rewrite get_each_empty by (cbn [randPoolGetPos]; lia).
      rewrite stir_same_pool. now replace (S (Z.to_nat (len - t) - 1)) with (Z.to_nat (len - t)) by lia.
    + right. rewrite (proj2 (stir_positions s)). change key_size with 64. change pool_size with 384. lia.
  - destruct (Z.eqb_spec len 0) as [-> | N]; [reflexivity |]. cbn [negb].
    rewrite get_fill by (assumption || lia). now rewrite Z2Nat.id by lia.
Qed.

Lemma get_bytes_each len s : pool_ok s -> 0 <= len -> get_bytes len s = get_each (Z.to_nat len) s.
Proof. intros Hs Hlen. apply get_loop; [exact Hs | exact Hlen | left; lia]. Qed.

Lemma get_byte_ok s : pool_ok s -> let (b, s') := randPoolGetByte s in is_u8 b /\ pool_ok s'.
Proof.
  intros Hs. unfold randPoolGetByte.
  assert (E : exists s1, (if randPoolGetPos s =? pool_size then randPoolStir s else s) = s1 /\ pool_ok s1 /\
    randPoolGetPos s1 < pool_size).
  { destruct (Z.eqb_spec (randPoolGetPos s) pool_size); eexists; split; try reflexivity.
    - split; [now apply stir_ok |]. now rewrite (proj2 (stir_positions s)).
    - split; [exact Hs |]. destruct Hs. lia. }
  destruct E as (s1 & -> & [Hl HB Hg Ha Hk] & Hlt). change key_size with 64 in *. split.
  - apply Forall_aget; [unfold is_u8; lia | exact HB].
  - split; cbn [randPool randPoolGetPos randPoolAddPos randPoolKey]; auto. change key_size with 64. lia.
Qed.

Lemma get_each_ok n s : pool_ok s ->
  let (out, s') := get_each n s in length out = n /\ Forall is_u8 out /\ pool_ok s'.
Proof.
  revert s. induction n as [|n IH]; intros s Hs; [cbn; auto |]. cbn [get_each].
  pose proof (get_byte_ok s Hs) as Hb. destruct (randPoolGetByte s) as [b s1]. destruct Hb as [Hb H1].
  specialize (IH s1 H1). destruct (get_each n s1) as [out s2]. destruct IH as (E & F & H2).
  split; [cbn; now rewrite E | split; [now constructor | exact H2]].
Qed.

Lemma initial_pool_ok : pool_ok initial_pool.
Proof.
  split; [reflexivity | | easy | easy | split; [reflexivity |]]; apply Forall_forall;
    intros x Hx; apply repeat_spec in Hx; subst; unfold is_u8, is_u32; lia.
Qed.

(** ** Sequences of calls *)

Inductive pool_op := Add (b : list Z) | Get (len : Z) | GetByte | Stir.

(** One call; the bytes it hands out. *)
Definition pool_step (o : pool_op) (s : randpool) : list Z * randpool :=
  match o with
  | Add b => ([], add_bytes b s)
  | Get len => get_bytes len s
  | GetByte => let (b, s) := randPoolGetByte s in ([b], s)
  | Stir => ([], randPoolStir s)
  end.

Fixpoint pool_run (ops : list pool_op) (s : randpool) : list Z * randpool :=
  match ops with
  | [] => ([], s)
  | o :: ops' => let (a, s) := pool_step o s in let (b, s) := pool_run ops' s in (a ++ b, s)
  end.

(** The same with the bytes moved one at a time. *)
Definition byte_step (o : pool_op) (s : randpool) : list Z * randpool :=
  match o with
  | Add b => ([], fold_left add_byte b s)
  | Get len => get_each (Z.to_nat len) s
  | GetByte => get_each 1 s
  | Stir => ([], randPoolStir s)
  end.

Fixpoint byte_run (ops : list pool_op) (s : randpool) : list Z * randpool :=
  match ops with
  | [] => ([], s)
  | o :: ops' => let (a, s) := byte_step o s in let (b, s) := byte_run ops' s in (a ++ b, s)
  end.

(** The bytes asked for. *)
Definition asked (o : pool_op) : Z := match o with Get len => len | GetByte => 1 | _ => 0 end.

Definition op_ok (o : pool_op) : Prop :=
  match o with Add b => Forall is_u8 b | Get len => 0 <= len | _ => True end.

Lemma pool_step_ok o s : pool_ok s -> op_ok o ->
  let (out, s') := pool_step o s in
  pool_ok s' /\ Forall is_u8 out /\ Z.of_nat (length out) = asked o /\ byte_step o s = (out, s').
Proof.
  intros Hs Ho. destruct o as [b | len | |]; cbn [pool_step byte_step asked op_ok] in *.
  - rewrite add_bytes_each by assumption. rewrite <- add_bytes_each by assumption.
    split; [now apply add_bytes_ok | auto].
  - rewrite get_bytes_each by assumption. pose proof (get_each_ok (Z.to_nat len) s Hs) as H.
    destruct (get_each (Z.to_nat len) s) as [out s']. destruct H as (E & F & P). split; [exact P |]. split; [exact F |].
    split; [lia | reflexivity].
  - pose proof (get_byte_ok s Hs) as H. cbn [get_each]. destruct (randPoolGetByte s) as [b s']. destruct H as [F P].
    split; [exact P |]. split; [now constructor |]. split; reflexivity.
  - split; [now apply stir_ok | auto].
Qed.

(** C38. From its initial state, whatever the calls of [randPoolAddBytes],
    [randPoolGetBytes], [randPoolGetByte] and [randPoolStir] and their lengths, the
    pool keeps its 384 bytes, its deposit position stays within it and its
    withdrawal position stays behind the 64 bytes that become the key, so that no
    byte of the key is handed out; exactly the bytes asked for are delivered; and
    bytes and pool are what moving the bytes one at a time gives. *)
Theorem randpool_bytewise ops (Hops : Forall op_ok ops) :
  let (out, s) := pool_run ops initial_pool in
  Z.of_nat (length (randPool s)) = 384 /\ Forall is_u8 (randPool s) /\
  64 <= randPoolGetPos s <= 384 /\ 0 <= randPoolAddPos s <= 384 /\
  Forall is_u8 out /\ Z.of_nat (length out) = fold_right Z.add 0 (map asked ops) /\
  byte_run ops initial_pool = (out, s).
Proof.
  enough (G : forall s0, pool_ok s0 -> let (out, s) := pool_run ops s0 in
    pool_ok s /\ Forall is_u8 out /\ Z.of_nat (length out) = fold_right Z.add 0 (map asked ops) /\
    byte_run ops s0 = (out, s)).
  { specialize (G _ initial_pool_ok). destruct (pool_run ops initial_pool) as [out s].
    destruct G as ([Hl HB Hg Ha _] & Hout & El & Eb). auto 10. }
  induction Hops as [|o ops Ho Hops IH]; intros s0 H0; [cbn; auto |]. cbn [pool_run byte_run map fold_right].
  pose proof (pool_step_ok o s0 H0 Ho) as H1. destruct (pool_step o s0) as [a s1]. destruct H1 as (P1 & A1 & L1 & ->).
  specialize (IH s1 P1). destruct (pool_run ops s1) as [b s2]. destruct IH as (P2 & A2 & L2 & ->).
  split; [exact P2 |]. split; [now apply Forall_app |]. split; [rewrite length_app; lia | reflexivity].
Qed.

Lemma randpool_bytewise_witness :
  let ops := [Add [1; 2; 255]; Get 5; GetByte; Add [7]; Stir; Get 330] in
  Forall op_ok ops /\ Z.of_nat (length (fst (pool_run ops initial_pool))) = 336.
Proof.
  intros ops. assert (H : Forall op_ok ops).
  { unfold ops. repeat (apply Forall_cons; cbn [op_ok]); try apply Forall_nil;
      repeat (apply Forall_cons || apply Forall_nil); unfold is_u8; lia || exact I. }
  split; [exact H |]. pose proof (randpool_bytewise ops H) as T. destruct (pool_run ops initial_pool) as [out s].
  apply T.
Defined.
