(* ===== verification/PgpCfb.v ===== *)
(** * PGP: IDEA in cipher feedback mode, and the generator of session keys

    Models the second half of [security/pgp/src/idea.c]: the CFB encryption of
    buffers, which keeps a partly used block between calls and resynchronises on
    the boundaries of fields, and the pseudo-random generator of ANSI X9.17 that
    draws its time stamps from the pool of random bytes.

    [Feedback] is the mode as the comment in [idea.c] explains it, one byte at a
    time on a shift register of the last eight bytes of ciphertext. *)

From Stdlib Require Import ZArith Lia List Bool.
From S2P Require Import Prelude Sha PgpMd5 PgpIdea PgpRandPool.
Import ListNotations.

(** ** Cipher feedback *)

Record IdeaCfbContext := mkCfb {
  oldcipher : list Z;
  iv : list Z;
  cfb_key : list Z;
  bufleft : Z
}.

Definition set_iv (v : list Z) (c : IdeaCfbContext) : IdeaCfbContext :=
  mkCfb (oldcipher c) v (cfb_key c) (bufleft c).

(** [v] is [None] for a null pointer. *)
Definition ideaCfbReinit (v : option (list Z)) (c : IdeaCfbContext) : IdeaCfbContext :=
  mkCfb (oldcipher c) (match v with Some v => firstn 8 v | None => repeat 0 8 end) (cfb_key c) 0.

Definition ideaCfbInit (key : list Z) (c : IdeaCfbContext) : IdeaCfbContext :=
  ideaCfbReinit None (mkCfb (oldcipher c) (iv c) (ideaExpandKey key) (bufleft c)).

Definition ideaCfbDestroy (_ : IdeaCfbContext) : IdeaCfbContext :=
  mkCfb (repeat 0 8) (repeat 0 8) (repeat 0 (Z.to_nat IDEAKEYLEN)) 0.

Definition ideaCfbSync (c : IdeaCfbContext) : IdeaCfbContext :=
  let b := bufleft c in
  if negb (b =? 0) then
    mkCfb (oldcipher c)
      (firstn (Z.to_nat b) (skipn (Z.to_nat (8 - b)) (oldcipher c)) ++ firstn (Z.to_nat (8 - b)) (iv c))
      (cfb_key c) 0
  else c.

(** What is done with a byte [t] of the buffer and a byte [x] of the source: the
    byte delivered, and the byte left in the buffer.  Encryption stores the sum
    in both. *)
Definition enc_byte (t x : Z) : Z * Z := (t .^ x, t .^ x).

(** Decryption delivers the sum and keeps the source byte. *)
Definition dec_byte (t x : Z) : Z * Z := (t .^ x, x).

(** The loops over bytes, from [iv[o]] on; the bytes delivered and [iv]. *)
Fixpoint cfb_bytes (op : Z -> Z -> Z * Z) (o : Z) (src v : list Z) : list Z * list Z :=
  match src with
  | [] => ([], v)
  | x :: src' =>
      let (d, n) := op v.[o] x in
      let (out, v) := cfb_bytes op (o + 1) src' (aset v o n) in
      (d :: out, v)
  end.

(** [memcpy(context->oldcipher, bufptr, 8); ideaCipher(bufptr, bufptr, context->key)] *)
Definition crank (c : IdeaCfbContext) : IdeaCfbContext :=
  mkCfb (iv c) (ideaCipher (iv c) (cfb_key c)) (cfb_key c) (bufleft c).

(** [while (count > 8)]; the bytes delivered, those that are left, the context. *)
Fixpoint cfb_blocks (op : Z -> Z -> Z * Z) (fuel : nat) (src : list Z) (c : IdeaCfbContext) :
  list Z * list Z * IdeaCfbContext :=
  match fuel with
  | O => ([], src, c)
  | S f =>
      if Z.of_nat (length src) >? 8 then
        let c := crank c in
        let (d, v) := cfb_bytes op 0 (firstn 8 src) (iv c) in
        let '(out, rest, c) := cfb_blocks op f (skipn 8 src) (set_iv v c) in
        (d ++ out, rest, c)
      else ([], src, c)
  end.

(** The body of the two functions, [count] bytes at [src]. *)
Definition cfb_buffer (op : Z -> Z -> Z * Z) (src : list Z) (c : IdeaCfbContext) : list Z * IdeaCfbContext :=
  let b := bufleft c in
  let count := Z.of_nat (length src) in
  if count <=? b then
    let (out, v) := cfb_bytes op (8 - b) src (iv c) in
    (out, mkCfb (oldcipher c) v (cfb_key c) (b - count))
  else
    let (out1, v) := cfb_bytes op (8 - b) (firstn (Z.to_nat b) src) (iv c) in
    let '(out2, src, c) := cfb_blocks op (length src) (skipn (Z.to_nat b) src) (set_iv v c) in
    let count := Z.of_nat (length src) in
    let c := crank c in
    let (out3, v) := cfb_bytes op 0 src (iv c) in
    (out1 ++ out2 ++ out3, mkCfb (oldcipher c) v (cfb_key c) (8 - count)).

Definition ideaCfbEncrypt : list Z -> IdeaCfbContext -> list Z * IdeaCfbContext := cfb_buffer enc_byte.
Definition ideaCfbDecrypt : list Z -> IdeaCfbContext -> list Z * IdeaCfbContext := cfb_buffer dec_byte.

(** ** The generator *)

Record IdeaRandContext := mkRand {
  outbuf : list Z;
  rand_key : list Z;
  rand_bufleft : Z;
  internalbuf : list Z
}.

Definition ideaRandInit (key seed : list Z) (c : IdeaRandContext) : IdeaRandContext :=
  mkRand (outbuf c) (ideaExpandKey key) 0 (firstn 8 seed).

(** [key] and [seed] *)
Definition ideaRandState (c : IdeaRandContext) : list Z * list Z :=
  (for_range 0 8 (fun i key => aset (aset key (2 * i) (u8 ((rand_key c).[i] >> 8))) (2 * i + 1) (u8 (rand_key c).[i]))
     (repeat 0 16),
   firstn 8 (internalbuf c)).

Definition ideaRandWash (c : IdeaRandContext) (cfb : IdeaCfbContext) : IdeaRandContext * IdeaCfbContext :=
  let (key, seed) := ideaRandState c in
  let (keyseed, cfb) := ideaCfbEncrypt (key ++ seed) cfb in
  (ideaRandInit (firstn 16 keyseed) (skipn 16 keyseed) c, cfb).

(** [for (i = 0; i < 8; i++) d[i] = a[i] ^ b[i]] *)
Definition xor8 (d a b : list Z) : list Z := for_range 0 8 (fun i d => aset d i (a.[i] .^ b.[i])) d.

Definition ideaRandByte (c : IdeaRandContext) (pool : randpool) : Z * IdeaRandContext * randpool :=
  let (c, pool) :=
    if rand_bufleft c =? 0 then
      let (timestamp, pool) := get_bytes 8 pool in
      let out := xor8 (outbuf c) (internalbuf c) timestamp in
      let out := ideaCipher out (rand_key c) in
      let int := xor8 (internalbuf c) out timestamp in
      let int := ideaCipher int (rand_key c) in
      (mkRand out (rand_key c) 8 int, pool)
    else (c, pool) in
  let left := rand_bufleft c - 1 in
  ((outbuf c).[left], mkRand (outbuf c) (rand_key c) left (internalbuf c), pool).

(** ** Specification: feedback byte by byte *)

Module Feedback.

(** The last eight bytes of ciphertext, and what is left of the mask. *)
Definition state : Type := (list Z * list Z)%type.

(** One byte: when the mask is used up, the cipher makes a new one from the
    register.  The byte is the sum with the first byte of the mask; the byte of
    ciphertext enters the register. *)
Definition step (E : list Z -> list Z) (op : Z -> Z -> Z * Z) (s : state) (x : Z) : Z * state :=
  let (reg, mask) := s in
  let mask := match mask with [] => E reg | _ => mask end in
  let (d, n) := op (hd 0 mask) x in
  (d, (tl reg ++ [n], tl mask)).

Fixpoint run (E : list Z -> list Z) (op : Z -> Z -> Z * Z) (src : list Z) (s : state) : list Z * state :=
  match src with
  | [] => ([], s)
  | x :: src' =>
      let (d, s) := step E op s x in
      let (out, s) := run E op src' s in
      (d :: out, s)
  end.

(** Fields, each with a fresh mask; the fields delivered and the register. *)
Fixpoint fields (E : list Z -> list Z) (op : Z -> Z -> Z * Z) (l : list (list Z)) (reg : list Z) :
  list (list Z) * list Z :=
  match l with
  | [] => ([], reg)
  | f :: l' =>
      let '(out, (reg, _)) := run E op f (reg, []) in
      let (outs, reg) := fields E op l' reg in
      (out :: outs, reg)
  end.

End Feedback.

(** Calls of [ideaCfbEncrypt] or [ideaCfbDecrypt] on the pieces of a field. *)
Fixpoint cfb_calls (f : list Z -> IdeaCfbContext -> list Z * IdeaCfbContext) (pieces : list (list Z))
  (c : IdeaCfbContext) : list Z * IdeaCfbContext :=
  match pieces with
  | [] => ([], c)
  | p :: pieces' => let (out, c) := f p c in let (out', c) := cfb_calls f pieces' c in (out ++ out', c)
  end.

(** Fields, each followed by [ideaCfbSync]. *)
Fixpoint cfb_fields (f : list Z -> IdeaCfbContext -> list Z * IdeaCfbContext) (l : list (list (list Z)))
  (c : IdeaCfbContext) : list (list Z) * IdeaCfbContext :=
  match l with
  | [] => ([], c)
  | ps :: l' =>
      let (out, c) := cfb_calls f ps c in
      let (outs, c) := cfb_fields f l' (ideaCfbSync c) in
      (out :: outs, c)
  end.

(** ** Refinement *)

#[local] Opaque ideaCipher ideaExpandKey.

(** The context with [b] bytes left holds the register and the mask. *)
Record rep (c : IdeaCfbContext) (s : Feedback.state) : Prop := {
  rep_old : length (oldcipher c) = 8%nat;
  rep_iv : length (iv c) = 8%nat;
  rep_left : 0 <= bufleft c <= 8;
  rep_reg : fst s = skipn (Z.to_nat (8 - bufleft c)) (oldcipher c) ++ firstn (Z.to_nat (8 - bufleft c)) (iv c);
  rep_mask : snd s = skipn (Z.to_nat (8 - bufleft c)) (iv c)
}.

Lemma cipher_length b key : length (ideaCipher b key) = 8%nat.
Proof.
  Transparent ideaCipher. unfold ideaCipher. destruct (for_range _ _ _ _) as [[[x1 x2] x3] x4]. reflexivity.
Qed.

Lemma cipher_u8 b key : Forall is_u8 (ideaCipher b key).
Proof.
  unfold ideaCipher. destruct (for_range _ _ _ _) as [[[x1 x2] x3] x4]. rewrite !store_word.
  assert (B : forall x, is_u8 (low16 x / 256) /\ is_u8 (low16 x mod 256)).
  { intros x. pose proof (low16_range x) as H. unfold is_u16, is_u8 in *. split; [| apply Z.mod_pos_bound; lia].
    split; [apply Z.div_pos; lia | apply Z.div_lt_upper_bound; lia]. }
  repeat (apply Forall_cons; [apply B |]). apply Forall_nil.
Qed.

#[local] Opaque ideaCipher ideaExpandKey.

Lemma run_app E op a b s : Feedback.run E op (a ++ b) s =
  let (x, s1) := Feedback.run E op a s in let (y, s2) := Feedback.run E op b s1 in (x ++ y, s2).
Proof.
  revert s. induction a as [|x a IH]; intros s; [cbn; now destruct (Feedback.run E op b s) |].
  cbn [app Feedback.run]. destruct (Feedback.step E op s x) as [d s1]. rewrite IH.
  destruct (Feedback.run E op a s1) as [u s2], (Feedback.run E op b s2) as [w s3]. reflexivity.
Qed.

(** The loop over bytes, within the block. *)
Lemma bytes_run E op old src v n : length old = 8%nat -> length v = 8%nat -> (n + length src <= 8)%nat ->
  exists out v', cfb_bytes op (Z.of_nat n) src v = (out, v') /\ length v' = 8%nat /\
    Feedback.run E op src (skipn n old ++ firstn n v, skipn n v)
    = (out, (skipn (n + length src) old ++ firstn (n + length src) v', skipn (n + length src) v')).
Proof.
  intros Ho. revert v n. induction src as [|x src IH]; intros v n Hv Hn; simpl length in Hn.
  { exists [], v. rewrite Nat.add_0_r. auto. }
  cbn [cfb_bytes Feedback.run length]. rewrite (skipn_aget v n) by lia. unfold Feedback.step. cbn [hd tl].
  destruct (op v.[Z.of_nat n] x) as [d m]. rewrite (skipn_aget old n) by lia. cbn [app tl].
  replace (Z.of_nat n + 1) with (Z.of_nat (S n)) by lia.
  destruct (IH (aset v (Z.of_nat n) m) (S n)) as (out & v' & -> & Hv' & R); [now rewrite aset_length | lia |].
  exists (d :: out), v'. split; [reflexivity |]. split; [exact Hv' |].
  unfold aset in R. rewrite Nat2Z.id, upd_split in R by lia.
  assert (L : length (firstn n v) = n) by (rewrite length_firstn; lia).
  cbn [app] in R. rewrite (firstn_past _ _ m n L), (skipn_past _ _ m n L) in R.
  rewrite <- app_assoc. rewrite R. now replace (S n + length src)%nat with (n + S (length src))%nat by lia.
Qed.

(** The cipher is cranked when the mask is used up, not before. *)
Lemma run_crank E op src reg : src <> [] -> E reg <> [] ->
  Feedback.run E op src (reg, []) = Feedback.run E op src (reg, E reg).
Proof. intros Hs HE. destruct src; [easy |]. cbn [Feedback.run Feedback.step]. now destruct (E reg). Qed.

Section Buffers.

Variables (op : Z -> Z -> Z * Z) (key : list Z).

Let E (b : list Z) : list Z := ideaCipher b key.

(** Up to eight bytes after a crank. *)
Lemma block_run src c : cfb_key c = key -> length (iv c) = 8%nat -> (1 <= length src <= 8)%nat ->
  exists out v, cfb_bytes op 0 src (iv (crank c)) = (out, v) /\ length v = 8%nat /\
    Feedback.run E op src (iv c, [])
    = (out, (skipn (length src) (iv c) ++ firstn (length src) v, skipn (length src) v)).
Proof.
  intros Hk Hv Hl.
  destruct (bytes_run E op (iv c) src (iv (crank c)) 0 Hv) as (out & v & R & Hv' & R'); [apply cipher_length | lia |].
  exists out, v. split; [exact R |]. split; [exact Hv' |]. rewrite run_crank.
  - cbn [crank iv] in R'. rewrite Hk in R'. cbn [skipn firstn Nat.add] in R'. rewrite app_nil_r in R'. exact R'.
  - intros ->. simpl in Hl. lia.
  - intros N. pose proof (cipher_length (iv c) key) as L. unfold E in N. now rewrite N in L.
Qed.

Lemma blocks_run fuel src c : (length src <= fuel)%nat -> cfb_key c = key ->
  length (oldcipher c) = 8%nat -> length (iv c) = 8%nat ->
  exists out mid rest c', cfb_blocks op fuel src c = (out, rest, c') /\ src = mid ++ rest /\
    (length rest <= 8)%nat /\ (src <> [] -> rest <> []) /\
    cfb_key c' = key /\ length (oldcipher c') = 8%nat /\ length (iv c') = 8%nat /\
    Feedback.run E op mid (iv c, []) = (out, (iv c', [])).
Proof.
  revert src c. induction fuel as [|f IH]; intros src c Hf Hk Ho Hv; cbn [cfb_blocks].
  { exists [], [], src, c. destruct src; [| simpl in Hf; lia]. cbn. repeat (split; [now auto || lia |]). reflexivity. }
  rewrite Z.gtb_ltb. destruct (Z.ltb_spec 8 (Z.of_nat (length src))) as [G | L].
  2: { exists [], [], src, c. repeat (split; [now auto || lia |]). reflexivity. }
  destruct (block_run (firstn 8 src) c Hk Hv) as (d & v & -> & Hv' & R); [rewrite length_firstn; lia |].
  rewrite length_firstn, Nat.min_l, !skipn_all2, (firstn_all2 v) in R by lia. cbn [app] in R.
  destruct (IH (skipn 8 src) (set_iv v (crank c))) as (out & mid & rest & c' & -> & Hs & Hr & Hn & K & O & V & R').
  - rewrite length_skipn. lia.
  - exact Hk.
  - exact Hv.
  - exact Hv'.
  - exists (d ++ out), (firstn 8 src ++ mid), rest, c'. split; [reflexivity |].
    split; [rewrite <- app_assoc, <- Hs; symmetry; apply firstn_skipn |]. split; [exact Hr |].
    split; [intros _; apply Hn; intros N; apply (f_equal (@length Z)) in N; rewrite length_skipn in N; simpl in N; lia |].
    repeat (split; [assumption |]). rewrite run_app, R. cbn [iv set_iv] in R'. now rewrite R'.
Qed.

Lemma buffer_run src c s : rep c s -> cfb_key c = key ->
  exists out c' s', cfb_buffer op src c = (out, c') /\ cfb_key c' = key /\
    Feedback.run E op src s = (out, s') /\ rep c' s'.
Proof.
  intros [Ho Hv Hb Hr Hm] Hk. destruct s as [reg mask]. cbn [fst snd] in *. subst reg mask.
  unfold cfb_buffer. set (n := Z.to_nat (8 - bufleft c)) in *. replace (8 - bufleft c) with (Z.of_nat n) by lia.
  destruct (Z.leb_spec (Z.of_nat (length src)) (bufleft c)) as [L | G].
  - destruct (bytes_run E op (oldcipher c) src (iv c) n Ho Hv) as (out & v & -> & Hv' & R); [lia |].
    eexists out, _, _. split; [reflexivity |]. split; [exact Hk |]. split; [exact R |].
    split; cbn [oldcipher iv bufleft fst snd]; auto; try lia;
      now replace (Z.to_nat (8 - (bufleft c - Z.of_nat (length src)))) with (n + length src)%nat by lia.
  - set (m := Z.to_nat (bufleft c)).
    assert (Hm : length (firstn m src) = m) by (rewrite length_firstn; lia).
    destruct (bytes_run E op (oldcipher c) (firstn m src) (iv c) n Ho Hv) as (out1 & v & -> & Hv' & R1); [lia |].
    rewrite Hm in R1. replace (n + m)%nat with 8%nat in R1 by lia.
    rewrite !(skipn_all2 (n := 8)), (firstn_all2 v) in R1 by lia. cbn [app] in R1.
    destruct (blocks_run (length src) (skipn m src) (set_iv v c)) as (out2 & mid & rest & c2 & -> & Hs & Hl & Hn & K & O & V & R2);
      [rewrite length_skipn; lia | exact Hk | exact Ho | exact Hv' |].
    assert (Hne : rest <> []).
    { apply Hn. intros N. apply (f_equal (@length Z)) in N. rewrite length_skipn in N. simpl in N. lia. }
    destruct (block_run rest c2 K V) as (out3 & v3 & -> & Hv3 & R3); [destruct rest; [easy | simpl in *; lia] |].
    eexists (out1 ++ out2 ++ out3), _, _. split; [reflexivity |]. split; [exact K |]. split.
    + rewrite <- (firstn_skipn m src), Hs, !run_app, R1. cbn [iv set_iv] in R2. rewrite run_app, R2, R3. reflexivity.
    + split; cbn [oldcipher iv bufleft fst snd crank]; auto; try lia;
        replace (8 - (8 - Z.of_nat (length rest))) with (Z.of_nat (length rest)) by lia; now rewrite Nat2Z.id.
Qed.

End Buffers.

Section Fields.

Variables (op : Z -> Z -> Z * Z) (key : list Z).

Let E (b : list Z) : list Z := ideaCipher b key.

(** However a field is cut into calls. *)
Lemma calls_run pieces c s : rep c s -> cfb_key c = key ->
  exists out c' s', cfb_calls (cfb_buffer op) pieces c = (out, c') /\ cfb_key c' = key /\
    Feedback.run E op (concat pieces) s = (out, s') /\ rep c' s'.
Proof.
  revert c s. induction pieces as [|p ps IH]; intros c s Hr Hk; cbn [cfb_calls concat Feedback.run].
  { exists [], c, s. auto. }
  destruct (buffer_run op key p c s Hr Hk) as (out & c1 & s1 & -> & K1 & R1 & Hr1).
  destruct (IH c1 s1 Hr1 K1) as (out2 & c2 & s2 & -> & K2 & R2 & Hr2).
  exists (out ++ out2), c2, s2. split; [reflexivity |]. split; [exact K2 |]. split; [| exact Hr2].
  rewrite run_app. unfold E in *. now rewrite R1, R2.
Qed.

(** Resynchronisation moves the last eight bytes of ciphertext into [iv]. *)
Lemma sync_rep c s : rep c s -> cfb_key c = key ->
  rep (ideaCfbSync c) (fst s, []) /\ iv (ideaCfbSync c) = fst s /\ bufleft (ideaCfbSync c) = 0 /\
  cfb_key (ideaCfbSync c) = key.
Proof.
  intros [Ho Hv Hb Hr _] Hk. enough (G : iv (ideaCfbSync c) = fst s /\ bufleft (ideaCfbSync c) = 0 /\
    cfb_key (ideaCfbSync c) = key /\ oldcipher (ideaCfbSync c) = oldcipher c /\ length (fst s) = 8%nat).
  { destruct G as (Ei & Eb & Ek & Eo & El). split; [| auto]. rewrite <- Ei in *.
    split; rewrite ?Eo, ?Eb; cbn [fst snd]; auto; try lia;
      change (Z.to_nat (8 - 0)) with 8%nat; rewrite !(skipn_all2 (n := 8)) by lia; [| reflexivity].
    cbn [app]. now rewrite firstn_all2 by lia. }
  assert (L : length (fst s) = 8%nat) by (rewrite Hr, length_app, length_skipn, length_firstn; lia).
  unfold ideaCfbSync. destruct (Z.eqb_spec (bufleft c) 0) as [E0 | N0]; cbn [negb iv bufleft cfb_key oldcipher].
  - rewrite E0 in Hr. change (Z.to_nat (8 - 0)) with 8%nat in Hr.
    rewrite skipn_all2, firstn_all2 in Hr by lia. auto.
  - rewrite firstn_all2 by (rewrite length_skipn; lia). auto.
Qed.

Lemma fields_run l c reg : rep c (reg, []) -> cfb_key c = key ->
  exists outs c' reg', cfb_fields (cfb_buffer op) l c = (outs, c') /\
    Feedback.fields E op (map (@concat Z) l) reg = (outs, reg') /\
    (l <> [] \/ iv c = reg /\ bufleft c = 0 -> iv c' = reg' /\ bufleft c' = 0).
Proof.
  revert c reg. induction l as [|ps l IH]; intros c reg Hr Hk; cbn [cfb_fields map Feedback.fields].
  { exists [], c, reg. split; [reflexivity |]. split; [reflexivity |]. now intros [|]. }
  destruct (calls_run ps c (reg, []) Hr Hk) as (out & c1 & [reg1 mask1] & -> & K1 & -> & Hr1).
  destruct (sync_rep c1 (reg1, mask1) Hr1 K1) as (Hr2 & Ei & Eb & K2). cbn [fst] in *.
  destruct (IH (ideaCfbSync c1) reg1 Hr2 K2) as (outs & c' & reg' & -> & -> & Hend).
  exists (out :: outs), c', reg'. split; [reflexivity |]. split; [reflexivity |]. intros _. apply Hend. auto.
Qed.

End Fields.

(** A context that is ready to work on the first field. *)
Definition cfb_start (key v : list Z) (c : IdeaCfbContext) : IdeaCfbContext :=
  ideaCfbReinit (Some v) (ideaCfbInit key c).

Lemma cfb_start_rep key v c : length (oldcipher c) = 8%nat -> length v = 8%nat ->
  rep (cfb_start key v c) (v, []) /\ cfb_key (cfb_start key v c) = ideaExpandKey key /\
  iv (cfb_start key v c) = v /\ bufleft (cfb_start key v c) = 0.
Proof.
  intros Ho Hv. unfold cfb_start, ideaCfbInit, ideaCfbReinit. cbn [oldcipher iv cfb_key bufleft].
  assert (F : firstn 8 v = v) by (apply firstn_all2; lia). rewrite F. split; [| auto].
  split; cbn [oldcipher iv cfb_key bufleft fst snd]; try assumption; try lia; change (Z.to_nat (8 - 0)) with 8%nat.
  - rewrite skipn_all2, F by lia. reflexivity.
  - now rewrite skipn_all2 by lia.
Qed.

Lemma start_fields op key v l c : length (oldcipher c) = 8%nat -> length v = 8%nat ->
  exists outs c' reg, cfb_fields (cfb_buffer op) l (cfb_start key v c) = (outs, c') /\
    Feedback.fields (fun b => ideaCipher b (ideaExpandKey key)) op (map (@concat Z) l) v = (outs, reg) /\
    iv c' = reg /\ bufleft c' = 0.
Proof.
  intros Ho Hv. destruct (cfb_start_rep key v c Ho Hv) as (Hr & Hk & Ei & Eb).
  destruct (fields_run op (ideaExpandKey key) l _ v Hr Hk) as (outs & c' & reg & R & F & Hend).
  exists outs, c', reg. split; [exact R |]. split; [exact F |]. apply Hend. auto.
Qed.

(** ** The cipher of the mode *)

Definition block_ok (b : list Z) : Prop := length b = 8%nat /\ Forall is_u8 b.

(** What encryption delivers. *)
Lemma run_enc_u8 E src reg mask : (forall b, Forall is_u8 (E b)) -> Forall is_u8 src -> Forall is_u8 mask ->
  let out := fst (Feedback.run E enc_byte src (reg, mask)) in Forall is_u8 out /\ length out = length src.
Proof.
  intros HE Hs. revert reg mask. induction Hs as [|x src Hx Hs IH]; intros reg mask Hm; [cbn; auto |].
  cbn [Feedback.run Feedback.step enc_byte]. set (m := match mask with [] => E reg | _ => mask end).
  assert (Hm' : Forall is_u8 m) by (unfold m; destruct mask; auto).
  specialize (IH (tl reg ++ [hd 0 m .^ x]) (tl m)).
  destruct (Feedback.run E enc_byte src _) as [out s]. cbn [fst] in *. destruct IH as [F L].
  - now destruct Hm'.
  - split; [constructor; [| exact F] | cbn; now rewrite L].
    apply lxor_u8; [destruct Hm'; [easy | assumption] | exact Hx].
Qed.

Section Congruence.

Variables (E E' : list Z -> list Z) (op : Z -> Z -> Z * Z).
Hypothesis E_ok : forall b, block_ok b -> block_ok (E b).
Hypothesis E_E' : forall b, block_ok b -> E b = E' b.
Hypothesis op_ok' : forall t x, is_u8 t -> is_u8 x -> is_u8 (snd (op t x)).

Lemma run_cong src reg mask : Forall is_u8 src -> block_ok reg -> Forall is_u8 mask ->
  Feedback.run E op src (reg, mask) = Feedback.run E' op src (reg, mask) /\
  block_ok (fst (snd (Feedback.run E op src (reg, mask)))).
Proof using E_ok E_E' op_ok'.
  intros Hs. revert reg mask. induction Hs as [|x src Hx Hs IH]; intros reg mask Hr Hm; [cbn; auto |].
  cbn [Feedback.run Feedback.step]. rewrite <- (E_E' reg Hr).
  assert (M : exists t mask', match mask with [] => E reg | _ => mask end = t :: mask' /\ is_u8 t /\ Forall is_u8 mask').
  { destruct (E_ok reg Hr) as [L F]. destruct mask as [|t mask'].
    - destruct (E reg) as [|t mask'] eqn:Er; [discriminate |]. inversion F; subst. now exists t, mask'.
    - inversion Hm; subst. now exists t, mask'. }
  destruct M as (t & mask' & -> & Ht & Hm'). cbn [hd tl]. pose proof (op_ok' t x Ht Hx) as Hn.
  destruct (op t x) as [d n]. cbn [snd] in Hn.
  assert (Hr' : block_ok (tl reg ++ [n])).
  { destruct Hr as [L F]. destruct reg as [|r reg]; [discriminate |]. inversion F; subst. simpl in L |- *.
    split; [rewrite length_app; simpl; lia | apply Forall_app; split; [assumption | now constructor]]. }
  destruct (IH _ mask' Hr' Hm') as [Eq Ok]. rewrite <- Eq.
  destruct (Feedback.run E op src (tl reg ++ [n], mask')) as [out s]. split; [reflexivity | exact Ok].
Qed.

Lemma fields_cong l reg : Forall (Forall is_u8) l -> block_ok reg ->
  Feedback.fields E op l reg = Feedback.fields E' op l reg.
Proof using E_ok E_E' op_ok'.
  intros Hl. revert reg. induction Hl as [|f l Hf Hl IH]; intros reg Hr; [reflexivity |]. cbn [Feedback.fields].
  destruct (run_cong f reg [] Hf Hr (Forall_nil _)) as [<- Ok].
  destruct (Feedback.run E op f (reg, [])) as [out [reg' m]]. now rewrite IH.
Qed.

End Congruence.

(** IDEA on blocks of eight bytes. *)
Definition idea (key : list Z) (b : list Z) : list Z := Lai.bytes (Lai.cipher (ideaExpandKey key) (Lai.words b)).

Lemma idea_block key b : Forall is_u8 key -> length key = 16%nat -> block_ok b ->
  block_ok (ideaCipher b (ideaExpandKey key)) /\ ideaCipher b (ideaExpandKey key) = idea key b.
Proof.
  intros Hk Hl [_ Hb]. pose proof (ideaCipher_lai b _ Hb (ideaExpandKey_words key Hk Hl)) as EL.
  split; [split; [apply cipher_length | apply cipher_u8] | unfold idea; exact EL].
Qed.

(** ** Theorems on the mode *)

(** C36. A context set up with a key of 16 bytes and an initial vector works
    through fields of any lengths, each cut into calls in any way and followed by
    [ideaCfbSync], exactly as the feedback mode on a shift register: a byte is
    added to the next byte of IDEA of the last eight bytes of ciphertext, every
    field starts a new block, and at the end the context holds the last eight
    bytes of ciphertext.  So [ideaCfbEncrypt] and so [ideaCfbDecrypt]. *)
Theorem cfb_refines key v c fields :
  Forall is_u8 key -> length key = 16%nat -> Forall is_u8 v -> length v = 8%nat -> length (oldcipher c) = 8%nat ->
  Forall (Forall (Forall is_u8)) fields ->
  (let (outs, c') := cfb_fields ideaCfbEncrypt fields (cfb_start key v c) in
   Feedback.fields (idea key) enc_byte (map (@concat Z) fields) v = (outs, iv c') /\ bufleft c' = 0) /\
  (let (outs, c') := cfb_fields ideaCfbDecrypt fields (cfb_start key v c) in
   Feedback.fields (idea key) dec_byte (map (@concat Z) fields) v = (outs, iv c') /\ bufleft c' = 0).
Proof.
  intros Hk Hl Hv Hlv Ho Hf.
  assert (Hc : Forall (Forall is_u8) (map (@concat Z) fields))
    by (apply Forall_map, (Forall_impl _ (fun l H => proj2 (Forall_concat _ l) H) Hf)).
  assert (G : forall op, (forall t x, is_u8 t -> is_u8 x -> is_u8 (snd (op t x))) ->
    let (outs, c') := cfb_fields (cfb_buffer op) fields (cfb_start key v c) in
    Feedback.fields (idea key) op (map (@concat Z) fields) v = (outs, iv c') /\ bufleft c' = 0).
  { intros op Hop. destruct (start_fields op key v fields c Ho Hlv) as (outs & c' & reg & -> & F & <- & Eb).
    split; [| exact Eb]. rewrite <- F. symmetry.
    apply fields_cong; [intros b Hb; now apply idea_block.. | exact Hop | exact Hc | now split]. }
  split; apply G; intros t x Ht Hx; [now apply lxor_u8 | exact Hx].
Qed.

Lemma cfb_refines_witness :
  let c := mkCfb (repeat 0 8) (repeat 0 8) (repeat 0 52) 0 in
  let key := map (fun i => 3 * Z.of_nat i) (seq 0 16) in
  let v := [9; 8; 7; 6; 5; 4; 3; 2] in
  let fields := [[[1; 2; 3]; []; [4; 5; 6; 7; 8; 9; 10; 11; 12]]; [[13; 14]]] in
  Feedback.fields (idea key) enc_byte (map (@concat Z) fields) v
  = let (outs, c') := cfb_fields ideaCfbEncrypt fields (cfb_start key v c) in (outs, iv c').
Proof.
  intros c key v fields. pose proof (cfb_refines key v c fields) as T.
  destruct T as [T _]; [repeat constructor; lia | reflexivity | repeat constructor; lia | reflexivity | reflexivity
    | repeat constructor; lia |].
  destruct (cfb_fields ideaCfbEncrypt fields (cfb_start key v c)) as [outs c']. apply T.
Defined.

(** Decryption follows encryption with the same register and mask. *)
Lemma run_dec E src s :
  let (out, s') := Feedback.run E enc_byte src s in Feedback.run E dec_byte out s = (src, s').
Proof.
  revert s. induction src as [|x src IH]; intros [reg mask]; [reflexivity |]. cbn [Feedback.run Feedback.step].
  set (m := match mask with [] => E reg | _ => mask end). cbn [enc_byte].
  specialize (IH (tl reg ++ [hd 0 m .^ x], tl m)).
  destruct (Feedback.run E enc_byte src (tl reg ++ [hd 0 m .^ x], tl m)) as [out s'].
  cbn [Feedback.run Feedback.step dec_byte]. fold m. rewrite IH.
  now rewrite <- Z.lxor_assoc, Z.lxor_nilpotent, Z.lxor_0_l.
Qed.

Lemma fields_dec E l reg :
  let (outs, reg') := Feedback.fields E enc_byte l reg in Feedback.fields E dec_byte outs reg = (l, reg').
Proof.
  revert reg. induction l as [|f l IH]; intros reg; [reflexivity |]. cbn [Feedback.fields].
  pose proof (run_dec E f (reg, [])) as R. destruct (Feedback.run E enc_byte f (reg, [])) as [out [reg1 m1]].
  specialize (IH reg1). destruct (Feedback.fields E enc_byte l reg1) as [outs reg2].
  cbn [Feedback.fields]. now rewrite R, IH.
Qed.

(** C37. What [ideaCfbEncrypt] makes of a sequence of fields, [ideaCfbDecrypt]
    turns back with the same key and initial vector, when both sides call
    [ideaCfbSync] at the same boundaries, however each side cuts the fields into
    calls; both contexts end with the same vector. *)
Theorem cfb_roundtrip key v c d plain cipher :
  length v = 8%nat -> length (oldcipher c) = 8%nat -> length (oldcipher d) = 8%nat ->
  map (@concat Z) cipher = fst (cfb_fields ideaCfbEncrypt plain (cfb_start key v c)) ->
  fst (cfb_fields ideaCfbDecrypt cipher (cfb_start key v d)) = map (@concat Z) plain /\
  iv (snd (cfb_fields ideaCfbDecrypt cipher (cfb_start key v d)))
  = iv (snd (cfb_fields ideaCfbEncrypt plain (cfb_start key v c))).
Proof.
  unfold ideaCfbEncrypt, ideaCfbDecrypt. intros Hv Hc Hd Hcut.
  destruct (start_fields enc_byte key v plain c Hc Hv) as (outs & c' & reg & Rc & Fc & Ic & _). rewrite Rc in *.
  destruct (start_fields dec_byte key v cipher d Hd Hv) as (outd & d' & reg' & Rd & Fd & Id & _). rewrite Rd.
  cbn [fst snd] in *. pose proof (fields_dec (fun b => ideaCipher b (ideaExpandKey key)) (map (@concat Z) plain) v) as D.
  rewrite Fc in D. rewrite Hcut, D in Fd. injection Fd as <- <-. split; [reflexivity | congruence].
Qed.

Lemma cfb_roundtrip_witness :
  let c := mkCfb (repeat 0 8) (repeat 0 8) (repeat 0 52) 0 in
  let d := mkCfb (repeat 7 8) (repeat 1 8) (repeat 2 52) 5 in
  let key := map (fun i => 3 * Z.of_nat i) (seq 0 16) in
  let v := [9; 8; 7; 6; 5; 4; 3; 2] in
  let plain := [[[1; 2; 3]; []; [4; 5; 6; 7; 8; 9; 10; 11; 12]]; [[13; 14]]] in
  let cipher := map (fun f => [firstn 5 f; skipn 5 f]) (fst (cfb_fields ideaCfbEncrypt plain (cfb_start key v c))) in
  fst (cfb_fields ideaCfbDecrypt cipher (cfb_start key v d)) = [[1; 2; 3; 4; 5; 6; 7; 8; 9; 10; 11; 12]; [13; 14]].
Proof.
  intros c d key v plain cipher. apply (cfb_roundtrip key v c d plain cipher); [reflexivity.. |].
  unfold cipher. generalize (fst (cfb_fields ideaCfbEncrypt plain (cfb_start key v c))). intros l.
  rewrite map_map. rewrite <- (map_id l) at 2. apply map_ext. intros f. cbn [concat].
  rewrite app_nil_r. apply firstn_skipn.
Defined.

(** ** The generator *)

(** Eight bytes, position by position. *)
Definition xor_block (a b : list Z) : list Z := map (fun i => a.[Z.of_nat i] .^ b.[Z.of_nat i]) (seq 0 8).

(** ANSI X9.17: with the time stamp [T], the output [R] is the encryption of
    [V xor T] and the next seed that of [R xor T].  [n] outputs, with the time
    stamps taken from the pool eight bytes at a time. *)
Fixpoint x917 (E : list Z -> list Z) (n : nat) (V : list Z) (pool : randpool) : list (list Z) * list Z * randpool :=
  match n with
  | O => ([], V, pool)
  | S n' =>
      let (T, pool) := get_bytes 8 pool in
      let R := E (xor_block V T) in
      let '(Rs, V, pool) := x917 E n' (E (xor_block R T)) pool in
      (R :: Rs, V, pool)
  end.

(** [n] calls of [ideaRandByte]. *)
Fixpoint rand_bytes (n : nat) (c : IdeaRandContext) (pool : randpool) : list Z * IdeaRandContext * randpool :=
  match n with
  | O => ([], c, pool)
  | S n' =>
      let '(b, c, pool) := ideaRandByte c pool in
      let '(out, c, pool) := rand_bytes n' c pool in
      (b :: out, c, pool)
  end.

Lemma xor8_block d a b : length d = 8%nat -> xor8 d a b = xor_block a b.
Proof.
  intros Hd. destruct d as [|d0 [|d1 [|d2 [|d3 [|d4 [|d5 [|d6 [|d7 [|]]]]]]]]]; try discriminate. reflexivity.
Qed.

Lemma rand_bytes_app m n c pool : rand_bytes (m + n) c pool =
  let '(a, c, pool) := rand_bytes m c pool in let '(b, c, pool) := rand_bytes n c pool in (a ++ b, c, pool).
Proof.
  revert c pool. induction m as [|m IH]; intros c pool.
  { cbn. now destruct (rand_bytes n c pool) as [[b c'] pool']. }
  cbn [Nat.add rand_bytes]. destruct (ideaRandByte c pool) as [[x c1] p1]. rewrite IH.
  destruct (rand_bytes m c1 p1) as [[a c2] p2], (rand_bytes n c2 p2) as [[b c3] p3]. reflexivity.
Qed.

(** The bytes of a block are handed out from the last to the first. *)
Lemma rand_block R k V pool n : length R = 8%nat -> (n <= 8)%nat ->
  rand_bytes n (mkRand R k (Z.of_nat n) V) pool = (rev (firstn n R), mkRand R k 0 V, pool).
Proof.
  intros HR. induction n as [|n IH]; intros Hn; [reflexivity |]. cbn [rand_bytes]. unfold ideaRandByte.
  cbn [rand_bufleft outbuf rand_key internalbuf]. rewrite (proj2 (Z.eqb_neq _ 0)) by lia.
  cbn [rand_bufleft outbuf rand_key internalbuf]. replace (Z.of_nat (S n) - 1) with (Z.of_nat n) by lia.
  rewrite IH by lia. do 2 f_equal. rewrite <- (firstn_skipn n R) at 3.
  rewrite (skipn_aget R n), firstn_past, rev_app_distr by (rewrite ?length_firstn; lia). reflexivity.
Qed.

(** Eight calls on an empty buffer make one block. *)
Lemma rand_eight c pool : length (outbuf c) = 8%nat -> length (internalbuf c) = 8%nat -> rand_bufleft c = 0 ->
  let E b := ideaCipher b (rand_key c) in
  let (T, pool') := get_bytes 8 pool in
  let R := E (xor_block (internalbuf c) T) in
  rand_bytes 8 c pool = (rev R, mkRand R (rand_key c) 0 (E (xor_block R T)), pool').
Proof.
  intros Ho Hi Hb E. destruct (get_bytes 8 pool) as [T pool'] eqn:EG. set (R := E _).
  assert (HR : length R = 8%nat) by apply cipher_length.
  assert (S1 : ideaRandByte c pool = ideaRandByte (mkRand R (rand_key c) 8 (E (xor_block R T))) pool').
  { unfold ideaRandByte at 1. rewrite Hb, EG, !xor8_block by assumption. reflexivity. }
  pose proof (rand_block R (rand_key c) (E (xor_block R T)) pool' 8 HR (le_n 8)) as B.
  rewrite firstn_all2 in B by lia. etransitivity; [| exact B]. cbn [rand_bytes]. rewrite S1. reflexivity.
Qed.

Lemma rand_x917 n c pool : length (outbuf c) = 8%nat -> length (internalbuf c) = 8%nat -> rand_bufleft c = 0 ->
  let '(Rs, V, pool') := x917 (fun b => ideaCipher b (rand_key c)) n (internalbuf c) pool in
  let '(out, c', p) := rand_bytes (8 * n) c pool in
  out = concat (map (@rev Z) Rs) /\ p = pool' /\ internalbuf c' = V /\ length V = 8%nat /\
  rand_key c' = rand_key c /\ rand_bufleft c' = 0.
Proof.
  revert c pool. induction n as [|n IH]; intros c pool Ho Hi Hb; [cbn; auto 10 |].
  replace (8 * S n)%nat with (8 + 8 * n)%nat by lia. rewrite rand_bytes_app. cbn [x917].
  pose proof (rand_eight c pool Ho Hi Hb) as R8. cbv zeta in R8. destruct (get_bytes 8 pool) as [T pool1].
  rewrite R8. set (R := ideaCipher (xor_block (internalbuf c) T) (rand_key c)). fold R in R8.
  set (V1 := ideaCipher (xor_block R T) (rand_key c)).
  specialize (IH (mkRand R (rand_key c) 0 V1) pool1). cbn [outbuf rand_key rand_bufleft internalbuf] in IH.
  specialize (IH (cipher_length _ _) (cipher_length _ _) eq_refl).
  destruct (x917 (fun b => ideaCipher b (rand_key c)) n V1 pool1) as [[Rs V] pool2].
  destruct (rand_bytes (8 * n) (mkRand R (rand_key c) 0 V1) pool1) as [[out c'] p].
  destruct IH as (-> & -> & HV & HL & Hk & Hbl). auto 10.
Qed.

(** The first eight words of the schedule are the key. *)
Lemma rand_state_init key seed c : Forall is_u8 key -> length key = 16%nat -> length seed = 8%nat ->
  ideaRandState (ideaRandInit key seed c) = (key, seed).
Proof.
  intros Hk Hl Hs. unfold ideaRandState, ideaRandInit. cbn [rand_key internalbuf].
  rewrite !(firstn_all2 seed) by lia. f_equal. destruct (ideaExpandKey_ok key Hk Hl) as [_ HE].
  set (EK := ideaExpandKey key) in *. clearbody EK.
  assert (W : forall i, 0 <= i < 8 -> u8 (EK.[i] >> 8) = key.[2 * i] /\ u8 EK.[i] = key.[2 * i + 1]).
  { intros i Hi. rewrite HE, schedule_first by (assumption || lia).
    assert (B : forall j, is_u8 key.[j]) by (intros; apply Forall_aget; [unfold is_u8; lia | exact Hk]).
    pose proof (B (2 * i)). pose proof (B (2 * i + 1)). unfold is_u8 in *. unfold u8, zext.
    rewrite shiftr_div by lia. change (2 ^ 8) with 256 in *. split.
    - replace ((256 * key.[2 * i] + key.[2 * i + 1]) / 256) with key.[2 * i] by (apply (Z.div_unique_pos _ _ _ key.[2 * i + 1]); lia).
      now apply Z.mod_small.
    - symmetry. apply (Z.mod_unique_pos _ _ key.[2 * i]); lia. }
  match goal with |- for_range 0 8 ?f ?a = _ =>
    pose proof (for_range_ind (fun j l => length l = 16%nat /\ forall i, 0 <= i < 2 * j -> l.[i] = key.[i]) 0 8 f a) as I
  end.
  destruct I as [L I]; [lia | split; [reflexivity | intros; lia] | |].
  - intros j l Hj [L I]. split; [now rewrite !aset_length |]. intros i Hi.
    rewrite !aget_aset by (rewrite ?aset_length; lia). destruct (W j Hj) as [-> ->].
    zcases; subst; auto. apply I. lia.
  - set (l := for_range _ _ _ _) in *. clearbody l. apply (nth_ext l key 0 0); [lia |]. intros n Hn.
    specialize (I (Z.of_nat n) ltac:(lia)). unfold aget in I. now rewrite Nat2Z.id in I.
Qed.

(** The generator's state after [ideaRandWash] is the encryption of the state. *)
Lemma wash_state k v d c key V : Forall is_u8 key -> length key = 16%nat -> Forall is_u8 V -> length V = 8%nat ->
  Forall is_u8 k -> length k = 16%nat -> Forall is_u8 v -> length v = 8%nat -> length (oldcipher d) = 8%nat ->
  ideaRandState c = (key, V) ->
  let e := fst (Feedback.run (idea k) enc_byte (key ++ V) (v, [])) in
  ideaRandState (fst (ideaRandWash c (cfb_start k v d))) = (firstn 16 e, skipn 16 e).
Proof.
  intros Hk Hl HV HlV Hk' Hl' Hv Hlv Hd Hc e. assert (Hkv : Forall is_u8 (key ++ V)) by (now apply Forall_app).
  unfold ideaRandWash. rewrite Hc.
  destruct (cfb_start_rep k v d Hd Hlv) as (Hr & EK & _).
  destruct (buffer_run enc_byte (ideaExpandKey k) (key ++ V) _ _ Hr EK) as (out & d' & s & R & _ & F & _).
  unfold ideaCfbEncrypt. rewrite R. cbn [fst].
  assert (Eo : e = out).
  { unfold e. destruct (run_cong (fun b => ideaCipher b (ideaExpandKey k)) (idea k) enc_byte) with
      (src := key ++ V) (reg := v) (mask := @nil Z) as [C _]; auto.
    - intros b Hb. now apply idea_block.
    - intros b Hb. now apply idea_block.
    - intros t x Ht Hx. now apply lxor_u8.
    - now split.
    - rewrite <- C, F. reflexivity. }
  rewrite Eo. destruct (run_enc_u8 (fun b => ideaCipher b (ideaExpandKey k)) (key ++ V) v [] (fun b => cipher_u8 b _) Hkv
    (Forall_nil _)) as [Ho Lo].
  rewrite F in Ho, Lo. cbn [fst] in Ho, Lo. rewrite length_app in Lo. apply rand_state_init.
  - now apply Forall_firstn.
  - rewrite length_firstn. lia.
  - rewrite length_skipn. lia.
Qed.

Lemma x917_seed E n V pool : (forall b, Forall is_u8 (E b)) -> Forall is_u8 V ->
  Forall is_u8 (snd (fst (x917 E n V pool))).
Proof.
  intros HE. revert V pool. induction n as [|n IH]; intros V pool HV; [exact HV |]. cbn [x917].
  destruct (get_bytes 8 pool) as [T p]. specialize (IH (E (xor_block (E (xor_block V T)) T)) p (HE _)).
  destruct (x917 E n _ p) as [[Rs V'] p']. exact IH.
Qed.

(** A generator set up with a key and a seed produces the blocks of ANSI
    X9.17, each handed out from its last byte to its first, and takes eight bytes
    from the pool per block; [ideaRandState] then reads back the key it was given
    and the current seed, and [ideaRandWash] replaces both by their encryption. *)
Theorem rand_generator key seed c pool n :
  Forall is_u8 key -> length key = 16%nat -> Forall is_u8 seed -> length seed = 8%nat -> length (outbuf c) = 8%nat ->
  let '(Rs, V, pool') := x917 (fun b => ideaCipher b (ideaExpandKey key)) n seed pool in
  let '(out, c', p) := rand_bytes (8 * n) (ideaRandInit key seed c) pool in
  out = concat (map (@rev Z) Rs) /\ p = pool' /\ ideaRandState c' = (key, V) /\
  forall k v d, Forall is_u8 k -> length k = 16%nat -> Forall is_u8 v -> length v = 8%nat ->
    length (oldcipher d) = 8%nat ->
    let e := fst (Feedback.run (idea k) enc_byte (key ++ V) (v, [])) in
    ideaRandState (fst (ideaRandWash c' (cfb_start k v d))) = (firstn 16 e, skipn 16 e).
Proof.
  intros Hk Hl Hs Hls Ho. assert (F : firstn 8 seed = seed) by (apply firstn_all2; lia).
  pose proof (rand_x917 n (ideaRandInit key seed c) pool Ho) as R.
  pose proof (x917_seed (fun b => ideaCipher b (ideaExpandKey key)) n seed pool (fun b => cipher_u8 b _) Hs) as HV.
  unfold ideaRandInit in R at 1 2 3 4. cbn [internalbuf rand_bufleft rand_key] in R. rewrite F in R.
  specialize (R Hls eq_refl).
  destruct (x917 _ n seed pool) as [[Rs V] pool']. cbn [fst snd] in HV.
  destruct (rand_bytes (8 * n) (ideaRandInit key seed c) pool) as [[out c'] p].
  destruct R as (-> & -> & EV & LV & EK & _).
  assert (St : ideaRandState c' = (key, V)).
  { rewrite <- (rand_state_init key V c Hk Hl LV). unfold ideaRandState. rewrite EK, EV. unfold ideaRandInit.
    cbn [rand_key internalbuf]. now rewrite !(firstn_all2 V) by lia. }
  split; [reflexivity |]. split; [reflexivity |]. split; [exact St |].
  intros k v d Hk' Hl' Hv Hlv Hd. now apply wash_state.
Qed.

Lemma rand_generator_witness :
  let key := map Z.of_nat (seq 0 16) in
  let seed := [1; 2; 3; 4; 5; 6; 7; 8] in
  let c := mkRand (repeat 0 8) (repeat 0 52) 3 (repeat 0 8) in
  ideaRandState (snd (fst (rand_bytes (8 * 3) (ideaRandInit key seed c) initial_pool)))
  = (key, snd (fst (x917 (fun b => ideaCipher b (ideaExpandKey key)) 3 seed initial_pool))).
Proof.
  intros key seed c. pose proof (rand_generator key seed c initial_pool 3) as T.
  destruct (x917 (fun b => ideaCipher b (ideaExpandKey key)) 3 seed initial_pool) as [[Rs V] pool'].
  destruct (rand_bytes (8 * 3) (ideaRandInit key seed c) initial_pool) as [[out c'] p].
  destruct T as (_ & _ & T & _); [repeat constructor; lia | reflexivity | repeat constructor; lia | reflexivity.. |].
  exact T.
Defined.
