(* ===== verification/PgpMpi.v ===== *)
(** * PGP: multiprecision integers

    Models the primitives of [security/pgp/src/mpilib.c] in the configuration of
    the Makefile's portable Linux target: units of 16 bits, the least significant
    unit first.  A register is the list of its [global_precision] units, the
    least significant one at index 0; [set_precision] is the length of the lists
    a call is given.  The loops that scan a number bit by bit from the top keep
    a pointer and a mask, the bit sniffer, as the macros of [mpilib.h] do.

    [val] is the number a register stands for; a lemma for each operation says
    what it does to the numbers. *)

From Stdlib Require Import ZArith Lia List Bool.
From S2P Require Import Prelude.
Import ListNotations.

Definition UNITSIZE : Z := 16.
Definition uppermostbit : Z := 0x8000.
Definition units2bits (n : Z) : Z := n << 4.
Definition bits2units (n : Z) : Z := (n + 15) >> 4.
Definition power_of_2 (b : Z) : Z := u16 (1 << b).

Definition MAX_KEY_BITS : Z := 2048.
Definition MAX_BIT_PRECISION : Z := MAX_KEY_BITS + 2 * UNITSIZE.
Definition MAX_UNIT_PRECISION : Z := MAX_BIT_PRECISION / UNITSIZE.

(** ** Addition, subtraction, shifts *)

(** The result in [r1], and the carry. *)
Fixpoint mp_addc (r1 r2 : list Z) (carry : bool) : list Z * bool :=
  match r1, r2 with
  | a :: r1', b :: r2' =>
      let '(x, carry) :=
        if carry then (u16 (a + b + 1), b >=? u16 (Z.lnot a))
        else let x := u16 (a + b) in (x, x <? a) in
      let (r, carry) := mp_addc r1' r2' carry in
      (x :: r, carry)
  | _, _ => ([], carry)
  end.

Fixpoint mp_subb (r1 r2 : list Z) (borrow : bool) : list Z * bool :=
  match r1, r2 with
  | a :: r1', b :: r2' =>
      let '(x, borrow) :=
        if borrow then (u16 (a - b - 1), a <=? b) else (u16 (a - b), a <? b) in
      let (r, borrow) := mp_subb r1' r2' borrow in
      (x :: r, borrow)
  | _, _ => ([], borrow)
  end.

Definition mp_add (r1 r2 : list Z) : list Z := fst (mp_addc r1 r2 false).
Definition mp_sub (r1 r2 : list Z) : list Z := fst (mp_subb r1 r2 false).

Fixpoint mp_rotate_left (r1 : list Z) (mcarry : bool) : list Z * bool :=
  match r1 with
  | [] => ([], mcarry)
  | a :: r1' =>
      let nextcarry := i16 a <? 0 in
      let (r, c) := mp_rotate_left r1' nextcarry in
      (u16 ((a << 1) .| b2z mcarry) :: r, c)
  end.

Definition mp_shift_left (r1 : list Z) : list Z := fst (mp_rotate_left r1 false).

(** The two loops, on the units from the most significant one down. *)
Fixpoint shift_units (r1 : list Z) (carry : Z) : list Z :=
  match r1 with
  | [] => []
  | a :: r1' => carry :: shift_units r1' a
  end.

Fixpoint shift_bits (bits : Z) (r1 : list Z) (carry : Z) : list Z :=
  match r1 with
  | [] => []
  | a :: r1' =>
      let bitmask := u16 (power_of_2 bits - 1) in
      let nextcarry := a .& bitmask in
      u16 ((a >> bits) .| u16 (carry << (UNITSIZE - bits))) :: shift_bits bits r1' nextcarry
  end.

Definition mp_shift_right_bits (r1 : list Z) (bits : Z) : list Z :=
  if bits =? 0 then r1
  else if bits =? UNITSIZE then rev (shift_units (rev r1) 0)
  else rev (shift_bits bits (rev r1) 0).

(** ** Comparison and small steps *)

Fixpoint compare_down (r1 r2 : list Z) : Z :=
  match r1, r2 with
  | a :: r1', b :: r2' => if a <? b then -1 else if a >? b then 1 else compare_down r1' r2'
  | _, _ => 0
  end.

Definition mp_compare (r1 r2 : list Z) : Z := compare_down (rev r1) (rev r2).

Fixpoint mp_inc (r : list Z) : list Z * bool :=
  match r with
  | [] => ([], true)
  | a :: r' =>
      let a := u16 (a + 1) in
      if negb (a =? 0) then (a :: r', false) else let (r', c) := mp_inc r' in (a :: r', c)
  end.

Fixpoint mp_dec (r : list Z) : list Z * bool :=
  match r with
  | [] => ([], true)
  | a :: r' =>
      let a := u16 (a - 1) in
      if negb (i16 a =? -1) then (a :: r', false) else let (r', c) := mp_dec r' in (a :: r', c)
  end.

Definition mp_neg (r : list Z) : list Z := map (fun a => u16 (Z.lnot a)) (fst (mp_dec r)).

(** [prec] is [global_precision]. *)
Definition mp_init (prec : nat) (value : Z) : list Z := aset (repeat 0 prec) 0 value.

(** On the units from the most significant one down. *)
Fixpoint significance_down (r : list Z) : Z :=
  match r with
  | [] => 0
  | a :: r' => if negb (a =? 0) then Z.of_nat (length r) else significance_down r'
  end.

Definition significance (r : list Z) : Z := significance_down (rev r).

Definition lsunit (r : list Z) : Z := r.[0].
Definition msunit (r : list Z) : Z := r.[Z.of_nat (length r) - 1].
Definition mp_tstminus (r : list Z) : bool := i16 (msunit r) <? 0.
Definition testeq (r : list Z) (i : Z) : bool := (lsunit r =? i) && (significance r <=? 1).
Definition testne (r : list Z) (i : Z) : bool := negb (lsunit r =? i) || (significance r >? 1).

(** ** Bit sniffers *)

Definition bit_index (n : Z) : Z := bits2units (n + 1) - 1.
Definition bitmsk (n : Z) : Z := power_of_2 (n .& (UNITSIZE - 1)).
Definition mp_setbit (r : list Z) (n : Z) : list Z := aset r (bit_index n) (r.[bit_index n] .| bitmsk n).

(** The index of the unit pointed to, and the mask. *)
Definition sniffer : Type := (Z * Z)%type.

Definition sniff_bit (r : list Z) (s : sniffer) : bool := negb (r.[fst s] .& snd s =? 0).
Definition stuff_bit (r : list Z) (s : sniffer) : list Z := aset r (fst s) (r.[fst s] .| snd s).

Definition bump_bitsniffer (s : sniffer) : sniffer :=
  let bitmask := snd s >> 1 in
  if bitmask =? 0 then (fst s - 1, uppermostbit) else (fst s, bitmask).

(** [while (!sniff_bit(bptr,bitmask)) { bitmask >>= 1; bits--; }] *)
Fixpoint sniff_first (fuel : nat) (u bitmask bits : Z) : Z * Z :=
  match fuel with
  | O => (bitmask, bits)
  | S f => if u .& bitmask =? 0 then sniff_first f u (bitmask >> 1) (bits - 1) else (bitmask, bits)
  end.

(** The number of bits and the sniffer at the first one; [None] for zero. *)
Definition init_bitsniffer (r : list Z) : option (Z * sniffer) :=
  let prec := significance r in
  if prec =? 0 then None
  else
    let (bitmask, bits) := sniff_first 16 r.[prec - 1] uppermostbit (units2bits prec) in
    Some (bits, (prec - 1, bitmask)).

Definition countbits (r : list Z) : Z :=
  match init_bitsniffer r with Some (bits, _) => bits | None => 0 end.

(** ** Division *)

Fixpoint udiv_loop (bits : nat) (s : sniffer) (remainder quotient dividend divisor : list Z) : list Z * list Z :=
  match bits with
  | O => (remainder, quotient)
  | S n =>
      let remainder := fst (mp_rotate_left remainder (sniff_bit dividend s)) in
      let (remainder, quotient) :=
        if mp_compare remainder divisor >=? 0 then (mp_sub remainder divisor, stuff_bit quotient s)
        else (remainder, quotient) in
      udiv_loop n (bump_bitsniffer s) remainder quotient dividend divisor
  end.

(** The status, the remainder and the quotient. *)
Definition mp_udiv (remainder quotient dividend divisor : list Z) : Z * list Z * list Z :=
  if testeq divisor 0 then (-1, remainder, quotient)
  else
    let remainder := mp_init (length remainder) 0 in
    let quotient := mp_init (length quotient) 0 in
    match init_bitsniffer dividend with
    | None => (0, remainder, quotient)
    | Some (bits, s) =>
        let (remainder, quotient) := udiv_loop (Z.to_nat bits) s remainder quotient dividend divisor in
        (0, remainder, quotient)
    end.

Fixpoint recip_loop (bits : nat) (s : sniffer) (remainder quotient divisor : list Z) : list Z :=
  match bits with
  | O => quotient
  | S n =>
      let remainder := mp_shift_left remainder in
      let (remainder, quotient) :=
        if mp_compare remainder divisor >=? 0 then (mp_sub remainder divisor, stuff_bit quotient s)
        else (remainder, quotient) in
      recip_loop n (bump_bitsniffer s) remainder quotient divisor
  end.

Definition RECIPMARGIN : Z := 0.

Definition mp_recip (quotient divisor : list Z) : Z * list Z :=
  if testeq divisor 0 then (-1, quotient)
  else
    let prec := length divisor in
    let bits := countbits divisor + RECIPMARGIN in
    let bitmask := bitmsk bits in
    let qprec := bits2units (bits + 1) in
    let remainder := mp_setbit (mp_init prec 0) ((bits - RECIPMARGIN) - 1) in
    (0, recip_loop (Z.to_nat bits) (qprec - 1, bitmask) remainder (mp_init prec 0) divisor).

(** The remainder, the quotient, and the status. *)
Definition mp_div (remainder quotient dividend divisor : list Z) : Z * list Z * list Z :=
  let dvdsign := mp_tstminus dividend in
  let dsign := mp_tstminus divisor in
  let dividend := if dvdsign then mp_neg dividend else dividend in
  let divisor := if dsign then mp_neg divisor else divisor in
  let '(status, remainder, quotient) := mp_udiv remainder quotient dividend divisor in
  if status <? 0 then (status, remainder, quotient)
  else
    (status, if dvdsign then mp_neg remainder else remainder,
     if xorb dvdsign dsign then mp_neg quotient else quotient).

(** Division by a short: the remainder and the quotient. *)
Fixpoint shortdiv_loop (bits : nat) (s : sniffer) (remainder : Z) (quotient dividend : list Z) (divisor : Z) :
  Z * list Z :=
  match bits with
  | O => (remainder, quotient)
  | S n =>
      let remainder := u16 (remainder << 1) in
      let remainder := if sniff_bit dividend s then u16 (remainder + 1) else remainder in
      let (remainder, quotient) :=
        if remainder >=? divisor then (u16 (remainder - divisor), stuff_bit quotient s) else (remainder, quotient) in
      shortdiv_loop n (bump_bitsniffer s) remainder quotient dividend divisor
  end.

Definition mp_shortdiv (quotient dividend : list Z) (divisor : Z) : Z * list Z :=
  if divisor =? 0 then (u16 (-1), quotient)
  else
    let quotient := mp_init (length quotient) 0 in
    match init_bitsniffer dividend with
    | None => (0, quotient)
    | Some (bits, s) => shortdiv_loop (Z.to_nat bits) s 0 quotient dividend divisor
    end.

Fixpoint mod_loop (bits : nat) (s : sniffer) (remainder dividend divisor : list Z) : list Z :=
  match bits with
  | O => remainder
  | S n =>
      let remainder := fst (mp_rotate_left remainder (sniff_bit dividend s)) in
      let remainder := if mp_compare remainder divisor >=? 0 then mp_sub remainder divisor else remainder in
      mod_loop n (bump_bitsniffer s) remainder dividend divisor
  end.

Definition mp_mod (remainder dividend divisor : list Z) : Z * list Z :=
  if testeq divisor 0 then (-1, remainder)
  else
    let remainder := mp_init (length remainder) 0 in
    match init_bitsniffer dividend with
    | None => (0, remainder)
    | Some (bits, s) => (0, mod_loop (Z.to_nat bits) s remainder dividend divisor)
    end.

Fixpoint shortmod_loop (bits : nat) (s : sniffer) (remainder : Z) (dividend : list Z) (divisor : Z) : Z :=
  match bits with
  | O => remainder
  | S n =>
      let remainder := u16 (remainder << 1) in
      let remainder := if sniff_bit dividend s then u16 (remainder + 1) else remainder in
      let remainder := if remainder >=? divisor then u16 (remainder - divisor) else remainder in
      shortmod_loop n (bump_bitsniffer s) remainder dividend divisor
  end.

Definition mp_shortmod (dividend : list Z) (divisor : Z) : Z :=
  if divisor =? 0 then u16 (-1)
  else
    match init_bitsniffer dividend with
    | None => 0
    | Some (bits, s) => shortmod_loop (Z.to_nat bits) s 0 dividend divisor
    end.

(** ** Multiplication *)

Fixpoint mult_loop (bits : nat) (s : sniffer) (prod multiplicand multiplier : list Z) : list Z :=
  match bits with
  | O => prod
  | S n =>
      let prod := mp_shift_left prod in
      let prod := if sniff_bit multiplier s then mp_add prod multiplicand else prod in
      mult_loop n (bump_bitsniffer s) prod multiplicand multiplier
  end.

Definition mp_mult (multiplicand multiplier : list Z) : list Z :=
  let prod := mp_init (length multiplicand) 0 in
  if testeq multiplicand 0 then prod
  else
    match init_bitsniffer multiplier with
    | None => prod
    | Some (bits, s) => mult_loop (Z.to_nat bits) s prod multiplicand multiplier
    end.

(** ** The number a register stands for *)

Fixpoint val (l : list Z) : Z :=
  match l with
  | [] => 0
  | a :: l' => a + 2 ^ 16 * val l'
  end.

(** The range of [n] units. *)
Definition beta (n : nat) : Z := 2 ^ (16 * Z.of_nat n).

(** A register of [n] units. *)
Definition reg (n : nat) (l : list Z) : Prop := length l = n /\ Forall is_u16 l.

Lemma beta_S n : beta (S n) = 2 ^ 16 * beta n.
Proof. unfold beta. rewrite <- Z.pow_add_r by lia. f_equal. lia. Qed.

Lemma beta_pos n : 0 < beta n.
Proof. apply Z.pow_pos_nonneg; lia. Qed.

Lemma beta_add m n : beta (m + n) = beta m * beta n.
Proof. unfold beta. rewrite <- Z.pow_add_r by lia. f_equal. lia. Qed.

Lemma beta_0 : beta 0 = 1.
Proof. reflexivity. Qed.

Lemma u16_range x : is_u16 (u16 x).
Proof. apply (zext_range 16). lia. Qed.

Lemma u16_id x : is_u16 x -> u16 x = x.
Proof. intros H. now apply zext_id. Qed.

Lemma reg_cons n a l : reg (S n) (a :: l) <-> is_u16 a /\ reg n l.
Proof.
  unfold reg. split.
  - intros [L F]. inversion F; subst. injection L as L. auto.
  - intros (Ha & L & F). split; [cbn; now rewrite L | now constructor].
Qed.

Lemma reg_nil : reg 0 [].
Proof. split; [reflexivity | constructor]. Qed.

Lemma reg_S_inv n l : reg (S n) l -> exists a l', l = a :: l' /\ is_u16 a /\ reg n l'.
Proof. intros H. destruct l as [|a l']; [destruct H; discriminate |]. exists a, l'. now apply reg_cons in H. Qed.

Lemma reg_0_inv l : reg 0 l -> l = [].
Proof. intros [L _]. now destruct l. Qed.

Lemma reg_length n l : reg n l -> length l = n.
Proof. now intros [L _]. Qed.

Lemma reg_app m n a b : reg m a -> reg n b -> reg (m + n) (a ++ b).
Proof. intros [La Fa] [Lb Fb]. split; [rewrite length_app; lia | now apply Forall_app]. Qed.

Lemma reg_rev n l : reg n l -> reg n (rev l).
Proof. intros [L F]. split; [now rewrite length_rev | now apply Forall_rev]. Qed.

Lemma reg_firstn n m l : (m <= n)%nat -> reg n l -> reg m (firstn m l).
Proof. intros Hm [L F]. split; [rewrite length_firstn; lia | now apply Forall_firstn]. Qed.

Lemma reg_skipn n m l : reg n l -> reg (n - m) (skipn m l).
Proof. intros [L F]. split; [rewrite length_skipn; lia | now apply Forall_skipn]. Qed.

Lemma reg_aset n l i v : is_u16 v -> reg n l -> reg n (aset l i v).
Proof. intros Hv [L F]. split; [now rewrite aset_length | now apply Forall_aset]. Qed.

Lemma reg_unit n l i : reg n l -> is_u16 l.[i].
Proof. intros [_ F]. apply Forall_aget; [unfold is_u16; lia | exact F]. Qed.

#[export] Hint Resolve reg_nil reg_rev reg_aset u16_range : cint.

Lemma val_app a b : val (a ++ b) = val a + beta (length a) * val b.
Proof.
  induction a as [|x a IH]; [cbn [app val length]; rewrite beta_0; lia |].
  cbn [app val length]. rewrite IH, beta_S. lia.
Qed.

Lemma val_range n l : reg n l -> 0 <= val l < beta n.
Proof.
  revert l. induction n as [|n IH]; intros l H; [apply reg_0_inv in H as ->; rewrite beta_0; cbn; lia |].
  apply reg_S_inv in H as (a & l' & -> & Ha & H). specialize (IH l' H). cbn [val]. rewrite beta_S.
  unfold is_u16 in Ha. lia.
Qed.

Lemma val_inj n a b : reg n a -> reg n b -> val a = val b -> a = b.
Proof.
  revert a b. induction n as [|n IH]; intros a b Ha Hb E.
  { apply reg_0_inv in Ha as ->. apply reg_0_inv in Hb as ->. reflexivity. }
  apply reg_S_inv in Ha as (x & a' & -> & Hx & Ha). apply reg_S_inv in Hb as (y & b' & -> & Hy & Hb).
  cbn [val] in E. unfold is_u16 in *. assert (x = y) as -> by lia. f_equal. apply IH; try assumption. lia.
Qed.

Lemma val_split n l : val l = val (firstn n l) + beta (length (firstn n l)) * val (skipn n l).
Proof. now rewrite <- val_app, firstn_skipn. Qed.

Lemma val_repeat n : val (repeat 0 n) = 0.
Proof. induction n as [|n IH]; cbn [repeat val]; lia. Qed.

Lemma val_firstn n m l : reg n l -> (m <= n)%nat -> val (firstn m l) = val l mod beta m.
Proof.
  intros H Hm. rewrite (val_split m l). assert (R := reg_firstn n m l Hm H). rewrite (reg_length _ _ R).
  apply (Z.mod_unique_pos _ _ (val (skipn m l))); [apply (val_range _ _ R) | lia].
Qed.

Lemma val_skipn n m l : reg n l -> (m <= n)%nat -> val (skipn m l) = val l / beta m.
Proof.
  intros H Hm. rewrite (val_split m l). assert (R := reg_firstn n m l Hm H). rewrite (reg_length _ _ R).
  apply (Z.div_unique_pos _ _ _ (val (firstn m l))); [apply (val_range _ _ R) | lia].
Qed.

(** ** Addition, subtraction, rotation *)

Lemma mp_addc_val n a b c : reg n a -> reg n b ->
  let (r, c') := mp_addc a b c in reg n r /\ val r + beta n * b2z c' = val a + val b + b2z c.
Proof.
  revert a b c. induction n as [|n IH]; intros a b c Ha Hb.
  { apply reg_0_inv in Ha as ->. apply reg_0_inv in Hb as ->. cbn [mp_addc val]. rewrite beta_0. split; [auto with cint | lia]. }
  apply reg_S_inv in Ha as (x & a' & -> & Hx & Ha). apply reg_S_inv in Hb as (y & b' & -> & Hy & Hb).
  cbn [mp_addc]. cbv zeta.
  assert (S1 : exists z c1, (if c then (u16 (x + y + 1), y >=? u16 (Z.lnot x))
    else (u16 (x + y), u16 (x + y) <? x)) = (z, c1) /\ is_u16 z /\ z + 2 ^ 16 * b2z c1 = x + y + b2z c).
  { unfold is_u16 in *. destruct c; eexists _, _; (split; [reflexivity |]); (split; [apply u16_range |]).
    - assert (E : u16 (Z.lnot x) = 2 ^ 16 - 1 - x) by (unfold u16, zext, Z.lnot; zlia). rewrite E.
      unfold u16, zext, b2z. zcases; zlia.
    - unfold u16, zext, b2z. zcases; zlia. }
  destruct S1 as (z & c1 & -> & Hz & E). specialize (IH a' b' c1 Ha Hb).
  destruct (mp_addc a' b' c1) as [r c']. destruct IH as [Hr Er]. split; [now apply reg_cons |].
  cbn [val]. rewrite beta_S. lia.
Qed.

Lemma mp_subb_val n a b c : reg n a -> reg n b ->
  let (r, c') := mp_subb a b c in reg n r /\ val r - beta n * b2z c' = val a - val b - b2z c.
Proof.
  revert a b c. induction n as [|n IH]; intros a b c Ha Hb.
  { apply reg_0_inv in Ha as ->. apply reg_0_inv in Hb as ->. cbn [mp_subb val]. rewrite beta_0. split; [auto with cint | lia]. }
  apply reg_S_inv in Ha as (x & a' & -> & Hx & Ha). apply reg_S_inv in Hb as (y & b' & -> & Hy & Hb).
  cbn [mp_subb].
  assert (S1 : exists z c1, (if c then (u16 (x - y - 1), x <=? y) else (u16 (x - y), x <? y)) = (z, c1) /\
    is_u16 z /\ z - 2 ^ 16 * b2z c1 = x - y - b2z c).
  { unfold is_u16 in *. destruct c; eexists _, _; (split; [reflexivity |]); (split; [apply u16_range |]);
      unfold u16, zext, b2z; zcases; zlia. }
  destruct S1 as (z & c1 & -> & Hz & E). specialize (IH a' b' c1 Ha Hb).
  destruct (mp_subb a' b' c1) as [r c']. destruct IH as [Hr Er]. split; [now apply reg_cons |].
  cbn [val]. rewrite beta_S. lia.
Qed.

Lemma mp_add_val n a b : reg n a -> reg n b -> reg n (mp_add a b) /\ val (mp_add a b) = (val a + val b) mod beta n.
Proof.
  intros Ha Hb. unfold mp_add. pose proof (mp_addc_val n a b false Ha Hb) as H.
  destruct (mp_addc a b false) as [r c]. destruct H as [Hr E]. split; [exact Hr |]. cbn [fst b2z] in *.
  apply (Z.mod_unique_pos _ _ (b2z c)); [now apply val_range | lia].
Qed.

Lemma mp_sub_val n a b : reg n a -> reg n b -> reg n (mp_sub a b) /\ val (mp_sub a b) = (val a - val b) mod beta n.
Proof.
  intros Ha Hb. unfold mp_sub. pose proof (mp_subb_val n a b false Ha Hb) as H.
  destruct (mp_subb a b false) as [r c]. destruct H as [Hr E]. split; [exact Hr |]. cbn [fst b2z] in *.
  apply (Z.mod_unique_pos _ _ (- b2z c)); [now apply val_range | lia].
Qed.

Lemma mp_rotate_left_val n a c : reg n a ->
  let (r, c') := mp_rotate_left a c in reg n r /\ val r + beta n * b2z c' = 2 * val a + b2z c.
Proof.
  revert a c. induction n as [|n IH]; intros a c Ha.
  { apply reg_0_inv in Ha as ->. cbn [mp_rotate_left val]. rewrite beta_0. split; [auto with cint | lia]. }
  apply reg_S_inv in Ha as (x & a' & -> & Hx & Ha). cbn [mp_rotate_left]. specialize (IH a' (i16 x <? 0) Ha).
  destruct (mp_rotate_left a' (i16 x <? 0)) as [r c']. destruct IH as [Hr E].
  split; [apply reg_cons; auto with cint |]. cbn [val]. rewrite beta_S.
  enough (u16 ((x << 1) .| b2z c) + 2 ^ 16 * b2z (i16 x <? 0) = 2 * x + b2z c) by lia.
  rewrite shiftl_mul by lia. rewrite (lor_add 1); [| lia | zlia | destruct c; cbn; lia].
  unfold is_u16 in Hx. unfold u16, i16, zext, sext. destruct c; cbn [b2z]; unfold b2z; zcases; zlia.
Qed.

(** What the loops of division rely on. *)
Lemma rotate_fits n a c : reg n a -> 2 * val a + b2z c < beta n ->
  reg n (fst (mp_rotate_left a c)) /\ val (fst (mp_rotate_left a c)) = 2 * val a + b2z c.
Proof.
  intros Ha Hf. pose proof (mp_rotate_left_val n a c Ha) as H. destruct (mp_rotate_left a c) as [r c'].
  destruct H as [Hr E]. cbn [fst]. split; [exact Hr |]. pose proof (val_range n r Hr). destruct c'; cbn [b2z] in *; lia.
Qed.

(** ** Comparison, increment, negation *)

Lemma val_rev_cons n x l : reg n l -> val (rev (x :: l)) = val (rev l) + beta n * x.
Proof.
  intros H. cbn [rev]. rewrite val_app, length_rev, (reg_length _ _ H). cbn [val]. lia.
Qed.

Lemma compare_down_val n a b : reg n a -> reg n b ->
  compare_down a b = Z.sgn (val (rev a) - val (rev b)).
Proof.
  revert a b. induction n as [|n IH]; intros a b Ha Hb.
  { apply reg_0_inv in Ha as ->. apply reg_0_inv in Hb as ->. reflexivity. }
  apply reg_S_inv in Ha as (x & a' & -> & Hx & Ha). apply reg_S_inv in Hb as (y & b' & -> & Hy & Hb).
  rewrite (val_rev_cons n x a' Ha), (val_rev_cons n y b' Hb). cbn [compare_down].
  pose proof (val_range n _ (reg_rev _ _ Ha)). pose proof (val_range n _ (reg_rev _ _ Hb)).
  destruct (Z.ltb_spec x y); [symmetry; apply Z.sgn_neg; nia |]. rewrite Z.gtb_ltb.
  destruct (Z.ltb_spec y x); [symmetry; apply Z.sgn_pos; nia |].
  assert (x = y) as -> by lia. rewrite (IH a' b' Ha Hb). f_equal. lia.
Qed.

Lemma mp_compare_val n a b : reg n a -> reg n b -> mp_compare a b = Z.sgn (val a - val b).
Proof.
  intros Ha Hb. unfold mp_compare. rewrite (compare_down_val n) by (now apply reg_rev). now rewrite !rev_involutive.
Qed.

Lemma compare_ge n a b : reg n a -> reg n b -> (mp_compare a b >=? 0) = (val b <=? val a).
Proof. intros Ha Hb. rewrite (mp_compare_val n a b Ha Hb). zcases; lia. Qed.

Lemma mp_inc_val n a : reg n a -> let (r, c) := mp_inc a in reg n r /\ val r + beta n * b2z c = val a + 1.
Proof.
  revert a. induction n as [|n IH]; intros a Ha.
  { apply reg_0_inv in Ha as ->. cbn [mp_inc val]. rewrite beta_0. split; [auto with cint | cbn; lia]. }
  apply reg_S_inv in Ha as (x & a' & -> & Hx & Ha). cbn [mp_inc]. cbv zeta. specialize (IH a' Ha).
  pose proof (u16_range (x + 1)). unfold is_u16 in Hx.
  destruct (Z.eqb_spec (u16 (x + 1)) 0) as [E | N]; cbn [negb].
  - destruct (mp_inc a') as [r c]. destruct IH as [Hr Er]. split; [now apply reg_cons |]. cbn [val]. rewrite beta_S, E.
    unfold u16, zext in E. assert (x = 2 ^ 16 - 1) by zlia. lia.
  - split; [now apply reg_cons |]. cbn [val b2z]. unfold u16, zext in *. assert (x <> 2 ^ 16 - 1) by zlia.
    rewrite Z.mod_small by lia. lia.
Qed.

Lemma mp_dec_val n a : reg n a -> let (r, c) := mp_dec a in reg n r /\ val r - beta n * b2z c = val a - 1.
Proof.
  revert a. induction n as [|n IH]; intros a Ha.
  { apply reg_0_inv in Ha as ->. cbn [mp_dec val]. rewrite beta_0. split; [auto with cint | cbn; lia]. }
  apply reg_S_inv in Ha as (x & a' & -> & Hx & Ha). cbn [mp_dec]. cbv zeta. specialize (IH a' Ha).
  pose proof (u16_range (x - 1)). unfold is_u16 in Hx.
  assert (D : (i16 (u16 (x - 1)) =? -1) = (x =? 0)) by (unfold i16, u16, sext, zext; zcases; zlia).
  rewrite D. destruct (Z.eqb_spec x 0) as [-> | N]; cbn [negb].
  - destruct (mp_dec a') as [r c]. destruct IH as [Hr Er]. split; [now apply reg_cons |]. cbn [val]. rewrite beta_S.
    change (u16 (0 - 1)) with (2 ^ 16 - 1). lia.
  - split; [now apply reg_cons |]. cbn [val b2z]. rewrite u16_id by (unfold is_u16; lia). lia.
Qed.

Lemma inc_val n a : reg n a -> reg n (fst (mp_inc a)) /\ val (fst (mp_inc a)) = (val a + 1) mod beta n.
Proof.
  intros Ha. pose proof (mp_inc_val n a Ha) as H. destruct (mp_inc a) as [r c]. destruct H as [Hr E]. cbn [fst].
  split; [exact Hr |]. apply (Z.mod_unique_pos _ _ (b2z c)); [now apply val_range | lia].
Qed.

Lemma dec_val n a : reg n a -> reg n (fst (mp_dec a)) /\ val (fst (mp_dec a)) = (val a - 1) mod beta n.
Proof.
  intros Ha. pose proof (mp_dec_val n a Ha) as H. destruct (mp_dec a) as [r c]. destruct H as [Hr E]. cbn [fst].
  split; [exact Hr |]. apply (Z.mod_unique_pos _ _ (- b2z c)); [now apply val_range | lia].
Qed.

Lemma complement_val n a : reg n a ->
  reg n (map (fun x => u16 (Z.lnot x)) a) /\ val (map (fun x => u16 (Z.lnot x)) a) = beta n - 1 - val a.
Proof.
  revert a. induction n as [|n IH]; intros a Ha; [apply reg_0_inv in Ha as ->; split; [auto with cint | reflexivity] |].
  apply reg_S_inv in Ha as (x & a' & -> & Hx & Ha). destruct (IH a' Ha) as [R E]. cbn [map val].
  split; [apply reg_cons; auto with cint |]. rewrite E, beta_S. unfold is_u16 in Hx.
  replace (u16 (Z.lnot x)) with (2 ^ 16 - 1 - x) by (unfold u16, zext, Z.lnot; zlia). lia.
Qed.

Lemma mp_neg_val n a : reg n a -> reg n (mp_neg a) /\ val (mp_neg a) = (- val a) mod beta n.
Proof.
  intros Ha. destruct (dec_val n a Ha) as [Rd Ed]. destruct (complement_val n _ Rd) as [R E].
  split; [exact R |]. unfold mp_neg. rewrite E. pose proof (val_range n _ Rd). pose proof (beta_pos n).
  apply (Z.mod_unique_pos _ _ (- ((val a - 1) / beta n) - 1)); [lia |].
  pose proof (Z.div_mod (val a - 1) (beta n) ltac:(lia)). lia.
Qed.

Lemma mp_init_val n v : is_u16 v -> (1 <= n)%nat -> reg n (mp_init n v) /\ val (mp_init n v) = v.
Proof.
  intros Hv Hn. destruct n as [|n]; [lia |]. unfold mp_init, aset. cbn [repeat Z.to_nat upd].
  split; [| cbn [val]; rewrite val_repeat; lia]. apply reg_cons. split; [exact Hv |].
  split; [apply repeat_length |]. apply Forall_forall. intros x Hx. apply repeat_spec in Hx as ->. unfold is_u16. lia.
Qed.

(** ** Shifts to the right *)

Lemma shift_units_val n a c : reg n a -> is_u16 c ->
  reg n (shift_units a c) /\ val (rev (shift_units a c)) = (val (rev a) + beta n * c) / 2 ^ 16.
Proof.
  revert a c. induction n as [|n IH]; intros a c Ha Hc.
  { apply reg_0_inv in Ha as ->. rewrite beta_0. cbn [shift_units rev val]. split; [auto with cint |].
    symmetry. apply Z.div_small. unfold is_u16 in Hc. lia. }
  apply reg_S_inv in Ha as (x & a' & -> & Hx & Ha). cbn [shift_units]. destruct (IH a' x Ha Hx) as [R E].
  split; [now apply reg_cons |]. rewrite (val_rev_cons n _ _ R), (val_rev_cons n _ _ Ha), E, beta_S.
  replace (val (rev a') + beta n * x + 2 ^ 16 * beta n * c) with (val (rev a') + beta n * x + (beta n * c) * 2 ^ 16) by lia.
  now rewrite Z.div_add by lia.
Qed.

Lemma shift_bits_val n bits a c : 0 < bits < 16 -> reg n a -> 0 <= c < 2 ^ bits ->
  reg n (shift_bits bits a c) /\ val (rev (shift_bits bits a c)) = (val (rev a) + beta n * c) / 2 ^ bits.
Proof.
  intros Hb. revert a c. induction n as [|n IH]; intros a c Ha Hc.
  { apply reg_0_inv in Ha as ->. rewrite beta_0. cbn [shift_bits rev val]. split; [auto with cint |].
    symmetry. apply Z.div_small. lia. }
  apply reg_S_inv in Ha as (x & a' & -> & Hx & Ha). cbn [shift_bits]. cbv zeta. unfold is_u16 in Hx.
  assert (P : 0 < 2 ^ bits < 2 ^ 16) by (split; [apply Z.pow_pos_nonneg | apply Z.pow_lt_mono_r]; lia).
  assert (P2 : 2 ^ 16 = 2 ^ (16 - bits) * 2 ^ bits) by (rewrite <- Z.pow_add_r by lia; f_equal; lia).
  assert (M : u16 (power_of_2 bits - 1) = 2 ^ bits - 1).
  { unfold power_of_2. rewrite shiftl_mul, Z.mul_1_l by lia. rewrite (u16_id (2 ^ bits)) by (unfold is_u16; lia).
    apply u16_id. unfold is_u16. lia. }
  rewrite M, land_mask by lia. pose proof (Z.mod_pos_bound x (2 ^ bits) ltac:(lia)) as Hm.
  destruct (IH a' (x mod 2 ^ bits) Ha Hm) as [R E].
  assert (W : u16 ((x >> bits) .| u16 (c << (UNITSIZE - bits))) = x / 2 ^ bits + 2 ^ (16 - bits) * c).
  { unfold UNITSIZE. rewrite shiftr_div, shiftl_mul by lia.
    assert (Hq : 0 <= x / 2 ^ bits < 2 ^ (16 - bits))
      by (split; [apply Z.div_pos | apply Z.div_lt_upper_bound]; lia).
    rewrite (u16_id (c * 2 ^ (16 - bits))) by (unfold is_u16; rewrite P2; nia).
    rewrite (Z.mul_comm c), lor_split by lia. apply u16_id. unfold is_u16. rewrite P2. nia. }
  rewrite W. split.
  - apply reg_cons. split; [rewrite <- W; auto with cint | exact R].
  - rewrite (val_rev_cons n _ _ R), (val_rev_cons n _ _ Ha), E, beta_S.
    replace (val (rev a') + beta n * x + 2 ^ 16 * beta n * c)
      with (val (rev a') + beta n * (x mod 2 ^ bits) + (beta n * (x / 2 ^ bits + 2 ^ (16 - bits) * c)) * 2 ^ bits).
    + rewrite Z.div_add by lia. lia.
    + rewrite P2. pose proof (Z.div_mod x (2 ^ bits) ltac:(lia)) as D. rewrite D at 3. ring.
Qed.

Lemma mp_shift_right_bits_val n a bits : reg n a -> 0 <= bits <= 16 ->
  reg n (mp_shift_right_bits a bits) /\ val (mp_shift_right_bits a bits) = val a / 2 ^ bits.
Proof.
  intros Ha Hb. unfold mp_shift_right_bits, UNITSIZE.
  destruct (Z.eqb_spec bits 0) as [-> |]; [split; [exact Ha | now rewrite Z.div_1_r] |].
  destruct (Z.eqb_spec bits 16) as [-> |].
  - destruct (shift_units_val n (rev a) 0) as [R E]; [auto with cint | unfold is_u16; lia |].
    split; [auto with cint |]. rewrite E, rev_involutive. f_equal. lia.
  - destruct (shift_bits_val n bits (rev a) 0) as [R E]; [lia | auto with cint | split; [lia | apply Z.pow_pos_nonneg; lia] |].
    split; [auto with cint |]. rewrite E, rev_involutive. f_equal. lia.
Qed.

(** ** Units and bits of a register *)

Lemma val_unit n r i : reg n r -> 0 <= i -> r.[i] = (val r / 2 ^ (16 * i)) mod 2 ^ 16.
Proof.
  intros Hr Hi. rewrite <- (Z2Nat.id i) by lia. generalize (Z.to_nat i) as k. clear i Hi. intros k. revert r k Hr.
  induction n as [|n IH]; intros r k Hr.
  { apply reg_0_inv in Hr as ->. unfold aget. cbn [val]. rewrite Z.div_0_l by (apply Z.pow_nonzero; lia).
    now destruct (Z.to_nat (Z.of_nat k)). }
  apply reg_S_inv in Hr as (x & r' & -> & Hx & Hr). cbn [val]. unfold aget. rewrite Nat2Z.id. unfold is_u16 in Hx.
  destruct k as [|k]; cbn [nth].
  - change (2 ^ (16 * Z.of_nat 0)) with 1. rewrite Z.div_1_r, Z.mul_comm, Z.mod_add, Z.mod_small by lia. reflexivity.
  - specialize (IH r' k Hr). unfold aget in IH. rewrite Nat2Z.id in IH. rewrite IH.
    replace (16 * Z.of_nat (S k)) with (16 + 16 * Z.of_nat k) by lia.
    rewrite Z.pow_add_r, <- Z.div_div by (try apply Z.pow_pos_nonneg; try apply Z.pow_nonzero; lia).
    do 2 f_equal. rewrite Z.mul_comm, Z.div_add, Z.div_small by lia. lia.
Qed.

Lemma val_testbit n r m : reg n r -> 0 <= m -> Z.testbit (val r) m = Z.testbit r.[m / 16] (m mod 16).
Proof.
  intros Hr Hm. rewrite (val_unit n r (m / 16) Hr) by (apply Z.div_pos; lia).
  pose proof (Z.mod_pos_bound m 16 ltac:(lia)). rewrite testbit_low by lia.
  rewrite Z.div_pow2_bits by (try apply Z.mul_nonneg_nonneg; try apply Z.div_pos; lia).
  f_equal. pose proof (Z.div_mod m 16 ltac:(lia)). lia.
Qed.

(** Writing a unit adds its difference, in its place. *)
Lemma val_aset n r i v : reg n r -> 0 <= i < Z.of_nat n -> val (aset r i v) = val r + 2 ^ (16 * i) * (v - r.[i]).
Proof.
  intros Hr Hi. unfold aset, aget. remember (Z.to_nat i) as k eqn:Ek. assert (i = Z.of_nat k) as -> by lia.
  assert (Hk : (k < n)%nat) by lia. clear Hi Ek. revert r n Hr Hk.
  induction k as [|k IH]; intros r n Hr Hk; (destruct n as [|n]; [lia |]);
    apply reg_S_inv in Hr as (x & r' & -> & Hx & Hr); cbn [upd nth val].
  - change (2 ^ (16 * Z.of_nat 0)) with 1. lia.
  - rewrite (IH r' n Hr) by lia. replace (16 * Z.of_nat (S k)) with (16 + 16 * Z.of_nat k) by lia.
    rewrite Z.pow_add_r by lia. lia.
Qed.

Lemma significance_down_val n l : reg n l -> let k := significance_down l in
  0 <= k <= Z.of_nat n /\ val (rev l) < 2 ^ (16 * k) /\ (0 < k -> 2 ^ (16 * (k - 1)) <= val (rev l)).
Proof.
  revert l. induction n as [|n IH]; intros l Hl; [apply reg_0_inv in Hl as ->; cbn; lia |].
  apply reg_S_inv in Hl as (x & l' & -> & Hx & Hl). cbn [significance_down]. rewrite (val_rev_cons n x l' Hl).
  pose proof (val_range n _ (reg_rev _ _ Hl)) as V. unfold is_u16 in Hx. unfold beta in *.
  destruct (Z.eqb_spec x 0) as [-> | N]; cbn [negb].
  - destruct (IH l' Hl) as (K & U & L). rewrite Z.mul_0_r, Z.add_0_r. repeat split; [lia | lia | exact U | exact L].
  - rewrite (reg_length (S n) (x :: l')) by (now apply reg_cons).
    split; [lia |]. replace (16 * (Z.of_nat (S n) - 1)) with (16 * Z.of_nat n) by lia.
    replace (16 * Z.of_nat (S n)) with (16 + 16 * Z.of_nat n) by lia. rewrite Z.pow_add_r by lia. split; [| intros _]; nia.
Qed.

Lemma significance_val n r : reg n r -> let k := significance r in
  0 <= k <= Z.of_nat n /\ val r < 2 ^ (16 * k) /\ (0 < k -> 2 ^ (16 * (k - 1)) <= val r).
Proof.
  intros Hr. pose proof (significance_down_val n (rev r) (reg_rev _ _ Hr)) as H. now rewrite rev_involutive in H.
Qed.

Lemma significance_unique n r k : reg n r -> 0 < k -> 2 ^ (16 * (k - 1)) <= val r < 2 ^ (16 * k) -> significance r = k.
Proof.
  intros Hr Hk [L U]. destruct (significance_val n r Hr) as (K & U' & L'). set (j := significance r) in *.
  assert (C : forall a b, 0 <= a -> 0 <= b -> 2 ^ (16 * a) < 2 ^ (16 * b) -> a < b).
  { intros a b Ha Hb E. apply Z.pow_lt_mono_r_iff in E; lia. }
  assert (k - 1 < j) by (apply C; lia). specialize (L' ltac:(lia)). assert (j - 1 < k) by (apply C; lia). lia.
Qed.

Lemma significance_zero n r : reg n r -> (significance r = 0 <-> val r = 0).
Proof.
  intros Hr. destruct (significance_val n r Hr) as (K & U & L). pose proof (val_range n r Hr). split; intros E.
  - rewrite E in U. change (2 ^ (16 * 0)) with 1 in U. lia.
  - destruct (Z.eq_dec (significance r) 0) as [|N]; [assumption |]. specialize (L ltac:(lia)).
    assert (0 < 2 ^ (16 * (significance r - 1))) by (apply Z.pow_pos_nonneg; lia). lia.
Qed.

Lemma significance_le1 n r : reg n r -> (significance r <= 1 <-> val r < 2 ^ 16).
Proof.
  intros Hr. destruct (significance_val n r Hr) as (K & U & L). split; intros E.
  - apply (Z.lt_le_trans _ _ _ U). apply Z.pow_le_mono_r; lia.
  - destruct (Z_le_gt_dec (significance r) 1); [assumption |]. specialize (L ltac:(lia)).
    assert (2 ^ 16 <= 2 ^ (16 * (significance r - 1))) by (apply Z.pow_le_mono_r; lia). lia.
Qed.

Lemma testeq_val n r i : reg n r -> is_u16 i -> testeq r i = (val r =? i).
Proof.
  intros Hr Hi. unfold testeq, lsunit. pose proof (significance_le1 n r Hr) as S1. pose proof (val_range n r Hr).
  rewrite (val_unit n r 0 Hr) by lia. change (2 ^ (16 * 0)) with 1. rewrite Z.div_1_r. unfold is_u16 in Hi.
  destruct (Z.leb_spec (significance r) 1) as [L | G].
  - rewrite Z.mod_small by (split; [lia | apply S1; lia]). apply andb_true_r.
  - rewrite andb_false_r. symmetry. apply Z.eqb_neq. intros E. destruct S1 as [_ S1]. lia.
Qed.

Lemma testne_val n r i : reg n r -> is_u16 i -> testne r i = negb (val r =? i).
Proof.
  intros Hr Hi. rewrite <- (testeq_val n r i Hr Hi). unfold testne, testeq. rewrite negb_andb. f_equal.
  zcases; lia.
Qed.

Lemma tstminus_val n r : reg n r -> (1 <= n)%nat -> mp_tstminus r = (beta n <=? 2 * val r).
Proof.
  intros Hr Hn. unfold mp_tstminus, msunit. rewrite (reg_length _ _ Hr). rewrite (val_unit n r) by (assumption || lia).
  pose proof (val_range n r Hr) as V. unfold beta in *. set (p := 2 ^ (16 * (Z.of_nat n - 1))).
  assert (Hp : 0 < p) by (apply Z.pow_pos_nonneg; lia).
  assert (E : 2 ^ (16 * Z.of_nat n) = p * 2 ^ 16) by (unfold p; rewrite <- Z.pow_add_r by lia; f_equal; lia).
  rewrite E in *. pose proof (Z.div_mod (val r) p ltac:(lia)). pose proof (Z.mod_pos_bound (val r) p Hp).
  assert (Hq : 0 <= val r / p < 2 ^ 16) by (split; [apply Z.div_pos | apply Z.div_lt_upper_bound]; lia).
  rewrite Z.mod_small by lia. set (q := val r / p) in *. clearbody q p. unfold i16, sext. change (16 - 1) with 15.
  destruct (Z_lt_ge_dec q (2 ^ 15)) as [Hq15 | Hq15].
  - replace ((q + 2 ^ 15) mod 2 ^ 16 - 2 ^ 15) with q by (rewrite Z.mod_small; lia). zcases; nia.
  - replace ((q + 2 ^ 15) mod 2 ^ 16 - 2 ^ 15) with (q - 2 ^ 16)
      by (rewrite <- (Z.mod_unique_pos (q + 2 ^ 15) (2 ^ 16) 1 (q - 2 ^ 15)); lia). zcases; nia.
Qed.

(** ** Sniffers *)

(** The sniffer is at bit [m]; one past the last bit it is at [-1]. *)
Definition at_bit (s : sniffer) (m : Z) : Prop := fst s = m / 16 /\ snd s = 2 ^ (m mod 16).

Lemma bump_at s m : at_bit s m -> at_bit (bump_bitsniffer s) (m - 1).
Proof.
  intros [E1 E2]. unfold bump_bitsniffer. rewrite E1, E2, shiftr_div by lia. change (2 ^ 1) with 2.
  pose proof (Z.mod_pos_bound m 16 ltac:(lia)) as M. set (k := m mod 16) in *.
  destruct (Z.eq_dec k 0) as [K0 | K0].
  - rewrite K0. change (2 ^ 0 / 2) with 0. cbn [Z.eqb]. split; cbn [fst snd]; [subst k; zlia |].
    replace ((m - 1) mod 16) with 15 by (subst k; zlia). reflexivity.
  - assert (D : 2 ^ k / 2 = 2 ^ (k - 1)).
    { replace k with (1 + (k - 1)) at 1 by lia. rewrite Z.pow_add_r, Z.mul_comm by lia. now apply Z.div_mul. }
    rewrite D, (proj2 (Z.eqb_neq _ 0)) by (apply Z.pow_nonzero; lia).
    split; cbn [fst snd]; [subst k; zlia |]. f_equal. subst k. zlia.
Qed.

Lemma land_pow2 x k : 0 <= k -> negb (x .& 2 ^ k =? 0) = Z.testbit x k.
Proof. intros Hk. rewrite <- (land_bit_nonzero x k Hk). now rewrite shiftl_mul, Z.mul_1_l by lia. Qed.

Lemma sniff_at n r s m : reg n r -> at_bit s m -> 0 <= m -> sniff_bit r s = Z.testbit (val r) m.
Proof.
  intros Hr [E1 E2] Hm. unfold sniff_bit. rewrite E1, E2. pose proof (Z.mod_pos_bound m 16 ltac:(lia)).
  rewrite land_pow2 by lia. symmetry. now apply (val_testbit n).
Qed.

(** A bit that is clear, set. *)
Lemma lor_clear x k : 0 <= k -> Z.testbit x k = false -> x .| 2 ^ k = x + 2 ^ k.
Proof.
  intros Hk Hb. rewrite Z.add_nocarry_lxor.
  - apply Z.bits_inj'. intros m Hm. rewrite Z.lor_spec, Z.lxor_spec, Z.pow2_bits_eqb by lia.
    destruct (Z.eqb_spec k m) as [-> |]; [now rewrite Hb | now rewrite orb_false_r, xorb_false_r].
  - apply Z.bits_inj'. intros m Hm. rewrite Z.land_spec, Z.bits_0, Z.pow2_bits_eqb by lia.
    destruct (Z.eqb_spec k m) as [-> |]; [now rewrite Hb | apply andb_false_r].
Qed.

Lemma lor_u16 a b : is_u16 a -> is_u16 b -> is_u16 (a .| b).
Proof.
  unfold is_u16. intros Ha Hb. assert (0 <= a .| b) by (apply Z.lor_nonneg; lia).
  destruct (Z.eq_dec (a .| b) 0) as [-> | N]; [lia |]. split; [assumption |]. apply Z.log2_lt_pow2; [lia |].
  rewrite Z.log2_lor by lia. destruct (Z.eq_dec a 0) as [-> |], (Z.eq_dec b 0) as [-> |]; cbn [Z.log2];
    try (apply Z.max_lub_lt); try lia; try (apply Z.log2_lt_pow2; lia).
Qed.

(** Setting the bit a sniffer is at. *)
Lemma stuff_at n r s m : reg n r -> at_bit s m -> 0 <= m < 16 * Z.of_nat n -> Z.testbit (val r) m = false ->
  reg n (stuff_bit r s) /\ val (stuff_bit r s) = val r + 2 ^ m.
Proof.
  intros Hr [E1 E2] Hm Hb. unfold stuff_bit. rewrite E1, E2. rewrite (val_testbit n r m Hr) in Hb by lia.
  pose proof (Z.mod_pos_bound m 16 ltac:(lia)) as M. pose proof (Z.div_mod m 16 ltac:(lia)) as D.
  assert (I : 0 <= m / 16 < Z.of_nat n) by (split; [apply Z.div_pos | apply Z.div_lt_upper_bound]; lia). split.
  - apply reg_aset; [| exact Hr]. apply lor_u16; [now apply (reg_unit n) |].
    split; [apply Z.pow_nonneg; lia | apply Z.pow_lt_mono_r; lia].
  - rewrite (val_aset n) by assumption. rewrite lor_clear by (assumption || lia).
    replace (r.[m / 16] + 2 ^ (m mod 16) - r.[m / 16]) with (2 ^ (m mod 16)) by lia.
    rewrite <- Z.pow_add_r by lia. do 2 f_equal. lia.
Qed.

Lemma setbit_val n r m : reg n r -> 0 <= m < 16 * Z.of_nat n -> Z.testbit (val r) m = false ->
  reg n (mp_setbit r m) /\ val (mp_setbit r m) = val r + 2 ^ m.
Proof.
  intros Hr Hm Hb. apply (stuff_at n r (bit_index m, bitmsk m) m Hr); [| exact Hm | exact Hb]. split; cbn [fst snd].
  - unfold bit_index, bits2units. rewrite shiftr_div by lia. change (2 ^ 4) with 16. zlia.
  - unfold bitmsk, power_of_2, UNITSIZE. change (16 - 1) with (2 ^ 4 - 1). rewrite land_mask by lia.
    change (2 ^ 4) with 16. pose proof (Z.mod_pos_bound m 16 ltac:(lia)). rewrite shiftl_mul, Z.mul_1_l by lia.
    apply u16_id. split; [apply Z.pow_nonneg; lia | apply Z.pow_lt_mono_r; lia].
Qed.

Lemma sniff_first_val fuel u k bits : 0 < u < 2 ^ (k + 1) -> 0 <= k < Z.of_nat fuel ->
  sniff_first fuel u (2 ^ k) bits = (2 ^ Z.log2 u, bits - (k - Z.log2 u)).
Proof.
  revert k bits. induction fuel as [|f IH]; intros k bits Hu Hk; [lia |]. cbn [sniff_first].
  pose proof (land_pow2 u k ltac:(lia)) as L. destruct (Z.eqb_spec (u .& 2 ^ k) 0) as [E | N]; cbn [negb] in L.
  - assert (Hlt : u < 2 ^ k).
    { destruct (Z_lt_ge_dec u (2 ^ k)) as [|G]; [assumption |]. exfalso.
      assert (E2 : u / 2 ^ k = 1).
      { symmetry. rewrite Z.pow_add_r in Hu by lia. apply (Z.div_unique_pos _ _ _ (u - 2 ^ k)); lia. }
      symmetry in L. rewrite Z.testbit_false, E2 in L by lia. discriminate. }
    assert (0 < k) by (destruct (Z.eq_dec k 0) as [-> |]; [change (2 ^ 0) with 1 in Hlt |]; lia).
    rewrite shiftr_div by lia. replace (2 ^ k / 2 ^ 1) with (2 ^ (k - 1)).
    + rewrite IH by (replace (k - 1 + 1) with k by lia; lia). f_equal. lia.
    + rewrite <- Z.pow_sub_r by lia. reflexivity.
  - symmetry in L. assert (Z.log2 u = k); [| subst k; f_equal; lia].
    apply Z.log2_unique; [lia |]. split; [| rewrite <- Z.add_1_r; lia].
    destruct (Z_lt_ge_dec u (2 ^ k)) as [G|]; [| lia]. rewrite (testbit_small u k k) in L by lia. discriminate.
Qed.

Lemma init_bitsniffer_val n r : reg n r ->
  if val r =? 0 then init_bitsniffer r = None
  else exists s, init_bitsniffer r = Some (Z.log2 (val r) + 1, s) /\ at_bit s (Z.log2 (val r)).
Proof.
  intros Hr. unfold init_bitsniffer. pose proof (significance_zero n r Hr) as S0. pose proof (val_range n r Hr) as V.
  destruct (Z.eqb_spec (val r) 0) as [E | N]; [now rewrite (proj2 S0 E) |].
  destruct (significance_val n r Hr) as (K & U & L). set (k := significance r) in *.
  assert (Hk : 0 < k) by lia. specialize (L Hk). rewrite (proj2 (Z.eqb_neq k 0)) by lia.
  set (p := 2 ^ (16 * (k - 1))) in *. assert (Hp : 0 < p) by (apply Z.pow_pos_nonneg; lia).
  assert (E : 2 ^ (16 * k) = p * 2 ^ 16) by (unfold p; rewrite <- Z.pow_add_r by lia; f_equal; lia).
  assert (Hu : 0 < val r / p < 2 ^ 16) by (split; [apply Z.div_str_pos | apply Z.div_lt_upper_bound]; lia).
  rewrite (val_unit n r (k - 1) Hr) by lia. fold p. rewrite Z.mod_small by lia. set (u := val r / p) in *.
  change uppermostbit with (2 ^ 15). rewrite (sniff_first_val 16 u 15); [| change (15 + 1) with 16; lia | lia].
  assert (Lg : Z.log2 (val r) = 16 * (k - 1) + Z.log2 u).
  { apply Z.log2_unique; [pose proof (Z.log2_nonneg u); lia |]. pose proof (Z.log2_spec u ltac:(lia)) as [A B].
    pose proof (Z.log2_nonneg u). pose proof (Z.div_mod (val r) p ltac:(lia)) as D. fold u in D.
    pose proof (Z.mod_pos_bound (val r) p Hp). rewrite <- Z.add_succ_r, !Z.pow_add_r by lia. fold p. split; nia. }
  pose proof (Z.log2_nonneg u). assert (Z.log2 u < 16) by (apply Z.log2_lt_pow2; lia).
  exists (k - 1, 2 ^ Z.log2 u). split.
  - rewrite Lg. unfold units2bits. rewrite shiftl_mul by lia. change (2 ^ 4) with 16.
    now replace (k * 16 - (15 - Z.log2 u)) with (16 * (k - 1) + Z.log2 u + 1) by lia.
  - rewrite Lg. split; cbn [fst snd]; [zlia |]. f_equal. zlia.
Qed.

Lemma countbits_val n r : reg n r -> countbits r = if val r =? 0 then 0 else Z.log2 (val r) + 1.
Proof.
  intros Hr. unfold countbits. pose proof (init_bitsniffer_val n r Hr) as H.
  destruct (val r =? 0); [now rewrite H |]. destruct H as (s & -> & _). reflexivity.
Qed.

(** [countbits] is the length of the number. *)
Lemma countbits_spec n r : reg n r ->
  0 <= countbits r <= 16 * Z.of_nat n /\ val r < 2 ^ countbits r /\ (0 < countbits r -> 2 ^ (countbits r - 1) <= val r).
Proof.
  intros Hr. rewrite (countbits_val n r Hr). pose proof (val_range n r Hr) as V. unfold beta in V.
  destruct (Z.eqb_spec (val r) 0) as [-> | N]; [change (2 ^ 0) with 1; lia |].
  pose proof (Z.log2_spec (val r) ltac:(lia)) as [A B]. pose proof (Z.log2_nonneg (val r)).
  replace (Z.log2 (val r) + 1 - 1) with (Z.log2 (val r)) by lia. rewrite Z.add_1_r.
  split; [| split; [exact B | intros _; exact A]]. assert (Z.log2 (val r) < 16 * Z.of_nat n) by (apply Z.log2_lt_pow2; lia). lia.
Qed.

Lemma countbits_unique n r b : reg n r -> 0 < b -> 2 ^ (b - 1) <= val r < 2 ^ b -> countbits r = b.
Proof.
  intros Hr Hb [L U]. rewrite (countbits_val n r Hr). pose proof (Z.pow_pos_nonneg 2 (b - 1) ltac:(lia) ltac:(lia)).
  rewrite (proj2 (Z.eqb_neq (val r) 0)) by lia. rewrite (Z.log2_unique (val r) (b - 1)); [lia | lia |].
  split; [exact L |]. now replace (Z.succ (b - 1)) with b by lia.
Qed.

(** ** Long division *)

Lemma high_bit d m : 0 <= d -> 0 <= m -> d / 2 ^ m = 2 * (d / 2 ^ (m + 1)) + b2z (Z.testbit d m).
Proof.
  intros Hd Hm. rewrite Z.pow_add_r, <- Z.div_div by (try apply Z.pow_pos_nonneg; try apply Z.pow_nonzero; lia).
  change (2 ^ 1) with 2. pose proof (Z.div_mod (d / 2 ^ m) 2 ltac:(lia)) as D.
  replace (b2z (Z.testbit d m)) with ((d / 2 ^ m) mod 2); [exact D |].
  rewrite Z.testbit_eqb by lia. pose proof (Z.mod_pos_bound (d / 2 ^ m) 2 ltac:(lia)). unfold b2z. zcases; lia.
Qed.

(** One step: the remainder and the quotient of twice the dividend and a bit. *)
Lemma div_step h D b : 0 <= h -> 0 < D ->
  let r := 2 * (h mod D) + b2z b in
  let t := D <=? r in
  (2 * h + b2z b) mod D = r - b2z t * D /\ (2 * h + b2z b) / D = 2 * (h / D) + b2z t.
Proof.
  intros Hh HD r t. pose proof (Z.div_mod h D ltac:(lia)) as E. pose proof (Z.mod_pos_bound h D HD) as M.
  assert (R : 0 <= r - b2z t * D < D) by (unfold t, r, b2z; destruct b; zcases; lia).
  split; symmetry; [apply (Z.mod_unique_pos _ _ (2 * (h / D) + b2z t)) | apply (Z.div_unique_pos _ _ _ (r - b2z t * D))];
    try exact R; unfold r; nia.
Qed.

(** Above its first bit a number is zero. *)
Lemma above_log2 x : 0 < x -> x / 2 ^ (Z.log2 x + 1) = 0.
Proof. intros Hx. apply Z.div_small. pose proof (Z.log2_spec x Hx). rewrite Z.add_1_r. lia. Qed.

Section Division.

Variables (n : nat) (dividend divisor : list Z).
Hypothesis (Hn : (1 <= n)%nat).
Hypothesis (Hdd : reg n dividend) (Hdv : reg n divisor).
Hypothesis (Hpos : 0 < val divisor).
Hypothesis (Hfit : 2 * val divisor <= beta n).

(** The new remainder, and whether the divisor was taken off. *)
Lemma rem_step s m r : at_bit s m -> 0 <= m -> reg n r -> val r = (val dividend / 2 ^ (m + 1)) mod val divisor ->
  let r1 := fst (mp_rotate_left r (sniff_bit dividend s)) in
  let t := mp_compare r1 divisor >=? 0 in
  let r2 := if t then mp_sub r1 divisor else r1 in
  reg n r2 /\ val r2 = (val dividend / 2 ^ m) mod val divisor /\
  (val dividend / 2 ^ m) / val divisor = 2 * ((val dividend / 2 ^ (m + 1)) / val divisor) + b2z t.
Proof using All.
  intros Hs Hm Hr Er. rewrite (sniff_at n dividend s m Hdd Hs Hm). intros r1.
  pose proof (val_range n dividend Hdd) as V. set (d := val dividend) in *. set (D := val divisor) in *.
  set (b := Z.testbit d m) in *. assert (Hh : 0 <= d / 2 ^ (m + 1)) by (apply Z.div_pos; [lia | apply Z.pow_pos_nonneg; lia]).
  pose proof (Z.mod_pos_bound (d / 2 ^ (m + 1)) D Hpos) as M.
  destruct (rotate_fits n r b Hr) as [R1 E1]; [rewrite Er; destruct b; cbn [b2z]; lia |]. fold r1 in R1, E1.
  rewrite (compare_ge n r1 divisor R1 Hdv). fold D. rewrite E1, Er. rewrite (high_bit d m) by lia. fold b.
  destruct (div_step (d / 2 ^ (m + 1)) D b Hh Hpos) as [Em Ed]. rewrite Em, Ed.
  set (t := D <=? 2 * ((d / 2 ^ (m + 1)) mod D) + b2z b) in *. destruct t eqn:Et; cbn [b2z].
  - destruct (mp_sub_val n r1 divisor R1 Hdv) as [R2 E2]. split; [exact R2 |]. split; [| lia].
    rewrite E2, E1, Er. fold D. rewrite Z.mul_1_l. apply Z.mod_small. apply Z.leb_le in Et. destruct b; cbn [b2z] in *; lia.
  - split; [exact R1 |]. split; [rewrite E1, Er; lia | lia].
Qed.

(** The quotient has its bits down to [m]. *)
Lemma udiv_loop_val k s r q : (Z.of_nat k <= 16 * Z.of_nat n) -> at_bit s (Z.of_nat k - 1) -> reg n r -> reg n q ->
  val r = (val dividend / 2 ^ Z.of_nat k) mod val divisor ->
  val q = ((val dividend / 2 ^ Z.of_nat k) / val divisor) * 2 ^ Z.of_nat k ->
  let (r', q') := udiv_loop k s r q dividend divisor in
  reg n r' /\ reg n q' /\ val r' = val dividend mod val divisor /\ val q' = val dividend / val divisor.
Proof using All.
  revert s r q. induction k as [|k IH]; intros s r q Hk Hs Hr Hq Er Eq; cbn [udiv_loop].
  { change (2 ^ Z.of_nat 0) with 1 in *. rewrite Z.div_1_r in *. rewrite Z.mul_1_r in Eq. auto. }
  replace (Z.of_nat (S k) - 1) with (Z.of_nat k) in Hs by lia. replace (Z.of_nat (S k)) with (Z.of_nat k + 1) in * by lia.
  destruct (rem_step s (Z.of_nat k) r Hs ltac:(lia) Hr Er) as (R2 & E2 & Q2).
  set (r1 := fst (mp_rotate_left r (sniff_bit dividend s))) in *. set (t := mp_compare r1 divisor >=? 0) in *.
  set (h := (val dividend / 2 ^ (Z.of_nat k + 1)) / val divisor) in *.
  assert (Eq' : val q = (2 * h) * 2 ^ Z.of_nat k) by (rewrite Eq, Z.pow_add_r by lia; lia).
  assert (Hbump := bump_at s (Z.of_nat k) Hs). destruct t; cbn [b2z] in Q2.
  - destruct (stuff_at n q s (Z.of_nat k) Hq Hs) as [Rq Eq2].
    + lia.
    + rewrite Eq', Z.mul_pow2_bits by lia. rewrite Z.sub_diag. rewrite Z.bit0_odd, Z.odd_mul. reflexivity.
    + apply IH; [lia | exact Hbump | exact R2 | exact Rq | exact E2 |]. rewrite Eq2, Eq', Q2. lia.
  - apply IH; [lia | exact Hbump | exact R2 | exact Hq | exact E2 |]. rewrite Eq', Q2. lia.
Qed.

Lemma mod_loop_val k s r : at_bit s (Z.of_nat k - 1) -> reg n r ->
  val r = (val dividend / 2 ^ Z.of_nat k) mod val divisor ->
  reg n (mod_loop k s r dividend divisor) /\ val (mod_loop k s r dividend divisor) = val dividend mod val divisor.
Proof using All.
  revert s r. induction k as [|k IH]; intros s r Hs Hr Er; cbn [mod_loop].
  { change (2 ^ Z.of_nat 0) with 1 in *. rewrite Z.div_1_r in *. auto. }
  replace (Z.of_nat (S k) - 1) with (Z.of_nat k) in Hs by lia. replace (Z.of_nat (S k)) with (Z.of_nat k + 1) in * by lia.
  destruct (rem_step s (Z.of_nat k) r Hs ltac:(lia) Hr Er) as (R2 & E2 & _).
  apply IH; [now apply bump_at | exact R2 | exact E2].
Qed.

Lemma dividend_bits : 0 < val dividend -> Z.of_nat (Z.to_nat (Z.log2 (val dividend) + 1)) = Z.log2 (val dividend) + 1 /\
  Z.log2 (val dividend) + 1 <= 16 * Z.of_nat n.
Proof using All.
  intros Hp. pose proof (Z.log2_nonneg (val dividend)). split; [lia |]. pose proof (val_range n dividend Hdd) as V.
  unfold beta in V. assert (Z.log2 (val dividend) < 16 * Z.of_nat n) by (apply Z.log2_lt_pow2; lia). lia.
Qed.

Lemma mp_udiv_val r0 q0 : reg n r0 -> reg n q0 ->
  let '(status, r, q) := mp_udiv r0 q0 dividend divisor in
  status = 0 /\ reg n r /\ reg n q /\ val r = val dividend mod val divisor /\ val q = val dividend / val divisor.
Proof using All.
  intros Hr0 Hq0. unfold mp_udiv. rewrite (testeq_val n) by (assumption || (unfold is_u16; lia)).
  rewrite (proj2 (Z.eqb_neq (val divisor) 0)) by lia. rewrite (reg_length _ _ Hr0), (reg_length _ _ Hq0).
  destruct (mp_init_val n 0) as [Ri Ei]; [unfold is_u16; lia | exact Hn |].
  pose proof (init_bitsniffer_val n dividend Hdd) as H. pose proof (val_range n dividend Hdd).
  destruct (Z.eqb_spec (val dividend) 0) as [E0 | N0].
  { rewrite H. rewrite E0, Ei. rewrite Z.mod_0_l, Z.div_0_l by lia. auto. }
  destruct H as (s & -> & Hs). destruct (dividend_bits ltac:(lia)) as [Eb Lb].
  pose proof (udiv_loop_val (Z.to_nat (Z.log2 (val dividend) + 1)) s (mp_init n 0) (mp_init n 0)) as L.
  rewrite Eb, above_log2 in L by lia. rewrite Z.mod_0_l, Z.div_0_l, Ei in L by lia.
  specialize (L Lb ltac:(now replace (Z.log2 (val dividend) + 1 - 1) with (Z.log2 (val dividend)) by lia) Ri Ri eq_refl eq_refl).
  destruct (udiv_loop _ s _ _ dividend divisor) as [r q]. tauto.
Qed.

Lemma mp_mod_val r0 : reg n r0 ->
  let (status, r) := mp_mod r0 dividend divisor in status = 0 /\ reg n r /\ val r = val dividend mod val divisor.
Proof using All.
  intros Hr0. unfold mp_mod. rewrite (testeq_val n) by (assumption || (unfold is_u16; lia)).
  rewrite (proj2 (Z.eqb_neq (val divisor) 0)) by lia. rewrite (reg_length _ _ Hr0).
  destruct (mp_init_val n 0) as [Ri Ei]; [unfold is_u16; lia | exact Hn |].
  pose proof (init_bitsniffer_val n dividend Hdd) as H. pose proof (val_range n dividend Hdd).
  destruct (Z.eqb_spec (val dividend) 0) as [E0 | N0].
  { rewrite H. rewrite E0, Ei. rewrite Z.mod_0_l by lia. auto. }
  destruct H as (s & -> & Hs). destruct (dividend_bits ltac:(lia)) as [Eb Lb].
  pose proof (mod_loop_val (Z.to_nat (Z.log2 (val dividend) + 1)) s (mp_init n 0)) as L.
  rewrite Eb, above_log2 in L by lia. rewrite Z.mod_0_l, Ei in L by lia.
  specialize (L ltac:(now replace (Z.log2 (val dividend) + 1 - 1) with (Z.log2 (val dividend)) by lia) Ri eq_refl). tauto.
Qed.

End Division.

Lemma udiv_by_zero n r0 q0 dividend divisor : reg n divisor -> val divisor = 0 ->
  mp_udiv r0 q0 dividend divisor = (-1, r0, q0) /\ mp_mod r0 dividend divisor = (-1, r0).
Proof.
  intros Hd E. unfold mp_udiv, mp_mod. rewrite (testeq_val n) by (assumption || (unfold is_u16; lia)). now rewrite E.
Qed.

(** ** Multiplication *)

Lemma shift_left_val n a : reg n a -> reg n (mp_shift_left a) /\ val (mp_shift_left a) = (2 * val a) mod beta n.
Proof.
  intros Ha. unfold mp_shift_left. pose proof (mp_rotate_left_val n a false Ha) as H.
  destruct (mp_rotate_left a false) as [r c]. destruct H as [Hr E]. cbn [fst b2z] in *. split; [exact Hr |].
  apply (Z.mod_unique_pos _ _ (b2z c)); [now apply val_range | lia].
Qed.

Lemma mult_loop_val n k s p a b : reg n a -> reg n b -> at_bit s (Z.of_nat k - 1) -> reg n p ->
  val p = (val a * (val b / 2 ^ Z.of_nat k)) mod beta n ->
  reg n (mult_loop k s p a b) /\ val (mult_loop k s p a b) = (val a * val b) mod beta n.
Proof.
  intros Ha Hb. revert s p. induction k as [|k IH]; intros s p Hs Hp Ep; cbn [mult_loop].
  { change (2 ^ Z.of_nat 0) with 1 in Ep. rewrite Z.div_1_r in Ep. auto. }
  replace (Z.of_nat (S k) - 1) with (Z.of_nat k) in Hs by lia. replace (Z.of_nat (S k)) with (Z.of_nat k + 1) in * by lia.
  rewrite (sniff_at n b s (Z.of_nat k) Hb Hs) by lia. destruct (shift_left_val n p Hp) as [R1 E1].
  pose proof (val_range n b Hb). pose proof (beta_pos n). pose proof (high_bit (val b) (Z.of_nat k) ltac:(lia) ltac:(lia)) as HB.
  assert (E1' : val (mp_shift_left p) = (val a * (2 * (val b / 2 ^ (Z.of_nat k + 1)))) mod beta n)
    by (rewrite E1, Ep, Z.mul_mod_idemp_r by lia; f_equal; lia).
  apply bump_at in Hs. destruct (Z.testbit (val b) (Z.of_nat k)); cbn [b2z] in HB.
  - destruct (mp_add_val n _ a R1 Ha) as [R2 E2]. apply IH; [exact Hs | exact R2 |].
    rewrite E2, E1', Z.add_mod_idemp_l, HB by lia. f_equal. lia.
  - apply IH; [exact Hs | exact R1 |]. rewrite E1', HB. f_equal. lia.
Qed.

Lemma mp_mult_val n a b : (1 <= n)%nat -> reg n a -> reg n b ->
  reg n (mp_mult a b) /\ val (mp_mult a b) = (val a * val b) mod beta n.
Proof.
  intros Hn Ha Hb. unfold mp_mult. rewrite (reg_length _ _ Ha). pose proof (beta_pos n) as Bp.
  destruct (mp_init_val n 0) as [Ri Ei]; [unfold is_u16; lia | exact Hn |].
  rewrite (testeq_val n) by (assumption || (unfold is_u16; lia)).
  destruct (Z.eqb_spec (val a) 0) as [E0 | N0]; [split; [exact Ri | now rewrite Ei, E0, Z.mod_0_l by lia] |].
  pose proof (init_bitsniffer_val n b Hb) as H. pose proof (val_range n b Hb).
  destruct (Z.eqb_spec (val b) 0) as [E1 | N1]; [rewrite H; split; [exact Ri | now rewrite Ei, E1, Z.mul_0_r, Z.mod_0_l by lia] |].
  destruct H as (s & -> & Hs). pose proof (Z.log2_nonneg (val b)). apply mult_loop_val; try assumption.
  - rewrite Z2Nat.id by lia. now replace (Z.log2 (val b) + 1 - 1) with (Z.log2 (val b)) by lia.
  - rewrite Z2Nat.id, above_log2, Z.mul_0_r, Ei by lia. now rewrite Z.mod_0_l by lia.
Qed.

(** ** The reciprocal *)

(** The quotient's bits above [k], and what is left of the numerator. *)
Lemma recip_loop_val n D k s r q N Q : reg n D -> 2 * val D < beta n -> Z.of_nat k < 16 * Z.of_nat n ->
  at_bit s (Z.of_nat k) -> reg n r -> reg n q ->
  N = Q * val D + val r -> val r <= val D -> val q = Q * 2 ^ (Z.of_nat k + 1) ->
  exists Q' r', reg n (recip_loop k s r q D) /\ val (recip_loop k s r q D) = 2 * Q' /\
    N * 2 ^ Z.of_nat k = Q' * val D + r' /\ 0 <= r' <= val D /\ Q' < (Q + 1) * 2 ^ Z.of_nat k.
Proof.
  intros HD Hfit. revert s r q N Q. induction k as [|k IH]; intros s r q N Q Hk Hs Hr Hq EN Hle Eq; cbn [recip_loop].
  { change (2 ^ (Z.of_nat 0 + 1)) with 2 in Eq. change (2 ^ Z.of_nat 0) with 1.
    exists Q, (val r). pose proof (val_range n r Hr). split; [exact Hq |]. split; [lia |]. lia. }
  replace (Z.of_nat (S k)) with (Z.of_nat k + 1) in * by lia. pose proof (val_range n r Hr) as Vr.
  unfold mp_shift_left. destruct (rotate_fits n r false Hr) as [R1 E1]; [cbn [b2z]; lia |]. cbn [b2z] in E1.
  set (r1 := fst (mp_rotate_left r false)) in *. rewrite (compare_ge n r1 D R1 HD).
  assert (Hb := bump_at s _ Hs). replace (Z.of_nat k + 1 - 1) with (Z.of_nat k) in Hb by lia.
  assert (Eq2 : val q = 2 * Q * 2 ^ (Z.of_nat k + 1)) by (rewrite Eq, (Z.pow_add_r 2 (Z.of_nat k + 1) 1) by lia; lia).
  destruct (Z.leb_spec (val D) (val r1)) as [G | L].
  - destruct (mp_sub_val n r1 D R1 HD) as [R2 E2]. rewrite Z.mod_small in E2 by (pose proof (val_range n r1 R1); pose proof (val_range n D HD); lia).
    destruct (stuff_at n q s (Z.of_nat k + 1) Hq Hs) as [Rq Eq3]; [lia | |].
    { rewrite Eq2, Z.mul_pow2_bits, Z.sub_diag, Z.bit0_odd, Z.odd_mul by lia. reflexivity. }
    destruct (IH (bump_bitsniffer s) (mp_sub r1 D) (stuff_bit q s) (2 * N) (2 * Q + 1)) as (Q' & r' & A & B & C & F);
      [lia | exact Hb | exact R2 | exact Rq | lia | lia | lia |].
    exists Q', r'. split; [exact A |]. split; [exact B |]. rewrite Z.pow_add_r by lia. change (2 ^ 1) with 2.
    destruct F as [F G']. split; [lia |]. split; [exact F |].
    pose proof (Z.pow_pos_nonneg 2 (Z.of_nat k) ltac:(lia) ltac:(lia)). nia.
  - destruct (IH (bump_bitsniffer s) r1 q (2 * N) (2 * Q)) as (Q' & r' & A & B & C & F);
      [lia | exact Hb | exact R1 | exact Hq | lia | lia | lia |].
    exists Q', r'. split; [exact A |]. split; [exact B |]. rewrite Z.pow_add_r by lia. change (2 ^ 1) with 2.
    destruct F as [F G']. split; [lia |]. split; [exact F |].
    pose proof (Z.pow_pos_nonneg 2 (Z.of_nat k) ltac:(lia) ltac:(lia)). nia.
Qed.

Lemma mp_recip_val n q0 D : reg n D -> 0 < val D -> countbits D < 16 * Z.of_nat n -> (1 <= n)%nat ->
  let b := countbits D in
  let (status, q) := mp_recip q0 D in
  status = 0 /\ reg n q /\ exists Q r, val q = 2 * Q /\ 2 ^ (2 * b - 1) = Q * val D + r /\ 0 <= r <= val D /\ Q < 2 ^ b.
Proof.
  intros HD Hp Hb Hn b. unfold mp_recip. rewrite (testeq_val n) by (assumption || (unfold is_u16; lia)).
  rewrite (proj2 (Z.eqb_neq (val D) 0)) by lia. rewrite (reg_length _ _ HD).
  destruct (countbits_spec n D HD) as (B1 & B2 & B3). fold b in B1, B2, B3, Hb. unfold RECIPMARGIN.
  fold b. rewrite Z.add_0_r, Z.sub_0_r.
  assert (Hb0 : 0 < b) by (destruct (Z.eq_dec b 0) as [E |]; [rewrite E in B2; change (2 ^ 0) with 1 in B2 |]; lia).
  destruct (mp_init_val n 0) as [Ri Ei]; [unfold is_u16; lia | exact Hn |].
  destruct (setbit_val n (mp_init n 0) (b - 1) Ri) as [Rr Er]; [lia | rewrite Ei; apply Z.bits_0 |].
  rewrite Ei, Z.add_0_l in Er. split; [reflexivity |].
  destruct (recip_loop_val n D (Z.to_nat b) (bits2units (b + 1) - 1, bitmsk b) (mp_setbit (mp_init n 0) (b - 1)) (mp_init n 0)
    (2 ^ (b - 1)) 0) as (Q & r & A & B & C & F); try assumption; rewrite ?Z2Nat.id by lia; try lia.
  - unfold beta. apply (Z.lt_le_trans _ (2 * 2 ^ b)); [lia |]. change 2 with (2 ^ 1) at 1. rewrite <- Z.pow_add_r by lia.
    apply Z.pow_le_mono_r; lia.
  - split; cbn [fst snd].
    + unfold bits2units. rewrite shiftr_div by lia. change (2 ^ 4) with 16. zlia.
    + unfold bitmsk, power_of_2, UNITSIZE. change (16 - 1) with (2 ^ 4 - 1). rewrite land_mask by lia.
      change (2 ^ 4) with 16. pose proof (Z.mod_pos_bound b 16 ltac:(lia)). rewrite shiftl_mul, Z.mul_1_l by lia.
      apply u16_id. split; [apply Z.pow_nonneg; lia | apply Z.pow_lt_mono_r; lia].
  - split; [exact A |]. exists Q, r. split; [exact B |]. rewrite Z2Nat.id in * by lia. split; [| lia].
    rewrite <- C, <- Z.pow_add_r by lia. f_equal. lia.
Qed.

(** ** Short remainders *)

Lemma shortmod_loop_val n k s r dividend d : reg n dividend -> 0 < d <= 2 ^ 15 -> at_bit s (Z.of_nat k - 1) ->
  r = (val dividend / 2 ^ Z.of_nat k) mod d -> shortmod_loop k s r dividend d = val dividend mod d.
Proof.
  intros Hv Hd. revert s r. induction k as [|k IH]; intros s r Hs Er; cbn [shortmod_loop].
  { change (2 ^ Z.of_nat 0) with 1 in Er. now rewrite Z.div_1_r in Er. }
  replace (Z.of_nat (S k) - 1) with (Z.of_nat k) in Hs by lia. replace (Z.of_nat (S k)) with (Z.of_nat k + 1) in * by lia.
  rewrite (sniff_at n dividend s (Z.of_nat k) Hv Hs) by lia. pose proof (val_range n dividend Hv) as V.
  set (v := val dividend) in *. set (b := Z.testbit v (Z.of_nat k)). pose proof (Z.mod_pos_bound (v / 2 ^ (Z.of_nat k + 1)) d ltac:(lia)) as M.
  apply IH; [now apply bump_at |]. rewrite (high_bit v (Z.of_nat k)) by lia. fold b.
  destruct (div_step (v / 2 ^ (Z.of_nat k + 1)) d b) as [Em _]; [apply Z.div_pos; [lia | apply Z.pow_pos_nonneg; lia] | lia |].
  rewrite Em. rewrite <- Er in M |- *. rewrite shiftl_mul by lia. change (2 ^ 1) with 2.
  rewrite (u16_id (r * 2)) by (unfold is_u16; lia).
  assert (Er1 : (if b then u16 (r * 2 + 1) else r * 2) = 2 * r + b2z b)
    by (destruct b; cbn [b2z]; [rewrite u16_id by (unfold is_u16; lia) |]; lia).
  rewrite Er1, Z.geb_leb. destruct (d <=? 2 * r + b2z b) eqn:Et; cbn [b2z]; [| lia].
  apply Z.leb_le in Et. rewrite Z.mul_1_l. apply u16_id. unfold is_u16. destruct b; cbn [b2z] in *; lia.
Qed.

Lemma mp_shortmod_val n dividend d : reg n dividend -> 0 < d <= 2 ^ 15 -> mp_shortmod dividend d = val dividend mod d.
Proof.
  intros Hv Hd. unfold mp_shortmod. rewrite (proj2 (Z.eqb_neq d 0)) by lia.
  pose proof (init_bitsniffer_val n dividend Hv) as H. pose proof (val_range n dividend Hv).
  destruct (Z.eqb_spec (val dividend) 0) as [E0 | N0]; [rewrite H, E0; now rewrite Z.mod_0_l by lia |].
  destruct H as (s & -> & Hs). pose proof (Z.log2_nonneg (val dividend)). apply (shortmod_loop_val n); try assumption.
  - rewrite Z2Nat.id by lia. now replace (Z.log2 (val dividend) + 1 - 1) with (Z.log2 (val dividend)) by lia.
  - rewrite Z2Nat.id, above_log2 by lia. now rewrite Z.mod_0_l by lia.
Qed.

(** The remainder of one more bit, in a [word16]. *)
Lemma short_step r d (b : bool) : 0 <= r < d -> d <= 2 ^ 15 ->
  (if b then u16 (u16 (r << 1) + 1) else u16 (r << 1)) = 2 * r + b2z b /\ is_u16 (2 * r + b2z b).
Proof.
  intros Hr Hd. rewrite shiftl_mul by lia. change (2 ^ 1) with 2. rewrite (u16_id (r * 2)) by (unfold is_u16; lia).
  unfold is_u16. destruct b; cbn [b2z]; [rewrite u16_id by (unfold is_u16; lia) |]; lia.
Qed.

Lemma shortdiv_loop_val n k s r q dividend d : reg n dividend -> 0 < d <= 2 ^ 15 -> Z.of_nat k <= 16 * Z.of_nat n ->
  at_bit s (Z.of_nat k - 1) -> reg n q -> r = (val dividend / 2 ^ Z.of_nat k) mod d ->
  val q = ((val dividend / 2 ^ Z.of_nat k) / d) * 2 ^ Z.of_nat k ->
  let (r', q') := shortdiv_loop k s r q dividend d in reg n q' /\ r' = val dividend mod d /\ val q' = val dividend / d.
Proof.
  intros Hv Hd. revert s r q. induction k as [|k IH]; intros s r q Hk Hs Hq Er Eq; cbn [shortdiv_loop].
  { change (2 ^ Z.of_nat 0) with 1 in *. rewrite Z.div_1_r in *. rewrite Z.mul_1_r in Eq. auto. }
  replace (Z.of_nat (S k) - 1) with (Z.of_nat k) in Hs by lia. replace (Z.of_nat (S k)) with (Z.of_nat k + 1) in * by lia.
  rewrite (sniff_at n dividend s (Z.of_nat k) Hv Hs) by lia. pose proof (val_range n dividend Hv) as V.
  set (v := val dividend) in *. set (b := Z.testbit v (Z.of_nat k)). set (h := v / 2 ^ (Z.of_nat k + 1)) in *.
  assert (Hh : 0 <= h) by (apply Z.div_pos; [lia | apply Z.pow_pos_nonneg; lia]).
  pose proof (Z.mod_pos_bound h d ltac:(lia)) as M. rewrite <- Er in M.
  destruct (short_step r d b M (proj2 Hd)) as [-> U]. destruct (div_step h d b Hh (proj1 Hd)) as [Em Ed]. rewrite <- Er in Em, Ed.
  pose proof (high_bit v (Z.of_nat k) ltac:(lia) ltac:(lia)) as Hb. fold b h in Hb.
  assert (Eq' : val q = (2 * (h / d)) * 2 ^ Z.of_nat k) by (rewrite Eq, Z.pow_add_r by lia; lia).
  pose proof (bump_at s (Z.of_nat k) Hs) as Hbump. rewrite Z.geb_leb. destruct (d <=? 2 * r + b2z b) eqn:Et; cbn [b2z] in Em, Ed.
  - apply Z.leb_le in Et. destruct (stuff_at n q s (Z.of_nat k) Hq Hs) as [Rq Eq2].
    + lia.
    + rewrite Eq', Z.mul_pow2_bits by lia. rewrite Z.sub_diag. rewrite Z.bit0_odd, Z.odd_mul. reflexivity.
    + apply IH; [lia | exact Hbump | exact Rq | rewrite Hb, Em; unfold is_u16 in U; rewrite u16_id by (unfold is_u16; lia); lia |].
      rewrite Eq2, Eq', Hb, Ed. lia.
  - apply IH; [lia | exact Hbump | exact Hq | rewrite Hb, Em; lia | rewrite Eq', Hb, Ed; lia].
Qed.

(** Division by a short: the remainder returned and the quotient. *)
Lemma mp_shortdiv_val n q0 dividend d : (1 <= n)%nat -> reg n q0 -> reg n dividend -> 0 < d <= 2 ^ 15 ->
  let (r, q) := mp_shortdiv q0 dividend d in reg n q /\ r = val dividend mod d /\ val q = val dividend / d.
Proof.
  intros Hn Hq Hv Hd. unfold mp_shortdiv. rewrite (proj2 (Z.eqb_neq d 0)) by lia. rewrite (reg_length _ _ Hq).
  destruct (mp_init_val n 0) as [Ri Ei]; [unfold is_u16; lia | exact Hn |].
  pose proof (init_bitsniffer_val n dividend Hv) as H. pose proof (val_range n dividend Hv) as V.
  destruct (Z.eqb_spec (val dividend) 0) as [E0 | N0]; [rewrite H, E0, Ei, Z.mod_0_l, Z.div_0_l by lia; auto |].
  destruct H as (s & -> & Hs). pose proof (Z.log2_nonneg (val dividend)). unfold beta in V.
  assert (Z.log2 (val dividend) < 16 * Z.of_nat n) by (apply Z.log2_lt_pow2; lia). apply shortdiv_loop_val; try assumption; rewrite Z2Nat.id by lia.
  - lia.
  - now replace (Z.log2 (val dividend) + 1 - 1) with (Z.log2 (val dividend)) by lia.
  - rewrite above_log2 by lia. now rewrite Z.mod_0_l by lia.
  - rewrite above_log2, Z.div_0_l, Ei by lia. reflexivity.
Qed.

(** ** Signed division *)

(** The two's complement number of a register. *)
Definition sval (n : nat) (r : list Z) : Z := if beta n <=? 2 * val r then val r - beta n else val r.

Lemma sval_small n r : 2 * val r < beta n -> sval n r = val r.
Proof. intros H. unfold sval. now rewrite (proj2 (Z.leb_gt _ _)) by lia. Qed.

Lemma sval_neg n r : reg n r -> 2 * val r <= beta n -> reg n (mp_neg r) /\ sval n (mp_neg r) = - val r.
Proof.
  intros Hr H. destruct (mp_neg_val n r Hr) as [R E]. split; [exact R |]. unfold sval. rewrite E. pose proof (val_range n r Hr).
  destruct (Z.eq_dec (val r) 0) as [-> |]; [rewrite Z.mod_0_l, (proj2 (Z.leb_gt _ _)); lia |].
  rewrite <- (Z.mod_unique_pos (- val r) (beta n) (-1) (beta n - val r)) by lia. rewrite (proj2 (Z.leb_le _ _)); lia.
Qed.

(** The magnitude. *)
Lemma magnitude n r : reg n r -> (1 <= n)%nat ->
  let a := if mp_tstminus r then mp_neg r else r in
  mp_tstminus r = (sval n r <? 0) /\ reg n a /\ val a = Z.abs (sval n r) /\ 2 * val a <= beta n.
Proof.
  intros Hr Hn. rewrite (tstminus_val n r Hr Hn). unfold sval. pose proof (val_range n r Hr).
  destruct (mp_neg_val n r Hr) as [R E]. destruct (Z.leb_spec (beta n) (2 * val r)) as [L | G]; cbv zeta.
  - rewrite <- (Z.mod_unique_pos (- val r) (beta n) (-1) (beta n - val r)) in E by lia.
    rewrite (proj2 (Z.ltb_lt _ 0)) by lia. split; [reflexivity |]. split; [exact R |]. lia.
  - rewrite (proj2 (Z.ltb_ge _ 0)) by lia. split; [reflexivity |]. split; [exact Hr |]. lia.
Qed.

(** [mp_div] truncates: the quotient and the remainder of C, but for the one
    quotient that does not fit. *)
Theorem mp_div_correct n r0 q0 dividend divisor : (1 <= n)%nat -> reg n r0 -> reg n q0 -> reg n dividend -> reg n divisor ->
  sval n divisor <> 0 -> 2 * Z.abs (Z.quot (sval n dividend) (sval n divisor)) < beta n ->
  let '(status, r, q) := mp_div r0 q0 dividend divisor in
  status = 0 /\ sval n r = Z.rem (sval n dividend) (sval n divisor) /\ sval n q = Z.quot (sval n dividend) (sval n divisor).
Proof.
  intros Hn Hr0 Hq0 Hdd Hdv Hnz Hfit. unfold mp_div. destruct (magnitude n dividend Hdd Hn) as (S1 & R1 & V1 & B1).
  destruct (magnitude n divisor Hdv Hn) as (S2 & R2 & V2 & B2). set (dd := if mp_tstminus dividend then _ else _) in *.
  set (dv := if mp_tstminus divisor then _ else _) in *. set (x := sval n dividend) in *. set (y := sval n divisor) in *.
  pose proof (mp_udiv_val n dd dv Hn R1 R2 ltac:(lia) B2 r0 q0 Hr0 Hq0) as U. destruct (mp_udiv r0 q0 dd dv) as [[status r] q].
  destruct U as (-> & Rr & Rq & Er & Eq). change (0 <? 0) with false. cbv iota. split; [reflexivity |].
  rewrite V1, V2 in Er, Eq. rewrite Z.rem_mod, Z.quot_div in * by exact Hnz. pose proof (Z.mod_pos_bound (Z.abs x) (Z.abs y) ltac:(lia)) as M.
  assert (Q0 : 0 <= Z.abs x / Z.abs y) by (apply Z.div_pos; lia). rewrite <- Er in M |- *. rewrite <- Eq in Hfit, Q0 |- *. rewrite S1, S2.
  assert (Hq : x = 0 -> val q = 0) by (intros ->; rewrite Eq; apply Z.div_0_l; lia).
  split.
  - destruct (Z.ltb_spec x 0) as [L | G].
    + destruct (sval_neg n r Rr ltac:(lia)) as [_ ->]. rewrite Z.sgn_neg by lia. lia.
    + rewrite sval_small by lia. destruct (Z.eq_dec x 0) as [E0 |]; [rewrite E0 in Er |- *; rewrite Z.mod_0_l in Er; lia | rewrite Z.sgn_pos by lia; lia].
  - destruct (Z.ltb_spec x 0) as [L | G]; destruct (Z.ltb_spec y 0) as [L2 | G2]; cbn [xorb].
    + rewrite (Z.sgn_neg x), (Z.sgn_neg y) in * by lia. rewrite sval_small; lia.
    + rewrite (Z.sgn_neg x), (Z.sgn_pos y) in * by lia. destruct (sval_neg n q Rq ltac:(lia)) as [_ ->]. lia.
    + destruct (Z.eq_dec x 0) as [E0 |]; [specialize (Hq E0); destruct (sval_neg n q Rq ltac:(lia)) as [_ ->]; rewrite Hq; lia |].
      rewrite (Z.sgn_pos x), (Z.sgn_neg y) in * by lia. destruct (sval_neg n q Rq ltac:(lia)) as [_ ->]. lia.
    + destruct (Z.eq_dec x 0) as [E0 |]; [specialize (Hq E0); rewrite sval_small, Hq; [lia | pose proof (beta_pos n); lia] |].
      rewrite (Z.sgn_pos x), (Z.sgn_pos y) in * by lia. rewrite sval_small; lia.
Qed.
