(* ===== verification/PgpSmith.v ===== *)
(** * PGP: modular multiplication by Smith's algorithm

    Models the part of [security/pgp/src/mpilib.c] compiled with [SMITH], the
    default: the double-length product, the reciprocal of the modulus, and the
    reduction by long division with trial digits.  The width of [unsigned long]
    is a parameter: 64 on the Alpha, 32 on the ARM.  Multiplication units are
    units ([MULTUNIT_SIZE_SAME]).

    The dividend is kept as its one's complement, so that multiples of the
    modulus are subtracted by adding them.  A trial digit is never too small and
    at most one too large, provided [unsigned long] does not overflow. *)

From Stdlib Require Import ZArith Lia List Bool.
From S2P Require Import Prelude PgpMpi.
Import ListNotations.

Section Ulong.

(** The bits of [unsigned long]. *)
Variable W : Z.

Definition ul (x : Z) : Z := zext W x.

(** ** The product *)

(** [prod] is the array from the pointer on; the loop is over the multiplicand. *)
Fixpoint smul_loop (prod multiplicand : list Z) (multiplier carry : Z) : list Z :=
  match multiplicand, prod with
  | m :: multiplicand', x :: prod' =>
      let p := ul (multiplier * m) in
      let p := ul (p + ul (x + carry)) in
      u16 p :: smul_loop prod' multiplicand' multiplier (p >> 16)
  | [], x :: prod' => u16 (x + u16 carry) :: prod'
  | _, [] => []
  end.

Definition mp_smul (prod multiplicand : list Z) (multiplier : Z) : list Z := smul_loop prod multiplicand multiplier 0.

(** [mp_smul(post_higherunit(prodp), p_multiplicand, multiplier unit)] for every unit. *)
Fixpoint dmul_loop (prod multiplicand multiplier : list Z) : list Z :=
  match multiplier with
  | [] => prod
  | u :: multiplier' =>
      match mp_smul prod multiplicand u with
      | x :: prod' => x :: dmul_loop prod' multiplicand multiplier'
      | [] => []
      end
  end.

Definition mp_dmul (multiplicand multiplier : list Z) : list Z :=
  dmul_loop (repeat 0 (2 * length multiplicand)) multiplicand multiplier.

(** ** The modulus *)

Record smith := mkSmith {
  modulus : list Z;
  nbits : Z;
  modlenMULTUNITS : Z;
  mshift : Z;
  reciph : Z;
  recipl : Z
}.

(** [None] where the code reads below the array. *)
Definition stage_smith_modulus (n_modulus : list Z) : option smith :=
  let nbits := countbits n_modulus in
  let modlen := (nbits + UNITSIZE - 1) / UNITSIZE in
  let sigmod := significance n_modulus in
  let prec := 3 in
  if sigmod <? prec then None
  else
    let mod_divisor := firstn (Z.to_nat prec) (skipn (Z.to_nat (sigmod - prec)) n_modulus) in
    let mshift := countbits mod_divisor - 2 * UNITSIZE in
    let mod_divisor := mp_shift_right_bits mod_divisor mshift in
    let mod_quotient := snd (mp_recip (mp_init 3 0) mod_divisor) in
    let mod_quotient := mp_shift_right_bits mod_quotient 1 in
    let mshift := Z.rem (mshift + (UNITSIZE - 1)) UNITSIZE + 1 in
    let mod_quotient := fst (mp_inc mod_quotient) in
    let (mod_quotient, mshift) :=
      if countbits mod_quotient >? 2 * UNITSIZE then (mp_shift_right_bits mod_quotient 1, mshift - 1)
      else (mod_quotient, mshift) in
    Some (mkSmith n_modulus nbits modlen mshift mod_quotient.[1] mod_quotient.[0]).

(** ** The reduction *)

Definition MULTUNIT_mask : Z := 0xFFFF.
Definition MULTUNIT_msb : Z := 0x8000.

(** The trial digit; [dividend] is the array and [h] the index of its most significant unit. *)
Definition mp_quo_digit (st : smith) (dividend : list Z) (h : Z) : Z :=
  let d i := dividend.[h - i] .^ MULTUNIT_mask in
  let q1 := ul (ul (d 2 * reciph st) + reciph st) in
  let q2 := ul (ul (d 1 * recipl st) + (1 << 16)) in
  let q0 := ul (ul ((q1 >> 1) + (q2 >> 1)) + 1) in
  let q1 := ul (d 1 * reciph st) in
  let q2 := ul (d 0 * recipl st) in
  let q := ul (ul (ul ((q0 >> 16) + (q1 >> 1)) + (q2 >> 1)) + 1) in
  let q := ul ((q >> (16 - 2)) + ul (ul (d 0 * reciph st) << 1)) in
  let q := q >> mshift st in
  u16 (Z.min q ((1 << 16) - 1)).

(** A function applied to the array from index [i] on. *)
Definition at_index (i : Z) (f : list Z -> list Z) (d : list Z) : list Z :=
  firstn (Z.to_nat i) d ++ f (skipn (Z.to_nat i) d).

(** [if (mp_musubb(dmp, modulus, 0)) ( *dmph)--], over the units of the modulus. *)
Definition correct_digit (st : smith) (d : list Z) (h l : Z) : list Z :=
  let n := length (modulus st) in
  let part := firstn n (skipn (Z.to_nat l) d) in
  let (part, borrow) := mp_subb part (modulus st) false in
  let d := at_index l (fun x => part ++ skipn n x) d in
  if borrow then aset d h (u16 (d.[h] - 1)) else d.

Definition divide_step (st : smith) (d : list Z) (h l : Z) : list Z :=
  let q := mp_quo_digit st d h in
  if q >? 0 then
    let d := at_index l (fun x => mp_smul x (modulus st) q) d in
    if d.[h] .& MULTUNIT_msb =? 0 then correct_digit st d h l else d
  else d.

(** [nqd] digits; [dmph] and [dmpl] are indices. *)
Fixpoint divide_loop (nqd : nat) (st : smith) (d : list Z) (dmph dmpl : Z) : list Z :=
  match nqd with
  | O => d
  | S n => divide_loop n st (divide_step st d dmph dmpl) (dmph - 1) (dmpl - 1)
  end.

Definition smith_modmult (st : smith) (multiplicand multiplier : list Z) : list Z :=
  let orig_precision := length multiplicand in
  let d := aset (mp_dmul multiplicand multiplier ++ [0]) (2 * Z.of_nat orig_precision) 0 in
  let dmi := significance d in
  if dmi >=? modlenMULTUNITS st then
    let d := mp_neg (fst (mp_inc d)) in
    let dmph := dmi in
    let nqd := dmi + 1 - modlenMULTUNITS st in
    let dmpl := dmph - modlenMULTUNITS st in
    let d := divide_loop (Z.to_nat nqd) st d dmph dmpl in
    fst (mp_dec (mp_neg (firstn orig_precision d)))
  else firstn orig_precision d.

(** ** What the product computes *)

Hypothesis HW : 32 <= W.

Lemma ul_id x : 0 <= x < 2 ^ 32 -> ul x = x.
Proof using HW. intros Hx. apply zext_id. pose proof (Z.pow_le_mono_r 2 32 W ltac:(lia) HW). lia. Qed.

Lemma mod_digit lo y B b : 0 <= lo < B -> 0 < b -> lo + B * (y mod b) = (lo + B * y) mod (B * b).
Proof using.
  intros Hlo Hb. pose proof (Z.mod_pos_bound y b Hb). pose proof (Z.div_mod y b ltac:(lia)) as D.
  apply (Z.mod_unique_pos _ _ (y / b)); nia.
Qed.

(** The carry is added to the unit above the multiplicand, and stays there. *)
Lemma smul_loop_val n m p rest q c : reg n m -> reg (S n) p -> is_u16 q -> is_u16 c ->
  exists p', smul_loop (p ++ rest) m q c = p' ++ rest /\ reg (S n) p' /\
    val p' = (val p + q * val m + c) mod beta (S n).
Proof using HW.
  revert m p c. induction n as [|n IH]; intros m p c Hm Hp Hq Hc; unfold is_u16 in Hq, Hc.
  { apply reg_0_inv in Hm as ->. apply reg_S_inv in Hp as (x & p' & -> & Hx & Hp). apply reg_0_inv in Hp as ->.
    exists [u16 (x + c)]. cbn [smul_loop app]. rewrite (u16_id c) by exact Hc. split; [reflexivity |].
    split; [apply reg_cons; auto with cint |]. cbn [val]. unfold u16, zext. change (beta 1) with (2 ^ 16).
    rewrite Z.add_0_r. f_equal. lia. }
  apply reg_S_inv in Hm as (m0 & m' & -> & Hm0 & Hm). apply reg_S_inv in Hp as (x & p' & -> & Hx & Hp).
  unfold is_u16 in Hm0, Hx. cbn [smul_loop app]. cbv zeta.
  assert (Pq : 0 <= q * m0 <= (2 ^ 16 - 1) * (2 ^ 16 - 1)) by nia.
  assert (Et : ul (ul (q * m0) + ul (x + c)) = q * m0 + x + c)
    by (rewrite (ul_id (q * m0)), (ul_id (x + c)), ul_id by lia; lia).
  rewrite Et. set (t := q * m0 + x + c). rewrite shiftr_div by lia.
  assert (Ht : 0 <= t < 2 ^ 32) by (unfold t; lia).
  assert (Hhi : is_u16 (t / 2 ^ 16)) by (unfold is_u16; split; [apply Z.div_pos | apply Z.div_lt_upper_bound]; lia).
  destruct (IH m' p' (t / 2 ^ 16) Hm Hp Hq Hhi) as (r & -> & Hr & Er).
  exists (u16 t :: r). split; [reflexivity |]. split; [apply reg_cons; auto with cint |]. cbn [val].
  rewrite Er, (beta_S (S n)), mod_digit by (apply u16_range || apply beta_pos). f_equal.
  unfold u16, zext. pose proof (Z.div_mod t (2 ^ 16) ltac:(lia)) as D. unfold t in D at 1. lia.
Qed.

Lemma mp_smul_val n m p rest q : reg n m -> reg (S n) p -> is_u16 q ->
  exists p', mp_smul (p ++ rest) m q = p' ++ rest /\ reg (S n) p' /\ val p' = (val p + q * val m) mod beta (S n).
Proof using HW.
  intros Hm Hp Hq. destruct (smul_loop_val n m p rest q 0 Hm Hp Hq) as (p' & E & R & V); [unfold is_u16; lia |].
  exists p'. split; [exact E |]. split; [exact R |]. now rewrite V, Z.add_0_r.
Qed.

(** The accumulated part fits into as many units as the multiplicand. *)
Lemma dmul_loop_val n k m u a : reg n m -> reg k u -> reg n a ->
  reg (n + k) (dmul_loop (a ++ repeat 0 k) m u) /\ val (dmul_loop (a ++ repeat 0 k) m u) = val a + val m * val u.
Proof using HW.
  intros Hm. revert u a. induction k as [|k IH]; intros u a Hu Ha.
  { apply reg_0_inv in Hu as ->. cbn [repeat dmul_loop val]. rewrite app_nil_r, Nat.add_0_r. split; [exact Ha | lia]. }
  apply reg_S_inv in Hu as (u0 & u' & -> & Hu0 & Hu). cbn [dmul_loop].
  assert (Ha1 : reg (S n) (a ++ [0])).
  { replace (S n) with (n + 1)%nat by lia. apply reg_app; [exact Ha |]. apply reg_cons. split; [unfold is_u16; lia | auto with cint]. }
  replace (a ++ repeat 0 (S k)) with ((a ++ [0]) ++ repeat 0 k) by (now rewrite <- app_assoc).
  destruct (mp_smul_val n m (a ++ [0]) (repeat 0 k) u0 Hm Ha1 Hu0) as (p' & -> & Rp & Ep).
  apply reg_S_inv in Rp as (x & b & -> & Hx & Hb). cbn [app]. destruct (IH u' b Hu Hb) as [R V].
  split; [replace (n + S k)%nat with (S (n + k)) by lia; now apply reg_cons |]. cbn [val]. rewrite V. cbn [val] in Ep.
  rewrite val_app in Ep. cbn [val] in Ep. rewrite Z.mod_small in Ep; [lia |].
  pose proof (val_range n m Hm). pose proof (val_range n a Ha). unfold is_u16 in Hu0. rewrite beta_S. nia.
Qed.

Lemma mp_dmul_val n a b : reg n a -> reg n b -> reg (n + n) (mp_dmul a b) /\ val (mp_dmul a b) = val a * val b.
Proof using HW.
  intros Ha Hb. unfold mp_dmul. rewrite (reg_length _ _ Ha). replace (2 * n)%nat with (n + n)%nat by lia.
  rewrite repeat_app. destruct (dmul_loop_val n n a b (repeat 0 n) Ha Hb) as [R V].
  - split; [apply repeat_length |]. apply Forall_forall. intros x Hx. apply repeat_spec in Hx as ->. unfold is_u16. lia.
  - split; [exact R |]. now rewrite V, val_repeat.
Qed.

(** ** The trial digit *)

(** The computation of [mp_quo_digit] without overflow, before the last shift. *)
Definition quo_exact (d0 d1 d2 rh rl : Z) : Z :=
  let q0 := (d2 * rh + rh) / 2 + (d1 * rl + 2 ^ 16) / 2 + 1 in
  let q := q0 / 2 ^ 16 + d1 * rh / 2 + d0 * rl / 2 + 1 in
  q / 2 ^ 14 + 2 * (d0 * rh).

(** Rounded up from the product of the three units and the reciprocal, by little. *)
Lemma quo_exact_bounds d0 d1 d2 rh rl : is_u16 d0 -> is_u16 d1 -> is_u16 d2 -> is_u16 rh -> is_u16 rl ->
  let X := 2 ^ 32 * d0 + 2 ^ 16 * d1 + d2 in
  let r := 2 ^ 16 * rh + rl in
  let E := quo_exact d0 d1 d2 rh rl in
  r * (X + 1) <= 2 ^ 47 * (E + 1) /\ 2 ^ 47 * E <= X * r + 2 ^ 35 /\ 0 <= E.
Proof using.
  intros H0 H1 H2 Hh Hl X r E. unfold is_u16 in *. unfold E, quo_exact.
  assert (P : forall x y, 0 <= x < 2 ^ 16 -> 0 <= y < 2 ^ 16 -> 0 <= x * y <= (2 ^ 16 - 1) * y) by (intros; nia).
  pose proof (P d0 rh H0 Hh). pose proof (P d1 rh H1 Hh). pose proof (P d0 rl H0 Hl). pose proof (P d2 rh H2 Hh).
  pose proof (P d1 rl H1 Hl). pose proof (P d2 rl H2 Hl).
  assert (EX : X * r = 2 ^ 48 * (d0 * rh) + 2 ^ 32 * (d1 * rh + d0 * rl) + 2 ^ 16 * (d2 * rh + d1 * rl) + d2 * rl)
    by (unfold X, r; ring).
  replace (r * (X + 1)) with (X * r + r) by ring. rewrite EX. unfold r.
  set (a := d0 * rh) in *. set (b := d1 * rh) in *. set (c := d0 * rl) in *. set (e := d2 * rh) in *.
  set (f := d1 * rl) in *. set (g := d2 * rl) in *. clearbody a b c e f g. clear EX X r E P. zlia.
Qed.

Section Digit.

(** A modulus [m] of [n] units, and its scaled reciprocal. *)
Variables (n : nat) (m r s : Z).
Hypothesis Hn : (3 <= n)%nat.
Hypothesis Hm : 0 < m.
Hypothesis Hr : 2 ^ 31 <= r < 2 ^ 32.
Hypothesis Hs : 0 <= s <= 16.
Hypothesis r_low : 2 ^ (47 + s) * beta (n - 2) <= r * m.
Hypothesis r_high : 2 ^ 31 * ((r - 1) * m) < (2 ^ 31 + 1) * (2 ^ (47 + s) * beta (n - 2)).

(** The digit of the dividend [R]: never too small, at most one too large. *)
Lemma digit_bounds R E : 0 <= R < 2 ^ 16 * m ->
  let X := R / beta (n - 2) in
  r * (X + 1) <= 2 ^ 47 * (E + 1) -> 2 ^ 47 * E <= X * r + 2 ^ 35 -> 0 <= E ->
  R / m <= E / 2 ^ s <= R / m + 1 /\ E < 2 ^ s * (2 ^ 16 + 1).
Proof using Hn Hm Hr Hs r_low r_high.
  intros HR X L U HE. set (K := beta (n - 2)) in *. assert (HK : 0 < K) by apply beta_pos.
  pose proof (Z.div_mod R m ltac:(lia)) as DR. pose proof (Z.mod_pos_bound R m Hm) as MR.
  pose proof (Z.div_mod R K ltac:(lia)) as DK. pose proof (Z.mod_pos_bound R K HK) as MK. fold X in DK.
  set (Q := R / m) in *. assert (HQ : 0 <= Q < 2 ^ 16) by (split; [apply Z.div_pos | apply Z.div_lt_upper_bound]; lia).
  assert (HX : 0 <= X) by (apply Z.div_pos; lia).
  set (S2 := 2 ^ s) in *. assert (HS : 1 <= S2) by (unfold S2; pose proof (Z.pow_pos_nonneg 2 s ltac:(lia) ltac:(lia)); lia).
  assert (E47 : 2 ^ (47 + s) = 2 ^ 47 * S2) by (unfold S2; rewrite Z.pow_add_r by lia; reflexivity). rewrite E47 in *.
  assert (Low : S2 * Q <= E).
  { destruct (Z_le_gt_dec (S2 * Q) E) as [|G]; [assumption | exfalso].
    assert (A1 : 2 ^ 47 * (E + 1) <= 2 ^ 47 * (S2 * Q)) by lia.
    assert (A2 : 2 ^ 47 * (S2 * Q) * K <= r * m * Q) by nia.
    assert (A3 : r * m * Q <= r * R) by nia.
    assert (A4 : r * R < r * ((X + 1) * K)) by (apply Z.mul_lt_mono_pos_l; nia).
    assert (A5 : r * (X + 1) * K <= 2 ^ 47 * (E + 1) * K) by nia. nia. }
  assert (Hm2 : m < 2 ^ 17 * (S2 * K)).
  { assert (A1 : 2 ^ 31 * ((2 ^ 31 - 1) * m) <= 2 ^ 31 * ((r - 1) * m)) by nia.
    assert (A2 : 0 < S2 * K) by nia. replace (2 ^ 47 * S2 * K) with (2 ^ 47 * (S2 * K)) in r_high by ring.
    set (SK := S2 * K) in *. set (rm := (r - 1) * m) in *. clearbody SK rm. lia. }
  assert (High : E < S2 * (Q + 2)).
  { destruct (Z_lt_ge_dec E (S2 * (Q + 2))) as [|G]; [assumption | exfalso].
    assert (A1 : 2 ^ 47 * (S2 * (Q + 2)) * K <= (X * r + 2 ^ 35) * K) by nia.
    assert (A2 : X * r * K <= R * r) by nia.
    assert (A3 : R * r = R * (r - 1) + R) by ring.
    assert (A4 : R * (r - 1) <= (r - 1) * m * (Q + 1)).
    { replace ((r - 1) * m * (Q + 1)) with ((m * Q + m) * (r - 1)) by ring. apply Z.mul_le_mono_nonneg_r; lia. }
    set (SK := S2 * K) in *. assert (HSK : K <= SK) by (unfold SK; rewrite <- (Z.mul_1_l K) at 1; apply Z.mul_le_mono_nonneg_r; lia).
    assert (A5 : 2 ^ 31 * ((r - 1) * m) * (Q + 1) <= (2 ^ 31 + 1) * (2 ^ 47 * SK) * (Q + 1)).
    { apply Z.mul_le_mono_nonneg_r; [lia |]. unfold SK. lia. }
    assert (A6 : SK * (Q + 1) <= SK * 2 ^ 16) by (apply Z.mul_le_mono_nonneg_l; lia). assert (A7 : R < 2 ^ 16 * (2 ^ 17 * SK)) by lia.
    replace (2 ^ 47 * (S2 * (Q + 2)) * K) with (2 ^ 47 * (SK * (Q + 1)) + 2 ^ 47 * SK) in A1 by (unfold SK; ring).
    replace ((X * r + 2 ^ 35) * K) with (X * r * K + 2 ^ 35 * K) in A1 by ring.
    replace ((2 ^ 31 + 1) * (2 ^ 47 * SK) * (Q + 1)) with (2 ^ 31 * (2 ^ 47 * (SK * (Q + 1))) + 2 ^ 47 * (SK * (Q + 1))) in A5 by ring.
    replace (2 ^ 31 * ((r - 1) * m) * (Q + 1)) with (2 ^ 31 * ((r - 1) * m * (Q + 1))) in A5 by ring.
    set (T := SK * (Q + 1)) in *. set (V := (r - 1) * m * (Q + 1)) in *. set (Y := R * (r - 1)) in *.
    set (Z1 := X * r * K) in *. set (Z2 := R * r) in *. clearbody T V Y Z1 Z2 SK. lia. }
  split; [split |].
  - apply Z.div_le_lower_bound; lia.
  - enough (E / S2 < Q + 2) by lia. apply Z.div_lt_upper_bound; lia.
  - apply (Z.lt_le_trans _ _ _ High), Z.mul_le_mono_nonneg_l; lia.
Qed.

End Digit.

End Ulong.

(** ** The staged modulus *)

(** What the reduction relies on. *)
Record staged (n : nat) (m : list Z) (st : smith) : Prop := {
  st_modulus : modulus st = m;
  st_len : modlenMULTUNITS st = Z.of_nat n;
  st_h : is_u16 (reciph st);
  st_l : is_u16 (recipl st);
  st_recip : 2 ^ 31 <= 2 ^ 16 * reciph st + recipl st < 2 ^ 32;
  st_shift : 0 <= mshift st <= 16;
  st_low : 2 ^ (47 + mshift st) * beta (n - 2) <= (2 ^ 16 * reciph st + recipl st) * val m;
  st_high : 2 ^ 31 * ((2 ^ 16 * reciph st + recipl st - 1) * val m) < (2 ^ 31 + 1) * (2 ^ (47 + mshift st) * beta (n - 2));
  (** a modulus whose top unit has its top bit clear is shifted by less *)
  st_bits : 2 * val m < beta n -> mshift st <= 15
}.

(** The reciprocal [Q + 1] of the top 32 bits [D], rounded up. *)
Lemma recip_low Q D r P v : 0 < P -> 0 <= D -> D * P <= v -> 2 ^ 63 = Q * D + r -> 0 <= r <= D -> 0 <= Q ->
  2 ^ 63 * P <= (Q + 1) * v.
Proof.
  intros HP HD Hv E Hr HQ. apply (Z.le_trans _ ((Q + 1) * (D * P))); [| apply Z.mul_le_mono_nonneg_l; lia].
  replace ((Q + 1) * (D * P)) with ((Q * D + D) * P) by ring. apply Z.mul_le_mono_nonneg_r; lia.
Qed.

Lemma recip_high Q D r P v : 0 < P -> v < (D + 1) * P -> 2 ^ 63 = Q * D + r -> 0 <= r <= D -> 0 < Q < 2 ^ 32 ->
  2 ^ 31 * (Q * v) < (2 ^ 31 + 1) * (2 ^ 63 * P).
Proof.
  intros HP Hv E Hr HQ. assert (A1 : Q * v < Q * ((D + 1) * P)) by (apply Z.mul_lt_mono_pos_l; lia).
  assert (A2 : Q * ((D + 1) * P) <= (2 ^ 63 + Q) * P)
    by (replace (Q * ((D + 1) * P)) with ((Q * D + Q) * P) by ring; apply Z.mul_le_mono_nonneg_r; lia).
  assert (A3 : (2 ^ 63 + Q) * P <= (2 ^ 63 + 2 ^ 32) * P) by (apply Z.mul_le_mono_nonneg_r; lia). lia.
Qed.

Lemma two_units x : reg 3 x -> val x < 2 ^ 32 ->
  is_u16 x.[1] /\ is_u16 x.[0] /\ 2 ^ 16 * x.[1] + x.[0] = val x.
Proof.
  intros Hx H. pose proof (val_range 3 x Hx). split; [now apply (reg_unit 3) |]. split; [now apply (reg_unit 3) |].
  rewrite (val_unit 3 x 1 Hx), (val_unit 3 x 0 Hx) by lia. change (16 * 1) with 16. change (2 ^ (16 * 0)) with 1.
  rewrite Z.div_1_r. zlia.
Qed.

(** The three top units of a modulus. *)
Lemma modulus_top n m : reg n m -> (3 <= n)%nat -> beta (n - 1) <= val m ->
  let md := firstn (Z.to_nat 3) (skipn (Z.to_nat (significance m - 3)) m) in
  significance m = Z.of_nat n /\ reg 3 md /\ val md = val m / beta (n - 3) /\ 2 ^ 32 <= val md < 2 ^ 48.
Proof.
  intros Hm Hn Htop md. pose proof (val_range n m Hm) as V.
  assert (Bn : beta n = 2 ^ 48 * beta (n - 3)) by (replace n with (3 + (n - 3))%nat at 1 by lia; rewrite beta_add; reflexivity).
  assert (Bn1 : beta (n - 1) = 2 ^ 32 * beta (n - 3)) by (replace (n - 1)%nat with (2 + (n - 3))%nat by lia; rewrite beta_add; reflexivity).
  pose proof (beta_pos (n - 3)). assert (Hsig : significance m = Z.of_nat n).
  { apply (significance_unique n); [exact Hm | lia |]. unfold beta in Htop, V.
    replace (16 * (Z.of_nat n - 1)) with (16 * Z.of_nat (n - 1)) by lia. lia. }
  assert (Rmd : reg 3 md /\ val md = val m / beta (n - 3)).
  { unfold md. rewrite Hsig. replace (Z.to_nat (Z.of_nat n - 3)) with (n - 3)%nat by lia.
    pose proof (reg_skipn n (n - 3) m Hm) as Rs. replace (n - (n - 3))%nat with 3%nat in Rs by lia.
    change (Z.to_nat 3) with 3%nat. rewrite firstn_all2 by (rewrite (reg_length _ _ Rs); lia).
    split; [exact Rs |]. apply (val_skipn n); [exact Hm | lia]. }
  destruct Rmd as [Rmd Emd]. split; [exact Hsig |]. split; [exact Rmd |]. split; [exact Emd |]. rewrite Emd.
  split; [apply Z.div_le_lower_bound | apply Z.div_lt_upper_bound]; lia.
Qed.

(** The reciprocal of their top 32 bits, rounded up. *)
Lemma reciprocal_ok md : reg 3 md -> 2 ^ 32 <= val md < 2 ^ 48 ->
  exists t D Q rr q2, countbits md = 32 + t /\ 1 <= t <= 16 /\ D = val md / 2 ^ t /\ 2 ^ 31 <= D < 2 ^ 32 /\
    reg 3 q2 /\ val q2 = Q + 1 /\ 2 ^ 63 = Q * D + rr /\ 0 <= rr <= D /\ 2 ^ 31 <= Q < 2 ^ 32 /\
    fst (mp_inc (mp_shift_right_bits (snd (mp_recip (mp_init 3 0) (mp_shift_right_bits md t))) 1)) = q2.
Proof.
  intros Rmd Hmd. pose proof (countbits_spec 3 md Rmd) as (C1 & C2 & C3).
  assert (Ct : exists t, countbits md = 32 + t /\ 1 <= t <= 16).
  { exists (countbits md - 32). assert (32 < countbits md); [| lia]. apply (Z.pow_lt_mono_r_iff 2); lia. }
  destruct Ct as (t & Ct & Ht). rewrite Ct in C2, C3. specialize (C3 ltac:(lia)).
  replace (32 + t - 1) with (31 + t) in C3 by lia. rewrite Z.pow_add_r in C2, C3 by lia.
  pose proof (Z.pow_pos_nonneg 2 t ltac:(lia) ltac:(lia)) as HPt.
  destruct (mp_shift_right_bits_val 3 md t Rmd) as [RD ED]; [lia |].
  set (Dr := mp_shift_right_bits md t) in *. set (D := val Dr) in *.
  assert (HD : 2 ^ 31 <= D < 2 ^ 32) by (rewrite ED; split; [apply Z.div_le_lower_bound | apply Z.div_lt_upper_bound]; lia).
  assert (HcD : countbits Dr = 32) by (apply (countbits_unique 3); [exact RD | lia | exact HD]).
  pose proof (mp_recip_val 3 (mp_init 3 0) Dr RD) as HQ. fold D in HQ. rewrite HcD in HQ.
  specialize (HQ ltac:(lia) ltac:(lia) ltac:(lia)). cbv zeta in HQ.
  destruct (mp_recip (mp_init 3 0) Dr) as [status q] eqn:Eq. destruct HQ as (_ & Rq & Q & rr & Vq & EQ & Hrr & HQ32).
  change (2 * 32 - 1) with 63 in EQ. assert (HQ31 : 2 ^ 31 <= Q) by nia.
  destruct (mp_shift_right_bits_val 3 q 1 Rq) as [Rq1 Eq1]; [lia |].
  rewrite Vq in Eq1. change (2 ^ 1) with 2 in Eq1. rewrite Z.mul_comm, Z.div_mul in Eq1 by lia.
  destruct (inc_val 3 _ Rq1) as [Rq2 Eq2]. rewrite Eq1, Z.mod_small in Eq2 by (change (beta 3) with (2 ^ 48); lia).
  exists t, D, Q, rr. eexists. cbn [snd]. split; [exact Ct |]. split; [exact Ht |]. split; [exact ED |]. split; [exact HD |].
  split; [exact Rq2 |]. split; [exact Eq2 |]. split; [exact EQ |]. split; [lia |]. split; [lia |]. fold Dr. now rewrite Eq.
Qed.

Lemma stage_ok n m : reg n m -> (3 <= n)%nat -> beta (n - 1) <= val m ->
  exists st, stage_smith_modulus m = Some st /\ staged n m st.
Proof.
  intros Hm Hn Htop. pose proof (val_range n m Hm) as V. set (v := val m) in *.
  assert (Bn : beta n = 2 ^ 48 * beta (n - 3)) by (replace n with (3 + (n - 3))%nat at 1 by lia; rewrite beta_add; reflexivity).
  assert (Bn1 : beta (n - 1) = 2 ^ 32 * beta (n - 3)) by (replace (n - 1)%nat with (2 + (n - 3))%nat by lia; rewrite beta_add; reflexivity).
  assert (Bn2 : beta (n - 2) = 2 ^ 16 * beta (n - 3)) by (replace (n - 2)%nat with (1 + (n - 3))%nat by lia; rewrite beta_add; reflexivity).
  pose proof (beta_pos (n - 3)) as Hb3. set (K := beta (n - 3)) in *.
  destruct (modulus_top n m Hm Hn Htop) as (Hsig & Rmd & Emd & Hmd). set (md := firstn (Z.to_nat 3) (skipn (Z.to_nat (significance m - 3)) m)) in *.
  fold v K in Emd. destruct (reciprocal_ok md Rmd Hmd) as (t & D & Q & rr & q2 & Ct & Ht & ED & HD & Rq2 & Eq2 & EQ & Hrr & HQ31 & Hq2).
  set (Pt := 2 ^ t) in *. assert (HPt : 2 <= Pt) by (unfold Pt; change 2 with (2 ^ 1) at 1; apply Z.pow_le_mono_r; lia).
  assert (HKP : 0 < K * Pt) by nia. assert (HDv : D * (K * Pt) <= v < (D + 1) * (K * Pt)).
  { rewrite ED, Emd, Z.div_div by lia. pose proof (Z.div_mod v (K * Pt) ltac:(lia)). pose proof (Z.mod_pos_bound v (K * Pt) HKP). lia. }
  assert (Hbits : 2 * v < beta n -> t <= 15).
  { intros Hv. destruct (Z.eq_dec t 16) as [E16 |]; [| lia]. exfalso. unfold Pt in HDv. rewrite E16 in HDv. nia. }
  unfold stage_smith_modulus. rewrite Hsig. change UNITSIZE with 16. fold v. destruct (Z.ltb_spec (Z.of_nat n) 3); [lia |].
  rewrite <- Hsig. fold md. change (2 * 16) with 32. rewrite Ct. replace (32 + t - 32) with t by lia.
  rewrite Hq2. change (16 - 1) with 15.
  replace (Z.rem (t + 15) 16 + 1) with t by (rewrite Z.rem_mod_nonneg by lia; zlia).
  assert (Hlen : (countbits m + 16 - 1) / 16 = Z.of_nat n).
  { destruct (countbits_spec n m Hm) as (B1 & B2 & B3). fold v in B2, B3. unfold beta in Htop.
    assert (16 * Z.of_nat (n - 1) < countbits m) by (apply (Z.pow_lt_mono_r_iff 2); lia).
    symmetry. apply (Z.div_unique_pos _ _ _ (countbits m + 15 - 16 * Z.of_nat n)); lia. }
  rewrite Hlen. destruct (countbits_spec 3 q2 Rq2) as (B1 & B2 & B3). rewrite Eq2 in B2, B3. rewrite Z.gtb_ltb.
  destruct (Z.ltb_spec 32 (countbits q2)) as [G | L].
  - assert (2 ^ 32 <= 2 ^ (countbits q2 - 1)) by (apply Z.pow_le_mono_r; lia). assert (EQ32 : Q = 2 ^ 32 - 1) by lia.
    assert (ED31 : D = 2 ^ 31) by lia. destruct (mp_shift_right_bits_val 3 q2 1 Rq2) as [R3 E3]; [lia |].
    rewrite Eq2, EQ32 in E3. change ((2 ^ 32 - 1 + 1) / 2 ^ 1) with (2 ^ 31) in E3.
    destruct (two_units _ R3) as (U1 & U0 & Er); [lia |]. rewrite E3 in Er.
    eexists. split; [reflexivity |]. split; cbn [modulus modlenMULTUNITS mshift reciph recipl]; auto; try lia.
    + fold v. rewrite Er, Bn2. replace (47 + (t - 1)) with (46 + t) by lia. rewrite Z.pow_add_r by lia. fold Pt.
      rewrite ED31 in HDv. clear - HDv. set (KP := K * Pt) in *.
      replace (2 ^ 46 * Pt * (2 ^ 16 * K)) with (2 ^ 62 * KP) by (unfold KP; ring). lia.
    + fold v. rewrite Er, Bn2. replace (47 + (t - 1)) with (46 + t) by lia. rewrite Z.pow_add_r by lia. fold Pt.
      rewrite ED31 in HDv. set (KP := K * Pt) in *.
      replace (2 ^ 46 * Pt * (2 ^ 16 * K)) with (2 ^ 62 * KP) by (unfold KP; ring). clearbody KP. lia.
  - assert (Q + 1 < 2 ^ 32) by (apply (Z.lt_le_trans _ _ _ B2), Z.pow_le_mono_r; lia).
    destruct (two_units _ Rq2) as (U1 & U0 & Er); [lia |]. rewrite Eq2 in Er.
    assert (EP : 2 ^ (47 + t) * beta (n - 2) = 2 ^ 63 * (K * Pt)) by (rewrite Bn2, Z.pow_add_r by lia; fold Pt; ring).
    eexists. split; [reflexivity |]. split; cbn [modulus modlenMULTUNITS mshift reciph recipl]; auto; try lia; rewrite Er, EP.
    + apply (recip_low Q D rr); lia.
    + replace (Q + 1 - 1) with Q by lia. apply (recip_high Q D rr); lia.
Qed.

(** ** The division loop *)

Lemma mask_complement x : is_u16 x -> x .^ MULTUNIT_mask = u16 (Z.lnot x).
Proof.
  intros Hx. change MULTUNIT_mask with (Z.ones 16). unfold u16, zext. rewrite <- Z.land_ones by lia.
  apply Z.bits_inj'. intros k Hk. rewrite Z.lxor_spec, Z.land_spec, Z.lnot_spec, Z.testbit_ones_nonneg by lia.
  destruct (Z.ltb_spec k 16); [now rewrite xorb_true_r, andb_true_r |].
  rewrite (testbit_small x 16) by (unfold is_u16 in Hx; lia). reflexivity.
Qed.

Lemma aget_map_complement n w i : reg n w -> 0 <= i < Z.of_nat n ->
  (map (fun x => u16 (Z.lnot x)) w).[i] = w.[i] .^ MULTUNIT_mask.
Proof.
  intros Hw Hi. rewrite mask_complement by (now apply (reg_unit n)). unfold aget.
  rewrite (nth_indep _ 0 (u16 (Z.lnot 0))) by (rewrite length_map, (reg_length _ _ Hw); lia).
  apply (map_nth (fun x => u16 (Z.lnot x))).
Qed.

(** The three most significant units of a number of [n + 1] units. *)
Lemma top_three n c : reg (S n) c -> (2 <= n)%nat ->
  val c / beta (n - 2) = 2 ^ 32 * c.[Z.of_nat n] + 2 ^ 16 * c.[Z.of_nat n - 1] + c.[Z.of_nat n - 2].
Proof.
  intros Hc Hn. rewrite <- (val_skipn (S n) (n - 2) c Hc) by lia.
  rewrite (skipn_aget c (n - 2)), (skipn_aget c (S (n - 2))), (skipn_aget c (S (S (n - 2))))
    by (rewrite (reg_length _ _ Hc); lia).
  rewrite skipn_all2 by (rewrite (reg_length _ _ Hc); lia). cbn [val].
  replace (Z.of_nat (n - 2)) with (Z.of_nat n - 2) by lia. replace (Z.of_nat (S (n - 2))) with (Z.of_nat n - 1) by lia.
  replace (Z.of_nat (S (S (n - 2)))) with (Z.of_nat n) by lia. lia.
Qed.

(** The trial quotient but for its leading product, which does not overflow. *)
Lemma quo_sum W d0 d1 d2 rh rl : 32 <= W -> is_u16 d0 -> is_u16 d1 -> is_u16 d2 -> is_u16 rh -> is_u16 rl ->
  ul W (ul W (ul W ((ul W (ul W ((ul W (ul W (d2 * rh) + rh) >> 1) + (ul W (ul W (d1 * rl) + (1 << 16)) >> 1)) + 1) >> 16)
    + (ul W (d1 * rh) >> 1)) + (ul W (d0 * rl) >> 1)) + 1) >> (16 - 2) =
  quo_exact d0 d1 d2 rh rl - 2 * (d0 * rh).
Proof.
  intros HW H0 H1 H2 Sh Sl. unfold quo_exact, is_u16 in *. cbv zeta. change (1 << 16) with (2 ^ 16). change (16 - 2) with 14.
  assert (P : forall x y, 0 <= x < 2 ^ 16 -> 0 <= y < 2 ^ 16 -> 0 <= x * y <= (2 ^ 16 - 1) * (2 ^ 16 - 1)) by (intros; nia).
  pose proof (P d2 rh H2 Sh). pose proof (P d1 rl H1 Sl). pose proof (P d1 rh H1 Sh). pose proof (P d0 rl H0 Sl).
  rewrite !shiftr_div by lia. change (2 ^ 1) with 2.
  rewrite (ul_id W HW (d2 * rh)), (ul_id W HW (d1 * rl)), (ul_id W HW (d1 * rh)), (ul_id W HW (d0 * rl)) by lia.
  rewrite (ul_id W HW (d2 * rh + rh)), (ul_id W HW (d1 * rl + 2 ^ 16)) by lia.
  assert (B : forall x, 0 <= x < 2 ^ 32 -> 0 <= x / 2 < 2 ^ 31) by (intros; zlia).
  pose proof (B (d2 * rh + rh) ltac:(lia)). pose proof (B (d1 * rl + 2 ^ 16) ltac:(lia)).
  pose proof (B (d1 * rh) ltac:(lia)). pose proof (B (d0 * rl) ltac:(lia)).
  assert (Bh : forall x, 0 <= x <= (2 ^ 16 - 1) * (2 ^ 16 - 1) -> x / 2 <= 2 ^ 31 - 2 ^ 16) by (intros; zlia).
  pose proof (Bh (d1 * rh) ltac:(lia)). pose proof (Bh (d0 * rl) ltac:(lia)).
  set (x1 := (d2 * rh + rh) / 2) in *. set (x2 := (d1 * rl + 2 ^ 16) / 2) in *. set (x3 := d1 * rh / 2) in *.
  set (x4 := d0 * rl / 2) in *. clearbody x1 x2 x3 x4.
  rewrite (ul_id W HW (x1 + x2)) by lia. rewrite (ul_id W HW (x1 + x2 + 1)) by lia.
  assert (Bq : 0 <= (x1 + x2 + 1) / 2 ^ 16 < 2 ^ 16) by (split; [apply Z.div_pos | apply Z.div_lt_upper_bound]; lia).
  set (x5 := (x1 + x2 + 1) / 2 ^ 16) in *. clearbody x5.
  rewrite (ul_id W HW (x5 + x3)) by lia. rewrite (ul_id W HW (x5 + x3 + x4)) by lia. rewrite (ul_id W HW (x5 + x3 + x4 + 1)) by lia. lia.
Qed.

Lemma at_index_app lo x f : at_index (Z.of_nat (length lo)) f (lo ++ x) = lo ++ f x.
Proof.
  unfold at_index. rewrite Nat2Z.id, firstn_app, skipn_app, Nat.sub_diag, firstn_all, skipn_all.
  cbn [firstn skipn app]. now rewrite app_nil_r.
Qed.

(** The top unit of a window. *)
Lemma window_top n lo x y : reg (S n) x -> (lo ++ x ++ y).[Z.of_nat (length lo + n)] = x.[Z.of_nat n].
Proof.
  intros Hx. rewrite aget_app_r by lia. rewrite aget_app_l by (rewrite (reg_length _ _ Hx); lia). f_equal. lia.
Qed.

Lemma window_top_set lo part x hi v :
  aset (lo ++ (part ++ [x]) ++ hi) (Z.of_nat (length lo + length part)) v = lo ++ (part ++ [v]) ++ hi.
Proof.
  unfold aset. rewrite Nat2Z.id. rewrite upd_split by (rewrite !length_app; simpl length; lia).
  rewrite <- !app_assoc. rewrite firstn_app, firstn_all2 by lia.
  replace (length lo + length part - length lo)%nat with (length part) by lia.
  rewrite firstn_app, firstn_all, Nat.sub_diag. cbn [firstn]. rewrite app_nil_r, <- app_assoc. do 3 f_equal.
  replace (S (length lo + length part)) with (length lo + S (length part))%nat by lia.
  rewrite skipn_app, skipn_all2 by lia. replace (length lo + S (length part) - length lo)%nat with (S (length part)) by lia.
  cbn [app]. now apply skipn_past.
Qed.

Section Reduction.

Variables (W : Z) (n : nat) (m : list Z) (st : smith).
Hypothesis HW : 32 <= W.
Hypothesis Hn : (3 <= n)%nat.
Hypothesis Hm : reg n m.
Hypothesis Hpos : 0 < val m.
Hypothesis Hst : staged n m st.
(** the trial digit fits an [unsigned long] before it is shifted *)
Hypothesis Hov : 2 ^ mshift st * (2 ^ 16 + 1) <= 2 ^ W.

(** The value whose complement is in the window. *)
Definition compl (k : nat) (w : list Z) : Z := beta k - 1 - val w.

Lemma quo_digit_val lo w hi : reg (S n) w -> compl (S n) w < 2 ^ 16 * val m ->
  let q := mp_quo_digit W st (lo ++ w ++ hi) (Z.of_nat (length lo + n)) in
  is_u16 q /\ compl (S n) w / val m <= q <= compl (S n) w / val m + 1.
Proof using HW Hn Hm Hpos Hst Hov.
  intros Hw HR q. destruct Hst as [_ _ Sh Sl Sr Ss Slow Shigh _].
  destruct (complement_val (S n) w Hw) as [Rc Ec]. set (c := map (fun x => u16 (Z.lnot x)) w) in *.
  change (beta (S n) - 1 - val w) with (compl (S n) w) in Ec. set (R := compl (S n) w) in *.
  pose proof (val_range (S n) c Rc) as Vc. rewrite Ec in Vc.
  assert (G : forall i, 0 <= i <= 2 -> (lo ++ w ++ hi).[Z.of_nat (length lo + n) - i] .^ MULTUNIT_mask = c.[Z.of_nat n - i]).
  { intros i Hi. unfold c. rewrite (aget_map_complement (S n)) by (assumption || lia). f_equal.
    rewrite aget_app_r by lia. rewrite aget_app_l by (rewrite (reg_length _ _ Hw); lia). f_equal. lia. }
  unfold q, mp_quo_digit. rewrite !G by lia. rewrite Z.sub_0_r.
  pose proof (top_three n c Rc ltac:(lia)) as ET. rewrite Ec in ET.
  pose proof (reg_unit _ _ (Z.of_nat n) Rc) as H0. pose proof (reg_unit _ _ (Z.of_nat n - 1) Rc) as H1.
  pose proof (reg_unit _ _ (Z.of_nat n - 2) Rc) as H2.
  set (d0 := c.[Z.of_nat n]) in *. set (d1 := c.[Z.of_nat n - 1]) in *. set (d2 := c.[Z.of_nat n - 2]) in *.
  set (rh := reciph st) in *. set (rl := recipl st) in *. set (s := mshift st) in *. clearbody d0 d1 d2.
  pose proof (quo_exact_bounds d0 d1 d2 rh rl H0 H1 H2 Sh Sl) as (B1 & B2 & B3).
  rewrite <- ET in B1, B2. set (E := quo_exact d0 d1 d2 rh rl) in *.
  destruct (digit_bounds n (val m) (2 ^ 16 * rh + rl) s Hn Hpos Sr Ss Slow Shigh R E ltac:(lia) B1 B2 B3) as [D1 D2].
  pose proof (quo_sum W d0 d1 d2 rh rl HW H0 H1 H2 Sh Sl) as EQ. fold E in EQ.
  rewrite EQ. assert (Pa : 0 <= d0 * rh < 2 ^ 32) by (unfold is_u16 in *; nia).
  assert (Hq0 : 0 <= E - 2 * (d0 * rh)).
  { rewrite <- EQ. rewrite shiftr_div by lia. apply Z.div_pos; [apply zext_range; lia | apply Z.pow_pos_nonneg; lia]. }
  assert (UE : forall x, 0 <= x <= E -> ul W x = x).
  { intros x Hx. apply zext_id. lia. }
  rewrite (ul_id W HW (d0 * rh)) by exact Pa. rewrite shiftl_mul by lia. change (2 ^ 1) with 2. rewrite (UE (d0 * rh * 2)) by lia.
  rewrite UE by lia. replace (E - 2 * (d0 * rh) + d0 * rh * 2) with E by lia. rewrite shiftr_div by lia.
  change ((1 << 16) - 1) with (2 ^ 16 - 1).
  assert (HQ : R / val m < 2 ^ 16) by (apply Z.div_lt_upper_bound; lia).
  assert (0 <= R / val m) by (apply Z.div_pos; lia).
  rewrite u16_id by (unfold is_u16; lia). unfold is_u16. lia.
Qed.

(** The correction of a digit that is one too large. *)
Lemma correct_digit_val lo p hi r : reg (S n) p -> val p = val m - 1 - r -> 0 <= r < val m ->
  exists w', correct_digit st (lo ++ p ++ hi) (Z.of_nat (length lo + n)) (Z.of_nat (length lo)) = lo ++ w' ++ hi /\
    reg (S n) w' /\ compl (S n) w' = r.
Proof using HW Hn Hm Hst.
  intros Rp Vp Hr. pose proof (val_range n m Hm) as Vm. pose proof (beta_S n) as BS. destruct Hst as [Sm _ _ _ _ _ _ _ _].
  unfold correct_digit. rewrite Sm, (reg_length _ _ Hm), Nat2Z.id.
  assert (Esk : skipn (length lo) (lo ++ p ++ hi) = p ++ hi) by (now rewrite skipn_app, Nat.sub_diag, skipn_all).
  rewrite Esk. assert (Efn : firstn n (p ++ hi) = firstn n p).
  { rewrite firstn_app. replace (n - length p)%nat with 0%nat by (rewrite (reg_length _ _ Rp); lia). cbn [firstn]. apply app_nil_r. }
  rewrite Efn. pose proof (mp_subb_val n (firstn n p) m false (reg_firstn (S n) n p ltac:(lia) Rp) Hm) as Sb.
  destruct (mp_subb (firstn n p) m false) as [part borrow]. destruct Sb as [Rpart Epart]. cbn [b2z] in Epart.
  rewrite (val_firstn (S n) n p Rp) in Epart by lia. rewrite Z.mod_small in Epart by lia.
  pose proof (val_range n part Rpart) as Vpart. assert (borrow = true) as -> by (destruct borrow; cbn [b2z] in Epart; [reflexivity | lia]).
  cbn [b2z] in Epart. rewrite at_index_app.
  assert (Esp : skipn n (p ++ hi) = [p.[Z.of_nat n]] ++ hi).
  { rewrite skipn_app. replace (n - length p)%nat with 0%nat by (rewrite (reg_length _ _ Rp); lia). cbn [skipn]. f_equal.
    rewrite (skipn_aget p n) by (rewrite (reg_length _ _ Rp); lia). f_equal. apply skipn_all2. rewrite (reg_length _ _ Rp). lia. }
  rewrite Esp. assert (Ptop : p.[Z.of_nat n] = 0).
  { rewrite (val_unit (S n) p (Z.of_nat n) Rp) by lia. fold (beta n). now rewrite Z.div_small by lia. }
  assert (R1 : forall x, is_u16 x -> reg (S n) (part ++ [x])).
  { intros x Hx. replace (S n) with (n + 1)%nat by lia. apply reg_app; [exact Rpart |]. apply reg_cons. auto with cint. }
  rewrite Ptop. replace (part ++ [0] ++ hi) with ((part ++ [0]) ++ hi) by (now rewrite <- app_assoc).
  rewrite (window_top n) by (apply R1; unfold is_u16; lia).
  assert (E0 : (part ++ [0]).[Z.of_nat n] = 0) by (rewrite aget_app_r by (rewrite (reg_length _ _ Rpart); lia);
    rewrite (reg_length _ _ Rpart), Z.sub_diag; reflexivity).
  rewrite E0. change (u16 (0 - 1)) with (2 ^ 16 - 1). exists (part ++ [2 ^ 16 - 1]).
  split; [rewrite <- (reg_length _ _ Rpart); apply window_top_set |]. split; [apply R1; unfold is_u16; lia |].
  unfold compl. rewrite val_app, (reg_length _ _ Rpart). cbn [val]. lia.
Qed.

(** One digit: the window holds the complement of the remainder. *)
Lemma divide_step_val lo w hi : reg (S n) w -> compl (S n) w < 2 ^ 16 * val m ->
  exists w', divide_step W st (lo ++ w ++ hi) (Z.of_nat (length lo + n)) (Z.of_nat (length lo)) = lo ++ w' ++ hi /\
    reg (S n) w' /\ compl (S n) w' = compl (S n) w mod val m.
Proof using HW Hn Hm Hpos Hst Hov.
  intros Hw HR. destruct (quo_digit_val lo w hi Hw HR) as [Hq Bq]. unfold divide_step.
  set (q := mp_quo_digit W st (lo ++ w ++ hi) (Z.of_nat (length lo + n))) in *. clearbody q.
  pose proof (val_range (S n) w Hw) as Vw. pose proof (val_range n m Hm) as Vm. pose proof (beta_S n) as BS.
  set (R := compl (S n) w) in *. assert (HR0 : 0 <= R) by (unfold R, compl; lia).
  pose proof (Z.div_mod R (val m) ltac:(lia)) as DR. pose proof (Z.mod_pos_bound R (val m) Hpos) as MR.
  rewrite Z.gtb_ltb. destruct (Z.ltb_spec 0 q) as [Q1 | Q0].
  2: { exists w. split; [reflexivity |]. split; [exact Hw |]. fold R. assert (0 <= R / val m) by (apply Z.div_pos; lia).
       symmetry. apply Z.mod_small. nia. }
  destruct Hst as [Sm _ _ _ _ _ _ _ _]. rewrite Sm.
  rewrite at_index_app. destruct (mp_smul_val W HW n m w hi q Hm Hw Hq) as (p & -> & Rp & Ep).
  rewrite (window_top n lo p hi Rp). rewrite (val_unit (S n) p (Z.of_nat n) Rp) by lia. fold (beta n).
  assert (Ew : val w = beta (S n) - 1 - R) by (unfold R, compl; lia). rewrite Ew in Ep.
  assert (Hqq : q = R / val m \/ q = R / val m + 1) by lia. destruct Hqq as [Eq | Eq].
  - (* the right digit *)
    assert (Vp : val p = beta (S n) - 1 - R mod val m).
    { rewrite Ep, Eq. replace (beta (S n) - 1 - R + R / val m * val m) with (beta (S n) - 1 - R mod val m) by lia.
      apply Z.mod_small. lia. }
    assert (Et : val p / beta n = 2 ^ 16 - 1).
    { rewrite Vp, BS. symmetry. apply (Z.div_unique_pos _ _ _ (beta n - 1 - R mod val m)); lia. }
    rewrite Et. change ((2 ^ 16 - 1) mod 2 ^ 16 .& MULTUNIT_msb =? 0) with false.
    exists p. split; [reflexivity |]. split; [exact Rp |]. unfold compl. lia.
  - (* one too many *)
    assert (Vp : val p = val m - 1 - R mod val m).
    { rewrite Ep, Eq. replace (beta (S n) - 1 - R + (R / val m + 1) * val m) with (val m - 1 - R mod val m + 1 * beta (S n)) by lia.
      rewrite Z.mod_add by lia. apply Z.mod_small. lia. }
    assert (Et : val p / beta n = 0) by (apply Z.div_small; lia).
    rewrite Et. change (0 mod 2 ^ 16 .& MULTUNIT_msb =? 0) with true. cbv iota.
    apply (correct_digit_val lo p hi (R mod val m) Rp Vp MR).
Qed.

Lemma compl_app a b i j : length a = i -> compl (i + j) (a ++ b) = compl i a + beta i * compl j b.
Proof using. intros E. unfold compl. rewrite val_app, E, beta_add. ring. Qed.

(** A small number leaves ones in the top unit. *)
Lemma drop_top w : reg (S n) w -> compl (S n) w < beta n ->
  exists w' top, w = w' ++ [top] /\ reg n w' /\ compl n w' = compl (S n) w.
Proof using All.
  intros Hw Hc. exists (firstn n w), w.[Z.of_nat n].
  assert (Es : skipn n w = [w.[Z.of_nat n]]).
  { rewrite (skipn_aget w n) by (rewrite (reg_length _ _ Hw); lia). f_equal. apply skipn_all2. rewrite (reg_length _ _ Hw). lia. }
  split; [rewrite <- Es; symmetry; apply firstn_skipn |]. split; [apply (reg_firstn (S n)); [lia | exact Hw] |].
  unfold compl in *. rewrite (val_firstn (S n) n w Hw) by lia. pose proof (val_range (S n) w Hw). rewrite beta_S in *.
  pose proof (beta_pos n).
  assert (E : val w mod beta n = val w - (2 ^ 16 - 1) * beta n) by (symmetry; apply (Z.mod_unique_pos _ _ (2 ^ 16 - 1)); lia).
  lia.
Qed.

Lemma divide_loop_val j lo w hi : reg j lo -> reg (S n) w -> compl (S n) w < 2 ^ 16 * val m ->
  exists out rest, divide_loop W (S j) st (lo ++ w ++ hi) (Z.of_nat (j + n)) (Z.of_nat j) = out ++ rest /\
    reg n out /\ compl n out = compl (j + S n) (lo ++ w) mod val m.
Proof using HW Hn Hm Hpos Hst Hov.
  revert lo w hi. induction j as [|j IH]; intros lo w hi Hlo Hw HR.
  - apply reg_0_inv in Hlo as ->. destruct (divide_step_val [] w hi Hw HR) as (w' & E & Rw & Cw). cbn [app length Nat.add] in *.
    assert (Hlt : compl (S n) w' < beta n) by (rewrite Cw; pose proof (Z.mod_pos_bound (compl (S n) w) (val m) Hpos);
      pose proof (val_range n m Hm); lia).
    destruct (drop_top w' Rw Hlt) as (w'' & top & -> & Rw'' & Cw''). exists w'', ([top] ++ hi).
    split; [rewrite app_assoc; exact E |]. split; [exact Rw'' | congruence].
  - destruct (exists_last (l := lo)) as (lo' & u & ->); [intros ->; destruct Hlo; discriminate |].
    assert (Hlo' : reg j lo' /\ is_u16 u).
    { destruct Hlo as [L F]. rewrite length_app in L. simpl length in L. apply Forall_app in F as [F1 F2]. inversion F2; subst.
      split; [split; [lia | exact F1] | assumption]. }
    destruct Hlo' as [Hlo' Hu]. pose proof (reg_length _ _ Hlo) as LL. pose proof (reg_length _ _ Hlo') as LL'.
    destruct (divide_step_val (lo' ++ [u]) w hi Hw HR) as (w' & E & Rw & Cw). rewrite LL in E.
    pose proof (Z.mod_pos_bound (compl (S n) w) (val m) Hpos) as Mb. pose proof (val_range n m Hm) as Vm.
    assert (Hlt : compl (S n) w' < beta n) by (rewrite Cw; lia).
    destruct (drop_top w' Rw Hlt) as (w'' & top & -> & Rw'' & Cw'').
    assert (Ru : reg (S n) (u :: w'')) by (now apply reg_cons).
    assert (Cu : compl (S n) (u :: w'') = (2 ^ 16 - 1 - u) + 2 ^ 16 * (compl (S n) w mod val m)).
    { rewrite <- Cw, <- Cw''. unfold compl. cbn [val]. rewrite beta_S. ring. }
    destruct (IH lo' (u :: w'') ([top] ++ hi) Hlo' Ru) as (out & rest & E2 & Ro & Co); [rewrite Cu; unfold is_u16 in Hu; lia |].
    exists out, rest. split.
    + change (divide_loop W (S (S j)) st ((lo' ++ [u]) ++ w ++ hi) (Z.of_nat (S j + n)) (Z.of_nat (S j))) with
        (divide_loop W (S j) st (divide_step W st ((lo' ++ [u]) ++ w ++ hi) (Z.of_nat (S j + n)) (Z.of_nat (S j)))
          (Z.of_nat (S j + n) - 1) (Z.of_nat (S j) - 1)).
      rewrite E. replace (Z.of_nat (S j + n) - 1) with (Z.of_nat (j + n)) by lia. replace (Z.of_nat (S j) - 1) with (Z.of_nat j) by lia.
      rewrite <- E2. f_equal. rewrite <- !app_assoc. reflexivity.
    + split; [exact Ro |]. rewrite Co. rewrite (compl_app lo' (u :: w'') j (S n) LL'), Cu.
      rewrite (compl_app (lo' ++ [u]) w (S j) (S n) LL). replace (S j) with (j + 1)%nat at 1 by lia.
      rewrite (compl_app lo' [u] j 1 LL'). replace (compl 1 [u]) with (2 ^ 16 - 1 - u) by (unfold compl; change (beta 1) with (2 ^ 16); cbn [val]; lia).
      rewrite (beta_S j). pose proof (Z.div_mod (compl (S n) w) (val m) ltac:(lia)) as D.
      rewrite D at 2.
      replace (compl j lo' + beta j * (2 ^ 16 - 1 - u) + 2 ^ 16 * beta j * (val m * (compl (S n) w / val m) + compl (S n) w mod val m))
        with (compl j lo' + beta j * (2 ^ 16 - 1 - u + 2 ^ 16 * (compl (S n) w mod val m)) + (2 ^ 16 * beta j * (compl (S n) w / val m)) * val m) by ring.
      now rewrite Z.mod_add by lia.
Qed.

(** ** Modular multiplication *)

Hypothesis Htop : beta (n - 1) <= val m.

(** The part of a complemented product that the division starts from. *)
Lemma complement_window c P j : reg (n + n + 1) c -> val c = beta (n + n + 1) - 1 - P -> (j <= n)%nat -> 0 <= P < beta (j + n) ->
  exists lo w hi, c = lo ++ w ++ hi /\ reg j lo /\ reg (S n) w /\ compl (j + S n) (lo ++ w) = P /\ compl (S n) w < 2 ^ 16 * val m.
Proof using HW Hn Hm Hpos Hst Hov Htop.
  intros R2 Cc Hj PU. set (lo := firstn j c). set (w := firstn (S n) (skipn j c)). set (hi := skipn (S n) (skipn j c)).
  assert (Ec : c = lo ++ w ++ hi) by (unfold lo, w, hi; now rewrite !firstn_skipn).
  assert (Rlo : reg j lo) by (apply (reg_firstn (n + n + 1)); [lia | exact R2]).
  assert (Rw : reg (S n) w) by (apply (reg_firstn (n + n + 1 - j)); [lia | now apply reg_skipn]).
  assert (Elw : lo ++ w = firstn (j + S n) c).
  { rewrite Ec at 1. rewrite app_assoc. rewrite firstn_app, firstn_all2 by (rewrite length_app, (reg_length _ _ Rlo), (reg_length _ _ Rw); lia).
    replace (j + S n - length (lo ++ w))%nat with 0%nat by (rewrite length_app, (reg_length _ _ Rlo), (reg_length _ _ Rw); lia).
    cbn [firstn]. now rewrite app_nil_r. }
  assert (Bj : beta (j + S n) = 2 ^ 16 * beta (j + n)) by (replace (j + S n)%nat with (S (j + n)) by lia; apply beta_S).
  assert (Clw : compl (j + S n) (lo ++ w) = P).
  { unfold compl. rewrite Elw, (val_firstn _ _ _ R2), Cc by lia.
    assert (Bq : beta (n + n + 1) = beta (j + S n) * beta (n - j)) by (rewrite <- beta_add; f_equal; lia).
    rewrite Bq. pose proof (beta_pos (n - j)). pose proof (beta_pos (j + S n)).
    rewrite <- (Z.mod_unique_pos (beta (j + S n) * beta (n - j) - 1 - P) (beta (j + S n)) (beta (n - j) - 1) (beta (j + S n) - 1 - P)); lia. }
  exists lo, w, hi. split; [exact Ec |]. split; [exact Rlo |]. split; [exact Rw |]. split; [exact Clw |].
  pose proof Clw as C. rewrite (compl_app lo w j (S n) (reg_length _ _ Rlo)) in C. pose proof (val_range _ _ Rlo) as Vlo.
  assert (Bjn : beta (j + n) = beta j * (2 ^ 16 * beta (n - 1))) by (rewrite beta_add; f_equal; rewrite <- beta_S; f_equal; lia).
  unfold compl in C at 1. assert (beta j * compl (S n) w < beta j * (2 ^ 16 * beta (n - 1))) by lia.
  assert (compl (S n) w < 2 ^ 16 * beta (n - 1)) by (apply (Z.mul_lt_mono_pos_l (beta j)); [apply beta_pos | assumption]). lia.
Qed.

Lemma smith_modmult_val a b : reg n a -> reg n b ->
  reg n (smith_modmult W st a b) /\ val (smith_modmult W st a b) = (val a * val b) mod val m.
Proof using HW Hn Hm Hpos Hst Hov Htop.
  intros Ha Hb. unfold smith_modmult. rewrite (reg_length _ _ Ha). destruct (mp_dmul_val W HW n a b Ha Hb) as [Rd Ed].
  set (d := mp_dmul W a b) in *. set (P := val a * val b) in *.
  assert (Eset : aset (d ++ [0]) (2 * Z.of_nat n) 0 = d ++ [0]).
  { unfold aset. replace (Z.to_nat (2 * Z.of_nat n)) with (length d) by (rewrite (reg_length _ _ Rd); lia).
    rewrite upd_split by (rewrite length_app; simpl; lia). rewrite firstn_app, firstn_all, Nat.sub_diag.
    rewrite (skipn_past d [] 0 (length d) eq_refl). cbn [firstn app]. now rewrite app_nil_r. }
  rewrite Eset. assert (R0 : reg (n + n + 1) (d ++ [0])).
  { apply reg_app; [exact Rd |]. apply reg_cons. split; [unfold is_u16; lia | auto with cint]. }
  assert (E0 : val (d ++ [0]) = P) by (rewrite val_app, Ed; cbn [val]; lia).
  destruct (significance_val _ _ R0) as (K & U & L). rewrite E0 in U, L. set (dmi := significance (d ++ [0])) in *.
  pose proof (val_range _ _ Rd) as VP. rewrite Ed in VP. pose proof Hst as [_ Slen _ _ _ _ _ _ _]. rewrite Slen.
  assert (Kd : dmi <= 2 * Z.of_nat n).
  { destruct (Z_le_gt_dec dmi (2 * Z.of_nat n)); [assumption |]. specialize (L ltac:(lia)). exfalso.
    assert (beta (n + n) <= 2 ^ (16 * (dmi - 1))) by (unfold beta; apply Z.pow_le_mono_r; lia). lia. }
  rewrite Z.geb_leb. destruct (Z.leb_spec (Z.of_nat n) dmi) as [G | Lt].
  2: { (* fewer units than the modulus *)
    assert (P < beta (n - 1)).
    { apply (Z.lt_le_trans _ _ _ U). unfold beta. apply Z.pow_le_mono_r; lia. }
    split; [apply (reg_firstn (n + n + 1)); [lia | exact R0] |].
    assert (beta (n - 1) <= beta n) by (unfold beta; apply Z.pow_le_mono_r; lia).
    rewrite (val_firstn (n + n + 1) n _ R0), E0 by lia. rewrite !Z.mod_small by lia. reflexivity. }
  (* the one's complement *)
  destruct (inc_val _ _ R0) as [R1 E1]. destruct (mp_neg_val _ _ R1) as [R2 E2]. set (c := mp_neg (fst (mp_inc (d ++ [0])))) in *.
  assert (Bb : beta (n + n + 1) = 2 ^ 16 * beta (n + n)) by (rewrite (Nat.add_comm (n + n) 1); apply beta_S).
  rewrite E0, Z.mod_small in E1 by lia.
  assert (Cc : val c = beta (n + n + 1) - 1 - P).
  { rewrite E2, E1. symmetry. apply (Z.mod_unique_pos _ _ (-1)); lia. }
  assert (Ej : exists j, dmi = Z.of_nat (j + n) /\ (j <= n)%nat) by (exists (Z.to_nat dmi - n)%nat; lia).
  destruct Ej as (j & Ej & Hj). rewrite Ej. replace (Z.of_nat (j + n) + 1 - Z.of_nat n) with (Z.of_nat (S j)) by lia.
  replace (Z.of_nat (j + n) - Z.of_nat n) with (Z.of_nat j) by lia. rewrite Nat2Z.id.
  destruct (complement_window c P j R2 Cc Hj) as (lo & w & hi & Ec & Rlo & Rw & Clw & Cw); [unfold beta; rewrite <- Ej; lia |].
  rewrite Ec. destruct (divide_loop_val j lo w hi Rlo Rw Cw) as (out & rest & -> & Ro & Co). rewrite Clw in Co.
  rewrite firstn_app, firstn_all2 by (rewrite (reg_length _ _ Ro); lia).
  replace (n - length out)%nat with 0%nat by (rewrite (reg_length _ _ Ro); lia). cbn [firstn]. rewrite app_nil_r.
  destruct (mp_neg_val n out Ro) as [R3 E3]. destruct (dec_val n _ R3) as [R4 E4]. split; [exact R4 |].
  rewrite E4, E3. pose proof (Z.mod_pos_bound P (val m) Hpos). pose proof (val_range n m Hm). pose proof (beta_pos n).
  rewrite Zminus_mod_idemp_l. unfold compl in Co.
  symmetry. apply (Z.mod_unique_pos _ _ (-1)); lia.
Qed.

End Reduction.


(** ** Theorems *)

(** [unsigned long] holds every trial digit. *)
Definition long_enough (W : Z) (n : nat) (m : list Z) : Prop :=
  33 <= W \/ 32 <= W /\ 2 * val m < beta n.

Lemma long_enough_shift W n m st : long_enough W n m -> staged n m st ->
  32 <= W /\ 2 ^ mshift st * (2 ^ 16 + 1) <= 2 ^ W.
Proof.
  intros HW [_ _ _ _ _ Hs _ _ Hb]. destruct HW as [HW | [HW Hm]].
  - split; [lia |]. assert (2 ^ mshift st <= 2 ^ 16) by (apply Z.pow_le_mono_r; lia).
    assert (2 ^ 33 <= 2 ^ W) by (apply Z.pow_le_mono_r; lia). lia.
  - split; [lia |]. assert (2 ^ mshift st <= 2 ^ 15) by (apply Z.pow_le_mono_r; [lia | now apply Hb]).
    assert (2 ^ 32 <= 2 ^ W) by (apply Z.pow_le_mono_r; lia). lia.
Qed.

(** Staging and multiplication together. *)
Lemma smith_modmult_staged W n m : reg n m -> (3 <= n)%nat -> beta (n - 1) <= val m -> long_enough W n m ->
  exists st, stage_smith_modulus m = Some st /\ forall a b, reg n a -> reg n b ->
    reg n (smith_modmult W st a b) /\ val (smith_modmult W st a b) = (val a * val b) mod val m.
Proof.
  intros Hm Hn Htop HW. destruct (stage_ok n m Hm Hn Htop) as (st & E & Hst).
  destruct (long_enough_shift W n m st HW Hst) as [HW32 Hov]. pose proof (beta_pos (n - 1)).
  exists st. split; [exact E |]. intros a b Ha Hb. apply smith_modmult_val; try assumption. lia.
Qed.

(** C28. [stage_smith_modulus] prepares every modulus of three units or more
    without reading outside it, and [smith_modmult] then computes the product
    modulo it for all registers: the trial digits of the long division are never
    too small and one correction is always enough.  It holds where [unsigned
    long] has more than 32 bits, and with 32 bits when the top bit of the modulus
    is clear. *)
Theorem smith_modmult_correct W n m : reg n m -> (3 <= n)%nat -> beta (n - 1) <= val m -> long_enough W n m ->
  exists st, stage_smith_modulus m = Some st /\ forall a b, reg n a -> reg n b ->
    val (smith_modmult W st a b) = (val a * val b) mod val m.
Proof.
  intros Hm Hn Htop HW. destruct (smith_modmult_staged W n m Hm Hn Htop HW) as (st & E & H).
  exists st. split; [exact E |]. intros a b Ha Hb. now apply H.
Qed.

Lemma smith_modmult_correct_witness :
  exists st, stage_smith_modulus [1; 0; 0x981a] = Some st /\
    val (smith_modmult 64 st [0; 0; 0x981a] [0; 0; 0x981a]) = 1.
Proof.
  destruct (smith_modmult_correct 64 3 [1; 0; 0x981a]) as (st & E & H).
  - split; [reflexivity | repeat constructor; unfold is_u16; lia].
  - lia.
  - vm_compute. discriminate.
  - left. lia.
  - exists st. split; [exact E |]. rewrite H; [reflexivity | |]; (split; [reflexivity | repeat constructor; unfold is_u16; lia]).
Defined.

(** With an [unsigned long] of 32 bits, as on the ARM, the trial digit can
    overflow: modulo [0x981a00000001] the square of [-1] comes out as
    [0x58effff5124], where it comes out as 1 with 64 bits. *)
Theorem smith_modmult_overflow :
  exists st, stage_smith_modulus [1; 0; 0x981a] = Some st /\
    smith_modmult 64 st [0; 0; 0x981a] [0; 0; 0x981a] = [1; 0; 0] /\
    smith_modmult 32 st [0; 0; 0x981a] [0; 0; 0x981a] = [0x5124; 0xffff; 0x58e].
Proof. eexists. split; [vm_compute; reflexivity |]. split; vm_compute; reflexivity. Qed.
