(* ===== verification/PgpModexp.v ===== *)
(** * PGP: modular exponentiation

    Models [mp_modexp] and [mp_modexp_crt] of [security/pgp/src/mpilib.c].  The
    exponentiation works at the precision of its modulus: the low units of the
    registers take part, the result's units above are zero.  A modulus of fewer
    than three units makes [stage_smith_modulus] read outside its array, which
    is [None]. *)

From Stdlib Require Import ZArith Znumtheory Lia List Bool.
From S2P Require Import Prelude PgpMpi PgpSmith.
Import ListNotations.

Definition SLOP_BITS : Z := 0.

Fixpoint modexp_loop (W : Z) (bits : nat) (s : sniffer) (st : smith) (expout expin exponent : list Z) : list Z :=
  match bits with
  | O => expout
  | S k =>
      let product := smith_modmult W st expout expout in
      let expout := if sniff_bit exponent s then smith_modmult W st product expin else product in
      modexp_loop W k (bump_bitsniffer s) st expout expin exponent
  end.

(** The status and [expout]. *)
Definition mp_modexp (W : Z) (expin exponent modulus : list Z) : option (Z * list Z) :=
  let expout := mp_init (length modulus) 1 in
  if testeq exponent 0 then
    if testeq expin 0 then Some (-1, expout) else Some (0, expout)
  else if testeq modulus 0 then Some (-2, expout)
  else if mp_compare expin modulus >=? 0 then Some (-3, expout)
  else if mp_compare exponent modulus >=? 0 then Some (-4, expout)
  else
    let prec := Z.to_nat (bits2units (countbits modulus + SLOP_BITS)) in
    let* st := stage_smith_modulus (firstn prec modulus) in
    match init_bitsniffer (firstn prec exponent) with
    | None => Some (0, expout)
    | Some (bits, s) =>
        let low := firstn prec expin in
        let low := modexp_loop W (Z.to_nat (bits - 1)) (bump_bitsniffer s) st low low (firstn prec exponent) in
        Some (0, low ++ skipn prec expout)
    end.

(** [temp] is what the array on the stack held before. *)
Definition mp_modexp_crt (W : Z) (temp expin p q ep eq u : list Z) : option (Z * list Z) :=
  let temp := snd (mp_mod temp expin p) in
  let* (status, expout) := mp_modexp W temp ep p in
  if status <? 0 then Some (status, mp_init (length p) 1)
  else
    let temp := snd (mp_mod temp expin q) in
    let* (status, q2) := mp_modexp W temp eq q in
    if status <? 0 then Some (status, mp_init (length p) 1)
    else
      let (q2, borrow) := mp_subb q2 expout false in
      let q2 := if borrow then mp_add q2 q else q2 in
      let temp := mp_mult q2 u in
      let q2 := snd (mp_mod q2 temp q) in
      let temp := mp_mult p q2 in
      Some (0, mp_add expout temp).

(** ** Exponentiation *)

Lemma pow_bit x e k m : 0 <= e -> 0 <= k -> 0 < m ->
  x ^ (e / 2 ^ k) mod m =
  (if Z.testbit e k then ((x ^ (e / 2 ^ (k + 1)) mod m) * (x ^ (e / 2 ^ (k + 1)) mod m)) mod m * x
   else (x ^ (e / 2 ^ (k + 1)) mod m) * (x ^ (e / 2 ^ (k + 1)) mod m)) mod m.
Proof.
  intros He Hk Hm. rewrite (high_bit e k He Hk). pose proof (Z.div_pos e (2 ^ (k + 1)) He ltac:(apply Z.pow_pos_nonneg; lia)).
  set (h := e / 2 ^ (k + 1)) in *. rewrite Z.pow_add_r by (destruct (Z.testbit e k); cbn [b2z]; lia).
  replace (2 * h) with (h + h) by lia. rewrite Z.pow_add_r by lia. destruct (Z.testbit e k); cbn [b2z].
  - now rewrite Z.pow_1_r, <- Zmult_mod, Zmult_mod_idemp_l.
  - rewrite Z.pow_0_r, Z.mul_1_r. apply Zmult_mod.
Qed.

Section Exponentiation.

Variables (W : Z) (n : nat) (m : Z) (st : smith) (expin exponent : list Z).
Hypothesis Hmul : forall a b, reg n a -> reg n b ->
  reg n (smith_modmult W st a b) /\ val (smith_modmult W st a b) = (val a * val b) mod m.
Hypotheses (Hm : 0 < m) (Hin : reg n expin) (Hex : reg n exponent).

(** [expout] is the power by the bits of the exponent sniffed so far. *)
Lemma modexp_loop_val k s out : at_bit s (Z.of_nat k - 1) -> reg n out ->
  val out = val expin ^ (val exponent / 2 ^ Z.of_nat k) mod m ->
  let r := modexp_loop W k s st out expin exponent in reg n r /\ val r = val expin ^ val exponent mod m.
Proof using All.
  revert s out. induction k as [|k IH]; intros s out Hs Ho E; cbn [modexp_loop].
  - rewrite E. change (2 ^ Z.of_nat 0) with 1. now rewrite Z.div_1_r.
  - replace (Z.of_nat (S k) - 1) with (Z.of_nat k) in Hs by lia. pose proof (val_range _ _ Hex).
    destruct (Hmul out out Ho Ho) as [R1 E1]. destruct (Hmul _ _ R1 Hin) as [R2 E2].
    apply IH; [now apply bump_at | destruct (sniff_bit _ _); assumption |].
    rewrite (pow_bit (val expin) (val exponent) (Z.of_nat k) m), (sniff_at n _ _ _ Hex Hs) by lia.
    replace (Z.of_nat k + 1) with (Z.of_nat (S k)) by lia. rewrite <- E, <- E1.
    destruct (Z.testbit _ _); [exact E2 | exact E1].
Qed.

End Exponentiation.

(** The precision of a modulus. *)
Lemma modulus_precision n m : reg n m -> 2 ^ 32 <= val m ->
  let prec := Z.to_nat (bits2units (countbits m + SLOP_BITS)) in
  (3 <= prec <= n)%nat /\ beta (prec - 1) <= val m < beta prec.
Proof.
  intros Hm Hv prec. destruct (countbits_spec n m Hm) as (C & U & L). set (c := countbits m) in *.
  assert (C32 : 32 < c) by (apply (Z.pow_lt_mono_r_iff 2); lia). specialize (L ltac:(lia)).
  assert (Ep : Z.of_nat prec = (c + 15) / 16).
  { unfold prec, SLOP_BITS, bits2units. rewrite Z.add_0_r, shiftr_div by lia. change (2 ^ 4) with 16. zlia. }
  assert (3 <= Z.of_nat prec <= Z.of_nat n) by zlia. split; [lia |]. unfold beta. split.
  - apply (Z.le_trans _ (2 ^ (c - 1))); [apply Z.pow_le_mono_r; zlia | exact L].
  - apply (Z.lt_le_trans _ (2 ^ c)); [exact U | apply Z.pow_le_mono_r; zlia].
Qed.

(** A number below the modulus fits its precision. *)
Lemma low_units n k r : reg n r -> (k <= n)%nat -> val r < beta k -> reg k (firstn k r) /\ val (firstn k r) = val r.
Proof.
  intros Hr Hk Hv. split; [now apply (reg_firstn n) |]. pose proof (val_range _ _ Hr).
  rewrite (val_firstn n k r Hr Hk). apply Z.mod_small. lia.
Qed.

Lemma init_high n k v : (1 <= k)%nat -> skipn k (mp_init n v) = repeat 0 (n - k).
Proof.
  intros Hk. destruct k as [|k]; [lia |]. unfold mp_init, aset. destruct n as [|n]; [reflexivity |].
  cbn [repeat upd Z.to_nat skipn]. replace (S n - S k)%nat with (n - k)%nat by lia. clear Hk. revert k.
  induction n as [|n IH]; intros [|k]; cbn [repeat skipn Nat.sub]; auto.
Qed.

Lemma mp_modexp_val W n expin exponent modulus : 33 <= W -> reg n expin -> reg n exponent -> reg n modulus ->
  2 ^ 32 <= val modulus -> val expin < val modulus -> 0 < val exponent < val modulus ->
  exists r, mp_modexp W expin exponent modulus = Some (0, r) /\ reg n r /\
    val r = val expin ^ val exponent mod val modulus.
Proof.
  intros HW Hi He Hm H32 Hlt [He0 Hel]. destruct (modulus_precision n modulus Hm H32) as [Hp [Ml Mu]].
  unfold mp_modexp. set (prec := Z.to_nat _) in *. pose proof (val_range _ _ Hi).
  destruct (low_units n prec _ Hi ltac:(lia) ltac:(lia)) as [Ri Vi]. destruct (low_units n prec _ He ltac:(lia) ltac:(lia)) as [Re Ve].
  destruct (low_units n prec _ Hm ltac:(lia) ltac:(lia)) as [Rm Vm].
  rewrite !(testeq_val n) by (assumption || (unfold is_u16; lia)). rewrite !(compare_ge n) by assumption.
  rewrite (proj2 (Z.eqb_neq (val exponent) 0)), (proj2 (Z.eqb_neq (val modulus) 0)) by lia.
  rewrite (proj2 (Z.leb_gt _ (val expin))), (proj2 (Z.leb_gt _ (val exponent))) by lia.
  destruct (smith_modmult_staged W prec (firstn prec modulus) Rm ltac:(lia) ltac:(lia) (or_introl HW)) as (st & -> & Hmul).
  cbn [bind]. pose proof (init_bitsniffer_val prec _ Re) as B. rewrite Ve, (proj2 (Z.eqb_neq (val exponent) 0)) in B by lia.
  destruct B as (s & -> & Hs). rewrite Vm in Hmul. pose proof (Z.log2_nonneg (val exponent)).
  replace (Z.log2 (val exponent) + 1 - 1) with (Z.log2 (val exponent)) by lia.
  assert (Hp1 : val exponent / 2 ^ Z.log2 (val exponent) = 1).
  { pose proof (Z.log2_spec _ He0) as [A B]. rewrite Z.pow_succ_r in B by lia.
    symmetry. apply (Z.div_unique_pos _ _ _ (val exponent - 2 ^ Z.log2 (val exponent))); lia. }
  destruct (modexp_loop_val W prec (val modulus) st (firstn prec expin) (firstn prec exponent) Hmul ltac:(lia) Ri Re
    (Z.to_nat (Z.log2 (val exponent))) (bump_bitsniffer s) (firstn prec expin)) as [Ro Eo].
  - rewrite Z2Nat.id by lia. now apply bump_at.
  - exact Ri.
  - rewrite Z2Nat.id, Ve, Hp1, Z.pow_1_r by lia. symmetry. apply Z.mod_small. lia.
  - eexists. split; [reflexivity |]. rewrite init_high, (reg_length _ _ Hm) by lia. split.
    + replace n with (prec + (n - prec))%nat at 1 by lia. apply reg_app; [exact Ro |].
      split; [apply repeat_length |]. apply Forall_forall. intros x Hx. apply repeat_spec in Hx as ->. unfold is_u16. lia.
    + rewrite val_app, val_repeat, Z.mul_0_r, Z.add_0_r, Eo. now rewrite Vi, Ve.
Qed.

(** ** The Chinese remainder theorem *)

(** The components [mp_modexp_crt] is given, at a precision of [n] units. *)
Record crt_key (n : nat) (p q ep eq u : list Z) : Prop := {
  crt_p : reg n p;
  crt_q : reg n q;
  crt_ep : reg n ep;
  crt_eq : reg n eq;
  crt_u : reg n u;
  crt_size : 2 ^ 32 <= val p;
  crt_order : val p < val q;
  crt_room : val q * val q <= beta n;
  crt_ep_range : 0 < val ep < val p;
  crt_eq_range : 0 < val eq < val q;
  crt_u_range : val u < val q;
  crt_inverse : (val p * val u) mod val q = 1
}.

(** What the glueing formula yields: the residues are the given ones. *)
Lemma crt_glue p q u a b : 0 < p -> 1 < q -> (p * u) mod q = 1 -> 0 <= a < p -> 0 <= b < q ->
  let k := ((b - a) mod q * u) mod q in
  0 <= a + p * k < p * q /\ (a + p * k) mod p = a /\ (a + p * k) mod q = b.
Proof.
  intros Hp Hq Hu Ha Hb k. pose proof (Z.mod_pos_bound ((b - a) mod q * u) q ltac:(lia)) as Hk. fold k in Hk.
  split; [nia |]. split.
  - rewrite Z.mul_comm, Z.mod_add by lia. now apply Z.mod_small.
  - unfold k. rewrite Zmult_mod_idemp_l, <- Zplus_mod_idemp_r, Zmult_mod_idemp_r.
    replace (p * ((b - a) * u)) with (p * u * (b - a)) by ring.
    rewrite <- Zmult_mod_idemp_l, Hu, Zplus_mod_idemp_r. replace (a + 1 * (b - a)) with b by ring. now apply Z.mod_small.
Qed.

(** The difference of the halves, with [q] added when it went negative. *)
Lemma crt_difference n a b q : reg n a -> reg n b -> reg n q -> val b < val q -> val a < val q ->
  let d := let (r, borrow) := mp_subb b a false in if borrow then mp_add r q else r in
  reg n d /\ val d = (val b - val a) mod val q.
Proof.
  intros Ha Hb Hq Lb La. pose proof (mp_subb_val n b a false Hb Ha) as S. destruct (mp_subb b a false) as [r c].
  destruct S as [Rr Er]. cbn [b2z] in Er. pose proof (val_range _ _ Ha). pose proof (val_range _ _ Hb).
  pose proof (val_range _ _ Hq). pose proof (val_range _ _ Rr). destruct c; cbn [b2z] in Er.
  - destruct (mp_add_val n r q Rr Hq) as [R2 E2]. split; [exact R2 |]. rewrite E2.
    rewrite <- (Z.mod_unique_pos (val r + val q) (beta n) 1 (val b - val a + val q)) by lia.
    apply (Z.mod_unique_pos _ _ (-1)); lia.
  - split; [exact Rr |]. rewrite Z.mod_small; lia.
Qed.

(** [snd] of the remainder at a divisor that leaves a bit. *)
Lemma mod_reg n r0 x d : (1 <= n)%nat -> reg n r0 -> reg n x -> reg n d -> 0 < val d -> 2 * val d <= beta n ->
  reg n (snd (mp_mod r0 x d)) /\ val (snd (mp_mod r0 x d)) = val x mod val d.
Proof.
  intros Hn H0 Hx Hd Hp Hf. pose proof (mp_mod_val n x d Hn Hx Hd Hp Hf r0 H0) as H.
  destruct (mp_mod r0 x d) as [st r]. tauto.
Qed.

(** At a precision that holds the square of [q]: status 0, and the number below
    [p * q] whose residues are the powers of the input. *)
Lemma mp_modexp_crt_val W n temp expin p q ep eq u : 33 <= W -> reg n temp -> reg n expin -> crt_key n p q ep eq u ->
  exists r, mp_modexp_crt W temp expin p q ep eq u = Some (0, r) /\ reg n r /\ val r < val p * val q /\
    val r mod val p = val expin ^ val ep mod val p /\ val r mod val q = val expin ^ val eq mod val q.
Proof.
  intros HW Ht Hx [Hp Hq Hep Heq Hu H32 Ho Hroom Bep Beq Bu Hinv]. pose proof (val_range _ _ Hx). pose proof (val_range _ _ Hu).
  assert (Hn : (1 <= n)%nat) by (destruct n; [unfold beta in Hroom; change (2 ^ (16 * Z.of_nat 0)) with 1 in Hroom; nia | lia]).
  assert (2 * val q <= beta n) by nia. assert (val p * val q <= val q * val q) by (apply Z.mul_le_mono_nonneg_r; lia).
  unfold mp_modexp_crt. destruct (mod_reg n temp expin p Hn Ht Hx Hp) as [R1 E1]; [lia.. |].
  set (tp := snd (mp_mod temp expin p)) in *. pose proof (Z.mod_pos_bound (val expin) (val p) ltac:(lia)).
  destruct (mp_modexp_val W n tp ep p HW R1 Hep Hp H32 ltac:(lia) Bep) as (rp & -> & Rp & Ep). cbn [bind].
  change (0 <? 0) with false. cbv iota.
  destruct (mod_reg n tp expin q Hn R1 Hx Hq) as [R2 E2]; [lia.. |].
  set (tq := snd (mp_mod tp expin q)) in *. pose proof (Z.mod_pos_bound (val expin) (val q) ltac:(lia)).
  destruct (mp_modexp_val W n tq eq q HW R2 Heq Hq ltac:(lia) ltac:(lia) Beq) as (rq & -> & Rq & Eq). cbn [bind].
  change (0 <? 0) with false. cbv iota. pose proof (Z.mod_pos_bound (val tp ^ val ep) (val p) ltac:(lia)).
  pose proof (Z.mod_pos_bound (val tq ^ val eq) (val q) ltac:(lia)).
  destruct (crt_difference n rp rq q Rp Rq Hq ltac:(lia) ltac:(lia)) as [Rd Ed].
  destruct (mp_subb rq rp false) as [r c]. set (d := if c then mp_add r q else r) in *.
  destruct (crt_glue (val p) (val q) (val u) (val rp) (val rq)) as (G1 & G2 & G3); [lia.. |].
  pose proof (Z.mod_pos_bound (val rq - val rp) (val q) ltac:(lia)).
  destruct (mp_mult_val n d u Hn Rd Hu) as [R3 E3]. rewrite Z.mod_small in E3 by nia.
  destruct (mod_reg n d (mp_mult d u) q Hn Rd R3 Hq) as [R4 E4]; [lia.. |]. rewrite E3, Ed in E4.
  pose proof (Z.mod_pos_bound ((val rq - val rp) mod val q * val u) (val q) ltac:(lia)) as [K0 _].
  apply (Z.mul_nonneg_nonneg (val p)) in K0; [| lia].
  destruct (mp_mult_val n p _ Hn Hp R4) as [R5 E5]. rewrite E4, (Z.mod_small _ (beta n)) in E5 by lia.
  destruct (mp_add_val n rp _ Rp R5) as [R6 E6]. rewrite E5, (Z.mod_small _ (beta n)) in E6 by lia.
  eexists. split; [reflexivity |]. split; [exact R6 |]. rewrite E6. split; [apply G1 |].
  rewrite G2, G3, Ep, Eq, E1, E2. split; apply Z.mod_pow_l.
Qed.

(** ** Theorems *)

(** C29. [mp_modexp] on every input whose modulus is zero or has three units or
    more, with an [unsigned long] of more than 32 bits: the status is [-1] for [0]
    to the power of [0], [-2] for a zero modulus, [-3] and [-4] for a base or an
    exponent that is not below the modulus, in this order and with 1 as the
    result, which is also the result for a zero exponent; otherwise the status
    is 0 and the result is the power modulo the modulus. *)
Theorem mp_modexp_correct W n expin exponent modulus : 33 <= W -> (1 <= n)%nat ->
  reg n expin -> reg n exponent -> reg n modulus -> val modulus = 0 \/ 2 ^ 32 <= val modulus ->
  let one := mp_init n 1 in
  exists status r, mp_modexp W expin exponent modulus = Some (status, r) /\ reg n r /\ val one = 1 /\
    if val exponent =? 0 then r = one /\ status = (if val expin =? 0 then -1 else 0)
    else if val modulus =? 0 then r = one /\ status = -2
    else if val modulus <=? val expin then r = one /\ status = -3
    else if val modulus <=? val exponent then r = one /\ status = -4
    else status = 0 /\ val r = val expin ^ val exponent mod val modulus.
Proof.
  intros HW Hn Hi He Hm Hv one. pose proof (val_range _ _ Hi). pose proof (val_range _ _ He).
  destruct (mp_init_val n 1) as [R1 E1]; [unfold is_u16; lia | exact Hn |].
  destruct (Z.eqb_spec (val exponent) 0) as [E0 | N0]; [| destruct (Z.eqb_spec (val modulus) 0) as [M0 | M0]].
  3: { destruct (Z.leb_spec (val modulus) (val expin)) as [L | L]; [| destruct (Z.leb_spec (val modulus) (val exponent)) as [L2 | L2]].
    3: { destruct (mp_modexp_val W n expin exponent modulus) as (r & -> & Rr & Er); [lia || assumption.. |].
      exists 0, r. auto. }
    all: unfold mp_modexp; rewrite !(testeq_val n), !(compare_ge n) by (assumption || (unfold is_u16; lia));
      rewrite (proj2 (Z.eqb_neq (val exponent) 0)), (proj2 (Z.eqb_neq (val modulus) 0)) by lia.
    - rewrite (proj2 (Z.leb_le _ _) L). rewrite (reg_length _ _ Hm). eauto 10.
    - rewrite (proj2 (Z.leb_gt _ _) L), (proj2 (Z.leb_le _ _) L2), (reg_length _ _ Hm). eauto 10. }
  all: unfold mp_modexp; rewrite !(testeq_val n) by (assumption || (unfold is_u16; lia)); rewrite (reg_length _ _ Hm).
  - rewrite E0. cbn [Z.eqb]. destruct (val expin =? 0); eauto 10.
  - rewrite (proj2 (Z.eqb_neq (val exponent) 0)), (proj2 (Z.eqb_eq _ _) M0) by lia. eauto 10.
Qed.

Lemma mp_modexp_correct_witness : exists r,
  mp_modexp 64 [3; 0; 0; 0] [5; 0; 0; 0] [7; 0; 1; 0] = Some (0, r) /\ val r = 3 ^ 5 mod val [7; 0; 1; 0].
Proof.
  destruct (mp_modexp_correct 64 4 [3; 0; 0; 0] [5; 0; 0; 0] [7; 0; 1; 0]) as (status & r & E & _ & _ & H);
    [lia | lia | split; [reflexivity | repeat constructor; unfold is_u16; lia].. | right; vm_compute; discriminate |].
  destruct H as [-> H]. exists r. split; [exact E | exact H].
Defined.
