(* ===== verification/PgpMpiio.v ===== *)
(** * PGP: multiprecision integers as bytes

    Models the byte-order functions of [security/pgp/src/mpiio.c] and the
    conversions [mpi2reg] and [reg2mpi] between a register and the integers of
    PGP packets, a bit count in two bytes and the bytes from the most significant
    one.  The host is little-endian: [unit_bytes] is how a register lies in
    memory, and [mp_convert_order] reverses it. *)

From Stdlib Require Import ZArith Lia List Bool.
From S2P Require Import Prelude PgpMpi.
Import ListNotations.

Definition units2bytes (n : Z) : Z := n << 1.
Definition bits2bytes (n : Z) : Z := (n + 7) >> 3.
Definition bytes2units (n : Z) : Z := (n + 1) >> 1.

(** A register as the bytes of its memory, and back. *)
Definition unit_bytes (r : list Z) : list Z := flat_map short_bytes r.

Fixpoint byte_units (bytes : list Z) : list Z :=
  match bytes with
  | a :: b :: rest => (a .| (b << 8)) :: byte_units rest
  | _ => []
  end.

Fixpoint hiloswap_loop (fuel : nat) (r : list Z) (r1 r2 : Z) : list Z :=
  match fuel with
  | O => r
  | S f =>
      if r1 <? r2 then
        let b := r.[r1] in
        let r := aset r r1 r.[r2] in
        let r := aset r r2 b in
        hiloswap_loop f r (r1 + 1) (r2 - 1)
      else r
  end.

Definition hiloswap (r1 : list Z) : list Z :=
  let numbytes := Z.of_nat (length r1) in
  hiloswap_loop (length r1) r1 0 (numbytes - 1).

(** On the [units2bytes(global_precision)] bytes of a register. *)
Definition mp_convert_order (r : list Z) : list Z := hiloswap r.

Definition fetch_word16 (buf : list Z) : Z :=
  let w1 := buf.[0] in
  let w0 := buf.[1] in
  u16 (w0 + (w1 << 8)).

(** The bytes stored. *)
Definition put_word16 (w : Z) : list Z :=
  let b1 := w .& 0xff in
  let w := w >> 8 in
  let b0 := w .& 0xff in
  [b0; b1].

Definition fetch_word32 (buf : list Z) : Z :=
  let w3 := buf.[0] in
  let w2 := buf.[1] in
  let w1 := buf.[2] in
  let w0 := buf.[3] in
  u32 (w0 + (w1 << 8) + (w2 << 16) + (w3 << 24)).

Definition put_word32 (w : Z) : list Z :=
  let b3 := w .& 0xff in
  let w := w >> 8 in
  let b2 := w .& 0xff in
  let w := w >> 8 in
  let b1 := w .& 0xff in
  let w := w >> 8 in
  let b0 := w .& 0xff in
  [b0; b1; b2; b3].

(** The status, and the register when there is one; [None] when the buffer is
    shorter than its bit count says. *)
Definition mpi2reg (prec : Z) (buf : list Z) : option (Z * option (list Z)) :=
  let bitcount := fetch_word16 buf in
  let buf := skipn 2 buf in
  let bytecount := bits2bytes bitcount in
  let unitcount := bytes2units bytecount in
  if unitcount >? prec then Some (-1, None)
  else if Z.of_nat (length buf) <? bytecount then None
  else
    let zero_bytes := units2bytes prec - bytecount in
    let buf2 := repeat 0 (Z.to_nat zero_bytes) ++ firstn (Z.to_nat bytecount) buf in
    let buf2 := mp_convert_order buf2 in
    Some (unitcount, Some (byte_units buf2)).

(** The count of bytes after the prefix, and what is stored. *)
Definition reg2mpi (r : list Z) : Z * list Z :=
  let bitcount := countbits r in
  let bytecount := bits2bytes bitcount in
  let buf2 := mp_convert_order (unit_bytes r) in
  let buf2 := skipn (Z.to_nat (units2bytes (Z.of_nat (length r)) - bytecount)) buf2 in
  (bytecount, put_word16 bitcount ++ firstn (Z.to_nat bytecount) buf2).

(** ** Byte order *)

Lemma swap_ends a x m y b : let i := Z.of_nat (length a) in let j := Z.of_nat (length a + S (length m)) in
  let r := a ++ (x :: m ++ [y]) ++ b in
  aset (aset r i r.[j]) j r.[i] = a ++ (y :: m ++ [x]) ++ b.
Proof.
  intros i j r. assert (Ei : r.[i] = x).
  { unfold r, aget, i. rewrite Nat2Z.id, app_nth2, Nat.sub_diag by lia. reflexivity. }
  assert (Ej : r.[j] = y).
  { unfold r, aget, j. rewrite Nat2Z.id, app_nth2 by lia. replace (length a + S (length m) - length a)%nat with (S (length m)) by lia.
    cbn [app nth]. rewrite <- app_assoc, app_nth2, Nat.sub_diag by lia. reflexivity. }
  rewrite Ei, Ej. unfold aset, i, j. rewrite !Nat2Z.id. unfold r.
  rewrite (upd_split (a ++ (x :: m ++ [y]) ++ b) (length a)) by (rewrite length_app; cbn [app length]; lia).
  rewrite firstn_app, firstn_all, Nat.sub_diag. cbn [firstn]. rewrite app_nil_r.
  replace (skipn (S (length a)) (a ++ (x :: m ++ [y]) ++ b)) with (m ++ [y] ++ b).
  2: { rewrite skipn_app, skipn_all2 by lia. replace (S (length a) - length a)%nat with 1%nat by lia. cbn [app skipn]. now rewrite <- app_assoc. }
  replace (a ++ [y] ++ m ++ [y] ++ b) with ((a ++ y :: m) ++ y :: b) by (now rewrite <- app_assoc).
  rewrite upd_split by (rewrite !length_app; cbn [length]; lia).
  replace (length a + S (length m))%nat with (length (a ++ y :: m)) by (rewrite length_app; reflexivity).
  rewrite firstn_app, firstn_all, Nat.sub_diag. cbn [firstn]. rewrite app_nil_r.
  rewrite skipn_app, skipn_all2 by lia. replace (S (length (a ++ y :: m)) - length (a ++ y :: m))%nat with 1%nat by lia.
  cbn [app skipn]. rewrite <- !app_assoc. reflexivity.
Qed.

Lemma hiloswap_loop_rev fuel a m b : (length m <= fuel)%nat ->
  hiloswap_loop fuel (a ++ m ++ b) (Z.of_nat (length a)) (Z.of_nat (length a + length m) - 1) = a ++ rev m ++ b.
Proof.
  revert a m b. induction fuel as [|fuel IH]; intros a m b Hf.
  { destruct m; [reflexivity | cbn [length] in Hf; lia]. }
  cbn [hiloswap_loop]. destruct m as [|x m]; [rewrite (proj2 (Z.ltb_ge _ _)) by (cbn [length]; lia); reflexivity |].
  destruct m as [|y m _] using rev_ind; [rewrite (proj2 (Z.ltb_ge _ _)) by (cbn [length]; lia); reflexivity |].
  rewrite (proj2 (Z.ltb_lt _ _)) by (cbn [length]; rewrite length_app; cbn [length]; lia).
  assert (El : Z.of_nat (length a + length (x :: m ++ [y])) - 1 = Z.of_nat (length a + S (length m)))
    by (cbn [length]; rewrite length_app; cbn [length]; lia).
  rewrite El, swap_ends. cbn [length] in Hf. rewrite length_app in Hf. cbn [length] in Hf.
  replace (a ++ (y :: m ++ [x]) ++ b) with ((a ++ [y]) ++ m ++ [x] ++ b) by (rewrite <- !app_assoc; cbn [app]; now rewrite <- app_assoc).
  specialize (IH (a ++ [y]) m ([x] ++ b) ltac:(lia)).
  replace (Z.of_nat (length (a ++ [y]))) with (Z.of_nat (length a) + 1) in IH by (rewrite length_app; cbn [length]; lia).
  replace (Z.of_nat (length (a ++ [y]) + length m) - 1) with (Z.of_nat (length a + S (length m)) - 1) in IH by (rewrite length_app; cbn [length]; lia).
  rewrite IH. cbn [rev]. rewrite rev_app_distr. cbn [rev app]. rewrite <- !app_assoc. reflexivity.
Qed.

Lemma hiloswap_rev r : hiloswap r = rev r.
Proof.
  unfold hiloswap. pose proof (hiloswap_loop_rev (length r) [] r [] ltac:(lia)) as H. cbn [app length Nat.add] in H.
  rewrite !app_nil_r in H. exact H.
Qed.

(** ** Bytes and numbers *)

(** The number of a list of bytes, the least significant first. *)
Fixpoint bval (bytes : list Z) : Z :=
  match bytes with
  | [] => 0
  | b :: rest => b + 256 * bval rest
  end.

Lemma bval_app a b : bval (a ++ b) = bval a + 256 ^ Z.of_nat (length a) * bval b.
Proof.
  induction a as [|x a IH]; cbn [app bval length]; [change (256 ^ Z.of_nat 0) with 1; ring |].
  rewrite IH, Nat2Z.inj_succ, Z.pow_succ_r by lia. ring.
Qed.

Lemma bval_range l : Forall is_u8 l -> 0 <= bval l < 256 ^ Z.of_nat (length l).
Proof.
  induction 1 as [|x l Hx Hl IH]; cbn [bval length]; [change (256 ^ Z.of_nat 0) with 1; lia |].
  rewrite Nat2Z.inj_succ, Z.pow_succ_r by lia. unfold is_u8 in Hx. lia.
Qed.

Lemma bval_zeros k : bval (repeat 0 k) = 0.
Proof. induction k as [|k IH]; cbn [repeat bval]; lia. Qed.

Lemma bval_zero l : Forall is_u8 l -> bval l = 0 -> l = repeat 0 (length l).
Proof.
  induction 1 as [|x l Hx Hl IH]; cbn [bval length repeat]; intros E; [reflexivity |].
  pose proof (bval_range l Hl). unfold is_u8 in Hx. replace x with 0 by lia. now rewrite <- IH by lia.
Qed.

(** Above the bytes a number needs there are zeros. *)
Lemma bval_high l k : Forall is_u8 l -> (k <= length l)%nat -> bval l < 256 ^ Z.of_nat k -> skipn k l = repeat 0 (length l - k).
Proof.
  intros Hl Hk Hv. rewrite <- (length_skipn k l). apply bval_zero; [now apply Forall_skipn |].
  rewrite <- (firstn_skipn k l) in Hv. rewrite bval_app, length_firstn, Nat.min_l in Hv by lia.
  pose proof (bval_range _ (Forall_firstn _ k l Hl)). pose proof (bval_range _ (Forall_skipn _ k l Hl)).
  pose proof (Z.pow_pos_nonneg 256 (Z.of_nat k) ltac:(lia) ltac:(lia)). nia.
Qed.

Lemma unit_bytes_val r n : reg n r -> bval (unit_bytes r) = val r.
Proof.
  revert r. induction n as [|n IH]; intros r Hr; [apply reg_0_inv in Hr as ->; reflexivity |].
  apply reg_S_inv in Hr as (x & r' & -> & Hx & Hr). cbn [unit_bytes flat_map short_bytes app bval val]. fold (unit_bytes r').
  rewrite (IH r' Hr). unfold u8, zext. rewrite shiftr_div by lia. change (2 ^ 8) with 256.
  unfold is_u16 in Hx. zlia.
Qed.

Lemma byte_units_bytes r n : reg n r -> byte_units (unit_bytes r) = r.
Proof.
  revert r. induction n as [|n IH]; intros r Hr; [apply reg_0_inv in Hr as ->; reflexivity |].
  apply reg_S_inv in Hr as (x & r' & -> & Hx & Hr). cbn [unit_bytes flat_map short_bytes app byte_units]. fold (unit_bytes r').
  rewrite (IH r' Hr). f_equal. unfold u8, zext. unfold is_u16 in Hx. rewrite shiftr_div, shiftl_mul by lia. change (2 ^ 8) with 256.
  rewrite Z.lor_comm, (lor_add 8); change (2 ^ 8) with 256; [zlia | lia | apply Z.mod_mul; lia | zlia].
Qed.

Lemma byte_units_reg n l : Forall is_u8 l -> length l = (2 * n)%nat -> reg n (byte_units l) /\ unit_bytes (byte_units l) = l.
Proof.
  revert l. induction n as [|n IH]; intros l Hl L; [destruct l; [cbn; auto with cint | discriminate] |].
  destruct l as [|a [|b l]]; [discriminate | cbn [length] in L; lia |]. inversion Hl as [|? ? Ha Hl']; subst. inversion Hl' as [|? ? Hb Hl'']; subst.
  destruct (IH l Hl'' ltac:(cbn [length] in L; lia)) as [R E]. cbn [byte_units]. unfold is_u8 in Ha, Hb.
  assert (V : a .| (b << 8) = a + 256 * b).
  { rewrite shiftl_mul by lia. change (2 ^ 8) with 256. rewrite Z.lor_comm, (lor_add 8); change (2 ^ 8) with 256; [lia | lia | apply Z.mod_mul; lia | lia]. }
  rewrite V. split; [apply reg_cons; split; [unfold is_u16; lia | exact R] |].
  cbn [unit_bytes flat_map short_bytes app]. fold (unit_bytes (byte_units l)). rewrite E. f_equal; [| f_equal].
  - unfold u8, zext. change (2 ^ 8) with 256. zlia.
  - unfold u8, zext. rewrite shiftr_div by lia. change (2 ^ 8) with 256. zlia.
Qed.

Lemma byte_units_val n l : Forall is_u8 l -> length l = (2 * n)%nat -> val (byte_units l) = bval l.
Proof.
  intros Hl L. destruct (byte_units_reg n l Hl L) as [R E]. rewrite <- (unit_bytes_val _ n R). now rewrite E.
Qed.

(** ** Theorems *)

Lemma pow256 k : 256 ^ Z.of_nat k = 2 ^ (8 * Z.of_nat k).
Proof. change 256 with (2 ^ 8). rewrite <- Z.pow_mul_r by lia. reflexivity. Qed.

Lemma fetch_put w rest : is_u16 w -> fetch_word16 (put_word16 w ++ rest) = w.
Proof.
  unfold is_u16. intros Hw. unfold fetch_word16, put_word16, aget. cbn [app Z.to_nat Pos.to_nat Pos.iter_op Nat.add nth].
  change 255 with (Z.ones 8). rewrite !Z.land_ones, shiftr_div, shiftl_mul by lia. unfold u16, zext. change (2 ^ 8) with 256. change (Pos.to_nat 1) with 1%nat. cbv iota. zlia.
Qed.

(** C32. [mpi2reg] reads back the register [reg2mpi] wrote, at any precision
    whose numbers have a bit count of 16 bits, whatever follows in the buffer; the
    count of bytes written is the one returned and two for the prefix, and the
    count of units is the register's significance. *)
Theorem reg2mpi_mpi2reg n r rest : reg n r -> 16 * Z.of_nat n < 2 ^ 16 ->
  let (bc, buf) := reg2mpi r in
  Z.of_nat (length buf) = bc + 2 /\
  mpi2reg (Z.of_nat n) (buf ++ rest) = Some (significance r, Some r).
Proof.
  intros Hr H16. unfold reg2mpi. destruct (countbits_spec n r Hr) as (C & U & L). set (c := countbits r) in *.
  set (bc := bits2bytes c). assert (Eb : bc = (c + 7) / 8) by (unfold bc, bits2bytes; rewrite shiftr_div by lia; reflexivity).
  assert (E2 : units2bytes (Z.of_nat (length r)) = 2 * Z.of_nat n) by (rewrite (reg_length _ _ Hr); unfold units2bytes; rewrite shiftl_mul by lia; change (2 ^ 1) with 2; lia).
  rewrite E2. assert (Hb : 0 <= bc <= 2 * Z.of_nat n) by (rewrite Eb; zlia). set (z := Z.to_nat (2 * Z.of_nat n - bc)).
  assert (Lb : length (unit_bytes r) = (2 * n)%nat) by (unfold unit_bytes; rewrite short_bytes_length, (reg_length _ _ Hr); lia).
  unfold mp_convert_order. rewrite hiloswap_rev. set (k := Z.to_nat bc).
  assert (Fk : firstn k (skipn z (rev (unit_bytes r))) = rev (firstn k (unit_bytes r))).
  { rewrite firstn_all2 by (rewrite length_skipn, length_rev, Lb; unfold z, k; lia).
    rewrite skipn_rev, Lb. f_equal. f_equal. unfold z, k. lia. }
  rewrite Fk. split; [rewrite length_app, length_rev, length_firstn, Lb; unfold k; cbn [put_word16 length]; lia |].
  unfold mpi2reg. rewrite <- app_assoc, fetch_put by (unfold is_u16; lia). fold c bc.
  change (skipn 2 (put_word16 c ++ rev (firstn k (unit_bytes r)) ++ rest)) with (rev (firstn k (unit_bytes r)) ++ rest).
  assert (Sg : bytes2units bc = significance r).
  { unfold bytes2units. rewrite shiftr_div by lia. change (2 ^ 1) with 2. symmetry. destruct (Z.eq_dec c 0) as [C0 | C0].
    - replace ((bc + 1) / 2) with 0 by zlia. apply (significance_zero n r Hr). rewrite C0 in U. change (2 ^ 0) with 1 in U. pose proof (val_range _ _ Hr). lia.
    - apply (significance_unique n r _ Hr); [zlia |]. specialize (L ltac:(lia)). split.
      + apply (Z.le_trans _ (2 ^ (c - 1))); [apply Z.pow_le_mono_r; zlia | exact L].
      + apply (Z.lt_le_trans _ (2 ^ c)); [exact U | apply Z.pow_le_mono_r; zlia]. }
  destruct (significance_val n r Hr) as (Ks & _ & _). rewrite Sg, Z.gtb_ltb, (proj2 (Z.ltb_ge _ _)) by lia.
  rewrite (proj2 (Z.ltb_ge _ _)) by (rewrite length_app, length_rev, length_firstn, Lb; unfold k; lia).
  rewrite firstn_app, firstn_all2 by (rewrite length_rev, length_firstn, Lb; unfold k; lia).
  replace (Z.to_nat bc - length (rev (firstn k (unit_bytes r))))%nat with 0%nat by (rewrite length_rev, length_firstn, Lb; unfold k; lia).
  cbn [firstn]. rewrite app_nil_r. do 4 f_equal. unfold mp_convert_order. rewrite hiloswap_rev, rev_app_distr, rev_involutive, rev_repeat.
  transitivity (byte_units (unit_bytes r)); [| apply (byte_units_bytes r n Hr)]. f_equal.
  rewrite <- (firstn_skipn k (unit_bytes r)) at 2. f_equal.
  rewrite bval_high; [| apply short_bytes_u8 | rewrite Lb; unfold k; lia |].
  - f_equal. rewrite Lb. unfold units2bytes, k. rewrite shiftl_mul by lia. change (2 ^ 1) with 2. lia.
  - rewrite (unit_bytes_val r n Hr), pow256. apply (Z.lt_le_trans _ (2 ^ c)); [exact U |]. apply Z.pow_le_mono_r; unfold k; zlia.
Qed.

Lemma reg2mpi_mpi2reg_witness : let (bc, buf) := reg2mpi [0x3412; 0x0056; 0] in
  Z.of_nat (length buf) = bc + 2 /\ mpi2reg 3 (buf ++ [7]) = Some (2, Some [0x3412; 0x0056; 0]).
Proof.
  apply (reg2mpi_mpi2reg 3 [0x3412; 0x0056; 0] [7]); [split; [reflexivity | repeat constructor; unfold is_u16; lia] | lia].
Defined.
