(* ===== verification/PgpKey.v ===== *)
(** * PGP: Euclid's algorithm and the components of a key

    Models [mp_gcd] and [mp_inv] of [security/pgp/src/genprime.c] and
    [derive_rsakeys] of [security/pgp/src/rsagen.c] on the registers of
    [PgpMpi].  Euclid's loops turn through three local arrays: the list of the
    three, indexed as the code does, with [junk] for what an array on the stack
    holds before it is written. *)

From Stdlib Require Import ZArith Znumtheory Lia List Bool.
From S2P Require Import Prelude PgpMpi.
Import ListNotations.

Definition iplus1 (i : nat) : nat := if (i =? 2)%nat then 0%nat else (i + 1)%nat.
Definition iminus1 (i : nat) : nat := if (i =? 0)%nat then 2%nat else (i - 1)%nat.

(** [g(i)] and [v(i)]. *)
Definition copy (g : list (list Z)) (i : nat) : list Z := nth i g [].

(** Division steps are bounded: two of them halve the divisor. *)
Definition euclid_fuel (n : list Z) : nat := S (32 * length n).

Fixpoint gcd_loop (fuel i : nat) (g : list (list Z)) : nat * list (list Z) :=
  match fuel with
  | O => (i, g)
  | S f =>
      if testne (copy g i) 0 then
        let r := snd (mp_mod (copy g (iplus1 i)) (copy g (iminus1 i)) (copy g i)) in
        gcd_loop f (iplus1 i) (upd g (iplus1 i) r)
      else (i, g)
  end.

Definition mp_gcd (junk a n : list Z) : list Z :=
  let (i, g) := gcd_loop (euclid_fuel n) 1 [n; a; junk] in
  copy g (iminus1 i).

Fixpoint inv_loop (fuel i : nat) (y : list Z) (g v : list (list Z)) : nat * list (list Z) :=
  match fuel with
  | O => (i, v)
  | S f =>
      if testne (copy g i) 0 then
        let '(_, r, y) := mp_udiv (copy g (iplus1 i)) y (copy g (iminus1 i)) (copy g i) in
        let g := upd g (iplus1 i) r in
        let temp := mp_mult y (copy v i) in
        let v := upd v (iplus1 i) (copy v (iminus1 i)) in
        let v := upd v (iplus1 i) (mp_sub (copy v (iplus1 i)) temp) in
        inv_loop f (iplus1 i) y g v
      else (i, v)
  end.

Definition mp_inv (junk a n : list Z) : list Z :=
  let prec := length n in
  let (i, v) := inv_loop (euclid_fuel n) 1 junk [n; a; junk] [mp_init prec 0; mp_init prec 1; junk] in
  let x := copy v (iminus1 i) in
  if mp_tstminus x then mp_add x n else x.

(** ** The components of a key *)

(** [2 ^ k] turns of a loop that can stop. *)
Fixpoint turns {S R : Type} (k : nat) (body : S -> S + R) (s : S) : S + R :=
  match k with
  | O => body s
  | Datatypes.S k => match turns k body s with inl s => turns k body s | inr r => inr r end
  end.

(** [do { mp_inc(e); mp_inc(e); mp_gcd(ptemp,e,phi); } while (testne(ptemp,1));] *)
Definition try_e (junk phi e : list Z) : list Z + list Z :=
  let e := fst (mp_inc e) in
  let e := fst (mp_inc e) in
  let ptemp := mp_gcd junk e phi in
  if testne ptemp 1 then inl e else inr e.

Record rsa_components := mkComponents {
  key_n : list Z;
  key_e : list Z;
  key_d : list Z;
  key_u : list Z
}.

(** The exponent the search starts from. *)
Definition first_e (prec : nat) (ebits : Z) (phi : list Z) : list Z :=
  let ebits := Z.min ebits (countbits phi - 1) in
  let ebits := if ebits =? 0 then 5 else ebits in
  let ebits := Z.max ebits 2 in
  let e := mp_setbit (mp_init prec 0) (ebits - 1) in
  aset e 0 (lsunit e .| 1).

(** [None] if no exponent is found in as many turns as there are numbers. *)
Definition derive_rsakeys (junk p q : list Z) (ebits : Z) : option rsa_components :=
  let prec := length p in
  let '(p, q) := if mp_compare p q >=? 0 then (q, p) else (p, q) in
  let ptemp := fst (mp_dec p) in
  let qtemp := fst (mp_dec q) in
  let phi := mp_mult ptemp qtemp in
  let G := mp_gcd junk ptemp qtemp in
  let '(_, ptemp, qtemp) := mp_udiv ptemp qtemp phi G in
  let F := qtemp in
  let e := first_e prec ebits phi in
  let e := fst (mp_dec e) in
  let e := fst (mp_dec e) in
  match turns (16 * prec) (try_e junk phi) e with
  | inl _ => None
  | inr e =>
      let d := mp_inv junk e F in
      let u := mp_inv junk p q in
      let n := mp_mult p q in
      Some (mkComponents n e d u)
  end.

(** ** Euclid's loop *)

(** The turns Euclid's algorithm takes on numbers. *)
Fixpoint enough (fuel : nat) (a b : Z) : bool :=
  match fuel with
  | O => false
  | S f => (b =? 0) || enough f b (a mod b)
  end.

Lemma euclid_halves k a b : 0 <= b < 2 ^ Z.of_nat k -> enough (S (2 * k)) a b = true.
Proof.
  revert a b. induction k as [|k IH]; intros a b Hb.
  - change (2 ^ Z.of_nat 0) with 1 in Hb. cbn [enough]. now replace b with 0 by lia.
  - replace (S (2 * S k))%nat with (S (S (S (2 * k))))%nat by lia. rewrite Nat2Z.inj_succ, Z.pow_succ_r in Hb by lia.
    cbn [enough]. fold enough. destruct (Z.eqb_spec b 0) as [| Nb]; [reflexivity |]. cbn [orb].
    pose proof (Z.mod_pos_bound a b ltac:(lia)). set (r := a mod b) in *. destruct (Z.eqb_spec r 0) as [| Nr]; [reflexivity |].
    cbn [orb]. apply IH. pose proof (Z.mod_pos_bound b r ltac:(lia)). split; [lia |].
    pose proof (Z.div_mod b r Nr). assert (1 <= b / r) by (apply Z.div_le_lower_bound; lia). nia.
Qed.

Lemma euclid_fuel_enough n a b nn : reg n b -> length nn = n -> enough (euclid_fuel nn) a (val b) = true.
Proof.
  intros Hb L. unfold euclid_fuel. rewrite L. replace (32 * n)%nat with (2 * (16 * n))%nat by lia. apply euclid_halves.
  pose proof (val_range _ _ Hb) as V. unfold beta in V. now replace (Z.of_nat (16 * n)) with (16 * Z.of_nat n) by lia.
Qed.

(** The indices turn. *)
Lemma index_turn i : (i < 3)%nat -> (iplus1 i < 3)%nat /\ iminus1 (iplus1 i) = i /\ iplus1 i <> i /\ iplus1 i <> iminus1 i /\ (iminus1 i < 3)%nat.
Proof. intros H. destruct i as [|[|[|i]]]; cbn; lia. Qed.

Definition three (n : nat) (g : list (list Z)) : Prop := length g = 3%nat /\ Forall (reg n) g.

Lemma three_copy n g i : three n g -> (i < 3)%nat -> reg n (copy g i).
Proof. intros [L F] Hi. unfold copy. apply (proj1 (Forall_forall _ _) F). apply nth_In. lia. Qed.

Lemma three_upd n g i r : three n g -> reg n r -> three n (upd g i r).
Proof. intros [L F] Hr. split; [now rewrite upd_length | now apply Forall_upd]. Qed.

Lemma copy_upd n g i j r : three n g -> (i < 3)%nat -> copy (upd g i r) j = if (j =? i)%nat then r else copy g j.
Proof. intros [L _] Hi. unfold copy. rewrite nth_upd, L, (proj2 (Nat.ltb_lt i 3) Hi). now rewrite andb_true_r. Qed.

Lemma three_list n a b c : reg n a -> reg n b -> reg n c -> three n [a; b; c].
Proof. intros Ha Hb Hc. split; [reflexivity | auto]. Qed.

Section Euclid.

Variable n : nat.
Hypothesis Hn : (1 <= n)%nat.

(** One turn of the arrays: what the next one sees. *)
Lemma turn_copies g i r : three n g -> (i < 3)%nat -> reg n r ->
  let g' := upd g (iplus1 i) r in
  three n g' /\ copy g' (iplus1 i) = r /\ copy g' (iminus1 (iplus1 i)) = copy g i.
Proof using.
  intros Hg Hi Hr g'. destruct (index_turn i Hi) as (L & E & N & _). subst g'. split; [now apply three_upd |].
  rewrite !(copy_upd n) by assumption. rewrite Nat.eqb_refl, E, (proj2 (Nat.eqb_neq i (iplus1 i))) by auto. auto.
Qed.

Lemma gcd_loop_val fuel i g : three n g -> (i < 3)%nat -> 2 * val (copy g i) <= beta n ->
  enough fuel (val (copy g (iminus1 i))) (val (copy g i)) = true ->
  let (j, g') := gcd_loop fuel i g in
  reg n (copy g' (iminus1 j)) /\ val (copy g' (iminus1 j)) = Z.gcd (val (copy g (iminus1 i))) (val (copy g i)).
Proof using Hn.
  revert i g. induction fuel as [|fuel IH]; intros i g Hg Hi Hfit He; [discriminate |]. cbn [gcd_loop enough] in *.
  destruct (index_turn i Hi) as (L1 & E1 & N1 & N2 & L2). pose proof (three_copy n g i Hg Hi) as Ri.
  pose proof (three_copy n g _ Hg L2) as Rm. pose proof (val_range _ _ Ri). pose proof (val_range _ _ Rm).
  rewrite (testne_val n) by (assumption || (unfold is_u16; lia)).
  destruct (Z.eqb_spec (val (copy g i)) 0) as [E0 | N0]; cbn [negb].
  { rewrite E0, Z.gcd_0_r, Z.abs_eq by lia. auto. }
  cbn [orb] in He. pose proof (mp_mod_val n (copy g (iminus1 i)) (copy g i) Hn Rm Ri ltac:(lia) Hfit (copy g (iplus1 i)) (three_copy n g _ Hg L1)) as M.
  destruct (mp_mod _ _ _) as [st r]. destruct M as (_ & Rr & Er). cbn [snd].
  destruct (turn_copies g i r Hg Hi Rr) as (Hg' & C1 & C2). pose proof (Z.mod_pos_bound (val (copy g (iminus1 i))) (val (copy g i)) ltac:(lia)).
  specialize (IH (iplus1 i) (upd g (iplus1 i) r) Hg' L1). rewrite C1, C2, Er in IH.
  specialize (IH ltac:(lia) He). destruct (gcd_loop _ _ _) as [j g']. destruct IH as [Rj Ej]. split; [exact Rj |].
  rewrite Ej, Z.gcd_comm, Z.gcd_mod by lia. apply Z.gcd_comm.
Qed.

Lemma mp_gcd_val junk a m : reg n junk -> reg n a -> reg n m -> 2 * val a <= beta n ->
  reg n (mp_gcd junk a m) /\ val (mp_gcd junk a m) = Z.gcd (val a) (val m).
Proof using Hn.
  intros Hj Ha Hm Hfit. unfold mp_gcd.
  pose proof (gcd_loop_val (euclid_fuel m) 1 [m; a; junk] (three_list n _ _ _ Hm Ha Hj) ltac:(lia) Hfit
    (euclid_fuel_enough n _ a m Ha (reg_length _ _ Hm))) as H.
  destruct (gcd_loop _ _ _) as [i g]. destruct H as [R E]. split; [exact R |]. rewrite E. apply Z.gcd_comm.
Qed.

(** What the extended algorithm keeps: the coefficients, of alternating signs,
    as two's complement numbers; the next to last and the last. *)
Record bezout (N a : Z) (gm gi : Z) (vm vi : list Z) (s P C : Z) : Prop := {
  bz_sign : s = 1 \/ s = -1;
  bz_m : val vm = (- s * P) mod beta n;
  bz_i : val vi = (s * C) mod beta n;
  bz_P : 0 <= P <= N;
  bz_C : 0 <= C <= N;
  bz_sum : C * gm + P * gi = N;
  bz_div_m : (N | - s * P * a - gm);
  bz_div_i : (N | s * C * a - gi)
}.

Lemma bezout_turn N a gm gi vm vi s P C y : 0 < gi -> 0 <= gm -> reg n vm -> reg n vi -> reg n y -> val y = gm / gi ->
  bezout N a gm gi vm vi s P C ->
  let v := mp_sub vm (mp_mult y vi) in
  reg n v /\ bezout N a gi (gm mod gi) vi v (- s) C (P + val y * C).
Proof using Hn.
  intros Hgi Hgm Rm Ri Ry Ey [Hs Em Ei HP HC Hsum Dm Di] v. destruct (mp_mult_val n y vi Hn Ry Ri) as [R1 E1].
  destruct (mp_sub_val n vm _ Rm R1) as [R2 E2]. fold v in R2, E2. split; [exact R2 |].
  pose proof (Z.div_mod gm gi ltac:(lia)) as D. rewrite <- Ey in D. set (r := gm mod gi) in *.
  pose proof (Z.mod_pos_bound gm gi Hgi) as Hr. fold r in Hr. assert (Hy : 0 <= val y) by (rewrite Ey; apply Z.div_pos; lia).
  assert (HyC : 0 <= val y * C) by (apply Z.mul_nonneg_nonneg; lia).
  assert (Sum : (P + val y * C) * gi + C * r = N) by (rewrite D in Hsum; rewrite <- Hsum; ring). assert (0 <= C * r) by (apply Z.mul_nonneg_nonneg; lia).
  constructor.
  - lia.
  - rewrite Ei. f_equal. ring.
  - rewrite E2, Em, E1, Ei. rewrite Zmult_mod_idemp_r, Zminus_mod_idemp_l, Zminus_mod_idemp_r. f_equal. ring.
  - lia.
  - split; [lia |]. assert ((P + val y * C) * 1 <= (P + val y * C) * gi) by (apply Z.mul_le_mono_nonneg_l; lia). lia.
  - exact Sum.
  - replace (- - s * C * a - gi) with (s * C * a - gi) by ring. exact Di.
  - replace (- s * (P + val y * C) * a - r) with ((- s * P * a - gm) - val y * (s * C * a - gi)) by (replace gm with (gi * val y + r) by lia; ring).
    apply Z.divide_sub_r; [exact Dm | now apply Z.divide_mul_r].
Qed.

Lemma inv_loop_val N a fuel i y g v s P C : three n g -> three n v -> reg n y -> (i < 3)%nat -> 2 * val (copy g i) <= beta n ->
  enough fuel (val (copy g (iminus1 i))) (val (copy g i)) = true ->
  bezout N a (val (copy g (iminus1 i))) (val (copy g i)) (copy v (iminus1 i)) (copy v i) s P C ->
  let (j, v') := inv_loop fuel i y g v in
  reg n (copy v' (iminus1 j)) /\ exists V, - N <= V <= N /\ val (copy v' (iminus1 j)) = V mod beta n /\
    (N | V * a - Z.gcd (val (copy g (iminus1 i))) (val (copy g i))).
Proof using Hn.
  revert i y g v s P C. induction fuel as [|fuel IH]; intros i y g v s P C Hg Hv Hy Hi Hfit He Hb; [discriminate |].
  cbn [inv_loop enough] in *. destruct (index_turn i Hi) as (L1 & E1 & N1 & N2 & L2). pose proof (three_copy n g i Hg Hi) as Ri.
  pose proof (three_copy n g _ Hg L2) as Rm. pose proof (val_range _ _ Ri). pose proof (val_range _ _ Rm).
  pose proof (three_copy n v _ Hv L2) as Vm. pose proof (three_copy n v i Hv Hi) as Vi.
  rewrite (testne_val n) by (assumption || (unfold is_u16; lia)).
  destruct (Z.eqb_spec (val (copy g i)) 0) as [E0 | N0]; cbn [negb].
  { rewrite E0, Z.gcd_0_r, Z.abs_eq by lia. split; [exact Vm |]. destruct Hb as [Hs Em _ HP _ _ Dm _].
    exists (- s * P). split; [destruct Hs; subst; lia |]. auto. }
  cbn [orb] in He.
  pose proof (mp_udiv_val n (copy g (iminus1 i)) (copy g i) Hn Rm Ri ltac:(lia) Hfit (copy g (iplus1 i)) y (three_copy n g _ Hg L1) Hy) as M.
  destruct (mp_udiv _ _ _ _) as [[st r] y']. destruct M as (_ & Rr & Ry & Er & Ey). cbv beta iota zeta.
  destruct (turn_copies g i r Hg Hi Rr) as (Hg' & C1 & C2).
  destruct (bezout_turn N a (val (copy g (iminus1 i))) (val (copy g i)) _ _ s P C y' ltac:(lia) ltac:(lia) Vm Vi Ry Ey Hb) as [Rv Hb'].
  assert (Ev : copy (upd v (iplus1 i) (copy v (iminus1 i))) (iplus1 i) = copy v (iminus1 i))
    by (rewrite (copy_upd n) by assumption; now rewrite Nat.eqb_refl).
  rewrite Ev. set (v1 := upd v (iplus1 i) (copy v (iminus1 i))).
  assert (Hv1 : three n v1) by (now apply three_upd). assert (Evi : copy v1 i = copy v i).
  { unfold v1. rewrite (copy_upd n) by assumption. now rewrite (proj2 (Nat.eqb_neq i (iplus1 i))) by auto. }
  destruct (turn_copies v1 i _ Hv1 Hi Rv) as (Hv2 & D1 & D2). rewrite Evi in D2.
  pose proof (Z.mod_pos_bound (val (copy g (iminus1 i))) (val (copy g i)) ltac:(lia)).
  specialize (IH (iplus1 i) y' (upd g (iplus1 i) r) _ (- s) C (P + val y' * C) Hg' Hv2 Ry L1).
  rewrite C1, C2, D1, D2, Er in IH. specialize (IH ltac:(lia) He Hb'). destruct (inv_loop _ _ _ _ _) as [j v'].
  destruct IH as [Rj (V & BV & EV & DV)]. split; [exact Rj |]. exists V. split; [exact BV |]. split; [exact EV |].
  rewrite Z.gcd_comm, Z.gcd_mod in DV by lia. rewrite Z.gcd_comm. exact DV.
Qed.

(** The inverse, when there is one. *)
Lemma mp_inv_val junk a m : reg n junk -> reg n a -> reg n m -> 2 * val a <= beta n -> 1 < val m -> 2 * val m < beta n ->
  Z.gcd (val a) (val m) = 1 ->
  reg n (mp_inv junk a m) /\ 0 < val (mp_inv junk a m) < val m /\ (val a * val (mp_inv junk a m)) mod val m = 1.
Proof using Hn.
  intros Hj Ha Hm Hfa H1 Hfm Hg. unfold mp_inv. rewrite (reg_length _ _ Hm).
  destruct (mp_init_val n 0) as [R0 V0]; [unfold is_u16; lia | exact Hn |].
  destruct (mp_init_val n 1) as [R1 V1]; [unfold is_u16; lia | exact Hn |]. pose proof (val_range _ _ Ha).
  pose proof (inv_loop_val (val m) (val a) (euclid_fuel m) 1 junk [m; a; junk] [mp_init n 0; mp_init n 1; junk] 1 0 1
    (three_list n _ _ _ Hm Ha Hj) (three_list n _ _ _ R0 R1 Hj) Hj ltac:(lia) Hfa (euclid_fuel_enough n _ a m Ha (reg_length _ _ Hm))) as L.
  cbn [iminus1 Nat.eqb Nat.sub copy nth] in L. destruct (inv_loop _ _ _ _ _) as [i v].
  destruct L as [Rx (V & BV & EV & DV)].
  { constructor; try lia.
    - rewrite V0. reflexivity.
    - rewrite V1. symmetry. apply Z.mod_small. lia.
    - exists (-1). lia.
    - exists 0. lia. }
  fold (copy v (iminus1 i)) in *. set (x := copy v (iminus1 i)) in *. rewrite Z.gcd_comm, Hg in DV. destruct DV as [k Hk].
  assert (NV : V <> 0 /\ V <> val m /\ V <> - val m).
  { assert (ND : ~ (val m | 1)) by (intros D; apply Z.divide_1_r_nonneg in D; lia).
    repeat split; intros ->; apply ND; [exists (- k) | exists (val a - k) | exists (- val a - k)]; lia. }
  rewrite (tstminus_val n x Rx Hn). assert (Fin : forall w, 0 < w < val m -> (w = V \/ w = V + val m) -> (val a * w) mod val m = 1).
  { intros w _ [-> | ->]; symmetry; [apply (Z.mod_unique_pos _ _ k) | apply (Z.mod_unique_pos _ _ (k + val a))]; lia. }
  destruct (Z_lt_ge_dec V 0) as [Lt | Ge].
  - assert (Ex : val x = V + beta n) by (rewrite EV; symmetry; apply (Z.mod_unique_pos _ _ (-1)); lia).
    rewrite (proj2 (Z.leb_le _ _)) by lia. destruct (mp_add_val n x m Rx Hm) as [Ra Ea].
    rewrite <- (Z.mod_unique_pos _ _ 1 (V + val m)) in Ea by lia. split; [exact Ra |]. rewrite Ea. split; [lia | apply Fin; lia].
  - rewrite Z.mod_small in EV by lia. rewrite (proj2 (Z.leb_gt _ _)) by lia. split; [exact Rx |]. rewrite EV. split; [lia | apply Fin; lia].
Qed.

End Euclid.

(** ** The public exponent *)

Lemma first_e_val n ebits phi : (1 <= n)%nat -> reg n phi -> 16 <= val phi -> 2 * val phi <= beta n ->
  reg n (first_e n ebits phi) /\ 3 <= val (first_e n ebits phi) <= val phi + 1 /\ Z.odd (val (first_e n ebits phi)) = true.
Proof.
  intros Hn Hp H16 Hfit. unfold first_e. destruct (countbits_spec n phi Hp) as (C & U & L). set (c := countbits phi) in *.
  assert (Hc : 4 < c) by (apply (Z.pow_lt_mono_r_iff 2); lia). specialize (L ltac:(lia)).
  set (eb := Z.max (if Z.min ebits (c - 1) =? 0 then 5 else Z.min ebits (c - 1)) 2).
  assert (Heb : 2 <= eb /\ (eb <= c - 1 \/ eb = 5)) by (unfold eb; destruct (Z.eqb_spec (Z.min ebits (c - 1)) 0); lia).
  destruct (mp_init_val n 0) as [R0 V0]; [unfold is_u16; lia | exact Hn |].
  assert (Hc2 : c < 16 * Z.of_nat n + 1) by lia.
  assert (Hm : 0 <= eb - 1 < 16 * Z.of_nat n) by lia.
  assert (Hcl : Z.testbit (val (mp_init n 0)) (eb - 1) = false) by (rewrite V0; apply Z.testbit_0_l).
  destruct (setbit_val n (mp_init n 0) (eb - 1) R0 Hm Hcl) as [R1 E1]. rewrite V0, Z.add_0_l in E1.
  set (e := mp_setbit (mp_init n 0) (eb - 1)) in *.
  assert (Bl : 4 <= 2 ^ eb) by (change 4 with (2 ^ 2); apply Z.pow_le_mono_r; lia).
  assert (Ee : 2 ^ eb = 2 * val e) by (rewrite E1, <- Z.pow_succ_r by lia; f_equal; lia).
  assert (Pe : 2 * (2 ^ (eb - 2)) = val e) by (rewrite E1, <- Z.pow_succ_r by lia; f_equal; lia).
  assert (Ls : lsunit e = val e mod 2 ^ 16).
  { unfold lsunit. rewrite (val_unit n e 0 R1) by lia. change (2 ^ (16 * 0)) with 1. now rewrite Z.div_1_r. }
  assert (Or : lsunit e .| 1 = lsunit e + 1).
  { change 1 with (2 ^ 0). apply lor_clear; [lia |]. rewrite Ls, Z.mod_pow2_bits_low, <- Pe by lia. apply Z.testbit_even_0. }
  pose proof (Z.mod_pos_bound (val e) (2 ^ 16) ltac:(lia)) as Mb. rewrite Or.
  assert (Hlow : is_u16 (lsunit e + 1)).
  { unfold is_u16. rewrite Ls. rewrite <- Pe in *. change (2 ^ 16) with (2 * 2 ^ 15) in *. rewrite Z.mul_mod_distr_l in * by lia. lia. }
  split; [now apply reg_aset |]. rewrite (val_aset n e 0 (lsunit e + 1) R1) by lia. change (e.[0]) with (lsunit e).
  replace (val e + 2 ^ (16 * 0) * (lsunit e + 1 - lsunit e)) with (val e + 1) by (change (2 ^ (16 * 0)) with 1; ring).
  split.
  - split; [lia |]. destruct Heb as [_ [Hle | ->]]; [| rewrite E1; change (2 ^ (5 - 1)) with 16; lia].
    assert (val e <= 2 ^ (c - 1)) by (rewrite E1; apply Z.pow_le_mono_r; lia). lia.
  - rewrite <- Pe, Z.add_comm, Z.odd_add_mul_2. reflexivity.
Qed.

Section Search.

Variables (n : nat) (junk phi : list Z) (T : Z).
Hypotheses (Hn : (1 <= n)%nat) (Hj : reg n junk) (Hphi : reg n phi).
(** A usable exponent ahead. *)
Hypotheses (HT : 2 * T <= beta n) (HTg : Z.gcd T (val phi) = 1).

Lemma search_val k e : reg n e -> val e < T -> Z.even (T - val e) = true ->
  match turns k (try_e junk phi) e with
  | inl e' => reg n e' /\ val e' = val e + 2 * 2 ^ Z.of_nat k /\ val e' < T
  | inr e' => reg n e' /\ val e < val e' <= T /\ Z.even (T - val e') = true /\ Z.gcd (val e') (val phi) = 1
  end.
Proof using All.
  revert e. induction k as [|k IH]; intros e He Hlt Hev; cbn [turns].
  - unfold try_e. pose proof (val_range _ _ He). apply Z.even_spec in Hev as [h Hh].
    destruct (inc_val n e He) as [R1 E1]. rewrite Z.mod_small in E1 by lia.
    destruct (inc_val n _ R1) as [R2 E2]. rewrite Z.mod_small in E2 by lia. set (e' := fst (mp_inc (fst (mp_inc e)))) in *.
    destruct (mp_gcd_val n Hn junk e' phi Hj R2 Hphi ltac:(lia)) as [Rg Eg].
    rewrite (testne_val n) by (assumption || (unfold is_u16; lia)). rewrite Eg.
    assert (Ev : Z.even (T - val e') = true) by (apply Z.even_spec; exists (h - 1); lia).
    destruct (Z.eqb_spec (Z.gcd (val e') (val phi)) 1) as [E | N]; cbn [negb].
    + split; [exact R2 |]. split; [lia |]. auto.
    + split; [exact R2 |]. split; [change (2 ^ Z.of_nat 0) with 1; lia |].
      assert (val e' <> T) by (intros F; rewrite F in N; contradiction). lia.
  - specialize (IH e He Hlt Hev) as S1. destruct (turns k (try_e junk phi) e) as [e1 | e1]; [| exact S1].
    destruct S1 as (R1 & E1 & L1). assert (Hev1 : Z.even (T - val e1) = true).
    { apply Z.even_spec in Hev as [h Hh]. apply Z.even_spec. exists (h - 2 ^ Z.of_nat k). lia. }
    specialize (IH e1 R1 L1 Hev1). pose proof (Z.pow_pos_nonneg 2 (Z.of_nat k) ltac:(lia) ltac:(lia)).
    rewrite Nat2Z.inj_succ, Z.pow_succ_r by lia. destruct (turns k (try_e junk phi) e1) as [e2 | e2].
    + destruct IH as (R2 & E2 & L2). split; [exact R2 |]. lia.
    + destruct IH as (R2 & B2 & rest). split; [exact R2 |]. split; [lia | exact rest].
Qed.

End Search.

(** ** Theorems *)

(** What the components of a key are, for the smaller prime [p] and the larger
    one [q]. *)
Record components_ok (n : nat) (p q : Z) (k : rsa_components) : Prop := {
  ok_regs : reg n (key_n k) /\ reg n (key_e k) /\ reg n (key_d k) /\ reg n (key_u k);
  ok_n : val (key_n k) = p * q;
  ok_e : 1 < val (key_e k) < p * q /\ Z.gcd (val (key_e k)) ((p - 1) * (q - 1)) = 1;
  ok_d : 0 < val (key_d k) < Z.lcm (p - 1) (q - 1) /\
    (val (key_e k) * val (key_d k)) mod Z.lcm (p - 1) (q - 1) = 1;
  ok_u : 0 < val (key_u k) < q /\ (p * val (key_u k)) mod q = 1
}.

Lemma lcm_quotient a b : 0 < a -> 0 < b -> a * b / Z.gcd a b = Z.lcm a b.
Proof.
  intros Ha Hb. unfold Z.lcm. assert (Hg : 0 < Z.gcd a b) by (pose proof (Z.gcd_nonneg a b); pose proof (Z.gcd_eq_0_l a b); lia).
  rewrite Z.divide_div_mul_exact by (lia || apply Z.gcd_divide_r). symmetry. apply Z.abs_eq.
  apply Z.mul_nonneg_nonneg; [lia | apply Z.div_pos; lia].
Qed.

Lemma lcm_bounds a b : 1 < a -> 1 < b -> 1 < Z.lcm a b <= a * b.
Proof.
  intros Ha Hb. pose proof (Z.divide_lcm_l a b) as D. pose proof (Z.lcm_nonneg a b).
  assert (Z.lcm a b <> 0) by (intros E; apply Z.lcm_eq_0 in E; lia). apply Z.divide_pos_le in D; [| lia]. split; [lia |].
  apply Z.divide_pos_le; [nia |]. apply Z.lcm_least; [apply Z.divide_factor_l | apply Z.divide_factor_r].
Qed.

Lemma dec_reg n r : reg n r -> 0 < val r -> reg n (fst (mp_dec r)) /\ val (fst (mp_dec r)) = val r - 1.
Proof.
  intros Hr Hp. destruct (dec_val n r Hr) as [R E]. split; [exact R |]. rewrite E. pose proof (val_range _ _ Hr). apply Z.mod_small. lia.
Qed.

(** A prefix of the code: [F], the least common multiple. *)
Lemma totients n junk p q : (1 <= n)%nat -> reg n junk -> reg n p -> reg n q -> 5 <= val p -> 5 <= val q -> 2 * (val p * val q) < beta n ->
  let ptemp := fst (mp_dec p) in let qtemp := fst (mp_dec q) in let phi := mp_mult ptemp qtemp in
  reg n phi /\ val phi = (val p - 1) * (val q - 1) /\
  let '(_, _, F) := mp_udiv ptemp qtemp phi (mp_gcd junk ptemp qtemp) in reg n F /\ val F = Z.lcm (val p - 1) (val q - 1).
Proof.
  intros Hn Hj Hp Hq Bp Bq Hfit. destruct (dec_reg n p Hp ltac:(lia)) as [R1 E1]. destruct (dec_reg n q Hq ltac:(lia)) as [R2 E2].
  cbv zeta. set (pt := fst (mp_dec p)) in *. set (qt := fst (mp_dec q)) in *. destruct (mp_mult_val n pt qt Hn R1 R2) as [R3 E3].
  assert (Hphi : 0 < (val p - 1) * (val q - 1) < val p * val q) by nia.
  rewrite E1, E2, Z.mod_small in E3 by lia. split; [exact R3 |]. split; [exact E3 |].
  assert (val p < val p * val q) by nia. destruct (mp_gcd_val n Hn junk pt qt Hj R1 R2 ltac:(lia)) as [R4 E4]. rewrite E1, E2 in E4.
  pose proof (Z.gcd_divide_l (val p - 1) (val q - 1)) as D. pose proof (Z.gcd_nonneg (val p - 1) (val q - 1)).
  assert (Z.gcd (val p - 1) (val q - 1) <> 0) by (intros E; apply Z.gcd_eq_0_l in E; lia). apply Z.divide_pos_le in D; [| lia].
  pose proof (mp_udiv_val n (mp_mult pt qt) (mp_gcd junk pt qt) Hn R3 R4 ltac:(lia) ltac:(lia) pt qt R1 R2) as U.
  destruct (mp_udiv _ _ _ _) as [[st r] F]. destruct U as (_ & _ & RF & _ & EF). split; [exact RF |].
  rewrite EF, E3, E4. apply lcm_quotient; lia.
Qed.

Lemma derive_ordered n junk p q ebits : (1 <= n)%nat -> reg n junk -> reg n p -> reg n q -> 5 <= val p < val q ->
  Z.odd (val p) = true -> Z.gcd (val p) (val q) = 1 -> 2 * (val p * val q) < beta n ->
  exists k, derive_rsakeys junk p q ebits = Some k /\ components_ok n (val p) (val q) k.
Proof.
  intros Hn Hj Hp Hq Hlt Hodd Hg Hfit. unfold derive_rsakeys. rewrite (compare_ge n) by assumption.
  rewrite (proj2 (Z.leb_gt _ _)) by lia. rewrite (reg_length _ _ Hp). cbv zeta.
  destruct (totients n junk p q Hn Hj Hp Hq ltac:(lia) ltac:(lia) Hfit) as (Rphi & Ephi & HF).
  set (phi := mp_mult _ _) in *. destruct (mp_udiv _ _ _ _) as [[st r] F]. destruct HF as [RF EF].
  destruct (lcm_bounds (val p - 1) (val q - 1)) as [BF1 BF2]; [lia.. |].
  assert (Bphi : 16 <= val phi /\ val phi + val p + val q = val p * val q + 1) by (rewrite Ephi; split; [nia | ring]).
  assert (Hev : Z.even (val phi) = true).
  { rewrite Ephi, Z.even_mul. replace (val p - 1) with (Z.pred (val p)) by lia. rewrite Z.even_pred, Hodd. reflexivity. }
  destruct (first_e_val n ebits phi Hn Rphi ltac:(lia) ltac:(lia)) as (Re & Be & Oe). set (e0 := first_e n ebits phi) in *.
  destruct (dec_reg n e0 Re ltac:(lia)) as [Re1 Ee1]. destruct (dec_reg n _ Re1 ltac:(lia)) as [Re2 Ee2].
  set (e2 := fst (mp_dec (fst (mp_dec e0)))) in *.
  assert (HTg : Z.gcd (val phi + 1) (val phi) = 1) by (rewrite Z.gcd_comm, Z.add_comm, Z.gcd_add_diag_r; apply Z.gcd_1_r).
  assert (HTe : Z.even (val phi + 1 - val e2) = true).
  { rewrite Ee2, Ee1. replace (val phi + 1 - (val e0 - 1 - 1)) with (val phi + 3 - val e0) by lia.
    rewrite Z.even_sub, Z.even_add, Hev, <- (Z.negb_odd (val e0)), Oe. reflexivity. }
  pose proof (search_val n junk phi (val phi + 1) Hn Hj Rphi ltac:(lia) HTg (16 * n) e2 Re2 ltac:(lia) HTe) as S.
  destruct (turns (16 * n) (try_e junk phi) e2) as [e | e].
  { exfalso. destruct S as (_ & E & L). unfold beta in Hfit. replace (Z.of_nat (16 * n)) with (16 * Z.of_nat n) in E by lia. lia. }
  destruct S as (R & B & _ & Eg). eexists. split; [reflexivity |].
  assert (EgF : Z.gcd (val e) (val F) = 1).
  { assert (D : (val F | val phi)) by (rewrite EF, Ephi; apply Z.lcm_least; [apply Z.divide_factor_l | apply Z.divide_factor_r]).
    destruct D as [c Ec]. rewrite Ec in Eg. apply Zgcd_1_rel_prime in Eg. apply Zgcd_1_rel_prime. apply rel_prime_sym.
    apply rel_prime_sym in Eg. apply (rel_prime_div (c * val F)); [exact Eg | apply Z.divide_factor_r]. }
  destruct (mp_inv_val n Hn junk e F Hj R RF) as (Rd & Bd & Ed); [lia.. | exact EgF |].
  destruct (mp_inv_val n Hn junk p q Hj Hp Hq) as (Ru & Bu & Eu); [nia | lia | nia | exact Hg |].
  destruct (mp_mult_val n p q Hn Hp Hq) as [Rn En]. rewrite Z.mod_small in En by nia.
  rewrite EF in *. constructor; cbn [key_n key_e key_d key_u]; auto.
  rewrite Ephi in *. split; [lia | exact Eg].
Qed.

(** C31. [derive_rsakeys] finds an exponent for all odd coprime [p] and [q] from 5
    on, in whichever order they come, when there is a bit of slop for the sign;
    the key is right: [n] is the product, [e] is coprime to the totient and below
    [n], [d] is its inverse modulo the least common multiple of [p-1] and [q-1],
    [u] is the inverse of the smaller prime modulo the larger one. *)
Theorem derive_rsakeys_correct n junk p q ebits : (1 <= n)%nat -> reg n junk -> reg n p -> reg n q ->
  5 <= val p -> 5 <= val q -> Z.odd (val p) = true -> Z.odd (val q) = true -> Z.gcd (val p) (val q) = 1 ->
  2 * (val p * val q) < beta n ->
  exists k, derive_rsakeys junk p q ebits = Some k /\
    components_ok n (Z.min (val p) (val q)) (Z.max (val p) (val q)) k.
Proof.
  intros Hn Hj Hp Hq B1 B2 O1 O2 Hg Hfit. assert (val p <> val q) by (intros E; rewrite E, Z.gcd_diag in Hg; lia).
  destruct (Z_lt_ge_dec (val p) (val q)) as [L | G].
  - rewrite Z.min_l, Z.max_r by lia. now apply derive_ordered.
  - rewrite Z.min_r, Z.max_l by lia. destruct (derive_ordered n junk q p ebits) as (k & E & H2); try assumption; [lia | now rewrite Z.gcd_comm | lia |].
    exists k. split; [| exact H2]. rewrite <- E. unfold derive_rsakeys. rewrite !(compare_ge n) by assumption.
    rewrite (proj2 (Z.leb_le (val q) (val p))), (proj2 (Z.leb_gt (val p) (val q))) by lia.
    now rewrite (reg_length _ _ Hp), (reg_length _ _ Hq).
Qed.

Lemma derive_rsakeys_correct_witness : exists k,
  derive_rsakeys [0; 0] [61; 0] [53; 0] 5 = Some k /\ components_ok 2 53 61 k.
Proof.
  apply (derive_rsakeys_correct 2 [0; 0] [61; 0] [53; 0] 5);
    [lia | (split; [reflexivity | repeat constructor; unfold is_u16; lia]).. | vm_compute; congruence | vm_compute; congruence
    | reflexivity | reflexivity | reflexivity | reflexivity].
Defined.
