(* ===== verification/Fermat.v ===== *)
(** * Fermat's little theorem

    The number theory the RSA functions of PGP rest on: powers modulo a prime,
    and two residues that determine a number below the product. *)

From Stdlib Require Import ZArith Znumtheory Lia List Permutation.
Import ListNotations.
Local Open Scope Z_scope.

Definition units (p : Z) : list Z := map Z.of_nat (seq 1 (Z.to_nat (p - 1))).
Definition prod (l : list Z) : Z := fold_right Z.mul 1 l.

Lemma units_in p x : 1 < p -> In x (units p) <-> 0 < x < p.
Proof.
  intros Hp. unfold units. rewrite in_map_iff. split.
  - intros (k & <- & H). apply in_seq in H. lia.
  - intros H. exists (Z.to_nat x). rewrite in_seq. lia.
Qed.

Lemma units_nodup p : NoDup (units p).
Proof. apply NoDup_map_inv with (f := Z.to_nat). unfold units. rewrite map_map, (map_ext _ (fun x => x)) by apply Nat2Z.id. rewrite map_id. apply seq_NoDup. Qed.

Lemma nodup_map_on {A B} (f : A -> B) l :
  (forall x y, In x l -> In y l -> f x = f y -> x = y) -> NoDup l -> NoDup (map f l).
Proof.
  intros Hf. induction 1 as [|x l Hx Hl IH]; cbn [map]; constructor.
  - rewrite in_map_iff. intros (y & E & Hy). apply Hx. rewrite (Hf x y); cbn; auto.
  - apply IH. intros a b Ha Hb. apply Hf; cbn; auto.
Qed.

Section Prime.

Variable p : Z.
Hypothesis Hp : prime p.

Lemma mul_cancel a x y : ~ (p | a) -> (a * x) mod p = (a * y) mod p -> (x - y) mod p = 0.
Proof using Hp.
  intros Ha E. pose proof (prime_ge_2 p Hp). apply Z.mod_divide; [lia |].
  destruct (prime_mult p Hp a (x - y)) as [D | D]; [| contradiction | exact D].
  apply Z.mod_divide; [lia |]. rewrite Z.mul_sub_distr_l, Zminus_mod, E, Z.sub_diag. apply Z.mod_0_l. lia.
Qed.

(** Multiplication by [a] permutes the units. *)
Lemma units_permuted a : ~ (p | a) -> Permutation (map (fun x => (a * x) mod p) (units p)) (units p).
Proof using Hp.
  intros Ha. pose proof (prime_ge_2 p Hp) as H2. apply NoDup_Permutation_bis.
  - apply nodup_map_on; [| apply units_nodup]. intros x y Hx Hy E. apply units_in in Hx, Hy; try lia.
    apply (mul_cancel a x y Ha) in E. apply Z.mod_divide in E as [k Hk]; [| lia].
    assert (k < 1 /\ -1 < k) by (split; apply (Z.mul_lt_mono_pos_r p); lia). replace k with 0 in Hk by lia. lia.
  - now rewrite length_map.
  - intros x Hx. apply in_map_iff in Hx as (y & <- & Hy). apply units_in in Hy; [| lia]. apply units_in; [lia |].
    pose proof (Z.mod_pos_bound (a * y) p ltac:(lia)). destruct (Z.eq_dec ((a * y) mod p) 0) as [E | N]; [| lia].
    apply Z.mod_divide in E; [| lia]. destruct (prime_mult p Hp _ _ E) as [D | D]; [contradiction |].
    apply Z.divide_pos_le in D; lia.
Qed.

Lemma prod_perm l l' : Permutation l l' -> prod l = prod l'.
Proof using. unfold prod. induction 1; cbn [fold_right]; lia. Qed.

Lemma prod_scaled a l : prod (map (fun x => (a * x) mod p) l) mod p = (a ^ Z.of_nat (length l) * prod l) mod p.
Proof using.
  induction l as [|x l IH]; [reflexivity |]. cbn [map prod fold_right length]. fold (prod l).
  fold (prod (map (fun x => (a * x) mod p) l)). rewrite Zmult_mod_idemp_l, <- Zmult_mod_idemp_r, IH, Zmult_mod_idemp_r.
  f_equal. rewrite Nat2Z.inj_succ, Z.pow_succ_r by lia. ring.
Qed.

Lemma prod_prime l : Forall (fun x => ~ (p | x)) l -> ~ (p | prod l).
Proof using Hp.
  induction 1 as [|x l Hx Hl IH]; cbn [prod fold_right]; intros D.
  - pose proof (prime_ge_2 p Hp). apply Z.divide_pos_le in D; lia.
  - now destruct (prime_mult p Hp _ _ D).
Qed.

Lemma fermat a : ~ (p | a) -> a ^ (p - 1) mod p = 1.
Proof using Hp.
  intros Ha. pose proof (prime_ge_2 p Hp) as H2. pose proof (prod_scaled a (units p)) as E.
  rewrite (prod_perm _ _ (units_permuted a Ha)) in E. unfold units in E at 2. rewrite length_map, length_seq, Z2Nat.id in E by lia.
  rewrite <- (Z.mul_1_r (prod (units p))) in E at 1. rewrite (Z.mul_comm (a ^ _)) in E.
  apply mul_cancel in E.
  - transitivity (1 mod p); [| apply Z.mod_small; lia].
    apply Z.mod_divide in E as [k Hk]; [| lia]. replace (a ^ (p - 1)) with (1 + - k * p) by lia. apply Z.mod_add. lia.
  - apply prod_prime, Forall_forall. intros x Hx D. apply units_in in Hx; [| lia]. apply Z.divide_pos_le in D; lia.
Qed.

(** An exponent that is 1 modulo [p - 1] changes nothing. *)
Lemma pow_order x k : 0 < k -> k mod (p - 1) = 1 mod (p - 1) -> x ^ k mod p = x mod p.
Proof using Hp.
  intros Hk E. pose proof (prime_ge_2 p Hp) as H2.
  assert (Ek : exists t, 0 <= t /\ k = 1 + (p - 1) * t).
  { exists ((k - 1) / (p - 1)). assert (D : (p - 1 | k - 1)).
    { apply Z.mod_divide; [lia |]. rewrite Zminus_mod, E, Z.sub_diag. apply Z.mod_0_l. lia. }
    split; [apply Z.div_pos; lia |]. rewrite <- Z.divide_div_mul_exact, Z.mul_comm, Z.div_mul by (lia || exact D). lia. }
  destruct Ek as (t & Ht & ->). destruct (Zdivide_dec p x) as [D | N].
  - rewrite Z.pow_add_r by nia. rewrite Z.pow_1_r. apply Z.mod_divide in D; [| lia]. now rewrite <- Zmult_mod_idemp_l, D.
  - rewrite Z.pow_add_r, Z.pow_mul_r, Z.pow_1_r by nia. rewrite <- Zmult_mod_idemp_r, <- Z.mod_pow_l, (fermat x N).
    rewrite Z.pow_1_l by lia. rewrite Zmult_mod_idemp_r. now rewrite Z.mul_1_r.
Qed.

End Prime.

(** ** Residues modulo two primes *)

Lemma residues_unique p q x y : rel_prime p q -> 0 < p -> 0 < q -> 0 <= x < p * q -> 0 <= y < p * q ->
  x mod p = y mod p -> x mod q = y mod q -> x = y.
Proof.
  intros Hr Hp Hq Hx Hy Ep Eq. assert (Dp : (p | x - y)) by (apply Z.mod_divide; [lia |]; rewrite Zminus_mod, Ep, Z.sub_diag; apply Z.mod_0_l; lia).
  assert (Dq : (q | x - y)) by (apply Z.mod_divide; [lia |]; rewrite Zminus_mod, Eq, Z.sub_diag; apply Z.mod_0_l; lia).
  destruct Dp as [k Hk]. assert (Dk : (q | k)).
  { apply Gauss with p; [rewrite Z.mul_comm, <- Hk; exact Dq | now apply rel_prime_sym]. }
  destruct Dk as [j ->].
  assert (j < 1 /\ -1 < j) by (split; apply (Z.mul_lt_mono_pos_r (p * q)); lia). replace j with 0 in Hk by lia. lia.
Qed.

Lemma mod_of_multiple x p n : 0 < p -> 0 < n -> (p | n) -> (x mod n) mod p = x mod p.
Proof. intros Hp Hn Hd. symmetry. now apply Zmod_div_mod. Qed.

(** ** Proth's test

    It shows concrete large numbers prime. *)

Lemma prime_divisor x : 1 < x -> exists r, prime r /\ (r | x) /\ r <= x.
Proof.
  intros Hx. assert (H : forall x, 0 <= x -> 1 < x -> exists r, prime r /\ (r | x) /\ r <= x).
  { clear x Hx. apply (Zlt_0_ind (fun x => 1 < x -> exists r, prime r /\ (r | x) /\ r <= x)). intros x IH _ Hx.
    destruct (prime_dec x) as [Hp | Hn]; [exists x; split; [exact Hp |]; split; [apply Z.divide_refl | lia] |].
    destruct (not_prime_divide x Hx Hn) as (y & Hy & D). destruct (IH y ltac:(lia) ltac:(lia)) as (r & Pr & Dr & Lr).
    exists r. split; [exact Pr |]. split; [now apply Z.divide_trans with y | lia]. }
  apply H; lia.
Qed.

Lemma small_prime_divisor q : 1 < q -> ~ prime q -> exists r, prime r /\ (r | q) /\ r * r <= q.
Proof.
  intros Hq Hn. destruct (not_prime_divide q Hq Hn) as (y & Hy & [k Hk]).
  assert (Hk1 : 1 < k) by nia. assert (Hc : exists c, 1 < c /\ (c | q) /\ c * c <= q).
  { destruct (Z_le_gt_dec y k); [exists y; split; [lia |]; split; [now exists k | nia] | exists k; split; [lia |]; split; [exists y; lia | nia]]. }
  destruct Hc as (c & Hc1 & Dc & Hcc). destruct (prime_divisor c Hc1) as (r & Pr & Dr & Lr).
  exists r. split; [exact Pr |]. split; [now apply Z.divide_trans with c |]. pose proof (prime_ge_2 r Pr). nia.
Qed.

Lemma minus_one_pow r t : 0 <= t -> Z.odd t = true -> (-1) ^ t mod r = (-1) mod r.
Proof. intros Ht Ho. apply Z.odd_spec in Ho as [k ->]. rewrite Z.pow_add_r, Z.pow_mul_r by lia. change ((-1) ^ 2) with 1. rewrite Z.pow_1_l by lia. reflexivity. Qed.

(** A square root of [-1] repeated [m - 1] times: [r - 1] has [m] factors 2. *)
Lemma proth_divisor r d m : prime r -> r <> 2 -> (d ^ (2 ^ Z.of_nat m)) mod r = (-1) mod r -> (2 ^ Z.of_nat (S m) | r - 1).
Proof.
  intros Hr H2 Hd. pose proof (prime_ge_2 r Hr).
  assert (Nd : ~ (r | d)).
  { intros D. apply Z.mod_divide in D; [| lia]. rewrite <- Z.mod_pow_l, D, Z.pow_0_l in Hd by (apply Z.pow_pos_nonneg; lia).
    rewrite Z.mod_0_l in Hd by lia. assert ((-1) mod r = r - 1) by (symmetry; apply (Z.mod_unique_pos _ _ (-1)); lia). lia. }
  assert (J : forall j, (j <= S m)%nat -> (2 ^ Z.of_nat j | r - 1)).
  { induction j as [|j IH]; intros Hj; [exists (r - 1); change (2 ^ Z.of_nat 0) with 1; lia |].
    destruct (IH ltac:(lia)) as [t Ht]. destruct (Z.odd t) eqn:Ho.
    - exfalso. pose proof (Z.pow_pos_nonneg 2 (Z.of_nat j) ltac:(lia) ltac:(lia)). assert (0 <= t) by nia.
      assert (E1 : d ^ (t * 2 ^ Z.of_nat m) mod r = 1 mod r).
      { replace (t * 2 ^ Z.of_nat m) with ((r - 1) * 2 ^ Z.of_nat (m - j)).
        2: { rewrite Ht, <- Z.mul_assoc, <- Z.pow_add_r by lia. do 2 f_equal. lia. }
        rewrite Z.pow_mul_r by (try apply Z.pow_nonneg; lia). rewrite <- Z.mod_pow_l, (fermat r Hr d Nd).
        rewrite Z.pow_1_l by (apply Z.pow_nonneg; lia). reflexivity. }
      assert (E2 : d ^ (t * 2 ^ Z.of_nat m) mod r = (-1) mod r).
      { rewrite Z.mul_comm, Z.pow_mul_r by (try apply Z.pow_nonneg; lia). rewrite <- Z.mod_pow_l, Hd, Z.mod_pow_l. now apply minus_one_pow. }
      rewrite E1 in E2. rewrite Z.mod_1_l in E2 by lia.
      assert ((-1) mod r = r - 1) by (symmetry; apply (Z.mod_unique_pos _ _ (-1)); lia). lia.
    - rewrite <- Z.negb_even in Ho. apply Bool.negb_false_iff, Z.even_spec in Ho as [h ->].
      exists h. rewrite Nat2Z.inj_succ, Z.pow_succ_r by lia. lia. }
  apply J. lia.
Qed.

(** Repeated squaring. *)
Lemma squarings_pow q x m : Nat.iter m (fun y => (y * y) mod q) (x mod q) = x ^ (2 ^ Z.of_nat m) mod q.
Proof.
  induction m as [|m IH]; [change (2 ^ Z.of_nat 0) with 1; now rewrite Z.pow_1_r |]. change (Nat.iter (S m) ?f ?y) with (f (Nat.iter m f y)). cbv beta. rewrite IH, <- Zmult_mod.
  f_equal. rewrite Nat2Z.inj_succ, Z.pow_succ_r, <- Z.pow_add_r by (try apply Z.pow_nonneg; lia). f_equal. lia.
Qed.

Lemma proth h m a : let q := h * 2 ^ Z.of_nat (S m) + 1 in 0 < h < 2 ^ Z.of_nat (S m) ->
  Nat.iter m (fun y => (y * y) mod q) (a ^ h mod q) = q - 1 -> prime q.
Proof.
  intros q Hh Ha. rewrite squarings_pow in Ha. set (b := 2 ^ Z.of_nat (S m)) in *. assert (Hb : b = 2 * 2 ^ Z.of_nat m) by (unfold b; rewrite Nat2Z.inj_succ, Z.pow_succ_r by lia; reflexivity).
  assert (Hq : 1 < q) by (unfold q; nia). destruct (prime_dec q) as [| Hn]; [assumption | exfalso].
  destruct (small_prime_divisor q Hq Hn) as (r & Pr & Dr & Lr). pose proof (prime_ge_2 r Pr).
  assert (N2 : r <> 2).
  { intros ->. destruct Dr as [k Hk]. unfold q in Hk. rewrite Hb in Hk. assert (2 * (h * 2 ^ Z.of_nat m) + 1 = k * 2) by lia. lia. }
  assert (D : (b | r - 1)).
  { apply (proth_divisor r (a ^ h) m Pr N2). rewrite <- (mod_of_multiple _ r q) by (lia || assumption). rewrite Ha.
    destruct Dr as [k ->]. replace (k * r - 1) with (-1 + k * r) by ring. apply Z.mod_add. lia. }
  apply Z.divide_pos_le in D; [| lia]. assert ((b + 1) * (b + 1) <= r * r) by (apply Z.mul_le_mono_nonneg; lia). unfold q in Lr. nia.
Qed.
