(* ===== verification/PgpPrime.v ===== *)
(** * PGP: the search for primes

    Models the sieve and the search of [security/pgp/src/genprime.c]: the table
    of small primes, the table of remainders, the Fermat tests, [nextprime] and
    [randomprime].  [BLUM] is defined, so that candidates are 3 modulo 4, and
    [STRONGPRIMES] is not.  [trueRandByte] is the stream [rand]; a stream that
    ends too soon is [None], as is a search that leaves the precision of its
    register and a test of a modulus of fewer than three units. *)

From Stdlib Require Import ZArith Znumtheory Lia List Bool Sorted.
From S2P Require Import Prelude PgpMpi PgpSmith PgpModexp PgpKey Fermat.
Import ListNotations.

(** Without the terminating zero. *)
Definition primetable : list Z :=
  [ 2; 3; 5; 7; 11; 13; 17; 19; 23; 29; 31; 37; 41; 43; 47; 53;
   59; 61; 67; 71; 73; 79; 83; 89; 97; 101; 103; 107; 109; 113; 127; 131;
   137; 139; 149; 151; 157; 163; 167; 173; 179; 181; 191; 193; 197; 199; 211; 223;
   227; 229; 233; 239; 241; 251; 257; 263; 269; 271; 277; 281; 283; 293; 307; 311;
   313; 317; 331; 337; 347; 349; 353; 359; 367; 373; 379; 383; 389; 397; 401; 409;
   419; 421; 431; 433; 439; 443; 449; 457; 461; 463; 467; 479; 487; 491; 499; 503;
   509; 521; 523; 541; 547; 557; 563; 569; 571; 577; 587; 593; 599; 601; 607; 613;
   617; 619; 631; 641; 643; 647; 653; 659; 661; 673; 677; 683; 691; 701; 709; 719;
   727; 733; 739; 743; 751; 757; 761; 769; 773; 787; 797; 809; 811; 821; 823; 827;
   829; 839; 853; 857; 859; 863; 877; 881; 883; 887; 907; 911; 919; 929; 937; 941;
   947; 953; 967; 971; 977; 983; 991; 997; 1009; 1013; 1019; 1021; 1031; 1033; 1039; 1049;
   1051; 1061; 1063; 1069; 1087; 1091; 1093; 1097; 1103; 1109; 1117; 1123; 1129; 1151; 1153; 1163;
   1171; 1181; 1187; 1193; 1201; 1213; 1217; 1223; 1229; 1231; 1237; 1249; 1259; 1277; 1279; 1283;
   1289; 1291; 1297; 1301; 1303; 1307; 1319; 1321; 1327; 1361; 1367; 1373; 1381; 1399; 1409; 1423;
   1427; 1429; 1433; 1439; 1447; 1451; 1453; 1459; 1471; 1481; 1483; 1487; 1489; 1493; 1499; 1511;
   1523; 1531; 1543; 1549; 1553; 1559; 1567; 1571; 1579; 1583; 1597; 1601; 1607; 1609; 1613; 1619;
   1621; 1627; 1637; 1657; 1663; 1667; 1669; 1693; 1697; 1699; 1709; 1721; 1723; 1733; 1741; 1747;
   1753; 1759; 1777; 1783; 1787; 1789; 1801; 1811; 1823; 1831; 1847; 1861; 1867; 1871; 1873; 1877;
   1879; 1889; 1901; 1907; 1913; 1931; 1933; 1949; 1951; 1973; 1979; 1987; 1993; 1997; 1999; 2003;
   2011; 2017; 2027; 2029; 2039; 2053; 2063; 2069; 2081; 2083; 2087; 2089; 2099; 2111; 2113; 2129;
   2131; 2137; 2141; 2143; 2153; 2161; 2179; 2203; 2207; 2213; 2221; 2237; 2239; 2243; 2251; 2267;
   2269; 2273; 2281; 2287; 2293; 2297; 2309; 2311; 2333; 2339; 2341; 2347; 2351; 2357; 2371; 2377;
   2381; 2383; 2389; 2393; 2399; 2411; 2417; 2423; 2437; 2441; 2447; 2459; 2467; 2473; 2477; 2503;
   2521; 2531; 2539; 2543; 2549; 2551; 2557; 2579; 2591; 2593; 2609; 2617; 2621; 2633; 2647; 2657;
   2659; 2663; 2671; 2677; 2683; 2687; 2689; 2693; 2699; 2707; 2711; 2713; 2719; 2729; 2731; 2741;
   2749; 2753; 2767; 2777; 2789; 2791; 2797; 2801; 2803; 2819; 2833; 2837; 2843; 2851; 2857; 2861;
   2879; 2887; 2897; 2903; 2909; 2917; 2927; 2939; 2953; 2957; 2963; 2969; 2971; 2999; 3001; 3011;
   3019; 3023; 3037; 3041; 3049; 3061; 3067; 3079; 3083; 3089; 3109; 3119; 3121; 3137; 3163; 3167;
   3169; 3181; 3187; 3191; 3203; 3209; 3217; 3221; 3229; 3251; 3253; 3257; 3259; 3271; 3299; 3301;
   3307; 3313; 3319; 3323; 3329; 3331; 3343; 3347; 3359; 3361; 3371; 3373; 3389; 3391; 3407; 3413;
   3433; 3449; 3457; 3461; 3463; 3467; 3469; 3491; 3499; 3511; 3517; 3527; 3529; 3533; 3539; 3541;
   3547; 3557; 3559; 3571; 3581; 3583; 3593; 3607; 3613; 3617; 3623; 3631; 3637; 3643; 3659; 3671;
   3673; 3677; 3691; 3697; 3701; 3709; 3719; 3727; 3733; 3739; 3761; 3767; 3769; 3779; 3793; 3797;
   3803; 3821; 3823; 3833; 3847; 3851; 3853; 3863; 3877; 3881; 3889; 3907; 3911; 3917; 3919; 3923;
   3929; 3931; 3943; 3947; 3967; 3989; 4001; 4003; 4007; 4013; 4019; 4021; 4027; 4049; 4051; 4057;
   4073; 4079; 4091; 4093; 4099; 4111; 4127; 4129; 4133; 4139; 4153; 4157; 4159; 4177; 4201; 4211;
   4217; 4219; 4229; 4231; 4241; 4243; 4253; 4259; 4261; 4271; 4273; 4283; 4289; 4297; 4327; 4337;
   4339; 4349; 4357; 4363; 4373; 4391; 4397; 4409; 4421; 4423; 4441; 4447; 4451; 4457; 4463; 4481;
   4483; 4493; 4507; 4513; 4517; 4519; 4523; 4547; 4549; 4561; 4567; 4583; 4591; 4597; 4603; 4621;
   4637; 4639; 4643; 4649; 4651; 4657; 4663; 4673; 4679; 4691; 4703; 4721; 4723; 4729; 4733; 4751;
   4759; 4783; 4787; 4789; 4793; 4799; 4801; 4813; 4817; 4831; 4861; 4871; 4877; 4889; 4903; 4909;
   4919; 4931; 4933; 4937; 4943; 4951; 4957; 4967; 4969; 4973; 4987; 4993; 4999; 5003; 5009; 5011;
   5021; 5023; 5039; 5051; 5059; 5077; 5081; 5087; 5099; 5101; 5107; 5113; 5119; 5147; 5153; 5167;
   5171; 5179; 5189; 5197; 5209; 5227; 5231; 5233; 5237; 5261; 5273; 5279; 5281; 5297; 5303; 5309;
   5323; 5333; 5347; 5351; 5381; 5387; 5393; 5399; 5407; 5413; 5417; 5419; 5431; 5437; 5441; 5443;
   5449; 5471; 5477; 5479; 5483; 5501; 5503; 5507; 5519; 5521; 5527; 5531; 5557; 5563; 5569; 5573;
   5581; 5591; 5623; 5639; 5641; 5647; 5651; 5653; 5657; 5659; 5669; 5683; 5689; 5693; 5701; 5711;
   5717; 5737; 5741; 5743; 5749; 5779; 5783; 5791; 5801; 5807; 5813; 5821; 5827; 5839; 5843; 5849;
   5851; 5857; 5861; 5867; 5869; 5879; 5881; 5897; 5903; 5923; 5927; 5939; 5953; 5981; 5987; 6007;
   6011; 6029; 6037; 6043; 6047; 6053; 6067; 6073; 6079; 6089; 6091; 6101; 6113; 6121; 6131; 6133;
   6143; 6151; 6163; 6173; 6197; 6199; 6203; 6211; 6217; 6221; 6229; 6247; 6257; 6263; 6269; 6271;
   6277; 6287; 6299; 6301; 6311; 6317; 6323; 6329; 6337; 6343; 6353; 6359; 6361; 6367; 6373; 6379;
   6389; 6397; 6421; 6427; 6449; 6451; 6469; 6473; 6481; 6491; 6521; 6529; 6547; 6551; 6553; 6563;
   6569; 6571; 6577; 6581; 6599; 6607; 6619; 6637; 6653; 6659; 6661; 6673; 6679; 6689; 6691; 6701;
   6703; 6709; 6719; 6733; 6737; 6761; 6763; 6779; 6781; 6791; 6793; 6803; 6823; 6827; 6829; 6833;
   6841; 6857; 6863; 6869; 6871; 6883; 6899; 6907; 6911; 6917; 6947; 6949; 6959; 6961; 6967; 6971;
   6977; 6983; 6991; 6997; 7001; 7013; 7019; 7027; 7039; 7043; 7057; 7069; 7079; 7103; 7109; 7121;
   7127; 7129; 7151; 7159; 7177; 7187; 7193; 7207; 7211; 7213; 7219; 7229; 7237; 7243; 7247; 7253;
   7283; 7297; 7307; 7309; 7321; 7331; 7333; 7349; 7351; 7369; 7393; 7411; 7417; 7433; 7451; 7457;
   7459; 7477; 7481; 7487; 7489; 7499; 7507; 7517; 7523; 7529; 7537; 7541; 7547; 7549; 7559; 7561;
   7573; 7577; 7583; 7589; 7591; 7603; 7607; 7621; 7639; 7643; 7649; 7669; 7673; 7681; 7687; 7691;
   7699; 7703; 7717; 7723; 7727; 7741; 7753; 7757; 7759; 7789; 7793; 7817; 7823; 7829; 7841; 7853;
   7867; 7873; 7877; 7879; 7883; 7901; 7907; 7919; 7927; 7933; 7937; 7949; 7951; 7963; 7993; 8009;
   8011; 8017; 8039; 8053; 8059; 8069; 8081; 8087; 8089; 8093; 8101; 8111; 8117; 8123; 8147; 8161;
   8167; 8171; 8179; 8191].

Definition NOPRIMEFOUND : Z := -14.
Definition NOSUSPECTS : Z := -13.

(** ** The tests *)

Fixpoint fermat_tests (W : Z) (xs : list Z) (pminus1 p : list Z) : option bool :=
  match xs with
  | [] => Some true
  | x :: xs =>
      let x := mp_init (length p) x in
      let* (status, is_one) := mp_modexp W x pminus1 p in
      if status <? 0 then Some false
      else if testne is_one 1 then Some false
      else fermat_tests W xs pminus1 p
  end.

Definition slowtest (W : Z) (p : list Z) : option bool :=
  let pminus1 := fst (mp_dec p) in
  fermat_tests W (firstn 4 primetable) pminus1 p.

(** [remainders] from index 1 on. *)
Definition buildsieve (p : list Z) : list Z := map (mp_shortmod p) (skipn 1 primetable).

Definition fastsieve (pdelta : Z) (remainders : list Z) : bool :=
  forallb (fun e => negb (Z.rem (pdelta + fst e) (snd e) =? 0)) (combine remainders (skipn 1 primetable)).

(** ** The search *)

Definition inc4 (p : list Z) : list Z :=
  fst (mp_inc (fst (mp_inc (fst (mp_inc (fst (mp_inc p))))))).

(** [pdelta], [suspects] and the candidate when the loop is left; the fuel
    covers every candidate in range. *)
Fixpoint sieve_loop (fuel : nat) (W range : Z) (remainders : list Z) (pdelta suspects : Z) (p : list Z) :
  option (Z * Z * list Z) :=
  match fuel with
  | O => None
  | S f =>
      let sieved := fastsieve pdelta remainders in
      let suspects := if sieved then suspects + 1 else suspects in
      let* found := if sieved then slowtest W p else Some false in
      if found then Some (pdelta, suspects, p)
      else
        let pdelta := u16 (pdelta + 4) in
        let p := inc4 p in
        if pdelta >? range then Some (pdelta, suspects, p)
        else sieve_loop f W range remainders pdelta suspects p
  end.

Definition search_from (W : Z) (p : list Z) : option (Z * list Z) :=
  if mp_tstminus p then Some (0, mp_init (length p) 2)
  else
    let p := aset p 0 (lsunit p .| 3) in
    let prec := Z.to_nat (bits2units (countbits p + 4 + SLOP_BITS)) in
    if (length p <? prec)%nat then None
    else
      let low := firstn prec p in
      let remainders := buildsieve low in
      let range := u16 (8 * units2bits (Z.of_nat prec)) in
      let* r := sieve_loop (S (Z.to_nat range)) W range remainders 0 0 low in
      let '(pdelta, suspects, low) := r in
      let p := low ++ skipn prec p in
      if pdelta >? range then
        if suspects <? 1 then Some (NOSUSPECTS, p) else Some (NOPRIMEFOUND, p)
      else Some (0, p).

(** The status and [p]. *)
Definition nextprime (W : Z) (p : list Z) : option (Z * list Z) :=
  let p := fst (mp_inc p) in
  if significance p <=? 1 then
    match find (fun x => x >=? lsunit p) primetable with
    | Some x => Some (0, mp_init (length p) x)
    | None => search_from W p
    end
  else search_from W p.

(** ** Random candidates *)

(** The unit, and the rest of the stream. *)
Definition randomunit (rand : list Z) : option (Z * list Z) :=
  match rand with
  | b1 :: b0 :: rand =>
      let u := 0 in
      let u := u16 ((u << 8) + b1) in
      let u := u16 ((u << 8) + b0) in
      Some (u, rand)
  | _ => None
  end.

(** The units written from the least significant one up. *)
Fixpoint random_units (fuel : nat) (nbits : Z) (rand : list Z) : option (list Z * list Z) :=
  match fuel with
  | O => None
  | S f =>
      if nbits >=? UNITSIZE then
        let* (u, rand) := randomunit rand in
        let* (us, rand) := random_units f (nbits - UNITSIZE) rand in
        Some (u :: us, rand)
      else if negb (nbits =? 0) then
        let* (u, rand) := randomunit rand in
        Some ([u .& u16 (power_of_2 nbits - 1)], rand)
      else Some ([], rand)
  end.

(** Writing above the register is [None]. *)
Definition randombits (prec : nat) (nbits : Z) (rand : list Z) : option (list Z * list Z) :=
  let p := mp_init prec 0 in
  let* (us, rand) := random_units (S (Z.to_nat nbits)) nbits rand in
  if (length us <=? prec)%nat then Some (us ++ skipn (length us) p, rand) else None.

Definition randomprime (W : Z) (prec : nat) (nbits : Z) (rand : list Z) : option (Z * list Z) :=
  let* (p, _) := randombits prec (nbits - 2) rand in
  let p := mp_setbit p (nbits - 1) in
  let p := mp_setbit p (nbits - 2) in
  nextprime W p.

(** ** The table *)

(** No divisor from [d] up to the root of [k]. *)
Fixpoint no_divisor (fuel : nat) (d k : Z) : bool :=
  match fuel with
  | O => true
  | S f => if k <? d * d then true else if k mod d =? 0 then false else no_divisor f (d + 1) k
  end.

Lemma no_divisor_spec fuel d k : 0 < d -> k < (d + Z.of_nat fuel) * (d + Z.of_nat fuel) ->
  no_divisor fuel d k = true <-> forall e, d <= e -> e * e <= k -> k mod e <> 0.
Proof.
  revert d. induction fuel as [|fuel IH]; intros d Hd Hf; cbn [no_divisor].
  - split; [intros _ e He Hee; rewrite Z.add_0_r in Hf; nia | reflexivity].
  - destruct (Z.ltb_spec k (d * d)) as [L | G]; [split; [intros _ e He Hee; nia | reflexivity] |].
    destruct (Z.eqb_spec (k mod d) 0) as [E | N]; [split; [discriminate | intros H; exfalso; apply (H d); lia] |].
    rewrite IH by lia. split; intros H e He Hee; [destruct (Z.eq_dec e d) as [-> |]; [exact N | apply H; lia] | apply H; lia].
Qed.

Fixpoint upward (k : nat) (z : Z) : list Z :=
  match k with
  | O => []
  | S k => z :: upward k (z + 1)
  end.

Lemma upward_in k z x : In x (upward k z) <-> z <= x < z + Z.of_nat k.
Proof. revert z. induction k as [|k IH]; intros z; cbn [upward In]; [lia |]. rewrite IH. lia. Qed.

Lemma primetable_filter : filter (no_divisor 89 2) (upward (Z.to_nat 8190) 2) = primetable.
Proof. vm_compute. reflexivity. Qed.

Lemma no_divisor_prime k : 2 <= k < 8192 -> no_divisor 89 2 k = true <-> prime k.
Proof.
  intros Hk. rewrite no_divisor_spec by lia. split.
  - intros H. destruct (prime_dec k) as [| Hn]; [assumption | exfalso].
    destruct (small_prime_divisor k ltac:(lia) Hn) as (r & Pr & Dr & Lr). pose proof (prime_ge_2 r Pr).
    apply (H r); [lia | exact Lr |]. apply Z.mod_divide; [lia | exact Dr].
  - intros Hp e He Hee E. apply Z.mod_divide in E; [| lia]. destruct (prime_divisors k Hp _ E) as [ | [ | [ | ]]]; nia.
Qed.

(** The primes below 8192. *)
Lemma primetable_primes k : In k primetable <-> prime k /\ k < 8192.
Proof.
  rewrite <- primetable_filter, filter_In, upward_in. split.
  - intros [Hx H]. split; [apply no_divisor_prime; [lia | exact H] | lia].
  - intros [Hp Hk]. pose proof (prime_ge_2 k Hp). split; [lia | apply no_divisor_prime; [lia | exact Hp]].
Qed.

Lemma table_entry t : In t (skipn 1 primetable) -> 2 <= t < 8192.
Proof.
  intros Ht. assert (I : In t primetable) by (rewrite <- (firstn_skipn 1 primetable), in_app_iff; now right).
  apply primetable_primes in I as [Hp Hk]. pose proof (prime_ge_2 t Hp). lia.
Qed.

(** A scan of a sorted table finds the least entry. *)
Lemma find_least l v : StronglySorted Z.lt l -> forall x, find (fun x => x >=? v) l = Some x ->
  In x l /\ v <= x /\ forall q, In q l -> v <= q -> x <= q.
Proof.
  induction 1 as [|y l Hs IH Hy]; intros x; cbn [find]; [discriminate |]. rewrite Z.geb_leb. destruct (Z.leb_spec v y) as [L | G].
  - intros [= <-]. split; [now left |]. split; [exact L |]. intros q [<- | Hq] _; [lia |]. rewrite Forall_forall in Hy. specialize (Hy q Hq). lia.
  - intros E. destruct (IH x E) as (I & Lx & M). split; [now right |]. split; [exact Lx |]. intros q [<- | Hq] Lq; [lia | now apply M].
Qed.

Lemma upward_sorted k z : StronglySorted Z.lt (upward k z).
Proof.
  revert z. induction k as [|k IH]; intros z; cbn [upward]; constructor; [apply IH |]. apply Forall_forall. intros x Hx. apply upward_in in Hx. lia.
Qed.

Lemma filter_sorted (f : Z -> bool) l : StronglySorted Z.lt l -> StronglySorted Z.lt (filter f l).
Proof.
  induction 1 as [|y l Hs IH Hy]; cbn [filter]; [constructor |]. destruct (f y); [| exact IH]. constructor; [exact IH |].
  rewrite Forall_forall in *. intros x Hx. apply filter_In in Hx. now apply Hy.
Qed.

(** The entry [nextprime] takes from the table. *)
Lemma least_entry v : 0 < v <= 8191 ->
  exists x, find (fun x => x >=? v) primetable = Some x /\ prime x /\ v <= x < 8192 /\ forall q, prime q -> v <= q -> x <= q.
Proof.
  intros Hv. destruct (find (fun x => x >=? v) primetable) as [x |] eqn:E.
  - exists x. split; [reflexivity |]. apply find_least in E as (I & Lx & M); [| rewrite <- primetable_filter; apply filter_sorted, upward_sorted].
    apply primetable_primes in I as [Px Bx]. split; [exact Px |]. split; [lia |]. intros q Hq Lq.
    destruct (Z_lt_ge_dec q 8192) as [Lt |]; [| lia]. apply M; [now apply primetable_primes | exact Lq].
  - exfalso. assert (I : In 8191 primetable) by (apply primetable_primes; split; [apply no_divisor_prime; [lia | reflexivity] | lia]).
    apply (find_none _ _ E) in I. rewrite Z.geb_leb in I. apply Z.leb_gt in I. lia.
Qed.

(** ** The tests *)

(** What the sieve and the Fermat tests let pass. *)
Definition passes (v : Z) : Prop :=
  (forall t, In t (skipn 1 primetable) -> v mod t <> 0) /\ (forall x, In x [2; 3; 5; 7] -> x ^ (v - 1) mod v = 1).

Lemma prime_passes v : prime v -> 8192 <= v -> passes v.
Proof.
  intros Hp Hv. split.
  - intros t Ht E. apply table_entry in Ht. apply Z.mod_divide in E; [| lia]. destruct (prime_divisors v Hp _ E) as [ | [ | [ | ]]]; lia.
  - intros x Hx. apply (fermat v Hp). intros D. apply Z.divide_pos_le in D; cbn [In] in Hx; lia.
Qed.

Lemma fermat_tests_spec W n p xs : 33 <= W -> reg n p -> 2 ^ 32 <= val p -> Forall (fun x => 0 < x < 2 ^ 16) xs ->
  exists b, fermat_tests W xs (fst (mp_dec p)) p = Some b /\ (b = true <-> forall x, In x xs -> x ^ (val p - 1) mod val p = 1).
Proof.
  intros HW Hp H32 Hxs. destruct (dec_reg n p Hp ltac:(lia)) as [R1 E1].
  assert (Hn : (1 <= n)%nat) by (destruct n; [apply reg_0_inv in Hp as ->; cbn in H32; lia | lia]).
  induction Hxs as [|x xs Hx Hxs (b & Eb & IH)]; cbn [fermat_tests]; [exists true; cbn [In]; tauto |]. rewrite (reg_length _ _ Hp).
  destruct (mp_init_val n x) as [Rx Vx]; [unfold is_u16; lia | exact Hn |].
  destruct (mp_modexp_val W n (mp_init n x) (fst (mp_dec p)) p HW Rx R1 Hp H32 ltac:(lia) ltac:(lia)) as (r & -> & Rr & Vr).
  cbn [bind]. change (0 <? 0) with false. cbv iota. rewrite (testne_val n) by (assumption || (unfold is_u16; lia)).
  rewrite Vr, Vx, E1. destruct (Z.eqb_spec (x ^ (val p - 1) mod val p) 1) as [E | N]; cbn [negb].
  - exists b. split; [exact Eb |]. rewrite IH. cbn [In]. split; [intros H y [<- | Hy]; auto | auto].
  - exists false. split; [reflexivity |]. split; [discriminate |]. intros H. exfalso. apply N, H. now left.
Qed.

Lemma slowtest_spec W n p : 33 <= W -> reg n p -> 2 ^ 32 <= val p ->
  exists b, slowtest W p = Some b /\ (b = true <-> forall x, In x [2; 3; 5; 7] -> x ^ (val p - 1) mod val p = 1).
Proof.
  intros HW Hp H32. unfold slowtest. change (firstn 4 primetable) with [2; 3; 5; 7].
  apply (fermat_tests_spec W n); try assumption. repeat constructor.
Qed.

Lemma combine_map {A B} (f : A -> B) l : combine (map f l) l = map (fun x => (f x, x)) l.
Proof. induction l as [|x l IH]; cbn [map combine]; [reflexivity | now rewrite IH]. Qed.

Lemma fastsieve_spec n p d : reg n p -> 0 <= d ->
  fastsieve d (buildsieve p) = true <-> forall t, In t (skipn 1 primetable) -> (val p + d) mod t <> 0.
Proof.
  intros Hp Hd. unfold fastsieve, buildsieve. rewrite combine_map, forallb_forall. pose proof (val_range _ _ Hp) as V.
  assert (E : forall t, In t (skipn 1 primetable) -> Z.rem (d + mp_shortmod p t) t = (val p + d) mod t).
  { intros t Ht. apply table_entry in Ht. rewrite (mp_shortmod_val n p t Hp) by lia.
    pose proof (Z.mod_pos_bound (val p) t ltac:(lia)). rewrite Z.rem_mod_nonneg by lia. rewrite Z.add_comm. apply Zplus_mod_idemp_l. }
  split.
  - intros H t Ht. specialize (H (mp_shortmod p t, t)). cbn [fst snd] in H. rewrite (E t Ht) in H.
    assert (I : In (mp_shortmod p t, t) (map (fun x => (mp_shortmod p x, x)) (skipn 1 primetable))) by (apply in_map_iff; eauto).
    specialize (H I). now destruct (Z.eqb_spec ((val p + d) mod t) 0).
  - intros H e He. apply in_map_iff in He as (t & <- & Ht). cbn [fst snd]. rewrite (E t Ht). specialize (H t Ht).
    now destruct (Z.eqb_spec ((val p + d) mod t) 0).
Qed.

(** ** The search *)

Lemma inc4_val n p : reg n p -> val p + 4 < beta n -> reg n (inc4 p) /\ val (inc4 p) = val p + 4.
Proof.
  intros Hp Hb. unfold inc4. pose proof (val_range _ _ Hp).
  destruct (inc_val n p Hp) as [R1 E1]. rewrite Z.mod_small in E1 by lia.
  destruct (inc_val n _ R1) as [R2 E2]. rewrite Z.mod_small in E2 by lia.
  destruct (inc_val n _ R2) as [R3 E3]. rewrite Z.mod_small in E3 by lia.
  destruct (inc_val n _ R3) as [R4 E4]. rewrite Z.mod_small in E4 by lia. split; [exact R4 | lia].
Qed.

Section Search.

Variables (W range : Z) (n : nat) (p0 : list Z).
Hypotheses (HW : 33 <= W) (Hp0 : reg n p0) (H32 : 2 ^ 32 <= val p0) (Hr : 0 <= range < 2 ^ 15)
  (Hroom : val p0 + range + 4 < beta n).

(** One candidate: sieved and tested, it is one that passes. *)
Lemma candidate_spec d p : 0 <= d -> reg n p -> val p = val p0 + d ->
  exists b, (if fastsieve d (buildsieve p0) then slowtest W p else Some false) = Some b /\ (b = true <-> passes (val p)).
Proof using HW Hp0 H32.
  clear Hr Hroom. intros Hd Hp E. pose proof (fastsieve_spec n p0 d Hp0 Hd) as F. rewrite <- E in F. destruct (fastsieve d (buildsieve p0)).
  - destruct (slowtest_spec W n p HW Hp ltac:(lia)) as (b & -> & Hb). exists b. split; [reflexivity |]. unfold passes. rewrite Hb. tauto.
  - exists false. split; [reflexivity |]. split; [discriminate |]. intros [H _]. apply F in H. discriminate.
Qed.

Lemma sieve_loop_spec fuel d s p : 0 <= d <= range -> range - d < Z.of_nat fuel -> reg n p -> val p = val p0 + d ->
  exists d' s' p', sieve_loop fuel W range (buildsieve p0) d s p = Some (d', s', p') /\ reg n p' /\ val p' = val p0 + d' /\
    d <= d' <= range + 4 /\ (d' - d) mod 4 = 0 /\ (d' <= range -> passes (val p')) /\
    (forall e, d <= e < d' -> (e - d) mod 4 = 0 -> ~ passes (val p0 + e)).
Proof using All.
  revert d s p. induction fuel as [|fuel IH]; intros d s p Hd Hf Hp E; [lia |]. cbn [sieve_loop].
  destruct (candidate_spec d p (proj1 Hd) Hp E) as (b & -> & Hb). cbn [bind]. destruct b.
  - eexists d, _, p. split; [reflexivity |]. split; [exact Hp |]. split; [exact E |]. split; [lia |]. split; [now rewrite Z.sub_diag |].
    split; [intros _; now apply Hb | intros e He; lia].
  - assert (Nb : ~ passes (val p0 + d)) by (intros H; rewrite <- E in H; apply Hb in H; discriminate).
    destruct (inc4_val n p Hp ltac:(lia)) as [Ri Ei]. rewrite (u16_id (d + 4)) by (unfold is_u16; lia).
    assert (First : forall e, d <= e < d + 4 -> (e - d) mod 4 = 0 -> e = d).
    { intros e He Hm. rewrite Z.mod_small in Hm by lia. lia. }
    rewrite Z.gtb_ltb. destruct (Z.ltb_spec range (d + 4)) as [L | G].
    + eexists (d + 4), _, _. split; [reflexivity |]. split; [exact Ri |]. split; [lia |]. split; [lia |].
      split; [now replace (d + 4 - d) with 4 by lia |]. split; [intros; lia |].
      intros e He Hm. now rewrite (First e He Hm).
    + destruct (IH (d + 4) (if fastsieve d (buildsieve p0) then s + 1 else s) (inc4 p) ltac:(lia) ltac:(lia) Ri ltac:(lia))
        as (d' & s' & p' & -> & Rp' & Ep' & Bd & Md & Pd & Nd).
      eexists d', s', p'. split; [reflexivity |]. split; [exact Rp' |]. split; [exact Ep' |]. split; [lia |].
      split; [zlia |]. split; [exact Pd |]. intros e He Hm. destruct (Z_lt_ge_dec e (d + 4)) as [Le | Ge].
      * now rewrite (First e ltac:(lia) Hm).
      * apply Nd; [lia |]. zlia.
Qed.

End Search.

Lemma lor3 x : 0 <= x -> x .| 3 = 4 * (x / 4) + 3.
Proof.
  intros Hx. pose proof (Z.mod_pos_bound x 4 ltac:(lia)) as M. assert (E : x = (4 * (x / 4)) .| (x mod 4)).
  { rewrite (lor_add 2); [apply Z.div_mod; lia | lia | rewrite Z.mul_comm; apply Z.mod_mul; lia | change (2 ^ 2) with 4; lia]. }
  rewrite E at 1. rewrite <- Z.lor_assoc. replace ((x mod 4) .| 3) with 3.
  - apply (lor_add 2); [lia | rewrite Z.mul_comm; apply Z.mod_mul; lia | change (2 ^ 2) with 4; lia].
  - assert (x mod 4 = 0 \/ x mod 4 = 1 \/ x mod 4 = 2 \/ x mod 4 = 3) as [-> | [-> | [-> | ->]]] by lia; reflexivity.
Qed.

(** The first candidate. *)
Lemma blum_val n p : (1 <= n)%nat -> reg n p -> reg n (aset p 0 (lsunit p .| 3)) /\ val (aset p 0 (lsunit p .| 3)) = 4 * (val p / 4) + 3.
Proof.
  intros Hn Hp. pose proof (reg_unit n p 0 Hp) as Hu. unfold lsunit. pose proof (val_range _ _ Hp).
  split; [apply reg_aset; [apply lor_u16; [exact Hu | unfold is_u16; lia] | exact Hp] |].
  rewrite (val_aset n p 0 _ Hp) by lia. change (2 ^ (16 * 0)) with 1. rewrite lor3 by (unfold is_u16 in Hu; lia).
  pose proof (val_unit n p 0 Hp ltac:(lia)) as V. change (2 ^ (16 * 0)) with 1 in V. rewrite Z.div_1_r in V. rewrite V. zlia.
Qed.

(** The precision leaves room for the search. *)
Lemma search_room n p : reg n p -> 2 ^ 32 <= val p -> 16 * val p < beta n -> (n <= 130)%nat ->
  let prec := Z.to_nat (bits2units (countbits p + 4 + SLOP_BITS)) in
  (3 <= prec <= n)%nat /\ val p + 128 * Z.of_nat prec + 4 < beta prec.
Proof.
  intros Hp H32 H16 Hn prec. destruct (countbits_spec n p Hp) as (C & U & L). set (c := countbits p) in *.
  assert (C32 : 32 < c) by (apply (Z.pow_lt_mono_r_iff 2); lia). specialize (L ltac:(lia)).
  assert (Ep : Z.of_nat prec = (c + 19) / 16).
  { unfold prec, SLOP_BITS, bits2units. rewrite shiftr_div by lia. change (2 ^ 4) with 16. zlia. }
  assert (Cn : c + 3 < 16 * Z.of_nat n).
  { apply (Z.pow_lt_mono_r_iff 2); [lia | lia |]. fold (beta n). replace (c + 3) with ((c - 1) + 4) by lia. rewrite Z.pow_add_r by lia. lia. }
  split; [zlia |]. assert (B : 2 ^ c * 16 <= beta prec).
  { change 16 with (2 ^ 4). rewrite <- Z.pow_add_r by lia. unfold beta. apply Z.pow_le_mono_r; zlia. }
  pose proof (Z.pow_gt_lin_r 2 c ltac:(lia) ltac:(lia)). assert (2 ^ 33 <= 2 ^ c) by (apply Z.pow_le_mono_r; lia). zlia.
Qed.

(** What a search from [v] on leaves: a number that passes the tests, or a
    failure more than eight times the bits of [v] above it; no candidate before
    it passes. *)
Definition searched (v status r : Z) : Prop :=
  v <= r /\
  (status = 0 /\ r mod 4 = 3 /\ passes r \/ (status = NOSUSPECTS \/ status = NOPRIMEFOUND) /\ v + 8 * Z.log2 v < r) /\
  (forall q, v <= q < r -> q mod 4 = 3 -> ~ passes q).

Lemma search_from_spec W n p : 33 <= W -> reg n p -> 2 ^ 32 <= val p -> 16 * (val p + 3) < beta n -> (n <= 130)%nat ->
  exists status r, search_from W p = Some (status, r) /\ reg n r /\ searched (val p) status (val r).
Proof.
  intros HW Hp H32 H16 Hn. unfold search_from.
  assert (Hn1 : (1 <= n)%nat) by (destruct n; [apply reg_0_inv in Hp as ->; cbn in H32; lia | lia]).
  rewrite (tstminus_val n p Hp Hn1), (proj2 (Z.leb_gt _ _)) by lia.
  destruct (blum_val n p Hn1 Hp) as [R1 E1]. set (p1 := aset p 0 (lsunit p .| 3)) in *.
  assert (B1 : val p <= val p1 <= val p + 3) by (rewrite E1; zlia).
  destruct (search_room n p1 R1 ltac:(lia) ltac:(lia) Hn) as [Hprec Hroom]. set (prec := Z.to_nat _) in *.
  rewrite (reg_length _ _ R1), (proj2 (Nat.ltb_ge n prec)) by lia.
  assert (Er : u16 (8 * units2bits (Z.of_nat prec)) = 128 * Z.of_nat prec).
  { unfold units2bits. rewrite shiftl_mul by lia. change (2 ^ 4) with 16. rewrite u16_id by (unfold is_u16; lia). lia. }
  rewrite Er. destruct (low_units n prec p1 R1 ltac:(lia) ltac:(lia)) as [Rl El].
  destruct (sieve_loop_spec W (128 * Z.of_nat prec) prec (firstn prec p1) HW Rl ltac:(lia) ltac:(lia) ltac:(lia)
    (S (Z.to_nat (128 * Z.of_nat prec))) 0 0 (firstn prec p1) ltac:(lia) ltac:(lia) Rl ltac:(lia))
    as (d & s & p' & -> & Rp' & Ep' & Bd & Md & Pd & Nd). cbn [bind]. rewrite El in *. rewrite Z.sub_0_r in Md.
  assert (Rr : reg n (p' ++ skipn prec p1)) by (replace n with (prec + (n - prec))%nat by lia; apply reg_app; [exact Rp' | now apply reg_skipn]).
  assert (Vr : val (p' ++ skipn prec p1) = val p1 + d).
  { rewrite val_app, (val_skipn n prec p1 R1), Z.div_small, Ep' by lia. lia. }
  assert (Before : forall q, val p <= q < val p1 + d -> q mod 4 = 3 -> ~ passes q).
  { intros q Hq Hm. replace q with (val p1 + (q - val p1)) by lia. apply Nd; rewrite E1 in *; zlia. }
  assert (Lg : 8 * Z.log2 (val p) <= 128 * Z.of_nat prec).
  { destruct (countbits_spec n p1 R1) as (C & U & _). unfold prec, bits2units, SLOP_BITS. rewrite shiftr_div by lia. change (2 ^ 4) with 16.
    assert (Z.log2 (val p) < countbits p1) by (apply Z.log2_lt_pow2; lia). zlia. }
  rewrite Z.gtb_ltb. destruct (Z.ltb_spec (128 * Z.of_nat prec) d) as [L | G].
  - exists (if s <? 1 then NOSUSPECTS else NOPRIMEFOUND), (p' ++ skipn prec p1). split; [destruct (s <? 1); reflexivity |].
    split; [exact Rr |]. rewrite Vr. split; [lia |]. split; [right; split; [destruct (s <? 1); auto | lia] | exact Before].
  - eexists 0, _. split; [reflexivity |]. split; [exact Rr |]. rewrite Vr. split; [lia |].
    split; [left; split; [reflexivity |]; split; [rewrite E1; zlia | rewrite <- Ep'; apply Pd, G] | exact Before].
Qed.

(** ** Theorems *)

(** C30. [nextprime] in a register with five bits to spare.  For a start below 8191
    it returns 0 and the least prime above it.  For a start of 33 bits or more it
    either returns 0 and a number above it that is 3 modulo 4, that no odd prime
    below 8192 divides and that passes the four Fermat tests, or gives up with a
    negative status far above the start; in both cases it has passed over no prime
    that is 3 modulo 4: the sieve on remainders and the tests never reject a
    prime. *)
Theorem nextprime_correct W n p : 33 <= W -> reg n p -> (1 <= n <= 130)%nat -> 16 * (val p + 4) < beta n ->
  val p < 8191 \/ 2 ^ 32 <= val p ->
  exists status r, nextprime W p = Some (status, r) /\ reg n r /\ val p < val r /\
    if val p <? 8191
    then status = 0 /\ prime (val r) /\ (forall q, prime q -> val p < q -> val r <= q)
    else searched (val p + 1) status (val r) /\ (forall q, prime q -> q mod 4 = 3 -> val p < q -> val r <= q).
Proof.
  intros HW Hp Hn Hfit Hv. unfold nextprime. pose proof (val_range _ _ Hp). destruct (inc_val n p Hp) as [R1 E1].
  rewrite Z.mod_small in E1 by lia. set (p1 := fst (mp_inc p)) in *. rewrite (reg_length _ _ R1).
  pose proof (significance_le1 n p1 R1) as S1. destruct (Z.ltb_spec (val p) 8191) as [Small | Large].
  - rewrite (proj2 (Z.leb_le _ _)) by (apply S1; lia).
    assert (El : lsunit p1 = val p + 1).
    { unfold lsunit. rewrite (val_unit n p1 0 R1) by lia. change (2 ^ (16 * 0)) with 1. rewrite Z.div_1_r, E1. apply Z.mod_small. lia. }
    rewrite El. destruct (least_entry (val p + 1) ltac:(lia)) as (x & -> & Px & Lx & Mx).
    destruct (mp_init_val n x) as [Rx Vx]; [unfold is_u16; lia | lia |].
    exists 0, (mp_init n x). rewrite Vx. split; [reflexivity |]. split; [exact Rx |]. split; [lia |]. split; [reflexivity |].
    split; [exact Px |]. intros q Hq Lq. apply Mx; [exact Hq | lia].
  - rewrite (proj2 (Z.leb_gt (significance p1) 1)) by (destruct (Z_le_gt_dec (significance p1) 1) as [F |]; [apply S1 in F; lia | lia]).
    destruct (search_from_spec W n p1 HW R1) as (status & r & E & Rr & Hs); [lia.. |]. rewrite E1 in Hs.
    exists status, r. split; [exact E |]. split; [exact Rr |]. split; [destruct Hs; lia |]. split; [exact Hs |].
    intros q Hq Mq Lq. destruct (Z_le_gt_dec (val r) q) as [| G]; [assumption | exfalso]. destruct Hs as (_ & _ & N).
    apply (N q ltac:(lia) Mq). apply prime_passes; [exact Hq | lia].
Qed.

Lemma nextprime_correct_witness : exists status r, nextprime 64 [0; 0; 1; 0] = Some (status, r) /\
  searched (2 ^ 32 + 1) status (val r) /\ (forall q, prime q -> q mod 4 = 3 -> 2 ^ 32 < q -> val r <= q).
Proof.
  destruct (nextprime_correct 64 4 [0; 0; 1; 0]) as (status & r & E & _ & _ & H);
    [lia | split; [reflexivity | repeat constructor; unfold is_u16; lia] | lia | reflexivity | right; vm_compute; discriminate |].
  exists status, r. split; [exact E |]. exact H.
Defined.

(** ** Random candidates *)

Lemma randomunit_u16 rand u rest : randomunit rand = Some (u, rest) -> is_u16 u.
Proof. destruct rand as [|b1 [|b0 rand]]; [discriminate | discriminate |]. cbn [randomunit]. intros [= <- _]. apply u16_range. Qed.

Lemma random_units_val fuel nbits rand us rest : 0 <= nbits -> random_units fuel nbits rand = Some (us, rest) ->
  reg (length us) us /\ val us < 2 ^ nbits.
Proof.
  revert nbits rand us rest. induction fuel as [|fuel IH]; intros nbits rand us rest Hb; cbn [random_units]; [discriminate |].
  unfold UNITSIZE. rewrite Z.geb_leb. destruct (Z.leb_spec 16 nbits) as [G | L].
  - destruct (randomunit rand) as [[u r1] |] eqn:Eu; [| discriminate]. cbn [bind].
    destruct (random_units fuel (nbits - 16) r1) as [[us' r2] |] eqn:Es; [| discriminate]. cbn [bind]. intros [= <- _].
    destruct (IH (nbits - 16) _ _ _ ltac:(lia) Es) as [R V]. pose proof (randomunit_u16 _ _ _ Eu) as Hu. split; [now apply reg_cons |].
    cbn [val]. replace nbits with (16 + (nbits - 16)) by lia. rewrite Z.pow_add_r by lia. unfold is_u16 in Hu. lia.
  - destruct (Z.eqb_spec nbits 0) as [-> | N]; cbn [negb].
    + intros [= <- _]. split; [auto with cint | reflexivity].
    + destruct (randomunit rand) as [[u r1] |] eqn:Eu; [| discriminate]. cbn [bind]. intros [= <- _].
      pose proof (Z.pow_pos_nonneg 2 nbits ltac:(lia) ltac:(lia)). assert (2 ^ nbits < 2 ^ 16) by (apply Z.pow_lt_mono_r; lia).
      assert (Em : u .& u16 (power_of_2 nbits - 1) = u mod 2 ^ nbits).
      { unfold power_of_2. rewrite shiftl_mul, Z.mul_1_l by lia. rewrite (u16_id (2 ^ nbits)) by (unfold is_u16; lia).
        rewrite u16_id by (unfold is_u16; lia). replace (2 ^ nbits - 1) with (Z.ones nbits) by (rewrite Z.ones_equiv; lia). apply Z.land_ones. lia. }
      rewrite Em. pose proof (Z.mod_pos_bound u (2 ^ nbits) ltac:(lia)). cbn [val length].
      split; [apply reg_cons; split; [unfold is_u16; lia | auto with cint] | lia].
Qed.

Lemma randombits_val n nbits rand p rest : (1 <= n)%nat -> 0 <= nbits -> randombits n nbits rand = Some (p, rest) ->
  reg n p /\ val p < 2 ^ nbits.
Proof.
  intros Hn Hb. unfold randombits. destruct (random_units _ nbits rand) as [[us r] |] eqn:E; [| discriminate]. cbn [bind].
  destruct (random_units_val _ _ _ _ _ Hb E) as [R V]. destruct (Nat.leb_spec (length us) n) as [L |]; [| discriminate]. intros [= <- _].
  destruct (mp_init_val n 0) as [R0 V0]; [unfold is_u16; lia | exact Hn |]. split.
  - replace n with (length us + (n - length us))%nat at 1 by lia. apply reg_app; [exact R | now apply reg_skipn].
  - rewrite val_app, (val_skipn n _ _ R0), V0, Z.div_0_l by (exact L || (pose proof (beta_pos (length us)); lia)). lia.
Qed.

(** A long enough stream suffices. *)
Lemma random_units_total fuel nbits rand : 0 <= nbits < 16 * Z.of_nat fuel -> nbits + 16 <= 8 * Z.of_nat (length rand) ->
  exists us rest, random_units fuel nbits rand = Some (us, rest) /\ 16 * Z.of_nat (length us) < nbits + 16.
Proof.
  revert nbits rand. induction fuel as [|fuel IH]; intros nbits rand Hb Hl; [lia |]. cbn [random_units].
  destruct rand as [|b1 [|b0 rand]]; cbn [length] in Hl; [lia | lia |]. unfold UNITSIZE. rewrite Z.geb_leb.
  destruct (Z.leb_spec 16 nbits) as [G | L]; cbn [randomunit bind].
  - destruct (IH (nbits - 16) rand ltac:(lia) ltac:(lia)) as (us & rest & -> & Lu). cbn [bind]. eexists _, _. split; [reflexivity |]. cbn [length]. lia.
  - destruct (Z.eqb_spec nbits 0) as [-> | N]; cbn [negb bind]; eexists _, _; (split; [reflexivity |]); cbn [length]; lia.
Qed.

(** The two top bits of a random start are set, so that the prime above it has
    the length asked for and the product of two such primes the length of the
    key; the search then is [nextprime]'s. *)
Theorem randomprime_start W n nbits rand : 34 <= nbits -> nbits + 5 <= 16 * Z.of_nat n -> (n <= 130)%nat -> 33 <= W ->
  nbits + 14 <= 8 * Z.of_nat (length rand) ->
  exists status r start, randomprime W n nbits rand = Some (status, r) /\
    3 * 2 ^ (nbits - 2) <= start < 2 ^ nbits /\ reg n r /\ searched (start + 1) status (val r).
Proof.
  intros Hb Hfit Hn HW Hlen. assert (E : exists p rest, randombits n (nbits - 2) rand = Some (p, rest)).
  { unfold randombits. destruct (random_units_total (S (Z.to_nat (nbits - 2))) (nbits - 2) rand ltac:(lia) ltac:(lia)) as (us & rest & -> & L).
    cbn [bind]. rewrite (proj2 (Nat.leb_le _ n)) by lia. eauto. }
  destruct E as (p & rest & E). unfold randomprime. rewrite E. cbn [bind].
  destruct (randombits_val n (nbits - 2) rand p rest ltac:(lia) ltac:(lia) E) as [R V]. pose proof (val_range _ _ R).
  assert (P1 : 2 ^ (nbits - 1) = 2 * 2 ^ (nbits - 2)) by (rewrite <- Z.pow_succ_r by lia; f_equal; lia).
  assert (P0 : 2 ^ nbits = 4 * 2 ^ (nbits - 2)) by (change 4 with (2 ^ 2); rewrite <- Z.pow_add_r by lia; f_equal; lia).
  destruct (setbit_val n p (nbits - 1) R ltac:(lia)) as [R1 V1]; [apply (testbit_small _ (nbits - 1)); lia |].
  set (p1 := mp_setbit p (nbits - 1)) in *.
  assert (T2 : Z.testbit (val p1) (nbits - 2) = false).
  { rewrite V1, P1. rewrite Z.testbit_eqb by lia.  rewrite Z.div_add, Z.div_small by lia. reflexivity. }
  destruct (setbit_val n p1 (nbits - 2) R1 ltac:(lia) T2) as [R2 V2]. set (p2 := mp_setbit p1 (nbits - 2)) in *.
  assert (B2 : 3 * 2 ^ (nbits - 2) <= val p2 < 2 ^ nbits) by lia.
  assert (2 ^ 32 <= 2 ^ (nbits - 2)) by (apply Z.pow_le_mono_r; lia).
  assert (Bn : 32 * 2 ^ nbits <= beta n) by (change 32 with (2 ^ 5); rewrite <- Z.pow_add_r by lia; unfold beta; apply Z.pow_le_mono_r; lia).
  unfold nextprime. destruct (inc_val n p2 R2) as [R3 E3]. rewrite Z.mod_small in E3 by lia. pose proof (significance_le1 n _ R3) as S1.
  rewrite (proj2 (Z.leb_gt _ 1)) by (destruct (Z_le_gt_dec (significance (fst (mp_inc p2))) 1) as [F |]; [apply S1 in F; lia | lia]).
  destruct (search_from_spec W n (fst (mp_inc p2)) HW R3 ltac:(lia) ltac:(lia) Hn) as (status & r & E' & Rr & Hs). rewrite E3 in Hs.
  exists status, r, (val p2). auto.
Qed.
