(* ===== verification/PgpRsa.v ===== *)
(** * PGP: RSA encryption and signatures

    Models the functions of [security/pgp/src/rsaglue1.c] on the modular
    exponentiation of [PgpModexp], and the final test of [rsa_keygen] of
    [security/pgp/src/rsagen.c].  A block is built as the bytes of a register from
    the most significant one and then reversed by [mp_convert_order].

    The byte pointers [front] and [back] are indices into the bytes of [temp]:
    the [units2bytes(global_precision)] bytes of the register, then [above], what
    the rest of the array on the stack holds.  A read outside the array is
    [None].  [cryptRandByte] is the stream [rand]; a stream that ends before the
    padding is filled is [None] as well.  [junk] is what a local register holds
    before it is written. *)

From Stdlib Require Import ZArith Znumtheory Lia List Bool.
From S2P Require Import Prelude PgpMpi PgpModexp PgpMpiio PgpKey Fermat.
Import ListNotations.

Definition MD5_ALGORITHM_BYTE : Z := 1.
Definition MD_ENCRYPTED_BYTE : Z := 1.
Definition CK_ENCRYPTED_BYTE : Z := 2.

Definition asn_array : list Z :=
  [0x30; 0x20; 0x30; 0x0c; 0x06; 0x08; 0x2a; 0x86; 0x48; 0x86; 0xf7; 0x0d;
   0x02; 0x05; 0x05; 0x00; 0x04; 0x10].

Definition countbytes (r : list Z) : Z := (countbits r + 7) >> 3.

(** The loop that draws random bytes until [i] of them are not zero. *)
Fixpoint random_padding (i : nat) (rand : list Z) : option (list Z) :=
  match i with
  | O => Some []
  | S i' =>
      (fix draw (rand : list Z) : option (list Z) :=
         match rand with
         | [] => None
         | b :: rand =>
             if negb (b =? 0) then let* p := random_padding i' rand in Some (b :: p) else draw rand
         end) rand
  end.

(** The status, and [outbuf]. *)
Definition rsa_public_encrypt (W : Z) (rand outbuf inbuf E N : list Z) : option (Z * list Z) :=
  let bytes := Z.of_nat (length inbuf) in
  let blocksize := countbytes N - 1 in
  let zeros := repeat 0 (Z.to_nat (units2bytes (Z.of_nat (length N)) - blocksize)) in
  let i := blocksize - 2 - bytes in
  if i <? 1 then Some (-4, outbuf)
  else
    let* padding := random_padding (Z.to_nat i) rand in
    let temp := zeros ++ [CK_ENCRYPTED_BYTE] ++ padding ++ [0] ++ inbuf in
    let temp := byte_units (mp_convert_order temp) in
    let* (i, outbuf) := mp_modexp W temp E N in
    let i := if i <? 0 then -1 else i in
    Some (if i <? 0 then i else 0, outbuf).

(** [DP] and [DQ]. *)
Definition reduced_exponent (junk D P : list Z) : list Z :=
  let temp := fst (mp_dec P) in
  snd (mp_mod junk D temp).

Definition rsa_private_encrypt (W : Z) (junk outbuf inbuf D P Q U N : list Z) : option (Z * list Z) :=
  let bytes := Z.of_nat (length inbuf) in
  let DP := reduced_exponent junk D P in
  let DQ := reduced_exponent junk D Q in
  let blocksize := countbytes N - 1 in
  let zeros := repeat 0 (Z.to_nat (units2bytes (Z.of_nat (length N)) - blocksize)) in
  let i := blocksize - 2 - bytes in
  let i := i - Z.of_nat (length asn_array) in
  if i <? 0 then Some (-4, outbuf)
  else
    let temp := zeros ++ [MD_ENCRYPTED_BYTE] ++ repeat 0xff (Z.to_nat i) ++ [0] ++ asn_array ++ inbuf in
    let temp := byte_units (mp_convert_order temp) in
    let* (i, outbuf) := mp_modexp_crt W junk temp P Q DP DQ U in
    Some (if i <? 0 then -1 else i, outbuf).

(** ** Taking a block apart *)

Definition byte_at (b : list Z) (i : Z) : option Z := if i <? 0 then None else nth_error b (Z.to_nat i).

(** [while (i--) if ( *front++ ) goto ErrorReturn;] *)
Fixpoint skip_zeros (i : nat) (b : list Z) (front : Z) : option (option Z) :=
  match i with
  | O => Some (Some front)
  | S i' =>
      let* x := byte_at b front in
      if negb (x =? 0) then Some None else skip_zeros i' b (front + 1)
  end.

(** [while (test ( *front++ ));] the pointer after it; past the array there is
    nothing to read. *)
Fixpoint scan_up (fuel : nat) (test : Z -> bool) (b : list Z) (front : Z) : option Z :=
  match fuel with
  | O => None
  | S f =>
      let* x := byte_at b front in
      if test x then scan_up f test b (front + 1) else Some (front + 1)
  end.

(** [while (test ( *--back ));] *)
Fixpoint scan_down (fuel : nat) (test : Z -> bool) (b : list Z) (back : Z) : option Z :=
  match fuel with
  | O => None
  | S f =>
      let* x := byte_at b (back - 1) in
      if test x then scan_down f test b (back - 1) else Some (back - 1)
  end.

Definition is_ff (x : Z) : bool := x =? 0xff.
Definition nonzero (x : Z) : bool := negb (x =? 0).

(** [memcmp] of the bytes at [front] with [a]: whether they differ. *)
Fixpoint differs (b : list Z) (front : Z) (a : list Z) : option bool :=
  match a with
  | [] => Some false
  | y :: a' =>
      let* x := byte_at b front in
      if x =? y then differs b (front + 1) a' else Some true
  end.

(** [memcpy(outbuf, front, back-front)] *)
Definition between (b : list Z) (front back : Z) : list Z :=
  firstn (Z.to_nat (back - front)) (skipn (Z.to_nat front) b).

(** The return value and the bytes stored in [outbuf]. *)
Definition copy_out (b : list Z) (front back : Z) : Z * list Z := (back - front, between b front back).

Definition is_old_digest (b : list Z) (back : Z) : option bool :=
  let* x := byte_at b (back - 1) in
  if x =? MD_ENCRYPTED_BYTE then
    let* y := byte_at b (back - 17) in
    if y =? 0xff then let* z := byte_at b (back - 18) in Some (z =? 0xff) else Some false
  else Some false.

Definition ErrorReturn : option (Z * list Z) := Some (-9, []).

(** From the padding on. *)
Definition open_digest (b : list Z) (front back : Z) : option (Z * list Z) :=
  let* old := is_old_digest b back in
  if old then
    let back := back - 1 in
    let* x := byte_at b back in
    if negb (x =? MD_ENCRYPTED_BYTE) then ErrorReturn
    else
    let* x := byte_at b front in
    let front := front + 1 in
    if negb (x =? MD5_ALGORITHM_BYTE) then Some (-7, [])
    else
      let* back := scan_down (length b) is_ff b back in
      let* x := byte_at b back in
      if negb (x =? 0) then ErrorReturn
      else if back <? front then ErrorReturn
      else Some (copy_out b front back)
  else
    let* x := byte_at b front in
    let front := front + 1 in
    if negb (x =? MD_ENCRYPTED_BYTE) then ErrorReturn
    else
      let* front := scan_up (length b) is_ff b front in
      let* x := byte_at b (front - 1) in
      if negb (x =? 0) then ErrorReturn
      else
        let* d := differs b front asn_array in
        if d then Some (-7, [])
        else
          let front := front + Z.of_nat (length asn_array) in
          if back <? front then ErrorReturn
          else Some (copy_out b front back).

Definition rsa_public_decrypt (W : Z) (above inbuf E N : list Z) : option (Z * list Z) :=
  let* (i, temp) := mp_modexp W inbuf E N in
  if i <? 0 then Some (-1, [])
  else
    let b := mp_convert_order (unit_bytes temp) ++ above in
    let i := units2bytes (Z.of_nat (length N)) in
    let back := i in
    let i := i - (countbytes N - 1) in
    if i <? 0 then ErrorReturn
    else
      let* front := skip_zeros (Z.to_nat i) b 0 in
      match front with
      | None => ErrorReturn
      | Some front => open_digest b front back
      end.

Definition is_old_key (b : list Z) (front back : Z) : option bool :=
  let* x := byte_at b front in
  if negb (x =? CK_ENCRYPTED_BYTE) then let* y := byte_at b (back - 1) in Some (y =? CK_ENCRYPTED_BYTE)
  else Some false.

Definition open_key (b : list Z) (front back : Z) : option (Z * list Z) :=
  let* old := is_old_key b front back in
  if old then
    let* y := byte_at b (back - 1) in
    if negb (y =? CK_ENCRYPTED_BYTE) then ErrorReturn
    else
    let* back := scan_down (length b) nonzero b back in
    if back <=? front then ErrorReturn else Some (copy_out b front back)
  else
    let* x := byte_at b front in
    let front := front + 1 in
    if negb (x =? CK_ENCRYPTED_BYTE) then ErrorReturn
    else
      let* front := scan_up (length b) nonzero b front in
      if back <=? front then ErrorReturn else Some (copy_out b front back).

Definition rsa_private_decrypt (W : Z) (junk above inbuf D P Q U N : list Z) : option (Z * list Z) :=
  let DP := reduced_exponent junk D P in
  let DQ := reduced_exponent junk D Q in
  let* (i, temp) := mp_modexp_crt W junk inbuf P Q DP DQ U in
  if i <? 0 then Some (-1, [])
  else
    let b := mp_convert_order (unit_bytes temp) ++ above in
    let i := units2bytes (Z.of_nat (length N)) in
    let back := i in
    let blocksize := countbytes N - 1 in
    let i := i - blocksize in
    if i <? 0 then ErrorReturn
    else
      let* front := skip_zeros (Z.to_nat i) b 0 in
      match front with
      | None => ErrorReturn
      | Some front => open_key b front back
      end.

(** ** The final test of a key *)



(** ** Keys *)

(** What the functions above take a key to be, at a precision of [n] units. *)
Record rsa_key (n : nat) (E D P Q U N : list Z) : Prop := {
  rk_regs : reg n E /\ reg n D /\ reg n P /\ reg n Q /\ reg n U /\ reg n N;
  rk_primes : prime (val P) /\ prime (val Q);
  rk_order : 2 ^ 32 <= val P < val Q;
  rk_room : val Q * val Q <= beta n;
  rk_n : val N = val P * val Q;
  rk_e : 0 < val E < val N;
  rk_dp : (val E * val D) mod (val P - 1) = 1;
  rk_dq : (val E * val D) mod (val Q - 1) = 1;
  rk_u : val U < val Q /\ (val P * val U) mod val Q = 1
}.

Lemma reduced_exponent_val n junk D P e : (1 <= n)%nat -> reg n junk -> reg n D -> reg n P -> 2 ^ 32 <= val P ->
  2 * val P <= beta n -> (e * val D) mod (val P - 1) = 1 ->
  reg n (reduced_exponent junk D P) /\ val (reduced_exponent junk D P) = val D mod (val P - 1) /\
  0 < val D mod (val P - 1) < val P.
Proof.
  intros Hn Hj HD HP H32 Hfit He. unfold reduced_exponent. destruct (dec_reg n P HP ltac:(lia)) as [R1 E1].
  destruct (mod_reg n junk D _ Hn Hj HD R1) as [R2 E2]; [lia.. |]. rewrite E1 in E2. split; [exact R2 |]. split; [exact E2 |].
  pose proof (Z.mod_pos_bound (val D) (val P - 1) ltac:(lia)). assert (val D mod (val P - 1) <> 0); [| lia].
  intros E0. rewrite <- Zmult_mod_idemp_r, E0, Z.mul_0_r, Z.mod_0_l in He by lia. discriminate.
Qed.

(** Powers by [e] and by the reduced [d], in either order. *)
Lemma exponents_cancel p e d x : prime p -> 2 < p -> 0 < e -> 0 < d mod (p - 1) -> (e * d) mod (p - 1) = 1 ->
  x ^ (e * (d mod (p - 1))) mod p = x mod p.
Proof.
  intros Hp H2 He Hd E. apply (pow_order p Hp); [nia |]. rewrite Zmult_mod_idemp_r, E. symmetry. apply Z.mod_small. lia.
Qed.

Section Key.

Variables (W : Z) (n : nat) (junk E D P Q U N : list Z).
Hypotheses (HW : 33 <= W) (Hj : reg n junk) (HK : rsa_key n E D P Q U N).

Lemma key_room : (1 <= n)%nat /\ 2 * val Q <= beta n /\ 2 ^ 64 <= val N.
Proof using HK.
  clear HW Hj. destruct HK as [_ _ Ho Hr Hn _ _ _ _]. split; [| split; [nia | rewrite Hn; change (2 ^ 64) with (2 ^ 32 * 2 ^ 32); apply Z.mul_le_mono_nonneg; lia]].
  destruct n; [unfold beta in Hr; change (2 ^ (16 * Z.of_nat 0)) with 1 in Hr; nia | lia].
Qed.

Lemma private_power x : reg n x ->
  exists r, mp_modexp_crt W junk x P Q (reduced_exponent junk D P) (reduced_exponent junk D Q) U = Some (0, r) /\
    reg n r /\ val r < val N /\ val r mod val P = val x ^ (val D mod (val P - 1)) mod val P /\
    val r mod val Q = val x ^ (val D mod (val Q - 1)) mod val Q.
Proof using All.
  intros Hx. destruct key_room as (Hn & Hq2 & _). pose proof HK as [(RE & RD & RP & RQ & RU & RN) _ Ho Hr En _ Edp Edq [Bu Eu]].
  destruct (reduced_exponent_val n junk D P (val E) Hn Hj RD RP) as (R1 & E1 & B1); [lia.. | exact Edp |].
  destruct (reduced_exponent_val n junk D Q (val E) Hn Hj RD RQ) as (R2 & E2 & B2); [lia.. | exact Edq |].
  rewrite <- E1 in B1. rewrite <- E2 in B2.
  destruct (mp_modexp_crt_val W n junk x P Q (reduced_exponent junk D P) (reduced_exponent junk D Q) U HW Hj Hx) as (r & Er & Rr & Br & Ep & Eq).
  { constructor; auto; lia. }
  exists r. rewrite En, <- E1, <- E2. auto.
Qed.

Lemma public_power x : reg n x -> val x < val N ->
  exists r, mp_modexp W x E N = Some (0, r) /\ reg n r /\ val r = val x ^ val E mod val N.
Proof using HW HK.
  intros Hx Hlt. destruct key_room as (_ & _ & H64). pose proof HK as [(RE & _ & _ & _ & _ & RN) _ _ _ _ Be _ _ _].
  destruct (mp_modexp_val W n x E N HW Hx RE RN ltac:(lia) Hlt Be) as (r & Er & Rr & Vr). eauto.
Qed.

Lemma key_primes_coprime : rel_prime (val P) (val Q).
Proof using HK.
  destruct HK as [_ [Hp Hq] Ho _ _ _ _ _ _]. apply prime_rel_prime; [exact Hp |]. intros Hd.
  apply prime_div_prime in Hd; [lia | exact Hp | exact Hq].
Qed.

(** A residue modulo [N] seen modulo a factor. *)
Lemma residue_p x : (x mod val N) mod val P = x mod val P /\ (x mod val N) mod val Q = x mod val Q.
Proof using HK.
  destruct HK as [_ _ Ho _ En _ _ _ _]. rewrite En. split; apply mod_of_multiple; try lia; [apply Z.mul_pos_pos; lia | apply Z.divide_factor_l
    | apply Z.mul_pos_pos; lia | apply Z.divide_factor_r].
Qed.

Lemma same_residues x y : 0 <= x < val N -> 0 <= y < val N -> x mod val P = y mod val P -> x mod val Q = y mod val Q -> x = y.
Proof using HK.
  intros Hx Hy. pose proof key_primes_coprime as Hc. destruct HK as [_ _ Ho _ En _ _ _ _]. rewrite En in *.
  apply residues_unique; [exact Hc | lia | lia | assumption | assumption].
Qed.

Lemma reduced_positive : 0 < val D mod (val P - 1) /\ 0 < val D mod (val Q - 1).
Proof using HK Hj.
  destruct key_room as (Hn & Hq2 & _). pose proof HK as [(RE & RD & RP & RQ & RU & RN) _ Ho Hr En _ Edp Edq _].
  destruct (reduced_exponent_val n junk D P (val E) Hn Hj RD RP) as (_ & _ & B1); [lia.. | exact Edp |].
  destruct (reduced_exponent_val n junk D Q (val E) Hn Hj RD RQ) as (_ & _ & B2); [lia.. | exact Edq |]. lia.
Qed.

(** The private power undoes the public one. *)
Lemma decrypt_power x r : 0 <= x < val N -> reg n r -> val r < val N ->
  val r mod val P = (x ^ val E mod val N) ^ (val D mod (val P - 1)) mod val P ->
  val r mod val Q = (x ^ val E mod val N) ^ (val D mod (val Q - 1)) mod val Q -> val r = x.
Proof using HK Hj.
  intros Hx Rr Br Ep Eq. destruct reduced_positive as [D1 D2]. destruct (residue_p (x ^ val E)) as [F1 F2].
  pose proof HK as [_ [Hp Hq] Ho _ En Be Edp Edq _]. pose proof (val_range _ _ Rr).
  rewrite <- Z.mod_pow_l, F1, Z.mod_pow_l, <- Z.pow_mul_r, exponents_cancel in Ep by (lia || assumption).
  rewrite <- Z.mod_pow_l, F2, Z.mod_pow_l, <- Z.pow_mul_r, exponents_cancel in Eq by (lia || assumption).
  apply same_residues; [lia.. | assumption | assumption].
Qed.

(** The public power undoes the private one. *)
Lemma verify_power x r : 0 <= x < val N ->
  val r mod val P = x ^ (val D mod (val P - 1)) mod val P ->
  val r mod val Q = x ^ (val D mod (val Q - 1)) mod val Q -> val r ^ val E mod val N = x.
Proof using HK Hj.
  intros Hx Ep Eq. destruct reduced_positive as [D1 D2]. destruct (residue_p (val r ^ val E)) as [F1 F2].
  pose proof HK as [_ [Hp Hq] Ho _ En Be Edp Edq _].
  apply same_residues; [apply Z.mod_pos_bound; lia | exact Hx | |].
  - rewrite F1, <- Z.mod_pow_l, Ep, Z.mod_pow_l, <- Z.pow_mul_r, Z.mul_comm by lia. apply exponents_cancel; lia || assumption.
  - rewrite F2, <- Z.mod_pow_l, Eq, Z.mod_pow_l, <- Z.pow_mul_r, Z.mul_comm by lia. apply exponents_cancel; lia || assumption.
Qed.

End Key.

(** ** Blocks *)

Lemma pow_countbytes n N : reg n N -> 0 < val N -> 0 <= countbytes N - 1 < 2 * Z.of_nat n /\ 256 ^ (countbytes N - 1) <= val N.
Proof.
  intros HN Hp. destruct (countbits_spec n N HN) as (C & Up & L). set (c := countbits N) in *.
  assert (0 < c) by (destruct (Z.eq_dec c 0) as [E0 |]; [rewrite E0 in Up; change (2 ^ 0) with 1 in Up; lia | lia]).
  assert (Eb : countbytes N = (c + 7) / 8) by (unfold countbytes; fold c; rewrite shiftr_div by lia; reflexivity).
  specialize (L ltac:(lia)). split; [zlia |]. apply (Z.le_trans _ (2 ^ (c - 1))); [| exact L].
  change 256 with (2 ^ 8). rewrite <- Z.pow_mul_r by zlia. apply Z.pow_le_mono_r; zlia.
Qed.

(** The register made of a block below a modulus. *)
Lemma block_register n N payload : reg n N -> 0 < val N -> Forall is_u8 payload -> Z.of_nat (length payload) = countbytes N - 1 ->
  let block := repeat 0 (Z.to_nat (units2bytes (Z.of_nat (length N)) - (countbytes N - 1))) ++ payload in
  let t := byte_units (mp_convert_order block) in
  reg n t /\ val t < val N /\ mp_convert_order (unit_bytes t) = block.
Proof.
  intros HN Hp Hb Hl block t. destruct (pow_countbytes n N HN Hp) as [C Pn]. unfold mp_convert_order in *.
  assert (E2 : units2bytes (Z.of_nat (length N)) = 2 * Z.of_nat n)
    by (rewrite (reg_length _ _ HN); unfold units2bytes; rewrite shiftl_mul by lia; change (2 ^ 1) with 2; lia).
  assert (Lb : length block = (2 * n)%nat) by (unfold block; rewrite length_app, repeat_length, E2; lia).
  assert (Fb : Forall is_u8 block).
  { apply Forall_app. split; [| exact Hb]. apply Forall_forall. intros x Hx. apply repeat_spec in Hx as ->. unfold is_u8. lia. }
  rewrite hiloswap_rev. assert (Et : t = byte_units (rev block)) by (unfold t; now rewrite hiloswap_rev).
  assert (Fr : Forall is_u8 (rev block)) by (now apply Forall_rev). assert (Lr : length (rev block) = (2 * n)%nat) by (now rewrite length_rev).
  destruct (byte_units_reg n _ Fr Lr) as [R Eu]. rewrite Et. split; [exact R |]. split; [| now rewrite Eu, rev_involutive].
  rewrite (byte_units_val n _ Fr Lr). unfold block. rewrite rev_app_distr, bval_app, rev_repeat, bval_zeros, Z.mul_0_r, Z.add_0_r.
  pose proof (bval_range (rev payload) (Forall_rev Hb)) as B. rewrite length_rev, Hl in B. lia.
Qed.

(** ** Scanning *)

Lemma byte_at_app a x b i : i = Z.of_nat (length a) -> byte_at (a ++ x :: b) i = Some x.
Proof.
  intros ->. unfold byte_at. rewrite (proj2 (Z.ltb_ge _ _)) by lia. rewrite Nat2Z.id, nth_error_app2, Nat.sub_diag by lia. reflexivity.
Qed.

Lemma skip_zeros_app a k b : skip_zeros k (a ++ repeat 0 k ++ b) (Z.of_nat (length a)) = Some (Some (Z.of_nat (length a + k))).
Proof.
  revert a. induction k as [|k IH]; intros a; cbn [skip_zeros repeat app]; [now rewrite Nat.add_0_r |].
  rewrite (byte_at_app a 0 (repeat 0 k ++ b)) by reflexivity. cbn [bind Z.eqb negb].
  specialize (IH (a ++ [0])). rewrite length_app in IH. cbn [length] in IH. rewrite <- app_assoc in IH. cbn [app] in IH.
  replace (Z.of_nat (length a) + 1) with (Z.of_nat (length a + 1)) by lia. rewrite IH. do 3 f_equal. lia.
Qed.

Lemma scan_up_app fuel test a m x b : (length m < fuel)%nat -> Forall (fun y => test y = true) m -> test x = false ->
  scan_up fuel test (a ++ m ++ x :: b) (Z.of_nat (length a)) = Some (Z.of_nat (length a + length m) + 1).
Proof.
  intros Hf Hm Hx. revert fuel a Hf. induction Hm as [|y m Hy Hm IH]; intros [|fuel] a Hf; try (cbn [length] in Hf; lia); cbn [scan_up app length].
  - rewrite byte_at_app by reflexivity. cbn [bind]. rewrite Hx. do 2 f_equal. lia.
  - rewrite byte_at_app by reflexivity. cbn [bind]. rewrite Hy. specialize (IH fuel (a ++ [y]) ltac:(cbn [length] in Hf; lia)).
    rewrite length_app, <- app_assoc in IH. cbn [length app] in IH. replace (Z.of_nat (length a) + 1) with (Z.of_nat (length a + 1)) by lia.
    rewrite IH. do 2 f_equal. lia.
Qed.

Lemma differs_app a d b : differs (a ++ d ++ b) (Z.of_nat (length a)) d = Some false.
Proof.
  revert a. induction d as [|y d IH]; intros a; cbn [differs app]; [reflexivity |].
  rewrite byte_at_app by reflexivity. cbn [bind]. rewrite Z.eqb_refl. specialize (IH (a ++ [y])).
  rewrite length_app, <- app_assoc in IH. cbn [length app] in IH. now replace (Z.of_nat (length a) + 1) with (Z.of_nat (length a + 1)) by lia.
Qed.

Lemma copy_out_app a d b f : f = Z.of_nat (length a) -> copy_out (a ++ d ++ b) f (f + Z.of_nat (length d)) = (Z.of_nat (length d), d).
Proof.
  intros ->. unfold copy_out, between. replace (Z.of_nat (length a) + Z.of_nat (length d) - Z.of_nat (length a)) with (Z.of_nat (length d)) by lia.
  rewrite !Nat2Z.id, skipn_app, skipn_all, Nat.sub_diag. cbn [skipn app].
  now rewrite firstn_app, firstn_all, Nat.sub_diag, firstn_O, app_nil_r.
Qed.

(** The padding drawn is as long as asked for and holds no zero. *)
Lemma random_padding_spec i rand : (i <= length (filter nonzero rand))%nat -> Forall is_u8 rand ->
  exists p, random_padding i rand = Some p /\ length p = i /\ Forall is_u8 p /\ Forall (fun y => nonzero y = true) p.
Proof.
  revert rand. induction i as [|i IH]; intros rand Hc Hr; [exists []; auto |]. cbn [random_padding].
  induction Hr as [|b rand Hb Hr IHr]; [cbn in Hc; lia |]. cbn [filter] in Hc. unfold nonzero in Hc at 1.
  destruct (negb (b =? 0)) eqn:E; [| exact (IHr Hc)]. cbn [length] in Hc.
  destruct (IH rand ltac:(lia) Hr) as (p & -> & L & F1 & F2). cbn [bind]. exists (b :: p). cbn [length]. rewrite L. auto.
Qed.

Lemma open_key_block zeros padding inbuf above back : Forall (fun y => nonzero y = true) padding -> inbuf <> [] ->
  back = Z.of_nat (length zeros + 2 + length padding + length inbuf) ->
  open_key (zeros ++ CK_ENCRYPTED_BYTE :: padding ++ 0 :: inbuf ++ above) (Z.of_nat (length zeros)) back =
    Some (Z.of_nat (length inbuf), inbuf).
Proof.
  intros Hp Hi Hb. unfold open_key, is_old_key. rewrite byte_at_app by reflexivity. cbn [bind]. rewrite Z.eqb_refl. cbn [negb bind].
  set (b := zeros ++ _). assert (Eb : b = (zeros ++ [CK_ENCRYPTED_BYTE]) ++ padding ++ 0 :: inbuf ++ above)
    by (unfold b; now rewrite <- app_assoc).
  assert (Lb : (length padding < length b)%nat) by (unfold b; rewrite length_app; cbn [length]; rewrite !length_app; cbn [length]; lia).
  replace (Z.of_nat (length zeros) + 1) with (Z.of_nat (length (zeros ++ [CK_ENCRYPTED_BYTE]))) by (rewrite length_app; cbn [length]; lia).
  rewrite Eb at 2. rewrite scan_up_app; [| exact Lb | exact Hp | reflexivity]. cbn [bind].
  set (f := Z.of_nat (length (zeros ++ [CK_ENCRYPTED_BYTE]) + length padding) + 1).
  assert (Ef : f = Z.of_nat (length zeros + 2 + length padding)) by (unfold f; rewrite length_app; cbn [length]; lia).
  assert (0 < length inbuf)%nat by (destruct inbuf; [contradiction | cbn [length]; lia]).
  rewrite (proj2 (Z.leb_gt _ _)) by lia. f_equal. replace back with (f + Z.of_nat (length inbuf)) by lia.
  replace b with ((zeros ++ CK_ENCRYPTED_BYTE :: padding ++ [0]) ++ inbuf ++ above)
    by (unfold b; rewrite <- !app_assoc; cbn [app]; now rewrite <- !app_assoc).
  apply copy_out_app. rewrite Ef, length_app. cbn [length]. rewrite length_app. cbn [length]. lia.
Qed.

(** A block with the ASN.1 prefix before a digest of 16 bytes is not taken for
    one of the old format. *)
Lemma not_old_digest a digest above back : length digest = 16%nat -> back = Z.of_nat (length a + 18 + 16) ->
  is_old_digest (a ++ asn_array ++ digest ++ above) back = Some false.
Proof.
  intros L ->. unfold is_old_digest. destruct (exists_last (l := digest)) as (d & x & ->); [intros ->; discriminate |].
  rewrite length_app in L. cbn [length] in L.
  replace (a ++ asn_array ++ (d ++ [x]) ++ above) with ((a ++ asn_array ++ d) ++ x :: above) by (rewrite <- !app_assoc; reflexivity).
  rewrite byte_at_app by (rewrite !length_app; change (length asn_array) with 18%nat; lia). cbn [bind].
  destruct (x =? MD_ENCRYPTED_BYTE); [| reflexivity].
  change asn_array with (firstn 17 asn_array ++ [0x10]).
  replace ((a ++ (firstn 17 asn_array ++ [0x10]) ++ d) ++ x :: above) with ((a ++ firstn 17 asn_array) ++ 0x10 :: d ++ x :: above)
    by (rewrite <- !app_assoc; reflexivity).
  rewrite byte_at_app; [reflexivity |]. rewrite length_app. change (length (firstn 17 asn_array)) with 17%nat. lia.
Qed.

Lemma open_digest_block zeros i digest above back : length digest = 16%nat ->
  back = Z.of_nat (length zeros + 2 + i + 18 + 16) ->
  open_digest (zeros ++ MD_ENCRYPTED_BYTE :: repeat 0xff i ++ 0 :: asn_array ++ digest ++ above) (Z.of_nat (length zeros)) back =
    Some (16, digest).
Proof.
  intros L Hb. set (b := zeros ++ _). set (pre := zeros ++ MD_ENCRYPTED_BYTE :: repeat 0xff i ++ [0]).
  assert (Ep : b = pre ++ asn_array ++ digest ++ above) by (unfold b, pre; rewrite <- !app_assoc; cbn [app]; now rewrite <- !app_assoc).
  assert (Lp : length pre = (length zeros + 2 + i)%nat) by (unfold pre; rewrite length_app; cbn [length]; rewrite length_app, repeat_length; cbn [length]; lia).
  unfold open_digest. rewrite Ep at 1. rewrite not_old_digest by (exact L || lia). cbn [bind].
  unfold b at 1. rewrite byte_at_app by reflexivity. cbn [bind]. rewrite Z.eqb_refl. cbn [negb].
  assert (Eb : b = (zeros ++ [MD_ENCRYPTED_BYTE]) ++ repeat 0xff i ++ 0 :: asn_array ++ digest ++ above) by (unfold b; now rewrite <- app_assoc).
  assert (Lb : (i < length b)%nat) by (rewrite Ep, length_app; lia).
  replace (Z.of_nat (length zeros) + 1) with (Z.of_nat (length (zeros ++ [MD_ENCRYPTED_BYTE]))) by (rewrite length_app; cbn [length]; lia).
  rewrite Eb at 2. rewrite scan_up_app; [| now rewrite repeat_length | | reflexivity]; [| apply Forall_forall; intros x Hx; apply repeat_spec in Hx as ->; reflexivity].
  cbn [bind]. set (f := Z.of_nat (length (zeros ++ [MD_ENCRYPTED_BYTE]) + _) + 1).
  assert (Ef : f = Z.of_nat (length pre)) by (unfold f; rewrite length_app, repeat_length; cbn [length]; lia).
  rewrite Eb at 1. rewrite (app_assoc (zeros ++ _) (repeat 0xff i)). rewrite byte_at_app by (rewrite length_app; lia).
  cbn [bind Z.eqb negb]. rewrite Ef, Ep, differs_app. cbn [bind]. change (Z.of_nat (length asn_array)) with 18.
  rewrite (proj2 (Z.ltb_ge _ _)) by lia. f_equal. replace back with (Z.of_nat (length pre) + 18 + Z.of_nat (length digest)) by lia.
  rewrite app_assoc, copy_out_app by (rewrite length_app; change (length asn_array) with 18%nat; lia). now rewrite L.
Qed.

(** ** Round trips *)

Lemma block_bytes n N : reg n N -> 0 < val N ->
  units2bytes (Z.of_nat (length N)) = 2 * Z.of_nat n /\ 0 <= countbytes N - 1 <= 2 * Z.of_nat n.
Proof.
  intros HN Hp. destruct (pow_countbytes n N HN Hp) as [C _]. split; [| lia].
  rewrite (reg_length _ _ HN). unfold units2bytes. rewrite shiftl_mul by lia. change (2 ^ 1) with 2. lia.
Qed.

(** What decryption finds in a register that holds a block. *)
Lemma open_block {A} n N payload above (k : option Z -> option A) : reg n N -> 0 < val N ->
  let z := Z.to_nat (units2bytes (Z.of_nat (length N)) - (countbytes N - 1)) in
  bind (skip_zeros z ((repeat 0 z ++ payload) ++ above) 0) k = k (Some (Z.of_nat (length (repeat 0 z)))).
Proof.
  intros HN Hp z. rewrite <- app_assoc. pose proof (skip_zeros_app [] z (payload ++ above)) as H. cbn [app length Nat.add] in H.
  change (Z.of_nat 0) with 0 in H. rewrite H. now rewrite repeat_length.
Qed.

Section RoundTrips.

Variables (W : Z) (n : nat) (junk above E D P Q U N : list Z).
Hypotheses (HW : 33 <= W) (Hj : reg n junk) (HK : rsa_key n E D P Q U N).

Lemma key_modulus : reg n N /\ 0 < val N.
Proof using HK.
  pose proof HK as [(_ & _ & _ & _ & _ & RN) _ Ho _ En _ _ _ _]. split; [exact RN |]. rewrite En. apply Z.mul_pos_pos; lia.
Qed.

Lemma encrypt_decrypt rand outbuf inbuf : Forall is_u8 inbuf -> inbuf <> [] -> Forall is_u8 rand ->
  Z.of_nat (length inbuf) + 3 <= countbytes N - 1 ->
  (Z.to_nat (countbytes N - 3 - Z.of_nat (length inbuf)) <= length (filter nonzero rand))%nat ->
  exists c, rsa_public_encrypt W rand outbuf inbuf E N = Some (0, c) /\ reg n c /\
    rsa_private_decrypt W junk above c D P Q U N = Some (Z.of_nat (length inbuf), inbuf).
Proof using All.
  intros Hi Hne Hr Hlen Hen. destruct key_modulus as [RN NP]. destruct (block_bytes n N RN NP) as [E2 C].
  unfold rsa_public_encrypt. rewrite (proj2 (Z.ltb_ge _ _)) by lia.
  replace (countbytes N - 1 - 2 - Z.of_nat (length inbuf)) with (countbytes N - 3 - Z.of_nat (length inbuf)) by lia.
  destruct (random_padding_spec _ rand Hen Hr) as (p & -> & Lp & F1 & F2). cbn [bind].
  set (payload := [CK_ENCRYPTED_BYTE] ++ p ++ [0] ++ inbuf).
  assert (Fp : Forall is_u8 payload) by (unfold payload; repeat (apply Forall_app; split); auto; repeat constructor; unfold is_u8, CK_ENCRYPTED_BYTE; lia).
  assert (Lpay : Z.of_nat (length payload) = countbytes N - 1) by (unfold payload; rewrite !length_app, Lp; cbn [length]; lia).
  destruct (block_register n N payload RN NP Fp Lpay) as (Rt & Bt & Et). set (z := Z.to_nat (units2bytes (Z.of_nat (length N)) - (countbytes N - 1))) in *.
  set (t := byte_units _) in *. destruct (public_power W n E D P Q U N HW HK t Rt Bt) as (c & -> & Rc & Vc). cbn [bind].
  change (if 0 <? 0 then -1 else 0) with 0. cbv iota. exists c. split; [reflexivity |]. split; [exact Rc |].
  unfold rsa_private_decrypt. destruct (private_power W n junk E D P Q U N HW Hj HK c Rc) as (r & -> & Rr & Br & Ep & Eq).
  cbn [bind]. change (0 <? 0) with false. cbv iota zeta. rewrite (proj2 (Z.ltb_ge _ _)) by lia. pose proof (val_range _ _ Rt).
  assert (r = t) as ->.
  { apply (val_inj n); [exact Rr | exact Rt |]. rewrite Vc in Ep, Eq.
    apply (decrypt_power n junk E D P Q U N Hj HK (val t) r ltac:(lia) Rr Br Ep Eq). }
  fold z. rewrite Et. unfold z. rewrite (open_block n) by assumption. fold z. rewrite <- app_assoc. unfold payload.
  cbn [app]. rewrite <- app_assoc. cbn [app]. apply open_key_block; [exact F2 | exact Hne |].
  rewrite repeat_length, E2, Lp. unfold z. lia.
Qed.

Lemma sign_verify outbuf digest : Forall is_u8 digest -> length digest = 16%nat -> 36 <= countbytes N - 1 ->
  exists s, rsa_private_encrypt W junk outbuf digest D P Q U N = Some (0, s) /\ reg n s /\
    rsa_public_decrypt W above s E N = Some (16, digest).
Proof using All.
  intros Hd Ld Hlen. destruct key_modulus as [RN NP]. destruct (block_bytes n N RN NP) as [E2 C].
  unfold rsa_private_encrypt. change (length asn_array) with 18%nat. rewrite Ld. rewrite (proj2 (Z.ltb_ge _ _)) by lia.
  set (i := Z.to_nat (countbytes N - 1 - 2 - Z.of_nat 16 - Z.of_nat 18)).
  set (payload := [MD_ENCRYPTED_BYTE] ++ repeat 0xff i ++ [0] ++ asn_array ++ digest).
  assert (Fp : Forall is_u8 payload).
  { unfold payload. repeat (apply Forall_app; split); auto; try (repeat constructor; unfold is_u8, MD_ENCRYPTED_BYTE; lia).
    apply Forall_forall. intros x Hx. apply repeat_spec in Hx as ->. unfold is_u8. lia. }
  assert (Lpay : Z.of_nat (length payload) = countbytes N - 1)
    by (unfold payload; rewrite !length_app, repeat_length, Ld; change (length asn_array) with 18%nat; cbn [length]; unfold i; lia).
  destruct (block_register n N payload RN NP Fp Lpay) as (Rt & Bt & Et). set (z := Z.to_nat (units2bytes (Z.of_nat (length N)) - (countbytes N - 1))) in *.
  set (t := byte_units _) in *. destruct (private_power W n junk E D P Q U N HW Hj HK t Rt) as (s & -> & Rs & Bs & Ep & Eq). cbn [bind].
  exists s. split; [reflexivity |]. split; [exact Rs |].
  unfold rsa_public_decrypt. destruct (public_power W n E D P Q U N HW HK s Rs Bs) as (r & -> & Rr & Vr).
  cbn [bind]. change (0 <? 0) with false. cbv iota zeta. rewrite (proj2 (Z.ltb_ge _ _)) by lia. pose proof (val_range _ _ Rt).
  assert (r = t) as ->.
  { apply (val_inj n); [exact Rr | exact Rt |]. rewrite Vr.
    apply (verify_power n junk E D P Q U N Hj HK (val t) s ltac:(lia) Ep Eq). }
  fold z. rewrite Et. unfold z. rewrite (open_block n) by assumption. fold z. rewrite <- app_assoc. unfold payload.
  cbn [app]. rewrite <- !app_assoc. cbn [app]. rewrite <- app_assoc. apply open_digest_block; [exact Ld |].
  rewrite repeat_length, E2. unfold z, i. lia.
Qed.

End RoundTrips.

(** ** Theorems *)

Lemma factor_residue x f k : 1 < f -> (f | k) -> 0 < k -> x mod k = 1 -> x mod f = 1.
Proof. intros Hf Hd Hk Hx. rewrite <- (mod_of_multiple x f k) by (lia || assumption). rewrite Hx. apply Z.mod_small. lia. Qed.

(** The components derived from two primes are a key. *)
Lemma derived_key n junk p q ebits : reg n junk -> reg n p -> reg n q -> prime (val p) -> prime (val q) ->
  2 ^ 32 <= val p < val q -> val q <= 2 * val p -> 2 * (val p * val q) < beta n ->
  exists k, derive_rsakeys junk p q ebits = Some k /\ rsa_key n (key_e k) (key_d k) p q (key_u k) (key_n k) /\
    val (key_n k) = val p * val q.
Proof.
  intros Hj Hp Hq Pp Pq Ho H2 Hfit.
  assert (Hn : (1 <= n)%nat) by (destruct n; [unfold beta in Hfit; change (2 ^ (16 * Z.of_nat 0)) with 1 in Hfit; nia | lia]).
  assert (Hc : Z.gcd (val p) (val q) = 1).
  { apply Zgcd_1_rel_prime. apply prime_rel_prime; [exact Pp |]. intros D. apply prime_div_prime in D; [lia | exact Pp | exact Pq]. }
  assert (Hodd : Z.odd (val p) = true).
  { destruct (Z.odd (val p)) eqn:E; [reflexivity |]. rewrite <- Z.negb_even in E. apply negb_false_iff, Z.even_spec in E as [h Eh].
    assert (D : (2 | val p)) by (exists h; lia). apply prime_div_prime in D; [lia | exact prime_2 | exact Pp]. }
  destruct (derive_ordered n junk p q ebits Hn Hj Hp Hq ltac:(lia) Hodd Hc Hfit) as (k & E & [(Rn & Re & Rd & Ru) On [Oe _] [_ Od] [[_ Ou1] Ou2]]).
  exists k. split; [exact E |]. split; [| exact On]. pose proof (lcm_bounds (val p - 1) (val q - 1) ltac:(lia) ltac:(lia)) as B.
  constructor; try lia; try tauto.
  - assert (val q * val q <= 2 * val p * val q) by (apply Z.mul_le_mono_nonneg_r; lia). lia.
  - apply (factor_residue _ _ (Z.lcm (val p - 1) (val q - 1))); [lia | apply Z.divide_lcm_l | lia | exact Od].
  - apply (factor_residue _ _ (Z.lcm (val p - 1) (val q - 1))); [lia | apply Z.divide_lcm_r | lia | exact Od].
Qed.

(** C25. For every key whose parts fit together and every message of bytes,
    [rsa_public_encrypt] refuses a message that leaves no room for padding with
    [-4]; otherwise, once [cryptRandByte] has yielded enough bytes that are not
    zero, it returns 0 and a block from which [rsa_private_decrypt] extracts
    exactly the message and its length, whatever the stack held. *)
Theorem rsa_encrypt_roundtrip W n junk above rand outbuf inbuf E D P Q U N :
  33 <= W -> reg n junk -> rsa_key n E D P Q U N -> Forall is_u8 inbuf -> inbuf <> [] -> Forall is_u8 rand ->
  (Z.to_nat (countbytes N - 3 - Z.of_nat (length inbuf)) <= length (filter nonzero rand))%nat ->
  if countbytes N <=? Z.of_nat (length inbuf) + 3
  then rsa_public_encrypt W rand outbuf inbuf E N = Some (-4, outbuf)
  else exists c, rsa_public_encrypt W rand outbuf inbuf E N = Some (0, c) /\
    rsa_private_decrypt W junk above c D P Q U N = Some (Z.of_nat (length inbuf), inbuf).
Proof.
  intros HW Hj HK Hi Hne Hr Hen. destruct (Z.leb_spec (countbytes N) (Z.of_nat (length inbuf) + 3)) as [L | G].
  - unfold rsa_public_encrypt. now rewrite (proj2 (Z.ltb_lt _ _)) by lia.
  - destruct (encrypt_decrypt W n junk above E D P Q U N HW Hj HK rand outbuf inbuf Hi Hne Hr ltac:(lia) Hen) as (c & Ec & _ & Ed). eauto.
Qed.


(** A prime of 150 bits and one of 151 bits. *)
Definition p150 : list Z := [1; 0; 0; 0; 0; 0; 0; 0; 0x4000; 0x3e; 0; 0; 0; 0; 0; 0; 0; 0; 0].
Definition q151 : list Z := [1; 0; 0; 0; 0; 0; 0; 0; 0xc000; 0x4e; 0; 0; 0; 0; 0; 0; 0; 0; 0].

Lemma p150_prime : prime (val p150).
Proof. change (val p150) with (249 * 2 ^ Z.of_nat 142 + 1). apply (proth 249 141 5); vm_compute; intuition discriminate. Qed.

Lemma q151_prime : prime (val q151).
Proof. change (val q151) with (315 * 2 ^ Z.of_nat 142 + 1). apply (proth 315 141 11); vm_compute; intuition discriminate. Qed.

Ltac concrete_reg := split; [reflexivity | repeat constructor; unfold is_u16; lia].

Lemma test_key : exists k, derive_rsakeys (repeat 0 19) p150 q151 5 = Some k /\
  rsa_key 19 (key_e k) (key_d k) p150 q151 (key_u k) (key_n k) /\ val (key_n k) = val p150 * val q151.
Proof.
  apply derived_key; [concrete_reg | concrete_reg | concrete_reg | exact p150_prime | exact q151_prime
    | vm_compute; intuition discriminate | vm_compute; discriminate | reflexivity].
Qed.

(** A modulus of 38 bytes. *)
Lemma test_key_bytes n N : reg n N -> val N = val p150 * val q151 -> countbytes N = 38.
Proof.
  intros HN EN. unfold countbytes. rewrite (countbits_unique n N 301 HN); [reflexivity | lia |]. rewrite EN. vm_compute. intuition discriminate.
Qed.

Lemma rsa_encrypt_roundtrip_witness : exists k c,
  derive_rsakeys (repeat 0 19) p150 q151 5 = Some k /\
  rsa_public_encrypt 64 (repeat 7 32) [] [1; 0; 255] (key_e k) (key_n k) = Some (0, c) /\
  rsa_private_decrypt 64 (repeat 0 19) [9] c (key_d k) p150 q151 (key_u k) (key_n k) = Some (3, [1; 0; 255]).
Proof.
  destruct test_key as (k & Ek & HK & EN). assert (RN : reg 19 (key_n k)) by apply HK.
  pose proof (test_key_bytes 19 (key_n k) RN EN) as C.
  pose proof (rsa_encrypt_roundtrip 64 19 (repeat 0 19) [9] (repeat 7 32) [] [1; 0; 255] _ _ _ _ _ _ ltac:(lia)
    ltac:(concrete_reg) HK ltac:(repeat constructor; unfold is_u8; lia) ltac:(discriminate) ltac:(repeat constructor; unfold is_u8; lia)) as T.
  rewrite C in T. destruct (T ltac:(vm_compute; repeat constructor)) as (c & Ec & Ed). exists k, c. auto.
Defined.

(** C27. For every key whose parts fit together with a modulus of at least 37 bytes
    and every digest of 16 bytes, [rsa_private_encrypt] returns 0 and a signature
    from which [rsa_public_decrypt] extracts exactly the digest: a signature in the
    new format is never taken for one in the old format. *)
Theorem rsa_sign_roundtrip W n junk above outbuf digest E D P Q U N :
  33 <= W -> reg n junk -> rsa_key n E D P Q U N -> Forall is_u8 digest -> length digest = 16%nat ->
  36 < countbytes N ->
  exists s, rsa_private_encrypt W junk outbuf digest D P Q U N = Some (0, s) /\
    rsa_public_decrypt W above s E N = Some (16, digest).
Proof.
  intros HW Hj HK Hd Ld G.
  destruct (sign_verify W n junk above E D P Q U N HW Hj HK outbuf digest Hd Ld ltac:(lia)) as (s & Es & _ & Ev). eauto.
Qed.

Lemma rsa_sign_roundtrip_witness : exists k s,
  derive_rsakeys (repeat 0 19) p150 q151 5 = Some k /\
  rsa_private_encrypt 64 (repeat 0 19) [] (repeat 5 16) (key_d k) p150 q151 (key_u k) (key_n k) = Some (0, s) /\
  rsa_public_decrypt 64 [9] s (key_e k) (key_n k) = Some (16, repeat 5 16).
Proof.
  destruct test_key as (k & Ek & HK & EN). assert (RN : reg 19 (key_n k)) by apply HK.
  pose proof (test_key_bytes 19 (key_n k) RN EN) as C.
  destruct (rsa_sign_roundtrip 64 19 (repeat 0 19) [9] [] (repeat 5 16) _ _ _ _ _ _ ltac:(lia)
    ltac:(concrete_reg) HK ltac:(repeat constructor; unfold is_u8; lia) eq_refl ltac:(rewrite C; reflexivity)) as (s & Es & Ed).
  exists k, s. auto.
Defined.



